(* ===== verification/_CoqProject ===== *)
-Q . S2P
Prelude.v
GoLib.v
Utf8.v
Decimal.v
DecimalValue.v
DecimalOrder.v
BigVal.v
Multiple.v
Constraints.v
Value.v
IR.v
Domain.v
Ids.v
Findings.v
Naming.v
Search.v
Composition.v
Registry.v
ConstraintsFold.v
Tarjan.v
Intervals.v
Alias.v
Hierarchy.v
Exposure.v
TypeGraph.v
Components.v
Traverse.v
Usage.v
FactIndex.v
Walk.v
WalkAlone.v
WalkTrace.v
WalkAsks.v
References.v
Text.v
Violations.v
RegistryRules.v
RegistrySound.v
Reflect.v
WalkRules.v
Acyclic.v
Verify.v
WalkSound.v
IdentityRules.v
VerifySound.v
VerifyRuns.v
TypeEdges.v
PassRules.v
Validate.v
PassNames.v
PassSound.v
PassScopes.v
PassRefs.v
PassClean.v
PassRuns.v
Effects.v
Detect.v
Stage.v
Engine.v
Cache.v
Runs.v
CacheRun.v
Budget.v
Pointer.v
NodeView.v
NodeMemo.v
NodeReads.v
NodeWalk.v
PostOrder.v
Amplify.v
OaIds.v
Spelling.v
Formats.v
FormatsSound.v
DeepEqual.v
Judge.v
JudgeSound.v
Fold.v
FoldSound.v
