(* ===== verification/Prelude.v ===== *)
(** * Morphic: verification of a spec-to-IR compiler

    Morphic reads an API description, lowers it to an intermediate
    representation (IR), runs passes over the document and judges the result.
    This development models the program's core logic as Rocq functions over its
    own data and proves what that logic promises. Definitions carry the source's
    names, and each file names the Go files it follows.

    ** The program and the files that model it

    _Numbers and constraints_ ([src/ir/decimal.go], [src/ir/bigval.go],
    [src/ir/constraints.go], [src/ir/value.go] and the package
    [src/compilers/openapi/internal/merge]).
    [Decimal] is the scanner and the decimal type, [DecimalValue] its grammar and
    denotation, [DecimalOrder] its order; [BigVal] the JSON
    spelling; [Multiple] steps and their common multiples; [Constraints] the
    keyword table and the fold two schemas joined by allOf take; [Value] typed
    values and the judgment of one against constraints; [ConstraintsFold] that
    the fold is the intersection. [int64] arithmetic wraps, [Prelude.i64], and is
    shown not to where it matters.

    _The IR_ ([src/ir]). [IR] is the data model, a record per struct; [Domain]
    the containment order of the primitive kinds; [Ids] the grammar of synthetic
    ids with the builders of [src/compilers/compile]; [Findings] diagnostics,
    inferred markers and path logs; [Naming] word segmentation over UTF-8
    ([Utf8]); [Search] and [Composition] the budgeted walks over supertypes and
    composed parts; [Traverse] the walk over operation groups.

    _Walks by reflection_ ([src/ir/walk.go], [references.go],
    [declarations.go]). [Walk] is the traversal of a value and its references over
    a store, carrying many visitors at once; [WalkAlone] and [WalkTrace] say what
    each is shown; [Acyclic] that a visitor is told of a cycle exactly where a
    value leads to itself; [References] gathers ids and what they resolve against
    over a table of types.

    _The structural verifier_ ([src/ir/irverify]). [Violations] is the report and
    its order; [RegistryRules] the checks that range over the registries of a
    document, with what they hold it to, and that their order is no matter, in
    [RegistrySound]. [Reflect] is the document as reflection shows
    it, a table of the package's types and each struct laid out in a store;
    [WalkRules] the rules over every value, by what each finds and where it stops,
    and [WalkSound] what they mean; [Text] what they read of strings. [Verify] is
    the verifier: checks that gather, the one walk they share, the sorted report.
    [IdentityRules] and [VerifySound] carry its contract, [VerifyRuns]
    states it and runs a document.

    _The built-in passes_ ([src/pass], [src/ir/edges.go]). [TypeEdges] is what a
    type definition refers to; [PassRules] the families of rules validation holds
    a document to, each as the diagnostics it reports, and [Validate] the walk
    they read, the families in turn and what a context is asked between them;
    [PassNames] the names pass. [WalkAsks] says when a walk stops; [PassSound],
    [PassScopes] and [PassRefs] the rule of each family, [PassClean] the contracts
    of both passes, [PassRuns] states them and runs a document.

    _The type registry of a compile_ ([src/compilers/compile/types.go],
    [promise.go], [settle.go]). [Registry] runs programs of registry operations,
    recursive interning and promised builds included.

    _Derived facts_ ([src/ir/irfacts]). [Tarjan] and [Intervals] are the graph
    algorithms on explicit stacks; [Alias], [Hierarchy], [Exposure],
    [TypeGraph], [Components] and [Usage] what is read of a document's types with
    them; [FactIndex] the index as state shared by concurrent callers, a step
    relation over every interleaving.

    _The pipeline_ ([src/compilers], [src/engine], [src/barrier]). [Effects] is
    the monad of code that calls the caller's code: a heap of documents, a clock a
    context is asked at, panics and errors. [Detect] is the compiler registry and
    its contract; [Stage] passes, their contract and the verdict; [Engine] a run
    from source to judged result; [Cache] keys, sealed entries and the cached
    run. [Runs] and [CacheRun] hold their theorems and the small build
    the witnesses run.

    _Merging redeclared fields_ ([src/compilers/openapi/internal/merge]).
    [Formats] is which texts are of a string format and which values a primitive
    kind admits; [DeepEqual] equality of nodes as [reflect.DeepEqual] answers it;
    [Judge] the judgment of two types of one field over the registry; [Fold] the
    fold of a field's declarations, what it composes, names and keeps, and the index
    that gathers the fields of a model. [FormatsSound], [JudgeSound] and [FoldSound]
    hold their theorems.

    _Reading OpenAPI documents_ ([src/compilers/openapi/internal], packages
    [budget], [nodeview], [scan], [ids], [spelling]). [Budget] is what every walk
    counts through; [Pointer] JSON pointers as the code builds and splits them.
    [NodeView] is a view over a graph of YAML nodes: aliases, merges, the memo of
    expanded mappings, key indices, pointers resolved; [NodeMemo] carries what [NodeReads] states of it. [NodeWalk] is the bounded
    walk, [PostOrder] the order of a walk that leaves a node after its children,
    [Amplify] the weigher of alias expansion. [OaIds] is every
    id of a document and [Spelling] the table of type formats.

    ** What the theorems show

    Parsing and arithmetic are exact against rational denotations
    ([ParseDecimal_correct], [Cmp_exact], [isMultipleOf_exact],
    [commonStep_exact]); folds are intersections ([fold_is_intersection]); texts
    round-trip ([ParseDecimal_String], [idFor_roundtrip], [PathLog_roundtrip]).
    Graph algorithms are exact against reachability ([run_components],
    [below_exact], [IsSubtype_exact], [ExposedProps_exact]) and bounded ones keep
    their budget. Where it refuses nothing the registry keeps one
    node per pointer, and finishing it always ends, with its promises kept where the
    context stood ([registry_one_node], [fulfil_keeps_promises]). Concurrent calls over one
    index answer as alone and always end ([index_answers], [index_replies]).
    Visitors that share a walk see what each would alone ([WalkValues_alone]), a
    walk to the end shows all its root leads to ([walkValues_shows_all]), and a
    reference is reported exactly when it names nothing ([Unresolved_exact]). The
    verifier is silent exactly on documents that keep every rule
    ([Verify_clean]), says the same whatever order maps are ranged in
    ([Verify_deterministic]) and finds every cycle ([checkCycles_exact]).
    Validation is silent exactly on documents that keep the rules of its families
    ([Validate_clean]), the first error its context answers decides whether it
    reports and never what ([Validate_context]), its reports are exact and sorted
    ([checkDanglingRefs_exact]), and a document the verifier accepts has no
    reference that dangles but to a property ([vetted_references]); the names pass lists exactly the parties of
    each name shared ([readScope_exact], [checkNames_clean]). Kinds called disjoint
    share no value ([Admits_relates]); the judgment of two types does not depend on
    which comes first ([relate_flipped]); a fold of declarations loses nothing
    silently ([fold_loses_nothing]), takes the type that holds the most of theirs, or
    one minted within its bounds, or the models they compose ([winner_holds_most]),
    and a model has one field per wire name in the order first declared
    ([settle_fields]). A view of a document answers every read as a fresh one would
    and says when merges were cut ([View_pure]); a bounded walk is the traversal of
    the tree ([Run_traversal]); ids tell schemas apart but for a document's root and
    its member of the empty name ([ForPointer_injective]). A run's result keeps
    its promises whatever compilers and passes do ([RunSpec_contract], [verified_run], [RunDocument_contract]), and a cached run
    makes what compiling would ([cached_run_same]).

    ** Fuel and bounds

    Loops that are not structural carry fuel computed from their input: digits
    of the text, vertices and edges of the graph, types of the registry and the
    edges they hold, parties of a scope. Each
    file shows its fuel never runs out, or its result is stated for the whole
    loop. Budgets the code itself counts ([IsSubtypeWithin], [ExposesWithin],
    [MaxGroupDepth]) are kept as they are.

    ** Parameters

    Go's Unicode tables, [strconv.Quote], SHA-256 and the JSON codec are
    parameters, with the laws a theorem uses as named hypotheses; so are whether
    bytes are one JSON value, the order a map is ranged in, whether the YAML
    library takes a key for a merge, what each ask of a context answers,
    [net/url.Parse], which texts write a reference and which positions read one
    against one base, what the registry a fold reads resolves and mints, and the
    compilers, passes, readers and stores a caller hands the engine.

    ** Not modelled

    Of [src/compilers/openapi/internal], the packages that bind, resolve and lower
    a document (schema, operation, bind, load and the
    rest not named above), and the JSON codec and edit trees of [src/ir], are not
    modelled. YAML nodes are the records a parser fills; parsing YAML is the
    library's. File, network and terminal
    I/O, the command line tools, test support and development tooling are out of
    scope: they hold no logic of the compile. *)
From Stdlib Require Export ZArith Lia QArith Qabs Qpower Lqa Ascii String.
From stdpp Require Export base tactics numbers list gmap sets strings sorting.

(** QArith opens its scope; the development writes [%Q] where it means it. *)
Close Scope Q_scope.
Open Scope nat_scope.
Open Scope list_scope.

(** A Go [string] is a sequence of bytes, and so is a [[]byte]. *)
Abbreviation gostring := (list ascii).

Declare Scope go_scope.
Delimit Scope go_scope with go.
Notation "'go' s" := (list_ascii_of_string s%string) (at level 1, s at level 0, only parsing) : go_scope.
Open Scope go_scope.

(** ** Results of fallible code *)

(** What a Go function returning [(T, error)] returns: a value, or the error. *)
Inductive result (E A : Type) : Type :=
  | Ok (a : A)
  | Err (e : E).
Arguments Ok {E A} a.
Arguments Err {E A} e.

#[export] Instance result_ret {E} : MRet (result E) := fun A a => Ok a.
#[export] Instance result_bind {E} : MBind (result E) := fun A B f c =>
  match c with Ok a => f a | Err e => Err e end.
#[export] Instance result_fmap {E} : FMap (result E) := fun A B f c =>
  match c with Ok a => Ok (f a) | Err e => Err e end.

Definition is_ok {E A} (r : result E A) : bool := match r with Ok _ => true | Err _ => false end.

(** ** Machine integers *)

(** Go's [int64]: a sum or product past its range wraps around. *)
Definition i64_min : Z := (- 2 ^ 63)%Z.
Definition i64_max : Z := (2 ^ 63 - 1)%Z.
Definition in_i64 (z : Z) : Prop := (i64_min <= z <= i64_max)%Z.
Definition i64 (z : Z) : Z := ((z + 2 ^ 63) mod 2 ^ 64 - 2 ^ 63)%Z.

Lemma i64_id z : in_i64 z → i64 z = z.
Proof. unfold in_i64, i64, i64_min, i64_max. intros H. rewrite Z.mod_small; lia. Qed.

Lemma i64_range z : in_i64 (i64 z).
Proof.
  unfold in_i64, i64, i64_min, i64_max.
  pose proof (Z.mod_pos_bound (z + 2 ^ 63) (2 ^ 64) ltac:(lia)). lia.
Qed.

(** ** Lists *)

Definition is_nil {A} (l : list A) : bool := match l with [] => true | _ => false end.
Lemma is_nil_true {A} (l : list A) : is_nil l = true ↔ l = [].
Proof. by destruct l. Qed.
Lemma is_nil_false {A} (l : list A) : is_nil l = false ↔ l ≠ [].
Proof. by destruct l. Qed.

Lemma filter_none {A} (P : A → Prop) `{∀ x, Decision (P x)} (l : list A) :
  (∀ x, x ∈ l → ¬ P x) → filter P l = [].
Proof.
  intros Hn. destruct (filter P l) as [|x r] eqn:E; [done|].
  assert (Hx : x ∈ filter P l) by (rewrite E; by left).
  apply list_elem_of_filter in Hx as [Hp Hx]. by apply Hn in Hx.
Qed.

Lemma elem_of_concat {A} (ls : list (list A)) x : x ∈ concat ls ↔ ∃ l, x ∈ l ∧ l ∈ ls.
Proof.
  induction ls as [|l ls IH]; simpl.
  - split; [by intros ?%elem_of_nil|]. by intros (? & _ & ?%elem_of_nil).
  - rewrite elem_of_app, IH. split.
    + intros [?|(l' & ? & ?)]; [exists l; split; [done|by left]|exists l'; split; [done|by right]].
    + intros (l' & ? & [->|?]%elem_of_cons); [by left|right; by exists l'].
Qed.

Lemma app_nil_iff {A} (l l' : list A) : l ++ l' = [] ↔ l = [] ∧ l' = [].
Proof. split; [apply app_nil|by intros [-> ->]]. Qed.

Lemma bind_nil_iff {A B} (f : A → list B) (l : list A) : l ≫= f = [] ↔ ∀ x, x ∈ l → f x = [].
Proof.
  induction l as [|x l IH]; [split; [by intros _ y ?%elem_of_nil|done]|]. rewrite bind_cons, app_nil_iff, IH. split.
  - intros [Hx Hl] y [->|Hy]%elem_of_cons; auto.
  - intros Hall. split; [apply Hall; by left|intros y Hy; apply Hall; by right].
Qed.

Lemma bind_ext_in {A B : Type} (f g : A → list B) (l : list A) : (∀ x, x ∈ l → f x = g x) → l ≫= f = l ≫= g.
Proof.
  induction l as [|x l IH]; intros H; [done|]. rewrite !bind_cons, (H x), IH; [done| |by left]. intros y Hy. apply H. by right.
Qed.

Lemma NoDup_snoc {A : Type} (l : list A) x : NoDup (l ++ [x]) ↔ NoDup l ∧ x ∉ l.
Proof. rewrite NoDup_app. pose proof (NoDup_singleton x). set_solver. Qed.

Lemma filter_nil_iff {A} (P : A → Prop) `{∀ x, Decision (P x)} (l : list A) : filter P l = [] ↔ ∀ x, x ∈ l → ¬ P x.
Proof.
  split; [|apply filter_none]. intros E x Hx HP. assert (Hf : x ∈ filter P l) by by apply list_elem_of_filter. rewrite E in Hf. by apply elem_of_nil in Hf.
Qed.

Lemma fmap_nil_iff {A B} (f : A → B) (l : list A) : f <$> l = [] ↔ l = [].
Proof. by destruct l. Qed.

(** ** Finite sets *)

(** What is left of a set once one more of its elements was seen. *)
Lemma size_fresh `{Countable A} (X seen : gset A) x :
  x ∈ X → x ∉ seen → S (size (X ∖ ({[x]} ∪ seen))) = size (X ∖ seen).
Proof.
  intros Hx Hs. replace (X ∖ seen) with ({[x]} ∪ X ∖ ({[x]} ∪ seen)).
  - rewrite (size_union {[x]} (X ∖ ({[x]} ∪ seen))) by set_solver. by rewrite size_singleton.
  - apply leibniz_equiv. intros y. destruct (decide (y = x)); set_solver.
Qed.

Lemma size_of_list_le `{Countable A} (l : list A) : size (list_to_set (C := gset A) l) ≤ length l.
Proof.
  induction l as [|x l IH]; [done|]. change (list_to_set (x :: l)) with ({[x]} ∪ list_to_set (C := gset A) l).
  rewrite size_union_alt, size_singleton. simpl.
  assert (size (list_to_set (C := gset A) l ∖ {[x]}) ≤ size (list_to_set (C := gset A) l)); [|lia].
  apply subseteq_size. intros y Hy. by apply elem_of_difference in Hy as [? _].
Qed.

Lemma filter_iff_in {A} (P Q : A → Prop) `{∀ x, Decision (P x), ∀ x, Decision (Q x)} (l : list A) :
  (∀ x, x ∈ l → P x ↔ Q x) → filter P l = filter Q l.
Proof.
  induction l as [|x l IH]; intros Hpq; [done|]. rewrite !filter_cons, IH by (intros y Hy; apply Hpq; by right).
  assert (P x ↔ Q x) by (apply Hpq; by left). destruct (decide (P x)), (decide (Q x)); tauto || done.
Qed.

(** What is left to queue once some nodes were expanded, each of a weight. *)
Definition unseen_sum `{Countable A} (weight : A → nat) (universe : list A) (seen : gset A) : nat := sum_list (weight <$> filter (λ t, t ∉ seen) universe).
Lemma unseen_sum_step `{Countable A} (weight : A → nat) (universe : list A) (seen : gset A) t : NoDup universe → t ∈ universe → t ∉ seen →
  unseen_sum weight universe seen = unseen_sum weight universe ({[t]} ∪ seen) + weight t.
Proof.
  intros Hnd Ht Hs. unfold unseen_sum. induction Hnd as [|x l Hx Hl IH]; [by apply elem_of_nil in Ht|]. rewrite !filter_cons.
  apply elem_of_cons in Ht as [<-|Ht].
  - rewrite decide_True by done. rewrite decide_False by set_solver. rewrite fmap_cons. cbn [sum_list]. rewrite Nat.add_comm. f_equal. do 2 f_equal.
    apply filter_iff_in. intros y Hy. assert (y ≠ t) by congruence. set_solver.
  - assert (x ≠ t) by congruence. destruct (decide (x ∉ seen)); [rewrite decide_True by set_solver|rewrite decide_False by set_solver];
      rewrite ?fmap_cons; cbn [sum_list]; rewrite IH by done; lia.
Qed.
Lemma unseen_sum_start `{Countable A} (weight : A → nat) (universe : list A) : unseen_sum weight universe ∅ = sum_list (weight <$> universe).
Proof.
  unfold unseen_sum. replace (filter _ universe) with universe; [done|]. clear. induction universe as [|t l IH]; [done|].
  rewrite filter_cons_True by apply not_elem_of_empty. by f_equal.
Qed.
