(* ===== verification/GoLib.v ===== *)
(** * GoLib: the Go standard library functions the modelled code calls

    Each is what the Go documentation of [strings], [strconv], [cmp] and
    [slices] says of it, on byte strings. *)
From S2P Require Import Prelude.

(** A byte as the number Go's [byte] is. *)
Definition code (c : ascii) : Z := Z.of_N (N_of_ascii c).

Lemma code_inj c d : code c = code d → c = d.
Proof.
  unfold code. intros H. apply N2Z.inj in H.
  by rewrite <- (ascii_N_embedding c), <- (ascii_N_embedding d), H.
Qed.

Lemma code_range c : (0 <= code c < 256)%Z.
Proof. unfold code. pose proof (N_ascii_bounded c). lia. Qed.

(** ** Slices *)

(** [s[i:j]] *)
Definition slice (s : gostring) (i j : nat) : gostring := take (j - i) (drop i s).

(** [strings.TrimLeft(s, "0")], for any one-byte cutset. *)
Fixpoint TrimLeft (cut : ascii) (s : gostring) : gostring :=
  match s with
  | c :: r => if decide (c = cut) then TrimLeft cut r else s
  | [] => []
  end.

(** [strings.TrimRight(s, "0")] *)
Definition TrimRight (cut : ascii) (s : gostring) : gostring := reverse (TrimLeft cut (reverse s)).

(** [strings.Compare]: lexical order on bytes. *)
Fixpoint strings_Compare (a b : gostring) : Z :=
  match a, b with
  | [], [] => 0
  | [], _ :: _ => -1
  | _ :: _, [] => 1
  | c :: a', d :: b' =>
      if (code c <? code d)%Z then (-1)%Z
      else if (code d <? code c)%Z then 1%Z
      else strings_Compare a' b'
  end%Z.

(** [cmp.Compare] at an integer type. *)
Definition cmp_Compare (x y : Z) : Z :=
  if (x <? y)%Z then (-1)%Z else if (y <? x)%Z then 1%Z else 0%Z.

(** [strings.CutPrefix] *)
Fixpoint CutPrefix (s prefix : gostring) : option gostring :=
  match prefix, s with
  | [], _ => Some s
  | c :: p, d :: r => if decide (c = d) then CutPrefix r p else None
  | _ :: _, [] => None
  end.

(** [strings.TrimPrefix] *)
Definition TrimPrefix (s prefix : gostring) : gostring :=
  match CutPrefix s prefix with Some r => r | None => s end.

(** [strings.Cut] on a one-byte separator: what comes before the first one,
    what comes after it, and whether there is one. *)
Fixpoint Cut (s : gostring) (sep : ascii) : gostring * gostring * bool :=
  match s with
  | [] => ([], [], false)
  | c :: r => if decide (c = sep) then ([], r, true)
              else let '(before, after, found) := Cut r sep in (c :: before, after, found)
  end.

(** [strings.Join] *)
Fixpoint strings_Join (parts : list gostring) (sep : gostring) : gostring :=
  match parts with
  | [] => []
  | [p] => p
  | p :: ps => p ++ sep ++ strings_Join ps sep
  end.

(** ** Decimal digits *)

Definition digit_char (d : Z) : ascii := ascii_of_N (Z.to_N (48 + d)).

(** [strconv.FormatInt(z, 10)]: the sign of a negative number, then its digits
    most significant first. [fuel] bounds the digits. *)
Fixpoint format_digits (fuel : nat) (z : Z) (acc : gostring) : gostring :=
  match fuel with
  | O => acc
  | S fuel =>
      let acc := digit_char (z mod 10) :: acc in
      if (z / 10 =? 0)%Z then acc else format_digits fuel (z / 10) acc
  end.

(** A number below 2^k has at most k decimal digits, and at least one. *)
Definition format_fuel (z : Z) : nat := S (Z.to_nat (Z.log2 z)).
Definition FormatUint (z : Z) : gostring := format_digits (format_fuel z) z [].
Definition FormatInt (z : Z) : gostring :=
  if (z <? 0)%Z then "-"%char :: FormatUint (- z) else FormatUint z.

(** The number a run of digits spells. *)
Definition digit_value (c : ascii) : Z := (code c - 48)%Z.
Definition digits_value_from (acc : Z) (s : gostring) : Z :=
  foldl (λ a c, (a * 10 + digit_value c)%Z) acc s.
Definition digits_value (s : gostring) : Z := digits_value_from 0 s.

(** A byte that is a decimal digit. *)
Definition is_digit (c : ascii) : Prop := (48 <= code c <= 57)%Z.
#[export] Instance is_digit_dec c : Decision (is_digit c).
Proof. unfold is_digit. apply _. Defined.
Definition all_digits (s : gostring) : Prop := Forall is_digit s.

(** ** Facts *)

Lemma code_digit_char d : (0 <= d <= 9)%Z → code (digit_char d) = (48 + d)%Z.
Proof. intros H. unfold code, digit_char. rewrite N_ascii_embedding; lia. Qed.

Lemma is_digit_digit_char d : (0 <= d <= 9)%Z → is_digit (digit_char d).
Proof. intros H. unfold is_digit. rewrite code_digit_char; lia. Qed.

Lemma digit_value_digit_char d : (0 <= d <= 9)%Z → digit_value (digit_char d) = d.
Proof. intros H. unfold digit_value. rewrite code_digit_char; lia. Qed.

Lemma digit_value_range c : is_digit c → (0 <= digit_value c <= 9)%Z.
Proof. unfold is_digit, digit_value. lia. Qed.

Lemma digits_value_from_app acc a b :
  digits_value_from acc (a ++ b) = digits_value_from (digits_value_from acc a) b.
Proof. unfold digits_value_from. by rewrite foldl_app. Qed.

Lemma digits_value_from_shift acc s :
  digits_value_from acc s = (acc * 10 ^ Z.of_nat (length s) + digits_value s)%Z.
Proof.
  unfold digits_value. revert acc. induction s as [|c s IH]; intros acc; simpl; [lia|].
  unfold digits_value_from in *. simpl. rewrite IH, (IH (0 * 10 + digit_value c)%Z).
  replace (Z.of_nat (S (length s))) with (Z.of_nat (length s) + 1)%Z by lia.
  rewrite Z.pow_add_r by lia. lia.
Qed.

Lemma digits_value_nil : digits_value [] = 0%Z.
Proof. done. Qed.

Lemma digits_value_cons c s :
  digits_value (c :: s) = (digit_value c * 10 ^ Z.of_nat (length s) + digits_value s)%Z.
Proof.
  change (digits_value (c :: s)) with (digits_value_from (0 * 10 + digit_value c) s).
  by rewrite digits_value_from_shift, Z.add_0_l.
Qed.

Lemma digits_value_app a b :
  digits_value (a ++ b) = (digits_value a * 10 ^ Z.of_nat (length b) + digits_value b)%Z.
Proof.
  unfold digits_value at 1. rewrite digits_value_from_app. apply digits_value_from_shift.
Qed.

Lemma digits_value_bound s :
  all_digits s → (0 <= digits_value s < 10 ^ Z.of_nat (length s))%Z.
Proof.
  induction 1 as [|c s Hc _ IH]; [done|].
  rewrite digits_value_cons. simpl length.
  pose proof (digit_value_range c Hc).
  replace (Z.of_nat (S (length s))) with (Z.of_nat (length s) + 1)%Z by lia.
  rewrite Z.pow_add_r by lia. nia.
Qed.

Lemma digit_of_mod z : (0 <= z mod 10 <= 9)%Z.
Proof. pose proof (Z.mod_pos_bound z 10). lia. Qed.

Lemma format_digits_spec fuel z acc :
  (0 <= z < 10 ^ Z.of_nat (S fuel))%Z → all_digits acc →
  let out := format_digits (S fuel) z acc in
  all_digits out ∧
  digits_value out = (z * 10 ^ Z.of_nat (length acc) + digits_value acc)%Z ∧
  ∃ d, out = d ++ acc ∧ d ≠ [].
Proof.
  revert z acc. induction fuel as [|fuel IH]; intros z acc Hz Hacc; simpl.
  all: pose proof (digit_of_mod z) as Hd.
  all: assert (Hcons : all_digits (digit_char (z mod 10) :: acc))
    by (constructor; [by apply is_digit_digit_char|done]).
  all: assert (Hval : digits_value (digit_char (z mod 10) :: acc) =
    (z mod 10 * 10 ^ Z.of_nat (length acc) + digits_value acc)%Z)
    by (rewrite digits_value_cons, digit_value_digit_char; lia).
  all: pose proof (Z.div_mod z 10 ltac:(lia)) as Hdm.
  - assert (z / 10 = 0)%Z as H0 by (apply Z.div_small; simpl in Hz; lia).
    rewrite H0. simpl. split_and!; [done| |by exists [digit_char (z mod 10)]].
    rewrite Hval. f_equal. f_equal. lia.
  - destruct (z / 10 =? 0)%Z eqn:E.
    + apply Z.eqb_eq in E. split_and!; [done| |by exists [digit_char (z mod 10)]].
      rewrite Hval. f_equal. f_equal. lia.
    + change (Z.of_nat (S (S fuel))) with (Z.of_nat (S (S fuel))) in Hz.
      destruct (IH (z / 10)%Z (digit_char (z mod 10) :: acc)) as (H1 & H2 & d & H3 & H4);
        [|done|].
      { split; [apply Z.div_pos; lia|]. apply Z.div_lt_upper_bound; [lia|].
        replace (Z.of_nat (S (S fuel))) with (1 + Z.of_nat (S fuel))%Z in Hz by lia.
        rewrite Z.pow_add_r in Hz by lia. lia. }
      cbn [format_digits] in *. split_and!; [done| |].
      * rewrite H2, Hval. simpl length.
        replace (Z.of_nat (S (length acc))) with (Z.of_nat (length acc) + 1)%Z by lia.
        rewrite Z.pow_add_r by lia. rewrite Hdm at 3. lia.
      * exists (d ++ [digit_char (z mod 10)]). rewrite H3, <- app_assoc. split; [done|].
        by destruct d.
Qed.

Lemma FormatUint_spec z :
  (0 <= z)%Z →
  all_digits (FormatUint z) ∧ digits_value (FormatUint z) = z ∧ FormatUint z ≠ [].
Proof.
  intros Hz. unfold FormatUint, format_fuel.
  destruct (format_digits_spec (Z.to_nat (Z.log2 z)) z []) as (H1 & H2 & d & H3 & H4); [|constructor|].
  - split; [done|]. destruct (decide (z = 0)%Z) as [->|]; [done|].
    pose proof (Z.log2_spec z ltac:(lia)) as [_ Hlog].
    pose proof (Z.log2_nonneg z).
    replace (Z.of_nat (S (Z.to_nat (Z.log2 z)))) with (Z.succ (Z.log2 z)) by lia.
    eapply Z.lt_le_trans; [exact Hlog|]. apply Z.pow_le_mono_l. lia.
  - cbv zeta in *. split_and!; [done| |].
    + rewrite H2, digits_value_nil. simpl. lia.
    + rewrite H3. by destruct d.
Qed.

(** ** Trimming *)

Lemma TrimLeft_split cut s :
  ∃ k, s = replicate k cut ++ TrimLeft cut s ∧ head (TrimLeft cut s) ≠ Some cut.
Proof.
  induction s as [|c s (k & IH & Hh)]; simpl.
  - by exists 0.
  - destruct (decide (c = cut)) as [->|Hne].
    + exists (S k). simpl. by rewrite <- IH.
    + exists 0. simpl. split; [done|]. congruence.
Qed.

Lemma TrimLeft_id cut s : head s ≠ Some cut → TrimLeft cut s = s.
Proof. destruct s as [|c s]; [done|]. simpl. case_decide; congruence. Qed.

Lemma TrimLeft_replicate cut k s :
  head s ≠ Some cut → TrimLeft cut (replicate k cut ++ s) = s.
Proof.
  intros H. induction k as [|k IH]; simpl; [by apply TrimLeft_id|].
  by rewrite decide_True.
Qed.

Lemma TrimRight_split cut s :
  ∃ k, s = TrimRight cut s ++ replicate k cut ∧ last (TrimRight cut s) ≠ Some cut.
Proof.
  unfold TrimRight. destruct (TrimLeft_split cut (reverse s)) as (k & H & Hh).
  exists k. split.
  - rewrite <- (reverse_involutive s), H at 1.
    by rewrite reverse_app, reverse_replicate.
  - by rewrite last_reverse.
Qed.

Lemma TrimRight_id cut s : last s ≠ Some cut → TrimRight cut s = s.
Proof.
  intros H. unfold TrimRight. rewrite TrimLeft_id, reverse_involutive; [done|].
  by rewrite head_reverse.
Qed.

Lemma digits_value_replicate_0 k : digits_value (replicate k "0"%char) = 0%Z.
Proof. induction k as [|k IH]; [done|]. simpl. rewrite digits_value_cons, IH. done. Qed.

Lemma digits_value_TrimLeft s : digits_value (TrimLeft "0" s) = digits_value s.
Proof.
  destruct (TrimLeft_split "0" s) as (k & H & _). rewrite H at 2.
  rewrite digits_value_app, digits_value_replicate_0. lia.
Qed.

Lemma TrimLeft_suffix cut s : TrimLeft cut s `suffix_of` s.
Proof. destruct (TrimLeft_split cut s) as (k & H & _). by exists (replicate k cut). Qed.

Lemma TrimLeft_length cut s : length (TrimLeft cut s) ≤ length s.
Proof. apply suffix_length, TrimLeft_suffix. Qed.

Lemma TrimLeft_nil_iff cut s : TrimLeft cut s = [] ↔ Forall (.= cut) s.
Proof.
  destruct (TrimLeft_split cut s) as (k & H & Hh). split.
  - intros E. rewrite E, app_nil_r in H. rewrite H. by apply Forall_replicate.
  - clear. induction 1 as [|c s -> _ IH]; [done|]. simpl. by rewrite decide_True.
Qed.

Lemma all_digits_app a b : all_digits (a ++ b) ↔ all_digits a ∧ all_digits b.
Proof. apply Forall_app. Qed.

Lemma all_digits_TrimLeft cut s : all_digits s → all_digits (TrimLeft cut s).
Proof.
  destruct (TrimLeft_split cut s) as (k & H & _). rewrite H at 1. by intros [_ ?]%all_digits_app.
Qed.

Lemma all_digits_TrimRight cut s : all_digits s → all_digits (TrimRight cut s).
Proof.
  destruct (TrimRight_split cut s) as (k & H & _). rewrite H at 1. by intros [? _]%all_digits_app.
Qed.

(** ** The order of strings *)

Lemma strings_Compare_eq (a b : gostring) : strings_Compare a b = 0%Z ↔ a = b.
Proof.
  revert b. induction a as [|c a IH]; intros [|d b]; cbn [strings_Compare]; try (split; done).
  destruct (Z.ltb_spec (code c) (code d)); [split; [done|intros [= -> ->]; lia]|].
  destruct (Z.ltb_spec (code d) (code c)); [split; [done|intros [= -> ->]; lia]|].
  assert (c = d) as -> by (apply code_inj; lia). rewrite IH. split; congruence.
Qed.

Definition string_le (a b : gostring) : Prop := (strings_Compare a b <= 0)%Z.
#[export] Instance string_le_dec a b : Decision (string_le a b).
Proof. unfold string_le. apply _. Defined.

Lemma string_le_cons c d a b : string_le (c :: a) (d :: b) ↔ (code c < code d)%Z ∨ (c = d ∧ string_le a b).
Proof.
  unfold string_le. cbn [strings_Compare]. destruct (Z.ltb_spec (code c) (code d)); [split; [by left|lia]|].
  destruct (Z.ltb_spec (code d) (code c)).
  - split; [lia|]. intros [?|[-> _]]; lia.
  - assert (c = d) as -> by (apply code_inj; lia). split; [by right|]. intros [?|[_ ?]]; [lia|done].
Qed.

#[export] Instance string_le_trans : Transitive string_le.
Proof.
  intros a. induction a as [|c a IH]; intros [|d b] [|e r]; try done.
  rewrite !string_le_cons. intros [?|[-> ?]] [?|[-> ?]]; [left; lia|by left|by left|right; split; [done|by eapply IH]].
Qed.

#[export] Instance string_le_total : Total string_le.
Proof.
  intros a. induction a as [|c a IH]; intros [|d b]; [by left|by left|by right|]. rewrite !string_le_cons.
  destruct (Z.lt_trichotomy (code c) (code d)) as [?|[E|?]]; [by left; left| |by right; left].
  apply code_inj in E as ->. destruct (IH b); [left|right]; by right.
Qed.

#[export] Instance string_le_antisym : AntiSymm eq string_le.
Proof.
  intros a. induction a as [|c a IH]; intros [|d b]; try done. rewrite !string_le_cons.
  intros [?|[-> ?]] [?|[E ?]]; try lia; [subst; lia|]. f_equal. by apply IH.
Qed.

(** [slices.Sorted(maps.Keys(m))] *)
Definition sorted_keys {A} (m : gmap gostring A) : list gostring := merge_sort string_le (elements (dom m)).

Lemma elem_of_sorted_keys {A} (m : gmap gostring A) x : x ∈ sorted_keys m ↔ x ∈ dom m.
Proof. unfold sorted_keys. by rewrite merge_sort_Permutation, elem_of_elements. Qed.

Lemma sorted_keys_nodup {A} (m : gmap gostring A) : NoDup (sorted_keys m).
Proof. unfold sorted_keys. rewrite merge_sort_Permutation. apply NoDup_elements. Qed.
