(* ===== verification/Utf8.v ===== *)
(** * Utf8: Go's reading of a string as runes ([unicode/utf8])

    A rune is a number; a byte that begins no valid encoding reads as
    [RuneError] of width 1, and an empty string as [RuneError] of width 0. *)
From S2P Require Import Prelude GoLib.
Implicit Types (s : gostring) (c : ascii).

Definition RuneError : Z := 65533.  (* U+FFFD *)

Definition in_range (lo hi : Z) (c : ascii) : bool := ((lo <=? code c) && (code c <=? hi))%Z.
Definition is_cont (c : ascii) : bool := in_range 128 191 c.
Definition tail6 (c : ascii) : Z := (code c - 128)%Z.

(** The range of the second byte of an encoding whose first byte is [c]. *)
Definition second_range (c : ascii) : Z * Z :=
  if (code c =? 224)%Z then (160, 191)%Z
  else if (code c =? 237)%Z then (128, 159)%Z
  else if (code c =? 240)%Z then (144, 191)%Z
  else if (code c =? 244)%Z then (128, 143)%Z
  else (128, 191)%Z.
Definition second_ok (c d : ascii) : bool := let '(lo, hi) := second_range c in in_range lo hi d.

Definition DecodeRuneInString s : Z * nat :=
  match s with
  | [] => (RuneError, 0)
  | c :: r =>
      if (code c <? 128)%Z then (code c, 1)
      else if in_range 194 223 c then
        match r with
        | d :: _ => if is_cont d then (((code c - 192) * 64 + tail6 d)%Z, 2) else (RuneError, 1)
        | _ => (RuneError, 1)
        end
      else if in_range 224 239 c then
        match r with
        | d :: e :: _ => if second_ok c d && is_cont e
                         then (((code c - 224) * 4096 + tail6 d * 64 + tail6 e)%Z, 3) else (RuneError, 1)
        | _ => (RuneError, 1)
        end
      else if in_range 240 244 c then
        match r with
        | d :: e :: f :: _ => if second_ok c d && is_cont e && is_cont f
                              then (((code c - 240) * 262144 + tail6 d * 4096 + tail6 e * 64 + tail6 f)%Z, 4)
                              else (RuneError, 1)
        | _ => (RuneError, 1)
        end
      else (RuneError, 1)
  end.

(** Every nonempty text yields a rune of positive width. *)
Lemma DecodeRune_width s : s ≠ [] → 1 ≤ (DecodeRuneInString s).2 ≤ length s.
Proof.
  destruct s as [|c r]; [done|intros _]. unfold DecodeRuneInString.
  repeat (case_match; simpl; try lia).
Qed.

(** The runes of [s] as [for i, r := range s] yields them. [fuel] is the text's
    length: each rune takes at least one byte. *)
Fixpoint runes_from (fuel : nat) s : list Z :=
  match fuel with
  | O => []
  | S fuel =>
      match s with
      | [] => []
      | _ => let '(r, size) := DecodeRuneInString s in r :: runes_from fuel (drop size s)
      end
  end.
Definition runes s : list Z := runes_from (length s) s.

Definition RuneCountInString s : nat := length (runes s).

(** A byte that begins no encoding reads as a rune of width 1. *)
Definition undecoded s : bool := let '(r, size) := DecodeRuneInString s in (r =? RuneError)%Z && (size =? 1).

(** [strings.ToValidUTF8]: each run of bytes that do not decode becomes the
    replacement. *)
Fixpoint to_valid (fuel : nat) (in_run : bool) (replacement s : gostring) : gostring :=
  match fuel, s with
  | O, _ | _, [] => []
  | S fuel, c :: rest =>
      if undecoded s then (if in_run then [] else replacement) ++ to_valid fuel true replacement rest
      else let size := (DecodeRuneInString s).2 in take size s ++ to_valid fuel false replacement (drop size s)
  end.
Definition ToValidUTF8 s replacement : gostring := to_valid (length s) false replacement s.

Lemma runes_from_enough fuel s : length s ≤ fuel → runes_from fuel s = runes s.
Proof.
  unfold runes. revert s.
  assert (H : ∀ n m s, length s ≤ n → length s ≤ m → runes_from n s = runes_from m s).
  { induction n as [|n IH]; intros m s Hn Hm; [by destruct s; destruct m; simpl in *; try lia|].
    destruct m as [|m]; [by destruct s; simpl in *; try lia|].
    destruct s as [|c r]; [done|]. cbn [runes_from].
    pose proof (DecodeRune_width (c :: r) ltac:(done)) as Hw.
    destruct (DecodeRuneInString (c :: r)) as [rune size]. cbn [snd] in Hw. f_equal.
    apply IH; rewrite length_drop; lia. }
  intros s Hs. by apply H.
Qed.

Lemma runes_cons s : s ≠ [] → runes s = (DecodeRuneInString s).1 :: runes (drop (DecodeRuneInString s).2 s).
Proof.
  intros Hs. pose proof (DecodeRune_width s Hs) as Hw. destruct s as [|c r]; [done|].
  unfold runes at 1. simpl length. cbn [runes_from].
  destruct (DecodeRuneInString (c :: r)) as [rune size]. cbn [fst snd] in *. f_equal.
  apply runes_from_enough. rewrite length_drop. simpl length in *. lia.
Qed.

(** [utf8.AppendRune]: the encoding of a valid rune. *)
Definition byte_of (z : Z) : ascii := ascii_of_N (Z.to_N z).
Definition valid_rune (r : Z) : bool :=
  ((0 <=? r) && (r <? 55296) || (57344 <=? r) && (r <=? 1114111))%Z.
Definition EncodeRune (r : Z) : gostring :=
  let r := if valid_rune r then r else RuneError in
  if (r <? 128)%Z then [byte_of r]
  else if (r <? 2048)%Z then [byte_of (192 + r / 64); byte_of (128 + r mod 64)]
  else if (r <? 65536)%Z then
    [byte_of (224 + r / 4096); byte_of (128 + r / 64 mod 64); byte_of (128 + r mod 64)]
  else [byte_of (240 + r / 262144); byte_of (128 + r / 4096 mod 64); byte_of (128 + r / 64 mod 64);
        byte_of (128 + r mod 64)].

Example decode_e_acute : runes (go "é!") = [233; 33]%Z.
Proof. reflexivity. Qed.
Example decode_double_struck : runes (EncodeRune 8484) = [8484]%Z.
Proof. reflexivity. Qed.
Example decode_bad : runes [byte_of 255; "a"%char] = [RuneError; 97]%Z.
Proof. reflexivity. Qed.

(** ** Encoding and decoding *)

Lemma code_byte_of z : (0 <= z < 256)%Z → code (byte_of z) = z.
Proof. intros H. unfold code, byte_of. rewrite N_ascii_embedding; [lia|]. lia. Qed.

Lemma byte_of_code c : byte_of (code c) = c.
Proof. unfold code, byte_of. by rewrite N2Z.id, ascii_N_embedding. Qed.

Ltac euclid := Z.to_euclidean_division_equations; lia.

Ltac decoded :=
  repeat (case_match; simplify_eq; try (exfalso; euclid)); simplify_eq; first [f_equal; euclid | exfalso; euclid].

Lemma Decode_Encode r rest :
  valid_rune r = true → DecodeRuneInString (EncodeRune r ++ rest) = (r, length (EncodeRune r)).
Proof.
  intros Hv. unfold EncodeRune. rewrite Hv.
  assert (Hr : (0 <= r < 55296 ∨ 57344 <= r <= 1114111)%Z) by (unfold valid_rune in Hv; lia). clear Hv.
  destruct (Z.ltb_spec r 128); [|destruct (Z.ltb_spec r 2048); [|destruct (Z.ltb_spec r 65536)]];
    cbn [app length DecodeRuneInString]; unfold second_ok, second_range, is_cont, in_range, tail6;
    rewrite !code_byte_of by euclid.
  - by rewrite (proj2 (Z.ltb_lt _ _)) by lia.
  - decoded.
  - decoded.
  - decoded.
Qed.

Ltac split_if E := match goal with |- context [if ?b then _ else _] => destruct b eqn:E end.

Lemma Decode_valid s r size :
  DecodeRuneInString s = (r, size) → r ≠ RuneError →
  valid_rune r = true ∧ size = length (EncodeRune r) ∧ s = EncodeRune r ++ drop size s.
Proof.
  assert (Henc : ∀ r bs, valid_rune r = true → EncodeRune r = bs → s = bs ++ drop (length bs) s →
    valid_rune r = true ∧ length bs = length (EncodeRune r) ∧ s = EncodeRune r ++ drop (length bs) s).
  { intros r' bs Hv <-. done. }
  unfold DecodeRuneInString. destruct s as [|c s']; [by intros [= <- <-]|].
  pose proof (code_range c) as Hc.
  destruct (Z.ltb_spec (code c) 128).
  { intros [= <- <-] _. apply (Henc _ [c]); [unfold valid_rune; lia| |done].
    unfold EncodeRune. assert (Hv : valid_rune (code c) = true) by (unfold valid_rune; lia). rewrite Hv.
    rewrite (proj2 (Z.ltb_lt _ _)) by lia. by rewrite byte_of_code. }
  unfold second_ok, second_range, is_cont, in_range, tail6.
  destruct ((194 <=? code c) && (code c <=? 223))%Z eqn:E2.
  { destruct s' as [|d s']; [by intros [= <- <-]|]. split_if Ed; [|by intros [= <- <-]].
    intros [= <- <-] _. apply (Henc _ [c; d]); [unfold valid_rune; lia| |done].
    unfold EncodeRune. set (r := (_ + _)%Z). assert (Hv : valid_rune r = true) by (unfold valid_rune, r; lia). rewrite Hv.
    rewrite (proj2 (Z.ltb_ge r 128)), (proj2 (Z.ltb_lt r 2048)) by (unfold r; lia).
    rewrite <- (byte_of_code c), <- (byte_of_code d). repeat f_equal; unfold r; euclid. }
  destruct ((224 <=? code c) && (code c <=? 239))%Z eqn:E3.
  { destruct s' as [|d [|e s']]; [by intros [= <- <-]..|].
    pose proof (code_range d). pose proof (code_range e).
    split_if Ed; [|by intros [= <- <-]].
    intros [= <- <-] _. set (r := (_ + _)%Z).
    assert (Hr : (2048 <= r < 55296 ∨ 57344 <= r < 65536)%Z) by (unfold r; repeat case_match; simplify_eq; lia).
    apply (Henc _ [c; d; e]); [unfold valid_rune; lia| |done].
    unfold EncodeRune. assert (Hv : valid_rune r = true) by (unfold valid_rune; lia). rewrite Hv.
    rewrite (proj2 (Z.ltb_ge r 128)), (proj2 (Z.ltb_ge r 2048)), (proj2 (Z.ltb_lt r 65536)) by lia.
    assert (Hd : (128 <= code d <= 191 ∧ 128 <= code e <= 191)%Z) by (repeat case_match; simplify_eq; lia).
    rewrite <- (byte_of_code c), <- (byte_of_code d), <- (byte_of_code e). repeat f_equal; unfold r; euclid. }
  destruct ((240 <=? code c) && (code c <=? 244))%Z eqn:E4; [|by intros [= <- <-]].
  destruct s' as [|d [|e [|f s']]]; [by intros [= <- <-]..|].
  pose proof (code_range d). pose proof (code_range e). pose proof (code_range f).
  split_if Ed; [|by intros [= <- <-]].
  intros [= <- <-] _. set (r := (_ + _)%Z).
  assert (Hr : (65536 <= r <= 1114111)%Z) by (unfold r; repeat case_match; simplify_eq; lia).
  apply (Henc _ [c; d; e; f]); [unfold valid_rune; lia| |done].
  unfold EncodeRune. assert (Hv : valid_rune r = true) by (unfold valid_rune; lia). rewrite Hv.
  rewrite (proj2 (Z.ltb_ge r 128)), (proj2 (Z.ltb_ge r 2048)), (proj2 (Z.ltb_ge r 65536)) by lia.
  assert (Hd : (128 <= code d <= 191 ∧ 128 <= code e <= 191 ∧ 128 <= code f <= 191)%Z) by (repeat case_match; simplify_eq; lia).
  rewrite <- (byte_of_code c), <- (byte_of_code d), <- (byte_of_code e), <- (byte_of_code f).
  repeat f_equal; unfold r; euclid.
Qed.
