(* ===== verification/Decimal.v ===== *)
(** * Decimal: exact decimal numbers ([src/ir/decimal.go])

    A numeric literal is scanned into its parts, its leading exponent is read
    with a saturating [int64] loop, and the value it denotes is kept as a sign,
    significant digits and the power of ten of the leading digit. *)
From S2P Require Import Prelude GoLib.

(** ** Data *)

Definition MaxDecimalExp : Z := 999999999999999999%Z.
Definition expSaturation : Z := 4000000000000000000%Z.

(** The refusals: [ErrNotDecimal], and an [ExponentRangeError] with its fields. *)
Record ExponentRangeError := { rneg : bool; rsmall : bool }.
Inductive decimal_error := ErrNotDecimal | ErrExponentRange (e : ExponentRangeError).

Record Decimal := { neg : bool; digits : gostring; exp : Z }.
Definition zeroDecimal : Decimal := {| neg := false; digits := []; exp := 0 |}.

Record decimalLiteral :=
  { intPart : gostring; frac : gostring; exponent : gostring; lneg : bool; point : bool }.

#[export] Instance Decimal_eq_dec : EqDecision Decimal.
Proof. solve_decision. Defined.

(** ** Scanning *)

Definition isASCIIDigit (b : ascii) : bool := ((code "0" <=? code b) && (code b <=? code "9"))%Z.

Fixpoint scan_run (rest : gostring) (i : nat) : nat :=
  match rest with
  | c :: rest' => if isASCIIDigit c then scan_run rest' (S i) else i
  | [] => i
  end.
Definition scanDigits (s : gostring) (i : nat) : nat := scan_run (drop i s) i.

(** [i < len(s) && (s[i] == a || s[i] == b)] *)
Definition at_either (s : gostring) (i : nat) (a b : ascii) : bool :=
  match s !! i with Some c => Ascii.eqb c a || Ascii.eqb c b | None => false end.
Definition at_byte (s : gostring) (i : nat) (a : ascii) : bool := at_either s i a a.

Definition is_empty (s : gostring) : bool := match s with [] => true | _ => false end.

Definition scanDecimal (s : gostring) : option decimalLiteral :=
  let i := 0 in
  let '(neg, i) := if at_either s i "+" "-" then (at_byte s i "-", S i) else (false, i) in
  let end_ := scanDigits s i in
  let '(int_part, i) := (slice s i end_, end_) in
  let '(frac_part, pt, i) :=
    if at_byte s i "." then
      let end_ := scanDigits s (i + 1) in (slice s (i + 1) end_, true, end_)
    else ([], false, i) in
  if is_empty int_part && is_empty frac_part then None
  else
    match
      (if at_either s i "e" "E" then
        let start := i in
        let i := S i in
        let i := if at_either s i "+" "-" then S i else i in
        let end_ := scanDigits s i in
        if end_ =? i then None else Some (slice s start end_, end_)
      else Some ([], i))
    with
    | None => None
    | Some (exponent_part, i) =>
        if negb (i =? length s) then None
        else Some {| intPart := int_part; frac := frac_part; exponent := exponent_part;
                     lneg := neg; point := pt |}
    end.

(** ** The exponent *)

Fixpoint exponent_loop (body : gostring) (e : Z) : Z :=
  match body with
  | [] => e
  | c :: rest =>
      if (expSaturation / 10 <=? e)%Z then expSaturation
      else exponent_loop rest (i64 (e * 10 + digit_value c))
  end.

Definition exponentValue (exponent : gostring) : Z :=
  match exponent with
  | [] => 0%Z
  | _ :: body =>
      let neg := at_byte body 0 "-" in
      let body := if neg || at_byte body 0 "+" then tail body else body in
      let e := exponent_loop body 0 in
      if neg then i64 (- e) else e
  end.

Definition leadingZeros (l : decimalLiteral) : nat :=
  let zeros := length (intPart l) - length (TrimLeft "0" (intPart l)) in
  if zeros =? length (intPart l)
  then zeros + (length (frac l) - length (TrimLeft "0" (frac l))) else zeros.

Definition leadExponent (l : decimalLiteral) : result decimal_error Z :=
  let zeros := leadingZeros l in
  if zeros =? length (intPart l) + length (frac l) then Ok 0%Z
  else
    let exp := i64 (exponentValue (exponent l) +
                    (Z.of_nat (length (intPart l)) - Z.of_nat zeros - 1)) in
    if (MaxDecimalExp <? exp)%Z || (exp <? - MaxDecimalExp)%Z
    then Err (ErrExponentRange {| rneg := lneg l; rsmall := (exp <? 0)%Z |})
    else Ok exp.

Definition readDecimal (s : gostring) : result decimal_error (decimalLiteral * Z) :=
  match scanDecimal s with
  | None => Err ErrNotDecimal
  | Some l => match leadExponent l with Ok exp => Ok (l, exp) | Err e => Err e end
  end.

Definition decimal (l : decimalLiteral) (exp : Z) : Decimal :=
  let lead := TrimLeft "0" (intPart l ++ frac l) in
  if is_empty lead then zeroDecimal
  else {| neg := lneg l; digits := TrimRight "0" lead; exp := exp |}.

Definition ParseDecimal (s : gostring) : result decimal_error Decimal :=
  match readDecimal s with
  | Err e => Err e
  | Ok (l, exp) => Ok (decimal l exp)
  end.

(** ** The refusal's and the value's readings *)

Definition refused_Sign (e : ExponentRangeError) : Z := if rneg e then (-1)%Z else 1%Z.
Definition refused_IsInt (e : ExponentRangeError) : bool := negb (rsmall e).

Definition Sign (d : Decimal) : Z :=
  if is_empty (digits d) then 0%Z else if neg d then (-1)%Z else 1%Z.

Definition Cmp (d e : Decimal) : Z :=
  let order := cmp_Compare (Sign d) (Sign e) in
  if negb (order =? 0)%Z then order
  else if is_empty (digits d) then 0%Z
  else
    let order := cmp_Compare (exp d) (exp e) in
    let order := if (order =? 0)%Z then strings_Compare (digits d) (digits e) else order in
    if neg d then (- order)%Z else order.

Definition IsInt (d : Decimal) : bool :=
  is_empty (digits d) || (Z.of_nat (length (digits d)) - 1 <=? exp d)%Z.

Definition Exponent (d : Decimal) : Z := exp d.
Definition Digits (d : Decimal) : gostring := digits d.

Definition Decimal_String (d : Decimal) : gostring :=
  match digits d with
  | [] => go "0"
  | lead :: rest =>
      (if neg d then go "-" else []) ++ [lead] ++
      (if 1 <? length (digits d) then "."%char :: rest else []) ++
      "e"%char :: FormatInt (exp d)
  end.

Example parse_1500 : ParseDecimal (go "+01500.00") = Ok {| neg := false; digits := go "15"; exp := 3 |}.
Proof. reflexivity. Qed.
Example parse_hex : ParseDecimal (go "0x10") = Err ErrNotDecimal.
Proof. reflexivity. Qed.
Example parse_zero : ParseDecimal (go "-0.e99999999999999999999999999") = Ok zeroDecimal.
Proof. vm_compute. reflexivity. Qed.
Example parse_big : ParseDecimal (go "-1e99999999999999999999999999") =
  Err (ErrExponentRange {| rneg := true; rsmall := false |}).
Proof. vm_compute. reflexivity. Qed.
Example string_small : Decimal_String {| neg := true; digits := go "5"; exp := -2 |} = go "-5e-2".
Proof. vm_compute. reflexivity. Qed.

Lemma is_empty_true (a : gostring) : is_empty a = true ↔ a = [].
Proof. by destruct a. Qed.
Lemma is_empty_false (a : gostring) : is_empty a = false ↔ a ≠ [].
Proof. by destruct a. Qed.
