(* ===== verification/DecimalValue.v ===== *)
(** * DecimalValue: what a decimal literal and a [Decimal] denote

    The denotation is rational. Parsing is shown to keep it, the [int64]
    arithmetic of the exponent never to wrap, and the saturating loop never to
    change a verdict. *)
From S2P Require Import Prelude GoLib Decimal.

(** ** DecimalScan: the scanner accepts exactly the documented grammar

    [scanDecimal] walks indices over the text; here it is shown equal to a
    reading by runs of digits, and that reading sound and complete for the
    grammar [sign? (digits ("." digits* )? | "." digits) ((e|E) sign? digits)?]. *)

Section Grammar.
Implicit Types (s r rest a e : gostring) (c : ascii).

(** ** The grammar, as an inductive relation *)

Inductive signed : gostring → bool → Prop :=
  | signed_none : signed [] false
  | signed_plus : signed ["+"%char] false
  | signed_minus : signed ["-"%char] true.

Inductive mantissa : gostring → gostring → gostring → bool → Prop :=
  | mantissa_int i : all_digits i → i ≠ [] → mantissa i i [] false
  | mantissa_point i f : all_digits i → all_digits f → i ≠ [] ∨ f ≠ [] →
      mantissa (i ++ "."%char :: f) i f true.

Inductive exponent_part : gostring → Prop :=
  | exponent_none : exponent_part []
  | exponent_some c s neg ds : c = "e"%char ∨ c = "E"%char → signed s neg →
      all_digits ds → ds ≠ [] → exponent_part (c :: s ++ ds).

Inductive decimal_grammar : gostring → decimalLiteral → Prop :=
  | grammar_intro sg m e i f neg pt :
      signed sg neg → mantissa m i f pt → exponent_part e →
      decimal_grammar (sg ++ m ++ e)
        {| intPart := i; frac := f; exponent := e; lneg := neg; point := pt |}.

(** ** Runs of digits *)

Fixpoint span_digits (s : gostring) : gostring * gostring :=
  match s with
  | c :: r => if isASCIIDigit c then let '(d, rest) := span_digits r in (c :: d, rest) else ([], s)
  | [] => ([], [])
  end.

Lemma isASCIIDigit_spec c : isASCIIDigit c = true ↔ is_digit c.
Proof.
  unfold isASCIIDigit, is_digit. change (code "0") with 48%Z. change (code "9") with 57%Z.
  rewrite andb_true_iff, !Z.leb_le. done.
Qed.

Lemma isASCIIDigit_false c : isASCIIDigit c = false ↔ ¬ is_digit c.
Proof. rewrite <- isASCIIDigit_spec. destruct (isASCIIDigit c); naive_solver. Qed.

Lemma span_digits_app s : (span_digits s).1 ++ (span_digits s).2 = s.
Proof.
  induction s as [|c s IH]; [done|]. simpl. destruct (isASCIIDigit c); [|done].
  destruct (span_digits s) as [d r] eqn:E. simpl in *. by rewrite IH.
Qed.

Lemma span_digits_digits s : all_digits (span_digits s).1.
Proof.
  induction s as [|c s IH]; [constructor|]. simpl.
  destruct (isASCIIDigit c) eqn:Hc; [|constructor].
  destruct (span_digits s) as [d r] eqn:E. simpl in *.
  constructor; [by apply isASCIIDigit_spec|done].
Qed.

(** What follows a run of digits opens with none. *)
Definition no_digit_head (s : gostring) : Prop := match s with c :: _ => ¬ is_digit c | [] => True end.

Lemma span_digits_rest s : no_digit_head (span_digits s).2.
Proof.
  induction s as [|c s IH]; [done|]. simpl. destruct (isASCIIDigit c) eqn:Hc.
  - destruct (span_digits s) as [d r] eqn:E. done.
  - simpl. by apply isASCIIDigit_false.
Qed.

Lemma span_digits_unique d r :
  all_digits d → no_digit_head r → span_digits (d ++ r) = (d, r).
Proof.
  induction 1 as [|c d Hc _ IH]; intros Hr; simpl.
  - destruct r as [|c r]; [done|]. simpl in *. by rewrite (proj2 (isASCIIDigit_false c)).
  - rewrite (proj2 (isASCIIDigit_spec c)), IH by done. done.
Qed.

Lemma scan_run_span rest i : scan_run rest i = i + length (span_digits rest).1.
Proof.
  revert i. induction rest as [|c rest IH]; intros i; simpl; [lia|].
  destruct (isASCIIDigit c); [|simpl; lia]. rewrite IH.
  destruct (span_digits rest). simpl. lia.
Qed.

(** What one digit scan from index [i] reads, given what is left at [i]. *)
Lemma scanDigits_span s i rest :
  drop i s = rest →
  scanDigits s i = i + length (span_digits rest).1 ∧
  slice s i (scanDigits s i) = (span_digits rest).1 ∧
  drop (scanDigits s i) s = (span_digits rest).2.
Proof.
  intros Hr. unfold scanDigits. rewrite Hr, scan_run_span.
  pose proof (span_digits_app rest) as Happ. split_and!; [done| |].
  - unfold slice. rewrite Hr. replace (_ - i) with (length (span_digits rest).1) by lia.
    rewrite <- Happ at 2. by rewrite take_app_length.
  - rewrite <- drop_drop, Hr. rewrite <- Happ at 2. by rewrite drop_app_length.
Qed.

(** ** The scan over what is left of the text *)

Definition opens_with (rest : gostring) (a b : ascii) : bool := at_either rest 0 a b.

Definition read_sign (rest : gostring) : gostring * gostring :=
  if opens_with rest "+" "-" then (take 1 rest, drop 1 rest) else ([], rest).

Definition read_exponent (rest : gostring) : option (gostring * gostring) :=
  if opens_with rest "e" "E" then
    let '(sg, r) := read_sign (drop 1 rest) in
    let '(ds, r) := span_digits r in
    if is_empty ds then None else Some (take 1 rest ++ sg ++ ds, r)
  else Some ([], rest).

Definition scan_list (s : gostring) : option decimalLiteral :=
  let '(sg, r) := read_sign s in
  let '(i, r) := span_digits r in
  let '(f, pt, r) :=
    if opens_with r "." "." then let '(f, r) := span_digits (drop 1 r) in (f, true, r)
    else ([], false, r) in
  if is_empty i && is_empty f then None
  else match read_exponent r with
       | None => None
       | Some (e, r) =>
           if is_empty r then
             Some {| intPart := i; frac := f; exponent := e;
                     lneg := opens_with sg "-" "-"; point := pt |}
           else None
       end.

Lemma at_either_drop s i rest (a b : ascii) : drop i s = rest → at_either s i a b = opens_with rest a b.
Proof. intros <-. unfold opens_with, at_either. by rewrite lookup_drop, Nat.add_0_r. Qed.

Lemma drop_more s i a rest : drop i s = a ++ rest → drop (i + length a) s = rest.
Proof. intros H. by rewrite <- drop_drop, H, drop_app_length. Qed.

Lemma slice_prefix s (i : nat) a rest : drop i s = a ++ rest → slice s i (i + length a) = a.
Proof.
  intros H. unfold slice. rewrite H. replace (_ - i) with (length a) by lia.
  apply take_app_length.
Qed.

Lemma at_end_iff s i rest : drop i s = rest → i ≤ length s → (i =? length s) = is_empty rest.
Proof.
  intros H Hi. assert (length rest = length s - i) as Hl by (rewrite <- H; apply length_drop).
  destruct rest; simpl in *; [apply Nat.eqb_eq|apply Nat.eqb_neq]; lia.
Qed.

(** One sign step: the index moves by what [read_sign] takes. *)
Lemma read_sign_step s i rest :
  drop i s = rest →
  let '(sg, r) := read_sign rest in
  (if at_either s i "+" "-" then S i else i) = i + length sg ∧ rest = sg ++ r ∧
  at_byte s i "-" = opens_with sg "-" "-".
Proof.
  intros H. unfold at_byte, read_sign. rewrite !(at_either_drop _ _ _ _ _ H).
  destruct rest as [|c r]; [simpl; split_and!; [lia|done|done]|].
  unfold opens_with, at_either; simpl. destruct (Ascii.eqb c "+" || Ascii.eqb c "-") eqn:E; simpl.
  - split_and!; [lia|done|done].
  - apply orb_false_iff in E as [_ ->]. split_and!; [lia|done|done].
Qed.

Lemma opens_with_split rest (a b : ascii) :
  opens_with rest a b = true → ∃ c r, rest = c :: r ∧ (c = a ∨ c = b).
Proof.
  destruct rest as [|c r]; [done|]. unfold opens_with, at_either. simpl.
  rewrite orb_true_iff, !Ascii.eqb_eq. eauto.
Qed.

(** The exponent step of [scanDecimal] against [read_exponent]. *)
Lemma exponent_step s i rest :
  drop i s = rest →
  (if at_either s i "e" "E" then
     let start := i in
     let i := S i in
     let i := if at_either s i "+" "-" then S i else i in
     let end_ := scanDigits s i in
     if end_ =? i then None else Some (slice s start end_, end_)
   else Some ([], i)) =
  (λ er, (er.1, i + length er.1)) <$> read_exponent rest ∧
  ∀ e r, read_exponent rest = Some (e, r) → rest = e ++ r.
Proof.
  intros H. unfold read_exponent. rewrite (at_either_drop _ _ _ _ _ H).
  destruct (opens_with rest "e" "E") eqn:E; cycle 1.
  { split; [simpl; by rewrite Nat.add_0_r|by intros ?? [= <- <-]]. }
  apply opens_with_split in E as (c & r1 & -> & _). cbn [take]. change (drop 1 (c :: r1)) with r1.
  assert (H1 : drop (S i) s = r1) by (replace (S i) with (i + length [c]) by (simpl; lia); by apply drop_more).
  pose proof (read_sign_step s (S i) r1 H1) as Hsg.
  destruct (read_sign r1) as [sg r2] eqn:Esg. destruct Hsg as (Hi & -> & _).
  cbv zeta. rewrite Hi. pose proof (drop_more _ _ _ _ H1) as H2.
  destruct (scanDigits_span s _ _ H2) as (Hend & _ & _). rewrite Hend.
  pose proof (span_digits_app r2) as Happ.
  destruct (span_digits r2) as [ds r3] eqn:Espan. simpl in Happ. simpl fst.
  destruct ds as [|d ds]; simpl is_empty.
  { simpl length at 1. rewrite (proj2 (Nat.eqb_eq _ _)) by (simpl; lia). split; [done|by intros]. }
  rewrite (proj2 (Nat.eqb_neq _ _)) by (simpl; lia).
  assert (Hrest : drop i s = ([c] ++ sg ++ d :: ds) ++ r3) by (rewrite H, <- Happ; simpl; by rewrite <- app_assoc).
  split; cycle 1.
  { intros e r [= <- <-]. rewrite <- Happ. simpl. by rewrite <- app_assoc. }
  simpl fmap. unfold prod_map. simpl fst.
  replace (S i + length sg + length (d :: ds)) with (i + length ([c] ++ sg ++ d :: ds))
    by (rewrite !length_app; simpl; lia).
  by rewrite (slice_prefix _ _ _ _ Hrest).
Qed.

Lemma drop_le_length s (i : nat) (a : gostring) rest : drop i s = a ++ rest → a ≠ [] ∨ i ≤ length s → i + length a ≤ length s.
Proof.
  intros H Ha. apply (f_equal length) in H. rewrite length_drop, length_app in H.
  destruct Ha as [Ha|]; [|lia]. destruct a; simpl in *; [done|lia].
Qed.

Lemma scanDecimal_list s : scanDecimal s = scan_list s.
Proof.
  unfold scanDecimal, scan_list.
  pose proof (read_sign_step s 0 s eq_refl) as Hsg. destruct (read_sign s) as [sg r1].
  destruct Hsg as (Hi1 & Hs & Hminus).
  set (i1 := if at_either s 0 "+" "-" then 1 else 0) in *.
  replace (if at_either s 0 "+" "-" then (at_byte s 0 "-", 1) else (false, 0))
    with (opens_with sg "-" "-", i1); cycle 1.
  { subst i1. rewrite <- Hminus. unfold at_byte, at_either.
    destruct (s !! 0); [|done]. destruct (Ascii.eqb a "+"); [done|]. by destruct (Ascii.eqb a "-"). }
  assert (D1 : drop i1 s = r1) by (rewrite Hi1; eapply (drop_more s 0); exact Hs).
  assert (L1 : i1 ≤ length s) by (rewrite Hi1, Hs, length_app; lia).
  destruct (scanDigits_span s i1 r1 D1) as (E1 & S1 & D2). rewrite S1.
  pose proof (span_digits_app r1) as A1. destruct (span_digits r1) as [ip r2]. simpl in *.
  set (i2 := scanDigits s i1) in *. unfold at_byte. rewrite (at_either_drop _ _ _ _ _ D2).
  assert (L2 : i2 ≤ length s) by (rewrite E1; eapply drop_le_length; [by rewrite D1, <- A1|auto]).
  destruct (opens_with r2 "." ".") eqn:Hpt.
  - apply opens_with_split in Hpt as (c & r3 & -> & Hc).
    assert (D3 : drop (i2 + 1) s = r3) by (by apply (drop_more s i2 [c])).
    destruct (scanDigits_span s _ _ D3) as (E3 & S3 & D4). rewrite S3.
    pose proof (span_digits_app r3) as A3. change (drop 1 (c :: r3)) with r3.
    destruct (span_digits r3) as [fp r4]. cbn [fst snd] in *.
    destruct (is_empty ip && is_empty fp); [done|].
    set (i3 := scanDigits s (i2 + 1)) in *.
    destruct (exponent_step s i3 r4 D4) as [Hstep Her]. cbv zeta in *. rewrite Hstep.
    destruct (read_exponent r4) as [[e r5]|]; [|done]. simpl. specialize (Her e r5 eq_refl).
    assert (L3 : i3 ≤ length s).
    { rewrite E3. eapply drop_le_length; [by rewrite D3, <- A3|]. right.
      eapply (drop_le_length s i2 [c]); [exact D2|auto]. }
    rewrite (at_end_iff s _ r5); [by destruct (is_empty r5)| |].
    + eapply drop_more. by rewrite D4.
    + eapply drop_le_length; [by rewrite D4|auto].
  - destruct (is_empty ip && is_empty []); [done|].
    destruct (exponent_step s i2 r2 D2) as [Hstep Her]. cbv zeta in *. rewrite Hstep.
    destruct (read_exponent r2) as [[e r5]|]; [|done]. simpl. specialize (Her e r5 eq_refl).
    rewrite (at_end_iff s _ r5); [by destruct (is_empty r5)| |].
    + eapply drop_more. by rewrite D2.
    + eapply drop_le_length; [by rewrite D2|auto].
Qed.

(** ** Soundness and completeness for the grammar *)

Lemma read_sign_signed rest :
  let '(sg, r) := read_sign rest in rest = sg ++ r ∧ signed sg (opens_with sg "-" "-").
Proof.
  unfold read_sign. destruct (opens_with rest "+" "-") eqn:E; [|by split; [|constructor]].
  apply opens_with_split in E as (c & r & -> & [-> | ->]); split; done || constructor.
Qed.

(** Bytes of the grammar that are no digits. *)
Lemma not_digit_punct c : c ∈ [ "+"; "-"; "."; "e"; "E" ]%char → ¬ is_digit c.
Proof.
  intros Hc. apply isASCIIDigit_false. repeat (apply elem_of_cons in Hc as [-> | Hc]; [done|]).
  by apply not_elem_of_nil in Hc.
Qed.

(** A text opening with neither sign. *)
Definition no_sign_head r : Prop := match r with c :: _ => c ≠ "+"%char ∧ c ≠ "-"%char | [] => True end.

Lemma read_sign_unique sg b r :
  signed sg b → no_sign_head r → read_sign (sg ++ r) = (sg, r) ∧ opens_with sg "-" "-" = b.
Proof.
  intros [] Hr; split; try done. unfold read_sign.
  rewrite app_nil_l. destruct (opens_with r "+" "-") eqn:E; [|done].
  apply opens_with_split in E as (c & r' & -> & Hc). destruct Hr. by destruct Hc.
Qed.

Lemma digit_not_sign r : (∃ c r', r = c :: r' ∧ (is_digit c ∨ c = "."%char)) → no_sign_head r.
Proof.
  intros (c & r' & -> & [H | ->]); simpl; [|done]. split; intros ->; revert H; apply not_digit_punct; set_solver.
Qed.

Lemma digits_then_no_sign d r : all_digits d → d ≠ [] → no_sign_head (d ++ r).
Proof. intros [|c d' Hc _] Hd; [done|]. apply digit_not_sign. simpl. eauto. Qed.

Lemma exponent_part_no_digit e : exponent_part e → no_digit_head e.
Proof. intros [|c s b ds [-> | ->] _ _ _]; simpl; [done| |]; apply not_digit_punct; set_solver. Qed.

Lemma exponent_part_no_point e : exponent_part e → opens_with e "." "." = false.
Proof. by intros [|c s b ds [-> | ->] _ _ _]. Qed.

Lemma read_exponent_sound rest e r :
  read_exponent rest = Some (e, r) → rest = e ++ r ∧ exponent_part e.
Proof.
  unfold read_exponent. destruct (opens_with rest "e" "E") eqn:E; cycle 1.
  { intros [= <- <-]. split; [done|constructor]. }
  apply opens_with_split in E as (c & r1 & -> & Hc). simpl.
  change (drop 0 r1) with r1. change (take 0 r1) with (@nil ascii).
  pose proof (read_sign_signed r1) as Hsg. destruct (read_sign r1) as [sg r2].
  destruct Hsg as [-> Hsg].
  pose proof (span_digits_app r2) as Happ. pose proof (span_digits_digits r2) as Hd.
  destruct (span_digits r2) as [ds r3]. simpl in *.
  destruct ds as [|d ds]; [done|]. intros [= <- <-]. split.
  - rewrite <- Happ. simpl. by rewrite <- app_assoc.
  - by eapply (exponent_some c sg _ (d :: ds)).
Qed.

Lemma read_exponent_complete e : exponent_part e → read_exponent e = Some (e, []).
Proof.
  intros [|c s b ds Hc Hs Hd Hne]; [done|]. unfold read_exponent.
  replace (opens_with (c :: s ++ ds) "e" "E") with true by (by destruct Hc as [-> | ->]).
  cbn [app take drop]. change (drop 0 (s ++ ds)) with (s ++ ds).
  destruct (read_sign_unique s b ds) as [-> _]; [done| |].
  { rewrite <- (app_nil_r ds). by apply digits_then_no_sign. }
  rewrite <- (app_nil_r ds) at 1. rewrite span_digits_unique by done.
  by destruct ds.
Qed.

Lemma scanDecimal_sound s l : scanDecimal s = Some l → decimal_grammar s l.
Proof.
  rewrite scanDecimal_list. unfold scan_list.
  pose proof (read_sign_signed s) as Hsg. destruct (read_sign s) as [sg r1]. destruct Hsg as [-> Hsg].
  pose proof (span_digits_app r1) as A1. pose proof (span_digits_digits r1) as Hi.
  destruct (span_digits r1) as [ip r2]. simpl in *.
  destruct (opens_with r2 "." ".") eqn:Hpt.
  - apply opens_with_split in Hpt as (c & r3 & -> & Hc). simpl.
    assert (c = "."%char) as -> by naive_solver. change (drop 0 r3) with r3.
    pose proof (span_digits_app r3) as A3. pose proof (span_digits_digits r3) as Hf.
    destruct (span_digits r3) as [fp r4]. simpl in *.
    destruct (is_empty ip && is_empty fp) eqn:Hne; [done|].
    destruct (read_exponent r4) as [[e r5]|] eqn:He; [|done].
    apply read_exponent_sound in He as [-> He].
    destruct r5; [|done]. intros [= <-]. rewrite app_nil_r in A3. subst r3 r1.
    replace (ip ++ "."%char :: fp ++ e) with ((ip ++ "."%char :: fp) ++ e) by (by rewrite <- app_assoc).
    constructor; [done| |done]. constructor; [done..|]. destruct ip, fp; naive_solver.
  - simpl. destruct (is_empty ip && true) eqn:Hne; [done|].
    destruct (read_exponent r2) as [[e r5]|] eqn:He; [|done].
    apply read_exponent_sound in He as [-> He].
    destruct r5; [|done]. intros [= <-]. rewrite app_nil_r in A1. subst r1.
    constructor; [done| |done]. constructor; [done|]. by destruct ip.
Qed.

Lemma scanDecimal_complete s l : decimal_grammar s l → scanDecimal s = Some l.
Proof.
  rewrite scanDecimal_list. intros [sg m e i f b pt Hsg Hm He]. unfold scan_list.
  destruct (read_sign_unique sg b (m ++ e)) as [-> Hb]; [done| |].
  { destruct Hm as [i Hi Hne|i f Hi Hf Hne]; [by apply digits_then_no_sign|].
    rewrite <- app_assoc. destruct i as [|c i].
    - apply digit_not_sign. simpl. eauto.
    - by apply digits_then_no_sign. }
  rewrite Hb. destruct Hm as [i Hi Hne|i f Hi Hf Hne].
  - rewrite span_digits_unique by (done || by apply exponent_part_no_digit).
    rewrite exponent_part_no_point, read_exponent_complete by done.
    by destruct i.
  - rewrite <- app_assoc. simpl. rewrite span_digits_unique; [|done|apply not_digit_punct; set_solver].
    replace (opens_with ("."%char :: f ++ e) "." ".") with true by done. simpl.
    change (drop 0 (f ++ e)) with (f ++ e).
    rewrite span_digits_unique by (done || by apply exponent_part_no_digit).
    rewrite read_exponent_complete by done. simpl.
    by destruct i, f; naive_solver.
Qed.

End Grammar.
Implicit Types (s r : gostring) (l : decimalLiteral).

(** ** Denotations *)

Definition sign_of (neg : bool) : Z := if neg then (-1)%Z else 1%Z.
Definition pow10 (e : Z) : Q := Qpower 10 e.

#[global] Arguments pow10 : simpl never.

(** The power of ten the last significant digit carries. *)
Definition lowest (d : Decimal) : Z := (exp d - Z.of_nat (length (digits d)) + 1)%Z.
Definition signed_coefficient (d : Decimal) : Z := (sign_of (neg d) * digits_value (digits d))%Z.
Definition value (d : Decimal) : Q := (inject_Z (signed_coefficient d) * pow10 (lowest d))%Q.

(** The exponent a literal writes, unbounded. *)
Definition exponent_number (e : gostring) : Z :=
  match e with
  | [] => 0%Z
  | _ :: body =>
      let '(sg, ds) := read_sign body in
      (sign_of (opens_with sg "-" "-") * digits_value ds)%Z
  end.
Definition literal_digits (l : decimalLiteral) : gostring := intPart l ++ frac l.
Definition literal_value (l : decimalLiteral) : Q :=
  (inject_Z (sign_of (lneg l) * digits_value (literal_digits l)) *
   pow10 (exponent_number (exponent l) - Z.of_nat (length (frac l))))%Q.

(** The invariant of a [Decimal]: digits only, no zero at either end, and no
    digits exactly for the zero value. *)
Record wf (d : Decimal) : Prop := {
  wf_digits : all_digits (digits d);
  wf_head : head (digits d) ≠ Some "0"%char;
  wf_last : last (digits d) ≠ Some "0"%char;
  wf_zero : digits d = [] → d = zeroDecimal;
  wf_exp : (- MaxDecimalExp <= exp d <= MaxDecimalExp)%Z
}.

(** What a scanned literal holds. *)
Record wf_literal (l : decimalLiteral) : Prop := {
  wfl_int : all_digits (intPart l);
  wfl_frac : all_digits (frac l);
  wfl_some : intPart l ≠ [] ∨ frac l ≠ [];
  wfl_exponent : exponent_part (exponent l)
}.

Lemma scanDecimal_wf s l :
  scanDecimal s = Some l →
  wf_literal l ∧ length (intPart l) + length (frac l) ≤ length s.
Proof.
  intros H%scanDecimal_sound. destruct H as [sg m e i f b pt Hsg Hm He]. simpl.
  destruct Hm as [i Hi Hne|i f Hi Hf Hne]; rewrite ?length_app; simpl;
    rewrite ?length_app; simpl; (split; [constructor; simpl; auto; try constructor|lia]).
Qed.

(** ** Powers of ten *)

Lemma pow10_pos e : (0 < pow10 e)%Q.
Proof. unfold pow10. by apply Qpower_0_lt. Qed.

Lemma pow10_add a b : (pow10 (a + b) == pow10 a * pow10 b)%Q.
Proof. unfold pow10. by apply Qpower_plus. Qed.

Lemma pow10_Z k : (0 <= k)%Z → (pow10 k == inject_Z (10 ^ k))%Q.
Proof. intros H. unfold pow10. by rewrite Zpower_Qpower. Qed.

Lemma shift_coefficient z k e :
  (0 <= k)%Z → (inject_Z (z * 10 ^ k) * pow10 e == inject_Z z * pow10 (e + k))%Q.
Proof. intros H. rewrite pow10_add, (pow10_Z k), inject_Z_mult by done. ring. Qed.

(** ** The exponent loop *)

Lemma digits_value_from_ge acc s :
  (0 <= acc)%Z → all_digits s → (acc <= digits_value_from acc s)%Z.
Proof.
  intros Hacc Hs. rewrite digits_value_from_shift.
  pose proof (digits_value_bound s Hs).
  assert (0 < 10 ^ Z.of_nat (length s))%Z by (apply Z.pow_pos_nonneg; lia). nia.
Qed.

(** It reads the number exactly, or saturates on one no smaller than the cap. *)
Lemma exponent_loop_spec body e :
  all_digits body → (0 <= e <= expSaturation)%Z →
  let r := exponent_loop body e in
  (0 <= r <= expSaturation)%Z ∧
  (r = digits_value_from e body ∨ r = expSaturation ∧ (expSaturation <= digits_value_from e body)%Z).
Proof.
  intros Hb. revert e. induction Hb as [|c body Hc Hb IH]; intros e He; cbn [exponent_loop].
  { split; [lia|by left]. }
  cbv zeta in *. change (digits_value_from e (c :: body)) with (digits_value_from (e * 10 + digit_value c) body).
  pose proof (digit_value_range c Hc) as Hd. unfold expSaturation in *.
  destruct (Z.leb_spec (4000000000000000000 / 10) e) as [Hle|Hlt].
  - change (4000000000000000000 / 10)%Z with 400000000000000000%Z in Hle.
    split; [lia|]. right. split; [done|].
    pose proof (digits_value_from_ge (e * 10 + digit_value c) body ltac:(lia) Hb). lia.
  - change (4000000000000000000 / 10)%Z with 400000000000000000%Z in Hlt.
    rewrite i64_id by (unfold in_i64, i64_min, i64_max; lia). apply IH. lia.
Qed.

(** [x] reads [n], up to saturation. *)
Definition saturates (x n : Z) : Prop :=
  x = n ∨ (x = expSaturation ∧ expSaturation <= n)%Z ∨ (x = - expSaturation ∧ n <= - expSaturation)%Z.

Lemma at_byte_opens r c : at_byte r 0 c = opens_with r c c.
Proof. done. Qed.

Lemma exponentValue_spec e :
  exponent_part e →
  (- expSaturation <= exponentValue e <= expSaturation)%Z ∧
  saturates (exponentValue e) (exponent_number e).
Proof.
  intros [|c s b ds Hc Hs Hd Hne]; [split; [done|by left]|].
  unfold exponentValue, exponent_number.
  destruct (read_sign_unique s b ds Hs) as [-> ->].
  { rewrite <- (app_nil_r ds). by apply digits_then_no_sign. }
  assert ((if at_byte (s ++ ds) 0 "-" || at_byte (s ++ ds) 0 "+" then tail (s ++ ds) else s ++ ds) = ds
                  ∧ at_byte (s ++ ds) 0 "-" = b) as [-> ->].
  { destruct Hs; try done. destruct Hd as [|c' ds Hc' _]; [done|].
    unfold at_byte, at_either. simpl.
    destruct (Ascii.eqb_spec c' "-") as [->|]; [by apply not_digit_punct in Hc'; [|set_solver]|].
    destruct (Ascii.eqb_spec c' "+") as [->|]; [by apply not_digit_punct in Hc'; [|set_solver]|done]. }
  destruct (exponent_loop_spec ds 0 Hd) as [Hr Hv]; [unfold expSaturation; lia|].
  cbv zeta in *. fold (digits_value ds) in Hv. unfold saturates, sign_of.
  destruct b; [rewrite i64_id|]; unfold in_i64, i64_min, i64_max, expSaturation in *; lia.
Qed.

(** ** Leading zeros and significant digits *)

Lemma TrimLeft_app cut a b :
  TrimLeft cut (a ++ b) = if is_empty (TrimLeft cut a) then TrimLeft cut b else TrimLeft cut a ++ b.
Proof. induction a as [|c a IH]; [done|]. simpl. by case_decide. Qed.

Lemma is_empty_length a : is_empty a = (length a =? 0).
Proof. by destruct a. Qed.

Lemma leadingZeros_spec l :
  leadingZeros l + length (TrimLeft "0" (literal_digits l)) = length (intPart l) + length (frac l).
Proof.
  unfold leadingZeros, literal_digits. rewrite TrimLeft_app, is_empty_length.
  pose proof (TrimLeft_length "0" (intPart l)). pose proof (TrimLeft_length "0" (frac l)).
  destruct (Nat.eqb_spec (length (TrimLeft "0" (intPart l))) 0),
    (Nat.eqb_spec (length (intPart l) - length (TrimLeft "0" (intPart l))) (length (intPart l)));
    rewrite ?length_app; lia.
Qed.

(** The power of ten the leading digit carries, read without bounds. *)
Definition exact_lead (l : decimalLiteral) : Z :=
  (exponent_number (exponent l) + Z.of_nat (length (intPart l)) - Z.of_nat (leadingZeros l) - 1)%Z.

Definition out_of_range (x : Z) : bool := ((MaxDecimalExp <? x) || (x <? - MaxDecimalExp))%Z.

(** A text Go can hold: no allocation reaches 2^59 bytes. *)
Definition fits s : Prop := (Z.of_nat (length s) < 2 ^ 59)%Z.

Definition lead_of (l : decimalLiteral) : result decimal_error Z :=
  if is_empty (TrimLeft "0" (literal_digits l)) then Ok 0%Z
  else if out_of_range (exact_lead l)
  then Err (ErrExponentRange {| rneg := lneg l; rsmall := (exact_lead l <? 0)%Z |})
  else Ok (exact_lead l).

(** The saturating, wrapping computation reaches the verdict the unbounded one
    does, and its value where it accepts. *)
Lemma leadExponent_exact l :
  wf_literal l → (Z.of_nat (length (intPart l) + length (frac l)) < 2 ^ 59)%Z →
  leadExponent l = lead_of l.
Proof.
  intros Hwf Hlen. unfold leadExponent, lead_of. cbv zeta.
  pose proof (leadingZeros_spec l) as Hz. rewrite is_empty_length.
  destruct (Nat.eqb_spec (length (TrimLeft "0" (literal_digits l))) 0) as [H0|H0];
    [by rewrite (proj2 (Nat.eqb_eq _ _)) by lia|].
  rewrite (proj2 (Nat.eqb_neq _ _)) by lia.
  destruct (exponentValue_spec _ (wfl_exponent _ Hwf)) as [Hr Hs].
  assert (Hterm : (- 2 ^ 59 < Z.of_nat (length (intPart l)) - Z.of_nat (leadingZeros l) - 1 < 2 ^ 59)%Z) by lia.
  rewrite i64_id by (unfold in_i64, i64_min, i64_max, expSaturation in *; lia).
  unfold out_of_range, exact_lead, saturates, MaxDecimalExp, expSaturation in *.
  set (n := exponent_number (exponent l)) in *. set (x := exponentValue (exponent l)) in *.
  set (t := (Z.of_nat (length (intPart l)) - Z.of_nat (leadingZeros l) - 1)%Z) in *.
  replace (n + Z.of_nat (length (intPart l)) - Z.of_nat (leadingZeros l) - 1)%Z with (n + t)%Z by lia.
  destruct Hs as [-> | [[Hx Hn] | [Hx Hn]]]; [done|..].
  all: repeat match goal with |- context [(?a <? ?b)%Z] => destruct (Z.ltb_spec a b) end; simpl; done || lia.
Qed.

Lemma ParseDecimal_exact s :
  fits s →
  ParseDecimal s =
    match scanDecimal s with
    | None => Err ErrNotDecimal
    | Some l => decimal l <$> lead_of l
    end.
Proof.
  intros Hf. unfold ParseDecimal, readDecimal. destruct (scanDecimal s) as [l|] eqn:Hs; [|done].
  apply scanDecimal_wf in Hs as [Hwf Hlen].
  rewrite leadExponent_exact by (done || unfold fits in Hf; lia).
  by destruct (lead_of l).
Qed.

(** ** The value read *)

Lemma value_zero : (value zeroDecimal == 0)%Q.
Proof. reflexivity. Qed.


Lemma head_not_zero_value a :
  all_digits a → head a ≠ Some "0"%char → a ≠ [] →
  (10 ^ (Z.of_nat (length a) - 1) <= digits_value a)%Z.
Proof.
  intros [|c r Hc Hr] Hh Hne; [done|]. rewrite digits_value_cons. simpl length.
  replace (Z.of_nat (S (length r)) - 1)%Z with (Z.of_nat (length r)) by lia.
  pose proof (digits_value_bound r Hr).
  assert (digit_value c ≠ 0)%Z.
  { intros H0. apply Hh. simpl. f_equal. apply code_inj. unfold digit_value in H0.
    change (code "0") with 48%Z. lia. }
  pose proof (digit_value_range c Hc). nia.
Qed.

Lemma trimmed a :
  all_digits a → TrimLeft "0" a ≠ [] →
  let sig := TrimRight "0" (TrimLeft "0" a) in
  all_digits sig ∧ head sig ≠ Some "0"%char ∧ last sig ≠ Some "0"%char ∧ sig ≠ [] ∧
  ∃ k, TrimLeft "0" a = sig ++ replicate k "0"%char.
Proof.
  intros Ha Hne. cbv zeta.
  destruct (TrimRight_split "0" (TrimLeft "0" a)) as (k & Hk & Hl).
  destruct (TrimLeft_split "0" a) as (k' & _ & Hh).
  set (sig := TrimRight "0" (TrimLeft "0" a)) in *.
  assert (sig ≠ []) as Hsig.
  { intros E. rewrite E in Hk. simpl in Hk. destruct k; simpl in Hk; [done|].
    rewrite Hk in Hh. by apply Hh. }
  split_and!; [by apply all_digits_TrimRight, all_digits_TrimLeft| |done|done|by exists k].
  rewrite Hk in Hh. by destruct sig.
Qed.

Lemma literal_all_digits l : wf_literal l → all_digits (literal_digits l).
Proof. intros Hl. apply all_digits_app. split; apply Hl. Qed.

Lemma decimal_value l x :
  wf_literal l → lead_of l = Ok x → (value (decimal l x) == literal_value l)%Q.
Proof.
  intros Hl Hx. unfold decimal, literal_value. cbv zeta. fold (literal_digits l).
  rewrite <- digits_value_TrimLeft. unfold lead_of in Hx.
  destruct (is_empty (TrimLeft "0" (literal_digits l))) eqn:E.
  { destruct (TrimLeft "0" (literal_digits l)); [|done].
    rewrite digits_value_nil, Z.mul_0_r, value_zero. by rewrite Qmult_0_l. }
  assert (Hne : TrimLeft "0" (literal_digits l) ≠ []) by (by destruct (TrimLeft _ _)).
  destruct (trimmed _ (literal_all_digits l Hl) Hne) as (_ & _ & _ & _ & k & Hk).
  destruct (out_of_range (exact_lead l)); [done|]. injection Hx as <-.
  pose proof (leadingZeros_spec l) as Hz. rewrite Hk in Hz.
  rewrite length_app, length_replicate in Hz.
  unfold value, signed_coefficient, lowest. simpl.
  set (sig := TrimRight "0" (TrimLeft "0" (literal_digits l))) in *. rewrite Hk.
  rewrite digits_value_app, digits_value_replicate_0, length_replicate, Z.add_0_r, Z.mul_assoc.
  rewrite shift_coefficient by lia. unfold exact_lead.
  match goal with |- (_ * pow10 ?x == _ * pow10 ?y)%Q => replace x with y by lia end. done.
Qed.

Lemma decimal_wf l x : wf_literal l → lead_of l = Ok x → wf (decimal l x).
Proof.
  intros Hl Hx. unfold decimal, lead_of in *. cbv zeta. fold (literal_digits l).
  destruct (is_empty (TrimLeft "0" (literal_digits l))) eqn:E.
  { constructor; simpl; [constructor|done|done|done|unfold MaxDecimalExp; lia]. }
  assert (Hne : TrimLeft "0" (literal_digits l) ≠ []) by (by destruct (TrimLeft _ _)).
  destruct (trimmed _ (literal_all_digits l Hl) Hne) as (? & ? & ? & ? & _).
  destruct (out_of_range (exact_lead l)) eqn:Ho; [done|]. injection Hx as <-.
  constructor; simpl; [done..|].
  unfold out_of_range in Ho. apply orb_false_iff in Ho as [?%Z.ltb_ge ?%Z.ltb_ge]. done.
Qed.

(** ** The magnitude of a literal *)

Definition nonzero l : Prop := is_empty (TrimLeft "0" (literal_digits l)) = false.

Lemma literal_lead l :
  wf_literal l → nonzero l →
  ∃ m k : Z, (10 ^ k <= m < 10 ^ (k + 1))%Z ∧ (0 <= k < Z.of_nat (length (literal_digits l)))%Z ∧
    (literal_value l == inject_Z (sign_of (lneg l) * m) * pow10 (exact_lead l - k))%Q.
Proof.
  intros Hl Hnz. unfold nonzero in Hnz.
  assert (Hne : TrimLeft "0" (literal_digits l) ≠ []) by (by destruct (TrimLeft _ _)).
  pose proof (all_digits_TrimLeft "0" _ (literal_all_digits l Hl)) as Hd.
  destruct (TrimLeft_split "0" (literal_digits l)) as (_ & _ & Hh).
  exists (digits_value (TrimLeft "0" (literal_digits l))), (Z.of_nat (length (TrimLeft "0" (literal_digits l))) - 1)%Z.
  pose proof (digits_value_bound _ Hd). pose proof (head_not_zero_value _ Hd Hh Hne).
  pose proof (TrimLeft_length "0" (literal_digits l)).
  assert (1 <= Z.of_nat (length (TrimLeft "0" (literal_digits l))))%Z
    by (destruct (TrimLeft "0" (literal_digits l)); simpl in *; [done|lia]).
  split_and!; [lia|rewrite Z.sub_add; lia|lia|lia|].
  unfold literal_value. rewrite digits_value_TrimLeft.
  pose proof (leadingZeros_spec l) as Hz. unfold exact_lead.
  match goal with |- (_ * pow10 ?x == _ * pow10 ?y)%Q => replace x with y by lia end. done.
Qed.

Lemma Qabs_scaled b (m e : Z) :
  (0 <= m)%Z → (Qabs (inject_Z (sign_of b * m) * pow10 e) == inject_Z m * pow10 e)%Q.
Proof.
  intros Hm. pose proof (pow10_pos e) as He. rewrite Qabs_Qmult, (Qabs_pos (pow10 e)) by lra.
  apply Qmult_comp; [|done]. rewrite inject_Z_mult, Qabs_Qmult.
  rewrite (Qabs_pos (inject_Z m)) by (by rewrite (Zle_Qle 0 m) in Hm).
  replace (Qabs (inject_Z (sign_of b))) with 1%Q by (by destruct b). apply Qmult_1_l.
Qed.

(** The leading digit's power of ten brackets the magnitude. *)
Lemma literal_magnitude l :
  wf_literal l → nonzero l →
  (pow10 (exact_lead l) <= Qabs (literal_value l))%Q ∧
  (Qabs (literal_value l) < pow10 (exact_lead l + 1))%Q.
Proof.
  intros Hl Hnz. destruct (literal_lead l Hl Hnz) as (m & k & Hm & Hk & Hv).
  assert (0 < 10 ^ k)%Z by (apply Z.pow_pos_nonneg; lia).
  rewrite Hv, Qabs_scaled by lia. pose proof (pow10_pos (exact_lead l - k)) as Hp. split.
  - replace (exact_lead l) with (k + (exact_lead l - k))%Z at 1 by lia.
    rewrite (pow10_add k (exact_lead l - k)), (pow10_Z k) by lia. apply Qmult_le_compat_r; [|lra]. rewrite <- Zle_Qle. lia.
  - replace (exact_lead l + 1)%Z with (k + 1 + (exact_lead l - k))%Z by lia.
    rewrite (pow10_add (k + 1) (exact_lead l - k)), (pow10_Z (k + 1)) by lia. apply Qmult_lt_compat_r; [done|]. rewrite <- Zlt_Qlt. lia.
Qed.

Lemma pow10_le (x y : Z) : (x <= y)%Z → (pow10 x <= pow10 y)%Q.
Proof. intros H. unfold pow10. by apply Qpower_le_compat_l. Qed.

(** ** What parsing promises *)

(** The verdict a reading of [s] owes its value. *)
Definition parse_promise s (r : result decimal_error Decimal) : Prop :=
  match r with
  | Ok d => wf d ∧ ∃ l, decimal_grammar s l ∧ (value d == literal_value l)%Q
  | Err ErrNotDecimal => ∀ l, ¬ decimal_grammar s l
  | Err (ErrExponentRange e) =>
      ∃ l, decimal_grammar s l ∧
        refused_Sign e = sign_of (lneg l) ∧
        if refused_IsInt e
        then (pow10 (MaxDecimalExp + 1) <= Qabs (literal_value l))%Q ∧
             ∃ z : Z, (literal_value l == inject_Z z)%Q
        else (0 < Qabs (literal_value l) < pow10 (- MaxDecimalExp))%Q
  end.

Lemma refusal_promise l :
  wf_literal l → (Z.of_nat (length (literal_digits l)) < 2 ^ 59)%Z → nonzero l →
  out_of_range (exact_lead l) = true →
  if refused_IsInt {| rneg := lneg l; rsmall := (exact_lead l <? 0)%Z |}
  then (pow10 (MaxDecimalExp + 1) <= Qabs (literal_value l))%Q ∧
       ∃ z : Z, (literal_value l == inject_Z z)%Q
  else (0 < Qabs (literal_value l) < pow10 (- MaxDecimalExp))%Q.
Proof.
  intros Hl Hlen Hnz Ho. destruct (literal_magnitude l Hl Hnz) as [Hlo Hhi].
  unfold refused_IsInt. cbn [rsmall negb]. apply orb_true_iff in Ho. rewrite !Z.ltb_lt in Ho.
  assert (0 < MaxDecimalExp)%Z as HM by done.
  assert (2 ^ 59 < MaxDecimalExp)%Z as HM' by done.
  destruct (Z.ltb_spec (exact_lead l) 0) as [Hneg|Hpos]; cbn [negb].
  - assert (exact_lead l + 1 <= - MaxDecimalExp)%Z as Hsmall by lia. split.
    + eapply Qlt_le_trans; [apply pow10_pos|exact Hlo].
    + eapply Qlt_le_trans; [exact Hhi|by apply pow10_le].
  - assert (MaxDecimalExp + 1 <= exact_lead l)%Z as Hbig by lia. split.
    + eapply Qle_trans; [by apply pow10_le|done].
    + destruct (literal_lead l Hl Hnz) as (m & k & Hm & Hk & Hv).
      exists (sign_of (lneg l) * m * 10 ^ (exact_lead l - k))%Z.
      rewrite Hv, (inject_Z_mult (sign_of _ * m)), <- pow10_Z by lia. done.
Qed.

Lemma ParseDecimal_promise s : fits s → parse_promise s (ParseDecimal s).
Proof.
  intros Hf. rewrite ParseDecimal_exact by done.
  destruct (scanDecimal s) as [l|] eqn:Hs; simpl.
  2: { intros l Hl%scanDecimal_complete. congruence. }
  pose proof (scanDecimal_sound _ _ Hs) as Hg. apply scanDecimal_wf in Hs as [Hl Hlen].
  destruct (lead_of l) as [x|e] eqn:Hx; simpl.
  { split; [by apply decimal_wf|]. exists l. split; [done|by apply decimal_value]. }
  unfold lead_of in Hx. destruct (is_empty _) eqn:Hnz; [done|].
  destruct (out_of_range (exact_lead l)) eqn:Ho; [|done]. injection Hx as <-.
  exists l. split_and!; [done|done|]. apply refusal_promise; try done.
  unfold literal_digits. rewrite length_app. unfold fits in Hf. lia.
Qed.

(** C20: parsing accepts exactly the documented grammar and keeps the value.
    A decimal it returns satisfies the invariant and denotes what the literal
    denotes. Text outside the grammar, and only that, is refused as no decimal.
    A range refusal is of a nonzero value past the exponent bound, with its sign,
    and says it is an integer exactly where it is. *)
Theorem ParseDecimal_correct s : fits s → parse_promise s (ParseDecimal s).
Proof. apply ParseDecimal_promise. Qed.

Lemma ParseDecimal_correct_witness :
  fits (go "-0.050e1") ∧ parse_promise (go "-0.050e1") (ParseDecimal (go "-0.050e1")) ∧
  ParseDecimal (go "-0.050e1") = Ok {| neg := true; digits := go "5"; exp := -1 |}.
Proof. split; [done|]. split; [by apply ParseDecimal_correct|reflexivity]. Defined.
