(* ===== verification/DecimalOrder.v ===== *)
(** * DecimalOrder: comparison, integrality and spelling of a [Decimal]

    [Cmp] is exact on the rationals, equality of the kept fields is equality of
    values, [IsInt] is integrality, and [String] parses back. *)
From S2P Require Import Prelude GoLib Decimal DecimalValue.
Implicit Types (s r a b : gostring) (d e : Decimal).

(** ** Digit runs as fractions *)

Lemma digit_lt_code c c' : (digit_value c < digit_value c')%Z ↔ (code c < code c')%Z.
Proof. unfold digit_value. lia. Qed.

(** A run of digits read as the first digits of an [n]-digit number. *)
Definition padded (n : Z) a : Z := (digits_value a * 10 ^ (n - Z.of_nat (length a)))%Z.

Lemma padded_cons n c a :
  (Z.of_nat (length (c :: a)) <= n)%Z →
  padded n (c :: a) = (digit_value c * 10 ^ (n - 1) + padded (n - 1) a)%Z.
Proof.
  intros Hn. unfold padded. rewrite digits_value_cons. simpl length in *.
  replace (n - 1 - Z.of_nat (length a))%Z with (n - Z.of_nat (S (length a)))%Z by lia.
  rewrite Z.mul_add_distr_r, <- Z.mul_assoc, <- Z.pow_add_r by lia. do 3 f_equal. lia.
Qed.

Lemma padded_bound n a :
  all_digits a → (Z.of_nat (length a) <= n)%Z → (0 <= padded n a < 10 ^ n)%Z.
Proof.
  intros Ha Hn. pose proof (digits_value_bound a Ha) as Hb. unfold padded.
  assert (0 < 10 ^ (n - Z.of_nat (length a)))%Z by (apply Z.pow_pos_nonneg; lia).
  replace (10 ^ n)%Z with (10 ^ Z.of_nat (length a) * 10 ^ (n - Z.of_nat (length a)))%Z
    by (rewrite <- Z.pow_add_r by lia; f_equal; lia).
  nia.
Qed.

Lemma padded_positive n a :
  all_digits a → a ≠ [] → last a ≠ Some "0"%char → (Z.of_nat (length a) <= n)%Z → (0 < padded n a)%Z.
Proof.
  intros Ha Hne Hl Hn. unfold padded.
  assert (0 < 10 ^ (n - Z.of_nat (length a)))%Z by (apply Z.pow_pos_nonneg; lia).
  enough (0 < digits_value a)%Z by nia.
  destruct a as [|c a _] using rev_ind; [done|]. apply all_digits_app in Ha as [Ha Hc].
  rewrite digits_value_app. apply Forall_cons in Hc as [Hc _].
  pose proof (digits_value_bound a Ha). pose proof (digit_value_range c Hc).
  rewrite last_snoc in Hl. assert (digit_value c ≠ 0)%Z.
  { intros Hz. apply Hl. f_equal. apply code_inj. unfold digit_value in Hz. change (code "0") with 48%Z. lia. }
  rewrite (digits_value_cons c []), digits_value_nil. simpl. lia.
Qed.

Definition order_of (c : comparison) : Z := match c with Lt => -1 | Eq => 0 | Gt => 1 end%Z.

(** Comparing two runs byte by byte compares the fractions they spell, since
    neither ends in a zero. *)
Lemma strings_Compare_padded n a b :
  all_digits a → all_digits b → last a ≠ Some "0"%char → last b ≠ Some "0"%char →
  (Z.of_nat (length a) <= n)%Z → (Z.of_nat (length b) <= n)%Z →
  strings_Compare a b = order_of (padded n a ?= padded n b)%Z.
Proof.
  intros Ha. revert n b. induction Ha as [|c a Hc Ha IH]; intros n b Hb Hla Hlb Hna Hnb.
  { destruct b as [|c' b]; [by rewrite Z.compare_refl|].
    pose proof (padded_positive n (c' :: b) Hb ltac:(done) Hlb Hnb).
    change (padded n []) with 0%Z. by rewrite (proj2 (Z.compare_lt_iff _ _)). }
  destruct Hb as [|c' b Hc' Hb].
  { pose proof (padded_positive n (c :: a) (Forall_cons_2 _ _ _ Hc Ha) ltac:(done) Hla Hna).
    change (padded n []) with 0%Z. by rewrite (proj2 (Z.compare_gt_iff _ _)). }
  rewrite !padded_cons by done. simpl length in *. cbn [strings_Compare].
  assert (Hla' : last a ≠ Some "0"%char) by (destruct a; [done|]; by rewrite last_cons_cons in Hla).
  assert (Hlb' : last b ≠ Some "0"%char) by (destruct b; [done|]; by rewrite last_cons_cons in Hlb).
  pose proof (padded_bound (n - 1) a Ha ltac:(lia)). pose proof (padded_bound (n - 1) b Hb ltac:(lia)).
  destruct (Z.ltb_spec (code c) (code c')) as [Hlt|Hge].
  { apply digit_lt_code in Hlt. rewrite (proj2 (Z.compare_lt_iff _ _)); [done|nia]. }
  destruct (Z.ltb_spec (code c') (code c)) as [Hlt|Hge'].
  { apply digit_lt_code in Hlt. rewrite (proj2 (Z.compare_gt_iff _ _)); [done|nia]. }
  replace (digit_value c') with (digit_value c) by (unfold digit_value; lia).
  rewrite Zcompare_plus_compat. apply IH; done || lia.
Qed.

(** ** Values at one scale *)

(** [d] counted in units of [10^L]. *)
Definition units (L : Z) (d : Decimal) : Z := (signed_coefficient d * 10 ^ (lowest d - L))%Z.

Lemma value_units L d : (L <= lowest d)%Z → (value d == inject_Z (units L d) * pow10 L)%Q.
Proof.
  intros H. unfold value, units. rewrite shift_coefficient by lia.
  by replace (L + (lowest d - L))%Z with (lowest d) by lia.
Qed.

Lemma Qcompare_units (x y L : Z) :
  (inject_Z x * pow10 L ?= inject_Z y * pow10 L)%Q = (x ?= y)%Z.
Proof.
  pose proof (pow10_pos L) as HL. destruct (Z.compare_spec x y) as [->|H|H].
  - by apply Qeq_alt.
  - apply Qlt_alt, Qmult_lt_compat_r; [done|]. by rewrite <- Zlt_Qlt.
  - apply Qgt_alt, Qmult_lt_compat_r; [done|]. by rewrite <- Zlt_Qlt.
Qed.

(** A nonzero value's magnitude, bracketed by its exponent. *)
Lemma magnitude_bounds L d :
  wf d → digits d ≠ [] → (L <= lowest d)%Z →
  let m := (digits_value (digits d) * 10 ^ (lowest d - L))%Z in
  (10 ^ (exp d - L) <= m < 10 ^ (exp d - L + 1))%Z ∧ m = padded (exp d - L + 1) (digits d) ∧
  (Z.of_nat (length (digits d)) <= exp d - L + 1)%Z.
Proof.
  intros Hwf Hne HL. cbv zeta. unfold lowest in *.
  assert (Hlen : (1 <= Z.of_nat (length (digits d)))%Z) by (destruct (digits d); simpl in *; [done|lia]).
  pose proof (head_not_zero_value _ (wf_digits _ Hwf) (wf_head _ Hwf) Hne) as Hlow.
  pose proof (digits_value_bound _ (wf_digits _ Hwf)) as Hup.
  set (k := (exp d - Z.of_nat (length (digits d)) + 1 - L)%Z) in *.
  assert (Hk : (0 < 10 ^ k)%Z) by (apply Z.pow_pos_nonneg; lia).
  split_and!.
  - replace (exp d - L)%Z with (Z.of_nat (length (digits d)) - 1 + k)%Z by lia.
    rewrite Z.pow_add_r by lia. nia.
  - replace (exp d - L + 1)%Z with (Z.of_nat (length (digits d)) + k)%Z by lia.
    rewrite Z.pow_add_r by lia. nia.
  - unfold padded. do 2 f_equal. lia.
  - lia.
Qed.

Lemma magnitude_compare d e :
  wf d → wf e → digits d ≠ [] → digits e ≠ [] →
  let L := Z.min (lowest d) (lowest e) in
  (let order := cmp_Compare (exp d) (exp e) in
   if (order =? 0)%Z then strings_Compare (digits d) (digits e) else order) =
  order_of (digits_value (digits d) * 10 ^ (lowest d - L) ?=
            digits_value (digits e) * 10 ^ (lowest e - L))%Z.
Proof.
  intros Hd He Hdn Hen. cbv zeta. set (L := Z.min (lowest d) (lowest e)).
  destruct (magnitude_bounds L d Hd Hdn ltac:(lia)) as (Hb1 & Hp1 & Hl1).
  destruct (magnitude_bounds L e He Hen ltac:(lia)) as (Hb2 & Hp2 & Hl2).
  unfold cmp_Compare. destruct (Z.ltb_spec (exp d) (exp e)) as [Hlt|Hge].
  { assert (10 ^ (exp d - L + 1) <= 10 ^ (exp e - L))%Z by (apply Z.pow_le_mono_r; lia).
    by rewrite (proj2 (Z.compare_lt_iff _ _)) by lia. }
  destruct (Z.ltb_spec (exp e) (exp d)) as [Hlt|Hge'].
  { assert (10 ^ (exp e - L + 1) <= 10 ^ (exp d - L))%Z by (apply Z.pow_le_mono_r; lia).
    by rewrite (proj2 (Z.compare_gt_iff _ _)) by lia. }
  assert (exp d = exp e) as Heq by lia. rewrite Hp1, Hp2, Heq in *. simpl.
  apply strings_Compare_padded; done || apply Hd || apply He.
Qed.

(** ** Comparison *)


Lemma magnitude_positive d L :
  wf d → digits d ≠ [] → (L <= lowest d)%Z → (0 < digits_value (digits d) * 10 ^ (lowest d - L))%Z.
Proof.
  intros Hd Hne HL. destruct (magnitude_bounds L d Hd Hne HL) as (Hb & _ & Hl).
  assert (0 < 10 ^ (exp d - L))%Z; [|lia]. apply Z.pow_pos_nonneg; [lia|].
  destruct (digits d); simpl in *; [done|lia].
Qed.

Lemma units_neg L d : units L d = (sign_of (neg d) * (digits_value (digits d) * 10 ^ (lowest d - L)))%Z.
Proof. unfold units, signed_coefficient. lia. Qed.

Lemma Sign_units L d :
  wf d → (L <= lowest d)%Z →
  Sign d = Z.sgn (units L d) ∧ (digits d = [] → units L d = 0%Z).
Proof.
  intros Hd HL. rewrite units_neg. unfold Sign.
  destruct (is_empty (digits d)) eqn:E.
  - apply is_empty_true in E. rewrite E, digits_value_nil, Z.mul_0_l, Z.mul_0_r. by split.
  - apply is_empty_false in E. pose proof (magnitude_positive d L Hd E HL).
    split; [|done]. destruct (neg d); simpl sign_of.
    + symmetry. apply Z.sgn_neg_iff. lia.
    + symmetry. apply Z.sgn_pos_iff. lia.
Qed.

Lemma order_of_opp (x y : Z) : (- order_of (x ?= y))%Z = order_of (- x ?= - y)%Z.
Proof. rewrite Z.compare_opp, (Z.compare_antisym x y). by destruct (x ?= y)%Z. Qed.

Lemma Cmp_units d e :
  wf d → wf e →
  let L := Z.min (lowest d) (lowest e) in Cmp d e = order_of (units L d ?= units L e)%Z.
Proof.
  intros Hd He. cbv zeta. set (L := Z.min (lowest d) (lowest e)).
  destruct (Sign_units L d Hd ltac:(lia)) as [Sd Zd], (Sign_units L e He ltac:(lia)) as [Se Ze].
  unfold Cmp. cbv zeta. unfold cmp_Compare at 1 2. rewrite Sd, Se.
  destruct (Z.ltb_spec (Z.sgn (units L d)) (Z.sgn (units L e))) as [H1|H1].
  { simpl. by rewrite (proj2 (Z.compare_lt_iff _ _)) by lia. }
  destruct (Z.ltb_spec (Z.sgn (units L e)) (Z.sgn (units L d))) as [H2|H2].
  { simpl. by rewrite (proj2 (Z.compare_gt_iff _ _)) by lia. }
  simpl negb. cbv iota. destruct (is_empty (digits d)) eqn:E.
  { apply is_empty_true in E. specialize (Zd E).
    assert (units L e = 0%Z) as -> by lia. by rewrite Zd. }
  apply is_empty_false in E. pose proof (magnitude_positive d L Hd E ltac:(lia)) as Md.
  assert (E' : digits e ≠ []).
  { intros E'. rewrite (Ze E'), units_neg in *. destruct (neg d); simpl in *; lia. }
  pose proof (magnitude_positive e L He E' ltac:(lia)) as Me.
  pose proof (magnitude_compare d e Hd He E E') as Hm. cbv zeta in Hm. fold L in Hm. rewrite Hm.
  rewrite !units_neg in *. unfold sign_of in *.
  destruct (neg d), (neg e); try lia.
  - rewrite order_of_opp. do 2 f_equal; lia.
  - do 2 f_equal; lia.
Qed.

Lemma Cmp_value d e :
  wf d → wf e → Cmp d e = order_of (value d ?= value e)%Q.
Proof.
  intros Hd He. rewrite (Cmp_units d e Hd He), <- (Qcompare_units _ _ (Z.min (lowest d) (lowest e))).
  f_equal. symmetry. apply Qcompare_comp; apply value_units; lia.
Qed.

(** [Cmp] orders two decimals exactly as the rationals they denote, however
    far apart their magnitudes are. *)
Theorem Cmp_exact d e :
  wf d → wf e → Cmp d e = order_of (value d ?= value e)%Q.
Proof. apply Cmp_value. Qed.

Definition forty_two : Decimal := {| neg := false; digits := go "42"; exp := 1 |}.
Definition minus_fifth : Decimal := {| neg := true; digits := go "2"; exp := -1 |}.
Lemma forty_two_wf : wf forty_two. Proof. constructor; [by repeat constructor|done..|by vm_compute]. Qed.
Lemma minus_fifth_wf : wf minus_fifth. Proof. constructor; [by repeat constructor|done..|by vm_compute]. Qed.

Lemma Cmp_exact_witness : Cmp minus_fifth forty_two = (-1)%Z ∧ (value minus_fifth ?= value forty_two)%Q = Lt.
Proof.
  split; [reflexivity|].
  pose proof (Cmp_exact minus_fifth forty_two minus_fifth_wf forty_two_wf) as H.
  replace (Cmp minus_fifth forty_two) with (-1)%Z in H by reflexivity.
  by destruct (_ ?= _)%Q.
Defined.

(** ** Equality *)

(** What [Cmp] computes once the signs agree. *)
Definition magnitude_order d e : Z :=
  let order := cmp_Compare (exp d) (exp e) in
  if (order =? 0)%Z then strings_Compare (digits d) (digits e) else order.

Lemma Cmp_magnitude d e :
  Cmp d e = let order := cmp_Compare (Sign d) (Sign e) in
            if negb (order =? 0)%Z then order
            else if is_empty (digits d) then 0%Z
            else if neg d then (- magnitude_order d e)%Z else magnitude_order d e.
Proof. done. Qed.

Lemma Cmp_eq d e : wf d → wf e → Cmp d e = 0%Z → d = e.
Proof.
  intros Hd He. rewrite Cmp_magnitude. unfold Sign.
  destruct (is_empty (digits d)) eqn:E, (is_empty (digits e)) eqn:E'.
  { apply is_empty_true in E, E'. by rewrite (wf_zero _ Hd E), (wf_zero _ He E'). }
  { by destruct (neg e). }
  { by destruct (neg d). }
  intros H. assert (neg d = neg e ∧ magnitude_order d e = 0%Z) as [Hn Hm].
  { destruct (neg d), (neg e); simpl in H; first [done | split; [done|lia]]. }
  unfold magnitude_order, cmp_Compare in Hm.
  destruct (Z.ltb_spec (exp d) (exp e)); [done|].
  destruct (Z.ltb_spec (exp e) (exp d)); [done|].
  apply strings_Compare_eq in Hm. destruct d, e; simpl in *. f_equal; [done..|lia].
Qed.

(** Two decimals hold one value exactly when they are one [Decimal], so
    [==] is value equality and a [Decimal] can key a map. *)
Theorem equal_iff_same_value d e :
  wf d → wf e → (d = e ↔ (value d == value e)%Q).
Proof.
  intros Hd He. split; [by intros ->|]. intros H%Qeq_alt.
  apply Cmp_eq; [done..|]. by rewrite Cmp_value, H.
Qed.

Lemma equal_iff_same_value_witness : ¬ (value minus_fifth == value forty_two)%Q.
Proof. rewrite <- (equal_iff_same_value minus_fifth forty_two minus_fifth_wf forty_two_wf). done. Defined.

(** ** Integrality *)

Lemma last_digit_value a :
  all_digits a → a ≠ [] → (10 | digits_value a)%Z → last a = Some "0"%char.
Proof.
  intros Ha Hne. destruct a as [|c a _] using rev_ind; [done|]. apply all_digits_app in Ha as [Ha Hc].
  apply Forall_cons in Hc as [Hc _]. rewrite digits_value_app, last_snoc.
  rewrite (digits_value_cons c []), digits_value_nil. simpl length.
  pose proof (digit_value_range c Hc). intros [k Hk].
  assert (digit_value c = 0)%Z as Hz by lia.
  f_equal. apply code_inj. unfold digit_value in Hz. change (code "0") with 48%Z. lia.
Qed.

(** [IsInt] reports exactly whether the value is an integer. *)
Theorem IsInt_exact d :
  wf d → IsInt d = true ↔ ∃ z : Z, (value d == inject_Z z)%Q.
Proof.
  intros Hd. unfold IsInt. rewrite orb_true_iff, is_empty_true, Z.leb_le. split.
  - intros [H|H].
    + rewrite (wf_zero _ Hd H). by exists 0%Z.
    + exists (units 0 d). rewrite (value_units 0) by (unfold lowest; lia).
      change (pow10 0) with 1%Q. ring.
  - intros [z Hz]. destruct (digits d) as [|c r] eqn:E; [by left|]. rewrite <- E.
    right. destruct (Z.le_gt_cases (Z.of_nat (length (digits d)) - 1) (exp d)); [done|exfalso].
    assert (Hneg : (0 < - lowest d)%Z) by (unfold lowest; lia).
    assert (Hsc : signed_coefficient d = (z * 10 ^ (- lowest d))%Z).
    { apply inject_Z_injective. rewrite inject_Z_mult, <- pow10_Z, <- Hz by lia. unfold value.
      rewrite <- Qmult_assoc, <- pow10_add, Z.add_opp_diag_r. change (pow10 0) with 1%Q. ring. }
    apply (wf_last _ Hd), last_digit_value; [apply Hd|by rewrite E|].
    unfold signed_coefficient in Hsc.
    replace (- lowest d)%Z with (1 + (- lowest d - 1))%Z in Hsc by lia.
    rewrite Z.pow_add_r in Hsc by lia. unfold sign_of in Hsc.
    exists ((if neg d then -z else z) * 10 ^ (- lowest d - 1))%Z. destruct (neg d); lia.
Qed.

Lemma IsInt_exact_witness : (∃ z : Z, (value forty_two == inject_Z z)%Q) ∧ ¬ (∃ z : Z, (value minus_fifth == inject_Z z)%Q).
Proof.
  rewrite <- (IsInt_exact forty_two forty_two_wf), <- (IsInt_exact minus_fifth minus_fifth_wf). split; [reflexivity|done].
Defined.

(** ** Spelling *)

Lemma FormatInt_spec z :
  ∃ sg ds neg, FormatInt z = sg ++ ds ∧ signed sg neg ∧ all_digits ds ∧ ds ≠ [] ∧
  (sign_of neg * digits_value ds)%Z = z.
Proof.
  unfold FormatInt. destruct (Z.ltb_spec z 0).
  - destruct (FormatUint_spec (- z) ltac:(lia)) as (H1 & H2 & H3).
    exists (go "-"), (FormatUint (- z)), true. split_and!; [done|constructor|done..|]. simpl. lia.
  - destruct (FormatUint_spec z ltac:(lia)) as (H1 & H2 & H3).
    exists [], (FormatUint z), false. split_and!; [done|constructor|done..|]. simpl. lia.
Qed.

Definition string_literal d : decimalLiteral :=
  {| intPart := take 1 (digits d); frac := drop 1 (digits d);
     exponent := "e"%char :: FormatInt (exp d); lneg := neg d; point := 1 <? length (digits d) |}.

Lemma String_grammar d :
  wf d → digits d ≠ [] → decimal_grammar (Decimal_String d) (string_literal d).
Proof.
  intros Hd Hne. unfold Decimal_String, string_literal.
  pose proof (wf_digits _ Hd) as Hds. destruct (digits d) as [|c r]; [done|]. clear Hne.
  destruct (FormatInt_spec (exp d)) as (sg & ds & b & HF & Hsg & Hd1 & Hd2 & _).
  apply Forall_cons in Hds as [Hc Hr].
  assert (Hs : signed (if neg d then go "-" else []) (neg d)) by (destruct (neg d); constructor).
  assert (He : exponent_part ("e"%char :: FormatInt (exp d))).
  { rewrite HF. eapply exponent_some; eauto. }
  simpl. change (take 0 r) with (@nil ascii). change (drop 0 r) with r.
  destruct r as [|c' r]; simpl length.
  - apply (grammar_intro _ [c]); [done| |done]. by apply mantissa_int; [apply Forall_singleton|].
  - apply (grammar_intro _ (c :: "."%char :: c' :: r)); [done| |done].
    apply (mantissa_point [c] (c' :: r)); [by apply Forall_singleton|done|by left].
Qed.

Lemma String_exponent z : exponent_number ("e"%char :: FormatInt z) = z.
Proof.
  destruct (FormatInt_spec z) as (sg & ds & b & HF & Hsg & Hd1 & Hd2 & Hz).
  unfold exponent_number. rewrite HF. destruct (read_sign_unique sg b ds Hsg) as [-> ->]; [|done].
  rewrite <- (app_nil_r ds). by apply digits_then_no_sign.
Qed.

Lemma String_lead d : wf d → digits d ≠ [] → lead_of (string_literal d) = Ok (exp d).
Proof.
  intros Hd Hne. pose proof (leadingZeros_spec (string_literal d)) as Hz.
  unfold lead_of, exact_lead, literal_digits in *.
  cbn [string_literal intPart frac exponent lneg] in *. rewrite take_drop in *.
  rewrite (TrimLeft_id "0" (digits d)) in * by apply Hd.
  rewrite (proj2 (is_empty_false _) Hne), String_exponent.
  assert (length (digits d) ≠ 0) by (by destruct (digits d)).
  rewrite length_take, length_drop in *.
  replace (exp d + _ - _ - 1)%Z with (exp d) by lia.
  unfold out_of_range. pose proof (wf_exp _ Hd).
  by rewrite (proj2 (Z.ltb_ge _ _)), (proj2 (Z.ltb_ge _ _)) by lia.
Qed.

(** C21: the canonical spelling of a decimal parses back to that decimal. *)
Theorem ParseDecimal_String d :
  wf d → fits (Decimal_String d) → ParseDecimal (Decimal_String d) = Ok d.
Proof.
  intros Hd Hf. destruct (is_empty (digits d)) eqn:E.
  { apply is_empty_true in E. rewrite (wf_zero _ Hd E). reflexivity. }
  apply is_empty_false in E. rewrite ParseDecimal_exact by done.
  rewrite (scanDecimal_complete _ _ (String_grammar d Hd E)), String_lead by done.
  simpl. f_equal. unfold decimal. simpl. rewrite take_drop, TrimLeft_id by apply Hd.
  rewrite (proj2 (is_empty_false _) E), TrimRight_id by apply Hd. by destruct d.
Qed.

Lemma ParseDecimal_String_witness : Decimal_String minus_fifth = go "-2e-1" ∧ ParseDecimal (go "-2e-1") = Ok minus_fifth.
Proof. split; [reflexivity|]. apply (ParseDecimal_String minus_fifth); [apply minus_fifth_wf|done]. Defined.
