(* ===== verification/BigVal.v ===== *)
(** * BigVal: numeric literals in JSON form ([src/ir/bigval.go])

    A [BigVal] is a decimal string. [NewBigVal] validates a literal and rewrites
    only the affixes JSON refuses. *)
From S2P Require Import Prelude GoLib Decimal DecimalValue.
Implicit Types (s : gostring) (l : decimalLiteral).

Definition spelledForJSON l s : bool :=
  let whole := bool_decide (intPart l = go "0") ||
    (negb (is_empty (intPart l)) && negb (at_byte (intPart l) 0 "0")) in
  whole && negb (at_byte s 0 "+") && eqb (point l) (negb (is_empty (frac l))).

Definition jsonSpelling l : gostring :=
  (if lneg l then go "-" else []) ++
  (let whole := TrimLeft "0" (intPart l) in if negb (is_empty whole) then whole else go "0") ++
  (if negb (is_empty (frac l)) then "."%char :: frac l else []) ++
  exponent l.

Definition NewBigVal s : result decimal_error gostring :=
  match readDecimal s with
  | Err e => Err e
  | Ok (l, _) => if spelledForJSON l s then Ok s else Ok (jsonSpelling l)
  end.

(** [BigVal.Decimal] *)
Definition BigVal_Decimal (v : gostring) : result decimal_error Decimal := ParseDecimal v.

Example bigval_affixes :
  NewBigVal (go "+.5") = Ok (go "0.5") ∧ NewBigVal (go "5.") = Ok (go "5") ∧
  NewBigVal (go "-09.E+07") = Ok (go "-9E+07") ∧ NewBigVal (go "1p4") = Err ErrNotDecimal.
Proof. done. Qed.

(** ** JSON's number grammar *)

Inductive json_whole : gostring → Prop :=
  | json_zero : json_whole (go "0")
  | json_digits c r : is_digit c → c ≠ "0"%char → all_digits r → json_whole (c :: r).

Inductive json_fraction : gostring → Prop :=
  | json_no_fraction : json_fraction []
  | json_some_fraction f : all_digits f → f ≠ [] → json_fraction ("."%char :: f).

Inductive json_number : gostring → Prop :=
  | json_number_intro (neg : bool) w f e :
      json_whole w → json_fraction f → exponent_part e →
      json_number ((if neg then go "-" else []) ++ w ++ f ++ e).

(** ** The literal [jsonSpelling] writes *)

Definition json_int l : gostring :=
  let whole := TrimLeft "0" (intPart l) in if negb (is_empty whole) then whole else go "0".
Definition json_literal l : decimalLiteral :=
  {| intPart := json_int l; frac := frac l; exponent := exponent l; lneg := lneg l;
     point := negb (is_empty (frac l)) |}.

Lemma json_int_whole l : all_digits (intPart l) → json_whole (json_int l).
Proof.
  intros H. unfold json_int. pose proof (all_digits_TrimLeft "0" _ H) as Hd.
  destruct (TrimLeft_split "0" (intPart l)) as (_ & _ & Hh).
  destruct (TrimLeft "0" (intPart l)) as [|c r]; simpl; [constructor|].
  apply Forall_cons in Hd as [Hc Hr]. constructor; [done| |done]. intros ->. by apply Hh.
Qed.

Lemma json_whole_digits w : json_whole w → all_digits w ∧ w ≠ [].
Proof.
  intros [|c r Hc _ Hr]; (split; [|done]); constructor; [by apply isASCIIDigit_spec|constructor|done..].
Qed.

Lemma json_signed (neg : bool) : signed (if neg then go "-" else []) neg.
Proof. destruct neg; constructor. Qed.

Lemma jsonSpelling_number l : wf_literal l → json_number (jsonSpelling l).
Proof.
  intros H. constructor; [by apply json_int_whole, H| |by apply H].
  pose proof (wfl_frac _ H) as Hf. destruct (frac l); constructor; done.
Qed.

Lemma jsonSpelling_grammar l : wf_literal l → decimal_grammar (jsonSpelling l) (json_literal l).
Proof.
  intros H. unfold jsonSpelling. fold (json_int l).
  destruct (json_whole_digits _ (json_int_whole l (wfl_int _ H))) as [Hd Hne].
  pose proof (wfl_frac _ H) as Hf. unfold json_literal. rewrite (app_assoc (json_int l)).
  constructor; [apply json_signed| |apply H].
  destruct (frac l) as [|c f]; simpl.
  - rewrite app_nil_r. by constructor.
  - constructor; [done..|by left].
Qed.

Lemma json_significant l :
  TrimLeft "0" (literal_digits (json_literal l)) = TrimLeft "0" (literal_digits l).
Proof.
  unfold literal_digits, json_literal, json_int. simpl. rewrite !TrimLeft_app.
  destruct (TrimLeft_split "0" (intPart l)) as (_ & _ & Hh).
  destruct (TrimLeft "0" (intPart l)) as [|c r] eqn:E; simpl; [done|].
  rewrite decide_False; [done|]. intros ->. by apply Hh.
Qed.

(** Rewriting the affixes leaves the leading exponent as it was. *)
Lemma json_leadExponent l : leadExponent (json_literal l) = leadExponent l.
Proof.
  pose proof (leadingZeros_spec l) as H1. pose proof (leadingZeros_spec (json_literal l)) as H2.
  rewrite json_significant in H2. unfold leadExponent. cbv zeta.
  change (frac (json_literal l)) with (frac l) in *.
  change (exponent (json_literal l)) with (exponent l).
  change (lneg (json_literal l)) with (lneg l).
  set (z := leadingZeros l) in *. set (z' := leadingZeros (json_literal l)) in *.
  set (n := length (TrimLeft "0" (literal_digits l))) in *.
  destruct (Nat.eqb_spec z (length (intPart l) + length (frac l))),
    (Nat.eqb_spec z' (length (intPart (json_literal l)) + length (frac l))); try lia; [done|].
  replace (Z.of_nat (length (intPart (json_literal l))) - Z.of_nat z' - 1)%Z
    with (Z.of_nat (length (intPart l)) - Z.of_nat z - 1)%Z by lia.
  done.
Qed.

Lemma json_ParseDecimal s l :
  scanDecimal s = Some l → ParseDecimal (jsonSpelling l) = ParseDecimal s.
Proof.
  intros Hs. unfold ParseDecimal, readDecimal. rewrite Hs. apply scanDecimal_wf in Hs as [Hl _].
  rewrite (scanDecimal_complete _ _ (jsonSpelling_grammar l Hl)), json_leadExponent.
  destruct (leadExponent l); [|done]. f_equal. unfold decimal. cbv zeta.
  fold (literal_digits l) (literal_digits (json_literal l)). by rewrite json_significant.
Qed.

(** ** The shortcut *)

Lemma grammar_spelling s l :
  decimal_grammar s l →
  ∃ sg, s = sg ++ intPart l ++ (if point l then "."%char :: frac l else []) ++ exponent l ∧
    signed sg (lneg l) ∧ (point l = false → frac l = []) ∧ wf_literal l.
Proof.
  intros H. assert (Hl := H). apply scanDecimal_complete, scanDecimal_wf in Hl as [Hl _].
  destruct H as [sg m e i f b pt Hsg Hm He]. simpl in *. exists sg.
  split_and!; [|done|by destruct Hm|done]. f_equal.
  destruct Hm; simpl; by rewrite <- ?app_assoc.
Qed.

Lemma json_int_id l :
  all_digits (intPart l) →
  bool_decide (intPart l = go "0") || (negb (is_empty (intPart l)) && negb (at_byte (intPart l) 0 "0"))
    = bool_decide (json_int l = intPart l).
Proof.
  intros Hd. unfold json_int. destruct (TrimLeft_split "0" (intPart l)) as (k & Hk & Hh).
  destruct (intPart l) as [|c r] eqn:E.
  { done. }
  unfold at_byte, at_either. simpl.
  destruct (Ascii.eqb_spec c "0") as [->|Hc]; simpl.
  - rewrite ?andb_false_r, orb_false_r. apply bool_decide_ext. split.
    + intros [= ->]. done.
    + destruct (TrimLeft_split "0" r) as (k' & Hk' & Hh').
      destruct (TrimLeft "0" r) as [|c' r'] eqn:E'; simpl; [congruence|].
      intros [= -> _]. by destruct Hh'.
  - rewrite orb_true_r, decide_False by done. simpl. by rewrite bool_decide_eq_true_2.
Qed.

Lemma at_plus_signed sg neg r :
  signed sg neg → no_sign_head r → at_byte (sg ++ r) 0 "+" = bool_decide (sg = go "+").
Proof.
  intros [] Hr; [|done..]. destruct r as [|c r]; [done|]. destruct Hr as [Hr _].
  unfold at_byte, at_either. simpl. by destruct (Ascii.eqb_spec c "+").
Qed.

Lemma wf_literal_body l :
  wf_literal l → (point l = false → frac l = []) →
  no_sign_head (intPart l ++ (if point l then "."%char :: frac l else []) ++ exponent l).
Proof.
  intros H Hp. destruct (intPart l) as [|c r] eqn:E.
  - destruct (point l); [by apply digit_not_sign; simpl; eauto|].
    destruct (wfl_some _ H) as [?|Hf]; [done|]. by rewrite Hp in Hf.
  - rewrite <- E. apply digits_then_no_sign; [apply H|by rewrite E].
Qed.

Lemma json_int_idem l :
  all_digits (intPart l) →
  (let whole := TrimLeft "0" (json_int l) in if negb (is_empty whole) then whole else go "0") = json_int l.
Proof.
  intros Hd. destruct (json_int_whole l Hd) as [|c r Hc H0 Hr]; [done|].
  simpl. by rewrite decide_False.
Qed.

Lemma spelled_exact s l :
  scanDecimal s = Some l → spelledForJSON l s = true ↔ jsonSpelling l = s.
Proof.
  intros Hs. destruct (grammar_spelling s l (scanDecimal_sound _ _ Hs)) as (sg & Htext & Hsg & Hp & Hl).
  unfold spelledForJSON. cbv zeta. rewrite json_int_id by apply Hl.
  assert (Hplus : at_byte s 0 "+" = bool_decide (sg = go "+")).
  { rewrite Htext. by eapply at_plus_signed; [|apply wf_literal_body]. }
  rewrite Hplus, !andb_true_iff, negb_true_iff, bool_decide_eq_true, bool_decide_eq_false, eqb_true_iff.
  split.
  - intros [[Hint Hsign] Hpt]. unfold jsonSpelling. fold (json_int l). rewrite Hint, Htext.
    replace (if lneg l then go "-" else []) with sg by (by destruct Hsg).
    by rewrite <- Hpt.
  - intros Hsame. pose proof (scanDecimal_complete _ _ (jsonSpelling_grammar l Hl)) as Hj.
    rewrite Hsame, Hs in Hj. injection Hj as Hj.
    split_and!; [by rewrite Hj at 2| |by rewrite Hj at 1].
    intros ->. rewrite Htext in Hsame. unfold jsonSpelling in Hsame. fold (json_int l) in Hsame.
    assert (lneg l = false) as Hneg by (by inversion Hsg). rewrite Hneg in Hsame. simpl in Hsame.
    destruct (json_whole_digits _ (json_int_whole l (wfl_int _ Hl))) as [Hd Hne].
    pose proof (digits_then_no_sign (json_int l)
      ((if negb (is_empty (frac l)) then "."%char :: frac l else []) ++ exponent l) Hd Hne) as Hhead.
    rewrite Hsame in Hhead. by destruct Hhead.
Qed.

(** The no-allocation test of [NewBigVal] is exact: it returns the text as
    it is just where respelling it would have changed nothing. *)
Theorem spelledForJSON_exact s l :
  scanDecimal s = Some l → spelledForJSON l s = true ↔ jsonSpelling l = s.
Proof. apply spelled_exact. Qed.

Lemma spelledForJSON_exact_witness :
  scanDecimal (go "+5.") = Some {| intPart := go "5"; frac := []; exponent := []; lneg := false; point := true |} ∧
  spelledForJSON {| intPart := go "5"; frac := []; exponent := []; lneg := false; point := true |} (go "+5.") = false.
Proof.
  assert (H : scanDecimal (go "+5.") = Some {| intPart := go "5"; frac := []; exponent := []; lneg := false; point := true |})
    by reflexivity.
  split; [exact H|]. destruct (spelledForJSON_exact _ _ H) as [Hf _]. apply not_true_is_false.
  intros E. specialize (Hf E). discriminate Hf.
Defined.

(** Respelling adds at most the integer digit JSON asks for. *)
Lemma NewBigVal_length s v : NewBigVal s = Ok v → length v ≤ S (length s).
Proof.
  unfold NewBigVal. destruct (readDecimal s) as [[l x]|] eqn:Hr; [|done].
  destruct (spelledForJSON l s); [intros [= <-]; lia|]. intros [= <-].
  unfold readDecimal in Hr. destruct (scanDecimal s) as [l'|] eqn:Hs; [|done].
  destruct (leadExponent l'); [|done]. injection Hr as -> _.
  destruct (grammar_spelling s l (scanDecimal_sound _ _ Hs)) as (sg & -> & Hsg & Hp & Hl).
  unfold jsonSpelling. rewrite !length_app. pose proof (TrimLeft_length "0" (intPart l)).
  assert (length (if lneg l then go "-" else []) ≤ length sg) by (by destruct Hsg; simpl; lia).
  assert (length (if negb (is_empty (frac l)) then "."%char :: frac l else []) ≤
          length (if point l then "."%char :: frac l else [])).
  { destruct (point l); [by destruct (frac l); simpl; lia|]. by rewrite Hp. }
  destruct (TrimLeft "0" (intPart l)); simpl in *; lia.
Qed.

(** What [NewBigVal] owes a text: a JSON number of the same value, a fixed point
    of [NewBigVal]; or exactly [ParseDecimal]'s refusal. *)
Definition bigval_promise s (r : result decimal_error gostring) : Prop :=
  match r with
  | Ok v => json_number v ∧ ParseDecimal v = ParseDecimal s ∧ is_ok (ParseDecimal v) = true ∧ NewBigVal v = Ok v
  | Err e => ParseDecimal s = Err e
  end.

Lemma NewBigVal_spelling s l x : readDecimal s = Ok (l, x) → NewBigVal s = Ok (jsonSpelling l) ∧ scanDecimal s = Some l.
Proof.
  intros Hr. assert (Hs : scanDecimal s = Some l).
  { unfold readDecimal in Hr. destruct (scanDecimal s); [|done]. destruct (leadExponent d); naive_solver. }
  split; [|done]. unfold NewBigVal. rewrite Hr.
  destruct (spelledForJSON l s) eqn:E; [|done]. by apply (spelled_exact _ _ Hs) in E as ->.
Qed.

Lemma NewBigVal_promise s : bigval_promise s (NewBigVal s).
Proof.
  destruct (readDecimal s) as [[l x]|e] eqn:Hr; cycle 1.
  { unfold NewBigVal, bigval_promise, ParseDecimal. by rewrite Hr. }
  destruct (NewBigVal_spelling s l x Hr) as [-> Hs].
  destruct (scanDecimal_wf s l Hs) as [Hl _]. pose proof (jsonSpelling_grammar l Hl) as Hg.
  assert (Hr' : readDecimal (jsonSpelling l) = Ok (json_literal l, x)).
  { unfold readDecimal in *. rewrite Hs in Hr. rewrite (scanDecimal_complete _ _ Hg), json_leadExponent.
    destruct (leadExponent l); naive_solver. }
  split_and!; [by apply jsonSpelling_number|by apply json_ParseDecimal| |].
  - unfold ParseDecimal. by rewrite Hr'.
  - destruct (NewBigVal_spelling _ _ _ Hr') as [-> _]. f_equal.
    pose proof (json_int_idem l (wfl_int _ Hl)) as Hi. cbv zeta in Hi.
    unfold jsonSpelling at 1. cbv zeta. cbn [json_literal intPart frac exponent lneg].
    by rewrite Hi.
Qed.

(** [NewBigVal] accepts exactly what [ParseDecimal] does. What it returns
    is a JSON number of the same value, and it leaves such a spelling alone. *)
Theorem NewBigVal_correct s : bigval_promise s (NewBigVal s).
Proof. apply NewBigVal_promise. Qed.
