(* ===== verification/Multiple.v ===== *)
(** * Multiple: multiples and common steps of decimals
    ([src/compilers/openapi/internal/merge/multiple.go])

    Divisibility of two decimals is decided on bounded integers, and two
    [multipleOf] steps fold to the step whose multiples are their common ones. *)
From S2P Require Import Prelude GoLib Decimal DecimalValue DecimalOrder BigVal.
Implicit Types (s x y : gostring) (a b d v m : Decimal).

(** ** math/big *)

(** [big.Int.Exp] with no modulus: 1 at a power that is not positive. *)
Definition big_Exp (x y : Z) : Z := if (y <=? 0)%Z then 1%Z else (x ^ y)%Z.

(** ** Operations *)

Definition stepFactorsPerDigit : Z := 4.
Definition maxStepDigits : Z := 1024.

Definition lowestExponent d : Z :=
  i64 (i64 (Exponent d - Z.of_nat (length (Digits d))) + 1).
Definition coefficient d : Z := digits_value (Digits d).
Definition scaled d (k : Z) : Z := (coefficient d * big_Exp 10 k)%Z.

(** Returns whether [v] is a multiple of [m], and whether [m] is a step at all. *)
Definition isMultipleOf v m : bool * bool :=
  if (Sign m =? 0)%Z then (false, false)
  else if (Sign v =? 0)%Z then (true, true)
  else
    let shift := i64 (lowestExponent v - lowestExponent m) in
    if (shift <? 0)%Z then (false, true)
    else
      let k := Z.min shift (i64 (stepFactorsPerDigit * Z.of_nat (length (Digits m)))) in
      ((Z.rem (scaled v k) (coefficient m) =? 0)%Z, true).

Definition leastCommonMultiple a b : gostring :=
  let '(a, b) := if (lowestExponent a <? lowestExponent b)%Z then (b, a) else (a, b) in
  let shift := i64 (lowestExponent a - lowestExponent b) in
  let k := Z.min shift (i64 (stepFactorsPerDigit * Z.of_nat (length (Digits b)))) in
  let x := scaled a k in
  let y := coefficient b in
  let gcd := Z.gcd x y in
  let lcm := FormatInt (Z.quot x gcd * y) in
  let exp := i64 (lowestExponent a - k) in
  if negb (exp =? 0)%Z then lcm ++ "e"%char :: FormatInt exp else lcm.

Definition commonStep x y : gostring * bool :=
  if decide (x = y) then (x, true)
  else
    match BigVal_Decimal x, BigVal_Decimal y with
    | Ok a, Ok b =>
        if (Sign a <=? 0)%Z || (Sign b <=? 0)%Z ||
           (maxStepDigits <? Z.of_nat (length (Digits a) + length (Digits b)))%Z
        then ([], false)
        else if (let '(multiple, ok) := isMultipleOf a b in ok && multiple) then (x, true)
        else if (let '(multiple, ok) := isMultipleOf b a in ok && multiple) then (y, true)
        else match NewBigVal (leastCommonMultiple a b) with
             | Ok lcm => (lcm, true)
             | Err _ => ([], false)
             end
    | _, _ => ([], false)
    end.

Example commonStep_4_6 : commonStep (go "4") (go "6") = (go "12", true).
Proof. vm_compute. reflexivity. Qed.
Example commonStep_fractions : commonStep (go "0.4") (go "15e-2") = (go "120e-2", true).
Proof. vm_compute. reflexivity. Qed.
Example commonStep_multiple : commonStep (go "1e900000000000") (go "0.5") = (go "1e900000000000", true).
Proof. vm_compute. reflexivity. Qed.

(** ** Divisibility past the powers of ten *)

Lemma coprime_factor (K : nat) (m : Z) :
  (0 < m < 2 ^ Z.of_nat K)%Z →
  ∃ t c, m = (t * c)%Z ∧ Z.gcd c 10 = 1%Z ∧ (t | 10 ^ Z.of_nat K)%Z ∧ (0 < t)%Z.
Proof.
  revert m. induction K as [|K IH]; intros m Hm; [simpl in Hm; lia|].
  replace (Z.of_nat (S K)) with (Z.of_nat K + 1)%Z in * by lia. rewrite Z.pow_add_r in * by lia.
  assert (Hstep : ∀ p, (p = 2 ∨ p = 5)%Z → (p | m)%Z →
    ∃ t c, m = (t * c)%Z ∧ Z.gcd c 10 = 1%Z ∧ (t | 10 ^ Z.of_nat K * 10 ^ 1)%Z ∧ (0 < t)%Z).
  { intros p Hp [q Hq]. destruct (IH q) as (t & c & -> & Hc & [w Hw] & Ht);
      [change (2 ^ 1)%Z with 2%Z in Hm; destruct Hp as [-> | ->]; lia|].
    exists (p * t)%Z, c. split_and!; [lia|done| |destruct Hp as [-> | ->]; lia].
    exists (w * (10 / p))%Z. rewrite Hw. change (10 ^ 1)%Z with 10%Z.
    destruct Hp as [-> | ->]; [change (10 / 2)%Z with 5%Z|change (10 / 5)%Z with 2%Z]; ring. }
  destruct (decide (m mod 2 = 0)%Z) as [H2|H2]; [apply (Hstep 2%Z); [auto|by apply Z.mod_divide]|].
  destruct (decide (m mod 5 = 0)%Z) as [H5|H5]; [apply (Hstep 5%Z); [auto|by apply Z.mod_divide]|].
  exists 1%Z, m. split_and!; [lia| |apply Z.divide_1_l|lia].
  pose proof (Z.gcd_divide_l m 10) as Hgm. pose proof (Z.gcd_divide_r m 10) as [q Hq].
  pose proof (Z.gcd_nonneg m 10). set (g := Z.gcd m 10) in *.
  assert (Hno : ∀ p, (p = 2 ∨ p = 5)%Z → ¬ (p | g)%Z).
  { intros p Hp Hpg. assert (p | m)%Z as Hpm by (by transitivity g).
    by destruct Hp as [-> | ->]; apply Z.mod_divide in Hpm. }
  assert (g <= 10)%Z by (apply Z.divide_pos_le; [lia|by exists q]).
  assert (g = 1 ∨ g = 2 ∨ g = 5 ∨ g = 10)%Z as [?|[Hg|[Hg|Hg]]]; [|done|exfalso..].
  { assert (g = 0 ∨ g = 1 ∨ g = 2 ∨ g = 3 ∨ g = 4 ∨ g = 5 ∨ g = 6 ∨ g = 7 ∨ g = 8 ∨ g = 9 ∨ g = 10)%Z
      as Hcases by lia. destruct_or! Hcases; rewrite Hcases in *; lia. }
  - apply (Hno 2%Z); [auto|by rewrite Hg].
  - apply (Hno 5%Z); [auto|by rewrite Hg].
  - apply (Hno 2%Z); [auto|rewrite Hg; by exists 5%Z].
Qed.

Lemma gcd_pow_10 c (j : Z) : Z.gcd c 10 = 1%Z → (0 <= j)%Z → Z.gcd c (10 ^ j) = 1%Z.
Proof. intros Hc Hj. by apply Z.coprime_pow_r. Qed.

(** A further power of ten never helps a number that already carries enough. *)
Lemma divide_past_tens (K : nat) (m Y j : Z) :
  (0 < m < 2 ^ Z.of_nat K)%Z → (10 ^ Z.of_nat K | Y)%Z → (0 <= j)%Z →
  (m | Y * 10 ^ j)%Z ↔ (m | Y)%Z.
Proof.
  intros Hm HY Hj. split; [|intros H; by apply Z.divide_mul_l].
  destruct (coprime_factor K m Hm) as (t & c & -> & Hc & Ht & Htp). intros H.
  assert (HcY : (c | Y)%Z).
  { apply (Z.gauss c (10 ^ j) Y); [|by apply gcd_pow_10].
    rewrite Z.mul_comm. etransitivity; [|exact H]. by exists t. }
  assert (Htc : Z.gcd t c = 1%Z).
  { apply Z.divide_1_r_nonneg; [apply Z.gcd_nonneg|].
    rewrite <- (gcd_pow_10 c (Z.of_nat K) Hc) by lia. apply Z.gcd_greatest.
    - apply Z.gcd_divide_r.
    - etransitivity; [apply Z.gcd_divide_l|done]. }
  destruct HcY as [q ->]. apply Z.mul_divide_mono_r.
  assert (HtY : (t | c * q)%Z) by (rewrite Z.mul_comm; by etransitivity).
  by apply Z.gauss in HtY.
Qed.

(** ** The int64 arithmetic *)

(** A decimal read from a text Go can hold. *)
Definition small d : Prop := (Z.of_nat (length (digits d)) < 2 ^ 59)%Z.

Lemma lowestExponent_exact d :
  wf d → small d →
  lowestExponent d = lowest d ∧ (- 2 ^ 61 < lowest d <= 2 ^ 60)%Z.
Proof.
  intros Hd Hs. pose proof (wf_exp _ Hd). unfold lowestExponent, lowest, small, Exponent, Digits, MaxDecimalExp in *.
  rewrite !i64_id; unfold in_i64, i64_min, i64_max; rewrite ?i64_id; unfold in_i64, i64_min, i64_max; lia.
Qed.

Lemma shift_exact a b :
  wf a → wf b → small a → small b →
  i64 (lowestExponent a - lowestExponent b) = (lowest a - lowest b)%Z.
Proof.
  intros Ha Hb Sa Sb. destruct (lowestExponent_exact a Ha Sa) as [-> ?].
  destruct (lowestExponent_exact b Hb Sb) as [-> ?]. apply i64_id. unfold in_i64, i64_min, i64_max. lia.
Qed.

Lemma factors_exact d :
  small d → i64 (stepFactorsPerDigit * Z.of_nat (length (Digits d))) = Z.of_nat (4 * length (digits d)).
Proof.
  intros Hs. unfold small, Digits, stepFactorsPerDigit in *.
  rewrite i64_id; unfold in_i64, i64_min, i64_max; lia.
Qed.

Lemma scaled_exact d k : (0 <= k)%Z → scaled d k = (coefficient d * 10 ^ k)%Z.
Proof.
  intros Hk. unfold scaled, big_Exp. destruct (Z.leb_spec k 0); [|done].
  by replace k with 0%Z by lia.
Qed.

(** The coefficient fits the factor bound. *)
Lemma coefficient_bound d :
  wf d → digits d ≠ [] → (0 < coefficient d < 2 ^ Z.of_nat (4 * length (digits d)))%Z.
Proof.
  intros Hd Hne. pose proof (magnitude_positive d (lowest d) Hd Hne ltac:(lia)) as Hp.
  rewrite Z.sub_diag, Z.mul_1_r in Hp. split; [done|].
  pose proof (digits_value_bound _ (wf_digits _ Hd)) as [_ Hb]. unfold coefficient, Digits.
  eapply Z.lt_le_trans; [exact Hb|]. rewrite Nat2Z.inj_mul, Z.pow_mul_r by lia.
  apply Z.pow_le_mono_l. split; [lia|]. by vm_compute.
Qed.

Lemma Sign_zero_iff d : Sign d = 0%Z ↔ digits d = [].
Proof. unfold Sign. destruct (digits d); simpl; [done|]. by destruct (neg d). Qed.

(** ** Multiples of a rational *)

Definition is_multiple (q r : Q) : Prop := ∃ z : Z, (q == inject_Z z * r)%Q.

#[export] Instance is_multiple_proper : Proper (Qeq ==> Qeq ==> iff) is_multiple.
Proof.
  intros q q' Hq r r' Hr. unfold is_multiple. split; intros [z Hz]; exists z; by rewrite ?Hq, ?Hr, <- ?Hq, <- ?Hr in *.
Qed.

Lemma is_multiple_scaled (x y L : Z) :
  is_multiple (inject_Z x * pow10 L) (inject_Z y * pow10 L) ↔ (y | x)%Z.
Proof.
  pose proof (pow10_pos L) as HL. unfold is_multiple, Z.divide. split; intros [z Hz]; exists z.
  - rewrite Qmult_assoc in Hz. apply Qmult_inj_r in Hz; [|lra].
    apply inject_Z_injective. by rewrite inject_Z_mult.
  - rewrite Hz, inject_Z_mult. ring.
Qed.

Lemma units_divide L a b :
  (L <= lowest a)%Z → (L <= lowest b)%Z →
  is_multiple (value a) (value b) ↔ (units L b | units L a)%Z.
Proof. intros Ha Hb. rewrite (value_units L a), (value_units L b) by done. apply is_multiple_scaled. Qed.

Lemma divide_sign (s1 s2 : bool) (x y : Z) : (sign_of s1 * x | sign_of s2 * y)%Z ↔ (x | y)%Z.
Proof.
  destruct s1, s2; simpl sign_of; rewrite ?Z.mul_1_l; rewrite <- ?Z.opp_eq_mul_m1;
    rewrite ?Z.mul_opp_l, ?Z.mul_1_l, ?Z.divide_opp_l, ?Z.divide_opp_r; done.
Qed.

Lemma multiple_on_coefficients a b :
  (lowest b <= lowest a)%Z →
  is_multiple (value a) (value b) ↔ (coefficient b | coefficient a * 10 ^ (lowest a - lowest b))%Z.
Proof.
  intros H. rewrite (units_divide (lowest b)) by lia. rewrite !units_neg, divide_sign, Z.sub_diag.
  by rewrite Z.mul_1_r.
Qed.

(** Dividing out every trailing power of ten past the bound changes nothing. *)
Lemma bounded_shift a b (shift : Z) :
  wf b → digits b ≠ [] → (0 <= shift)%Z →
  let k := Z.min shift (Z.of_nat (4 * length (digits b))) in
  (coefficient b | coefficient a * 10 ^ shift)%Z ↔ (coefficient b | coefficient a * 10 ^ k)%Z.
Proof.
  intros Hb Hne Hs. cbv zeta. set (K := 4 * length (digits b)).
  destruct (Z.min_spec shift (Z.of_nat K)) as [[Hlt ->]|[Hle ->]]; [done|].
  replace shift with (Z.of_nat K + (shift - Z.of_nat K))%Z by lia.
  rewrite Z.pow_add_r, Z.mul_assoc by lia.
  apply (divide_past_tens K); [by apply coefficient_bound|apply Z.divide_factor_r|lia].
Qed.

(** A value written below the step's last place is no multiple of it. *)
Lemma too_fine a b :
  wf a → digits a ≠ [] → (lowest a < lowest b)%Z → ¬ is_multiple (value a) (value b).
Proof.
  intros Ha Hne Hlt. rewrite (units_divide (lowest a)) by lia.
  rewrite !units_neg, divide_sign, Z.sub_diag, Z.mul_1_r. intros Hdiv.
  apply (wf_last _ Ha), last_digit_value; [apply Ha|done|].
  etransitivity; [|exact Hdiv]. apply Z.divide_mul_r.
  replace (lowest b - lowest a)%Z with (1 + (lowest b - lowest a - 1))%Z by lia.
  rewrite Z.pow_add_r by lia. apply Z.divide_factor_l.
Qed.

Lemma isMultipleOf_spec v m :
  wf v → wf m → small v → small m →
  (Sign m = 0%Z → isMultipleOf v m = (false, false)) ∧
  (Sign m ≠ 0%Z → (isMultipleOf v m).2 = true ∧
     ((isMultipleOf v m).1 = true ↔ is_multiple (value v) (value m))).
Proof.
  intros Hv Hm Sv Sm. unfold isMultipleOf. split; [by intros ->|]. intros Hnz.
  rewrite (proj2 (Z.eqb_neq _ _)) by done.
  assert (Hmne : digits m ≠ []) by (by rewrite <- Sign_zero_iff).
  destruct (Z.eqb_spec (Sign v) 0) as [Hz|Hz].
  { split; [done|]. split; [intros _|done]. apply Sign_zero_iff in Hz.
    rewrite (wf_zero _ Hv Hz), value_zero. exists 0%Z. by rewrite Qmult_0_l. }
  assert (Hvne : digits v ≠ []) by (by rewrite <- Sign_zero_iff).
  cbv zeta. rewrite shift_exact, factors_exact by done.
  destruct (Z.ltb_spec (lowest v - lowest m) 0) as [Hlt|Hge]; simpl; (split; [done|]).
  { split; [done|]. intros Hmul. by eapply too_fine in Hmul; [|done|done|lia]. }
  rewrite multiple_on_coefficients, (bounded_shift v m) by (done || lia). cbv zeta.
  rewrite scaled_exact by lia. destruct (coefficient_bound m Hm Hmne).
  rewrite Z.eqb_eq, Z.rem_divide by lia. done.
Qed.

(** [isMultipleOf] decides divisibility of the exact values, for any two
    decimals however far apart their exponents are, and refuses only a zero step.
    The bounded shift it computes with loses nothing. *)
Theorem isMultipleOf_exact v m :
  wf v → wf m → small v → small m → digits m ≠ [] →
  (isMultipleOf v m).2 = true ∧ ((isMultipleOf v m).1 = true ↔ is_multiple (value v) (value m)).
Proof. intros. apply isMultipleOf_spec; [done..|]. by rewrite Sign_zero_iff. Qed.

Lemma isMultipleOf_exact_witness :
  let v := {| neg := false; digits := go "75"; exp := 1 |} in
  let m := {| neg := false; digits := go "25"; exp := 0 |} in
  wf v ∧ wf m ∧ is_multiple (value v) (value m).
Proof.
  assert (Hv : wf {| neg := false; digits := go "75"; exp := 1 |})
    by (constructor; [repeat constructor; done|done|done|done|done]).
  assert (Hm : wf {| neg := false; digits := go "25"; exp := 0 |})
    by (constructor; [repeat constructor; done|done|done|done|done]).
  split; [done|]. split; [done|].
  by apply (isMultipleOf_exact _ _ Hv Hm).
Defined.

(** ** The least common multiple *)

(** What [leastCommonMultiple] computes once the operands are ordered. *)
Definition lcm_coefficient a b : Z :=
  let k := Z.min (lowest a - lowest b) (Z.of_nat (4 * length (digits b))) in
  Z.lcm (coefficient a * 10 ^ k) (coefficient b).
Definition lcm_exponent a b : Z :=
  (lowest a - Z.min (lowest a - lowest b) (Z.of_nat (4 * length (digits b))))%Z.

Definition spelled_at (c e : Z) : gostring :=
  if negb (e =? 0)%Z then FormatInt c ++ "e"%char :: FormatInt e else FormatInt c.

Lemma lcm_quot (x y : Z) : (0 < x)%Z → (0 < y)%Z → (Z.quot x (Z.gcd x y) * y)%Z = Z.lcm x y.
Proof.
  intros Hx Hy. pose proof (Z.gcd_nonneg x y).
  assert (Z.gcd x y ≠ 0)%Z by (intros E; apply Z.gcd_eq_0_l in E; lia).
  rewrite Z.quot_div_nonneg by lia. unfold Z.lcm.
  rewrite Z.lcm_equiv2, <- Z.lcm_equiv1 by done. symmetry. apply Z.abs_eq.
  apply Z.mul_nonneg_nonneg; [lia|]. apply Z.div_pos; lia.
Qed.

Lemma leastCommonMultiple_spelled a b :
  wf a → wf b → small a → small b → digits a ≠ [] → digits b ≠ [] →
  (lowest b <= lowest a)%Z →
  let text := spelled_at (lcm_coefficient a b) (lcm_exponent a b) in
  leastCommonMultiple a b = text ∧ ((lowest b < lowest a)%Z → leastCommonMultiple b a = text).
Proof.
  intros Ha Hb Sa Sb Na Nb Hle. cbv zeta.
  destruct (lowestExponent_exact a Ha Sa) as [Ea Ra]. destruct (lowestExponent_exact b Hb Sb) as [Eb Rb].
  pose proof (coefficient_bound a Ha Na). pose proof (coefficient_bound b Hb Nb).
  assert (Hmain : (let shift := i64 (lowestExponent a - lowestExponent b) in
      let k := Z.min shift (i64 (stepFactorsPerDigit * Z.of_nat (length (Digits b)))) in
      let x := scaled a k in let y := coefficient b in let gcd := Z.gcd x y in
      let lcm := FormatInt (Z.quot x gcd * y) in let exp := i64 (lowestExponent a - k) in
      if negb (exp =? 0)%Z then lcm ++ "e"%char :: FormatInt exp else lcm)
      = spelled_at (lcm_coefficient a b) (lcm_exponent a b)).
  { cbv zeta. rewrite shift_exact, factors_exact, Ea by done.
    rewrite scaled_exact by lia. rewrite lcm_quot; [|apply Z.mul_pos_pos; [lia|apply Z.pow_pos_nonneg; lia]|lia].
    rewrite i64_id by (unfold in_i64, i64_min, i64_max, small in *; lia). done. }
  split.
  - rewrite <- Hmain. unfold leastCommonMultiple. rewrite Ea, Eb.
    rewrite (proj2 (Z.ltb_ge (lowest a) (lowest b))) by lia. by rewrite Ea, Eb.
  - intros Hlt. rewrite <- Hmain. unfold leastCommonMultiple. rewrite Ea, Eb.
    rewrite (proj2 (Z.ltb_lt (lowest b) (lowest a))) by lia. by rewrite Ea, Eb.
Qed.

(** Its multiples are the common multiples. *)
Lemma lcm_common a b (q : Q) :
  wf a → wf b → digits a ≠ [] → digits b ≠ [] → (lowest b <= lowest a)%Z →
  is_multiple q (inject_Z (lcm_coefficient a b) * pow10 (lcm_exponent a b)) ↔
  is_multiple q (inject_Z (coefficient a) * pow10 (lowest a)) ∧
  is_multiple q (inject_Z (coefficient b) * pow10 (lowest b)).
Proof.
  intros Ha Hb Na Nb Hle. unfold lcm_coefficient, lcm_exponent.
  set (K := 4 * length (digits b)). set (k := Z.min (lowest a - lowest b) (Z.of_nat K)).
  set (X := (coefficient a * 10 ^ k)%Z). set (j := (lowest a - lowest b - k)%Z).
  assert (Hj : (0 <= j)%Z) by lia.
  (* all three steps in units of b's last place *)
  assert (Ustep : (inject_Z (Z.lcm X (coefficient b)) * pow10 (lowest a - k) ==
                   inject_Z (Z.lcm X (coefficient b) * 10 ^ j) * pow10 (lowest b))%Q).
  { rewrite shift_coefficient by done. by replace (lowest b + j)%Z with (lowest a - k)%Z by lia. }
  assert (Ua : (inject_Z (coefficient a) * pow10 (lowest a) == inject_Z (X * 10 ^ j) * pow10 (lowest b))%Q).
  { unfold X. rewrite <- Z.mul_assoc, <- Z.pow_add_r, shift_coefficient by lia.
    by replace (lowest b + (k + j))%Z with (lowest a) by lia. }
  rewrite Ustep, Ua. pose proof (coefficient_bound b Hb Nb) as Hcb. fold K in Hcb.
  assert (Hkey : ∀ u, (coefficient b | X * 10 ^ j * u)%Z → (coefficient b | X * u)%Z).
  { intros u Hu. destruct (Z.min_spec (lowest a - lowest b) (Z.of_nat K)) as [[_ E]|[_ E]]; fold k in E.
    - replace j with 0%Z in Hu by lia. by rewrite Z.mul_1_r in Hu.
    - apply (divide_past_tens K (coefficient b) (X * u) j); [lia| |done|].
      + unfold X. rewrite E. apply Z.divide_mul_l, Z.divide_factor_r.
      + by replace (X * u * 10 ^ j)%Z with (X * 10 ^ j * u)%Z by lia. }
  pose proof (pow10_pos (lowest b)) as HU. split.
  - intros [z Hz]. pose proof (Z.divide_lcm_l X (coefficient b)) as [p Hp].
    pose proof (Z.divide_lcm_r X (coefficient b)) as [r Hr]. split.
    + exists (z * p)%Z. rewrite Hz, Hp, !inject_Z_mult. ring.
    + exists (z * r * 10 ^ j)%Z. rewrite Hz, Hr, !inject_Z_mult. ring.
  - intros [[u Hu] [w Hw]].
    assert (Hn : (u * (X * 10 ^ j) = w * coefficient b)%Z).
    { apply inject_Z_injective. rewrite (inject_Z_mult u), (inject_Z_mult w).
      apply (Qmult_inj_r _ _ (pow10 (lowest b))); [lra|].
      transitivity q; [rewrite Hu|rewrite Hw]; ring. }
    assert (Hdiv : (Z.lcm X (coefficient b) | X * u)%Z).
    { apply Z.lcm_least; [apply Z.divide_factor_l|]. apply Hkey. exists w. lia. }
    destruct Hdiv as [z Hz]. exists z.
    assert (u * (X * 10 ^ j) = z * (Z.lcm X (coefficient b) * 10 ^ j))%Z as Hw'
      by (rewrite (Z.mul_assoc z), <- Hz; ring).
    by rewrite Hu, (Qmult_assoc (inject_Z z)), <- (inject_Z_mult z), <- Hw', inject_Z_mult, Qmult_assoc.
Qed.

(** ** Spelling the step *)

Lemma format_digits_length fuel z acc : length (format_digits fuel z acc) ≤ fuel + length acc.
Proof.
  revert z acc. induction fuel as [|fuel IH]; intros z acc; simpl; [lia|].
  destruct (z / 10 =? 0)%Z; simpl; [lia|]. rewrite IH. simpl. lia.
Qed.

Lemma FormatInt_length z : (Z.of_nat (length (FormatInt z)) <= 2 + Z.log2 (Z.abs z))%Z.
Proof.
  assert (H : ∀ n, (0 <= n)%Z → (Z.of_nat (length (FormatUint n)) <= 1 + Z.log2 n)%Z).
  { intros n Hn. unfold FormatUint, format_fuel. pose proof (Z.log2_nonneg n).
    pose proof (format_digits_length (S (Z.to_nat (Z.log2 n))) n []). cbn [length] in *. lia. }
  unfold FormatInt. destruct (Z.ltb_spec z 0).
  - specialize (H (- z)%Z ltac:(lia)). rewrite Z.abs_neq by lia. cbn [length]. lia.
  - specialize (H z ltac:(lia)). rewrite Z.abs_eq by lia. lia.
Qed.

Lemma spelled_at_literal c e :
  (0 <= c)%Z →
  ∃ l, decimal_grammar (spelled_at c e) l ∧ (literal_value l == inject_Z c * pow10 e)%Q.
Proof.
  intros Hc. destruct (FormatUint_spec c Hc) as (H1 & H2 & H3).
  assert (HF : FormatInt c = FormatUint c).
  { unfold FormatInt. by rewrite (proj2 (Z.ltb_ge _ _)). }
  exists {| intPart := FormatInt c; frac := [];
            exponent := if negb (e =? 0)%Z then "e"%char :: FormatInt e else []; lneg := false; point := false |}.
  rewrite HF. split.
  - unfold spelled_at. rewrite HF. destruct (Z.eqb_spec e 0); simpl.
    + rewrite <- (app_nil_r (FormatUint c)) at 1.
      apply (grammar_intro []); [constructor|by constructor|constructor].
    + destruct (FormatInt_spec e) as (sg & ds & b & -> & Hsg & Hd1 & Hd2 & _).
      apply (grammar_intro []); [constructor|by constructor|].
      eapply exponent_some; eauto.
  - unfold literal_value, literal_digits. cbn [lneg intPart frac exponent]. rewrite app_nil_r, H2.
    destruct (Z.eqb_spec e 0) as [->|]; cbn [negb].
    + apply Qmult_comp; [by rewrite Z.mul_1_l|done].
    + rewrite String_exponent, Z.sub_0_r. by rewrite Z.mul_1_l.
Qed.

Lemma spelled_at_short c e :
  (0 < c)%Z → (Z.log2 c < 20480)%Z → (Z.abs e < 2 ^ 62)%Z → (Z.of_nat (length (spelled_at c e)) < 2 ^ 20)%Z.
Proof.
  intros Hc Hl He. unfold spelled_at.
  pose proof (FormatInt_length c) as Lc. pose proof (FormatInt_length e) as Le.
  rewrite Z.abs_eq in Lc by lia.
  assert (Z.log2 (Z.abs e) < 62)%Z.
  { destruct (decide (Z.abs e = 0)%Z) as [->|]; [done|]. apply Z.log2_lt_pow2; lia. }
  destruct (negb (e =? 0)%Z); rewrite ?length_app; cbn [length]; lia.
Qed.

Lemma lcm_coefficient_bound a b :
  wf a → wf b → digits a ≠ [] → digits b ≠ [] → (lowest b <= lowest a)%Z →
  (Z.of_nat (length (digits a) + length (digits b)) <= maxStepDigits)%Z →
  (0 < lcm_coefficient a b < 2 ^ 20480)%Z.
Proof.
  intros Ha Hb Na Nb Hle Hlen. pose proof (coefficient_bound a Ha Na). pose proof (coefficient_bound b Hb Nb).
  unfold lcm_coefficient, maxStepDigits in *.
  set (k := Z.min (lowest a - lowest b) (Z.of_nat (4 * length (digits b)))).
  assert (Hk : (0 <= k <= 4096)%Z) by lia.
  assert (Hpow : (0 < 10 ^ k <= 2 ^ (4 * k))%Z).
  { split; [apply Z.pow_pos_nonneg; lia|]. rewrite Z.pow_mul_r by lia. apply Z.pow_le_mono_l. done. }
  set (x := (coefficient a * 10 ^ k)%Z). set (y := coefficient b) in *.
  assert (Hx : (0 < x)%Z) by (apply Z.mul_pos_pos; lia).
  assert (Hl0 : (0 < Z.lcm x y)%Z).
  { pose proof (Z.lcm_nonneg x y). assert (Z.lcm x y ≠ 0)%Z; [|lia]. rewrite Z.lcm_eq_0. lia. }
  split; [done|].
  assert (Hxy : (Z.lcm x y <= x * y)%Z).
  { apply Z.divide_pos_le; [apply Z.mul_pos_pos; lia|]. apply Z.lcm_least; [apply Z.divide_factor_l|apply Z.divide_factor_r]. }
  eapply Z.le_lt_trans; [exact Hxy|].
  assert (Hpa : (coefficient a <= 2 ^ Z.of_nat (4 * length (digits a)))%Z) by lia.
  assert (Hxb : (x <= 2 ^ (Z.of_nat (4 * length (digits a)) + 4 * k))%Z).
  { rewrite Z.pow_add_r by lia. apply Z.mul_le_mono_nonneg; lia. }
  assert (Hall : (x * y < 2 ^ (Z.of_nat (4 * length (digits a)) + 4 * k) * 2 ^ Z.of_nat (4 * length (digits b)))%Z)
    by (apply Z.le_lt_trans with (2 ^ (Z.of_nat (4 * length (digits a)) + 4 * k) * y)%Z;
        [apply Z.mul_le_mono_nonneg_r; lia|apply Z.mul_lt_mono_pos_l; [apply Z.pow_pos_nonneg; lia|lia]]).
  eapply Z.lt_le_trans; [exact Hall|]. rewrite <- Z.pow_add_r by lia. apply Z.pow_le_mono_r; lia.
Qed.

Lemma lcm_coefficient_bits a b :
  wf a → wf b → digits a ≠ [] → digits b ≠ [] → (lowest b <= lowest a)%Z →
  (Z.of_nat (length (digits a) + length (digits b)) <= maxStepDigits)%Z →
  (0 < lcm_coefficient a b ∧ Z.log2 (lcm_coefficient a b) < 20480)%Z.
Proof.
  intros Ha Hb Na Nb Hle Hlen. destruct (lcm_coefficient_bound a b Ha Hb Na Nb Hle Hlen) as [H1 H2].
  split; [done|]. by apply (proj1 (Z.log2_lt_pow2 _ _ H1)).
Qed.

Lemma positive_value d :
  (0 < Sign d)%Z → digits d ≠ [] ∧ value d = (inject_Z (coefficient d) * pow10 (lowest d))%Q.
Proof.
  unfold Sign, value, signed_coefficient. destruct (digits d) eqn:E; simpl; [done|].
  destruct (neg d); [done|]. intros _. split; [done|]. unfold coefficient, Digits. rewrite E. by rewrite Z.mul_1_l.
Qed.

Lemma ParseDecimal_small s d : fits s → ParseDecimal s = Ok d → wf d ∧ small d.
Proof.
  intros Hf Hd. pose proof (ParseDecimal_promise s Hf) as Hp. rewrite Hd in Hp. destruct Hp as [Hw _].
  split; [done|]. rewrite ParseDecimal_exact in Hd by done.
  destruct (scanDecimal s) as [l|] eqn:Hs; [|done]. destruct (lead_of l) as [x|]; [|done].
  injection Hd as <-. destruct (scanDecimal_wf s l Hs) as [_ Hlen]. unfold small, fits in *.
  enough (length (digits (decimal l x)) ≤ length (intPart l ++ frac l)) as H by (rewrite length_app in H; lia).
  unfold decimal. cbv zeta. destruct (is_empty _); simpl; [lia|].
  destruct (TrimRight_split "0" (TrimLeft "0" (intPart l ++ frac l))) as (k & Hk & _).
  apply (f_equal length) in Hk. rewrite length_app in Hk. pose proof (TrimLeft_length "0" (intPart l ++ frac l)). lia.
Qed.

(** ** Common steps *)

Definition common_step_of (q_a q_b : Q) (s : gostring) : Prop :=
  ∃ d, ParseDecimal s = Ok d ∧
    ∀ q, is_multiple q (value d) ↔ is_multiple q q_a ∧ is_multiple q q_b.

(** A step: a positive decimal read from a text Go can hold. *)
Definition step_of (s : gostring) d : Prop :=
  ParseDecimal s = Ok d ∧ wf d ∧ small d ∧ (0 < Sign d)%Z ∧ fits s.

Lemma is_multiple_refl q : is_multiple q q.
Proof. exists 1%Z. by rewrite Qmult_1_l. Qed.

Lemma is_multiple_trans p q r : is_multiple p q → is_multiple q r → is_multiple p r.
Proof. intros [z Hz] [w Hw]. exists (z * w)%Z. by rewrite Hz, Hw, inject_Z_mult, Qmult_assoc. Qed.

Lemma Sign_positive d : wf d → (0 < value d)%Q → (0 < Sign d)%Z.
Proof.
  intros Hd Hv. destruct (Sign_units (lowest d) d Hd ltac:(lia)) as [-> _].
  rewrite (value_units (lowest d)) in Hv by lia.
  assert (inject_Z 0 * pow10 (lowest d) < inject_Z (units (lowest d) d) * pow10 (lowest d))%Q as H
    by (by rewrite Qmult_0_l).
  apply (proj1 (Qlt_alt _ _)) in H. rewrite (Qcompare_units 0 (units (lowest d) d)) in H.
  apply (proj1 (Z.compare_lt_iff _ _)) in H. by rewrite (proj2 (Z.sgn_pos_iff _) H).
Qed.

Lemma lcm_step a b s :
  wf a → wf b → small a → small b → (0 < Sign a)%Z → (0 < Sign b)%Z → (lowest b <= lowest a)%Z →
  (Z.of_nat (length (digits a) + length (digits b)) <= maxStepDigits)%Z →
  NewBigVal (spelled_at (lcm_coefficient a b) (lcm_exponent a b)) = Ok s →
  ∃ d, step_of s d ∧ ∀ q, is_multiple q (value d) ↔ is_multiple q (value a) ∧ is_multiple q (value b).
Proof.
  intros Ha Hb Sa Sb Pa Pb Hle Hlen Hs.
  destruct (positive_value a Pa) as [Na Va]. destruct (positive_value b Pb) as [Nb Vb].
  destruct (lcm_coefficient_bits a b Ha Hb Na Nb Hle Hlen) as [Hc Hl].
  destruct (lowestExponent_exact a Ha Sa) as [_ Ra]. destruct (lowestExponent_exact b Hb Sb) as [_ Rb].
  set (text := spelled_at (lcm_coefficient a b) (lcm_exponent a b)) in *.
  assert (Hshort : (Z.of_nat (length text) < 2 ^ 20)%Z).
  { apply spelled_at_short; [done..|]. unfold lcm_exponent, maxStepDigits in *. lia. }
  assert (Hfit : fits text) by (unfold fits; lia).
  pose proof (NewBigVal_length _ _ Hs) as Hlong.
  pose proof (NewBigVal_promise text) as Hp.
  rewrite Hs in Hp. destruct Hp as (_ & Hsame & Hok & _).
  destruct (ParseDecimal s) as [d|] eqn:Hd; [|done]. exists d.
  pose proof (ParseDecimal_promise _ Hfit) as Hval. rewrite <- Hsame in Hval.
  destruct Hval as (Hwf & l & Hg & Hv).
  destruct (spelled_at_literal (lcm_coefficient a b) (lcm_exponent a b) ltac:(lia)) as (l' & Hg' & Hv').
  apply scanDecimal_complete in Hg, Hg'. fold text in Hg'. rewrite Hg in Hg'. injection Hg' as <-.
  split; cycle 1.
  { intros q. rewrite Hv, Hv', Va, Vb. by apply lcm_common. }
  destruct (ParseDecimal_small text d Hfit ltac:(congruence)) as [_ Hsm].
  split_and!; [done..| |unfold fits; lia]. apply Sign_positive; [done|]. rewrite Hv, Hv'.
  apply Qmult_lt_0_compat; [|apply pow10_pos]. change 0%Q with (inject_Z 0). rewrite <- Zlt_Qlt. lia.
Qed.

Lemma multiple_step a b q :
  wf a → wf b → small a → small b →
  (let '(multiple, ok) := isMultipleOf a b in ok && multiple) = true →
  is_multiple q (value a) ↔ is_multiple q (value a) ∧ is_multiple q (value b).
Proof.
  intros Ha Hb Sa Sb Hm.
  destruct (isMultipleOf_spec a b Ha Hb Sa Sb) as [Hz Hnz].
  destruct (decide (Sign b = 0)%Z) as [Hb0|Hb0]; [by rewrite (Hz Hb0) in Hm|].
  specialize (Hnz Hb0) as [_ Hmul]. destruct (isMultipleOf a b) as [m ok]. simpl in *.
  apply andb_true_iff in Hm as [_ Hm]. apply Hmul in Hm.
  split; [|by intros []]. intros Hq. split; [done|]. by eapply is_multiple_trans.
Qed.

(** Where [commonStep] answers: one literal, or the common step of two steps. *)
Lemma commonStep_cases x y s :
  fits x → fits y → commonStep x y = (s, true) →
  (x = y ∧ s = x) ∨
  ∃ a b d, step_of x a ∧ step_of y b ∧ step_of s d ∧
    ∀ q, is_multiple q (value d) ↔ is_multiple q (value a) ∧ is_multiple q (value b).
Proof.
  intros Fx Fy. unfold commonStep, BigVal_Decimal.
  destruct (decide (x = y)) as [<-|_]; [intros [= <-]; by left|].
  destruct (ParseDecimal x) as [a|] eqn:Hx; [|done]. destruct (ParseDecimal y) as [b|] eqn:Hy; [|done].
  destruct (ParseDecimal_small x a Fx Hx) as [Ha Sa]. destruct (ParseDecimal_small y b Fy Hy) as [Hb Sb].
  destruct (Z.leb_spec (Sign a) 0) as [|Pa]; [done|]. destruct (Z.leb_spec (Sign b) 0) as [|Pb]; [done|].
  destruct (Z.ltb_spec maxStepDigits (Z.of_nat (length (Digits a) + length (Digits b)))) as [|Hlen]; [done|].
  cbn [orb]. intros H. right. exists a, b.
  enough (∃ d, step_of s d ∧ ∀ q, is_multiple q (value d) ↔ is_multiple q (value a) ∧ is_multiple q (value b))
    as (d & Hd & Hq) by (exists d; done).
  destruct (let '(multiple, ok) := isMultipleOf a b in ok && multiple) eqn:Hab.
  { injection H as <-. exists a. split; [done|]. intros q. by apply multiple_step. }
  destruct (let '(multiple, ok) := isMultipleOf b a in ok && multiple) eqn:Hba.
  { injection H as <-. exists b. split; [done|]. intros q.
    pose proof (multiple_step b a q Hb Ha Sb Sa Hba). tauto. }
  destruct (positive_value a Pa) as [Na _]. destruct (positive_value b Pb) as [Nb _].
  destruct (NewBigVal (leastCommonMultiple a b)) as [lcm|] eqn:Hl; [|done]. injection H as <-.
  destruct (Z.le_gt_cases (lowest b) (lowest a)) as [Hle|Hlt].
  - destruct (leastCommonMultiple_spelled a b) as [E _]; try done. rewrite E in Hl. by apply lcm_step.
  - destruct (leastCommonMultiple_spelled b a) as [_ E]; try (done || lia). rewrite (E Hlt) in Hl.
    destruct (lcm_step b a lcm) as (d & Hd & Hq); try (done || lia); [unfold Digits in Hlen; lia|].
    exists d. split; [done|]. intros q. rewrite Hq. tauto.
Qed.

(** the step two [multipleOf] values fold to is exact: its multiples are
    precisely the numbers that are multiples of both, whether it is one of the
    two as written or a least common multiple neither wrote. *)
Theorem commonStep_exact x y s a b :
  fits x → fits y → ParseDecimal x = Ok a → ParseDecimal y = Ok b →
  commonStep x y = (s, true) → common_step_of (value a) (value b) s.
Proof.
  intros Fx Fy Hx Hy H.
  destruct (commonStep_cases x y s Fx Fy H) as [[<- ->]|(a' & b' & d & (Ea & _) & (Eb & _) & (Ed & _) & Hq)].
  - rewrite Hx in Hy. injection Hy as <-. exists a. split; [done|]. tauto.
  - rewrite Hx in Ea. rewrite Hy in Eb. injection Ea as <-. injection Eb as <-. by exists d.
Qed.

Lemma commonStep_exact_witness :
  commonStep (go "0.4") (go "15e-2") = (go "120e-2", true) ∧
  common_step_of (value {| neg := false; digits := go "4"; exp := -1 |})
                 (value {| neg := false; digits := go "15"; exp := -1 |}) (go "120e-2").
Proof.
  assert (H : commonStep (go "0.4") (go "15e-2") = (go "120e-2", true)) by (vm_compute; reflexivity).
  split; [exact H|]. by apply (commonStep_exact (go "0.4") (go "15e-2") _ _ _ eq_refl eq_refl eq_refl eq_refl H).
Defined.
