(* ===== verification/Constraints.v ===== *)
(** * Constraints: folding constraint sets under allOf
    ([src/ir/constraints.go], [src/compilers/openapi/internal/merge/constraints.go]
    and [bounds.go])

    Each keyword is a record of operations on a constraint set, as the code
    builds it from a slot and a meet; the fold, the conflict search and the
    bounds judgment run over the one keyword table. *)
From S2P Require Import Prelude GoLib Decimal BigVal Multiple.

(** ** Data *)

(** An absent pointer is [None]; an [int64] is a [Z]. *)
Record Constraints := mkConstraints {
  Min : option gostring; Max : option gostring;
  ExclusiveMin : option gostring; ExclusiveMax : option gostring;
  MultipleOf : option gostring;
  Precision : option Z; Scale : option Z;
  MinLength : option Z; MaxLength : option Z;
  Pattern : gostring; PatternMessage : gostring;
  MinItems : option Z; MaxItems : option Z;
  UniqueItems : bool;
  MinProps : option Z; MaxProps : option Z
}.

Definition noConstraints : Constraints :=
  {| Min := None; Max := None; ExclusiveMin := None; ExclusiveMax := None; MultipleOf := None;
     Precision := None; Scale := None; MinLength := None; MaxLength := None;
     Pattern := []; PatternMessage := []; MinItems := None; MaxItems := None;
     UniqueItems := false; MinProps := None; MaxProps := None |}.

(** A field of the set, as [func(c *ir.Constraints) **T] points at one. *)
Record slot (T : Type) := { get : Constraints → T; put : T → Constraints → Constraints }.
Arguments get {T} _ _.
Arguments put {T} _ _ _.

(** One slot per keyword; [put] keeps every other field. *)
Definition Min_slot : slot (option gostring) := {| get := Min;
  put v s := let '(mkConstraints _ b c d e f g h i j k l m n o p) := s in mkConstraints v b c d e f g h i j k l m n o p |}.
Definition Max_slot : slot (option gostring) := {| get := Max;
  put v s := let '(mkConstraints a _ c d e f g h i j k l m n o p) := s in mkConstraints a v c d e f g h i j k l m n o p |}.
Definition ExclusiveMin_slot : slot (option gostring) := {| get := ExclusiveMin;
  put v s := let '(mkConstraints a b _ d e f g h i j k l m n o p) := s in mkConstraints a b v d e f g h i j k l m n o p |}.
Definition ExclusiveMax_slot : slot (option gostring) := {| get := ExclusiveMax;
  put v s := let '(mkConstraints a b c _ e f g h i j k l m n o p) := s in mkConstraints a b c v e f g h i j k l m n o p |}.
Definition MultipleOf_slot : slot (option gostring) := {| get := MultipleOf;
  put v s := let '(mkConstraints a b c d _ f g h i j k l m n o p) := s in mkConstraints a b c d v f g h i j k l m n o p |}.
Definition Precision_slot : slot (option Z) := {| get := Precision;
  put v s := let '(mkConstraints a b c d e _ g h i j k l m n o p) := s in mkConstraints a b c d e v g h i j k l m n o p |}.
Definition Scale_slot : slot (option Z) := {| get := Scale;
  put v s := let '(mkConstraints a b c d e f _ h i j k l m n o p) := s in mkConstraints a b c d e f v h i j k l m n o p |}.
Definition MinLength_slot : slot (option Z) := {| get := MinLength;
  put v s := let '(mkConstraints a b c d e f g _ i j k l m n o p) := s in mkConstraints a b c d e f g v i j k l m n o p |}.
Definition MaxLength_slot : slot (option Z) := {| get := MaxLength;
  put v s := let '(mkConstraints a b c d e f g h _ j k l m n o p) := s in mkConstraints a b c d e f g h v j k l m n o p |}.
Definition Pattern_slot : slot (gostring) := {| get := Pattern;
  put v s := let '(mkConstraints a b c d e f g h i _ k l m n o p) := s in mkConstraints a b c d e f g h i v k l m n o p |}.
Definition PatternMessage_slot : slot (gostring) := {| get := PatternMessage;
  put v s := let '(mkConstraints a b c d e f g h i j _ l m n o p) := s in mkConstraints a b c d e f g h i j v l m n o p |}.
Definition MinItems_slot : slot (option Z) := {| get := MinItems;
  put v s := let '(mkConstraints a b c d e f g h i j k _ m n o p) := s in mkConstraints a b c d e f g h i j k v m n o p |}.
Definition MaxItems_slot : slot (option Z) := {| get := MaxItems;
  put v s := let '(mkConstraints a b c d e f g h i j k l _ n o p) := s in mkConstraints a b c d e f g h i j k l v n o p |}.
Definition MinProps_slot : slot (option Z) := {| get := MinProps;
  put v s := let '(mkConstraints a b c d e f g h i j k l m n _ p) := s in mkConstraints a b c d e f g h i j k l m n v p |}.
Definition MaxProps_slot : slot (option Z) := {| get := MaxProps;
  put v s := let '(mkConstraints a b c d e f g h i j k l m n o _) := s in mkConstraints a b c d e f g h i j k l m n o v |}.

Definition set_UniqueItems (u : bool) (s : Constraints) : Constraints :=
  let '(mkConstraints a b c d e f g h i j k l m _ o p) := s in mkConstraints a b c d e f g h i j k l m u o p.

(** ** Keywords *)

(** The disagreement a conflict describes: the keyword's name and the two values,
    as [conflicting <name> (<x> and <y>)] prints them, text keywords quoted. *)
Record disagreement := { on : gostring; left_value : gostring; right_value : gostring; quoted : bool }.

Record constraintKeyword := {
  kw_set : Constraints → bool;
  kw_same : Constraints → Constraints → bool;
  kw_meet : Constraints → Constraints → Constraints;
  kw_differ : Constraints → Constraints → option disagreement;
  kw_clear : Constraints → Constraints
}.

Definition is_set {T} (x : option T) : bool := match x with Some _ => true | None => false end.

Definition slotKeyword {T} (show : T → gostring) (name : gostring) (sl : slot (option T))
    (same : T → T → bool) (meet : T → T → T * bool) : constraintKeyword := {|
  kw_set c := is_set (get sl c);
  kw_same a b :=
    match get sl a, get sl b with
    | Some x, Some y => same x y
    | None, None => true
    | _, _ => false
    end;
  kw_meet dst src :=
    match get sl dst, get sl src with
    | None, y => put sl y dst
    | Some _, None => dst
    | Some x, Some y => let '(met, ok) := meet x y in if (ok : bool) then put sl (Some met) dst else dst
    end;
  kw_differ a b :=
    match get sl a, get sl b with
    | Some x, Some y =>
        let '(_, ok) := meet x y in
        if (ok : bool) then None
        else Some {| on := name; left_value := show x; right_value := show y; quoted := false |}
    | _, _ => None
    end;
  kw_clear c := put sl None c
|}.

Definition compareNumbers (a b : gostring) : Z * bool :=
  if decide (a = b) then (0%Z, true)
  else match BigVal_Decimal a, BigVal_Decimal b with
       | Ok da, Ok db => (Cmp da db, true)
       | _, _ => (0%Z, false)
       end.

Definition sameNumber (a b : gostring) : bool := let '(order, ok) := compareNumbers a b in ok && (order =? 0)%Z.

Definition largerNumber (x y : gostring) : gostring * bool :=
  let '(order, ok) := compareNumbers x y in if (order <? 0)%Z then (y, ok) else (x, ok).
Definition smallerNumber (x y : gostring) : gostring * bool :=
  let '(order, ok) := compareNumbers x y in if (0 <? order)%Z then (y, ok) else (x, ok).

Definition largerCount (x y : Z) : Z * bool := (Z.max x y, true).
Definition smallerCount (x y : Z) : Z * bool := (Z.min x y, true).
Definition onlyEqual (x y : Z) : Z * bool := (x, (x =? y)%Z).

Definition numberKeyword name sl meet := slotKeyword id name sl sameNumber meet.
Definition intKeyword name sl meet := slotKeyword FormatInt name sl Z.eqb meet.

(** [cmp.Or] on strings: the first that is not empty. *)
Definition cmp_Or (x y : gostring) : gostring := if is_empty x then y else x.

Definition strKeyword (name : gostring) (sl : slot gostring) : constraintKeyword := {|
  kw_set c := negb (is_empty (get sl c));
  kw_same a b := bool_decide (get sl a = get sl b);
  kw_meet dst src := put sl (cmp_Or (get sl dst) (get sl src)) dst;
  kw_differ a b :=
    let '(x, y) := (get sl a, get sl b) in
    if is_empty x || is_empty y || bool_decide (x = y) then None
    else Some {| on := name; left_value := x; right_value := y; quoted := true |};
  kw_clear c := put sl [] c
|}.

Definition constraintKeywords : list constraintKeyword := [
  numberKeyword (go "minimum") Min_slot largerNumber;
  numberKeyword (go "exclusiveMinimum") ExclusiveMin_slot largerNumber;
  numberKeyword (go "maximum") Max_slot smallerNumber;
  numberKeyword (go "exclusiveMaximum") ExclusiveMax_slot smallerNumber;
  numberKeyword (go "multipleOf") MultipleOf_slot commonStep;
  intKeyword (go "precision") Precision_slot onlyEqual;
  intKeyword (go "scale") Scale_slot onlyEqual;
  intKeyword (go "minLength") MinLength_slot largerCount;
  intKeyword (go "maxLength") MaxLength_slot smallerCount;
  intKeyword (go "minItems") MinItems_slot largerCount;
  intKeyword (go "maxItems") MaxItems_slot smallerCount;
  intKeyword (go "minProps") MinProps_slot largerCount;
  intKeyword (go "maxProps") MaxProps_slot smallerCount;
  strKeyword (go "pattern") Pattern_slot;
  strKeyword (go "patternMessage") PatternMessage_slot
].

(** ** The fold *)

(** [Constraints(dst, src)] on sets that exist. *)
Definition fold_into (dst src : Constraints) : Constraints :=
  let dst := foldl (λ dst kw, kw_meet kw dst src) dst constraintKeywords in
  set_UniqueItems (UniqueItems dst || UniqueItems src) dst.

(** [merge.Constraints], a nil set saying nothing. *)
Definition merge_Constraints (dst src : option Constraints) : option Constraints :=
  match dst, src with
  | None, _ => src
  | _, None => dst
  | Some d, Some s => Some (fold_into d s)
  end.

(** The first of [kws] two sets pin apart, counted from [i]. *)
Fixpoint first_conflict (kws : list constraintKeyword) (i : nat) (a b : Constraints) : option (nat * disagreement) :=
  match kws with
  | [] => None
  | kw :: rest =>
      match kw_differ kw a b with
      | Some detail => Some (i, detail)
      | None => first_conflict rest (S i) a b
      end
  end.

Definition constraintsConflict (a b : option Constraints) : option (nat * disagreement) :=
  match a, b with
  | Some a, Some b => first_conflict constraintKeywords 0 a b
  | _, _ => None
  end.

Definition Meets (a b : option Constraints) : bool :=
  match constraintsConflict a b with Some _ => false | None => true end.

(** ** Bounds ([bounds.go]) *)

Inductive relation :=
  | relUnrelated | relDisjoint | relOverlap | relSame | relANarrower | relBNarrower | relMeet.
#[export] Instance relation_eq_dec : EqDecision relation.
Proof. solve_decision. Defined.

Definition flipped (r : relation) : relation :=
  match r with relANarrower => relBNarrower | relBNarrower => relANarrower | r => r end.

Definition or_none (c : option Constraints) : Constraints := default noConstraints c.

Definition sameBounds (a b : option Constraints) : bool :=
  let '(a, b) := (or_none a, or_none b) in
  eqb (UniqueItems a) (UniqueItems b) && negb (existsb (λ kw, negb (kw_same kw a b)) constraintKeywords).

Definition boundsRelation (a b : option Constraints) : relation :=
  if is_set (constraintsConflict a b) then relMeet
  else
    let met := merge_Constraints (merge_Constraints (Some noConstraints) a) b in
    let '(aHolds, bHolds) := (sameBounds met a, sameBounds met b) in
    if aHolds && bHolds then relSame
    else if aHolds then relANarrower
    else if bHolds then relBNarrower
    else relMeet.

Definition boundsBeyond (c own : Constraints) : Constraints :=
  let beyond := foldl (λ beyond kw, if kw_same kw c own then kw_clear kw beyond else beyond) c constraintKeywords in
  set_UniqueItems (UniqueItems c && negb (UniqueItems own)) beyond.

(** [meetConstraints] folds [sets] from index [i], and logs what it would tell
    [disagree]: the set, the one the value was kept from, and the difference. *)
Record meeting := { setBy : list nat; kept : option Constraints; log : list (nat * nat * disagreement) }.

Definition note_set (i : nat) (kept : option Constraints) (c : Constraints) (by_ : list nat) : list nat :=
  imap (λ k at_, match constraintKeywords !! k with
                 | Some kw => if kw_set kw c && (match kept with None => true | Some kc => negb (kw_set kw kc) end)
                              then i else at_
                 | None => at_
                 end) by_.

Definition meet_step (m : meeting) (i : nat) (c : option Constraints) : meeting :=
  match c with
  | None => m
  | Some own =>
      let log := match constraintsConflict (kept m) c with
                 | Some (k, detail) => log m ++ [(i, nth k (setBy m) 0, detail)]
                 | None => log m
                 end in
      {| setBy := note_set i (kept m) own (setBy m);
         kept := match kept m with None => Some own | Some _ => merge_Constraints (kept m) c end;
         log := log |}
  end.

Fixpoint meet_from (m : meeting) (i : nat) (sets : list (option Constraints)) : meeting :=
  match sets with [] => m | c :: rest => meet_from (meet_step m i c) (S i) rest end.

Definition meetConstraints (sets : list (option Constraints)) : meeting :=
  meet_from {| setBy := replicate (length constraintKeywords) 0; kept := None; log := [] |} 0 sets.
