(* ===== verification/Value.v ===== *)
(** * Value: typed data and its judgment against constraints
    ([src/ir/value.go], [src/compilers/openapi/internal/merge/canonical.go],
    [admitsconstraints.go] and [admits.go])

    [Quote] stands for [strconv.Quote], whose printable-rune table is Unicode
    data; only that the same string is quoted the same way matters here. *)
From S2P Require Import Prelude GoLib Utf8 Decimal BigVal Multiple Constraints.

(** ** Data *)

(** A [ValueKind] is a string in the code; one outside its constants is [OtherKind]. *)
Inductive ValueKind :=
  | ValueNull | ValueBool | ValueString | ValueNumber | ValueBytes | ValueSymbol
  | ValueList | ValueObject | ValueRefKind | ValueCtor | OtherKind (k : gostring).
#[export] Instance ValueKind_eq_dec : EqDecision ValueKind.
Proof. solve_decision. Defined.

Record ValueRef := { ref_Type : gostring; ref_Member : gostring }.

#[warnings="-register-all"]
Inductive Value : Type := mkValue {
  Kind : ValueKind; Bool_ : bool; Str : gostring; Num : gostring; Bytes : gostring;
  List_ : list Value; Object_ : list Field; Ref : option ValueRef; Ctor : option CtorValue
}
with Field : Type := mkField { Name : gostring; FieldValue : Value }
with CtorValue : Type := mkCtor { Scalar_ : gostring; CtorName : gostring; Args : list Value }.

Definition null_value : Value := mkValue ValueNull false [] [] [] [] [] None None.
Definition bool_value b : Value := mkValue ValueBool b [] [] [] [] [] None None.
Definition string_value s : Value := mkValue ValueString false s [] [] [] [] None None.
Definition number_value n : Value := mkValue ValueNumber false [] n [] [] [] None None.
Definition list_value l : Value := mkValue ValueList false [] [] [] l [] None None.
Definition object_value o : Value := mkValue ValueObject false [] [] [] [] o None None.

(** ** Canonical spelling *)

Section Canonical.
Context (Quote : gostring → gostring).

Definition maxJudgeDepth : nat := 8.

Definition canonicalMembers (open closing : gostring) (members : list (option gostring)) : option gostring :=
  parts ← mapM id members;
  Some (open ++ strings_Join parts (go ",") ++ closing).

Definition name_le (a b : Field) : Prop := (strings_Compare (Name a) (Name b) <= 0)%Z.
#[local] Instance name_le_dec a b : Decision (name_le a b).
Proof. unfold name_le. apply _. Defined.
Definition sorted_fields (o : list Field) : list Field := merge_sort name_le o.

(** [room] counts the depths left to spell: none past [maxJudgeDepth]. *)
Fixpoint canonical_in (room : nat) (v : Value) : option gostring :=
  match room with
  | O => None
  | S room =>
      match Kind v with
      | ValueNull => Some (go "null")
      | ValueBool => Some (if Bool_ v then go "true" else go "false")
      | ValueString => Some (Quote (Str v))
      | ValueNumber =>
          match BigVal_Decimal (Num v) with Ok d => Some (Decimal_String d) | Err _ => None end
      | ValueList => canonicalMembers (go "[") (go "]") (map (canonical_in room) (List_ v))
      | ValueObject =>
          canonicalMembers (go "{") (go "}")
            (map (λ f, (λ member, Quote (Name f) ++ go ":" ++ member) <$> canonical_in room (FieldValue f))
               (sorted_fields (Object_ v)))
      | ValueBytes | ValueSymbol | ValueRefKind | ValueCtor | OtherKind _ => None
      end
  end.

Definition canonicalValue (v : Value) (depth : nat) : option gostring := canonical_in (S maxJudgeDepth - depth) v.

(** [distinct] over the keys seen so far. *)
Fixpoint distinct_from (seen : list gostring) (vs : list Value) (depth : nat) : bool :=
  match vs with
  | [] => true
  | v :: rest =>
      match canonicalValue v (S depth) with
      | None => false
      | Some key => if decide (key ∈ seen) then false else distinct_from (key :: seen) rest depth
      end
  end.
Definition distinct (vs : list Value) (depth : nat) : bool := distinct_from [] vs depth.

(** ** Constraints on a value *)

Definition within (n : Z) (lo hi : option Z) : bool :=
  (match lo with Some lo => (lo <=? n)%Z | None => true end) &&
  (match hi with Some hi => (n <=? hi)%Z | None => true end).

Definition bound_checks (c : Constraints) : list (option gostring * (Z → bool)) := [
  (Min c, λ order, (0 <=? order)%Z);
  (ExclusiveMin c, λ order, (0 <? order)%Z);
  (Max c, λ order, (order <=? 0)%Z);
  (ExclusiveMax c, λ order, (order <? 0)%Z)
].

Definition bound_holds (d : Decimal) (check : option gostring * (Z → bool)) : bool :=
  match check.1 with
  | None => true
  | Some b => match BigVal_Decimal b with Ok bound => check.2 (Cmp d bound) | Err _ => false end
  end.

Definition step_holds (d : Decimal) (step : option gostring) : bool :=
  match step with
  | None => true
  | Some m => match BigVal_Decimal m with
              | Ok step => let '(multiple, ok) := isMultipleOf d step in ok && multiple
              | Err _ => false
              end
  end.

Definition admitsNumber (c : Constraints) (n : gostring) : bool :=
  if is_set (Precision c) || is_set (Scale c) then false
  else match BigVal_Decimal n with
       | Err _ => false
       | Ok d => forallb (bound_holds d) (bound_checks c) && step_holds d (MultipleOf c)
       end.

Definition admitsConstraints (c : option Constraints) (v : Value) (depth : nat) : bool :=
  match c with
  | None => true
  | Some c =>
      match Kind v with
      | ValueNumber => admitsNumber c (Num v)
      | ValueString => is_empty (Pattern c) && within (Z.of_nat (RuneCountInString (Str v))) (MinLength c) (MaxLength c)
      | ValueBytes => within (Z.of_nat (length (Bytes v))) (MinLength c) (MaxLength c)
      | ValueList => within (Z.of_nat (length (List_ v))) (MinItems c) (MaxItems c) &&
                     (negb (UniqueItems c) || distinct (List_ v) depth)
      | ValueObject => within (Z.of_nat (length (Object_ v))) (MinProps c) (MaxProps c)
      | ValueNull | ValueBool | ValueSymbol | ValueRefKind | ValueCtor => true
      | OtherKind _ => false
      end
  end.

End Canonical.

(** ** Values of a numeric kind ([admits.go]) *)

Definition decimalOf (v : Value) : option Decimal :=
  if decide (Kind v = ValueNumber)
  then match BigVal_Decimal (Num v) with Ok d => Some d | Err _ => None end
  else None.

Definition inRange (v : Value) (lo hi : gostring) : bool :=
  match decimalOf v, BigVal_Decimal lo, BigVal_Decimal hi with
  | Some d, Ok low, Ok high => IsInt d && (0 <=? Cmp d low)%Z && (Cmp d high <=? 0)%Z
  | _, _, _ => false
  end.

Definition decimal128Digits : Z := 34.
Definition decimal128MaxMsdExp : Z := 6144.
Definition decimal128MinLowExp : Z := -6176.

Definition admitsDecimal128 (v : Value) : bool :=
  match decimalOf v with
  | None => false
  | Some d =>
      if (Sign d =? 0)%Z then true
      else
        let digits := Z.of_nat (length (Digits d)) in
        let lowest := i64 (Exponent d - (digits - 1)) in
        ((digits <=? decimal128Digits) && (Exponent d <=? decimal128MaxMsdExp) && (decimal128MinLowExp <=? lowest))%Z
  end.

Example canonical_numbers :
  canonicalValue id (list_value [number_value (go "10.0"); number_value (go "1e1")]) 0 = Some (go "[1e1,1e1]").
Proof. vm_compute. reflexivity. Qed.
Example unique_items_numbers :
  distinct id [number_value (go "10.0"); number_value (go "1e1")] 0 = false.
Proof. vm_compute. reflexivity. Qed.
