(* ===== verification/IR.v ===== *)
(** * IR: the data model of the intermediate representation ([src/ir])

    One record per struct, its fields in the source's order and under the
    source's names, prefixed by the struct's. A pointer that may be nil is an
    [option], a slice a [list], a map a [gmap], an [int] a [Z]; a named string
    type keeps its string, so a value outside the declared constants can be
    written as the code can write it. An embedded struct is a field of its name.
    A nil and an empty slice are one list, and a nil and an empty map one map:
    no code modelled here tells them apart. [zeroT] is Go's zero value of [T]. *)
From S2P Require Import Prelude GoLib Decimal Constraints Value.

(** ** Named string types *)

Abbreviation Severity := gostring (only parsing).
Abbreviation UnmodeledReason := gostring (only parsing).
Abbreviation StreamingMode := gostring (only parsing).
Abbreviation Stability := gostring (only parsing).
Abbreviation IdempotencyKind := gostring (only parsing).
Abbreviation PageStrategy := gostring (only parsing).
Abbreviation PresenceKind := gostring (only parsing).
Abbreviation Lifecycle := gostring (only parsing).
Abbreviation TypeKind := gostring (only parsing).
Abbreviation PrimKind := gostring (only parsing).
Abbreviation AdditionalMode := gostring (only parsing).
Abbreviation HTTPLocation := gostring (only parsing).
Abbreviation MsgDirection := gostring (only parsing).
Abbreviation AuthKind := gostring (only parsing).
Abbreviation TypeID := gostring (only parsing).
Abbreviation OpID := gostring (only parsing).
Abbreviation ServiceID := gostring (only parsing).
Abbreviation GroupID := gostring (only parsing).
Abbreviation ChannelID := gostring (only parsing).
Abbreviation MessageID := gostring (only parsing).
Abbreviation AuthID := gostring (only parsing).
Abbreviation ServerID := gostring (only parsing).
Abbreviation PropID := gostring (only parsing).
Abbreviation ParamID := gostring (only parsing).
Abbreviation EnumMemberID := gostring (only parsing).
Abbreviation Inferred := gostring (only parsing).

(** ** Their constants *)

Definition SeverityError : Severity := go "error".
Definition SeverityWarning : Severity := go "warning".
Definition SeverityInfo : Severity := go "info".
Definition ReasonVendorExtension : UnmodeledReason := go "vendor_extension".
Definition ReasonValidationOnly : UnmodeledReason := go "validation_only".
Definition ReasonDegradedLowering : UnmodeledReason := go "degraded_lowering".
Definition ReasonNoIRHome : UnmodeledReason := go "no_ir_home".
Definition ReasonOutOfScope : UnmodeledReason := go "out_of_scope".
Definition StreamingNone : StreamingMode := go "".
Definition StreamingClient : StreamingMode := go "client".
Definition StreamingServer : StreamingMode := go "server".
Definition StreamingBidi : StreamingMode := go "bidi".
Definition StabilityUnstated : Stability := go "".
Definition StabilityAlpha : Stability := go "alpha".
Definition StabilityBeta : Stability := go "beta".
Definition StabilityStable : Stability := go "stable".
Definition IdempotencyUnknown : IdempotencyKind := go "".
Definition IdempotencySafe : IdempotencyKind := go "safe".
Definition IdempotencyIdempotent : IdempotencyKind := go "idempotent".
Definition IdempotencyToken : IdempotencyKind := go "idempotency_token".
Definition PageStrategyCursor : PageStrategy := go "cursor".
Definition PageStrategyOffset : PageStrategy := go "offset".
Definition PageStrategyPage : PageStrategy := go "page".
Definition PageStrategyLinkHeader : PageStrategy := go "link_header".
Definition PageStrategyNextLink : PageStrategy := go "next_link".
Definition PageStrategyToken : PageStrategy := go "token".
Definition PresenceDefault : PresenceKind := go "".
Definition PresenceImplicit : PresenceKind := go "implicit".
Definition PresenceExplicit : PresenceKind := go "explicit".
Definition PresenceRequired : PresenceKind := go "required".
Definition LifecycleCreate : Lifecycle := go "create".
Definition LifecycleRead : Lifecycle := go "read".
Definition LifecycleUpdate : Lifecycle := go "update".
Definition LifecycleDelete : Lifecycle := go "delete".
Definition LifecycleQuery : Lifecycle := go "query".
Definition KindPrimitive : TypeKind := go "primitive".
Definition KindScalar : TypeKind := go "scalar".
Definition KindModel : TypeKind := go "model".
Definition KindUnion : TypeKind := go "union".
Definition KindEnum : TypeKind := go "enum".
Definition KindList : TypeKind := go "list".
Definition KindMap : TypeKind := go "map".
Definition KindTuple : TypeKind := go "tuple".
Definition KindLiteral : TypeKind := go "literal".
Definition KindExternal : TypeKind := go "external".
Definition KindAny : TypeKind := go "any".
Definition PrimBool : PrimKind := go "bool".
Definition PrimString : PrimKind := go "string".
Definition PrimBytes : PrimKind := go "bytes".
Definition PrimInt8 : PrimKind := go "int8".
Definition PrimInt16 : PrimKind := go "int16".
Definition PrimInt32 : PrimKind := go "int32".
Definition PrimInt64 : PrimKind := go "int64".
Definition PrimUint8 : PrimKind := go "uint8".
Definition PrimUint16 : PrimKind := go "uint16".
Definition PrimUint32 : PrimKind := go "uint32".
Definition PrimUint64 : PrimKind := go "uint64".
Definition PrimInteger : PrimKind := go "integer".
Definition PrimFloat32 : PrimKind := go "float32".
Definition PrimFloat64 : PrimKind := go "float64".
Definition PrimFloat : PrimKind := go "float".
Definition PrimNumber : PrimKind := go "number".
Definition PrimDecimal : PrimKind := go "decimal".
Definition PrimDecimal128 : PrimKind := go "decimal128".
Definition PrimDate : PrimKind := go "date".
Definition PrimTime : PrimKind := go "time".
Definition PrimDatetime : PrimKind := go "datetime".
Definition PrimDatetimeOffset : PrimKind := go "datetime_offset".
Definition PrimDuration : PrimKind := go "duration".
Definition PrimURL : PrimKind := go "url".
Definition PrimUUID : PrimKind := go "uuid".
Definition PrimAny : PrimKind := go "any".
Definition AdditionalUnspecified : AdditionalMode := go "".
Definition AdditionalClosed : AdditionalMode := go "closed".
Definition AdditionalClosedAfterComposition : AdditionalMode := go "closed_after_composition".
Definition HTTPLocationPath : HTTPLocation := go "path".
Definition HTTPLocationQuery : HTTPLocation := go "query".
Definition HTTPLocationQuerystring : HTTPLocation := go "querystring".
Definition HTTPLocationHeader : HTTPLocation := go "header".
Definition HTTPLocationCookie : HTTPLocation := go "cookie".
Definition HTTPLocationBody : HTTPLocation := go "body".
Definition HTTPLocationBodyProperty : HTTPLocation := go "body_property".
Definition HTTPLocationHost : HTTPLocation := go "host".
Definition MsgDirectionSend : MsgDirection := go "send".
Definition MsgDirectionReceive : MsgDirection := go "receive".
Definition AuthKindAPIKey : AuthKind := go "apiKey".
Definition AuthKindHTTPBasic : AuthKind := go "http_basic".
Definition AuthKindHTTPBearer : AuthKind := go "http_bearer".
Definition AuthKindOAuth2 : AuthKind := go "oauth2".
Definition AuthKindOpenIDConnect : AuthKind := go "openid_connect".
Definition AuthKindMutualTLS : AuthKind := go "mutual_tls".
Definition AuthKindUserPassword : AuthKind := go "user_password".
Definition AuthKindX509 : AuthKind := go "x509".
Definition AuthKindSymmetricEncryption : AuthKind := go "symmetric_encryption".
Definition AuthKindAsymmetricEncryption : AuthKind := go "asymmetric_encryption".
Definition AuthKindSASLPlain : AuthKind := go "sasl_plain".
Definition AuthKindSASLSCRAMSHA256 : AuthKind := go "sasl_scram_sha256".
Definition AuthKindSASLSCRAMSHA512 : AuthKind := go "sasl_scram_sha512".
Definition AuthKindSASLGSSAPI : AuthKind := go "sasl_gssapi".
Definition AuthKindCustom : AuthKind := go "custom".
Definition AuthKindUnresolved : AuthKind := go "unresolved".

(** ** Structs *)

Definition zeroValue : Value := mkValue (OtherKind []) false [] [] [] [] [] None None.

Record Naming := mkNaming {
  Naming_Source : gostring; Naming_Canonical : gostring; Naming_Hint : gostring; Naming_Aliases : list gostring
}.
Definition zeroNaming : Naming := mkNaming [] [] [] [].

Record TypeRef := mkTypeRef {
  TypeRef_Target : TypeID; TypeRef_Nullable : bool; TypeRef_Inferred : Inferred
}.
Definition zeroTypeRef : TypeRef := mkTypeRef [] false [].

Record DocRef := mkDocRef {
  DocRef_StartByte : Z; DocRef_EndByte : Z; DocRef_Type : TypeID
}.
Definition zeroDocRef : DocRef := mkDocRef 0%Z 0%Z [].

Record Link := mkLink {
  Link_URL : gostring; Link_Description : gostring
}.
Definition zeroLink : Link := mkLink [] [].

Record Docs := mkDocs {
  Docs_Summary : gostring; Docs_Description : gostring; Docs_Refs : list DocRef; Docs_ExternalDocs : list Link
}.
Definition zeroDocs : Docs := mkDocs [] [] [] [].

Record Deprecation := mkDeprecation {
  Deprecation_Message : gostring; Deprecation_Since : gostring; Deprecation_RemovalVersion : gostring;
  Deprecation_RemovalDate : gostring
}.
Definition zeroDeprecation : Deprecation := mkDeprecation [] [] [] [].

Record ErrorExample := mkErrorExample {
  ErrorExample_Type : TypeRef; ErrorExample_Content : Value
}.
Definition zeroErrorExample : ErrorExample := mkErrorExample zeroTypeRef zeroValue.

Record Position := mkPosition {
  Position_Line : Z; Position_Column : Z
}.
Definition zeroPosition : Position := mkPosition 0%Z 0%Z.

Record Provenance := mkProvenance {
  Provenance_Source : Z; Provenance_Pointer : gostring; Provenance_Position : Position; Provenance_Node : gostring;
  Provenance_Inferred : Inferred
}.
Definition zeroProvenance : Provenance := mkProvenance 0%Z [] zeroPosition [] [].

Record UnmodeledEntry := mkUnmodeledEntry {
  UnmodeledEntry_Reason : UnmodeledReason; UnmodeledEntry_Value : gostring; UnmodeledEntry_Provenance : Provenance
}.
Definition zeroUnmodeledEntry : UnmodeledEntry := mkUnmodeledEntry [] [] zeroProvenance.

Abbreviation Unmodeled := (gmap gostring UnmodeledEntry) (only parsing).

Record Example := mkExample {
  Example_Name : gostring; Example_Summary : gostring; Example_Description : gostring; Example_Value : option Value;
  Example_Headers : option Value; Example_Input : option Value; Example_Output : option Value;
  Example_Error : option ErrorExample; Example_ExternalURL : gostring; Example_Unmodeled : Unmodeled
}.
Definition zeroExample : Example := mkExample [] [] [] None None None None None [] ∅.

Record VersionedName := mkVersionedName {
  VersionedName_Version : gostring; VersionedName_Name : gostring
}.
Definition zeroVersionedName : VersionedName := mkVersionedName [] [].

Record VersionedType := mkVersionedType {
  VersionedType_Version : gostring; VersionedType_Type : TypeRef
}.
Definition zeroVersionedType : VersionedType := mkVersionedType [] zeroTypeRef.

Record VersionedBool := mkVersionedBool {
  VersionedBool_Version : gostring; VersionedBool_WasRequired : bool
}.
Definition zeroVersionedBool : VersionedBool := mkVersionedBool [] false.

Record Availability := mkAvailability {
  Availability_Added : list gostring; Availability_Removed : list gostring; Availability_Deprecated : gostring;
  Availability_RenamedFrom : list VersionedName; Availability_TypeChangedFrom : list VersionedType;
  Availability_RequiredChanged : list VersionedBool
}.
Definition zeroAvailability : Availability := mkAvailability [] [] [] [] [] [].

Record Diagnostic := mkDiagnostic {
  Diagnostic_Severity : Severity; Diagnostic_Code : gostring; Diagnostic_Message : gostring;
  Diagnostic_Provenance : Provenance
}.
Definition zeroDiagnostic : Diagnostic := mkDiagnostic [] [] [] zeroProvenance.

Record SourceInfo := mkSourceInfo {
  SourceInfo_Format : gostring; SourceInfo_Path : gostring; SourceInfo_Hash : gostring; SourceInfo_SelfURI : gostring
}.
Definition zeroSourceInfo : SourceInfo := mkSourceInfo [] [] [] [].

Record Encoding := mkEncoding {
  Encoding_Name : gostring; Encoding_WireType : option TypeRef; Encoding_MediaType : gostring;
  Encoding_Schema : option TypeRef
}.
Definition zeroEncoding : Encoding := mkEncoding [] None [] None.

Record XMLHints := mkXMLHints {
  XMLHints_Name : gostring; XMLHints_Namespace : gostring; XMLHints_Prefix : gostring; XMLHints_NodeType : gostring;
  XMLHints_Wrapped : bool
}.
Definition zeroXMLHints : XMLHints := mkXMLHints [] [] [] [] false.

Record PropPath := mkPropPath {
  PropPath_Root : option TypeRef; PropPath_In : gostring; PropPath_Segments : list PropID
}.
Definition zeroPropPath : PropPath := mkPropPath None [] [].

Record Parameter_ := mkParameter {
  Parameter_ID : ParamID; Parameter_Name : Naming; Parameter_Type : TypeRef; Parameter_Required : bool;
  Parameter_Default : option Value; Parameter_Constraints : option Constraints;
  Parameter_ValueFrom : option PropPath; Parameter_Docs : Docs; Parameter_Deprecation : option Deprecation;
  Parameter_Availability : option Availability; Parameter_Secret : bool; Parameter_Examples : list Example;
  Parameter_Unmodeled : Unmodeled; Parameter_Provenance : Provenance
}.
Definition zeroParameter : Parameter_ := mkParameter [] zeroNaming zeroTypeRef false None None None zeroDocs None
  None false [] ∅ zeroProvenance.

Record Visibility := mkVisibility {
  Visibility_Only : list Lifecycle; Visibility_None : bool
}.
Definition zeroVisibility : Visibility := mkVisibility [] false.

Record Property := mkProperty {
  Property_ID : PropID; Property_Name : Naming; Property_WireName : gostring;
  Property_WireNameByFormat : gmap gostring gostring; Property_WireID : option Z; Property_ExtensionOf : gostring;
  Property_Type : TypeRef; Property_Required : bool; Property_Presence : PresenceKind;
  Property_ClientOptional : bool; Property_DefaultAdded : bool; Property_Visibility : Visibility;
  Property_Default : option Value; Property_Constraints : option Constraints; Property_Encoding : option Encoding;
  Property_Args : list Parameter_; Property_Flatten : bool; Property_EventHeader : bool; Property_EventPayload : bool;
  Property_Secret : bool; Property_XML : option XMLHints; Property_Examples : list Example; Property_Docs : Docs;
  Property_Deprecation : option Deprecation; Property_Availability : option Availability;
  Property_Unmodeled : Unmodeled; Property_Provenance : Provenance
}.
Definition zeroProperty : Property := mkProperty [] zeroNaming [] ∅ None [] zeroTypeRef false [] false false
  zeroVisibility None None None [] false false false false None [] zeroDocs None None ∅ zeroProvenance.

Record Header := mkHeader {
  Header_Property : Property; Header_Style : gostring; Header_Explode : option bool
}.
Definition zeroHeader : Header := mkHeader zeroProperty [] None.

Record PartEncoding := mkPartEncoding {
  PartEncoding_Explode : option bool; PartEncoding_Style : gostring; PartEncoding_Inferred : Inferred;
  PartEncoding_ContentTypes : list gostring; PartEncoding_Headers : list Header; PartEncoding_Multi : bool;
  PartEncoding_Filename : bool; PartEncoding_AllowReserved : bool
}.
Definition zeroPartEncoding : PartEncoding := mkPartEncoding None [] [] [] [] false false false.

Record FileInfo := mkFileInfo {
  FileInfo_IsText : bool; FileInfo_Contents : option TypeRef; FileInfo_ContentTypes : list gostring;
  FileInfo_ContentTypeDefault : gostring; FileInfo_FilenameLocation : gostring; FileInfo_FilenameWireName : gostring;
  FileInfo_Inferred : Inferred
}.
Definition zeroFileInfo : FileInfo := mkFileInfo false None [] [] [] [] [].

Record Content := mkContent {
  Content_MediaType : gostring; Content_SchemaFormat : gostring; Content_Type : TypeRef;
  Content_Item : option TypeRef; Content_ItemEncoding : option PartEncoding;
  Content_Encoding : gmap gostring PartEncoding; Content_File : option FileInfo; Content_Examples : list Example;
  Content_Docs : Docs; Content_Unmodeled : Unmodeled
}.
Definition zeroContent : Content := mkContent [] [] zeroTypeRef None None ∅ None [] zeroDocs ∅.

Record Payload := mkPayload {
  Payload_Contents : list Content; Payload_Required : option bool; Payload_Docs : Docs; Payload_Unmodeled : Unmodeled
}.
Definition zeroPayload : Payload := mkPayload [] None zeroDocs ∅.

Record StatusRange := mkStatusRange {
  StatusRange_From : Z; StatusRange_To : Z
}.
Definition zeroStatusRange : StatusRange := mkStatusRange 0%Z 0%Z.

Record ResponseConditions := mkResponseConditions {
  ResponseConditions_StatusCodes : list StatusRange
}.
Definition zeroResponseConditions : ResponseConditions := mkResponseConditions [].

Record Response := mkResponse {
  Response_Name : Naming; Response_Conditions : ResponseConditions; Response_Payload : option Payload;
  Response_Headers : list Header; Response_StatusCodeProp : option PropPath; Response_Docs : Docs;
  Response_Unmodeled : Unmodeled
}.
Definition zeroResponse : Response := mkResponse zeroNaming zeroResponseConditions None [] None zeroDocs ∅.

Record ErrorCase := mkErrorCase {
  ErrorCase_Name : Naming; ErrorCase_Conditions : ResponseConditions; ErrorCase_Payload : option Payload;
  ErrorCase_Headers : list Header; ErrorCase_Fault : gostring; ErrorCase_Retryable : option bool;
  ErrorCase_Throttling : option bool; ErrorCase_Docs : Docs; ErrorCase_Unmodeled : Unmodeled;
  ErrorCase_Inferred : Inferred
}.
Definition zeroErrorCase : ErrorCase := mkErrorCase zeroNaming zeroResponseConditions None [] [] None None zeroDocs
  ∅ [].

Record StreamDetail := mkStreamDetail {
  StreamDetail_Events : option TypeRef; StreamDetail_Initial : option TypeRef; StreamDetail_RequiresLength : bool
}.
Definition zeroStreamDetail : StreamDetail := mkStreamDetail None None false.

Record ParamPath := mkParamPath {
  ParamPath_Param : ParamID; ParamPath_Segments : list PropID
}.
Definition zeroParamPath : ParamPath := mkParamPath [] [].

Record Pagination := mkPagination {
  Pagination_Strategy : PageStrategy; Pagination_Inferred : bool; Pagination_InputCursor : option ParamPath;
  Pagination_InputLimit : option ParamPath; Pagination_Items : option PropPath;
  Pagination_NextCursor : option PropPath; Pagination_NextLink : option PropPath;
  Pagination_PrevLink : option PropPath; Pagination_FirstLink : option PropPath;
  Pagination_LastLink : option PropPath; Pagination_TotalCount : option PropPath
}.
Definition zeroPagination : Pagination := mkPagination [] false None None None None None None None None None.

Record LongRunning := mkLongRunning {
  LongRunning_FinalStateVia : gostring; LongRunning_PollingOperation : option OpID;
  LongRunning_FinalOperation : option OpID; LongRunning_PollingType : option TypeRef;
  LongRunning_FinalType : option TypeRef; LongRunning_ResultPath : option PropPath
}.
Definition zeroLongRunning : LongRunning := mkLongRunning [] None None None None None.

Record Idempotency := mkIdempotency {
  Idempotency_Kind : IdempotencyKind; Idempotency_TokenParam : ParamID
}.
Definition zeroIdempotency : Idempotency := mkIdempotency [] [].

Record SchemeUse := mkSchemeUse {
  SchemeUse_Scheme : AuthID; SchemeUse_Scopes : list gostring
}.
Definition zeroSchemeUse : SchemeUse := mkSchemeUse [] [].

Record AuthRequirement := mkAuthRequirement {
  AuthRequirement_Schemes : list SchemeUse
}.
Definition zeroAuthRequirement : AuthRequirement := mkAuthRequirement [].

Record RequestCompression := mkRequestCompression {
  RequestCompression_Encodings : list gostring
}.
Definition zeroRequestCompression : RequestCompression := mkRequestCompression [].

Record HTTPParamBinding := mkHTTPParamBinding {
  HTTPParamBinding_Param : ParamID; HTTPParamBinding_ParamPath : list PropID;
  HTTPParamBinding_Location : HTTPLocation; HTTPParamBinding_WireName : gostring; HTTPParamBinding_Style : gostring;
  HTTPParamBinding_Explode : option bool; HTTPParamBinding_AllowReserved : bool;
  HTTPParamBinding_AllowEmptyValue : bool; HTTPParamBinding_PathPattern : gostring;
  HTTPParamBinding_Prefix : gostring; HTTPParamBinding_ContentType : gostring; HTTPParamBinding_BodyPath : list PropID
}.
Definition zeroHTTPParamBinding : HTTPParamBinding := mkHTTPParamBinding [] [] [] [] [] None false false [] [] []
  [].

Record Callback := mkCallback {
  Callback_Expression : gostring; Callback_Operations : list OpID
}.
Definition zeroCallback : Callback := mkCallback [] [].

Record HTTPBinding := mkHTTPBinding {
  HTTPBinding_ResponseBodyPath : option PropPath; HTTPBinding_SuccessStatus : gmap Z Z;
  HTTPBinding_Compression : option RequestCompression; HTTPBinding_PatchImplicitOptionality : option bool;
  HTTPBinding_Unmodeled : Unmodeled; HTTPBinding_Method : gostring; HTTPBinding_URITemplate : gostring;
  HTTPBinding_HostPrefix : gostring; HTTPBinding_WebhookName : gostring;
  HTTPBinding_ParamBindings : list HTTPParamBinding; HTTPBinding_RequestContentTypes : list gostring;
  HTTPBinding_Callbacks : list Callback; HTTPBinding_SharedRoute : bool; HTTPBinding_ChecksumRequired : bool;
  HTTPBinding_IsWebhook : bool
}.
Definition zeroHTTPBinding : HTTPBinding := mkHTTPBinding None ∅ None None ∅ [] [] [] [] [] [] [] false false false.

Record RPCBinding := mkRPCBinding {
  RPCBinding_System : gostring; RPCBinding_FullMethod : gostring; RPCBinding_InputType : option TypeRef;
  RPCBinding_ParamStructure : gostring; RPCBinding_IdempotencyLevel : gostring; RPCBinding_Unmodeled : Unmodeled
}.
Definition zeroRPCBinding : RPCBinding := mkRPCBinding [] [] None [] [] ∅.

Record Reply := mkReply {
  Reply_Channel : option ChannelID; Reply_Address : option PropPath; Reply_Messages : list MessageID;
  Reply_Docs : Docs
}.
Definition zeroReply : Reply := mkReply None None [] zeroDocs.

Abbreviation RawConfig := (gmap gostring gostring) (only parsing).

Record MessageBinding := mkMessageBinding {
  MessageBinding_Channel : ChannelID; MessageBinding_Direction : MsgDirection;
  MessageBinding_Messages : list MessageID; MessageBinding_Reply : option Reply;
  MessageBinding_Bindings : gmap gostring RawConfig; MessageBinding_Unmodeled : Unmodeled
}.
Definition zeroMessageBinding : MessageBinding := mkMessageBinding [] [] [] None ∅ ∅.

Record GraphQLBinding := mkGraphQLBinding {
  GraphQLBinding_Kind : gostring; GraphQLBinding_FieldPath : list gostring; GraphQLBinding_Unmodeled : Unmodeled
}.
Definition zeroGraphQLBinding : GraphQLBinding := mkGraphQLBinding [] [] ∅.

Record OTPBinding := mkOTPBinding {
  OTPBinding_Behaviour : gostring; OTPBinding_Kind : gostring; OTPBinding_Process : ChannelID;
  OTPBinding_RequestTag : option Value; OTPBinding_Unmodeled : Unmodeled
}.
Definition zeroOTPBinding : OTPBinding := mkOTPBinding [] [] [] None ∅.

Record OpBindings := mkOpBindings {
  OpBindings_HTTP : list HTTPBinding; OpBindings_RPC : option RPCBinding; OpBindings_Message : option MessageBinding;
  OpBindings_GraphQL : option GraphQLBinding; OpBindings_OTP : option OTPBinding
}.
Definition zeroOpBindings : OpBindings := mkOpBindings [] None None None None.

Record Operation := mkOperation {
  Operation_ID : OpID; Operation_Name : Naming; Operation_Docs : Docs; Operation_Deprecation : option Deprecation;
  Operation_Availability : option Availability; Operation_Stability : Stability; Operation_Params : list Parameter_;
  Operation_Request : option Payload; Operation_Responses : list Response; Operation_Errors : list ErrorCase;
  Operation_Default : option Response; Operation_OneWay : bool; Operation_Streaming : StreamingMode;
  Operation_RequestStream : option StreamDetail; Operation_ResponseStream : option StreamDetail;
  Operation_Pagination : option Pagination; Operation_LongRunning : option LongRunning;
  Operation_Idempotency : Idempotency; Operation_Servers : list ServerID; Operation_Auth : list AuthRequirement;
  Operation_Tags : list gostring; Operation_ParameterVisibility : list Lifecycle;
  Operation_ReturnTypeVisibility : list Lifecycle; Operation_OverloadOf : option OpID;
  Operation_Bindings : OpBindings; Operation_Examples : list Example; Operation_Unmodeled : Unmodeled;
  Operation_Provenance : Provenance
}.
Definition zeroOperation : Operation := mkOperation [] zeroNaming zeroDocs None None [] [] None [] [] None false []
  None None None None zeroIdempotency [] [] [] [] [] None zeroOpBindings [] ∅ zeroProvenance.

Record TemplateArg := mkTemplateArg {
  TemplateArg_Type : option TypeRef; TemplateArg_Value : option Value
}.
Definition zeroTemplateArg : TemplateArg := mkTemplateArg None None.

Record TemplateInstantiation := mkTemplateInstantiation {
  TemplateInstantiation_Template : gostring; TemplateInstantiation_Args : list TemplateArg
}.
Definition zeroTemplateInstantiation : TemplateInstantiation := mkTemplateInstantiation [] [].

Record TypeCommon := mkTypeCommon {
  TypeCommon_ID : TypeID; TypeCommon_Name : Naming; TypeCommon_Namespace : list gostring;
  TypeCommon_Anonymous : bool; TypeCommon_Docs : Docs; TypeCommon_Tags : list gostring; TypeCommon_Sensitive : bool;
  TypeCommon_Access : gostring; TypeCommon_Deprecation : option Deprecation;
  TypeCommon_Availability : option Availability; TypeCommon_WireNameByFormat : gmap gostring gostring;
  TypeCommon_MediaTypeHint : gostring; TypeCommon_XML : option XMLHints; TypeCommon_Examples : list Example;
  TypeCommon_Instantiation : option TemplateInstantiation; TypeCommon_Unmodeled : Unmodeled;
  TypeCommon_Provenance : Provenance
}.
Definition zeroTypeCommon : TypeCommon := mkTypeCommon [] zeroNaming [] false zeroDocs [] false [] None None ∅ []
  None [] None ∅ zeroProvenance.

Record Primitive := mkPrimitive {
  Primitive_TypeCommon : TypeCommon; Primitive_Prim : PrimKind
}.
Definition zeroPrimitive : Primitive := mkPrimitive zeroTypeCommon [].

Record Scalar := mkScalar {
  Scalar_TypeCommon : TypeCommon; Scalar_Base : option TypeRef; Scalar_Constraints : option Constraints;
  Scalar_Encoding : option Encoding
}.
Definition zeroScalar : Scalar := mkScalar zeroTypeCommon None None None.

Record PatternProps := mkPatternProps {
  PatternProps_Pattern : gostring; PatternProps_Value : TypeRef
}.
Definition zeroPatternProps : PatternProps := mkPatternProps [] zeroTypeRef.

Record AdditionalProps := mkAdditionalProps {
  AdditionalProps_Value : TypeRef; AdditionalProps_Key : option TypeRef; AdditionalProps_Patterns : list PatternProps
}.
Definition zeroAdditionalProps : AdditionalProps := mkAdditionalProps zeroTypeRef None [].

Record WireIDRange := mkWireIDRange {
  WireIDRange_From : Z; WireIDRange_To : Z
}.
Definition zeroWireIDRange : WireIDRange := mkWireIDRange 0%Z 0%Z.

Record Discriminator := mkDiscriminator {
  Discriminator_Property : PropID; Discriminator_PropertyName : gostring; Discriminator_Index : option Z;
  Discriminator_Mapping : gmap gostring TypeID; Discriminator_Default : TypeID; Discriminator_Envelope : gostring;
  Discriminator_EnvelopeValueName : gostring; Discriminator_Inferred : bool
}.
Definition zeroDiscriminator : Discriminator := mkDiscriminator [] [] None ∅ [] [] [] false.

Record Model := mkModel {
  Model_TypeCommon : TypeCommon; Model_Properties : list Property; Model_Requires : list gostring;
  Model_Base : option TypeRef; Model_Implements : list TypeRef; Model_Mixins : list TypeRef;
  Model_AdditionalProps : option AdditionalProps; Model_Additional : AdditionalMode;
  Model_Constraints : option Constraints; Model_Abstract : bool; Model_Positional : bool;
  Model_ExtensionRanges : list WireIDRange; Model_Discriminator : option Discriminator;
  Model_DiscriminatorValue : gostring; Model_InputOnly : bool
}.
Definition zeroModel : Model := mkModel zeroTypeCommon [] [] None [] [] None [] None false false [] None [] false.

Record EventInfo := mkEventInfo {
  EventInfo_ContentType : gostring; EventInfo_Terminal : bool
}.
Definition zeroEventInfo : EventInfo := mkEventInfo [] false.

Record Variant_ := mkVariant {
  Variant_Name : Naming; Variant_Type : TypeRef; Variant_WireName : gostring; Variant_WireID : option Z;
  Variant_XML : option XMLHints; Variant_Event : option EventInfo; Variant_Docs : Docs;
  Variant_Deprecation : option Deprecation; Variant_Availability : option Availability;
  Variant_Examples : list Example; Variant_Unmodeled : Unmodeled
}.
Definition zeroVariant : Variant_ := mkVariant zeroNaming zeroTypeRef [] None None None zeroDocs None None [] ∅.

Record Union := mkUnion {
  Union_TypeCommon : TypeCommon; Union_Variants : list Variant_; Union_Exclusive : bool; Union_WireTagged : bool;
  Union_Discriminator : option Discriminator
}.
Definition zeroUnion : Union := mkUnion zeroTypeCommon [] false false None.

Record EnumMember := mkEnumMember {
  EnumMember_ID : EnumMemberID; EnumMember_Name : Naming; EnumMember_Value : Value; EnumMember_WireName : gostring;
  EnumMember_Docs : Docs; EnumMember_Deprecation : option Deprecation; EnumMember_Availability : option Availability;
  EnumMember_Examples : list Example; EnumMember_Unmodeled : Unmodeled
}.
Definition zeroEnumMember : EnumMember := mkEnumMember [] zeroNaming zeroValue [] zeroDocs None None [] ∅.

Record Enum := mkEnum {
  Enum_TypeCommon : TypeCommon; Enum_ValueType : PrimKind; Enum_Members : list EnumMember; Enum_Closed : bool;
  Enum_Flags : bool; Enum_FallbackMember : gostring
}.
Definition zeroEnum : Enum := mkEnum zeroTypeCommon [] [] false false [].

Record List := mkList {
  List_TypeCommon : TypeCommon; List_Elem : TypeRef; List_Constraints : option Constraints;
  List_Encoding : option Encoding
}.
Definition zeroList : List := mkList zeroTypeCommon zeroTypeRef None None.

Record MapT := mkMapT {
  MapT_TypeCommon : TypeCommon; MapT_Key : option TypeRef; MapT_Value : TypeRef; MapT_Constraints : option Constraints
}.
Definition zeroMapT : MapT := mkMapT zeroTypeCommon None zeroTypeRef None.

Record Tuple := mkTuple {
  Tuple_TypeCommon : TypeCommon; Tuple_Elems : list TypeRef; Tuple_Rest : option TypeRef;
  Tuple_Constraints : option Constraints
}.
Definition zeroTuple : Tuple := mkTuple zeroTypeCommon [] None None.

Record Literal := mkLiteral {
  Literal_TypeCommon : TypeCommon; Literal_Value : Value
}.
Definition zeroLiteral : Literal := mkLiteral zeroTypeCommon zeroValue.

Record External := mkExternal {
  External_TypeCommon : TypeCommon; External_Identity : gostring; External_Package : gostring;
  External_MinVersion : gostring
}.
Definition zeroExternal : External := mkExternal zeroTypeCommon [] [] [].

Record Any := mkAny {
  Any_TypeCommon : TypeCommon
}.
Definition zeroAny : Any := mkAny zeroTypeCommon.

Record Channel := mkChannel {
  Channel_ID : ChannelID; Channel_Name : Naming; Channel_Address : option gostring; Channel_Docs : Docs;
  Channel_Tags : list gostring; Channel_Params : list Parameter_; Channel_Messages : list MessageID;
  Channel_Servers : list ServerID; Channel_Bindings : gmap gostring RawConfig; Channel_Unmodeled : Unmodeled;
  Channel_Provenance : Provenance
}.
Definition zeroChannel : Channel := mkChannel [] zeroNaming None zeroDocs [] [] [] [] ∅ ∅ zeroProvenance.

Record Message := mkMessage {
  Message_ID : MessageID; Message_Name : Naming; Message_Payload : Payload; Message_Headers : option TypeRef;
  Message_CorrelationID : option PropPath; Message_ContentType : gostring; Message_Tags : list gostring;
  Message_Docs : Docs; Message_Deprecation : option Deprecation; Message_Examples : list Example;
  Message_Bindings : gmap gostring RawConfig; Message_Unmodeled : Unmodeled; Message_Provenance : Provenance
}.
Definition zeroMessage : Message := mkMessage [] zeroNaming zeroPayload None None [] [] zeroDocs None [] ∅ ∅
  zeroProvenance.

Record ServerVariable := mkServerVariable {
  ServerVariable_Name : gostring; ServerVariable_Default : gostring; ServerVariable_Enum : list gostring;
  ServerVariable_Docs : Docs; ServerVariable_Unmodeled : Unmodeled
}.
Definition zeroServerVariable : ServerVariable := mkServerVariable [] [] [] zeroDocs ∅.

Record Server := mkServer {
  Server_ID : ServerID; Server_Name : Naming; Server_URLTemplate : gostring; Server_Description : Docs;
  Server_Variables : list ServerVariable; Server_Protocol : gostring; Server_ProtocolVersion : gostring;
  Server_Tags : list gostring; Server_Auth : list AuthRequirement; Server_Bindings : gmap gostring RawConfig;
  Server_Unmodeled : Unmodeled; Server_Provenance : Provenance
}.
Definition zeroServer : Server := mkServer [] zeroNaming [] zeroDocs [] [] [] [] [] ∅ ∅ zeroProvenance.

Record OAuthScope := mkOAuthScope {
  OAuthScope_Name : gostring; OAuthScope_Description : gostring
}.
Definition zeroOAuthScope : OAuthScope := mkOAuthScope [] [].

Record OAuthFlow := mkOAuthFlow {
  OAuthFlow_Kind : gostring; OAuthFlow_AuthorizationURL : gostring; OAuthFlow_TokenURL : gostring;
  OAuthFlow_RefreshURL : gostring; OAuthFlow_Scopes : list OAuthScope;
  OAuthFlow_TokenEndpointAuthMethods : list gostring; OAuthFlow_Unmodeled : Unmodeled; OAuthFlow_Inferred : Inferred
}.
Definition zeroOAuthFlow : OAuthFlow := mkOAuthFlow [] [] [] [] [] [] ∅ [].

Record AuthScheme := mkAuthScheme {
  AuthScheme_ID : AuthID; AuthScheme_Name : Naming; AuthScheme_Kind : AuthKind; AuthScheme_Docs : Docs;
  AuthScheme_Deprecation : option Deprecation; AuthScheme_In : gostring; AuthScheme_KeyName : gostring;
  AuthScheme_Scheme : gostring; AuthScheme_BearerFormat : gostring; AuthScheme_Flows : list OAuthFlow;
  AuthScheme_OAuth2MetadataURL : gostring; AuthScheme_OpenIDConnectURL : gostring;
  AuthScheme_Credentials : option TypeRef; AuthScheme_Unmodeled : Unmodeled; AuthScheme_Provenance : Provenance
}.
Definition zeroAuthScheme : AuthScheme := mkAuthScheme [] zeroNaming [] zeroDocs None [] [] [] [] [] [] [] None ∅
  zeroProvenance.

Record ResourceInfo := mkResourceInfo {
  ResourceInfo_Identifiers : list Property; ResourceInfo_Properties : list Property;
  ResourceInfo_Lifecycle : gmap gostring OpID; ResourceInfo_NoReplace : bool; ResourceInfo_InstanceOps : list OpID;
  ResourceInfo_CollectionOps : list OpID
}.
Definition zeroResourceInfo : ResourceInfo := mkResourceInfo [] [] ∅ false [] [].

#[warnings="-register-all"]
Inductive OperationGroup : Type := mkOperationGroup {
  OperationGroup_ID : GroupID; OperationGroup_Name : Naming; OperationGroup_Docs : Docs;
  OperationGroup_Groups : list OperationGroup; OperationGroup_Operations : list Operation;
  OperationGroup_Resource : option ResourceInfo; OperationGroup_Availability : option Availability;
  OperationGroup_Stability : Stability; OperationGroup_Unmodeled : Unmodeled
}.
Definition zeroOperationGroup : OperationGroup := mkOperationGroup [] zeroNaming zeroDocs [] [] None None [] ∅.

Record ProtocolDecl := mkProtocolDecl {
  ProtocolDecl_Name : gostring; ProtocolDecl_Options : RawConfig
}.
Definition zeroProtocolDecl : ProtocolDecl := mkProtocolDecl [] ∅.

Record Service := mkService {
  Service_ID : ServiceID; Service_Name : Naming; Service_Docs : Docs; Service_Version : gostring;
  Service_Namespace : list gostring; Service_Extends : list ServiceID; Service_Groups : list OperationGroup;
  Service_Auth : list AuthRequirement; Service_CommonErrors : list ErrorCase; Service_Protocols : list ProtocolDecl;
  Service_Renames : gmap gostring Naming; Service_Servers : list ServerID; Service_Unmodeled : Unmodeled;
  Service_Provenance : Provenance
}.
Definition zeroService : Service := mkService [] zeroNaming zeroDocs [] [] [] [] [] [] [] ∅ [] ∅ zeroProvenance.

Record Contact := mkContact {
  Contact_Name : gostring; Contact_URL : gostring; Contact_Email : gostring
}.
Definition zeroContact : Contact := mkContact [] [] [].

Record License := mkLicense {
  License_Name : gostring; License_Identifier : gostring; License_URL : gostring
}.
Definition zeroLicense : License := mkLicense [] [] [].

(** What a [TypeDef] interface value holds. [NilDef None] is the nil interface,
    [NilDef (Some k)] a nil pointer of kind [k]. *)
Inductive TypeDef : Type :=
  | PrimitiveDef (d : Primitive) | ScalarDef (d : Scalar) | ModelDef (d : Model) | UnionDef (d : Union)
  | EnumDef (d : Enum) | ListDef (d : List) | MapDef (d : MapT) | TupleDef (d : Tuple)
  | LiteralDef (d : Literal) | ExternalDef (d : External) | AnyDef (d : Any) | NilDef (k : option TypeKind).

Abbreviation TypeRegistry := (gmap gostring TypeDef) (only parsing).

Record TagDef := mkTagDef {
  TagDef_Name : gostring; TagDef_Docs : Docs; TagDef_Parent : gostring; TagDef_Kind : gostring
}.
Definition zeroTagDef : TagDef := mkTagDef [] zeroDocs [] [].

Record Document := mkDocument {
  Document_IRVersion : gostring; Document_IDSpaces : gmap gostring (list gostring); Document_Name : gostring;
  Document_Version : gostring; Document_Docs : Docs; Document_Contact : option Contact;
  Document_License : option License; Document_TermsOfService : gostring; Document_Services : list Service;
  Document_Types : TypeRegistry; Document_Channels : gmap gostring Channel;
  Document_Messages : gmap gostring Message; Document_Auth : gmap gostring AuthScheme;
  Document_Servers : gmap gostring Server; Document_TagDefs : list TagDef; Document_Versions : list gostring;
  Document_Unmodeled : Unmodeled; Document_Diagnostics : list Diagnostic; Document_Sources : list SourceInfo
}.
Definition zeroDocument : Document := mkDocument [] ∅ [] [] zeroDocs None None [] [] ∅ ∅ ∅ ∅ ∅ [] [] ∅ [] [].

(** ** Samples: small registries for the witnesses *)

Definition reference (t : TypeID) : TypeRef := mkTypeRef t false [].
Definition property_of (prop wire : gostring) (required : bool) : Property :=
  mkProperty prop zeroNaming wire ∅ None [] zeroTypeRef required [] false false
    zeroVisibility None None None [] false false false false None [] zeroDocs None None ∅ zeroProvenance.
Definition model_with (props : list Property) (parents : list TypeID) : TypeDef :=
  ModelDef (mkModel zeroTypeCommon props [] None (reference <$> parents) [] None [] None false false [] None [] false).
Definition model_of (parents : list TypeID) : TypeDef := model_with [] parents.
Definition alias_of (t : TypeID) : TypeDef := ScalarDef (mkScalar zeroTypeCommon (Some (reference t)) None None).
Definition registry_doc (types : TypeRegistry) : Document :=
  mkDocument [] ∅ [] [] zeroDocs None None [] [] types ∅ ∅ ∅ ∅ [] [] ∅ [] [].

(** A pet shop: a cat extends an alias of a pet, which extends itself and an
    animal. *)
Definition pets : TypeRegistry := list_to_map [
  (go "t/cat", model_with [property_of (go "p/cat/claws") (go "claws") true] [go "t/alias"]);
  (go "t/alias", alias_of (go "t/pet"));
  (go "t/pet", model_with [property_of (go "p/pet/name") (go "name") true; property_of (go "p/pet/legs") (go "legs") false]
     [go "t/pet"; go "t/animal"]);
  (go "t/animal", model_with [property_of (go "p/animal/name") (go "name") false] [])].
Definition pets_doc : Document := registry_doc pets.
