(* ===== verification/Domain.v ===== *)
(** * Domain: the containment order of the primitive kinds ([src/ir/types.go])

    [StrictlyWithin] is executed as the code walks it; the numeric kinds are then
    given the sets of rationals their documentation describes, and the walk is
    shown to decide exactly the containment of those sets. *)
From S2P Require Import Prelude GoLib IR.
Implicit Types (k broad : PrimKind) (q : Q) (z m e : Z).

(** ** Operations *)

Definition declared_kinds : list PrimKind := [
  PrimBool; PrimString; PrimBytes;
  PrimInt8; PrimInt16; PrimInt32; PrimInt64;
  PrimUint8; PrimUint16; PrimUint32; PrimUint64;
  PrimInteger; PrimFloat32; PrimFloat64; PrimFloat; PrimNumber;
  PrimDecimal; PrimDecimal128;
  PrimDate; PrimTime; PrimDatetime; PrimDatetimeOffset; PrimDuration;
  PrimURL; PrimUUID; PrimAny].

(** [PrimKind.Valid] *)
Definition PrimKind_Valid k : bool := bool_decide (k ∈ declared_kinds).

Definition maxDomainDepth : nat := 8.

Definition domainParents_table : list (list PrimKind * list PrimKind) := [
  ([PrimInt8], [PrimInt16]);
  ([PrimInt16], [PrimInt32; PrimFloat32]);
  ([PrimInt32], [PrimInt64; PrimFloat64]);
  ([PrimInt64; PrimUint64], [PrimInteger; PrimDecimal128]);
  ([PrimUint8], [PrimUint16; PrimInt16]);
  ([PrimUint16], [PrimUint32; PrimInt32; PrimFloat32]);
  ([PrimUint32], [PrimUint64; PrimInt64; PrimFloat64]);
  ([PrimInteger], [PrimFloat]);
  ([PrimFloat32], [PrimFloat64]);
  ([PrimFloat64], [PrimFloat]);
  ([PrimFloat], [PrimDecimal]);
  ([PrimDecimal], [PrimNumber]);
  ([PrimDecimal128], [PrimDecimal])].

Fixpoint switch (cases : list (list PrimKind * list PrimKind)) k : list PrimKind :=
  match cases with
  | [] => []
  | (labels, parents) :: rest => if bool_decide (k ∈ labels) then parents else switch rest k
  end.

Definition domainParents k : list PrimKind := switch domainParents_table k.

(** The loop of [StrictlyWithin], for at most [depth] more levels. *)
Fixpoint climb (depth : nat) (frontier : list PrimKind) broad : bool :=
  match depth with
  | O => false
  | S depth =>
      match frontier with
      | [] => false
      | _ =>
          let next := frontier ≫= domainParents in
          if bool_decide (broad ∈ next) then true else climb depth next broad
      end
  end.

Definition StrictlyWithin k broad : bool :=
  if bool_decide (k = broad) || negb (PrimKind_Valid k) || negb (PrimKind_Valid broad) then false
  else if bool_decide (broad = PrimAny) then true
  else climb maxDomainDepth [k] broad.

(** ** The value sets *)

Definition integers lo hi q : Prop := ∃ z, (lo <= z <= hi)%Z ∧ (q == inject_Z z)%Q.

(** The multiples [m * radix ^ e] of a significand under [bound]. *)
Definition floating (radix bound emin emax : Z) q : Prop :=
  ∃ m e, (Z.abs m < bound)%Z ∧ (emin <= e <= emax)%Z ∧ (q == inject_Z m * inject_Z radix ^ e)%Q.

Definition radix_fractions (radix : Z) q : Prop := ∃ m e, (q == inject_Z m * inject_Z radix ^ e)%Q.

(** The finite values of each numeric kind: the two's-complement ranges, the
    integers, the IEEE-754 binary32, binary64 and decimal128 values, the binary
    and the decimal fractions of any length, and every rational. *)
Definition numeric_domains : list (PrimKind * (Q → Prop)) := [
  (PrimInt8, integers (- 2 ^ 7) (2 ^ 7 - 1)); (PrimInt16, integers (- 2 ^ 15) (2 ^ 15 - 1));
  (PrimInt32, integers (- 2 ^ 31) (2 ^ 31 - 1)); (PrimInt64, integers (- 2 ^ 63) (2 ^ 63 - 1));
  (PrimUint8, integers 0 (2 ^ 8 - 1)); (PrimUint16, integers 0 (2 ^ 16 - 1));
  (PrimUint32, integers 0 (2 ^ 32 - 1)); (PrimUint64, integers 0 (2 ^ 64 - 1));
  (PrimInteger, λ q, ∃ z, (q == inject_Z z)%Q);
  (PrimFloat32, floating 2 (2 ^ 24) (-149) 104); (PrimFloat64, floating 2 (2 ^ 53) (-1074) 971);
  (PrimFloat, radix_fractions 2);
  (PrimDecimal128, floating 10 (10 ^ 34) (-6176) 6111); (PrimDecimal, radix_fractions 10);
  (PrimNumber, λ _, True)].

Fixpoint find_domain (domains : list (PrimKind * (Q → Prop))) k : option (Q → Prop) :=
  match domains with
  | [] => None
  | (k', D) :: rest => if bool_decide (k = k') then Some D else find_domain rest k
  end.

Definition in_domain k q : Prop :=
  match find_domain numeric_domains k with Some D => D q | None => False end.
Definition within_domain k broad : Prop := ∀ q, in_domain k q → in_domain broad q.
Definition numeric k : Prop := k ∈ numeric_domains.*1.
#[export] Instance numeric_dec k : Decision (numeric k).
Proof. unfold numeric. apply _. Defined.

(** ** Rationals and powers of a radix *)

Lemma power_up q m (r : Z) e :
  (0 <= e)%Z → (q == inject_Z m * inject_Z r ^ e)%Q ↔ (Qnum q = m * r ^ e * QDen q)%Z.
Proof.
  intros He. rewrite <- Zpower_Qpower, <- inject_Z_mult by done.
  unfold Qeq, inject_Z. simpl. by rewrite Z.mul_1_r.
Qed.

Lemma power_down q m (r : Z) e :
  (0 < r)%Z → (e < 0)%Z → (q == inject_Z m * inject_Z r ^ e)%Q ↔ (Qnum q * r ^ (- e) = m * QDen q)%Z.
Proof.
  intros Hr He. assert (Hp : (0 < r ^ (- e))%Z) by (apply Z.pow_pos_nonneg; lia).
  assert (Hi : ¬ (inject_Z (r ^ (- e)) == 0)%Q) by (unfold Qeq, inject_Z; simpl; lia).
  replace e with (- (- e))%Z at 1 by lia. rewrite Qpower_opp, <- Zpower_Qpower by lia.
  transitivity (q * inject_Z (r ^ (- e)) == inject_Z m)%Q.
  - split; intros H; [rewrite H; by field|rewrite <- H; by field].
  - unfold Qeq, inject_Z. simpl. rewrite Pos.mul_1_r. lia.
Qed.

Lemma integers_mono lo hi lo' hi' q :
  (lo' <= lo)%Z → (hi <= hi')%Z → integers lo hi q → integers lo' hi' q.
Proof. intros ?? (z & ? & ?). exists z. split; [lia|done]. Qed.

Lemma power_0 q z (r : Z) : (q == inject_Z z)%Q → (q == inject_Z z * inject_Z r ^ 0)%Q.
Proof. intros ->. simpl. by rewrite Qmult_1_r. Qed.

Lemma integers_floating lo hi (r bound emin emax : Z) q :
  (- bound < lo)%Z → (hi < bound)%Z → (emin <= 0 <= emax)%Z →
  integers lo hi q → floating r bound emin emax q.
Proof. intros ??? (z & ? & ?). exists z, 0%Z. split_and!; [lia..|]. by apply power_0. Qed.

Lemma floating_mono r bound bound' emin emin' emax emax' q :
  (bound <= bound')%Z → (emin' <= emin)%Z → (emax <= emax')%Z →
  floating r bound emin emax q → floating r bound' emin' emax' q.
Proof. intros ??? (m & e & ? & ? & ?). exists m, e. split_and!; [lia..|done]. Qed.

Lemma floating_fraction r bound emin emax q : floating r bound emin emax q → radix_fractions r q.
Proof. intros (m & e & _ & _ & ?). by exists m, e. Qed.

Lemma binary_decimal q : radix_fractions 2 q → radix_fractions 10 q.
Proof.
  intros (m & e & H). destruct (Z.leb_spec 0 e).
  - exists (m * 2 ^ e)%Z, 0%Z. apply power_up in H; [|done]. apply power_up; lia.
  - exists (m * 5 ^ (- e))%Z, e. apply power_down in H; [|lia..]. apply power_down; [lia..|].
    change 10%Z with (2 * 5)%Z. rewrite Z.pow_mul_l, Z.mul_assoc, H. lia.
Qed.

(** ** What a kind's set leaves out *)

Lemma not_integers lo hi z : ¬ (lo <= z <= hi)%Z → ¬ integers lo hi (inject_Z z).
Proof. intros Hz (w & Hw & H). unfold Qeq in H. simpl in H. lia. Qed.

Lemma not_integer n (d : positive) : (n mod Z.pos d ≠ 0)%Z → ¬ ∃ z, (n # d == inject_Z z)%Q.
Proof.
  intros Hn [z H]. unfold Qeq in H. simpl in H. apply Hn. rewrite Z.mul_1_r in H. subst n.
  apply Z.mod_mul. lia.
Qed.

(** An integer the radix does not divide needs all its digits. *)
Lemma not_floating_long (r bound emin emax : Z) z :
  (1 < r)%Z → (bound <= Z.abs z)%Z → (z mod r ≠ 0)%Z → ¬ floating r bound emin emax (inject_Z z).
Proof.
  intros Hr Hb Hz (m & e & Hm & _ & H). destruct (Z.leb_spec 0 e) as [He|He].
  - apply power_up in H; [|done]. simpl in H. rewrite Z.mul_1_r in H.
    destruct (decide (e = 0)%Z) as [->|]; [rewrite Z.mul_1_r in H; lia|].
    apply Hz. rewrite H. replace e with (Z.succ (e - 1)) by lia. rewrite Z.pow_succ_r by lia.
    rewrite Z.mul_comm, <- Z.mul_assoc, (Z.mul_comm r). apply Z.mod_mul. lia.
  - apply power_down in H; [|lia..]. simpl in H. rewrite Z.mul_1_r in H.
    assert (Hp : (0 < r ^ (- e))%Z) by (apply Z.pow_pos_nonneg; lia).
    subst m. rewrite Z.abs_mul in Hm. nia.
Qed.

Lemma pow_mod (r d c : Z) e : (0 < d)%Z → (0 <= e)%Z → (r mod d = c)%Z → (r ^ e mod d = c ^ e mod d)%Z.
Proof. intros Hd He <-. by rewrite Z.mod_pow_l. Qed.

(** A prime the radix lacks never leaves a denominator. *)
Lemma not_fraction (r p : Z) :
  (1 < r)%Z → (1 < p)%Z → (∀ e, 0 <= e → r ^ e mod p ≠ 0)%Z → ¬ radix_fractions r (1 # Z.to_pos p).
Proof.
  intros Hr Hp Hmod (m & e & H). destruct (Z.leb_spec 0 e) as [He|He].
  - apply power_up in H; [|done]. simpl in H. rewrite Z2Pos.id in H by lia.
    symmetry in H. apply Z.mul_eq_1 in H as H'. assert (p = 1 ∨ p = -1)%Z; [|lia].
    rewrite Z.mul_comm in H. by apply Z.mul_eq_1 in H.
  - apply power_down in H; [|lia..]. simpl Qnum in H. simpl Qden in H. rewrite Z2Pos.id in H by lia.
    apply (Hmod (- e)%Z); [lia|]. replace (r ^ (- e))%Z with (m * p)%Z by lia. apply Z.mod_mul. lia.
Qed.

Lemma ten_mod_3 e : (0 <= e → 10 ^ e mod 3 ≠ 0)%Z.
Proof. intros He. rewrite (pow_mod 10 3 1) by (done || lia). by rewrite Z.pow_1_l. Qed.

Lemma two_mod_10 e : (0 <= e → 2 ^ e mod 10 ≠ 0)%Z.
Proof.
  intros He. assert (H : (2 ^ e mod 10 = 1 ∨ 2 ^ e mod 10 = 2 ∨ 2 ^ e mod 10 = 4 ∨ 2 ^ e mod 10 = 8 ∨ 2 ^ e mod 10 = 6)%Z);
    [|lia].
  revert e He. apply natlike_ind; [by left|]. intros e He IH.
  rewrite Z.pow_succ_r, <- Z.mul_mod_idemp_r by lia.
  destruct IH as [->|[->|[->|[->| ->]]]]; vm_compute; tauto.
Qed.

(** A small power of two needs more decimal digits than its exponent. *)
Lemma not_decimal128 : ¬ floating 10 (10 ^ 34) (-6176) 6111 (1 # 2 ^ 149).
Proof.
  intros (m & e & Hm & _ & H). destruct (Z.leb_spec 0 e) as [He|He].
  - apply power_up in H; [|done]. change (Qnum (1 # 2 ^ 149)) with 1%Z in H.
    symmetry in H. rewrite Z.mul_comm in H. apply Z.mul_eq_1 in H. revert H. by intros [?|?].
  - apply power_down in H; [|lia..]. change (Qnum (1 # 2 ^ 149)) with 1%Z in H.
    change (QDen (1 # 2 ^ 149)) with (2 ^ 149)%Z in H. rewrite Z.mul_1_l in H.
    change 10%Z with (2 * 5)%Z in H at 1. rewrite Z.pow_mul_l in H.
    assert (H5 : (0 < 5 ^ (- e))%Z) by (apply Z.pow_pos_nonneg; lia).
    destruct (Z.ltb_spec (- e) 149) as [Hk|Hk].
    + assert (Hodd : (5 ^ (- e) mod 2 = 1)%Z).
      { rewrite (pow_mod 5 2 1) by (done || lia). by rewrite Z.pow_1_l by lia. }
      replace 149%Z with (- e + Z.succ (148 + e))%Z in H by lia.
      rewrite Z.pow_add_r, Z.pow_succ_r in H by lia.
      assert (Hp : (0 < 2 ^ (- e))%Z) by (apply Z.pow_pos_nonneg; lia).
      assert (E : (5 ^ (- e) = (m * 2 ^ (148 + e)) * 2)%Z) by nia.
      rewrite E, Z.mod_mul in Hodd; lia.
    + replace (- e)%Z with (149 + (- e - 149))%Z in H at 1 by lia. rewrite Z.pow_add_r in H by lia.
      assert (Hp : (0 < 2 ^ (- e - 149))%Z) by (apply Z.pow_pos_nonneg; lia).
      assert (Hbig : (5 ^ 149 <= 5 ^ (- e))%Z) by (apply Z.pow_le_mono_r; lia).
      assert (E : (m = 2 ^ (- e - 149) * 5 ^ (- e))%Z).
      { apply (Z.mul_reg_r _ _ (2 ^ 149)); [by vm_compute|]. lia. }
      assert (10 ^ 34 <= 5 ^ 149)%Z by (by vm_compute).
      assert (5 ^ (- e) <= m)%Z by nia. lia.
Qed.

(** ** The walk *)

Lemma switch_elem cases k broad :
  broad ∈ switch cases k → ∃ labels parents, (labels, parents) ∈ cases ∧ k ∈ labels ∧ broad ∈ parents.
Proof.
  induction cases as [|[labels parents] cases IH]; simpl; [set_solver|].
  case_bool_decide as Hk; [|set_solver]. intros Hb. exists labels, parents. split; [by left|done].
Qed.

Ltac domains := lazy -[integers floating radix_fractions Qeq inject_Z Z.lt Z.le].

Lemma edge_sound k broad : broad ∈ domainParents k → within_domain k broad.
Proof.
  intros (labels & parents & Hin & Hk & Hb)%switch_elem q. unfold domainParents_table in Hin.
  repeat (apply elem_of_cons in Hin as [Hin|Hin]; [injection Hin as -> ->|]); [..|by apply elem_of_nil in Hin].
  all: repeat (apply elem_of_cons in Hk as [->|Hk]); [..|by apply elem_of_nil in Hk].
  all: repeat (apply elem_of_cons in Hb as [->|Hb]); [..|by apply elem_of_nil in Hb].
  all: domains.
  all: try (apply integers_mono; lia).
  all: try (apply integers_floating; lia).
  all: try (intros (z & _ & ?); by exists z).
  all: try (intros (z & ?); exists z, 0%Z; by apply power_0).
  all: try (apply floating_mono; lia).
  all: try apply floating_fraction; try apply binary_decimal; done.
Qed.

Lemma climb_sound depth frontier broad :
  climb depth frontier broad = true → ∃ k, k ∈ frontier ∧ within_domain k broad.
Proof.
  revert frontier. induction depth as [|depth IH]; simpl; [done|]. intros [|k0 frontier]; [done|].
  case_bool_decide as Hb.
  - apply list_elem_of_bind in Hb as (k & Hk & Hin). intros _. exists k. split; [done|]. by apply edge_sound.
  - intros (k & Hk & Hw)%IH. apply list_elem_of_bind in Hk as (k' & Hk & Hin).
    exists k'. split; [done|]. intros q Hq. apply Hw. by apply (edge_sound k').
Qed.

Lemma StrictlyWithin_sound k broad :
  numeric broad → StrictlyWithin k broad = true → k ≠ broad ∧ within_domain k broad.
Proof.
  intros Hn. unfold StrictlyWithin. case_bool_decide as Hne; [done|].
  destruct (PrimKind_Valid k), (PrimKind_Valid broad); cbn [orb negb]; try done.
  case_bool_decide as Hany; [exfalso; subst; revert Hn; change (¬ numeric PrimAny); refine (proj1 (bool_decide_eq_true _) _); reflexivity|].
  intros (k' & Hk%list_elem_of_singleton & Hw)%climb_sound. by subst.
Qed.

(** A value of the first kind that the second lacks, for each pair that no other
    pair explains. *)
Definition separations : list (PrimKind * PrimKind * Q) := [
  (PrimUint8, PrimInt8, inject_Z (2 ^ 8 - 1)); (PrimUint16, PrimInt16, inject_Z (2 ^ 16 - 1));
  (PrimUint32, PrimInt32, inject_Z (2 ^ 32 - 1)); (PrimUint64, PrimInt64, inject_Z (2 ^ 64 - 1));
  (PrimInt8, PrimUint64, inject_Z (-1));
  (PrimUint16, PrimUint8, inject_Z (2 ^ 16 - 1)); (PrimUint32, PrimUint16, inject_Z (2 ^ 32 - 1));
  (PrimUint64, PrimUint32, inject_Z (2 ^ 64 - 1));
  (PrimFloat32, PrimInteger, Qmake 1 (2 ^ 149)); (PrimDecimal128, PrimInteger, Qmake 1 10);
  (PrimInt32, PrimFloat32, inject_Z (2 ^ 24 + 1)); (PrimUint32, PrimFloat32, inject_Z (2 ^ 24 + 1));
  (PrimInt64, PrimFloat64, inject_Z (2 ^ 53 + 1)); (PrimUint64, PrimFloat64, inject_Z (2 ^ 53 + 1));
  (PrimDecimal128, PrimFloat, Qmake 1 10);
  (PrimInteger, PrimDecimal128, inject_Z (10 ^ 34 + 1)); (PrimFloat32, PrimDecimal128, Qmake 1 (2 ^ 149));
  (PrimNumber, PrimDecimal, Qmake 1 3)].

Lemma separation_sound k broad q : (k, broad, q) ∈ separations → in_domain k q ∧ ¬ in_domain broad q.
Proof.
  intros Hin. unfold separations in Hin.
  repeat (apply elem_of_cons in Hin as [Hin|Hin]; [injection Hin as -> -> ->|]); [..|by apply elem_of_nil in Hin].
  all: split; domains.
  all: try (apply not_integers; lia).
  all: try (by apply not_integer).
  all: try (by apply not_floating_long).
  all: try (apply not_decimal128).
  all: try (eexists; split; [|reflexivity]; lia).
  all: try (by eexists).
  all: try (exists 1%Z, (-149)%Z; split_and!; [lia..|]; by apply power_down).
  all: try (exists 1%Z, (-1)%Z; split_and!; [lia..|]; by apply power_down).
  all: try (apply (not_fraction 2 10); [lia..|apply two_mod_10]).
  all: try (apply (not_fraction 10 3); [lia..|apply ten_mod_3]).
Qed.

Definition at_or_above k broad : bool := bool_decide (k = broad) || StrictlyWithin k broad.

(** Each pair the walk refuses is a separation, or lies around one. *)
Definition separated k broad : bool :=
  existsb (λ '(k', broad', _), at_or_above k' k && at_or_above broad broad') separations.

Lemma refused_separated :
  Forall (λ k, Forall (λ broad, at_or_above k broad || separated k broad = true) numeric_domains.*1) numeric_domains.*1.
Proof. apply (proj1 (bool_decide_eq_true _)). vm_compute. reflexivity. Qed.

Lemma at_or_above_within k broad : numeric broad → at_or_above k broad = true → within_domain k broad.
Proof.
  unfold at_or_above. intros Hn [->%bool_decide_eq_true|H]%orb_true_iff; [by intros q|].
  by apply StrictlyWithin_sound in H as [_ ?].
Qed.

Lemma separations_numeric :
  Forall (λ '(k, broad, _), numeric k ∧ numeric broad) separations.
Proof. by repeat (constructor; [split; (refine (proj1 (bool_decide_eq_true _) _); reflexivity)|]). Qed.

Lemma separated_sound k broad : numeric k → numeric broad → separated k broad = true → ¬ within_domain k broad.
Proof.
  intros Hk Hb ([[k' broad'] q] & Hin%list_elem_of_In & [H1 H2]%andb_true_iff)%existsb_exists Hw.
  destruct (separation_sound k' broad' q Hin) as [Hq Hn].
  pose proof (proj1 (Forall_forall _ _) separations_numeric _ Hin) as [_ Hb'].
  apply Hn. apply (at_or_above_within broad broad'); [done..|]. apply Hw. by apply (at_or_above_within k' k).
Qed.

(** on the numeric kinds the walk up the parents decides exactly the
    containment of the kinds' value sets: [k] is strictly within [broad] when
    they differ and every finite value of [k] is a value of [broad]. The walk's
    depth bound never cuts a chain short. *)
Theorem StrictlyWithin_exact k broad :
  numeric k → numeric broad → StrictlyWithin k broad = true ↔ k ≠ broad ∧ within_domain k broad.
Proof.
  intros Hk Hb. split; [by apply StrictlyWithin_sound|]. intros [Hne Hw].
  pose proof (proj1 (Forall_forall _ _) (proj1 (Forall_forall _ _) refused_separated k Hk) broad Hb) as Hr.
  simpl in Hr. unfold at_or_above in Hr. rewrite bool_decide_eq_false_2 in Hr by done.
  apply orb_true_iff in Hr as [Hr|Hr]; [done|]. by apply (separated_sound k broad) in Hr.
Qed.

Lemma StrictlyWithin_exact_witness : within_domain PrimUint16 PrimFloat64 ∧ ¬ within_domain PrimInt64 PrimFloat64.
Proof.
  assert (H16 : numeric PrimUint16) by (refine (proj1 (bool_decide_eq_true _) _); reflexivity).
  assert (Hi : numeric PrimInt64) by (refine (proj1 (bool_decide_eq_true _) _); reflexivity).
  assert (Hf : numeric PrimFloat64) by (refine (proj1 (bool_decide_eq_true _) _); reflexivity).
  split.
  - apply (proj1 (StrictlyWithin_exact PrimUint16 PrimFloat64 H16 Hf)). vm_compute. reflexivity.
  - intros H. assert (E : StrictlyWithin PrimInt64 PrimFloat64 = true) by
      (apply (proj2 (StrictlyWithin_exact PrimInt64 PrimFloat64 Hi Hf)); split; [discriminate|exact H]).
    vm_compute in E. discriminate E.
Defined.

(** ** The order *)

Lemma StrictlyWithin_valid k broad :
  StrictlyWithin k broad = true → k ∈ declared_kinds ∧ broad ∈ declared_kinds.
Proof.
  unfold StrictlyWithin, PrimKind_Valid. case_bool_decide; [done|].
  case_bool_decide; [|done]. case_bool_decide; done.
Qed.

Lemma order_table :
  Forall (λ a, StrictlyWithin a a = false ∧
    (a = PrimAny ∨ StrictlyWithin a PrimAny = true) ∧
    Forall (λ b, StrictlyWithin a b = true →
      Forall (λ c, StrictlyWithin b c = true → StrictlyWithin a c = true) declared_kinds) declared_kinds) declared_kinds.
Proof. apply (proj1 (bool_decide_eq_true _)). vm_compute. reflexivity. Qed.

(** [StrictlyWithin] is a strict partial order on all strings, with [any]
    above every other declared kind and no kind outside the declared ones. *)
Theorem StrictlyWithin_order :
  (∀ a, StrictlyWithin a a = false) ∧
  (∀ a b c, StrictlyWithin a b = true → StrictlyWithin b c = true → StrictlyWithin a c = true) ∧
  (∀ a, StrictlyWithin a PrimAny = true ↔ PrimKind_Valid a = true ∧ a ≠ PrimAny).
Proof.
  split_and!.
  - intros a. unfold StrictlyWithin. by rewrite bool_decide_eq_true_2.
  - intros a b c Hab Hbc.
    destruct (StrictlyWithin_valid _ _ Hab) as [Ha Hb]. destruct (StrictlyWithin_valid _ _ Hbc) as [_ Hc].
    pose proof order_table as H. rewrite Forall_forall in H. destruct (H a Ha) as (_ & _ & Ht).
    rewrite Forall_forall in Ht. specialize (Ht b Hb Hab). rewrite Forall_forall in Ht. by apply Ht.
  - intros a. unfold PrimKind_Valid. rewrite bool_decide_eq_true. split.
    + intros H. destruct (StrictlyWithin_valid _ _ H) as [Ha _]. split; [done|]. by intros ->.
    + intros [Ha Hne]. pose proof order_table as H. rewrite Forall_forall in H. by destruct (H a Ha) as (_ & [?|?] & _).
Qed.
