(* ===== verification/Ids.v ===== *)
(** * Ids: the grammar of synthetic IDs
    ([src/ir/ids.go], [src/compilers/compile/ids.go] and [spaces.go])

    An ID is a kind, a space and an optional path. The reader of [ir] and the
    builder of [compile] are shown to invert one another, and a space qualified
    by a document to name that document alone. *)
From S2P Require Import Prelude GoLib IR.
Implicit Types (kind id space s document : gostring).

(** ** Operations of [ir] *)

Definition IDKindType := go "t".
Definition IDKindOp := go "op".
Definition IDKindProp := go "p".
Definition IDKindAuth := go "auth".
Definition IDKindService := go "s".
Definition IDKindGroup := go "g".
Definition IDKindParam := go "param".
Definition IDKindEnumMember := go "e".
Definition IDKindServer := go "server".

Definition IDKinds : list gostring :=
  [IDKindType; IDKindOp; IDKindProp; IDKindAuth; IDKindService; IDKindGroup; IDKindParam;
   IDKindEnumMember; IDKindServer].

(** The separator as the one byte [strings.Cut] looks for. *)
Definition separator : ascii := "/"%char.
Definition IDSeparator : gostring := [separator].
Definition IDSpacePrim := go "prim".
Definition IDSpaceUnresolved := go "unresolved".

Definition PrimTypeID (k : PrimKind) : TypeID :=
  IDKindType ++ IDSeparator ++ IDSpacePrim ++ IDSeparator ++ k.

Definition WellFormedID kind id : bool :=
  match CutPrefix id (kind ++ IDSeparator) with
  | None => false
  | Some rest =>
      if bool_decide (rest = []) then false
      else
        let '(space, path, hasPath) := Cut rest separator in
        if bool_decide (space = []) then false
        else negb hasPath || negb (bool_decide (path = []))
  end.

Definition idRest kind id : option gostring :=
  if negb (WellFormedID kind id) then None else Some (TrimPrefix id (kind ++ IDSeparator)).

Definition IDSpace kind id : option gostring :=
  match idRest kind id with
  | None => None
  | Some rest => let '(space, _, _) := Cut rest separator in Some space
  end.

(** The path, and whether the id carries one. *)
Definition IDPath kind id : gostring * bool :=
  match idRest kind id with
  | None => ([], false)
  | Some rest => let '(_, path, hasPath) := Cut rest separator in (path, hasPath)
  end.

(** ** Operations of [compile] *)

Definition idFor kind space path : gostring :=
  let trimmed := TrimPrefix path IDSeparator in
  if bool_decide (trimmed = []) then kind ++ IDSeparator ++ space
  else kind ++ IDSeparator ++ space ++ IDSeparator ++ trimmed.

Definition TypeID_ space path : TypeID := idFor IDKindType space path.
Definition OpID_ space path : OpID := idFor IDKindOp space path.
Definition PropID_ space path : PropID := idFor IDKindProp space path.
Definition AuthID_ space path : AuthID := idFor IDKindAuth space path.
Definition ServiceID_ space path : ServiceID := idFor IDKindService space path.
Definition GroupID_ space path : GroupID := idFor IDKindGroup space path.
Definition ParamID_ space path : ParamID := idFor IDKindParam space path.
Definition EnumMemberID_ space path : EnumMemberID := idFor IDKindEnumMember space path.
Definition ServerID_ space path : ServerID := idFor IDKindServer space path.

(** [spaceOf]: the second of the at most three parts between separators. *)
Definition spaceOf id : gostring :=
  let '(_, rest, found) := Cut id separator in
  if (found : bool) then let '(space, _, _) := Cut rest separator in space else [].

(** [strings.ReplaceAll] of a one-byte string. *)
Definition ReplaceAll s (old : ascii) (new : gostring) : gostring :=
  s ≫= λ c, if decide (c = old) then new else [c].

Definition qualifier : gostring := go "@".
Definition escaped_document document : gostring :=
  ReplaceAll (ReplaceAll document "~" (go "~0")) separator (go "~1").
Definition Qualified space document : gostring := space ++ qualifier ++ escaped_document document.

(** [Namespaces.Declaration] of the spaces one kind lists: sorted, without
    repeats; [None] where the kind is left out. *)
Fixpoint compact (l : list gostring) : list gostring :=
  match l with
  | x :: ((y :: _) as rest) => if decide (x = y) then compact rest else x :: compact rest
  | _ => l
  end.
Definition declared_spaces (spaces : list gostring) : option (list gostring) :=
  let list := compact (merge_sort string_le spaces) in
  if bool_decide (list = []) then None else Some list.
Definition Declaration (n : gmap gostring (list gostring)) : gmap gostring (list gostring) :=
  omap declared_spaces n.

(** ** Cutting *)

Lemma CutPrefix_app p r : CutPrefix (p ++ r) p = Some r.
Proof. induction p as [|c p IH]; [by destruct r|]. simpl. by destruct (decide (c = c)). Qed.

Lemma CutPrefix_Some s p r : CutPrefix s p = Some r ↔ s = p ++ r.
Proof.
  split; [|intros ->; apply CutPrefix_app].
  revert s. induction p as [|c p IH]; intros s; [by destruct s; intros [= <-]|].
  destruct s as [|d s]; simpl; [done|]. destruct (decide (c = d)) as [->|]; [|done]. by intros ->%IH.
Qed.

Lemma TrimPrefix_app p r : TrimPrefix (p ++ r) p = r.
Proof. unfold TrimPrefix. by rewrite CutPrefix_app. Qed.

Lemma Cut_spec s sep :
  match Cut s sep with
  | (before, after, true) => s = before ++ sep :: after ∧ sep ∉ before
  | (before, after, false) => s = before ∧ after = [] ∧ sep ∉ s
  end.
Proof.
  induction s as [|c s IH]; simpl; [by split_and!; [..|set_solver]|].
  destruct (decide (c = sep)) as [->|Hne]; [split; [done|set_solver]|].
  destruct (Cut s sep) as [[before after] []]; destruct_and!; subst; (split_and?; [done..|set_solver]).
Qed.

Lemma Cut_found before after sep : sep ∉ before → Cut (before ++ sep :: after) sep = (before, after, true).
Proof.
  induction before as [|c before IH]; simpl; intros Hn; [by destruct (decide (sep = sep))|].
  destruct (decide (c = sep)) as [->|]; [set_solver|]. rewrite IH; [done|set_solver].
Qed.

Lemma Cut_missing s sep : sep ∉ s → Cut s sep = (s, [], false).
Proof.
  induction s as [|c s IH]; simpl; [done|]. intros Hn.
  destruct (decide (c = sep)) as [->|]; [set_solver|]. rewrite IH; [done|set_solver].
Qed.

(** ** The grammar *)

Definition id_text kind space (path : option gostring) : gostring :=
  kind ++ IDSeparator ++ space ++ match path with Some p => IDSeparator ++ p | None => [] end.

Record id_parts space (path : option gostring) : Prop := {
  parts_space : space ≠ [];
  parts_no_separator : separator ∉ space;
  parts_path : path ≠ Some []
}.

Lemma Cut_parts space path :
  id_parts space path →
  Cut (space ++ match path with Some p => IDSeparator ++ p | None => [] end) separator =
    (space, default [] path, bool_decide (is_Some path)).
Proof.
  intros [_ Hs _]. destruct path as [p|]; simpl.
  - by rewrite Cut_found.
  - by rewrite app_nil_r, Cut_missing.
Qed.

Lemma read_id kind space path :
  id_parts space path →
  WellFormedID kind (id_text kind space path) = true ∧
  IDSpace kind (id_text kind space path) = Some space ∧
  IDPath kind (id_text kind space path) = (default [] path, bool_decide (is_Some path)).
Proof.
  intros Hp. pose proof (Cut_parts space path Hp) as Hc. destruct Hp as [Hs _ Hpath].
  assert (Hw : WellFormedID kind (id_text kind space path) = true).
  { unfold WellFormedID, id_text. rewrite app_assoc, CutPrefix_app, Hc.
    rewrite bool_decide_eq_false_2 by (destruct space; done). rewrite bool_decide_eq_false_2 by done.
    destruct path as [[|]|]; done. }
  unfold IDSpace, IDPath, idRest. rewrite Hw. unfold id_text at 1 2. simpl negb. cbv iota.
  rewrite !app_assoc, <- (app_assoc _ space), TrimPrefix_app, Hc. done.
Qed.

Lemma WellFormedID_parts kind id :
  WellFormedID kind id = true → ∃ space path, id_parts space path ∧ id = id_text kind space path.
Proof.
  unfold WellFormedID. destruct (CutPrefix id (kind ++ IDSeparator)) as [rest|] eqn:Hr; [|done].
  apply CutPrefix_Some in Hr as ->. case_bool_decide; [done|].
  pose proof (Cut_spec rest separator) as Hc. destruct (Cut rest separator) as [[space path] []].
  - destruct Hc as [-> Hn]. case_bool_decide; [done|]. simpl. case_bool_decide; [done|]. intros _.
    exists space, (Some path). split; [constructor; congruence|]. unfold id_text. by rewrite <- app_assoc.
  - destruct Hc as (-> & -> & Hn). case_bool_decide; [done|]. intros _.
    exists space, None. split; [done|]. unfold id_text. by rewrite app_nil_r, <- app_assoc.
Qed.

(** An ID is well formed for a kind exactly when it is the kind, a
    separator, a non-empty space and, after another separator, a path where it
    carries one; and the space and path are then read back exactly. *)
Theorem WellFormedID_iff kind id :
  WellFormedID kind id = true ↔
  ∃ space path, id_parts space path ∧ id = id_text kind space path ∧
    IDSpace kind id = Some space ∧ IDPath kind id = (default [] path, bool_decide (is_Some path)).
Proof.
  split.
  - intros (space & path & Hp & ->)%WellFormedID_parts. exists space, path. split_and!; [done..| |]; by apply read_id.
  - intros (space & path & Hp & -> & _). by apply read_id.
Qed.

(** ** The builder *)

Definition path_of path : option gostring :=
  let trimmed := TrimPrefix path IDSeparator in if bool_decide (trimmed = []) then None else Some trimmed.

Lemma idFor_text kind space path : idFor kind space path = id_text kind space (path_of path).
Proof. unfold idFor, id_text, path_of. case_bool_decide; [by rewrite app_nil_r|done]. Qed.

Lemma path_of_parts space path : space ≠ [] → separator ∉ space → id_parts space (path_of path).
Proof. intros ??. constructor; [done..|]. unfold path_of. case_bool_decide; congruence. Qed.

Lemma Cut_id_text kind space path :
  separator ∉ kind →
  Cut (id_text kind space path) separator =
    (kind, space ++ match path with Some p => IDSeparator ++ p | None => [] end, true).
Proof. intros Hk. unfold id_text, IDSeparator. simpl. by rewrite Cut_found. Qed.

(** C23: what [compile] builds is what [ir] and [compile] read: the ID of a
    space and a path is well formed, reads back as that space and that path
    without its leading separator, and is of no other kind. *)
Theorem idFor_roundtrip kind space path :
  separator ∉ kind → space ≠ [] → separator ∉ space →
  let id := idFor kind space path in
  WellFormedID kind id = true ∧ IDSpace kind id = Some space ∧
  IDPath kind id = (default [] (path_of path), bool_decide (is_Some (path_of path))) ∧
  spaceOf id = space ∧
  (∀ kind', separator ∉ kind' → WellFormedID kind' id = true → kind' = kind).
Proof.
  intros Hk Hs Hn. pose proof (path_of_parts space path Hs Hn) as Hp. rewrite idFor_text. cbv zeta.
  destruct (read_id kind space _ Hp) as (H1 & H2 & H3). split_and!; [done..| |].
  - unfold spaceOf. by rewrite Cut_id_text, (Cut_parts _ _ Hp).
  - intros kind' Hk' (space' & path' & Hp' & E)%WellFormedID_parts.
    apply (f_equal (λ s, Cut s separator)) in E. rewrite !Cut_id_text in E by done. by injection E.
Qed.

Lemma idFor_roundtrip_witness :
  idFor IDKindType (go "openapi") (go "/components/schemas/User") = go "t/openapi/components/schemas/User" ∧
  IDSpace IDKindType (go "t/openapi/components/schemas/User") = Some (go "openapi").
Proof.
  split; [vm_compute; reflexivity|].
  assert (H1 : separator ∉ IDKindType) by (apply (proj1 (bool_decide_eq_true _)); vm_compute; reflexivity).
  assert (H2 : separator ∉ go "openapi") by (apply (proj1 (bool_decide_eq_true _)); vm_compute; reflexivity).
  destruct (idFor_roundtrip IDKindType (go "openapi") (go "/components/schemas/User") H1 ltac:(discriminate) H2)
    as (_ & H & _).
  exact H.
Defined.

(** ** Qualified spaces *)

Definition escape (c : ascii) : gostring :=
  if decide (c = "~"%char) then go "~0" else if decide (c = separator) then go "~1" else [c].

Lemma escaped_document_bind document : escaped_document document = document ≫= escape.
Proof.
  unfold escaped_document, ReplaceAll. induction document as [|c d IH]; [done|].
  cbn [mbind list_bind]. rewrite bind_app, IH. f_equal.
  unfold escape. destruct (decide (c = "~"%char)) as [->|]; [by vm_compute|]. simpl.
  destruct (decide (c = separator)); done.
Qed.

Lemma escape_no_separator document : separator ∉ escaped_document document.
Proof.
  rewrite escaped_document_bind, list_elem_of_bind. intros (c & Hin & _). revert Hin. unfold escape.
  destruct (decide _); [by apply (proj1 (bool_decide_eq_true _)); vm_compute|].
  destruct (decide (c = separator)); [by apply (proj1 (bool_decide_eq_true _)); vm_compute|].
  rewrite list_elem_of_singleton. congruence.
Qed.

Lemma escape_inj d d' : d ≫= escape = d' ≫= escape → d = d'.
Proof.
  assert (Hhead : ∀ c, ∃ x r, escape c = x :: r) by (intros c; unfold escape; repeat destruct (decide _); by eexists _, _).
  revert d'. induction d as [|c d IH]; intros [|c' d']; cbn [mbind list_bind]; [done|..].
  - destruct (Hhead c') as (x & r & ->). done.
  - destruct (Hhead c) as (x & r & ->). done.
  - unfold escape at 1 3. destruct (decide (c = "~"%char)) as [->|], (decide (c' = "~"%char)) as [->|]; simpl.
    all: repeat destruct (decide (_ = separator)); subst; simpl; intros E; simplify_eq; try (f_equal; by apply IH).
Qed.

Lemma escaped_no_qualifier_split s s' d d' :
  "@"%char ∉ s → "@"%char ∉ s' → Qualified s d = Qualified s' d' → s = s' ∧ d = d'.
Proof.
  intros Hs Hs' E. apply (f_equal (λ x, Cut x "@")) in E. unfold Qualified, qualifier in E. simpl in E.
  rewrite !Cut_found in E by done. injection E as -> E. split; [done|].
  rewrite !escaped_document_bind in E. by apply escape_inj.
Qed.

(** Qualifying spaces that hold no [@] by documents names each pair once:
    no two pairs qualify alike, no qualified space is one that holds no [@], and
    none holds a separator the space did not. *)
Theorem Qualified_injective s s' document document' :
  "@"%char ∉ s → "@"%char ∉ s' →
  (Qualified s document = Qualified s' document' → s = s' ∧ document = document') ∧
  Qualified s document ≠ s' ∧
  (separator ∉ s → separator ∉ Qualified s document).
Proof.
  intros Hs Hs'. split_and!.
  - by apply escaped_no_qualifier_split.
  - intros <-. apply Hs'. unfold Qualified, qualifier. set_solver.
  - intros Hn. unfold Qualified, qualifier. pose proof (escape_no_separator document).
    simpl. rewrite elem_of_app, elem_of_cons. intros [?|[?|?]]; [done|discriminate|done].
Qed.

Lemma Qualified_injective_witness : Qualified (go "openapi") (go "a/b") = go "openapi@a~1b" ∧
  Qualified (go "openapi") (go "a/b") ≠ Qualified (go "openapi") (go "a~1b").
Proof.
  split; [vm_compute; reflexivity|]. intros E.
  assert (H : "@"%char ∉ go "openapi") by (apply (proj1 (bool_decide_eq_true _)); vm_compute; reflexivity).
  destruct (Qualified_injective (go "openapi") (go "openapi") (go "a/b") (go "a~1b") H H) as [Hq _].
  destruct (Hq E) as [_ E']. discriminate E'.
Defined.
