(* ===== verification/Findings.v ===== *)
(** * Findings: inferred markers, diagnostics and path logs
    ([src/ir/inferred.go], [src/ir/provenance.go], [src/ir/pathlog.go],
    [src/compilers/compile/diags.go])

    The lists a compile accumulates: the heuristics that inferred a fact, the
    diagnostics it reports, and the paths a walk reached values by. *)
From S2P Require Import Prelude GoLib Utf8 Decimal IR.
Implicit Types (l name : gostring) (names : list gostring) (d x : Diagnostic) (ds : list Diagnostic).

(** ** Inferred markers *)

Definition inferredSeparator : ascii := ","%char.

(** [strings.SplitSeq] on a one-byte separator. *)
Fixpoint SplitSeq s (sep : ascii) : list gostring :=
  match s with
  | [] => [[]]
  | c :: r =>
      if decide (c = sep) then [] :: SplitSeq r sep
      else match SplitSeq r sep with part :: parts => (c :: part) :: parts | [] => [[c]] end
  end.

(** The loop's state: the names kept, and the set of them. *)
Definition join_name (kept : list gostring * gset gostring) name : list gostring * gset gostring :=
  let '(names, listed) := kept in
  if bool_decide (name ∈ listed) || is_empty name then (names, listed)
  else (names ++ [name], {[name]} ∪ listed).

Definition JoinInferred (lists : list Inferred) : Inferred :=
  let '(names, _) :=
    foldl (λ kept list, foldl join_name kept (SplitSeq list inferredSeparator)) ([], ∅) lists in
  strings_Join names [inferredSeparator].

Fixpoint names_canonical (listed : gset gostring) names : bool :=
  match names with
  | [] => true
  | name :: rest =>
      if bool_decide (name ∈ listed) || is_empty name then false
      else names_canonical ({[name]} ∪ listed) rest
  end.

Definition IsCanonical l : bool :=
  if is_empty l then true else names_canonical ∅ (SplitSeq l inferredSeparator).

(** ** Provenance and diagnostics *)

#[export] Instance Position_eq_dec : EqDecision Position. Proof. solve_decision. Defined.
#[export] Instance Provenance_eq_dec : EqDecision Provenance. Proof. solve_decision. Defined.
#[export] Instance Diagnostic_eq_dec : EqDecision Diagnostic. Proof. solve_decision. Defined.

Definition NoSource : Z := -1.
Definition InTable (p : Provenance) (n : Z) : bool :=
  (Provenance_Source p =? NoSource)%Z || ((0 <=? Provenance_Source p)%Z && (Provenance_Source p <? n)%Z).

(** The message is coerced to valid UTF-8. *)
Definition NewDiagnostic (sev : Severity) (code message : gostring) (prov : Provenance) : Diagnostic :=
  mkDiagnostic sev code (ToValidUTF8 message (EncodeRune RuneError)) prov.

(** [slices.IndexFunc], as the element found. *)
Definition find_first (f : Diagnostic → bool) ds : option Diagnostic := head (filter (λ x, f x = true) ds).

Definition FirstError ds : option Diagnostic :=
  find_first (λ x, bool_decide (Diagnostic_Severity x = SeverityError)) ds.
Definition HasError ds : bool := bool_decide (is_Some (FirstError ds)).
Definition FirstOutsideTable ds (n : Z) : option Diagnostic :=
  find_first (λ x, negb (InTable (Diagnostic_Provenance x) n)) ds.

Definition MergeDiagnostics (stored produced : list Diagnostic) : list Diagnostic :=
  if bool_decide (produced = []) then stored
  else stored ++ filter (.∉ stored) produced.

(** [compile.Diags]: the list, and the set of what it holds as a predicate the
    code keeps in a map. *)
Record Diags := mkDiags { diags_list : list Diagnostic; diags_emitted : list Diagnostic }.
Definition zeroDiags : Diags := {| diags_list := []; diags_emitted := [] |}.
Definition Diags_Append (s : Diags) x : Diags :=
  if bool_decide (x ∈ diags_emitted s) then s
  else {| diags_list := diags_list s ++ [x]; diags_emitted := x :: diags_emitted s |}.
Definition Diags_AppendAll (s : Diags) (xs : list Diagnostic) : Diags := foldl Diags_Append s xs.
Definition Diags_List (s : Diags) : list Diagnostic := diags_list s.

Definition OverlayFormat := go "overlay".
Definition IsOverlay (s : SourceInfo) : bool :=
  bool_decide (is_Some (CutPrefix (SourceInfo_Format s) (OverlayFormat ++ go "@"))).

Definition EffectiveWireName (p : Property) : gostring :=
  if negb (bool_decide (Property_WireName p = [])) then Property_WireName p else Naming_Source (Property_Name p).

(** ** The schema version *)

Definition IRVersion : gostring := go "0.32.0".
Definition CompatibleVersion (version : gostring) : bool := bool_decide (version = IRVersion).

(** ** Path logs *)

(** One step of a walk's path; [step_owner] is the identity of the struct type. *)
Inductive stepKind := stepField | stepElement | stepMapKey | stepMapValue.
#[export] Instance stepKind_eq_dec : EqDecision stepKind. Proof. solve_decision. Defined.
Record pathStep := { step_kind : stepKind; step_owner : gostring; step_index : Z; step_label : gostring }.
#[export] Instance pathStep_eq_dec : EqDecision pathStep. Proof. solve_decision. Defined.

(** What a [WalkPath] spells: the walk's root and the steps from it. *)
Definition path : Type := gostring * list pathStep.

Record loggedPath := { logged_root : gostring; logged_shared : nat; logged_end : nat }.
Record PathLog := { log_last : list pathStep; log_tails : list pathStep; log_entries : list loggedPath }.
Definition zeroPathLog : PathLog := {| log_last := []; log_tails := []; log_entries := [] |}.

Fixpoint sharedSteps (a b : list pathStep) : nat :=
  match a, b with
  | x :: a, y :: b => if decide (x = y) then S (sharedSteps a b) else 0
  | _, _ => 0
  end.

Definition Record_ (g : PathLog) (at_ : path) : PathLog :=
  let '(root, steps) := at_ in
  let shared := sharedSteps (log_last g) steps in
  let tails := log_tails g ++ drop shared steps in
  {| log_last := take shared (log_last g) ++ drop shared steps;
     log_tails := tails;
     log_entries := log_entries g ++ [{| logged_root := root; logged_shared := shared; logged_end := length tails |}] |}.

Definition Len (g : PathLog) : nat := length (log_entries g).

(** The replay's state: where the next tail starts, the steps, and the paths
    yielded so far. *)
Definition replay_step (tails : list pathStep) (st : nat * list pathStep * list path) (e : loggedPath) :
    nat * list pathStep * list path :=
  let '(start, steps, out) := st in
  let steps := take (logged_shared e) steps ++ take (logged_end e - start) (drop start tails) in
  (logged_end e, steps, out ++ [(logged_root e, steps)]).

Definition replay (tails : list pathStep) (entries : list loggedPath) : nat * list pathStep * list path :=
  foldl (replay_step tails) (0, [], []) entries.

Definition All (g : PathLog) : list path := (replay (log_tails g) (log_entries g)).2.

(** ** Splitting and joining *)

Definition joined names : gostring := strings_Join names [inferredSeparator].

Lemma SplitSeq_not_nil s sep : SplitSeq s sep ≠ [].
Proof. induction s as [|c s IH]; simpl; [done|]. destruct (decide _); [done|]. by destruct (SplitSeq s sep). Qed.

Lemma SplitSeq_part part rest sep :
  sep ∉ part → SplitSeq (part ++ sep :: rest) sep = part :: SplitSeq rest sep.
Proof.
  induction part as [|c part IH]; simpl; intros Hn; [by destruct (decide (sep = sep))|].
  destruct (decide (c = sep)) as [->|]; [set_solver|]. rewrite IH; [done|set_solver].
Qed.

Lemma SplitSeq_last part sep : sep ∉ part → SplitSeq part sep = [part].
Proof.
  induction part as [|c part IH]; simpl; intros Hn; [done|].
  destruct (decide (c = sep)) as [->|]; [set_solver|]. rewrite IH; [done|set_solver].
Qed.

Lemma split_joined names :
  names ≠ [] → Forall (λ name, inferredSeparator ∉ name) names →
  SplitSeq (joined names) inferredSeparator = names.
Proof.
  unfold joined. intros Hne Hn. induction Hn as [|name names Hname Hn IH]; [done|]. clear Hne.
  destruct names as [|name' names]; [by apply SplitSeq_last|].
  change (strings_Join (name :: name' :: names) [inferredSeparator])
    with (name ++ [inferredSeparator] ++ strings_Join (name' :: names) [inferredSeparator]).
  simpl app at 2. rewrite SplitSeq_part by done. f_equal. by apply IH.
Qed.

Lemma joined_split s : joined (SplitSeq s inferredSeparator) = s.
Proof.
  unfold joined. induction s as [|c s IH]; simpl; [done|].
  destruct (SplitSeq s inferredSeparator) as [|p ps] eqn:E; [by apply SplitSeq_not_nil in E|].
  destruct (decide (c = inferredSeparator)) as [->|].
  - change (inferredSeparator :: strings_Join (p :: ps) [inferredSeparator] = inferredSeparator :: s). by rewrite IH.
  - destruct ps; simpl in *; congruence.
Qed.

Lemma SplitSeq_no_separator s sep : Forall (λ part, sep ∉ part) (SplitSeq s sep).
Proof.
  induction s as [|c s IH]; simpl; [constructor; [set_solver|constructor]|].
  destruct (decide (c = sep)); [constructor; [set_solver|done]|].
  destruct (SplitSeq s sep); inversion_clear IH; constructor; set_solver.
Qed.

(** ** The names kept *)

Definition kept_names (kept : list gostring * gset gostring) : Prop :=
  let '(names, listed) := kept in
  NoDup names ∧ (∀ name, name ∈ listed ↔ name ∈ names) ∧
  Forall (λ name, name ≠ [] ∧ inferredSeparator ∉ name) names.

Lemma join_name_kept kept name :
  inferredSeparator ∉ name → kept_names kept → kept_names (join_name kept name).
Proof.
  destruct kept as [names listed]. intros Hsep (Hd & Hl & Hf). unfold join_name.
  destruct (bool_decide_reflect (name ∈ listed)) as [|Hn]; [done|].
  destruct (is_empty name) eqn:He; [done|]. simpl. split_and!.
  - apply NoDup_app. rewrite Hl in Hn. split_and!; [done| |by apply NoDup_singleton]. set_solver.
  - set_solver.
  - apply Forall_app. split; [done|]. constructor; [|done]. split; [by destruct name|done].
Qed.

Lemma join_names_kept names kept :
  Forall (λ name, inferredSeparator ∉ name) names → kept_names kept → kept_names (foldl join_name kept names).
Proof.
  intros Hn. revert kept. induction Hn as [|name names Hname Hn IH]; intros kept Hk; [done|].
  simpl. apply IH. by apply join_name_kept.
Qed.

Lemma join_lists_kept (lists : list Inferred) kept :
  kept_names kept →
  kept_names (foldl (λ kept list, foldl join_name kept (SplitSeq list inferredSeparator)) kept lists).
Proof.
  revert kept. induction lists as [|l lists IH]; intros kept Hk; [done|]. simpl. apply IH.
  apply join_names_kept; [apply SplitSeq_no_separator|done].
Qed.

(** On names that are new, non-empty and distinct, joining keeps them all. *)
Lemma join_fresh names kept listed :
  names_canonical listed names = true → (∀ name, name ∈ listed ↔ name ∈ kept) →
  (foldl join_name (kept, listed) names).1 = kept ++ names.
Proof.
  revert kept listed. induction names as [|name names IH]; intros kept listed; simpl; [by rewrite app_nil_r|].
  destruct (bool_decide_reflect (name ∈ listed)) as [|Hn]; [done|]. destruct (is_empty name); [done|]. simpl.
  intros Hc Hl. rewrite (IH (kept ++ [name])); [by rewrite <- app_assoc|done|set_solver].
Qed.

Lemma names_canonical_kept listed names :
  NoDup names → Forall (λ name, name ≠ [] ∧ name ∉ listed) names → names_canonical listed names = true.
Proof.
  intros Hd. revert listed. induction Hd as [|name names Hn Hd IH]; intros listed Hf; [done|].
  inversion_clear Hf as [|? ? [He Hl] Hf']. simpl. rewrite bool_decide_eq_false_2 by done.
  destruct name; [done|]. simpl. apply IH. rewrite Forall_forall in *. set_solver.
Qed.

Lemma JoinInferred_canonical lists : IsCanonical (JoinInferred lists) = true.
Proof.
  unfold JoinInferred, IsCanonical. pose proof (join_lists_kept lists ([], ∅)) as Hk.
  destruct (foldl _ _ lists) as [names listed]. destruct Hk as (Hd & _ & Hf); [split_and!; [constructor|set_solver|done]|].
  destruct (is_empty (strings_Join names _)) eqn:E; [done|].
  destruct names as [|name names]; [done|]. fold (joined (name :: names)). rewrite split_joined; [|done|].
  - apply names_canonical_kept; [done|]. eapply Forall_impl; [exact Hf|]. set_solver.
  - eapply Forall_impl; [exact Hf|]. by intros ? [_ ?].
Qed.

(** An inferred list is canonical exactly when joining it alone gives it
    back, joining any lists gives a canonical one, and so joining again changes
    nothing. *)
Theorem JoinInferred_fixpoint lists l :
  (IsCanonical l = true ↔ JoinInferred [l] = l) ∧
  IsCanonical (JoinInferred lists) = true ∧
  JoinInferred [JoinInferred lists] = JoinInferred lists.
Proof.
  assert (H : ∀ l, IsCanonical l = true ↔ JoinInferred [l] = l); [|split_and!; [done|apply JoinInferred_canonical|]].
  - intros l'. split; [|intros <-; apply JoinInferred_canonical].
    unfold IsCanonical, JoinInferred. destruct (is_empty l') eqn:E0; [by destruct l'|]. intros Hc. cbn [foldl].
    pose proof (join_fresh _ [] ∅ Hc ltac:(set_solver)) as E. simpl app in E.
    destruct (foldl join_name _ _) as [names listed]. simpl in E. subst names. apply joined_split.
  - apply H, JoinInferred_canonical.
Qed.

(** ** Merging diagnostics *)

Lemma Merge_elem stored produced x : x ∈ MergeDiagnostics stored produced ↔ x ∈ stored ∨ x ∈ produced.
Proof.
  unfold MergeDiagnostics. case_bool_decide as E; [subst; set_solver|].
  rewrite elem_of_app, list_elem_of_filter. destruct (decide (x ∈ stored)); tauto.
Qed.

Lemma Merge_absorbed stored produced :
  (∀ x, x ∈ produced → x ∈ stored) → MergeDiagnostics stored produced = stored.
Proof.
  intros H. unfold MergeDiagnostics. case_bool_decide; [done|].
  replace (filter _ produced) with (@nil Diagnostic); [apply app_nil_r|].
  symmetry. apply filter_none. set_solver.
Qed.

(** Merging loses no diagnostic of either list and repeats none of the
    stored ones, the stored list comes first and untouched, and merging the same
    findings again adds nothing. An error is in the result exactly when it is in
    either list. *)
Theorem MergeDiagnostics_correct stored produced :
  (∃ news, MergeDiagnostics stored produced = stored ++ news ∧ news `sublist_of` produced ∧
    ∀ x, x ∈ news ↔ x ∈ produced ∧ x ∉ stored) ∧
  MergeDiagnostics (MergeDiagnostics stored produced) produced = MergeDiagnostics stored produced ∧
  HasError (MergeDiagnostics stored produced) = HasError stored || HasError produced.
Proof.
  split_and!.
  - unfold MergeDiagnostics. case_bool_decide as E.
    + exists []. subst. rewrite app_nil_r. split_and!; [done..|set_solver].
    + eexists. split_and!; [done|apply sublist_filter|]. intros x. rewrite list_elem_of_filter. tauto.
  - apply Merge_absorbed. intros x Hx. apply Merge_elem. by right.
  - assert (H : ∀ ds, HasError ds = true ↔ ∃ x, x ∈ ds ∧ Diagnostic_Severity x = SeverityError).
    { intros ds. unfold HasError, FirstError, find_first. rewrite bool_decide_eq_true.
      destruct (filter _ ds) as [|y r] eqn:E; simpl.
      - split; [by intros []|]. intros (x & Hx & Hs). exfalso. revert Hx. eapply filter_nil_not_elem_of; [exact E|].
        by apply bool_decide_eq_true.
      - split; [intros _|by eexists]. exists y. assert (Hy : y ∈ filter (λ x, bool_decide (Diagnostic_Severity x = SeverityError) = true) ds)
          by (rewrite E; by left). apply list_elem_of_filter in Hy as [Hy ?]. by apply bool_decide_eq_true in Hy. }
    apply eq_true_iff_eq. rewrite orb_true_iff, !H. setoid_rewrite Merge_elem. naive_solver.
Qed.

(** ** The deduplicating list *)

Definition diags_ok (s : Diags) : Prop :=
  NoDup (diags_list s) ∧ ∀ x, x ∈ diags_emitted s ↔ x ∈ diags_list s.

Lemma Append_ok s x : diags_ok s → diags_ok (Diags_Append s x) ∧
  diags_list (Diags_Append s x) = if decide (x ∈ diags_list s) then diags_list s else diags_list s ++ [x].
Proof.
  intros [Hd He]. unfold Diags_Append. case_bool_decide as Hx; rewrite He in Hx; destruct (decide (x ∈ diags_list s)); try done.
  split; [|done]. split; simpl; [|set_solver].
  apply NoDup_app. split_and!; [done|set_solver|apply NoDup_singleton].
Qed.

(** First occurrences, in order. *)
Fixpoint firsts (seen : list Diagnostic) ds : list Diagnostic :=
  match ds with
  | [] => []
  | x :: rest => if decide (x ∈ seen) then firsts seen rest else x :: firsts (seen ++ [x]) rest
  end.

Lemma AppendAll_firsts s xs :
  diags_ok s → diags_ok (Diags_AppendAll s xs) ∧
  diags_list (Diags_AppendAll s xs) = diags_list s ++ firsts (diags_list s) xs.
Proof.
  revert s. induction xs as [|x xs IH]; intros s Hs; [by rewrite app_nil_r|].
  destruct (Append_ok s x Hs) as [Hs' E]. destruct (IH _ Hs') as [Hok El]. split; [done|].
  change (Diags_AppendAll s (x :: xs)) with (Diags_AppendAll (Diags_Append s x) xs). rewrite El, E. simpl.
  destruct (decide (x ∈ diags_list s)); [done|]. by rewrite <- app_assoc.
Qed.

(** What a compile reports is each diagnostic it was given once, at its
    first place, however the findings were grouped into appends. *)
Theorem Diags_List_firsts (groups : list (list Diagnostic)) :
  let s := foldl Diags_AppendAll zeroDiags groups in
  Diags_List s = firsts [] (mjoin groups) ∧ NoDup (Diags_List s) ∧
  ∀ x, x ∈ Diags_List s ↔ ∃ g, x ∈ g ∧ g ∈ groups.
Proof.
  assert (E : foldl Diags_AppendAll zeroDiags groups = Diags_AppendAll zeroDiags (mjoin groups)).
  { generalize zeroDiags. induction groups as [|g groups IH]; intros s; [done|]. simpl. rewrite IH.
    unfold Diags_AppendAll at 3. simpl. by rewrite foldl_app. }
  cbv zeta. rewrite E. destruct (AppendAll_firsts zeroDiags (mjoin groups)) as [[Hd _] El]; [split; [constructor|set_solver]|].
  simpl in El. unfold Diags_List. split_and!; [done..|].
  rewrite El. intros x. rewrite <- list_elem_of_join.
  enough (H : ∀ seen ds, x ∈ firsts seen ds ∨ x ∈ seen ↔ x ∈ ds ∨ x ∈ seen) by (specialize (H [] (mjoin groups)); set_solver).
  intros seen ds. revert seen. induction ds as [|y ds IH]; intros seen; simpl; [set_solver|].
  destruct (decide (y ∈ seen)); [rewrite IH; set_solver|]. specialize (IH (seen ++ [y])). set_solver.
Qed.

(** ** Replaying a log *)

Lemma sharedSteps_take a b : take (sharedSteps a b) a = take (sharedSteps a b) b.
Proof.
  revert b. induction a as [|x a IH]; intros [|y b]; simpl; [done..|].
  destruct (decide (x = y)) as [->|]; [|done]. simpl. by rewrite IH.
Qed.

Lemma replay_more tails more entries st :
  Forall (λ e, logged_end e ≤ length tails) entries →
  foldl (replay_step (tails ++ more)) st entries = foldl (replay_step tails) st entries.
Proof.
  intros H. revert st. induction H as [|e entries He H IH]; intros st; [done|].
  simpl. rewrite IH. f_equal. destruct st as [[start steps] out]. unfold replay_step.
  destruct (decide (start ≤ length tails)).
  - rewrite drop_app_le, take_app_le by (rewrite ?length_drop; lia). done.
  - replace (logged_end e - start) with 0 by lia. by rewrite !take_0.
Qed.

Record log_holds (g : PathLog) (paths : list path) : Prop := {
  holds_replay : replay (log_tails g) (log_entries g) = (length (log_tails g), log_last g, paths);
  holds_ends : Forall (λ e, logged_end e ≤ length (log_tails g)) (log_entries g)
}.

Lemma Record_holds g paths p : log_holds g paths → log_holds (Record_ g p) (paths ++ [p]).
Proof.
  intros [Hr He]. destruct p as [root steps]. unfold Record_. set (shared := sharedSteps _ _).
  constructor; cbn [log_tails log_entries log_last].
  - unfold replay. rewrite foldl_app, (replay_more (log_tails g) _ (log_entries g)) by exact He. fold (replay (log_tails g) (log_entries g)). rewrite Hr.
    simpl. rewrite drop_app_length, length_app, Nat.add_sub_swap, Nat.sub_diag by lia. simpl. rewrite firstn_all.
    repeat f_equal. unfold shared. by rewrite sharedSteps_take, take_drop.
  - apply Forall_app. split; [|by constructor; simpl].
    eapply Forall_impl; [exact He|]. intros e. simpl. rewrite length_app. lia.
Qed.

Lemma log_kept (paths : list path) : log_holds (foldl Record_ zeroPathLog paths) paths.
Proof. induction paths as [|p paths IH] using rev_ind; [by constructor|]. rewrite foldl_app. by apply Record_holds. Qed.

Lemma All_kept (paths : list path) : All (foldl Record_ zeroPathLog paths) = paths.
Proof. unfold All. by rewrite (holds_replay _ _ (log_kept paths)). Qed.

(** a path log loses nothing of what it shares: replaying it yields every
    path recorded, whole and in order. *)
Theorem PathLog_roundtrip (paths : list path) :
  All (foldl Record_ zeroPathLog paths) = paths ∧ Len (foldl Record_ zeroPathLog paths) = length paths.
Proof.
  split; [apply All_kept|].
  unfold Len. induction paths as [|p paths IH] using rev_ind; [done|]. rewrite foldl_app, length_app. simpl.
  destruct p. simpl. rewrite length_app. simpl. lia.
Qed.
