(* ===== verification/Naming.v ===== *)
(** * Naming: the neutral word grammar
    ([src/ir/naming.go], [src/compilers/compile/naming.go])

    Names are read into words at the code's boundaries and rendered as lowercase
    words joined by underscores. The tables of Go's [unicode] package are the
    class [Unicode]; what the grammar relies on of them is [UnicodeLaws]. *)
From S2P Require Import Prelude GoLib Utf8 Decimal IR.
Implicit Types (name words rest : gostring) (r prev : Z) (rs cur : list Z).

(** ** The Unicode tables *)

Class Unicode := {
  IsLetter : Z → bool; IsDigit : Z → bool; IsMark : Z → bool;
  IsLower : Z → bool; IsUpper : Z → bool; IsTitle : Z → bool;
  ToLower : Z → Z
}.

Definition underscore : Z := 95.

Class UnicodeLaws `{Unicode} : Prop := {
  ToLower_idem r : ToLower (ToLower r) = ToLower r;
  ToLower_letter r : IsLetter (ToLower r) = IsLetter r;
  ToLower_digit r : IsDigit (ToLower r) = IsDigit r;
  ToLower_mark r : IsMark (ToLower r) = IsMark r;
  ToLower_valid r : valid_rune r = true → valid_rune (ToLower r) = true;
  underscore_separates : IsLetter underscore || IsDigit underscore || IsMark underscore = false;
  RuneError_separates : IsLetter RuneError || IsDigit RuneError || IsMark RuneError = false;
  ascii_lowercase r : (97 <= r <= 122)%Z → IsLetter r = true ∧ IsDigit r = false ∧ ToLower r = r
}.

Section Grammar.
Context `{Unicode}.

(** ** Reading a name *)

Definition isWordRune r : bool := IsLetter r || IsDigit r || IsMark r.
Definition carriesCase r : bool := negb (ToLower r =? r)%Z.
Definition isCapital r : bool := IsUpper r || IsTitle r.

Definition acronymTail prev r rest : bool :=
  if negb (isCapital prev) || negb (isCapital r) then false
  else if negb (carriesCase prev) && negb (carriesCase r) then false
  else let '(next, _) := DecodeRuneInString rest in IsLower next.

Definition wordBoundary prev r rest : bool :=
  if carriesCase r && (IsLower prev || IsDigit prev) then true
  else if acronymTail prev r rest then true
  else if (IsLetter prev && IsDigit r) || (IsDigit prev && IsLetter r) then true
  else false.

(** The loop of [sourceWords]; each turn reads at least one byte, so the name's
    length is fuel enough. *)
Fixpoint source_loop (fuel : nat) name (i start : nat) (inWord : bool) prev : list gostring :=
  match fuel with
  | O => []
  | S fuel =>
      if i <? length name then
        let '(r, size) := DecodeRuneInString (drop i name) in
        if negb (isWordRune r) then
          (if inWord then [slice name start i] else []) ++ source_loop fuel name (i + size) start false r
        else if negb inWord then source_loop fuel name (i + size) i true r
        else if wordBoundary prev r (drop (i + size) name) then
          slice name start i :: source_loop fuel name (i + size) i true r
        else source_loop fuel name (i + size) start true r
      else if inWord then [drop start name] else []
  end.

Definition sourceWords name : list gostring := source_loop (S (length name)) name 0 0 false 0.

(** ** Rendering it *)

Fixpoint render (first : bool) (ws : list gostring) : list Z :=
  match ws with
  | [] => []
  | word :: ws => (if first then [] else [underscore]) ++ (ToLower <$> runes word) ++ render false ws
  end.

Definition canonicalRunes name : list Z := render true (sourceWords name).

Fixpoint has_loop rs rest : bool :=
  match rs with
  | [] => is_empty rest
  | r :: rs =>
      let '(got, size) := DecodeRuneInString rest in
      if negb (got =? r)%Z then false else has_loop rs (drop size rest)
  end.

Definition HasCanonicalWords name words : bool := has_loop (canonicalRunes name) words.

Definition encode rs : gostring := rs ≫= EncodeRune.

Definition canonicalWordsExactly name : gostring :=
  if HasCanonicalWords name name then name else encode (canonicalRunes name).

Definition stackRendering : nat := 256.

Definition CanonicalWords name : gostring :=
  if stackRendering / 2 <? length name then canonicalWordsExactly name
  else let words := encode (canonicalRunes name) in if bool_decide (words = name) then name else words.

(** ** Hints ([compile]) *)

Definition emptyNameHint : gostring := go "empty".

Definition neutralHint (hint : gostring) : gostring :=
  let words := CanonicalWords hint in if negb (is_empty words) then words else emptyNameHint.

Definition NamingHint (hint : gostring) : Naming := mkNaming [] [] (neutralHint hint) [].
Definition NamingFor (source : gostring) : Naming :=
  if is_empty source then NamingHint [] else mkNaming source (CanonicalWords source) [] [].

Definition SubHint (parent suffix : gostring) : gostring := neutralHint parent ++ go "_" ++ neutralHint suffix.
Definition SubHints (parent : gostring) (suffixes : list gostring) : gostring :=
  match suffixes with
  | [] => parent
  | _ => neutralHint parent ++ (suffixes ≫= λ s, go "_" ++ neutralHint s)
  end.

(** ** Runes and their encodings *)

Lemma runes_encode rs rest :
  Forall (λ r, valid_rune r = true) rs → runes (encode rs ++ rest) = rs ++ runes rest.
Proof.
  intros Hv. induction Hv as [|r rs Hr Hv IH]; [done|].
  change (encode (r :: rs)) with (EncodeRune r ++ encode rs). rewrite <- app_assoc.
  pose proof (Decode_Encode r (encode rs ++ rest) Hr) as Hd.
  assert (Hne : EncodeRune r ++ encode rs ++ rest ≠ []).
  { unfold EncodeRune. rewrite Hr. by repeat case_match. }
  rewrite (runes_cons _ Hne), Hd. cbn [fst snd app]. by rewrite drop_app_length, IH.
Qed.

Lemma runes_encode_only rs : Forall (λ r, valid_rune r = true) rs → runes (encode rs) = rs.
Proof. intros Hv. pose proof (runes_encode rs [] Hv) as E. by rewrite !app_nil_r in E. Qed.

Lemma has_loop_exact rs rest :
  Forall (λ r, valid_rune r = true ∧ r ≠ RuneError) rs → has_loop rs rest = true ↔ rest = encode rs.
Proof.
  intros Hv. revert rest. induction Hv as [|r rs [Hr Hne] Hv IH]; intros rest; [by destruct rest|].
  cbn [has_loop]. change (encode (r :: rs)) with (EncodeRune r ++ encode rs).
  destruct (DecodeRuneInString rest) as [got size] eqn:Hd. destruct (Z.eqb_spec got r) as [->|Hgot]; cbn [negb].
  - destruct (Decode_valid _ _ _ Hd Hne) as (_ & Hsize & Hrest). rewrite IH. split.
    + intros E. by rewrite Hrest, E at 1.
    + intros ->. by rewrite Hsize, drop_app_length.
  - split; [done|]. intros ->. rewrite Decode_Encode in Hd by done. congruence.
Qed.

(** ** Segmentation of runes *)

Definition boundary_at prev r next : bool :=
  carriesCase r && (IsLower prev || IsDigit prev) ||
  (isCapital prev && isCapital r && (carriesCase prev || carriesCase r) && IsLower next) ||
  (IsLetter prev && IsDigit r) || (IsDigit prev && IsLetter r).

Lemma wordBoundary_at prev r rest : wordBoundary prev r rest = boundary_at prev r (default RuneError (head (runes rest))).
Proof.
  assert (E : (DecodeRuneInString rest).1 = default RuneError (head (runes rest))).
  { destruct rest as [|c rest]; [done|]. by rewrite runes_cons. }
  unfold wordBoundary, acronymTail, boundary_at. rewrite <- E. destruct (DecodeRuneInString rest) as [next size]. simpl.
  destruct (carriesCase r), (IsLower prev), (IsDigit prev), (isCapital prev), (isCapital r), (carriesCase prev),
    (IsLower next), (IsLetter prev), (IsDigit r), (IsLetter r); reflexivity.
Qed.

Definition closing (open : option (list Z * Z)) : list (list Z) :=
  match open with Some (cur, _) => [cur] | None => [] end.

(** [sourceWords] on runes: [open] is the word being read and its last rune. *)
Fixpoint seg (open : option (list Z * Z)) rs : list (list Z) :=
  match rs with
  | [] => closing open
  | r :: rs =>
      if negb (isWordRune r) then closing open ++ seg None rs
      else match open with
           | None => seg (Some ([r], r)) rs
           | Some (cur, prev) =>
               if boundary_at prev r (default RuneError (head rs)) then cur :: seg (Some ([r], r)) rs
               else seg (Some (cur ++ [r], r)) rs
           end
  end.

End Grammar.

Section Laws.
Context `{UnicodeLaws}.

Lemma word_not_error r : isWordRune r = true → r ≠ RuneError.
Proof. intros Hw ->. unfold isWordRune in Hw. by rewrite RuneError_separates in Hw. Qed.

Lemma word_lower r : isWordRune (ToLower r) = isWordRune r.
Proof. unfold isWordRune. by rewrite ToLower_letter, ToLower_digit, ToLower_mark. Qed.

Lemma underscore_no_word : isWordRune underscore = false.
Proof. apply underscore_separates. Qed.

(** ** The code's loop reads what [seg] segments *)

Lemma slice_grow name i start size e :
  start ≤ i → size = length e → drop i name = e ++ drop size (drop i name) →
  slice name start (i + size) = slice name start i ++ e.
Proof.
  intros Hi -> E. unfold slice. replace (i + length e - start) with ((i - start) + length e) by lia.
  rewrite <- (take_take_drop (drop start name) (i - start) (length e)). f_equal.
  rewrite drop_drop. replace (start + (i - start)) with i by lia. rewrite E at 1.
  by rewrite take_app_length.
Qed.

Definition open_at name (i start : nat) (inWord : bool) prev (open : option (list Z * Z)) : Prop :=
  match open with
  | None => inWord = false
  | Some (cur, p) => inWord = true ∧ p = prev ∧ start ≤ i ∧ slice name start i = encode cur ∧
      Forall (λ r, valid_rune r = true) cur
  end.

Lemma encode_snoc rs r : encode (rs ++ [r]) = encode rs ++ EncodeRune r.
Proof. unfold encode. rewrite bind_app. simpl. by rewrite app_nil_r. Qed.

Lemma source_loop_seg fuel name i start inWord prev open :
  open_at name i start inWord prev open → length name < fuel + i → i ≤ length name →
  source_loop fuel name i start inWord prev = encode <$> seg open (runes (drop i name)).
Proof.
  revert i start inWord prev open.
  induction fuel as [|fuel IH]; intros i start inWord prev open Ho Hf Hi; [lia|].
  cbn [source_loop]. destruct (Nat.ltb_spec i (length name)) as [Hlt|Hge].
  - assert (Hne : drop i name ≠ []) by (intros E; apply (f_equal length) in E; rewrite length_drop in E; simpl in E; lia).
    pose proof (DecodeRune_width _ Hne) as Hw. rewrite (runes_cons _ Hne).
    destruct (DecodeRuneInString (drop i name)) as [r size] eqn:Hd. cbn [fst snd seg] in *.
    rewrite length_drop in Hw. rewrite drop_drop. set (rest := drop (i + size) name).
    assert (Hgo : ∀ start' inWord' open', open_at name (i + size) start' inWord' r open' →
      source_loop fuel name (i + size) start' inWord' r = encode <$> seg open' (runes rest)).
    { intros. apply IH; [done|lia..]. }
    destruct (isWordRune r) eqn:Hword; cbn [negb].
    + destruct (Decode_valid _ _ _ Hd (word_not_error r Hword)) as (Hv & Hs & E).
      assert (Hone : open_at name (i + size) i true r (Some ([r], r))).
      { split_and!; [done..|lia| |by constructor]. rewrite (slice_grow _ _ _ _ (EncodeRune r)) by (done || lia).
        unfold slice. rewrite Nat.sub_diag. simpl. by rewrite app_nil_r. }
      destruct open as [[cur p]|]; simpl in Ho; [destruct Ho as (-> & -> & Hst & Hsl & Hcv)|subst inWord]; cbn [negb].
      * rewrite wordBoundary_at. fold rest. destruct (boundary_at prev r _).
        -- cbn [fmap list_fmap]. rewrite Hsl. f_equal. by apply Hgo.
        -- apply Hgo. split_and!; [done..|lia| |by apply Forall_app; split; [|constructor]].
           rewrite (slice_grow _ _ _ _ (EncodeRune r)) by (done || lia). by rewrite Hsl, encode_snoc.
      * by apply Hgo.
    + rewrite fmap_app. f_equal; [|by apply Hgo].
      destruct open as [[cur p]|]; simpl in Ho; [|by subst]. destruct Ho as (-> & _ & _ & Hsl & _). simpl. by rewrite Hsl.
  - replace i with (length name) in * by lia. rewrite drop_all. change (runes []) with (@nil Z). cbn [seg].
    destruct open as [[cur p]|]; simpl in Ho; [|by subst]. destruct Ho as (-> & _ & Hst & Hsl & _). simpl.
    rewrite <- Hsl. unfold slice. rewrite take_ge; [done|]. rewrite length_drop. lia.
Qed.

Lemma sourceWords_seg name : sourceWords name = encode <$> seg None (runes name).
Proof. unfold sourceWords. rewrite (source_loop_seg _ _ _ _ _ _ None); [by rewrite drop_0|done|lia..]. Qed.

(** ** Words *)

Definition crossing prev r : bool := (IsLetter prev && IsDigit r) || (IsDigit prev && IsLetter r).

Fixpoint smooth_from prev rs : Prop :=
  match rs with [] => True | r :: rs => crossing prev r = false ∧ smooth_from r rs end.

(** A word the grammar reads: word runes with no letter-digit boundary inside. *)
Definition word_ok rs : Prop :=
  match rs with
  | [] => False
  | r :: t => Forall (λ r, isWordRune r = true ∧ valid_rune r = true) (r :: t) ∧ smooth_from r t
  end.

Lemma smooth_snoc prev rs r : smooth_from prev (rs ++ [r]) ↔ smooth_from prev rs ∧ crossing (default prev (last rs)) r = false.
Proof.
  revert prev. induction rs as [|x rs IH]; intros prev; [simpl; tauto|].
  cbn [app smooth_from]. rewrite IH, last_cons. destruct (last rs); simpl; tauto.
Qed.

Lemma word_ok_snoc rs prev r :
  word_ok rs → last rs = Some prev → crossing prev r = false → isWordRune r = true → valid_rune r = true →
  word_ok (rs ++ [r]).
Proof.
  destruct rs as [|x t]; [done|]. intros [Hf Hs] Hl Hc Hw Hv. simpl. split.
  - change (x :: t ++ [r]) with ((x :: t) ++ [r]). apply Forall_app. split; [done|by constructor].
  - apply smooth_snoc. split; [done|]. rewrite last_cons in Hl. destruct (last t); simpl; congruence.
Qed.

Lemma boundary_crossing prev r next : boundary_at prev r next = false → crossing prev r = false.
Proof. unfold boundary_at, crossing. destruct (_ && _), (_ && _), (IsLetter prev && IsDigit r); done. Qed.

Definition open_ok (open : option (list Z * Z)) : Prop :=
  match open with Some (cur, prev) => word_ok cur ∧ last cur = Some prev | None => True end.

(** A rune read from a string is valid. *)
Lemma runes_valid name : Forall (λ r, valid_rune r = true) (runes name).
Proof.
  remember (length name) as n eqn:Hn. revert name Hn.
  induction (lt_wf n) as [n _ IH]. intros name ->. destruct (decide (name = [])) as [->|Hne]; [constructor|].
  rewrite (runes_cons _ Hne). pose proof (DecodeRune_width _ Hne) as Hw.
  destruct (DecodeRuneInString name) as [r size] eqn:Hd. cbn [fst snd] in *. constructor.
  - destruct (decide (r = RuneError)) as [->|Hr]; [done|]. by destruct (Decode_valid _ _ _ Hd Hr).
  - eapply IH; [|done]. rewrite length_drop. lia.
Qed.

Lemma seg_words open rs :
  open_ok open → Forall (λ r, valid_rune r = true) rs → Forall word_ok (seg open rs).
Proof.
  intros Ho Hv. revert open Ho. induction Hv as [|r rs Hr Hv IH]; intros open Ho.
  { destruct open as [[cur p]|]; simpl; [|constructor]. by constructor; [apply Ho|]. }
  cbn [seg]. destruct (isWordRune r) eqn:Hw; cbn [negb].
  - assert (Hone : open_ok (Some ([r], r))) by (split; [split; [by constructor|done]|done]).
    destruct open as [[cur p]|]; [|by apply IH]. destruct Ho as [Hcur Hlast].
    destruct (boundary_at p r _) eqn:Hb; [constructor; [done|by apply IH]|].
    apply IH. split; [|by rewrite last_snoc]. apply (word_ok_snoc _ p); [done..|by eapply boundary_crossing|done|done].
  - apply Forall_app. split; [|by apply IH]. destruct open as [[cur p]|]; [|constructor]. by constructor; [apply Ho|].
Qed.

Lemma word_ok_valid w : word_ok w → Forall (λ r, valid_rune r = true) w.
Proof. destruct w as [|r t]; [done|]. intros [Hf _]. eapply Forall_impl; [exact Hf|]. by intros ? [_ ?]. Qed.

Lemma word_ok_lower w : word_ok w → word_ok (ToLower <$> w).
Proof.
  destruct w as [|r t]; [done|]. intros [Hf Hs]. split.
  - change (ToLower r :: list_fmap _ _ ToLower t) with (ToLower <$> (r :: t)). apply Forall_fmap.
    eapply Forall_impl; [exact Hf|]. intros x [Hw Hv]. simpl. by rewrite word_lower, ToLower_valid.
  - clear Hf. revert r Hs. induction t as [|x t IH]; intros r; simpl; [done|]. intros [Hc Hs]. split; [|by apply IH].
    unfold crossing in *. by rewrite !ToLower_letter, !ToLower_digit.
Qed.

(** ** The canonical form *)

(** A lowercase word. *)
Definition low rs : Prop := word_ok rs ∧ ToLower <$> rs = rs.

Fixpoint interleave (first : bool) (ws : list (list Z)) : list Z :=
  match ws with [] => [] | w :: ws => (if first then [] else [underscore]) ++ w ++ interleave false ws end.

Definition lowered (ws : list (list Z)) : list (list Z) := (λ w : list Z, ToLower <$> w) <$> ws.

Lemma render_encode first (ws : list (list Z)) :
  Forall word_ok ws → render first (encode <$> ws) = interleave first (lowered ws).
Proof.
  intros Hw. revert first. induction Hw as [|w ws Hw1 Hw IH]; intros first; [done|].
  cbn [lowered fmap list_fmap render interleave]. rewrite runes_encode_only by by apply word_ok_valid. f_equal. f_equal. apply IH.
Qed.

Definition canonical_words name : list (list Z) := lowered (seg None (runes name)).

Lemma canonical_words_low name : Forall low (canonical_words name).
Proof.
  unfold canonical_words, lowered. apply Forall_fmap. eapply Forall_impl; [apply seg_words; [done|apply runes_valid]|].
  intros w Hw. split; [by apply word_ok_lower|]. rewrite <- list_fmap_compose. apply list_fmap_ext. intros ???. apply ToLower_idem.
Qed.

Lemma canonicalRunes_words name : canonicalRunes name = interleave true (canonical_words name).
Proof.
  unfold canonicalRunes. rewrite sourceWords_seg. apply render_encode. apply seg_words; [done|apply runes_valid].
Qed.

Lemma interleave_ok (P : Z → Prop) first ws :
  P underscore → Forall (Forall P) ws → Forall P (interleave first ws).
Proof.
  intros Hu Hw. revert first. induction Hw as [|w ws Hw1 Hw IH]; intros first; [constructor|].
  simpl. apply Forall_app. split; [by destruct first; constructor|]. by apply Forall_app.
Qed.

Lemma underscore_ok : valid_rune underscore = true ∧ underscore ≠ RuneError.
Proof. done. Qed.

Lemma low_runes w : low w → Forall (λ r, valid_rune r = true ∧ r ≠ RuneError) w.
Proof.
  intros [Hw _]. destruct w as [|r t]; [done|]. destruct Hw as [Hf _]. eapply Forall_impl; [exact Hf|].
  intros x [Hx Hv]. split; [done|]. by apply word_not_error.
Qed.

Lemma interleave_runes first ws :
  Forall low ws → Forall (λ r, valid_rune r = true ∧ r ≠ RuneError) (interleave first ws).
Proof.
  intros Hl. apply interleave_ok; [apply underscore_ok|]. eapply Forall_impl; [exact Hl|]. apply low_runes.
Qed.

Lemma interleave_valid first ws : Forall low ws → Forall (λ r, valid_rune r = true) (interleave first ws).
Proof. intros Hl. eapply Forall_impl; [by apply interleave_runes|]. by intros ? [? _]. Qed.

Lemma CanonicalWords_encode name : CanonicalWords name = encode (canonicalRunes name).
Proof.
  unfold CanonicalWords, canonicalWordsExactly, HasCanonicalWords. destruct (_ <? _).
  - destruct (has_loop (canonicalRunes name) name) eqn:E; [|done]. apply has_loop_exact in E; [done|].
    rewrite canonicalRunes_words. apply interleave_runes, canonical_words_low.
  - by case_bool_decide.
Qed.

Lemma CanonicalWords_text name : CanonicalWords name = encode (interleave true (canonical_words name)).
Proof. by rewrite CanonicalWords_encode, canonicalRunes_words. Qed.

(** ** The form is its own segmentation *)

Lemma low_no_boundary prev r next : ToLower prev = prev → ToLower r = r → boundary_at prev r next = crossing prev r.
Proof.
  intros Hp Hr. unfold boundary_at, crossing, carriesCase. rewrite Hp, Hr, !Z.eqb_refl. simpl.
  by rewrite andb_false_r.
Qed.

Lemma seg_low_tail cur prev t rs :
  ToLower prev = prev → Forall (λ r, isWordRune r = true) t → ToLower <$> t = t → smooth_from prev t →
  ∃ prev', seg (Some (cur, prev)) (t ++ rs) = seg (Some (cur ++ t, prev')) rs.
Proof.
  revert cur prev. induction t as [|r t IH]; intros cur prev Hp Hw Ht Hs; [exists prev; by rewrite app_nil_r|].
  apply Forall_cons in Hw as [Hr Hw]. injection Ht as Hr' Ht. destruct Hs as [Hc Hs].
  destruct (IH (cur ++ [r]) r Hr' Hw Ht Hs) as [prev' E]. exists prev'.
  cbn [app seg]. rewrite Hr. cbn [negb]. rewrite low_no_boundary, Hc by done. by rewrite E, <- app_assoc.
Qed.

Lemma seg_low w rs : low w → ∃ prev', seg None (w ++ rs) = seg (Some (w, prev')) rs.
Proof.
  destruct w as [|r t]; intros [Hw Hl]; [done|]. destruct Hw as [Hf Hs]. apply Forall_cons in Hf as [[Hr _] Hf].
  injection Hl as Hr' Ht. cbn [app seg]. rewrite Hr. cbn [negb].
  apply (seg_low_tail [r] r t rs); [done| |done..]. eapply Forall_impl; [exact Hf|]. by intros ? [? _].
Qed.

Lemma seg_interleave ws : Forall low ws → seg None (interleave true ws) = ws.
Proof.
  intros Hl. destruct Hl as [|w ws Hw Hl]; [done|]. simpl. revert w Hw.
  induction Hl as [|w' ws Hw' Hl IH]; intros w Hw; simpl.
  - destruct (seg_low w [] Hw) as [p ->]. done.
  - destruct (seg_low w (underscore :: w' ++ interleave false ws) Hw) as [p ->].
    cbn [seg]. rewrite underscore_no_word. cbn [negb closing app]. f_equal. by apply IH.
Qed.

Lemma low_words_fixed ws :
  Forall low ws → CanonicalWords (encode (interleave true ws)) = encode (interleave true ws).
Proof.
  intros Hl. rewrite CanonicalWords_text. unfold canonical_words.
  rewrite runes_encode_only by by apply interleave_valid. rewrite seg_interleave by done.
  do 2 f_equal. clear -Hl. induction Hl as [|w ws [_ Hw] Hl IH]; [done|].
  change (lowered (w :: ws)) with ((ToLower <$> w) :: lowered ws). by rewrite Hw, IH.
Qed.

(** the grammar is a fixed point: a canonical name canonicalizes to itself,
    whichever of the two renderings a name's length chooses. *)
Theorem CanonicalWords_fixpoint name :
  CanonicalWords (CanonicalWords name) = CanonicalWords name ∧
  CanonicalWords name = canonicalWordsExactly name.
Proof.
  split.
  - rewrite (CanonicalWords_text name). apply low_words_fixed, canonical_words_low.
  - rewrite CanonicalWords_encode. unfold canonicalWordsExactly, HasCanonicalWords.
    destruct (has_loop _ name) eqn:E; [|done]. symmetry. apply has_loop_exact in E; [done|].
    rewrite canonicalRunes_words. apply interleave_runes, canonical_words_low.
Qed.

(** the comparison that builds nothing answers exactly whether a text is
    the canonical form of a name. *)
Theorem HasCanonicalWords_exact name words :
  HasCanonicalWords name words = true ↔ words = CanonicalWords name.
Proof.
  rewrite CanonicalWords_encode. apply has_loop_exact. rewrite canonicalRunes_words.
  apply interleave_runes, canonical_words_low.
Qed.

(** ** Hints *)

Definition neutral (t : gostring) : Prop := ∃ ws, ws ≠ [] ∧ Forall low ws ∧ t = encode (interleave true ws).

Lemma interleave_app ws ws' :
  ws ≠ [] → ws' ≠ [] → interleave true (ws ++ ws') = interleave true ws ++ underscore :: interleave true ws'.
Proof.
  intros Hne Hne'. destruct ws as [|w ws]; [done|]. simpl. rewrite <- app_assoc. f_equal. clear Hne.
  induction ws as [|x ws IH]; simpl; [by destruct ws'|]. by rewrite IH, app_assoc.
Qed.

Lemma neutral_join t t' : neutral t → neutral t' → neutral (t ++ go "_" ++ t').
Proof.
  intros (ws & Hne & Hl & ->) (ws' & Hne' & Hl' & ->). exists (ws ++ ws').
  split_and!; [by destruct ws|by apply Forall_app|]. rewrite interleave_app by done.
  unfold encode. by rewrite bind_app.
Qed.

Lemma empty_low : low [101; 109; 112; 116; 121]%Z.
Proof.
  assert (Ha : ∀ r, (97 <= r <= 122)%Z → isWordRune r = true ∧ IsDigit r = false ∧ ToLower r = r).
  { intros r Hr. destruct (ascii_lowercase r Hr) as (Hl & Hd & Ht). split_and!; [|done..].
    unfold isWordRune. by rewrite Hl. }
  assert (Hc : ∀ r r', (97 <= r <= 122)%Z → (97 <= r' <= 122)%Z → crossing r r' = false).
  { intros r r' Hr Hr'. unfold crossing. destruct (Ha r Hr) as (_ & -> & _), (Ha r' Hr') as (_ & -> & _).
    by rewrite andb_false_r. }
  split.
  - split; [repeat (constructor; [split; [apply Ha; lia|done]|]); constructor|].
    repeat (split; [apply Hc; lia|]). done.
  - simpl. by rewrite !(fun r Hr => proj2 (proj2 (Ha r Hr))) by lia.
Qed.

Lemma interleave_nil ws : Forall low ws → encode (interleave true ws) = [] → ws = [].
Proof.
  intros Hl. destruct Hl as [|w ws [Hw _] Hl]; [done|]. destruct w as [|r t]; [done|].
  simpl. unfold EncodeRune. by repeat case_match.
Qed.

Lemma neutralHint_neutral (hint : gostring) : neutral (neutralHint hint).
Proof.
  unfold neutralHint. rewrite CanonicalWords_text. pose proof (canonical_words_low hint) as Hl.
  destruct (is_empty _) eqn:E; cbn [negb].
  - exists [[101; 109; 112; 116; 121]%Z]. split_and!; [done|by constructor; [apply empty_low|]|reflexivity].
  - exists (canonical_words hint). split_and!; [|done..]. intros Hn. by rewrite Hn in E.
Qed.

Lemma neutral_fixed t : neutral t → neutralHint t = t.
Proof.
  intros (ws & Hne & Hl & ->). unfold neutralHint. rewrite low_words_fixed by done.
  destruct (is_empty _) eqn:E; [|done]. exfalso. apply Hne. apply interleave_nil; [done|]. by destruct (encode _).
Qed.

Lemma neutral_chain (parent : gostring) (suffixes : list gostring) :
  neutral (neutralHint parent ++ (suffixes ≫= λ s, go "_" ++ neutralHint s)).
Proof.
  induction suffixes as [|s suffixes IH] using rev_ind; [simpl; rewrite app_nil_r; apply neutralHint_neutral|].
  rewrite bind_app, app_assoc. cbn [mbind list_bind]. rewrite app_nil_r. apply neutral_join; [done|apply neutralHint_neutral].
Qed.

(** Composing a chain of hints at once is composing them one by one, and
    every composed hint is neutral already, so it can parent the next. *)
Theorem SubHints_fold (parent : gostring) (suffixes : list gostring) :
  SubHints parent suffixes = foldl SubHint parent suffixes ∧
  (suffixes ≠ [] → neutralHint (SubHints parent suffixes) = SubHints parent suffixes).
Proof.
  assert (E : ∀ s ss, SubHints parent (s :: ss) = foldl SubHint parent (s :: ss)).
  { intros s ss. induction ss as [|x ss IH] using rev_ind.
    - simpl. unfold SubHint. by rewrite app_nil_r.
    - change (s :: ss ++ [x]) with ((s :: ss) ++ [x]). rewrite foldl_app, <- IH.
      change (SubHints parent ((s :: ss) ++ [x]) = neutralHint (SubHints parent (s :: ss)) ++ go "_" ++ neutralHint x).
      rewrite (neutral_fixed (SubHints parent (s :: ss))) by apply (neutral_chain parent (s :: ss)).
      change (SubHints parent ((s :: ss) ++ [x])) with (neutralHint parent ++ (((s :: ss) ++ [x]) ≫= λ s, go "_" ++ neutralHint s)).
      rewrite bind_app, app_assoc. f_equal. apply app_nil_r. }
  destruct suffixes as [|s ss]; [done|]. split; [apply E|]. intros _. apply neutral_fixed, (neutral_chain parent (s :: ss)).
Qed.

End Laws.

(** ** The ASCII part of the tables *)

Definition between (lo hi r : Z) : bool := ((lo <=? r) && (r <=? hi))%Z.

#[export] Instance ascii_unicode : Unicode := {
  IsLetter r := between 65 90 r || between 97 122 r; IsDigit r := between 48 57 r; IsMark _ := false;
  IsLower r := between 97 122 r; IsUpper r := between 65 90 r; IsTitle _ := false;
  ToLower r := if between 65 90 r then (r + 32)%Z else r
}.

#[export] Instance ascii_unicode_laws : UnicodeLaws.
Proof.
  constructor; unfold IsLetter, IsDigit, IsMark, ToLower, ascii_unicode, between, valid_rune, underscore, RuneError;
    intros; repeat case_match; try done; lia.
Qed.

Lemma CanonicalWords_fixpoint_witness :
  CanonicalWords (go "getHTTPServer2") = go "get_http_server_2" ∧
  CanonicalWords (CanonicalWords (go "getHTTPServer2")) = CanonicalWords (go "getHTTPServer2").
Proof. split; [vm_compute; reflexivity|]. apply (CanonicalWords_fixpoint (go "getHTTPServer2")). Defined.

Lemma HasCanonicalWords_exact_witness : HasCanonicalWords (go "user ID") (go "user_id") = true.
Proof. apply (proj2 (HasCanonicalWords_exact (go "user ID") (go "user_id"))). vm_compute. reflexivity. Defined.

Lemma SubHints_fold_witness :
  SubHints (go "User") [go "***"; go "item"] = go "user_empty_item" ∧
  SubHints (go "User") [go "***"; go "item"] = SubHint (SubHint (go "User") (go "***")) (go "item").
Proof. split; [vm_compute; reflexivity|]. apply (SubHints_fold (go "User") [go "***"; go "item"]). Defined.
