(* ===== verification/Search.v ===== *)
(** * Search: the budgeted graph walk the composition questions share
    ([src/ir/composition.go])

    [IsSubtype] and [ExposedProps] run one loop: pop a type, spend a step, skip
    it if it was seen, otherwise expand it and push what it leads to. The loop
    is given here once, with what expanding does as a parameter; its results are
    stated against reachability along the parameter's successors. *)
From S2P Require Import Prelude GoLib IR.

(** [take]: spends a step of [budget], or reports that none is budget. *)
Definition take_step (budget : Z) : option Z := if (budget <=? 0)%Z then None else Some (budget - 1)%Z.

(** What expanding a type did: it ended the walk, ran out of steps, or led to
    more types, in the order they are pushed. *)
Inductive expansion := Stop | Short | More (next : list TypeID).
Inductive outcome := Stopped | Exhausted | Emptied.
#[export] Instance outcome_eq_dec : EqDecision outcome. Proof. solve_decision. Defined.

Section Search.
Context {St : Type} (expand : TypeID → St → Z → expansion * St * Z).
Implicit Types (id x y : TypeID) (seen : gset TypeID) (queue : list TypeID) (st : St) (budget k : Z).

(** The top of the queue is its head: the code pops the slice's last element and
    appends, so what is appended last is popped first. *)
Fixpoint search (fuel : nat) seen queue st budget : option (outcome * St * Z) :=
  match fuel with
  | O => None
  | S fuel =>
      match queue with
      | [] => Some (Emptied, st, budget)
      | id :: queue =>
          match take_step budget with
          | None => Some (Exhausted, st, budget)
          | Some budget =>
              if bool_decide (id ∈ seen) then search fuel seen queue st budget
              else match expand id st budget with
                   | (Stop, st, budget) => Some (Stopped, st, budget)
                   | (Short, st, budget) => Some (Exhausted, st, budget)
                   | (More next, st, budget) => search fuel ({[id]} ∪ seen) (reverse next ++ queue) st budget
                   end
          end
      end
  end.

(** ** What expanding is held to *)

Context (succ : TypeID → list TypeID) (hit : TypeID → Prop) (cost : TypeID → Z) (nodes : gset TypeID)
        (P : gset TypeID → St → Prop) (P_stop : St → Prop).

Class LawfulExpand : Prop := {
  expand_more id seen st budget next st' budget' :
    id ∉ seen → P seen st → expand id st budget = (More next, st', budget') →
    next = succ id ∧ ¬ hit id ∧ P ({[id]} ∪ seen) st';
  expand_stop id seen st budget st' budget' :
    P seen st → expand id st budget = (Stop, st', budget') → hit id ∧ P_stop st';
  expand_spends id st budget e st' budget' :
    expand id st budget = (e, st', budget') → (0 <= budget → 0 <= budget' <= budget ∧ budget <= budget' + cost id)%Z;
  expand_short id st budget st' budget' :
    expand id st budget = (Short, st', budget') → (budget < cost id)%Z;
  expand_more_budget id st budget e st' budget' k :
    (0 <= k)%Z → e ≠ Short → expand id st budget = (e, st', budget') →
    expand id st (budget + k) = (e, st', budget' + k)%Z;
  succ_nodes id : id ∉ nodes → succ id = [] ∧ cost id = 0%Z;
  cost_nonneg id : (0 <= cost id)%Z
}.

Definition leads x y : Prop := y ∈ succ x.

(** ** The measure *)

(** What the nodes not seen yet can still push, and can still cost. *)
Definition pushes seen : nat := sum_list_with (λ x, length (succ x)) (elements (nodes ∖ seen)).
Definition sum_Z (f : TypeID → Z) (l : list TypeID) : Z := foldr (λ x total, (f x + total)%Z) 0%Z l.
Definition costs seen : Z := sum_Z (λ x, (cost x + Z.of_nat (length (succ x)))%Z) (elements (nodes ∖ seen)).

Definition walk_fuel : nat := 2 + pushes ∅.
Definition walk_cost : Z := (1 + costs ∅)%Z.

Context {Hlawful : LawfulExpand}.

Lemma sum_Z_permutation (f : TypeID → Z) l l' : l ≡ₚ l' → sum_Z f l = sum_Z f l'.
Proof. induction 1; simpl; lia. Qed.

Lemma sum_Z_nonneg (f : TypeID → Z) l : (∀ x, 0 <= f x)%Z → (0 <= sum_Z f l)%Z.
Proof. intros Hf. induction l as [|x l IH]; simpl; [lia|]. specialize (Hf x). lia. Qed.

Lemma fresh_elements id seen :
  id ∈ nodes → id ∉ seen → elements (nodes ∖ seen) ≡ₚ id :: elements (nodes ∖ ({[id]} ∪ seen)).
Proof.
  intros Hn Hs. rewrite <- elements_union_singleton by set_solver.
  replace (nodes ∖ seen) with ({[id]} ∪ nodes ∖ ({[id]} ∪ seen)); [done|].
  apply leibniz_equiv. intros x. destruct (decide (x = id)); set_solver.
Qed.

Lemma stale_elements id seen : id ∉ nodes → elements (nodes ∖ ({[id]} ∪ seen)) = elements (nodes ∖ seen).
Proof. intros Hn. f_equal. set_solver. Qed.

Lemma pushes_fresh id seen : id ∉ seen → length (succ id) + pushes ({[id]} ∪ seen) = pushes seen.
Proof.
  intros Hs. unfold pushes. destruct (decide (id ∈ nodes)) as [Hn|Hn].
  - by rewrite (sum_list_with_Permutation_proper _ _ _ (fresh_elements id seen Hn Hs)).
  - by rewrite (proj1 (succ_nodes id Hn)), stale_elements.
Qed.

Lemma costs_fresh id seen :
  id ∉ seen → (cost id + Z.of_nat (length (succ id)) + costs ({[id]} ∪ seen) = costs seen)%Z.
Proof.
  intros Hs. unfold costs. destruct (decide (id ∈ nodes)) as [Hn|Hn].
  - by rewrite (sum_Z_permutation _ _ _ (fresh_elements id seen Hn Hs)).
  - destruct (succ_nodes id Hn) as [-> ->]. by rewrite stale_elements.
Qed.

Lemma costs_nonneg seen : (0 <= costs seen)%Z.
Proof. apply sum_Z_nonneg. intros x. pose proof (cost_nonneg x). lia. Qed.

(** ** The walk *)

Record walking root seen queue st : Prop := {
  walking_reach x : x ∈ seen ∨ x ∈ queue → rtc leads root x;
  walking_closed x y : x ∈ seen → leads x y → y ∈ seen ∨ y ∈ queue;
  walking_root : root ∈ seen ∨ root ∈ queue;
  walking_miss x : x ∈ seen → ¬ hit x;
  walking_state : P seen st
}.

Lemma walking_pop root id seen queue st : id ∈ seen → walking root seen (id :: queue) st → walking root seen queue st.
Proof. intros Hid []. constructor; [set_solver..|done|done]. Qed.

Lemma walking_push root id seen queue st st' :
  walking root seen (id :: queue) st → ¬ hit id → P ({[id]} ∪ seen) st' →
  walking root ({[id]} ∪ seen) (reverse (succ id) ++ queue) st'.
Proof.
  intros [Hr Hc Hroot Hm _] Hh HP.
  assert (Hid : rtc leads root id) by (apply Hr; right; by left).
  constructor; [| | | |done].
  - intros x. rewrite elem_of_app, elem_of_reverse. intros [Hx|[Hx|Hx]].
    + apply elem_of_union in Hx as [->%elem_of_singleton|Hx]; [done|]. apply Hr. by left.
    + eapply rtc_r; [exact Hid|exact Hx].
    + apply Hr. right. by right.
  - intros x y Hx Hxy. rewrite elem_of_app, elem_of_reverse. apply elem_of_union in Hx as [->%elem_of_singleton|Hx].
    + right. by left.
    + destruct (Hc x y Hx Hxy) as [?|Hy]; [set_solver|]. apply elem_of_cons in Hy as [->|?]; set_solver.
  - rewrite elem_of_app. destruct Hroot as [?|Hy]; [set_solver|]. apply elem_of_cons in Hy as [->|?]; set_solver.
  - intros x Hx. apply elem_of_union in Hx as [->%elem_of_singleton|Hx]; [done|by apply Hm].
Qed.

Lemma walking_done root seen st x : walking root seen [] st → (x ∈ seen ↔ rtc leads root x).
Proof.
  intros [Hr Hc Hroot _ _]. split; [intros; apply Hr; by left|].
  assert (Hin : root ∈ seen) by set_solver. clear Hroot Hr.
  intros H. induction H as [|x y z Hxy _ IH]; [done|]. apply IH. destruct (Hc x y Hin Hxy); set_solver.
Qed.

Definition found root (r : outcome * St * Z) : Prop :=
  match r with
  | (Emptied, st, _) => (∀ x, rtc leads root x → ¬ hit x) ∧ ∃ seen, (∀ x, x ∈ seen ↔ rtc leads root x) ∧ P seen st
  | (Stopped, st, _) => P_stop st ∧ ∃ x, rtc leads root x ∧ hit x
  | (Exhausted, _, _) => True
  end.

Lemma search_found fuel root seen queue st budget r :
  walking root seen queue st → search fuel seen queue st budget = Some r → found root r.
Proof.
  revert seen queue st budget. induction fuel as [|fuel IH]; intros seen queue st budget Hw; [done|]. cbn [search].
  destruct queue as [|id queue].
  { intros [= <-]. split; [|exists seen; split; [intros x; by eapply walking_done|apply Hw]].
    intros x Hx. apply (walking_miss _ _ _ _ Hw). by eapply walking_done. }
  destruct (take_step budget) as [b|]; [|by intros [= <-]].
  case_bool_decide as Hid; [apply IH; by eapply walking_pop|].
  destruct (expand id st b) as [[[| |next] st'] b'] eqn:He; [|by intros [= <-]|].
  - intros [= <-]. destruct (expand_stop id seen st b st' b' (walking_state _ _ _ _ Hw) He) as [Hh Hs].
    split; [done|]. exists id. split; [apply (walking_reach _ _ _ _ Hw); right; by left|done].
  - destruct (expand_more id seen st b next st' b' Hid (walking_state _ _ _ _ Hw) He) as (-> & Hh & HP).
    apply IH. by apply walking_push with st.
Qed.

Lemma take_step_Some budget b : take_step budget = Some b → (0 < budget)%Z ∧ b = (budget - 1)%Z.
Proof. unfold take_step. case_match; [done|]. intros [= <-]. lia. Qed.
Lemma take_step_None budget : take_step budget = None → (budget <= 0)%Z.
Proof. unfold take_step. case_match; [|done]. lia. Qed.

(** Enough fuel: the walk returns. *)
Lemma search_returns fuel seen queue st budget :
  P seen st → length queue + pushes seen < fuel → is_Some (search fuel seen queue st budget).
Proof.
  revert seen queue st budget. induction fuel as [|fuel IH]; intros seen queue st budget HP Hf; [lia|]. cbn [search].
  destruct queue as [|id queue]; [done|]. destruct (take_step budget) as [b|]; [|done]. simpl in Hf.
  case_bool_decide as Hid; [apply IH; [done|lia]|].
  destruct (expand id st b) as [[[| |next] st'] b'] eqn:He; [done..|].
  destruct (expand_more id seen st b next st' b' Hid HP He) as (-> & _ & HP').
  apply IH; [done|]. rewrite length_app, length_reverse. pose proof (pushes_fresh id seen Hid). lia.
Qed.

(** Enough budget: it does not run out. *)
Lemma search_affords fuel seen queue st budget r :
  P seen st → (Z.of_nat (length queue) + costs seen <= budget)%Z → search fuel seen queue st budget = Some r → r.1.1 ≠ Exhausted.
Proof.
  revert seen queue st budget. induction fuel as [|fuel IH]; intros seen queue st budget HP Hf; [done|]. cbn [search].
  destruct queue as [|id queue]; [by intros [= <-]|]. pose proof (costs_nonneg seen) as Hn. simpl in Hf.
  destruct (take_step budget) as [b|] eqn:Hb; [apply take_step_Some in Hb as [_ ->]|apply take_step_None in Hb; lia].
  case_bool_decide as Hid; [apply IH; [done|lia]|].
  pose proof (costs_fresh id seen Hid) as Hc. pose proof (costs_nonneg ({[id]} ∪ seen)) as Hn'.
  destruct (expand id st (budget - 1)%Z) as [[[| |next] st'] b'] eqn:He; [by intros [= <-]| |].
  - apply expand_short in He. lia.
  - destruct (expand_more id seen st _ next st' b' Hid HP He) as (-> & _ & HP').
    apply expand_spends in He; [|lia]. apply IH; [done|]. rewrite length_app, length_reverse. lia.
Qed.

(** A walk that did not run out takes the same steps under any larger budget. *)
Lemma search_monotone fuel seen queue st budget o st' budget' k :
  (0 <= k)%Z → o ≠ Exhausted → search fuel seen queue st budget = Some (o, st', budget') →
  search fuel seen queue st (budget + k) = Some (o, st', (budget' + k)%Z).
Proof.
  intros Hk Ho. revert seen queue st budget. induction fuel as [|fuel IH]; intros seen queue st budget; [done|]. cbn [search].
  destruct queue as [|id queue]; [by intros [= <- <- <-]|].
  destruct (take_step budget) as [b|] eqn:Hb; [|intros [= <- <- <-]; done]. apply take_step_Some in Hb as [Hpos ->].
  unfold take_step at 1. rewrite (proj2 (Z.leb_gt _ _)) by lia. replace (budget + k - 1)%Z with (budget - 1 + k)%Z by lia.
  case_bool_decide; [apply IH|].
  destruct (expand id st (budget - 1)%Z) as [[[| |next] st1] b1] eqn:He.
  - rewrite (expand_more_budget id st _ Stop _ _ k Hk ltac:(done) He). by intros [= <- <- <-].
  - intros [= <- <- <-]. done.
  - rewrite (expand_more_budget id st _ (More next) _ _ k Hk ltac:(done) He). apply IH.
Qed.

Lemma search_spends fuel seen queue st budget o st' budget' :
  (0 <= budget)%Z → search fuel seen queue st budget = Some (o, st', budget') → (0 <= budget' <= budget)%Z.
Proof.
  revert seen queue st budget. induction fuel as [|fuel IH]; intros seen queue st budget Hpos; [done|]. cbn [search].
  destruct queue as [|id queue]; [intros [= <- <- <-]; lia|].
  destruct (take_step budget) as [b|] eqn:Hb; [|intros [= <- <- <-]; lia]. apply take_step_Some in Hb as [? ->].
  case_bool_decide; [intros E; apply IH in E; lia|].
  destruct (expand id st (budget - 1)%Z) as [[e st1] b1] eqn:He.
  pose proof (expand_spends _ _ _ _ _ _ He ltac:(lia)).
  destruct e; [intros [= <- <- <-]; lia..|]. intros E. apply IH in E; lia.
Qed.

Lemma walking_start root st : P ∅ st → walking root ∅ [root] st.
Proof.
  clear Hlawful. intros HP. constructor; [|set_solver|right; by left|set_solver|done].
  intros x [?|Hx]; [set_solver|]. apply list_elem_of_singleton in Hx as ->. constructor.
Qed.
End Search.
