(* ===== verification/Composition.v ===== *)
(** * Composition: subtypes and exposed properties ([src/ir/composition.go])

    A nil document is [None]. Every walk carries its step budget and its fuel:
    the budget is the code's [left], the fuel a bound on the loop computed from
    the registry, which is shown never to run out. *)
From S2P Require Import Prelude GoLib IR Search.
Implicit Types (id target base root : TypeID) (types : TypeRegistry) (doc : option Document) (prop : PropID).

Definition MaxInt : Z := (2 ^ 63 - 1)%Z.

(** ** Aliases *)

Definition AliasBase types id : option TypeID :=
  match types !! id with
  | Some (ScalarDef s) => TypeRef_Target <$> Scalar_Base s
  | _ => None
  end.

(** The loop of [aliasTarget]: the target, whether the budget sufficed, and what
    is left of it. *)
Fixpoint alias_loop (fuel : nat) types id (seen : gset TypeID) (budget : Z) : option (TypeID * bool * Z) :=
  match fuel with
  | O => None
  | S fuel =>
      match AliasBase types id with
      | None => Some (id, true, budget)
      | Some base =>
          if bool_decide (id ∈ seen) then Some (id, true, budget)
          else match take_step budget with
               | None => Some ([], false, budget)
               | Some budget => alias_loop fuel types base ({[id]} ∪ seen) budget
               end
      end
  end.

Definition aliasTarget types id (budget : Z) : TypeID * bool * Z :=
  default ([], false, budget) (alias_loop (2 + size types) types id ∅ budget).

(** ** Supertypes *)

Definition appendSupertype (dst : list TypeID) types target (budget : Z) : list TypeID * bool * Z :=
  let '(t, ok, budget) := aliasTarget types target budget in
  ((if (ok : bool) && negb (bool_decide (t = [])) then dst ++ [t] else dst), ok, budget).

Fixpoint append_all (dst : list TypeID) types (targets : list TypeID) (budget : Z) : list TypeID * bool * Z :=
  match targets with
  | [] => (dst, true, budget)
  | target :: targets =>
      let '(dst, ok, budget) := appendSupertype dst types target budget in
      if negb ok then (dst, false, budget) else append_all dst types targets budget
  end.

Definition base_targets (r : option TypeRef) : list TypeID := from_option (λ r, [TypeRef_Target r]) [] r.

(** What a model's supertype entries name: its Base, then its Implements. *)
Definition super_targets types id : list TypeID :=
  match types !! id with
  | Some (ModelDef m) => base_targets (Model_Base m) ++ (TypeRef_Target <$> Model_Implements m)
  | _ => []
  end.

Definition doc_types doc : TypeRegistry := from_option Document_Types ∅ doc.

Definition supertypes (dst : list TypeID) doc id (budget : Z) : list TypeID * bool * Z :=
  match doc with
  | None => (dst, true, budget)
  | Some d => append_all dst (Document_Types d) (super_targets (Document_Types d) id) budget
  end.

Definition Supertypes doc id : list TypeID := (supertypes [] doc id MaxInt).1.1.

(** ** Subtypes *)

(** One turn of [isSubtype] on a type not seen before. *)
Definition expand_super doc base id (st : unit) (budget : Z) : expansion * unit * Z :=
  let '(supers, ok, budget) := supertypes [] doc id budget in
  if negb ok then (Short, st, budget)
  else if bool_decide (base ∈ supers) then (Stop, st, budget)
  else (More supers, st, budget).

(** What the entries name once read through aliases. *)
Definition alias_end types id : TypeID := (default (id, true, 0%Z) (alias_loop (2 + size types) types id ∅ (Z.of_nat (size types)))).1.1.
Definition supers_of types id : list TypeID :=
  filter (λ t, t ≠ []) (alias_end types <$> super_targets types id).

Definition subtype_fuel doc : nat :=
  walk_fuel (supers_of (doc_types doc)) (dom (doc_types doc)).

(** The answer, whether the budget sufficed, and what is left of it. *)
Definition isSubtype doc target base (budget : Z) : bool * bool * Z :=
  match search (expand_super doc base) (subtype_fuel doc) ∅ [target] tt budget with
  | Some (Stopped, _, budget) => (true, true, budget)
  | Some (Emptied, _, budget) => (false, true, budget)
  | Some (Exhausted, _, budget) => (false, false, budget)
  | None => (false, false, budget)
  end.

(** The answer, the steps spent, and whether they sufficed. *)
Definition IsSubtypeWithin doc target base (limit : Z) : bool * Z * bool :=
  let '(sub, ok, budget) := isSubtype doc target base limit in (sub, (limit - budget)%Z, ok).
Definition IsSubtype doc target base : bool := (IsSubtypeWithin doc target base MaxInt).1.1.

(** ** Exposed properties *)

Section Exposed.
Context {St : Type} (visit : PropID → St → bool * St).

(** The loop over a model's own properties in [partSources]. *)
Fixpoint visit_props (ps : list Property) (st : St) (budget : Z) : option bool * St * Z :=
  match ps with
  | [] => (None, st, budget)
  | p :: ps =>
      match take_step budget with
      | None => (Some false, st, budget)
      | Some budget =>
          let '(stop, st) := visit (Property_ID p) st in
          if (stop : bool) then (Some true, st, budget) else visit_props ps st budget
      end
  end.

Definition model_sources (m : Model) : list TypeID :=
  base_targets (Model_Base m) ++ (TypeRef_Target <$> Model_Implements m) ++ (TypeRef_Target <$> Model_Mixins m).

Definition partSources (td : TypeDef) (st : St) (budget : Z) : expansion * St * Z :=
  match td with
  | ModelDef m =>
      match visit_props (Model_Properties m) st budget with
      | (Some true, st, budget) => (Stop, st, budget)
      | (Some false, st, budget) => (Short, st, budget)
      | (None, st, budget) => (More (model_sources m), st, budget)
      end
  | ScalarDef s => (More (base_targets (Scalar_Base s)), st, budget)
  | _ => (More [], st, budget)
  end.

Definition expand_parts types id (st : St) (budget : Z) : expansion * St * Z :=
  match types !! id with
  | None | Some (NilDef _) => (More [], st, budget)
  | Some td => partSources td st budget
  end.
End Exposed.

Definition part_sources types id : list TypeID :=
  match types !! id with
  | Some (ModelDef m) => model_sources m
  | Some (ScalarDef s) => base_targets (Scalar_Base s)
  | _ => []
  end.

Definition exposed_fuel types : nat := walk_fuel (part_sources types) (dom types).

(** The state the visitor is left in, whether the budget sufficed, and what is
    left of it. *)
Definition exposedWalk {St} (visit : PropID → St → bool * St) doc root (st : St) (budget : Z) : St * bool * Z :=
  match doc with
  | None => (st, true, budget)
  | Some d =>
      match search (expand_parts visit (Document_Types d)) (exposed_fuel (Document_Types d)) ∅ [root] st budget with
      | Some (Stopped, st, budget) => (st, true, budget)
      | Some (Emptied, st, budget) => (st, true, budget)
      | Some (Exhausted, st, budget) => (st, false, budget)
      | None => (st, false, budget)
      end
  end.

Definition ExposedProps doc root : gset PropID :=
  (exposedWalk (λ p props, (false, {[p]} ∪ props)) doc root ∅ MaxInt).1.1.

(** Whether the root exposes it, the steps spent, and whether they sufficed. *)
Definition ExposesWithin doc root prop (limit : Z) : bool * Z * bool :=
  let '(exposed, ok, budget) :=
    exposedWalk (λ p _, (bool_decide (p = prop), bool_decide (p = prop))) doc root false limit in
  (exposed, (limit - budget)%Z, ok).

(** ** What an alias chain costs *)

(** A walk that spends [steps] whatever the budget, and yields [a] where they
    are there. *)
Definition spends {A} (a : A) (steps : Z) (budget : Z) (r : A * bool * Z) : Prop :=
  if (Z.max 0 budget <? steps)%Z then r.1.2 = false ∧ r.2 = Z.min budget 0 else r = (a, true, (budget - steps)%Z).

Lemma AliasBase_dom types id base : AliasBase types id = Some base → id ∈ dom types.
Proof. unfold AliasBase. intros H. apply elem_of_dom. destruct (types !! id) eqn:E; [by eexists|done]. Qed.

Lemma alias_loop_spends (fuel : nat) types id (seen : gset TypeID) :
  size (dom types ∖ seen) < fuel →
  ∃ (last : TypeID) (steps : Z), (0 <= steps <= Z.of_nat (size (dom types ∖ seen)))%Z ∧
    ∀ budget, ∃ r, alias_loop fuel types id seen budget = Some r ∧ spends last steps budget r.
Proof.
  revert id seen. induction fuel as [|fuel IH]; intros id seen Hf; [lia|]. cbn [alias_loop].
  assert (Hend : ∃ (last : TypeID) (steps : Z), (0 <= steps <= Z.of_nat (size (dom types ∖ seen)))%Z ∧
    ∀ budget, ∃ r, Some (id, true, budget) = Some r ∧ spends last steps budget r).
  { exists id, 0%Z. split; [lia|]. intros budget. eexists. split; [done|]. unfold spends.
    rewrite (proj2 (Z.ltb_ge _ _)) by lia. by rewrite Z.sub_0_r. }
  destruct (AliasBase types id) as [base|] eqn:Hb; [|done]. case_bool_decide as Hid; [done|]. clear Hend.
  apply AliasBase_dom in Hb.
  pose proof (size_fresh (dom types) seen id Hb Hid) as Hsize.
  destruct (IH base ({[id]} ∪ seen)) as (last & steps & Hs & H); [lia|]. exists last, (steps + 1)%Z. split; [lia|].
  intros budget. unfold take_step. destruct (Z.leb_spec budget 0).
  - eexists. split; [done|]. unfold spends. rewrite (proj2 (Z.ltb_lt _ _)) by lia. simpl. split; [done|lia].
  - destruct (H (budget - 1)%Z) as (r & Hr & Hsp). exists r. split; [done|]. unfold spends in *.
    destruct (Z.ltb_spec (Z.max 0 (budget - 1)) steps).
    + rewrite (proj2 (Z.ltb_lt _ _)) by lia. destruct Hsp as [? ->]. split; [done|lia].
    + rewrite (proj2 (Z.ltb_ge _ _)) by lia. rewrite Hsp. f_equal. lia.
Qed.

Definition alias_steps types id : Z :=
  (Z.of_nat (size types) - (default (id, true, 0%Z) (alias_loop (2 + size types) types id ∅ (Z.of_nat (size types)))).2)%Z.

Lemma aliasTarget_spends types id budget :
  spends (alias_end types id) (alias_steps types id) budget (aliasTarget types id budget) ∧
  (0 <= alias_steps types id <= Z.of_nat (size types))%Z.
Proof.
  assert (Hsize : size (dom types ∖ (∅ : gset TypeID)) = size types) by (rewrite difference_empty_L; apply size_dom).
  destruct (alias_loop_spends (2 + size types) types id ∅) as (last & steps & Hs & H); [rewrite Hsize; lia|].
  rewrite Hsize in Hs. unfold alias_end, alias_steps, aliasTarget.
  destruct (H (Z.of_nat (size types))) as (r & -> & Hr). unfold spends in Hr.
  rewrite (proj2 (Z.ltb_ge _ _)) in Hr by lia. subst r. cbn [default from_option Datatypes.id fst snd].
  replace (Z.of_nat (size types) - (Z.of_nat (size types) - steps))%Z with steps by lia. split; [|done].
  destruct (H budget) as (r & -> & Hr). done.
Qed.

Lemma spends_bind {A B} (a : A) n budget r (b : B) m (f : A → Z → B * bool * Z) (short : A → B) :
  (0 <= n)%Z → (0 <= m)%Z → spends a n budget r → (∀ k, spends b m k (f a k)) →
  spends b (n + m) budget (let '(a, ok, k) := r in if negb ok then (short a, false, k) else f a k).
Proof.
  intros Hn Hm Hr Hf. unfold spends in Hr. destruct (Z.ltb_spec (Z.max 0 budget) n).
  - destruct r as [[a' ok] k]. simpl in Hr. destruct Hr as [-> ->]. unfold spends. rewrite (proj2 (Z.ltb_lt _ _)) by lia. done.
  - subst r. cbn [negb]. specialize (Hf (budget - n)%Z). revert Hf. unfold spends.
    destruct (Z.ltb_spec (Z.max 0 (budget - n)) m), (Z.ltb_spec (Z.max 0 budget) (n + m)); try lia.
    + intros [? ->]. split; [done|lia].
    + intros ->. f_equal. lia.
Qed.

Definition named types (targets : list TypeID) : list TypeID := filter (λ t, t ≠ []) (alias_end types <$> targets).
Definition named_cost types (targets : list TypeID) : Z := foldr (λ t total, (alias_steps types t + total)%Z) 0%Z targets.

Lemma named_cost_nonneg types targets : (0 <= named_cost types targets)%Z.
Proof.
  induction targets as [|t targets IH]; simpl; [lia|]. destruct (aliasTarget_spends types t 0) as [_ ?]. lia.
Qed.

Lemma append_all_spends dst types targets budget :
  spends (dst ++ named types targets) (named_cost types targets) budget (append_all dst types targets budget).
Proof.
  revert dst budget. induction targets as [|t targets IH]; intros dst budget.
  { unfold spends. simpl. rewrite (proj2 (Z.ltb_ge _ _)) by lia. by rewrite app_nil_r, Z.sub_0_r. }
  cbn [append_all named_cost foldr]. fold (named_cost types targets).
  destruct (aliasTarget_spends types t budget) as [Ht Hnn].
  assert (Ha : spends (dst ++ named types [t]) (alias_steps types t) budget (appendSupertype dst types t budget)).
  { revert Ht. unfold appendSupertype, spends, named. simpl. destruct (_ <? _)%Z.
    - destruct (aliasTarget types t budget) as [[e ok] k]. simpl. by intros [-> ->].
    - intros ->. simpl. destruct (decide (alias_end types t = [])) as [->|Hne].
      + rewrite filter_cons_False by congruence. by rewrite filter_nil, app_nil_r.
      + rewrite filter_cons_True, filter_nil by done. by rewrite bool_decide_eq_false_2. }
  eapply (spends_bind _ _ _ _ _ _ (λ dst k, append_all dst types targets k) (λ dst, dst)) in Ha;
    [|lia|apply named_cost_nonneg|].
  2: { intros k. apply IH. }
  replace (dst ++ named types (t :: targets)) with ((dst ++ named types [t]) ++ named types targets).
  2: { unfold named. rewrite <- app_assoc. f_equal. by rewrite <- filter_app. }
  destruct (appendSupertype dst types t budget) as [[dst' ok] k]. destruct ok; exact Ha.
Qed.

(** ** Subtypes *)

Section Subtypes.
Context (doc : option Document).
Let types := doc_types doc.

Definition super_cost (x : TypeID) : Z := named_cost (doc_types doc) (super_targets (doc_types doc) x).

Lemma supertypes_spends x budget : spends (supers_of types x) (super_cost x) budget (supertypes [] doc x budget).
Proof.
  unfold supertypes, super_cost, supers_of, types. destruct doc as [d|]; cbn [doc_types from_option].
  - apply (append_all_spends []).
  - change (super_targets ∅ x) with (@nil TypeID). unfold spends. simpl. rewrite (proj2 (Z.ltb_ge _ _)) by lia. by rewrite Z.sub_0_r.
Qed.

Lemma super_targets_dom x : x ∉ dom types → super_targets types x = [].
Proof. unfold super_targets. intros Hx%not_elem_of_dom. by rewrite Hx. Qed.

#[local] Instance expand_super_lawful base :
  LawfulExpand (expand_super doc base) (supers_of types) (λ x, base ∈ supers_of types x) super_cost (dom types)
    (λ _ _, True) (λ _, True).
Proof.
  assert (Hnn : ∀ x, (0 <= super_cost x)%Z) by (intros; apply named_cost_nonneg).
  constructor; unfold expand_super.
  - intros x seen st budget next st' budget' _ _. pose proof (supertypes_spends x budget) as Hs. unfold spends in Hs.
    destruct (supertypes [] doc x budget) as [[supers ok] k]. destruct (_ <? _)%Z; simpl in Hs.
    { destruct Hs as [-> _]. done. }
    injection Hs as -> -> ->. simpl. case_bool_decide; [done|]. by intros [= <- _ _].
  - intros x seen st budget st' budget' _. pose proof (supertypes_spends x budget) as Hs. unfold spends in Hs.
    destruct (supertypes [] doc x budget) as [[supers ok] k]. destruct (_ <? _)%Z; simpl in Hs.
    { destruct Hs as [-> _]. done. }
    injection Hs as -> -> ->. simpl. case_bool_decide; [done|]. done.
  - intros x st budget e st' budget'. pose proof (supertypes_spends x budget) as Hs. unfold spends in Hs. specialize (Hnn x).
    destruct (supertypes [] doc x budget) as [[supers ok] k]. destruct (Z.ltb_spec (Z.max 0 budget) (super_cost x)); simpl in Hs.
    + destruct Hs as [-> ->]. intros [= _ _ <-]. lia.
    + injection Hs as -> -> ->. simpl. case_bool_decide; intros [= _ _ <-]; lia.
  - intros x st budget st' budget'. pose proof (supertypes_spends x budget) as Hs. unfold spends in Hs.
    destruct (supertypes [] doc x budget) as [[supers ok] k]. destruct (Z.ltb_spec (Z.max 0 budget) (super_cost x)); [lia|].
    injection Hs as -> -> ->. simpl. by case_bool_decide.
  - intros x st budget e st' budget' k Hk He. specialize (Hnn x).
    pose proof (supertypes_spends x budget) as Hs. pose proof (supertypes_spends x (budget + k)) as Hs'. unfold spends in Hs, Hs'.
    destruct (supertypes [] doc x budget) as [[supers ok] b]. destruct (Z.ltb_spec (Z.max 0 budget) (super_cost x)); simpl in Hs.
    { destruct Hs as [-> ->]. intros [= <- _ _]. done. }
    injection Hs as -> -> ->. rewrite (proj2 (Z.ltb_ge _ _)) in Hs' by lia. rewrite Hs'. simpl.
    case_bool_decide; intros [= <- <- <-]; do 2 f_equal; lia.
  - intros x Hx. unfold super_cost, supers_of. fold types. by rewrite super_targets_dom.
  - exact Hnn.
Qed.

(** What [Supertypes] lists. *)
Definition supertype (x y : TypeID) : Prop := y ∈ Supertypes doc x.

(** No walk of the document could take more steps than an [int] counts. *)
Definition countable_walk : Prop := (walk_cost (supers_of (doc_types doc)) super_cost (dom (doc_types doc)) <= MaxInt)%Z.

Lemma super_cost_walk x : (super_cost x <= walk_cost (supers_of types) super_cost (dom types))%Z.
Proof.
  unfold walk_cost. pose proof (costs_fresh (expand_super doc []) _ _ _ _ _ _ x ∅ ltac:(set_solver)) as Hc.
  pose proof (costs_nonneg (expand_super doc []) _ _ _ _ _ _ ({[x]} ∪ ∅)) as Hn. lia.
Qed.

Lemma Supertypes_supers x : countable_walk → Supertypes doc x = supers_of types x.
Proof.
  intros Hf. unfold Supertypes. pose proof (supertypes_spends x MaxInt) as Hs. unfold spends in Hs.
  pose proof (super_cost_walk x) as Hc. unfold countable_walk in Hf. fold types in Hf.
  rewrite (proj2 (Z.ltb_ge _ _)) in Hs by (unfold MaxInt in *; lia). by rewrite Hs.
Qed.

Lemma isSubtype_run target base budget :
  ∃ o st budget',
    search (expand_super doc base) (subtype_fuel doc) ∅ [target] tt budget = Some (o, st, budget') ∧
    isSubtype doc target base budget =
      match o with Stopped => (true, true, budget') | Emptied => (false, true, budget') | Exhausted => (false, false, budget') end.
Proof.
  destruct (search_returns (expand_super doc base) _ _ _ _ (λ _ _, True) (λ _, True)
    (subtype_fuel doc) ∅ [target] tt budget I) as [[[o st] b] E].
  { unfold subtype_fuel, walk_fuel, types. cbn [length]. lia. }
  exists o, st, b. split; [exact E|]. unfold isSubtype. rewrite E. by destruct o.
Qed.

Lemma isSubtype_true target base budget :
  let r := isSubtype doc target base budget in
  r.1.2 = true → r.1.1 = true ↔ tc (leads (supers_of types)) target base.
Proof.
  destruct (isSubtype_run target base budget) as (o & st & b & E & ->). cbv zeta.
  apply (search_found (expand_super doc base) (supers_of types) (λ x, base ∈ supers_of types x) super_cost (dom types)
    (λ _ _, True) (λ _, True) _ target) in E; [|by apply walking_start].
  destruct o; simpl; [|done|]; intros _.
  - destruct E as (_ & x & Hx & Hb). split; [|done]. intros _. eapply tc_rtc_l; [exact Hx|]. by apply tc_once.
  - split; [done|]. intros Ht. exfalso. destruct E as [Hn _]. assert (H : ∃ x, rtc (leads (supers_of types)) target x ∧ leads (supers_of types) x base).
    { clear -Ht. induction Ht as [x y Hxy|x y z Hxy _ (w & Hw & Hz)]; [by exists x|]. exists w. split; [by eapply rtc_l|done]. }
    destruct H as (x & Hx & Hb). by apply (Hn x).
Qed.

Lemma supertype_leads x y : countable_walk → supertype x y ↔ leads (supers_of types) x y.
Proof. intros Hf. unfold supertype, leads. by rewrite Supertypes_supers. Qed.

Lemma supertype_tc x y : countable_walk → tc (leads (supers_of types)) x y ↔ tc supertype x y.
Proof.
  intros Hf. split; intros H; induction H as [x y Hxy|x y z Hxy _ IH].
  - by apply tc_once, supertype_leads.
  - eapply tc_l; [by apply supertype_leads|done].
  - by apply tc_once, supertype_leads.
  - eapply tc_l; [by apply supertype_leads|done].
Qed.

Lemma isSubtype_affords target base budget :
  (walk_cost (supers_of types) super_cost (dom types) <= budget)%Z → (isSubtype doc target base budget).1.2 = true.
Proof.
  intros Hb. destruct (isSubtype_run target base budget) as (o & st & b & E & ->).
  apply (search_affords (expand_super doc base) (supers_of types) (λ x, base ∈ supers_of types x) super_cost (dom types)
    (λ _ _, True) (λ _, True)) in E; [|done|unfold walk_cost in Hb; cbn [length]; lia].
  by destruct o.
Qed.

Lemma isSubtype_more target base budget more sub b :
  (0 <= more)%Z → isSubtype doc target base budget = (sub, true, b) →
  isSubtype doc target base (budget + more) = (sub, true, (b + more)%Z).
Proof.
  intros Hm. destruct (isSubtype_run target base budget) as (o & st & b' & E & ->). intros Ho.
  assert (Hne : o ≠ Exhausted) by (by intros ->).
  apply (search_monotone (expand_super doc base) (supers_of types) (λ x, base ∈ supers_of types x) super_cost (dom types)
    (λ _ _, True) (λ _, True) _ _ _ _ _ _ _ _ more Hm Hne) in E.
  unfold isSubtype. rewrite E. destruct o; by injection Ho as <- <-.
Qed.

Lemma isSubtype_spends target base budget :
  (0 <= budget)%Z → (0 <= (isSubtype doc target base budget).2 <= budget)%Z.
Proof.
  intros Hb. destruct (isSubtype_run target base budget) as (o & st & b' & E & ->).
  apply (search_spends (expand_super doc base) (supers_of types) (λ x, base ∈ supers_of types x) super_cost (dom types)
    (λ _ _, True) (λ _, True)) in E; [|done]. by destruct o.
Qed.

End Subtypes.

(** C24: a type is a subtype of another exactly when a chain of one or more
    declared supertypes, each read through its aliases, leads from the one to
    the other, whatever cycles the hierarchy or the aliases hold. *)
Theorem IsSubtype_exact doc target base :
  countable_walk doc → IsSubtype doc target base = true ↔ tc (supertype doc) target base.
Proof.
  intros Hf. rewrite <- supertype_tc by done. unfold IsSubtype, IsSubtypeWithin.
  pose proof (isSubtype_true doc target base MaxInt) as Ht. pose proof (isSubtype_affords doc target base MaxInt Hf) as Ho.
  destruct (isSubtype doc target base MaxInt) as [[sub ok] b]. cbn [fst snd] in *. by apply Ht.
Qed.

(** the bounded question spends no more than its limit; where it answers, it
    answers as the unbounded one, and any larger limit gives the same answer at
    the same cost; and a limit the document's walk cannot exceed always answers. *)
Theorem IsSubtypeWithin_bounded doc target base (limit : Z) sub spent ok :
  countable_walk doc → (0 <= limit <= MaxInt)%Z → IsSubtypeWithin doc target base limit = (sub, spent, ok) →
  (0 <= spent <= limit)%Z ∧
  (ok = true → sub = IsSubtype doc target base ∧
    ∀ more, (0 <= more)%Z → IsSubtypeWithin doc target base (limit + more) = (sub, spent, true)) ∧
  ((walk_cost (supers_of (doc_types doc)) (super_cost doc) (dom (doc_types doc)) <= limit)%Z → ok = true).
Proof.
  intros Hf Hl. unfold IsSubtype, IsSubtypeWithin.
  pose proof (isSubtype_spends doc target base limit ltac:(lia)) as Hs.
  pose proof (isSubtype_affords doc target base limit) as Ha.
  destruct (isSubtype doc target base limit) as [[sub' ok'] b] eqn:E. intros [= -> <- ->]. cbn [fst snd] in *.
  split_and!; [lia..| |done]. intros ->.
  pose proof (λ more Hm, isSubtype_more doc target base limit more sub b Hm E) as Hmore. split.
  - specialize (Hmore (MaxInt - limit)%Z ltac:(lia)). replace (limit + (MaxInt - limit))%Z with MaxInt in Hmore by lia.
    by rewrite Hmore.
  - intros more Hm. rewrite Hmore by done. do 2 f_equal. lia.
Qed.

Lemma pets_countable : countable_walk (Some pets_doc).
Proof. unfold countable_walk. apply Z.leb_le. vm_compute. reflexivity. Qed.

Lemma IsSubtype_exact_witness :
  tc (supertype (Some pets_doc)) (go "t/cat") (go "t/animal") ∧ ¬ tc (supertype (Some pets_doc)) (go "t/animal") (go "t/animal").
Proof.
  split.
  - apply (proj1 (IsSubtype_exact (Some pets_doc) (go "t/cat") (go "t/animal") pets_countable)). vm_compute. reflexivity.
  - intros H. apply (proj2 (IsSubtype_exact (Some pets_doc) (go "t/animal") (go "t/animal") pets_countable)) in H.
    vm_compute in H. discriminate H.
Defined.

Lemma IsSubtypeWithin_bounded_witness :
  IsSubtypeWithin (Some pets_doc) (go "t/cat") (go "t/animal") 2 = (false, 2%Z, false) ∧
  IsSubtypeWithin (Some pets_doc) (go "t/cat") (go "t/animal") 3 = (true, 3%Z, true) ∧
  IsSubtypeWithin (Some pets_doc) (go "t/cat") (go "t/animal") 10 = (true, 3%Z, true).
Proof.
  assert (H3 : IsSubtypeWithin (Some pets_doc) (go "t/cat") (go "t/animal") 3 = (true, 3%Z, true)) by (vm_compute; reflexivity).
  split; [vm_compute; reflexivity|]. split; [exact H3|].
  destruct (IsSubtypeWithin_bounded (Some pets_doc) (go "t/cat") (go "t/animal") 3 true 3 true pets_countable
    ltac:(split; [discriminate|apply Z.leb_le; vm_compute; reflexivity]) H3) as (_ & H & _).
  destruct (H eq_refl) as [_ Hmore]. exact (Hmore 7%Z ltac:(discriminate)).
Defined.

(** ** Exposed properties *)

Definition own_props types (x : TypeID) : list PropID :=
  match types !! x with Some (ModelDef m) => Property_ID <$> Model_Properties m | _ => [] end.
Definition props_cost types (x : TypeID) : Z := Z.of_nat (length (own_props types x)).

Section Visiting.
Context {St : Type} (visit : PropID → St → bool * St).

Lemma visit_props_spends ps st budget r st' budget' :
  visit_props visit ps st budget = (r, st', budget') →
  (0 <= budget → 0 <= budget' <= budget ∧ budget <= budget' + Z.of_nat (length ps))%Z.
Proof.
  revert st budget. induction ps as [|p ps IH]; intros st budget; cbn [visit_props length]; [intros [= _ _ <-]; lia|].
  destruct (take_step budget) as [b|] eqn:Hb; [apply take_step_Some in Hb as [? ->]|intros [= _ _ <-]; lia].
  destruct (visit (Property_ID p) st) as [[] st1]; [intros [= _ _ <-]; lia|]. intros E ?. apply IH in E; lia.
Qed.

Lemma visit_props_short ps st budget st' budget' :
  visit_props visit ps st budget = (Some false, st', budget') → (budget < Z.of_nat (length ps))%Z.
Proof.
  revert st budget. induction ps as [|p ps IH]; intros st budget; cbn [visit_props length]; [done|].
  destruct (take_step budget) as [b|] eqn:Hb; [apply take_step_Some in Hb as [? ->]|apply take_step_None in Hb; lia].
  destruct (visit (Property_ID p) st) as [[] st1]; [done|]. intros E. apply IH in E. lia.
Qed.

Lemma visit_props_more ps st budget r st' budget' k :
  (0 <= k)%Z → r ≠ Some false → visit_props visit ps st budget = (r, st', budget') →
  visit_props visit ps st (budget + k) = (r, st', (budget' + k)%Z).
Proof.
  intros Hk Hr. revert st budget. induction ps as [|p ps IH]; intros st budget; cbn [visit_props]; [by intros [= <- <- <-]|].
  destruct (take_step budget) as [b|] eqn:Hb; [apply take_step_Some in Hb as [? ->]|intros [= <- _ _]; done].
  unfold take_step. rewrite (proj2 (Z.leb_gt _ _)) by lia. replace (budget + k - 1)%Z with (budget - 1 + k)%Z by lia.
  destruct (visit (Property_ID p) st) as [[] st1]; [by intros [= <- <- <-]|apply IH].
Qed.

(** What a visitor does to its state, over one model's properties. *)
Context types (hit : TypeID → Prop) (P : gset TypeID → St → Prop) (P_stop : St → Prop).

Class LawfulVisit : Prop := {
  visited_all x seen ps st budget st' budget' :
    x ∉ seen → P seen st → own_props types x = Property_ID <$> ps →
    visit_props visit ps st budget = (None, st', budget') → ¬ hit x ∧ P ({[x]} ∪ seen) st';
  visited_stop x seen ps st budget st' budget' :
    P seen st → own_props types x = Property_ID <$> ps →
    visit_props visit ps st budget = (Some true, st', budget') → hit x ∧ P_stop st'
}.

#[local] Instance expand_parts_lawful `{!LawfulVisit} :
  LawfulExpand (expand_parts visit types) (part_sources types) hit (props_cost types) (dom types) P P_stop.
Proof.
  assert (Hother : ∀ x seen st, x ∉ seen → P seen st → own_props types x = [] → ¬ hit x ∧ P ({[x]} ∪ seen) st).
  { intros x seen st Hx HP E. eapply (visited_all x seen [] st 0 st 0%Z); done. }
  constructor; unfold expand_parts, part_sources, partSources, props_cost.
  - intros x seen st budget next st' budget' Hx HP. specialize (Hother x seen st Hx HP).
    pose proof (λ ps b st' b' E, visited_all x seen ps st b st' b' Hx HP E) as Hall. unfold own_props in *.
    destruct (types !! x) as [[]|]; try (intros [= <- <- _]; by split; [|apply Hother]).
    destruct (visit_props visit (Model_Properties d) st budget) as [[[[]|] st1] b1] eqn:E; try done.
    intros [= <- <- _]. split; [done|]. by eapply Hall.
  - intros x seen st budget st' budget' HP. pose proof (λ ps b st' b' E, visited_stop x seen ps st b st' b' HP E) as Hall.
    unfold own_props in *. destruct (types !! x) as [[]|]; try done.
    destruct (visit_props visit (Model_Properties d) st budget) as [[[[]|] st1] b1] eqn:E; try done.
    intros [= <- _]. by eapply Hall.
  - intros x st budget e st' budget'. unfold own_props. destruct (types !! x) as [[]|]; try (intros [= _ _ <-]; simpl; lia).
    rewrite length_fmap. destruct (visit_props visit (Model_Properties d) st budget) as [[[[]|] st1] b1] eqn:E;
      intros [= _ _ <-]; by eapply visit_props_spends.
  - intros x st budget st' budget'. unfold own_props. destruct (types !! x) as [[]|]; try done.
    rewrite length_fmap. destruct (visit_props visit (Model_Properties d) st budget) as [[[[]|] st1] b1] eqn:E; try done.
    intros [= _ _]. by eapply visit_props_short.
  - intros x st budget e st' budget' k Hk He. destruct (types !! x) as [[]|]; try (by intros [= <- <- <-]).
    destruct (visit_props visit (Model_Properties d) st budget) as [[r st1] b1] eqn:E. intros Hr.
    rewrite (visit_props_more _ _ _ r st1 b1 k Hk); [|intros ->; by injection Hr as <- _ _|done].
    destruct r as [[]|]; by injection Hr as <- <- <-.
  - intros x Hx%not_elem_of_dom. unfold own_props. by rewrite Hx.
  - lia.
Qed.

Lemma exposedWalk_run d root st budget `{!LawfulVisit} :
  types = Document_Types d → P ∅ st →
  ∃ o st' budget',
    found (part_sources types) hit P P_stop root (o, st', budget') ∧
    exposedWalk visit (Some d) root st budget = (st', bool_decide (o ≠ Exhausted), budget') ∧
    ((walk_cost (part_sources types) (props_cost types) (dom types) <= budget)%Z → o ≠ Exhausted) ∧
    (0 <= budget → 0 <= budget' <= budget)%Z ∧
    (o ≠ Exhausted → ∀ k, (0 <= k)%Z → exposedWalk visit (Some d) root st (budget + k) = (st', true, (budget' + k)%Z)).
Proof.
  intros Ht HP. unfold exposedWalk. rewrite <- Ht.
  destruct (search_returns (expand_parts visit types) (part_sources types) hit (props_cost types) (dom types) P P_stop
    (exposed_fuel types) ∅ [root] st budget HP) as [[[o st'] b] E].
  { unfold exposed_fuel, walk_fuel. cbn [length]. lia. }
  exists o, st', b. split_and!.
  - eapply (search_found (expand_parts visit types) (part_sources types) hit (props_cost types) (dom types) P P_stop _ root) in E; [done|].
    by apply walking_start.
  - rewrite E. by destruct o.
  - intros Hb. apply (search_affords (expand_parts visit types) (part_sources types) hit (props_cost types) (dom types) P P_stop) in E;
      [done|done|unfold walk_cost in Hb; cbn [length]; lia].
  - intros Hb. by apply (search_spends (expand_parts visit types) (part_sources types) hit (props_cost types) (dom types) P P_stop) in E.
  - intros Ho k Hk.
    rewrite (search_monotone (expand_parts visit types) (part_sources types) hit (props_cost types) (dom types) P P_stop _ _ _ _ _ _ _ _ k Hk Ho E).
    by destruct o.
Qed.
End Visiting.

(** [x] declares [prop] among its own properties. *)
Definition declares types (x : TypeID) prop : Prop := prop ∈ own_props types x.

(** The properties met so far are those of the types seen. *)
Definition collected types (seen : gset TypeID) (props : gset PropID) : Prop :=
  ∀ p, p ∈ props ↔ ∃ x, x ∈ seen ∧ declares types x p.

#[local] Instance collect_lawful types :
  LawfulVisit (λ p props, (false, {[p]} ∪ props)) types (λ _, False) (collected types) (λ _, True).
Proof.
  assert (H : ∀ ps st budget r (st' : gset PropID) budget',
    visit_props (λ p props, (false, {[p]} ∪ props)) ps st budget = (r, st', budget') →
    r ≠ Some true ∧ (r = None → st' = list_to_set (Property_ID <$> ps) ∪ st)).
  { induction ps as [|p ps IH]; intros st budget r st' budget'; cbn [visit_props].
    - intros [= <- <- _]. split; [done|]. intros _. set_solver.
    - destruct (take_step budget); [|intros [= <- _ _]; done]. intros E. apply IH in E as [? E]. split; [done|].
      intros Hr. rewrite (E Hr). simpl. set_solver. }
  constructor.
  - intros x seen ps st budget st' budget' Hx HP Ho E. split; [by intros []|]. apply H in E as [_ E]. rewrite (E eq_refl).
    intros p. rewrite elem_of_union, elem_of_list_to_set, (HP p). split.
    + intros [Hp|(y & Hy & Hd)]; [exists x|exists y; split; [set_solver|done]].
      split; [set_solver|]. unfold declares. by rewrite Ho.
    + intros (y & Hy & Hd). apply elem_of_union in Hy as [->%elem_of_singleton|Hy]; [|right; by exists y].
      left. unfold declares in Hd. by rewrite Ho in Hd.
  - intros x seen ps st budget st' budget' _ _ E. by apply H in E as [? _].
Qed.

#[local] Instance find_lawful types prop :
  LawfulVisit (λ p _, (bool_decide (p = prop), bool_decide (p = prop))) types (λ x, declares types x prop)
    (λ _ st, st = false) (λ st, st = true).
Proof.
  set (visit := λ (p : PropID) (_ : bool), (bool_decide (p = prop), bool_decide (p = prop))).
  assert (H : ∀ ps st budget r st' budget', visit_props visit ps st budget = (r, st', budget') →
    (r = None → prop ∉ (Property_ID <$> ps) ∧ (st = false → st' = false)) ∧
    (r = Some true → prop ∈ (Property_ID <$> ps) ∧ st' = true)).
  { induction ps as [|p ps IH]; intros st budget r st' budget'; cbn [visit_props fmap list_fmap].
    - intros [= <- <- _]. split; [|done]. intros _. split; [by apply not_elem_of_nil|done].
    - destruct (take_step budget); [|intros [= <- _ _]; done]. unfold visit at 1. simpl.
      destruct (bool_decide_reflect (Property_ID p = prop)) as [<-|Hne].
      + intros [= <- <- _]. split; [done|]. intros _. split; [by left|done].
      + intros E. apply IH in E as [E1 E2]. split.
        * intros Hr. destruct (E1 Hr) as [Hn Hf]. rewrite not_elem_of_cons. split; [split; [congruence|done]|]. intros _. by apply Hf.
        * intros Hr. destruct (E2 Hr) as [Hn Hf]. split; [by right|done]. }
  constructor.
  - intros x seen ps st budget st' budget' Hx -> Ho E. apply H in E as [E _]. unfold declares. rewrite Ho.
    destruct (E eq_refl). split; [done|]. auto.
  - intros x seen ps st budget st' budget' -> Ho E. apply H in E as [_ E]. unfold declares. rewrite Ho. by apply E.
Qed.

(** No exposure walk of the registry could take more steps than an [int] counts. *)
Definition countable_parts types : Prop :=
  (walk_cost (part_sources types) (props_cost types) (dom types) <= MaxInt)%Z.

Lemma ExposedProps_elem d root prop :
  countable_parts (Document_Types d) →
  prop ∈ ExposedProps (Some d) root ↔
  ∃ x, rtc (leads (part_sources (Document_Types d))) root x ∧ declares (Document_Types d) x prop.
Proof.
  intros Hf. unfold ExposedProps.
  destruct (exposedWalk_run (λ p props, (false, {[p]} ∪ props)) (Document_Types d) (λ _, False)
    (collected (Document_Types d)) (λ _, True) d root ∅ MaxInt eq_refl) as (o & st & b & Hfound & -> & Ha & _).
  { intros p. set_solver. }
  cbn [fst]. destruct o; [by destruct Hfound as (_ & x & _ & [])|by apply Ha in Hf|].
  destruct Hfound as (_ & seen & Hseen & Hst). rewrite (Hst prop). by setoid_rewrite Hseen.
Qed.

Lemma ExposedProps_leads doc root prop :
  countable_parts (doc_types doc) →
  prop ∈ ExposedProps doc root ↔
  ∃ x, rtc (leads (part_sources (doc_types doc))) root x ∧ declares (doc_types doc) x prop.
Proof.
  destruct doc as [d|]; [apply ExposedProps_elem|]. intros _. split; [done|].
  intros (x & _ & Hx). unfold declares, own_props in Hx. cbn [doc_types from_option] in Hx.
  rewrite lookup_empty in Hx. by apply not_elem_of_nil in Hx.
Qed.

(** A walk that its limit sufficed answers exactly, and a limit of the whole
    walk's cost always suffices. *)
Lemma ExposesWithin_answers doc root prop (limit : Z) :
  let r := ExposesWithin doc root prop limit in
  (r.2 = true → (r.1.1 = true ↔ ∃ x, rtc (leads (part_sources (doc_types doc))) root x ∧ declares (doc_types doc) x prop)) ∧
  ((walk_cost (part_sources (doc_types doc)) (props_cost (doc_types doc)) (dom (doc_types doc)) <= limit)%Z → r.2 = true).
Proof.
  cbv zeta. destruct doc as [d|].
  2: { split; [|done]. intros _. split; [done|]. intros (x & _ & Hx). unfold declares, own_props in Hx. cbn [doc_types from_option] in Hx.
       rewrite lookup_empty in Hx. by apply not_elem_of_nil in Hx. }
  unfold ExposesWithin. cbn [doc_types from_option] in *.
  destruct (exposedWalk_run (λ p _, (bool_decide (p = prop), bool_decide (p = prop))) (Document_Types d)
    (λ x, declares (Document_Types d) x prop) (λ _ st, st = false) (λ st, st = true) d root false limit eq_refl eq_refl)
    as (o & st & b & Hfound & -> & Ha & _). cbn [fst snd]. split; [|intros Hc; by apply bool_decide_eq_true_2, Ha].
  intros Ho%bool_decide_eq_true. destruct o; [|done|].
  - destruct Hfound as (-> & x & Hx & Hd). split; [|done]. intros _. by exists x.
  - destruct Hfound as (Hn & seen & _ & ->). split; [done|]. intros (x & Hx & Hd). by apply (Hn x) in Hd.
Qed.

(** the properties a root exposes are exactly those declared by the types it
    leads to through Base, Implements, Mixins and alias scalars, itself included,
    however the composition cycles; and nothing is exposed of a missing document. *)
Theorem ExposedProps_exact doc root prop :
  countable_parts (doc_types doc) →
  prop ∈ ExposedProps doc root ↔
  ∃ x, rtc (leads (part_sources (doc_types doc))) root x ∧ declares (doc_types doc) x prop.
Proof. apply ExposedProps_leads. Qed.

(** The bounded question answers as [ExposedProps] does wherever its limit
    suffices, spends no more than the limit, and gives the same answer at the same
    cost under any larger limit. *)
Theorem ExposesWithin_bounded doc root prop (limit : Z) exposed spent ok :
  countable_parts (doc_types doc) → (0 <= limit)%Z → ExposesWithin doc root prop limit = (exposed, spent, ok) →
  (0 <= spent <= limit)%Z ∧
  (ok = true → (exposed = true ↔ prop ∈ ExposedProps doc root) ∧
    ∀ more, (0 <= more)%Z → ExposesWithin doc root prop (limit + more) = (exposed, spent, true)) ∧
  ((walk_cost (part_sources (doc_types doc)) (props_cost (doc_types doc)) (dom (doc_types doc)) <= limit)%Z → ok = true).
Proof.
  intros Hf Hl. destruct doc as [d|].
  2: { intros [= <- <- <-]. split_and!; [lia..| |done]. intros _. split; [done|]. intros more _. unfold ExposesWithin. simpl.
       do 2 f_equal. lia. }
  unfold ExposesWithin. cbn [doc_types from_option] in *.
  destruct (exposedWalk_run (λ p _, (bool_decide (p = prop), bool_decide (p = prop))) (Document_Types d)
    (λ x, declares (Document_Types d) x prop) (λ _ st, st = false) (λ st, st = true) d root false limit eq_refl eq_refl)
    as (o & st & b & Hfound & -> & Ha & Hs & Hmore). specialize (Hs Hl).
  intros [= -> <- <-]. split_and!; [lia..| |intros Hc; by apply bool_decide_eq_true_2, Ha].
  intros Ho%bool_decide_eq_true. split; [|intros more Hm; rewrite Hmore by done; do 2 f_equal; lia].
  rewrite ExposedProps_elem by done. destruct o; [|done|].
  - destruct Hfound as (-> & x & Hx & Hd). split; [|done]. intros _. by exists x.
  - destruct Hfound as (Hn & seen & _ & ->). split; [done|]. intros (x & Hx & Hd). by apply (Hn x) in Hd.
Qed.

Lemma pets_parts : countable_parts pets.
Proof. unfold countable_parts. apply Z.leb_le. vm_compute. reflexivity. Qed.

Lemma ExposedProps_exact_witness :
  go "p/animal/name" ∈ ExposedProps (Some pets_doc) (go "t/cat") ∧
  ∃ x, rtc (leads (part_sources pets)) (go "t/cat") x ∧ declares pets x (go "p/animal/name").
Proof.
  assert (H : go "p/animal/name" ∈ ExposedProps (Some pets_doc) (go "t/cat"))
    by (apply (proj1 (bool_decide_eq_true _)); vm_compute; reflexivity).
  split; [exact H|].
  exact (proj1 (ExposedProps_exact (Some pets_doc) (go "t/cat") (go "p/animal/name") pets_parts) H).
Defined.

Lemma ExposesWithin_bounded_witness :
  ExposesWithin (Some pets_doc) (go "t/cat") (go "p/pet/name") 5 = (true, 5%Z, true) ∧
  go "p/pet/name" ∈ ExposedProps (Some pets_doc) (go "t/cat").
Proof.
  assert (H : ExposesWithin (Some pets_doc) (go "t/cat") (go "p/pet/name") 5 = (true, 5%Z, true)) by (vm_compute; reflexivity).
  split; [exact H|].
  destruct (ExposesWithin_bounded (Some pets_doc) (go "t/cat") (go "p/pet/name") 5 true 5 true pets_parts ltac:(discriminate) H)
    as (_ & Ho & _).
  destruct (Ho eq_refl) as [Hi _]. exact (proj1 Hi eq_refl).
Defined.
