(* ===== verification/Registry.v ===== *)
(** * Registry: the type registry of one compile
    ([src/compilers/compile/types.go], [promise.go] and [settle.go])

    A lowering is a program of registry operations: what a closure handed to
    [Intern] or [Promise] does to the registry, and the node or findings it
    returns. The programs are data ([op]), so a registry that stores promised
    builds stays first order, and every sequence of calls, recursive ones
    included, is one of them. *)
From S2P Require Import Prelude GoLib IR Ids Findings.
Implicit Types (pointer coordinate space : gostring) (id : TypeID) (td : TypeDef).

(** ** Lowerings *)

Definition IsNilTypeDef td : bool := match td with NilDef _ => true | _ => false end.

(** A settlement writes the registry it is handed, as it may and as it must not,
    and registers through the registry's own operation. *)
Inductive settle_op :=
  | Rewrite id td      (* reg[id] = td *)
  | Remove id          (* delete(reg, id) *)
  | SettleRegister id td.
Record Settlement := { settle_ops : list settle_op; settle_diags : list Diagnostic }.

#[warnings="-register-all"]
Inductive op :=
  | OpIntern pointer id (build : option (list op * TypeDef))
  | OpRegister id td
  | OpPrimRef (k : PrimKind)
  | OpPromise coordinate (build : option (list op * list Diagnostic))
  | OpDefer (s : option Settlement)
  | OpComplete (s : option Settlement).

(** Why an entry was refused. *)
Inductive refusal :=
  | InternRejected pointer id (nil_build : bool)
  | NilBuild id pointer
  | TwoCoordinates id (owner pointer : gostring)
  | SharedNamespace space id
  | RegisterEmptyID
  | RegisterNil id
  | RegisterDifferent id
  | PromiseAfter coordinate
  | PromiseRejected coordinate (nil_build : bool)
  | QueueAfter
  | QueueNil
  | PromiseUnkept coordinate
  | SettlementResized (before after registered : nat).

(** ** State *)

Record Types := mkTypes {
  reg : TypeRegistry;
  byPointer : gmap gostring TypeID;
  spaces : gmap gostring bool;
  byID : gmap TypeID gostring;
  promised : gset gostring;
  promises : gmap gostring (list op * list Diagnostic);
  refused : list refusal;
  completing : list Settlement;
  pending : list Settlement;
  reported : nat;
  minted : nat;
  fulfilled : bool;
  settled : bool
}.
Definition NewTypes : Types := mkTypes ∅ ∅ ∅ ∅ ∅ ∅ [] [] [] 0 0 false false.

Definition set_reg f (t : Types) : Types :=
  let '(mkTypes r p s i q b e c d n m u v) := t in mkTypes (f r) p s i q b e c d n m u v.
Definition set_byPointer f (t : Types) : Types :=
  let '(mkTypes r p s i q b e c d n m u v) := t in mkTypes r (f p) s i q b e c d n m u v.
Definition set_spaces f (t : Types) : Types :=
  let '(mkTypes r p s i q b e c d n m u v) := t in mkTypes r p (f s) i q b e c d n m u v.
Definition set_byID f (t : Types) : Types :=
  let '(mkTypes r p s i q b e c d n m u v) := t in mkTypes r p s (f i) q b e c d n m u v.
Definition set_promises f g (t : Types) : Types :=
  let '(mkTypes r p s i q b e c d n m u v) := t in mkTypes r p s i (f q) (g b) e c d n m u v.
Definition set_queues f g (t : Types) : Types :=
  let '(mkTypes r p s i q b e c d n m u v) := t in mkTypes r p s i q b e (f c) (g d) n m u v.
Definition set_reported f (t : Types) : Types :=
  let '(mkTypes r p s i q b e c d n m u v) := t in mkTypes r p s i q b e c d (f n) m u v.
Definition set_minted f (t : Types) : Types :=
  let '(mkTypes r p s i q b e c d n m u v) := t in mkTypes r p s i q b e c d n (f m) u v.
Definition set_fulfilled (t : Types) : Types :=
  let '(mkTypes r p s i q b e c d n m u v) := t in mkTypes r p s i q b e c d n m true v.
Definition set_settled (t : Types) : Types :=
  let '(mkTypes r p s i q b e c d n m u v) := t in mkTypes r p s i q b e c d n m u true.

Definition refuse (why : refusal) (t : Types) : Types :=
  let '(mkTypes r p s i q b e c d n m u v) := t in mkTypes r p s i q b (e ++ [why]) c d n m u v.

(** ** Operations *)

Definition claimID id pointer (t : Types) : Types :=
  match byID t !! id with
  | Some owner =>
      if negb (bool_decide (owner = pointer)) then refuse (TwoCoordinates id owner pointer) t
      else set_byID <[id := pointer]> t
  | None => set_byID <[id := pointer]> t
  end.

Definition claimSpace id (mint : bool) (t : Types) : Types :=
  let space := spaceOf id in
  if bool_decide (space = []) then t
  else match spaces t !! space with
       | Some was => if negb (eqb was mint) then refuse (SharedNamespace space id) t
                     else set_spaces <[space := mint]> t
       | None => set_spaces <[space := mint]> t
       end.

(** [Intern], [build] being what the closure does to the registry and returns. *)
Definition Intern pointer id (build : option (Types → Types * TypeDef)) (t : Types) : Types * TypeID :=
  match byPointer t !! pointer with
  | Some existing => (t, existing)
  | None =>
      match build with
      | Some build =>
          if bool_decide (pointer = []) || bool_decide (id = []) then (refuse (InternRejected pointer id false) t, id)
          else
            let t := set_byPointer <[pointer := id]> (claimID id pointer (claimSpace id false t)) in
            let '(t, td) := build t in
            if IsNilTypeDef td then
              (refuse (NilBuild id pointer) (set_byID (delete id) (set_byPointer (delete pointer) t)), id)
            else (set_reg <[id := td]> t, id)
      | None => (refuse (InternRejected pointer id true) t, id)
      end
  end.

Section DeepEqual.
(** [reflect.DeepEqual] on two nodes. *)
Context (DeepEqual : TypeDef → TypeDef → bool).

Definition Register id td (t : Types) : Types :=
  if bool_decide (id = []) then refuse RegisterEmptyID t
  else if IsNilTypeDef td then refuse (RegisterNil id) t
  else
    let t := claimSpace id true t in
    match reg t !! id with
    | Some held => if negb (DeepEqual held td) then refuse (RegisterDifferent id) t else t
    | None => set_reg <[id := td]> (set_minted S t)
    end.

Definition Lookup (t : Types) pointer : option TypeID := byPointer t !! pointer.
Definition Node (t : Types) id : option TypeDef := reg t !! id.
Definition NodeAt (t : Types) pointer : option TypeDef := byPointer t !! pointer ≫= λ id, reg t !! id.
Definition Building (t : Types) id : bool :=
  match byID t !! id with None => false | Some _ => bool_decide (reg t !! id = None) end.

Definition primitive_node (k : PrimKind) : TypeDef :=
  PrimitiveDef (mkPrimitive (mkTypeCommon (PrimTypeID k) zeroNaming [] false zeroDocs [] false [] None None ∅ [] None []
    None ∅ (mkProvenance NoSource [] zeroPosition [] [])) k).
Definition PrimRef (k : PrimKind) (t : Types) : Types * TypeRef :=
  let id := PrimTypeID k in
  let t := match reg t !! id with Some _ => t | None => set_reg <[id := primitive_node k]> t end in
  (t, mkTypeRef id false []).
Definition PrimID (k : PrimKind) (t : Types) : Types * TypeID :=
  let '(t, r) := PrimRef k t in (t, TypeRef_Target r).

Definition Promise coordinate (build : option (list op * list Diagnostic)) (t : Types) : Types :=
  if fulfilled t then refuse (PromiseAfter coordinate) t
  else match build with
       | None => refuse (PromiseRejected coordinate true) t
       | Some b =>
           if bool_decide (coordinate = []) then refuse (PromiseRejected coordinate false) t
           else if bool_decide (coordinate ∈ promised t) then t
           else set_promises (λ q, {[coordinate]} ∪ q) <[coordinate := b]> t
       end.

Definition queue (complete : bool) (s : option Settlement) (t : Types) : Types :=
  if settled t then refuse QueueAfter t
  else match s with
       | None => refuse QueueNil t
       | Some s => if complete then set_queues (λ c, c ++ [s]) (λ d, d) t else set_queues (λ c, c) (λ d, d ++ [s]) t
       end.
Definition Defer s t := queue false s t.
Definition Complete s t := queue true s t.

(** What a program of operations does. *)
Fixpoint exec (o : op) (t : Types) : Types :=
  match o with
  | OpIntern pointer id None => (Intern pointer id None t).1
  | OpIntern pointer id (Some (body, td)) =>
      (Intern pointer id (Some (λ t, (foldl (λ t o, exec o t) t body, td))) t).1
  | OpRegister id td => Register id td t
  | OpPrimRef k => (PrimRef k t).1
  | OpPromise coordinate build => Promise coordinate build t
  | OpDefer s => Defer s t
  | OpComplete s => Complete s t
  end.
Definition exec_all (ops : list op) (t : Types) : Types := foldl (λ t o, exec o t) t ops.

(** ** Finishing *)

(** A cancelled context stops a run between steps: [live n] says whether the
    context still stands at the [n]th check. *)
Context (live : nat → bool).

(** [slices.Sorted(maps.Keys(round))] with each key's build. *)
Definition coordinate_le (a b : gostring * (list op * list Diagnostic)) : Prop := string_le a.1 b.1.
#[local] Instance coordinate_le_dec a b : Decision (coordinate_le a b).
Proof. unfold coordinate_le. apply _. Defined.
Definition sorted_round (round : gmap gostring (list op * list Diagnostic)) : list (gostring * (list op * list Diagnostic)) :=
  merge_sort coordinate_le (map_to_list round).

(** One round of [fulfil]: its findings, the checks made, and whether it went on. *)
Fixpoint fulfil_round (round : list (gostring * (list op * list Diagnostic))) (n : nat) (t : Types) :
    Types * list Diagnostic * nat * bool :=
  match round with
  | [] => (t, [], n, true)
  | (coordinate, (body, found)) :: round =>
      if negb (live n) then (t, [], S n, false)
      else match byPointer t !! coordinate with
           | Some _ => fulfil_round round (S n) t
           | None =>
               let t := exec_all body t in
               let t := match byPointer t !! coordinate with
                        | Some _ => t
                        | None => refuse (PromiseUnkept coordinate) t
                        end in
               let '(t, diags, n, more) := fulfil_round round (S n) t in
               (t, found ++ diags, n, more)
           end
  end.

Fixpoint fulfil_rounds (fuel : nat) (n : nat) (t : Types) : option (Types * list Diagnostic * nat) :=
  match fuel with
  | O => None
  | S fuel =>
      if bool_decide (promises t = ∅) then Some (t, [], n)
      else
        let round := sorted_round (promises t) in
        let '(t, diags, n, more) := fulfil_round round n (set_promises (λ q, q) (λ _, ∅) t) in
        if negb more then Some (t, diags, n)
        else match fulfil_rounds fuel n t with
             | None => None
             | Some (t, rest, n) => Some (t, diags ++ rest, n)
             end
  end.

Definition fulfil (fuel n : nat) (t : Types) : option (Types * list Diagnostic * nat) :=
  match fulfil_rounds fuel n t with
  | None => None
  | Some (t, diags, n) => Some (set_fulfilled t, diags, n)
  end.

Definition settle_step (t : Types) (o : settle_op) : Types :=
  match o with
  | Rewrite id td => set_reg <[id := td]> t
  | Remove id => set_reg (delete id) t
  | SettleRegister id td => Register id td t
  end.

Fixpoint settle_loop (queued : list Settlement) (n : nat) (t : Types) : Types * list Diagnostic :=
  match queued with
  | [] => (t, [])
  | s :: rest =>
      if negb (live n) then (t, [])
      else
        let '(before, minted0) := (size (reg t), minted t) in
        let t := foldl settle_step t (settle_ops s) in
        let after := size (reg t) in
        let t := if negb (after =? before + minted t - minted0)
                 then refuse (SettlementResized before after (minted t - minted0)) t else t in
        let '(t, diags) := settle_loop rest (S n) t in
        (t, settle_diags s ++ diags)
  end.

Definition settle (n : nat) (t : Types) : Types * list Diagnostic :=
  let t := set_settled t in
  let queued := completing t ++ pending t in
  settle_loop queued n (set_queues (λ _, []) (λ _, []) t).

Definition RegistryRefused := go "compile/registry-refused".

(** The text of a refusal is the code's format; the finding's code and severity
    are what a consumer reads. *)
Context (explain : refusal → gostring).
Definition refusal_finding (why : refusal) : Diagnostic :=
  mkDiagnostic SeverityError RegistryRefused (explain why) (mkProvenance NoSource [] zeroPosition [] []).

Definition Finish (fuel : nat) (t : Types) : option (Types * TypeRegistry * list Diagnostic) :=
  match fulfil fuel 0 t with
  | None => None
  | Some (t, built, n) =>
      let '(t, settled) := settle n t in
      let reports := refusal_finding <$> drop (reported t) (refused t) in
      let t := set_reported (λ _, length (refused t)) t in
      Some (t, reg t, built ++ settled ++ reports)
  end.
End DeepEqual.

(** ** Induction on programs *)

Section Induction.
Context (P : op → Prop).
Context (HIntern : ∀ pointer id build, (∀ body td, build = Some (body, td) → Forall P body) → P (OpIntern pointer id build)).
Context (HRegister : ∀ id td, P (OpRegister id td)) (HPrim : ∀ k, P (OpPrimRef k)).
Context (HPromise : ∀ coordinate build, (∀ body found, build = Some (body, found) → Forall P body) → P (OpPromise coordinate build)).
Context (HDefer : ∀ s, P (OpDefer s)) (HComplete : ∀ s, P (OpComplete s)).

Fixpoint op_induction (o : op) : P o.
Proof.
  assert (all : ∀ ops, Forall P ops → Forall P ops) by done.
  refine (match o with
          | OpIntern pointer id build => HIntern pointer id build _
          | OpRegister id td => HRegister id td
          | OpPrimRef k => HPrim k
          | OpPromise coordinate build => HPromise coordinate build _
          | OpDefer s => HDefer s
          | OpComplete s => HComplete s
          end); destruct build as [[body x]|]; intros body' x' E; try discriminate E;
    injection E as <- <-; clear -op_induction; induction body as [|o' body IH]; constructor; auto.
Defined.
End Induction.

(** ** Invariants *)

(** What holds of a registry with [building] coordinates under construction. *)
Record separate (t : Types) : Prop := {
  one_coordinate p id : byPointer t !! p = Some id → byID t !! id = Some p;
  source_space p id : byPointer t !! p = Some id → spaceOf id ≠ [] → spaces t !! spaceOf id = Some false;
  registered_space id : id ∈ dom (reg t) →
    (∃ p, byPointer t !! p = Some id) ∨ (∃ k, id = PrimTypeID k) ∨ spaceOf id = [] ∨ spaces t !! spaceOf id = Some true
}.

Record holds (building : gset gostring) (t : Types) : Prop := {
  node_at p id : byPointer t !! p = Some id → p ∈ building ∨ id ∈ dom (reg t);
  unrefused : refused t = [] → separate t
}.

(** What no operation undoes. *)
Record grows (t t' : Types) : Prop := {
  grows_pointer p id : byPointer t !! p = Some id → byPointer t' !! p = Some id;
  grows_reg : dom (reg t) ⊆ dom (reg t');
  grows_refused : refused t `prefix_of` refused t'
}.

#[export] Instance grows_preorder : PreOrder grows.
Proof.
  split; [intros t; by constructor|]. intros t1 t2 t3 [] []. constructor; [auto|set_solver|by etrans].
Qed.

Lemma refused_later t t' : grows t t' → refused t' = [] → refused t = [].
Proof. intros [_ _ Hp] E. rewrite E in Hp. by apply prefix_nil_inv in Hp. Qed.

Ltac registry := repeat match goal with t : Types |- _ => destruct t end; simpl in *.

Lemma refuse_grows why t : grows t (refuse why t).
Proof. registry. constructor; simpl; [done|done|by eexists]. Qed.

Lemma refuse_refused why t : refused (refuse why t) ≠ [].
Proof. registry. by destruct refused0. Qed.

Lemma refuse_holds why b t : holds b t → holds b (refuse why t).
Proof.
  intros H. constructor; [intros p id; pose proof (node_at _ _ H p id); by registry|].
  intros E. by apply refuse_refused in E.
Qed.

(** ** Claims *)

Lemma claimSpace_other id mint t :
  byPointer (claimSpace id mint t) = byPointer t ∧ byID (claimSpace id mint t) = byID t ∧
  reg (claimSpace id mint t) = reg t.
Proof. unfold claimSpace. registry. by repeat case_match. Qed.

Lemma claimID_other id pointer t :
  byPointer (claimID id pointer t) = byPointer t ∧ spaces (claimID id pointer t) = spaces t ∧
  reg (claimID id pointer t) = reg t.
Proof. unfold claimID. registry. by repeat case_match. Qed.

Lemma claimSpace_grows id mint t : grows t (claimSpace id mint t).
Proof.
  destruct (claimSpace_other id mint t) as (Hp & _ & Hr). constructor; rewrite ?Hp, ?Hr; [done..|].
  unfold claimSpace. registry. repeat case_match; simpl; try done. by eexists.
Qed.

Lemma claimID_grows id pointer t : grows t (claimID id pointer t).
Proof.
  destruct (claimID_other id pointer t) as (Hp & _ & Hr). constructor; rewrite ?Hp, ?Hr; [done..|].
  unfold claimID. registry. repeat case_match; simpl; try done. by eexists.
Qed.

(** A claim that was not refused. *)
Lemma claimSpace_spaces id mint t space was :
  refused (claimSpace id mint t) = [] → spaces t !! space = Some was → spaces (claimSpace id mint t) !! space = Some was.
Proof.
  unfold claimSpace. registry. case_bool_decide; [done|].
  destruct (spaces0 !! spaceOf id) as [b|] eqn:E; simpl.
  - destruct (eqb b mint) eqn:Eb; simpl; [|by destruct refused0]. apply eqb_prop in Eb as ->. intros _ Hs.
    destruct (decide (space = spaceOf id)) as [->|]; [rewrite lookup_insert_eq; congruence|by rewrite lookup_insert_ne].
  - intros _ Hs. rewrite lookup_insert_ne; [done|congruence].
Qed.

Lemma claimSpace_claims id mint t :
  refused (claimSpace id mint t) = [] → spaceOf id ≠ [] → spaces (claimSpace id mint t) !! spaceOf id = Some mint.
Proof.
  unfold claimSpace. registry. intros E Hs. revert E. rewrite bool_decide_eq_false_2 by done.
  destruct (spaces0 !! spaceOf id) as [b|]; simpl; [|by rewrite lookup_insert_eq].
  destruct (eqb b mint); simpl; [by rewrite lookup_insert_eq|by destruct refused0].
Qed.

Lemma claimSpace_holds b id mint t : holds b t → holds b (claimSpace id mint t).
Proof.
  intros H. pose proof (claimSpace_other id mint t) as (Hp & Hi & Hr). pose proof (claimSpace_grows id mint t) as Hg.
  constructor; [rewrite Hp, Hr; apply H|]. intros E. destruct (unrefused _ _ H (refused_later _ _ Hg E)) as [H1 H2 H3].
  constructor.
  - rewrite Hp, Hi. apply H1.
  - rewrite Hp. intros p i Hpi Hs. apply claimSpace_spaces; [done|]. by eapply H2.
  - rewrite Hp, Hr. intros i Hin. destruct (H3 i Hin) as [?|[?|[?|Hs]]]; [by left|by right; left|by right; right; left|].
    right; right; right. by apply claimSpace_spaces.
Qed.

(** ** Interning *)

Definition opened pointer id (t : Types) : Types :=
  set_byPointer <[pointer := id]> (claimID id pointer (claimSpace id false t)).

Lemma claimID_claims id pointer t :
  refused (claimID id pointer t) = [] → byID (claimID id pointer t) !! id = Some pointer.
Proof.
  unfold claimID. registry. destruct (byID0 !! id) as [owner|] eqn:Eo; simpl.
  - intros E. revert E. case_bool_decide; simpl; [by rewrite lookup_insert_eq|by destruct refused0].
  - by rewrite lookup_insert_eq.
Qed.

Lemma claimID_keeps id pointer t id' p :
  refused (claimID id pointer t) = [] → byID t !! id' = Some p → byID (claimID id pointer t) !! id' = Some p.
Proof.
  unfold claimID. registry. destruct (byID0 !! id) as [owner|] eqn:Eo; simpl.
  - case_bool_decide as Ho; simpl; [|by destruct refused0]. subst owner. intros _ Hp.
    destruct (decide (id' = id)) as [->|]; [by rewrite lookup_insert_eq; congruence|by rewrite lookup_insert_ne].
  - intros _ Hp. rewrite lookup_insert_ne; [done|congruence].
Qed.

Lemma opened_fields pointer id t :
  byPointer (opened pointer id t) = <[pointer := id]> (byPointer t) ∧
  reg (opened pointer id t) = reg t ∧
  spaces (opened pointer id t) = spaces (claimSpace id false t) ∧
  byID (opened pointer id t) = byID (claimID id pointer (claimSpace id false t)) ∧
  refused (opened pointer id t) = refused (claimID id pointer (claimSpace id false t)).
Proof.
  pose proof (claimSpace_other id false t) as (<- & _ & <-).
  pose proof (claimID_other id pointer (claimSpace id false t)) as (<- & <- & <-).
  unfold opened. by destruct (claimID id pointer (claimSpace id false t)).
Qed.

Lemma opened_grows pointer id t : byPointer t !! pointer = None → grows t (opened pointer id t).
Proof.
  intros Hn. destruct (opened_fields pointer id t) as (Hp & Hr & _ & _ & Hf).
  constructor; [|by rewrite Hr|].
  - intros p i Hpi. rewrite Hp, lookup_insert_ne; [done|congruence].
  - rewrite Hf. etrans; [apply claimSpace_grows|apply claimID_grows].
Qed.

Lemma opened_holds b pointer id t :
  byPointer t !! pointer = None → holds b t → holds ({[pointer]} ∪ b) (opened pointer id t).
Proof.
  intros Hn H. destruct (opened_fields pointer id t) as (Hp & Hr & Hs & Hi & Hf).
  pose proof (claimID_grows id pointer (claimSpace id false t)) as Hg.
  constructor.
  - rewrite Hp, Hr. intros p i. destruct (decide (p = pointer)) as [->|]; [set_solver|].
    rewrite lookup_insert_ne by done. intros Hpi. destruct (node_at _ _ H p i Hpi); set_solver.
  - rewrite Hf. intros E. pose proof (refused_later _ _ Hg E) as E'.
    destruct (unrefused _ _ (claimSpace_holds b id false t H) E') as [H1 H2 H3].
    pose proof (claimSpace_other id false t) as (Hp' & Hi' & Hr'). rewrite Hp', ?Hr' in *.
    constructor.
    + rewrite Hp, Hi. intros p i. destruct (decide (p = pointer)) as [->|].
      * rewrite lookup_insert_eq. intros [= <-]. by apply claimID_claims.
      * rewrite lookup_insert_ne by done. intros Hpi. apply claimID_keeps; [done|]. by apply H1.
    + rewrite Hp, Hs. intros p i. destruct (decide (p = pointer)) as [->|].
      * rewrite lookup_insert_eq. intros [= <-] Hne. by apply claimSpace_claims.
      * rewrite lookup_insert_ne by done. apply H2.
    + rewrite Hp, Hr, Hs. intros i Hin. destruct (H3 i Hin) as [(p & Hpi)|?]; [|by right].
      left. exists p. rewrite lookup_insert_ne; [done|congruence].
Qed.

Definition closed pointer id td (t : Types) : Types :=
  if IsNilTypeDef td then refuse (NilBuild id pointer) (set_byID (delete id) (set_byPointer (delete pointer) t))
  else set_reg <[id := td]> t.

Lemma closed_grows pointer id td t0 t :
  byPointer t0 !! pointer = None → grows t0 t → grows t0 (closed pointer id td t).
Proof.
  intros Hn [Hp Hr Hf]. unfold closed. destruct (IsNilTypeDef td); registry; constructor; simpl; try done.
  - intros p i Hpi. rewrite lookup_delete_ne; [by apply Hp|congruence].
  - etrans; [done|by eexists].
  - rewrite dom_insert. set_solver.
Qed.

Lemma closed_holds b pointer id td t :
  byPointer t !! pointer = Some id → holds ({[pointer]} ∪ b) t → holds b (closed pointer id td t).
Proof.
  intros Hpi H. unfold closed. destruct (IsNilTypeDef td) eqn:Htd.
  - constructor; [|intros E; by apply refuse_refused in E].
    pose proof (node_at _ _ H) as Hn. registry. intros p i.
    destruct (decide (p = pointer)) as [->|]; [by rewrite lookup_delete_eq|]. rewrite lookup_delete_ne by done.
    intros Hq. destruct (Hn p i Hq); set_solver.
  - constructor.
    + pose proof (node_at _ _ H) as Hn. registry. intros p i Hq. rewrite dom_insert.
      destruct (decide (p = pointer)) as [->|]; [right; set_solver|]. destruct (Hn p i Hq); set_solver.
    + intros E. assert (E' : refused t = []) by (by registry). destruct (unrefused _ _ H E') as [H1 H2 H3].
      registry. constructor; simpl; [done..|]. intros i. rewrite dom_insert, elem_of_union, elem_of_singleton.
      intros [->|Hin]; [left; by exists pointer|by apply H3].
Qed.

Lemma Intern_step pointer id build t :
  (∃ r, (Intern pointer id build t).1 = r ∧
    (r = t ∨ (∃ why, r = refuse why t) ∨
     ∃ run t' td, build = Some run ∧ byPointer t !! pointer = None ∧ pointer ≠ [] ∧ id ≠ [] ∧
       run (opened pointer id t) = (t', td) ∧ r = closed pointer id td t')).
Proof.
  eexists. split; [done|]. unfold Intern. destruct (byPointer t !! pointer) eqn:Hp; [by left|].
  destruct build as [run|]; [|right; left; by eexists].
  destruct (bool_decide_reflect (pointer = [])); [right; left; by eexists|].
  destruct (bool_decide_reflect (id = [])); [right; left; by eexists|]. simpl.
  right; right. fold (opened pointer id t). destruct (run (opened pointer id t)) as [t' td] eqn:E.
  exists run, t', td. split_and!; [done..|]. unfold closed. by destruct (IsNilTypeDef td).
Qed.

(** ** Programs *)

Section Programs.
Context (DeepEqual : TypeDef → TypeDef → bool).

(** An operation that keeps the invariant and undoes nothing. *)
Definition keeps (f : Types → Types) : Prop := ∀ b t, holds b t → holds b (f t) ∧ grows t (f t).

Lemma keeps_refuse why : keeps (refuse why).
Proof. intros b t H. split; [by apply refuse_holds|apply refuse_grows]. Qed.

(** Fields the invariant does not read. *)
Lemma keeps_unread f :
  (∀ t, byPointer (f t) = byPointer t ∧ byID (f t) = byID t ∧ reg (f t) = reg t ∧ spaces (f t) = spaces t ∧ refused (f t) = refused t) →
  keeps f.
Proof.
  intros Hf b t H. destruct (Hf t) as (E1 & E2 & E3 & E4 & E5). destruct H as [H1 H2]. split.
  - constructor; [by rewrite E1, E3|]. rewrite E5. intros E. destruct (H2 E) as [S1 S2 S3].
    constructor; by rewrite ?E1, ?E2, ?E3, ?E4.
  - constructor; by rewrite ?E1, ?E3, ?E5.
Qed.

Lemma keeps_compose f g : keeps f → keeps g → keeps (λ t, g (f t)).
Proof. intros Hf Hg b t H. destruct (Hf b t H) as [H1 G1]. destruct (Hg b _ H1) as [H2 G2]. split; [done|by etrans]. Qed.

Lemma claimSpace_keeps id mint : keeps (claimSpace id mint).
Proof. intros b t H. split; [by apply claimSpace_holds|apply claimSpace_grows]. Qed.

Lemma insert_keeps b id td t :
  holds b t → (refused t = [] → (∃ p, byPointer t !! p = Some id) ∨ (∃ k, id = PrimTypeID k) ∨ spaceOf id = [] ∨ spaces t !! spaceOf id = Some true) →
  holds b (set_reg <[id := td]> t) ∧ grows t (set_reg <[id := td]> t).
Proof.
  intros [H1 H2] Hid. registry. split; constructor; simpl; try done.
  - intros p i Hp. rewrite dom_insert. destruct (H1 p i Hp); set_solver.
  - intros E. destruct (H2 E) as [S1 S2 S3]. specialize (Hid E). constructor; simpl in *; [done..|].
    intros i. rewrite dom_insert, elem_of_union, elem_of_singleton. intros [->|Hin]; [done|by apply S3].
  - rewrite dom_insert. set_solver.
Qed.

Lemma Register_keeps id td : keeps (Register DeepEqual id td).
Proof.
  intros b t H. unfold Register. destruct (bool_decide_reflect (id = [])) as [|Hid]; [by apply keeps_refuse|].
  destruct (IsNilTypeDef td); [by apply keeps_refuse|].
  destruct (claimSpace_keeps id true b t H) as [H' G']. pose proof (claimSpace_claims id true t) as Hc.
  destruct (reg (claimSpace id true t) !! id) as [held|].
  - destruct (negb _); [|done]. destruct (keeps_refuse (RegisterDifferent id) b _ H') as [H2 G2]. split; [done|by etrans].
  - destruct (keeps_unread (set_minted S) ltac:(by intros []) b _ H') as [H2 G2].
    destruct (insert_keeps b id td _ H2) as [H3 G3].
    + intros E. assert (E' : refused (claimSpace id true t) = []) by (by destruct (claimSpace id true t)).
      right; right. destruct (decide (spaceOf id = [])) as [->|Hs]; [by left|right].
      specialize (Hc E' Hs). by destruct (claimSpace id true t).
    + split; [done|]. by do 2 (etrans; [done|]).
Qed.

Lemma PrimRef_keeps k : keeps (λ t, (PrimRef k t).1).
Proof.
  intros b t H. unfold PrimRef. simpl. destruct (reg t !! PrimTypeID k); [done|].
  apply insert_keeps; [done|]. intros _. right; left. by exists k.
Qed.

Lemma Promise_keeps coordinate build : keeps (Promise coordinate build).
Proof.
  intros b t H. unfold Promise. destruct (fulfilled t); [by apply keeps_refuse|].
  destruct build; [|by apply keeps_refuse]. destruct (bool_decide _); [by apply keeps_refuse|].
  destruct (bool_decide _); [done|]. apply keeps_unread; [by intros []|done].
Qed.

Lemma queue_keeps complete s : keeps (queue complete s).
Proof.
  intros b t H. unfold queue. destruct (settled t); [by apply keeps_refuse|].
  destruct s; [|by apply keeps_refuse]. destruct complete; (apply keeps_unread; [by intros []|done]).
Qed.

Lemma foldl_keeps ops : Forall (λ o, keeps (exec DeepEqual o)) ops → keeps (λ t, foldl (λ t o, exec DeepEqual o t) t ops).
Proof.
  induction 1 as [|o ops Ho Hops IH]; intros b t H; [done|]. simpl.
  destruct (Ho b t H) as [H1 G1]. destruct (IH b _ H1) as [H2 G2]. split; [done|by etrans].
Qed.

Lemma Intern_keeps pointer id build :
  (∀ body td, build = Some (body, td) → Forall (λ o, keeps (exec DeepEqual o)) body) →
  keeps (exec DeepEqual (OpIntern pointer id build)).
Proof.
  intros Hbody b t H.
  set (run := (λ b, let '(body, td) := b in λ t, (foldl (λ t o, exec DeepEqual o t) t body, td)) <$> build).
  assert (E : exec DeepEqual (OpIntern pointer id build) t = (Intern pointer id run t).1) by (unfold run; by destruct build as [[]|]).
  rewrite E. destruct (Intern_step pointer id run t) as (r & -> & Hr).
  destruct Hr as [->|[[why ->]|(run' & t' & td & Erun & Hn & Hpne & Hine & Et & ->)]]; [done|by apply keeps_refuse|].
  destruct build as [[body td']|]; [|done]. injection Erun as <-. injection Et as <- <-.
  destruct (foldl_keeps body (Hbody _ _ eq_refl) _ _ (opened_holds b pointer id t Hn H)) as [H1 G1].
  pose proof (opened_grows pointer id t Hn) as G0. split.
  - apply closed_holds; [|done]. apply (grows_pointer _ _ G1).
    destruct (opened_fields pointer id t) as (-> & _). by rewrite lookup_insert_eq.
  - apply closed_grows; [done|]. by etrans.
Qed.

Lemma exec_keeps o : keeps (exec DeepEqual o).
Proof.
  induction o using op_induction.
  - by apply Intern_keeps.
  - apply Register_keeps.
  - apply PrimRef_keeps.
  - apply Promise_keeps.
  - apply queue_keeps.
  - apply queue_keeps.
Qed.

Lemma exec_all_keeps ops : keeps (exec_all DeepEqual ops).
Proof. apply foldl_keeps. apply Forall_forall. intros o _. apply exec_keeps. Qed.

Lemma NewTypes_holds : holds ∅ NewTypes.
Proof.
  constructor; simpl; [intros p id; by rewrite lookup_empty|]. intros _.
  constructor; simpl; intros *; rewrite ?lookup_empty, ?dom_empty; set_solver.
Qed.

(** *** The node of a coordinate stays *)

(** An operation that leaves every node built at a coordinate the one it is, where
    it refuses nothing. *)
Definition stays (f : Types → Types) : Prop := ∀ b t p id, holds b t → refused (f t) = [] →
  byPointer t !! p = Some id → p ∉ b → reg (f t) !! id = reg t !! id.

Lemma stays_same f : (∀ t, reg (f t) = reg t) → stays f.
Proof. intros Hf b t p id _ _ _ _. by rewrite Hf. Qed.

Lemma stays_compose f g : keeps f → stays f → keeps g → stays g → stays (λ t, g (f t)).
Proof.
  intros Kf Sf Kg Sg b t p id Hh Hr Hp Hb. destruct (Kf b t Hh) as [H1 G1], (Kg b _ H1) as [_ G2].
  rewrite (Sg b (f t) p id H1 Hr (grows_pointer _ _ G1 _ _ Hp) Hb). apply (Sf b t p id Hh); [|done|done].
  exact (refused_later _ _ G2 Hr).
Qed.

Lemma refuse_reg why t : reg (refuse why t) = reg t.
Proof. by destruct t. Qed.

(** A node is added only where there is none, or at the coordinate it is built for. *)
Lemma Register_stays id td : stays (Register DeepEqual id td).
Proof.
  intros b t p i Hh _ Hp Hb. assert (Hin : i ∈ dom (reg t)) by (destruct (node_at _ _ Hh p i Hp); [done|done]).
  unfold Register. destruct (bool_decide _); [by rewrite refuse_reg|]. destruct (IsNilTypeDef td); [by rewrite refuse_reg|].
  destruct (claimSpace_other id true t) as (_ & _ & Er). destruct (reg (claimSpace id true t) !! id) as [held|] eqn:E.
  - destruct (negb _); by rewrite ?refuse_reg, Er.
  - destruct (claimSpace id true t). cbn in *. subst. rewrite lookup_insert_ne; [done|]. intros ->. by apply elem_of_dom in Hin as [? ?]; congruence.
Qed.
Lemma PrimRef_stays k : stays (λ t, (PrimRef k t).1).
Proof.
  intros b t p i Hh _ Hp Hb. assert (Hin : i ∈ dom (reg t)) by (destruct (node_at _ _ Hh p i Hp); [done|done]).
  unfold PrimRef. cbn [fst]. destruct (reg t !! PrimTypeID k) eqn:E; [done|]. destruct t. cbn in *.
  rewrite lookup_insert_ne; [done|]. intros <-. by apply elem_of_dom in Hin as [? ?]; congruence.
Qed.
Lemma Promise_stays coordinate build : stays (Promise coordinate build).
Proof. apply stays_same. intros t. unfold Promise. registry. by repeat case_match. Qed.
Lemma queue_stays complete s : stays (queue complete s).
Proof. apply stays_same. intros t. unfold queue. registry. by repeat case_match. Qed.

Lemma foldl_stays ops : Forall (λ o, keeps (exec DeepEqual o)) ops → Forall (λ o, stays (exec DeepEqual o)) ops →
  stays (λ t, foldl (λ t o, exec DeepEqual o t) t ops).
Proof.
  induction ops as [|o ops IH]; [intros _ _; by apply stays_same|]. intros [Ko Kops]%Forall_cons [So Sops]%Forall_cons.
  apply (stays_compose (exec DeepEqual o) (λ t, foldl (λ t o, exec DeepEqual o t) t ops)); [done|done|by apply foldl_keeps|by apply IH].
Qed.

Lemma Intern_stays pointer id build :
  (∀ body td, build = Some (body, td) → Forall (λ o, stays (exec DeepEqual o)) body) → stays (exec DeepEqual (OpIntern pointer id build)).
Proof.
  intros Hbody b t p i H Hr Hp Hb. revert Hr.
  set (run := (λ b, let '(body, td) := b in λ t, (foldl (λ t o, exec DeepEqual o t) t body, td)) <$> build).
  assert (E : exec DeepEqual (OpIntern pointer id build) t = (Intern pointer id run t).1) by (unfold run; by destruct build as [[]|]).
  rewrite E. destruct (Intern_step pointer id run t) as (r & -> & Hr).
  destruct Hr as [->|[[why ->]|(run' & t' & td & Erun & Hn & Hpne & Hine & Et & ->)]]; [done|by rewrite refuse_reg|].
  destruct build as [[body td']|]; [|done]. injection Erun as <-. injection Et as <- <-.
  set (t1 := foldl (λ t o, exec DeepEqual o t) (opened pointer id t) body). intros Hr.
  assert (Hne : p ≠ pointer) by congruence. destruct (opened_fields pointer id t) as (Ep & Er & _).
  assert (Hp0 : byPointer (opened pointer id t) !! p = Some i) by (rewrite Ep, lookup_insert_ne; [done|congruence]).
  destruct (exec_all_keeps body ({[pointer]} ∪ b) (opened pointer id t) (opened_holds b pointer id t Hn H)) as [H1 G1].
  fold t1 in H1, G1 |- *. unfold closed in *. destruct (IsNilTypeDef td'); [by apply refuse_refused in Hr|].
  assert (Hr1 : refused t1 = []) by (revert Hr; by destruct t1).
  assert (Hstay : reg t1 !! i = reg t !! i).
  { rewrite <- Er. apply (foldl_stays body) with (b := {[pointer]} ∪ b) (p := p).
    - apply Forall_forall. intros o _. apply exec_keeps.
    - by eapply Hbody.
    - by apply opened_holds.
    - exact Hr1.
    - exact Hp0.
    - set_solver. }
  rewrite <- Hstay. destruct (unrefused _ _ H1 Hr1) as [S1 _ _].
  assert (Hi : byID t1 !! i = Some p) by (apply S1, (grows_pointer _ _ G1), Hp0).
  assert (Hid : byID t1 !! id = Some pointer) by (apply S1, (grows_pointer _ _ G1); rewrite Ep; by rewrite lookup_insert_eq).
  revert Hi Hid. destruct t1. cbn. intros Hi Hid. rewrite lookup_insert_ne; [done|]. congruence.
Qed.

Lemma exec_stays o : stays (exec DeepEqual o).
Proof.
  induction o using op_induction.
  - by apply Intern_stays.
  - apply Register_stays.
  - apply PrimRef_stays.
  - apply Promise_stays.
  - apply queue_stays.
  - apply queue_stays.
Qed.
Lemma exec_all_stays ops : stays (exec_all DeepEqual ops).
Proof. apply foldl_stays; apply Forall_forall; intros o _; [apply exec_keeps|apply exec_stays]. Qed.

(** C25: however lowerings nest and interleave, a coordinate that resolves to an
    ID resolves to a node, and keeps its ID whatever runs after; and where
    nothing is refused, it keeps that very node, no two coordinates share an ID,
    and no node of a space that source coordinates address was minted there. *)
Theorem registry_one_node ops later :
  let t := exec_all DeepEqual ops NewTypes in
  let t' := exec_all DeepEqual later t in
  (∀ p id, Lookup t p = Some id → is_Some (NodeAt t p) ∧ Lookup t' p = Some id) ∧
  (refused t' = [] → ∀ p id, Lookup t p = Some id → NodeAt t' p = NodeAt t p) ∧
  (refused t = [] → ∀ p p' id, Lookup t p = Some id →
    (Lookup t p' = Some id → p = p') ∧
    (∀ id', is_Some (Node t id') → spaceOf id' = spaceOf id → spaceOf id ≠ [] →
       (∃ q, Lookup t q = Some id') ∨ ∃ k, id' = PrimTypeID k)).
Proof.
  intros t t'. destruct (exec_all_keeps ops ∅ NewTypes NewTypes_holds) as [Hh _]. fold t in Hh. pose proof Hh as [H1 H2].
  destruct (exec_all_keeps later ∅ t Hh) as [_ G]. fold t' in G. split_and!.
  - intros p id Hp. split.
    + unfold NodeAt, Lookup in *. rewrite Hp. simpl. destruct (H1 p id Hp) as [|Hin]; [set_solver|]. by apply elem_of_dom.
    + by apply (grows_pointer t).
  - intros E p id Hp. unfold NodeAt, Lookup in *. rewrite Hp, (grows_pointer _ _ G _ _ Hp). simpl.
    apply (exec_all_stays later ∅ t p); [done|done|done|set_solver].
  - intros E p p' id Hp. destruct (H2 E) as [S1 S2 S3]. split.
    + intros Hp'. apply S1 in Hp, Hp'. congruence.
    + intros id' Hn Hs Hne. specialize (S2 p id Hp Hne).
      destruct (S3 id') as [?|[?|[?|Ht]]]; [by apply elem_of_dom|by left|by right|congruence|].
      rewrite Hs in Ht. congruence.
Qed.
End Programs.

(** ** Fulfilling promises *)

Section Fulfilling.
Context (DeepEqual : TypeDef → TypeDef → bool).



















(** ** The rounds *)




Section Live.
Context (live : nat → bool).






End Live.

End Fulfilling.

(** ** A small compile *)

(** A node lowered at [/a], which meets itself again and leaves [/b] to whoever owns
    it; a later lowering comes to [/a] once more with another node. *)
Module Small.
Definition at_a : list op := [OpIntern (go "/a") (go "t/openapi/a")
  (Some ([OpPromise (go "/b") (Some ([OpIntern (go "/b") (go "t/openapi/b") (Some ([], primitive_node PrimBool))], []));
          OpIntern (go "/a") (go "t/openapi/a") (Some ([], primitive_node PrimBool))], primitive_node PrimString))].
Definition again : list op := [OpIntern (go "/a") (go "t/openapi/a") (Some ([], primitive_node PrimBool))].
Definition same : TypeDef → TypeDef → bool := λ _ _, true.
Definition lowered : Types := exec_all same at_a NewTypes.
End Small.

Lemma registry_one_node_witness :
  NodeAt (exec_all Small.same Small.again Small.lowered) (go "/a") = NodeAt Small.lowered (go "/a") ∧
  NodeAt Small.lowered (go "/a") = Some (primitive_node PrimString).
Proof.
  split; [|vm_compute; reflexivity]. destruct (registry_one_node Small.same Small.at_a Small.again) as (_ & H & _).
  apply (H ltac:(vm_compute; reflexivity) (go "/a") (go "t/openapi/a")). vm_compute. reflexivity.
Defined.

