(* ===== verification/ConstraintsFold.v ===== *)
(** * ConstraintsFold: the fold of two constraint sets is their intersection

    Where no keyword conflicts, a value meets the folded set exactly when it
    meets both; the narrower verdict of the bounds judgment is an
    inclusion of the values admitted. *)
From S2P Require Import Prelude GoLib Decimal DecimalValue DecimalOrder BigVal Multiple Constraints Value.
Implicit Types (a b c : Constraints) (s x y n : gostring) (d e : Decimal).

(** ** Slots *)

(** Reading a field after writing it, and writing back what was read. *)
Class LawfulSlot {T} (sl : slot T) : Prop := {
  get_put : ∀ v c, get sl (put sl v c) = v;
  put_get : ∀ c, put sl (get sl c) c = c
}.

Ltac lawful := constructor; [intros ? []; reflexivity|intros []; reflexivity].
#[export] Instance Min_lawful : LawfulSlot Min_slot. Proof. lawful. Qed.
#[export] Instance Max_lawful : LawfulSlot Max_slot. Proof. lawful. Qed.
#[export] Instance ExclusiveMin_lawful : LawfulSlot ExclusiveMin_slot. Proof. lawful. Qed.
#[export] Instance ExclusiveMax_lawful : LawfulSlot ExclusiveMax_slot. Proof. lawful. Qed.
#[export] Instance MultipleOf_lawful : LawfulSlot MultipleOf_slot. Proof. lawful. Qed.
#[export] Instance Precision_lawful : LawfulSlot Precision_slot. Proof. lawful. Qed.
#[export] Instance Scale_lawful : LawfulSlot Scale_slot. Proof. lawful. Qed.
#[export] Instance MinLength_lawful : LawfulSlot MinLength_slot. Proof. lawful. Qed.
#[export] Instance MaxLength_lawful : LawfulSlot MaxLength_slot. Proof. lawful. Qed.
#[export] Instance MinItems_lawful : LawfulSlot MinItems_slot. Proof. lawful. Qed.
#[export] Instance MaxItems_lawful : LawfulSlot MaxItems_slot. Proof. lawful. Qed.
#[export] Instance MinProps_lawful : LawfulSlot MinProps_slot. Proof. lawful. Qed.
#[export] Instance MaxProps_lawful : LawfulSlot MaxProps_slot. Proof. lawful. Qed.

(** The value a slot takes when two sets meet. *)
Definition slot_meet {T} (meet : T → T → T * bool) (x y : option T) : option T :=
  match x, y with
  | None, y => y
  | Some x, None => Some x
  | Some x, Some y => let '(met, ok) := meet x y in if (ok : bool) then Some met else Some x
  end.

Definition slot_agree {T} (meet : T → T → T * bool) (x y : option T) : Prop :=
  match x, y with Some x, Some y => (meet x y).2 = true | _, _ => True end.

Lemma kw_meet_slot {T} show name (sl : slot (option T)) `{!LawfulSlot sl} same meet a b :
  kw_meet (slotKeyword show name sl same meet) a b = put sl (slot_meet meet (get sl a) (get sl b)) a.
Proof.
  simpl. unfold slot_meet. pose proof (put_get (sl := sl) a) as Hp.
  destruct (get sl a) as [x|] eqn:Ha, (get sl b) as [y|]; try done.
  destruct (meet x y) as [met []]; congruence.
Qed.

Lemma kw_differ_slot {T} show name (sl : slot (option T)) same meet a b :
  kw_differ (slotKeyword show name sl same meet) a b = None ↔ slot_agree meet (get sl a) (get sl b).
Proof.
  simpl. unfold slot_agree. destruct (get sl a), (get sl b); try done.
  by destruct (meet _ _) as [met []].
Qed.

(** The fold, field by field. *)
Lemma fold_into_fields a b :
  fold_into a b = mkConstraints
    (slot_meet largerNumber (Min a) (Min b)) (slot_meet smallerNumber (Max a) (Max b))
    (slot_meet largerNumber (ExclusiveMin a) (ExclusiveMin b)) (slot_meet smallerNumber (ExclusiveMax a) (ExclusiveMax b))
    (slot_meet commonStep (MultipleOf a) (MultipleOf b))
    (slot_meet onlyEqual (Precision a) (Precision b)) (slot_meet onlyEqual (Scale a) (Scale b))
    (slot_meet largerCount (MinLength a) (MinLength b)) (slot_meet smallerCount (MaxLength a) (MaxLength b))
    (cmp_Or (Pattern a) (Pattern b)) (cmp_Or (PatternMessage a) (PatternMessage b))
    (slot_meet largerCount (MinItems a) (MinItems b)) (slot_meet smallerCount (MaxItems a) (MaxItems b))
    (UniqueItems a || UniqueItems b)
    (slot_meet largerCount (MinProps a) (MinProps b)) (slot_meet smallerCount (MaxProps a) (MaxProps b)).
Proof.
  unfold fold_into, constraintKeywords, numberKeyword, intKeyword. cbn [foldl].
  rewrite !kw_meet_slot by apply _. destruct a, b. reflexivity.
Qed.

(** No keyword pins the two sets apart. *)
Record agree a b : Prop := {
  agree_Min : slot_agree largerNumber (Min a) (Min b);
  agree_ExclusiveMin : slot_agree largerNumber (ExclusiveMin a) (ExclusiveMin b);
  agree_Max : slot_agree smallerNumber (Max a) (Max b);
  agree_ExclusiveMax : slot_agree smallerNumber (ExclusiveMax a) (ExclusiveMax b);
  agree_MultipleOf : slot_agree commonStep (MultipleOf a) (MultipleOf b);
  agree_Precision : slot_agree onlyEqual (Precision a) (Precision b);
  agree_Scale : slot_agree onlyEqual (Scale a) (Scale b);
  agree_Pattern : is_empty (Pattern a) || is_empty (Pattern b) || bool_decide (Pattern a = Pattern b) = true;
  agree_PatternMessage :
    is_empty (PatternMessage a) || is_empty (PatternMessage b) || bool_decide (PatternMessage a = PatternMessage b) = true
}.

Lemma first_conflict_None kws i a b :
  first_conflict kws i a b = None ↔ Forall (λ kw, kw_differ kw a b = None) kws.
Proof.
  revert i. induction kws as [|kw kws IH]; intros i; simpl; [done|].
  rewrite Forall_cons. destruct (kw_differ kw a b); [naive_solver|]. rewrite IH. naive_solver.
Qed.

Lemma kw_differ_str name sl a b :
  kw_differ (strKeyword name sl) a b = None ↔
  is_empty (get sl a) || is_empty (get sl b) || bool_decide (get sl a = get sl b) = true.
Proof. simpl. by destruct (_ || _). Qed.

Lemma Meets_agree a b : Meets (Some a) (Some b) = true ↔ agree a b.
Proof.
  unfold Meets, constraintsConflict. transitivity (first_conflict constraintKeywords 0 a b = None).
  { by destruct (first_conflict _ _ _ _). }
  rewrite first_conflict_None. unfold constraintKeywords, numberKeyword, intKeyword.
  rewrite !Forall_cons, !kw_differ_slot, !kw_differ_str, Forall_nil. simpl.
  split; [intros H; by constructor; apply H|intros []; repeat split; try done].
  all: unfold slot_agree, largerCount, smallerCount; repeat case_match; done.
Qed.

(** ** Numeric bounds *)

Definition opt_fits (x : option gostring) : Prop := match x with Some s => fits s | None => True end.

(** Every number the set writes is a text Go can hold. *)
Record fits_set c : Prop := {
  fits_Min : opt_fits (Min c); fits_Max : opt_fits (Max c);
  fits_ExclusiveMin : opt_fits (ExclusiveMin c); fits_ExclusiveMax : opt_fits (ExclusiveMax c);
  fits_MultipleOf : opt_fits (MultipleOf c)
}.

Lemma compareNumbers_ok x y o :
  fits x → fits y → compareNumbers x y = (o, true) →
  (x = y ∧ o = 0%Z) ∨
  ∃ dx dy, ParseDecimal x = Ok dx ∧ ParseDecimal y = Ok dy ∧ wf dx ∧ wf dy ∧
    o = order_of (value dx ?= value dy)%Q.
Proof.
  intros Fx Fy. unfold compareNumbers, BigVal_Decimal.
  destruct (decide (x = y)) as [->|]; [intros [= <-]; by left|].
  destruct (ParseDecimal x) as [dx|] eqn:Hx; [|done]. destruct (ParseDecimal y) as [dy|] eqn:Hy; [|done].
  destruct (ParseDecimal_small _ _ Fx Hx) as [Wx _]. destruct (ParseDecimal_small _ _ Fy Hy) as [Wy _].
  intros [= <-]. right. exists dx, dy. split_and!; try done. by apply Cmp_value.
Qed.

(** A test of a value's order against a bound that a lower bound keeps. *)
Definition lower_test (test : Z → bool) : Prop :=
  ∀ q r r', (r' <= r)%Q → test (order_of (q ?= r)%Q) = true → test (order_of (q ?= r')%Q) = true.
Definition upper_test (test : Z → bool) : Prop :=
  ∀ q r r', (r <= r')%Q → test (order_of (q ?= r)%Q) = true → test (order_of (q ?= r')%Q) = true.

Lemma order_lt_iff q r : (order_of (q ?= r)%Q < 0)%Z ↔ (q < r)%Q.
Proof. rewrite Qlt_alt. destruct (q ?= r)%Q; simpl; split; try done; lia. Qed.
Lemma order_le_iff q r : (order_of (q ?= r)%Q <= 0)%Z ↔ (q <= r)%Q.
Proof. rewrite Qle_alt. destruct (q ?= r)%Q; simpl; split; try done; lia. Qed.
Lemma order_gt_iff q r : (0 < order_of (q ?= r)%Q)%Z ↔ (r < q)%Q.
Proof. rewrite Qgt_alt. destruct (q ?= r)%Q; simpl; split; try done; lia. Qed.
Lemma order_ge_iff q r : (0 <= order_of (q ?= r)%Q)%Z ↔ (r <= q)%Q.
Proof. rewrite Qge_alt. destruct (q ?= r)%Q; simpl; split; try done; lia. Qed.

Lemma lower_ge : lower_test (λ order, (0 <=? order)%Z).
Proof. intros q r r' H. rewrite !Z.leb_le, !order_ge_iff. lra. Qed.
Lemma lower_gt : lower_test (λ order, (0 <? order)%Z).
Proof. intros q r r' H. rewrite !Z.ltb_lt, !order_gt_iff. lra. Qed.
Lemma upper_le : upper_test (λ order, (order <=? 0)%Z).
Proof. intros q r r' H. rewrite !Z.leb_le, !order_le_iff. lra. Qed.
Lemma upper_lt : upper_test (λ order, (order <? 0)%Z).
Proof. intros q r r' H. rewrite !Z.ltb_lt, !order_lt_iff. lra. Qed.

Lemma andb_absorb_r (p q : bool) : (q = true → p = true) → q = p && q.
Proof. destruct p, q; naive_solver. Qed.
Lemma andb_absorb_l (p q : bool) : (p = true → q = true) → p = p && q.
Proof. destruct p, q; naive_solver. Qed.

Lemma bound_holds_value d s e test :
  wf d → wf e → ParseDecimal s = Ok e → bound_holds d (Some s, test) = test (order_of (value d ?= value e)%Q).
Proof. intros Hd He Hs. unfold bound_holds, BigVal_Decimal. simpl. by rewrite Hs, Cmp_value. Qed.

Lemma larger_bound d test (x y : option gostring) :
  wf d → lower_test test → opt_fits x → opt_fits y → slot_agree largerNumber x y →
  bound_holds d (slot_meet largerNumber x y, test) = bound_holds d (x, test) && bound_holds d (y, test).
Proof.
  intros Hd Ht Fx Fy. destruct x as [x|], y as [y|]; try done.
  2: { by rewrite andb_true_r. }
  simpl slot_agree. unfold slot_meet, largerNumber. simpl in Fx, Fy.
  destruct (compareNumbers x y) as [o ok] eqn:Hc. intros Hok.
  assert (ok = true) as -> by (by destruct (o <? 0)%Z). clear Hok.
  apply compareNumbers_ok in Hc as [[-> ->]|(dx & dy & Hx & Hy & Wx & Wy & ->)]; [| |done..].
  { simpl. by rewrite andb_diag. }
  destruct (Z.ltb_spec (order_of (value dx ?= value dy)%Q) 0) as [Hlt|Hge].
  - rewrite (bound_holds_value d x dx), (bound_holds_value d y dy) by done. apply andb_absorb_r.
    apply order_lt_iff in Hlt. apply Ht. lra.
  - rewrite (bound_holds_value d x dx), (bound_holds_value d y dy) by done. apply andb_absorb_l.
    apply order_ge_iff in Hge. by apply Ht.
Qed.

Lemma smaller_bound d test (x y : option gostring) :
  wf d → upper_test test → opt_fits x → opt_fits y → slot_agree smallerNumber x y →
  bound_holds d (slot_meet smallerNumber x y, test) = bound_holds d (x, test) && bound_holds d (y, test).
Proof.
  intros Hd Ht Fx Fy. destruct x as [x|], y as [y|]; try done.
  2: { by rewrite andb_true_r. }
  simpl slot_agree. unfold slot_meet, smallerNumber. simpl in Fx, Fy.
  destruct (compareNumbers x y) as [o ok] eqn:Hc. intros Hok.
  assert (ok = true) as -> by (by destruct (0 <? o)%Z). clear Hok.
  apply compareNumbers_ok in Hc as [[-> ->]|(dx & dy & Hx & Hy & Wx & Wy & ->)]; [| |done..].
  { simpl. by rewrite andb_diag. }
  destruct (Z.ltb_spec 0 (order_of (value dx ?= value dy)%Q)) as [Hlt|Hge].
  - rewrite (bound_holds_value d x dx), (bound_holds_value d y dy) by done. apply andb_absorb_r.
    apply order_gt_iff in Hlt. apply Ht. lra.
  - rewrite (bound_holds_value d x dx), (bound_holds_value d y dy) by done. apply andb_absorb_l.
    apply order_le_iff in Hge. by apply Ht.
Qed.

Lemma step_holds_value d s e :
  wf d → small d → step_of s e → step_holds d (Some s) = true ↔ is_multiple (value d) (value e).
Proof.
  intros Hd Sd (Hs & He & Se & Hpos & _). unfold step_holds, BigVal_Decimal. rewrite Hs.
  destruct (isMultipleOf_spec d e Hd He Sd Se) as [_ Hm].
  destruct (isMultipleOf d e) as [m ok]. simpl in *.
  destruct (Hm ltac:(lia)) as [-> <-]. done.
Qed.

Lemma common_step_holds d (x y : option gostring) :
  wf d → small d → opt_fits x → opt_fits y → slot_agree commonStep x y →
  step_holds d (slot_meet commonStep x y) = step_holds d x && step_holds d y.
Proof.
  intros Hd Sd Fx Fy. destruct x as [x|], y as [y|]; try done.
  2: { by rewrite andb_true_r. }
  simpl slot_agree. unfold slot_meet. simpl in Fx, Fy.
  destruct (commonStep x y) as [s ok] eqn:Hc. simpl. intros ->.
  apply commonStep_cases in Hc as [[<- ->]|(a & b & e & Ha & Hb & He & Hq)]; [by rewrite andb_diag| |done..].
  apply eq_true_iff_eq. rewrite andb_true_iff.
  by rewrite (step_holds_value d s e), (step_holds_value d x a), (step_holds_value d y b).
Qed.

(** ** Counts and the remaining keywords *)

Lemma within_meet (n : Z) (lo lo' hi hi' : option Z) :
  within n (slot_meet largerCount lo lo') (slot_meet smallerCount hi hi') = within n lo hi && within n lo' hi'.
Proof.
  unfold within, slot_meet, largerCount, smallerCount.
  destruct lo, lo', hi, hi'; apply eq_true_iff_eq; rewrite ?andb_true_iff, ?Z.leb_le; lia.
Qed.

Lemma is_set_meet {T} meet (x y : option T) : is_set (slot_meet meet x y) = is_set x || is_set y.
Proof. destruct x, y; try done. simpl. by destruct (meet _ _) as [? []]. Qed.

Lemma is_empty_Or s s' : is_empty (cmp_Or s s') = is_empty s && is_empty s'.
Proof. by destruct s. Qed.

Lemma fold_admitsNumber a b n :
  agree a b → fits_set a → fits_set b → fits n →
  admitsNumber (fold_into a b) n = admitsNumber a n && admitsNumber b n.
Proof.
  intros Hag Fa Fb Fn. rewrite fold_into_fields. unfold admitsNumber, bound_checks.
  cbn [Precision Scale MultipleOf Min ExclusiveMin Max ExclusiveMax]. rewrite !is_set_meet.
  destruct (is_set (Precision a)), (is_set (Scale a)), (is_set (Precision b)), (is_set (Scale b));
    simpl orb; cbv iota; try done; rewrite ?andb_false_r; try done.
  unfold BigVal_Decimal. destruct (ParseDecimal n) as [d|] eqn:Hn; [|done].
  destruct (ParseDecimal_small n d Fn Hn) as [Hd Sd]. cbn [forallb].
  rewrite !larger_bound, !smaller_bound, common_step_holds
    by (done || apply lower_ge || apply lower_gt || apply upper_le || apply upper_lt || apply Fa || apply Fb || apply Hag).
  repeat match goal with |- context [bound_holds d ?t] => destruct (bound_holds d t); simpl; rewrite ?andb_false_r; try done end.
Qed.

Lemma fold_intersection (Quote : gostring → gostring) a b (v : Value) depth :
  agree a b → fits_set a → fits_set b → fits (Num v) →
  admitsConstraints Quote (Some (fold_into a b)) v depth =
    admitsConstraints Quote (Some a) v depth && admitsConstraints Quote (Some b) v depth.
Proof.
  intros Hm Fa Fb Fn. simpl. destruct (Kind v); try done.
  - rewrite fold_into_fields. cbn [Pattern MinLength MaxLength]. rewrite is_empty_Or, within_meet.
    by destruct (is_empty (Pattern a)), (is_empty (Pattern b)); simpl; rewrite ?andb_false_r.
  - by apply fold_admitsNumber.
  - rewrite fold_into_fields. apply within_meet.
  - rewrite fold_into_fields. cbn [MinItems MaxItems UniqueItems]. rewrite within_meet.
    destruct (within _ (MinItems a) _), (within _ (MinItems b) _), (UniqueItems a), (UniqueItems b),
      (distinct Quote (List_ v) depth); done.
  - rewrite fold_into_fields. apply within_meet.
Qed.

(** C22: where no keyword conflicts, folding two constraint sets loses nothing
    and invents nothing: a value meets the fold exactly when it meets both sets.
    This is [allOf]'s intersection, for every kind of value. *)
Theorem fold_is_intersection (Quote : gostring → gostring) a b (v : Value) depth :
  Meets (Some a) (Some b) = true → fits_set a → fits_set b → fits (Num v) →
  admitsConstraints Quote (merge_Constraints (Some a) (Some b)) v depth =
    admitsConstraints Quote (Some a) v depth && admitsConstraints Quote (Some b) v depth.
Proof. intros Hm%Meets_agree. by apply fold_intersection. Qed.

Definition at_least (n : gostring) : Constraints :=
  put Min_slot (Some n) noConstraints.
Definition step_set (n : gostring) : Constraints := put MultipleOf_slot (Some n) noConstraints.

Lemma fold_is_intersection_witness :
  Meets (Some (at_least (go "3"))) (Some (step_set (go "0.5"))) = true ∧
  admitsConstraints id (merge_Constraints (Some (at_least (go "3"))) (Some (step_set (go "0.5"))))
    (number_value (go "3.5")) 0 = true.
Proof.
  split; [vm_compute; reflexivity|].
  rewrite (fold_is_intersection id); [vm_compute; reflexivity|vm_compute; reflexivity|
    constructor; done|constructor; done|done].
Defined.

(** ** Sameness *)

Definition slot_same {T} (same : T → T → bool) (x y : option T) : bool :=
  match x, y with Some x, Some y => same x y | None, None => true | _, _ => false end.

Lemma sameBounds_fields a b :
  sameBounds (Some a) (Some b) =
    eqb (UniqueItems a) (UniqueItems b) &&
    (slot_same sameNumber (Min a) (Min b) && (slot_same sameNumber (ExclusiveMin a) (ExclusiveMin b) &&
    (slot_same sameNumber (Max a) (Max b) && (slot_same sameNumber (ExclusiveMax a) (ExclusiveMax b) &&
    (slot_same sameNumber (MultipleOf a) (MultipleOf b) &&
    (slot_same Z.eqb (Precision a) (Precision b) && (slot_same Z.eqb (Scale a) (Scale b) &&
    (slot_same Z.eqb (MinLength a) (MinLength b) && (slot_same Z.eqb (MaxLength a) (MaxLength b) &&
    (slot_same Z.eqb (MinItems a) (MinItems b) && (slot_same Z.eqb (MaxItems a) (MaxItems b) &&
    (slot_same Z.eqb (MinProps a) (MinProps b) && (slot_same Z.eqb (MaxProps a) (MaxProps b) &&
    (bool_decide (Pattern a = Pattern b) && bool_decide (PatternMessage a = PatternMessage b))))))))))))))).
Proof.
  unfold sameBounds. cbn [or_none default id]. f_equal. unfold constraintKeywords. cbn [existsb].
  rewrite !negb_orb, !negb_involutive, andb_true_r. reflexivity.
Qed.

Lemma sameNumber_parse x y :
  fits x → fits y → sameNumber x y = true → BigVal_Decimal x = BigVal_Decimal y.
Proof.
  intros Fx Fy. unfold sameNumber. destruct (compareNumbers x y) as [o ok] eqn:Hc.
  rewrite andb_true_iff, Z.eqb_eq. intros [-> ->].
  apply compareNumbers_ok in Hc as [[-> _]|(dx & dy & Hx & Hy & Wx & Wy & Ho)]; [done| |done..].
  unfold BigVal_Decimal. rewrite Hx, Hy. f_equal. apply Cmp_eq; [done..|]. by rewrite Cmp_value.
Qed.

Lemma slot_same_eq (x y : option Z) : slot_same Z.eqb x y = true → x = y.
Proof. destruct x, y; simpl; try done. intros ->%Z.eqb_eq. done. Qed.

(** Two bounds of one value are one bound to every number. *)
Lemma same_bound d test (x y : option gostring) :
  opt_fits x → opt_fits y → slot_same sameNumber x y = true → bound_holds d (x, test) = bound_holds d (y, test).
Proof.
  destruct x as [x|], y as [y|]; try done. simpl. intros Fx Fy H. unfold bound_holds. simpl.
  by rewrite (sameNumber_parse x y).
Qed.

Lemma same_step d (x y : option gostring) :
  opt_fits x → opt_fits y → slot_same sameNumber x y = true → step_holds d x = step_holds d y.
Proof.
  destruct x as [x|], y as [y|]; try done. simpl. intros Fx Fy H. by rewrite (sameNumber_parse x y).
Qed.

Lemma same_admits Quote a b (v : Value) depth :
  fits_set a → fits_set b → sameBounds (Some a) (Some b) = true →
  admitsConstraints Quote (Some a) v depth = admitsConstraints Quote (Some b) v depth.
Proof.
  intros Fa Fb. rewrite sameBounds_fields, !andb_true_iff, !bool_decide_eq_true, eqb_true_iff.
  intros (HU & H1 & H2 & H3 & H4 & H5 & H6%slot_same_eq & H7%slot_same_eq & H8%slot_same_eq & H9%slot_same_eq &
    H10%slot_same_eq & H11%slot_same_eq & H12%slot_same_eq & H13%slot_same_eq & HP & _).
  simpl. unfold admitsNumber, bound_checks. rewrite HU, H6, H7, H8, H9, H10, H11, H12, H13, HP.
  destruct (Kind v); try done. case_match; [done|]. case_match; [|done]. cbn [forallb].
  rewrite (same_bound _ _ (Min a) (Min b)), (same_bound _ _ (ExclusiveMin a) (ExclusiveMin b)),
    (same_bound _ _ (Max a) (Max b)), (same_bound _ _ (ExclusiveMax a) (ExclusiveMax b)),
    (same_step _ (MultipleOf a) (MultipleOf b)) by (done || apply Fa || apply Fb).
  done.
Qed.

(** ** The bounds judgment *)

Lemma fold_none a : fold_into noConstraints a = a.
Proof. rewrite fold_into_fields. by destruct a. Qed.

Lemma boundsRelation_fold a b :
  boundsRelation (Some a) (Some b) =
    if Meets (Some a) (Some b) then
      match sameBounds (Some (fold_into a b)) (Some a), sameBounds (Some (fold_into a b)) (Some b) with
      | true, true => relSame | true, false => relANarrower | false, true => relBNarrower | false, false => relMeet
      end
    else relMeet.
Proof.
  unfold boundsRelation, Meets. destruct (constraintsConflict (Some a) (Some b)); [done|].
  cbn [is_set merge_Constraints]. rewrite fold_none.
  by destruct (sameBounds _ (Some a)), (sameBounds _ (Some b)).
Qed.

Lemma slot_meet_fits meet (x y : option gostring) :
  opt_fits x → opt_fits y → (∀ p q, fits p → fits q → fits (meet p q).1) → opt_fits (slot_meet meet x y).
Proof.
  intros Fx Fy Hm. destruct x as [x|], y as [y|]; try done. simpl.
  specialize (Hm x y Fx Fy). by destruct (meet x y) as [s []].
Qed.

Lemma compared_fits (x y z : gostring) ok :
  fits x → fits y → (z = x ∨ z = y) → fits (z, ok : bool).1.
Proof. by intros Fx Fy [-> | ->]. Qed.

Lemma commonStep_fits x y : fits x → fits y → fits (commonStep x y).1.
Proof.
  intros Fx Fy. destruct (commonStep x y) as [s []] eqn:Hc.
  - by apply commonStep_cases in Hc as [[_ ->]|(a & b & d & _ & _ & (_ & _ & _ & _ & Fs) & _)].
  - revert Hc. unfold commonStep. repeat case_match; intros [= <-]; done.
Qed.

Lemma fold_fits a b : fits_set a → fits_set b → fits_set (fold_into a b).
Proof.
  intros Fa Fb. rewrite fold_into_fields. constructor; cbn [Min Max ExclusiveMin ExclusiveMax MultipleOf];
    apply slot_meet_fits; try apply Fa; try apply Fb; try apply commonStep_fits;
    intros p q Fp Fq; unfold largerNumber, smallerNumber; destruct (compareNumbers p q) as [o ok]; by case_match.
Qed.

Lemma narrower_agree a b r :
  boundsRelation (Some a) (Some b) = r → r = relANarrower ∨ r = relSame →
  agree a b ∧ sameBounds (Some (fold_into a b)) (Some a) = true.
Proof.
  rewrite boundsRelation_fold, <-Meets_agree. intros <-.
  destruct (Meets (Some a) (Some b)), (sameBounds (Some (fold_into a b)) (Some a)),
    (sameBounds (Some (fold_into a b)) (Some b)); intros [?|?]; done.
Qed.

Lemma narrower_included Quote a b v depth :
  agree a b → sameBounds (Some (fold_into a b)) (Some a) = true → fits_set a → fits_set b → fits (Num v) →
  admitsConstraints Quote (Some a) v depth = true → admitsConstraints Quote (Some b) v depth = true.
Proof.
  intros Hag Hs Fa Fb Fn. rewrite <-(same_admits Quote (fold_into a b) a) by (done || by apply fold_fits).
  rewrite fold_intersection by done. by rewrite andb_true_iff; intros [_ ?].
Qed.

(** the bounds judgment never claims more than the values bear out: where
    it calls [a] the narrower set, or the two the same, every value [a] admits
    [b] admits. *)
Theorem boundsRelation_narrower (Quote : gostring → gostring) a b (v : Value) depth :
  boundsRelation (Some a) (Some b) = relANarrower ∨ boundsRelation (Some a) (Some b) = relSame →
  fits_set a → fits_set b → fits (Num v) →
  admitsConstraints Quote (Some a) v depth = true → admitsConstraints Quote (Some b) v depth = true.
Proof.
  intros Hr. destruct (narrower_agree a b _ eq_refl Hr) as [Hag Hs]. by apply narrower_included.
Qed.

Lemma boundsRelation_narrower_witness :
  boundsRelation (Some (at_least (go "3"))) (Some (at_least (go "2.50"))) = relANarrower ∧
  admitsConstraints id (Some (at_least (go "2.50"))) (number_value (go "3.5")) 0 = true.
Proof.
  split; [vm_compute; reflexivity|].
  apply (boundsRelation_narrower id (at_least (go "3"))); [left; vm_compute; reflexivity|
    constructor; done|constructor; done|done|vm_compute; reflexivity].
Defined.

(** ** Meeting any number of sets *)

(** What one set says where another does not pin it apart. *)
Definition agreeing {T} (meet : T → T → T * bool) (x y : option T) : option T :=
  match x, y with Some x, Some y => if (meet x y).2 then Some y else None | _, _ => y end.
Definition agreeing_text (x y : gostring) : gostring :=
  if is_empty x || is_empty y || bool_decide (x = y) then y else [].
Definition agreed a b : Constraints := mkConstraints
  (agreeing largerNumber (Min a) (Min b)) (agreeing smallerNumber (Max a) (Max b))
  (agreeing largerNumber (ExclusiveMin a) (ExclusiveMin b)) (agreeing smallerNumber (ExclusiveMax a) (ExclusiveMax b))
  (agreeing commonStep (MultipleOf a) (MultipleOf b))
  (agreeing onlyEqual (Precision a) (Precision b)) (agreeing onlyEqual (Scale a) (Scale b))
  (MinLength b) (MaxLength b)
  (agreeing_text (Pattern a) (Pattern b)) (agreeing_text (PatternMessage a) (PatternMessage b))
  (MinItems b) (MaxItems b) (UniqueItems b) (MinProps b) (MaxProps b).

Lemma agreeing_agree {T} meet (x y : option T) : slot_agree meet x (agreeing meet x y).
Proof. destruct x as [x|], y as [y|]; try done. cbn. destruct (meet x y).2 eqn:E; done. Qed.
Lemma agreeing_meet {T} meet (x y : option T) : slot_meet meet x (agreeing meet x y) = slot_meet meet x y.
Proof. destruct x as [x|], y as [y|]; try done. cbn. destruct (meet x y) as [m []] eqn:E; cbn; by rewrite ?E. Qed.
Lemma agreeing_fits meet (x y : option gostring) : opt_fits y → opt_fits (agreeing meet x y).
Proof. destruct x as [x|], y as [y|]; try done. cbn. by destruct (meet x y).2. Qed.
Lemma agreeing_text_agree x y : is_empty x || is_empty (agreeing_text x y) || bool_decide (x = agreeing_text x y) = true.
Proof. unfold agreeing_text. destruct (is_empty x || is_empty y || bool_decide (x = y)) eqn:E; [done|]. by destruct x. Qed.
Lemma agreeing_text_Or x y : cmp_Or x (agreeing_text x y) = cmp_Or x y.
Proof. unfold agreeing_text. by destruct x, y; cbn; try case_bool_decide. Qed.

Lemma agreed_agree a b : agree a (agreed a b).
Proof. constructor; cbn; apply agreeing_agree || apply agreeing_text_agree. Qed.
Lemma agreed_fold a b : fold_into a (agreed a b) = fold_into a b.
Proof.
  rewrite !fold_into_fields. unfold agreed.
  cbn [Min Max ExclusiveMin ExclusiveMax MultipleOf Precision Scale MinLength MaxLength Pattern PatternMessage MinItems MaxItems UniqueItems MinProps MaxProps].
  by rewrite !agreeing_meet, !agreeing_text_Or.
Qed.
Lemma agreed_fits a b : fits_set b → fits_set (agreed a b).
Proof. intros []. by constructor; apply agreeing_fits. Qed.

(** The values one set admits are among those another does, of numbers Go can hold. *)
Definition no_looser (Quote : gostring → gostring) (c c' : option Constraints) : Prop := ∀ (v : Value) depth,
  fits (Num v) → admitsConstraints Quote c v depth = true → admitsConstraints Quote c' v depth = true.

(** A fold admits no more than the set it starts from, conflict or not. *)
Lemma fold_no_looser Quote a b : fits_set a → fits_set b → no_looser Quote (Some (fold_into a b)) (Some a).
Proof.
  intros Fa Fb v depth Fv. rewrite <- agreed_fold, fold_intersection; [|apply agreed_agree|done|by apply agreed_fits|done].
  by intros [H _]%andb_true_iff.
Qed.
Lemma fold_no_looser_right Quote a b : Meets (Some a) (Some b) = true → fits_set a → fits_set b → no_looser Quote (Some (fold_into a b)) (Some b).
Proof. intros Hm%Meets_agree Fa Fb v depth Fv. rewrite fold_intersection by done. by intros [_ H]%andb_true_iff. Qed.

Section Meeting.
Context (Quote : gostring → gostring).
Implicit Types (m : meeting) (sets : list (option Constraints)) (i k : nat).

(** A set of those met is no tighter than what they meet to, or is told of as the
    one that disagrees. *)
Record met_so_far (sets : list (option Constraints)) m : Prop := {
  met_fits : match kept m with Some c => fits_set c | None => True end;
  met_nothing : kept m = None → ∀ i c, sets !! i ≠ Some (Some c);
  met_each i c : sets !! i = Some (Some c) → no_looser Quote (kept m) (Some c) ∨ ∃ k (x : disagreement), (i, k, x) ∈ log m
}.

Lemma met_step sets m (o : option Constraints) : met_so_far sets m → (∀ c, o = Some c → fits_set c) → met_so_far (sets ++ [o]) (meet_step m (length sets) o).
Proof.
  intros [Hf Hn He] Fc. destruct o as [own|].
  2:{ cbn. constructor; [done| |].
      - intros E i c [Hi|[_ Hi]]%lookup_app_Some; [by eapply Hn|]. by apply list_lookup_singleton_Some in Hi as [_ ?].
      - intros i c [Hi|[_ Hi]]%lookup_app_Some; [by apply He|]. by apply list_lookup_singleton_Some in Hi as [_ ?]. }
  specialize (Fc own eq_refl). unfold meet_step. constructor; cbn [kept log].
  - destruct (kept m) as [held|]; [|done]. by apply fold_fits.
  - by destruct (kept m).
  - intros i c [Hi|[Hi Hc]]%lookup_app_Some.
    + destruct (He i c Hi) as [Hl|(k & x & Hx)].
      * left. destruct (kept m) as [held|]; [|by destruct (Hn eq_refl i c)].
        intros v depth Fv Ha. apply Hl; [done|]. by eapply fold_no_looser.
      * right. exists k, x. destruct (constraintsConflict _ _) as [[]|]; [|done]. apply elem_of_app. by left.
    + apply list_lookup_singleton_Some in Hc as [Hi0 [= <-]]. assert (i = length sets) as -> by lia.
      destruct (constraintsConflict (kept m) (Some own)) as [[k x]|] eqn:E.
      * right. eexists _, x. apply elem_of_app. right. by apply list_elem_of_singleton.
      * left. destruct (kept m) as [held|]; [|by intros v depth]. apply fold_no_looser_right; [|done|done]. unfold Meets. by rewrite E.
Qed.

Lemma met_from sets seen m : met_so_far seen m → (∀ c, Some c ∈ sets → fits_set c) → met_so_far (seen ++ sets) (meet_from m (length seen) sets).
Proof.
  revert seen m. induction sets as [|c sets IH]; intros seen m Hm Hf; [by rewrite app_nil_r|]. cbn [meet_from].
  replace (seen ++ c :: sets) with ((seen ++ [c]) ++ sets) by by rewrite <- app_assoc.
  replace (S (length seen)) with (length (seen ++ [c])) by (rewrite length_app; cbn; lia).
  apply IH; [apply met_step; [done|]|].
  - intros x ->. apply Hf. by left.
  - intros x Hx. apply Hf. by right.
Qed.

(** What any number of sets meet to admits no value one of them does not, unless
    the meeting tells of that one. *)
Lemma meetConstraints_no_looser sets i c : (∀ c, Some c ∈ sets → fits_set c) → sets !! i = Some (Some c) →
  (∀ k (x : disagreement), (i, k, x) ∉ log (meetConstraints sets)) → no_looser Quote (kept (meetConstraints sets)) (Some c).
Proof.
  intros Hf Hi Hlog. unfold meetConstraints in *. destruct (met_from sets [] {| setBy := replicate (length constraintKeywords) 0; kept := None; log := [] |}) as [_ _ He]; [by constructor|done|].
  destruct (He i c Hi) as [?|(k & x & Hx)]; [done|]. by destruct (Hlog k x).
Qed.
End Meeting.
