(* ===== verification/Tarjan.v ===== *)
(** * Tarjan: strongly connected components ([src/ir/irfacts/scc.go])

    Tarjan's algorithm as the code runs it, on an explicit depth-first path and
    an explicit component stack, and the proof that what it returns are the
    strongly connected components of the graph, in an order that puts each after
    every one its edges reach. A graph is a list of adjacency lists; the
    development asks that every edge lead to a vertex of the graph, as the code's
    callers see to and its slice accesses need. *)
From S2P Require Import Prelude.

(** ** Graphs *)

Implicit Types (v w x y z u : nat) (adj : list (list nat)).

Definition outgoing adj v : list nat := default [] (adj !! v).
Definition edge adj v w : Prop := w ∈ outgoing adj v.
Definition reach adj : nat → nat → Prop := rtc (edge adj).
Definition well_formed adj : Prop := ∀ v w, edge adj v w → w < length adj.
Definition edges adj : nat := sum_list (length <$> adj).

(** A relation read as a graph: [named x v] says that vertex [v] stands for [x]. *)
Section Named.
Context {A : Type} (R : A → A → Prop) (adj : list (list nat)) (named : A → nat → Prop).
Context (Hedge : ∀ v w, edge adj v w ↔ ∃ a b, named a v ∧ named b w ∧ R a b)
        (Hinj : ∀ a b v, named a v → named b v → a = b) (Htotal : ∀ a b, R a b → ∃ v, named a v).

Lemma named_tc (a b : A) v w : named a v → named b w → tc (edge adj) v w ↔ tc R a b.
Proof.
  intros Ha Hb. split.
  - intros H. revert a Ha. induction H as [v w He|v u w He _ IH]; intros a Ha; apply Hedge in He as (a' & s & Ha' & Hs & Hr);
      rewrite (Hinj a a' v) by done.
    + rewrite (Hinj b s w) by done. by apply tc_once.
    + eapply tc_l; [exact Hr|]. by apply IH.
  - intros H. revert v Ha. induction H as [a b Hr|a c b Hr Hcb IH]; intros v Ha.
    + apply tc_once, Hedge. by exists a, b.
    + assert (Hc : ∃ u, named c u) by (inversion Hcb; subst; by eapply Htotal). destruct Hc as [u Hu].
      eapply tc_l; [|by apply IH]. apply Hedge. by exists a, c.
Qed.

Lemma named_reach (a b : A) v w : named a v → named b w → (∀ u u', named a u → named a u' → u = u') → reach adj v w ↔ rtc R a b.
Proof.
  intros Ha Hb Hfun. split; intros [E|H]%rtc_tc.
  - subst w. by rewrite (Hinj a b v).
  - apply tc_rtc. by apply (named_tc a b v w).
  - subst b. by rewrite (Hfun v w).
  - apply tc_rtc. by apply (named_tc a b v w).
Qed.
End Named.

(** One vertex on the depth-first path and the next edge to follow. *)
Record frame := mkFrame { vertex : nat; next : nat }.

(** ** The search's state *)

(** [order], [low] and [onStack] are indexed by vertex. The code's two stacks
    grow at their end; here their last element comes first. *)
Record tarjan := mkTarjan {
  order : list Z; low : list Z; onStack : list bool;
  stack : list nat; frames : list frame; found : Z; out : list (list nat)
}.
Implicit Types (t : tarjan) (f g : frame).

Definition unvisited : Z := -1.

Definition newTarjan adj : tarjan :=
  {| order := replicate (length adj) unvisited; low := replicate (length adj) 0%Z;
     onStack := replicate (length adj) false; stack := []; frames := []; found := 0; out := [] |}.

Definition orderOf t v : Z := default unvisited (order t !! v).
Definition lowOf t v : Z := default 0%Z (low t !! v).
Definition isOn t v : bool := default false (onStack t !! v).

Definition open v t : tarjan :=
  {| order := <[v := found t]> (order t); low := <[v := found t]> (low t); onStack := <[v := true]> (onStack t);
     stack := v :: stack t; frames := mkFrame v 0 :: frames t; found := (found t + 1)%Z; out := out t |}.

(** [low[v] = min(low[v], n)] *)
Definition lower v (n : Z) t : tarjan :=
  {| order := order t; low := <[v := Z.min (lowOf t v) n]> (low t); onStack := onStack t;
     stack := stack t; frames := frames t; found := found t; out := out t |}.

Definition set_frames fs t : tarjan :=
  {| order := order t; low := low t; onStack := onStack t; stack := stack t; frames := fs; found := found t; out := out t |}.

(** The scan of [pop]: what lies above [v] and [v] itself, then what is left. *)
Fixpoint above v (s : list nat) : list nat * list nat :=
  match s with
  | [] => ([], [])
  | x :: s => if decide (x = v) then ([x], s) else let '(members, rest) := above v s in (x :: members, rest)
  end.

Definition pop v t : list nat * tarjan :=
  let '(members, rest) := above v (stack t) in
  (reverse members,
   {| order := order t; low := low t; onStack := foldr (λ w on, <[w := false]> on) (onStack t) members;
      stack := rest; frames := frames t; found := found t; out := out t |}).

Definition add_component c t : tarjan :=
  {| order := order t; low := low t; onStack := onStack t; stack := stack t; frames := frames t; found := found t;
     out := out t ++ [c] |}.

Definition finish t : tarjan :=
  match frames t with
  | [] => t
  | {| vertex := v |} :: rest =>
      let t := set_frames rest t in
      let t := if (lowOf t v =? orderOf t v)%Z then let '(members, t) := pop v t in add_component members t else t in
      match rest with
      | [] => t
      | {| vertex := parent |} :: _ => lower parent (lowOf t v) t
      end
  end.

Section Search.
Context (adj : list (list nat)).

(** One turn of the loop of [search], on a path that is not empty. *)
Definition turn v nx rest t : tarjan :=
  match outgoing adj v !! nx with
  | None => finish t
  | Some w =>
      let t := set_frames (mkFrame v (S nx) :: rest) t in
      if (orderOf t w =? unvisited)%Z then open w t
      else if isOn t w then lower v (orderOf t w) t
      else t
  end.

Fixpoint search_loop (fuel : nat) t : option tarjan :=
  match fuel with
  | O => None
  | S fuel =>
      match frames t with
      | [] => Some t
      | {| vertex := v; next := nx |} :: rest => search_loop fuel (turn v nx rest t)
      end
  end.

Definition search_fuel : nat := S (length adj + edges adj).
Definition search root t : option tarjan := search_loop search_fuel (open root t).

Definition run_from (roots : list nat) t : option tarjan :=
  foldl (λ st root, t ← st; if (orderOf t root =? unvisited)%Z then search root t else Some t) (Some t) roots.
Definition run : option (list (list nat)) := out <$> run_from (seq 0 (length adj)) (newTarjan adj).
End Search.

Example run_cycle : run [[1]; [2]; [0; 3]; []] = Some [[3]; [0; 1; 2]].
Proof. reflexivity. Qed.

(** ** What a search has left to do *)

Lemma sum_change (f g : nat → nat) (l : list nat) w :
  NoDup l → w ∈ l → (∀ x, x ≠ w → f x = g x) → sum_list_with g l + f w = sum_list_with f l + g w.
Proof.
  intros Hnd Hw Hne. induction Hnd as [|x l Hx Hnd IH]; [by apply elem_of_nil in Hw|]. simpl.
  destruct (decide (x = w)) as [->|Hxw].
  - assert (sum_list_with g l = sum_list_with f l); [|lia]. clear IH Hw Hnd. induction l as [|y l IH]; [done|]. simpl.
    rewrite (Hne y), IH by set_solver. done.
  - rewrite (Hne x) by done. assert (w ∈ l) by set_solver. specialize (IH ltac:(done)). lia.
Qed.

(** One step to enter each vertex not found, and one for each of its edges; as
    much for each vertex on the path, less the edges followed. *)
Definition unfound adj (f : nat → bool) : nat :=
  sum_list_with (λ x, if f x then 0 else S (length (outgoing adj x))) (seq 0 (length adj)).
Definition frames_left adj (fs : list frame) : nat :=
  sum_list_with (λ f, S (length (outgoing adj (vertex f)) - next f)) fs.

Lemma unfound_add adj (f g : nat → bool) w :
  w < length adj → f w = false → g w = true → (∀ x, x ≠ w → g x = f x) →
  unfound adj g + S (length (outgoing adj w)) = unfound adj f.
Proof.
  intros Hlt Hf Hg He. unfold unfound.
  set (a := λ x, if f x then 0 else S (length (outgoing adj x))). set (b := λ x, if g x then 0 else S (length (outgoing adj x))).
  assert (Hc : sum_list_with b (seq 0 (length adj)) + a w = sum_list_with a (seq 0 (length adj)) + b w).
  { apply sum_change; [apply NoDup_seq|apply elem_of_seq; lia|]. intros x Hx. unfold a, b. by rewrite He. }
  assert (b w = 0) by (unfold b; by rewrite Hg). assert (a w = S (length (outgoing adj w))) by (unfold a; by rewrite Hf). lia.
Qed.

Lemma sum_outgoing adj : sum_list_with (λ x, S (length (outgoing adj x))) (seq 0 (length adj)) = length adj + edges adj.
Proof.
  unfold edges. assert (E : length <$> adj = (λ x, length (outgoing adj x)) <$> seq 0 (length adj)).
  { apply list_eq. intros i. rewrite !list_lookup_fmap. destruct (decide (i < length adj)) as [Hlt|Hge].
    - rewrite lookup_seq_lt by done. simpl. unfold outgoing. by destruct (lookup_lt_is_Some_2 adj i Hlt) as [l ->].
    - rewrite (lookup_ge_None_2 adj), (lookup_ge_None_2 (seq _ _)); [done|rewrite length_seq; lia|lia]. }
  rewrite E. assert (Hl : ∀ l : list nat, sum_list_with (λ x, S (length (outgoing adj x))) l = length l + sum_list ((λ x, length (outgoing adj x)) <$> l)).
  { clear E. induction l as [|x l IH]; [done|]. rewrite fmap_cons. simpl. rewrite IH. lia. }
  by rewrite Hl, length_seq.
Qed.

Lemma unfound_le adj (f : nat → bool) : unfound adj f <= length adj + edges adj.
Proof.
  rewrite <- sum_outgoing. unfold unfound. induction (seq 0 (length adj)) as [|x l IH]; simpl; [lia|]. destruct (f x); lia.
Qed.

(** ** What the updates change *)

Record sized (n : nat) t : Prop := {
  size_order : length (order t) = n; size_low : length (low t) = n; size_on : length (onStack t) = n
}.

Lemma insert_at {A} (d : A) (l : list A) v (a : A) x :
  v < length l → default d (<[v := a]> l !! x) = if decide (x = v) then a else default d (l !! x).
Proof.
  intros Hv. destruct (decide (x = v)) as [->|Hx]; [by rewrite list_lookup_insert_eq|].
  by rewrite list_lookup_insert_ne by congruence.
Qed.

Lemma clear_all (ws : list nat) (on : list bool) x :
  (∀ w, w ∈ ws → w < length on) →
  default false (foldr (λ w on, <[w := false]> on) on ws !! x) = if decide (x ∈ ws) then false else default false (on !! x).
Proof.
  intros Hw. assert (Hlen : length (foldr (λ w on, <[w := false]> on) on ws) = length on).
  { clear Hw. induction ws; simpl; [done|]. by rewrite length_insert. }
  induction ws as [|w ws IH]; simpl in *; [done|]. rewrite length_insert in Hlen.
  rewrite insert_at; [|rewrite Hlen; apply Hw; by left]. rewrite IH; [|intros; apply Hw; by right|done].
  destruct (decide (x = w)), (decide (x ∈ ws)), (decide (x ∈ w :: ws)); try done; set_solver.
Qed.

Lemma clear_length (ws : list nat) (on : list bool) : length (foldr (λ w on, <[w := false]> on) on ws) = length on.
Proof. induction ws; simpl; [done|]. by rewrite length_insert. Qed.

Lemma above_split v (s : list nat) : v ∈ s →
  ∃ front rest, v ∉ front ∧ s = front ++ v :: rest ∧ above v s = (front ++ [v], rest).
Proof.
  induction s as [|x s IH]; [by intros ?%elem_of_nil|]. intros Hin. simpl. destruct (decide (x = v)) as [->|Hx].
  - exists [], s. split_and!; [apply not_elem_of_nil|done|done].
  - destruct IH as (front & rest & Hf & -> & ->); [set_solver|]. exists (x :: front), rest. split_and!; [set_solver|done|done].
Qed.

(** ** Vertices in descending order *)

Definition descending (ord : nat → Z) (l : list nat) : Prop := StronglySorted (λ x y, ord y < ord x)%Z l.

Lemma descending_ext (ord ord' : nat → Z) l : (∀ x, x ∈ l → ord' x = ord x) → descending ord l → descending ord' l.
Proof.
  intros He H. induction H as [|a l H IH Hf]; constructor.
  - apply IH. intros x Hx. apply He. by right.
  - rewrite Forall_forall in *. intros y Hy. rewrite !He by (by left || by right). by apply Hf.
Qed.

Lemma descending_inj (ord : nat → Z) l x y : descending ord l → x ∈ l → y ∈ l → ord x = ord y → x = y.
Proof.
  intros H. induction H as [|a l H IH Hf]; [by intros ?%elem_of_nil|]. rewrite Forall_forall in Hf.
  intros [->|Hx]%elem_of_cons [->|Hy]%elem_of_cons E; [done|apply Hf in Hy; lia|apply Hf in Hx; lia|by apply IH].
Qed.

(** ** The invariant *)

Section Components.
Context (adj : list (list nat)) (Hadj : well_formed adj).
#[local] Abbreviation reach := (reach adj).
#[local] Abbreviation edge := (edge adj).

Definition mutual x y : Prop := reach x y ∧ reach y x.
Definition path_vertices t : list nat := vertex <$> frames t.
Definition closed_vertices t : list nat := concat (out t).

(** The edges the search has followed: every edge of a vertex that left the
    path, the first few of one still on it. *)
Definition followed t x w : Prop :=
  orderOf t x ≠ unvisited ∧ ∃ i, outgoing adj x !! i = Some w ∧ ∀ f, f ∈ frames t → vertex f = x → i < next f.

(** [v] is the innermost vertex of the path found no later than [x]. *)
Definition nearest t v x : Prop :=
  v ∈ path_vertices t ∧ (orderOf t v <= orderOf t x)%Z ∧
  ∀ u, u ∈ path_vertices t → (orderOf t u <= orderOf t x)%Z → (orderOf t u <= orderOf t v)%Z.

Record search_inv t : Prop := {
  inv_size : sized (length adj) t;
  inv_found : (0 <= found t)%Z;
  inv_order x : orderOf t x = unvisited ∨ (0 <= orderOf t x < found t)%Z;
  inv_sorted : descending (orderOf t) (stack t);
  inv_on x : isOn t x = true ↔ x ∈ stack t;
  inv_path : descending (orderOf t) (path_vertices t);
  inv_path_in x : x ∈ path_vertices t → x ∈ stack t;
  inv_seen x : orderOf t x ≠ unvisited ↔ x ∈ stack t ∨ x ∈ closed_vertices t;
  inv_apart x : x ∈ stack t → x ∉ closed_vertices t;
  inv_followed x w : followed t x w → orderOf t w ≠ unvisited;
  inv_down v x : v ∈ path_vertices t → x ∈ stack t → (orderOf t v <= orderOf t x)%Z → reach v x;
  inv_up x : x ∈ stack t → ∃ v, v ∈ path_vertices t ∧ (orderOf t v <= orderOf t x)%Z ∧ reach x v;
  inv_low v : v ∈ path_vertices t →
    (lowOf t v <= orderOf t v)%Z ∧ ∃ z, z ∈ stack t ∧ orderOf t z = lowOf t v ∧ reach v z;
  inv_back x w v : x ∈ stack t → w ∈ stack t → followed t x w → nearest t v x → (lowOf t v <= orderOf t w)%Z
}.

(** What has been returned: components, each after those its edges reach. *)
Record out_inv (cs : list (list nat)) : Prop := {
  out_disjoint : NoDup (concat cs);
  out_class c x y : c ∈ cs → x ∈ c → (y ∈ c ↔ mutual x y);
  out_closed i x w : x ∈ concat (take i cs) → edge x w → w ∈ concat (take i cs)
}.

Lemma visited_lt t x : sized (length adj) t → orderOf t x ≠ unvisited → x < length adj.
Proof. intros [Hs _ _] Hx. rewrite <- Hs. apply lookup_lt_is_Some. unfold orderOf in Hx. destruct (order t !! x); [done|done]. Qed.

Lemma edge_lookup x w : edge x w ↔ ∃ i, outgoing adj x !! i = Some w.
Proof. apply list_elem_of_lookup. Qed.

Lemma inner_path t v nx rest :
  search_inv t → frames t = mkFrame v nx :: rest →
  v ∈ path_vertices t ∧ (∀ u, u ∈ path_vertices t → (orderOf t u <= orderOf t v)%Z) ∧
  (∀ u, u ∈ vertex <$> rest → (orderOf t u < orderOf t v)%Z).
Proof.
  intros Hi E. pose proof (inv_path _ Hi) as Hs. unfold path_vertices in *. rewrite E in *. simpl in *.
  apply StronglySorted_inv in Hs as [_ Hs]. rewrite Forall_forall in Hs. split_and!; [by left| |done].
  intros u [->|Hu]%elem_of_cons; [done|]. apply Hs in Hu. lia.
Qed.

(** ** Following an edge to a vertex already found *)

Lemma followed_bump t t' v nx rest w x y :
  frames t = mkFrame v nx :: rest → order t' = order t → frames t' = mkFrame v (S nx) :: rest →
  outgoing adj v !! nx = Some w →
  followed t' x y → followed t x y ∨ (x = v ∧ y = w).
Proof.
  intros Ef Eo Ef' Hw (Hx & i & Hy & Hl). unfold orderOf in Hx. rewrite Eo in Hx.
  destruct (decide (x = v ∧ i = nx)) as [[-> ->]|Hne]; [right; split; [done|congruence]|].
  left. split; [done|]. exists i. split; [done|]. intros f Hf Hv. rewrite Ef in Hf.
  apply elem_of_cons in Hf as [->|Hf]; [|apply Hl; [rewrite Ef'; by right|done]].
  simpl in *. subst x. specialize (Hl (mkFrame v (S nx))). rewrite Ef' in Hl. simpl in Hl.
  assert (i < S nx) by (apply Hl; [by left|done]). lia.
Qed.

Lemma follow_inv t t' v nx rest w :
  search_inv t → frames t = mkFrame v nx :: rest → outgoing adj v !! nx = Some w → orderOf t w ≠ unvisited →
  order t' = order t → onStack t' = onStack t → stack t' = stack t → found t' = found t → out t' = out t →
  frames t' = mkFrame v (S nx) :: rest → length (low t') = length (low t) →
  (∀ u, u ≠ v → lowOf t' u = lowOf t u) → (lowOf t' v <= lowOf t v)%Z →
  (w ∈ stack t → (lowOf t' v <= orderOf t w)%Z) → (∃ z, z ∈ stack t ∧ orderOf t z = lowOf t' v ∧ reach v z) →
  search_inv t'.
Proof.
  intros Hi Ef Hw Hd Eo Eon Es Efn Eout Ef' El Hlow Hle Hback Hwit.
  assert (HO : ∀ x, orderOf t' x = orderOf t x) by (intros; unfold orderOf; by rewrite Eo).
  assert (HP : path_vertices t' = path_vertices t) by (unfold path_vertices; by rewrite Ef', Ef).
  assert (HC : closed_vertices t' = closed_vertices t) by (unfold closed_vertices; by rewrite Eout).
  assert (Hll : ∀ u, (lowOf t' u <= lowOf t u)%Z).
  { intros u. destruct (decide (u = v)) as [->|Hu]; [done|rewrite Hlow by done; lia]. }
  assert (HF : ∀ x y, followed t' x y → followed t x y ∨ (x = v ∧ y = w)) by (intros; by eapply followed_bump).
  destruct (inner_path _ _ _ _ Hi Ef) as (Hv & Hmax & _).
  destruct Hi as [[? ? ?] H2 H3 H4 H5 H6 H7 H8 H9 H10 H11 H12 H13 H14]. constructor.
  - constructor; congruence.
  - by rewrite Efn.
  - intros x. rewrite HO, Efn. apply H3.
  - rewrite Es. by apply (descending_ext (orderOf t)).
  - intros x. unfold isOn. rewrite Eon, Es. apply H5.
  - rewrite HP. by apply (descending_ext (orderOf t)).
  - intros x. rewrite HP, Es. apply H7.
  - intros x. rewrite HO, Es, HC. apply H8.
  - intros x. rewrite Es, HC. apply H9.
  - intros x y Hxy. rewrite HO. apply HF in Hxy as [?|[-> ->]]; [by eapply H10|done].
  - intros u x. rewrite HP, Es, !HO. apply H11.
  - intros x. rewrite Es. intros Hx. destruct (H12 x Hx) as (u & ? & ? & ?). exists u. by rewrite HP, !HO.
  - intros u. rewrite HP, HO. intros Hu. destruct (H13 u Hu) as (? & z & ? & ? & ?).
    split; [specialize (Hll u); lia|]. destruct (decide (u = v)) as [->|Hne].
    + destruct Hwit as (z' & ? & ? & ?). exists z'. by rewrite Es, HO.
    + exists z. by rewrite Es, HO, Hlow.
  - intros x y u. rewrite Es, !HO. intros Hx Hy Hxy Hn.
    assert (Hn' : nearest t u x).
    { destruct Hn as (Hu & Hle' & Hm). rewrite HP in Hu. rewrite !HO in Hle'. split_and!; [done..|].
      intros u' Hu' Hlt. rewrite <- HP in Hu'. specialize (Hm u' Hu'). rewrite !HO in Hm. by apply Hm. }
    apply HF in Hxy as [Hxy|[-> ->]].
    + specialize (Hll u). pose proof (H14 x y u Hx Hy Hxy Hn'). lia.
    + assert (u = v) as ->.
      { destruct Hn' as (Hu & _ & Hm). specialize (Hm v Hv ltac:(lia)). specialize (Hmax u Hu).
        apply (descending_inj _ _ _ _ H6); [done..|lia]. }
      by apply Hback.
Qed.

(** ** Opening a vertex *)

Section Open.
Context (t t0 : tarjan) (w : nat).
Context (Hi : search_inv t) (Hnew : orderOf t w = unvisited) (Hlt : w < length adj)
        (Hreach : ∀ u, u ∈ path_vertices t → reach u w)
        (Eo : order t0 = order t) (El : low t0 = low t) (Eon : onStack t0 = onStack t) (Es : stack t0 = stack t)
        (Efn : found t0 = found t) (Eout : out t0 = out t) (EP : path_vertices t0 = path_vertices t)
        (EF : ∀ x y, followed t0 x y → followed t x y ∨ y = w).

Lemma open_order x : orderOf (open w t0) x = if decide (x = w) then found t else orderOf t x.
Proof.
  unfold orderOf. simpl. rewrite insert_at, Efn, Eo; [done|]. rewrite Eo. by destruct (inv_size _ Hi) as [-> _ _].
Qed.

Lemma open_low x : lowOf (open w t0) x = if decide (x = w) then found t else lowOf t x.
Proof.
  unfold lowOf. simpl. rewrite insert_at, Efn, El; [done|]. rewrite El. by destruct (inv_size _ Hi) as [_ -> _].
Qed.

Lemma new_not_in : w ∉ stack t ∧ w ∉ closed_vertices t.
Proof. pose proof (inv_seen _ Hi w). rewrite Hnew in *. tauto. Qed.

Lemma old_order x : x ∈ stack t → orderOf (open w t0) x = orderOf t x ∧ (0 <= orderOf t x < found t)%Z.
Proof.
  intros Hx. rewrite open_order. destruct (decide (x = w)) as [->|]; [by apply new_not_in in Hx|]. split; [done|].
  destruct (inv_order _ Hi x) as [E|]; [|done]. exfalso. by apply (inv_seen _ Hi x); [left|].
Qed.

Lemma open_path x : x ∈ path_vertices (open w t0) ↔ x = w ∨ x ∈ path_vertices t.
Proof. rewrite <- EP. unfold path_vertices. simpl. by rewrite elem_of_cons. Qed.

Lemma open_followed x y : followed (open w t0) x y → x ≠ w ∧ (followed t x y ∨ y = w).
Proof.
  intros (Hx & i & Hy & Hf). assert (x ≠ w).
  { intros ->. specialize (Hf (mkFrame w 0) ltac:(by left) eq_refl). simpl in Hf. lia. }
  split; [done|]. apply EF. split.
  - unfold orderOf. rewrite Eo. change (orderOf t x ≠ unvisited). rewrite open_order in Hx. by rewrite decide_False in Hx.
  - exists i. split; [done|]. intros f Hin. apply Hf. by right.
Qed.

Lemma open_nearest u x : x ∈ stack t → nearest (open w t0) u x → nearest t u x.
Proof.
  intros Hx (Hu & Hle & Hm). destruct (old_order x Hx) as [Ex Hr]. rewrite Ex in *.
  rewrite open_path in Hu. destruct Hu as [->|Hu].
  { exfalso. rewrite open_order, decide_True in Hle by done. lia. }
  destruct (old_order u (inv_path_in _ Hi _ Hu)) as [Eu _]. rewrite Eu in *. split_and!; [done..|].
  intros u' Hu' Hle'. destruct (old_order u' (inv_path_in _ Hi _ Hu')) as [Eu' _]. rewrite <- Eu'. apply Hm; [|by rewrite Eu'].
  rewrite open_path. by right.
Qed.

Lemma open_inv : search_inv (open w t0).
Proof.
  pose proof (inv_found _ Hi) as Hf0. destruct new_not_in as [Hns Hnc].
  assert (Hw : orderOf (open w t0) w = found t) by (by rewrite open_order, decide_True).
  assert (Hp : ∀ u, u ∈ path_vertices t → orderOf (open w t0) u = orderOf t u ∧ (0 <= orderOf t u < found t)%Z)
    by (intros u Hu; by apply old_order, (inv_path_in _ Hi)).
  assert (Hdesc : ∀ l, (∀ x, x ∈ l → x ∈ stack t) → descending (orderOf t) l → descending (orderOf (open w t0)) (w :: l)).
  { intros l Hl Hd. constructor; [by apply (descending_ext (orderOf t)); [intros x Hx; apply old_order, Hl|]|].
    rewrite Forall_forall. intros x Hx. destruct (old_order x (Hl x Hx)). rewrite Hw. lia. }
  constructor.
  - destruct (inv_size _ Hi). constructor; simpl; rewrite length_insert; congruence.
  - simpl. rewrite Efn. lia.
  - intros x. rewrite open_order. simpl. rewrite Efn. destruct (decide (x = w)); [right; lia|].
    destruct (inv_order _ Hi x); [by left|right; lia].
  - simpl. rewrite Es. apply Hdesc; [done|apply Hi].
  - intros x. unfold isOn. simpl. rewrite insert_at by (rewrite Eon; by destruct (inv_size _ Hi) as [_ _ ->]).
    rewrite Eon, Es, elem_of_cons. pose proof (inv_on _ Hi x) as Hon. unfold isOn in Hon. destruct (decide (x = w)); tauto.
  - change (path_vertices (open w t0)) with (w :: path_vertices t0). rewrite EP. apply Hdesc; [apply (inv_path_in _ Hi)|apply Hi].
  - intros x. rewrite open_path. simpl. rewrite Es, elem_of_cons. pose proof (inv_path_in _ Hi x). tauto.
  - intros x. unfold closed_vertices. simpl. rewrite Eout, Es, elem_of_cons, open_order. fold (closed_vertices t).
    pose proof (inv_seen _ Hi x). destruct (decide (x = w)); [|tauto]. split; [by left; left|]. intros _. unfold unvisited. lia.
  - intros x. unfold closed_vertices. simpl. rewrite Eout, Es, elem_of_cons. intros [->|Hx]; [done|by apply (inv_apart _ Hi)].
  - intros x y Hxy. apply open_followed in Hxy as [Hne [Hxy| ->]]; [|rewrite Hw; unfold unvisited; lia].
    apply (inv_followed _ Hi) in Hxy. rewrite open_order. destruct (decide (y = w)); [unfold unvisited; lia|done].
  - intros u x. rewrite open_path. simpl. rewrite Es, elem_of_cons. intros [->|Hu] [->|Hx] Hle.
    + apply rtc_refl.
    + destruct (old_order x Hx). rewrite Hw in *. lia.
    + by apply Hreach.
    + destruct (old_order x Hx), (Hp u Hu). apply (inv_down _ Hi); [done..|lia].
  - intros x. simpl. rewrite Es, elem_of_cons. intros [->|Hx].
    + exists w. rewrite open_path. split_and!; [by left|done|apply rtc_refl].
    + destruct (inv_up _ Hi x Hx) as (u & Hu & Hle & Hr). exists u. destruct (old_order x Hx), (Hp u Hu). rewrite open_path.
      split_and!; [by right|lia|done].
  - intros u. rewrite open_path, open_low, open_order. simpl. rewrite Es. destruct (decide (u = w)) as [->|Hne].
    + intros _. split; [lia|]. exists w. split_and!; [by left|by rewrite Hw|apply rtc_refl].
    + intros [->|Hu]; [done|]. destruct (inv_low _ Hi u Hu) as (? & z & Hz & Ez & Hr). split; [done|]. exists z.
      destruct (old_order z Hz) as [Ez' _]. split_and!; [by right|by rewrite Ez'|done].
  - intros x y u. simpl. rewrite Es, !elem_of_cons. intros Hx Hy Hxy Hn. apply open_followed in Hxy as [Hne Hxy].
    destruct Hx as [->|Hx]; [done|]. destruct (old_order x Hx) as [Ex Hr].
    apply open_nearest in Hn; [|done]. pose proof Hn as (Hu & Hle & _). rewrite open_low.
    rewrite decide_False by (intros ->; by apply Hns, (inv_path_in _ Hi)).
    destruct (decide (y = w)) as [->|Hyw].
    + rewrite Hw. destruct (inv_low _ Hi u Hu). lia.
    + destruct Hy as [?|Hy]; [done|]. destruct Hxy as [Hxy|?]; [|done]. destruct (old_order y Hy) as [-> _].
      by apply (inv_back _ Hi x).
Qed.
End Open.

(** ** Leaving a vertex *)

Lemma lower_low t p n u : p < length (low t) → lowOf (lower p n t) u = if decide (u = p) then Z.min (lowOf t p) n else lowOf t u.
Proof. intros Hp. unfold lowOf at 1. simpl. by rewrite insert_at. Qed.

Section Finish.
Context (t : tarjan) (v nx : nat) (rest : list frame).
Context (Hi : search_inv t) (Ef : frames t = mkFrame v nx :: rest) (Hdone : outgoing adj v !! nx = None).

Lemma leave_followed t' x y :
  order t' = order t → frames t' = rest → followed t' x y → followed t x y.
Proof.
  intros Eo Ef' (Hx & i & Hy & Hl). unfold orderOf in Hx. rewrite Eo in Hx. split; [done|]. exists i. split; [done|].
  intros f Hf Hv. rewrite Ef in Hf. apply elem_of_cons in Hf as [->|Hf]; [|apply Hl; [by rewrite Ef'|done]].
  simpl in *. subst x. apply lookup_ge_None in Hdone. apply lookup_lt_Some in Hy. lia.
Qed.

Lemma leave_edge x w : x ∈ stack t → (orderOf t v <= orderOf t x)%Z → edge x w → followed t x w.
Proof.
  intros Hx Hle [i Hw]%edge_lookup. split; [apply (inv_seen _ Hi); by left|]. exists i. split; [done|].
  intros f Hf Hv. destruct (inner_path _ _ _ _ Hi Ef) as (_ & _ & Hlt).
  rewrite Ef in Hf. apply elem_of_cons in Hf as [->|Hf].
  - simpl in *. subst x. apply lookup_ge_None in Hdone. apply lookup_lt_Some in Hw. lia.
  - exfalso. specialize (Hlt (vertex f) (list_elem_of_fmap_2 vertex _ _ Hf)). rewrite Hv in Hlt. lia.
Qed.

Lemma path_leave u : u ∈ path_vertices t ↔ u = v ∨ u ∈ vertex <$> rest.
Proof. unfold path_vertices. rewrite Ef. simpl. by rewrite elem_of_cons. Qed.

(** A low link below the vertex's own order leads to an earlier path vertex. *)
Lemma low_parent : (lowOf t v < orderOf t v)%Z → ∃ u, u ∈ vertex <$> rest ∧ reach v u ∧ (orderOf t u <= lowOf t v)%Z.
Proof.
  intros Hlt. destruct (inner_path _ _ _ _ Hi Ef) as (Hv & _ & _).
  destruct (inv_low _ Hi v Hv) as (_ & z & Hz & Ez & Hr). destruct (inv_up _ Hi z Hz) as (u & Hu & Hle & Hzu).
  exists u. split_and!; [|by etrans|lia]. apply path_leave in Hu as [->|?]; [lia|done].
Qed.

Lemma keep_inv p np rest' :
  rest = mkFrame p np :: rest' → (lowOf t v < orderOf t v)%Z →
  search_inv (lower p (lowOf t v) (set_frames rest t)).
Proof.
  intros Er Hlt. set (t' := lower p (lowOf t v) (set_frames rest t)).
  destruct (inner_path _ _ _ _ Hi Ef) as (Hv & Hmax & Hrest). destruct (low_parent Hlt) as (g & Hg & Hvg & Hgl).
  assert (HO : ∀ x, orderOf t' x = orderOf t x) by done.
  assert (HP : path_vertices t' = vertex <$> rest) by done.
  assert (Hin : ∀ u, u ∈ path_vertices t' → u ∈ path_vertices t) by (intros u; rewrite path_leave, HP; tauto).
  assert (Hp : p ∈ path_vertices t') by (rewrite HP, Er; by left).
  assert (Hd : descending (orderOf t) (vertex <$> rest)).
  { pose proof (inv_path _ Hi) as Hd. unfold path_vertices in Hd. rewrite Ef in Hd. by apply StronglySorted_inv in Hd as [? _]. }
  assert (Hpmax : ∀ u, u ∈ path_vertices t' → (orderOf t u <= orderOf t p)%Z).
  { intros u Hu. rewrite HP in Hu. rewrite Er in Hu, Hd. simpl in *. apply StronglySorted_inv in Hd as [_ Hd].
    rewrite Forall_forall in Hd. apply elem_of_cons in Hu as [->|Hu]; [done|]. apply Hd in Hu. lia. }
  assert (Hplt : p < length (low t)).
  { destruct (inv_size _ Hi) as [_ -> _]. apply (visited_lt t); [apply Hi|]. apply (inv_seen _ Hi). left. by apply (inv_path_in _ Hi), Hin. }
  assert (HL : ∀ u, lowOf t' u = if decide (u = p) then Z.min (lowOf t p) (lowOf t v) else lowOf t u)
    by (intros u; by apply (lower_low (set_frames rest t))).
  assert (HL' : ∀ u, (lowOf t' u <= lowOf t u)%Z) by (intros u; rewrite HL; destruct (decide (u = p)) as [->|]; lia).
  destruct Hi as [[? ? ?] H2 H3 H4 H5 H6 H7 H8 H9 H10 H11 H12 H13 H14]. constructor.
  - constructor; [done|simpl; by rewrite length_insert|done].
  - done.
  - done.
  - done.
  - done.
  - done.
  - intros x Hx. by apply H7, Hin.
  - done.
  - done.
  - intros x w Hxw. apply leave_followed in Hxw; [|done..]. by apply H10 in Hxw.
  - intros u x Hu Hx Hle. by apply H11; [apply Hin| |].
  - intros x Hx. destruct (H12 x Hx) as (u & Hu & Hle & Hr). apply path_leave in Hu as [->|Hu]; [|by exists u].
    exists g. split_and!; [done|rewrite !HO; lia|by etrans].
  - intros u Hu. destruct (H13 u (Hin u Hu)) as (Hle & z & ? & ? & ?). specialize (HL' u). split; [rewrite HO; lia|]. rewrite HL.
    destruct (decide (u = p)) as [->|]; [|by exists z]. destruct (Z.min_spec (lowOf t p) (lowOf t v)) as [[_ ->]|[_ ->]]; [by exists z|].
    destruct (H13 v Hv) as (_ & zv & ? & ? & ?). exists zv. split_and!; [done..|]. etrans; [|done].
    apply H11; [by apply Hin|by apply H7|]. specialize (Hmax p (Hin p Hp)). lia.
  - intros x w u Hx Hw Hxw Hn. apply leave_followed in Hxw; [|done..]. destruct Hn as (Hu & Hle & Hm).
    rewrite !HO in *. destruct (Z.le_gt_cases (orderOf t v) (orderOf t x)) as [Hvx|Hvx].
    + assert (u = p) as ->.
      { specialize (Hm p Hp). rewrite !HO in Hm. specialize (Hpmax u Hu). specialize (Hmax p (Hin p Hp)).
        apply (descending_inj _ _ _ _ Hd); [done..|lia]. }
      assert (nearest t v x) by (split_and!; [done..|]; intros u' Hu' _; by apply Hmax).
      pose proof (H14 x w v Hx Hw Hxw ltac:(done)). rewrite HL, decide_True by done. lia.
    + specialize (HL' u). assert (nearest t u x); [|pose proof (H14 x w u Hx Hw Hxw ltac:(done)); lia].
      split_and!; [by apply Hin|done|]. intros u' Hu' Hle'. apply path_leave in Hu' as [->|Hu']; [lia|by apply Hm].
Qed.

Section Close.
Context (front srest : list nat) (Hs : stack t = front ++ v :: srest) (Hroot : lowOf t v = orderOf t v).
#[local] Abbreviation component := (reverse (front ++ [v])).

Lemma split_stack x : x ∈ stack t ↔ x ∈ component ∨ x ∈ srest.
Proof. rewrite Hs, elem_of_reverse, !elem_of_app, elem_of_cons, list_elem_of_singleton. tauto. Qed.

Lemma component_iff x : x ∈ component ↔ x ∈ stack t ∧ (orderOf t v <= orderOf t x)%Z.
Proof.
  pose proof (inv_sorted _ Hi) as Hd. unfold descending in Hd. rewrite Hs in Hd.
  rewrite elem_of_reverse, elem_of_app, list_elem_of_singleton, Hs, elem_of_app, elem_of_cons.
  pose proof (StronglySorted_app_1_elem_of _ _ _ x v Hd) as H1.
  apply StronglySorted_app_1_r, StronglySorted_inv in Hd as [_ Hd]. rewrite Forall_forall in Hd. split.
  - intros [Hx| ->]; [|split; [tauto|lia]]. split; [tauto|]. specialize (H1 Hx ltac:(by left)). simpl in H1. lia.
  - intros [[Hx|[->|Hx]] Hle]; [tauto|tauto|]. apply Hd in Hx. lia.
Qed.

Lemma srest_iff x : x ∈ srest ↔ x ∈ stack t ∧ (orderOf t x < orderOf t v)%Z.
Proof.
  pose proof (inv_sorted _ Hi) as Hd. unfold descending in Hd. rewrite Hs in Hd.
  rewrite Hs, elem_of_app, elem_of_cons. pose proof (StronglySorted_app_1_elem_of _ _ _ x v Hd) as H1.
  apply StronglySorted_app_1_r, StronglySorted_inv in Hd as [_ Hd]. rewrite Forall_forall in Hd. split.
  - intros Hx. split; [tauto|]. by apply Hd.
  - intros [[Hx|[->|Hx]] Hle]; [|lia|done]. specialize (H1 Hx ltac:(by left)). simpl in H1. lia.
Qed.

Lemma component_mutual x : x ∈ component → mutual x v.
Proof.
  intros [Hx Hle]%component_iff. destruct (inner_path _ _ _ _ Hi Ef) as (Hv & Hmax & _). split; [|by apply (inv_down _ Hi)].
  destruct (inv_up _ Hi x Hx) as (u & Hu & _ & Hr). etrans; [exact Hr|]. apply (inv_down _ Hi); [done| |by apply Hmax].
  by apply (inv_path_in _ Hi).
Qed.

Lemma component_edges x w : x ∈ component → edge x w → w ∈ component ∨ w ∈ closed_vertices t.
Proof.
  intros [Hx Hle]%component_iff He. destruct (inner_path _ _ _ _ Hi Ef) as (Hv & Hmax & _).
  pose proof (leave_edge x w Hx Hle He) as Hf. destruct (proj1 (inv_seen _ Hi w) (inv_followed _ Hi x w Hf)) as [Hw|]; [left|by right].
  apply component_iff. split; [done|]. rewrite <- Hroot. apply (inv_back _ Hi x); [done..|]. split_and!; [done..|].
  intros u Hu _. by apply Hmax.
Qed.

Lemma closed_reach cs i x y : out_inv cs → x ∈ concat (take i cs) → reach x y → y ∈ concat (take i cs).
Proof. intros Ho Hx Hr. induction Hr as [|x z y He _ IH]; [done|]. apply IH. by apply (out_closed _ Ho i x). Qed.

Lemma close_out : out_inv (out t) → out_inv (out t ++ [component]).
Proof.
  intros Ho. assert (Hall : concat (out t) = concat (take (length (out t)) (out t))) by (by rewrite firstn_all).
  assert (Hkc : ∀ x y, x ∈ component → reach x y → y ∈ component ∨ y ∈ closed_vertices t).
  { intros x y Hx Hr. assert (Hor : x ∈ component ∨ x ∈ closed_vertices t) by (by left). clear Hx.
    induction Hr as [|a b y Hab _ IH]; [done|]. apply IH. destruct Hor as [Ha|Ha]; [by apply (component_edges a)|].
    right. unfold closed_vertices in *. rewrite Hall in *. by apply (out_closed _ Ho _ a). }
  assert (Happ : ∀ x, x ∈ component → x ∉ closed_vertices t) by (intros x [Hx _]%component_iff; by apply (inv_apart _ Hi)).
  constructor.
  - rewrite concat_app. simpl. rewrite app_nil_r. apply NoDup_app. split_and!; [apply Ho|intros x Hx Hc; by apply (Happ x)|].
    rewrite reverse_Permutation. pose proof (inv_sorted _ Hi) as Hd. rewrite Hs in Hd.
    assert (Hnd : ∀ l, descending (orderOf t) l → NoDup l).
    { clear. intros l H. induction H as [|a l H IH Hf]; constructor; [|done]. intros Ha. rewrite Forall_forall in Hf. apply Hf in Ha. lia. }
    apply Hnd in Hd. replace (front ++ v :: srest) with ((front ++ [v]) ++ srest) in Hd by (by rewrite <- app_assoc).
    by apply NoDup_app in Hd as [? _].
  - intros c x y [Hc|Hc%list_elem_of_singleton]%elem_of_app Hx; [by apply (out_class _ Ho)|]. subst c. split.
    + intros Hy. destruct (component_mutual x Hx), (component_mutual y Hy). split; by etrans.
    + intros [Hxy Hyx]. destruct (Hkc x y Hx Hxy) as [|Hy]; [done|]. exfalso. apply (Happ x Hx). unfold closed_vertices in *.
      rewrite Hall in *. by apply (closed_reach _ _ y).
  - intros i x w. rewrite take_app. destruct (decide (i <= length (out t))) as [Hle|Hgt].
    + replace (i - length (out t)) with 0 by lia. simpl. rewrite app_nil_r. apply (out_closed _ Ho).
    + replace (i - length (out t)) with (S (i - length (out t) - 1)) by lia. rewrite take_ge by lia. simpl. rewrite take_nil.
      rewrite concat_app. simpl. rewrite app_nil_r, !elem_of_app. intros [Hx|Hx] He.
      * left. rewrite Hall in *. by apply (out_closed _ Ho _ x).
      * destruct (component_edges x w Hx He); tauto.
Qed.
Lemma close_inv t' :
  sized (length adj) t' → order t' = order t → stack t' = srest → frames t' = rest → found t' = found t →
  out t' = out t ++ [component] → (∀ x, isOn t' x = if decide (x ∈ front ++ [v]) then false else isOn t x) →
  (∀ u, u ∈ vertex <$> rest → lowOf t' u = lowOf t u) → search_inv t'.
Proof.
  intros Hsz Eo Es Ef' Efn Eout Hon HL.
  assert (HO : ∀ x, orderOf t' x = orderOf t x) by (intros; unfold orderOf; by rewrite Eo).
  assert (HP : path_vertices t' = vertex <$> rest) by (unfold path_vertices; by rewrite Ef').
  assert (HC : ∀ x, x ∈ closed_vertices t' ↔ x ∈ closed_vertices t ∨ x ∈ component).
  { intros x. unfold closed_vertices. rewrite Eout, concat_app. simpl. by rewrite app_nil_r, elem_of_app. }
  assert (Hin : ∀ u, u ∈ vertex <$> rest → u ∈ path_vertices t ∧ (orderOf t u < orderOf t v)%Z).
  { intros u Hu. destruct (inner_path _ _ _ _ Hi Ef) as (_ & _ & Hlt). split; [apply path_leave; by right|by apply Hlt]. }
  constructor.
  - done.
  - rewrite Efn. apply Hi.
  - intros x. rewrite HO, Efn. apply Hi.
  - rewrite Es. apply (descending_ext (orderOf t)); [done|]. pose proof (inv_sorted _ Hi) as Hds. rewrite Hs in Hds.
    apply StronglySorted_app_1_r in Hds. by apply StronglySorted_inv in Hds as [? _].
  - intros x. rewrite Hon, Es, srest_iff. pose proof (component_iff x) as Hc. rewrite elem_of_reverse in Hc.
    pose proof (inv_on _ Hi x). destruct (decide (x ∈ front ++ [v])); [split; [done|intros [? ?]]|].
    + destruct (proj1 Hc e). lia.
    + destruct (Z.lt_ge_cases (orderOf t x) (orderOf t v)); tauto.
  - rewrite HP. apply (descending_ext (orderOf t)); [done|]. pose proof (inv_path _ Hi) as Hdp.
    unfold path_vertices in Hdp. rewrite Ef in Hdp. by apply StronglySorted_inv in Hdp as [? _].
  - intros x. rewrite HP, Es, srest_iff. intros Hx. apply Hin in Hx as [Hx ?]. split; [by apply (inv_path_in _ Hi)|done].
  - intros x. rewrite HO, Es, HC. pose proof (inv_seen _ Hi x). pose proof (split_stack x). tauto.
  - intros x. rewrite Es, HC, srest_iff. intros [Hx Hlt] [Hc|Hc]; [by apply (inv_apart _ Hi x)|].
    apply component_iff in Hc as [_ ?]. lia.
  - intros x w Hxw. rewrite HO. apply leave_followed in Hxw; [|done..]. by apply (inv_followed _ Hi x).
  - intros u x. rewrite HP, Es, srest_iff, !HO. intros Hu [Hx _]. apply (inv_down _ Hi); [by apply Hin|done].
  - intros x. rewrite Es, srest_iff, HO. intros [Hx Hlt]. destruct (inv_up _ Hi x Hx) as (u & Hu & ? & ?). exists u.
    rewrite HP, HO. split_and!; [|done..]. apply path_leave in Hu as [->|?]; [lia|done].
  - intros u. rewrite HP, HO. intros Hu. rewrite HL by done. destruct (Hin u Hu) as [Hu' ?].
    destruct (inv_low _ Hi u Hu') as (? & z & ? & ? & ?). split; [done|]. exists z. rewrite Es, srest_iff, HO. split_and!; [done|lia|done..].
  - intros x w u. rewrite Es, !srest_iff, HO. intros [Hx Hlt] [Hw _] Hxw (Hu & Hle & Hm). apply leave_followed in Hxw; [|done..].
    rewrite HP in Hu. rewrite !HO in Hle. rewrite HL by done. apply (inv_back _ Hi x); [done..|]. split_and!; [by apply Hin|done|].
    intros u' [->|Hu']%path_leave Hle'; [lia|]. specialize (Hm u'). rewrite HP, !HO in Hm. by apply Hm.
Qed.
End Close.
End Finish.

(** ** One turn *)

Record sound t : Prop := { sound_inv : search_inv t; sound_out : out_inv (out t) }.

Lemma finish_sound t v nx rest :
  sound t → frames t = mkFrame v nx :: rest → outgoing adj v !! nx = None →
  sound (finish t) ∧ frames (finish t) = rest ∧ order (finish t) = order t.
Proof.
  intros [Hi Ho] Ef Hd. destruct (inner_path _ _ _ _ Hi Ef) as (Hv & _ & Hlt).
  assert (Hlow : (lowOf t v <= orderOf t v)%Z) by apply (inv_low _ Hi v Hv).
  unfold finish. rewrite Ef. change (lowOf (set_frames rest t) v) with (lowOf t v).
  change (orderOf (set_frames rest t) v) with (orderOf t v). destruct (Z.eqb_spec (lowOf t v) (orderOf t v)) as [E|E].
  - unfold pop. simpl. destruct (above_split v (stack t)) as (front & srest & _ & Es & Ea); [by apply (inv_path_in _ Hi)|]. rewrite Ea.
    assert (Hfin : ∀ x, x ∈ front ++ [v] → x < length adj).
    { intros x Hx. apply (visited_lt t); [apply Hi|]. apply (inv_seen _ Hi). left. rewrite Es. set_solver. }
    assert (Hc : ∀ t', sized (length adj) t' → order t' = order t → stack t' = srest → frames t' = rest → found t' = found t →
      out t' = out t ++ [reverse (front ++ [v])] → onStack t' = foldr (λ w on, <[w := false]> on) (onStack t) (front ++ [v]) →
      (∀ u, u ∈ vertex <$> rest → lowOf t' u = lowOf t u) → sound t').
    { intros t' ? ? ? ? ? Eout Hon ?. constructor; [|rewrite Eout; by eapply close_out].
      eapply close_inv; try done. intros x. unfold isOn. rewrite Hon, clear_all; [done|]. by destruct (inv_size _ Hi) as [_ _ ->]. }
    destruct (inv_size _ Hi) as [S1 S2 S3].
    destruct rest as [|[p np] rest']; (split_and!; [apply Hc; simpl; try done|done|done]).
    + constructor; simpl; [done|done|]. by rewrite clear_length.
    + constructor; simpl; [done|by rewrite length_insert|by rewrite clear_length].
    + intros u Hu. assert (Hp : p ∈ path_vertices t) by (rewrite path_leave by done; right; by left).
      rewrite lower_low; [|change (p < length (low t)); rewrite S2; apply (visited_lt t); [done|]; apply (inv_seen _ Hi); left; by apply (inv_path_in _ Hi)].
      unfold add_component. destruct (decide (u = p)) as [->|]; [|done]. specialize (Hlt p ltac:(by left)).
      pose proof (proj1 (inv_low _ Hi p Hp)). change (Z.min (lowOf t p) (lowOf t v) = lowOf t p). lia.
  - destruct rest as [|[p np] rest'].
    + exfalso. destruct (low_parent t v nx [] Hi Ef) as (u & Hu & _); [lia|]. by apply elem_of_nil in Hu.
    + split_and!; [|done|done]. constructor; [|done]. apply (keep_inv t v nx (mkFrame p np :: rest') Hi Ef Hd p np rest' eq_refl). lia.
Qed.

(** ** What is left to do *)

Definition unopened t : nat := unfound adj (λ x, negb (orderOf t x =? unvisited)%Z).
Definition path_left t : nat := frames_left adj (frames t).
Definition work t : nat := unopened t + path_left t.

Lemma unopened_open t t0 w :
  w < length adj → orderOf t w = unvisited → length (order t) = length adj → order t0 = order t → (0 <= found t0)%Z →
  unopened (open w t0) + S (length (outgoing adj w)) = unopened t.
Proof.
  intros Hlt Hw Hl Eo Hf.
  assert (Hg : ∀ x, orderOf (open w t0) x = if decide (x = w) then found t0 else orderOf t x).
  { intros x. unfold orderOf. simpl. rewrite Eo. apply insert_at. lia. }
  apply unfound_add; [done|by rewrite Hw| |].
  - rewrite Hg, decide_True by done. destruct (Z.eqb_spec (found t0) unvisited) as [E|_]; [unfold unvisited in E; lia|done].
  - intros x Hx. by rewrite Hg, decide_False.
Qed.

Lemma turn_sound t v nx rest :
  sound t → frames t = mkFrame v nx :: rest →
  sound (turn adj v nx rest t) ∧ work (turn adj v nx rest t) < work t ∧
  ∀ x, orderOf t x ≠ unvisited → orderOf (turn adj v nx rest t) x ≠ unvisited.
Proof.
  intros [Hi Ho] Ef. unfold turn. destruct (outgoing adj v !! nx) as [w|] eqn:Hw.
  2:{ destruct (finish_sound t v nx rest) as (Hs & Ef' & Eo); [done..|]. split_and!; [done| |].
      - unfold work, unopened, path_left, orderOf. rewrite Ef', Eo, Ef. simpl. lia.
      - intros x. unfold orderOf. by rewrite Eo. }
  set (t0 := set_frames (mkFrame v (S nx) :: rest) t). change (orderOf t0 w) with (orderOf t w). change (isOn t0 w) with (isOn t w).
  destruct (inner_path _ _ _ _ Hi Ef) as (Hv & Hmax & _).
  assert (He : edge v w) by (apply edge_lookup; by exists nx).
  assert (Hpath : path_left t0 < path_left t).
  { unfold path_left. rewrite Ef. simpl. apply lookup_lt_Some in Hw. lia. }
  assert (Hvlt : v < length (low t)).
  { destruct (inv_size _ Hi) as [_ -> _]. apply (visited_lt t); [apply Hi|]. apply (inv_seen _ Hi). left. by apply (inv_path_in _ Hi). }
  destruct (inv_low _ Hi v Hv) as [Hvl Hz].
  destruct (Z.eqb_spec (orderOf t w) unvisited) as [E|E]; [|destruct (isOn t w) eqn:Eon].
  - assert (Hlt : w < length adj) by by apply (Hadj v). split_and!.
    + constructor; [|done]. apply (open_inv t t0 w Hi E Hlt); try done.
      * intros u Hu. transitivity v; [|by apply rtc_once]. apply (inv_down _ Hi); [done| |by apply Hmax]. by apply (inv_path_in _ Hi).
      * unfold path_vertices. by rewrite Ef.
      * intros x y Hxy. destruct (followed_bump t t0 v nx rest w x y Ef eq_refl eq_refl Hw Hxy) as [?|[_ ?]]; [by left|by right].
    + destruct (inv_size _ Hi) as [Hl _ _]. pose proof (unopened_open t t0 w Hlt E Hl eq_refl (inv_found _ Hi)) as Hu.
      unfold work. change (path_left (open w t0)) with (S (length (outgoing adj w) - 0) + path_left t0). lia.
    + intros x Hx. rewrite (open_order t t0 w) by done. destruct (decide (x = w)) as [->|]; [done|done].
  - apply (inv_on _ Hi) in Eon. split_and!; [|exact (proj1 (Nat.add_lt_mono_l _ _ (unopened t)) Hpath)|done]. constructor; [|done].
    assert (HL : ∀ u, lowOf (lower v (orderOf t w) t0) u = if decide (u = v) then Z.min (lowOf t v) (orderOf t w) else lowOf t u)
      by (intros u; by apply (lower_low t0)).
    eapply (follow_inv t _ v nx rest w); try done.
    + simpl. by rewrite length_insert.
    + intros u Hu. rewrite HL. by rewrite decide_False.
    + rewrite HL, decide_True by done. lia.
    + intros _. rewrite HL, decide_True by done. lia.
    + rewrite HL, decide_True by done. destruct (Z.min_spec (lowOf t v) (orderOf t w)) as [[_ ->]|[_ ->]]; [done|].
      exists w. split_and!; [done..|]. by apply rtc_once.
  - split_and!; [|exact (proj1 (Nat.add_lt_mono_l _ _ (unopened t)) Hpath)|done]. constructor; [|done].
    eapply (follow_inv t _ v nx rest w); try done. intros Hin. apply (inv_on _ Hi) in Hin. congruence.
Qed.

(** ** The whole search *)

Lemma search_loop_sound fuel t :
  sound t → work t < fuel →
  ∃ t', search_loop adj fuel t = Some t' ∧ sound t' ∧ frames t' = [] ∧ ∀ x, orderOf t x ≠ unvisited → orderOf t' x ≠ unvisited.
Proof.
  revert t. induction fuel as [|fuel IH]; intros t Hs Hw; [lia|]. simpl. destruct (frames t) as [|[v nx] rest] eqn:Ef.
  { by exists t. }
  destruct (turn_sound t v nx rest Hs Ef) as (Hs' & Hw' & Hm). destruct (IH _ Hs' ltac:(lia)) as (t' & E & ? & ? & Hm').
  exists t'. split_and!; [done..|]. intros x Hx. by apply Hm', Hm.
Qed.

Lemma search_sound root t :
  sound t → frames t = [] → root < length adj → orderOf t root = unvisited →
  ∃ t', search adj root t = Some t' ∧ sound t' ∧ frames t' = [] ∧ orderOf t' root ≠ unvisited ∧
    ∀ x, orderOf t x ≠ unvisited → orderOf t' x ≠ unvisited.
Proof.
  intros [Hi Ho] Ef Hlt Hr. assert (HP : path_vertices t = []) by (unfold path_vertices; by rewrite Ef).
  assert (Hs' : sound (open root t)).
  { constructor; [|done]. apply (open_inv t t root Hi Hr Hlt); try done; [|intros; by left].
    intros u Hu. rewrite HP in Hu. by apply elem_of_nil in Hu. }
  assert (Hu : unopened (open root t) + S (length (outgoing adj root)) = unopened t).
  { apply unopened_open; [done..|by destruct (inv_size _ Hi)|done|apply (inv_found _ Hi)]. }
  destruct (search_loop_sound (search_fuel adj) (open root t) Hs') as (t' & E & ? & ? & Hm).
  { unfold work, search_fuel. assert (Hp : path_left (open root t) = S (length (outgoing adj root) - 0)).
    { unfold path_left. simpl. rewrite Ef. simpl. lia. }
    pose proof (unfound_le adj (λ x, negb (orderOf t x =? unvisited)%Z)). unfold unopened in *. lia. }
  exists t'. split_and!; [done..| |].
  - apply Hm. rewrite (open_order t t root) by done. rewrite decide_True by done. pose proof (inv_found _ Hi). unfold unvisited. lia.
  - intros x Hx. apply Hm. rewrite (open_order t t root) by done. destruct (decide (x = root)) as [->|]; done.
Qed.

Lemma run_from_sound roots t :
  sound t → frames t = [] → (∀ x, x ∈ roots → x < length adj) →
  ∃ t', run_from adj roots t = Some t' ∧ sound t' ∧ frames t' = [] ∧
    (∀ x, x ∈ roots → orderOf t' x ≠ unvisited) ∧ ∀ x, orderOf t x ≠ unvisited → orderOf t' x ≠ unvisited.
Proof.
  revert t. induction roots as [|root roots IH]; intros t Hs Ef Hlt.
  { exists t. split_and!; [done..| |done]. by intros x ?%elem_of_nil. }
  assert (H1 : ∃ t1, (if (orderOf t root =? unvisited)%Z then search adj root t else Some t) = Some t1 ∧ sound t1 ∧ frames t1 = [] ∧
    orderOf t1 root ≠ unvisited ∧ ∀ x, orderOf t x ≠ unvisited → orderOf t1 x ≠ unvisited).
  { destruct (Z.eqb_spec (orderOf t root) unvisited); [apply search_sound; [done..|apply Hlt; by left|done]|by exists t]. }
  destruct H1 as (t1 & E1 & Hs1 & Ef1 & Hr1 & Hm1).
  destruct (IH t1 Hs1 Ef1) as (t' & E & ? & ? & Hall & Hm); [intros x Hx; apply Hlt; by right|].
  exists t'. unfold run_from in *. simpl. rewrite E1. split_and!; [done..| |].
  - intros x [->|Hx]%elem_of_cons; [by apply Hm|by apply Hall].
  - intros x Hx. by apply Hm, Hm1.
Qed.

Lemma newTarjan_sound : sound (newTarjan adj).
Proof.
  assert (HO : ∀ x, orderOf (newTarjan adj) x = unvisited).
  { intros x. unfold orderOf. simpl. destruct (replicate _ _ !! x) eqn:E; [|done]. by apply lookup_replicate in E as [-> _]. }
  constructor; constructor; try done.
  - constructor; simpl; by rewrite length_replicate.
  - intros x. left. apply HO.
  - constructor.
  - intros x. unfold isOn. simpl. split; [|by intros ?%elem_of_nil].
    destruct (replicate _ _ !! x) eqn:E; [|done]. by apply lookup_replicate in E as [-> _].
  - constructor.
  - intros x. rewrite HO. split; [done|]. by intros [?%elem_of_nil|?%elem_of_nil].
  - intros x Hx. by apply elem_of_nil in Hx.
  - intros x w [Hx _]. by rewrite HO in Hx.
  - by intros v x ?%elem_of_nil.
  - by intros x ?%elem_of_nil.
  - by intros v ?%elem_of_nil.
  - by intros x w v ?%elem_of_nil.
  - by constructor.
  - by intros c x y ?%elem_of_nil.
  - intros i x w. change (out (newTarjan adj)) with (@nil (list nat)). rewrite take_nil. by intros ?%elem_of_nil.
Qed.

Lemma run_sound : ∃ cs, run adj = Some cs ∧ out_inv cs ∧ ∀ x, x < length adj ↔ x ∈ concat cs.
Proof.
  destruct (run_from_sound (seq 0 (length adj)) (newTarjan adj)) as (t & E & [Hi Ho] & Ef & Hall & _); [apply newTarjan_sound|done| |].
  { intros x Hx%elem_of_seq. lia. }
  exists (out t). unfold run. rewrite E. split_and!; [done..|]. intros x. fold (closed_vertices t).
  assert (Hst : stack t = []).
  { destruct (stack t) as [|y s] eqn:Es; [done|]. destruct (inv_up _ Hi y) as (u & Hu & _); [rewrite Es; by left|].
    unfold path_vertices in Hu. rewrite Ef in Hu. by apply elem_of_nil in Hu. }
  pose proof (inv_seen _ Hi x) as Hs. rewrite Hst in Hs. split.
  - intros Hx. destruct (proj1 Hs) as [Hn|]; [|by apply elem_of_nil in Hn|done]. apply Hall. apply elem_of_seq. lia.
  - intros Hx. apply (visited_lt t); [apply Hi|]. apply Hs. by right.
Qed.
End Components.

Lemma concat_unique {A} (ls : list (list A)) i j c d (x : A) :
  NoDup (concat ls) → ls !! i = Some c → ls !! j = Some d → x ∈ c → x ∈ d → i = j.
Proof.
  revert i j. induction ls as [|l ls IH]; intros i j Hnd Hi Hj Hc Hd; [done|]. simpl in Hnd.
  apply NoDup_app in Hnd as (_ & Hdis & Hnd).
  assert (Hin : ∀ k e, ls !! k = Some e → x ∈ e → x ∈ concat ls).
  { intros k e Hk He. apply elem_of_concat. exists e. split; [done|]. by eapply list_elem_of_lookup_2. }
  destruct i as [|i], j as [|j]; simplify_eq/=; [done| | |f_equal; by eapply IH].
  - exfalso. by apply (Hdis x), (Hin j d).
  - exfalso. by apply (Hdis x), (Hin i c).
Qed.

(** C27: on a graph whose edges stay within it, the search always ends and
    returns the strongly connected components: every vertex is in exactly one,
    two vertices share one exactly when each reaches the other, and a component
    comes after every one its edges reach. *)
Theorem run_components adj :
  well_formed adj →
  ∃ cs, run adj = Some cs ∧ concat cs ≡ₚ seq 0 (length adj) ∧
    (∀ c x y, c ∈ cs → x ∈ c → (y ∈ c ↔ reach adj x y ∧ reach adj y x)) ∧
    (∀ i j c d x y, cs !! i = Some c → cs !! j = Some d → x ∈ c → y ∈ d → reach adj x y → j ≤ i).
Proof.
  intros Hadj. destruct (run_sound adj Hadj) as (cs & E & Ho & Hall). exists cs. split_and!; [done| |apply (out_class _ _ Ho)|].
  - apply NoDup_Permutation; [apply Ho|apply NoDup_seq|]. intros x. rewrite <- Hall, elem_of_seq. lia.
  - intros i j c d x y Hc Hd Hx Hy Hr. apply (closed_reach adj cs (S i)) in Hr; [|done|].
    + apply elem_of_concat in Hr as (d' & Hyd & Hd'). apply list_elem_of_lookup in Hd' as [j' Hj'].
      apply lookup_take_Some in Hj' as [Hj' ?]. rewrite (concat_unique cs j j' d d' y) by (try done; apply Ho). lia.
    + apply elem_of_concat. exists c. split; [done|]. apply list_elem_of_lookup. exists i. apply lookup_take_Some. split; [done|lia].
Qed.

Lemma run_components_witness : ∃ cs, run [[1]; [2]; [0; 3]; []] = Some cs ∧ cs = [[3]; [0; 1; 2]] ∧ concat cs ≡ₚ seq 0 4.
Proof.
  destruct (run_components [[1]; [2]; [0; 3]; []]) as (cs & E & Hp & _ & _).
  - intros v w He. destruct v as [|[|[|[|v]]]]; unfold edge, outgoing in He; simpl in *; set_solver by lia.
  - exists cs. split; [done|]. split; [|done]. vm_compute in E. congruence.
Defined.
