(* ===== verification/Intervals.v ===== *)
(** * Intervals: what each vertex of a graph reaches
    ([src/ir/irfacts/intervals.go])

    The strongly connected components are numbered in post-order by searches
    down from those that reach no other, and each carries the least number below
    it. Two comparisons then answer most questions of whether one vertex reaches
    another; the theorem says that each answer given is right, and that a pair is
    left open only where the code says it may be. *)
From S2P Require Import Prelude Tarjan.
Implicit Types (c k p q v w : nat) (kids adj : list (list nat)).

Record intervals := mkIntervals {
  comp : list nat; cyclic : list bool; lo : list nat; hi : list nat; first : list nat
}.

Definition compOf r v : nat := default 0 (comp r !! v).
Definition cyclicOf r c : bool := default false (cyclic r !! c).
Definition at_ (l : list nat) c : nat := default 0 (l !! c).

(** ** Condensing ([condense]) *)

(** The component of each vertex, as the loop over the components writes it. *)
Definition write_members c (members : list nat) (comp : list nat) : list nat :=
  foldl (λ comp v, <[v := c]> comp) comp members.
Definition write_comps (n : nat) (comps : list (list nat)) : list nat :=
  foldl (λ comp '(c, members), write_members c members comp) (replicate n 0) (zip (seq 0 (length comps)) comps).

(** One edge from a member of [c] to a vertex of component [p]. *)
Definition condense_edge c p (st : list bool * list (list nat)) : list bool * list (list nat) :=
  let '(cyclic, kids) := st in
  if decide (p = c) then (<[c := true]> cyclic, kids)
  else (cyclic, alter (λ ks, ks ++ [c]) p kids).

Definition condense_component (adj : list (list nat)) (comp : list nat) (st : list bool * list (list nat)) (e : nat * list nat) :
    list bool * list (list nat) :=
  let '(c, members) := e in
  foldl (λ st v, foldl (λ st w, condense_edge c (at_ comp w) st) st (outgoing adj v)) st members.

(** The components' numbers, their cycles, and each one's children. *)
Definition condense (edges : list (list nat)) : option (list nat * list bool * list (list nat)) :=
  match run edges with
  | None => None
  | Some comps =>
      let comp := write_comps (length edges) comps in
      let '(cyclic, kids) := foldl (condense_component edges comp)
        (replicate (length comps) false, replicate (length comps) []) (zip (seq 0 (length comps)) comps) in
      Some (comp, cyclic, kids)
  end.

(** ** Numbering ([number]) *)

(** The state of the searches: the numbers given out, which components were met,
    the next number, and the path, its innermost component first. *)
Record numbering := mkNumbering {
  n_lo : list nat; n_hi : list nat; n_first : list nat; visited : list bool; n_next : nat; n_path : list frame
}.
Implicit Types (s : numbering).

Definition isVisited s c : bool := default false (visited s !! c).

(** [visited[c] = true; r.first[c] = next; path = append(path, frame{vertex: c})] *)
Definition enter c s : numbering :=
  {| n_lo := n_lo s; n_hi := n_hi s; n_first := <[c := n_next s]> (n_first s); visited := <[c := true]> (visited s);
     n_next := n_next s; n_path := mkFrame c 0 :: n_path s |}.

Definition close kids c number s : numbering :=
  {| n_lo := foldl (λ lo k, <[c := at_ lo c `min` at_ lo k]> lo) (<[c := number]> (n_lo s)) (default [] (kids !! c));
     n_hi := <[c := number]> (n_hi s); n_first := n_first s; visited := visited s;
     n_next := n_next s; n_path := n_path s |}.

Definition set_path path s : numbering :=
  {| n_lo := n_lo s; n_hi := n_hi s; n_first := n_first s; visited := visited s; n_next := n_next s; n_path := path |}.
Definition set_next n s : numbering :=
  {| n_lo := n_lo s; n_hi := n_hi s; n_first := n_first s; visited := visited s; n_next := n; n_path := n_path s |}.

Section Number.
Context (kids : list (list nat)).

(** One turn of the search, with [c] innermost on its path. *)
Definition number_turn c nx rest s : numbering :=
  match outgoing kids c !! nx with
  | Some k =>
      let s := set_path (mkFrame c (S nx) :: rest) s in
      if isVisited s k then s else enter k s
  | None => set_next (S (n_next s)) (close kids c (n_next s) (set_path rest s))
  end.

Fixpoint number_loop (fuel : nat) s : option numbering :=
  match fuel with
  | O => None
  | S fuel =>
      match n_path s with
      | [] => Some s
      | {| vertex := c; next := nx |} :: rest => number_loop fuel (number_turn c nx rest s)
      end
  end.

Definition number_fuel : nat := S (length kids + edges kids).

Fixpoint number_from (isKid : list bool) (roots : list nat) s : option numbering :=
  match roots with
  | [] => Some s
  | root :: roots =>
      match (if default false (isKid !! root) then Some s else number_loop number_fuel (enter root s)) with
      | None => None
      | Some s => number_from isKid roots s
      end
  end.

Definition isKid_of : list bool :=
  foldl (λ isKid ks, foldl (λ isKid k, <[k := true]> isKid) isKid ks) (replicate (length kids) false) kids.

Definition number : option numbering :=
  let n := length kids in
  number_from isKid_of (seq 0 n)
    {| n_lo := replicate n 0; n_hi := replicate n 0; n_first := replicate n 0; visited := replicate n false;
       n_next := 0; n_path := [] |}.
End Number.

Definition newIntervals (edges : list (list nat)) : option intervals :=
  match condense edges with
  | None => None
  | Some (comp, cyclic, kids) =>
      match number kids with
      | None => None
      | Some s => Some {| comp := comp; cyclic := cyclic; lo := n_lo s; hi := n_hi s; first := n_first s |}
      end
  end.

(** Whether [t] reaches [b], and whether the intervals settle it. *)
Definition below r t b : bool * bool :=
  let '(ct, cb) := (compOf r t, compOf r b) in
  if decide (ct = cb) then (cyclicOf r ct, true)
  else if (at_ (lo r) ct <? at_ (lo r) cb) || (at_ (hi r) cb <=? at_ (hi r) ct) then (false, true)
  else (true, at_ (first r) cb <=? at_ (hi r) ct).

Example below_diamond :
  (λ r, (below r 3 0, below r 0 3, below r 1 2, below r 3 1)) <$> newIntervals [[]; [0]; [0]; [1; 2]]
  = Some ((true, true), (false, true), (true, false), (true, true)).
Proof. vm_compute. reflexivity. Qed.

(** ** The numbers given out *)

Section Numbering.
Context (kids : list (list nat)).
#[local] Abbreviation n := (length kids).

(** [k] is a child of [p]. *)
Definition child p k : Prop := k ∈ outgoing kids p.
Definition under : nat → nat → Prop := rtc child.
Context (Hkids : ∀ p k, child p k → p < k < n).

(** No component has two parents. *)
Definition forest : Prop := ∀ p q k, child p k → child q k → p = q.

Definition on_path s : list nat := vertex <$> n_path s.
Definition closed s c : Prop := isVisited s c = true ∧ c ∉ on_path s.
Definition hiOf s c : nat := at_ (n_hi s) c.
Definition loOf s c : nat := at_ (n_lo s) c.
Definition firstOf s c : nat := at_ (n_first s) c.

Record num_inv s : Prop := {
  num_sizes : length (n_lo s) = n ∧ length (n_hi s) = n ∧ length (n_first s) = n ∧ length (visited s) = n;
  num_path_visited c : c ∈ on_path s → isVisited s c = true;
  num_sorted : StronglySorted (λ c p, tc child p c) (on_path s);
  num_below_next c : closed s c → hiOf s c < n_next s;
  num_inj c k : closed s c → closed s k → hiOf s c = hiOf s k → c = k;
  num_kids c k : closed s c → child c k → closed s k ∧ hiOf s k < hiOf s c ∧ loOf s c ≤ loOf s k;
  num_lo c : closed s c → loOf s c ≤ hiOf s c;
  num_under c k : closed s c → closed s k → firstOf s c ≤ hiOf s k ≤ hiOf s c → under c k;
  num_path_first p : p ∈ on_path s → firstOf s p ≤ n_next s;
  num_path_under p k : p ∈ on_path s → closed s k → firstOf s p ≤ hiOf s k → under p k;
  num_followed f i k : f ∈ n_path s → i < next f → outgoing kids (vertex f) !! i = Some k → isVisited s k = true;
  num_forest_met : forest → ∀ c k, child c k → isVisited s k = true → isVisited s c = true ∧ firstOf s c ≤ firstOf s k;
  num_forest_lo : forest → ∀ c, closed s c → firstOf s c ≤ loOf s c
}.

Lemma child_lt p k : tc child p k → p < k.
Proof. induction 1 as [p k H|p q k H _ IH]; apply Hkids in H; lia. Qed.

Lemma under_le p k : under p k → p ≤ k.
Proof. induction 1 as [|p q k H _ IH]; [done|]. apply Hkids in H. lia. Qed.

Lemma visited_in s c : length (visited s) = n → isVisited s c = true → c < n.
Proof. intros <-. unfold isVisited. intros H. apply lookup_lt_is_Some. destruct (visited s !! c); [done|done]. Qed.

Lemma path_inner s c nx rest : num_inv s → n_path s = mkFrame c nx :: rest →
  c ∈ on_path s ∧ (∀ p, p ∈ vertex <$> rest → tc child p c) ∧ (∀ p, p ∈ on_path s → p ≤ c).
Proof.
  intros Hi E. pose proof (num_sorted _ Hi) as Hs. unfold on_path in *. rewrite E in *. simpl in *.
  apply StronglySorted_inv in Hs as [_ Hs]. rewrite Forall_forall in Hs. split_and!; [by left|done|].
  intros p [->|Hp]%elem_of_cons; [done|]. apply Hs, child_lt in Hp. lia.
Qed.

(** Following an edge to a component already met. *)
Lemma bump_inv s c nx rest k :
  num_inv s → n_path s = mkFrame c nx :: rest → outgoing kids c !! nx = Some k → isVisited s k = true →
  num_inv (set_path (mkFrame c (S nx) :: rest) s).
Proof.
  intros Hi E Hk Hv. set (s' := set_path _ s). assert (HP : on_path s' = on_path s) by (unfold on_path; by rewrite E).
  assert (HC : ∀ c, closed s' c ↔ closed s c) by (intros; unfold closed; by rewrite HP).
  destruct Hi as [H1 H2 H3 H4 H5 H6 H7 H8 H9 H10 H11 H12 H13]. constructor; try done; rewrite ?HP; try done.
  - intros x Hx%HC. by apply H4.
  - intros x y Hx%HC Hy%HC. by apply H5.
  - intros x y Hx%HC Hy. destruct (H6 x y Hx Hy) as (? & ? & ?). by rewrite HC.
  - intros x Hx%HC. by apply H7.
  - intros x y Hx%HC Hy%HC. by apply H8.
  - intros p x. rewrite HC. apply H10.
  - intros f i x Hf Hlt Hx. apply elem_of_cons in Hf as [->|Hf].
    + simpl in *. destruct (decide (i = nx)) as [->|]; [simplify_eq; done|].
      apply (H11 (mkFrame c nx) i x); [rewrite E; by left|simpl; lia|done].
    + apply (H11 f i x); [rewrite E; by right|done|done].
  - intros Hfo x Hx%HC. by apply H13.
Qed.

(** Entering one for the first time, from a parent on the path or as a root. *)
Lemma enter_inv s c :
  num_inv s → isVisited s c = false → c < n → (∀ p, p ∈ on_path s → tc child p c) →
  (forest → ∀ p, child p c → p ∈ on_path s) → num_inv (enter c s).
Proof.
  intros Hi Hv Hlt Hp Hpar. destruct (num_sizes _ Hi) as (S1 & S2 & S3 & S4).
  assert (HV : ∀ x, isVisited (enter c s) x = if decide (x = c) then true else isVisited s x)
    by (intros; unfold isVisited; simpl; apply insert_at; lia).
  assert (HF : ∀ x, firstOf (enter c s) x = if decide (x = c) then n_next s else firstOf s x)
    by (intros; unfold firstOf, at_; simpl; apply insert_at; lia).
  assert (HP : ∀ x, x ∈ on_path (enter c s) ↔ x = c ∨ x ∈ on_path s) by (intros; unfold on_path; simpl; apply elem_of_cons).
  assert (HC : ∀ x, closed (enter c s) x ↔ closed s x).
  { intros x. unfold closed. rewrite HV, HP. destruct (decide (x = c)) as [->|]; [|naive_solver]. rewrite Hv. naive_solver. }
  assert (Hcc : ∀ x, closed s x → x ≠ c) by (intros x [Hx _] ->; congruence).
  destruct Hi as [H1 H2 H3 H4 H5 H6 H7 H8 H9 H10 H11 H12 H13]. constructor.
  - simpl. rewrite !length_insert. done.
  - intros x. rewrite HP, HV. destruct (decide (x = c)); [done|]. intros [?|Hx]; [done|by apply H2].
  - change (on_path (enter c s)) with (c :: on_path s). constructor; [done|]. by apply Forall_forall.
  - intros x Hx%HC. by apply H4.
  - intros x y Hx%HC Hy%HC. by apply H5.
  - intros x y Hx%HC Hy. destruct (H6 x y Hx Hy) as (? & ? & ?). by rewrite HC.
  - intros x Hx%HC. by apply H7.
  - intros x y Hx%HC Hy%HC. rewrite HF, decide_False by auto. by apply H8.
  - intros p. rewrite HP, HF. destruct (decide (p = c)); [done|]. intros [?|?]; [done|by apply H9].
  - intros p x. rewrite HP, HF, HC. intros Hpp Hx. specialize (H4 x Hx). change (hiOf (enter c s) x) with (hiOf s x).
    destruct (decide (p = c)) as [->|]; [lia|]. destruct Hpp as [?|?]; [done|by apply H10].
  - intros f i x Hf Hi' Hx. rewrite HV. destruct (decide (x = c)); [done|]. apply elem_of_cons in Hf as [->|Hf]; [simpl in Hi'; lia|].
    by apply (H11 f i x).
  - intros Hfo p k Hk. rewrite !HV, !HF. destruct (decide (k = c)) as [->|Hkc]; intros Hkv.
    + assert (p ≠ c) by (intros ->; apply Hkids in Hk; lia). rewrite !decide_False by done.
      pose proof (Hpar Hfo p Hk) as Hin. split; [by apply H2|by apply H9].
    + destruct (H12 Hfo p k Hk Hkv) as [Hpv ?]. destruct (decide (p = c)) as [->|]; [congruence|done].
  - intros Hfo x Hx%HC. rewrite HF, decide_False by auto. by apply H13.
Qed.

(** Numbering the innermost component, once its children are followed. *)
Lemma lower_los c (ks : list nat) (los : list nat) :
  c < length los → c ∉ ks →
  let los' := foldl (λ lo k, <[c := at_ lo c `min` at_ lo k]> lo) los ks in
  length los' = length los ∧ (∀ x, x ≠ c → at_ los' x = at_ los x) ∧ at_ los' c ≤ at_ los c ∧
  (∀ k, k ∈ ks → at_ los' c ≤ at_ los k) ∧ ∀ m, m ≤ at_ los c → (∀ k, k ∈ ks → m ≤ at_ los k) → m ≤ at_ los' c.
Proof.
  revert los. induction ks as [|k ks IH]; intros los Hc Hn; simpl; [split_and!; [done..|by intros k ?%elem_of_nil|done]|].
  destruct (IH (<[c := at_ los c `min` at_ los k]> los)) as (E1 & E2 & E3 & E4 & E5); [by rewrite length_insert|set_solver|].
  assert (Hat : ∀ x, at_ (<[c := at_ los c `min` at_ los k]> los) x = if decide (x = c) then at_ los c `min` at_ los k else at_ los x)
    by (intros; unfold at_; by apply insert_at).
  rewrite length_insert in E1. rewrite Hat, decide_True in E3 by done. split_and!; [done| |lia| |].
  - intros x Hx. by rewrite E2, Hat, decide_False.
  - intros x [->|Hx]%elem_of_cons; [lia|]. specialize (E4 x Hx). rewrite Hat in E4.
    destruct (decide (x = c)) as [->|]; [set_solver|done].
  - intros m Hm Hks. apply E5.
    + rewrite Hat, decide_True by done. specialize (Hks k ltac:(by left)). lia.
    + intros x Hx. rewrite Hat, decide_False by (intros ->; set_solver). apply Hks. by right.
Qed.

Lemma interval_close_inv s c nx rest :
  num_inv s → n_path s = mkFrame c nx :: rest → outgoing kids c !! nx = None →
  num_inv (set_next (S (n_next s)) (close kids c (n_next s) (set_path rest s))).
Proof.
  intros Hi E Hdone. set (s' := set_next _ _). destruct (path_inner _ _ _ _ Hi E) as (Hc & Hrest & Hmax).
  destruct (num_sizes _ Hi) as (S1 & S2 & S3 & S4).
  assert (Hlt : c < n) by (apply (visited_in s); [done|by apply (num_path_visited _ Hi)]).
  assert (Hcr : c ∉ vertex <$> rest) by (intros Hin; apply Hrest, child_lt in Hin; lia).
  assert (HP : on_path s = c :: (vertex <$> rest)) by (unfold on_path; by rewrite E).
  assert (HC : ∀ x, closed s' x ↔ x = c ∨ closed s x).
  { intros x. unfold closed. change (isVisited s' x) with (isVisited s x). change (on_path s') with (vertex <$> rest).
    rewrite HP, elem_of_cons. destruct (decide (x = c)) as [->|]; [|tauto]. pose proof (num_path_visited _ Hi c Hc). tauto. }
  assert (HH : ∀ x, hiOf s' x = if decide (x = c) then n_next s else hiOf s x)
    by (intros; unfold hiOf, at_; simpl; apply insert_at; lia).
  assert (Hne : ∀ x, closed s x → x ≠ c) by (intros x [_ Hx] ->; done).
  assert (Hkid : ∀ k, child c k → closed s k).
  { intros k Hk. pose proof (Hkids c k Hk). pose proof Hk as [i Hi']%list_elem_of_lookup. split.
    - apply (num_followed _ Hi (mkFrame c nx) i); [rewrite E; by left| |done]. simpl.
      apply lookup_ge_None in Hdone. apply lookup_lt_Some in Hi'. lia.
    - intros Hin. apply Hmax in Hin. lia. }
  destruct (lower_los c (outgoing kids c) (<[c := n_next s]> (n_lo s))) as (L1 & L2 & L3 & L4 & L5).
  { rewrite length_insert. lia. }
  { intros Hin. apply Hkids in Hin. lia. }
  assert (Hset : ∀ x, at_ (<[c := n_next s]> (n_lo s)) x = if decide (x = c) then n_next s else loOf s x)
    by (intros; unfold loOf, at_; apply insert_at; lia).
  rewrite Hset, decide_True in L3, L5 by done.
  assert (HL : ∀ x, x ≠ c → loOf s' x = loOf s x).
  { intros x Hx. etrans; [by apply L2|]. by rewrite Hset, decide_False. }
  assert (HLc : loOf s' c ≤ n_next s) by done.
  assert (HLk : ∀ k, child c k → loOf s' c ≤ loOf s k).
  { intros k Hk. specialize (L4 k Hk). rewrite Hset, decide_False in L4; [done|]. by apply Hne, Hkid. }
  destruct Hi as [H1 H2 H3 H4 H5 H6 H7 H8 H9 H10 H11 H12 H13]. constructor.
  - simpl. fold (outgoing kids c). rewrite L1, !length_insert. done.
  - intros x Hx. apply H2. rewrite HP. by right.
  - change (on_path s') with (vertex <$> rest). rewrite HP in H3. by apply StronglySorted_inv in H3 as [? _].
  - intros x Hx%HC. rewrite HH. simpl. destruct (decide (x = c)); [lia|]. destruct Hx as [?|Hx]; [done|]. apply H4 in Hx. lia.
  - intros x y Hx%HC Hy%HC. rewrite !HH. destruct (decide (x = c)), (decide (y = c)); subst; [done| | |].
    + destruct Hy as [?|Hy]; [done|]. apply H4 in Hy. lia.
    + destruct Hx as [?|Hx]; [done|]. apply H4 in Hx. lia.
    + destruct Hx as [?|?], Hy as [?|?]; try done. by apply H5.
  - intros x k Hx%HC Hk. rewrite !HH. destruct (decide (x = c)) as [->|Hxc].
    + pose proof (Hkid k Hk) as Hck. rewrite decide_False, (HL k) by by apply Hne. specialize (H4 k Hck). rewrite HC.
      split_and!; [by right|lia|by apply HLk].
    + destruct Hx as [?|Hx]; [done|]. destruct (H6 x k Hx Hk) as (Hck & ? & ?). rewrite decide_False, !HL, HC by first [done|by apply Hne]. by split_and!; [right|..].
  - intros x Hx%HC. rewrite HH. destruct (decide (x = c)) as [->|]; [done|]. destruct Hx as [?|Hx]; [done|]. rewrite HL by done. by apply H7.
  - intros x k Hx%HC Hk%HC. rewrite !HH. change (firstOf s' x) with (firstOf s x). destruct (decide (k = c)) as [->|Hkc].
    + destruct (decide (x = c)) as [->|]; [done|]. destruct Hx as [?|Hx]; [done|]. apply H4 in Hx. lia.
    + destruct Hk as [?|Hk]; [done|]. destruct (decide (x = c)) as [->|Hxc].
      * intros [? _]. by apply H10.
      * destruct Hx as [?|Hx]; [done|]. by apply H8.
  - intros p Hp. change (firstOf s' p) with (firstOf s p). simpl. assert (firstOf s p ≤ n_next s); [|lia]. apply H9. rewrite HP. by right.
  - intros p k Hp Hk%HC. rewrite HH. change (firstOf s' p) with (firstOf s p). destruct (decide (k = c)) as [->|].
    + intros _. by apply tc_rtc, Hrest.
    + destruct Hk as [?|Hk]; [done|]. apply H10; [|done]. rewrite HP. by right.
  - intros f i k Hf. apply H11. rewrite E. by right.
  - done.
  - intros Hfo x Hx%HC. change (firstOf s' x) with (firstOf s x). destruct (decide (x = c)) as [->|Hxc].
    + apply L5; [by apply H9|]. intros k Hk. rewrite Hset, decide_False by by apply Hne, Hkid.
      destruct (H12 Hfo c k Hk) as [_ ?]; [by apply Hkid|]. specialize (H13 Hfo k (Hkid k Hk)). lia.
    + destruct Hx as [?|Hx]; [done|]. rewrite HL by done. by apply H13.
Qed.

(** ** The searches end and number everything *)

Definition number_work s : nat := unfound kids (isVisited s) + frames_left kids (n_path s).

Lemma enter_work s c : length (visited s) = n → c < n → isVisited s c = false → number_work (enter c s) = number_work s.
Proof.
  intros Hs Hlt Hv. unfold number_work. simpl.
  assert (HV : ∀ x, isVisited (enter c s) x = if decide (x = c) then true else isVisited s x)
    by (intros; unfold isVisited; simpl; apply insert_at; lia).
  assert (unfound kids (isVisited (enter c s)) + S (length (outgoing kids c)) = unfound kids (isVisited s)); [|lia].
  apply unfound_add; [done|done|by rewrite HV, decide_True|]. intros x Hx. by rewrite HV, decide_False.
Qed.

Lemma number_turn_inv s c nx rest :
  num_inv s → n_path s = mkFrame c nx :: rest →
  num_inv (number_turn kids c nx rest s) ∧ number_work (number_turn kids c nx rest s) < number_work s ∧
  ∀ x, isVisited s x = true → isVisited (number_turn kids c nx rest s) x = true.
Proof.
  intros Hi E. unfold number_turn. destruct (path_inner _ _ _ _ Hi E) as (Hc & Hrest & _).
  destruct (outgoing kids c !! nx) as [k|] eqn:Hk.
  2:{ split_and!; [by apply (interval_close_inv s c nx rest)| |done]. unfold number_work. rewrite E. simpl. fold (isVisited s). unfold isVisited. simpl. lia. }
  set (s0 := set_path (mkFrame c (S nx) :: rest) s). change (isVisited s0 k) with (isVisited s k).
  assert (Hw : number_work s0 < number_work s).
  { unfold number_work. rewrite E. simpl. apply lookup_lt_Some in Hk. unfold isVisited. simpl. lia. }
  assert (Hck : child c k) by (by eapply list_elem_of_lookup_2).
  destruct (isVisited s k) eqn:Hv; [split_and!; [by apply (bump_inv s c nx rest k)|done|done]|].
  pose proof (Hkids c k Hck) as [_ Hkn]. destruct (num_sizes _ Hi) as (_ & _ & _ & S4). split_and!.
  - pose proof (enter_inv s k Hi Hv Hkn) as He. assert (Hpath : ∀ p, p ∈ on_path s → tc child p k).
    { intros p Hp. unfold on_path in Hp. rewrite E in Hp. apply elem_of_cons in Hp as [->|Hp]; [by apply tc_once|].
      etrans; [by apply Hrest|by apply tc_once]. }
    specialize (He Hpath). destruct He as [G1 G2 G3 G4 G5 G6 G7 G8 G9 G10 G11 G12 G13].
    { intros Hfo p Hp. by rewrite (Hfo p c k Hp Hck). }
    assert (HP : on_path (enter k s0) = on_path (enter k s)) by (unfold on_path; simpl; by rewrite E).
    assert (HC : ∀ x, closed (enter k s0) x ↔ closed (enter k s) x) by (intros; unfold closed; by rewrite HP).
    constructor; try done; rewrite ?HP; try done.
    + intros x Hx%HC. by apply G4.
    + intros x y Hx%HC Hy%HC. by apply G5.
    + intros x y Hx%HC Hy. destruct (G6 x y Hx Hy) as (? & ? & ?). by rewrite HC.
    + intros x Hx%HC. by apply G7.
    + intros x y Hx%HC Hy%HC. by apply G8.
    + intros p x. rewrite HC. apply G10.
    + intros f i x Hf Hlt Hx. apply elem_of_cons in Hf as [->|Hf]; [simpl in Hlt; lia|].
      apply elem_of_cons in Hf as [->|Hf].
      * simpl in Hlt, Hx. destruct (decide (i = nx)) as [->|].
        -- simplify_eq. unfold isVisited. simpl. rewrite insert_at by lia. by rewrite decide_True.
        -- apply (G11 (mkFrame c nx) i x); [simpl; rewrite E; right; by left|simpl; lia|done].
      * apply (G11 f i x); [simpl; rewrite E; right; by right|done|done].
    + intros Hfo x Hx%HC. by apply G13.
  - rewrite enter_work; done.
  - intros x Hx. unfold isVisited. simpl. rewrite insert_at by lia. by destruct (decide (x = k)).
Qed.

(** A component is met as another's child, or as a search's root. *)
Lemma turn_visited s c nx rest x :
  n_path s = mkFrame c nx :: rest → isVisited (number_turn kids c nx rest s) x = true →
  isVisited s x = true ∨ ∃ p, child p x.
Proof.
  intros E. unfold number_turn. destruct (outgoing kids c !! nx) as [k|] eqn:Hk; [|by left].
  set (s0 := set_path (mkFrame c (S nx) :: rest) s). change (isVisited s0 k) with (isVisited s k).
  destruct (isVisited s k); [by left|]. unfold isVisited. simpl. destruct (decide (x = k)) as [->|Hx].
  - intros _. right. exists c. by eapply list_elem_of_lookup_2.
  - rewrite list_lookup_insert_ne by done. by left.
Qed.

Lemma number_loop_inv fuel s :
  num_inv s → number_work s < fuel →
  ∃ s', number_loop kids fuel s = Some s' ∧ num_inv s' ∧ n_path s' = [] ∧ (∀ x, isVisited s x = true → isVisited s' x = true) ∧
    ∀ x, isVisited s' x = true → isVisited s x = true ∨ ∃ p, child p x.
Proof.
  revert s. induction fuel as [|fuel IH]; intros s Hi Hw; [lia|]. simpl. destruct (n_path s) as [|[c nx] rest] eqn:E.
  { exists s. split_and!; [done..|]. by left. }
  destruct (number_turn_inv s c nx rest Hi E) as (Hi' & Hw' & Hm).
  destruct (IH _ Hi' ltac:(lia)) as (s' & Es & ? & ? & Hm' & Ho). exists s'. split_and!; [done..| |].
  - intros x Hx. by apply Hm', Hm.
  - intros x Hx. destruct (Ho x Hx) as [Hx'|]; [|by right]. by apply (turn_visited s c nx rest).
Qed.

Lemma isKid_of_spec c : c < n → default false (isKid_of kids !! c) = true ↔ ∃ p, child p c.
Proof.
  intros Hc.
  assert (Hin : ∀ (ks : list nat) (b : list bool), c < length b →
    let b' := foldl (λ b k, <[k := true]> b) b ks in
    length b' = length b ∧ (default false (b' !! c) = true ↔ c ∈ ks ∨ default false (b !! c) = true)).
  { induction ks as [|k ks IH]; intros b Hb; simpl.
    { split; [done|]. split; [by right|]. by intros [?%elem_of_nil|?]. }
    destruct (IH (<[k := true]> b)) as [E Hi]; [by rewrite length_insert|]. rewrite length_insert in E. split; [done|].
    rewrite Hi, elem_of_cons. destruct (decide (c = k)) as [->|Hne].
    - rewrite list_lookup_insert_eq by done. simpl. tauto.
    - rewrite list_lookup_insert_ne by done. tauto. }
  assert (Hout : ∀ (kss : list (list nat)) (b : list bool), c < length b →
    default false (foldl (λ b ks, foldl (λ b k, <[k := true]> b) b ks) b kss !! c) = true ↔
      (∃ ks, ks ∈ kss ∧ c ∈ ks) ∨ default false (b !! c) = true).
  { induction kss as [|ks kss IH]; intros b Hb; simpl.
    { split; [by right|]. by intros [(? & ?%elem_of_nil & _)|?]. }
    destruct (Hin ks b Hb) as [E Hi]. rewrite IH by (by rewrite E). rewrite Hi. split.
    - intros [(ks' & ? & ?)|[?|?]]; [left; exists ks'; split; [by right|done]|left; exists ks; split; [by left|done]|by right].
    - intros [(ks' & [->|?]%elem_of_cons & ?)|?]; [tauto|left; by exists ks'|tauto]. }
  unfold isKid_of. rewrite Hout by (by rewrite length_replicate).
  assert (default false (replicate n false !! c) ≠ true) by (destruct (replicate _ _ !! c) eqn:E; [apply lookup_replicate in E as [-> _]|]; done).
  split.
  - intros [(ks & Hks & Hcs)|?]; [|done]. apply list_elem_of_lookup in Hks as [p Hp]. exists p. unfold child, outgoing. by rewrite Hp.
  - intros [p Hp]. left. unfold child, outgoing in Hp. destruct (kids !! p) as [ks|] eqn:E; [|by apply elem_of_nil in Hp].
    exists ks. split; [by eapply list_elem_of_lookup_2|done].
Qed.

Definition isRoot c : Prop := ¬ ∃ p, child p c.

Lemma number_from_inv todo done_ s :
  num_inv s → n_path s = [] → NoDup (done_ ++ todo) → (∀ c, c ∈ todo → c < n) →
  (∀ c, isVisited s c = true → (∃ p, child p c) ∨ c ∈ done_) →
  ∃ s', number_from kids (isKid_of kids) todo s = Some s' ∧ num_inv s' ∧ n_path s' = [] ∧
    (∀ c, c ∈ todo → isRoot c → isVisited s' c = true) ∧ ∀ c, isVisited s c = true → isVisited s' c = true.
Proof.
  revert done_ s. induction todo as [|root todo IH]; intros done_ s Hi Ep Hnd Hlt Hmet.
  { exists s. split_and!; [done..| |done]. by intros c ?%elem_of_nil. }
  assert (Hroot : root < n) by (apply Hlt; by left).
  assert (H1 : ∃ s1, (if default false (isKid_of kids !! root) then Some s else number_loop kids (number_fuel kids) (enter root s)) = Some s1 ∧
    num_inv s1 ∧ n_path s1 = [] ∧ (isRoot root → isVisited s1 root = true) ∧ (∀ c, isVisited s c = true → isVisited s1 c = true) ∧
    ∀ c, isVisited s1 c = true → (∃ p, child p c) ∨ c ∈ done_ ++ [root]).
  { pose proof (isKid_of_spec root Hroot) as Hk. destruct (default false (isKid_of kids !! root)) eqn:Ek.
    { exists s. split_and!; [done..| |done|].
      - intros Hr. destruct Hr. by apply Hk.
      - intros c Hc. rewrite elem_of_app. destruct (Hmet c Hc); tauto. }
    assert (Hnk : isRoot root) by (intros Hc; by apply Hk in Hc).
    assert (Hv : isVisited s root = false).
    { destruct (isVisited s root) eqn:Hv; [|done]. exfalso. destruct (Hmet root Hv) as [?|Hd]; [done|].
      apply NoDup_app in Hnd as (_ & Hdis & _). apply (Hdis root Hd). by left. }
    destruct (num_sizes _ Hi) as (_ & _ & _ & S4).
    assert (HV : ∀ x, isVisited (enter root s) x = if decide (x = root) then true else isVisited s x)
      by (intros; unfold isVisited; simpl; apply insert_at; lia).
    destruct (number_loop_inv (number_fuel kids) (enter root s)) as (s1 & E1 & ? & ? & Hm & Ho).
    { apply enter_inv; [done..| |].
      - unfold on_path. rewrite Ep. by intros p ?%elem_of_nil.
      - intros _ p Hp. destruct Hnk. by exists p. }
    { rewrite enter_work by done. unfold number_work, number_fuel. rewrite Ep. simpl. pose proof (unfound_le kids (isVisited s)). lia. }
    exists s1. split_and!; [done..| | |].
    - intros _. apply Hm. by rewrite HV, decide_True.
    - intros c Hc. apply Hm. rewrite HV. by destruct (decide (c = root)).
    - intros c Hc. rewrite elem_of_app, list_elem_of_singleton. destruct (Ho c Hc) as [Hc'|]; [|by left].
      rewrite HV in Hc'. destruct (decide (c = root)); [tauto|]. destruct (Hmet c Hc'); tauto. }
  destruct H1 as (s1 & E1 & Hi1 & Ep1 & Hr1 & Hm1 & Hmet1).
  destruct (IH (done_ ++ [root]) s1 Hi1 Ep1) as (s' & E & ? & ? & Hall & Hm).
  { by rewrite <- app_assoc. } { intros c Hc. apply Hlt. by right. } { done. }
  exists s'. cbn [number_from]. rewrite E1. split_and!; [done..| |].
  - intros c [->|Hc]%elem_of_cons Hr; [by apply Hm, Hr1|by apply Hall].
  - intros c Hc. by apply Hm, Hm1.
Qed.

(** What the numbers say of the children's order, whatever the searches' order. *)
Record numbered s : Prop := {
  done_inj c k : c < n → k < n → hiOf s c = hiOf s k → c = k;
  done_kids c k : child c k → hiOf s k < hiOf s c ∧ loOf s c ≤ loOf s k;
  done_lo c : c < n → loOf s c ≤ hiOf s c;
  done_under c k : c < n → k < n → firstOf s c ≤ hiOf s k ≤ hiOf s c → under c k;
  done_forest c : forest → c < n → firstOf s c ≤ loOf s c
}.

Lemma number_done : ∃ s, number kids = Some s ∧ numbered s.
Proof.
  set (s0 := {| n_lo := replicate n 0; n_hi := replicate n 0; n_first := replicate n 0; visited := replicate n false; n_next := 0; n_path := [] |}).
  assert (HV : ∀ c, isVisited s0 c = false).
  { intros c. unfold isVisited. simpl. destruct (replicate n false !! c) eqn:E; [by apply lookup_replicate in E as [-> _]|done]. }
  assert (Hnc : ∀ c, ¬ closed s0 c) by (intros c [Hc _]; by rewrite HV in Hc).
  destruct (number_from_inv (seq 0 n) [] s0) as (s & E & Hi & Ep & Hall & _); [|done|apply NoDup_seq|intros c Hc%elem_of_seq; lia|intros c Hc; by rewrite HV in Hc|].
  { constructor; try done; try (intros; by edestruct Hnc); simpl.
    - rewrite !length_replicate. done.
    - by intros c ?%elem_of_nil.
    - constructor.
    - by intros p ?%elem_of_nil.
    - by intros f i k ?%elem_of_nil.
    - intros _ c k _ Hk. by rewrite HV in Hk. }
  exists s. split; [done|]. assert (HP : on_path s = []) by (unfold on_path; by rewrite Ep).
  assert (Hcl : ∀ c, c < n → closed s c).
  { intros c. induction (lt_wf c) as [c _ IH]. intros Hc.
    destruct (decide (default false (isKid_of kids !! c) = true)) as [Hk|Hk]; rewrite (isKid_of_spec c Hc) in Hk.
    - destruct Hk as [p Hp]. pose proof (Hkids p c Hp). apply (num_kids _ Hi p c); [apply IH; lia|done].
    - split; [|rewrite HP; apply not_elem_of_nil]. apply Hall; [apply elem_of_seq; lia|done]. }
  constructor.
  - intros c k Hc Hk. apply (num_inj _ Hi); auto.
  - intros c k Hk. pose proof (Hkids c k Hk). destruct (num_kids _ Hi c k) as (? & ? & ?); [apply Hcl; lia|done|]. lia.
  - intros c Hc. apply (num_lo _ Hi). auto.
  - intros c k Hc Hk. apply (num_under _ Hi); auto.
  - intros c Hfo Hc. apply (num_forest_lo _ Hi); auto.
Qed.
End Numbering.

(** ** The condensation *)

Section Condensation.
Context (adj : list (list nat)) (cs : list (list nat)).
Context (Hadj : well_formed adj) (Hout : out_inv adj cs) (Hall : ∀ x, x < length adj ↔ x ∈ concat cs).
Implicit Types (i j x y : nat) (es : list (nat * nat)).

(** [x] is in component [i]. *)
Definition member i x : Prop := ∃ ms : list nat, cs !! i = Some ms ∧ x ∈ ms.

Lemma member_lt i x : member i x → i < length cs ∧ x < length adj.
Proof.
  intros (c & Hc & Hx). split; [by eapply lookup_lt_Some|]. apply Hall, elem_of_concat. exists c. split; [done|].
  by eapply list_elem_of_lookup_2.
Qed.

Lemma member_ex x : x < length adj → ∃ i, member i x.
Proof. intros (c & Hx & [i Hi]%list_elem_of_lookup)%Hall%elem_of_concat. by exists i, c. Qed.

Lemma member_unique i j x : member i x → member j x → i = j.
Proof. intros (c & Hc & Hx) (d & Hd & Hx'). by apply (concat_unique cs i j c d x); [apply Hout|..]. Qed.

Lemma member_mutual i x y : member i x → (member i y ↔ mutual adj x y).
Proof.
  intros (ms & Hc & Hx). rewrite <- (out_class adj cs Hout ms x y); [|by eapply list_elem_of_lookup_2|done]. split.
  - intros (d & Hd & Hy). by simplify_eq.
  - intros Hy. by exists ms.
Qed.

Lemma member_edge i j x y : member i x → member j y → edge adj x y → j ≤ i.
Proof.
  intros (c & Hc & Hx) (d & Hd & Hy) He.
  assert (Hin : y ∈ concat (take (S i) cs)).
  { apply (out_closed adj cs Hout _ x); [|done]. apply elem_of_concat. exists c. split; [done|]. apply list_elem_of_lookup.
    exists i. apply lookup_take_Some. split; [done|lia]. }
  apply elem_of_concat in Hin as (e & Hye & He'). apply list_elem_of_lookup in He' as [j' Hj'].
  apply lookup_take_Some in Hj' as [Hj' ?]. rewrite (member_unique j j' y); [lia|by exists d|by exists e].
Qed.

(** *** Each vertex's component *)

Lemma write_members_at c (ms l : list nat) x :
  (∀ v, v ∈ ms → v < length l) →
  length (write_members c ms l) = length l ∧ at_ (write_members c ms l) x = if decide (x ∈ ms) then c else at_ l x.
Proof.
  revert l. induction ms as [|v ms IH]; intros l Hl.
  { split; [done|]. by destruct (decide (x ∈ [])) as [?%elem_of_nil|]. }
  change (write_members c (v :: ms) l) with (write_members c ms (<[v := c]> l)).
  destruct (IH (<[v := c]> l)) as [E1 E2]. { intros u Hu. rewrite length_insert. apply Hl. by right. }
  rewrite length_insert in E1. split; [done|]. rewrite E2. unfold at_ at 1. rewrite insert_at by (apply Hl; by left).
  destruct (decide (x ∈ ms)), (decide (x ∈ v :: ms)), (decide (x = v)); try done; set_solver.
Qed.

Lemma write_comps_from k (l : list nat) (ds : list (list nat)) i x :
  (∀ v, v ∈ concat ds → v < length l) → NoDup (concat ds) → (∃ d, ds !! i = Some d ∧ x ∈ d) →
  at_ (foldl (λ comp '(c, members), write_members c members comp) l (zip (seq k (length ds)) ds)) x = k + i.
Proof.
  revert k l i. induction ds as [|d ds IH]; intros k l i Hl Hnd (e & He & Hx); [done|]. simpl. simpl in Hnd, Hl.
  apply NoDup_app in Hnd as (_ & Hdis & Hnd).
  destruct (write_members_at k d l x) as [E1 E2]; [intros v Hv; apply Hl; set_solver|].
  assert (Hl' : ∀ v, v ∈ concat ds → v < length (write_members k d l)) by (intros v Hv; rewrite E1; apply Hl; set_solver).
  destruct i as [|i]; simplify_eq/=.
  - assert (Hn : x ∉ concat ds) by by apply Hdis. rewrite decide_True in E2 by done.
    clear IH Hnd Hdis Hl. revert E2 Hl' Hn. generalize (write_members k e l) as m. generalize (S k) as k'. induction ds as [|d ds IH]; intros k' m Em Hm Hn; simpl; [by rewrite Nat.add_0_r|].
    simpl in Hm, Hn. destruct (write_members_at k' d m x) as [E3 E4]; [intros v Hv; apply Hm; set_solver|].
    rewrite decide_False in E4 by set_solver. apply IH; [by rewrite E4|intros v Hv; rewrite E3; apply Hm; set_solver|set_solver].
  - rewrite IH with (i := i); [lia|done|done|by exists e].
Qed.

Definition comp_of x : nat := at_ (write_comps (length adj) cs) x.

Lemma comp_of_member i x : member i x → comp_of x = i.
Proof.
  intros Hm. unfold comp_of, write_comps. rewrite write_comps_from with (i := i); [done| |apply Hout|done].
  intros v Hv. rewrite length_replicate. by apply Hall.
Qed.

Lemma member_comp x : x < length adj → member (comp_of x) x.
Proof. intros [i Hi]%member_ex. by rewrite (comp_of_member i). Qed.

(** *** The children *)

Definition component_edges : list (nat * nat) :=
  zip (seq 0 (length cs)) cs ≫= λ '(c, members), members ≫= λ v, (λ w, (c, comp_of w)) <$> outgoing adj v.

Lemma elem_of_component_edges k p : (k, p) ∈ component_edges ↔ ∃ x y, member k x ∧ edge adj x y ∧ p = comp_of y.
Proof.
  unfold component_edges. rewrite list_elem_of_bind. split.
  - intros ([c ms] & Hin & Hc). apply list_elem_of_bind in Hin as (v & Hin & Hv).
    apply list_elem_of_fmap in Hin as (w & [= -> ->] & Hw). apply list_elem_of_lookup in Hc as [i Hi].
    apply lookup_zip_Some in Hi as [Hs Hc]. apply lookup_seq in Hs as [-> _]. exists v, w. by split_and!; [exists ms|..].
  - intros (x & y & (ms & Hk & Hx) & He & ->). exists (k, ms). split.
    + apply list_elem_of_bind. exists x. split; [|done]. apply list_elem_of_fmap. by exists y.
    + apply list_elem_of_lookup. exists k. apply lookup_zip_Some. split; [|done]. apply lookup_seq. split; [done|]. by eapply lookup_lt_Some.
Qed.

Lemma foldl_flat {A B T} (f : T → B → T) (g : A → list B) (l : list A) (acc : T) :
  foldl (λ acc a, foldl f acc (g a)) acc l = foldl f acc (l ≫= g).
Proof. revert acc. induction l as [|a l IH]; intros acc; [done|]. simpl. by rewrite IH, foldl_app. Qed.

Lemma foldl_map {A B T} (f : T → B → T) (g : A → B) (l : list A) (acc : T) :
  foldl (λ acc a, f acc (g a)) acc l = foldl f acc (g <$> l).
Proof. revert acc. induction l as [|a l IH]; intros acc; [done|]. simpl. apply IH. Qed.

Lemma foldl_ext_all {A T} (f g : T → A → T) (l : list A) (acc : T) : (∀ acc a, f acc a = g acc a) → foldl f acc l = foldl g acc l.
Proof. intros H. revert acc. induction l as [|a l IH]; intros acc; [done|]. simpl. by rewrite H, IH. Qed.

Lemma condense_flat (st : list bool * list (list nat)) :
  foldl (condense_component adj (write_comps (length adj) cs)) st (zip (seq 0 (length cs)) cs) =
  foldl (λ st '(k, p), condense_edge k p st) st component_edges.
Proof.
  unfold component_edges. rewrite <- foldl_flat. apply foldl_ext_all. intros acc [c ms]. unfold condense_component.
  rewrite <- foldl_flat. apply foldl_ext_all. intros acc' v.
  by rewrite <- (foldl_map (λ st '(k, p), condense_edge k p st) (λ w, (c, comp_of w))).
Qed.

Lemma condense_edges es (cyc : list bool) kids :
  (∀ k p, (k, p) ∈ es → k < length cyc ∧ p < length kids) →
  let '(cyc', kids') := foldl (λ st '(k, p), condense_edge k p st) (cyc, kids) es in
  length cyc' = length cyc ∧ length kids' = length kids ∧
  (∀ c, default false (cyc' !! c) = true ↔ default false (cyc !! c) = true ∨ (c, c) ∈ es) ∧
  ∀ p k, k ∈ outgoing kids' p ↔ k ∈ outgoing kids p ∨ (k ≠ p ∧ (k, p) ∈ es).
Proof.
  revert cyc kids. induction es as [|[k p] es IH]; intros cyc kids Hlt; simpl.
  { split_and!; [done..| |]; intros; split; try tauto; [by intros [?|?%elem_of_nil]|by intros [?|[_ ?%elem_of_nil]]]. }
  destruct (Hlt k p) as [Hk Hp]; [by left|]. destruct (decide (p = k)) as [->|Hne].
  - specialize (IH (<[k := true]> cyc) kids). rewrite length_insert in IH.
    destruct (foldl _ _ es) as [cyc' kids']. destruct IH as (E1 & E2 & E3 & E4); [intros a b ?; apply Hlt; by right|].
    split_and!; [done|done| |].
    + intros c. rewrite E3, elem_of_cons. destruct (decide (c = k)) as [->|Hc].
      * rewrite list_lookup_insert_eq by done. simpl. naive_solver.
      * rewrite list_lookup_insert_ne by done. naive_solver.
    + intros q c. rewrite E4, elem_of_cons. naive_solver.
  - specialize (IH cyc (alter (λ ks, ks ++ [k]) p kids)). rewrite length_alter in IH.
    destruct (foldl _ _ es) as [cyc' kids']. destruct IH as (E1 & E2 & E3 & E4); [intros a b ?; apply Hlt; by right|].
    split_and!; [done|done| |].
    + intros c. rewrite E3, elem_of_cons. naive_solver.
    + intros q c. rewrite E4, elem_of_cons.
      assert (Ha : c ∈ outgoing (alter (λ ks, ks ++ [k]) p kids) q ↔ c ∈ outgoing kids q ∨ (q = p ∧ c = k)).
      { unfold outgoing. destruct (decide (q = p)) as [->|Hq].
        - rewrite list_lookup_alter_eq. destruct (lookup_lt_is_Some_2 kids p Hp) as [ks ->]. simpl.
          rewrite elem_of_app, list_elem_of_singleton. naive_solver.
        - rewrite list_lookup_alter_ne by done. naive_solver. }
      rewrite Ha. naive_solver.
Qed.

(** *** Below in the condensation is reached in the graph *)

Definition children_ok kids : Prop :=
  length kids = length cs ∧ ∀ p k, child kids p k ↔ k ≠ p ∧ ∃ x y, member k x ∧ edge adj x y ∧ member p y.

Lemma comp_of_iff i y : y < length adj → i = comp_of y ↔ member i y.
Proof. intros Hy. split; [intros ->; by apply member_comp|intros Hm; by rewrite (comp_of_member i)]. Qed.

Lemma condense_done :
  ∃ cyc kids, foldl (condense_component adj (write_comps (length adj) cs)) (replicate (length cs) false, replicate (length cs) [])
      (zip (seq 0 (length cs)) cs) = (cyc, kids) ∧ children_ok kids ∧
    ∀ c, default false (cyc !! c) = true ↔ ∃ x y, member c x ∧ edge adj x y ∧ member c y.
Proof.
  rewrite condense_flat. pose proof (condense_edges component_edges (replicate (length cs) false) (replicate (length cs) [])) as Hc.
  destruct (foldl _ _ component_edges) as [cyc kids]. rewrite !length_replicate in Hc.
  destruct Hc as (_ & E2 & E3 & E4).
  { intros k p (x & y & Hm & He & ->)%elem_of_component_edges. split; [by apply (member_lt k x)|].
    apply (member_lt _ y), member_comp. by apply (Hadj x). }
  assert (Hedge : ∀ k p, (k, p) ∈ component_edges ↔ ∃ x y, member k x ∧ edge adj x y ∧ member p y).
  { intros k p. rewrite elem_of_component_edges. split; intros (x & y & Hm & He & Hp); exists x, y; (split_and!; [done..|]);
      by apply comp_of_iff; [apply (Hadj x)|]. }
  exists cyc, kids. split_and!; [done|split; [done|]|].
  - intros p k. unfold child. rewrite E4, Hedge. split; [intros [Hk|?]; [|done]|by right].
    unfold outgoing in Hk. destruct (replicate (length cs) [] !! p) eqn:E; [|by apply elem_of_nil in Hk].
    apply lookup_replicate in E as [-> _]. by apply elem_of_nil in Hk.
  - intros c. rewrite E3, Hedge. split; [intros [Hk|?]; [|done]|by right].
    destruct (replicate (length cs) false !! c) eqn:E; [|done]. by apply lookup_replicate in E as [-> _].
Qed.

Section Reached.
Context (kids : list (list nat)) (Hk : children_ok kids).

Lemma child_range p k : child kids p k → p < k < length kids.
Proof.
  destruct Hk as [-> Hc]. intros (Hne & x & y & Hx & He & Hy)%Hc. pose proof (member_edge k p x y Hx Hy He).
  pose proof (member_lt k x Hx). lia.
Qed.

Lemma under_reach p k : under kids p k → ∀ x y, member k x → member p y → reach adj x y.
Proof.
  induction 1 as [p|p q k Hpq _ IH]; intros x y Hx Hy; [by apply (member_mutual p x y Hx)|].
  apply Hk in Hpq as (_ & x' & y' & Hx' & He & Hy'). etrans; [by apply (IH x x')|]. etrans; [by apply rtc_once|].
  by apply (member_mutual p y' y Hy').
Qed.

Lemma reach_under x y : x < length adj → reach adj x y → under kids (comp_of y) (comp_of x).
Proof.
  intros Hx Hr. induction Hr as [x|x z y He _ IH]; [done|]. assert (Hz : z < length adj) by by apply (Hadj x).
  etrans; [by apply IH|]. destruct (decide (comp_of z = comp_of x)) as [->|Hne]; [done|]. apply rtc_once, Hk.
  split; [done|]. exists x, z. by split_and!; [apply member_comp|..|apply member_comp].
Qed.
End Reached.
End Condensation.

(** ** What the intervals answer *)

Section Below.
Context (adj : list (list nat)) (Hadj : well_formed adj).

(** No vertex outside a component leads to two others: every vertex's edges that
    leave its component, and those of the vertices it shares it with, lead to one
    component. *)
Definition single_parents : Prop := ∀ x x' y y',
  mutual adj x x' → edge adj x y → edge adj x' y' → ¬ mutual adj x y → ¬ mutual adj x' y' → mutual adj y y'.

Lemma below_spec : ∃ r, newIntervals adj = Some r ∧
  ∀ t b, t < length adj → b < length adj → let '(sub, settled) := below r t b in
    (settled = true → (sub = true ↔ tc (edge adj) t b)) ∧ (sub = false → settled = true) ∧ (single_parents → settled = true).
Proof.
  destruct (run_sound adj Hadj) as (cs & Er & Ho & Hall).
  destruct (condense_done adj cs Hadj Ho Hall) as (cyc & kids & Ec & Hk & Hcyc).
  pose proof (child_range adj cs Ho Hall kids Hk) as Hr. destruct (number_done kids Hr) as (s & En & Hn).
  unfold newIntervals, condense. rewrite Er, Ec, En. eexists. split; [done|]. intros t b Ht Hb. unfold below.
  change (compOf _ t) with (comp_of adj cs t). change (compOf _ b) with (comp_of adj cs b).
  set (ct := comp_of adj cs t). set (cb := comp_of adj cs b).
  pose proof (member_comp adj cs Hadj Ho Hall t Ht) as Mt. pose proof (member_comp adj cs Hadj Ho Hall b Hb) as Mb. fold ct in Mt. fold cb in Mb.
  assert (Hlen : length kids = length cs) by apply Hk.
  assert (Lt : ct < length kids) by (rewrite Hlen; by apply (member_lt adj cs Hall ct t)).
  assert (Lb : cb < length kids) by (rewrite Hlen; by apply (member_lt adj cs Hall cb b)).
  assert (Hreach : ct ≠ cb → tc (edge adj) t b ↔ under kids cb ct).
  { intros Hne. split; [intros H%tc_rtc; by apply (reach_under adj cs Hadj Ho Hall kids Hk)|].
    intros Hu. pose proof (under_reach adj cs Ho kids Hk cb ct Hu t b Mt Mb) as H. apply rtc_tc in H as [->|?]; [done|done]. }
  assert (Hdown : under kids cb ct → ct ≠ cb → hiOf s ct < hiOf s cb ∧ loOf s cb ≤ loOf s ct).
  { clear -Hn. intros Hu. induction Hu as [|p q k Hpq _ IH]; [done|]. intros _. destruct (done_kids _ _ Hn p q Hpq) as [Hh Hl].
    destruct (decide (k = q)) as [->|Hne]; [done|]. destruct IH; [done|]. lia. }
  destruct (decide (ct = cb)) as [E|Hne]; cbn [lo hi first].
  - split_and!; [intros _|done|done]. unfold cyclicOf. simpl. rewrite Hcyc. rewrite <- E in Mb. split.
    + intros (x & y & Mx & He & My). eapply tc_rtc_l; [by apply (member_mutual adj cs Ho ct t x Mt)|].
      eapply tc_rtc_r; [by apply tc_once|]. by apply (member_mutual adj cs Ho ct y b My).
    + intros H. assert (∃ z, edge adj t z ∧ reach adj z b) as (z & He & Hz).
      { inversion H as [|? z ? He Hz]; subst; [by exists b|]. exists z. split; [done|by apply tc_rtc]. }
      exists t, z. split_and!; [done..|]. apply (member_mutual adj cs Ho ct t z Mt). split; [by apply rtc_once|].
      etrans; [exact Hz|]. by apply (member_mutual adj cs Ho ct b t Mb).
  - specialize (Hreach Hne). fold (loOf s ct) (loOf s cb) (hiOf s ct) (hiOf s cb) (firstOf s cb).
    destruct (Nat.ltb_spec (loOf s ct) (loOf s cb)) as [|Hlo]; [|destruct (Nat.leb_spec (hiOf s cb) (hiOf s ct)) as [|Hhi]]; simpl.
    1,2: split_and!; [intros _|done|done]; rewrite Hreach; split; [done|]; intros Hu; destruct (Hdown Hu Hne); lia.
    split_and!; [|done|].
    + intros Hf%Nat.leb_le. split; [intros _|done]. apply Hreach, (done_under _ _ Hn); [done..|lia].
    + intros Hsp. apply Nat.leb_le. assert (Hfo : forest kids).
      { intros p q k (Hpk & x & y & Hx & He & Hy)%Hk (Hqk & x' & y' & Hx' & He' & Hy')%Hk.
        apply (member_unique adj cs Ho p q y); [done|]. apply (member_mutual adj cs Ho q y' y Hy').
        assert (Hm : ∀ p x y, k ≠ p → member cs k x → member cs p y → ¬ mutual adj x y).
        { intros p' u w Hne' Hu Hw Hmut. apply Hne', (member_unique adj cs Ho k p' w); [|done]. by apply (member_mutual adj cs Ho k u w Hu). }
        destruct (Hsp x x' y y'); [by apply (member_mutual adj cs Ho k x x' Hx)|done|done|by apply (Hm p)|by apply (Hm q)|by split]. }
      pose proof (done_forest _ _ Hn cb Hfo Lb). pose proof (done_lo _ _ Hn ct Lt). lia.
Qed.
End Below.

(** The intervals always exist, and every answer they settle is right: one
    vertex is said to be below another exactly when a path of at least one edge
    leads from it to that other. They never leave a negative answer open, and
    leave none open at all where no component has edges to two others. *)
Theorem below_exact adj :
  well_formed adj →
  ∃ r, newIntervals adj = Some r ∧ ∀ t b, t < length adj → b < length adj →
    (((below r t b).2 = true → ((below r t b).1 = true ↔ tc (edge adj) t b)) ∧
     ((below r t b).1 = false → (below r t b).2 = true) ∧
     (single_parents adj → (below r t b).2 = true)).
Proof.
  intros Hadj. destruct (below_spec adj Hadj) as (r & E & H). exists r. split; [done|]. intros t b Ht Hb.
  specialize (H t b Ht Hb). by destruct (below r t b).
Qed.

Lemma below_exact_witness :
  ∃ r, newIntervals [[]; [0]; [0]; [1; 2]] = Some r ∧ below r 3 0 = (true, true) ∧ tc (edge [[]; [0]; [0]; [1; 2]]) 3 0.
Proof.
  destruct (below_exact [[]; [0]; [0]; [1; 2]]) as (r & E & H).
  - intros v w He. destruct v as [|[|[|[|v]]]]; unfold edge, outgoing in He; simpl in *; set_solver by lia.
  - exists r. split; [done|]. assert (B : below r 3 0 = (true, true)) by (vm_compute in E; injection E as <-; vm_compute; reflexivity).
    split; [done|]. destruct (H 3 0) as (H1 & _ & _); [simpl; lia|simpl; lia|]. rewrite B in H1. by apply H1.
Defined.
