(* ===== verification/Alias.v ===== *)
(** * Alias: what each alias scalar stands for ([src/ir/irfacts/alias.go])

    [aliasTargets] resolves every alias scalar of a registry once. It is held to
    [alias_end], the end [ir.Supertypes] reads a reference to, whatever order the
    runtime ranges over the registry in. *)
From S2P Require Import Prelude GoLib Decimal IR Search Composition.

(** ** Parts: what a type is made of ([src/ir/irfacts/parts.go])

    The types one type names, by what each is to a value of it. *)

Section PartsOf.
Implicit Types (id : TypeID) (dst : list TypeID).

Definition appendTarget dst id : list TypeID := if is_empty id then dst else dst ++ [id].
Definition appendRef dst (r : option TypeRef) : list TypeID :=
  match r with None => dst | Some r => appendTarget dst (TypeRef_Target r) end.
Definition appendDecoded dst (e : option Encoding) : list TypeID :=
  match e with None => dst | Some e => appendRef dst (Encoding_Schema e) end.
Definition appendRefs dst (rs : list TypeRef) : list TypeID := foldl (λ dst r, appendTarget dst (TypeRef_Target r)) dst rs.

Record typeParts := mkTypeParts { held : list TypeID; composed : list TypeID; alias : TypeID; args : list TypeID }.

Definition model_property (st : list TypeID * list TypeID) (prop : Property) : list TypeID * list TypeID :=
  let '(held, args) := st in
  (appendDecoded (appendTarget held (TypeRef_Target (Property_Type prop))) (Property_Encoding prop),
   foldl (λ args arg, appendTarget args (TypeRef_Target (Parameter_Type arg))) args (Property_Args prop)).

Definition model_extra (held : list TypeID) (extra : option AdditionalProps) : list TypeID :=
  match extra with
  | None => held
  | Some extra =>
      foldl (λ held p, appendTarget held (TypeRef_Target (PatternProps_Value p)))
        (appendRef (appendTarget held (TypeRef_Target (AdditionalProps_Value extra))) (AdditionalProps_Key extra))
        (AdditionalProps_Patterns extra)
  end.

(** [typeParts.model] *)
Definition model_parts (m : Model) : typeParts :=
  let '(held, args) := foldl model_property ([], []) (Model_Properties m) in
  {| held := model_extra held (Model_AdditionalProps m);
     composed := appendRefs (appendRefs (appendRef [] (Model_Base m)) (Model_Implements m)) (Model_Mixins m);
     alias := []; args := args |}.

Definition holds_only (held : list TypeID) : typeParts := {| held := held; composed := []; alias := []; args := [] |}.

(** [typeParts.read] *)
Definition read_type (td : TypeDef) : typeParts :=
  match td with
  | ModelDef m => model_parts m
  | UnionDef u => holds_only (foldl (λ held v, appendTarget held (TypeRef_Target (Variant_Type v))) [] (Union_Variants u))
  | ListDef l => holds_only (appendDecoded (appendTarget [] (TypeRef_Target (List_Elem l))) (List_Encoding l))
  | MapDef m => holds_only (appendTarget (appendRef [] (MapT_Key m)) (TypeRef_Target (MapT_Value m)))
  | TupleDef t => holds_only (appendRef (appendRefs [] (Tuple_Elems t)) (Tuple_Rest t))
  | ScalarDef s =>
      {| held := appendDecoded [] (Scalar_Encoding s); composed := [];
         alias := match Scalar_Base s with Some r => TypeRef_Target r | None => [] end; args := [] |}
  | _ => holds_only []
  end.
End PartsOf.

Implicit Types (id cur x y z t : TypeID) (types : TypeRegistry) (path : list TypeID) (seen : gset TypeID).

Abbreviation aliasTargets := (gmap TypeID TypeID).
Implicit Types (a : aliasTargets) (walked : gmap TypeID nat).

Definition settle a path t : aliasTargets := foldl (λ a id, <[id := t]> a) a path.
Definition settleCycle a path (at_ : nat) : aliasTargets :=
  foldl (λ a id, <[id := id]> a) (settle a (take at_ path) (default [] (path !! at_))) (drop at_ path).

(** The loop along one chain; each turn reads another scalar of the registry. *)
Fixpoint walk_chain (fuel : nat) types cur path walked a : option (gmap TypeID nat * aliasTargets) :=
  match fuel with
  | O => None
  | S fuel =>
      match a !! cur with
      | Some t => Some (walked, settle a path t)
      | None =>
          match walked !! cur with
          | Some at_ => Some (walked, settleCycle a path at_)
          | None =>
              match AliasBase types cur with
              | None => Some (walked, settle a path cur)
              | Some base => walk_chain fuel types base (path ++ [cur]) (<[cur := length path]> walked) a
              end
          end
      end
  end.

Fixpoint resolve_all (ids : list TypeID) types walked a : option aliasTargets :=
  match ids with
  | [] => Some a
  | id :: ids =>
      match walk_chain (2 + size types) types id [] walked a with
      | None => None
      | Some (walked, a) => resolve_all ids types walked a
      end
  end.

(** [range] is the order the runtime gives the registry's keys in. *)
Definition newAliasTargets (range : TypeRegistry → list TypeID) types : option aliasTargets :=
  resolve_all (range types) types ∅ ∅.

Definition alias_target a id : TypeID := default id (a !! id).

(** ** Where a chain stops *)

Section Chains.
Context (types : TypeRegistry).
#[local] Abbreviation base := (AliasBase types).

(** The walk of [aliasTarget] from [x], [seen] being what it met so far. *)
Inductive stops : gset TypeID → TypeID → TypeID → Prop :=
  | stops_end seen x : base x = None → stops seen x x
  | stops_again seen x : x ∈ seen → stops seen x x
  | stops_on seen x y t : base x = Some y → x ∉ seen → stops ({[x]} ∪ seen) y t → stops seen x t.

Lemma stops_fun seen x t t' : stops seen x t → stops seen x t' → t = t'.
Proof.
  intros H. revert t'. induction H as [seen x Hb|seen x Hx|seen x y t Hb Hx _ IH]; intros t' H'; inversion H'; subst; try done; try congruence.
  simplify_eq. by apply IH.
Qed.

Lemma alias_loop_stops (fuel : nat) x seen budget last k :
  alias_loop fuel types x seen budget = Some (last, true, k) → stops seen x last.
Proof.
  revert x seen budget. induction fuel as [|fuel IH]; intros x seen budget; [done|]. cbn [alias_loop].
  destruct (base x) as [y|] eqn:Hb; [|intros [= <- _]; by apply stops_end]. case_bool_decide as Hx.
  - intros [= <- _]. by apply stops_again.
  - destruct (take_step budget); [|done]. intros H%IH. by apply stops_on with y.
Qed.

Lemma stops_alias_end x : stops ∅ x (alias_end types x).
Proof.
  assert (Hsize : size (dom types ∖ (∅ : gset TypeID)) = size types) by (rewrite difference_empty_L; apply size_dom).
  destruct (alias_loop_spends (2 + size types) types x ∅) as (last & steps & Hs & H); [rewrite Hsize; lia|]. rewrite Hsize in Hs.
  unfold alias_end. destruct (H (Z.of_nat (size types))) as (r & E & Hr). unfold spends in Hr.
  rewrite (proj2 (Z.ltb_ge _ _)) in Hr by lia. subst r. rewrite E. by eapply alias_loop_stops.
Qed.

Lemma alias_end_iff x t : alias_end types x = t ↔ stops ∅ x t.
Proof. split; [intros <-; apply stops_alias_end|]. intros H. by eapply stops_fun; [apply stops_alias_end|]. Qed.

(** [path] runs from [x] to [z] along the bases. *)
Inductive chain : TypeID → list TypeID → TypeID → Prop :=
  | chain_nil x : chain x [] x
  | chain_cons x y path z : base x = Some y → chain y path z → chain x (x :: path) z.

Lemma chain_snoc x path y z : chain x path y → base y = Some z → chain x (path ++ [y]) z.
Proof. induction 1 as [x|x w path y Hb _ IH]; intros Hz; [by eapply chain_cons, chain_nil|]. eapply chain_cons; [done|by apply IH]. Qed.

Lemma chain_app x path y path' z : chain x path y → chain y path' z → chain x (path ++ path') z.
Proof. induction 1 as [|x w path y Hb _ IH]; intros Hz; [done|]. eapply chain_cons; [done|by apply IH]. Qed.

Lemma chain_split x path z (i : nat) y : chain x path z → path !! i = Some y → chain x (take i path) y ∧ chain y (drop i path) z.
Proof.
  intros H. revert i. induction H as [x|x w path z Hb H IH]; intros i Hi; [done|]. destruct i as [|i]; simplify_eq/=.
  - split; [apply chain_nil|by eapply chain_cons].
  - destruct (IH i Hi). split; [by eapply chain_cons|done].
Qed.

(** A walk along a chain that meets nothing twice goes on where the chain ends. *)
Lemma chain_stops x path z seen t :
  chain x path z → NoDup path → (∀ w, w ∈ path → w ∉ seen) → stops (list_to_set path ∪ seen) z t → stops seen x t.
Proof.
  intros H. revert seen. induction H as [x|x w path z Hb _ IH]; intros seen Hnd Hs Ht.
  { by rewrite list_to_set_nil, union_empty_l_L in Ht. }
  apply NoDup_cons in Hnd as [Hx Hnd]. apply stops_on with w; [done|apply Hs; by left|]. apply IH; [done| |].
  - intros u Hu. apply not_elem_of_union. split; [|apply Hs; by right]. rewrite elem_of_singleton. by intros ->.
  - by replace (list_to_set path ∪ ({[x]} ∪ seen)) with (list_to_set (x :: path) ∪ seen) by (rewrite list_to_set_cons; set_solver).
Qed.

(** A walk that cannot meet [more] stops where it would without it. *)
Lemma stops_apart seen more x t :
  stops seen x t → (∀ path y, chain x path y → y ∉ more) → stops (more ∪ seen) x t.
Proof.
  intros H. induction H as [seen x Hb|seen x Hx|seen x y t Hb Hx _ IH]; intros Hm.
  - by apply stops_end.
  - apply stops_again. set_solver.
  - apply stops_on with y; [done| |].
    + apply not_elem_of_union. split; [|done]. by apply (Hm []), chain_nil.
    + replace ({[x]} ∪ (more ∪ seen)) with (more ∪ ({[x]} ∪ seen)) by set_solver. apply IH.
      intros path z Hc. apply (Hm (x :: path)). by eapply chain_cons.
Qed.

(** ** Resolving a chain *)

(** Each scalar resolved stands for its end, and so is the next on its chain. *)
Definition resolved a : Prop :=
  ∀ x t, a !! x = Some t → stops ∅ x t ∧ ∃ y, base x = Some y ∧ (y ∈ dom a ∨ base y = None).

Lemma settle_lookup a path t x : settle a path t !! x = if decide (x ∈ path) then Some t else a !! x.
Proof.
  unfold settle. revert a. induction path as [|y path IH]; intros a; [by destruct (decide (x ∈ [])) as [?%elem_of_nil|]|]. simpl. rewrite IH.
  destruct (decide (x ∈ path)), (decide (x ∈ y :: path)); try done; [set_solver|..].
  - assert (x = y) as -> by set_solver. by rewrite lookup_insert_eq.
  - rewrite lookup_insert_ne; [done|set_solver].
Qed.

Lemma settle_self_lookup a path x : foldl (λ a id, <[id := id]> a) a path !! x = if decide (x ∈ path) then Some x else a !! x.
Proof.
  revert a. induction path as [|y path IH]; intros a; [by destruct (decide (x ∈ [])) as [?%elem_of_nil|]|]. simpl. rewrite IH.
  destruct (decide (x ∈ path)), (decide (x ∈ y :: path)); try done; [set_solver|..].
  - assert (x = y) as -> by set_solver. by rewrite lookup_insert_eq.
  - rewrite lookup_insert_ne; [done|set_solver].
Qed.

Lemma resolved_reach a x path y : resolved a → chain x path y → x ∈ dom a ∨ base x = None → y ∈ dom a ∨ base y = None.
Proof.
  intros Hr H. induction H as [x|x w path y Hb _ IH]; [done|]. intros [Hx|Hn]; [|congruence]. apply IH.
  apply elem_of_dom in Hx as [t Ht]. destruct (Hr x t Ht) as (_ & w' & Hw' & Ho). by simplify_eq.
Qed.

Lemma chain_base x path z (i : nat) y : chain x path z → path !! i = Some y → ∃ w, base y = Some w ∧ (w ∈ path ∨ w = z).
Proof.
  intros H. revert i. induction H as [x|x w path z Hb H IH]; intros i Hi; [done|]. destruct i as [|i]; simplify_eq/=.
  - exists w. split; [done|]. inversion H; subst; [by right|left; right; by left].
  - destruct (IH i Hi) as (u & ? & [?|?]); exists u; [split; [done|left; by right]|split; [done|by right]].
Qed.

Record walking a id path cur walked : Prop := {
  walk_resolved : resolved a;
  walk_chain_ : chain id path cur;
  walk_nodup : NoDup path;
  walk_fresh x : x ∈ path → x ∉ dom a;
  walk_walked x (i : nat) : walked !! x = Some i → x ∈ dom a ∨ path !! i = Some x;
  walk_met x : x ∈ path → x ∈ dom walked
}.

(** What one walk leaves: every scalar it passed is resolved. *)
Record walked_out a id path walked' a' : Prop := {
  out_resolved : resolved a';
  out_dom x : x ∈ dom a' ↔ x ∈ dom a ∨ x ∈ path;
  out_walked x : x ∈ dom walked' → x ∈ dom a'
}.

Lemma walk_out a id path cur walked a' :
  walking a id path cur walked → (∀ x, x ∉ path → a' !! x = a !! x) →
  (∀ (i : nat) x, path !! i = Some x → ∃ t, a' !! x = Some t ∧ stops ∅ x t) → (cur ∈ dom a' ∨ base cur = None) →
  walked_out a id path walked a'.
Proof.
  intros [H1 H2 H3 H4 H5 H6] Hold Hnew Hcur.
  assert (Hdom : ∀ x, x ∈ dom a' ↔ x ∈ dom a ∨ x ∈ path).
  { intros x. rewrite !elem_of_dom. destruct (decide (x ∈ path)) as [Hx|Hx]; [|rewrite Hold by done; tauto].
    split; [by right|]. intros _. apply list_elem_of_lookup in Hx as [i Hi]. destruct (Hnew i x Hi) as (t & -> & _). by eexists. }
  constructor; [|done|].
  - intros x t Ht. destruct (decide (x ∈ path)) as [Hx|Hx].
    + apply list_elem_of_lookup in Hx as [i Hi]. destruct (Hnew i x Hi) as (t' & Ht' & Hs). simplify_eq. split; [done|].
      destruct (chain_base id path cur i x H2 Hi) as (w & Hw & Hin). exists w. split; [done|].
      destruct Hin as [Hin| ->]; [left; apply Hdom; by right|done].
    + rewrite Hold in Ht by done. destruct (H1 x t Ht) as (Hs & y & Hy & Ho). split; [done|]. exists y. split; [done|].
      destruct Ho as [?|?]; [left; apply Hdom; by left|by right].
  - intros x [i Hi]%elem_of_dom. apply Hdom. destruct (H5 x i Hi) as [?|Hp]; [by left|right; by eapply list_elem_of_lookup_2].
Qed.

(** Each scalar on a path that ends at [cur] stands for what [cur] does. *)
Lemma path_stops a id path cur walked (i : nat) x t :
  walking a id path cur walked → path !! i = Some x → stops (list_to_set (drop i path)) cur t → stops ∅ x t.
Proof.
  intros Hw Hi Hs. destruct (chain_split id path cur i x (walk_chain_ _ _ _ _ _ Hw) Hi) as [_ Hc].
  eapply chain_stops; [exact Hc| | |].
  - pose proof (walk_nodup _ _ _ _ _ Hw) as Hn. rewrite <- (take_drop i path) in Hn. by apply NoDup_app in Hn as (_ & _ & ?).
  - intros w _. apply not_elem_of_empty.
  - by rewrite union_empty_r_L.
Qed.

Lemma walk_settles a id path cur walked t :
  walking a id path cur walked → a !! cur = Some t → walked_out a id path walked (settle a path t).
Proof.
  intros Hw Ht. pose proof (walk_resolved _ _ _ _ _ Hw) as Hr. assert (Hcur : cur ∈ dom a) by (apply elem_of_dom; by eexists).
  apply (walk_out _ _ _ cur); [done| | |].
  - intros x Hx. by rewrite settle_lookup, decide_False.
  - intros i x Hi. exists t. rewrite settle_lookup, decide_True by (by eapply list_elem_of_lookup_2). split; [done|].
    apply (path_stops a id path cur walked i); [done..|]. destruct (Hr cur t Ht) as [Hs _].
    rewrite <- (union_empty_r_L (list_to_set (drop i path))). apply stops_apart; [done|]. intros path' y Hc Hy.
    apply elem_of_list_to_set in Hy. assert (Hyp : y ∈ path) by (rewrite <- (take_drop i path); set_solver).
    destruct (resolved_reach a cur path' y Hr Hc ltac:(by left)) as [Hd|Hn]; [by apply (walk_fresh _ _ _ _ _ Hw y)|].
    apply list_elem_of_lookup in Hyp as [j Hj]. destruct (chain_base id path cur j y (walk_chain_ _ _ _ _ _ Hw) Hj) as (w & ? & _). congruence.
  - left. apply elem_of_dom. rewrite settle_lookup. destruct (decide _); [by eexists|done].
Qed.

Lemma walk_ends a id path cur walked :
  walking a id path cur walked → base cur = None → walked_out a id path walked (settle a path cur).
Proof.
  intros Hw Hn. apply (walk_out _ _ _ cur); [done| | |by right].
  - intros x Hx. by rewrite settle_lookup, decide_False.
  - intros i x Hi. exists cur. rewrite settle_lookup, decide_True by (by eapply list_elem_of_lookup_2). split; [done|].
    apply (path_stops a id path cur walked i); [done..|]. by apply stops_end.
Qed.

Lemma walk_cycles a id path cur walked (at_ : nat) :
  walking a id path cur walked → path !! at_ = Some cur → walked_out a id path walked (settleCycle a path at_).
Proof.
  intros Hw Hat. assert (Hc : cur ∈ path) by (by eapply list_elem_of_lookup_2). pose proof (walk_nodup _ _ _ _ _ Hw) as Hnd.
  assert (Hlook : ∀ x, settleCycle a path at_ !! x =
    if decide (x ∈ drop at_ path) then Some x else if decide (x ∈ take at_ path) then Some cur else a !! x).
  { intros x. unfold settleCycle. by rewrite settle_self_lookup, settle_lookup, Hat. }
  assert (Hsplit : ∀ x, x ∈ path ↔ x ∈ take at_ path ∨ x ∈ drop at_ path) by (intros x; by rewrite <- elem_of_app, take_drop).
  assert (Hnew : ∀ (i : nat) x, path !! i = Some x → ∃ t, settleCycle a path at_ !! x = Some t ∧ stops ∅ x t).
  { intros i x Hi. rewrite Hlook. destruct (decide (at_ ≤ i)) as [Hle|Hgt].
    - rewrite decide_True by (apply list_elem_of_lookup; exists (i - at_); rewrite lookup_drop; rewrite <- Hi; f_equal; lia).
      exists x. split; [done|]. pose proof (walk_chain_ _ _ _ _ _ Hw) as Hch.
      destruct (chain_split id path cur i x Hch Hi) as [_ C1]. destruct (chain_split id path cur at_ cur Hch Hat) as [_ C2].
      destruct (chain_split cur (drop at_ path) cur (i - at_) x C2) as [C3 _]; [rewrite lookup_drop, <- Hi; f_equal; lia|].
      apply (chain_stops x _ x ∅ x (chain_app _ _ _ _ _ C1 C3)); [|intros; apply not_elem_of_empty|].
      + assert (Hp : drop i path ++ take (i - at_) (drop at_ path) ≡ₚ drop at_ path).
        { rewrite Permutation_app_comm. replace (drop i path) with (drop (i - at_) (drop at_ path)) by (rewrite drop_drop; f_equal; lia).
          by rewrite take_drop. }
        rewrite Hp. rewrite <- (take_drop at_ path) in Hnd. by apply NoDup_app in Hnd as (_ & _ & ?).
      + apply stops_again. rewrite union_empty_r_L. apply elem_of_list_to_set, elem_of_app. left. apply list_elem_of_lookup. exists 0.
        by rewrite lookup_drop, Nat.add_0_r.
    - assert (Hx : x ∉ drop at_ path).
      { intros [j Hj]%list_elem_of_lookup. rewrite lookup_drop in Hj. pose proof (NoDup_lookup path _ _ x Hnd Hi Hj). lia. }
      rewrite decide_False by done. rewrite decide_True by (apply list_elem_of_lookup; exists i; apply lookup_take_Some; split; [done|lia]).
      exists cur. split; [done|]. apply (path_stops a id path cur walked i); [done..|]. apply stops_again, elem_of_list_to_set.
      apply list_elem_of_lookup. exists (at_ - i). rewrite lookup_drop, <- Hat. f_equal. lia. }
  apply (walk_out _ _ _ cur); [done| |done|].
  - intros x Hx. rewrite Hlook, !decide_False; [done|..]; intros Hin; apply Hx, Hsplit; tauto.
  - left. apply elem_of_dom. destruct (Hnew at_ cur Hat) as (t & -> & _). by eexists.
Qed.

Lemma walk_chain_spec (fuel : nat) a id path cur walked :
  walking a id path cur walked → size (dom types ∖ list_to_set path) < fuel →
  ∃ walked' a' path', walk_chain fuel types cur path walked a = Some (walked', a') ∧ walked_out a id path' walked' a' ∧
    (∀ x, x ∈ path → x ∈ path') ∧ (cur ∈ dom a ∨ cur ∈ path' ∨ base cur = None).
Proof.
  revert path cur walked. induction fuel as [|fuel IH]; intros path cur walked Hw Hf; [lia|]. cbn [walk_chain].
  destruct (a !! cur) as [t|] eqn:Ha.
  { exists walked, (settle a path t), path. split_and!; [done|by apply (walk_settles a id path cur)|done|]. left. apply elem_of_dom. by eexists. }
  destruct (walked !! cur) as [at_|] eqn:Hm.
  { destruct (walk_walked _ _ _ _ _ Hw cur at_ Hm) as [Hd|Hat]; [apply elem_of_dom in Hd as [? ?]; congruence|].
    exists walked, (settleCycle a path at_), path. split_and!; [done|by apply (walk_cycles a id path cur)|done|].
    right. left. by eapply list_elem_of_lookup_2. }
  destruct (base cur) as [y|] eqn:Hb.
  2: { exists walked, (settle a path cur), path. split_and!; [done|by apply walk_ends|done|]. by right; right. }
  assert (Hcp : cur ∉ path) by (intros Hin%(walk_met _ _ _ _ _ Hw)%elem_of_dom; rewrite Hm in Hin; by destruct Hin).
  destruct (IH (path ++ [cur]) y (<[cur := length path]> walked)) as (walked' & a' & path' & E & Ho & Hp & _).
  - destruct Hw as [H1 H2 H3 H4 H5 H6]. constructor; [done|by eapply chain_snoc| | | |].
    + apply NoDup_app. split_and!; [done|intros x Hx ->%list_elem_of_singleton; done|apply NoDup_singleton].
    + intros x [Hx| ->%list_elem_of_singleton]%elem_of_app; [by apply H4|]. by apply not_elem_of_dom.
    + intros x i. destruct (decide (x = cur)) as [->|Hx].
      * rewrite lookup_insert_eq. intros [= <-]. right. by rewrite lookup_app_r, Nat.sub_diag.
      * rewrite lookup_insert_ne by done. intros Hi. destruct (H5 x i Hi) as [?|Hl]; [by left|right].
        rewrite lookup_app_l; [done|by eapply lookup_lt_Some].
    + intros x [Hx| ->%list_elem_of_singleton]%elem_of_app; rewrite dom_insert; set_solver.
  - rewrite list_to_set_app_L. simpl. rewrite union_empty_r_L. pose proof (size_fresh (dom types) (list_to_set path) cur) as Hs.
    rewrite (union_comm_L (list_to_set path)). rewrite <- Hs in Hf; [lia|by eapply AliasBase_dom|by rewrite elem_of_list_to_set].
  - exists walked', a', path'. split_and!; [done..|intros x Hx; apply Hp; set_solver|]. right. left. apply Hp. set_solver.
Qed.

Lemma resolve_all_spec ids walked a :
  resolved a → (∀ x, x ∈ dom walked → x ∈ dom a) →
  ∃ a', resolve_all ids types walked a = Some a' ∧ resolved a' ∧ (∀ x, x ∈ dom a → x ∈ dom a') ∧
    ∀ x, x ∈ ids → x ∈ dom a' ∨ base x = None.
Proof.
  revert walked a. induction ids as [|id ids IH]; intros walked a Hr Hw.
  { exists a. split_and!; [done..|]. by intros x ?%elem_of_nil. }
  destruct (walk_chain_spec (2 + size types) a id [] id walked) as (walked1 & a1 & path & E & [O1 O2 O3] & _ & Hid).
  - constructor; [done|apply chain_nil|constructor|by intros x ?%elem_of_nil| |by intros x ?%elem_of_nil].
    intros x i Hi. left. apply Hw, elem_of_dom. by eexists.
  - simpl. rewrite difference_empty_L, size_dom. lia.
  - cbn [resolve_all]. rewrite E. destruct (IH walked1 a1 O1 O3) as (a' & E' & ? & Hm & Hall). exists a'.
    split_and!; [done..| |].
    + intros x Hx. apply Hm, O2. by left.
    + intros x [->|Hx]%elem_of_cons; [|by apply Hall]. destruct Hid as [?|[?|?]]; [left; apply Hm, O2; by left|left; apply Hm, O2; by right|by right].
Qed.

Lemma newAliasTargets_spec (range : TypeRegistry → list TypeID) :
  (∀ x, x ∈ dom types → x ∈ range types) →
  ∃ a, newAliasTargets range types = Some a ∧ ∀ x, alias_target a x = alias_end types x.
Proof.
  intros Hrange. destruct (resolve_all_spec (range types) ∅ ∅) as (a & E & Hr & _ & Hall); [by intros x t ?%lookup_empty_Some|by rewrite dom_empty_L|].
  exists a. split; [done|]. intros x. symmetry. apply alias_end_iff. unfold alias_target.
  destruct (a !! x) as [t|] eqn:Ht; [by apply (Hr x t)|]. simpl. apply stops_end. destruct (base x) eqn:Hb; [|done].
  exfalso. destruct (Hall x) as [Hd|?]; [by apply Hrange; eapply AliasBase_dom|apply elem_of_dom in Hd as [? ?]; congruence|congruence].
Qed.
End Chains.
