(* ===== verification/Hierarchy.v ===== *)
(** * Hierarchy: the subtype relation of a registry, indexed
    ([src/ir/irfacts/hierarchy.go])

    [newHierarchy] numbers the declared types and the supertypes the registry
    lacks, gives each an edge to every supertype, and indexes the graph with
    [newIntervals]. Its answers are held to chains of [supers_of], the supertypes
    [ir.Supertypes] lists. *)
From S2P Require Import Prelude GoLib IR Search Composition Tarjan Intervals Alias.
Implicit Types (id x y base target : TypeID) (types : TypeRegistry) (a : aliasTargets) (i v w : nat).

Definition model_supertypes a (dst : list TypeID) (m : Model) : list TypeID :=
  let dst := match Model_Base m with Some r => appendTarget dst (alias_target a (TypeRef_Target r)) | None => dst end in
  foldl (λ dst r, appendTarget dst (alias_target a (TypeRef_Target r))) dst (Model_Implements m).

Record hierarchy := mkHierarchy {
  h_vertex : gmap TypeID nat; h_reach : intervals; h_children : gmap TypeID (list TypeID); h_aliases : aliasTargets
}.

(** What [supertypeEdges] builds. *)
Record edging := mkEdging { e_vertex : gmap TypeID nat; e_edges : list (list nat); e_children : gmap TypeID (list TypeID) }.
Implicit Types (e : edging).

(** One supertype of the type [id], vertex [i]. *)
Definition add_super (e : edging) (edge : nat * TypeID * TypeID) : edging :=
  let '(i, id, super) := edge in
  let '(v, vertex) := match e_vertex e !! super with
                      | Some v => (v, e_vertex e)
                      | None => (size (e_vertex e), <[super := size (e_vertex e)]> (e_vertex e))
                      end in
  {| e_vertex := vertex;
     e_edges := alter (λ vs, vs ++ [v]) i (e_edges e);
     e_children := <[super := default [] (e_children e !! super) ++ [id]]> (e_children e) |}.

Definition supers_read a types id : list TypeID :=
  match types !! id with
  | Some (ModelDef m) => model_supertypes a [] m
  | _ => []
  end.

Definition add_type a types (e : edging) (at_ : nat * TypeID) : edging :=
  let '(i, id) := at_ in foldl (λ e super, add_super e (i, id, super)) e (supers_read a types id).

(** Each declared type's vertex. *)
Definition number_ids (ids : list TypeID) : gmap TypeID nat :=
  foldl (λ vertex '(i, id), <[id := i]> vertex) ∅ (zip (seq 0 (length ids)) ids).

Definition start_edges (ids : list TypeID) : edging :=
  {| e_vertex := number_ids ids;
     e_edges := replicate (length ids) []; e_children := ∅ |}.

Definition supertypeEdges a types : edging :=
  let ids := sorted_keys types in foldl (add_type a types) (start_edges ids) (zip (seq 0 (length ids)) ids).

(** The graph: a vertex for every type named. *)
Definition super_graph (e : edging) : list (list nat) :=
  e_edges e ++ replicate (size (e_vertex e) - length (e_edges e)) [].

Definition newHierarchy (range : TypeRegistry → list TypeID) types : option hierarchy :=
  match newAliasTargets range types with
  | None => None
  | Some a =>
      let e := supertypeEdges a types in
      match newIntervals (super_graph e) with
      | None => None
      | Some r => Some {| h_vertex := e_vertex e; h_reach := r; h_children := e_children e; h_aliases := a |}
      end
  end.

(** [hierarchy.subtype]: the answer, and whether it is settled. *)
Definition subtype (h : hierarchy) target base : bool * bool :=
  match h_vertex h !! target, h_vertex h !! base with
  | Some t, Some b => below (h_reach h) t b
  | _, _ => (false, true)
  end.

(** The loop of [descendants]; the last pending type comes first. *)
Definition descend_child (st : gset TypeID * list TypeID) (child : TypeID) : gset TypeID * list TypeID :=
  let '(found, pending) := st in
  if bool_decide (child ∈ found) then (found, pending) else ({[child]} ∪ found, child :: pending).

Fixpoint descend (fuel : nat) (children : gmap TypeID (list TypeID)) (found : gset TypeID) (pending : list TypeID) :
    option (gset TypeID) :=
  match fuel with
  | O => None
  | S fuel =>
      match pending with
      | [] => Some found
      | id :: pending =>
          let '(found, pending) := foldl descend_child (found, pending) (default [] (children !! id)) in
          descend fuel children found pending
      end
  end.

(** Every type found is the child of one, so it is pushed once at most. *)
Definition descend_fuel (children : gmap TypeID (list TypeID)) : nat :=
  3 + size (list_to_set (C := gset TypeID) (concat (map_to_list children).*2)).

Definition descendants (h : hierarchy) base : option (list TypeID) :=
  (λ found : gset TypeID, merge_sort string_le (elements found)) <$>
  descend (descend_fuel (h_children h)) (h_children h) ∅ [base].

(** ** The supertypes read are those [ir.Supertypes] lists *)

Lemma appendTarget_app dst id : appendTarget dst id = dst ++ filter (λ t : TypeID, t ≠ []) [id].
Proof. unfold appendTarget. destruct id as [|c id]; [by rewrite app_nil_r|done]. Qed.

Lemma model_supertypes_named types a dst m :
  (∀ x, alias_target a x = alias_end types x) →
  model_supertypes a dst m = dst ++ named types (base_targets (Model_Base m) ++ (TypeRef_Target <$> Model_Implements m)).
Proof.
  intros Ha. assert (Hf : ∀ rs dst, foldl (λ dst r, appendTarget dst (alias_target a (TypeRef_Target r))) dst rs =
    dst ++ named types (TypeRef_Target <$> rs)).
  { induction rs as [|r rs IH]; intros dst'; [by rewrite app_nil_r|]. simpl. rewrite IH, appendTarget_app, Ha, <- app_assoc.
    unfold named. by rewrite <- filter_app. }
  unfold model_supertypes. rewrite Hf. destruct (Model_Base m) as [r|]; simpl; [|done].
  rewrite appendTarget_app, Ha, <- app_assoc. unfold named. by rewrite <- filter_app.
Qed.

Lemma supers_read_of types a id : (∀ x, alias_target a x = alias_end types x) → supers_read a types id = supers_of types id.
Proof.
  intros Ha. unfold supers_read, supers_of, super_targets. destruct (types !! id) as [[]|]; try done. by rewrite (model_supertypes_named types a).
Qed.

(** ** The graph built *)

Lemma ids_vertices (k : nat) (l : list TypeID) (m : gmap TypeID nat) x :
  NoDup l →
  foldl (λ vertex '(i, id), <[id := i]> vertex) m (zip (seq k (length l)) l) !! x =
  match list_find (x =.) l with Some (i, _) => Some (k + i) | None => m !! x end.
Proof.
  revert k m. induction l as [|y l IH]; intros k m Hnd; [done|]. apply NoDup_cons in Hnd as [Hy Hnd]. simpl. rewrite IH by done.
  destruct (decide (x = y)) as [->|Hne].
  - rewrite Nat.add_0_r. destruct (list_find (y =.) l) as [[i z]|] eqn:E; [|by rewrite lookup_insert_eq].
    apply list_find_Some in E as (Hl & <- & _). by apply list_elem_of_lookup_2 in Hl.
  - destruct (list_find (x =.) l) as [[i z]|]; simpl; [f_equal; lia|by rewrite lookup_insert_ne].
Qed.

Lemma number_ids_spec (ids : list TypeID) x v : NoDup ids → number_ids ids !! x = Some v ↔ ids !! v = Some x.
Proof.
  intros Hnd. unfold number_ids. rewrite ids_vertices by done. destruct (list_find (x =.) ids) as [[i z]|] eqn:E.
  - apply list_find_Some in E as (Hl & <- & _). simpl. split; [by intros [= <-]|]. intros Hv. f_equal. by eapply NoDup_lookup.
  - rewrite lookup_empty. split; [done|]. intros Hv. apply list_find_None in E. rewrite Forall_forall in E.
    destruct (E x); [by eapply list_elem_of_lookup_2|done].
Qed.

Section Graph.
Context (types : TypeRegistry) (a : aliasTargets) (Ha : ∀ x, alias_target a x = alias_end types x).
#[local] Abbreviation ids := (sorted_keys types).
#[local] Abbreviation supers := (supers_of types).
Implicit Types (es : list (nat * TypeID * TypeID)).

(** Every edge, with the vertex it leaves. *)
Definition all_edges : list (nat * TypeID * TypeID) :=
  zip (seq 0 (length ids)) ids ≫= λ '(i, id), (λ s, (i, id, s)) <$> supers id.

Lemma elem_of_all_edges i id s : (i, id, s) ∈ all_edges ↔ ids !! i = Some id ∧ s ∈ supers id.
Proof.
  unfold all_edges. rewrite list_elem_of_bind. split.
  - intros ([j x] & Hin & Hz). apply list_elem_of_fmap in Hin as (s' & [= -> -> ->] & Hs).
    apply list_elem_of_lookup in Hz as [k Hk]. apply lookup_zip_Some in Hk as [Hk Hx]. by apply lookup_seq in Hk as [-> _].
  - intros [Hi Hs]. exists (i, id). split; [apply list_elem_of_fmap; by exists s|]. apply list_elem_of_lookup. exists i.
    apply lookup_zip_Some. split; [apply lookup_seq; split; [done|by eapply lookup_lt_Some]|done].
Qed.

Lemma supertypeEdges_flat : supertypeEdges a types = foldl add_super (start_edges ids) all_edges.
Proof.
  unfold supertypeEdges, all_edges. rewrite <- foldl_flat. apply foldl_ext_all. intros e [i id]. unfold add_type.
  by rewrite (supers_read_of types a id Ha), <- (foldl_map add_super (λ s, (i, id, s))).
Qed.

Lemma supers_declared x s : s ∈ supers x → ∃ i, ids !! i = Some x.
Proof.
  intros Hs. apply list_elem_of_lookup, elem_of_sorted_keys. destruct (decide (x ∈ dom types)) as [|Hn]; [done|]. exfalso.
  unfold supers_of, super_targets in Hs. apply not_elem_of_dom in Hn. rewrite Hn in Hs. by apply elem_of_nil in Hs.
Qed.

(** What holds once the edges [es] were added. *)
Record edges_inv (es : list (nat * TypeID * TypeID)) (e : edging) : Prop := {
  edge_len : length (e_edges e) = length ids;
  edge_ids i id : ids !! i = Some id → e_vertex e !! id = Some i;
  edge_lt x v : e_vertex e !! x = Some v → v < size (e_vertex e);
  edge_inj x y v : e_vertex e !! x = Some v → e_vertex e !! y = Some v → x = y;
  edge_named i id s : (i, id, s) ∈ es → is_Some (e_vertex e !! s);
  edge_out i w : w ∈ outgoing (e_edges e) i ↔ ∃ id s, (i, id, s) ∈ es ∧ e_vertex e !! s = Some w;
  edge_child s id : id ∈ default [] (e_children e !! s) ↔ ∃ i, (i, id, s) ∈ es
}.

Lemma start_inv : edges_inv [] (start_edges ids).
Proof.
  pose proof (sorted_keys_nodup types) as Hnd. set (m := e_vertex (start_edges ids)).
  assert (Hm : ∀ x v, m !! x = Some v ↔ ids !! v = Some x) by (intros; by apply number_ids_spec).
  assert (Hsize : size m = length ids).
  { rewrite <- size_dom. assert (dom m = list_to_set ids) as ->.
    { apply set_eq. intros x. rewrite elem_of_dom, elem_of_list_to_set. split.
      - intros [v Hv%Hm]. by eapply list_elem_of_lookup_2.
      - intros [v Hv]%list_elem_of_lookup. exists v. by apply Hm. }
    by apply size_list_to_set. }
  constructor.
  - by apply length_replicate.
  - intros i id Hid. by apply Hm.
  - intros x v Hv. change (v < size m). rewrite Hsize. apply Hm in Hv. by eapply lookup_lt_Some.
  - intros x y v Hx Hy. apply Hm in Hx, Hy. congruence.
  - by intros i id s ?%elem_of_nil.
  - intros i w. split; [|by intros (? & ? & ?%elem_of_nil & _)]. unfold outgoing. simpl.
    destruct (replicate _ _ !! i) eqn:E; [apply lookup_replicate in E as [-> _]|]; by intros ?%elem_of_nil.
  - intros s id. simpl. rewrite lookup_empty. simpl. split; [by intros ?%elem_of_nil|by intros (? & ?%elem_of_nil)].
Qed.

Lemma add_super_inv es e i id s :
  edges_inv es e → i < length ids → edges_inv (es ++ [(i, id, s)]) (add_super e (i, id, s)).
Proof.
  intros [H1 H2 H3 H4 H5 H6 H7] Hi. unfold add_super.
  set (vv := match e_vertex e !! s with Some v => (v, e_vertex e) | None => (size (e_vertex e), <[s := size (e_vertex e)]> (e_vertex e)) end).
  assert (Hv : vv.2 !! s = Some vv.1 ∧ (∀ x v, e_vertex e !! x = Some v → vv.2 !! x = Some v) ∧
    (∀ x v, vv.2 !! x = Some v → v < size vv.2) ∧ (∀ x y v, vv.2 !! x = Some v → vv.2 !! y = Some v → x = y)).
  { unfold vv. destruct (e_vertex e !! s) as [v|] eqn:E; simpl; [done|]. rewrite map_size_insert_None by done. split_and!.
    - by rewrite lookup_insert_eq.
    - intros x v Hx. rewrite lookup_insert_ne; [done|]. intros ->. congruence.
    - intros x v. destruct (decide (x = s)) as [->|Hne].
      + rewrite lookup_insert_eq. intros [= <-]. lia.
      + rewrite lookup_insert_ne by done. intros Hx%H3. lia.
    - intros x y v. destruct (decide (x = s)) as [->|Hx], (decide (y = s)) as [->|Hy]; rewrite ?lookup_insert_eq, ?lookup_insert_ne by done; try done.
      + intros [= <-] Hv%H3. lia.
      + intros Hv%H3 [= <-]. lia.
      + apply H4. }
  destruct vv as [v vertex]. simpl in Hv. destruct Hv as (Hs & Hold & Hlt & Hinj). constructor; simpl.
  - by rewrite length_alter.
  - intros j x Hj. by apply Hold, H2.
  - done.
  - done.
  - intros j x s' [Hin|[= -> -> ->]%list_elem_of_singleton]%elem_of_app; [|by eexists].
    destruct (H5 j x s' Hin) as [u Hu]. exists u. by apply Hold.
  - intros j w. assert (Hout : w ∈ outgoing (alter (λ vs, vs ++ [v]) i (e_edges e)) j ↔ w ∈ outgoing (e_edges e) j ∨ (j = i ∧ w = v)).
    { unfold outgoing. destruct (decide (j = i)) as [->|Hj].
      - rewrite list_lookup_alter_eq. destruct (lookup_lt_is_Some_2 (e_edges e) i) as [ws ->]; [by rewrite H1|]. simpl.
        rewrite elem_of_app, list_elem_of_singleton. naive_solver.
      - rewrite list_lookup_alter_ne by done. naive_solver. }
    rewrite Hout, H6. split.
    + intros [(x & s' & Hin & Hw)|[-> ->]].
      * exists x, s'. split; [set_solver|by apply Hold].
      * exists id, s. split; [set_solver|done].
    + intros (x & s' & [Hin|[= -> -> ->]%list_elem_of_singleton]%elem_of_app & Hw); [left|right; split; [done|congruence]].
      exists x, s'. split; [done|]. destruct (H5 j x s' Hin) as [u Hu]. specialize (Hold _ _ Hu). congruence.
  - intros s' x. destruct (decide (s' = s)) as [->|Hne].
    + rewrite lookup_insert_eq. simpl. rewrite elem_of_app, H7, list_elem_of_singleton. split.
      * intros [[j Hj]| ->]; [exists j|exists i]; set_solver.
      * intros [j [Hj|[= -> ->]%list_elem_of_singleton]%elem_of_app]; [left; by exists j|by right].
    + rewrite lookup_insert_ne by done. rewrite H7. split; intros [j Hj]; exists j; set_solver.
Qed.

Lemma supertypeEdges_inv : edges_inv all_edges (supertypeEdges a types).
Proof.
  rewrite supertypeEdges_flat. assert (Hlt : ∀ i id s, (i, id, s) ∈ all_edges → i < length ids).
  { intros i id s [Hi _]%elem_of_all_edges. by eapply lookup_lt_Some. }
  assert (Hgen : ∀ es done_ e, edges_inv done_ e → (∀ i id s, (i, id, s) ∈ es → i < length ids) → edges_inv (done_ ++ es) (foldl add_super e es)).
  { induction es as [|[[i id] s] es IH]; intros done_ e He Hl; [by rewrite app_nil_r|]. cbn [foldl].
    replace (done_ ++ (i, id, s) :: es) with ((done_ ++ [(i, id, s)]) ++ es) by (by rewrite <- app_assoc). apply IH; [|intros j x s' ?; apply (Hl j x s'); by right].
    apply add_super_inv; [done|]. apply (Hl i id s). by left. }
  apply (Hgen _ []); [apply start_inv|done].
Qed.

Lemma super_graph_length : length (super_graph (supertypeEdges a types)) = size (e_vertex (supertypeEdges a types)).
Proof.
  pose proof supertypeEdges_inv as Hi. unfold super_graph. rewrite length_app, length_replicate.
  assert (length (e_edges (supertypeEdges a types)) ≤ size (e_vertex (supertypeEdges a types))); [|lia].
  rewrite (edge_len _ _ Hi). destruct (decide (length ids = 0)) as [->|Hn]; [lia|].
  destruct (lookup_lt_is_Some_2 ids (length ids - 1)) as [id Hid]; [lia|].
  pose proof (edge_lt _ _ Hi id _ (edge_ids _ _ Hi _ _ Hid)). lia.
Qed.

Lemma super_graph_edge v w : edge (super_graph (supertypeEdges a types)) v w ↔
  ∃ x s, e_vertex (supertypeEdges a types) !! x = Some v ∧ e_vertex (supertypeEdges a types) !! s = Some w ∧ s ∈ supers x.
Proof.
  pose proof supertypeEdges_inv as Hi. set (e := supertypeEdges a types) in *.
  assert (Hout : edge (super_graph e) v w ↔ w ∈ outgoing (e_edges e) v).
  { unfold edge, super_graph, outgoing. destruct (decide (v < length (e_edges e))) as [Hv|Hv].
    - by rewrite lookup_app_l.
    - rewrite lookup_app_r by lia. rewrite (lookup_ge_None_2 (e_edges e)) by lia. destruct (replicate _ _ !! _) eqn:E; [|done].
      by apply lookup_replicate in E as [-> _]. }
  rewrite Hout, (edge_out _ _ Hi). split.
  - intros (id & s & [Hid Hs]%elem_of_all_edges & Hw). exists id, s. split_and!; [by apply (edge_ids _ _ Hi)|done..].
  - intros (x & s & Hx & Hw & Hs). destruct (supers_declared x s Hs) as [i Hxi]. pose proof (edge_ids _ _ Hi i x Hxi) as Hx'. simplify_eq.
    exists x, s. split; [|done]. by apply elem_of_all_edges.
Qed.

Lemma super_graph_well_formed : well_formed (super_graph (supertypeEdges a types)).
Proof.
  intros v w (x & s & _ & Hw & _)%super_graph_edge. rewrite super_graph_length. by apply (edge_lt _ _ supertypeEdges_inv s).
Qed.

Lemma super_graph_tc x y v w :
  e_vertex (supertypeEdges a types) !! x = Some v → e_vertex (supertypeEdges a types) !! y = Some w →
  tc (edge (super_graph (supertypeEdges a types))) v w ↔ tc (leads supers) x y.
Proof.
  pose proof supertypeEdges_inv as Hi. apply (named_tc (leads supers) _ (λ x v, e_vertex (supertypeEdges a types) !! x = Some v)).
  - apply super_graph_edge.
  - apply (edge_inj _ _ Hi).
  - intros x' s Hs. destruct (supers_declared x' s Hs) as [i Hxi]. exists i. by apply (edge_ids _ _ Hi).
Qed.

(** A type no vertex stands for is neither declared nor anyone's supertype. *)
Lemma unnamed_apart x y : e_vertex (supertypeEdges a types) !! x = None ∨ e_vertex (supertypeEdges a types) !! y = None →
  ¬ tc (leads supers) x y.
Proof.
  pose proof supertypeEdges_inv as Hi. set (e := supertypeEdges a types) in *.
  assert (Hboth : ∀ x s, s ∈ supers x → is_Some (e_vertex e !! x) ∧ is_Some (e_vertex e !! s)).
  { intros x' s Hs. destruct (supers_declared x' s Hs) as [i Hxi]. split; [exists i; by apply (edge_ids _ _ Hi)|].
    apply (edge_named _ _ Hi i x' s), elem_of_all_edges. done. }
  intros Hn H. assert (is_Some (e_vertex e !! x) ∧ is_Some (e_vertex e !! y)) as [[? ?] [? ?]]; [|destruct Hn; congruence].
  clear Hn. induction H as [x y Hin|x z y Hin _ IH]; [by apply Hboth|]. split; [by apply (Hboth x z)|apply IH].
Qed.
End Graph.

(** ** Walking down *)

Section Descend.
Context (children : gmap TypeID (list TypeID)).
Implicit Types (found : gset TypeID) (pending : list TypeID).
#[local] Abbreviation kids_of id := (default [] (children !! id)).
#[local] Abbreviation all_kids := (list_to_set (C := gset TypeID) (concat (map_to_list children).*2)).

Lemma kid_listed id x : x ∈ kids_of id → x ∈ all_kids.
Proof.
  intros Hx. destruct (children !! id) as [ks|] eqn:E; [|by apply elem_of_nil in Hx]. apply elem_of_list_to_set, elem_of_concat.
  exists ks. split; [done|]. apply list_elem_of_fmap. exists (id, ks). split; [done|]. by apply elem_of_map_to_list.
Qed.

Lemma descend_children (ks : list TypeID) found pending :
  (∀ x, x ∈ ks → x ∈ all_kids) →
  let '(found', pending') := foldl descend_child (found, pending) ks in
  (∀ x, x ∈ found' ↔ x ∈ found ∨ x ∈ ks) ∧ (∀ x, x ∈ pending' ↔ x ∈ pending ∨ (x ∈ ks ∧ x ∉ found)) ∧
  size (all_kids ∖ found') + length pending' = size (all_kids ∖ found) + length pending.
Proof.
  revert found pending. induction ks as [|k ks IH]; intros found pending Hk; cbn [foldl].
  { split_and!; [intros x; set_solver|intros x; set_solver|done]. }
  unfold descend_child at 2. case_bool_decide as Hf.
  - specialize (IH found pending). destruct (foldl descend_child (found, pending) ks) as [f p].
    destruct IH as (I1 & I2 & I3); [intros; apply Hk; by right|]. split_and!; [| |done].
    + intros x. rewrite I1, elem_of_cons. naive_solver.
    + intros x. rewrite I2, elem_of_cons. naive_solver.
  - specialize (IH ({[k]} ∪ found) (k :: pending)). destruct (foldl descend_child _ ks) as [f p].
    destruct IH as (I1 & I2 & I3); [intros; apply Hk; by right|]. split_and!.
    + intros x. rewrite I1. rewrite elem_of_union, elem_of_singleton, elem_of_cons. tauto.
    + intros x. rewrite I2. rewrite elem_of_union, elem_of_singleton, !elem_of_cons.
      destruct (decide (x = k)) as [->|]; tauto.
    + rewrite I3. pose proof (size_fresh all_kids found k (Hk k ltac:(by left)) Hf). simpl. lia.
Qed.

Definition kid_of x y : Prop := y ∈ kids_of x.

Record descending_inv base found pending : Prop := {
  desc_found x : x ∈ found → tc kid_of base x;
  desc_pending x : x ∈ pending → x = base ∨ x ∈ found;
  desc_base : base ∈ pending ∨ ∀ y, kid_of base y → y ∈ found;
  desc_closed x y : x ∈ found → x ∉ pending → kid_of x y → y ∈ found
}.

Lemma descend_spec fuel base found pending :
  descending_inv base found pending → size (all_kids ∖ found) + length pending < fuel →
  ∃ found', descend fuel children found pending = Some found' ∧ ∀ x, x ∈ found' ↔ tc kid_of base x.
Proof.
  revert found pending. induction fuel as [|fuel IH]; intros found pending [H1 H2 H3 H4] Hf; [lia|]. cbn [descend].
  destruct pending as [|id pending].
  { exists found. split; [done|]. intros x. split; [apply H1|]. intros Hx. destruct H3 as [?%elem_of_nil|Hb]; [done|].
    assert (Hall : ∀ y, y ∈ found → ∀ z, rtc kid_of y z → z ∈ found).
    { intros y Hy z Hr. induction Hr as [|y w z Hyw _ IHr]; [done|]. apply IHr. apply (H4 y w); [done|apply not_elem_of_nil|done]. }
    assert (∃ y, kid_of base y ∧ rtc kid_of y x) as (y & Hy & Hr).
    { inversion Hx as [|? y ? Hy Hr]; subst; [by exists x|exists y; split; [done|by apply tc_rtc]]. }
    by apply (Hall y); [apply Hb|]. }
  pose proof (descend_children (kids_of id) found pending (kid_listed id)) as Hc.
  destruct (foldl descend_child (found, pending) (kids_of id)) as [f p]. destruct Hc as (C1 & C2 & C3).
  apply IH; [|simpl in Hf; lia].
  assert (Hid : id = base ∨ id ∈ found) by (apply H2; by left). constructor.
  - intros x [Hx|Hx]%C1; [by apply H1|]. destruct Hid as [->|Hid]; [by apply tc_once|]. eapply tc_r; [by apply H1|done].
  - intros x [Hx|[Hx _]]%C2; [destruct (H2 x); [by right|by left|right; apply C1; by left]|right; apply C1; by right].
  - destruct (decide (base = id)) as [->|Hne]; [right; intros y Hy; apply C1; by right|].
    destruct H3 as [[?|?]%elem_of_cons|H3]; [done|left; apply C2; by left|right; intros y Hy; apply C1; left; by apply H3].
  - intros x y Hx Hp Hy. destruct (decide (x = id)) as [->|Hne]; [apply C1; by right|].
    apply C1 in Hx. destruct (decide (x ∈ found)) as [Hxf|Hxf].
    + apply C1. left. apply (H4 x y); [done| |done]. intros [?|?]%elem_of_cons; [done|]. apply Hp, C2. by left.
    + exfalso. apply Hp, C2. right. destruct Hx; done.
Qed.
End Descend.

(** ** The index built *)

Record hierarchy_spec types (h : hierarchy) : Prop := {
  hierarchy_aliases x : alias_target (h_aliases h) x = alias_end types x;
  hierarchy_settled target base : (subtype h target base).2 = true → ((subtype h target base).1 = true ↔ tc (leads (supers_of types)) target base);
  hierarchy_negative target base : (subtype h target base).1 = false → (subtype h target base).2 = true;
  hierarchy_children id s : id ∈ default [] (h_children h !! s) ↔ s ∈ supers_of types id;
  hierarchy_descendants base : ∃ ds, descendants h base = Some ds ∧ StronglySorted string_le ds ∧ NoDup ds ∧
    ∀ x, x ∈ ds ↔ tc (leads (supers_of types)) x base
}.

Lemma newHierarchy_spec (range : TypeRegistry → list TypeID) types :
  (∀ x, x ∈ dom types → x ∈ range types) → ∃ h, newHierarchy range types = Some h ∧ hierarchy_spec types h.
Proof.
  intros Hrange. destruct (newAliasTargets_spec types range Hrange) as (a & Ea & Ha). unfold newHierarchy. rewrite Ea.
  set (e := supertypeEdges a types). pose proof (supertypeEdges_inv types a Ha) as Hi. fold e in Hi.
  destruct (below_spec (super_graph e)) as (r & Er & Hr); [by apply super_graph_well_formed|]. rewrite Er.
  eexists. split; [done|].
  assert (Hlen : length (super_graph e) = size (e_vertex e)) by exact (super_graph_length types a Ha). rewrite Hlen in Hr.
  assert (Hsub : ∀ t b, (((subtype (mkHierarchy (e_vertex e) r (e_children e) a) t b).2 = true →
     ((subtype (mkHierarchy (e_vertex e) r (e_children e) a) t b).1 = true ↔ tc (leads (supers_of types)) t b)) ∧
     ((subtype (mkHierarchy (e_vertex e) r (e_children e) a) t b).1 = false → (subtype (mkHierarchy (e_vertex e) r (e_children e) a) t b).2 = true))).
  { intros t b. unfold subtype. simpl. destruct (e_vertex e !! t) as [v|] eqn:Ev.
    2: { split; [|done]. intros _. split; [done|]. intros H. exfalso. apply (unnamed_apart types a Ha t b); [by left|done]. }
    destruct (e_vertex e !! b) as [w|] eqn:Ew.
    2: { split; [|done]. intros _. split; [done|]. intros H. exfalso. apply (unnamed_apart types a Ha t b); [by right|done]. }
    specialize (Hr v w (edge_lt _ _ _ Hi t v Ev) (edge_lt _ _ _ Hi b w Ew)). destruct (below r v w) as [sub settled].
    destruct Hr as (H1 & H2 & _). split; [|done]. intros Hs. rewrite H1 by done. by apply super_graph_tc. }
  assert (Hchild : ∀ id s, id ∈ default [] (e_children e !! s) ↔ s ∈ supers_of types id).
  { intros id s. rewrite (edge_child _ _ _ Hi). split.
    - intros (i & [_ ?]%elem_of_all_edges). done.
    - intros Hs. destruct (supers_declared types id s Hs) as [i Hx]. exists i. by apply elem_of_all_edges. }
  constructor; [done|apply Hsub|apply Hsub|done|]. intros b. unfold descendants. cbn [h_children].
  destruct (descend_spec (e_children e) (descend_fuel (e_children e)) b ∅ [b]) as (found & -> & Hf).
  { constructor; [by intros x ?%elem_of_empty|intros x ?%list_elem_of_singleton; by left|left; by left|by intros x y ?%elem_of_empty]. }
  { unfold descend_fuel. rewrite difference_empty_L. simpl. lia. }
  eexists. split; [done|]. split_and!.
  - apply StronglySorted_merge_sort; apply _.
  - rewrite merge_sort_Permutation. apply NoDup_elements.
  - intros x. rewrite merge_sort_Permutation, elem_of_elements, Hf. split.
    + intros H. clear Hf. induction H as [b x Hk|b y x Hk _ IH]; [apply tc_once; by apply Hchild|eapply tc_r; [exact IH|by apply Hchild]].
    + intros H. clear Hf. induction H as [x b Hk|x y b Hk _ IH]; [apply tc_once; by apply Hchild|eapply tc_r; [exact IH|by apply Hchild]].
Qed.
