(* ===== verification/Exposure.v ===== *)
(** * Exposure: what each type exposes, indexed ([src/ir/irfacts/exposure.go])

    The index numbers the declared types, gives each an edge to the declared
    types its parts come from, and records the one model that declares each
    property. Its answers are held to the relation [ir.ExposedProps] walks. *)
From S2P Require Import Prelude GoLib Decimal IR Search Composition Tarjan Intervals Hierarchy.
Implicit Types (id x : TypeID) (types : TypeRegistry) (prop : PropID) (i v w : nat) (owner : gmap PropID Z).

Definition sharedProp : Z := -1.

Record exposure := mkExposure { x_vertex : gmap TypeID nat; x_reach : intervals; x_owner : gmap PropID Z }.

(** Vertex [i] declares [prop]. *)
Definition own prop i owner : gmap PropID Z :=
  match owner !! prop with
  | Some o => if negb (o =? Z.of_nat i)%Z then <[prop := sharedProp]> owner else <[prop := Z.of_nat i]> owner
  | None => <[prop := Z.of_nat i]> owner
  end.

(** What [read] records as vertex [i]'s, and the types its other parts come from. *)
Definition read_parts types owner i id : gmap PropID Z * list TypeID :=
  match types !! id with
  | Some (ModelDef m) => (foldl (λ owner p, own (Property_ID p) i owner) owner (Model_Properties m), model_sources m)
  | Some (ScalarDef s) => (owner, base_targets (Scalar_Base s))
  | _ => (owner, [])
  end.

(** One type of the loop, whose edges are the next of the graph. *)
Definition expose_type (vertex : gmap TypeID nat) types (st : gmap PropID Z * list (list nat)) (at_ : nat * TypeID) :
    gmap PropID Z * list (list nat) :=
  let '(owner, edges) := st in
  let '(owner, sources) := read_parts types owner at_.1 at_.2 in
  (owner, edges ++ [omap (λ source, vertex !! source) sources]).

Definition newExposure types : option exposure :=
  let ids := sorted_keys types in
  let vertex := number_ids ids in
  let '(owner, edges) := foldl (expose_type vertex types) (∅, []) (zip (seq 0 (length ids)) ids) in
  match newIntervals edges with
  | None => None
  | Some r => Some {| x_vertex := vertex; x_reach := r; x_owner := owner |}
  end.

(** [exposure.exposes]: the answer, and whether it is settled. *)
Definition exposes (e : exposure) id prop : bool * bool :=
  match x_vertex e !! id, x_owner e !! prop with
  | Some v, Some owner =>
      if (owner =? sharedProp)%Z then (false, false)
      else if (owner =? Z.of_nat v)%Z then (true, true)
      else below (x_reach e) v (Z.to_nat owner)
  | _, _ => (false, true)
  end.

(** ** The owners *)

(** [owner] records exactly the declarations in [ds], vertices with the property
    each declares. *)
Definition owners (ds : list (nat * PropID)) owner : Prop :=
  ∀ prop, match owner !! prop with
          | None => ∀ i, (i, prop) ∉ ds
          | Some o => (o = sharedProp ∧ ∃ i j, i ≠ j ∧ (i, prop) ∈ ds ∧ (j, prop) ∈ ds) ∨
                      (∃ i, o = Z.of_nat i ∧ ∀ j, (j, prop) ∈ ds ↔ j = i)
          end.

Lemma own_owners ds owner i prop : owners ds owner → owners (ds ++ [(i, prop)]) (own prop i owner).
Proof.
  intros Ho q. unfold own. destruct (decide (q = prop)) as [->|Hne].
  - specialize (Ho prop). destruct (owner !! prop) as [o|].
    + assert (Hin : ∀ j, (j, prop) ∈ ds ++ [(i, prop)] ↔ (j, prop) ∈ ds ∨ j = i).
      { intros j. rewrite elem_of_app, list_elem_of_singleton. split; [intros [?|[= ->]]; tauto|intros [?| ->]; tauto]. }
      destruct (Z.eqb_spec o (Z.of_nat i)) as [->|Hoi]; simpl; rewrite lookup_insert_eq.
      * right. exists i. split; [done|]. intros j. rewrite Hin. destruct Ho as [[? _]|(k & Hk & Hd)]; [unfold sharedProp in *; lia|].
        rewrite Hd. assert (k = i) by lia. subst k. tauto.
      * left. split; [done|]. destruct Ho as [[_ (j & k & ? & ? & ?)]|(k & Hk & Hd)].
        { exists j, k. rewrite !Hin. tauto. }
        exists k, i. rewrite !Hin. split_and!; [intros ->; lia| |by right]. left. by apply Hd.
    + rewrite lookup_insert_eq. right. exists i. split; [done|]. intros j. rewrite elem_of_app, list_elem_of_singleton.
      split; [intros [?|[= ->]]; [by destruct (Ho j)|done]|intros ->; by right].
  - assert (E : match owner !! prop with
                | Some o => if negb (o =? Z.of_nat i)%Z then <[prop := sharedProp]> owner else <[prop := Z.of_nat i]> owner
                | None => <[prop := Z.of_nat i]> owner end !! q = owner !! q).
    { destruct (owner !! prop); [destruct (negb _)|]; by rewrite lookup_insert_ne. }
    rewrite E. specialize (Ho q). assert (Hin : ∀ j, (j, q) ∈ ds ++ [(i, prop)] ↔ (j, q) ∈ ds).
    { intros j. rewrite elem_of_app, list_elem_of_singleton. split; [intros [?|[= _ ?]]; done|by left]. }
    destruct (owner !! q) as [o|]; [|intros j; by rewrite Hin]. destruct Ho as [[? (j & k & ?)]|(k & ? & Hd)].
    + left. split; [done|]. exists j, k. by rewrite !Hin.
    + right. exists k. split; [done|]. intros j. by rewrite Hin.
Qed.

Lemma read_owners types ds owner i id :
  owners ds owner → owners (ds ++ ((λ p, (i, p)) <$> own_props types id)) (read_parts types owner i id).1.
Proof.
  intros Ho. unfold read_parts, own_props.
  destruct (types !! id) as [[]|]; try (cbn [fst fmap list_fmap]; by rewrite app_nil_r). cbn [fst].
  rewrite <- list_fmap_compose. match goal with m : Model |- _ => generalize (Model_Properties m) as ps end. intros ps. revert ds owner Ho.
  induction ps as [|p ps IH]; intros ds owner Ho; [by rewrite app_nil_r|]. cbn [foldl fmap list_fmap].
  replace (ds ++ _ :: _) with ((ds ++ [(i, Property_ID p)]) ++ (((λ p, (i, p)) ∘ Property_ID) <$> ps)) by (by rewrite <- app_assoc).
  by apply IH, own_owners.
Qed.

Lemma read_sources types owner i id : (read_parts types owner i id).2 = part_sources types id.
Proof. unfold read_parts, part_sources. by destruct (types !! id) as [[]|]. Qed.

(** ** The graph *)

Section Exposing.
Context (types : TypeRegistry).
#[local] Abbreviation ids := (sorted_keys types).
#[local] Abbreviation vertex := (number_ids ids).
#[local] Abbreviation sources := (part_sources types).

Definition source_graph : list (list nat) := (λ id, omap (λ s, vertex !! s) (sources id)) <$> ids.
Definition declarations : list (nat * PropID) := zip (seq 0 (length ids)) ids ≫= λ '(i, id), (λ p, (i, p)) <$> own_props types id.

Lemma vertex_spec x v : vertex !! x = Some v ↔ ids !! v = Some x.
Proof. apply number_ids_spec, sorted_keys_nodup. Qed.

Lemma expose_fold :
  let '(owner, edges) := foldl (expose_type vertex types) (∅, []) (zip (seq 0 (length ids)) ids) in
  owners declarations owner ∧ edges = source_graph.
Proof.
  assert (Hgen : ∀ (l : list TypeID) (k : nat) ds owner edges, owners ds owner →
    let '(owner', edges') := foldl (expose_type vertex types) (owner, edges) (zip (seq k (length l)) l) in
    owners (ds ++ (zip (seq k (length l)) l ≫= λ '(i, id), (λ p, (i, p)) <$> own_props types id)) owner' ∧
    edges' = edges ++ ((λ id, omap (λ s, vertex !! s) (sources id)) <$> l)).
  { induction l as [|id l IH]; intros k ds owner edges Ho; [simpl; by rewrite !app_nil_r|].
    cbn [length seq zip zip_with foldl]. unfold expose_type at 2. cbn [fst snd].
    pose proof (read_owners types ds owner k id Ho) as Hr. pose proof (read_sources types owner k id) as Hs.
    destruct (read_parts types owner k id) as [owner1 srcs]. cbn [fst snd] in Hr, Hs. subst srcs.
    specialize (IH (S k) _ owner1 (edges ++ [omap (λ s, vertex !! s) (sources id)]) Hr).
    destruct (foldl _ _ _) as [owner' edges']. destruct IH as [IH1 IH2]. split.
    - cbn [mbind list_bind]. by rewrite app_assoc.
    - rewrite IH2, <- app_assoc. done. }
  specialize (Hgen ids 0 [] ∅ []). destruct (foldl _ _ _) as [owner edges]. destruct Hgen as [H1 H2]; [|by split].
  intros prop. rewrite lookup_empty. intros i. apply not_elem_of_nil.
Qed.

Lemma source_graph_edge v w : edge source_graph v w ↔ ∃ x s, ids !! v = Some x ∧ ids !! w = Some s ∧ s ∈ sources x.
Proof.
  unfold edge, outgoing, source_graph. rewrite list_lookup_fmap. destruct (ids !! v) as [x|]; simpl.
  - rewrite list_elem_of_omap. split.
    + intros (s & Hs & Hv%vertex_spec). by exists x, s.
    + intros (x' & s & [= <-] & Hw & Hs). exists s. split; [done|]. by apply vertex_spec.
  - split; [by intros ?%elem_of_nil|by intros (? & ? & ? & _)].
Qed.

Lemma source_graph_well_formed : well_formed source_graph.
Proof.
  intros v w (x & s & _ & Hw & _)%source_graph_edge. unfold source_graph. rewrite length_fmap. by eapply lookup_lt_Some.
Qed.

Lemma sources_declared x s : s ∈ sources x → ∃ v, ids !! v = Some x.
Proof.
  intros Hs. apply list_elem_of_lookup, elem_of_sorted_keys. destruct (decide (x ∈ dom types)) as [|Hn]; [done|]. exfalso.
  unfold part_sources in Hs. apply not_elem_of_dom in Hn. rewrite Hn in Hs. by apply elem_of_nil in Hs.
Qed.

Lemma source_graph_tc x y v w :
  ids !! v = Some x → ids !! w = Some y → tc (edge source_graph) v w ↔ tc (leads sources) x y.
Proof.
  apply (named_tc (leads sources) source_graph (λ x v, ids !! v = Some x)).
  - apply source_graph_edge.
  - intros x' y' u Hx Hy. congruence.
  - intros x' s Hs. by eapply sources_declared.
Qed.

Lemma elem_of_declarations i prop : (i, prop) ∈ declarations ↔ ∃ x, ids !! i = Some x ∧ declares types x prop.
Proof.
  unfold declarations, declares. rewrite list_elem_of_bind. split.
  - intros ([j x] & Hin & Hz). apply list_elem_of_fmap in Hin as (p & [= -> ->] & Hp).
    apply list_elem_of_lookup in Hz as [k Hk]. apply lookup_zip_Some in Hk as [Hk Hx]. apply lookup_seq in Hk as [-> _]. by exists x.
  - intros (x & Hx & Hp). exists (i, x). split; [apply list_elem_of_fmap; by exists prop|]. apply list_elem_of_lookup. exists i.
    apply lookup_zip_Some. split; [apply lookup_seq; split; [done|by eapply lookup_lt_Some]|done].
Qed.

Lemma declares_declared x prop : declares types x prop → ∃ v, ids !! v = Some x.
Proof.
  unfold declares. intros Hs. apply list_elem_of_lookup, elem_of_sorted_keys. destruct (decide (x ∈ dom types)) as [|Hn]; [done|]. exfalso.
  unfold own_props in Hs. apply not_elem_of_dom in Hn. rewrite Hn in Hs. by apply elem_of_nil in Hs.
Qed.

(** What [ir.ExposedProps] answers. *)
Definition exposed id prop : Prop := ∃ x, rtc (leads sources) id x ∧ declares types x prop.

Lemma newExposure_spec : ∃ e, newExposure types = Some e ∧ ∀ id prop,
  ((exposes e id prop).2 = true → ((exposes e id prop).1 = true ↔ exposed id prop)).
Proof.
  pose proof expose_fold as Hf. unfold newExposure. destruct (foldl _ _ _) as [owner edges]. destruct Hf as [Ho ->].
  destruct (below_spec source_graph source_graph_well_formed) as (r & -> & Hr). eexists. split; [done|]. intros id prop.
  unfold exposes. cbn [x_vertex x_reach x_owner]. specialize (Ho prop).
  destruct (vertex !! id) as [v|] eqn:Ev.
  2: { intros _. split; [done|]. intros (x & Hx & Hd). exfalso.
       assert (∃ v, ids !! v = Some id) as [v Hv] by (inversion Hx; subst; [by eapply declares_declared|by eapply sources_declared]).
       apply vertex_spec in Hv. congruence. }
  apply vertex_spec in Ev. destruct (owner !! prop) as [o|].
  2: { intros _. split; [done|]. intros (x & _ & Hd). destruct (declares_declared x prop Hd) as [i Hi]. exfalso.
       apply (Ho i), elem_of_declarations. by exists x. }
  destruct (Z.eqb_spec o sharedProp) as [->|Hns]; [done|]. destruct Ho as [[? _]|(i & -> & Hi)]; [done|].
  assert (Howner : ∃ y, ids !! i = Some y ∧ declares types y prop) by (apply elem_of_declarations, Hi; done).
  destruct Howner as (y & Hy & Hyd).
  assert (Hiff : exposed id prop ↔ rtc (leads sources) id y).
  { split; [|intros Hy'; by exists y]. intros (x & Hx & Hd). destruct (declares_declared x prop Hd) as [j Hj].
    assert (j = i) as -> by (apply Hi, elem_of_declarations; by exists x). congruence. }
  destruct (Z.eqb_spec (Z.of_nat i) (Z.of_nat v)) as [E|E].
  - intros _. split; [intros _|done]. apply Hiff. assert (i = v) as -> by lia. simplify_eq. done.
  - rewrite Nat2Z.id. assert (Lv : v < length source_graph) by (unfold source_graph; rewrite length_fmap; by eapply lookup_lt_Some).
    assert (Li : i < length source_graph) by (unfold source_graph; rewrite length_fmap; by eapply lookup_lt_Some).
    specialize (Hr v i Lv Li). destruct (below r v i) as [sub settled]. destruct Hr as (H1 & _ & _). cbn [fst snd].
    intros Hs. rewrite (H1 Hs), (source_graph_tc id y v i) by done. rewrite Hiff. split; [apply tc_rtc|].
    intros [->|?]%rtc_tc; [|done]. exfalso. apply E. f_equal. apply vertex_spec in Ev, Hy. congruence.
Qed.
End Exposing.
