(* ===== verification/TypeGraph.v ===== *)
(** * TypeGraph: what values of each type hold
    ([src/ir/irfacts/typegraph.go])

    Each declared type has two vertices, its shape and its range. The graph the
    code builds is held to a relation between shapes and ranges stated over the
    registry. *)
From S2P Require Import Prelude GoLib Decimal IR Search Composition Tarjan Alias Hierarchy.
Implicit Types (id x y : TypeID) (types : TypeRegistry) (i v w : nat).

Record typeGraph := mkTypeGraph {
  g_ids : list TypeID; g_index : gmap TypeID nat; g_poly : list bool;
  g_next : list (list nat); g_args : list (list nat); g_loops : list bool
}.
Implicit Types (g : typeGraph).

Definition is_set {A} (o : option A) : bool := match o with Some _ => true | None => false end.

Definition polymorphic types id : bool :=
  match types !! id with
  | Some (ModelDef m) => negb (is_empty id) && (is_set (Model_Discriminator m) || Model_Abstract m)
  | _ => false
  end.

Definition vertexOf g id (whole : bool) : option nat :=
  match g_index g !! id with
  | None => None
  | Some i => if is_empty id then None else Some (if whole then 2 * i + 1 else 2 * i)
  end.

Definition reference g id : option nat :=
  match g_index g !! id with
  | None => None
  | Some i => vertexOf g id (default false (g_poly g !! i))
  end.

Definition typeOf g v : TypeID := default [] (g_ids g !! (v / 2)).

Definition link (from to : nat) g : typeGraph :=
  {| g_ids := g_ids g; g_index := g_index g; g_poly := g_poly g;
     g_next := alter (λ vs, vs ++ [to]) from (g_next g); g_args := g_args g;
     g_loops := if decide (from = to) then <[from := true]> (g_loops g) else g_loops g |}.
Definition link_arg (from to : nat) g : typeGraph :=
  {| g_ids := g_ids g; g_index := g_index g; g_poly := g_poly g; g_next := g_next g;
     g_args := alter (λ vs, vs ++ [to]) from (g_args g); g_loops := g_loops g |}.

Definition linkTo (from : nat) id (whole : bool) g : typeGraph :=
  match vertexOf g id whole with Some to => link from to g | None => g end.
Definition linkReference (from : nat) id g : typeGraph :=
  match reference g id with Some to => link from to g | None => g end.
Definition linkArg (from : nat) id g : typeGraph :=
  match reference g id with Some to => link_arg from to g | None => g end.

Definition addType i (p : typeParts) (children : list TypeID) g : typeGraph :=
  let '(shape, whole) := (2 * i, 2 * i + 1) in
  let g := foldl (λ g id, linkReference shape id g) g (held p) in
  let g := foldl (λ g id, linkTo shape id false g) g (composed p) in
  let g := linkTo shape (alias p) false g in
  let g := linkTo whole (alias p) true g in
  let g := link whole shape g in
  let g := foldl (λ g id, linkTo whole id true g) g children in
  foldl (λ g id, linkArg shape id g) g (args p).

Definition declared_parts types id : typeParts :=
  match types !! id with Some td => read_type td | None => holds_only [] end.

Definition newTypeGraph types (h : hierarchy) : typeGraph :=
  let ids := sorted_keys types in
  let n := length ids in
  foldl (λ g '(i, id), addType i (declared_parts types id) (default [] (h_children h !! id)) g)
    {| g_ids := ids; g_index := number_ids ids; g_poly := (λ id, polymorphic types (alias_target (h_aliases h) id)) <$> ids;
       g_next := replicate (2 * n) []; g_args := replicate (2 * n) []; g_loops := replicate (2 * n) false |}
    (zip (seq 0 n) ids).

(** ** Shapes and ranges *)

Inductive node := Shape (id : TypeID) | Range (id : TypeID).
Definition node_type (n : node) : TypeID := match n with Shape id | Range id => id end.
Implicit Types (n m : node).

(** A type a reference can reach: declared, and named. *)
Definition referable types id : Prop := id ∈ dom types ∧ id ≠ [].

(** What a value declared as [id] may be: any shape of its range when it is
    polymorphic. *)
Definition value_of types id : node := if polymorphic types (alias_end types id) then Range id else Shape id.

(** What a value at one vertex holds or may be. *)
Inductive holds types : node → node → Prop :=
  | holds_part id h : id ∈ dom types → h ∈ held (declared_parts types id) → referable types h → holds types (Shape id) (value_of types h)
  | holds_composed id c : id ∈ dom types → c ∈ composed (declared_parts types id) → referable types c → holds types (Shape id) (Shape c)
  | holds_alias id : id ∈ dom types → referable types (alias (declared_parts types id)) → holds types (Shape id) (Shape (alias (declared_parts types id)))
  | holds_alias_range id : id ∈ dom types → referable types (alias (declared_parts types id)) → holds types (Range id) (Range (alias (declared_parts types id)))
  | holds_shape id : id ∈ dom types → holds types (Range id) (Shape id)
  | holds_subtype id s : id ∈ dom types → id ∈ supers_of types s → referable types s → holds types (Range id) (Range s).

(** What a field argument of a type names. *)
Inductive takes types : node → node → Prop :=
  | takes_arg id r : id ∈ dom types → r ∈ args (declared_parts types id) → referable types r → takes types (Shape id) (value_of types r).

(** ** The graph built *)

(** The edges and argument edges of [g], and what linking reads of it. *)
Record graph_of types (E A : nat → nat → Prop) g : Prop := {
  graph_ids : g_ids g = sorted_keys types;
  graph_index : g_index g = number_ids (sorted_keys types);
  graph_poly i id : sorted_keys types !! i = Some id → default false (g_poly g !! i) = polymorphic types (alias_end types id);
  graph_sizes : length (g_next g) = 2 * length (sorted_keys types) ∧ length (g_args g) = 2 * length (sorted_keys types) ∧
    length (g_loops g) = 2 * length (sorted_keys types);
  graph_edge v w : edge (g_next g) v w ↔ E v w;
  graph_arg v w : edge (g_args g) v w ↔ A v w;
  graph_loop v : default false (g_loops g !! v) = true ↔ E v v
}.

Section Building.
Context (types : TypeRegistry).
#[local] Abbreviation ids := (sorted_keys types).

Definition named_node (n : node) v : Prop :=
  match n with Shape id => ∃ i, ids !! i = Some id ∧ v = 2 * i | Range id => ∃ i, ids !! i = Some id ∧ v = 2 * i + 1 end.

Lemma alter_edge (vs : list (list nat)) from to v w :
  from < length vs → edge (alter (λ vs, vs ++ [to]) from vs) v w ↔ edge vs v w ∨ (v = from ∧ w = to).
Proof.
  intros Hlt. unfold edge, outgoing. destruct (decide (v = from)) as [->|Hne].
  - rewrite list_lookup_alter_eq. destruct (lookup_lt_is_Some_2 vs from Hlt) as [l ->]. simpl.
    rewrite elem_of_app, list_elem_of_singleton. naive_solver.
  - rewrite list_lookup_alter_ne by done. naive_solver.
Qed.

Lemma link_graph E A g from to :
  from < 2 * length ids → graph_of types E A g → graph_of types (λ v w, E v w ∨ (v = from ∧ w = to)) A (link from to g).
Proof.
  intros Hlt [H1 H2 H3 H4 H5 H6 H7]. constructor; try done.
  - simpl. rewrite length_alter. destruct (decide (from = to)); by rewrite ?length_insert.
  - intros v w. simpl. rewrite alter_edge by (destruct H4 as [-> _]; done). by rewrite H5.
  - intros v. simpl. destruct (decide (from = to)) as [<-|Hne]; [|rewrite H7; naive_solver].
    rewrite insert_at by (destruct H4 as (_ & _ & ->); done). destruct (decide (v = from)) as [->|]; [tauto|]. rewrite H7. naive_solver.
Qed.

Lemma link_arg_graph E A g from to :
  from < 2 * length ids → graph_of types E A g → graph_of types E (λ v w, A v w ∨ (v = from ∧ w = to)) (link_arg from to g).
Proof.
  intros Hlt [H1 H2 H3 H4 H5 H6 H7]. constructor; try done.
  - simpl. by rewrite length_alter.
  - intros v w. simpl. rewrite alter_edge by (destruct H4 as (_ & -> & _); done). by rewrite H6.
Qed.

Lemma graph_ext (E E' A A' : nat → nat → Prop) g :
  (∀ v w, E v w ↔ E' v w) → (∀ v w, A v w ↔ A' v w) → graph_of types E A g → graph_of types E' A' g.
Proof. intros HE HA [H1 H2 H3 H4 H5 H6 H7]. constructor; try done; intros; rewrite <- ?HE, <- ?HA; auto. Qed.

Lemma index_spec E A g id i : graph_of types E A g → g_index g !! id = Some i ↔ ids !! i = Some id.
Proof. intros Hg. rewrite (graph_index _ _ _ _ Hg). apply number_ids_spec, sorted_keys_nodup. Qed.

Lemma declared_index id : id ∈ dom types ↔ ∃ i, ids !! i = Some id.
Proof. rewrite <- elem_of_sorted_keys. apply list_elem_of_lookup. Qed.

Lemma vertexOf_spec E A g id (whole : bool) w :
  graph_of types E A g → vertexOf g id whole = Some w ↔ referable types id ∧ named_node (if whole then Range id else Shape id) w.
Proof.
  intros Hg. unfold vertexOf, referable. rewrite declared_index. pose proof (index_spec E A g id) as Hix. destruct (g_index g !! id) as [i|] eqn:E'.
  - assert (Hi : ids !! i = Some id) by by apply Hix. destruct id as [|c id]; [split; [done|]; by intros [[_ ?] _]|]. simpl.
    split.
    + intros [= <-]. split; [split; [by exists i|done]|]. destruct whole; exists i; split; done || lia.
    + intros [_ Hn]. destruct whole; destruct Hn as (j & Hj & ->); assert (j = i) as -> by (eapply NoDup_lookup; [apply (sorted_keys_nodup types)|done..]); f_equal; lia.
  - split; [done|]. intros [[[i Hi] _] _]. apply (Hix i) in Hi; done.
Qed.

Lemma reference_spec E A g id w : graph_of types E A g → reference g id = Some w ↔ referable types id ∧ named_node (value_of types id) w.
Proof.
  intros Hg. unfold reference. pose proof (index_spec E A g id) as Hix. destruct (g_index g !! id) as [i|] eqn:E'.
  - assert (Hi : ids !! i = Some id) by by apply Hix. rewrite (vertexOf_spec E A) by done. rewrite (graph_poly _ _ _ _ Hg i id Hi).
    unfold value_of. by destruct (polymorphic _ _).
  - split; [done|]. intros [[Hd _] _]. apply declared_index in Hd as [i Hi]. apply (Hix i) in Hi; done.
Qed.

(** Linking [from] to each of several types. *)
Lemma fold_links (f : TypeID → typeGraph → typeGraph) (to : TypeID → node) from (l : list TypeID) E A g :
  (∀ E g id, graph_of types E A g → graph_of types (λ v w, E v w ∨ (v = from ∧ referable types id ∧ named_node (to id) w)) A (f id g)) →
  graph_of types E A g →
  graph_of types (λ v w, E v w ∨ (v = from ∧ ∃ id, id ∈ l ∧ referable types id ∧ named_node (to id) w)) A (foldl (λ g id, f id g) g l).
Proof.
  intros Hf. revert E g. induction l as [|id l IH]; intros E g Hg; cbn [foldl].
  - eapply graph_ext; [|done|exact Hg]. intros v w. split; [by left|]. intros [?|(_ & id & ?%elem_of_nil & _)]; done.
  - eapply graph_ext; [|done|apply IH, Hf, Hg]. intros v w. setoid_rewrite elem_of_cons. naive_solver.
Qed.

Lemma fold_args from (l : list TypeID) E A g :
  from < 2 * length ids → graph_of types E A g →
  graph_of types E (λ v w, A v w ∨ (v = from ∧ ∃ id, id ∈ l ∧ referable types id ∧ named_node (value_of types id) w))
    (foldl (λ g id, linkArg from id g) g l).
Proof.
  intros Hlt. revert A g. induction l as [|id l IH]; intros A g Hg; cbn [foldl].
  - eapply graph_ext; [done| |exact Hg]. intros v w. split; [by left|]. intros [?|(_ & id & ?%elem_of_nil & _)]; done.
  - assert (Hg' : graph_of types E (λ v w, A v w ∨ (v = from ∧ referable types id ∧ named_node (value_of types id) w)) (linkArg from id g)).
    { unfold linkArg. pose proof (λ w, reference_spec E A g id w Hg) as Hr. destruct (reference g id) as [to|].
      - eapply graph_ext; [done| |by apply link_arg_graph]. intros v w. rewrite <- (Hr w). naive_solver.
      - eapply graph_ext; [done| |exact Hg]. intros v w. rewrite <- (Hr w). naive_solver. }
    eapply graph_ext; [done| |apply IH, Hg']. intros v w. setoid_rewrite elem_of_cons. naive_solver.
Qed.

Lemma linkTo_graph E A g from id (whole : bool) :
  from < 2 * length ids → graph_of types E A g →
  graph_of types (λ v w, E v w ∨ (v = from ∧ referable types id ∧ named_node (if whole then Range id else Shape id) w)) A (linkTo from id whole g).
Proof.
  intros Hlt Hg. unfold linkTo. pose proof (λ w, vertexOf_spec E A g id whole w Hg) as Hr. destruct (vertexOf g id whole) as [to|].
  - eapply graph_ext; [|done|by apply link_graph]. intros v w. rewrite <- (Hr w). naive_solver.
  - eapply graph_ext; [|done|exact Hg]. intros v w. rewrite <- (Hr w). naive_solver.
Qed.

Lemma linkReference_graph E A g from id :
  from < 2 * length ids → graph_of types E A g →
  graph_of types (λ v w, E v w ∨ (v = from ∧ referable types id ∧ named_node (value_of types id) w)) A (linkReference from id g).
Proof.
  intros Hlt Hg. unfold linkReference. pose proof (λ w, reference_spec E A g id w Hg) as Hr. destruct (reference g id) as [to|].
  - eapply graph_ext; [|done|by apply link_graph]. intros v w. rewrite <- (Hr w). naive_solver.
  - eapply graph_ext; [|done|exact Hg]. intros v w. rewrite <- (Hr w). naive_solver.
Qed.

Definition shape_edges (p : typeParts) (children : list TypeID) i v w : Prop :=
  (v = 2 * i ∧ ∃ h, h ∈ held p ∧ referable types h ∧ named_node (value_of types h) w) ∨
  (v = 2 * i ∧ ∃ c, c ∈ composed p ∧ referable types c ∧ named_node (Shape c) w) ∨
  (v = 2 * i ∧ referable types (alias p) ∧ named_node (Shape (alias p)) w) ∨
  (v = 2 * i + 1 ∧ referable types (alias p) ∧ named_node (Range (alias p)) w) ∨
  (v = 2 * i + 1 ∧ w = 2 * i) ∨
  (v = 2 * i + 1 ∧ ∃ s, s ∈ children ∧ referable types s ∧ named_node (Range s) w).
Definition arg_edges (p : typeParts) i v w : Prop :=
  v = 2 * i ∧ ∃ r, r ∈ args p ∧ referable types r ∧ named_node (value_of types r) w.

Lemma addType_graph E A g i p children :
  i < length ids → graph_of types E A g →
  graph_of types (λ v w, E v w ∨ shape_edges p children i v w) (λ v w, A v w ∨ arg_edges p i v w) (addType i p children g).
Proof.
  intros Hi Hg. assert (Hs : 2 * i < 2 * length ids) by lia. assert (Hw : 2 * i + 1 < 2 * length ids) by lia.
  pose proof (fold_links (λ id g, linkReference (2 * i) id g) (value_of types) (2 * i) (held p) E A g
    (λ E' g' id, linkReference_graph E' A g' _ id Hs) Hg) as G1.
  pose proof (fold_links (λ id g, linkTo (2 * i) id false g) Shape (2 * i) (composed p) _ A _
    (λ E' g' id, linkTo_graph E' A g' _ id false Hs) G1) as G2.
  pose proof (linkTo_graph _ A _ _ (alias p) false Hs G2) as G3.
  pose proof (linkTo_graph _ A _ _ (alias p) true Hw G3) as G4.
  pose proof (link_graph _ A _ (2 * i + 1) (2 * i) Hw G4) as G5.
  pose proof (fold_links (λ id g, linkTo (2 * i + 1) id true g) Range (2 * i + 1) children _ A _
    (λ E' g' id, linkTo_graph E' A g' _ id true Hw) G5) as G6.
  pose proof (fold_args (2 * i) (args p) _ A _ Hs G6) as G7.
  eapply graph_ext; [| |exact G7]; intros v w; [unfold shape_edges|unfold arg_edges]; cbv beta iota; tauto.
Qed.

Context (h : hierarchy) (Hh : hierarchy_spec types h).

Definition holds_edge v w : Prop := ∃ a b, named_node a v ∧ named_node b w ∧ holds types a b.
Definition takes_edge v w : Prop := ∃ a b, named_node a v ∧ named_node b w ∧ takes types a b.

Lemma shape_edges_holds i id v w : ids !! i = Some id →
  shape_edges (declared_parts types id) (default [] (h_children h !! id)) i v w ↔
  ∃ a b, node_type a = id ∧ named_node a v ∧ named_node b w ∧ holds types a b.
Proof.
  intros Hi. assert (Hd : id ∈ dom types) by (apply declared_index; by exists i).
  assert (Hs : named_node (Shape id) (2 * i)) by by exists i. assert (Hr : named_node (Range id) (2 * i + 1)) by by exists i.
  split.
  - intros [(-> & x & ? & ? & ?)|[(-> & x & ? & ? & ?)|[(-> & ? & ?)|[(-> & ? & ?)|[(-> & ->)|(-> & s & Hin & ? & ?)]]]]].
    + exists (Shape id), (value_of types x). by split_and!; [..|apply holds_part].
    + exists (Shape id), (Shape x). by split_and!; [..|apply holds_composed].
    + exists (Shape id), (Shape (alias (declared_parts types id))). by split_and!; [..|apply holds_alias].
    + exists (Range id), (Range (alias (declared_parts types id))). by split_and!; [..|apply holds_alias_range].
    + exists (Range id), (Shape id). by split_and!; [..|apply holds_shape].
    + exists (Range id), (Range s). split_and!; [done..|]. apply holds_subtype; [done| |done]. by apply (hierarchy_children _ _ Hh).
  - intros (a & b & Ha & Hv & Hw & Hh'). assert (Hj : ∀ j, ids !! j = Some id → j = i) by (intros j Hj; eapply NoDup_lookup; [apply (sorted_keys_nodup types)|done..]).
    unfold shape_edges. inversion Hh' as [id' x H1 H2 H3|id' c H1 H2 H3|id' H1 H2|id' H1 H2|id' H1|id' s H1 H2 H3]; subst a b; simpl in Ha; subst id';
      destruct Hv as (j & Hjx & ->); rewrite (Hj j Hjx).
    + left. split; [done|]. by exists x.
    + right; left. split; [done|]. by exists c.
    + right; right; left. done.
    + do 3 right; left. done.
    + do 4 right; left. split; [done|]. destruct Hw as (j' & Hj' & ->). by rewrite (Hj j' Hj').
    + do 5 right. split; [done|]. exists s. split_and!; [by apply (hierarchy_children _ _ Hh)|done|done].
Qed.

Lemma arg_edges_takes i id v w : ids !! i = Some id →
  arg_edges (declared_parts types id) i v w ↔ ∃ a b, node_type a = id ∧ named_node a v ∧ named_node b w ∧ takes types a b.
Proof.
  intros Hi. assert (Hd : id ∈ dom types) by (apply declared_index; by exists i). split.
  - intros (-> & x & ? & ? & ?). exists (Shape id), (value_of types x). split_and!; [done|by exists i|done|by apply takes_arg].
  - intros (a & b & Ha & Hv & Hw & Ht). inversion Ht as [id' x H1 H2 H3]; subst a b; simpl in Ha; subst id'.
    destruct Hv as (j & Hj & ->). assert (j = i) as -> by (eapply NoDup_lookup; [apply (sorted_keys_nodup types)|done..]).
    split; [done|]. by exists x.
Qed.

Lemma named_declared n v : named_node n v → ∃ i, ids !! i = Some (node_type n).
Proof. destruct n; intros (i & Hi & _); by exists i. Qed.

Lemma newTypeGraph_graph : graph_of types holds_edge takes_edge (newTypeGraph types h).
Proof.
  unfold newTypeGraph. set (g0 := mkTypeGraph _ _ _ _ _ _).
  assert (H0 : graph_of types (λ _ _, False) (λ _ _, False) g0).
  { constructor; try done; simpl.
    - intros i id Hi. rewrite list_lookup_fmap, Hi. simpl. by rewrite (hierarchy_aliases _ _ Hh).
    - by rewrite !length_replicate.
    - intros v w. unfold edge, outgoing. destruct (replicate _ _ !! v) eqn:E; [apply lookup_replicate in E as [-> _]|]; split; by try intros ?%elem_of_nil.
    - intros v w. unfold edge, outgoing. destruct (replicate _ _ !! v) eqn:E; [apply lookup_replicate in E as [-> _]|]; split; by try intros ?%elem_of_nil.
    - intros v. destruct (replicate _ _ !! v) eqn:E; [by apply lookup_replicate in E as [-> _]|done]. }
  assert (Hgen : ∀ (l : list TypeID) (k : nat) E A g, (∀ (i : nat) id, l !! i = Some id → ids !! (k + i) = Some id) → graph_of types E A g →
    graph_of types
      (λ v w, E v w ∨ ∃ (i : nat) id, l !! i = Some id ∧ shape_edges (declared_parts types id) (default [] (h_children h !! id)) (k + i) v w)
      (λ v w, A v w ∨ ∃ (i : nat) id, l !! i = Some id ∧ arg_edges (declared_parts types id) (k + i) v w)
      (foldl (λ g '(i, id), addType i (declared_parts types id) (default [] (h_children h !! id)) g) g (zip (seq k (length l)) l))).
  { induction l as [|id l IH]; intros k E A g Hl Hg; cbn [foldl length seq zip zip_with].
    { eapply graph_ext; [| |exact Hg]; intros v w; (split; [by left|]); by intros [?|(i & id & ? & _)]. }
    pose proof (Hl 0 id eq_refl) as Hk. rewrite Nat.add_0_r in Hk.
    eapply graph_ext; [| |apply (IH (S k)); [|apply addType_graph; [by eapply lookup_lt_Some|exact Hg]]].
    - intros v w. split.
      + intros [[?|?]|(i & id' & Hi & ?)]; [by left|right; exists 0, id; by rewrite Nat.add_0_r|right; exists (S i), id'; by rewrite Nat.add_succ_r].
      + intros [?|([|i] & id' & Hi & Hs)]; [by left; left| |]; simplify_eq/=; [left; right; by rewrite Nat.add_0_r in Hs|].
        right. exists i, id'. split; [done|]. by rewrite Nat.add_succ_r in Hs.
    - intros v w. split.
      + intros [[?|?]|(i & id' & Hi & ?)]; [by left|right; exists 0, id; by rewrite Nat.add_0_r|right; exists (S i), id'; by rewrite Nat.add_succ_r].
      + intros [?|([|i] & id' & Hi & Hs)]; [by left; left| |]; simplify_eq/=; [left; right; by rewrite Nat.add_0_r in Hs|].
        right. exists i, id'. split; [done|]. by rewrite Nat.add_succ_r in Hs.
    - intros i id' Hi. specialize (Hl (S i) id' Hi). by rewrite Nat.add_succ_r in Hl. }
  eapply graph_ext; [| |exact (Hgen ids 0 _ _ g0 (λ _ _ H, H) H0)]; intros v w; simpl.
  - split.
    + intros [[]|(i & id & Hi & (a & b & _ & ? & ? & ?)%(shape_edges_holds i id v w Hi))]. by exists a, b.
    + intros (a & b & Ha & Hb & Hs). right. destruct (named_declared a v Ha) as [i Hi]. exists i, (node_type a). split; [done|].
      apply (shape_edges_holds i _ v w Hi). by exists a, b.
  - split.
    + intros [[]|(i & id & Hi & (a & b & _ & ? & ? & ?)%(arg_edges_takes i id v w Hi))]. by exists a, b.
    + intros (a & b & Ha & Hb & Hs). right. destruct (named_declared a v Ha) as [i Hi]. exists i, (node_type a). split; [done|].
      apply (arg_edges_takes i _ v w Hi). by exists a, b.
Qed.
End Building.
