(* ===== verification/Components.v ===== *)
(** * Components: which types hold each other
    ([src/ir/irfacts/components.go])

    The components Tarjan's search finds in the type graph, read per type
    through its shape, held to the relation between shapes and ranges that the
    graph stands for. *)
From S2P Require Import Prelude GoLib Decimal IR Search Composition Tarjan Alias Hierarchy TypeGraph.
Implicit Types (id x y : TypeID) (types : TypeRegistry) (i v w : nat) (g : typeGraph).

Record components := mkComponents { c_of : gmap TypeID (list TypeID); c_recursive : gset TypeID }.
Implicit Types (c : components).

(** The shapes among a component's vertices, in order. *)
Definition shapes_among (vertices : list nat) : list nat := merge_sort (≤) (filter (λ v, v `mod` 2 = 0) vertices).

(** One turn of [newComponents]'s loop. *)
Definition record_component g c (vertices : list nat) : components :=
  let shapes := shapes_among vertices in
  let members := typeOf g <$> shapes in
  foldl (λ c v,
    {| c_of := <[typeOf g v := members]> (c_of c);
       c_recursive := if (1 <? length vertices) || default false (g_loops g !! v) then {[typeOf g v]} ∪ c_recursive c else c_recursive c |})
    c shapes.

Definition newComponents g : option components :=
  foldl (record_component g) (mkComponents ∅ ∅) <$> run (g_next g).

(** [Index.Recursive] and [Index.Component] on the components built. *)
Definition recursive c id : bool := bool_decide (id ∈ c_recursive c).
Definition component c id : list TypeID := default [] (c_of c !! id).

(** ** What the components say *)

Lemma concat_nodup {A} (ls : list (list A)) (l : list A) : NoDup (concat ls) → l ∈ ls → NoDup l.
Proof.
  intros Hd [i Hi]%list_elem_of_lookup. rewrite <- (take_drop_middle ls i _ Hi), concat_app in Hd. cbn [concat] in Hd.
  apply NoDup_app in Hd as (_ & _ & Hd). by apply NoDup_app in Hd as (Hd & _).
Qed.

Lemma elem_of_shapes vertices v : v ∈ shapes_among vertices ↔ v ∈ vertices ∧ v `mod` 2 = 0.
Proof. unfold shapes_among. rewrite merge_sort_Permutation, list_elem_of_filter. tauto. Qed.

Lemma StronglySorted_lookup_lt {A} (R : A → A → Prop) (l : list A) i j (a b : A) :
  StronglySorted R l → l !! i = Some a → l !! j = Some b → i < j → R a b.
Proof.
  intros Hs. revert i j. induction Hs as [|e l Hs IH He]; intros i j Hi Hj Hlt; [done|].
  destruct j as [|j]; [lia|]. destruct i as [|i]; simplify_eq/=; [|apply (IH i j); [done..|lia]].
  rewrite Forall_forall in He. by apply He, list_elem_of_lookup_2 with j.
Qed.

(** What one component's turn adds. *)
Lemma record_component_spec g c vertices id :
  (id ∈ c_recursive (record_component g c vertices) ↔
   id ∈ c_recursive c ∨ ∃ v, v ∈ vertices ∧ v `mod` 2 = 0 ∧ typeOf g v = id ∧ (1 < length vertices ∨ default false (g_loops g !! v) = true)) ∧
  c_of (record_component g c vertices) !! id =
    if decide (id ∈ typeOf g <$> shapes_among vertices) then Some (typeOf g <$> shapes_among vertices) else c_of c !! id.
Proof.
  unfold record_component. set (members := typeOf g <$> shapes_among vertices).
  assert (H : ∀ l c,
    (id ∈ c_recursive (foldl (λ c v, {| c_of := <[typeOf g v := members]> (c_of c);
       c_recursive := if (1 <? length vertices) || default false (g_loops g !! v) then {[typeOf g v]} ∪ c_recursive c else c_recursive c |}) c l) ↔
     id ∈ c_recursive c ∨ ∃ v, v ∈ l ∧ typeOf g v = id ∧ (1 < length vertices ∨ default false (g_loops g !! v) = true)) ∧
    c_of (foldl (λ c v, {| c_of := <[typeOf g v := members]> (c_of c);
       c_recursive := if (1 <? length vertices) || default false (g_loops g !! v) then {[typeOf g v]} ∪ c_recursive c else c_recursive c |}) c l) !! id =
      if decide (id ∈ typeOf g <$> l) then Some members else c_of c !! id).
  { clear c. induction l as [|v l IH]; intros c; cbn [foldl].
    { split; [split; [by left|]; by intros [?|(v & ?%elem_of_nil & _)]|done]. }
    destruct (IH {| c_of := <[typeOf g v := members]> (c_of c);
       c_recursive := if (1 <? length vertices) || default false (g_loops g !! v) then {[typeOf g v]} ∪ c_recursive c else c_recursive c |}) as [H1 H2].
    split.
    - rewrite H1. cbn [c_recursive]. setoid_rewrite elem_of_cons.
      assert (Hb : (1 <? length vertices) || default false (g_loops g !! v) = true ↔ 1 < length vertices ∨ default false (g_loops g !! v) = true)
        by by rewrite orb_true_iff, Nat.ltb_lt.
      destruct ((1 <? length vertices) || default false (g_loops g !! v)).
      + rewrite elem_of_union, elem_of_singleton. naive_solver.
      + split; [naive_solver|]. intros [?|(u & [->|?] & ? & ?)]; [by left|by assert (false = true) by tauto|right; by exists u].
    - rewrite H2. cbn [c_of]. rewrite fmap_cons. destruct (decide (id ∈ typeOf g <$> l)) as [Hin|Hni].
      + rewrite decide_True by (by right). done.
      + destruct (decide (id = typeOf g v)) as [->|Hne].
        * rewrite lookup_insert_eq, decide_True by (by left). done.
        * rewrite lookup_insert_ne, decide_False; [done| |done]. by intros [?|?]%elem_of_cons. }
  destruct (H (shapes_among vertices) c) as [H1 H2]. split; [|exact H2]. rewrite H1. setoid_rewrite elem_of_shapes. naive_solver.
Qed.

Lemma record_components_spec g (cs : list (list nat)) c id :
  let out := foldl (record_component g) c cs in
  (id ∈ c_recursive out ↔ id ∈ c_recursive c ∨
   ∃ vs v, vs ∈ cs ∧ v ∈ vs ∧ v `mod` 2 = 0 ∧ typeOf g v = id ∧ (1 < length vs ∨ default false (g_loops g !! v) = true)) ∧
  ((∃ vs, vs ∈ cs ∧ id ∈ typeOf g <$> shapes_among vs ∧ c_of out !! id = Some (typeOf g <$> shapes_among vs)) ∨
   (∀ vs, vs ∈ cs → id ∉ typeOf g <$> shapes_among vs) ∧ c_of out !! id = c_of c !! id).
Proof.
  cbv zeta. revert c. induction cs as [|vs cs IH]; intros c; cbn [foldl].
  { split; [split; [by left|]; by intros [?|(v & w & ?%elem_of_nil & _)]|]. right. split; [|done]. by intros vs ?%elem_of_nil. }
  destruct (IH (record_component g c vs)) as [H1 H2]. destruct (record_component_spec g c vs id) as [H3 H4]. split.
  - rewrite H1, H3. setoid_rewrite elem_of_cons. split.
    + intros [[?|(v & ?)]|(vs' & v & ? & ?)]; [by left|right; exists vs, v; tauto|right; exists vs', v; tauto].
    + intros [?|(vs' & v & [->|?] & ?)]; [by left; left|left; right; by exists v|right; by exists vs', v].
  - destruct H2 as [(vs' & ? & ? & ?)|[Hn ->]]; [left; exists vs'; split; [by right|done]|].
    rewrite H4. destruct (decide (id ∈ typeOf g <$> shapes_among vs)) as [Hin|Hni]; [left; exists vs; split; [by left|done]|].
    right. split; [|done]. intros vs' [->|?]%elem_of_cons; [done|by apply Hn].
Qed.

(** Two types whose shapes hold each other, at any depth. *)
Definition hold_each_other types x y : Prop := rtc (holds types) (Shape x) (Shape y) ∧ rtc (holds types) (Shape y) (Shape x).

Record components_spec types c : Prop := {
  components_recursive id : id ∈ c_recursive c ↔ tc (holds types) (Shape id) (Shape id);
  components_declared id : c_of c !! id = None ↔ id ∉ dom types;
  components_sorted id ms : c_of c !! id = Some ms → StronglySorted string_le ms ∧ NoDup ms;
  components_members id ms y : c_of c !! id = Some ms → y ∈ ms ↔ y ∈ dom types ∧ hold_each_other types id y
}.

Section Condensing.
Context (types : TypeRegistry) (h : hierarchy) (Hh : hierarchy_spec types h).
#[local] Abbreviation g := (newTypeGraph types h).
#[local] Abbreviation ids := (sorted_keys types).

Lemma graph_edges v w : edge (g_next g) v w ↔ ∃ a b, named_node types a v ∧ named_node types b w ∧ holds types a b.
Proof. apply (graph_edge _ _ _ _ (newTypeGraph_graph types h Hh)). Qed.

Lemma named_node_inj a b v : named_node types a v → named_node types b v → a = b.
Proof. destruct a, b; intros (i & Hi & ->) (j & Hj & E); try lia; assert (i = j) as -> by lia; congruence. Qed.

Lemma named_node_fun a v w : named_node types a v → named_node types a w → v = w.
Proof. destruct a; intros (i & Hi & ->) (j & Hj & ->); assert (i = j) as -> by (eapply NoDup_lookup; [apply (sorted_keys_nodup types)|done..]); done. Qed.

Lemma holds_named a b : holds types a b → ∃ v, named_node types a v.
Proof.
  intros H. destruct H as [id ? Hd|id ? Hd|id Hd|id Hd|id Hd|id ? Hd]; apply (declared_index types) in Hd as [i Hi]; eexists; by exists i.
Qed.

Lemma graph_size : length (g_next g) = 2 * length ids.
Proof. apply (graph_sizes _ _ _ _ (newTypeGraph_graph types h Hh)). Qed.

Lemma named_node_lt a v : named_node types a v → v < length (g_next g).
Proof. rewrite graph_size. destruct a; intros (i & Hi%lookup_lt_Some & ->); lia. Qed.

Lemma graph_well_formed : well_formed (g_next g).
Proof. intros v w (a & b & _ & Hb & _)%graph_edges. by apply (named_node_lt b). Qed.

Lemma graph_type id i : ids !! i = Some id → typeOf g (2 * i) = id.
Proof.
  intros Hi. unfold typeOf. rewrite (graph_ids _ _ _ _ (newTypeGraph_graph types h Hh)), (Nat.mul_comm 2 i), Nat.div_mul by lia. by rewrite Hi.
Qed.

(** A shape's vertex, and the type it belongs to. *)
Lemma shape_vertex v id : v < length (g_next g) → (v `mod` 2 = 0 ∧ typeOf g v = id ↔ named_node types (Shape id) v).
Proof.
  rewrite graph_size. intros Hlt. split.
  - intros [Hm <-]. pose proof (Nat.div_mod_eq v 2) as Ev. destruct (lookup_lt_is_Some_2 ids (v / 2)) as [id Hid]; [lia|].
    exists (v / 2). split; [|lia]. rewrite Ev at 2. rewrite Hm, Nat.add_0_r. by rewrite (graph_type id).
  - intros (i & Hi & ->). split; [|by apply graph_type]. rewrite Nat.mul_comm. by apply Nat.Div0.mod_mul.
Qed.

Lemma graph_reach a b v w : named_node types a v → named_node types b w → reach (g_next g) v w ↔ rtc (holds types) a b.
Proof.
  intros Ha Hb. apply (named_reach _ _ _ graph_edges named_node_inj holds_named a b v w); [done..|]. intros u u'. apply named_node_fun.
Qed.

(** A vertex lies on a cycle when its component has another, or it loops. *)
Lemma on_cycle (cs : list (list nat)) (vs : list nat) a v :
  run (g_next g) = Some cs → vs ∈ cs → v ∈ vs → named_node types a v →
  (1 < length vs ∨ default false (g_loops g !! v) = true) ↔ tc (holds types) a a.
Proof.
  intros E Hvs Hv Ha. destruct (run_sound (g_next g) graph_well_formed) as (cs' & E' & Ho & _).
  rewrite E in E'. injection E' as <-. pose proof (out_class _ _ Ho vs v) as Hc.
  assert (Hloop : default false (g_loops g !! v) = true ↔ edge (g_next g) v v).
  { rewrite graph_edges. apply (graph_loop _ _ _ _ (newTypeGraph_graph types h Hh)). }
  rewrite Hloop, <- (named_tc _ _ _ graph_edges named_node_inj holds_named a a v v) by done.
  split.
  - intros [Hl|He]; [|by apply tc_once]. destruct vs as [|x [|y vs]]; simpl in Hl; [lia..|].
    assert (Hnd : NoDup (x :: y :: vs)) by (apply (concat_nodup cs); [apply Ho|done]).
    assert (∃ u, u ∈ x :: y :: vs ∧ u ≠ v) as (u & Hu & Hne).
    { destruct (decide (x = v)) as [->|]; [|exists x; split; [by left|done]]. exists y. split; [by right; left|].
      intros ->. apply NoDup_cons in Hnd as [Hn _]. by apply Hn; left. }
    apply (Hc u Hvs Hv) in Hu as [[->|Hvu]%rtc_tc Huv]; [done|]. by eapply tc_rtc_r.
  - intros Ht. inversion Ht as [? ? He|? u ? He Hr]; subst; [by right|]. destruct (decide (u = v)) as [->|Hne]; [by right|]. left.
    assert (Hu : u ∈ vs) by (apply (Hc u Hvs Hv); split; [by apply rtc_once|by apply tc_rtc]).
    destruct vs as [|x [|y vs]]; [by apply elem_of_nil in Hv| |simpl; lia].
    apply list_elem_of_singleton in Hv, Hu. by subst.
Qed.

(** The types a component's shapes belong to. *)
Lemma elem_of_members (cs : list (list nat)) (vs : list nat) id :
  run (g_next g) = Some cs → vs ∈ cs → id ∈ typeOf g <$> shapes_among vs ↔ ∃ v, v ∈ vs ∧ named_node types (Shape id) v.
Proof.
  intros E Hvs. destruct (run_sound (g_next g) graph_well_formed) as (cs' & E' & _ & Hall).
  rewrite E in E'. injection E' as <-.
  assert (Hlt : ∀ v, v ∈ vs → v < length (g_next g)) by (intros v Hv; apply Hall, elem_of_concat; by exists vs).
  rewrite list_elem_of_fmap. setoid_rewrite elem_of_shapes. split.
  - intros (v & -> & Hv & Hm). exists v. split; [done|]. by apply shape_vertex; [apply Hlt|].
  - intros (v & Hv & Hn). exists v. apply shape_vertex in Hn as [Hm <-]; [done|by apply Hlt].
Qed.

Lemma members_sorted (vs : list nat) : (∀ v, v ∈ vs → v < length (g_next g)) → NoDup vs →
  StronglySorted string_le (typeOf g <$> shapes_among vs) ∧ NoDup (typeOf g <$> shapes_among vs).
Proof.
  intros Hlt Hnd. assert (Hs : StronglySorted (≤) (shapes_among vs)) by (apply StronglySorted_merge_sort; apply _).
  assert (Hn : NoDup (shapes_among vs)) by (unfold shapes_among; rewrite merge_sort_Permutation; by apply NoDup_filter).
  assert (Hin : ∀ v, v ∈ shapes_among vs → ∃ i, v = 2 * i ∧ ids !! i = Some (typeOf g v)).
  { intros v [Hv Hm]%elem_of_shapes. apply Hlt in Hv as Hlv. destruct (proj1 (shape_vertex v (typeOf g v) Hlv)) as (i & Hi & ->); [done|]. by exists i. }
  assert (Hid : StronglySorted string_le ids) by (apply StronglySorted_merge_sort; apply _).
  revert Hin. induction Hs as [|v l Hs IH Hle]; intros Hin; [split; constructor|]. apply NoDup_cons in Hn as [Hni Hn].
  destruct IH as [IH1 IH2]; [done|intros w Hw; apply Hin; by right|]. rewrite fmap_cons.
  destruct (Hin v) as (i & -> & Hi); [by left|]. split; constructor; try done.
  - apply Forall_forall. intros id (w & -> & Hw)%list_elem_of_fmap. destruct (Hin w) as (j & -> & Hj); [by right|].
    rewrite Forall_forall in Hle. specialize (Hle _ Hw). destruct (decide (i = j)) as [->|Hne]; [by destruct (total string_le (typeOf g (2 * j)) (typeOf g (2 * j)))|].
    eapply (StronglySorted_lookup_lt string_le); [exact Hid|exact Hi|exact Hj|lia].
  - intros (w & Ew & Hw)%list_elem_of_fmap. destruct (Hin w) as (j & -> & Hj); [by right|]. apply Hni.
    rewrite <- Ew in Hj. assert (i = j) as -> by (eapply NoDup_lookup; [apply (sorted_keys_nodup types)|done..]). done.
Qed.

Lemma newComponents_spec : ∃ c, newComponents g = Some c ∧ components_spec types c.
Proof.
  destruct (run_sound (g_next g) graph_well_formed) as (cs & E & Ho & Hall). unfold newComponents. rewrite E. eexists. split; [done|].
  assert (Hdec : ∀ id, id ∈ dom types ↔ ∃ vs, vs ∈ cs ∧ id ∈ typeOf g <$> shapes_among vs).
  { intros id. rewrite (declared_index types). split.
    - intros [i Hi]. assert (Hv : 2 * i ∈ concat cs) by (apply Hall, (named_node_lt (Shape id)); by exists i).
      apply elem_of_concat in Hv as (vs & Hv & Hvs). exists vs. split; [done|]. apply (elem_of_members cs); [done..|]. exists (2 * i). split; [done|by exists i].
    - intros (vs & Hvs & (v & _ & i & Hi & _)%(elem_of_members cs)); [|done..]. by exists i. }
  assert (Hof : ∀ id ms, c_of (foldl (record_component g) (mkComponents ∅ ∅) cs) !! id = Some ms →
    ∃ vs, vs ∈ cs ∧ id ∈ typeOf g <$> shapes_among vs ∧ ms = typeOf g <$> shapes_among vs).
  { intros id ms Hms. destruct (record_components_spec g cs (mkComponents ∅ ∅) id) as [_ [(vs & ? & ? & Ev)|[_ Ev]]]; rewrite Ev in Hms.
    - injection Hms as <-. by exists vs.
    - cbn [c_of] in Hms. by rewrite lookup_empty in Hms. }
  constructor.
  - intros id. destruct (record_components_spec g cs (mkComponents ∅ ∅) id) as [-> _]. split.
    + intros [?%elem_of_empty|(vs & v & Hvs & Hv & Hm & Et & Hc)]; [done|].
      apply (on_cycle cs vs (Shape id) v); [done..| |done]. apply shape_vertex; [|done]. apply Hall, elem_of_concat. by exists vs.
    + intros Ht. right. assert (Hd : ∃ v, named_node types (Shape id) v) by (by inversion Ht; subst; eapply holds_named).
      destruct Hd as [v Hn]. assert (Hv : v ∈ concat cs) by (by apply Hall, (named_node_lt (Shape id))).
      apply elem_of_concat in Hv as (vs & Hv & Hvs). exists vs, v. apply (on_cycle cs vs (Shape id) v) in Ht; [|done..].
      apply shape_vertex in Hn as [? ?]; [done|]. apply Hall, elem_of_concat. by exists vs.
  - intros id. destruct (record_components_spec g cs (mkComponents ∅ ∅) id) as [_ [(vs & ? & ? & Ev)|[Hn Ev]]]; rewrite Ev.
    + split; [done|]. intros Hni. exfalso. apply Hni, Hdec. by exists vs.
    + cbn [c_of]. rewrite lookup_empty. split; [|done]. intros _ (vs & ? & ?)%Hdec. by apply (Hn vs).
  - intros id ms (vs & Hvs & _ & ->)%Hof. apply members_sorted.
    + intros v Hv. apply Hall, elem_of_concat. by exists vs.
    + apply (concat_nodup cs); [apply Ho|done].
  - intros id ms y (vs & Hvs & Hid & ->)%Hof. apply (elem_of_members cs) in Hid as (v & Hv & Hn); [|done..]. rewrite (elem_of_members cs) by done. split.
    + intros (w & Hw & Hnw). split; [apply (declared_index types); destruct Hnw as (j & ? & _); by exists j|].
      destruct (proj1 (out_class _ _ Ho vs v w Hvs Hv) Hw) as [H1 H2]. split; [by apply (graph_reach _ _ v w)|by apply (graph_reach _ _ w v)].
    + intros [[j Hj]%(declared_index types) [H1 H2]]. exists (2 * j). assert (Hnj : named_node types (Shape y) (2 * j)) by by exists j.
      split; [|done]. apply (out_class _ _ Ho vs v _ Hvs Hv). split; [by apply (graph_reach (Shape id) (Shape y))|by apply (graph_reach (Shape y) (Shape id))].
Qed.
End Condensing.
