(* ===== verification/Traverse.v ===== *)
(** * Traverse: every operation of a document, in order
    ([src/ir/traverse.go])

    A callback is a function of the state it writes. A group slice cannot
    contain itself here, as one built in Go may, so the guard that stops such a
    walk has nothing to model. *)
From S2P Require Import Prelude GoLib Decimal IR.
Implicit Types (grp : OperationGroup) (gs : list OperationGroup) (depth : nat).

Definition MaxGroupDepth : nat := 128.

Section Visiting.
Context {St : Type} (fn : OperationGroup → St → St).

(** What [forEachGroup] does at one group of level [depth]: the call, then the
    groups it nests. *)
Fixpoint visit_group grp depth (st : St) {struct grp} : St * bool :=
  let each := fix each gs (st : St) : St * bool :=
    match gs with
    | [] => (st, false)
    | g :: gs => let '(st, truncated) := visit_group g (S depth) st in
                 let '(st, rest) := each gs st in (st, truncated || rest)
    end in
  let st := fn grp st in
  match OperationGroup_Groups grp with
  | [] => (st, false)
  | gs => if MaxGroupDepth <? S depth then (st, true) else each gs st
  end.

Fixpoint visit_groups gs depth (st : St) : St * bool :=
  match gs with
  | [] => (st, false)
  | g :: gs => let '(st, truncated) := visit_group g depth st in
               let '(st, rest) := visit_groups gs depth st in (st, truncated || rest)
  end.

Definition forEachGroup gs depth (st : St) : St * bool :=
  match gs with
  | [] => (st, false)
  | _ => if MaxGroupDepth <? depth then (st, true) else visit_groups gs depth st
  end.

Definition ForEachGroup (doc : option Document) (st : St) : St * bool :=
  match doc with
  | None => (st, false)
  | Some d => foldl (λ '(st, truncated) svc, let '(st, more) := forEachGroup (Service_Groups svc) 0 st in (st, truncated || more))
                (st, false) (Document_Services d)
  end.
End Visiting.

Definition ForEachOperation {St} (fn : Operation → St → St) (doc : option Document) (st : St) : St * bool :=
  ForEachGroup (λ g st, foldl (λ st op, fn op st) st (OperationGroup_Operations g)) doc st.

(** ** The groups a walk meets *)

(** [group_at gs depth n grp]: [grp] lies below the slice [gs] of level
    [depth], at level [n]. *)
Inductive group_at : list OperationGroup → nat → nat → OperationGroup → Prop :=
  | group_here gs depth grp : grp ∈ gs → group_at gs depth depth grp
  | group_below gs depth grp n below : grp ∈ gs → group_at (OperationGroup_Groups grp) (S depth) n below → group_at gs depth n below.

Lemma visit_groups_fold {St} (fn : OperationGroup → St → St) grp depth st :
  visit_group fn grp depth st = forEachGroup fn (OperationGroup_Groups grp) (S depth) (fn grp st).
Proof.
  destruct grp as [a b c gs d e f h i]. cbn [visit_group OperationGroup_Groups]. unfold forEachGroup. destruct gs as [|g0 gs0]; [done|].
  destruct (MaxGroupDepth <? S depth); [done|]. cbn [visit_groups].
  destruct (visit_group fn g0 (S depth) _) as [st0 t0].
  assert (H : ∀ st, (fix each (gs : list OperationGroup) (st : St) : St * bool :=
      match gs with
      | [] => (st, false)
      | g :: gs => let '(st, truncated) := visit_group fn g (S depth) st in
                   let '(st, rest) := each gs st in (st, truncated || rest)
      end) gs0 st = visit_groups fn gs0 (S depth) st); [|by rewrite H].
  clear. induction gs0 as [|g gs IH]; intros st; [done|]. cbn [visit_groups].
  destruct (visit_group fn g (S depth) st) as [st1 t]. by rewrite IH.
Qed.

(** A walk over a tree of groups is an induction over the slices it enters. *)
Section Walk.
Context {St : Type} (fn : OperationGroup → St → St) (P : list OperationGroup → nat → St → St * bool → Prop).
Context (Pnil : ∀ depth st, P [] depth st (st, false))
  (Pcut : ∀ gs depth st, gs ≠ [] → MaxGroupDepth < depth → P gs depth st (st, true))
  (Pcons : ∀ grp gs depth st st1 t st2 t2, depth ≤ MaxGroupDepth →
     P (OperationGroup_Groups grp) (S depth) (fn grp st) (st1, t) → P gs depth st1 (st2, t2) → P (grp :: gs) depth st (st2, t || t2)).

Lemma forEachGroup_ind gs depth st : P gs depth st (forEachGroup fn gs depth st).
Proof.
  assert (H : ∀ n gs depth st, MaxGroupDepth + 2 - depth ≤ n → P gs depth st (forEachGroup fn gs depth st)).
  { intros n. induction n as [|n IHn]; intros gs' d s Hn; destruct gs' as [|g gs']; try apply Pnil; unfold forEachGroup; destruct (Nat.ltb_spec MaxGroupDepth d); try lia.
    - by apply Pcut.
    - by apply Pcut.
    - generalize (g :: gs'). intros l. clear g gs'. revert s. induction l as [|g l IH]; intros s; [apply Pnil|]. cbn [visit_groups].
      rewrite visit_groups_fold. pose proof (IHn (OperationGroup_Groups g) (S d) (fn g s) ltac:(lia)) as H1.
      destruct (forEachGroup fn (OperationGroup_Groups g) (S d) (fn g s)) as [st1 t]. specialize (IH st1).
      destruct (visit_groups fn l d st1) as [st2 t2]. by eapply Pcons. }
  by eapply H.
Qed.
End Walk.

(** What a walk collects when each call adds to what is there. *)
Lemma forEachGroup_collect {A} (items : OperationGroup → list A) gs depth (acc : list A) x :
  x ∈ (forEachGroup (λ g st, st ++ items g) gs depth acc).1 ↔ x ∈ acc ∨ ∃ n g, group_at gs depth n g ∧ n ≤ MaxGroupDepth ∧ x ∈ items g.
Proof.
  apply (forEachGroup_ind (λ g st, st ++ items g)
    (λ gs depth st r, x ∈ r.1 ↔ x ∈ st ∨ ∃ n g, group_at gs depth n g ∧ n ≤ MaxGroupDepth ∧ x ∈ items g)); cbn [fst].
  - intros d st. split; [by left|]. intros [?|(n & g & Hg & _)]; [done|]. inversion Hg; subst; by match goal with H : _ ∈ [] |- _ => apply elem_of_nil in H end.
  - intros gs' d st _ Hd. split; [by left|]. intros [?|(n & g & Hg & Hn & _)]; [done|]. exfalso. assert (d ≤ n); [|lia].
    clear -Hg. induction Hg; lia.
  - intros g gs' d st st1 t st2 t2 Hd H1 H2. rewrite H2, H1, elem_of_app. split.
    + intros [[[?|?]|(n & g' & ? & ? & ?)]|(n & g' & Hg & ? & ?)]; [by left|right; exists d, g; split_and!; [constructor; by left|done|done]| |].
      * right. exists n, g'. split_and!; [|done|done]. apply (group_below _ _ g); [by left|done].
      * right. exists n, g'. split_and!; [|done|done]. inversion Hg; subst; [constructor; by right|]. eapply group_below; [by right|done].
    + intros [?|(n & g' & Hg & ? & ?)]; [by left; left; left|]. inversion Hg as [? ? ? Hin|? ? g1 ? ? Hin Hb]; subst; apply elem_of_cons in Hin as [->|Hin].
      * by left; left; right.
      * right. exists n, g'. split_and!; [by constructor|done|done].
      * left. right. by exists n, g'.
      * right. exists n, g'. split_and!; [by eapply group_below|done|done].
Qed.
