(* ===== verification/Usage.v ===== *)
(** * Usage: how each type is used across the API surface
    ([src/ir/irfacts/usage.go])

    The places of a document that name a type are its roots. Their flags spread
    along the type graph by a worklist, whose result is held to a relation over
    shapes and ranges. The order the runtime ranges over a map in is a
    parameter, [range]. *)
From S2P Require Import Prelude GoLib Utf8 Decimal IR Search Composition Naming Traverse Tarjan Alias Hierarchy TypeGraph Components.
Implicit Types (id x y : TypeID) (types : TypeRegistry) (g : typeGraph) (flags : N).

(** ** The flags *)

Definition UsageInput : N := 1.
Definition UsageOutput : N := 2.
Definition UsageError : N := 4.
Definition UsageMultipart : N := 8.
Definition spreadingUsage : N := N.lor (N.lor UsageInput UsageOutput) UsageError.
Definition multipartPrefix : gostring := go "multipart/".

(** ** The roots *)

Abbreviation usageRoots := (gmap gostring N) (only parsing).

Definition usage_at (usage : usageRoots) id : N := default 0%N (usage !! id).

Section Roots.
Context `{Unicode} (range : ∀ A : Type, gmap gostring A → list (gostring * A)).
Implicit Types (r : usageRoots).

(** [strings.ToLower] *)
Definition string_lower (text : gostring) : gostring := concat (EncodeRune <$> (ToLower <$> runes text)).

Definition ref (target : option TypeRef) flags r : usageRoots :=
  match target with
  | Some t => if is_empty (TypeRef_Target t) then r else <[TypeRef_Target t := N.lor (usage_at r (TypeRef_Target t)) flags]> r
  | None => r
  end.

Definition headers (hs : list Header) flags r : usageRoots :=
  foldl (λ r h, let r := ref (Some (Property_Type (Header_Property h))) flags r in
                match Property_Encoding (Header_Property h) with Some e => ref (Encoding_Schema e) flags r | None => r end) r hs.

Definition params (ps : list Parameter_) flags r : usageRoots :=
  foldl (λ r p, ref (Some (Parameter_Type p)) flags r) r ps.

Definition content (c : Content) flags r : usageRoots :=
  let r := ref (Some (Content_Type c)) flags r in
  let r := if bool_decide (multipartPrefix `prefix_of` string_lower (Content_MediaType c)) then ref (Some (Content_Type c)) UsageMultipart r else r in
  let r := ref (Content_Item c) flags r in
  let r := match Content_File c with Some f => ref (FileInfo_Contents f) flags r | None => r end in
  let r := match Content_ItemEncoding c with Some e => headers (PartEncoding_Headers e) flags r | None => r end in
  foldl (λ r part, headers (PartEncoding_Headers part.2) flags r) r (range _ (Content_Encoding c)).

Definition payload (p : option Payload) flags r : usageRoots :=
  match p with None => r | Some p => foldl (λ r c, content c flags r) r (Payload_Contents p) end.

Definition stream (st : option StreamDetail) flags r : usageRoots :=
  match st with None => r | Some st => ref (StreamDetail_Initial st) flags (ref (StreamDetail_Events st) flags r) end.

Definition errorCase (e : ErrorCase) (side : N) r : usageRoots :=
  let r := payload (ErrorCase_Payload e) (N.lor side UsageError) r in headers (ErrorCase_Headers e) (N.lor side UsageError) r.

Definition message (doc : Document) (id : MessageID) flags r : usageRoots :=
  match Document_Messages doc !! id with
  | None => r
  | Some m => ref (Message_Headers m) flags (payload (Some (Message_Payload m)) flags r)
  end.

(** The sides a binding's own messages and its reply's travel on. *)
Definition message_sides (direction : MsgDirection) : N * N :=
  if decide (direction = MsgDirectionSend) then (UsageInput, UsageOutput)
  else if decide (direction = MsgDirectionReceive) then (UsageOutput, UsageInput)
  else (N.lor UsageInput UsageOutput, N.lor UsageInput UsageOutput).

Definition messages (doc : Document) (b : option MessageBinding) r : usageRoots :=
  match b with
  | None => r
  | Some b =>
      let '(own, reply) := message_sides (MessageBinding_Direction b) in
      let r := foldl (λ r id, message doc id own r) r (MessageBinding_Messages b) in
      match MessageBinding_Reply b with
      | None => r
      | Some rep => foldl (λ r id, message doc id reply r) r (Reply_Messages rep)
      end
  end.

(** The sides a request and a response travel on: they swap when the API
    starts the operation. *)
Definition op_sides (inbound : bool) : N * N := if inbound then (UsageOutput, UsageInput) else (UsageInput, UsageOutput).

Definition operation (doc : Document) (op : Operation) (inbound : bool) r : usageRoots :=
  let '(request, response) := op_sides inbound in
  let r := params (Operation_Params op) request r in
  let r := payload (Operation_Request op) request r in
  let r := stream (Operation_RequestStream op) request r in
  let r := match OpBindings_RPC (Operation_Bindings op) with Some rpc => ref (RPCBinding_InputType rpc) request r | None => r end in
  let r := foldl (λ r resp, headers (Response_Headers resp) response (payload (Response_Payload resp) response r)) r (Operation_Responses op) in
  let r := match Operation_Default op with
           | Some def => headers (Response_Headers def) response (payload (Response_Payload def) response r)
           | None => r
           end in
  let r := stream (Operation_ResponseStream op) response r in
  let r := match Operation_LongRunning op with
           | Some lro => ref (LongRunning_FinalType lro) response (ref (LongRunning_PollingType lro) response r)
           | None => r
           end in
  let r := foldl (λ r e, errorCase e response r) r (Operation_Errors op) in
  messages doc (OpBindings_Message (Operation_Bindings op)) r.

Definition isWebhook (op : Operation) : bool := existsb HTTPBinding_IsWebhook (OpBindings_HTTP (Operation_Bindings op)).

Definition callbackOperations (doc : Document) : gset OpID :=
  (ForEachOperation (λ op callbacks,
    foldl (λ cbs b, foldl (λ cbs cb, foldl (λ cbs id, {[id]} ∪ cbs) cbs (Callback_Operations cb)) cbs (HTTPBinding_Callbacks b))
      callbacks (OpBindings_HTTP (Operation_Bindings op))) (Some doc) ∅).1.

(** [usageRoots.document] *)
Definition document (doc : option Document) r : usageRoots :=
  match doc with
  | None => r
  | Some d =>
      let callbacks := callbackOperations d in
      let r := (ForEachOperation (λ op r, operation d op (bool_decide (Operation_ID op ∈ callbacks) || isWebhook op) r) doc r).1 in
      let r := foldl (λ r svc, foldl (λ r e, errorCase e UsageOutput r) r (Service_CommonErrors svc)) r (Document_Services d) in
      let r := foldl (λ r ch, params (Channel_Params ch.2) UsageInput r) r (range _ (Document_Channels d)) in
      foldl (λ r scheme, ref (AuthScheme_Credentials scheme.2) UsageInput r) r (range _ (Document_Auth d))
  end.
End Roots.

(** ** Spreading *)

(** One turn of [newUsage]'s loop, on the step popped from the end. *)
Definition usage_turn g (v : nat) flags (pending : list (nat * N)) (reached : list N) : list (nat * N) * list N :=
  let fresh := N.ldiff flags (default 0%N (reached !! v)) in
  if (fresh =? 0)%N then (pending, reached)
  else (pending ++ ((λ w, (w, fresh)) <$> outgoing (g_next g) v) ++ ((λ w, (w, UsageInput)) <$> outgoing (g_args g) v),
        alter (λ r, N.lor r fresh) v reached).

Fixpoint usage_loop (fuel : nat) g (pending : list (nat * N)) (reached : list N) : option (list N) :=
  match fuel with
  | O => None
  | S fuel =>
      match last pending with
      | None => Some reached
      | Some (v, flags) =>
          let '(pending, reached) := usage_turn g v flags (removelast pending) reached in usage_loop fuel g pending reached
      end
  end.

(** A vertex is expanded at most once per flag. *)
Definition usage_fuel g (pending : list (nat * N)) : nat :=
  S (length pending + 7 * (edges (g_next g) + edges (g_args g))).

Fixpoint markMultipart (fuel : nat) types id (usage : usageRoots) : option usageRoots :=
  match fuel with
  | O => None
  | S fuel =>
      if decide (types !! id = None ∨ N.testbit (usage_at usage id) 3 = true) then Some usage
      else
        let usage := <[id := N.lor (usage_at usage id) UsageMultipart]> usage in
        match AliasBase types id with
        | None => Some usage
        | Some base => markMultipart fuel types base usage
        end
  end.

Section Deriving.
Context `{Unicode} (range : ∀ A : Type, gmap gostring A → list (gostring * A)).

(** The steps the worklist starts from. *)
Definition pending_roots g (roots : usageRoots) : list (nat * N) :=
  omap (λ '(id, flags), match reference g id with
                         | Some v => if (N.land flags spreadingUsage =? 0)%N then None else Some (v, N.land flags spreadingUsage)
                         | None => None
                         end) (range _ roots).

(** The flags of a type: those its shape and its range were reached with. *)
Definition type_usage g (reached : list N) : usageRoots :=
  foldl (λ usage '(v, flags), if (flags =? 0)%N then usage else <[typeOf g v := N.lor (usage_at usage (typeOf g v)) flags]> usage)
    ∅ (zip (seq 0 (length reached)) reached).

Definition mark_roots types (roots : list (gostring * N)) (usage : usageRoots) : option usageRoots :=
  foldl (λ usage '(id, flags), usage ← usage; if N.testbit flags 3 then markMultipart (2 + size types) types id usage else Some usage)
    (Some usage) roots.

Definition newUsage (doc : option Document) g : option usageRoots :=
  let roots := document range doc ∅ in
  let pending := pending_roots g roots in
  reached ← usage_loop (usage_fuel g pending) g pending (replicate (length (g_next g)) 0%N);
  mark_roots (doc_types doc) (range _ roots) (type_usage g reached).
End Deriving.

(** ** How far the flags spread *)

(** Flag [b] reaches a node: a root names it, a node it holds was reached, or
    it is a field argument of a node that was, which a client writes. *)
Inductive used types (roots : usageRoots) : N → node → Prop :=
  | used_root id b : (b < 3)%N → N.testbit (usage_at roots id) b = true → referable types id → used types roots b (value_of types id)
  | used_held a n b : used types roots b a → holds types a n → used types roots b n
  | used_arg a n b : used types roots b a → takes types a n → used types roots 0 n.

(** A multipart body's own type, and those its alias scalars stand for. *)
Definition multipart types (roots : usageRoots) id : Prop :=
  id ∈ dom types ∧ ∃ root, N.testbit (usage_at roots root) 3 = true ∧ rtc (λ x y, AliasBase types x = Some y) root id.

Implicit Types (f : N).

Lemma small_bits f : (f < 8)%N ↔ ∀ b, (3 <= b)%N → N.testbit f b = false.
Proof.
  split.
  - intros Hf b Hb. destruct (decide (f = 0)%N) as [->|Hne]; [apply N.bits_0|]. apply N.bits_above_log2.
    apply N.log2_lt_pow2; [lia|]. assert (2 ^ 3 <= 2 ^ b)%N by (apply N.pow_le_mono_r; lia). change (2 ^ 3)%N with 8%N in *. lia.
  - intros Hb. destruct (decide (f = 0)%N) as [->|Hne]; [lia|]. destruct (N.lt_ge_cases f 8) as [|Hge]; [done|].
    assert (3 <= N.log2 f)%N by (apply N.log2_le_pow2; [lia|]; change (2 ^ 3)%N with 8%N; lia).
    pose proof (N.bit_log2 f Hne) as Hbit. rewrite Hb in Hbit by done. done.
Qed.

Lemma fresh_grows f r : (f < 8)%N → (r < 8)%N → N.ldiff f r ≠ 0%N → (r < N.lor r (N.ldiff f r) < 8)%N.
Proof.
  intros Hf Hr Hne. split.
  - assert (E : N.lor r (N.ldiff f r) = (r + N.ldiff f r)%N).
    { rewrite N.add_nocarry_lxor; [rewrite N.lxor_lor; [done|]|]; apply N.bits_inj; intros b; rewrite N.land_spec, N.ldiff_spec, N.bits_0;
        by destruct (N.testbit r b), (N.testbit f b). }
    rewrite E. lia.
  - apply small_bits. intros b Hb. rewrite N.lor_spec, N.ldiff_spec, (proj1 (small_bits f)), (proj1 (small_bits r)) by done. done.
Qed.

Definition at_ (reached : list N) (v : nat) : N := default 0%N (reached !! v).

Lemma at_alter (reached : list N) (h : N → N) (v w : nat) : v < length reached → at_ (alter h v reached) w = if decide (w = v) then h (at_ reached v) else at_ reached w.
Proof.
  intros Hlt. unfold at_. destruct (decide (w = v)) as [->|Hne]; [|by rewrite list_lookup_alter_ne].
  rewrite list_lookup_alter_eq. by destruct (lookup_lt_is_Some_2 reached v Hlt) as [r ->].
Qed.

Section Spreading.
Context (g : typeGraph) (start : list (nat * N)).
#[local] Abbreviation n := (length (g_next g)).
Context (Hnext : ∀ v w, edge (g_next g) v w → w < n) (Hargs : ∀ v w, edge (g_args g) v w → w < n)
        (Hsame : length (g_args g) = n) (Hstart : ∀ v f, (v, f) ∈ start → v < n ∧ (f < 8)%N).
Implicit Types (v w : nat) (b : N) (pending : list (nat * N)) (reached : list N).

Inductive spread : N → nat → Prop :=
  | spread_start v f b : (v, f) ∈ start → N.testbit f b = true → spread b v
  | spread_next v w b : spread b v → edge (g_next g) v w → spread b w
  | spread_arg v w b : spread b v → edge (g_args g) v w → spread 0 w.

(** Where a flag is on record: reached, or waiting. *)
Definition on_record pending reached b v : Prop :=
  N.testbit (at_ reached v) b = true ∨ ∃ f, (v, f) ∈ pending ∧ N.testbit f b = true.

Record spreading pending reached : Prop := {
  sp_len : length reached = n;
  sp_small v : (at_ reached v < 8)%N;
  sp_pending v f : (v, f) ∈ pending → v < n ∧ (f < 8)%N;
  sp_sound b v : on_record pending reached b v → spread b v;
  sp_start v f b : (v, f) ∈ start → N.testbit f b = true → on_record pending reached b v;
  sp_next v w b : N.testbit (at_ reached v) b = true → edge (g_next g) v w → on_record pending reached b w;
  sp_arg v w b : N.testbit (at_ reached v) b = true → edge (g_args g) v w → on_record pending reached 0 w
}.

(** What the worklist may still add: each vertex's edges, for each flag it has
    not been reached with. *)
Definition degree v : nat := length (outgoing (g_next g) v) + length (outgoing (g_args g) v).
Definition potential pending reached : nat :=
  length pending + sum_list_with (λ v, (7 - N.to_nat (at_ reached v)) * degree v) (seq 0 n).

(** The step popped adds nothing new. *)
Lemma turn_idle rest v f reached : N.ldiff f (at_ reached v) = 0%N →
  spreading (rest ++ [(v, f)]) reached → spreading rest reached.
Proof.
  intros E Hs. assert (Hf : ∀ b, N.testbit f b = true → N.testbit (at_ reached v) b = true).
  { intros b Hb. pose proof (N.bits_0 b) as Hz. rewrite <- E, N.ldiff_spec, Hb in Hz. by destruct (N.testbit (at_ reached v) b). }
  assert (Hrec : ∀ b w, on_record (rest ++ [(v, f)]) reached b w → on_record rest reached b w).
  { intros b w [?|(f' & [?|[= -> ->]%list_elem_of_singleton]%elem_of_app & ?)]; [by left|right; by exists f'|left; by apply Hf]. }
  destruct Hs as [H1 H2 H3 H4 H5 H6 H7]. constructor; [done|done| | |eauto..].
  - intros w f' Hw. apply H3, elem_of_app. by left.
  - intros b w [?|(f' & ? & ?)]; apply H4; [by left|right]. exists f'. split; [apply elem_of_app; by left|done].
Qed.

(** The step popped reaches its vertex with flags it had not. *)
Lemma turn_fresh rest v f reached (fresh := N.ldiff f (at_ reached v)) : fresh ≠ 0%N →
  spreading (rest ++ [(v, f)]) reached →
  spreading (rest ++ ((λ w, (w, fresh)) <$> outgoing (g_next g) v) ++ ((λ w, (w, UsageInput)) <$> outgoing (g_args g) v))
    (alter (λ r, N.lor r fresh) v reached).
Proof.
  intros Hne Hs. destruct (sp_pending _ _ Hs v f) as [Hv Hf]; [apply elem_of_app; right; by left|].
  pose proof (fresh_grows f (at_ reached v) Hf (sp_small _ _ Hs v) Hne) as Hgrow. fold fresh in Hgrow.
  assert (Hlen : v < length reached) by by rewrite (sp_len _ _ Hs).
  set (out := ((λ w, (w, fresh)) <$> outgoing (g_next g) v) ++ ((λ w, (w, UsageInput)) <$> outgoing (g_args g) v)).
  set (reached' := alter (λ r, N.lor r fresh) v reached).
  assert (Hat : ∀ w, at_ reached' w = if decide (w = v) then N.lor (at_ reached v) fresh else at_ reached w) by (intros w; by apply at_alter).
  assert (Hout : ∀ w f', (w, f') ∈ out ↔ (edge (g_next g) v w ∧ f' = fresh) ∨ (edge (g_args g) v w ∧ f' = UsageInput)).
  { intros w f'. unfold out. rewrite elem_of_app, !list_elem_of_fmap. unfold edge. naive_solver. }
  assert (Hbit : ∀ b, N.testbit fresh b = true ↔ N.testbit f b = true ∧ N.testbit (at_ reached v) b = false).
  { intros b. unfold fresh. rewrite N.ldiff_spec, andb_true_iff, negb_true_iff. done. }
  assert (Hfs : ∀ b, N.testbit fresh b = true → spread b v).
  { intros b [Hb _]%Hbit. apply (sp_sound _ _ Hs). right. exists f. split; [apply elem_of_app; right; by left|done]. }
  assert (Hmono : ∀ b w, on_record (rest ++ [(v, f)]) reached b w → on_record (rest ++ out) reached' b w).
  { intros b w [Hb|(f' & [Hin|[= -> ->]%list_elem_of_singleton]%elem_of_app & Hb)].
    - left. rewrite Hat. destruct (decide (w = v)) as [->|]; [by rewrite N.lor_spec, Hb|done].
    - right. exists f'. split; [apply elem_of_app; by left|done].
    - left. rewrite Hat, decide_True by done. rewrite N.lor_spec. destruct (N.testbit (at_ reached v) b) eqn:E; [done|]. by apply Hbit. }
  constructor.
  - unfold reached'. by rewrite length_alter, (sp_len _ _ Hs).
  - intros w. rewrite Hat. destruct (decide _); [apply Hgrow|apply Hs].
  - intros w f' [Hin|Hin]%elem_of_app; [apply (sp_pending _ _ Hs), elem_of_app; by left|].
    apply Hout in Hin as [[He ->]|[He ->]]; [split; [by eapply Hnext|]|split; [by eapply Hargs|done]].
    unfold fresh. apply small_bits. intros b Hb. rewrite N.ldiff_spec, (proj1 (small_bits f)) by done. done.
  - intros b w [Hb|(f' & [Hin|Hin]%elem_of_app & Hb)].
    + rewrite Hat in Hb. destruct (decide (w = v)) as [->|]; [|apply (sp_sound _ _ Hs); by left].
      rewrite N.lor_spec, orb_true_iff in Hb. destruct Hb as [Hb|Hb]; [apply (sp_sound _ _ Hs); by left|by apply Hfs].
    + apply (sp_sound _ _ Hs). right. exists f'. split; [apply elem_of_app; by left|done].
    + apply Hout in Hin as [[He ->]|[He ->]]; [eapply spread_next; [by apply Hfs|done]|].
      assert (b = 0%N) as -> by (destruct b as [|b]; [done|]; by destruct b). 
      assert (∃ b', N.testbit fresh b' = true) as [b' Hb'].
      { exists (N.log2 fresh). by apply N.bit_log2. }
      eapply spread_arg; [by apply (Hfs b')|done].
  - intros w f' b Hin Hb. apply Hmono. by eapply (sp_start _ _ Hs).
  - intros u w b Hb He. rewrite Hat in Hb. destruct (decide (u = v)) as [->|]; [|apply Hmono; by eapply (sp_next _ _ Hs)].
    rewrite N.lor_spec, orb_true_iff in Hb. destruct Hb as [Hb|Hb]; [apply Hmono; by eapply (sp_next _ _ Hs)|].
    right. exists fresh. split; [|done]. apply elem_of_app. right. apply Hout. by left.
  - intros u w b Hb He. rewrite Hat in Hb. destruct (decide (u = v)) as [->|]; [|apply Hmono; by eapply (sp_arg _ _ Hs)].
    rewrite N.lor_spec, orb_true_iff in Hb. destruct Hb as [Hb|Hb]; [apply Hmono; by eapply (sp_arg _ _ Hs)|].
    right. exists UsageInput. split; [|done]. apply elem_of_app. right. apply Hout. by right.
Qed.

Lemma turn_potential rest v f reached (fresh := N.ldiff f (at_ reached v)) : fresh ≠ 0%N →
  spreading (rest ++ [(v, f)]) reached →
  potential (rest ++ ((λ w, (w, fresh)) <$> outgoing (g_next g) v) ++ ((λ w, (w, UsageInput)) <$> outgoing (g_args g) v))
    (alter (λ r, N.lor r fresh) v reached) < potential (rest ++ [(v, f)]) reached.
Proof.
  intros Hne Hs. destruct (sp_pending _ _ Hs v f) as [Hv Hf]; [apply elem_of_app; right; by left|].
  pose proof (fresh_grows f (at_ reached v) Hf (sp_small _ _ Hs v) Hne) as Hgrow. fold fresh in Hgrow.
  assert (Hlen : v < length reached) by by rewrite (sp_len _ _ Hs).
  unfold potential. rewrite !length_app, !length_fmap. cbn [length].
  set (a := λ u, (7 - N.to_nat (at_ reached u)) * degree u).
  set (b := λ u, (7 - N.to_nat (at_ (alter (λ r, N.lor r fresh) v reached) u)) * degree u).
  assert (Hc : sum_list_with b (seq 0 n) + a v = sum_list_with a (seq 0 n) + b v).
  { apply sum_change; [apply NoDup_seq|apply elem_of_seq; lia|]. intros u Hu. unfold a, b. by rewrite at_alter, decide_False by done. }
  assert (Hd : b v + degree v ≤ a v).
  { unfold a, b. rewrite at_alter, decide_True by done. rewrite <- (Nat.mul_1_l (degree v)) at 2. rewrite <- Nat.mul_add_distr_r.
    apply Nat.mul_le_mono_r. lia. }
  unfold degree in Hd at 1. fold a b. lia.
Qed.

Lemma usage_loop_spec (fuel : nat) pending reached : potential pending reached < fuel → spreading pending reached →
  ∃ reached', usage_loop fuel g pending reached = Some reached' ∧ spreading [] reached'.
Proof.
  revert pending reached. induction fuel as [|fuel IH]; intros pending reached Hf Hs; [lia|]. cbn [usage_loop].
  destruct (last pending) as [[v f]|] eqn:El.
  - apply last_Some in El as [rest ->]. replace (removelast (rest ++ [(v, f)])) with rest by by rewrite removelast_last.
    unfold usage_turn. fold (at_ reached v). destruct (N.eqb_spec (N.ldiff f (at_ reached v)) 0) as [E|Hne].
    + apply IH; [|by eapply turn_idle]. unfold potential in *. rewrite length_app in Hf. simpl in Hf. lia.
    + apply IH; [|by apply turn_fresh]. pose proof (turn_potential rest v f reached Hne Hs). lia.
  - apply last_None in El as ->. by exists reached.
Qed.

Lemma degree_sum : sum_list_with degree (seq 0 n) = edges (g_next g) + edges (g_args g).
Proof.
  pose proof (sum_outgoing (g_next g)) as E1. pose proof (sum_outgoing (g_args g)) as E2. rewrite Hsame in E2.
  assert (H : ∀ l : list nat, sum_list_with (λ u, S (length (outgoing (g_next g) u))) l + sum_list_with (λ u, S (length (outgoing (g_args g) u))) l =
    2 * length l + sum_list_with degree l).
  { induction l as [|u l IH]; [done|]. cbn [sum_list_with length]. unfold degree in *. lia. }
  specialize (H (seq 0 n)). rewrite length_seq in H. lia.
Qed.

Lemma usage_loop_exact : ∃ reached,
  usage_loop (usage_fuel g start) g start (replicate n 0%N) = Some reached ∧ length reached = n ∧
  ∀ b v, N.testbit (at_ reached v) b = true ↔ spread b v.
Proof.
  assert (H0 : ∀ v, at_ (replicate n 0%N) v = 0%N).
  { intros v. unfold at_. destruct (replicate n 0%N !! v) eqn:E; [by apply lookup_replicate in E as [-> _]|done]. }
  destruct (usage_loop_spec (usage_fuel g start) start (replicate n 0%N)) as (reached & E & Hs).
  - unfold usage_fuel, potential. apply Nat.lt_succ_r, Nat.add_le_mono_l.
    rewrite <- degree_sum. induction (seq 0 n) as [|v l IH]; cbn [sum_list_with]; [lia|]. rewrite H0. unfold degree in *. lia.
  - constructor; try done.
    + by rewrite length_replicate.
    + intros v. by rewrite H0.
    + intros b v [Hb|(f & ? & ?)]; [by rewrite H0, N.bits_0 in Hb|by eapply spread_start].
    + intros v f b ? ?. right. by exists f.
    + intros v w b Hb. by rewrite H0, N.bits_0 in Hb.
    + intros v w b Hb. by rewrite H0, N.bits_0 in Hb.
  - exists reached. split; [done|]. split; [apply Hs|]. assert (Hr : ∀ b v, on_record [] reached b v → N.testbit (at_ reached v) b = true).
    { intros b v [?|(f & ?%elem_of_nil & _)]; done. }
    intros b v. split; [intros ?; apply (sp_sound _ _ Hs); by left|]. intros Hsp. induction Hsp.
    + apply Hr. by eapply (sp_start _ _ Hs).
    + apply Hr. by eapply (sp_next _ _ Hs).
    + apply Hr. by eapply (sp_arg _ _ Hs).
Qed.
End Spreading.

(** ** Marking multipart bodies *)

Definition marked (usage : usageRoots) id : Prop := N.testbit (usage_at usage id) 3 = true.
#[local] Instance marked_dec (usage : usageRoots) id : Decision (marked usage id).
Proof. unfold marked. apply _. Defined.
#[local] Abbreviation names_alias types := (λ x y, AliasBase types x = Some y).

Lemma usage_at_insert (usage : usageRoots) id flags x :
  usage_at (<[id := flags]> usage) x = if decide (x = id) then flags else usage_at usage x.
Proof. unfold usage_at. destruct (decide (x = id)) as [->|]; [by rewrite lookup_insert_eq|by rewrite lookup_insert_ne]. Qed.

Lemma marked_insert (usage : usageRoots) id x : marked (<[id := N.lor (usage_at usage id) UsageMultipart]> usage) x ↔ x = id ∨ marked usage x.
Proof.
  unfold marked. rewrite usage_at_insert. destruct (decide (x = id)) as [->|]; [|naive_solver]. rewrite N.lor_spec.
  change (N.testbit UsageMultipart 3) with true. rewrite orb_true_r. naive_solver.
Qed.

Lemma insert_other_bits (usage : usageRoots) id x (b : N) : b ≠ 3%N →
  N.testbit (usage_at (<[id := N.lor (usage_at usage id) UsageMultipart]> usage) x) b = N.testbit (usage_at usage x) b.
Proof.
  intros Hb. rewrite usage_at_insert. destruct (decide (x = id)) as [->|]; [|done]. rewrite N.lor_spec.
  change UsageMultipart with (2 ^ 3)%N. rewrite N.pow2_bits_false by done. apply orb_false_r.
Qed.

(** The declared types not marked yet. *)
Definition unmarked types (usage : usageRoots) : gset TypeID := filter (λ x, ¬ marked usage x) (dom types).

(** Every type a marked alias stands for is marked, [id] apart. *)
Definition closed_but types (usage : usageRoots) (but : option TypeID) : Prop :=
  ∀ x y, marked usage x → AliasBase types x = Some y → y ∈ dom types → marked usage y ∨ Some y = but.

Lemma markMultipart_spec (fuel : nat) types id (usage : usageRoots) :
  size (unmarked types usage) < fuel → closed_but types usage (Some id) →
  ∃ usage', markMultipart fuel types id usage = Some usage' ∧ closed_but types usage' None ∧
    (∀ x (b : N), b ≠ 3%N → N.testbit (usage_at usage' x) b = N.testbit (usage_at usage x) b) ∧
    (∀ x, marked usage x → marked usage' x) ∧ (id ∈ dom types → marked usage' id) ∧
    (∀ x, marked usage' x → marked usage x ∨ x ∈ dom types ∧ rtc (names_alias types) id x).
Proof.
  revert id usage. induction fuel as [|fuel IH]; intros id usage Hf Hc; [lia|]. cbn [markMultipart].
  destruct (decide _) as [Hor|Hn].
  { exists usage. split_and!; [done| |done|done| |by left].
    - intros x y Hx Hy Hd. destruct (Hc x y Hx Hy Hd) as [?|[= ->]]; [by left|]. left. destruct Hor as [?%not_elem_of_dom|?]; done.
    - intros Hd. destruct Hor as [?%not_elem_of_dom|?]; done. }
  apply Decidable.not_or in Hn as [Hd%not_eq_None_Some Hm]. apply elem_of_dom in Hd.
  set (usage1 := <[id := _]> usage). destruct (AliasBase types id) as [base|] eqn:Eb.
  - destruct (IH base usage1) as (u' & E & H1 & H2 & H3 & H4 & H5).
    + assert (Hin : id ∈ unmarked types usage) by (apply elem_of_filter; split; done).
      assert (Hsub : unmarked types usage1 ⊆ unmarked types usage ∖ {[id]}).
      { intros x [Hx Hxd]%elem_of_filter. apply elem_of_difference. unfold usage1 in Hx. rewrite marked_insert in Hx.
        split; [apply elem_of_filter; split; [naive_solver|done]|]. rewrite elem_of_singleton. naive_solver. }
      apply subseteq_size in Hsub. rewrite size_difference, size_singleton in Hsub by (by apply singleton_subseteq_l).
      assert (0 < size (unmarked types usage)); [|lia].
      destruct (decide (size (unmarked types usage) = 0)) as [Hz%size_empty_inv|]; [set_solver|lia].
    + intros x y Hx Hy Hyd. apply marked_insert in Hx as [->|Hx]; [right; congruence|].
      destruct (Hc x y Hx Hy Hyd) as [?|[= ->]]; left; apply marked_insert; [by right|by left].
    + exists u'. split_and!; [done|done| | | |].
      * intros x b Hb. rewrite H2 by done. by apply insert_other_bits.
      * intros x Hx. apply H3, marked_insert. by right.
      * intros _. apply H3, marked_insert. by left.
      * intros x [[->|?]%marked_insert|[? ?]]%H5; [by right|by left|]. right. split; [done|]. by eapply rtc_l.
  - exists usage1. split_and!; [done| | | | |].
    + intros x y Hx Hy Hyd. apply marked_insert in Hx as [->|Hx]; [congruence|].
      destruct (Hc x y Hx Hy Hyd) as [?|[= ->]]; left; apply marked_insert; [by right|by left].
    + intros x b Hb. by apply insert_other_bits.
    + intros x Hx. apply marked_insert. by right.
    + intros _. apply marked_insert. by left.
    + intros x [->|?]%marked_insert; [by right|by left].
Qed.

Lemma unmarked_size types (usage : usageRoots) : size (unmarked types usage) ≤ size types.
Proof. rewrite <- size_dom. apply subseteq_size. intros x [_ ?]%elem_of_filter. done. Qed.

Lemma closed_rtc types (usage : usageRoots) x y : closed_but types usage None → marked usage x → x ∈ dom types →
  rtc (names_alias types) x y → y ∈ dom types → marked usage y.
Proof.
  intros Hc Hx Hd Hr. induction Hr as [|x z y Hxz Hr IH]; [done|]. intros Hyd. 
  assert (Hz : z ∈ dom types) by (inversion Hr; subst; [done|by eapply AliasBase_dom]).
  apply IH; [|done|done]. by destruct (Hc x z Hx Hxz Hz).
Qed.

Lemma mark_roots_spec types (roots : list (gostring * N)) (usage : usageRoots) : closed_but types usage None →
  ∃ usage', mark_roots types roots usage = Some usage' ∧ closed_but types usage' None ∧
    (∀ x (b : N), b ≠ 3%N → N.testbit (usage_at usage' x) b = N.testbit (usage_at usage x) b) ∧
    (∀ x, marked usage' x ↔ marked usage x ∨ x ∈ dom types ∧ ∃ root flags, (root, flags) ∈ roots ∧ N.testbit flags 3 = true ∧ rtc (names_alias types) root x).
Proof.
  revert usage. unfold mark_roots. induction roots as [|[root flags] roots IH]; intros usage Hc; cbn [foldl].
  { exists usage. split_and!; [done..|]. intros x. split; [by left|]. by intros [?|(_ & r & f & ?%elem_of_nil & _)]. }
  cbn [mbind option_bind]. destruct (N.testbit flags 3) eqn:Ef.
  - destruct (markMultipart_spec (2 + size types) types root usage) as (u1 & -> & H1 & H2 & H3 & H4 & H5).
    { pose proof (unmarked_size types usage). lia. }
    { intros x y Hx Hy Hd. left. by destruct (Hc x y Hx Hy Hd). }
    destruct (IH u1 H1) as (u2 & E & G1 & G2 & G3). exists u2. split_and!; [done|done| |].
    + intros x b Hb. by rewrite G2, H2.
    + intros x. rewrite G3. split.
      * intros [[?|[? ?]]%H5|(? & r & f & ? & ? & ?)]; [by left|right|right; split; [done|]; exists r, f; split_and!; [by right|done|done]].
        split; [done|]. exists root, flags. split_and!; [by left|done|done].
      * intros [?|(Hd & r & f & [[= -> ->]|Hin]%elem_of_cons & ? & Hr)]; [left; by apply H3| |right; split; [done|]; by exists r, f].
        left. assert (Hrd : root ∈ dom types) by (inversion Hr; subst; [done|by eapply AliasBase_dom]).
        eapply (closed_rtc types u1 root x); [done|by apply H4|done..].
  - destruct (IH usage Hc) as (u2 & E & G1 & G2 & G3). exists u2. split_and!; [done..|].
    intros x. rewrite G3. split.
    + intros [?|(? & r & f & ? & ? & ?)]; [by left|]. right. split; [done|]. exists r, f. split_and!; [by right|done|done].
    + intros [?|(? & r & f & [[= -> ->]|?]%elem_of_cons & Ht & ?)]; [by left|congruence|]. right. split; [done|]. by exists r, f.
Qed.

(** ** What usage says *)

Lemma type_usage_spec g (reached : list N) id (b : N) :
  N.testbit (usage_at (type_usage g reached) id) b = true ↔ ∃ v, typeOf g v = id ∧ N.testbit (at_ reached v) b = true.
Proof.
  unfold type_usage. set (step := λ (usage : usageRoots) '(v, flags), _).
  assert (Hgen : ∀ (l : list N) (k : nat) (u : usageRoots),
    N.testbit (usage_at (foldl step u (zip (seq k (length l)) l)) id) b = true ↔
    N.testbit (usage_at u id) b = true ∨ ∃ (i : nat) f, l !! i = Some f ∧ typeOf g (k + i) = id ∧ N.testbit f b = true).
  { induction l as [|f l IH]; intros k u; cbn [length seq zip zip_with foldl].
    { split; [by left|]. by intros [?|(i & f & ? & _)]. }
    rewrite IH. assert (Hs : N.testbit (usage_at (step u (k, f)) id) b = true ↔ N.testbit (usage_at u id) b = true ∨ typeOf g k = id ∧ N.testbit f b = true).
    { unfold step. destruct (N.eqb_spec f 0) as [->|_]; [rewrite N.bits_0; naive_solver|]. rewrite usage_at_insert.
      destruct (decide (id = typeOf g k)) as [->|Hne]; [rewrite N.lor_spec, orb_true_iff; naive_solver|naive_solver]. }
    rewrite Hs. split.
    - intros [[?|[? ?]]|(i & f' & ? & ? & ?)]; [by left|right; exists 0, f; by rewrite Nat.add_0_r|right; exists (S i), f'; by rewrite Nat.add_succ_r].
    - intros [?|([|i] & f' & Hi & Ht & ?)]; [by left; left| |]; simplify_eq/=; [left; right; by rewrite Nat.add_0_r|].
      right. exists i, f'. by rewrite <- Nat.add_succ_r. }
  rewrite Hgen. split.
  - intros [Hz|(i & f & Hi & Ht & Hb)]; [|exists i; unfold at_; by rewrite Hi].
    unfold usage_at in Hz. rewrite lookup_empty in Hz. by rewrite N.bits_0 in Hz.
  - intros (v & Ht & Hb). right. unfold at_ in Hb. destruct (reached !! v) as [f|] eqn:Ev; [by exists v, f|]. by rewrite N.bits_0 in Hb.
Qed.

Lemma value_declared types id : referable types id → node_type (value_of types id) ∈ dom types.
Proof. intros [Hd _]. unfold value_of. by destruct (polymorphic _ _). Qed.

Lemma used_declared types (roots : usageRoots) b n : used types roots b n → node_type n ∈ dom types.
Proof.
  intros Hu. destruct Hu as [id b _ _ Hr|a n b _ Hh|a n b _ Ht]; [by apply value_declared| |].
  - destruct Hh; first [by apply value_declared|done|by match goal with H : referable _ _ |- _ => destruct H end].
  - destruct Ht. by apply value_declared.
Qed.

Section Usage.
Context `{Unicode} (range : ∀ A : Type, gmap gostring A → list (gostring * A)) (Hrange : ∀ A m, range A m ≡ₚ map_to_list m).
Context (doc : option Document) (h : hierarchy) (Hh : hierarchy_spec (doc_types doc) h).
#[local] Abbreviation types := (doc_types doc).
#[local] Abbreviation g := (newTypeGraph types h).
#[local] Abbreviation roots := (document range doc ∅).
#[local] Abbreviation Hgraph := (newTypeGraph_graph types h Hh).

Lemma range_roots id flags : (id, flags) ∈ range _ roots ↔ roots !! id = Some flags.
Proof. rewrite Hrange. apply elem_of_map_to_list. Qed.

Lemma spreading_bit (b : N) : N.testbit spreadingUsage b = (b <? 3)%N.
Proof.
  destruct (N.ltb_spec b 3) as [Hlt|Hge]; [assert (b = 0 ∨ b = 1 ∨ b = 2)%N as [->|[->| ->]] by lia; done|].
  by apply (proj1 (small_bits spreadingUsage)).
Qed.

Lemma pending_roots_spec v f : (v, f) ∈ pending_roots range g roots ↔
  ∃ id, referable types id ∧ named_node types (value_of types id) v ∧ f = N.land (usage_at roots id) spreadingUsage ∧ f ≠ 0%N.
Proof.
  unfold pending_roots. rewrite list_elem_of_omap. split.
  - intros ([id fl] & Hin%range_roots & E). destruct (reference g id) as [v'|] eqn:Er; [|done].
    destruct (N.eqb_spec (N.land fl spreadingUsage) 0); [done|]. injection E as -> <-.
    apply (reference_spec types _ _ g id v Hgraph) in Er as [? ?]. exists id. unfold usage_at. by rewrite Hin.
  - intros (id & Hr & Hn & -> & Hne). destruct (roots !! id) as [fl|] eqn:El; unfold usage_at in *; rewrite El in *; simpl in *; [|done].
    exists (id, fl). rewrite range_roots. split; [done|]. rewrite (proj2 (reference_spec types _ _ g id v Hgraph)) by done.
    destruct (N.eqb_spec (N.land fl spreadingUsage) 0); done.
Qed.

Lemma spread_used (b : N) v : spread g (pending_roots range g roots) b v ↔ ∃ n, named_node types n v ∧ used types roots b n.
Proof.
  assert (Hstart : ∀ v f (b : N), (v, f) ∈ pending_roots range g roots → N.testbit f b = true → ∃ n, named_node types n v ∧ used types roots b n).
  { intros v' f b' (id & Hr & Hn & -> & _)%pending_roots_spec Hb. rewrite N.land_spec, spreading_bit, andb_true_iff in Hb.
    destruct Hb as [Hb Hlt%N.ltb_lt]. eexists. split; [exact Hn|]. by constructor. }
  split.
  - intros Hs. induction Hs as [v f b Hin Hb|v w b _ IH He|v w b _ IH He]; [by eapply Hstart| |].
    + destruct IH as (n & Hn & Hu). apply (graph_edge _ _ _ _ Hgraph) in He as (a & n' & Ha & Hn' & Hh').
      assert (a = n) as -> by (by eapply named_node_inj). exists n'. split; [done|]. by eapply used_held.
    + destruct IH as (n & Hn & Hu). apply (graph_arg _ _ _ _ Hgraph) in He as (a & n' & Ha & Hn' & Hh').
      assert (a = n) as -> by (by eapply named_node_inj). exists n'. split; [done|]. by eapply used_arg.
  - intros (n & Hn & Hu). revert v Hn. induction Hu as [id b Hlt Hb Hr|a n b Hu IH Hh'|a n b Hu IH Ht]; intros v Hn.
    + eapply (spread_start _ _ v (N.land (usage_at roots id) spreadingUsage)); [apply pending_roots_spec; exists id; split_and!; try done|].
      * intros E. assert (N.testbit (N.land (usage_at roots id) spreadingUsage) b = false) as Hz by by rewrite E, N.bits_0.
        rewrite N.land_spec, Hb, spreading_bit in Hz. by apply N.ltb_ge in Hz; lia.
      * rewrite N.land_spec, Hb, spreading_bit. by apply N.ltb_lt.
    + destruct (holds_named types a n Hh') as [u Hua]. eapply spread_next; [by apply IH|]. apply (graph_edge _ _ _ _ Hgraph). by exists a, n.
    + assert (Hua : ∃ u, named_node types a u).
      { inversion Ht as [id r Hd]; subst. apply (declared_index types) in Hd as [i Hi]. eexists. by exists i. }
      destruct Hua as [u Hua]. eapply spread_arg; [by apply (IH u)|]. apply (graph_arg _ _ _ _ Hgraph). by exists a, n.
Qed.

Lemma newUsage_spec : ∃ usage, newUsage range doc g = Some usage ∧ ∀ id (b : N),
  N.testbit (usage_at usage id) b = true ↔
    used types roots b (Shape id) ∨ used types roots b (Range id) ∨ b = 3%N ∧ multipart types roots id.
Proof.
  pose proof (graph_sizes _ _ _ _ Hgraph) as (Hl1 & Hl2 & _).
  assert (Hlt : ∀ n v, named_node types n v → v < length (g_next g)) by (intros n v; by apply named_node_lt).
  destruct (usage_loop_exact g (pending_roots range g roots)) as (reached & E & Hlen & Hr).
  - intros v w (a & n & _ & Hn & _)%(graph_edge _ _ _ _ Hgraph). by eapply Hlt.
  - intros v w (a & n & _ & Hn & _)%(graph_arg _ _ _ _ Hgraph). by eapply Hlt.
  - by rewrite Hl1, Hl2.
  - intros v f (id & _ & Hn & -> & _)%pending_roots_spec. split; [by eapply Hlt|]. apply small_bits. intros b Hb.
    rewrite N.land_spec, spreading_bit, (proj2 (N.ltb_ge b 3)) by done. apply andb_false_r.
  - assert (Ht : ∀ id (b : N), N.testbit (usage_at (type_usage g reached) id) b = true ↔ used types roots b (Shape id) ∨ used types roots b (Range id)).
    { intros id b. rewrite type_usage_spec. setoid_rewrite Hr. setoid_rewrite spread_used. split.
      - intros (v & Et & n & Hn & Hu). destruct n as [y|y]; pose proof Hn as (i & Hi & Ev).
        + left. assert (y = id) as <-; [|done]. rewrite <- Et, Ev. symmetry. by apply (graph_type types h Hh).
        + right. assert (y = id) as <-; [|done]. rewrite <- Et, Ev. unfold typeOf. rewrite (graph_ids _ _ _ _ Hgraph).
          replace ((2 * i + 1) / 2) with i; [by rewrite Hi|]. rewrite (Nat.mul_comm 2 i), Nat.div_add_l by lia. simpl. lia.
      - assert (Hn : ∀ n, used types roots b n → ∃ i, sorted_keys types !! i = Some (node_type n)).
        { intros n Hu. apply (declared_index types), (used_declared _ _ _ _ Hu). }
        intros [Hu|Hu]; destruct (Hn _ Hu) as [i Hi]; cbn [node_type] in Hi.
        + exists (2 * i). split; [by apply (graph_type types h Hh)|]. exists (Shape id). split; [by exists i|done].
        + exists (2 * i + 1). split; [|exists (Range id); split; [by exists i|done]]. unfold typeOf. rewrite (graph_ids _ _ _ _ Hgraph).
          rewrite (Nat.mul_comm 2 i), Nat.div_add_l by lia. simpl. by rewrite Nat.add_0_r, Hi. }
    assert (H3 : ∀ n b, used types roots b n → (b < 3)%N) by (intros n b Hu; induction Hu; [done|done|lia]).
    assert (Hm0 : ∀ x, ¬ marked (type_usage g reached) x).
    { intros x [Hu|Hu]%Ht; apply H3 in Hu; lia. }
    destruct (mark_roots_spec types (range _ roots) (type_usage g reached)) as (usage & Eu & _ & Hb & Hm); [by intros x y ?%Hm0|].
    exists usage. split; [unfold newUsage; by rewrite E|]. intros id b. destruct (decide (b = 3%N)) as [->|Hne].
    + change (N.testbit (usage_at usage id) 3 = true) with (marked usage id). rewrite Hm. unfold multipart. split.
      * intros [?%Hm0|(Hd & root & fl & Hin%range_roots & Hf & Hc)]; [done|]. right; right. split_and!; [done..|]. exists root. unfold usage_at. by rewrite Hin.
      * intros [Hu|[Hu|(_ & Hd & root & Hf & Hc)]]; [apply H3 in Hu; lia..|]. right. split; [done|].
        unfold usage_at in Hf. destruct (roots !! root) as [fl|] eqn:El; [|by rewrite N.bits_0 in Hf]. exists root, fl. by rewrite range_roots.
    + rewrite Hb, Ht by done. naive_solver.
Qed.
End Usage.
