(* ===== verification/FactIndex.v ===== *)
(** * FactIndex: the derived facts of a document, asked by many at once
    ([src/ir/irfacts/index.go], and the questions of exposure.go, components.go
    and usage.go)

    An index answers questions from whichever of its parts is built, walking
    while the walks are cheaper. It is safe for concurrent use, so the model
    runs calls as threads over one shared state, in any interleaving: a counter
    load, a counter add, entering a once, building, retiring the walks and
    leaving the once are each one step. *)
From S2P Require Import Prelude GoLib Utf8 Decimal IR Search Composition Naming Tarjan Alias Hierarchy Exposure TypeGraph Components Usage.
Implicit Types (id x y base target : TypeID) (prop : PropID) (types : TypeRegistry) (doc : option Document).

(** ** The state *)

(** The parts built on demand, each behind its own [sync.Once]. *)
Inductive cell := Hier | Expo | Graph | Uses | Comps.
#[export] Instance cell_eq_dec : EqDecision cell.
Proof. solve_decision. Defined.
Implicit Types (c d : cell).

(** A [sync.Once]: not run, running its function, or returned. *)
Inductive once := Fresh | Entered | Finished.

(** The two relations walked before they are indexed. *)
Inductive walk := SubtypeWalks | ExposureWalks.

Record Index := mkIndex {
  x_doc : option Document;
  subtypeWalks : Z; exposureWalks : Z;
  onces : cell → once;
  x_hierarchy : option hierarchy; x_exposure : option exposure; x_graph : option typeGraph;
  x_usage : option (gmap TypeID N); x_components : option components
}.
Implicit Types (ix : Index).

Definition New doc : Index := {|
  x_doc := doc; subtypeWalks := Z.of_nat (size (doc_types doc)); exposureWalks := Z.of_nat (size (doc_types doc));
  onces := λ _, Fresh; x_hierarchy := None; x_exposure := None; x_graph := None; x_usage := None; x_components := None |}.

Definition walks ix (w : walk) : Z := match w with SubtypeWalks => subtypeWalks ix | ExposureWalks => exposureWalks ix end.
Definition set_walks (w : walk) (n : Z) ix : Index := {|
  x_doc := x_doc ix;
  subtypeWalks := match w with SubtypeWalks => n | ExposureWalks => subtypeWalks ix end;
  exposureWalks := match w with SubtypeWalks => exposureWalks ix | ExposureWalks => n end;
  onces := onces ix; x_hierarchy := x_hierarchy ix; x_exposure := x_exposure ix; x_graph := x_graph ix;
  x_usage := x_usage ix; x_components := x_components ix |}.
Definition set_once c (o : once) ix : Index := {|
  x_doc := x_doc ix; subtypeWalks := subtypeWalks ix; exposureWalks := exposureWalks ix;
  onces := λ d, if decide (d = c) then o else onces ix d;
  x_hierarchy := x_hierarchy ix; x_exposure := x_exposure ix; x_graph := x_graph ix;
  x_usage := x_usage ix; x_components := x_components ix |}.

(** ** The questions and their answers *)

Inductive question :=
  | IsSubtypeQ (target base : TypeID) | SubtypesQ (base : TypeID) | ExposesQ (id : TypeID) (prop : PropID)
  | RecursiveQ (id : TypeID) | ComponentQ (id : TypeID) | UsageQ (id : TypeID).
Inductive answer := Yes (b : bool) | Types (ids : list TypeID) | Flags (flags : N).
Implicit Types (q : question) (a : answer).

(** What a call has left to do. *)
Inductive instr :=
  | Ask (w : walk) (q : question)  (* load the counter, and walk within it *)
  | Spend (w : walk) (spent : Z)   (* take the walk's steps from the counter *)
  | Do (c : cell)                  (* the once of a part *)
  | Build (c : cell) | Retire (w : walk) | Leave (c : cell)
  | Look (q : question)            (* read the part built, and answer *)
  | Reply (a : answer).
Implicit Types (k : list instr).

Definition cell_of q : cell :=
  match q with
  | IsSubtypeQ _ _ | SubtypesQ _ => Hier
  | ExposesQ _ _ => Expo
  | RecursiveQ _ | ComponentQ _ => Comps
  | UsageQ _ => Uses
  end.

(** A call as it is made: the two relations that are walked are asked first. *)
Definition call q : list instr :=
  match q with
  | IsSubtypeQ _ _ => [Ask SubtypeWalks q; Do (cell_of q); Look q]
  | ExposesQ _ _ => [Ask ExposureWalks q; Do (cell_of q); Look q]
  | _ => [Do (cell_of q); Look q]
  end.

(** The function a part's once runs. *)
Definition body c : list instr :=
  match c with
  | Hier => [Build Hier; Retire SubtypeWalks]
  | Expo => [Build Expo; Retire ExposureWalks]
  | Graph => [Do Hier; Build Graph]
  | Uses => [Do Graph; Build Uses]
  | Comps => [Do Graph; Build Comps]
  end.

(** A bounded walk of [ir]: the answer, the steps spent, and whether they sufficed. *)
Definition walk_within doc q (limit : Z) : bool * Z * bool :=
  match q with
  | IsSubtypeQ target base => IsSubtypeWithin doc target base limit
  | ExposesQ id prop => ExposesWithin doc id prop limit
  | _ => (false, 0%Z, false)
  end.

(** The calls in flight over one index. *)
Abbreviation config := (Index * list (list instr))%type.

Section Asking.
Context `{Unicode} (range : ∀ A : Type, gmap gostring A → list (gostring * A)).

(** What a once's function assigns. *)
Definition build c ix : option Index :=
  let types := doc_types (x_doc ix) in
  let '(mkIndex xd sw ew o xh xe xg xu xc) := ix in
  match c with
  | Hier => h ← newHierarchy (λ types, (range _ types).*1) types; Some (mkIndex xd sw ew o (Some h) xe xg xu xc)
  | Expo => e ← newExposure types; Some (mkIndex xd sw ew o xh (Some e) xg xu xc)
  | Graph => h ← xh; Some (mkIndex xd sw ew o xh xe (Some (newTypeGraph types h)) xu xc)
  | Uses => g ← xg; u ← newUsage range xd g; Some (mkIndex xd sw ew o xh xe xg (Some u) xc)
  | Comps => g ← xg; cs ← newComponents g; Some (mkIndex xd sw ew o xh xe xg xu (Some cs))
  end.

(** The answer read from the part built; a pair its comparisons leave open is walked. *)
Definition look q ix : option answer :=
  match q with
  | IsSubtypeQ target base =>
      h ← x_hierarchy ix;
      Some (Yes (let '(sub, settled) := subtype h target base in if settled then sub else IsSubtype (x_doc ix) target base))
  | SubtypesQ base => h ← x_hierarchy ix; Types <$> descendants h base
  | ExposesQ id prop =>
      e ← x_exposure ix;
      Some (Yes (let '(exposed, settled) := exposes e id prop in
                 if settled then exposed else (ExposesWithin (x_doc ix) id prop MaxInt).1.1))
  | RecursiveQ id => cs ← x_components ix; Some (Yes (recursive cs id))
  | ComponentQ id => cs ← x_components ix; Some (Types (component cs id))
  | UsageQ id => u ← x_usage ix; Some (Flags (usage_at u id))
  end.

(** One step of a call; [None] where it waits, or has replied. *)
Definition turn ix k : option (Index * list instr) :=
  match k with
  | Ask w q :: k =>
      let limit := walks ix w in
      if (0 <? limit)%Z then
        let '(found, spent, ok) := walk_within (x_doc ix) q limit in
        Some (ix, Spend w spent :: if (ok : bool) then [Reply (Yes found)] else k)
      else Some (ix, k)
  | Spend w spent :: k => Some (set_walks w (i64 (walks ix w - spent)) ix, k)
  | Do c :: k =>
      match onces ix c with
      | Finished => Some (ix, k)
      | Fresh => Some (set_once c Entered ix, body c ++ Leave c :: k)
      | Entered => None
      end
  | Build c :: k => ix ← build c ix; Some (ix, k)
  | Retire w :: k => Some (set_walks w 0 ix, k)
  | Leave c :: k => Some (set_once c Finished ix, k)
  | Look q :: _ => a ← look q ix; Some (ix, [Reply a])
  | Reply _ :: _ | [] => None
  end.

(** A step of any of the calls. *)
Inductive step : config → config → Prop :=
  | step_call ix ts (i : nat) k ix' k' : ts !! i = Some k → turn ix k = Some (ix', k') → step (ix, ts) (ix', <[i := k']> ts).

Definition asked doc (qs : list question) : config := (New doc, call <$> qs).

(** A scheduler runs the calls it names, in that order. *)
Fixpoint schedule (order : list nat) (cfg : config) : option config :=
  match order with
  | [] => Some cfg
  | i :: order => k ← cfg.2 !! i; '(ix, k) ← turn cfg.1 k; schedule order (ix, <[i := k]> cfg.2)
  end.
End Asking.

(** ** What the answers are held to *)

Section Answers.
Context `{Unicode} (range : ∀ A : Type, gmap gostring A → list (gostring * A)) (Hrange : ∀ A m, range A m ≡ₚ map_to_list m).
Context (doc : option Document) (Hwalk : countable_walk doc) (Hparts : countable_parts (doc_types doc)).
#[local] Abbreviation types := (doc_types doc).
#[local] Abbreviation build := (build range).
#[local] Abbreviation turn := (turn range).
#[local] Abbreviation step := (step range).

(** The answer [ir] gives, or the fact stated over the registry. *)
Definition right q a : Prop :=
  match q, a with
  | IsSubtypeQ target base, Yes b => b = IsSubtype doc target base
  | SubtypesQ base, Types ds => StronglySorted string_le ds ∧ NoDup ds ∧ ∀ x, x ∈ ds ↔ IsSubtype doc x base = true
  | ExposesQ id prop, Yes b => b = bool_decide (prop ∈ ExposedProps doc id)
  | RecursiveQ id, Yes b => b = true ↔ tc (holds types) (Shape id) (Shape id)
  | ComponentQ id, Types ms =>
      StronglySorted string_le ms ∧ NoDup ms ∧ ∀ y, y ∈ ms ↔ id ∈ dom types ∧ y ∈ dom types ∧ hold_each_other types id y
  | UsageQ id, Flags flags => ∀ b : N, N.testbit flags b = true ↔
      used types (document range doc ∅) b (Shape id) ∨ used types (document range doc ∅) b (Range id) ∨
      b = 3%N ∧ multipart types (document range doc ∅) id
  | _, _ => False
  end.

(** A part is built, and says what the document does. *)
Definition built ix c : Prop :=
  match c with
  | Hier => ∃ h, x_hierarchy ix = Some h ∧ hierarchy_spec types h
  | Expo => ∃ e, x_exposure ix = Some e ∧
      ∀ id prop, (exposes e id prop).2 = true → ((exposes e id prop).1 = true ↔ exposed types id prop)
  | Graph => ∃ h, hierarchy_spec types h ∧ x_graph ix = Some (newTypeGraph types h)
  | Uses => ∃ u, x_usage ix = Some u ∧ ∀ id, right (UsageQ id) (Flags (usage_at u id))
  | Comps => ∃ cs, x_components ix = Some cs ∧ components_spec types cs
  end.

Lemma IsSubtype_leads target base : IsSubtype doc target base = true ↔ tc (leads (supers_of types)) target base.
Proof.
  unfold IsSubtype, IsSubtypeWithin. pose proof (isSubtype_true doc target base MaxInt) as Ht.
  pose proof (isSubtype_affords doc target base MaxInt Hwalk) as Ho.
  destruct (isSubtype doc target base MaxInt) as [[sub ok] b]. by apply Ht.
Qed.

(** A walk its limit sufficed for gives the answer. *)
Lemma walk_right q limit found spent : walk_within doc q limit = (found, spent, true) → right q (Yes found).
Proof.
  destruct q as [target base| |id prop| | |]; cbn [walk_within right]; try done.
  - unfold IsSubtypeWithin. pose proof (isSubtype_true doc target base limit) as Ht.
    destruct (isSubtype doc target base limit) as [[sub ok] b]. intros [= <- _ ->]. specialize (Ht eq_refl). cbn [fst] in Ht.
    apply eq_bool_prop_intro. rewrite !Is_true_true. by rewrite IsSubtype_leads.
  - intros E. destruct (ExposesWithin_answers doc id prop limit) as [Ha _]. rewrite E in Ha. specialize (Ha eq_refl). cbn [fst] in Ha.
    apply eq_bool_prop_intro. rewrite !Is_true_true, bool_decide_eq_true. by rewrite ExposedProps_leads.
Qed.

(** Each part builds from those it needs. *)
Definition needs c d : Prop := match c with Graph => d = Hier | Uses | Comps => d = Graph | Hier | Expo => False end.

Lemma build_spec c ix : x_doc ix = doc → (∀ d, needs c d → built ix d) →
  ∃ ix', build c ix = Some ix' ∧ x_doc ix' = doc ∧ onces ix' = onces ix ∧ built ix' c ∧ ∀ d, built ix d → built ix' d.
Proof.
  destruct ix as [xd sw ew o xh xe xg xu xc]. cbn [x_doc onces]. intros -> Hd. unfold build. cbn [x_doc]. destruct c; cbn [needs] in Hd.
  - destruct (newHierarchy_spec (λ types, (range _ types).*1) types) as (h & -> & Hh).
    { intros x [t Ht]%elem_of_dom. apply list_elem_of_fmap. exists (x, t). split; [done|]. rewrite Hrange. by apply elem_of_map_to_list. }
    eexists. split; [done|]. split_and!; [done|done|by exists h|]. intros [| | | |]; [|done..]. intros _. by exists h.
  - destruct (newExposure_spec types) as (e & -> & He). eexists. split; [done|]. split_and!; [done|done|by exists e|].
    intros [| | | |]; [done| |done..]. intros _. by exists e.
  - destruct (Hd Hier eq_refl) as (h & Eh & Hh). cbn [x_hierarchy] in Eh. subst xh. eexists. split; [done|]. split_and!; [done|done|by exists h|].
    intros [| | | |]; [done|done| |done..]. intros _. by exists h.
  - destruct (Hd Graph eq_refl) as (h & Hh & Eg). cbn [x_graph] in Eg. subst xg. cbn [mbind option_bind].
    destruct (newUsage_spec range Hrange doc h Hh) as (u & -> & Hu). eexists. split; [done|]. split_and!; [done|done|by exists u|].
    intros [| | | |]; [done..| |done]. intros _. by exists u.
  - destruct (Hd Graph eq_refl) as (h & Hh & Eg). cbn [x_graph] in Eg. subst xg. cbn [mbind option_bind].
    destruct (newComponents_spec types h Hh) as (cs & -> & Hcs). eexists. split; [done|]. split_and!; [done|done|by exists cs|].
    intros [| | | |]; [done..|]. intros _. by exists cs.
Qed.

Lemma component_right cs id : components_spec types cs → right (ComponentQ id) (Types (component cs id)).
Proof.
  intros Hcs. unfold component. cbn [right]. destruct (c_of cs !! id) as [ms|] eqn:E; cbn [default from_option].
  - destruct (components_sorted _ _ Hcs id ms E). split_and!; [done..|]. intros y. rewrite (components_members _ _ Hcs id ms y E).
    assert (Hd : id ∈ dom types); [|tauto]. destruct (decide (id ∈ dom types)) as [|Hn%(components_declared _ _ Hcs)]; [done|congruence].
  - apply (components_declared _ _ Hcs) in E. split_and!; [constructor|constructor|]. intros y. split; [by intros ?%elem_of_nil|tauto].
Qed.

(** A part built answers each of its questions. *)
Lemma look_spec q ix : x_doc ix = doc → built ix (cell_of q) → ∃ a, look q ix = Some a ∧ right q a.
Proof.
  intros Ed Hb. destruct q as [target base|base|id prop|id|id|id]; cbn [cell_of built look] in *; rewrite ?Ed.
  - destruct Hb as (h & -> & Hh). eexists. split; [done|]. cbn [right]. pose proof (hierarchy_settled _ _ Hh target base) as Hs.
    destruct (subtype h target base) as [sub []]; cbn [fst snd] in Hs; [|done].
    apply eq_bool_prop_intro. rewrite !Is_true_true, IsSubtype_leads. by apply Hs.
  - destruct Hb as (h & -> & Hh). destruct (hierarchy_descendants _ _ Hh base) as (ds & E & H1 & H2 & H3).
    exists (Types ds). cbn [mbind option_bind]. rewrite E. split; [done|]. cbn [right]. split_and!; [done..|]. intros x. by rewrite H3, IsSubtype_leads.
  - destruct Hb as (e & -> & He). eexists. split; [done|]. cbn [right]. specialize (He id prop).
    apply eq_bool_prop_intro. rewrite !Is_true_true, bool_decide_eq_true, ExposedProps_leads by done.
    destruct (exposes e id prop) as [b []]; cbn [fst snd] in He; [by apply He|].
    destruct (ExposesWithin_answers doc id prop MaxInt) as [Ha Ho]. apply Ha, Ho, Hparts.
  - destruct Hb as (cs & -> & Hcs). eexists. split; [done|]. cbn [right]. unfold recursive. rewrite bool_decide_eq_true. apply Hcs.
  - destruct Hb as (cs & -> & Hcs). eexists. split; [done|]. by apply component_right.
  - destruct Hb as (u & -> & Hu). eexists. split; [done|]. apply Hu.
Qed.

(** ** The invariant of the calls in flight *)

(** [ready q B k]: run where the parts [B] are built, [k] reads no part before it
    is built and replies to [q] with the right answer. *)
Fixpoint ready q (B : cell → Prop) k : Prop :=
  match k with
  | [] => False
  | Ask _ q' :: k => q' = q ∧ k = [Do (cell_of q); Look q]
  | Do c :: k => ready q (λ d, d = c ∨ B d) k
  | Build c :: k => (∀ d, needs c d → B d) ∧ ready q (λ d, d = c ∨ B d) k
  | Leave c :: k => B c ∧ ready q B k
  | Spend _ _ :: k | Retire _ :: k => ready q B k
  | Look q' :: k => q' = q ∧ k = [] ∧ B (cell_of q)
  | Reply a :: k => right q a ∧ k = []
  end.

(** Within the once of a part, only the onces of parts it needs are entered. *)
Definition rank c : nat := match c with Hier | Expo => 0 | Graph => 1 | Uses | Comps => 2 end.
Fixpoint nested k : Prop :=
  match k with
  | [] => True
  | Do c :: k => (∀ d, Leave d ∈ k → rank c < rank d) ∧ nested k
  | _ :: k => nested k
  end.

Record sound_call ix q k : Prop := {
  call_ready : ready q (built ix) k;
  call_nested : nested k
}.

Record sound (qs : list question) (cfg : config) : Prop := {
  sound_doc : x_doc cfg.1 = doc;
  sound_finished c : onces cfg.1 c = Finished → built cfg.1 c;
  sound_entered c : onces cfg.1 c = Entered → ∃ (i : nat) k, cfg.2 !! i = Some k ∧ Leave c ∈ k;
  sound_calls : Forall2 (sound_call cfg.1) qs cfg.2
}.

Lemma ready_mono q (B B' : cell → Prop) k : (∀ d, B d → B' d) → ready q B k → ready q B' k.
Proof.
  revert B B'. induction k as [|[] k IH]; intros B B' HB; cbn [ready]; try done.
  - by apply IH.
  - apply IH. naive_solver.
  - intros [Hn Hr]. split; [auto|]. eapply IH; [|exact Hr]. naive_solver.
  - by apply IH.
  - intros [? ?]. split; [auto|]. by eapply IH.
  - intros (? & ? & ?). auto.
Qed.

Lemma call_sound ix q : sound_call ix q (call q).
Proof.
  split.
  - by destruct q; cbn; auto.
  - assert (Hn : ∀ d q', Leave d ∉ [Look q']) by (intros d q' [?|?%elem_of_nil]%elem_of_cons; done).
    destruct q; cbn; (split; [|done]); intros d Hd; by apply Hn in Hd.
Qed.

(** What a once's function runs, followed by the call that entered it. *)
Lemma body_sound ix q c k : ready q (built ix) (Do c :: k) → nested (Do c :: k) →
  ready q (built ix) (body c ++ Leave c :: k) ∧ nested (body c ++ Leave c :: k).
Proof.
  cbn [ready nested]. intros Hr [Hd Hn]. assert (Hout : ∀ d i, i ∈ body c → i ≠ Leave d) by (intros d i Hi ->; destruct c; set_solver).
  split.
  - destruct c; cbn [body app ready needs]; (split_and! || idtac); try done; try naive_solver;
      (eapply ready_mono; [|exact Hr]; naive_solver).
  - assert (Hin : ∀ d, Leave d ∈ [Build c; Leave c] ++ k → d = c ∨ Leave d ∈ k) by set_solver.
    destruct c; cbn [body app nested]; try done; (split; [|done]); intros d [->|Hk%Hd]%Hin; cbn [rank] in *; lia.
Qed.

(** What a call may still do, at most: a once entered runs its function. *)
Definition once_cost c : nat := match c with Hier | Expo => 4 | Graph => 7 | Uses | Comps => 10 end.
Definition instr_cost (i : instr) : nat :=
  match i with Ask _ _ => 2 | Do c => once_cost c | Reply _ => 0 | _ => 1 end.
Definition cost k : nat := sum_list_with instr_cost k.

Lemma cost_cons (i : instr) k : cost (i :: k) = instr_cost i + cost k.
Proof. done. Qed.
Lemma cost_nil : cost [] = 0.
Proof. done. Qed.
#[local] Ltac cheaper := rewrite ?cost_cons, ?cost_nil; cbn [instr_cost once_cost]; lia.

Lemma built_walks w n ix c : built (set_walks w n ix) c ↔ built ix c.
Proof. by destruct c. Qed.
Lemma built_once c o ix d : built (set_once c o ix) d ↔ built ix d.
Proof. by destruct d. Qed.

Lemma sound_call_mono ix ix' q k : (∀ c, built ix c → built ix' c) → sound_call ix q k → sound_call ix' q k.
Proof. intros Hb [Hr Hn]. split; [|done]. by eapply ready_mono. Qed.

Record turn_ok ix k ix' k' : Prop := {
  turn_doc : x_doc ix' = doc;
  turn_built c : built ix c → built ix' c;
  turn_finished c : onces ix' c = Finished → built ix' c;
  turn_entered c : onces ix' c = Entered → Leave c ∈ k' ∨ onces ix c = Entered;
  turn_leave c : Leave c ∈ k → onces ix' c = Entered → Leave c ∈ k';
  turn_cost : cost k' < cost k
}.

Lemma turn_same ix k ix' k' :
  (∀ c, onces ix c = Finished → built ix c) → x_doc ix' = doc → onces ix' = onces ix → (∀ c, built ix c → built ix' c) →
  (∀ c, Leave c ∈ k → Leave c ∈ k') → cost k' < cost k → turn_ok ix k ix' k'.
Proof.
  intros Hf Hd Ho Hb Hl Hc. constructor; [done|done| | | |done]; intros c; rewrite Ho; auto.
Qed.

Lemma turn_ask ix q w k : ready q (built ix) (Ask w q :: k) → nested k ∧ cost k < cost (Ask w q :: k) ∧ ready q (built ix) k ∧ ∀ c, Leave c ∉ Ask w q :: k.
Proof.
  cbn [ready]. intros [_ ->]. split_and!.
  - cbn. split; [|done]. intros d Hd. set_solver.
  - cheaper.
  - cbn. auto.
  - intros c. set_solver.
Qed.

Lemma call_turn_sound ix q k ix' k' : x_doc ix = doc → (∀ c, onces ix c = Finished → built ix c) → sound_call ix q k →
  turn ix k = Some (ix', k') → sound_call ix' q k' ∧ turn_ok ix k ix' k'.
Proof.
  intros Ed Hf [Hr Hn]. destruct k as [|[w q'|w spent|c|c|w|c|q'|a] k]; cbn [turn]; try done.
  - destruct Hr as [-> Hk]. destruct (turn_ask ix q w k) as (Hnk & Hck & Hrk & Hl); [done|]. cbn [nested] in Hn.
    destruct (0 <? walks ix w)%Z.
    + destruct (walk_within _ _ _) as [[found spent] []] eqn:E; intros [= <- <-].
      * rewrite Ed in E. apply walk_right in E. split; [by split; cbn|]. apply turn_same; try done; [by intros c ?%Hl|cheaper].
      * split; [by split|]. apply turn_same; try done; [by intros c ?%Hl|cheaper].
    + intros [= <- <-]. split; [by split|]. apply turn_same; try done. by intros c ?%Hl.
  - intros [= <- <-]. split; [split; [|done]; eapply ready_mono; [|exact Hr]; intros c; by rewrite built_walks|].
    apply turn_same; try done; [set_solver|cheaper].
  - destruct (onces ix c) eqn:Eo; [| |]; intros [= <- <-].
    + destruct (body_sound ix q c k Hr Hn) as [Hr' Hn']. split.
      { split; [|done]. eapply ready_mono; [|exact Hr']. intros d. by rewrite built_once. }
      constructor; [done|intros d; by rewrite built_once| | | |].
      * intros d. cbn [onces set_once]. destruct (decide (d = c)); [done|]. rewrite built_once. apply Hf.
      * intros d. cbn [onces set_once]. destruct (decide (d = c)) as [->|]; [left; set_solver|by right].
      * intros d Hd _. set_solver.
      * destruct c; cbn [body app]; cheaper.
    + cbn [ready] in Hr. split; [split; [|apply Hn]; eapply ready_mono; [|exact Hr]; intros d [->|?]; [by apply Hf|done]|].
      apply turn_same; try done; [set_solver|destruct c; cbn [body app]; cheaper].
  - cbn [ready] in Hr. destruct Hr as [Hd Hr]. destruct (build_spec c ix Ed Hd) as (ix1 & E & H1 & H2 & H3 & H4). rewrite E. cbn [mbind option_bind].
    intros [= <- <-]. split; [split; [|done]; eapply ready_mono; [|exact Hr]; intros d [->|?]; auto|].
    apply turn_same; try done; [set_solver|cheaper].
  - intros [= <- <-]. split; [split; [|done]; eapply ready_mono; [|exact Hr]; intros c; by rewrite built_walks|].
    apply turn_same; try done; [set_solver|cheaper].
  - intros [= <- <-]. destruct Hr as [Hc Hr]. split; [split; [|done]; eapply ready_mono; [|exact Hr]; intros d; by rewrite built_once|].
    constructor; [done|intros d; by rewrite built_once| | | |cheaper].
    + intros d. cbn [onces set_once]. rewrite built_once. destruct (decide (d = c)) as [->|]; [done|apply Hf].
    + intros d. cbn [onces set_once]. destruct (decide (d = c)) as [->|]; [done|by right].
    + intros d [[= ->]|Hd]%elem_of_cons; cbn [onces set_once]; [by rewrite decide_True|done].
  - destruct Hr as (-> & -> & Hb). destruct (look_spec q ix Ed Hb) as (a & -> & Ha). intros [= <- <-].
    split; [by split|]. apply turn_same; try done; [set_solver|cheaper].
Qed.

(** A call that cannot step has replied, or waits for a once another runs. *)
Lemma turn_stuck ix q k : x_doc ix = doc → sound_call ix q k → turn ix k = None →
  (∃ a, k = [Reply a]) ∨ ∃ c k', k = Do c :: k' ∧ onces ix c = Entered.
Proof.
  intros Ed [Hr Hn]. destruct k as [|[w q'|w spent|c|c|w|c|q'|a] k]; cbn [turn]; try done.
  - destruct (0 <? walks ix w)%Z; [|done]. by destruct (walk_within _ _ _) as [[found spent] ok].
  - destruct (onces ix c) eqn:Eo; [done| |done]. intros _. right. by exists c, k.
  - destruct Hr as [Hd Hr]. destruct (build_spec c ix Ed Hd) as (ix1 & -> & _). done.
  - destruct Hr as (-> & -> & Hb). by destruct (look_spec q ix Ed Hb) as (a & -> & _).
  - destruct Hr as [_ ->]. intros _. left. by exists a.
Qed.

(** ** The calls together *)

Lemma asked_sound qs : sound qs (asked doc qs).
Proof.
  constructor; try done. cbn [snd asked]. apply Forall2_fmap_r. induction qs as [|q qs IH]; constructor; [apply call_sound|done].
Qed.

Lemma step_sound qs cfg cfg' : sound qs cfg → step cfg cfg' →
  sound qs cfg' ∧ sum_list_with cost cfg'.2 < sum_list_with cost cfg.2.
Proof.
  intros [Hd Hf He Hc] Hs. destruct Hs as [ix ts i k ix' k' Hi Ht]. cbn [fst snd] in *.
  destruct (Forall2_lookup_r _ _ _ _ _ Hc Hi) as (q & Hq & Hk). destruct (call_turn_sound ix q k ix' k' Hd Hf Hk Ht) as [Hk' Hok].
  assert (Hlt : i < length ts) by by eapply lookup_lt_Some. split.
  - constructor; cbn [fst snd]; [apply Hok|apply (turn_finished _ _ _ _ Hok)| |].
    + intros c Ec. destruct (turn_entered _ _ _ _ Hok c Ec) as [Hl|Ec0]; [exists i, k'; by rewrite list_lookup_insert_eq|].
      destruct (He c Ec0) as (j & kj & Hj & Hl). destruct (decide (j = i)) as [->|Hne].
      * assert (kj = k) as -> by congruence. exists i, k'. rewrite list_lookup_insert_eq by done. split; [done|]. by apply (turn_leave _ _ _ _ Hok).
      * exists j, kj. by rewrite list_lookup_insert_ne.
    + rewrite <- (list_insert_id qs i q Hq). apply Forall2_insert; [|done]. eapply Forall2_impl; [exact Hc|].
      intros q' k0. apply sound_call_mono, Hok.
  - pose proof (turn_cost _ _ _ _ Hok) as Hcost. clear -Hi Hcost. revert i Hi. induction ts as [|k0 ts IH]; intros i Hi; [done|].
    destruct i as [|i]; simplify_eq/=; [lia|]. specialize (IH i Hi). lia.
Qed.

Lemma steps_sound qs cfg : rtc step (asked doc qs) cfg → sound qs cfg.
Proof.
  intros Hr. assert (H0 : sound qs (asked doc qs)) by apply asked_sound. induction Hr as [|c1 c2 c3 Hs _ IH]; [done|].
  apply IH. by apply (step_sound _ _ _ H0).
Qed.

(** Where one call waits for a once, the call running it can step, or waits for
    a once of lower rank. *)
Lemma entered_steps qs cfg (n : nat) c : sound qs cfg → rank c < n → onces cfg.1 c = Entered → ∃ cfg', step cfg cfg'.
Proof.
  intros [Hd Hf He Hc]. revert c. induction n as [|n IH]; intros c Hn Ec; [lia|].
  destruct (He c Ec) as (i & k & Hi & Hl). destruct (Forall2_lookup_r _ _ _ _ _ Hc Hi) as (q & Hq & Hk).
  destruct (turn cfg.1 k) as [[ix' k']|] eqn:Et.
  - exists (ix', <[i := k']> cfg.2). destruct cfg as [ix ts]. by apply (step_call _ _ _ i k).
  - destruct (turn_stuck _ q k Hd Hk Et) as [[a ->]|(d & k' & -> & Ed)]; [set_solver|].
    apply (IH d); [|done]. apply elem_of_cons in Hl as [|Hl]; [done|]. destruct Hk as [_ [Hn' _]]. specialize (Hn' c Hl). lia.
Qed.

Lemma sound_steps qs cfg : sound qs cfg → (∃ cfg', step cfg cfg') ∨ ∀ (i : nat) k, cfg.2 !! i = Some k → ∃ a, k = [Reply a].
Proof.
  intros Hs. pose proof Hs as [Hd Hf He Hc].
  assert (Hts : ∀ ts : list (list instr), (∀ k, k ∈ ts → k ∈ cfg.2) → (∃ cfg', step cfg cfg') ∨ ∀ k, k ∈ ts → ∃ a, k = [Reply a]).
  { induction ts as [|k ts IH]; intros Hin; [right; by intros k ?%elem_of_nil|].
    destruct IH as [?|Hall]; [intros; apply Hin; by right|by left|].
    assert (Hk : k ∈ cfg.2) by (apply Hin; by left). apply list_elem_of_lookup in Hk as [i Hi].
    destruct (Forall2_lookup_r _ _ _ _ _ Hc Hi) as (q & Hq & Hk).
    destruct (turn cfg.1 k) as [[ix' k']|] eqn:Et.
    - left. exists (ix', <[i := k']> cfg.2). destruct cfg as [ix ts']. by apply (step_call _ _ _ i k).
    - destruct (turn_stuck _ q k Hd Hk Et) as [[a ->]|(d & k' & -> & Ed)].
      + right. intros k [->|?]%elem_of_cons; [by exists a|by apply Hall].
      + left. apply (entered_steps qs cfg (S (rank d)) d); [done|lia|done]. }
  destruct (Hts cfg.2) as [?|Hall]; [done|by left|right]. intros i k Hi. apply Hall. by eapply list_elem_of_lookup_2.
Qed.

Lemma steps_bounded qs cfg (n : nat) : nsteps step n (asked doc qs) cfg → n ≤ 11 * length qs.
Proof.
  assert (Hq : ∀ qs, sum_list_with cost (call <$> qs) ≤ 11 * length qs).
  { induction qs0 as [|q qs0 IH]; [done|]. rewrite fmap_cons. cbn [sum_list_with length]. assert (cost (call q) ≤ 11) by (destruct q; cbn; lia). lia. }
  specialize (Hq qs). change (call <$> qs) with ((asked doc qs).2) in Hq. intros Hn. pose proof (asked_sound qs) as Hs.
  revert Hs Hq. generalize (11 * length qs). induction Hn as [c1|n c1 c2 c3 H12 _ IH]; intros b Hs Hb; [lia|].
  destruct (step_sound _ _ _ Hs H12) as [Hs2 Hlt]. specialize (IH (pred b) Hs2). lia.
Qed.
End Answers.

Lemma schedule_steps `{Unicode} range (order : list nat) cfg cfg' : schedule range order cfg = Some cfg' → rtc (step range) cfg cfg'.
Proof.
  revert cfg. induction order as [|i order IH]; intros cfg; cbn [schedule]; [intros [= <-]; by constructor|].
  destruct (cfg.2 !! i) as [k|] eqn:Ei; [|done]. cbn [mbind option_bind]. destruct (turn range cfg.1 k) as [[ix k']|] eqn:Et; [|done].
  intros Hr%IH. eapply rtc_l; [|exact Hr]. destruct cfg. by eapply step_call.
Qed.

(** C28: an index shared by any number of concurrent callers refines [ir]'s own
    queries: however the calls' steps interleave, whichever parts happen to be
    built when one reads, and however many steps the walks have left, a call that
    replies gives the answer [ir.IsSubtype] and [ir.ExposedProps] give, the exact
    subtypes in order, and the recursion, component and usage of the document. *)
Theorem index_answers `{Unicode} (range : ∀ A : Type, gmap gostring A → list (gostring * A)) doc (qs : list question) ix ts (i : nat) q a :
  (∀ A m, range A m ≡ₚ map_to_list m) → countable_walk doc → countable_parts (doc_types doc) →
  rtc (step range) (asked doc qs) (ix, ts) → qs !! i = Some q → ts !! i = Some [Reply a] → right range doc q a.
Proof.
  intros Hrange Hw Hp Hr Hq Hi. destruct (steps_sound range Hrange doc Hw Hp qs _ Hr) as [_ _ _ Hc].
  by destruct (Forall2_lookup_lr _ _ _ _ _ _ Hc Hq Hi) as [[Ha _] _].
Qed.

(** C29: calls never wait for each other for ever: at most eleven steps per call
    are taken, whoever is scheduled; while a call has not replied some call can
    step; so every call replies. *)
Theorem index_replies `{Unicode} (range : ∀ A : Type, gmap gostring A → list (gostring * A)) doc (qs : list question) :
  (∀ A m, range A m ≡ₚ map_to_list m) → countable_walk doc → countable_parts (doc_types doc) →
  (∀ (n : nat) cfg, nsteps (step range) n (asked doc qs) cfg → n ≤ 11 * length qs) ∧
  (∀ cfg, rtc (step range) (asked doc qs) cfg →
    (∃ cfg', step range cfg cfg') ∨ length cfg.2 = length qs ∧ ∀ (i : nat) k, cfg.2 !! i = Some k → ∃ a, k = [Reply a]).
Proof.
  intros Hrange Hw Hp. split; [intros n cfg; by apply steps_bounded|].
  intros cfg Hr. pose proof (steps_sound range Hrange doc Hw Hp qs _ Hr) as Hs.
  destruct (sound_steps range Hrange doc Hw Hp qs cfg Hs) as [?|Hall]; [by left|right].
  split; [|done]. symmetry. apply (Forall2_length _ _ _ (sound_calls _ _ _ _ Hs)).
Qed.

Definition sample_range (A : Type) (m : gmap gostring A) : list (gostring * A) := map_to_list m.

(** The third caller builds the hierarchy on the way to the components; the
    others read it, the first because its walks were retired meanwhile. *)
Definition sample_questions : list question :=
  [IsSubtypeQ (go "t/cat") (go "t/animal"); SubtypesQ (go "t/animal"); RecursiveQ (go "t/pet")].

Lemma index_answers_witness : ∃ ix ts, rtc (step sample_range) (asked (Some pets_doc) sample_questions) (ix, ts) ∧
  ts !! 0 = Some [Reply (Yes true)] ∧ right sample_range (Some pets_doc) (IsSubtypeQ (go "t/cat") (go "t/animal")) (Yes true).
Proof.
  set (order := [2; 2; 2; 2; 2; 0; 2; 0; 1; 2; 1; 0; 2; 2; 2; 2]).
  assert (E : snd <$> schedule sample_range order (asked (Some pets_doc) sample_questions) =
    Some [[Reply (Yes true)]; [Reply (Types [go "t/cat"; go "t/pet"])]; [Reply (Yes true)]]).
  { vm_compute. reflexivity. }
  destruct (schedule sample_range order _) as [[ix ts]|] eqn:Es; [|done]. injection E as E. cbn in E. exists ix, ts.
  assert (Hr : rtc (step sample_range) (asked (Some pets_doc) sample_questions) (ix, ts)) by (apply (schedule_steps _ order); exact Es).
  split; [exact Hr|]. assert (Hi : ts !! 0 = Some [Reply (Yes true)]) by (rewrite E; reflexivity). split; [exact Hi|].
  apply (index_answers sample_range (Some pets_doc) sample_questions ix ts 0); [reflexivity|exact pets_countable|exact pets_parts|exact Hr|reflexivity|exact Hi].
Defined.

Lemma index_replies_witness : ∃ cfg, rtc (step sample_range) (asked (Some pets_doc) sample_questions) cfg ∧
  ((∃ cfg', step sample_range cfg cfg') ∨ length cfg.2 = 3 ∧ ∀ (i : nat) k, cfg.2 !! i = Some k → ∃ a, k = [Reply a]).
Proof.
  destruct (schedule sample_range [2; 2; 2; 0] (asked (Some pets_doc) sample_questions)) as [cfg|] eqn:Es; [|exfalso; vm_compute in Es; discriminate].
  apply schedule_steps in Es. exists cfg. split; [exact Es|].
  apply (index_replies sample_range (Some pets_doc) sample_questions); [reflexivity|exact pets_countable|exact pets_parts|exact Es].
Defined.
