(* ===== verification/Walk.v ===== *)
(** * Walk: the traversal of a value by reflection
    ([src/ir/walk.go], [src/ir/entries.go])

    A Go value as the [reflect] package shows it, and what its references lead
    to. The traversal is bounded by [MaxWalkDepth], carries up to 64 visitors at
    once, enters a shared pointer once for each, and never enters a reference it
    is inside. *)
From S2P Require Import Prelude GoLib Decimal Findings.

(** ** Values *)

(** The type of a reference, by its kind and its name. *)
Inductive refType := PointerType (t : gostring) | SliceType (t : gostring) | MapType (t : gostring).
#[export] Instance refType_eq_dec : EqDecision refType. Proof. solve_decision. Defined.
#[export] Instance refType_countable : Countable refType.
Proof.
  apply (inj_countable'
    (λ t, match t with PointerType t => inl t | SliceType t => inr (inl t) | MapType t => inr (inr t) end)
    (λ s, match s with inl t => PointerType t | inr (inl t) => SliceType t | inr (inr t) => MapType t end)). by intros [].
Defined.

(** [refKey]: a reference, as the encoder identifies it. *)
Record refKey := mkRefKey { rk_typ : refType; rk_ptr : nat; rk_n : nat }.
#[export] Instance refKey_eq_dec : EqDecision refKey. Proof. solve_decision. Defined.
#[export] Instance refKey_countable : Countable refKey.
Proof. apply (inj_countable' (λ k, (rk_typ k, rk_ptr k, rk_n k)) (λ p, mkRefKey p.1.1 p.1.2 p.2)). by intros []. Defined.

(** A [reflect.Value] by its kind. A nil pointer, interface or map holds nothing,
    a nil slice no element; [bytes] says a sequence's elements are bytes. *)
Inductive goval :=
  | Scalar (t : gostring)                                  (* float, func, channel *)
  | Boolean (t : gostring) (b : bool)
  | Integer (t : gostring) (z : Z)
  | Text (t s : gostring)                                  (* string *)
  | Struct (t : gostring) (fs : list goval)
  | Interface (t : gostring) (v : option goval)
  | Pointer (t : gostring) (p : option nat)
  | Array (t : gostring) (bytes : bool) (vs : list goval)
  | Slice (t : gostring) (bytes : bool) (p n : nat)
  | MapV (t : gostring) (p : option nat).

(** [reflect.Value.Type] *)
Definition type_of (v : goval) : gostring :=
  match v with
  | Scalar t | Boolean t _ | Integer t _ | Text t _ | Struct t _ | Interface t _ | Pointer t _ | Array t _ _ | Slice t _ _ _ | MapV t _ => t
  end.

(** What references lead to. *)
Record memory := mkMemory {
  pointee : refKey → goval;
  elements : refKey → list goval;
  map_entries : refKey → list (goval * goval)   (* in the order the runtime ranges *)
}.

(** ** Paths *)

Definition MaxWalkDepth : nat := 4096.
Definition MapKeySuffix : gostring := go ".key".
Definition DocumentPath : gostring := go "doc".

Section Types.
(** The fields of a struct type: each one's name, and whether it is embedded. *)
Context (fields : gostring → list (gostring * bool)).

(** [reflect.Type.Field], which panics past the last. *)
Definition Field (owner : gostring) (index : Z) : gostring * bool := default ([], false) (fields owner !! Z.to_nat index).

(** [pathStep.appendTo] and [pathStep.embedded] *)
Definition appendTo (b : gostring) (s : pathStep) : gostring :=
  match step_kind s with
  | stepField => let '(name, anonymous) := Field (step_owner s) (step_index s) in if anonymous then b else b ++ go "." ++ name
  | stepElement => b ++ go "[" ++ FormatInt (step_index s) ++ go "]"
  | stepMapKey => b ++ go "[" ++ step_label s ++ go "]" ++ MapKeySuffix
  | stepMapValue => b ++ go "[" ++ step_label s ++ go "]"
  end.
Definition embedded (s : pathStep) : bool :=
  match step_kind s with stepField => (Field (step_owner s) (step_index s)).2 | _ => false end.

(** [WalkPath.String]: the zero path is the empty root and no step. *)
Definition path_String (at_ : path) : gostring := foldl appendTo at_.1 at_.2.

(** [WalkPath.Field]: the owner and the name of the field the path ends in. *)
Fixpoint outermost (owner : gostring) (rev_steps : list pathStep) : gostring :=
  match rev_steps with
  | s :: rest => if embedded s then outermost (step_owner s) rest else owner
  | [] => owner
  end.
Fixpoint last_field (rev_steps : list pathStep) : option (gostring * gostring) :=
  match rev_steps with
  | [] => None
  | s :: rest =>
      if embedded s then last_field rest
      else match step_kind s with
           | stepField => Some (outermost (step_owner s) rest, (Field (step_owner s) (step_index s)).1)
           | _ => None
           end
  end.
Definition path_Field (at_ : path) : option (gostring * gostring) := last_field (rev at_.2).

Definition IsMapKey (at_ : path) : bool :=
  match last at_.2 with Some s => bool_decide (step_kind s = stepMapKey) | None => false end.
End Types.

(** ** Map entries *)

(** [keyLabel]; [Sprint] is fmt's [%v], for a key that spells itself. *)
Definition keyLabel (plain : gostring → bool) (Sprint : goval → gostring) (k : goval) : gostring :=
  match k with
  | Text t s => if plain t then s else Sprint k
  | Integer t z => if plain t then FormatInt z else Sprint k
  | _ => Sprint k
  end.

Record mapEntry := mkEntry { label : gostring; key : goval; value : goval }.
Definition entry_le (a b : mapEntry) : Prop := string_le (label a) (label b).
#[export] Instance entry_le_dec a b : Decision (entry_le a b).
Proof. unfold entry_le, string_le. apply _. Defined.

(** [entryStack.push]: the entries of a map in rendered-key order. *)
Definition push plain Sprint (entries : list (goval * goval)) : list mapEntry :=
  merge_sort entry_le ((λ e, mkEntry (keyLabel plain Sprint e.1) e.1 e.2) <$> entries).

(** ** The traversal *)

(** [visitorSet]: one bit a visitor. *)
Abbreviation visitorSet := Z (only parsing).

Section Walk.
Context (mem : memory) (plain : gostring → bool) (Sprint : goval → gostring).
Context {S : Type}.

(** A [Visitor] writes a state visitors share; [Cycle] is a [CycleVisitor]'s. *)
Record Visitor := mkVisitor {
  Visit : S → goval → path → S * bool;
  Cycle : option (S → path → path → refType → S)
}.

Definition maxSharedVisitors : nat := 64.
Definition members (set : visitorSet) : list nat := filter (λ i, Z.testbit set (Z.of_nat i) = true) (seq 0 maxSharedVisitors).

Record insideRef := mkInside { in_key : refKey; in_depth : nat }.

(** [valueWalk], with the state its visitors write. *)
Record valueWalk := mkWalk {
  seen : gmap refKey visitorSet;
  inside : list insideRef;
  steps : list pathStep;
  truncated : bool;
  shown : Z;
  asks : nat;
  refusal : option gostring;
  store : S
}.
Implicit Types (w : valueWalk) (v : goval) (active : visitorSet).

Definition set_seen w s := mkWalk s (inside w) (steps w) (truncated w) (shown w) (asks w) (refusal w) (store w).
Definition set_inside w i := mkWalk (seen w) i (steps w) (truncated w) (shown w) (asks w) (refusal w) (store w).
Definition set_steps w s := mkWalk (seen w) (inside w) s (truncated w) (shown w) (asks w) (refusal w) (store w).
Definition truncate w := mkWalk (seen w) (inside w) (steps w) true (shown w) (asks w) (refusal w) (store w).
Definition set_asked w n a r := mkWalk (seen w) (inside w) (steps w) (truncated w) n a r (store w).
Definition set_store w s := mkWalk (seen w) (inside w) (steps w) (truncated w) (shown w) (asks w) (refusal w) s.

(** The root's path, one traversal's visitors, and what it asks, if anything,
    whether to stop: the answer to each ask in turn. *)
Context (root : gostring) (visitors : list (option Visitor)) (ask : option (nat → option gostring)).

Definition here w : path := (root, steps w).

Definition askEvery : Z := 256.
Definition refused w : bool * valueWalk :=
  match ask, refusal w with
  | None, _ => (bool_decide (is_Some (refusal w)), w)
  | Some _, Some _ => (true, w)
  | Some ask, None =>
      if (shown w mod askEvery =? 0)%Z then
        match ask (asks w) with
        | Some err => (true, set_asked w (shown w) (Datatypes.S (asks w)) (Some err))
        | None => (false, set_asked w (shown w + 1) (Datatypes.S (asks w)) None)
        end
      else (false, set_asked w (shown w + 1) (asks w) None)
  end.

(** Showing a value to each active visitor, in order; which of them ask on. *)
Definition show_to v (st : valueWalk * visitorSet) (i : nat) : valueWalk * visitorSet :=
  match visitors !! i with
  | Some (Some V) =>
      let '(s, asks) := Visit V (store st.1) v (here st.1) in
      (set_store st.1 s, if asks : bool then Z.lor st.2 (Z.shiftl 1 (Z.of_nat i)) else st.2)
  | _ => st
  end.
Definition show v active w : valueWalk * visitorSet := foldl (show_to v) (w, 0%Z) (members active).

(** [valueWalk.closesCycle]; references are innermost last. *)
Definition tell_cycle (k : refKey) (entered : nat) w (i : nat) : valueWalk :=
  match visitors !! i with
  | Some (Some V) =>
      match Cycle V with
      | Some told => set_store w (told (store w) (here w) (root, take entered (steps w)) (rk_typ k))
      | None => w
      end
  | _ => w
  end.
Definition closesCycle (k : refKey) active w : bool * valueWalk :=
  match list_find (λ r, in_key r = k) (inside w) with
  | Some (_, r) => (true, foldl (tell_cycle k (in_depth r)) w (members active))
  | None => (false, w)
  end.

Definition enter (k : refKey) w : valueWalk := set_inside w (inside w ++ [mkInside k (length (steps w))]).
Definition leave w : valueWalk := set_inside w (removelast (inside w)).

(** Children, by what descends into one. *)
Section Children.
Context (descend : goval → visitorSet → valueWalk → valueWalk).

Definition step (s : pathStep) (child : goval) active w : valueWalk :=
  let w := descend child active (set_steps w (steps w ++ [s])) in set_steps w (removelast (steps w)).
Definition step_all (cs : list (pathStep * goval)) active w : valueWalk := foldl (λ w c, step c.1 c.2 active w) w cs.

Definition pointer (t : gostring) (p : nat) active w : valueWalk :=
  let k := mkRefKey (PointerType t) p 0 in
  let entered := default 0%Z (seen w !! k) in
  let fresh := Z.ldiff active entered in
  if (fresh =? 0)%Z then (closesCycle k active w).2
  else leave (descend (pointee mem k) fresh (enter k (set_seen w (<[k := Z.lor entered fresh]> (seen w))))).

Definition element_steps (vs : list goval) : list (pathStep * goval) :=
  imap (λ i v, ({| step_kind := stepElement; step_owner := []; step_index := Z.of_nat i; step_label := [] |}, v)) vs.
Definition field_steps (t : gostring) (fs : list goval) : list (pathStep * goval) :=
  imap (λ i v, ({| step_kind := stepField; step_owner := t; step_index := Z.of_nat i; step_label := [] |}, v)) fs.
Definition entry_steps (es : list mapEntry) : list (pathStep * goval) :=
  e ← es;
  [({| step_kind := stepMapKey; step_owner := []; step_index := 0; step_label := label e |}, key e);
   ({| step_kind := stepMapValue; step_owner := []; step_index := 0; step_label := label e |}, value e)].

(** A slice or a map the walk is not inside yet. *)
Definition reference (k : refKey) (cs : list (pathStep * goval)) active w : valueWalk :=
  let '(closes, w) := closesCycle k active w in
  if closes : bool then w else leave (step_all cs active (enter k w)).

Definition sequence v active w : valueWalk :=
  match v with
  | Array _ bytes vs => if bytes || (length vs =? 0) then w else step_all (element_steps vs) active w
  | Slice t bytes p n =>
      if bytes || (n =? 0) then w
      else let k := mkRefKey (SliceType t) p n in reference k (element_steps (elements mem k)) active w
  | _ => w
  end.

Definition mapping (t : gostring) (p : nat) active w : valueWalk :=
  let k := mkRefKey (MapType t) p 0 in
  match map_entries mem k with
  | [] => w
  | entries => reference k (entry_steps (push plain Sprint entries)) active w
  end.

Definition children v active w : valueWalk :=
  match v with
  | Pointer t (Some p) => pointer t p active w
  | Interface _ (Some v) => descend v active w
  | Struct t fs => step_all (field_steps t fs) active w
  | Slice _ _ _ _ | Array _ _ _ => sequence v active w
  | MapV t (Some p) => mapping t p active w
  | _ => w
  end.
End Children.

(** [valueWalk.walk]. [levels] is how many levels are left to the cap,
    [MaxWalkDepth] less the code's [depth]; [descend] records one past it. *)
Fixpoint walk (levels : nat) v active w : valueWalk :=
  let '(stop, w) := refused w in
  if stop : bool then w
  else
    let '(w, asking) := show v active w in
    if (asking =? 0)%Z then w
    else children (λ child active w, match levels with O => truncate w | Datatypes.S levels => walk levels child active w end) v asking w.

Definition all : visitorSet :=
  foldl (λ set i, match visitors !! i with Some (Some _) => Z.lor set (Z.shiftl 1 (Z.of_nat i)) | _ => set end) 0%Z (seq 0 (length visitors)).
Definition newValueWalk (asked : nat) (s : S) : valueWalk := mkWalk ∅ [] [] false 0 asked None s.

(** One traversal of [walkValues]; a nil root is shown to no one. *)
Definition traverse (v : option goval) (asked : nat) (s : S) : valueWalk :=
  let w := newValueWalk asked s in match v with Some v => walk MaxWalkDepth v all w | None => w end.
End Walk.

Section Entry.
Context (mem : memory) (plain : gostring → bool) (Sprint : goval → gostring) {S : Type}.
Implicit Types (visitors : list (option (Visitor (S:=S)))).

(** [slices.Chunk] *)
Fixpoint chunks {A} (fuel n : nat) (l : list A) : list (list A) :=
  match fuel, l with
  | O, _ | _, [] => []
  | Datatypes.S fuel, _ => take n l :: chunks fuel n (drop n l)
  end.
Definition Chunk {A} (n : nat) (l : list A) : list (list A) := chunks (length l) n l.

(** [walkValues]: what the visitors wrote, whether the depth cap cut a traversal
    short, and the error of the ask that stopped one. *)
Fixpoint walk_groups (ask : option (nat → option gostring)) (v : option goval) (root : gostring) (groups : list (list (option Visitor)))
    (asked : nat) (cut : bool) (s : S) : S * bool * option gostring :=
  match groups with
  | [] => (s, cut, None)
  | group :: groups =>
      let w := traverse mem plain Sprint root group ask v asked s in
      match refusal w with
      | Some err => (store w, cut || truncated w, Some err)
      | None => walk_groups ask v root groups (asks w) (cut || truncated w) (store w)
      end
  end.
Definition walkValues ask v root visitors s := walk_groups ask v root (Chunk maxSharedVisitors visitors) 0 false s.

Definition WalkValues v root visitors s : S * bool := (walkValues None v root visitors s).1.
Definition WalkValuesContext ctx v root visitors s : S * bool * option gostring := walkValues (Some ctx) v root visitors s.
End Entry.
