(* ===== verification/WalkAlone.v ===== *)
(** * WalkAlone: visitors that share a traversal see what each would see alone *)
From S2P Require Import Prelude GoLib Decimal Findings Walk.

(** ** Sets of visitors *)

Definition bit (set : visitorSet) (i : nat) : bool := Z.testbit set (Z.of_nat i).
Definition in_range (set : visitorSet) : Prop := ∀ i, bit set i = true → i < maxSharedVisitors.
Definition alone (i : nat) : visitorSet := Z.shiftl 1 (Z.of_nat i).

Lemma set_zero (set : visitorSet) : set = 0%Z ↔ ∀ i, bit set i = false.
Proof.
  split; [intros -> i; apply Z.testbit_0_l|]. intros Hb. apply Z.bits_inj'. intros n Hn. rewrite Z.testbit_0_l.
  specialize (Hb (Z.to_nat n)). unfold bit in Hb. by rewrite Z2Nat.id in Hb.
Qed.

Lemma set_nonzero (set : visitorSet) : set ≠ 0%Z → ∃ i, bit set i = true.
Proof.
  intros Hne. destruct (Z_lt_le_dec set 0) as [Hneg|Hpos].
  - exists (S (Z.to_nat (Z.log2 (- set)))). unfold bit. apply Z.bits_iff_neg; [|done]. rewrite Nat2Z.inj_succ, Z2Nat.id by apply Z.log2_nonneg.
    apply Z.lt_succ_r, Z.log2_le_mono. lia.
  - exists (Z.to_nat (Z.log2 set)). unfold bit. rewrite Z2Nat.id by apply Z.log2_nonneg. apply Z.bit_log2. lia.
Qed.

Lemma bit_alone (i j : nat) : bit (alone i) j = bool_decide (i = j).
Proof.
  unfold bit, alone. rewrite Z.shiftl_spec by lia. destruct (decide (i = j)) as [->|Hne].
  - rewrite Z.sub_diag, bool_decide_eq_true_2 by done. reflexivity.
  - rewrite bool_decide_eq_false_2 by done. destruct (Z_lt_le_dec (Z.of_nat j - Z.of_nat i) 0); [by apply Z.testbit_neg_r|].
    change 1%Z with (2 ^ 0)%Z. apply Z.pow2_bits_false. lia.
Qed.

Lemma bit_lor a b (i : nat) : bit (Z.lor a b) i = bit a i || bit b i.
Proof. apply Z.lor_spec. Qed.

Lemma bit_ldiff a b (i : nat) : bit (Z.ldiff a b) i = bit a i && negb (bit b i).
Proof. apply Z.ldiff_spec. Qed.

Lemma members_bit set (i : nat) : in_range set → i ∈ members set ↔ bit set i = true.
Proof.
  intros Hr. unfold members. rewrite list_elem_of_filter, elem_of_seq. fold (bit set i). split; [by intros [? _]|]. intros Hb. split; [done|]. pose proof (Hr i Hb). lia.
Qed.

Lemma NoDup_members set : NoDup (members set).
Proof. apply NoDup_filter, NoDup_seq. Qed.

Lemma members_alone (i : nat) : i < maxSharedVisitors → members (alone i) = [i].
Proof.
  intros Hi. assert (Hr : in_range (alone i)) by (intros j; rewrite bit_alone; by intros ->%bool_decide_eq_true).
  pose proof (NoDup_members (alone i)) as Hd. pose proof (λ j, members_bit (alone i) j Hr) as Hm. setoid_rewrite bit_alone in Hm.
  destruct (members (alone i)) as [|j [|k l]].
  - exfalso. apply (not_elem_of_nil i), Hm. by apply bool_decide_eq_true.
  - f_equal. specialize (Hm j). rewrite bool_decide_eq_true in Hm. symmetry. apply Hm. by left.
  - exfalso. setoid_rewrite bool_decide_eq_true in Hm. assert (i = j) as <- by (apply Hm; by left). assert (i = k) as <- by (apply Hm; right; by left).
    apply NoDup_cons in Hd as [Hd _]. apply Hd. by left.
Qed.

Section Alone.
Context (mem : memory) (plain : gostring → bool) (Sprint : goval → gostring) (root : gostring).
Context {S T : Type} (view : nat → S → T).
Context (visitors : list (option (Visitor (S:=S)))).
#[local] Abbreviation valueWalk := (valueWalk (S:=S)).
Implicit Types (w a : valueWalk) (active fresh : visitorSet) (v : goval) (f : nat → valueWalk).

(** A visitor that reads and writes its own part of the state. *)
Record own_state (i : nat) (V : Visitor (S:=S)) : Prop := {
  visit_reads s s' v p : view i s = view i s' → (Visit V s v p).2 = (Visit V s' v p).2 ∧ view i (Visit V s v p).1 = view i (Visit V s' v p).1;
  visit_leaves j s v p : j ≠ i → view j (Visit V s v p).1 = view j s;
  told_reads told s s' p q t : Cycle V = Some told → view i s = view i s' → view i (told s p q t) = view i (told s' p q t);
  told_leaves told j s p q t : Cycle V = Some told → j ≠ i → view j (told s p q t) = view j s
}.
Context (Hown : ∀ i V, visitors !! i = Some (Some V) → own_state i V).

(** The traversal with every other visitor nil. *)
Definition only (i : nat) (vs : list (option (Visitor (S:=S)))) : list (option (Visitor (S:=S))) :=
  imap (λ j V, if decide (j = i) then V else None) vs.

Lemma only_at (i : nat) vs : only i vs !! i = vs !! i.
Proof. unfold only. rewrite list_lookup_imap. destruct (vs !! i); cbn; [by rewrite decide_True|done]. Qed.

#[local] Abbreviation show := (Walk.show root visitors).
#[local] Abbreviation show1 i := (Walk.show root (only i visitors)).
#[local] Abbreviation closesCycle := (Walk.closesCycle root visitors).
#[local] Abbreviation closesCycle1 i := (Walk.closesCycle root (only i visitors)).

Definition seen_by w (k : refKey) (i : nat) : bool := bit (default 0%Z (seen w !! k)) i.

(** A walk with others and one alone, at one place. *)
Record together (i : nat) w a : Prop := {
  t_view : view i (store w) = view i (store a);
  t_steps : steps w = steps a;
  t_inside : inside w = inside a;
  t_seen k : seen_by w k i = seen_by a k i;
  t_refusal : refusal w = None;
  t_refusal1 : refusal a = None
}.

(** What a walk keeps of where it started, for visitors outside a set. *)
Record keeps active w w' : Prop := {
  k_steps : steps w' = steps w;
  k_inside : inside w' = inside w;
  k_refusal : refusal w' = refusal w;
  k_more k i : seen_by w k i = true → seen_by w' k i = true;
  k_view i : bit active i = false → view i (store w') = view i (store w);
  k_seen k i : bit active i = false → seen_by w' k i = seen_by w k i
}.

Lemma keeps_refl active w : keeps active w w.
Proof. by constructor. Qed.

Lemma keeps_trans active w1 w2 w3 : keeps active w1 w2 → keeps active w2 w3 → keeps active w1 w3.
Proof.
  intros [A1 A2 A3 A4 A5 A6] [B1 B2 B3 B4 B5 B6]. constructor; [congruence..| | |].
  - intros k i Hk. by apply B4, A4.
  - intros i Hi. by rewrite B5, A5.
  - intros k i Hi. by rewrite B6, A6.
Qed.

(** Every active visitor has entered each pointer the walk is inside. *)
Definition all_entered active w : Prop :=
  ∀ r t, r ∈ inside w → rk_typ (in_key r) = PointerType t → ∀ i, bit active i = true → seen_by w (in_key r) i = true.

(** A walk with others and every active visitor's own. *)
Record in_step active w f : Prop := {
  s_together i : bit active i = true → together i w (f i);
  s_entered : all_entered active w;
  s_truncated : truncated w = true ↔ ∃ i, truncated (f i) = true
}.

Lemma keeps_weaken active fresh w w' : (∀ i, bit fresh i = true → bit active i = true) → keeps fresh w w' → keeps active w w'.
Proof.
  intros Hsub [K1 K2 K3 K4 K5 K6].
  assert (H : ∀ i, bit active i = false → bit fresh i = false) by (intros i Hi; destruct (bit fresh i) eqn:E; [apply Hsub in E; congruence|done]).
  constructor; auto.
Qed.

Lemma together_keeps (i : nat) active w w' a : bit active i = false → keeps active w w' → together i w a → together i w' a.
Proof.
  intros Hi [K1 K2 K3 K4 K5 K6] [T1 T2 T3 T4 T5 T6]. constructor; try congruence; [by rewrite K5|]. intros k. by rewrite K6.
Qed.

(** ** Showing a value *)

Lemma show_one (i : nat) v w s a : view i (store w) = view i (store a) → steps w = steps a → ∃ s' asks,
  show_to root visitors v (w, s) i = (set_store w s', if asks : bool then Z.lor s (alone i) else s) ∧
  ∃ s1, show_to root (only i visitors) v (a, 0%Z) i = (set_store a s1, if asks then alone i else 0%Z) ∧ view i s' = view i s1.
Proof.
  intros Hv Hs. unfold show_to. rewrite only_at. destruct (visitors !! i) as [[V|]|] eqn:EV.
  - cbn [fst snd]. destruct (visit_reads i V (Hown i V EV) (store w) (store a) v (here root w) Hv) as [Ha Hs'].
    assert (Hh : here root w = here root a) by (unfold here; by rewrite Hs). rewrite Hh in *.
    destruct (Visit V (store w) v (here root a)) as [s' asks], (Visit V (store a) v (here root a)) as [s1 asks1]. cbn in Ha, Hs'. subst asks1.
    exists s', asks. split; [done|]. exists s1. split; [|done]. by destruct asks.
  - exists (store w), false. split; [by destruct w|]. exists (store a). split; [by destruct a|done].
  - exists (store w), false. split; [by destruct w|]. exists (store a). split; [by destruct a|done].
Qed.

Lemma show_list v (us : list nat) : NoDup us → ∀ w (set : visitorSet), ∃ s asking,
  foldl (show_to root visitors v) (w, set) us = (set_store w s, asking) ∧
  (∀ i, i ∉ us → view i s = view i (store w) ∧ bit asking i = bit set i) ∧
  ∀ i a, i ∈ us → bit set i = false → view i (store w) = view i (store a) → steps w = steps a →
    ∃ s1, show_to root (only i visitors) v (a, 0%Z) i = (set_store a s1, if bit asking i then alone i else 0%Z) ∧ view i s = view i s1.
Proof.
  induction 1 as [|j us Hj Hd IH]; intros w set; cbn [foldl].
  { exists (store w), set. split_and!; [by destruct w|done|]. by intros i a ?%elem_of_nil. }
  destruct (show_one j v w set w eq_refl eq_refl) as (s1 & b & E1 & _). rewrite E1.
  destruct (IH (set_store w s1) (if b then Z.lor set (alone j) else set)) as (s & asking & E & Hout & Hin).
  assert (Hothers : ∀ i, i ≠ j → view i s1 = view i (store w) ∧ bit (if b then Z.lor set (alone j) else set) i = bit set i).
  { intros i Hne. split.
    - revert E1. unfold show_to. destruct (visitors !! j) as [[V|]|] eqn:EV; [|intros E1; apply (f_equal (λ p, store p.1)) in E1; cbn in E1; congruence..].
      cbn [fst snd]. pose proof (visit_leaves j V (Hown j V EV) i (store w) v (here root w) Hne) as Hv.
      destruct (Visit V _ _ _) as [s2 b2]. intros E1. apply (f_equal (λ p, store p.1)) in E1. cbn in E1, Hv. congruence.
    - destruct b; [|done]. by rewrite bit_lor, bit_alone, bool_decide_eq_false_2, orb_false_r. }
  exists s, asking. split_and!; [exact E| |].
  - intros i [Hne Hi]%not_elem_of_cons. destruct (Hout i Hi) as [-> ->]. by apply Hothers.
  - intros i a Hi Hset Hv Hs. destruct (decide (i = j)) as [->|Hne].
    + destruct (show_one j v w set a Hv Hs) as (s1' & b' & E1' & s2 & E2 & Hv2).
      rewrite E1' in E1. assert (Hss : s1' = s1) by (apply (f_equal (λ p, store p.1)) in E1; done). subst s1'.
      assert (Hbb : b' = b).
      { apply (f_equal (λ p, bit p.2 j)) in E1. cbn [snd] in E1. destruct b, b'; try done; rewrite bit_lor, bit_alone, bool_decide_eq_true_2, Hset in E1 by done; done. }
      subst b'. exists s2. destruct (Hout j Hj) as [Ho Hb]. rewrite Ho, Hb. split; [|done]. rewrite E2.
      destruct b; [by rewrite bit_lor, bit_alone, (bool_decide_eq_true_2 (j = j)), orb_true_r|by rewrite Hset].
    + apply elem_of_cons in Hi as [?|Hi]; [done|]. destruct (Hothers i Hne) as [Hv1 Hb1]. apply Hin; [done|by rewrite Hb1|by cbn [store set_store]; rewrite Hv1|done].
Qed.

(** Showing leaves all but the state the visitors write; each active one's
    answer is its own. *)
Lemma show_spec v active w f : in_range active → in_step active w f → ∃ s asking,
  show v active w = (set_store w s, asking) ∧
  (∀ i, bit asking i = true → bit active i = true) ∧
  (∀ i, bit active i = false → view i s = view i (store w)) ∧
  ∀ i, bit active i = true → ∃ s1, show1 i v (alone i) (f i) = (set_store (f i) s1, if bit asking i then alone i else 0%Z) ∧ view i s = view i s1.
Proof.
  intros Hr Hstep. assert (Hm : ∀ i, i ∈ members active ↔ bit active i = true) by (intros i; by apply members_bit).
  destruct (show_list v (members active) (NoDup_members active) w 0%Z) as (s & asking & E & Hout & Hin). exists s, asking. split; [exact E|].
  assert (Hn : ∀ i, bit active i = false → i ∉ members active) by (intros i Hi; rewrite Hm; congruence). split_and!.
  - intros i Hi. destruct (bit active i) eqn:Ea; [done|]. apply Hn, Hout in Ea as [_ Ea]. rewrite Ea in Hi. by unfold bit in Hi; rewrite Z.testbit_0_l in Hi.
  - intros i Hi. by apply Hout, Hn.
  - intros i Hi. destruct (s_together _ _ _ Hstep i Hi) as [T1 T2 _ _ _ _].
    unfold Walk.show. rewrite members_alone by by apply Hr. cbn [foldl]. apply Hin; [by apply Hm|apply Z.testbit_0_l|done|done].
Qed.

(** Telling of a cycle is the same. *)
Lemma tell_list k (n : nat) (us : list nat) : NoDup us → ∀ w, ∃ s,
  foldl (tell_cycle root visitors k n) w us = set_store w s ∧
  (∀ i, i ∉ us → view i s = view i (store w)) ∧
  ∀ i a, i ∈ us → view i (store w) = view i (store a) → steps w = steps a →
    ∃ s1, tell_cycle root (only i visitors) k n a i = set_store a s1 ∧ view i s = view i s1.
Proof.
  assert (Hone : ∀ j w, ∃ s, tell_cycle root visitors k n w j = set_store w s ∧ (∀ i, i ≠ j → view i s = view i (store w)) ∧
    ∀ a, view j (store w) = view j (store a) → steps w = steps a → ∃ s1, tell_cycle root (only j visitors) k n a j = set_store a s1 ∧ view j s = view j s1).
  { intros j w. unfold tell_cycle. rewrite only_at.
    assert (Hsame : ∃ s, w = set_store w s ∧ (∀ i, i ≠ j → view i s = view i (store w)) ∧
      ∀ a, view j (store w) = view j (store a) → steps w = steps a → ∃ s1, a = set_store a s1 ∧ view j s = view j s1).
    { exists (store w). split_and!; [by destruct w|done|]. intros a Hv _. exists (store a). split; [by destruct a|done]. }
    destruct (visitors !! j) as [[V|]|] eqn:EV; [|exact Hsame..]. destruct (Cycle V) as [told|] eqn:EC; [|exact Hsame].
    eexists. split_and!; [done| |].
    - intros i Hne. by apply (told_leaves j V (Hown j V EV) told).
    - intros a Hv Hs. eexists. split; [done|]. rewrite Hs. unfold here. rewrite Hs. by apply (told_reads j V (Hown j V EV) told). }
  induction 1 as [|j us Hj Hd IH]; intros w; cbn [foldl].
  { exists (store w). split_and!; [by destruct w|done|]. by intros i a ?%elem_of_nil. }
  destruct (Hone j w) as (s1 & E1 & Hleave & Hj1). rewrite E1. destruct (IH (set_store w s1)) as (s & E & Hout & Hin). exists s. split_and!.
  - by rewrite E.
  - intros i [Hne Hi]%not_elem_of_cons. rewrite (Hout i Hi). by apply Hleave.
  - intros i a Hi Hv Hs. destruct (decide (i = j)) as [->|Hne].
    + destruct (Hj1 a Hv Hs) as (s2 & E2 & Hv2). exists s2. split; [done|]. by rewrite (Hout j Hj).
    + apply elem_of_cons in Hi as [?|Hi]; [done|]. apply Hin; [done| |done]. cbn [store set_store]. by rewrite (Hleave i Hne).
Qed.

Lemma closes_spec k active w f : in_range active → in_step active w f → ∃ s b,
  closesCycle k active w = (b, set_store w s) ∧ (b = true ↔ ∃ r, r ∈ inside w ∧ in_key r = k) ∧
  (∀ i, bit active i = false → view i s = view i (store w)) ∧
  ∀ i, bit active i = true → ∃ s1, closesCycle1 i k (alone i) (f i) = (b, set_store (f i) s1) ∧ view i s = view i s1.
Proof.
  intros Hr Hstep. assert (Hm : ∀ i, i ∈ members active ↔ bit active i = true) by (intros i; by apply members_bit).
  unfold Walk.closesCycle. destruct (list_find (λ r, in_key r = k) (inside w)) as [[n r]|] eqn:E.
  - destruct (tell_list k (in_depth r) (members active) (NoDup_members active) w) as (s & -> & Hout & Hin). exists s, true. split_and!; [done| | |].
    + split; [intros _|done]. apply list_find_Some in E as (E & ? & _). exists r. split; [by eapply list_elem_of_lookup_2|done].
    + intros i Hi. apply Hout. rewrite Hm. congruence.
    + intros i Hi. destruct (s_together _ _ _ Hstep i Hi) as [T1 T2 T3 _ _ _]. rewrite <- T3, E, members_alone by by apply Hr. cbn [foldl].
      destruct (Hin i (f i)) as (s1 & -> & Hv); [by apply Hm|done|done|]. by exists s1.
  - exists (store w), false. split_and!; [by destruct w| |done|].
    + split; [done|]. intros (r & Hrin & Hk). apply list_find_None in E. rewrite Forall_forall in E. by destruct (E r Hrin).
    + intros i Hi. destruct (s_together _ _ _ Hstep i Hi) as [T1 T2 T3 _ _ _]. rewrite <- T3, E. exists (store (f i)). split; [by destruct (f i)|done].
Qed.

(** ** Descending *)

Implicit Types (D : goval → visitorSet → valueWalk → valueWalk) (Da : nat → goval → visitorSet → valueWalk → valueWalk).

(** A walk stage and the stage of each visitor alone. *)
Definition stage_alone active (F : valueWalk → valueWalk) (Fa : nat → valueWalk → valueWalk) : Prop :=
  ∀ w f, in_step active w f → keeps active w (F w) ∧ in_step active (F w) (λ i, if bit active i then Fa i (f i) else f i).

Definition descends D Da : Prop := ∀ v active, active ≠ 0%Z → in_range active → stage_alone active (D v active) (λ i, Da i v (alone i)).

Lemma in_step_ext active w f f' : (∀ i, f i = f' i) → in_step active w f → in_step active w f'.
Proof.
  intros He [H1 H2 H3]. constructor; [intros i Hi; rewrite <- He; auto|done|]. rewrite H3. split; intros [i Hi]; exists i; congruence.
Qed.

Lemma in_step_alter active w w' f f' : in_step active w f → (∀ i, bit active i = true → together i w' (f' i)) → all_entered active w' →
  truncated w' = truncated w → (∀ i, truncated (f' i) = truncated (f i)) → in_step active w' f'.
Proof. intros [H1 H2 H3] Ht He Hw Hf. constructor; [done..|]. rewrite Hw, H3. by setoid_rewrite Hf. Qed.

Lemma stage_id active : stage_alone active id (λ _, id).
Proof. intros w f Hs. split; [apply keeps_refl|]. eapply in_step_ext; [|done]. intros i. by destruct (bit active i). Qed.

Lemma stage_compose active F G Fa Ga : stage_alone active F Fa → stage_alone active G Ga → stage_alone active (λ w, G (F w)) (λ i a, Ga i (Fa i a)).
Proof.
  intros HF HG w f Hs. destruct (HF w f Hs) as [K1 S1]. destruct (HG _ _ S1) as [K2 S2]. split; [by eapply keeps_trans|].
  eapply in_step_ext; [|exact S2]. intros i. cbn. by destruct (bit active i).
Qed.

Lemma step_alone D Da s child active : descends D Da → active ≠ 0%Z → in_range active →
  stage_alone active (step D s child active) (λ i, step (Da i) s child (alone i)).
Proof.
  intros HD Hne Hr w f Hs. unfold step.
  assert (Hs' : in_step active (set_steps w (steps w ++ [s])) (λ i, if bit active i then set_steps (f i) (steps (f i) ++ [s]) else f i)).
  { eapply in_step_alter; [exact Hs| |exact (s_entered _ _ _ Hs)|done|intros i; by destruct (bit active i)].
    intros i Hi. rewrite Hi. destruct (s_together _ _ _ Hs i Hi). constructor; try done. cbn. congruence. }
  destruct (HD child active Hne Hr _ _ Hs') as [[K1 K2 K3 K4 K5 K6] S2]. cbn [steps set_steps] in K1. split.
  - constructor; try done. cbn [steps set_steps]. rewrite K1. apply removelast_last.
  - eapply in_step_alter; [exact S2| |exact (s_entered _ _ _ S2)|done|].
    + intros i Hi. destruct (s_together _ _ _ S2 i Hi) as [T1 T2 T3 T4 T5 T6]. rewrite Hi in *. constructor; try done. cbn [steps set_steps]. congruence.
    + intros i. cbn. by destruct (bit active i).
Qed.

Lemma steps_alone D Da cs active : descends D Da → active ≠ 0%Z → in_range active →
  stage_alone active (step_all D cs active) (λ i, step_all (Da i) cs (alone i)).
Proof.
  intros HD Hne Hr. unfold step_all. induction cs as [|c cs IH]; [apply stage_id|].
  exact (stage_compose active _ _ _ _ (step_alone D Da c.1 c.2 active HD Hne Hr) IH).
Qed.

(** ** References *)

Lemma seen_by_insert w k k' set (i : nat) :
  seen_by (set_seen w (<[k := set]> (seen w))) k' i = if decide (k' = k) then bit set i else seen_by w k' i.
Proof.
  unfold seen_by. cbn [seen set_seen]. destruct (decide (k' = k)) as [->|Hne]; [by rewrite lookup_insert_eq|by rewrite lookup_insert_ne by congruence].
Qed.

Lemma set_store_stage active w f s (f' : nat → valueWalk) : in_step active w f →
  (∀ i, bit active i = false → view i s = view i (store w) ∧ f' i = f i) →
  (∀ i, bit active i = true → ∃ s1, f' i = set_store (f i) s1 ∧ view i s = view i s1) →
  keeps active w (set_store w s) ∧ in_step active (set_store w s) f'.
Proof.
  intros Hs Hout Hin. split; [constructor; try done; intros i Hi; by apply Hout|].
  eapply in_step_alter; [exact Hs| |exact (s_entered _ _ _ Hs)|done|].
  - intros i Hi. destruct (Hin i Hi) as (s1 & -> & Hv), (s_together _ _ _ Hs i Hi). by constructor.
  - intros i. destruct (bit active i) eqn:Hi; [by destruct (Hin i Hi) as (s1 & -> & _)|by destruct (Hout i Hi) as [_ ->]].
Qed.

(** Being inside one more reference. *)
Lemma enter_stage active k F Fa w f : stage_alone active F Fa → in_step active w f →
  (∀ t, rk_typ k = PointerType t → ∀ i, bit active i = true → seen_by w k i = true) →
  keeps active w (leave (F (enter k w))) ∧ in_step active (leave (F (enter k w))) (λ i, if bit active i then leave (Fa i (enter k (f i))) else f i).
Proof.
  intros HF Hs Hk.
  assert (Hs' : in_step active (enter k w) (λ i, if bit active i then enter k (f i) else f i)).
  { eapply in_step_alter; [exact Hs| | |done|intros i; by destruct (bit active i)].
    - intros i Hi. rewrite Hi. destruct (s_together _ _ _ Hs i Hi) as [T1 T2 T3 T4 T5 T6]. constructor; try done. unfold enter. cbn. congruence.
    - intros r t Hr Ht i Hi. cbn in Hr. apply elem_of_app in Hr as [Hr|Hr%list_elem_of_singleton].
      + exact (s_entered _ _ _ Hs r t Hr Ht i Hi).
      + subst r. exact (Hk t Ht i Hi). }
  destruct (HF _ _ Hs') as [[K1 K2 K3 K4 K5 K6] S2]. cbn [inside enter set_inside] in K2. split.
  - constructor; try done. cbn [inside leave set_inside]. rewrite K2. apply removelast_last.
  - eapply in_step_alter; [exact S2| | |done|].
    + intros i Hi. destruct (s_together _ _ _ S2 i Hi) as [T1 T2 T3 T4 T5 T6]. rewrite Hi in *. constructor; try done. cbn [inside leave set_inside]. congruence.
    + intros r t Hr Ht i Hi. cbn [inside leave set_inside] in Hr. rewrite K2, removelast_last in Hr.
      apply K4. exact (s_entered _ _ _ Hs r t Hr Ht i Hi).
    + intros i. cbn. by destruct (bit active i).
Qed.

Lemma reference_alone D Da k cs active : descends D Da → active ≠ 0%Z → in_range active → (∀ t, rk_typ k ≠ PointerType t) →
  stage_alone active (reference root visitors D k cs active) (λ i, reference root (only i visitors) (Da i) k cs (alone i)).
Proof.
  intros HD Hne Hr Hk w f Hs. destruct (closes_spec k active w f Hr Hs) as (s & b & E & _ & Hout & Hin). unfold reference. rewrite E.
  destruct (set_store_stage active w f s (λ i, if bit active i then (closesCycle1 i k (alone i) (f i)).2 else f i) Hs) as [K1 S1].
  { intros i Hi. rewrite Hi. split; [by apply Hout|done]. }
  { intros i Hi. rewrite Hi. destruct (Hin i Hi) as (s1 & -> & Hv). by exists s1. }
  destruct b.
  - split; [done|]. eapply in_step_ext; [|exact S1]. intros i. cbn. destruct (bit active i) eqn:Hi; [|done]. by destruct (Hin i Hi) as (s1 & -> & _).
  - destruct (enter_stage active k (step_all D cs active) (λ i, step_all (Da i) cs (alone i)) _ _ (steps_alone D Da cs active HD Hne Hr) S1) as [K2 S2].
    { intros t Ht. by apply Hk in Ht. }
    split; [by eapply keeps_trans|]. eapply in_step_ext; [|exact S2]. intros i. cbn. destruct (bit active i) eqn:Hi; [|done].
    by destruct (Hin i Hi) as (s1 & -> & _).
Qed.

(** A pointer, entered by those that have not been there. *)
Lemma pointer_alone D Da t p active : descends D Da → active ≠ 0%Z → in_range active →
  stage_alone active (pointer mem root visitors D t p active) (λ i, pointer mem root (only i visitors) (Da i) t p (alone i)).
Proof.
  intros HD Hne Hr w f Hs. unfold pointer. set (k := mkRefKey (PointerType t) p 0). set (entered := default 0%Z (seen w !! k)).
  set (fresh := Z.ldiff active entered).
  assert (Hfresh : ∀ i, bit fresh i = bit active i && negb (seen_by w k i)) by (intros i; apply bit_ldiff).
  assert (Hseen : ∀ i, bit active i = true → bit (default 0%Z (seen (f i) !! k)) i = seen_by w k i).
  { intros i Hi. symmetry. exact (t_seen _ _ _ (s_together _ _ _ Hs i Hi) k). }
  assert (Hold : ∀ i, bit active i = true → seen_by w k i = true → Z.ldiff (alone i) (default 0%Z (seen (f i) !! k)) = 0%Z).
  { intros i Hi Hw. apply set_zero. intros j. rewrite bit_ldiff, bit_alone. case_bool_decide as Hj; [subst j|done]. by rewrite (Hseen i Hi), Hw. }
  destruct (Z.eqb_spec fresh 0%Z) as [Hz|Hnz].
  - assert (Hall : ∀ i, bit active i = true → seen_by w k i = true).
    { intros i Hi. rewrite set_zero in Hz. specialize (Hz i). rewrite Hfresh, Hi in Hz. by destruct (seen_by w k i). }
    destruct (closes_spec k active w f Hr Hs) as (s & b & E & _ & Hout & Hin). rewrite E. cbn [snd].
    apply (set_store_stage active w f s); [done| |].
    + intros i Hi. rewrite Hi. split; [by apply Hout|done].
    + intros i Hi. rewrite Hi, (Hold i Hi (Hall i Hi)), Z.eqb_refl. destruct (Hin i Hi) as (s1 & -> & Hv). by exists s1.
  - assert (Hnot : ∀ r, r ∈ inside w → in_key r ≠ k).
    { intros r Hrin Hk. apply Hnz, set_zero. intros i. rewrite Hfresh. destruct (bit active i) eqn:Hi; [|done].
      pose proof (s_entered _ _ _ Hs r t Hrin) as He. rewrite Hk in He. by rewrite (He eq_refl i Hi). }
    assert (Hsub : ∀ i, bit fresh i = true → bit active i = true) by (intros i; rewrite Hfresh; by destruct (bit active i)).
    assert (Hrf : in_range fresh) by (intros i Hi; by apply Hr, Hsub).
    set (w1 := set_seen w (<[k := Z.lor entered fresh]> (seen w))).
    set (f1 := λ i, if bit fresh i then set_seen (f i) (<[k := Z.lor (default 0%Z (seen (f i) !! k)) (alone i)]> (seen (f i))) else f i).
    assert (Hkeep : keeps fresh w w1).
    { constructor; try done; intros k' i Hi; unfold w1; rewrite seen_by_insert; destruct (decide (k' = k)) as [->|]; try done; rewrite bit_lor.
      - change (bit entered i) with (seen_by w k i). by rewrite Hi.
      - rewrite Hi. apply orb_false_r. }
    assert (Hs1 : in_step fresh w1 f1).
    { eapply (in_step_alter fresh w w1 f f1); [| | |done|intros i; unfold f1; by destruct (bit fresh i)].
      - destruct Hs as [H1 H2 H3]. constructor; [auto| |done]. intros r t' Hrin Ht i Hi. eauto.
      - intros i Hi. unfold f1. rewrite Hi. destruct (s_together _ _ _ Hs i (Hsub i Hi)) as [T1 T2 T3 T4 T5 T6]. constructor; try done.
        intros k'. unfold w1. rewrite !seen_by_insert. destruct (decide (k' = k)) as [->|]; [|done].
        rewrite !bit_lor, Hi, bit_alone, (bool_decide_eq_true_2 (i = i)) by done. by rewrite !orb_true_r.
      - intros r t' Hrin Ht i Hi. apply (k_more _ _ _ Hkeep). eapply (s_entered _ _ _ Hs); eauto. }
    destruct (enter_stage fresh k (D (pointee mem k) fresh) (λ i, Da i (pointee mem k) (alone i)) w1 f1 (HD _ _ Hnz Hrf) Hs1) as [K2 S2].
    { intros _ _ i Hi. unfold w1. rewrite seen_by_insert, decide_True by done. by rewrite bit_lor, Hi, orb_true_r. }
    pose proof (keeps_trans _ _ _ _ Hkeep K2) as K. split; [by eapply keeps_weaken|].
    assert (Hf : ∀ i, bit active i = true → seen_by w k i = true → pointer mem root (only i visitors) (Da i) t p (alone i) (f i) = f i).
    { intros i Hi Hw. unfold pointer. fold k. rewrite (Hold i Hi Hw), Z.eqb_refl. unfold Walk.closesCycle.
      destruct (list_find _ (inside (f i))) as [[n r]|] eqn:E; [|done]. apply list_find_Some in E as (E & Hrk & _).
      rewrite <- (t_inside _ _ _ (s_together _ _ _ Hs i Hi)) in E. apply list_elem_of_lookup_2 in E. by apply Hnot in E. }
    assert (Hg : ∀ i, bit fresh i = true → pointer mem root (only i visitors) (Da i) t p (alone i) (f i) =
      leave (Da i (pointee mem k) (alone i) (enter k (set_seen (f i) (<[k := Z.lor (default 0%Z (seen (f i) !! k)) (alone i)]> (seen (f i))))))).
    { intros i Hi. unfold pointer. fold k. assert (Hl : Z.ldiff (alone i) (default 0%Z (seen (f i) !! k)) = alone i).
      { apply Z.bits_inj'. intros n Hn. rewrite Z.ldiff_spec. rewrite <- (Z2Nat.id n) by done. fold (bit (alone i) (Z.to_nat n)). rewrite bit_alone.
        case_bool_decide as Hj; [|done]. rewrite <- Hj. fold (bit (default 0%Z (seen (f i) !! k)) i). rewrite Hseen by auto.
        rewrite Hfresh in Hi. apply andb_true_iff in Hi as [_ ->]. done. }
      rewrite Hl. assert (Hn0 : (alone i =? 0)%Z = false).
      { apply Z.eqb_neq. rewrite set_zero. intros Hz. specialize (Hz i). by rewrite bit_alone, bool_decide_eq_true_2 in Hz. }
      by rewrite Hn0. }
    apply (in_step_ext _ _ (λ i, if bit fresh i then leave (Da i (pointee mem k) (alone i) (enter k (f1 i))) else f1 i)).
    { intros i. unfold f1. destruct (bit fresh i) eqn:Hi.
      - rewrite (Hsub i Hi). symmetry. by apply Hg.
      - rewrite Hfresh in Hi. destruct (bit active i) eqn:Ha; [|done]. symmetry. apply Hf; [done|]. by destruct (seen_by w k i). }
    destruct S2 as [T2 E2 U2]. constructor; [|intros r t' Hrin Ht i Hi; rewrite (k_inside _ _ _ K) in Hrin; apply (k_more _ _ _ K); by eapply (s_entered _ _ _ Hs)|done].
    intros i Hi. destruct (bit fresh i) eqn:Hfi; [apply (T2 i) in Hfi as Hfi'; by rewrite Hfi in Hfi'|]. unfold f1. rewrite Hfi.
    apply (together_keeps i fresh w); [done|done|]. by apply (s_together _ _ _ Hs).
Qed.

(** ** The whole traversal *)

Lemma children_alone D Da v active : descends D Da → active ≠ 0%Z → in_range active →
  stage_alone active (children mem plain Sprint root visitors D v active) (λ i, children mem plain Sprint root (only i visitors) (Da i) v (alone i)).
Proof.
  intros HD Hne Hr. destruct v as [t|t b0|t z|t s|t fs|t [v|]|t [p|]|t bytes vs|t bytes p n|t [p|]]; unfold children, sequence; try apply stage_id.
  - by apply steps_alone.
  - by apply HD.
  - by apply pointer_alone.
  - destruct (bytes || (length vs =? 0)); [apply stage_id|by apply steps_alone].
  - destruct (bytes || (n =? 0)); [apply stage_id|by apply reference_alone].
  - unfold mapping. destruct (map_entries mem _); [apply stage_id|by apply reference_alone].
Qed.

(** What the walk does with a value, given how it descends. *)
Definition body (vs : list (option (Visitor (S:=S)))) D v active w : valueWalk :=
  let '(stop, w) := refused None w in
  if stop : bool then w
  else let '(w, asking) := Walk.show root vs v active w in
       if (asking =? 0)%Z then w else children mem plain Sprint root vs D v asking w.

Lemma body_alone D Da : descends D Da → descends (body visitors D) (λ i, body (only i visitors) (Da i)).
Proof.
  intros HD v active Hne Hr w f Hs.
  assert (Hstop : ∀ w, refusal w = None → refused None w = (false, w)) by (intros w0 Hw0; unfold refused; by rewrite Hw0).
  destruct (set_nonzero active Hne) as [i0 Hi0]. pose proof (t_refusal _ _ _ (s_together _ _ _ Hs i0 Hi0)) as Hw.
  destruct (show_spec v active w f Hr Hs) as (s & asking & E & Hsub & Hout & Hin). set (w1 := set_store w s).
  set (f1 := λ i, if bit active i then (show1 i v (alone i) (f i)).1 else f i).
  destruct (set_store_stage active w f s f1 Hs) as [K1 S1].
  { intros i Hi. unfold f1. rewrite Hi. split; [by apply Hout|done]. }
  { intros i Hi. unfold f1. rewrite Hi. destruct (Hin i Hi) as (s1 & -> & Hv). by exists s1. }
  assert (Hbody : ∀ i, bit active i = true → body (only i visitors) (Da i) v (alone i) (f i) =
    if bit asking i then children mem plain Sprint root (only i visitors) (Da i) v (alone i) (f1 i) else f1 i).
  { intros i Hi. unfold body, f1. rewrite Hi, (Hstop (f i)) by exact (t_refusal1 _ _ _ (s_together _ _ _ Hs i Hi)).
    destruct (Hin i Hi) as (s1 & -> & _). cbn [fst]. destruct (bit asking i); [|done].
    destruct (Z.eqb_spec (alone i) 0%Z) as [Hz|]; [|done]. rewrite set_zero in Hz. specialize (Hz i). by rewrite bit_alone, bool_decide_eq_true_2 in Hz. }
  unfold body at 1 2. rewrite Hstop, E by done. fold w1.
  assert (Hres : ∀ w2 f2, keeps asking w1 w2 → in_step asking w2 (λ i, if bit asking i then f2 i else f1 i) →
    (∀ i, bit asking i = true → body (only i visitors) (Da i) v (alone i) (f i) = f2 i) →
    keeps active w w2 ∧ in_step active w2 (λ i, if bit active i then body (only i visitors) (Da i) v (alone i) (f i) else f i)).
  { intros w2 f2 K2 S2 Hf2. pose proof (keeps_weaken _ _ _ _ Hsub K2) as K2'. split; [by eapply keeps_trans|].
    apply (in_step_ext _ _ (λ i, if bit asking i then f2 i else f1 i)).
    { intros i. destruct (bit asking i) eqn:Ha.
      - rewrite (Hsub i Ha). symmetry. by apply Hf2.
      - unfold f1. destruct (bit active i) eqn:Hi; [|done]. rewrite Hbody, Ha by done. unfold f1. by rewrite Hi. }
    destruct S1 as [A1 A2 A3], S2 as [B1 B2 B3]. constructor; [|intros r t Hrin Ht i Hi; rewrite (k_inside _ _ _ K2) in Hrin; apply (k_more _ _ _ K2); by eapply A2|done].
    intros i Hi. destruct (bit asking i) eqn:Ha; [apply (B1 i) in Ha as Ha'; by rewrite Ha in Ha'|].
    apply (together_keeps i asking w1); [done|done|by apply A1]. }
  assert (S0 : in_step asking w1 f1).
  { destruct S1 as [A1 A2 A3]. constructor; [auto| |done]. intros r t Hrin Ht i Hi. eauto. }
  destruct (Z.eqb_spec asking 0%Z) as [->|Hna].
  - apply (Hres w1 f1); [apply keeps_refl| |intros i Hi; by unfold bit in Hi; rewrite Z.testbit_0_l in Hi].
    eapply in_step_ext; [|exact S0]. intros i. by destruct (bit _ i).
  - destruct (children_alone D Da v asking HD Hna) with (w := w1) (f := f1) as [K2 S2]; [intros i Hi; by apply Hr, Hsub|exact S0|].
    apply (Hres _ (λ i, children mem plain Sprint root (only i visitors) (Da i) v (alone i) (f1 i)) K2 S2). intros i Hi. rewrite Hbody by auto. by rewrite Hi.
Qed.

Lemma truncate_alone : descends (λ _ _, truncate) (λ _ _ _, truncate).
Proof.
  intros v active Hne Hr w f Hs. split; [by constructor|]. destruct (set_nonzero active Hne) as [i0 Hi0]. constructor.
  - intros i Hi. rewrite Hi. destruct (s_together _ _ _ Hs i Hi). by constructor.
  - exact (s_entered _ _ _ Hs).
  - cbn [truncated truncate]. split; [intros _|done]. exists i0. by rewrite Hi0.
Qed.

Lemma walk_alone (levels : nat) : descends (walk mem plain Sprint root visitors None levels) (λ i, walk mem plain Sprint root (only i visitors) None levels).
Proof.
  induction levels as [|levels IH].
  - exact (body_alone _ _ truncate_alone).
  - exact (body_alone _ _ IH).
Qed.
End Alone.

(** ** Every traversal *)

Section Groups.
Context (mem : memory) (plain : gostring → bool) (Sprint : goval → gostring) (root : gostring) {S T : Type}.
#[local] Abbreviation visitors_list := (list (option (Visitor (S:=S)))).
Implicit Types (vs l : visitors_list) (v : option goval) (view : nat → S → T).
#[local] Abbreviation traverse := (Walk.traverse mem plain Sprint root).

Lemma bit_all vs (i : nat) : bit (all vs) i = match vs !! i with Some (Some _) => true | _ => false end.
Proof.
  assert (H : ∀ (us : list nat) set, bit (foldl (λ set i, match vs !! i with Some (Some _) => Z.lor set (Z.shiftl 1 (Z.of_nat i)) | _ => set end) set us) i =
    bit set i || (bool_decide (i ∈ us) && match vs !! i with Some (Some _) => true | _ => false end)).
  { induction us as [|j us IH]; intros set; cbn [foldl]; [by rewrite orb_false_r|]. rewrite IH.
    rewrite (bool_decide_ext (i ∈ j :: us) (i = j ∨ i ∈ us)) by apply elem_of_cons. rewrite bool_decide_or.
    destruct (vs !! j) as [[V|]|] eqn:E; [rewrite bit_lor; fold (alone j); rewrite bit_alone|..];
      (destruct (decide (i = j)) as [->|Hne]; [rewrite E, ?(bool_decide_eq_true_2 (j = j)) by done|
         rewrite ?(bool_decide_eq_false_2 (i = j)), ?(bool_decide_eq_false_2 (j = i)) by congruence]);
      destruct (bit set _), (bool_decide _); try done; by destruct (vs !! i) as [[]|]. }
  unfold all. rewrite H. unfold bit at 1. rewrite Z.testbit_0_l. cbn [orb]. destruct (vs !! i) as [[V|]|] eqn:E; rewrite ?andb_false_r; [|done..].
  rewrite bool_decide_eq_true_2; [done|]. apply elem_of_seq. apply lookup_lt_Some in E. lia.
Qed.

Lemma all_range vs : length vs ≤ maxSharedVisitors → in_range (all vs).
Proof. intros Hl i. rewrite bit_all. destruct (vs !! i) as [o|] eqn:E; [|done]. apply lookup_lt_Some in E. intros _. lia. Qed.

Lemma all_only vs (i : nat) : all (only i vs) = if match vs !! i with Some (Some _) => true | _ => false end then alone i else 0%Z.
Proof.
  apply Z.bits_inj'. intros n Hn. rewrite <- (Z2Nat.id n) by done. set (j := Z.to_nat n). fold (bit (all (only i vs)) j). rewrite bit_all.
  unfold only. rewrite list_lookup_imap. destruct (decide (j = i)) as [->|Hne].
  - destruct (vs !! i) as [[V|]|]; cbn [fmap option_fmap option_map]; rewrite ?decide_True by done; rewrite ?Z.testbit_0_l; [|done..].
    fold (bit (alone i) i). by rewrite bit_alone, bool_decide_eq_true_2.
  - assert (Hz : Z.testbit (if match vs !! i with Some (Some _) => true | _ => false end then alone i else 0%Z) (Z.of_nat j) = false).
    { destruct (match vs !! i with Some (Some _) => true | _ => false end); [|apply Z.testbit_0_l]. fold (bit (alone i) j).
      by rewrite bit_alone, bool_decide_eq_false_2. }
    etrans; [|symmetry; exact Hz]. by destruct (vs !! j).
Qed.

(** A walk shown to no one goes nowhere. *)
Lemma walk_none vs (levels : nat) x (w : valueWalk (S:=S)) : refusal w = None → walk mem plain Sprint root vs None levels x 0%Z w = w.
Proof.
  intros Hw. destruct levels; cbn [walk]; unfold refused; rewrite Hw; cbn [bool_decide]; unfold show;
    (replace (members 0%Z) with (@nil nat) by reflexivity); reflexivity.
Qed.

Lemma traverse_alone view vs v asked asked' s (ss : nat → S) : length vs ≤ maxSharedVisitors →
  (∀ i V, vs !! i = Some (Some V) → own_state view i V) → (∀ i, view i s = view i (ss i)) →
  refusal (traverse vs None v asked s) = None ∧
  (∀ i, view i (store (traverse vs None v asked s)) = view i (store (traverse (only i vs) None v asked' (ss i)))) ∧
  (truncated (traverse vs None v asked s) = true ↔ ∃ i, truncated (traverse (only i vs) None v asked' (ss i)) = true).
Proof.
  intros Hl Hown Hview. unfold Walk.traverse. destruct v as [x|]; [|split_and!; [done|done|split; [done|by intros [i ?]]]].
  assert (Hs : in_step view (all vs) (newValueWalk asked s) (λ i, newValueWalk asked' (ss i))).
  { constructor; [intros i _; by constructor|by intros r t ?%elem_of_nil|split; [done|by intros [i ?]]]. }
  assert (Hidle : ∀ i, bit (all vs) i = false → walk mem plain Sprint root (only i vs) None MaxWalkDepth x (all (only i vs)) (newValueWalk asked' (ss i)) = newValueWalk asked' (ss i)).
  { intros i Hi. rewrite bit_all in Hi. rewrite all_only, Hi. by apply walk_none. }
  destruct (decide (all vs = 0%Z)) as [Hz|Hnz].
  - rewrite Hz, walk_none by done. split_and!; [done| |split; [done|]].
    + intros i. rewrite Hidle; [apply Hview|]. by apply set_zero.
    + intros [i Hi]. rewrite Hidle in Hi; [done|]. by apply set_zero.
  - destruct (walk_alone mem plain Sprint root view vs Hown MaxWalkDepth x (all vs) Hnz (all_range vs Hl) _ _ Hs) as [K S2].
    assert (Hf : ∀ i, (if bit (all vs) i then walk mem plain Sprint root (only i vs) None MaxWalkDepth x (alone i) (newValueWalk asked' (ss i)) else newValueWalk asked' (ss i)) =
      walk mem plain Sprint root (only i vs) None MaxWalkDepth x (all (only i vs)) (newValueWalk asked' (ss i))).
    { intros i. destruct (bit (all vs) i) eqn:Hi; [|by rewrite Hidle]. rewrite bit_all in Hi. by rewrite all_only, Hi. }
    apply (in_step_ext _ _ _ _ _ Hf) in S2. split_and!; [by apply K| |by apply S2].
    intros i. destruct (bit (all vs) i) eqn:Hi; [by apply S2|]. rewrite Hidle by done. rewrite (k_view _ _ _ _ K i Hi). apply Hview.
Qed.

(** ** Groups of visitors *)

Lemma only_lookup (i j : nat) l : only i l !! j = (λ V, if decide (j = i) then V else None) <$> l !! j.
Proof. unfold only. apply list_lookup_imap. Qed.

Lemma only_length (i : nat) l : length (only i l) = length l.
Proof. apply length_imap. Qed.

Lemma take_only (n i : nat) l : take n (only i l) = only i (take n l).
Proof.
  apply list_eq. intros j. rewrite only_lookup, !lookup_take. destruct (decide (j < n)); [apply only_lookup|done].
Qed.

Lemma drop_only (n i : nat) l : n ≤ i → drop n (only i l) = only (i - n) (drop n l).
Proof.
  intros Hle. apply list_eq. intros j. rewrite only_lookup, !lookup_drop, only_lookup.
  destruct (l !! (n + j)); [|done]. cbn [fmap option_fmap option_map]. f_equal. destruct (decide (n + j = i)), (decide (j = i - n)); (done || lia).
Qed.

(** Visitors that are all nil. *)
Definition idle l : Prop := ∀ j V, l !! j = Some (Some V) → False.

Lemma only_idle (i : nat) l : (∀ V, l !! i = Some (Some V) → False) → idle (only i l).
Proof.
  intros Hi j V. rewrite only_lookup. destruct (l !! j) as [o|] eqn:E; [|done]. cbn. destruct (decide (j = i)) as [->|]; [|done].
  intros [= ->]. by apply (Hi V).
Qed.

Lemma drop_only_idle (n i : nat) l : i < n → idle (drop n (only i l)).
Proof.
  intros Hi j V. rewrite lookup_drop, only_lookup. destruct (l !! (n + j)); [|done]. cbn. rewrite decide_False by lia. done.
Qed.

Lemma traverse_idle l v asked s : idle l → traverse l None v asked s = newValueWalk asked s.
Proof.
  intros Hi. assert (Hz : all l = 0%Z).
  { apply set_zero. intros i. rewrite bit_all. destruct (l !! i) as [[V|]|] eqn:E; [|done..]. by apply Hi in E. }
  unfold Walk.traverse. rewrite Hz. destruct v; [|done]. by apply walk_none.
Qed.

#[local] Abbreviation groups_from := (walk_groups mem plain Sprint None).

Lemma groups_idle (fuel : nat) l v asked cut s : idle l → groups_from v root (chunks fuel maxSharedVisitors l) asked cut s = (s, cut, None).
Proof.
  revert l asked. induction fuel as [|fuel IH]; intros l asked Hi; [done|]. destruct l as [|V l]; [done|]. cbn [chunks walk_groups].
  rewrite traverse_idle by (intros j V'; rewrite lookup_take_Some; intros [? _]; by eapply Hi). cbn [refusal newValueWalk store truncated asks].
  rewrite orb_false_r. apply IH. intros j V'. rewrite lookup_drop. apply Hi.
Qed.

(** A part of the state no visitor of a list touches. *)
Definition untouched (u : S → T) l : Prop := ∀ j V, l !! j = Some (Some V) →
  (∀ s x p, u (Visit V s x p).1 = u s) ∧ (∀ told s p q t, Cycle V = Some told → u (told s p q t) = u s).

Lemma untouched_take u (n : nat) l : untouched u l → untouched u (take n l).
Proof. intros Hu j V. rewrite lookup_take_Some. intros [? _]. by apply (Hu j). Qed.
Lemma untouched_drop u (n : nat) l : untouched u l → untouched u (drop n l).
Proof. intros Hu j V. rewrite lookup_drop. apply Hu. Qed.

Lemma traverse_untouched view u l v asked s : length l ≤ maxSharedVisitors → (∀ i V, l !! i = Some (Some V) → own_state view i V) →
  untouched u l → u (store (traverse l None v asked s)) = u s.
Proof.
  intros Hl Hown Hu. set (view' := λ j, if decide (j < maxSharedVisitors) then view j else u).
  assert (Hown' : ∀ i V, l !! i = Some (Some V) → own_state view' i V).
  { intros i V Hi. apply lookup_lt_Some in Hi as Hlt. destruct (Hown i V Hi) as [A1 A2 A3 A4], (Hu i V Hi) as [B1 B2]. constructor.
    - intros s1 s2 x p. unfold view'. rewrite decide_True by lia. apply A1.
    - intros j s1 x p Hj. unfold view'. destruct (decide _); [by apply A2|apply B1].
    - intros told s1 s2 p q t. unfold view'. rewrite decide_True by lia. apply A3.
    - intros told j s1 p q t Ht Hj. unfold view'. destruct (decide _); [by apply (A4 told)|by apply B2]. }
  destruct (traverse_alone view' l v asked asked s (λ _, s) Hl Hown') as (_ & Hv & _); [done|]. specialize (Hv maxSharedVisitors).
  unfold view' in Hv at 1 2. rewrite decide_False in Hv by lia. rewrite Hv, traverse_idle; [done|].
  apply only_idle. intros V HV. apply lookup_lt_Some in HV. lia.
Qed.

Lemma groups_alone (fuel : nat) l : length l ≤ fuel → ∀ view v asked asked' cut s (ss : nat → S),
  (∀ i V, l !! i = Some (Some V) → own_state view i V) → (∀ i, view i s = view i (ss i)) →
  let out := groups_from v root (chunks fuel maxSharedVisitors l) asked cut s in
  let own i := groups_from v root (chunks fuel maxSharedVisitors (only i l)) asked' false (ss i) in
  (∀ u, untouched u l → u out.1.1 = u s) ∧ (∀ i, view i out.1.1 = view i (own i).1.1) ∧
  (out.1.2 = true ↔ cut = true ∨ ∃ i, (own i).1.2 = true).
Proof.
  revert l. induction fuel as [|fuel IH]; intros l Hl view v asked asked' cut s ss Hown Hview; cbn zeta.
  - destruct l; [|cbn in Hl; lia]. cbn. split_and!; [done|done|]. split; [by left|]. intros [?|[i ?]]; done.
  - destruct l as [|V l]; [cbn; split_and!; [done|done|]; split; [by left|]; intros [?|[i ?]]; done|].
    set (g := take maxSharedVisitors (V :: l)). set (r := drop maxSharedVisitors (V :: l)).
    assert (Hg : length g ≤ maxSharedVisitors) by (unfold g; rewrite length_take; lia).
    assert (Hrl : length r ≤ fuel) by (unfold r; rewrite length_drop; cbn in Hl |- *; lia).
    assert (Hog : ∀ i V', g !! i = Some (Some V') → own_state view i V') by (intros i V'; unfold g; rewrite lookup_take_Some; intros [? _]; by apply Hown).
    assert (Hor : ∀ i V', r !! i = Some (Some V') → own_state view (maxSharedVisitors + i) V') by (intros i V'; unfold r; rewrite lookup_drop; apply Hown).
    change (groups_from v root (chunks (Datatypes.S fuel) maxSharedVisitors (V :: l)) asked cut s) with
      (groups_from v root (g :: chunks fuel maxSharedVisitors r) asked cut s). cbn [walk_groups].
    destruct (traverse_alone view g v asked asked' s ss Hg Hog Hview) as (-> & Hst & Htr).
    set (w := traverse g None v asked s) in *.
    assert (Hown1 : ∀ i, groups_from v root (chunks (Datatypes.S fuel) maxSharedVisitors (only i (V :: l))) asked' false (ss i) =
      let w' := traverse (only i g) None v asked' (ss i) in
      groups_from v root (chunks fuel maxSharedVisitors (drop maxSharedVisitors (only i (V :: l)))) (asks w') (truncated w') (store w')).
    { intros i. destruct (traverse_alone view (only i g) v asked' asked' (ss i) (λ _, ss i)) as (Href & _); [by rewrite only_length| |done|].
      { intros j V'. rewrite only_lookup. destruct (g !! j) as [o|] eqn:E; [|done]. cbn. destruct (decide _); [|done]. intros [= ->]. by apply Hog. }
      change (only i (V :: l)) with ((if decide (0 = i) then V else None) :: imap (λ j V, if decide (Datatypes.S j = i) then V else None) l).
      cbn [chunks walk_groups]. change ((if decide (0 = i) then V else None) :: imap (λ j V, if decide (Datatypes.S j = i) then V else None) l) with (only i (V :: l)).
      rewrite take_only. fold g. by rewrite Href. }
    destruct (IH r Hrl (λ j, view (maxSharedVisitors + j)) v (asks w) asked' (cut || truncated w) (store w) (λ j, ss (maxSharedVisitors + j))) as (Ha & Hb & Hc).
    { intros i V' Hi. destruct (Hor i V' Hi) as [A1 A2 A3 A4]. constructor; [exact A1|intros j; intros; apply A2; lia|exact A3|intros told j s1 p q t Ht Hj; apply (A4 told); [done|lia]]. }
    { intros j. rewrite <- Hview. apply (traverse_untouched view); [done|done|]. intros j' V' Hj. apply lookup_lt_Some in Hj as Hlt.
      destruct (Hog j' V' Hj) as [_ A2 _ A4]. split; [intros; apply A2; lia|intros told s1 p q t Ht; apply (A4 told); [done|lia]]. }
    assert (Hlow : ∀ i, i < maxSharedVisitors → groups_from v root (chunks (Datatypes.S fuel) maxSharedVisitors (only i (V :: l))) asked' false (ss i) =
      (store (traverse (only i g) None v asked' (ss i)), truncated (traverse (only i g) None v asked' (ss i)), None)).
    { intros i Hi. rewrite Hown1. apply groups_idle, drop_only_idle, Hi. }
    assert (Hhigh : ∀ j, groups_from v root (chunks (Datatypes.S fuel) maxSharedVisitors (only (maxSharedVisitors + j) (V :: l))) asked' false (ss (maxSharedVisitors + j)) =
      groups_from v root (chunks fuel maxSharedVisitors (only j r)) asked' false (ss (maxSharedVisitors + j))).
    { intros j. rewrite Hown1. rewrite traverse_idle by (apply only_idle; intros V' HV; apply lookup_lt_Some in HV; lia).
      rewrite drop_only by lia. by replace (maxSharedVisitors + j - maxSharedVisitors) with j by lia. }
    assert (Hcase : ∀ P : nat → Prop, (∀ i, i < maxSharedVisitors → P i) → (∀ j, P (maxSharedVisitors + j)) → ∀ i, P i).
    { intros P H1 H2 i. destruct (decide (i < maxSharedVisitors)); [auto|]. replace i with (maxSharedVisitors + (i - maxSharedVisitors)) by lia. apply H2. }
    split_and!.
    + intros u Hu. rewrite Ha by by apply (untouched_drop _ _ (V :: l)). apply (traverse_untouched view); [done|done|]. by apply (untouched_take _ _ (V :: l)).
    + apply Hcase.
      * intros i Hi. rewrite Hlow by done. cbn [fst]. rewrite <- Hst. apply Ha. intros j V' Hj. destruct (Hor j V' Hj) as [_ A2 _ A4].
        split; [intros; apply A2; lia|intros told s1 p q t Ht; apply (A4 told); [done|lia]].
      * intros j. rewrite Hhigh. apply Hb.
    + rewrite Hc, orb_true_iff, Htr. split.
      * intros [[?|[i Hi]]|[j Hj]]; [by left| |right; exists (maxSharedVisitors + j); by rewrite Hhigh].
        right. exists i. destruct (decide (i < maxSharedVisitors)); [by rewrite Hlow|]. exfalso.
        rewrite traverse_idle in Hi; [done|]. apply only_idle. intros V' HV. apply lookup_lt_Some in HV. lia.
      * intros [?|[i Hi]]; [by left; left|]. destruct (decide (i < maxSharedVisitors)) as [Hlt|Hge].
        -- rewrite Hlow in Hi by done. left. right. by exists i.
        -- replace i with (maxSharedVisitors + (i - maxSharedVisitors)) in Hi by lia. rewrite Hhigh in Hi. right. by exists (i - maxSharedVisitors).
Qed.
End Groups.

(** ** Sharing a traversal changes nothing *)

Lemma walks_alone mem plain Sprint {S T : Type} (view : nat → S → T) v root (visitors : list (option (Visitor (S:=S)))) s :
  (∀ i V, visitors !! i = Some (Some V) → own_state view i V) →
  let out := WalkValues mem plain Sprint v root visitors s in
  let own i := WalkValues mem plain Sprint v root (only i visitors) s in
  (∀ i, view i out.1 = view i (own i).1) ∧ (out.2 = true ↔ ∃ i, (own i).2 = true).
Proof.
  intros Hown. unfold WalkValues, walkValues, Chunk.
  destruct (groups_alone mem plain Sprint root (length visitors) visitors (Nat.le_refl _) view v 0 0 false s (λ _, s) Hown) as (_ & H2 & H3); [done|].
  cbn zeta in *. setoid_rewrite only_length. split; [exact H2|]. rewrite H3. split; [by intros [?|?]|by right].
Qed.

(** C34: however many visitors share a walk, each is shown the values, by the
    paths and in the order, it would be shown walking alone, its own pruning,
    its first meeting of a shared pointer and the cycles it is told of included;
    and the walk is cut short exactly when some visitor's own would be. *)
Theorem WalkValues_alone mem plain Sprint {S T : Type} (view : nat → S → T) v root (visitors : list (option (Visitor (S:=S)))) s :
  (∀ i V, visitors !! i = Some (Some V) → own_state view i V) →
  let out := WalkValues mem plain Sprint v root visitors s in
  let own i := WalkValues mem plain Sprint v root (only i visitors) s in
  (∀ i, view i out.1 = view i (own i).1) ∧ (out.2 = true ↔ ∃ i, (own i).2 = true).
Proof. intros Hown. by apply walks_alone. Qed.

(** ** Two visitors over a shared, cyclic value *)

Module Shared.
(** A struct two fields of which point to one node, which points to itself. *)
Definition node : goval := Struct (go "Node") [Pointer (go "*Node") (Some 1); Text (go "string") (go "x")].
Definition mem : memory := mkMemory (λ _, node) (λ _, []) (λ _, []).
Definition value : goval := Struct (go "Pair") [Pointer (go "*Node") (Some 1); Pointer (go "*Node") (Some 1)].
Definition state : Type := (list (goval * path)) * (list (goval * path)).
Definition own (i : nat) (s : state) : list (goval * path) := match i with 0 => s.1 | 1 => s.2 | _ => [] end.
(** One visitor sees all and is told of cycles, one skips the first field. *)
Definition everything : Visitor (S:=state) := mkVisitor (λ s v p, ((s.1 ++ [(v, p)], s.2), true)) (Some (λ s p q _, (s.1 ++ [(value, p); (value, q)], s.2))).
Definition second_only : Visitor (S:=state) :=
  mkVisitor (λ s v p, ((s.1, s.2 ++ [(v, p)]), bool_decide (p.2 ≠ [{| step_kind := stepField; step_owner := go "Pair"; step_index := 0; step_label := [] |}]))) None.
Definition visitors : list (option (Visitor (S:=state))) := [Some everything; Some second_only].
Definition run (vs : list (option (Visitor (S:=state)))) : state * bool := WalkValues mem (λ _, true) (λ _, []) (Some value) (go "v") vs ([], []).
End Shared.

Lemma WalkValues_alone_witness :
  length (Shared.run Shared.visitors).1.1 = 8 ∧ length (Shared.run Shared.visitors).1.2 = 6 ∧ (Shared.run Shared.visitors).2 = false ∧
  ∀ i, Shared.own i (Shared.run Shared.visitors).1 = Shared.own i (Shared.run (only i Shared.visitors)).1.
Proof.
  split; [vm_compute; reflexivity|]. split; [vm_compute; reflexivity|]. split; [vm_compute; reflexivity|].
  destruct (WalkValues_alone Shared.mem (λ _, true) (λ _, []) Shared.own (Some Shared.value) (go "v") Shared.visitors ([], [])) as [H _];
    [|exact H].
  intros [|[|i]] V [= <-]; constructor; try done.
  - intros s s' v p Hs. cbn in *. split; [done|]. by rewrite Hs.
  - intros [|j] s v p Hj; [done|]. by destruct j.
  - intros told s s' p q t [= <-] Hs. cbn in *. by rewrite Hs.
  - intros told [|j] s p q t [= <-] Hj; [done|]. by destruct j.
  - intros s s' v p Hs. cbn in *. split; [done|]. by rewrite Hs.
  - intros [|[|j]] s v p Hj; done.
Defined.
