(* ===== verification/WalkTrace.v ===== *)
(** * WalkTrace: what a walk to the end shows

    Visitors that prune alike, by the value shown, share one order of values.
    That order is [trace]; it holds exactly the values the root leads to through
    values not pruned, unless the walk was cut short. *)
From S2P Require Import Prelude GoLib Decimal Findings Walk WalkAlone.

(** ** Where values lead *)

Section Leads.
Context (mem : memory).

(** What a value holds: the children a walk descends into. *)
Inductive child : goval → goval → Prop :=
  | child_pointer t p : child (Pointer t (Some p)) (pointee mem (mkRefKey (PointerType t) p 0))
  | child_interface t v : child (Interface t (Some v)) v
  | child_field t fs v : v ∈ fs → child (Struct t fs) v
  | child_array t vs v : v ∈ vs → child (Array t false vs) v
  | child_slice t p n v : n ≠ 0 → v ∈ elements mem (mkRefKey (SliceType t) p n) → child (Slice t false p n) v
  | child_key t p k v : (k, v) ∈ map_entries mem (mkRefKey (MapType t) p 0) → child (MapV t (Some p)) k
  | child_value t p k v : (k, v) ∈ map_entries mem (mkRefKey (MapType t) p 0) → child (MapV t (Some p)) v.

(** The values a reference other than a pointer holds. *)
Definition held (k : refKey) (v : goval) : Prop :=
  match rk_typ k with
  | PointerType _ => False
  | SliceType _ => v ∈ elements mem k
  | MapType _ => ∃ e, e ∈ map_entries mem k ∧ (v = e.1 ∨ v = e.2)
  end.
End Leads.

(** What a value not pruned holds. *)
Definition led (mem : memory) (keep : goval → bool) (v c : goval) : Prop := keep v = true ∧ child mem v c.

Section Trace.
Context (mem : memory) (plain : gostring → bool) (Sprint : goval → gostring) (root : gostring) (keep : goval → bool).

Definition shown_at : Type := list (goval * path).
(** The visitor that records all it is shown. *)
Definition recorder : Visitor (S:=shown_at) := mkVisitor (λ s v p, (s ++ [(v, p)], keep v)) None.
Definition traced (v : option goval) : valueWalk (S:=shown_at) := traverse mem plain Sprint root [Some recorder] None v 0 [].
Definition trace (v : option goval) : shown_at := store (traced v).

#[local] Abbreviation W := (valueWalk (S:=shown_at)).
Implicit Types (w : W) (v c : goval) (F : W → W) (D : goval → visitorSet → W → W).

(** ** What it shows is what the root leads to *)

Definition has (s : shown_at) v : Prop := ∃ p, (v, p) ∈ s.
Lemma has_app s s' v : has (s ++ s') v ↔ has s v ∨ has s' v.
Proof. unfold has. setoid_rewrite elem_of_app. naive_solver. Qed.

(** Still to be shown by a walk inside these references. *)
Definition pending (ins : list insideRef) v : Prop := ∃ r, r ∈ ins ∧ held mem (in_key r) v.

(** Pointers entered have their pointee shown. *)
Definition entered_shown w : Prop := ∀ t p, is_Some (seen w !! mkRefKey (PointerType t) p 0) → has (store w) (pointee mem (mkRefKey (PointerType t) p 0)).

(** What a stage that was not cut short did: all it showed comes from [from],
    and holds only what is shown or pending. *)
Record shows (strict : bool) (from : goval → Prop) w w' : Prop := {
  sh_inside : inside w' = inside w;
  sh_refusal : refusal w' = None;
  sh_new : ∃ new, store w' = store w ++ new ∧
    (∀ u, has new u → ∃ v, from v ∧ rtc (led mem keep) v u) ∧
    (∀ u c, has new u → led mem keep u c → has (store w') c ∨ pending (inside w) c);
  sh_from v : from v → has (store w') v ∨ (strict = false ∧ pending (inside w) v);
  sh_entered : entered_shown w'
}.

Record stage_shows (strict : bool) (from : goval → Prop) F : Prop := {
  st_cut w : truncated w = true → truncated (F w) = true;
  st_shows w : refusal w = None → entered_shown w → truncated (F w) = false → shows strict from w (F w)
}.

(** Descending into a value shows it, and may be what shows a pointer's. *)
Record always_shows D : Prop := {
  al_cut v w : truncated w = true → truncated (D v (alone 0) w) = true;
  al_shows v w : refusal w = None → (∀ t p, is_Some (seen w !! mkRefKey (PointerType t) p 0) → has (store w) (pointee mem (mkRefKey (PointerType t) p 0)) ∨ pointee mem (mkRefKey (PointerType t) p 0) = v) →
    truncated (D v (alone 0) w) = false → shows true (λ u, u = v) w (D v (alone 0) w)
}.

Lemma always_stage D v : always_shows D → stage_shows true (λ u, u = v) (D v (alone 0)).
Proof. intros [A1 A2]. constructor; [apply A1|]. intros w Hr Hw Ht. apply A2; [done| |done]. intros t p Hs. left. by apply Hw. Qed.

Lemma has_prefix (s s' : shown_at) v : has s v → has (s ++ s') v.
Proof. rewrite has_app. by left. Qed.

Lemma st_uncut strict from F w : stage_shows strict from F → truncated (F w) = false → truncated w = false.
Proof. intros HF Ht. destruct (truncated w) eqn:E; [|done]. apply (st_cut _ _ _ HF) in E. congruence. Qed.

Lemma has_nil v : ¬ has [] v.
Proof. by intros [p ?%elem_of_nil]. Qed.

Lemma stage_shows_none F : (∀ w, F w = w) → stage_shows true (λ _, False) F.
Proof.
  intros HF. constructor; [intros w; by rewrite HF|]. intros w Hr Hw Ht. rewrite HF in *. constructor; try done. exists []. rewrite app_nil_r.
  split_and!; [done| |]; intros u; [by intros ?%has_nil|by intros c ?%has_nil].
Qed.

Lemma stage_shows_compose from from' F G : stage_shows true from F → stage_shows true from' G → stage_shows true (λ v, from v ∨ from' v) (λ w, G (F w)).
Proof.
  intros HF HG. constructor; [intros w Hw; by apply (st_cut _ _ _ HG), (st_cut _ _ _ HF)|]. intros w Hr Hw Ht.
  destruct (st_shows _ _ _ HF w Hr Hw) as [A1 A2 (new1 & A3 & A4 & A5) A6 A7]; [by eapply st_uncut|].
  destruct (st_shows _ _ _ HG (F w) A2 A7 Ht) as [B1 B2 (new2 & B3 & B4 & B5) B6 B7].
  constructor; [congruence|done| |intros v [Hv|Hv]; left; [rewrite B3; apply has_prefix; by destruct (A6 v Hv) as [?|[? _]]|by destruct (B6 v Hv) as [?|[? _]]]|done].
  exists (new1 ++ new2). split_and!; [by rewrite B3, A3, app_assoc| |].
  - intros u [(v & ? & ?)%A4|(v & ? & ?)%B4]%has_app; exists v; auto.
  - intros u c [Hu|Hu]%has_app Hc.
    + destruct (A5 u c Hu Hc) as [?|?]; [left; rewrite B3; by apply has_prefix|by right].
    + destruct (B5 u c Hu Hc) as [?|Hp]; [by left|right]. by rewrite A1 in Hp.
Qed.

Lemma stage_shows_ext strict from from' F : (∀ v, from v ↔ from' v) → stage_shows strict from F → stage_shows strict from' F.
Proof.
  intros He HF. constructor; [apply HF|]. intros w Hr Hw Ht. destruct (st_shows _ _ _ HF w Hr Hw Ht) as [A1 A2 (new & A3 & A4 & A5) A6 A7].
  constructor; [done..| | |done]; [|intros v Hv; by apply A6, He]. exists new. split_and!; [done| |done]. intros u (v & Hf & Hu)%A4. exists v. by rewrite <- He.
Qed.

Lemma stage_shows_weaken from F : stage_shows true from F → stage_shows false from F.
Proof.
  intros HF. constructor; [apply HF|]. intros w Hr Hw Ht. destruct (st_shows _ _ _ HF w Hr Hw Ht) as [A1 A2 A3 A4 A5].
  constructor; try done. intros v Hv. left. by destruct (A4 v Hv) as [?|[? _]].
Qed.

Lemma step_shows D s c : always_shows D → stage_shows true (λ u, u = c) (step D s c (alone 0)).
Proof.
  intros HD%(always_stage D c). constructor; [intros w Hw; exact (st_cut _ _ _ HD (set_steps w (steps w ++ [s])) Hw)|].
  intros w Hr Hw Ht. destruct (st_shows _ _ _ HD (set_steps w (steps w ++ [s])) Hr Hw Ht) as [A1 A2 A3 A4 A5]. by constructor.
Qed.

Lemma steps_shows D cs : always_shows D → stage_shows true (λ u, u ∈ cs.*2) (step_all D cs (alone 0)).
Proof.
  intros HD. unfold step_all. induction cs as [|[s c] cs IH]; cbn [foldl fmap list_fmap].
  - eapply stage_shows_ext; [|by apply stage_shows_none]. intros v. by rewrite elem_of_nil.
  - eapply stage_shows_ext; [|exact (stage_shows_compose _ _ _ _ (step_shows D s c HD) IH)]. intros v. by rewrite elem_of_cons.
Qed.

(** ** References *)

Lemma closes_recorder k w : ∃ b, closesCycle root [Some recorder] k (alone 0) w = (b, w) ∧ (b = true → ∃ r, r ∈ inside w ∧ in_key r = k).
Proof.
  unfold closesCycle. destruct (list_find _ (inside w)) as [[n r]|] eqn:E; [|by exists false].
  apply list_find_Some in E as (E & Hk & _). exists true. rewrite members_alone by (unfold maxSharedVisitors; lia). split; [done|].
  intros _. exists r. split; [by eapply list_elem_of_lookup_2|done].
Qed.

(** Inside one more reference. *)
Lemma enter_shows from k F w : stage_shows true from F → (∀ v, held mem k v → from v) →
  refusal w = None → entered_shown w → truncated (F (enter k w)) = false → shows true from w (leave (F (enter k w))).
Proof.
  intros HF Hk Hr Hw Ht. destruct (st_shows _ _ _ HF (enter k w) Hr Hw Ht) as [A1 A2 (new & A3 & A4 & A5) A6 A7].
  cbn [inside enter set_inside store] in A1, A3, A5. constructor; try done; [cbn [inside leave set_inside]; rewrite A1; apply removelast_last| |].
  - exists new. split_and!; [done|done|]. intros u c Hu Hc. destruct (A5 u c Hu Hc) as [?|(r & Hrin & Hh)]; [by left|].
    apply elem_of_app in Hrin as [Hrin|Hrin%list_elem_of_singleton]; [right; by exists r|]. subst r. left. by destruct (A6 c (Hk c Hh)) as [?|[? _]].
  - intros v Hv. left. by destruct (A6 v Hv) as [?|[? _]].
Qed.

Lemma reference_shows D k cs : always_shows D → (∀ v, held mem k v ↔ v ∈ cs.*2) →
  stage_shows false (λ u, u ∈ cs.*2) (reference root [Some recorder] D k cs (alone 0)).
Proof.
  intros HD Hk. pose proof (steps_shows D cs HD) as Hs. unfold reference. constructor.
  - intros w Hw. destruct (closes_recorder k w) as (b & -> & _). destruct b; [done|]. exact (st_cut _ _ _ Hs (enter k w) Hw).
  - intros w Hr Hw. destruct (closes_recorder k w) as (b & -> & Hb). destruct b; intros Ht.
    + constructor; try done; [|intros v Hv; right; split; [done|]].
      * exists []. rewrite app_nil_r. split_and!; [done| |]; intros u; [by intros ?%has_nil|by intros c ?%has_nil].
      * destruct (Hb eq_refl) as (r & Hrin & <-). exists r. split; [done|by apply Hk].
    + destruct (enter_shows _ k _ w Hs) as [A1 A2 A3 A4 A5]; [intros v; apply Hk|done|done|done|].
      constructor; try done. intros v Hv. left. by destruct (A4 v Hv) as [?|[? _]].
Qed.

Lemma fresh_alone (set : visitorSet) : Z.ldiff (alone 0) set = 0%Z ∧ bit set 0 = true ∨ Z.ldiff (alone 0) set = alone 0.
Proof.
  destruct (bit set 0) eqn:E; [left; split; [|done]|right].
  - apply set_zero. intros j. rewrite bit_ldiff, bit_alone. case_bool_decide as Hj; [subst j; by rewrite E|done].
  - apply Z.bits_inj'. intros n Hn. rewrite Z.ldiff_spec. rewrite <- (Z2Nat.id n) by done. fold (bit (alone 0) (Z.to_nat n)). rewrite bit_alone.
    case_bool_decide as Hj; [|done]. rewrite <- Hj. fold (bit set 0). by rewrite E.
Qed.

Lemma pointer_shows D t p : always_shows D →
  stage_shows false (λ u, u = pointee mem (mkRefKey (PointerType t) p 0)) (pointer mem root [Some recorder] D t p (alone 0)).
Proof.
  intros HD. set (k := mkRefKey (PointerType t) p 0).
  assert (Hcase : ∀ w, pointer mem root [Some recorder] D t p (alone 0) w = w ∧ is_Some (seen w !! k) ∨
    ∃ set, pointer mem root [Some recorder] D t p (alone 0) w = leave (D (pointee mem k) (alone 0) (enter k (set_seen w (<[k := set]> (seen w)))))).
  { intros w. unfold pointer. fold k. destruct (fresh_alone (default 0%Z (seen w !! k))) as [[-> Hs]| ->].
    - left. split; [by destruct (closes_recorder k w) as (b & -> & _)|]. destruct (seen w !! k); [by eexists|]. unfold bit in Hs. cbn in Hs. by rewrite Z.testbit_0_l in Hs.
    - right. by eexists. }
  constructor; intros w.
  - intros Hw. destruct (Hcase w) as [[-> _]|[set ->]]; [done|]. by apply (al_cut _ HD).
  - intros Hr Hw. destruct (Hcase w) as [[-> Hs]|[set ->]]; intros Ht.
    + constructor; try done.
      * exists []. rewrite app_nil_r. split_and!; [done| |]; intros u; [by intros ?%has_nil|by intros c ?%has_nil].
      * intros v ->. left. by apply Hw.
    + set (w1 := set_seen w (<[k := set]> (seen w))) in *.
      destruct (al_shows _ HD (pointee mem k) (enter k w1) Hr) as [A1 A2 (new & A3 & A4 & A5) A6 A7]; [|exact Ht|].
      { intros t' p' Hs. cbn [seen enter set_inside w1 set_seen] in Hs. apply lookup_insert_is_Some in Hs as [Hs|[_ Hs]].
        - right. by rewrite Hs.
        - left. by apply Hw. }
      cbn [inside enter set_inside store w1 set_seen] in A1, A3, A5. constructor; try done; [cbn [inside leave set_inside]; rewrite A1; apply removelast_last| |].
      * exists new. split_and!; [done|done|]. intros u c Hu Hc. destruct (A5 u c Hu Hc) as [?|(r & Hrin & Hh)]; [by left|].
        apply elem_of_app in Hrin as [Hrin|Hrin%list_elem_of_singleton]; [right; by exists r|]. by subst r.
      * intros v Hv. left. by destruct (A6 v Hv) as [?|[? _]].
Qed.

(** ** The whole walk *)

Lemma element_steps_values (vs : list goval) : (element_steps vs).*2 = vs.
Proof. unfold element_steps. apply list_eq. intros i. rewrite list_lookup_fmap, list_lookup_imap. by destruct (vs !! i). Qed.
Lemma field_steps_values t (fs : list goval) : (field_steps t fs).*2 = fs.
Proof. unfold field_steps. apply list_eq. intros i. rewrite list_lookup_fmap, list_lookup_imap. by destruct (fs !! i). Qed.
Lemma entry_steps_values (es : list (goval * goval)) v :
  v ∈ (entry_steps (push plain Sprint es)).*2 ↔ ∃ e, e ∈ es ∧ (v = e.1 ∨ v = e.2).
Proof.
  unfold entry_steps, push. rewrite list_elem_of_fmap. split.
  - intros ([s u] & -> & (e & Hs & He)%list_elem_of_bind). rewrite merge_sort_Permutation in He. apply list_elem_of_fmap in He as (e' & -> & He).
    exists e'. split; [done|]. cbn in Hs. apply elem_of_cons in Hs as [[= _ ->]|[[= _ ->]|?%elem_of_nil]%elem_of_cons]; [by left|by right|done].
  - intros (e & He & Hv). set (en := mkEntry (keyLabel plain Sprint e.1) e.1 e.2).
    assert (Hen : en ∈ merge_sort entry_le ((λ e, mkEntry (keyLabel plain Sprint e.1) e.1 e.2) <$> es)) by (rewrite merge_sort_Permutation; apply list_elem_of_fmap; by exists e).
    destruct Hv as [-> | ->]; eexists (_, _); (split; [reflexivity|]); apply list_elem_of_bind; exists en; (split; [|exact Hen]); [by left|right; by left].
Qed.

Lemma children_shows D v : always_shows D → stage_shows false (λ c, child mem v c) (children mem plain Sprint root [Some recorder] D v (alone 0)).
Proof.
  intros HD. assert (Hnone : (∀ c, ¬ child mem v c) → stage_shows false (λ c, child mem v c) id).
  { intros Hn. eapply stage_shows_ext; [|apply stage_shows_weaken; by apply (stage_shows_none id)]. intros c. split; [done|]. apply Hn. }
  destruct v as [t|t b0|t z|t s|t fs|t [v|]|t [p|]|t bytes vs|t bytes p n|t [p|]]; unfold children, sequence; try (apply Hnone; by inversion 1).
  - eapply stage_shows_ext; [|apply stage_shows_weaken; by apply steps_shows]. intros c. rewrite field_steps_values.
    split; [by constructor|by inversion 1].
  - eapply stage_shows_ext; [|apply stage_shows_weaken; by apply always_stage]. intros c. split; [intros ->; constructor|by inversion 1].
  - eapply stage_shows_ext; [|by apply pointer_shows]. intros c. split; [intros ->; constructor|by inversion 1].
  - destruct bytes; cbn [orb]; [apply Hnone; by inversion 1|]. destruct vs as [|v vs]; cbn [length Nat.eqb]; [apply Hnone; inversion 1; by eapply elem_of_nil|].
    eapply stage_shows_ext; [|apply stage_shows_weaken; by apply steps_shows]. intros c. rewrite element_steps_values. split; [by constructor|by inversion 1].
  - destruct bytes; cbn [orb]; [apply Hnone; by inversion 1|]. destruct n as [|n]; cbn [Nat.eqb]; [apply Hnone; inversion 1; done|].
    eapply stage_shows_ext; [|apply reference_shows; [done|]].
    + intros c. rewrite element_steps_values. split; [by constructor|by inversion 1].
    + intros c. by rewrite element_steps_values.
  - unfold mapping. set (k := mkRefKey (MapType t) p 0). destruct (map_entries mem k) as [|e es] eqn:E.
    + apply Hnone. inversion 1 as [| | | | |? ? ? ? He|? ? ? ? He]; subst; fold k in He; rewrite E in He; by apply elem_of_nil in He.
    + rewrite <- E. eapply stage_shows_ext; [|apply reference_shows; [done|]].
      * intros c. rewrite entry_steps_values. split; [intros ([k' v'] & He & [->| ->]); by econstructor|].
        inversion 1 as [| | | | |? ? ? ? He|? ? ? ? He]; subst; eexists; (split; [exact He|]); auto.
      * intros c. rewrite entry_steps_values. done.
Qed.

Lemma show_recorder v w : Walk.show root [Some recorder] v (alone 0) w = (set_store w (store w ++ [(v, here root w)]), if keep v then alone 0 else 0%Z).
Proof. unfold Walk.show. rewrite members_alone by (unfold maxSharedVisitors; lia). cbn. by destruct (keep v). Qed.

Lemma body_shows D : always_shows D → always_shows (body mem plain Sprint root [Some recorder] D).
Proof.
  intros HD.
  assert (Hbody : ∀ v w, refusal w = None → body mem plain Sprint root [Some recorder] D v (alone 0) w =
    if keep v then children mem plain Sprint root [Some recorder] D v (alone 0) (set_store w (store w ++ [(v, here root w)]))
    else set_store w (store w ++ [(v, here root w)])).
  { intros v w Hr. unfold body, refused. rewrite Hr. cbn [bool_decide]. rewrite show_recorder. by destruct (keep v). }
  constructor; intros v w.
  - intros Hw. destruct (refusal w) as [err|] eqn:Hr; [unfold body, refused; by rewrite Hr|]. rewrite Hbody by done.
    destruct (keep v); [|done]. by apply (st_cut _ _ _ (children_shows D v HD)).
  - intros Hr Hw. rewrite Hbody by done. set (w1 := set_store w (store w ++ [(v, here root w)])) in *.
    assert (Hw1 : entered_shown w1).
    { intros t p Hs. apply has_app. destruct (Hw t p Hs) as [?| ->]; [by left|right]. exists (here root w). by left. }
    assert (Hcons : ∀ new u, has ((v, here root w) :: new) u → u = v ∨ has new u).
    { intros new u [p [[= -> _]|Hp]%elem_of_cons]; [by left|right; by exists p]. }
    destruct (keep v) eqn:Hk; intros Ht.
    + destruct (st_shows _ _ _ (children_shows D v HD) w1 Hr Hw1 Ht) as [A1 A2 (new & A3 & A4 & A5) A6 A7].
      cbn [inside store w1 set_store] in A1, A3, A5, A6. assert (Hv : has (store (children mem plain Sprint root [Some recorder] D v (alone 0) w1)) v).
      { rewrite A3. apply has_prefix, has_app. right. exists (here root w). by left. }
      constructor; [done|done| |intros u ->; by left|done].
      exists ((v, here root w) :: new). split; [by rewrite A3, <- app_assoc|]. split.
      * intros u [->|(c & Hc & Hu)%A4]%Hcons; exists v; (split; [done|]); [done|]. by eapply rtc_l.
      * intros u c [->|Hu]%Hcons Hc; [|by apply (A5 u)]. destruct (A6 c (proj2 Hc)) as [?|[_ ?]]; [by left|by right].
    + constructor; [done|done| |intros u ->; left; apply has_app; right; exists (here root w); by left|done].
      exists [(v, here root w)]. split; [done|]. split.
      * intros u [->|[]%has_nil]%Hcons. by exists v.
      * intros u c [->|[]%has_nil]%Hcons [Hk' _]. congruence.
Qed.

Lemma truncate_shows : always_shows (λ _ _, truncate).
Proof. constructor; [done|]. intros v w _ _ [=]. Qed.

Lemma walk_shows (levels : nat) : always_shows (walk mem plain Sprint root [Some recorder] None levels).
Proof. induction levels as [|levels IH]; [exact (body_shows _ truncate_shows)|exact (body_shows _ IH)]. Qed.

Lemma trace_shows v : truncated (traced (Some v)) = false → ∀ u, has (trace (Some v)) u ↔ rtc (led mem keep) v u.
Proof.
  unfold trace, traced, traverse. change (all [Some recorder]) with (alone 0). intros Ht.
  destruct (al_shows _ (walk_shows MaxWalkDepth) v (newValueWalk 0 []) eq_refl) as [_ _ (new & A3 & A4 & A5) A6 _]; [|exact Ht|].
  { intros t p [x Hx]. cbn in Hx. by rewrite lookup_empty in Hx. }
  cbn [store newValueWalk app] in A3. set (w := walk _ _ _ _ _ _ _ _ _ _) in *. intros u. split.
  - intros Hu. rewrite A3 in Hu. by apply A4 in Hu as (? & -> & Hu).
  - assert (Hv : has (store w) v) by (destruct (A6 v eq_refl) as [?|[? _]]; done). intros Hr. revert Hv. clear A4 A6. clearbody w.
    induction Hr as [|x y z Hxy Hyz IH]; [done|]. intros Hx. apply IH. rewrite A3 in Hx. destruct (A5 x y Hx Hxy) as [?|(r & Hin & _)]; [done|].
    by apply elem_of_nil in Hin.
Qed.
End Trace.

(** ** Visitors that prune alike *)

Section Readers.
Context (mem : memory) (plain : gostring → bool) (Sprint : goval → gostring) (root : gostring) {S : Type}.
Context (keep : goval → bool) (vs : list (option (Visitor (S:=S)))) (ask : option (nat → option gostring)).
#[local] Abbreviation recorder := (recorder keep).

(** Each asks for what a value holds by the same test of it, and is not told of
    cycles. *)
Definition reads_on : Prop := ∀ i V, vs !! i = Some (Some V) → (∀ s v p, (Visit V s v p).2 = keep v) ∧ Cycle V = None.

(** What they make of one value shown. *)
Definition play (s : S) (e : goval * path) : S := foldl (λ s V, match V with Some V => (Visit V s e.1 e.2).1 | None => s end) s vs.

Context (Hreads : reads_on) (Hlength : length vs ≤ maxSharedVisitors) (Hsome : all vs ≠ 0%Z) (start : S).
#[local] Abbreviation W := (valueWalk (S:=S)).
#[local] Abbreviation R := (valueWalk (S:=shown_at)).
Implicit Types (w : W) (r : R).

(** How often a context is asked of so many values: once of each [askEvery]. *)
Definition asks_for (n : nat) : nat := (n + 255) / 256.
Lemma asks_for_le m n : m ≤ n → asks_for m ≤ asks_for n.
Proof. intros H. apply Nat.Div0.div_le_mono. lia. Qed.
Lemma asks_for_S n : asks_for (Datatypes.S n) = (if (Z.of_nat n mod askEvery =? 0)%Z then Datatypes.S (asks_for n) else asks_for n).
Proof.
  unfold asks_for, askEvery. change 256%Z with (Z.of_nat 256). rewrite <- Nat2Z.inj_mod.
  replace (Datatypes.S n + 255) with (n + 1 * 256) by lia. rewrite Nat.div_add by done.
  pose proof (Nat.div_mod n 256 ltac:(lia)) as Hd. pose proof (Nat.mod_upper_bound n 256 ltac:(lia)) as Hm.
  destruct (Z.eqb_spec (Z.of_nat (n mod 256)) 0) as [E|E].
  - assert ((n + 255) / 256 = n / 256) as ->; [|lia]. symmetry. apply (Nat.div_unique _ _ _ 255); lia.
  - assert ((n + 255) / 256 = n / 256 + 1) as ->; [|lia]. symmetry. apply (Nat.div_unique _ _ _ (n mod 256 - 1)); lia.
Qed.
(** The values shown so far, and how often that had the context asked. *)
Definition counted w (n : nat) : Prop :=
  match ask with Some _ => shown w = Z.of_nat n ∧ asks w = asks_for n | None => True end.

Record follows w r : Prop := {
  f_store : store w = foldl play start (store r);
  f_steps : steps w = steps r;
  f_inside : inside w = inside r;
  f_truncated : truncated w = truncated r;
  f_refusal : refusal w = None;
  f_refusal_r : refusal r = None;
  f_seen k : (seen w !! k = None ∧ seen r !! k = None) ∨ (seen w !! k = Some (all vs) ∧ seen r !! k = Some (alone 0));
  f_count : counted w (length (store r))
}.

(** A walk stopped asks no more, and was stopped at a value the recorder is shown. *)
Definition still w w' : Prop := refusal w' = refusal w ∧ asks w' = asks w.
Definition behind w r : Prop := ∃ n, asks w = Datatypes.S n ∧ n < asks_for (length (store r)).
Lemma still_refused w w' : still w w' → refusal w ≠ None → refusal w' ≠ None.
Proof. by intros [-> _]. Qed.
Lemma still_trans w w' w'' : still w w' → still w' w'' → still w w''.
Proof. intros [? ?] [? ?]. split; congruence. Qed.
Lemma behind_more w w' r r' : behind w r → still w w' → length (store r) ≤ length (store r') → behind w' r'.
Proof. intros (n & E & Hn) [_ Ea] Hr. exists n. split; [congruence|]. pose proof (asks_for_le _ _ Hr). lia. Qed.

(** Stages that keep a walk in step with the recorder's until it is stopped. *)
Record paced (F : W → W) (G : R → R) : Prop := {
  p_stopped w : refusal w ≠ None → still w (F w);
  p_more r : length (store r) ≤ length (store (G r));
  p_follows w r : follows w r → refusal (F w) = None → follows (F w) (G r);
  p_behind w r : follows w r → refusal (F w) ≠ None → behind (F w) (G r)
}.
Record descends_paced (D : goval → visitorSet → W → W) (G : goval → visitorSet → R → R) : Prop := {
  d_stopped v set w : refusal w ≠ None → still w (D v set w);
  d_paced v : paced (D v (all vs)) (G v (alone 0))
}.

Lemma paced_id : paced id id.
Proof. constructor; [done|done|done|]. intros w r Hf Hr. by destruct Hr, Hf. Qed.

Lemma paced_compose F F' G G' : paced F G → paced F' G' → paced (λ w, F' (F w)) (λ r, G' (G r)).
Proof.
  intros HF HF'. constructor.
  - intros w Hw. pose proof (p_stopped _ _ HF w Hw) as Hs. eapply still_trans; [exact Hs|]. apply (p_stopped _ _ HF'). by eapply still_refused.
  - intros r. etrans; [apply (p_more _ _ HF)|apply (p_more _ _ HF')].
  - intros w r Hf Hr. apply (p_follows _ _ HF'); [|done]. apply (p_follows _ _ HF); [done|]. destruct (refusal (F w)) eqn:E; [|done]. exfalso.
    destruct (p_stopped _ _ HF' (F w)) as [E' _]; [by rewrite E|congruence].
  - intros w r Hf Hr. destruct (refusal (F w)) as [err|] eqn:E.
    + eapply behind_more; [apply (p_behind _ _ HF w r Hf)|apply (p_stopped _ _ HF')|apply (p_more _ _ HF')]; by rewrite E.
    + apply (p_behind _ _ HF'); [|done]. by apply (p_follows _ _ HF).
Qed.

Lemma step_paced D G s c : descends_paced D G → paced (step D s c (all vs)) (step G s c (alone 0)).
Proof.
  intros HD. assert (Hset : ∀ w r, follows w r → follows (set_steps w (steps w ++ [s])) (set_steps r (steps r ++ [s]))).
  { intros w r [F1 F2 F3 F4 F5 F6 F7 F8]. constructor; try done. cbn. congruence. }
  constructor.
  - intros w Hw. exact (p_stopped _ _ (d_paced _ _ HD c) (set_steps w (steps w ++ [s])) Hw).
  - intros r. exact (p_more _ _ (d_paced _ _ HD c) (set_steps r (steps r ++ [s]))).
  - intros w r Hf Hr. destruct (p_follows _ _ (d_paced _ _ HD c) _ _ (Hset w r Hf) Hr) as [G1 G2 G3 G4 G5 G6 G7 G8].
    constructor; try done. unfold step. cbn [steps set_steps]. by rewrite G2.
  - intros w r Hf Hr. exact (p_behind _ _ (d_paced _ _ HD c) _ _ (Hset w r Hf) Hr).
Qed.

Lemma steps_paced D G cs : descends_paced D G → paced (step_all D cs (all vs)) (step_all G cs (alone 0)).
Proof.
  intros HD. unfold step_all. induction cs as [|c cs IH]; [apply paced_id|]. exact (paced_compose _ _ _ _ (step_paced D G c.1 c.2 HD) IH).
Qed.

Lemma tell_readers k (n : nat) (us : list nat) w : foldl (tell_cycle root vs k n) w us = w.
Proof.
  induction us as [|i us IH]; [done|]. cbn [foldl]. rewrite <- IH at 2. f_equal. unfold tell_cycle.
  destruct (vs !! i) as [[V|]|] eqn:E; [|done..]. by destruct (Hreads i V E) as [_ ->].
Qed.

Lemma closes_paced k w r : inside w = inside r → ∃ b, closesCycle root vs k (all vs) w = (b, w) ∧ closesCycle root [Some recorder] k (alone 0) r = (b, r).
Proof.
  intros Hi. unfold closesCycle. rewrite Hi. destruct (list_find _ _) as [[n x]|]; [|by exists false]. exists true. rewrite tell_readers. split; [done|].
  by rewrite members_alone by (unfold maxSharedVisitors; lia).
Qed.

Lemma closes_recorder_same k r : ∃ b, closesCycle root [Some recorder] k (alone 0) r = (b, r).
Proof.
  unfold closesCycle. destruct (list_find _ _) as [[n x]|]; [|by exists false]. exists true.
  by rewrite members_alone by (unfold maxSharedVisitors; lia).
Qed.

Lemma enter_paced k F G : paced F G → paced (λ w, leave (F (enter k w))) (λ r, leave (G (enter k r))).
Proof.
  intros HF. assert (Hset : ∀ w r, follows w r → follows (enter k w) (enter k r)).
  { intros w r [F1 F2 F3 F4 F5 F6 F7 F8]. constructor; try done. unfold enter. cbn. congruence. }
  constructor.
  - intros w Hw. exact (p_stopped _ _ HF (enter k w) Hw).
  - intros r. exact (p_more _ _ HF (enter k r)).
  - intros w r Hf Hr. destruct (p_follows _ _ HF _ _ (Hset w r Hf) Hr) as [G1 G2 G3 G4 G5 G6 G7 G8].
    constructor; try done. cbn [inside leave set_inside]. by rewrite G3.
  - intros w r Hf Hr. exact (p_behind _ _ HF _ _ (Hset w r Hf) Hr).
Qed.

Lemma reference_paced D G k cs : descends_paced D G → paced (reference root vs D k cs (all vs)) (reference root [Some recorder] G k cs (alone 0)).
Proof.
  intros HD. pose proof (enter_paced k _ _ (steps_paced D G cs HD)) as HE. constructor.
  - intros w Hw. unfold reference, closesCycle. destruct (list_find _ (inside w)) as [[n x]|]; [by rewrite tell_readers|]. exact (p_stopped _ _ HE w Hw).
  - intros r. unfold reference. destruct (closes_recorder_same k r) as [b ->]. destruct b; [done|]. exact (p_more _ _ HE r).
  - intros w r Hf. unfold reference. destruct (closes_paced k w r (f_inside _ _ Hf)) as (b & -> & ->). destruct b; [done|]. exact (p_follows _ _ HE w r Hf).
  - intros w r Hf. unfold reference. destruct (closes_paced k w r (f_inside _ _ Hf)) as (b & -> & ->). destruct b; [intros Hr; by destruct Hr, Hf|]. exact (p_behind _ _ HE w r Hf).
Qed.

Lemma closes_stopped k set w : still w (closesCycle root vs k set w).2.
Proof. unfold closesCycle. destruct (list_find _ _) as [[n x]|]; [|done]. by rewrite tell_readers. Qed.

Lemma pointer_stopped D G t p set w : descends_paced D G → refusal w ≠ None → still w (pointer mem root vs D t p set w).
Proof.
  intros HD Hw. unfold pointer. destruct (_ =? 0)%Z; [apply closes_stopped|]. exact (d_stopped _ _ HD _ _ (enter _ (set_seen w _)) Hw).
Qed.

Lemma pointer_paced D G t p : descends_paced D G → paced (pointer mem root vs D t p (all vs)) (pointer mem root [Some recorder] G t p (alone 0)).
Proof.
  intros HD. set (k := mkRefKey (PointerType t) p 0). pose proof (enter_paced k _ _ (d_paced _ _ HD (pointee mem k))) as HE.
  assert (Hset : ∀ w r, follows w r → follows (set_seen w (<[k := all vs]> (seen w))) (set_seen r (<[k := alone 0]> (seen r)))).
  { intros w r [F1 F2 F3 F4 F5 F6 F7 F8]. constructor; try done. intros k'. cbn [seen set_seen].
    destruct (decide (k' = k)) as [->|Hne]; [right; by rewrite !lookup_insert_eq|]. rewrite !lookup_insert_ne by congruence. apply F7. }
  assert (Hcase : ∀ w r, follows w r → (pointer mem root vs D t p (all vs) w = w ∧ pointer mem root [Some recorder] G t p (alone 0) r = r) ∨
    (pointer mem root vs D t p (all vs) w = leave (D (pointee mem k) (all vs) (enter k (set_seen w (<[k := all vs]> (seen w))))) ∧
     pointer mem root [Some recorder] G t p (alone 0) r = leave (G (pointee mem k) (alone 0) (enter k (set_seen r (<[k := alone 0]> (seen r))))))).
  { intros w r Hf. unfold pointer. fold k. destruct (f_seen _ _ Hf k) as [[-> ->]|[-> ->]]; cbn [default].
    - right. rewrite !Z.ldiff_0_r, !Z.lor_0_l. destruct (Z.eqb_spec (all vs) 0%Z) as [?|_]; [done|]. by change (alone 0 =? 0)%Z with false.
    - left. rewrite !Z.ldiff_diag, Z.eqb_refl. by destruct (closes_paced k w r (f_inside _ _ Hf)) as (b & -> & ->). }
  constructor.
  - intros w. by eapply pointer_stopped.
  - intros r. unfold pointer. fold k. destruct (fresh_alone (default 0%Z (seen r !! k))) as [[-> _]| ->].
    + by destruct (closes_recorder_same k r) as [b ->].
    + change (alone 0 =? 0)%Z with false. cbv iota. exact (p_more _ _ HE (set_seen r _)).
  - intros w r Hf. destruct (Hcase w r Hf) as [[-> ->]|[-> ->]]; [done|]. exact (p_follows _ _ HE _ _ (Hset w r Hf)).
  - intros w r Hf. destruct (Hcase w r Hf) as [[-> ->]|[-> ->]]; [intros Hr; by destruct Hr, Hf|]. exact (p_behind _ _ HE _ _ (Hset w r Hf)).
Qed.

Lemma steps_stopped D G cs set w : descends_paced D G → refusal w ≠ None → still w (step_all D cs set w).
Proof.
  intros HD. unfold step_all. revert w. induction cs as [|c cs IH]; intros w Hw; [done|]. cbn [foldl].
  assert (Hs : still w (step D c.1 c.2 set w)) by exact (d_stopped _ _ HD c.2 set (set_steps w (steps w ++ [c.1])) Hw).
  eapply still_trans; [exact Hs|]. apply IH. by eapply still_refused.
Qed.

Lemma reference_stopped D G k cs set w : descends_paced D G → refusal w ≠ None → still w (reference root vs D k cs set w).
Proof.
  intros HD Hw. unfold reference. pose proof (closes_stopped k set w) as Hc. destruct (closesCycle root vs k set w) as [b w1]. cbn [snd] in Hc.
  destruct b; [done|]. eapply still_trans; [exact Hc|]. exact (steps_stopped D G cs set (enter k w1) HD (still_refused _ _ Hc Hw)).
Qed.

Lemma children_stopped D G v set w : descends_paced D G → refusal w ≠ None → still w (children mem plain Sprint root vs D v set w).
Proof.
  intros HD Hw. destruct v as [t|t b0|t z|t s|t fs|t [v|]|t [p|]|t bytes es|t bytes p n|t [p|]]; unfold children, sequence; try done.
  - by eapply steps_stopped.
  - by apply (d_stopped _ _ HD).
  - by eapply pointer_stopped.
  - destruct (bytes || (length es =? 0)); [done|by eapply steps_stopped].
  - destruct (bytes || (n =? 0)); [done|by eapply reference_stopped].
  - unfold mapping. destruct (map_entries mem _); [done|by eapply reference_stopped].
Qed.

Lemma children_paced D G v : descends_paced D G → paced (children mem plain Sprint root vs D v (all vs)) (children mem plain Sprint root [Some recorder] G v (alone 0)).
Proof.
  intros HD. destruct v as [t|t b0|t z|t s|t fs|t [v|]|t [p|]|t bytes es|t bytes p n|t [p|]]; unfold children, sequence; try apply paced_id.
  - by apply steps_paced.
  - apply (d_paced _ _ HD).
  - by apply pointer_paced.
  - destruct (bytes || (length es =? 0)); [apply paced_id|by apply steps_paced].
  - destruct (bytes || (n =? 0)); [apply paced_id|by apply reference_paced].
  - unfold mapping. destruct (map_entries mem _); [apply paced_id|by apply reference_paced].
Qed.

(** One value, shown to all of them. *)
Lemma foldl_lookup {A B} (f : A → B → A) (l : list B) (o : nat) (get : nat → option B) a : (∀ i, get (o + i) = l !! i) →
  foldl (λ a i, match get i with Some x => f a x | None => a end) a (seq o (length l)) = foldl f a l.
Proof.
  revert o a. induction l as [|x l IH]; intros o a Hg; [done|]. cbn [length seq foldl]. pose proof (Hg 0) as H0. rewrite Nat.add_0_r in H0.
  rewrite H0. cbn. apply IH. intros i. etrans; [|exact (Hg (Datatypes.S i))]. f_equal. lia.
Qed.

Lemma foldl_skip {A} (f : A → nat → A) (P : nat → bool) (us : list nat) a : (∀ i a, P i = false → f a i = a) →
  foldl f a (filter (λ i, P i = true) us) = foldl f a us.
Proof.
  intros Hf. revert a. induction us as [|i us IH]; intros a; [done|]. rewrite filter_cons. destruct (decide (P i = true)) as [Hp|Hp]; cbn [foldl]; [apply IH|].
  apply not_true_is_false in Hp. by rewrite Hf.
Qed.

Lemma show_all_to v (us : list nat) w (set : visitorSet) : foldl (show_to root vs v) (w, set) us =
  (set_store w (foldl (λ s i, match vs !! i with Some (Some V) => (Visit V s v (here root w)).1 | _ => s end) (store w) us),
   if keep v then foldl (λ set i, match vs !! i with Some (Some _) => Z.lor set (Z.shiftl 1 (Z.of_nat i)) | _ => set end) set us else set).
Proof.
  revert w set. induction us as [|i us IH]; intros w set; cbn [foldl]; [by destruct w, (keep v)|].
  assert (Hi : show_to root vs v (w, set) i = (set_store w (match vs !! i with Some (Some V) => (Visit V (store w) v (here root w)).1 | _ => store w end),
    if keep v then match vs !! i with Some (Some _) => Z.lor set (Z.shiftl 1 (Z.of_nat i)) | _ => set end else set)).
  { unfold show_to. destruct (vs !! i) as [[V|]|] eqn:E; [|by destruct w, (keep v)..]. cbn [fst snd]. destruct (Hreads i V E) as [Ha _].
    specialize (Ha (store w) v (here root w)). destruct (Visit V _ _ _) as [s asks]. cbn in Ha |- *. by subst asks. }
  rewrite Hi, IH. by destruct (keep v).
Qed.

Lemma all_idle (i : nat) : bit (all vs) i = false → match vs !! i with Some (Some _) => false | _ => true end = true.
Proof. rewrite bit_all. by destruct (vs !! i) as [[V|]|]. Qed.

Lemma show_readers v w : Walk.show root vs v (all vs) w = (set_store w (play (store w) (v, here root w)), if keep v then all vs else 0%Z).
Proof.
  unfold Walk.show. rewrite show_all_to. unfold members. f_equal.
  - f_equal. rewrite (foldl_skip _ (λ i, bit (all vs) i)) by (intros i a Hi%all_idle; by destruct (vs !! i) as [[V|]|]).
    replace maxSharedVisitors with (length vs + (maxSharedVisitors - length vs)) by lia. rewrite seq_app, foldl_app.
    transitivity (foldl (λ s i, match vs !! i with Some (Some V) => (Visit V s v (here root w)).1 | _ => s end) (store w) (seq 0 (length vs))).
    + generalize (foldl (λ s i, match vs !! i with Some (Some V) => (Visit V s v (here root w)).1 | _ => s end) (store w) (seq 0 (length vs))). intros s.
      assert (Hout : ∀ i, i ∈ seq (0 + length vs) (maxSharedVisitors - length vs) → vs !! i = None) by (intros i Hi%elem_of_seq; apply lookup_ge_None; lia).
      induction (seq _ _) as [|i us IH]; [done|]. cbn [foldl]. rewrite (Hout i) by by left. apply IH. intros j Hj. apply Hout. by right.
    + unfold play. rewrite <- (foldl_lookup _ vs 0 (λ i, vs !! i)) by done. generalize (store w). induction (seq _ _) as [|i us IH]; intros s; [done|]. cbn [foldl].
      rewrite IH. done.
  - destruct (keep v); [|done].
    transitivity (foldl (λ set i, match vs !! i with Some (Some _) => Z.lor set (Z.shiftl 1 (Z.of_nat i)) | _ => set end) 0%Z (seq 0 maxSharedVisitors)).
    + apply (foldl_skip _ (λ i, bit (all vs) i)). intros i a Hi%all_idle. by destruct (vs !! i) as [[V|]|].
    + unfold all. replace maxSharedVisitors with (length vs + (maxSharedVisitors - length vs)) by lia. rewrite seq_app, foldl_app.
      generalize (foldl (λ set i, match vs !! i with Some (Some _) => Z.lor set (Z.shiftl 1 (Z.of_nat i)) | _ => set end) 0%Z (seq 0 (length vs))). intros set.
      assert (Hout : ∀ i, i ∈ seq (0 + length vs) (maxSharedVisitors - length vs) → vs !! i = None) by (intros i Hi%elem_of_seq; apply lookup_ge_None; lia).
      induction (seq _ _) as [|i us IH]; [done|]. cbn [foldl]. rewrite (Hout i) by by left. apply IH. intros j Hj. apply Hout. by right.
Qed.

Lemma refused_stopped w : refusal w ≠ None → (refused ask w).1 = true ∧ still w (refused ask w).2.
Proof.
  intros Hw. unfold refused. destruct (refusal w) as [err|] eqn:E; [|done]. unfold still. destruct ask; cbn; by rewrite ?E.
Qed.

Lemma refused_on w n : refusal w = None → counted w n → ∃ w1, refused ask w = (bool_decide (is_Some (refusal w1)), w1) ∧
  seen w1 = seen w ∧ inside w1 = inside w ∧ steps w1 = steps w ∧ truncated w1 = truncated w ∧ store w1 = store w ∧
  (refusal w1 = None → counted w1 (Datatypes.S n)) ∧
  (refusal w1 ≠ None → ∃ m, asks w1 = Datatypes.S m ∧ m < asks_for (Datatypes.S n)).
Proof.
  intros Hw Hc. unfold refused, counted in *. rewrite Hw. destruct ask as [a|]; [|by exists w; rewrite Hw]. destruct Hc as [Hs Ha].
  pose proof (asks_for_S n) as HS. rewrite <- Hs in HS. destruct (_ =? 0)%Z.
  - destruct (a (asks w)) as [err|].
    + exists (set_asked w (shown w) (Datatypes.S (asks w)) (Some err)). split_and!; try done. intros _. exists (asks w). split; [done|]. lia.
    + exists (set_asked w (shown w + 1) (Datatypes.S (asks w)) None). split_and!; try done. intros _. cbn [shown asks set_asked]. rewrite HS, Ha. split; [lia|done].
  - exists (set_asked w (shown w + 1) (asks w) None). split_and!; try done. intros _. cbn [shown asks set_asked]. rewrite HS, Ha. split; [lia|done].
Qed.

Lemma walk_paced (levels : nat) : descends_paced (walk mem plain Sprint root vs ask levels) (walk mem plain Sprint root [Some recorder] None levels).
Proof.
  assert (Hbody : ∀ D G, descends_paced D G → descends_paced
    (λ v active w, let '(stop, w) := refused ask w in if stop : bool then w else
       let '(w, asking) := Walk.show root vs v active w in if (asking =? 0)%Z then w else children mem plain Sprint root vs D v asking w)
    (body mem plain Sprint root [Some recorder] G)).
  { intros D G HD. assert (Hstop : ∀ v set w, refusal w ≠ None → still w (let '(stop, w) := refused ask w in if stop : bool then w else
       let '(w, asking) := Walk.show root vs v set w in if (asking =? 0)%Z then w else children mem plain Sprint root vs D v asking w)).
    { intros v set w Hw. destruct (refused_stopped w Hw) as [Hs Hr]. destruct (refused ask w) as [stop w1]. cbn in Hs, Hr. by subst stop. }
    assert (Hmore : ∀ v r, length (store r) ≤ length (store (body mem plain Sprint root [Some recorder] G v (alone 0) r))).
    { intros v r. unfold body, refused. destruct (bool_decide _); [done|]. rewrite show_recorder.
      assert (length (store r) ≤ length (store (set_store r (store r ++ [(v, here root r)])))) by (cbn; rewrite length_app; lia).
      destruct (keep v); [|done]. change (alone 0 =? 0)%Z with false. cbv iota. etrans; [done|]. apply (p_more _ _ (children_paced D G v HD)). }
    assert (Hshown : ∀ v w w1 r, follows w r → seen w1 = seen w → inside w1 = inside w → steps w1 = steps w → truncated w1 = truncated w → store w1 = store w →
      refusal w1 = None → counted w1 (Datatypes.S (length (store r))) →
      follows (set_store w1 (play (store w1) (v, here root w1))) (set_store r (store r ++ [(v, here root r)]))).
    { intros v w w1 r [F1 F2 F3 F4 F5 F6 F7 F8] E1 E2 E3 E4 E5 E6 E7. constructor; cbn [store steps inside truncated refusal seen set_store]; try congruence.
      - rewrite foldl_app, E5, F1. cbn [foldl]. unfold here. by rewrite E3, F2.
      - intros k. rewrite E1. apply F7.
      - rewrite length_app, Nat.add_1_r. exact E7. }
    constructor; [done|]. intros v. constructor; [apply Hstop|apply Hmore| |].
    all: intros w r Hf; destruct (refused_on w _ (f_refusal _ _ Hf) (f_count _ _ Hf)) as (w1 & -> & E1 & E2 & E3 & E4 & E5 & Hgo & Hno).
    - case_bool_decide as Hr1; [intros Hr; by rewrite Hr in Hr1; destruct Hr1|]. apply eq_None_not_Some in Hr1.
      pose proof (Hshown v w w1 r Hf E1 E2 E3 E4 E5 Hr1 (Hgo Hr1)) as Hs. rewrite show_readers. unfold body, refused. rewrite (f_refusal_r _ _ Hf).
      cbn [bool_decide]. rewrite show_recorder. destruct (keep v); [|done].
      destruct (Z.eqb_spec (all vs) 0%Z) as [?|_]; [done|]. by apply (p_follows _ _ (children_paced D G v HD)).
    - assert (Hb : body mem plain Sprint root [Some recorder] G v (alone 0) r =
        if keep v then children mem plain Sprint root [Some recorder] G v (alone 0) (set_store r (store r ++ [(v, here root r)])) else set_store r (store r ++ [(v, here root r)])).
      { unfold body, refused. rewrite (f_refusal_r _ _ Hf). cbn [bool_decide]. rewrite show_recorder. by destruct (keep v). }
      rewrite Hb. case_bool_decide as Hr1.
      + intros Hr. destruct (Hno Hr) as (m & Em & Hm). exists m. split; [done|].
        assert (Hlen : Datatypes.S (length (store r)) ≤ length (store (if keep v then children mem plain Sprint root [Some recorder] G v (alone 0) (set_store r (store r ++ [(v, here root r)])) else set_store r (store r ++ [(v, here root r)])))).
        { assert (Hone : Datatypes.S (length (store r)) = length (store (set_store r (store r ++ [(v, here root r)])))) by (cbn; rewrite length_app; cbn; lia).
          rewrite Hone. destruct (keep v); [|done]. apply (p_more _ _ (children_paced D G v HD)). }
        pose proof (asks_for_le _ _ Hlen). lia.
      + apply eq_None_not_Some in Hr1. pose proof (Hshown v w w1 r Hf E1 E2 E3 E4 E5 Hr1 (Hgo Hr1)) as Hs. rewrite show_readers.
        destruct (keep v); [|intros Hr; by destruct Hr, Hs].
        destruct (Z.eqb_spec (all vs) 0%Z) as [?|_]; [done|]. by apply (p_behind _ _ (children_paced D G v HD)). }
  induction levels as [|levels IH].
  - apply (Hbody (λ _ _, truncate) (λ _ _, truncate)). constructor; [done|]. intros v. constructor; [by intros w Hw|by intros r| |].
    + intros w r [F1 F2 F3 F4 F5 F6 F7 F8] _. by constructor.
    + intros w r Hf Hr. by destruct Hr, Hf.
  - exact (Hbody _ _ IH).
Qed.

Lemma follows_start : follows (newValueWalk 0 start) (newValueWalk 0 []).
Proof. constructor; try done; [intros k; left; split; apply lookup_empty|]. unfold counted. by destruct ask. Qed.

(** The asks of a walk that ended, and of one that was stopped at the last of its. *)
Lemma traverse_asks v : let w := traverse mem plain Sprint root vs ask (Some v) 0 start in
  let n := length (trace mem plain Sprint root keep (Some v)) in
  match refusal w with
  | None => ∀ f, ask = Some f → asks w = asks_for n
  | Some _ => ∃ m, asks w = Datatypes.S m ∧ m < asks_for n
  end.
Proof.
  cbv zeta. unfold trace, traced, traverse. change (all [Some recorder]) with (alone 0).
  pose proof (d_paced _ _ (walk_paced MaxWalkDepth) v) as HP. destruct (refusal _) as [err|] eqn:E.
  - apply (p_behind _ _ HP _ _ follows_start). by rewrite E.
  - intros f Hask. pose proof (f_count _ _ (p_follows _ _ HP _ _ follows_start E)) as Hc. revert Hc. unfold counted. rewrite Hask. by intros [_ ?].
Qed.

(** Visitors that prune alike make, of one walk, what playing its trace to them
    makes; the walk is cut short where the trace is. *)
Lemma traverse_plays v : refusal (traverse mem plain Sprint root vs ask v 0 start) = None →
  store (traverse mem plain Sprint root vs ask v 0 start) = foldl play start (trace mem plain Sprint root keep v) ∧
  truncated (traverse mem plain Sprint root vs ask v 0 start) = truncated (traced mem plain Sprint root keep v).
Proof.
  unfold trace, traced, traverse. change (all [Some recorder]) with (alone 0). destruct v as [x|]; [|done]. intros Hr.
  by destruct (p_follows _ _ (d_paced _ _ (walk_paced MaxWalkDepth) x) _ _ follows_start Hr) as [F1 _ _ F4 _ _ _ _].
Qed.
End Readers.

Section WalkPlays.
Context (mem : memory) (plain : gostring → bool) (Sprint : goval → gostring) (root : gostring) (keep : goval → bool) {S : Type}.

Lemma walkValues_plays (vs : list (option (Visitor (S:=S)))) ask v start s cut : reads_on keep vs → vs ≠ [] → length vs ≤ maxSharedVisitors → all vs ≠ 0%Z →
  walkValues mem plain Sprint ask v root vs start = (s, cut, None) →
  s = foldl (play vs) start (trace mem plain Sprint root keep v) ∧ cut = truncated (traced mem plain Sprint root keep v).
Proof.
  intros Hr Hne Hl Ha. unfold walkValues, Chunk. destruct vs as [|V vs]; [done|]. cbn [length chunks].
  rewrite take_ge by done. rewrite drop_ge by done. assert (Hnil : ∀ n, chunks n maxSharedVisitors (@nil (option (Visitor (S:=S)))) = []) by by intros [].
  rewrite Hnil. cbn [walk_groups]. destruct (refusal _) eqn:E; [done|]. intros [= <- <-].
  by apply (traverse_plays mem plain Sprint root keep (V :: vs) ask Hr Hl Ha start v).
Qed.
End WalkPlays.

(** C35: visitors that prune by the same test of the value are together shown
    one sequence of values, in whatever traversal and under whatever context lets
    them finish; unless the walk was cut short, it holds exactly the values the
    root leads to, through values not pruned, by fields, elements, entries,
    interfaces and pointers, shared and cyclic ones included. *)
Theorem walkValues_shows_all mem plain Sprint root keep {S : Type} (vs : list (option (Visitor (S:=S)))) ask x start s cut :
  reads_on keep vs → vs ≠ [] → length vs ≤ maxSharedVisitors → all vs ≠ 0%Z →
  walkValues mem plain Sprint ask (Some x) root vs start = (s, cut, None) →
  ∃ values, s = foldl (play vs) start values ∧ (cut = false → ∀ u, has values u ↔ rtc (led mem keep) x u).
Proof.
  intros Hr Hne Hl Ha [-> ->]%(walkValues_plays _ _ _ _ keep); [|done..]. eexists. split; [done|]. intros Hc. by apply (trace_shows mem plain Sprint root keep).
Qed.

Lemma walkValues_shows_all_witness : ∃ s values,
  walkValues Shared.mem (λ _, true) (λ _, []) None (Some Shared.value) (go "v") [Some (recorder (λ _, true))] [] = (s, false, None) ∧
  s = foldl (play [Some (recorder (λ _, true))]) [] values ∧ length values = 6 ∧ has values Shared.node.
Proof.
  destruct (walkValues Shared.mem (λ _, true) (λ _, []) None (Some Shared.value) (go "v") [Some (recorder (λ _, true))] []) as [[s cut] stop] eqn:E.
  assert (Hcut : (walkValues Shared.mem (λ _, true) (λ _, []) None (Some Shared.value) (go "v") [Some (recorder (λ _, true))] []).1.2 = false) by (vm_compute; reflexivity).
  assert (Hstop : (walkValues Shared.mem (λ _, true) (λ _, []) None (Some Shared.value) (go "v") [Some (recorder (λ _, true))] []).2 = None) by (vm_compute; reflexivity).
  assert (Hlen : length (walkValues Shared.mem (λ _, true) (λ _, []) None (Some Shared.value) (go "v") [Some (recorder (λ _, true))] []).1.1 = 6) by (vm_compute; reflexivity).
  rewrite E in Hcut, Hstop, Hlen. cbn in Hcut, Hstop, Hlen. subst cut stop.
  destruct (walkValues_shows_all Shared.mem (λ _, true) (λ _, []) (go "v") (λ _, true) [Some (recorder (λ _, true))] None Shared.value [] s false) as (values & Hs & Hall); [|done|unfold maxSharedVisitors; cbn; lia|done|exact E|].
  { intros [|[|i]] V HV; [injection HV as <-; split; [intros; reflexivity|reflexivity]|discriminate HV..]. }
  exists s, values. split; [done|]. split; [exact Hs|]. specialize (Hall eq_refl).
  assert (Hplay : ∀ (l acc : list (goval * path)), foldl (play [Some (recorder (λ _, true))]) acc l = acc ++ l).
  { induction l as [|e l IH]; intros acc; [by rewrite app_nil_r|]. cbn [foldl]. rewrite IH. unfold play. cbn. rewrite <- app_assoc. by destruct e. }
  rewrite Hplay in Hs. cbn in Hs. subst values. split; [exact Hlen|].
  apply Hall. eapply rtc_l; [split; [reflexivity|]; apply (child_field _ _ _ (Pointer (go "*Node") (Some 1))); by left|].
  eapply rtc_l; [split; [reflexivity|apply child_pointer]|]. apply rtc_refl.
Defined.
