(* ===== verification/WalkAsks.v ===== *)
(** * WalkAsks: what a walk asks its context

    A walk stops at the first ask answered with an error, and at nothing else:
    one whose context is never done is never stopped. It asks once of each
    [askEvery] values it shows, the first before any is shown. *)
From S2P Require Import Prelude GoLib Decimal Findings Walk WalkAlone WalkTrace.

(** The first answer of the first [n] asks that is an error. *)
Definition first_answer (f : nat → option gostring) (n : nat) : option gostring := head (omap f (seq 0 n)).

Lemma omap_none (f : nat → option gostring) (l : list nat) : (∀ m, m ∈ l → f m = None) → omap f l = [].
Proof.
  induction l as [|m l IH]; intros H; [done|]. cbn [omap list_omap]. rewrite (H m) by by left. apply IH. intros k Hk. apply H. by right.
Qed.
Lemma first_answer_none f n : (∀ m, m < n → f m = None) → first_answer f n = None.
Proof. intros H. unfold first_answer. rewrite omap_none; [done|]. intros m Hm%elem_of_seq. apply H. lia. Qed.
Lemma first_answer_some f n k err : k < n → f k = Some err → (∀ m, m < k → f m = None) → first_answer f n = Some err.
Proof.
  intros Hk E H. unfold first_answer. replace n with (k + S (n - k - 1)) by lia. rewrite seq_app, omap_app, omap_none.
  - cbn. by rewrite E.
  - intros m Hm%elem_of_seq. apply H. lia.
Qed.

Section Asks.
Context (mem : memory) (plain : gostring → bool) (Sprint : goval → gostring) (root : gostring) {S : Type}.
Context (ask : option (nat → option gostring)).
Implicit Types (w : valueWalk (S:=S)).

Definition answer (n : nat) : option gostring := match ask with Some f => f n | None => None end.
(** Of the asks made, the last alone may have been answered with an error, and
    it is the one that stopped the walk. *)
Definition asked_so_far (n : nat) (stop : option gostring) : Prop :=
  match stop with
  | None => ∀ m, m < n → answer m = None
  | Some err => ∃ k, n = Datatypes.S k ∧ answer k = Some err ∧ ∀ m, m < k → answer m = None
  end.
Definition honest w : Prop := asked_so_far (asks w) (refusal w).

Section Walking.
Context (visitors : list (option (Visitor (S:=S)))).
Definition keeps_honest (F : valueWalk (S:=S) → valueWalk (S:=S)) : Prop := ∀ w, honest w → honest (F w).

Lemma refused_honest w : honest w → honest (refused ask w).2.
Proof.
  unfold refused, honest, asked_so_far, answer. destruct ask as [f|]; [|done]. destruct (refusal w) as [err|] eqn:E; [by cbn [snd]; rewrite E|]. intros Hn.
  destruct (_ =? _)%Z; [|done]. destruct (f (asks w)) as [err|] eqn:Ef; cbn [snd set_asked asks refusal].
  - by exists (asks w).
  - intros m Hm. destruct (decide (m = asks w)) as [->|]; [done|]. apply Hn. lia.
Qed.

Definition same_asks w w' : Prop := asks w' = asks w ∧ refusal w' = refusal w.
Lemma same_honest w w' : same_asks w w' → honest w → honest w'.
Proof. unfold honest. by intros [-> ->]. Qed.

Lemma show_asks v active w : same_asks w (show root visitors v active w).1.
Proof.
  unfold show. generalize 0%Z. generalize (members active) as l. intros l. revert w. induction l as [|i l IH]; intros w z; [done|]. cbn [foldl].
  unfold show_to at 2. destruct (visitors !! i) as [[V|]|]; try apply IH. cbn [fst snd]. destruct (Visit V _ _ _) as [s b].
  exact (IH (set_store w s) _).
Qed.
Lemma closes_asks k active w : same_asks w (closesCycle root visitors k active w).2.
Proof.
  unfold closesCycle. destruct (list_find _ _) as [[n r]|]; [|done]. cbn [snd]. generalize (members active) as l. intros l. revert w. induction l as [|i l IH]; intros w; [done|].
  cbn [foldl]. enough (E : same_asks w (tell_cycle root visitors k (in_depth r) w i)) by (destruct (IH (tell_cycle root visitors k (in_depth r) w i)) as [H1 H2]; destruct E; split; congruence).
  unfold tell_cycle. destruct (visitors !! i) as [[V|]|]; try done. by destruct (Cycle V).
Qed.

Section Children.
Context (D : goval → visitorSet → valueWalk (S:=S) → valueWalk (S:=S)) (HD : ∀ v set, keeps_honest (D v set)).

Lemma steps_honest cs active : keeps_honest (step_all D cs active).
Proof. unfold step_all. induction cs as [|c cs IH]; intros w Hw; [done|]. cbn [foldl]. apply IH. exact (HD c.2 active (set_steps w (steps w ++ [c.1])) Hw). Qed.
Lemma reference_honest k cs active : keeps_honest (reference root visitors D k cs active).
Proof.
  intros w Hw. unfold reference. pose proof (closes_asks k active w) as Hc. destruct (closesCycle root visitors k active w) as [b w']. cbn [snd] in Hc.
  apply (same_honest _ _ Hc) in Hw. destruct b; [done|]. exact (steps_honest cs active (enter k w') Hw).
Qed.
Lemma children_honest v active : keeps_honest (children mem plain Sprint root visitors D v active).
Proof.
  intros w Hw. destruct v as [t|t b0|t z|t s|t fs|t [v|]|t [p|]|t bytes es|t bytes p n|t [p|]]; unfold children, sequence; try done.
  - by apply steps_honest.
  - by apply HD.
  - unfold pointer. destruct (_ =? 0)%Z; [by eapply same_honest; [apply closes_asks|]|]. exact (HD _ _ (enter _ (set_seen w _)) Hw).
  - destruct (_ || _); [done|]. by apply steps_honest.
  - destruct (_ || _); [done|]. by apply reference_honest.
  - unfold mapping. destruct (map_entries mem _); [done|]. by apply reference_honest.
Qed.
End Children.

Lemma walk_honest (levels : nat) v active : keeps_honest (walk mem plain Sprint root visitors ask levels v active).
Proof.
  revert v active. induction levels as [|levels IH]; intros v active w Hw; cbn [walk].
  all: pose proof (refused_honest w Hw) as Hr; destruct (refused ask w) as [b w1]; cbn [snd] in Hr; destruct b; [done|].
  all: pose proof (show_asks v active w1) as Hs; destruct (show root visitors v active w1) as [w2 asking]; cbn [fst] in Hs; apply (same_honest _ _ Hs) in Hr.
  all: destruct (asking =? 0)%Z; [done|]; apply children_honest; [|done].
  - by intros ? ? ? ?.
  - intros ? ?. apply IH.
Qed.
End Walking.

Lemma walk_groups_honest (groups : list (list (option (Visitor (S:=S))))) v asked cut s : (∀ m, m < asked → answer m = None) →
  ∃ n, asked_so_far n (walk_groups mem plain Sprint ask v root groups asked cut s).2.
Proof.
  revert asked cut s. induction groups as [|group groups IH]; intros asked cut s Ha; cbn [walk_groups]; [by exists asked|].
  set (w := traverse mem plain Sprint root group ask v asked s). assert (Hw : honest w).
  { unfold w, traverse. destruct v as [v|]; [apply walk_honest|]; exact Ha. }
  unfold honest in Hw. destruct (refusal w) as [err|] eqn:E; [by exists (asks w)|]. by apply IH.
Qed.

Lemma walkValues_asks v (visitors : list (option (Visitor (S:=S)))) s : ∃ n, asked_so_far n (walkValues mem plain Sprint ask v root visitors s).2.
Proof. apply walk_groups_honest. lia. Qed.

(** A walk no ask of which is answered with an error ends. *)
Lemma walkValues_ends v (visitors : list (option (Visitor (S:=S)))) s : (∀ n, answer n = None) → (walkValues mem plain Sprint ask v root visitors s).2 = None.
Proof.
  intros Ha. destruct (walkValues_asks v visitors s) as [n Hn]. destruct (walkValues _ _ _ _ _ _ _ _).2 as [err|]; [|done]. destruct Hn as (k & _ & Hk & _).
  rewrite Ha in Hk. done.
Qed.
End Asks.

(** A walk of visitors that prune alike is stopped by the first error among the
    answers its values have it ask for, and by nothing else. *)
Lemma walkValues_stops mem plain Sprint root keep {S : Type} (vs : list (option (Visitor (S:=S)))) (f : nat → option gostring) x start :
  reads_on keep vs → vs ≠ [] → length vs ≤ maxSharedVisitors → all vs ≠ 0%Z →
  (walkValues mem plain Sprint (Some f) (Some x) root vs start).2 =
    first_answer f (asks_for (length (trace mem plain Sprint root keep (Some x)))).
Proof.
  intros Hr Hne Hl Ha. unfold walkValues, Chunk. destruct vs as [|V vs]; [done|]. cbn [length chunks].
  rewrite take_ge by done. rewrite drop_ge by done. assert (Hnil : ∀ n, chunks n maxSharedVisitors (@nil (option (Visitor (S:=S)))) = []) by by intros [].
  rewrite Hnil. cbn [walk_groups].
  pose proof (traverse_asks mem plain Sprint root keep (V :: vs) (Some f) Hr Hl Ha start x) as Hasks. cbv zeta in Hasks.
  assert (Hh : honest (Some f) (traverse mem plain Sprint root (V :: vs) (Some f) (Some x) 0 start)).
  { apply walk_honest. intros m Hm. cbn in Hm. lia. }
  unfold honest, asked_so_far in Hh. destruct (refusal _) as [err|]; cbn [snd].
  - destruct Hh as (k & Ek & Hk & Hm), Hasks as (m & Em & Hlt). symmetry. apply (first_answer_some f _ k); [congruence|exact Hk|exact Hm].
  - symmetry. apply first_answer_none. intros m Hm. apply Hh. by rewrite (Hasks f eq_refl).
Qed.
