(* ===== verification/References.v ===== *)
(** * References: the typed ids a walk reaches, and what they resolve against
    ([src/ir/references.go], [src/ir/declarations.go])

    A type is a name into a table of Go types, as [reflect.Type] reads them. The
    reading of a struct type once per type, [IDReader], changes no answer, so the
    model reads it each time. *)
From S2P Require Import Prelude GoLib Decimal Findings Walk WalkAlone WalkTrace.

(** ** Types *)

Abbreviation rtype := gostring (only parsing).
Record fieldDesc := mkField { fd_name : gostring; fd_anonymous : bool; fd_type : rtype }.
Inductive typeDesc :=
  | ElemKind (elem : rtype)                    (* pointer, slice, array *)
  | MapKind (key elem : rtype)
  | StructKind (fs : list fieldDesc)
  | StringKind (named : bool)
  | OtherTypeKind.

Section Types.
Context (desc : rtype → typeDesc).

(** What the walk reads of a struct type. *)
Definition fields_of (t : rtype) : list (gostring * bool) :=
  match desc t with StructKind fs => (λ f, (fd_name f, fd_anonymous f)) <$> fs | _ => [] end.

(** ** Declarations *)

Definition idFieldName : gostring := go "ID".
Definition namedString (t : rtype) : bool := match desc t with StringKind named => named | _ => false end.

(** [declaredIDField]: the field's index and its class. *)
Definition declaredIDField (t : rtype) : option (nat * rtype) :=
  match desc t with
  | StructKind fs =>
      match list_find (λ f, fd_name f = idFieldName ∧ namedString (fd_type f) = true) fs with
      | Some (i, f) => Some (i, fd_type f)
      | None => None
      end
  | _ => None
  end.

(** [reflect.Value.String] of a string value. *)
Definition text_of (v : goval) : gostring := match v with Text _ s => s | _ => [] end.

(** [IDReader.DeclaredIDOf]: the class of the id [v] declares, and the id. *)
Definition DeclaredIDOf (v : goval) : option (rtype * gostring) :=
  match v with
  | Struct t fs =>
      match declaredIDField t with
      | Some (i, class) => Some (class, match fs !! i with Some f => text_of f | None => [] end)
      | None => None
      end
  | _ => None
  end.

(** [idClassesOf]: the type graph from some types, depth first. *)
Definition appendIDClasses (queue : list rtype) (classes : gset gostring) (t : rtype) : list rtype * gset gostring :=
  match desc t with
  | ElemKind elem => (queue ++ [elem], classes)
  | MapKind key elem => (queue ++ [key; elem], classes)
  | StructKind fs => (queue ++ (fd_type <$> fs), match declaredIDField t with Some (_, class) => {[class]} ∪ classes | None => classes end)
  | _ => (queue, classes)
  end.
Fixpoint id_classes_loop (fuel : nat) (queue : list rtype) (classes seen : gset gostring) : gset gostring * list rtype :=
  match fuel, rev queue with
  | O, _ | _, [] => (classes, queue)
  | Datatypes.S fuel, t :: rest =>
      let queue := rev rest in
      if bool_decide (t ∈ seen) then id_classes_loop fuel queue classes seen
      else let '(queue, classes) := appendIDClasses queue classes t in id_classes_loop fuel queue classes ({[t]} ∪ seen)
  end.
Definition out_degree (t : rtype) : nat :=
  match desc t with ElemKind _ => 1 | MapKind _ _ => 2 | StructKind fs => length fs | _ => 0 end.
(** The types of a table bound how much is ever queued. *)
Definition idClassesOf (universe : list rtype) (queue : list rtype) : gset gostring :=
  (id_classes_loop (length queue + sum_list (out_degree <$> universe)) queue ∅ ∅).1.

(** ** Registries *)

(** [strings.ToLower] of an ASCII text, as a Go type's name is. *)
Definition lower (text : gostring) : gostring :=
  (λ c, let n := nat_of_ascii c in if (65 <=? n) && (n <=? 90) then ascii_of_nat (n + 32) else c) <$> text.
(** [strings.TrimSuffix] *)
Definition TrimSuffix (s suffix : gostring) : gostring :=
  let n := length s - length suffix in if bool_decide (drop n s = suffix) then take n s else s.
(** [reflect.Type.Name]: the table's names are bare. *)
Definition RefNoun (t : rtype) : gostring := lower (TrimSuffix t (go "ID")).

Record keyedRegistry := mkRegistry_ { kr_index : nat; kr_class : rtype; kr_label : gostring }.
Definition keyedRegistries (document : rtype) : list keyedRegistry :=
  match desc document with
  | StructKind fs =>
      concat (imap (λ i f, match desc (fd_type f) with
        | MapKind key _ => if namedString key then [mkRegistry_ i key (lower (fd_name f))] else []
        | _ => []
        end) fs)
  | _ => []
  end.

(** [registryKeys] of a document's fields; a nil document keys nothing. *)
Definition registryKeys (mem : memory) (doc : option (list goval)) (index : nat) : gset gostring :=
  match doc with
  | None => ∅
  | Some fs =>
      match fs !! index with
      | Some (MapV t (Some p)) => list_to_set ((λ e, text_of e.1) <$> map_entries mem (mkRefKey (MapType t) p 0))
      | _ => ∅
      end
  end.

(** ** References *)

Record IDReference := mkIDReference { ref_Class : rtype; ref_ID : gostring; ref_Path : gostring }.

Record IDReferences := mkIDReferences {
  ids_labels : gmap gostring gostring;
  ids_keyed : gmap gostring (gset gostring);
  ids_declared : gmap gostring (gset gostring);
  ids_sites : list (rtype * gostring);
  ids_paths : PathLog
}.
Implicit Types (r : IDReferences) (p : path).

Definition propIDType : rtype := go "PropID".

Definition NewIDReferences (document : rtype) (classes : gset gostring) (mem : memory) (doc : option (list goval)) : IDReferences :=
  let regs := keyedRegistries document in
  let keyed := foldl (λ m reg, <[kr_class reg := registryKeys mem doc (kr_index reg)]> m) ∅ regs in
  let labels := foldl (λ m reg, <[kr_class reg := kr_label reg]> m) ∅ regs in
  mkIDReferences
    (foldl (λ m class, if bool_decide (is_Some (keyed !! class)) || bool_decide (class = propIDType) then m
                       else <[class := RefNoun class ++ go " declarations"]> m) labels (base.elements classes))
    keyed ∅ [] zeroPathLog.

Definition declared_of r (class : rtype) : gset gostring := default ∅ (ids_declared r !! class).

Definition declare r (v : goval) : IDReferences :=
  match DeclaredIDOf v with
  | None => r
  | Some (class, id) =>
      if is_empty id || bool_decide (is_Some (ids_keyed r !! class)) then r
      else mkIDReferences (ids_labels r) (ids_keyed r) (<[class := {[id]} ∪ declared_of r class]> (ids_declared r)) (ids_sites r) (ids_paths r)
  end.

(** What a reference of a class resolves against, as the walk reaches it. *)
Definition resolves r (class : rtype) (id : gostring) : bool :=
  bool_decide (id ∈ match ids_keyed r !! class with Some ids => ids | None => declared_of r class end).

Definition refer r (t : rtype) (id : gostring) p : IDReferences :=
  if is_empty id || negb (bool_decide (is_Some (ids_labels r !! t))) || resolves r t id then r
  else mkIDReferences (ids_labels r) (ids_keyed r) (ids_declared r) (ids_sites r ++ [(t, id)]) (Record_ (ids_paths r) p).

Definition visit_refs r (v : goval) p : IDReferences :=
  match v with Struct _ _ => declare r v | Text t id => refer r t id p | _ => r end.

Definition dangles r (truncated : bool) (s : rtype * gostring) : bool :=
  match ids_keyed r !! s.1 with
  | Some _ => true
  | None => negb truncated && negb (bool_decide (s.2 ∈ declared_of r s.1))
  end.

Definition Unresolved r (truncated : bool) : list IDReference :=
  if existsb (dangles r truncated) (ids_sites r) then
    '(s, p) ← zip (ids_sites r) (All (ids_paths r));
    if dangles r truncated s then [mkIDReference s.1 s.2 (path_String fields_of p)] else []
  else [].

(** [IDReferences.Declares]: a keyed class's ids are never declared. *)
Definition Declares r (class : rtype) (id : gostring) : bool := bool_decide (id ∈ declared_of r class).
Definition Label r (class : rtype) : gostring := default [] (ids_labels r !! class).

(** ** Declarations, listed *)

Record IDDeclarations := mkIDDeclarations { decl_list : list (rtype * gostring); decl_paths : PathLog }.
Definition visit_declarations (d : IDDeclarations) (v : goval) p : IDDeclarations :=
  match DeclaredIDOf v with
  | Some (class, id) => if is_empty id then d else mkIDDeclarations (decl_list d ++ [(class, id)]) (Record_ (decl_paths d) p)
  | None => d
  end.

(** ** What they gather *)

(** An identity declared among values shown. *)
Definition declares_in (tr : shown_at) (class : rtype) (id : gostring) : Prop :=
  id ≠ [] ∧ ∃ v, has tr v ∧ DeclaredIDOf v = Some (class, id).

(** The references among them: labelled and not empty. *)
Definition candidates (labelled : rtype → bool) (tr : shown_at) : list (rtype * gostring * path) :=
  omap (λ e, match e.1 with Text t id => if negb (is_empty id) && labelled t then Some (t, id, e.2) else None | _ => None end) tr.

Definition refs_of r (tr : shown_at) : IDReferences := foldl (λ r e, visit_refs r e.1 e.2) r tr.
Definition labelled r (t : rtype) : bool := bool_decide (is_Some (ids_labels r !! t)).

Lemma declare_spec r v : ids_labels (declare r v) = ids_labels r ∧ ids_keyed (declare r v) = ids_keyed r ∧ ids_sites (declare r v) = ids_sites r ∧
  ids_paths (declare r v) = ids_paths r ∧
  ∀ class id, id ∈ declared_of (declare r v) class ↔ id ∈ declared_of r class ∨ (ids_keyed r !! class = None ∧ id ≠ [] ∧ DeclaredIDOf v = Some (class, id)).
Proof.
  unfold declare. destruct (DeclaredIDOf v) as [[c i]|] eqn:E.
  - destruct (is_empty i) eqn:Ei; cbn [orb].
    { split_and!; try done. intros class id. split; [by left|]. intros [?|(_ & Hne & [= -> ->])]; [done|]. by apply is_empty_true in Ei. }
    case_bool_decide as Hk.
    { split_and!; try done. intros class id. split; [by left|]. intros [?|(Hn & _ & [= -> ->])]; [done|]. rewrite Hn in Hk. by destruct Hk. }
    split_and!; try done. intros class id. unfold declared_of. cbn [ids_declared]. destruct (decide (class = c)) as [->|Hne].
    + rewrite lookup_insert_eq. simpl. rewrite elem_of_union, elem_of_singleton. split.
      * intros [->|?]; [right|by left]. split_and!; [by apply eq_None_not_Some|by intros ->|done].
      * intros [?|(_ & _ & [= ->])]; [by right|by left].
    + rewrite lookup_insert_ne by congruence. split; [by left|]. intros [?|(_ & _ & [= -> _])]; done.
  - split_and!; try done. intros class id. split; [by left|]. by intros [?|(_ & _ & ?)].
Qed.

Lemma resolves_more r r' t id : ids_keyed r' = ids_keyed r → (∀ class id, id ∈ declared_of r class → id ∈ declared_of r' class) →
  resolves r t id = true → resolves r' t id = true.
Proof. unfold resolves. intros -> Hd. rewrite !bool_decide_eq_true. destruct (ids_keyed r !! t); [done|apply Hd]. Qed.

Record gathered (tr : shown_at) r r' : Prop := {
  g_labels : ids_labels r' = ids_labels r;
  g_keyed : ids_keyed r' = ids_keyed r;
  g_declared class id : id ∈ declared_of r' class ↔ id ∈ declared_of r class ∨ (ids_keyed r !! class = None ∧ declares_in tr class id);
  g_sites : ∃ kept : list (rtype * gostring * path),
    ids_sites r' = ids_sites r ++ kept.*1 ∧ ids_paths r' = foldl Record_ (ids_paths r) kept.*2 ∧
    (∀ k, k ∈ kept → is_Some (ids_keyed r !! k.1.1) → resolves r' k.1.1 k.1.2 = false) ∧
    ∀ d : rtype * gostring → bool, (∀ s, d s = true → resolves r' s.1 s.2 = false) →
      filter (λ k, d k.1 = true) kept = filter (λ k, d k.1 = true) (candidates (labelled r) tr)
}.

Lemma declares_in_cons e tr class id : declares_in (e :: tr) class id ↔ (id ≠ [] ∧ DeclaredIDOf e.1 = Some (class, id)) ∨ declares_in tr class id.
Proof.
  unfold declares_in, has. destruct e as [ev ep]. cbn [fst]. split.
  - intros (Hne & v & [p Hp] & Hv). apply elem_of_cons in Hp as [[= <- <-]|Hp]; [by left|right]. split; [done|]. exists v. split; [by exists p|done].
  - intros [[Hne Hv]|(Hne & v & [p Hp] & Hv)]; (split; [done|]).
    + exists ev. split; [|done]. exists ep. by left.
    + exists v. split; [|done]. exists p. by right.
Qed.

Lemma refs_gather tr r : gathered tr r (refs_of r tr).
Proof.
  revert r. induction tr as [|[v p] tr IH]; intros r; cbn [refs_of foldl fst snd].
  { constructor; try done; [intros class id; split; [by left|]; intros [?|(_ & _ & v & [p ?%elem_of_nil] & _)]; done|].
    exists []. rewrite app_nil_r. split_and!; try done. by intros k ?%elem_of_nil. }
  fold (refs_of (visit_refs r v p) tr). destruct (IH (visit_refs r v p)) as [I1 I2 I3 (kept & I4 & I5 & I6 & I7)].
  assert (Hlabelled : ids_labels (visit_refs r v p) = ids_labels r → candidates (labelled (visit_refs r v p)) tr = candidates (labelled r) tr).
  { intros El. unfold candidates, labelled. by rewrite El. }
  assert (Hplain : ids_sites (visit_refs r v p) = ids_sites r → ids_paths (visit_refs r v p) = ids_paths r →
      ids_labels (visit_refs r v p) = ids_labels r → ids_keyed (visit_refs r v p) = ids_keyed r →
      (∀ class id, id ∈ declared_of (visit_refs r v p) class ↔ id ∈ declared_of r class ∨ (ids_keyed r !! class = None ∧ id ≠ [] ∧ DeclaredIDOf v = Some (class, id))) →
      (∀ d, (∀ s, d s = true → resolves (refs_of (visit_refs r v p) tr) s.1 s.2 = false) →
        filter (λ k, d k.1 = true) (candidates (labelled r) ((v, p) :: tr)) = filter (λ k, d k.1 = true) (candidates (labelled r) tr)) →
      gathered ((v, p) :: tr) r (refs_of (visit_refs r v p) tr)).
  { intros Es Ep El Ek Ed Ec. constructor; [congruence..| |].
    - intros class id. rewrite I3, Ed, Ek, declares_in_cons. cbn [fst]. tauto.
    - exists kept. split_and!; [by rewrite I4, Es|by rewrite I5, Ep|intros k Hk; rewrite <- Ek; by apply I6|].
      intros d Hd. rewrite (I7 d Hd), Hlabelled by done. symmetry. by apply Ec. }
  destruct v as [t|t b0|t z|t id|t fs|t o|t o|t b l|t b q n|t o]; try (apply Hplain; try done;
    [intros class id; cbn [visit_refs]; split; [by left|]; by intros [?|(_ & _ & ?)]]).
  - cbn [visit_refs] in *. unfold refer in *. destruct (is_empty id) eqn:Ei; cbn [orb] in *.
    { apply Hplain; try done; [intros class id'; split; [by left|]; by intros [?|(_ & _ & ?)]|]. intros d _. unfold candidates. cbn [omap list_omap fst]. by rewrite Ei. }
    destruct (bool_decide (is_Some (ids_labels r !! t))) eqn:El; cbn [negb orb] in *.
    2: { apply Hplain; try done; [intros class id'; split; [by left|]; by intros [?|(_ & _ & ?)]|]. intros d _. unfold candidates, labelled. cbn [omap list_omap fst]. by rewrite El, andb_false_r. }
    destruct (resolves r t id) eqn:Er.
    { apply Hplain; try done; [intros class id'; split; [by left|]; by intros [?|(_ & _ & ?)]|]. intros d Hd. unfold candidates, labelled. cbn [omap list_omap fst snd]. rewrite Ei, El. cbn [negb andb].
      rewrite filter_cons_False; [done|]. cbn [fst]. intros Hk. apply Hd in Hk. cbn in Hk. rewrite (resolves_more r) in Hk; [done|done| |done].
      intros class i Hi. apply I3. by left. }
    set (r1 := mkIDReferences _ _ _ _ _) in *. constructor; [done|done| |].
    + intros class i. rewrite I3, declares_in_cons. cbn [fst]. split; [intros [?|[? ?]]; auto|]. intros [?|[? [[_ ?]|?]]]; [by left|done|by right].
    + exists ((t, id, p) :: kept). split_and!.
      * rewrite I4. cbn [ids_sites r1 fmap list_fmap]. by rewrite <- app_assoc.
      * rewrite I5. done.
      * intros k [->|Hk]%elem_of_cons Hs; [|by apply I6]. cbn [fst snd] in *. destruct Hs as [ids Hids].
        unfold resolves in Er |- *. rewrite I2. cbn [ids_keyed r1]. rewrite Hids in *. exact Er.
      * intros d Hd. unfold candidates, labelled. cbn [omap list_omap fst snd]. rewrite Ei, El. cbn [negb andb].
        rewrite !filter_cons. destruct (decide (d (t, id, p).1 = true)); [f_equal|]; exact (I7 d Hd).
  - destruct (declare_spec r (Struct t fs)) as (D1 & D2 & D3 & D4 & D5). apply Hplain; try done.
Qed.

(** ** What is left unresolved *)

Definition dangling (keyed : gmap gostring (gset gostring)) (truncated : bool) (tr : shown_at) (s : rtype * gostring) : Prop :=
  match keyed !! s.1 with
  | Some ids => s.2 ∉ ids
  | None => truncated = false ∧ ¬ declares_in tr s.1 s.2
  end.
Lemma declares_in_exists tr class id : declares_in tr class id ↔ id ≠ [] ∧ Exists (λ e, DeclaredIDOf e.1 = Some (class, id)) tr.
Proof.
  unfold declares_in, has. rewrite Exists_exists. split; intros [Hne H]; (split; [done|]).
  - destruct H as (v & [p Hp] & Hv). by exists (v, p).
  - destruct H as ([v p] & Hp & Hv). exists v. split; [by exists p|done].
Qed.
#[global] Instance declares_in_dec tr class id : Decision (declares_in tr class id).
Proof.
  destruct (decide (id ≠ [] ∧ Exists (λ e, DeclaredIDOf e.1 = Some (class, id)) tr)) as [H|H]; [left|right]; by rewrite declares_in_exists.
Defined.
#[global] Instance dangling_dec keyed truncated tr s : Decision (dangling keyed truncated tr s).
Proof. unfold dangling. destruct (keyed !! s.1); apply _. Defined.

Definition reported (k : rtype * gostring * path) : IDReference := mkIDReference k.1.1 k.1.2 (path_String fields_of k.2).

Lemma zip_reported (d : rtype * gostring → bool) (kept : list (rtype * gostring * path)) :
  ('(s, p) ← zip kept.*1 kept.*2; if d s then [mkIDReference s.1 s.2 (path_String fields_of p)] else []) = reported <$> filter (λ k, d k.1 = true) kept.
Proof.
  induction kept as [|[s p] kept IH]; [done|]. cbn [fmap list_fmap zip zip_with fst snd]. rewrite bind_cons, filter_cons. cbn [fst].
  destruct (d s); cbn; by rewrite IH.
Qed.

Lemma Unresolved_zip r cut : Unresolved r cut = ('(s, p) ← zip (ids_sites r) (All (ids_paths r));
    if dangles r cut s then [mkIDReference s.1 s.2 (path_String fields_of p)] else []).
Proof.
  unfold Unresolved. destruct (existsb _ _) eqn:E; [done|]. generalize (All (ids_paths r)). revert E. generalize (ids_sites r).
  induction l as [|s l IH]; intros E ps; [done|]. destruct ps as [|p ps]; [done|]. cbn [zip zip_with existsb] in *. apply orb_false_iff in E as [Es El].
  rewrite bind_cons, Es. cbn. by apply IH.
Qed.

Lemma gathered_unresolved tr r r' cut : ids_sites r = [] → ids_paths r = zeroPathLog → (∀ class, declared_of r class = ∅) → gathered tr r r' →
  Unresolved r' cut = reported <$> filter (λ k, dangling (ids_keyed r) cut tr k.1) (candidates (labelled r) tr).
Proof.
  intros Es Ep Ed [G1 G2 G3 (kept & G4 & G5 & G6 & G7)]. rewrite Es in G4. rewrite Ep in G5. cbn [app] in G4.
  rewrite Unresolved_zip, G4, G5, All_kept, zip_reported. f_equal.
  set (d s := dangles r' cut s && negb (resolves r' s.1 s.2)).
  transitivity (filter (λ k, d k.1 = true) kept).
  - apply filter_iff_in. intros [s p] Hk. specialize (G6 _ Hk). cbn [fst] in *. unfold d. rewrite andb_true_iff.
    split; [|tauto]. intros Hd. split; [done|]. unfold dangles, resolves in *. rewrite G2 in *. destruct (ids_keyed r !! s.1).
    + rewrite G6 by eauto. done.
    + apply andb_true_iff in Hd as [_ Hd]. done.
  - rewrite G7; [|intros s [_ Hs]%andb_true_iff; by apply negb_true_iff]. apply list_filter_iff. intros [[class id] p]. cbn [fst snd]. unfold d, dangles, resolves, dangling.
    cbn [fst snd]. rewrite G2. destruct (ids_keyed r !! class) as [ids|] eqn:Ek.
    + cbn [andb]. rewrite negb_true_iff, bool_decide_eq_false. done.
    + rewrite andb_true_iff, andb_true_iff, !negb_true_iff, bool_decide_eq_false, G3, Ed. set_solver.
Qed.

(** ** The classes of a type graph *)

(** [KeyedClasses] *)
Definition KeyedClasses (document : rtype) : gset gostring := list_to_set (kr_class <$> keyedRegistries document).

Definition holds_type (t u : rtype) : Prop :=
  match desc t with
  | ElemKind elem => u = elem
  | MapKind key elem => u = key ∨ u = elem
  | StructKind fs => u ∈ fd_type <$> fs
  | _ => False
  end.
Definition declared_class (t class : rtype) : Prop := ∃ i, declaredIDField t = Some (i, class).

Lemma appendIDClasses_spec queue classes t : ∃ more, (appendIDClasses queue classes t).1 = queue ++ more ∧ length more = out_degree t ∧
  (∀ u, u ∈ more ↔ holds_type t u) ∧ (∀ class, class ∈ (appendIDClasses queue classes t).2 ↔ class ∈ classes ∨ declared_class t class).
Proof.
  unfold appendIDClasses, out_degree, holds_type, declared_class. assert (Hno : (∀ fs, desc t ≠ StructKind fs) → ∀ class, (∃ i, declaredIDField t = Some (i, class)) ↔ False).
  { intros Hn class. unfold declaredIDField. destruct (desc t) eqn:E; try (split; [by intros [? ?]|done]). by destruct (Hn fs). }
  destruct (desc t) as [e|k e|fs|b|] eqn:E.
  - exists [e]. split_and!; try done; [intros u; apply list_elem_of_singleton|]. intros class. rewrite Hno by done. cbn. tauto.
  - exists [k; e]. split_and!; try done; [intros u; rewrite !elem_of_cons, elem_of_nil; tauto|]. intros class. rewrite Hno by done. cbn. tauto.
  - exists (fd_type <$> fs). split_and!; try done; [by rewrite length_fmap|]. intros class. cbn [snd]. destruct (declaredIDField t) as [[i c]|].
    + rewrite elem_of_union, elem_of_singleton. split; [intros [->|?]; [right; by exists i|by left]|intros [?|[j [= -> ->]]]; [by right|by left]].
    + split; [by left|]. by intros [?|[? ?]].
  - exists []. rewrite app_nil_r. split_and!; try done; [intros u; rewrite elem_of_nil; tauto|]. intros class. rewrite Hno by done. cbn. tauto.
  - exists []. rewrite app_nil_r. split_and!; try done; [intros u; rewrite elem_of_nil; tauto|]. intros class. rewrite Hno by done. cbn. tauto.
Qed.

Definition reaches_class (from : rtype → Prop) (class : rtype) : Prop := ∃ t u, from t ∧ rtc holds_type t u ∧ declared_class u class.

(** The loop, with types expanded already: their classes are kept, and what
    they hold is expanded or queued. *)
Lemma id_classes_loop_exact universe fuel queue classes seen : NoDup universe → (∀ t u, t ∈ universe → holds_type t u → u ∈ universe) →
  (∀ t, t ∈ queue → t ∈ universe) → length queue + unseen_sum out_degree universe seen ≤ fuel →
  (∀ t u, t ∈ seen → holds_type t u → u ∈ seen ∨ u ∈ queue) → (∀ t class, t ∈ seen → declared_class t class → class ∈ classes) →
  (id_classes_loop fuel queue classes seen).2 = [] ∧
  ∀ class, class ∈ (id_classes_loop fuel queue classes seen).1 ↔ class ∈ classes ∨ reaches_class (λ t, t ∈ queue) class.
Proof.
  intros Hnd Hclosed. revert queue classes seen. induction fuel as [|fuel IH]; intros queue classes seen Hq Hf Hheld Hkept.
  all: destruct (rev queue) as [|t rest] eqn:Er.
  1, 3: assert (queue = []) as -> by (rewrite <- (rev_involutive queue), Er; done).
  1, 2: split; [done|]; intros class; split; [by left|]; intros [?|(u & ? & ?%elem_of_nil & _)]; done.
  all: assert (Eq : queue = rev rest ++ [t]) by (by rewrite <- (rev_involutive queue), Er).
  { rewrite Eq, length_app in Hf. cbn in Hf. lia. }
  cbn [id_classes_loop]. rewrite Er. assert (Hclosed_seen : ∀ u, u ∈ seen → ∀ x, rtc holds_type u x → x ∈ seen ∨ ∃ y, y ∈ queue ∧ rtc holds_type y x).
  { intros u Hu x Hx. induction Hx as [u|u y x Hy Hx IHx] in Hu |- *; [by left|]. destruct (Hheld _ _ Hu Hy) as [?|?]; [by apply IHx|right; by exists y]. }
  case_bool_decide as Hseen.
  - destruct (IH (rev rest) classes seen) as [I1 I2]; [intros u Hu; apply Hq; rewrite Eq; apply elem_of_app; by left| | |done|].
    { rewrite Eq, length_app in Hf. cbn in Hf. lia. }
    { intros u x Hu Hx. destruct (Hheld u x Hu Hx) as [?|Hin]; [by left|]. rewrite Eq in Hin. apply elem_of_app in Hin as [?|Hin]; [by right|left]. by apply list_elem_of_singleton in Hin as ->. }
    split; [done|]. intros class. rewrite I2. split.
    + intros [?|(u & x & Hu & ?)]; [by left|right]. exists u, x. split; [|done]. rewrite Eq. apply elem_of_app. by left.
    + intros [?|(u & x & Hu & Hux & Hx)]; [by left|].
      assert (Hfrom : ∀ u x, u ∈ seen → rtc holds_type u x → x ∈ seen ∨ ∃ y, y ∈ rev rest ∧ rtc holds_type y x).
      { intros a b Ha Hab. induction Hab as [a|a y b Hy Hb IHb] in Ha |- *; [by left|]. destruct (Hheld _ _ Ha Hy) as [?|Hin]; [by apply IHb|].
        rewrite Eq in Hin. apply elem_of_app in Hin as [?|Hin]; [right; by exists y|]. apply list_elem_of_singleton in Hin as ->. by apply IHb. }
      rewrite Eq in Hu. apply elem_of_app in Hu as [?|Hu]; [right; by exists u, x|]. apply list_elem_of_singleton in Hu as ->.
      destruct (Hfrom _ _ Hseen Hux) as [?|(y & ? & ?)]; [left; by eapply Hkept|right; by exists y, x].
  - destruct (appendIDClasses_spec (rev rest) classes t) as (more & A1 & A2 & A3 & A4). destruct (appendIDClasses (rev rest) classes t) as [queue' classes'] eqn:Ea. cbn [fst snd] in *. subst queue'.
    assert (Htu : t ∈ universe) by (apply Hq; rewrite Eq; apply elem_of_app; right; by left).
    destruct (IH (rev rest ++ more) classes' ({[t]} ∪ seen)) as [I1 I2].
    { intros u [Hu|Hu%A3]%elem_of_app; [apply Hq; rewrite Eq; apply elem_of_app; by left|by eapply Hclosed]. }
    { rewrite (unseen_sum_step _ _ _ _ Hnd Htu Hseen), Eq, length_app in Hf. cbn in Hf. rewrite length_app. lia. }
    { intros u x [->%elem_of_singleton|Hu]%elem_of_union Hx; [right; apply elem_of_app; right; by apply A3|].
      destruct (Hheld u x Hu Hx) as [?|Hin]; [left; set_solver|]. rewrite Eq in Hin. apply elem_of_app in Hin as [?|Hin]; [right; apply elem_of_app; by left|]. apply list_elem_of_singleton in Hin as ->. left. set_solver. }
    { intros u class [->%elem_of_singleton|Hu]%elem_of_union Hx; apply A4; [by right|left; by eapply Hkept]. }
    split; [done|]. intros class. rewrite I2, A4. split.
    + intros [[?|?]|(u & x & Hu & Hux & Hx)]; [by left|right; exists t, t; split; [rewrite Eq; apply elem_of_app; right; by left|by split; [apply rtc_refl|]]|].
      right. apply elem_of_app in Hu as [Hu|Hu%A3]; [exists u, x; split; [rewrite Eq; apply elem_of_app; by left|done]|].
      exists t, x. split; [rewrite Eq; apply elem_of_app; right; by left|]. split; [by eapply rtc_l|done].
    + intros [?|(u & x & Hu & Hux & Hx)]; [by left; left|]. rewrite Eq in Hu. apply elem_of_app in Hu as [?|Hu]; [|apply list_elem_of_singleton in Hu as ->].
      * right. exists u, x. split; [apply elem_of_app; by left|done].
      * destruct (rtc_inv _ _ Hux) as [->|(y & Hy & Hyx)]; [by left; right|]. right. exists y, x. split; [apply elem_of_app; right; by apply A3|done].
Qed.

(** the classes of ID found are exactly those a type reachable from the
    roots declares, whatever cycles the type graph has; the loop always empties
    its queue. *)
Theorem idClassesOf_exact universe roots : NoDup universe → (∀ t u, t ∈ universe → holds_type t u → u ∈ universe) → (∀ t, t ∈ roots → t ∈ universe) →
  (id_classes_loop (length roots + sum_list (out_degree <$> universe)) roots ∅ ∅).2 = [] ∧
  ∀ class, class ∈ idClassesOf universe roots ↔ ∃ root t, root ∈ roots ∧ rtc holds_type root t ∧ declared_class t class.
Proof.
  intros Hnd Hclosed Hroots. destruct (id_classes_loop_exact universe (length roots + sum_list (out_degree <$> universe)) roots ∅ ∅ Hnd Hclosed Hroots) as [I1 I2];
    [|by intros t u ?%not_elem_of_empty|by intros t class ?%not_elem_of_empty|].
  - by rewrite unseen_sum_start.
  - split; [done|]. intros class. unfold idClassesOf. rewrite I2. unfold reaches_class. set_solver.
Qed.

(** ** A walk *)

Definition refs_visitor : Visitor (S:=IDReferences) := mkVisitor (λ r v p, (visit_refs r v p, true)) None.

Lemma insert_all_lookup {A B} (f : A → gostring) (g : A → B) (l : list A) (m : gmap gostring B) k :
  is_Some (foldl (λ m x, <[f x := g x]> m) m l !! k) ↔ is_Some (m !! k) ∨ k ∈ f <$> l.
Proof.
  revert m. induction l as [|x l IH]; intros m; cbn [foldl]; [by rewrite elem_of_nil; tauto|].
  rewrite IH, fmap_cons, elem_of_cons, lookup_insert_is_Some. destruct (decide (f x = k)); naive_solver.
Qed.
Lemma keep_all_lookup {B} (keep : gostring → bool) (g : gostring → B) (l : list gostring) (m : gmap gostring B) k :
  is_Some (foldl (λ m x, if keep x then m else <[x := g x]> m) m l !! k) ↔ is_Some (m !! k) ∨ (keep k = false ∧ k ∈ l).
Proof.
  revert m. induction l as [|x l IH]; intros m; cbn [foldl]; [by rewrite elem_of_nil; tauto|]. rewrite IH, elem_of_cons.
  destruct (keep x) eqn:E.
  - split; [tauto|]. intros [?|[? [->|?]]]; [by left|congruence|by right].
  - rewrite lookup_insert_is_Some. destruct (decide (x = k)) as [->|Hne]; naive_solver.
Qed.

(** The classes of reference: those a map keys, and those only declared. *)
Lemma labelled_spec document classes mem doc t :
  labelled (NewIDReferences document classes mem doc) t = true ↔ t ∈ KeyedClasses document ∨ (t ∈ classes ∧ t ≠ propIDType).
Proof.
  unfold labelled, NewIDReferences. cbn [ids_labels]. rewrite bool_decide_eq_true, keep_all_lookup, insert_all_lookup, elem_of_elements, orb_false_iff, !bool_decide_eq_false.
  rewrite insert_all_lookup, lookup_empty. unfold KeyedClasses. rewrite elem_of_list_to_set.
  destruct (decide (t ∈ kr_class <$> keyedRegistries document)); split; [tauto|tauto| |].
  - intros [[[? ?]|?]|[[? ?] ?]]; [done|done|by right].
  - intros [?|[? ?]]; [done|]. right. split_and!; [|done|done]. intros [[? ?]|?]; done.
Qed.

Lemma refs_played (r : IDReferences) (tr : shown_at) : foldl (play [Some refs_visitor]) r tr = refs_of r tr.
Proof. revert r. induction tr as [|[v p] tr IH]; intros r; [done|]. cbn [foldl]. by rewrite IH. Qed.
Lemma refs_read_on : reads_on (λ _, true) [Some refs_visitor].
Proof. intros [|[|i]] V HV; cbn in HV; [|done..]. injection HV as <-. by split. Qed.

(** The references a walk leaves unresolved are exactly the non-empty ids of
    a labelled class it was shown that name nothing, in walk order with their
    paths: one of a class a document map keys is in no key of it, and any other
    is declared by no value of the whole walk, which only a walk not cut short
    can claim. *)
Theorem Unresolved_exact document classes mem doc plain Sprint root v ask r cut :
  walkValues mem plain Sprint ask v root [Some refs_visitor] (NewIDReferences document classes mem doc) = (r, cut, None) →
  let fresh := NewIDReferences document classes mem doc in let shown := trace mem plain Sprint root (λ _, true) v in
  Unresolved r cut = reported <$> filter (λ k, dangling (ids_keyed fresh) cut shown k.1) (candidates (labelled fresh) shown) ∧
  ∀ t, labelled fresh t = true ↔ t ∈ KeyedClasses document ∨ (t ∈ classes ∧ t ≠ propIDType).
Proof.
  intros Hw. destruct (walkValues_plays mem plain Sprint root (λ _, true) _ ask v _ r cut refs_read_on (λ E, ltac:(discriminate E)) (ltac:(unfold maxSharedVisitors; cbn; lia)) (λ E, ltac:(discriminate E)) Hw) as [-> _].
  rewrite refs_played. split; [|intros t; apply labelled_spec]. by apply gathered_unresolved, refs_gather.
Qed.
End Types.

(** Two classes: one a map keys and one only declared. *)
Module Registered.
Definition desc (t : rtype) : typeDesc :=
  if bool_decide (t = go "Doc") then StructKind [mkField (go "Types") false (go "map[TypeID]Node"); mkField (go "Channels") false (go "[]Channel")]
  else if bool_decide (t = go "map[TypeID]Node") then MapKind (go "TypeID") (go "Node")
  else if bool_decide (t = go "[]Channel") then ElemKind (go "Channel")
  else if bool_decide (t = go "Node") then StructKind [mkField (go "ID") false (go "TypeID")]
  else if bool_decide (t = go "Channel") then
    StructKind [mkField (go "ID") false (go "ChannelID"); mkField (go "Reply") false (go "ChannelID"); mkField (go "Of") false (go "TypeID")]
  else StringKind true.
Definition types : list rtype := [go "Doc"; go "map[TypeID]Node"; go "[]Channel"; go "Node"; go "Channel"; go "TypeID"; go "ChannelID"].
Definition fields : list goval := [MapV (go "map[TypeID]Node") (Some 1); Slice (go "[]Channel") false 2 2].
Definition channel (id reply target : gostring) : goval := Struct (go "Channel") [Text (go "ChannelID") id; Text (go "ChannelID") reply; Text (go "TypeID") target].
Definition mem : memory := mkMemory (λ _, Scalar (go "int"))
  (λ _, [channel (go "c") (go "gone") (go "a"); channel (go "d") (go "c") (go "b")])
  (λ _, [(Text (go "TypeID") (go "a"), Struct (go "Node") [Text (go "TypeID") (go "a")])]).
Definition document : goval := Struct (go "Doc") fields.
Abbreviation start := (NewIDReferences desc (go "Doc") (idClassesOf desc types [go "Doc"]) mem (Some fields)).
Abbreviation walked := (walkValues mem (λ _, true) (λ _, []) None (Some document) DocumentPath [Some (refs_visitor desc)] start).
Definition expected : list IDReference :=
  [mkIDReference (go "ChannelID") (go "gone") (go "doc.Channels[0].Reply"); mkIDReference (go "TypeID") (go "b") (go "doc.Channels[1].Of")].
End Registered.

Lemma idClassesOf_exact_witness :
  ∃ root t, root ∈ [go "Doc"] ∧ rtc (holds_type Registered.desc) root t ∧ declared_class Registered.desc t (go "ChannelID").
Proof.
  apply (idClassesOf_exact Registered.desc Registered.types [go "Doc"]); [| | |apply (bool_decide_unpack _); vm_compute; exact I].
  - apply (bool_decide_unpack _). vm_compute. exact I.
  - assert (Hall : forallb (λ t, match Registered.desc t with
      | ElemKind e => bool_decide (e ∈ Registered.types) | MapKind k e => bool_decide (k ∈ Registered.types) && bool_decide (e ∈ Registered.types)
      | StructKind fs => forallb (λ f, bool_decide (fd_type f ∈ Registered.types)) fs | _ => true end) Registered.types = true) by (vm_compute; reflexivity).
    intros t u Ht. rewrite forallb_forall in Hall. specialize (Hall t (proj1 (list_elem_of_In _ _) Ht)). unfold holds_type. destruct (Registered.desc t) as [e|k e|fs|b|].
    + intros ->. by apply bool_decide_eq_true in Hall.
    + apply andb_true_iff in Hall as [H1%bool_decide_eq_true H2%bool_decide_eq_true]. by intros [->| ->].
    + intros (f & -> & Hf)%list_elem_of_fmap. rewrite forallb_forall in Hall. apply (bool_decide_eq_true _), Hall. by apply list_elem_of_In.
    + done.
    + done.
  - intros t Ht. apply list_elem_of_singleton in Ht as ->. by left.
Defined.

(** [Reply] of the first channel is declared nowhere, [Of] of the second in no
    key of the map; [Reply] of the second is declared before it is reached. *)
Lemma Unresolved_exact_witness : ∃ r shown, Registered.walked = (r, false, None) ∧ Unresolved Registered.desc r false = Registered.expected ∧
  Registered.expected = reported Registered.desc <$> filter (λ k, dangling Registered.desc (ids_keyed Registered.start) false shown k.1) (candidates (labelled Registered.start) shown).
Proof.
  assert (Hcut : Registered.walked.1.2 = false) by (vm_compute; reflexivity). assert (Hstop : Registered.walked.2 = None) by (vm_compute; reflexivity).
  assert (Hr : Unresolved Registered.desc Registered.walked.1.1 false = Registered.expected) by (vm_compute; reflexivity).
  destruct Registered.walked as [[r cut] stop] eqn:E. cbn [fst snd] in *. subst cut stop. exists r.
  pose proof (Unresolved_exact Registered.desc (go "Doc") (idClassesOf Registered.desc Registered.types [go "Doc"]) Registered.mem (Some Registered.fields)
    (λ _, true) (λ _, []) DocumentPath (Some Registered.document) None r false E) as H. cbv zeta in H. revert H.
  generalize (trace Registered.mem (λ _ : gostring, true) (λ _ : goval, []) DocumentPath (λ _, true) (Some Registered.document)). intros shown [Hu _].
  exists shown. split; [reflexivity|]. split; [exact Hr|]. rewrite <- Hr. exact Hu.
Defined.
