(* ===== verification/Text.v ===== *)
(** * Text: what checks read of a string with Go's [strings], [unicode/utf8] and
    [jsontext] packages *)
From S2P Require Import Prelude GoLib Utf8 Naming.
Implicit Types (s : gostring).

(** What a rune shows; the tables are [unicode]'s, beside those of [Unicode]. *)
Class Visible := { IsSpace : Z → bool; IsControl : Z → bool; InCf : Z → bool; InOtherDefaultIgnorable : Z → bool }.

(** [utf8.ValidString] *)
Fixpoint valid_from (fuel : nat) s : bool :=
  match fuel, s with
  | O, _ | _, [] => true
  | S fuel, _ => negb (undecoded s) && valid_from fuel (drop (DecodeRuneInString s).2 s)
  end.
Definition ValidString s : bool := valid_from (length s) s.

(** [jsontext.Pointer.IsValid], of text that decodes: each [~] escapes. *)
Fixpoint escapes_ok s : bool :=
  match s with
  | [] => true
  | c :: rest =>
      (if bool_decide (c = "~"%char) then match rest with d :: _ => bool_decide (d = "0"%char) || bool_decide (d = "1"%char) | [] => false end else true)
      && escapes_ok rest
  end.
Definition Pointer_IsValid s : bool := escapes_ok s && match s with [] => true | c :: _ => bool_decide (c = "/"%char) end.

(** [utf8.RuneStart] *)
Definition RuneStart (c : ascii) : bool := negb (is_cont c).

(** [strings.ToLower]: bytes that do not decode are replaced. *)
Definition strings_ToLower `{Unicode} s : gostring := (ToLower <$> runes s) ≫= EncodeRune.

Section Visible.
Context `{Visible}.
(** [isInvisible], [isBlankName] ([src/ir/irverify/naming.go]) *)
Definition isInvisible (r : Z) : bool := IsSpace r || IsControl r || InCf r || InOtherDefaultIgnorable r.
Definition isBlankName s : bool := forallb isInvisible (runes s).
End Visible.

(** ** What the readings mean *)

Lemma valid_from_enough (fuel : nat) s : length s ≤ fuel → valid_from fuel s = ValidString s.
Proof.
  unfold ValidString. assert (Hn : ∀ n m s, length s ≤ n → length s ≤ m → valid_from n s = valid_from m s); [|intros Hs; by apply Hn].
  clear. induction n as [|n IH]; intros m s Hn Hm; [destruct s; [by destruct m|cbn in Hn; lia]|].
  destruct m as [|m]; [destruct s; [done|cbn in Hm; lia]|]. destruct s as [|c r]; [done|]. cbn [valid_from]. f_equal.
  pose proof (DecodeRune_width (c :: r) ltac:(done)) as Hw. apply IH; rewrite length_drop; lia.
Qed.

(** A string is valid exactly when it is the encoding of its runes. *)
Lemma ValidString_nil : ValidString [] = true.
Proof. done. Qed.
Lemma ValidString_cons s : s ≠ [] → ValidString s = negb (undecoded s) && ValidString (drop (DecodeRuneInString s).2 s).
Proof.
  intros Hs. pose proof (DecodeRune_width s Hs) as Hw. destruct s as [|c r]; [done|]. unfold ValidString at 1. cbn [length valid_from]. f_equal.
  apply valid_from_enough. rewrite length_drop. cbn [length] in *. lia.
Qed.

(** A replacement character that is written out reads back as itself. *)
Lemma Decode_replacement s size : DecodeRuneInString s = (RuneError, size) → size ≠ 1 → s ≠ [] →
  size = length (EncodeRune RuneError) ∧ s = EncodeRune RuneError ++ drop size s.
Proof.
  change (EncodeRune RuneError) with [byte_of 239; byte_of 191; byte_of 189]. unfold RuneError.
  unfold DecodeRuneInString. destruct s as [|c s']; [done|]. pose proof (code_range c) as Hc.
  unfold second_ok, second_range, is_cont, in_range, tail6, RuneError.
  destruct (Z.ltb_spec (code c) 128); [intros [= E _]; lia|].
  destruct ((194 <=? code c) && (code c <=? 223))%Z eqn:E2.
  { destruct s' as [|d s']; [by intros [= <-]|]. split_if Ed; [intros [= E _]; lia|by intros [= <-]]. }
  destruct ((224 <=? code c) && (code c <=? 239))%Z eqn:E3.
  { destruct s' as [|d [|e s']]; [by intros [= <-]..|]. pose proof (code_range d). pose proof (code_range e).
    split_if Ed; [|by intros [= <-]]. intros [= E <-] _ _. split; [done|].
    assert (code c = 239 ∧ code d = 191 ∧ code e = 189)%Z as (Ec & Ed' & Ee) by (repeat case_match; simplify_eq; lia).
    rewrite <- Ec, <- Ed', <- Ee, !byte_of_code. done. }
  destruct ((240 <=? code c) && (code c <=? 244))%Z eqn:E4; [|by intros [= <-]].
  destruct s' as [|d [|e [|f s']]]; [by intros [= <-]..|].
  pose proof (code_range d). pose proof (code_range e). pose proof (code_range f).
  split_if Ed; [|by intros [= <-]]. intros [= E _]. exfalso. repeat case_match; simplify_eq; lia.
Qed.

Lemma Decode_decoded s : s ≠ [] → undecoded s = false →
  valid_rune (DecodeRuneInString s).1 = true ∧ s = EncodeRune (DecodeRuneInString s).1 ++ drop (DecodeRuneInString s).2 s.
Proof.
  unfold undecoded. intros Hs. destruct (DecodeRuneInString s) as [r size] eqn:E. cbn [fst snd].
  destruct (decide (r = RuneError)) as [->|Hne].
  - rewrite Z.eqb_refl. cbn [andb]. rewrite Nat.eqb_neq. intros H1. split; [done|]. by apply Decode_replacement.
  - intros _. by destruct (Decode_valid s r size E Hne) as (? & _ & ?).
Qed.

(** Valid strings are exactly the encodings of runes. *)
Lemma ValidString_exact s : ValidString s = true ↔ ∃ rs, Forall (λ r, valid_rune r = true) rs ∧ s = rs ≫= EncodeRune.
Proof.
  split.
  - remember (length s) as n eqn:En. revert s En. induction (lt_wf n) as [n _ IH]. intros s ->. destruct (decide (s = [])) as [->|Hs]; [by exists []|].
    rewrite ValidString_cons, andb_true_iff, negb_true_iff by done. intros [Hu Hv]. pose proof (DecodeRune_width s Hs) as Hw.
    destruct (Decode_decoded s Hs Hu) as [Hr Es]. destruct (IH (length (drop (DecodeRuneInString s).2 s))) with (s := drop (DecodeRuneInString s).2 s) as (rs & Hrs & Ed); [rewrite length_drop; lia|done|done|].
    exists ((DecodeRuneInString s).1 :: rs). split; [by constructor|]. rewrite bind_cons, <- Ed. exact Es.
  - intros (rs & Hrs & ->). induction Hrs as [|r rs Hr Hrs IH]; [done|]. rewrite bind_cons. set (rest := rs ≫= EncodeRune) in *.
    assert (Hne : EncodeRune r ++ rest ≠ []) by (unfold EncodeRune; rewrite Hr; by repeat case_match).
    pose proof (Decode_Encode r rest Hr) as Hd. rewrite ValidString_cons by done. unfold undecoded. rewrite Hd. cbn [fst snd].
    rewrite drop_app_length, IH, andb_true_r, negb_true_iff, andb_false_iff, Z.eqb_neq, Nat.eqb_neq.
    destruct (decide (r = RuneError)) as [->|?]; [by right|by left].
Qed.
