(* ===== verification/Violations.v ===== *)
(** * Violations: what the structural verifier reports, and in what order
    ([src/ir/irverify/irverify.go])

    A violation, the order a report is sorted in, and the registries a check
    ranges over: Go ranges over a map in an order of its own each time, so a
    ranging is any listing of the entries. *)
From S2P Require Import Prelude GoLib.

Record Violation := mkViolation { Code : gostring; Message : gostring; Path : gostring }.
Implicit Types (v w : Violation) (vs ws : list Violation) (k : gostring * gostring).

Definition at_path v : gostring * gostring := (Code v, Path v).

(** [cmp.Or(cmp.Compare(a.Code, b.Code), cmp.Compare(a.Path, b.Path)) <= 0] *)
Definition cmp_Or (a b : Z) : Z := if (a =? 0)%Z then b else a.
Definition report_le v w : Prop := (cmp_Or (strings_Compare (Code v) (Code w)) (strings_Compare (Path v) (Path w)) <= 0)%Z.
#[export] Instance report_le_dec v w : Decision (report_le v w).
Proof. unfold report_le. apply _. Defined.

(** [slices.SortStableFunc] by that order: equal violations keep theirs. *)
Fixpoint insert_stable v ws : list Violation :=
  match ws with
  | [] => [v]
  | w :: ws' => if decide (report_le v w) then v :: ws else w :: insert_stable v ws'
  end.
Definition SortStable vs : list Violation := foldr insert_stable [] vs.

(** ** Ranging over a registry *)

(** The order of each [range] statement over a map, by the statement's place. *)
Class Ranging := {
  range {A} : nat → gmap gostring A → list (gostring * A);
  range_perm {A} site (m : gmap gostring A) : range site m ≡ₚ map_to_list m
}.

(** What a check that ranges over a registry appends for each entry. *)
Definition ranged `{Ranging} {A} (site : nat) (entry : gostring → A → list Violation) (m : gmap gostring A) : list Violation :=
  '(id, x) ← range site m; entry id x.

(** ** The order *)

Lemma report_le_key v w : report_le v w ↔ (Code v ≠ Code w ∧ string_le (Code v) (Code w)) ∨ (Code v = Code w ∧ string_le (Path v) (Path w)).
Proof.
  unfold report_le, cmp_Or, string_le. destruct (Z.eqb_spec (strings_Compare (Code v) (Code w)) 0) as [E|E].
  - apply strings_Compare_eq in E. split; [by right|]. by intros [[? _]|[_ ?]].
  - assert (Code v ≠ Code w) by (intros E'; by apply E, strings_Compare_eq). split; [by left|]. by intros [[_ ?]|[? _]].
Qed.

#[export] Instance report_le_total : Total report_le.
Proof.
  intros v w. rewrite !report_le_key. destruct (decide (Code v = Code w)) as [E|E].
  - destruct (total string_le (Path v) (Path w)); [left|right]; right; done.
  - destruct (total string_le (Code v) (Code w)); [left|right]; left; done.
Qed.

#[export] Instance report_le_trans : Transitive report_le.
Proof.
  intros u v w. rewrite !report_le_key. intros [[N1 L1]|[E1 L1]] [[N2 L2]|[E2 L2]].
  - left. split; [|by etrans]. intros E. apply N1. apply (anti_symm string_le); [done|]. by rewrite E.
  - left. by rewrite <- E2.
  - left. by rewrite E1.
  - right. split; [congruence|by etrans].
Qed.

Lemma report_le_antisym v w : report_le v w → report_le w v → at_path v = at_path w.
Proof.
  rewrite !report_le_key. unfold at_path. intros [[N1 L1]|[E1 L1]] [[N2 L2]|[E2 L2]]; try congruence.
  - destruct N1. by apply (anti_symm string_le).
  - f_equal; [done|]. by apply (anti_symm string_le).
Qed.
Lemma report_le_refl_key v w : at_path v = at_path w → report_le v w.
Proof. unfold at_path. intros [= E1 E2]. rewrite report_le_key. right. split; [done|]. rewrite E2. by destruct (total string_le (Path w) (Path w)). Qed.

(** ** The sort *)

Lemma insert_stable_perm v ws : insert_stable v ws ≡ₚ v :: ws.
Proof. induction ws as [|w ws IH]; cbn [insert_stable]; [done|]. destruct (decide _); [done|]. rewrite IH. by constructor. Qed.
Lemma SortStable_perm vs : SortStable vs ≡ₚ vs.
Proof. induction vs as [|v vs IH]; cbn [SortStable foldr]; [done|]. rewrite insert_stable_perm. by constructor. Qed.

Lemma insert_stable_sorted v ws : StronglySorted report_le ws → StronglySorted report_le (insert_stable v ws).
Proof.
  induction 1 as [|w ws Hs IH Hall]; cbn [insert_stable]; [by repeat constructor|]. destruct (decide _) as [Hle|Hle].
  - constructor; [by constructor|]. constructor; [done|]. eapply Forall_impl; [exact Hall|]. intros x Hx. by etrans.
  - constructor; [done|]. rewrite insert_stable_perm. constructor; [|done]. by destruct (total report_le v w).
Qed.
Lemma SortStable_sorted vs : StronglySorted report_le (SortStable vs).
Proof. induction vs as [|v vs IH]; [constructor|by apply insert_stable_sorted]. Qed.

(** Violations of one code and path keep their order. *)
Lemma insert_stable_keeps k v ws : filter (λ x, at_path x = k) (insert_stable v ws) = filter (λ x, at_path x = k) (v :: ws).
Proof.
  induction ws as [|w ws IH]; cbn [insert_stable]; [done|]. destruct (decide (report_le v w)) as [Hle|Hle]; [done|].
  rewrite filter_cons, IH, !(filter_cons _ v), filter_cons.
  destruct (decide (at_path w = k)) as [Hw|Hw], (decide (at_path v = k)) as [Hv|Hv]; try done.
  destruct Hle. apply report_le_refl_key. congruence.
Qed.
Lemma SortStable_keeps k vs : filter (λ x, at_path x = k) (SortStable vs) = filter (λ x, at_path x = k) vs.
Proof. induction vs as [|v vs IH]; [done|]. change (SortStable (v :: vs)) with (insert_stable v (SortStable vs)). by rewrite insert_stable_keeps, !filter_cons, IH. Qed.

Lemma sorted_determined vs ws : StronglySorted report_le vs → StronglySorted report_le ws →
  (∀ k, filter (λ x, at_path x = k) vs = filter (λ x, at_path x = k) ws) → vs = ws.
Proof.
  intros Hs. revert ws. induction Hs as [|v vs Hs IH Hv]; intros ws Hw Hk.
  - destruct ws as [|w ws]; [done|]. specialize (Hk (at_path w)). by rewrite filter_cons_True in Hk.
  - destruct Hw as [|w ws Hws Hw]; [specialize (Hk (at_path v)); by rewrite filter_cons_True in Hk|].
    assert (Hin : ∀ x, x ∈ v :: vs ↔ x ∈ w :: ws).
    { intros x. assert (E : ∀ l : list Violation, x ∈ l ↔ x ∈ filter (λ y, at_path y = at_path x) l) by (intros l; rewrite list_elem_of_filter; naive_solver).
      by rewrite (E (v :: vs)), (E (w :: ws)), Hk. }
    rewrite Forall_forall in Hv, Hw.
    assert (Hvw : report_le v w) by (destruct (proj1 (elem_of_cons vs w v) (proj2 (Hin w) ltac:(by left))) as [->|Hx]; [by apply report_le_refl_key|by apply Hv]).
    assert (Hwv : report_le w v) by (destruct (proj1 (elem_of_cons ws v w) (proj1 (Hin v) ltac:(by left))) as [->|Hx]; [by apply report_le_refl_key|by apply Hw]).
    pose proof (report_le_antisym _ _ Hvw Hwv) as E. pose proof (Hk (at_path v)) as Hkv. rewrite !filter_cons_True in Hkv by done. injection Hkv as <- _.
    f_equal. apply IH; [done|]. intros k. specialize (Hk k). rewrite !filter_cons in Hk. destruct (decide (at_path v = k)); [by injection Hk|done].
Qed.

(** A sorted report depends only on what is reported at each place. *)
Lemma SortStable_determined vs ws : (∀ k, filter (λ x, at_path x = k) vs = filter (λ x, at_path x = k) ws) → SortStable vs = SortStable ws.
Proof. intros H. apply sorted_determined; [apply SortStable_sorted..|]. intros k. by rewrite !SortStable_keeps. Qed.

Lemma SortStable_nil vs : SortStable vs = [] ↔ vs = [].
Proof. split; [|by intros ->]. intros E. pose proof (SortStable_perm vs) as P. rewrite E in P. by apply Permutation_nil_l in P. Qed.

(** ** What a ranging reports *)

Lemma bind_one_nonempty {A B} (g : A → list B) (l l' : list A) : l ≡ₚ l' → NoDup l →
  (∀ x y, x ∈ l → y ∈ l → g x ≠ [] → g y ≠ [] → x = y) → l ≫= g = l' ≫= g.
Proof.
  induction 1 as [|x l l' Hp IH|x y l|l l' l'' H1 IH1 H2 IH2]; intros Hnd Hone.
  - done.
  - cbn. f_equal. apply IH; [by inv Hnd|]. intros a b Ha Hb. apply Hone; by right.
  - cbn. rewrite !app_assoc. f_equal. destruct (decide (g x = [])) as [->|Hx]; [by rewrite app_nil_r|].
    destruct (g y) eqn:Ey; [by rewrite app_nil_r|]. exfalso. inv Hnd. assert (x = y) as ->; [|set_solver].
    apply Hone; [by right; left|by left|done|by rewrite Ey].
  - rewrite IH1 by done. apply IH2; [by rewrite <- H1|]. intros a b Ha Hb. apply Hone; by rewrite H1.
Qed.

Lemma filter_bind {A B} (P : B → Prop) `{∀ x, Decision (P x)} (g : A → list B) (l : list A) : filter P (l ≫= g) = l ≫= (λ x, filter P (g x)).
Proof. induction l as [|x l IH]; [done|]. rewrite bind_cons, filter_app, IH. done. Qed.

(** Entries that never report at one place make a report no order changes. *)
Definition apart {A} (entry : gostring → A → list Violation) (m : gmap gostring A) : Prop :=
  ∀ i j x y v w, m !! i = Some x → m !! j = Some y → v ∈ entry i x → w ∈ entry j y → at_path v = at_path w → i = j.

Lemma ranged_determined {A} (R R' : Ranging) (s s' : nat) (entry : gostring → A → list Violation) (m : gmap gostring A) k :
  apart entry m → filter (λ x, at_path x = k) (@ranged R A s entry m) = filter (λ x, at_path x = k) (@ranged R' A s' entry m).
Proof.
  intros Ha. unfold ranged. rewrite !filter_bind. pose proof (@range_perm R A s m) as P. pose proof (@range_perm R' A s' m) as P'.
  apply bind_one_nonempty; [by rewrite P, P'|rewrite P; apply NoDup_map_to_list|]. intros [i x] [j y]. rewrite P, !elem_of_map_to_list.
  intros Hi Hj Hx Hy. assert (Hsome : ∀ (l : list Violation), filter (λ z, at_path z = k) l ≠ [] → ∃ z, z ∈ l ∧ at_path z = k).
  { intros l Hl. destruct (filter (λ z, at_path z = k) l) as [|z r] eqn:E; [done|]. exists z. apply and_comm, (list_elem_of_filter (λ z, at_path z = k)). rewrite E. by left. }
  destruct (Hsome _ Hx) as (v & Hv & Ev), (Hsome _ Hy) as (w & Hw & Ew). assert (i = j) as -> by (eapply (Ha i j x y v w); [done..|congruence]). congruence.
Qed.

Lemma ranged_nil `{Ranging} {A} (s : nat) (entry : gostring → A → list Violation) (m : gmap gostring A) :
  ranged s entry m = [] ↔ ∀ i x, m !! i = Some x → entry i x = [].
Proof.
  unfold ranged. pose proof (range_perm s m) as P. split.
  - intros E i x Hi. apply elem_of_map_to_list in Hi. rewrite <- P in Hi. destruct (entry i x) as [|v r] eqn:Ev; [done|].
    assert (Hv : v ∈ ('(id, x) ← range s m; entry id x)) by (apply list_elem_of_bind; exists (i, x); rewrite Ev; split; [by left|done]). rewrite E in Hv. by apply elem_of_nil in Hv.
  - intros Hall. destruct (_ ≫= _) as [|v r] eqn:E; [done|]. assert (Hv : v ∈ ('(id, x) ← range s m; entry id x)) by (rewrite E; by left).
    apply list_elem_of_bind in Hv as ([i x] & Hv & Hi). rewrite P in Hi. apply elem_of_map_to_list in Hi. rewrite (Hall i x Hi) in Hv. by apply elem_of_nil in Hv.
Qed.
