(* ===== verification/RegistryRules.v ===== *)
(** * RegistryRules: the verifier's rules over a document's registries
    ([src/ir/irverify], [src/ir/mapform.go])

    The checks that range over a registry or read a table of the document, one
    definition per function and one violation per rule broken. A map a check
    reuses from one collection to the next ([reuse.go]) starts each one empty. *)
From S2P Require Import Prelude GoLib Utf8 Decimal Value IR Domain Ids Findings Violations.

(** ** Type definitions ([src/ir/typedef.go]) *)

Definition IsNilTypeDef (td : TypeDef) : bool := match td with NilDef _ => true | _ => false end.
(** [TypeDef.Common] and [TypeDef.Kind], which panic on a nil entry. *)
Definition Common (td : TypeDef) : TypeCommon :=
  match td with
  | PrimitiveDef d => Primitive_TypeCommon d | ScalarDef d => Scalar_TypeCommon d | ModelDef d => Model_TypeCommon d
  | UnionDef d => Union_TypeCommon d | EnumDef d => Enum_TypeCommon d | ListDef d => List_TypeCommon d
  | MapDef d => MapT_TypeCommon d | TupleDef d => Tuple_TypeCommon d | LiteralDef d => Literal_TypeCommon d
  | ExternalDef d => External_TypeCommon d | AnyDef d => Any_TypeCommon d | NilDef _ => zeroTypeCommon
  end.
Definition Kind (td : TypeDef) : TypeKind :=
  match td with
  | PrimitiveDef _ => KindPrimitive | ScalarDef _ => KindScalar | ModelDef _ => KindModel | UnionDef _ => KindUnion
  | EnumDef _ => KindEnum | ListDef _ => KindList | MapDef _ => KindMap | TupleDef _ => KindTuple
  | LiteralDef _ => KindLiteral | ExternalDef _ => KindExternal | AnyDef _ => KindAny | NilDef _ => []
  end.

(** ** Declared constants *)

Definition auth_kinds : list AuthKind :=
  [AuthKindAPIKey; AuthKindHTTPBasic; AuthKindHTTPBearer; AuthKindOAuth2; AuthKindOpenIDConnect; AuthKindMutualTLS;
   AuthKindUserPassword; AuthKindX509; AuthKindSymmetricEncryption; AuthKindAsymmetricEncryption; AuthKindSASLPlain;
   AuthKindSASLSCRAMSHA256; AuthKindSASLSCRAMSHA512; AuthKindSASLGSSAPI; AuthKindCustom; AuthKindUnresolved].
Definition AuthKind_Valid (k : AuthKind) : bool := bool_decide (k ∈ auth_kinds).

(** ** A map that is written as a model ([src/ir/mapform.go]) *)

Definition is_None {A} (o : option A) : bool := match o with None => true | Some _ => false end.

Definition mapOnly (m : Model) : bool :=
  match Model_AdditionalProps m with
  | None => false
  | Some ap =>
      is_nil (AdditionalProps_Patterns ap) &&
      (is_nil (Model_Properties m) && is_nil (Model_Requires m) && is_None (Model_Base m) && is_nil (Model_Implements m) &&
       is_nil (Model_Mixins m) && bool_decide (Model_Additional m = AdditionalUnspecified) && negb (Model_Abstract m) &&
       negb (Model_Positional m) && is_nil (Model_ExtensionRanges m) && is_None (Model_Discriminator m) &&
       is_nil (Model_DiscriminatorValue m) && negb (Model_InputOnly m))
  end.
Definition AsMap (m : Model) : option MapT :=
  if mapOnly m then
    match Model_AdditionalProps m with
    | Some ap => Some (mkMapT (Model_TypeCommon m) (AdditionalProps_Key ap) (AdditionalProps_Value ap) (Model_Constraints m))
    | None => None
    end
  else None.

Section Rules.
(** [strconv.Quote] *)
Context (Quote : gostring → gostring).
Implicit Types (id key : gostring) (td : TypeDef) (doc : Document).

Definition quote_mark : ascii := ascii_of_nat 34.
Definition Itoa (i : nat) : gostring := FormatInt (Z.of_nat i).
Definition typePath id : gostring := go "types[" ++ id ++ go "]".
Definition authPath id : gostring := go "auth[" ++ id ++ go "]".
Definition serverPath id : gostring := go "servers[" ++ id ++ go "]".
Definition report_if (bad : bool) (v : Violation) : list Violation := if bad then [v] else [].

(** ** Registry keys *)

Definition registryKey (noun reg key nodeID : gostring) : list Violation :=
  if bool_decide (key = []) then
    [mkViolation (go "ir/empty-" ++ noun ++ go "-id") (reg ++ go " registry has an empty key") (reg ++ go "[" ++ [quote_mark; quote_mark] ++ go "]")]
  else
    report_if (negb (bool_decide (key = nodeID)))
      (mkViolation (go "ir/" ++ noun ++ go "-id-mismatch")
        (go "registry key " ++ Quote key ++ go " disagrees with node ID " ++ Quote nodeID) (reg ++ go "[" ++ key ++ go "]")).
Definition type_key id td : list Violation :=
  if IsNilTypeDef td then [mkViolation (go "ir/nil-type") (go "types registry has a nil type definition") (typePath id)]
  else registryKey (go "type") (go "types") id (TypeCommon_ID (Common td)).
Definition checkRegistryKeys `{Ranging} doc : list Violation :=
  ranged 0 type_key (Document_Types doc) ++
  ranged 1 (λ id ch, registryKey (go "channel") (go "channels") id (Channel_ID ch)) (Document_Channels doc) ++
  ranged 2 (λ id msg, registryKey (go "message") (go "messages") id (Message_ID msg)) (Document_Messages doc) ++
  ranged 3 (λ id scheme, registryKey (go "auth") (go "auth") id (AuthScheme_ID scheme)) (Document_Auth doc) ++
  ranged 4 (λ id server, registryKey (go "server") (go "servers") id (Server_ID server)) (Document_Servers doc).

(** ** IDs *)

(** [idDefect]: the code and message, with no path yet. *)
Definition idDefect (kind id pointer : gostring) : option (gostring * gostring) :=
  if negb (WellFormedID kind id) then
    Some (go "ir/id-malformed", go "id " ++ Quote id ++ go " is not " ++ kind ++ go "/<space>[/<path>]; every segment must be non-empty")
  else if bool_decide (pointer = []) then None
  else
    let '(idPath, _) := IDPath kind id in
    if bool_decide (idPath = TrimPrefix pointer IDSeparator) then None
    else Some (go "ir/id-provenance-disagreement",
      go "id " ++ Quote id ++ go " carries path " ++ Quote idPath ++ go ", which is not the source pointer " ++ Quote pointer ++ go " it records").
Definition placed (defect : option (gostring * gostring)) (path : gostring) : list Violation :=
  match defect with Some (code, message) => [mkViolation code message path] | None => [] end.

(** [beneath], [memberScopeViolation] *)
Definition beneath (path parent : gostring) : bool :=
  match CutPrefix path parent with
  | Some rest => match CutPrefix rest IDSeparator with Some rest => negb (is_nil rest) | None => false end
  | None => false
  end.
Definition memberScopeViolation id (member : EnumMemberID) (i : nat) : list Violation :=
  match IDSpace IDKindEnumMember member, IDPath IDKindEnumMember member, IDSpace IDKindType id, IDPath IDKindType id with
  | Some space, (path, true), Some enumSpace, (enumPath, true) =>
      report_if (negb (bool_decide (space = enumSpace) && beneath path enumPath))
        (mkViolation (go "ir/member-id-scope")
          (go "member id " ++ Quote member ++ go " is not in the namespace " ++ Quote enumSpace ++ go " and beneath the path " ++
           Quote enumPath ++ go " of its enum " ++ Quote id)
          (go "doc.Types[" ++ id ++ go "].Members[" ++ Itoa i ++ go "]"))
  | _, _, _, _ => []
  end.
Definition member_scopes id td : list Violation :=
  match td with
  | EnumDef e => concat (imap (λ i m, memberScopeViolation id (EnumMember_ID m) i) (Enum_Members e))
  | _ => []
  end.
Definition checkMemberIDs `{Ranging} doc : list Violation := ranged 5 member_scopes (Document_Types doc).

Definition type_id id td : list Violation :=
  if IsNilTypeDef td then [] else placed (idDefect IDKindType id (Provenance_Pointer (TypeCommon_Provenance (Common td)))) (typePath id).
Definition checkIDs `{Ranging} doc : list Violation :=
  ranged 6 type_id (Document_Types doc) ++
  ranged 7 (λ id scheme, placed (idDefect IDKindAuth id (Provenance_Pointer (AuthScheme_Provenance scheme))) (authPath id)) (Document_Auth doc) ++
  ranged 8 (λ id server, placed (idDefect IDKindServer id (Provenance_Pointer (Server_Provenance server))) (serverPath id)) (Document_Servers doc) ++
  checkMemberIDs doc.

(** ** Primitives *)

Definition primIDViolation id (kind : PrimKind) (want : TypeID) : Violation :=
  mkViolation (go "ir/prim-id-not-derived")
    (if bool_decide (kind = []) then go "primitive at " ++ Quote id ++ go " carries no kind, so no shared ID derives from it"
     else go "primitive of kind " ++ Quote kind ++ go " is interned at " ++ Quote id ++ go " rather than the shared " ++ Quote want)
    (typePath id).
Definition appendReservedSpace id (kind : TypeKind) : list Violation :=
  report_if (bool_decide (IDSpace IDKindType id = Some IDSpacePrim))
    (mkViolation (go "ir/prim-space-reserved")
      (go "id " ++ Quote id ++ go " addresses the reserved primitive space but names a " ++ kind) (typePath id)).
Definition prim_id id td : list Violation :=
  if IsNilTypeDef td then []
  else match td with
       | PrimitiveDef p => let want := PrimTypeID (Primitive_Prim p) in report_if (negb (bool_decide (id = want))) (primIDViolation id (Primitive_Prim p) want)
       | _ => appendReservedSpace id (Kind td)
       end.
Definition checkPrimIDs `{Ranging} doc : list Violation := ranged 9 prim_id (Document_Types doc).

Definition prim_kind id td : list Violation :=
  match td with
  | PrimitiveDef p => report_if (negb (PrimKind_Valid (Primitive_Prim p)))
      (mkViolation (go "ir/unknown-prim-kind") (go "primitive carries undeclared kind " ++ Quote (Primitive_Prim p)) (typePath id))
  | _ => []
  end.
Definition checkPrimKinds `{Ranging} doc : list Violation := ranged 10 prim_kind (Document_Types doc).

(** ** Auth schemes *)

Definition auth_kind id (scheme : AuthScheme) : list Violation :=
  report_if (negb (AuthKind_Valid (AuthScheme_Kind scheme)))
    (mkViolation (go "ir/unknown-auth-kind") (go "auth scheme names undeclared mechanism " ++ Quote (AuthScheme_Kind scheme)) (authPath id)).
Definition checkAuthKinds `{Ranging} doc : list Violation := ranged 11 auth_kind (Document_Auth doc).

Definition statesMechanism (s : AuthScheme) : bool :=
  negb (is_nil (AuthScheme_In s)) || negb (is_nil (AuthScheme_KeyName s)) || negb (is_nil (AuthScheme_Scheme s)) ||
  negb (is_nil (AuthScheme_BearerFormat s)) || negb (is_nil (AuthScheme_Flows s)) || negb (is_nil (AuthScheme_OAuth2MetadataURL s)) ||
  negb (is_nil (AuthScheme_OpenIDConnectURL s)) || negb (is_None (AuthScheme_Credentials s)).
Definition unresolved_scheme id (scheme : AuthScheme) : list Violation :=
  let unresolved := bool_decide (AuthScheme_Kind scheme = AuthKindUnresolved) in
  match IDSpace IDKindAuth id with
  | Some space => report_if (negb (Bool.eqb unresolved (bool_decide (space = IDSpaceUnresolved))))
      (mkViolation (go "ir/unresolved-auth-space")
        (go "auth scheme of kind " ++ Quote (AuthScheme_Kind scheme) ++ go " is addressed in space " ++ Quote space ++
         go ", and the kind unresolved and the space unresolved go together") (authPath id))
  | None => []
  end ++
  report_if (unresolved && statesMechanism scheme)
    (mkViolation (go "ir/unresolved-auth-has-mechanism") (go "auth scheme of kind unresolved states how to authenticate") (authPath id)).
Definition checkUnresolvedSchemes `{Ranging} doc : list Violation := ranged 12 unresolved_scheme (Document_Auth doc).

Definition scopePath id (i j : nat) : gostring := authPath id ++ go ".Flows[" ++ Itoa i ++ go "].Scopes[" ++ Itoa j ++ go "]".
Fixpoint flow_scopes id (i j : nat) (seen : gset gostring) (scopes : list OAuthScope) : list Violation :=
  match scopes with
  | [] => []
  | scope :: scopes =>
      report_if (bool_decide (OAuthScope_Name scope ∈ seen))
        (mkViolation (go "ir/oauth-scope-duplicate") (go "oauth flow offers scope " ++ Quote (OAuthScope_Name scope) ++ go " more than once") (scopePath id i j)) ++
      flow_scopes id i (S j) ({[OAuthScope_Name scope]} ∪ seen) scopes
  end.
Definition oauth_scopes id (scheme : AuthScheme) : list Violation :=
  concat (imap (λ i flow, flow_scopes id i 0 ∅ (OAuthFlow_Scopes flow)) (AuthScheme_Flows scheme)).
Definition checkOAuthScopes `{Ranging} doc : list Violation := ranged 13 oauth_scopes (Document_Auth doc).

(** ** Unions, maps and models *)

Definition union_rules id td : list Violation :=
  match td with
  | UnionDef u =>
      report_if (is_nil (Union_Variants u))
        (mkViolation (go "ir/union-no-variants") (go "union declares no variants, so no value inhabits it") (typePath id)) ++
      report_if (negb (is_None (Union_Discriminator u)) && negb (Union_WireTagged u))
        (mkViolation (go "ir/union-discriminator-untagged")
          (go "union carries a discriminator but is not WireTagged, a tag mode docs/ir/unions.md does not define") (typePath id))
  | _ => []
  end.
Definition checkUnions `{Ranging} doc : list Violation := ranged 14 union_rules (Document_Types doc).

Definition map_form id td : list Violation :=
  match td with
  | ModelDef m => report_if (negb (is_None (AsMap m)))
      (mkViolation (go "ir/map-as-model") (go "model is a map and nothing else, which is a MapT") (typePath id))
  | _ => []
  end.
Definition checkMaps `{Ranging} doc : list Violation := ranged 15 map_form (Document_Types doc).

Definition catchAllKey td : option (TypeRef * gostring) :=
  match td with
  | MapDef n => (., go "Key") <$> MapT_Key n
  | ModelDef n => ap ← Model_AdditionalProps n; (., go "AdditionalProps.Key") <$> AdditionalProps_Key ap
  | _ => None
  end.
Definition map_key id td : list Violation :=
  match catchAllKey td with
  | Some (key, field) => report_if (negb (TypeRef_Nullable key) && bool_decide (TypeRef_Target key = PrimTypeID PrimString))
      (mkViolation (go "ir/map-key-string") (go "key names the string primitive, which a nil key already states") (typePath id ++ go "." ++ field))
  | None => []
  end.
Definition checkMapKeys `{Ranging} doc : list Violation := ranged 16 map_key (Document_Types doc).

Definition requiresPath id (i : nat) : gostring := typePath id ++ go ".Requires[" ++ Itoa i ++ go "]".
Fixpoint requires_loop id (own : gset gostring) (i : nat) (first : gmap gostring nat) (names : list gostring) : list Violation :=
  match names with
  | [] => []
  | name :: names =>
      report_if (bool_decide (name ∈ own))
        (mkViolation (go "ir/requires-own-property") (go "requires " ++ Quote name ++ go ", which an own property declares and holds as Required") (requiresPath id i)) ++
      match first !! name with
      | Some earlier =>
          mkViolation (go "ir/requires-duplicate") (go "requires " ++ Quote name ++ go " here and at index " ++ Itoa earlier) (requiresPath id i)
          :: requires_loop id own (S i) first names
      | None => requires_loop id own (S i) (<[name := i]> first) names
      end
  end.
Definition model_requires id td : list Violation :=
  match td with
  | ModelDef m => if is_nil (Model_Requires m) then [] else requires_loop id (list_to_set (EffectiveWireName <$> Model_Properties m)) 0 ∅ (Model_Requires m)
  | _ => []
  end.
Definition checkRequires `{Ranging} doc : list Violation := ranged 17 model_requires (Document_Types doc).

(** ** The schema stamp and the document's tables *)

Definition versionPath : gostring := go "doc.IRVersion".
Definition checkVersion doc : list Violation :=
  if bool_decide (Document_IRVersion doc = []) then
    [mkViolation (go "ir/ir-version-absent") (go "document declares no irVersion; this build writes and reads " ++ IRVersion) versionPath]
  else report_if (negb (CompatibleVersion (Document_IRVersion doc)))
    (mkViolation (go "ir/ir-version-incompatible")
      (go "document declares irVersion " ++ Quote (Document_IRVersion doc) ++ go "; this build reads only " ++ IRVersion) versionPath).

Definition sourcesPath : gostring := go "doc.Sources".
Definition servicesPath : gostring := go "doc.Services".
Definition sha256HexLen : nat := 64.
Definition sourcePath (i : nat) (field : gostring) : gostring := sourcesPath ++ go "[" ++ Itoa i ++ go "]" ++ field.
Definition isFormat (format : gostring) : bool := let '(name, version, _) := Cut format "@"%char in negb (is_nil name) && negb (is_nil version).
Definition is_hex (c : ascii) : bool :=
  negb (((code c <? 48) || (57 <? code c)) && ((code c <? 97) || (102 <? code c)))%Z.
Definition isSHA256Hex (hash : gostring) : bool := (length hash =? sha256HexLen) && forallb is_hex hash.
Definition source_rules (i : nat) (src : SourceInfo) : list Violation :=
  report_if (negb (isFormat (SourceInfo_Format src)))
    (mkViolation (go "ir/source-format-malformed") (go "source format " ++ Quote (SourceInfo_Format src) ++ go " is not a name@version pair") (sourcePath i (go ".Format"))) ++
  report_if (negb (isSHA256Hex (SourceInfo_Hash src)))
    (mkViolation (go "ir/source-hash-malformed") (go "source hash " ++ Quote (SourceInfo_Hash src) ++ go " is not a lowercase hex SHA-256 digest") (sourcePath i (go ".Hash"))).
Definition checkDocument doc : list Violation :=
  report_if (is_nil (Document_Services doc))
    (mkViolation (go "ir/services-absent") (go "document declares no service; a compiled document holds at least one") servicesPath) ++
  report_if (is_nil (Document_Sources doc))
    (mkViolation (go "ir/sources-absent") (go "document names no source; a compiled document was read from at least one") sourcesPath) ++
  concat (imap source_rules (Document_Sources doc)).

(** The checks [verify] runs before the walk, in its order. *)
Definition registry_checks `{Ranging} doc : list Violation :=
  checkRegistryKeys doc ++ checkIDs doc ++ checkPrimIDs doc ++ checkPrimKinds doc ++ checkAuthKinds doc ++
  checkUnresolvedSchemes doc ++ checkOAuthScopes doc ++ checkUnions doc ++ checkMaps doc ++ checkMapKeys doc ++
  checkRequires doc ++ checkVersion doc ++ checkDocument doc.
End Rules.
