(* ===== verification/RegistrySound.v ===== *)
(** * RegistrySound: what the registry rules hold a document to

    The rules read as propositions, each check clean exactly when its rule
    holds, and the report the same whatever order the registries are ranged
    in. *)
From S2P Require Import Prelude GoLib Utf8 Decimal Value IR Domain Ids Findings Violations RegistryRules.

(** ** The rules *)

(** Each entry of a registry is kept under its own ID, which is not empty. *)
Definition keyed {A} (own : A → gostring) (m : gmap gostring A) : Prop := ∀ id x, m !! id = Some x → id ≠ [] ∧ own x = id.
(** An ID of the grammar, whose path is the source pointer recorded with it. *)
Definition derived (kind id pointer : gostring) : Prop :=
  WellFormedID kind id = true ∧ (pointer = [] ∨ (IDPath kind id).1 = TrimPrefix pointer IDSeparator).
Definition derived_in {A} (kind : gostring) (pointer : A → gostring) (m : gmap gostring A) : Prop :=
  ∀ id x, m !! id = Some x → derived kind id (pointer x).

Record member_rule (enum : TypeID) (member : EnumMemberID) : Prop := {
  member_beneath space path enumSpace enumPath :
    IDSpace IDKindEnumMember member = Some space → IDPath IDKindEnumMember member = (path, true) →
    IDSpace IDKindType enum = Some enumSpace → IDPath IDKindType enum = (enumPath, true) →
    space = enumSpace ∧ ∃ rest, rest ≠ [] ∧ path = enumPath ++ IDSeparator ++ rest
}.

Definition is_prim (td : TypeDef) : Prop := match td with PrimitiveDef _ => True | _ => False end.

(** A type definition, of its kind. *)
Definition type_rule (id : TypeID) (td : TypeDef) : Prop :=
  match td with
  | NilDef _ => False
  | PrimitiveDef p => id = PrimTypeID (Primitive_Prim p) ∧ Primitive_Prim p ∈ declared_kinds
  | EnumDef e => ∀ m, m ∈ Enum_Members e → member_rule id (EnumMember_ID m)
  | UnionDef u => Union_Variants u ≠ [] ∧ (Union_Discriminator u ≠ None → Union_WireTagged u = true)
  | MapDef n => ∀ key, MapT_Key n = Some key → TypeRef_Target key = PrimTypeID PrimString → TypeRef_Nullable key = true
  | ModelDef m =>
      mapOnly m = false ∧ NoDup (Model_Requires m) ∧ (∀ p, p ∈ Model_Properties m → EffectiveWireName p ∉ Model_Requires m) ∧
      ∀ ap key, Model_AdditionalProps m = Some ap → AdditionalProps_Key ap = Some key →
        TypeRef_Target key = PrimTypeID PrimString → TypeRef_Nullable key = true
  | _ => True
  end ∧ (is_prim td ∨ IDSpace IDKindType id ≠ Some IDSpacePrim).

(** An auth scheme: a declared kind; unresolved exactly in the space of its name,
    and then saying nothing of how to authenticate; scopes offered once. *)
Record auth_rule (id : AuthID) (scheme : AuthScheme) : Prop := {
  auth_declared : AuthScheme_Kind scheme ∈ auth_kinds;
  auth_space space : IDSpace IDKindAuth id = Some space → (AuthScheme_Kind scheme = AuthKindUnresolved ↔ space = IDSpaceUnresolved);
  auth_no_mechanism : AuthScheme_Kind scheme = AuthKindUnresolved → statesMechanism scheme = false;
  auth_scopes flow : flow ∈ AuthScheme_Flows scheme → NoDup (OAuthScope_Name <$> OAuthFlow_Scopes flow)
}.

Record source_rule (src : SourceInfo) : Prop := {
  source_format : ∃ name version, name ≠ [] ∧ version ≠ [] ∧ ("@"%char ∉ name) ∧ SourceInfo_Format src = name ++ go "@" ++ version;
  source_hash : length (SourceInfo_Hash src) = 64 ∧ ∀ c, c ∈ SourceInfo_Hash src → (48 ≤ code c ≤ 57 ∨ 97 ≤ code c ≤ 102)%Z
}.

Record registries_sound (doc : Document) : Prop := {
  rs_types_keyed : keyed (λ td, TypeCommon_ID (Common td)) (Document_Types doc);
  rs_channels : keyed Channel_ID (Document_Channels doc);
  rs_messages : keyed Message_ID (Document_Messages doc);
  rs_auth_keyed : keyed AuthScheme_ID (Document_Auth doc);
  rs_servers : keyed Server_ID (Document_Servers doc);
  rs_types_derived : derived_in IDKindType (λ td, Provenance_Pointer (TypeCommon_Provenance (Common td))) (Document_Types doc);
  rs_auth_derived : derived_in IDKindAuth (λ s, Provenance_Pointer (AuthScheme_Provenance s)) (Document_Auth doc);
  rs_servers_derived : derived_in IDKindServer (λ s, Provenance_Pointer (Server_Provenance s)) (Document_Servers doc);
  rs_types id td : Document_Types doc !! id = Some td → type_rule id td;
  rs_auth id scheme : Document_Auth doc !! id = Some scheme → auth_rule id scheme;
  rs_version : Document_IRVersion doc = IRVersion;
  rs_services : Document_Services doc ≠ [];
  rs_sources : Document_Sources doc ≠ [] ∧ ∀ src, src ∈ Document_Sources doc → source_rule src
}.

Section Sound.
Context (Quote : gostring → gostring) `{Ranging}.
Implicit Types (id key : gostring) (td : TypeDef) (doc : Document).

(** ** Reports that are empty *)

Lemma report_if_nil bad (v : Violation) : report_if bad v = [] ↔ bad = false.
Proof. by destruct bad. Qed.
Lemma concat_imap_nil {A B} (f : nat → A → list B) (l : list A) : concat (imap f l) = [] ↔ ∀ i x, l !! i = Some x → f i x = [].
Proof.
  revert f. induction l as [|x l IH]; intros f; [split; [|done]; by intros _ [|i]|]. rewrite imap_cons. cbn [concat]. rewrite app_nil_iff, IH. split.
  - intros [Hx Hl] [|i] y; [by intros [= <-]|apply Hl].
  - intros Hall. split; [by apply (Hall 0)|]. intros i y Hi. by apply (Hall (S i)).
Qed.
Lemma is_None_true {A} (o : option A) : is_None o = true ↔ o = None.
Proof. by destruct o. Qed.

Lemma registryKey_nil noun reg id own : registryKey Quote noun reg id own = [] ↔ id ≠ [] ∧ own = id.
Proof.
  unfold registryKey. case_bool_decide as E; [split; [done|by intros [? _]]|]. rewrite report_if_nil, negb_false_iff, bool_decide_eq_true. naive_solver.
Qed.
Lemma ranged_keyed {A} (s : nat) noun reg (own : A → gostring) m :
  ranged s (λ id x, registryKey Quote noun reg id (own x)) m = [] ↔ keyed own m.
Proof. rewrite ranged_nil. unfold keyed. by setoid_rewrite registryKey_nil. Qed.

Lemma placed_nil defect path : placed defect path = [] ↔ defect = None.
Proof. by destruct defect as [[? ?]|]. Qed.
Lemma idDefect_None kind id pointer : idDefect Quote kind id pointer = None ↔ derived kind id pointer.
Proof.
  unfold idDefect, derived. destruct (WellFormedID kind id); cbn [negb]; [|split; [done|by intros [? _]]].
  case_bool_decide; [naive_solver|]. destruct (IDPath kind id) as [p b]. cbn [fst]. case_bool_decide; naive_solver.
Qed.
Lemma ranged_derived {A} (s : nat) kind (pointer : A → gostring) path m :
  ranged s (λ id x, placed (idDefect Quote kind id (pointer x)) (path id)) m = [] ↔ derived_in kind pointer m.
Proof. rewrite ranged_nil. unfold derived_in. setoid_rewrite placed_nil. by setoid_rewrite idDefect_None. Qed.

Lemma beneath_true path parent : beneath path parent = true ↔ ∃ rest, rest ≠ [] ∧ path = parent ++ IDSeparator ++ rest.
Proof.
  unfold beneath. split.
  - destruct (CutPrefix path parent) as [rest|] eqn:E1; [|done]. destruct (CutPrefix rest IDSeparator) as [below|] eqn:E2; [|done].
    apply CutPrefix_Some in E1 as ->, E2 as ->. rewrite negb_true_iff, is_nil_false. intros Hb. by exists below.
  - intros (rest & Hr & ->). rewrite !CutPrefix_app. by rewrite negb_true_iff, is_nil_false.
Qed.

Lemma memberScope_nil id member (i : nat) : memberScopeViolation Quote id member i = [] ↔ member_rule id member.
Proof.
  unfold memberScopeViolation. split.
  - intros E. constructor. intros space path enumSpace enumPath Es Ep Et Eq. rewrite Es, Ep, Et, Eq in E.
    rewrite report_if_nil, negb_false_iff, andb_true_iff, bool_decide_eq_true, beneath_true in E. done.
  - intros [R]. destruct (IDSpace IDKindEnumMember member) as [space|]; [|done]. destruct (IDPath IDKindEnumMember member) as [path [|]]; [|done].
    destruct (IDSpace IDKindType id) as [enumSpace|]; [|done]. destruct (IDPath IDKindType id) as [enumPath [|]]; [|done].
    rewrite report_if_nil, negb_false_iff, andb_true_iff, bool_decide_eq_true, beneath_true. by apply R.
Qed.

Lemma flow_scopes_nil id (i j : nat) (seen : gset gostring) scopes :
  flow_scopes Quote id i j seen scopes = [] ↔ NoDup (OAuthScope_Name <$> scopes) ∧ ∀ s, s ∈ scopes → OAuthScope_Name s ∉ seen.
Proof.
  revert j seen. induction scopes as [|s scopes IH]; intros j seen; cbn [flow_scopes fmap list_fmap].
  { split; [|done]. intros _. split; [constructor|by intros s ?%elem_of_nil]. }
  rewrite app_nil_iff, report_if_nil, bool_decide_eq_false, IH, NoDup_cons. setoid_rewrite elem_of_cons. setoid_rewrite list_elem_of_fmap. split.
  - intros (Hs & Hnd & Hall). split; [split; [|done]|].
    + intros (s' & E & Hs'). specialize (Hall s' Hs'). set_solver.
    + intros s' [->|Hs']; [done|]. specialize (Hall s' Hs'). set_solver.
  - intros ((Hs & Hnd) & Hall). split; [apply Hall; by left|]. split; [done|]. intros s' Hs'. rewrite elem_of_union, elem_of_singleton.
    intros [E|?]; [apply Hs; by exists s'|]. by apply (Hall s'); [right|].
Qed.

Lemma requires_loop_nil id (own : gset gostring) (i : nat) (first : gmap gostring nat) names :
  requires_loop Quote id own i first names = [] ↔ NoDup names ∧ (∀ n, n ∈ names → n ∉ own ∧ first !! n = None).
Proof.
  revert i first. induction names as [|n names IH]; intros i first; cbn [requires_loop].
  { split; [|done]. intros _. split; [constructor|by intros n ?%elem_of_nil]. }
  rewrite app_nil_iff, report_if_nil, bool_decide_eq_false, NoDup_cons. destruct (first !! n) as [e|] eqn:E.
  { split; [by intros [_ ?]|]. intros (_ & Hall). destruct (Hall n) as [_ ?]; [by left|congruence]. }
  rewrite IH. split.
  - intros (Hn & Hnd & Hall). split; [split; [|done]|].
    + intros Hin. destruct (Hall n Hin) as [_ Hl]. by rewrite lookup_insert_eq in Hl.
    + intros m [->|Hm]%elem_of_cons; [done|]. destruct (Hall m Hm) as [? Hl]. split; [done|]. by apply lookup_insert_None in Hl as [? _].
  - intros ((Hn & Hnd) & Hall). split; [apply Hall; by left|]. split; [done|]. intros m Hm. destruct (Hall m) as [? ?]; [by right|]. split; [done|].
    rewrite lookup_insert_ne; [done|]. by intros ->.
Qed.

Lemma Cut_split (text : gostring) sep : let '(a, b, found) := Cut text sep in
  sep ∉ a ∧ if found then text = a ++ sep :: b else text = a ∧ b = [].
Proof.
  induction text as [|c text IH]; cbn [Cut]; [by split; [apply not_elem_of_nil|]|]. destruct (decide (c = sep)) as [->|Hne].
  - by split; [apply not_elem_of_nil|].
  - destruct (Cut text sep) as [[a b] found]. destruct IH as [Hn Hb]. split; [by rewrite not_elem_of_cons|].
    destruct found; [by rewrite Hb|]. destruct Hb as [-> ->]. done.
Qed.
Lemma Cut_at (a b : gostring) sep : sep ∉ a → Cut (a ++ sep :: b) sep = (a, b, true).
Proof.
  induction a as [|c a IH]; cbn [Cut app]; [by rewrite decide_True|]. rewrite not_elem_of_cons. intros [Hne Ha].
  rewrite decide_False by congruence. by rewrite IH.
Qed.

Lemma isFormat_true f : isFormat f = true ↔ ∃ name version, name ≠ [] ∧ version ≠ [] ∧ ("@"%char ∉ name) ∧ f = name ++ go "@" ++ version.
Proof.
  unfold isFormat. split.
  - pose proof (Cut_split f "@"%char) as Hc. destruct (Cut f "@"%char) as [[a b] found]. destruct Hc as [Hn Hf].
    rewrite andb_true_iff, !negb_true_iff, !is_nil_false. intros [Ha Hb]. destruct found; [by exists a, b|]. by destruct Hf.
  - intros (name & version & Hn & Hv & Ha & ->). change (name ++ go "@" ++ version) with (name ++ "@"%char :: version). rewrite Cut_at by done.
    rewrite andb_true_iff, !negb_true_iff, !is_nil_false. done.
Qed.
Lemma isSHA256Hex_true h : isSHA256Hex h = true ↔ length h = 64 ∧ ∀ c, c ∈ h → (48 ≤ code c ≤ 57 ∨ 97 ≤ code c ≤ 102)%Z.
Proof.
  unfold isSHA256Hex, sha256HexLen. rewrite andb_true_iff, Nat.eqb_eq, forallb_forall. apply and_iff_compat_l.
  split; intros Hall c Hc; specialize (Hall c); rewrite list_elem_of_In in *; specialize (Hall Hc); unfold is_hex in *;
    rewrite negb_true_iff, andb_false_iff, !orb_false_iff, !Z.ltb_ge in *; lia.
Qed.
Lemma source_rules_nil (i : nat) src : source_rules Quote i src = [] ↔ source_rule src.
Proof.
  unfold source_rules. rewrite app_nil_iff, !report_if_nil, !negb_false_iff, isFormat_true, isSHA256Hex_true. split; [by intros [? ?]|by intros []].
Qed.

(** ** One type, one scheme *)

Lemma type_key_nil id td : type_key Quote id td = [] ↔ IsNilTypeDef td = false ∧ id ≠ [] ∧ TypeCommon_ID (Common td) = id.
Proof. unfold type_key. destruct (IsNilTypeDef td); [split; [done|by intros [? _]]|]. rewrite registryKey_nil. tauto. Qed.

Lemma type_id_nil id td : IsNilTypeDef td = false → type_id Quote id td = [] ↔ derived IDKindType id (Provenance_Pointer (TypeCommon_Provenance (Common td))).
Proof. unfold type_id. intros ->. by rewrite placed_nil, idDefect_None. Qed.

Lemma reserved_nil id kind : appendReservedSpace Quote id kind = [] ↔ IDSpace IDKindType id ≠ Some IDSpacePrim.
Proof. unfold appendReservedSpace. by rewrite report_if_nil, bool_decide_eq_false. Qed.

Lemma map_key_nil id td : map_key id td = [] ↔ ∀ (key : TypeRef) field, catchAllKey td = Some (key, field) → TypeRef_Target key = PrimTypeID PrimString → TypeRef_Nullable key = true.
Proof.
  unfold map_key. destruct (catchAllKey td) as [[key field]|]; [|done]. rewrite report_if_nil, andb_false_iff, negb_false_iff, bool_decide_eq_false. split.
  - intros [?|?] ? ? [= <- <-]; naive_solver.
  - intros Hall. destruct (decide (TypeRef_Target key = PrimTypeID PrimString)); [left; by eapply Hall|by right].
Qed.

Lemma AsMap_None m : AsMap m = None ↔ mapOnly m = false.
Proof. unfold AsMap. destruct (mapOnly m) eqn:E; [|done]. unfold mapOnly in E. by destruct (Model_AdditionalProps m). Qed.

Lemma model_requires_nil id m : model_requires Quote id (ModelDef m) = [] ↔
  NoDup (Model_Requires m) ∧ (∀ p, p ∈ Model_Properties m → EffectiveWireName p ∉ Model_Requires m).
Proof.
  cbn [model_requires]. destruct (is_nil (Model_Requires m)) eqn:E.
  - apply is_nil_true in E as ->. split; [|done]. intros _. split; [constructor|]. intros p _. apply not_elem_of_nil.
  - rewrite requires_loop_nil. apply and_iff_compat_l. split.
    + intros Hall p Hp Hin. destruct (Hall _ Hin) as [Hn _]. apply Hn, elem_of_list_to_set, list_elem_of_fmap. by exists p.
    + intros Hall n Hn. split; [|apply lookup_empty]. rewrite elem_of_list_to_set, list_elem_of_fmap. intros (p & -> & Hp). by apply (Hall p).
Qed.

(** The rules of a type, by the checks that hold them. *)
Lemma type_rules_nil id td : IsNilTypeDef td = false →
  (member_scopes Quote id td = [] ∧ prim_id Quote id td = [] ∧ prim_kind Quote id td = [] ∧ union_rules id td = [] ∧ map_form id td = [] ∧
   map_key id td = [] ∧ model_requires Quote id td = []) ↔ type_rule id td.
Proof.
  intros Hn. unfold type_rule. destruct td as [p|d|m|u|e|d|n|d|d|d|d|k]; [..|done]; cbn [is_prim];
    cbn [member_scopes prim_id prim_kind union_rules map_form IsNilTypeDef]; rewrite ?reserved_nil, ?map_key_nil; cbn [catchAllKey].
  - rewrite !report_if_nil, !negb_false_iff, bool_decide_eq_true. unfold PrimKind_Valid. rewrite bool_decide_eq_true. cbn. naive_solver.
  - cbn. naive_solver.
  - rewrite report_if_nil, negb_false_iff, is_None_true, AsMap_None, model_requires_nil. split.
    + intros (_ & ? & _ & _ & ? & Hk & ? & ?). split; [|by right]. split_and!; try done. intros ap key Ha Hkey Ht. apply (Hk key (go "AdditionalProps.Key")); [|done].
      rewrite Ha. cbn. by rewrite Hkey.
    + intros ((? & ? & ? & Hk) & [[]|?]). split_and!; try done. intros key field. destruct (Model_AdditionalProps m) as [ap|] eqn:Ea; [|done]. cbn.
      destruct (AdditionalProps_Key ap) as [key'|] eqn:Ek; [|done]. cbn. intros [= -> _]. by apply (Hk ap).
  - rewrite app_nil_iff, !report_if_nil, is_nil_false, andb_false_iff, !negb_false_iff, is_None_true. split.
    + intros (_ & ? & _ & [? Hd] & _). split; [split; [done|]|by right]. intros ?. by destruct Hd.
    + intros ([? Hd] & [[]|?]). split_and!; try done. destruct (Union_Discriminator u); [right; by apply Hd|by left].
  - rewrite concat_imap_nil. setoid_rewrite memberScope_nil. setoid_rewrite list_elem_of_lookup. cbn. naive_solver.
  - cbn. naive_solver.
  - cbn. split.
    + intros (_ & ? & _ & _ & _ & Hk & _). split; [|by right]. intros key E. apply (Hk key (go "Key")). by rewrite E.
    + intros (Hk & [[]|?]). split_and!; try done. intros key field. destruct (MapT_Key n) as [key'|] eqn:E; [|done]. intros [= -> _]. by apply Hk.
  - cbn. naive_solver.
  - cbn. naive_solver.
  - cbn. naive_solver.
  - cbn. naive_solver.
Qed.

Lemma unresolved_nil id scheme : unresolved_scheme Quote id scheme = [] ↔
  (∀ space, IDSpace IDKindAuth id = Some space → (AuthScheme_Kind scheme = AuthKindUnresolved ↔ space = IDSpaceUnresolved)) ∧
  (AuthScheme_Kind scheme = AuthKindUnresolved → statesMechanism scheme = false).
Proof.
  unfold unresolved_scheme. rewrite app_nil_iff, report_if_nil, andb_false_iff, bool_decide_eq_false.
  assert (Hs : (match IDSpace IDKindAuth id with
      | Some space => report_if (negb (Bool.eqb (bool_decide (AuthScheme_Kind scheme = AuthKindUnresolved)) (bool_decide (space = IDSpaceUnresolved))))
          (mkViolation (go "ir/unresolved-auth-space") (go "auth scheme of kind " ++ Quote (AuthScheme_Kind scheme) ++ go " is addressed in space " ++ Quote space ++
            go ", and the kind unresolved and the space unresolved go together") (authPath id))
      | None => [] end = []) ↔ ∀ space, IDSpace IDKindAuth id = Some space → (AuthScheme_Kind scheme = AuthKindUnresolved ↔ space = IDSpaceUnresolved)).
  { destruct (IDSpace IDKindAuth id) as [space|]; [|done]. rewrite report_if_nil, negb_false_iff, eqb_true_iff. split.
    - intros E ? [= <-]. by rewrite <- (bool_decide_eq_true (AuthScheme_Kind scheme = _)), E, bool_decide_eq_true.
    - intros Hall. apply bool_decide_ext. by apply Hall. }
  rewrite Hs. destruct (decide (AuthScheme_Kind scheme = AuthKindUnresolved)); naive_solver.
Qed.

Lemma oauth_nil id scheme : oauth_scopes Quote id scheme = [] ↔ ∀ flow, flow ∈ AuthScheme_Flows scheme → NoDup (OAuthScope_Name <$> OAuthFlow_Scopes flow).
Proof.
  unfold oauth_scopes. rewrite concat_imap_nil. setoid_rewrite flow_scopes_nil. setoid_rewrite list_elem_of_lookup. split.
  - intros Hall flow [i Hi]. by destruct (Hall i flow Hi).
  - intros Hall i flow Hi. split; [apply Hall; by exists i|]. intros s _. apply not_elem_of_empty.
Qed.
Lemma auth_rules_nil id scheme : (auth_kind Quote id scheme = [] ∧ unresolved_scheme Quote id scheme = [] ∧ oauth_scopes Quote id scheme = []) ↔ auth_rule id scheme.
Proof.
  rewrite unresolved_nil, oauth_nil. unfold auth_kind, AuthKind_Valid. rewrite report_if_nil, negb_false_iff, bool_decide_eq_true.
  split; [intros (? & [? ?] & ?); by constructor|intros []; split_and!; try done].
Qed.

Lemma checkVersion_nil doc : checkVersion Quote doc = [] ↔ Document_IRVersion doc = IRVersion.
Proof.
  unfold checkVersion, CompatibleVersion. case_bool_decide as E; [rewrite E; split; [done|]; discriminate|].
  by rewrite report_if_nil, negb_false_iff, bool_decide_eq_true.
Qed.
Lemma checkDocument_nil doc : checkDocument Quote doc = [] ↔
  Document_Services doc ≠ [] ∧ Document_Sources doc ≠ [] ∧ ∀ src, src ∈ Document_Sources doc → source_rule src.
Proof.
  unfold checkDocument. rewrite !app_nil_iff, !report_if_nil, !is_nil_false, concat_imap_nil. setoid_rewrite source_rules_nil. setoid_rewrite list_elem_of_lookup. naive_solver.
Qed.

Lemma registry_checks_nil doc : registry_checks Quote doc = [] ↔ registries_sound doc.
Proof.
  unfold registry_checks, checkRegistryKeys, checkIDs, checkMemberIDs, checkPrimIDs, checkPrimKinds, checkAuthKinds, checkUnresolvedSchemes, checkOAuthScopes,
    checkUnions, checkMaps, checkMapKeys, checkRequires.
  rewrite !app_nil_iff, !ranged_keyed, !ranged_derived, !ranged_nil, checkVersion_nil, checkDocument_nil. setoid_rewrite type_key_nil. split.
  - intros ((K & ? & ? & ? & ?) & (D & ? & ? & M) & P & PK & AK & U & O & UN & MF & MK & R & ? & ? & ? & ?).
    constructor; try done; [intros id td Hi; by destruct (K id td Hi)|intros id td Hi; destruct (K id td Hi); rewrite <- type_id_nil by done; by apply D| |].
    + intros id td Hi. destruct (K id td Hi). rewrite <- type_rules_nil by done. split_and!; auto.
    + intros id scheme Hi. rewrite <- auth_rules_nil. split_and!; auto.
  - intros [K ? ? ? ? D ? ? T A ? ? [? ?]]. assert (Hn : ∀ id td, Document_Types doc !! id = Some td → IsNilTypeDef td = false).
    { intros id td Hi. destruct (T id td Hi) as [Ht _]. by destruct td. }
    assert (HT : ∀ id td, Document_Types doc !! id = Some td → _) by (intros id td Hi; exact (proj2 (type_rules_nil id td (Hn id td Hi)) (T id td Hi))).
    assert (HA : ∀ id scheme, Document_Auth doc !! id = Some scheme → _) by (intros id scheme Hi; exact (proj2 (auth_rules_nil id scheme) (A id scheme Hi))).
    split_and!; try done; try (intros id x Hi; destruct (HT id x Hi) as (? & ? & ? & ? & ? & ? & ?); done); try (intros id x Hi; destruct (HA id x Hi) as (? & ? & ?); done).
    + intros id td Hi. split; [by apply (Hn id)|by apply K].
    + intros id td Hi. rewrite type_id_nil by by apply (Hn id). by apply D.
Qed.
End Sound.

(** ** RegistryOrder: a report does not depend on the order of ranging

    Every violation of the registry rules names its entry in its path, so no two
    entries of a registry report at one place. *)

Section Order.
Context (Quote : gostring → gostring).
Implicit Types (id : gostring) (td : TypeDef) (doc : Document) (v : Violation).

(** ** Paths name their entry *)

Lemma last_mark_inj (x : ascii) (a b d e : gostring) : x ∉ d → x ∉ e → a ++ x :: d = b ++ x :: e → a = b.
Proof.
  intros Hd He. revert b. induction a as [|c a IH]; intros [|c' b] E; cbn [app] in E; [done|..]; apply (f_equal tail) in E as E2; cbn in E2.
  - destruct Hd. rewrite E2. apply elem_of_app. right. by left.
  - destruct He. rewrite <- E2. apply elem_of_app. right. by left.
  - f_equal; [by injection E|by apply IH].
Qed.

Lemma Itoa_digits (i : nat) : all_digits (Itoa i).
Proof. unfold Itoa, FormatInt. destruct (Z.ltb_spec (Z.of_nat i) 0); [lia|]. by apply FormatUint_spec; lia. Qed.
Lemma Itoa_mark (i : nat) : "["%char ∉ Itoa i ++ go "]".
Proof.
  rewrite elem_of_app. intros [Hi|Hi]; [|apply list_elem_of_singleton in Hi; discriminate Hi]. pose proof (Itoa_digits i) as Hd. unfold all_digits in Hd.
  rewrite Forall_forall in Hd. specialize (Hd _ Hi). unfold is_digit in Hd. vm_compute in Hd. by destruct Hd.
Qed.
Lemma indexed_inj (a b : gostring) (i j : nat) : a ++ go "[" ++ Itoa i ++ go "]" = b ++ go "[" ++ Itoa j ++ go "]" → a = b.
Proof. apply (last_mark_inj "["%char a b (Itoa i ++ go "]") (Itoa j ++ go "]")); apply Itoa_mark. Qed.

Lemma bracketed_inj (reg i j : gostring) : reg ++ go "[" ++ i ++ go "]" = reg ++ go "[" ++ j ++ go "]" → i = j.
Proof. intros E. apply app_inv_head in E. injection E as E. by apply app_inv_tail in E. Qed.
Lemma typePath_inj i j : typePath i = typePath j → i = j.
Proof. exact (bracketed_inj (go "types") i j). Qed.
Lemma authPath_inj i j : authPath i = authPath j → i = j.
Proof. exact (bracketed_inj (go "auth") i j). Qed.
Lemma serverPath_inj i j : serverPath i = serverPath j → i = j.
Proof. exact (bracketed_inj (go "servers") i j). Qed.

Lemma apart_by {A} (spelled : gostring → gostring * gostring → Prop) (entry : gostring → A → list Violation) m :
  (∀ i j k, spelled i k → spelled j k → i = j) → (∀ i x v, v ∈ entry i x → spelled i (at_path v)) → apart entry m.
Proof. intros Hinj Hs i j x y v w _ _ Hv%Hs Hw%Hs E. rewrite E in Hv. by eapply Hinj. Qed.
Lemma apart_path {A} (path : gostring → gostring) (entry : gostring → A → list Violation) m :
  (∀ i j, path i = path j → i = j) → (∀ i x v, v ∈ entry i x → Path v = path i) → apart entry m.
Proof. intros Hinj Hp. apply (apart_by (λ i k, k.2 = path i)); [|exact Hp]. intros i j k E1 E2. apply Hinj. by rewrite <- E1. Qed.

Lemma elem_of_report_if bad v w : v ∈ report_if bad w → v = w.
Proof. destruct bad; cbn; [intros ?%list_elem_of_singleton|intros ?%elem_of_nil]; done. Qed.
Lemma elem_of_placed defect path v : v ∈ placed defect path → Path v = path.
Proof. destruct defect as [[c m]|]; cbn; [intros ->%list_elem_of_singleton|intros ?%elem_of_nil]; done. Qed.
Lemma elem_of_concat_imap {A B} (f : nat → A → list B) (l : list A) y : y ∈ concat (imap f l) → ∃ i x, l !! i = Some x ∧ y ∈ f i x.
Proof.
  revert f. induction l as [|x l IH]; intros f; [by intros ?%elem_of_nil|]. rewrite imap_cons. cbn [concat]. intros [Hy|Hy]%elem_of_app; [by exists 0, x|].
  apply IH in Hy as (i & z & Hi & Hy). by exists (S i), z.
Qed.

Lemma registryKey_at noun reg id own v : v ∈ registryKey Quote noun reg id own →
  (id = [] ∧ Code v = go "ir/empty-" ++ noun ++ go "-id") ∨ (Code v = go "ir/" ++ noun ++ go "-id-mismatch" ∧ Path v = reg ++ go "[" ++ id ++ go "]").
Proof.
  unfold registryKey. case_bool_decide; [intros ->%list_elem_of_singleton; by left|intros ->%elem_of_report_if; by right].
Qed.
Lemma registryKey_apart {A} noun reg (own : A → gostring) m : go "ir/empty-" ++ noun ++ go "-id" ≠ go "ir/" ++ noun ++ go "-id-mismatch" →
  apart (λ id x, registryKey Quote noun reg id (own x)) m.
Proof.
  intros Hne i j x y v w _ _ Hv%registryKey_at Hw%registryKey_at [= Ec Ep].
  destruct Hv as [[-> Hv]|[Hv Pv]], Hw as [[-> Hw]|[Hw Pw]]; try congruence. eapply bracketed_inj. by rewrite <- Pv, Ep.
Qed.
Lemma type_key_apart m : apart (type_key Quote) m.
Proof.
  assert (Hat : ∀ id td v, v ∈ type_key Quote id td → (id = [] ∧ Code v = go "ir/empty-type-id") ∨ (Code v ≠ go "ir/empty-type-id" ∧ Path v = typePath id)).
  { intros id td v. unfold type_key. destruct (IsNilTypeDef td); [intros ->%list_elem_of_singleton; by right|].
    intros [[? ->]|[-> ->]]%registryKey_at; [by left|by right]. }
  intros i j x y v w _ _ Hv%Hat Hw%Hat [= Ec Ep]. destruct Hv as [[-> Hv]|[Hv Pv]], Hw as [[-> Hw]|[Hw Pw]]; try congruence. apply typePath_inj. by rewrite <- Pv, Ep.
Qed.

Lemma member_scopes_apart m : apart (member_scopes Quote) m.
Proof.
  apply (apart_by (λ id k, ∃ i, k.2 = go "doc.Types[" ++ id ++ go "].Members[" ++ Itoa i ++ go "]")).
  - intros a b k [i E1] [j E2]. rewrite E1 in E2. apply app_inv_head in E2. apply (app_inv_tail (go "].Members")).
    apply (indexed_inj _ _ i j). by rewrite <- !app_assoc.
  - intros id td v. destruct td; try by intros ?%elem_of_nil. cbn [member_scopes]. intros (i & m' & _ & Hv)%elem_of_concat_imap. exists i.
    unfold memberScopeViolation in Hv. repeat (case_match; try by apply elem_of_nil in Hv). by apply elem_of_report_if in Hv as ->.
Qed.
Lemma oauth_scopes_apart m : apart (oauth_scopes Quote) m.
Proof.
  apply (apart_by (λ id k, ∃ i j, k.2 = scopePath id i j)).
  - intros a b k (i & j & E1) (i' & j' & E2). rewrite E1 in E2. unfold scopePath in E2.
    assert (E : (authPath a ++ go ".Flows[" ++ Itoa i ++ go "].Scopes") = (authPath b ++ go ".Flows[" ++ Itoa i' ++ go "].Scopes")) by (apply (indexed_inj _ _ j j'); rewrite <- !app_assoc; exact E2).
    change (go "].Scopes") with (go "]" ++ go ".Scopes") in E. change (go ".Flows[") with (go ".Flows" ++ go "[") in E. rewrite !app_assoc in E. apply app_inv_tail in E.
    apply authPath_inj, (app_inv_tail (go ".Flows")), (indexed_inj _ _ i i'). by rewrite !app_assoc.
  - intros id scheme v. unfold oauth_scopes. intros (i & flow & _ & Hv)%elem_of_concat_imap. exists i. revert Hv. generalize 0, (∅ : gset gostring).
    induction (OAuthFlow_Scopes flow) as [|s scopes IH]; intros j seen; cbn [flow_scopes]; [by intros ?%elem_of_nil|].
    intros [->%elem_of_report_if|Hv]%elem_of_app; [by exists j|]. by apply IH in Hv.
Qed.
Lemma model_requires_apart m : apart (model_requires Quote) m.
Proof.
  apply (apart_by (λ id k, ∃ i, k.2 = requiresPath id i)).
  - intros a b k [i E1] [j E2]. rewrite E1 in E2. unfold requiresPath in E2. apply typePath_inj, (app_inv_tail (go ".Requires")), (indexed_inj _ _ i j).
    rewrite <- !app_assoc. exact E2.
  - intros id td v. destruct td as [| |d| | | | | | | | |]; try by intros ?%elem_of_nil. cbn [model_requires]. destruct (is_nil _); [by intros ?%elem_of_nil|].
    generalize 0, (∅ : gmap gostring nat). induction (Model_Requires d) as [|n names IH]; intros i first; cbn [requires_loop]; [by intros ?%elem_of_nil|].
    intros [->%elem_of_report_if|Hv]%elem_of_app; [by exists i|]. destruct (first !! n); [apply elem_of_cons in Hv as [->|Hv]; [by exists i|]|]; by apply IH in Hv.
Qed.
Lemma map_key_apart m : apart map_key m.
Proof.
  apply (apart_by (λ id k, k.2 = typePath id ++ go "." ++ go "Key" ∨ k.2 = typePath id ++ go "." ++ go "AdditionalProps.Key")).
  - assert (Hno : ∀ a b, typePath a ++ go "." ++ go "Key" ≠ typePath b ++ go "." ++ go "AdditionalProps.Key").
    { intros a b E. apply (f_equal (@rev ascii)) in E. unfold typePath in E. rewrite !rev_app_distr in E. cbn in E. discriminate E. }
    intros a b k [E1|E1] [E2|E2]; rewrite E1 in E2; [|by apply Hno in E2|by symmetry in E2; apply Hno in E2|]; apply app_inv_tail in E2; by apply typePath_inj.
  - intros id td v. unfold map_key. destruct (catchAllKey td) as [[key field]|] eqn:E; [|by intros ?%elem_of_nil]. intros ->%elem_of_report_if. cbn.
    assert (field = go "Key" ∨ field = go "AdditionalProps.Key") as [-> | ->]; [|by left|by right].
    destruct td as [| |d| | | |d| | | | |]; try done; cbn in E.
    + destruct (Model_AdditionalProps d) as [ap|]; [|done]. cbn in E. destruct (AdditionalProps_Key ap); [|done]. injection E as _ <-. by right.
    + destruct (MapT_Key d); [|done]. injection E as _ <-. by left.
Qed.

(** The other checks report at the entry itself. *)
Lemma at_type (entry : gostring → TypeDef → list Violation) m : (∀ id td v, v ∈ entry id td → Path v = typePath id) → apart entry m.
Proof. apply (apart_path typePath). apply typePath_inj. Qed.
Lemma at_auth (entry : gostring → AuthScheme → list Violation) m : (∀ id s v, v ∈ entry id s → Path v = authPath id) → apart entry m.
Proof. apply (apart_path authPath). apply authPath_inj. Qed.
Lemma type_id_apart m : apart (type_id Quote) m.
Proof. apply at_type. intros id td v. unfold type_id. destruct (IsNilTypeDef td); [by intros ?%elem_of_nil|apply elem_of_placed]. Qed.
Lemma prim_id_apart m : apart (prim_id Quote) m.
Proof.
  apply at_type. intros id td v. unfold prim_id. destruct (IsNilTypeDef td); [by intros ?%elem_of_nil|].
  destruct td; intros ->%elem_of_report_if; done.
Qed.
Lemma prim_kind_apart m : apart (prim_kind Quote) m.
Proof. apply at_type. intros id [] v; try by intros ?%elem_of_nil. by intros ->%elem_of_report_if. Qed.
Lemma auth_kind_apart m : apart (auth_kind Quote) m.
Proof. apply at_auth. intros id s v. by intros ->%elem_of_report_if. Qed.
Lemma unresolved_apart m : apart (unresolved_scheme Quote) m.
Proof.
  apply at_auth. intros id s v. unfold unresolved_scheme. intros [Hv|Hv]%elem_of_app; [|by apply elem_of_report_if in Hv as ->].
  destruct (IDSpace IDKindAuth id); [by apply elem_of_report_if in Hv as ->|by apply elem_of_nil in Hv].
Qed.
Lemma union_apart m : apart union_rules m.
Proof. apply at_type. intros id [] v; try by intros ?%elem_of_nil. by intros [Hv|Hv]%elem_of_app; apply elem_of_report_if in Hv as ->. Qed.
Lemma map_form_apart m : apart map_form m.
Proof. apply at_type. intros id [] v; try by intros ?%elem_of_nil. by intros ->%elem_of_report_if. Qed.

(** What is reported at one place is the same in any two orders. *)
Lemma registry_checks_order (R R' : Ranging) doc k :
  filter (λ v, at_path v = k) (@registry_checks Quote R doc) = filter (λ v, at_path v = k) (@registry_checks Quote R' doc).
Proof.
  unfold registry_checks, checkRegistryKeys, checkIDs, checkMemberIDs, checkPrimIDs, checkPrimKinds, checkAuthKinds, checkUnresolvedSchemes, checkOAuthScopes,
    checkUnions, checkMaps, checkMapKeys, checkRequires. rewrite !filter_app.
  repeat match goal with |- _ ++ _ = _ ++ _ => apply (f_equal2 app) end; try (apply ranged_determined); try reflexivity.
  - apply type_key_apart.
  - by apply registryKey_apart.
  - by apply registryKey_apart.
  - by apply registryKey_apart.
  - by apply registryKey_apart.
  - apply type_id_apart.
  - apply at_auth. intros id s v. apply elem_of_placed.
  - apply (apart_path serverPath); [apply serverPath_inj|]. intros id s v. apply elem_of_placed.
  - apply member_scopes_apart.
  - apply prim_id_apart.
  - apply prim_kind_apart.
  - apply auth_kind_apart.
  - apply unresolved_apart.
  - apply oauth_scopes_apart.
  - apply union_apart.
  - apply map_form_apart.
  - apply map_key_apart.
  - apply model_requires_apart.
Qed.
End Order.
