(* ===== verification/Reflect.v ===== *)
(** * Reflect: a document as reflection shows it

    The IR's types as [reflect.Type] lists them, and [reflect.ValueOf] a document:
    a value and the memory its pointers, slices and maps lead to, each given an
    address of its own in field order, so that no two references are shared. The
    model of the IR holds no nil slice or map apart from the empty one; both are
    nil here. *)
From S2P Require Import Prelude GoLib Decimal Constraints Value IR Findings Walk WalkAlone WalkTrace References.

(** ** The types *)

Definition ir_types : list (gostring * typeDesc) :=
  [(go "Document", StructKind [mkField (go "IRVersion") false (go "string"); mkField (go "IDSpaces") false
      (go "map[string][]string"); mkField (go "Name") false (go "string"); mkField (go "Version") false
      (go "string"); mkField (go "Docs") false (go "Docs"); mkField (go "Contact") false (go "*Contact"); mkField
      (go "License") false (go "*License"); mkField (go "TermsOfService") false (go "string"); mkField
      (go "Services") false (go "[]Service"); mkField (go "Types") false (go "TypeRegistry"); mkField
      (go "Channels") false (go "map[ChannelID]Channel"); mkField (go "Messages") false
      (go "map[MessageID]Message"); mkField (go "Auth") false (go "map[AuthID]AuthScheme"); mkField (go "Servers")
      false (go "map[ServerID]Server"); mkField (go "TagDefs") false (go "[]TagDef"); mkField (go "Versions") false
      (go "[]string"); mkField (go "Unmodeled") false (go "Unmodeled"); mkField (go "Diagnostics") false
      (go "[]Diagnostic"); mkField (go "Sources") false (go "[]SourceInfo")]);
   (go "string", StringKind false);
   (go "map[string][]string", MapKind (go "string") (go "[]string"));
   (go "[]string", ElemKind (go "string"));
   (go "Docs", StructKind [mkField (go "Summary") false (go "string"); mkField (go "Description") false
      (go "string"); mkField (go "Refs") false (go "[]DocRef"); mkField (go "ExternalDocs") false (go "[]Link")]);
   (go "[]DocRef", ElemKind (go "DocRef"));
   (go "DocRef", StructKind [mkField (go "StartByte") false (go "int"); mkField (go "EndByte") false (go "int");
      mkField (go "Type") false (go "TypeID")]);
   (go "int", OtherTypeKind);
   (go "TypeID", StringKind true);
   (go "[]Link", ElemKind (go "Link"));
   (go "Link", StructKind [mkField (go "URL") false (go "string"); mkField (go "Description") false (go "string")]);
   (go "*Contact", ElemKind (go "Contact"));
   (go "Contact", StructKind [mkField (go "Name") false (go "string"); mkField (go "URL") false (go "string");
      mkField (go "Email") false (go "string")]);
   (go "*License", ElemKind (go "License"));
   (go "License", StructKind [mkField (go "Name") false (go "string"); mkField (go "Identifier") false
      (go "string"); mkField (go "URL") false (go "string")]);
   (go "[]Service", ElemKind (go "Service"));
   (go "Service", StructKind [mkField (go "ID") false (go "ServiceID"); mkField (go "Name") false (go "Naming");
      mkField (go "Docs") false (go "Docs"); mkField (go "Version") false (go "string"); mkField (go "Namespace")
      false (go "[]string"); mkField (go "Extends") false (go "[]ServiceID"); mkField (go "Groups") false
      (go "[]OperationGroup"); mkField (go "Auth") false (go "[]AuthRequirement"); mkField (go "CommonErrors") false
      (go "[]ErrorCase"); mkField (go "Protocols") false (go "[]ProtocolDecl"); mkField (go "Renames") false
      (go "map[TypeID]Naming"); mkField (go "Servers") false (go "[]ServerID"); mkField (go "Unmodeled") false
      (go "Unmodeled"); mkField (go "Provenance") false (go "Provenance")]);
   (go "ServiceID", StringKind true);
   (go "Naming", StructKind [mkField (go "Source") false (go "string"); mkField (go "Canonical") false
      (go "string"); mkField (go "Hint") false (go "string"); mkField (go "Aliases") false (go "[]string")]);
   (go "[]ServiceID", ElemKind (go "ServiceID"));
   (go "[]OperationGroup", ElemKind (go "OperationGroup"));
   (go "OperationGroup", StructKind [mkField (go "ID") false (go "GroupID"); mkField (go "Name") false
      (go "Naming"); mkField (go "Docs") false (go "Docs"); mkField (go "Groups") false (go "[]OperationGroup");
      mkField (go "Operations") false (go "[]Operation"); mkField (go "Resource") false (go "*ResourceInfo");
      mkField (go "Availability") false (go "*Availability"); mkField (go "Stability") false (go "Stability");
      mkField (go "Unmodeled") false (go "Unmodeled")]);
   (go "GroupID", StringKind true);
   (go "[]Operation", ElemKind (go "Operation"));
   (go "Operation", StructKind [mkField (go "ID") false (go "OpID"); mkField (go "Name") false (go "Naming");
      mkField (go "Docs") false (go "Docs"); mkField (go "Deprecation") false (go "*Deprecation"); mkField
      (go "Availability") false (go "*Availability"); mkField (go "Stability") false (go "Stability"); mkField
      (go "Params") false (go "[]Parameter"); mkField (go "Request") false (go "*Payload"); mkField (go "Responses")
      false (go "[]Response"); mkField (go "Errors") false (go "[]ErrorCase"); mkField (go "Default") false
      (go "*Response"); mkField (go "OneWay") false (go "bool"); mkField (go "Streaming") false
      (go "StreamingMode"); mkField (go "RequestStream") false (go "*StreamDetail"); mkField (go "ResponseStream")
      false (go "*StreamDetail"); mkField (go "Pagination") false (go "*Pagination"); mkField (go "LongRunning")
      false (go "*LongRunning"); mkField (go "Idempotency") false (go "Idempotency"); mkField (go "Servers") false
      (go "[]ServerID"); mkField (go "Auth") false (go "[]AuthRequirement"); mkField (go "Tags") false
      (go "[]string"); mkField (go "ParameterVisibility") false (go "[]string"); mkField (go "ReturnTypeVisibility")
      false (go "[]string"); mkField (go "OverloadOf") false (go "*OpID"); mkField (go "Bindings") false
      (go "OpBindings"); mkField (go "Examples") false (go "[]Example"); mkField (go "Unmodeled") false
      (go "Unmodeled"); mkField (go "Provenance") false (go "Provenance")]);
   (go "OpID", StringKind true);
   (go "*Deprecation", ElemKind (go "Deprecation"));
   (go "Deprecation", StructKind [mkField (go "Message") false (go "string"); mkField (go "Since") false
      (go "string"); mkField (go "RemovalVersion") false (go "string"); mkField (go "RemovalDate") false
      (go "string")]);
   (go "*Availability", ElemKind (go "Availability"));
   (go "Availability", StructKind [mkField (go "Added") false (go "[]string"); mkField (go "Removed") false
      (go "[]string"); mkField (go "Deprecated") false (go "string"); mkField (go "RenamedFrom") false
      (go "[]VersionedName"); mkField (go "TypeChangedFrom") false (go "[]VersionedType"); mkField
      (go "RequiredChanged") false (go "[]VersionedBool")]);
   (go "[]VersionedName", ElemKind (go "VersionedName"));
   (go "VersionedName", StructKind [mkField (go "Version") false (go "string"); mkField (go "Name") false
      (go "string")]);
   (go "[]VersionedType", ElemKind (go "VersionedType"));
   (go "VersionedType", StructKind [mkField (go "Version") false (go "string"); mkField (go "Type") false
      (go "TypeRef")]);
   (go "TypeRef", StructKind [mkField (go "Target") false (go "TypeID"); mkField (go "Nullable") false (go "bool");
      mkField (go "Inferred") false (go "Inferred")]);
   (go "bool", OtherTypeKind);
   (go "Inferred", StringKind true);
   (go "[]VersionedBool", ElemKind (go "VersionedBool"));
   (go "VersionedBool", StructKind [mkField (go "Version") false (go "string"); mkField (go "WasRequired") false
      (go "bool")]);
   (go "Stability", StringKind true);
   (go "[]Parameter", ElemKind (go "Parameter"));
   (go "Parameter", StructKind [mkField (go "ID") false (go "ParamID"); mkField (go "Name") false (go "Naming");
      mkField (go "Type") false (go "TypeRef"); mkField (go "Required") false (go "bool"); mkField (go "Default")
      false (go "*Value"); mkField (go "Constraints") false (go "*Constraints"); mkField (go "ValueFrom") false
      (go "*PropPath"); mkField (go "Docs") false (go "Docs"); mkField (go "Deprecation") false (go "*Deprecation");
      mkField (go "Availability") false (go "*Availability"); mkField (go "Secret") false (go "bool"); mkField
      (go "Examples") false (go "[]Example"); mkField (go "Unmodeled") false (go "Unmodeled"); mkField
      (go "Provenance") false (go "Provenance")]);
   (go "ParamID", StringKind true);
   (go "*Value", ElemKind (go "Value"));
   (go "Value", StructKind [mkField (go "Kind") false (go "ValueKind"); mkField (go "Bool") false (go "bool");
      mkField (go "Str") false (go "string"); mkField (go "Num") false (go "BigVal"); mkField (go "Bytes") false
      (go "[]uint8"); mkField (go "List") false (go "[]Value"); mkField (go "Object") false (go "[]Field"); mkField
      (go "Ref") false (go "*ValueRef"); mkField (go "Ctor") false (go "*CtorValue")]);
   (go "ValueKind", StringKind true);
   (go "BigVal", StringKind true);
   (go "[]uint8", ElemKind (go "uint8"));
   (go "uint8", OtherTypeKind);
   (go "[]Value", ElemKind (go "Value"));
   (go "[]Field", ElemKind (go "Field"));
   (go "Field", StructKind [mkField (go "Name") false (go "string"); mkField (go "Value") false (go "Value")]);
   (go "*ValueRef", ElemKind (go "ValueRef"));
   (go "ValueRef", StructKind [mkField (go "Type") false (go "TypeID"); mkField (go "Member") false (go "string")]);
   (go "*CtorValue", ElemKind (go "CtorValue"));
   (go "CtorValue", StructKind [mkField (go "Scalar") false (go "TypeID"); mkField (go "Name") false (go "string");
      mkField (go "Args") false (go "[]Value")]);
   (go "*Constraints", ElemKind (go "Constraints"));
   (go "Constraints", StructKind [mkField (go "Min") false (go "*BigVal"); mkField (go "Max") false (go "*BigVal");
      mkField (go "ExclusiveMin") false (go "*BigVal"); mkField (go "ExclusiveMax") false (go "*BigVal"); mkField
      (go "MultipleOf") false (go "*BigVal"); mkField (go "Precision") false (go "*int64"); mkField (go "Scale")
      false (go "*int64"); mkField (go "MinLength") false (go "*int64"); mkField (go "MaxLength") false
      (go "*int64"); mkField (go "Pattern") false (go "string"); mkField (go "PatternMessage") false (go "string");
      mkField (go "MinItems") false (go "*int64"); mkField (go "MaxItems") false (go "*int64"); mkField
      (go "UniqueItems") false (go "bool"); mkField (go "MinProps") false (go "*int64"); mkField (go "MaxProps")
      false (go "*int64")]);
   (go "*BigVal", ElemKind (go "BigVal"));
   (go "*int64", ElemKind (go "int64"));
   (go "int64", OtherTypeKind);
   (go "*PropPath", ElemKind (go "PropPath"));
   (go "PropPath", StructKind [mkField (go "Root") false (go "*TypeRef"); mkField (go "In") false (go "string");
      mkField (go "Segments") false (go "[]PropID")]);
   (go "*TypeRef", ElemKind (go "TypeRef"));
   (go "[]PropID", ElemKind (go "PropID"));
   (go "PropID", StringKind true);
   (go "[]Example", ElemKind (go "Example"));
   (go "Example", StructKind [mkField (go "Name") false (go "string"); mkField (go "Summary") false (go "string");
      mkField (go "Description") false (go "string"); mkField (go "Value") false (go "*Value"); mkField
      (go "Headers") false (go "*Value"); mkField (go "Input") false (go "*Value"); mkField (go "Output") false
      (go "*Value"); mkField (go "Error") false (go "*ErrorExample"); mkField (go "ExternalURL") false
      (go "string"); mkField (go "Unmodeled") false (go "Unmodeled")]);
   (go "*ErrorExample", ElemKind (go "ErrorExample"));
   (go "ErrorExample", StructKind [mkField (go "Type") false (go "TypeRef"); mkField (go "Content") false
      (go "Value")]);
   (go "Unmodeled", MapKind (go "string") (go "UnmodeledEntry"));
   (go "UnmodeledEntry", StructKind [mkField (go "Reason") false (go "UnmodeledReason"); mkField (go "Value") false
      (go "jsontext.Value"); mkField (go "Provenance") false (go "Provenance")]);
   (go "UnmodeledReason", StringKind true);
   (go "jsontext.Value", ElemKind (go "uint8"));
   (go "Provenance", StructKind [mkField (go "Source") false (go "int"); mkField (go "Pointer") false
      (go "jsontext.Pointer"); mkField (go "Position") false (go "Position"); mkField (go "Node") false
      (go "string"); mkField (go "Inferred") false (go "Inferred")]);
   (go "jsontext.Pointer", StringKind true);
   (go "Position", StructKind [mkField (go "Line") false (go "int"); mkField (go "Column") false (go "int")]);
   (go "*Payload", ElemKind (go "Payload"));
   (go "Payload", StructKind [mkField (go "Contents") false (go "[]Content"); mkField (go "Required") false
      (go "*bool"); mkField (go "Docs") false (go "Docs"); mkField (go "Unmodeled") false (go "Unmodeled")]);
   (go "[]Content", ElemKind (go "Content"));
   (go "Content", StructKind [mkField (go "MediaType") false (go "string"); mkField (go "SchemaFormat") false
      (go "string"); mkField (go "Type") false (go "TypeRef"); mkField (go "Item") false (go "*TypeRef"); mkField
      (go "ItemEncoding") false (go "*PartEncoding"); mkField (go "Encoding") false (go "map[PropID]PartEncoding");
      mkField (go "File") false (go "*FileInfo"); mkField (go "Examples") false (go "[]Example"); mkField
      (go "Docs") false (go "Docs"); mkField (go "Unmodeled") false (go "Unmodeled")]);
   (go "*PartEncoding", ElemKind (go "PartEncoding"));
   (go "PartEncoding", StructKind [mkField (go "Explode") false (go "*bool"); mkField (go "Style") false
      (go "string"); mkField (go "Inferred") false (go "Inferred"); mkField (go "ContentTypes") false
      (go "[]string"); mkField (go "Headers") false (go "[]Header"); mkField (go "Multi") false (go "bool"); mkField
      (go "Filename") false (go "bool"); mkField (go "AllowReserved") false (go "bool")]);
   (go "*bool", ElemKind (go "bool"));
   (go "[]Header", ElemKind (go "Header"));
   (go "Header", StructKind [mkField (go "Property") true (go "Property"); mkField (go "Style") false (go "string");
      mkField (go "Explode") false (go "*bool")]);
   (go "Property", StructKind [mkField (go "ID") false (go "PropID"); mkField (go "Name") false (go "Naming");
      mkField (go "WireName") false (go "string"); mkField (go "WireNameByFormat") false (go "map[string]string");
      mkField (go "WireID") false (go "*int"); mkField (go "ExtensionOf") false (go "string"); mkField (go "Type")
      false (go "TypeRef"); mkField (go "Required") false (go "bool"); mkField (go "Presence") false
      (go "PresenceKind"); mkField (go "ClientOptional") false (go "bool"); mkField (go "DefaultAdded") false
      (go "bool"); mkField (go "Visibility") false (go "Visibility"); mkField (go "Default") false (go "*Value");
      mkField (go "Constraints") false (go "*Constraints"); mkField (go "Encoding") false (go "*Encoding"); mkField
      (go "Args") false (go "[]Parameter"); mkField (go "Flatten") false (go "bool"); mkField (go "EventHeader")
      false (go "bool"); mkField (go "EventPayload") false (go "bool"); mkField (go "Secret") false (go "bool");
      mkField (go "XML") false (go "*XMLHints"); mkField (go "Examples") false (go "[]Example"); mkField (go "Docs")
      false (go "Docs"); mkField (go "Deprecation") false (go "*Deprecation"); mkField (go "Availability") false
      (go "*Availability"); mkField (go "Unmodeled") false (go "Unmodeled"); mkField (go "Provenance") false
      (go "Provenance")]);
   (go "map[string]string", MapKind (go "string") (go "string"));
   (go "*int", ElemKind (go "int"));
   (go "PresenceKind", StringKind true);
   (go "Visibility", StructKind [mkField (go "Only") false (go "[]string"); mkField (go "None") false (go "bool")]);
   (go "*Encoding", ElemKind (go "Encoding"));
   (go "Encoding", StructKind [mkField (go "Name") false (go "string"); mkField (go "WireType") false
      (go "*TypeRef"); mkField (go "MediaType") false (go "string"); mkField (go "Schema") false (go "*TypeRef")]);
   (go "*XMLHints", ElemKind (go "XMLHints"));
   (go "XMLHints", StructKind [mkField (go "Name") false (go "string"); mkField (go "Namespace") false
      (go "string"); mkField (go "Prefix") false (go "string"); mkField (go "NodeType") false (go "string"); mkField
      (go "Wrapped") false (go "bool")]);
   (go "map[PropID]PartEncoding", MapKind (go "PropID") (go "PartEncoding"));
   (go "*FileInfo", ElemKind (go "FileInfo"));
   (go "FileInfo", StructKind [mkField (go "IsText") false (go "bool"); mkField (go "Contents") false
      (go "*TypeRef"); mkField (go "ContentTypes") false (go "[]string"); mkField (go "ContentTypeDefault") false
      (go "string"); mkField (go "FilenameLocation") false (go "string"); mkField (go "FilenameWireName") false
      (go "string"); mkField (go "Inferred") false (go "Inferred")]);
   (go "[]Response", ElemKind (go "Response"));
   (go "Response", StructKind [mkField (go "Name") false (go "Naming"); mkField (go "Conditions") false
      (go "ResponseConditions"); mkField (go "Payload") false (go "*Payload"); mkField (go "Headers") false
      (go "[]Header"); mkField (go "StatusCodeProp") false (go "*PropPath"); mkField (go "Docs") false (go "Docs");
      mkField (go "Unmodeled") false (go "Unmodeled")]);
   (go "ResponseConditions", StructKind [mkField (go "StatusCodes") false (go "[]StatusRange")]);
   (go "[]StatusRange", ElemKind (go "StatusRange"));
   (go "StatusRange", StructKind [mkField (go "From") false (go "int"); mkField (go "To") false (go "int")]);
   (go "[]ErrorCase", ElemKind (go "ErrorCase"));
   (go "ErrorCase", StructKind [mkField (go "Name") false (go "Naming"); mkField (go "Conditions") false
      (go "ResponseConditions"); mkField (go "Payload") false (go "*Payload"); mkField (go "Headers") false
      (go "[]Header"); mkField (go "Fault") false (go "string"); mkField (go "Retryable") false (go "*bool");
      mkField (go "Throttling") false (go "*bool"); mkField (go "Docs") false (go "Docs"); mkField (go "Unmodeled")
      false (go "Unmodeled"); mkField (go "Inferred") false (go "Inferred")]);
   (go "*Response", ElemKind (go "Response"));
   (go "StreamingMode", StringKind true);
   (go "*StreamDetail", ElemKind (go "StreamDetail"));
   (go "StreamDetail", StructKind [mkField (go "Events") false (go "*TypeRef"); mkField (go "Initial") false
      (go "*TypeRef"); mkField (go "RequiresLength") false (go "bool")]);
   (go "*Pagination", ElemKind (go "Pagination"));
   (go "Pagination", StructKind [mkField (go "Strategy") false (go "PageStrategy"); mkField (go "Inferred") false
      (go "bool"); mkField (go "InputCursor") false (go "*ParamPath"); mkField (go "InputLimit") false
      (go "*ParamPath"); mkField (go "Items") false (go "*PropPath"); mkField (go "NextCursor") false
      (go "*PropPath"); mkField (go "NextLink") false (go "*PropPath"); mkField (go "PrevLink") false
      (go "*PropPath"); mkField (go "FirstLink") false (go "*PropPath"); mkField (go "LastLink") false
      (go "*PropPath"); mkField (go "TotalCount") false (go "*PropPath")]);
   (go "PageStrategy", StringKind true);
   (go "*ParamPath", ElemKind (go "ParamPath"));
   (go "ParamPath", StructKind [mkField (go "Param") false (go "ParamID"); mkField (go "Segments") false
      (go "[]PropID")]);
   (go "*LongRunning", ElemKind (go "LongRunning"));
   (go "LongRunning", StructKind [mkField (go "FinalStateVia") false (go "string"); mkField (go "PollingOperation")
      false (go "*OpID"); mkField (go "FinalOperation") false (go "*OpID"); mkField (go "PollingType") false
      (go "*TypeRef"); mkField (go "FinalType") false (go "*TypeRef"); mkField (go "ResultPath") false
      (go "*PropPath")]);
   (go "*OpID", ElemKind (go "OpID"));
   (go "Idempotency", StructKind [mkField (go "Kind") false (go "IdempotencyKind"); mkField (go "TokenParam") false
      (go "ParamID")]);
   (go "IdempotencyKind", StringKind true);
   (go "[]ServerID", ElemKind (go "ServerID"));
   (go "ServerID", StringKind true);
   (go "[]AuthRequirement", ElemKind (go "AuthRequirement"));
   (go "AuthRequirement", StructKind [mkField (go "Schemes") false (go "[]SchemeUse")]);
   (go "[]SchemeUse", ElemKind (go "SchemeUse"));
   (go "SchemeUse", StructKind [mkField (go "Scheme") false (go "AuthID"); mkField (go "Scopes") false
      (go "[]string")]);
   (go "AuthID", StringKind true);
   (go "OpBindings", StructKind [mkField (go "HTTP") false (go "[]HTTPBinding"); mkField (go "RPC") false
      (go "*RPCBinding"); mkField (go "Message") false (go "*MessageBinding"); mkField (go "GraphQL") false
      (go "*GraphQLBinding"); mkField (go "OTP") false (go "*OTPBinding")]);
   (go "[]HTTPBinding", ElemKind (go "HTTPBinding"));
   (go "HTTPBinding", StructKind [mkField (go "ResponseBodyPath") false (go "*PropPath"); mkField
      (go "SuccessStatus") false (go "map[int]int"); mkField (go "Compression") false (go "*RequestCompression");
      mkField (go "PatchImplicitOptionality") false (go "*bool"); mkField (go "Unmodeled") false (go "Unmodeled");
      mkField (go "Method") false (go "string"); mkField (go "URITemplate") false (go "string"); mkField
      (go "HostPrefix") false (go "string"); mkField (go "WebhookName") false (go "string"); mkField
      (go "ParamBindings") false (go "[]HTTPParamBinding"); mkField (go "RequestContentTypes") false
      (go "[]string"); mkField (go "Callbacks") false (go "[]Callback"); mkField (go "SharedRoute") false
      (go "bool"); mkField (go "ChecksumRequired") false (go "bool"); mkField (go "IsWebhook") false (go "bool")]);
   (go "map[int]int", MapKind (go "int") (go "int"));
   (go "*RequestCompression", ElemKind (go "RequestCompression"));
   (go "RequestCompression", StructKind [mkField (go "Encodings") false (go "[]string")]);
   (go "[]HTTPParamBinding", ElemKind (go "HTTPParamBinding"));
   (go "HTTPParamBinding", StructKind [mkField (go "Param") false (go "ParamID"); mkField (go "ParamPath") false
      (go "[]PropID"); mkField (go "Location") false (go "HTTPLocation"); mkField (go "WireName") false
      (go "string"); mkField (go "Style") false (go "string"); mkField (go "Explode") false (go "*bool"); mkField
      (go "AllowReserved") false (go "bool"); mkField (go "AllowEmptyValue") false (go "bool"); mkField
      (go "PathPattern") false (go "string"); mkField (go "Prefix") false (go "string"); mkField (go "ContentType")
      false (go "string"); mkField (go "BodyPath") false (go "[]PropID")]);
   (go "HTTPLocation", StringKind true);
   (go "[]Callback", ElemKind (go "Callback"));
   (go "Callback", StructKind [mkField (go "Expression") false (go "string"); mkField (go "Operations") false
      (go "[]OpID")]);
   (go "[]OpID", ElemKind (go "OpID"));
   (go "*RPCBinding", ElemKind (go "RPCBinding"));
   (go "RPCBinding", StructKind [mkField (go "System") false (go "string"); mkField (go "FullMethod") false
      (go "string"); mkField (go "InputType") false (go "*TypeRef"); mkField (go "ParamStructure") false
      (go "string"); mkField (go "IdempotencyLevel") false (go "string"); mkField (go "Unmodeled") false
      (go "Unmodeled")]);
   (go "*MessageBinding", ElemKind (go "MessageBinding"));
   (go "MessageBinding", StructKind [mkField (go "Channel") false (go "ChannelID"); mkField (go "Direction") false
      (go "MsgDirection"); mkField (go "Messages") false (go "[]MessageID"); mkField (go "Reply") false
      (go "*Reply"); mkField (go "Bindings") false (go "map[string]RawConfig"); mkField (go "Unmodeled") false
      (go "Unmodeled")]);
   (go "ChannelID", StringKind true);
   (go "MsgDirection", StringKind true);
   (go "[]MessageID", ElemKind (go "MessageID"));
   (go "MessageID", StringKind true);
   (go "*Reply", ElemKind (go "Reply"));
   (go "Reply", StructKind [mkField (go "Channel") false (go "*ChannelID"); mkField (go "Address") false
      (go "*PropPath"); mkField (go "Messages") false (go "[]MessageID"); mkField (go "Docs") false (go "Docs")]);
   (go "*ChannelID", ElemKind (go "ChannelID"));
   (go "map[string]RawConfig", MapKind (go "string") (go "RawConfig"));
   (go "RawConfig", MapKind (go "string") (go "jsontext.Value"));
   (go "*GraphQLBinding", ElemKind (go "GraphQLBinding"));
   (go "GraphQLBinding", StructKind [mkField (go "Kind") false (go "string"); mkField (go "FieldPath") false
      (go "[]string"); mkField (go "Unmodeled") false (go "Unmodeled")]);
   (go "*OTPBinding", ElemKind (go "OTPBinding"));
   (go "OTPBinding", StructKind [mkField (go "Behaviour") false (go "string"); mkField (go "Kind") false
      (go "string"); mkField (go "Process") false (go "ChannelID"); mkField (go "RequestTag") false (go "*Value");
      mkField (go "Unmodeled") false (go "Unmodeled")]);
   (go "*ResourceInfo", ElemKind (go "ResourceInfo"));
   (go "ResourceInfo", StructKind [mkField (go "Identifiers") false (go "[]Property"); mkField (go "Properties")
      false (go "[]Property"); mkField (go "Lifecycle") false (go "map[string]OpID"); mkField (go "NoReplace") false
      (go "bool"); mkField (go "InstanceOps") false (go "[]OpID"); mkField (go "CollectionOps") false
      (go "[]OpID")]);
   (go "[]Property", ElemKind (go "Property"));
   (go "map[string]OpID", MapKind (go "string") (go "OpID"));
   (go "[]ProtocolDecl", ElemKind (go "ProtocolDecl"));
   (go "ProtocolDecl", StructKind [mkField (go "Name") false (go "string"); mkField (go "Options") false
      (go "RawConfig")]);
   (go "map[TypeID]Naming", MapKind (go "TypeID") (go "Naming"));
   (go "TypeRegistry", MapKind (go "TypeID") (go "TypeDef"));
   (go "TypeDef", OtherTypeKind);
   (go "map[ChannelID]Channel", MapKind (go "ChannelID") (go "Channel"));
   (go "Channel", StructKind [mkField (go "ID") false (go "ChannelID"); mkField (go "Name") false (go "Naming");
      mkField (go "Address") false (go "*string"); mkField (go "Docs") false (go "Docs"); mkField (go "Tags") false
      (go "[]string"); mkField (go "Params") false (go "[]Parameter"); mkField (go "Messages") false
      (go "[]MessageID"); mkField (go "Servers") false (go "[]ServerID"); mkField (go "Bindings") false
      (go "map[string]RawConfig"); mkField (go "Unmodeled") false (go "Unmodeled"); mkField (go "Provenance") false
      (go "Provenance")]);
   (go "*string", ElemKind (go "string"));
   (go "map[MessageID]Message", MapKind (go "MessageID") (go "Message"));
   (go "Message", StructKind [mkField (go "ID") false (go "MessageID"); mkField (go "Name") false (go "Naming");
      mkField (go "Payload") false (go "Payload"); mkField (go "Headers") false (go "*TypeRef"); mkField
      (go "CorrelationID") false (go "*PropPath"); mkField (go "ContentType") false (go "string"); mkField
      (go "Tags") false (go "[]string"); mkField (go "Docs") false (go "Docs"); mkField (go "Deprecation") false
      (go "*Deprecation"); mkField (go "Examples") false (go "[]Example"); mkField (go "Bindings") false
      (go "map[string]RawConfig"); mkField (go "Unmodeled") false (go "Unmodeled"); mkField (go "Provenance") false
      (go "Provenance")]);
   (go "map[AuthID]AuthScheme", MapKind (go "AuthID") (go "AuthScheme"));
   (go "AuthScheme", StructKind [mkField (go "ID") false (go "AuthID"); mkField (go "Name") false (go "Naming");
      mkField (go "Kind") false (go "AuthKind"); mkField (go "Docs") false (go "Docs"); mkField (go "Deprecation")
      false (go "*Deprecation"); mkField (go "In") false (go "string"); mkField (go "KeyName") false (go "string");
      mkField (go "Scheme") false (go "string"); mkField (go "BearerFormat") false (go "string"); mkField
      (go "Flows") false (go "[]OAuthFlow"); mkField (go "OAuth2MetadataURL") false (go "string"); mkField
      (go "OpenIDConnectURL") false (go "string"); mkField (go "Credentials") false (go "*TypeRef"); mkField
      (go "Unmodeled") false (go "Unmodeled"); mkField (go "Provenance") false (go "Provenance")]);
   (go "AuthKind", StringKind true);
   (go "[]OAuthFlow", ElemKind (go "OAuthFlow"));
   (go "OAuthFlow", StructKind [mkField (go "Kind") false (go "string"); mkField (go "AuthorizationURL") false
      (go "string"); mkField (go "TokenURL") false (go "string"); mkField (go "RefreshURL") false (go "string");
      mkField (go "Scopes") false (go "[]OAuthScope"); mkField (go "TokenEndpointAuthMethods") false
      (go "[]string"); mkField (go "Unmodeled") false (go "Unmodeled"); mkField (go "Inferred") false
      (go "Inferred")]);
   (go "[]OAuthScope", ElemKind (go "OAuthScope"));
   (go "OAuthScope", StructKind [mkField (go "Name") false (go "string"); mkField (go "Description") false
      (go "string")]);
   (go "map[ServerID]Server", MapKind (go "ServerID") (go "Server"));
   (go "Server", StructKind [mkField (go "ID") false (go "ServerID"); mkField (go "Name") false (go "Naming");
      mkField (go "URLTemplate") false (go "string"); mkField (go "Description") false (go "Docs"); mkField
      (go "Variables") false (go "[]ServerVariable"); mkField (go "Protocol") false (go "string"); mkField
      (go "ProtocolVersion") false (go "string"); mkField (go "Tags") false (go "[]string"); mkField (go "Auth")
      false (go "[]AuthRequirement"); mkField (go "Bindings") false (go "map[string]RawConfig"); mkField
      (go "Unmodeled") false (go "Unmodeled"); mkField (go "Provenance") false (go "Provenance")]);
   (go "[]ServerVariable", ElemKind (go "ServerVariable"));
   (go "ServerVariable", StructKind [mkField (go "Name") false (go "string"); mkField (go "Default") false
      (go "string"); mkField (go "Enum") false (go "[]string"); mkField (go "Docs") false (go "Docs"); mkField
      (go "Unmodeled") false (go "Unmodeled")]);
   (go "[]TagDef", ElemKind (go "TagDef"));
   (go "TagDef", StructKind [mkField (go "Name") false (go "string"); mkField (go "Docs") false (go "Docs"); mkField
      (go "Parent") false (go "string"); mkField (go "Kind") false (go "string")]);
   (go "[]Diagnostic", ElemKind (go "Diagnostic"));
   (go "Diagnostic", StructKind [mkField (go "Severity") false (go "Severity"); mkField (go "Code") false
      (go "string"); mkField (go "Message") false (go "string"); mkField (go "Provenance") false (go "Provenance")]);
   (go "Severity", StringKind true);
   (go "[]SourceInfo", ElemKind (go "SourceInfo"));
   (go "SourceInfo", StructKind [mkField (go "Format") false (go "string"); mkField (go "Path") false (go "string");
      mkField (go "Hash") false (go "string"); mkField (go "SelfURI") false (go "string")]);
   (go "*Document", ElemKind (go "Document"));
   (go "*Primitive", ElemKind (go "Primitive"));
   (go "Primitive", StructKind [mkField (go "TypeCommon") true (go "TypeCommon"); mkField (go "Prim") false
      (go "PrimKind")]);
   (go "TypeCommon", StructKind [mkField (go "ID") false (go "TypeID"); mkField (go "Name") false (go "Naming");
      mkField (go "Namespace") false (go "[]string"); mkField (go "Anonymous") false (go "bool"); mkField
      (go "Docs") false (go "Docs"); mkField (go "Tags") false (go "[]string"); mkField (go "Sensitive") false
      (go "bool"); mkField (go "Access") false (go "string"); mkField (go "Deprecation") false (go "*Deprecation");
      mkField (go "Availability") false (go "*Availability"); mkField (go "WireNameByFormat") false
      (go "map[string]string"); mkField (go "MediaTypeHint") false (go "string"); mkField (go "XML") false
      (go "*XMLHints"); mkField (go "Examples") false (go "[]Example"); mkField (go "Instantiation") false
      (go "*TemplateInstantiation"); mkField (go "Unmodeled") false (go "Unmodeled"); mkField (go "Provenance")
      false (go "Provenance")]);
   (go "*TemplateInstantiation", ElemKind (go "TemplateInstantiation"));
   (go "TemplateInstantiation", StructKind [mkField (go "Template") false (go "string"); mkField (go "Args") false
      (go "[]TemplateArg")]);
   (go "[]TemplateArg", ElemKind (go "TemplateArg"));
   (go "TemplateArg", StructKind [mkField (go "Type") false (go "*TypeRef"); mkField (go "Value") false
      (go "*Value")]);
   (go "PrimKind", StringKind true);
   (go "*Scalar", ElemKind (go "Scalar"));
   (go "Scalar", StructKind [mkField (go "TypeCommon") true (go "TypeCommon"); mkField (go "Base") false
      (go "*TypeRef"); mkField (go "Constraints") false (go "*Constraints"); mkField (go "Encoding") false
      (go "*Encoding")]);
   (go "*Model", ElemKind (go "Model"));
   (go "Model", StructKind [mkField (go "TypeCommon") true (go "TypeCommon"); mkField (go "Properties") false
      (go "[]Property"); mkField (go "Requires") false (go "[]string"); mkField (go "Base") false (go "*TypeRef");
      mkField (go "Implements") false (go "[]TypeRef"); mkField (go "Mixins") false (go "[]TypeRef"); mkField
      (go "AdditionalProps") false (go "*AdditionalProps"); mkField (go "Additional") false (go "AdditionalMode");
      mkField (go "Constraints") false (go "*Constraints"); mkField (go "Abstract") false (go "bool"); mkField
      (go "Positional") false (go "bool"); mkField (go "ExtensionRanges") false (go "[]WireIDRange"); mkField
      (go "Discriminator") false (go "*Discriminator"); mkField (go "DiscriminatorValue") false (go "string");
      mkField (go "InputOnly") false (go "bool")]);
   (go "[]TypeRef", ElemKind (go "TypeRef"));
   (go "*AdditionalProps", ElemKind (go "AdditionalProps"));
   (go "AdditionalProps", StructKind [mkField (go "Value") false (go "TypeRef"); mkField (go "Key") false
      (go "*TypeRef"); mkField (go "Patterns") false (go "[]PatternProps")]);
   (go "[]PatternProps", ElemKind (go "PatternProps"));
   (go "PatternProps", StructKind [mkField (go "Pattern") false (go "string"); mkField (go "Value") false
      (go "TypeRef")]);
   (go "AdditionalMode", StringKind true);
   (go "[]WireIDRange", ElemKind (go "WireIDRange"));
   (go "WireIDRange", StructKind [mkField (go "From") false (go "int"); mkField (go "To") false (go "int")]);
   (go "*Discriminator", ElemKind (go "Discriminator"));
   (go "Discriminator", StructKind [mkField (go "Property") false (go "PropID"); mkField (go "PropertyName") false
      (go "string"); mkField (go "Index") false (go "*int"); mkField (go "Mapping") false (go "map[string]TypeID");
      mkField (go "Default") false (go "TypeID"); mkField (go "Envelope") false (go "string"); mkField
      (go "EnvelopeValueName") false (go "string"); mkField (go "Inferred") false (go "bool")]);
   (go "map[string]TypeID", MapKind (go "string") (go "TypeID"));
   (go "*Union", ElemKind (go "Union"));
   (go "Union", StructKind [mkField (go "TypeCommon") true (go "TypeCommon"); mkField (go "Variants") false
      (go "[]Variant"); mkField (go "Exclusive") false (go "bool"); mkField (go "WireTagged") false (go "bool");
      mkField (go "Discriminator") false (go "*Discriminator")]);
   (go "[]Variant", ElemKind (go "Variant"));
   (go "Variant", StructKind [mkField (go "Name") false (go "Naming"); mkField (go "Type") false (go "TypeRef");
      mkField (go "WireName") false (go "string"); mkField (go "WireID") false (go "*int"); mkField (go "XML") false
      (go "*XMLHints"); mkField (go "Event") false (go "*EventInfo"); mkField (go "Docs") false (go "Docs"); mkField
      (go "Deprecation") false (go "*Deprecation"); mkField (go "Availability") false (go "*Availability"); mkField
      (go "Examples") false (go "[]Example"); mkField (go "Unmodeled") false (go "Unmodeled")]);
   (go "*EventInfo", ElemKind (go "EventInfo"));
   (go "EventInfo", StructKind [mkField (go "ContentType") false (go "string"); mkField (go "Terminal") false
      (go "bool")]);
   (go "*Enum", ElemKind (go "Enum"));
   (go "Enum", StructKind [mkField (go "TypeCommon") true (go "TypeCommon"); mkField (go "ValueType") false
      (go "PrimKind"); mkField (go "Members") false (go "[]EnumMember"); mkField (go "Closed") false (go "bool");
      mkField (go "Flags") false (go "bool"); mkField (go "FallbackMember") false (go "string")]);
   (go "[]EnumMember", ElemKind (go "EnumMember"));
   (go "EnumMember", StructKind [mkField (go "ID") false (go "EnumMemberID"); mkField (go "Name") false
      (go "Naming"); mkField (go "Value") false (go "Value"); mkField (go "WireName") false (go "string"); mkField
      (go "Docs") false (go "Docs"); mkField (go "Deprecation") false (go "*Deprecation"); mkField
      (go "Availability") false (go "*Availability"); mkField (go "Examples") false (go "[]Example"); mkField
      (go "Unmodeled") false (go "Unmodeled")]);
   (go "EnumMemberID", StringKind true);
   (go "*List", ElemKind (go "List"));
   (go "List", StructKind [mkField (go "TypeCommon") true (go "TypeCommon"); mkField (go "Elem") false
      (go "TypeRef"); mkField (go "Constraints") false (go "*Constraints"); mkField (go "Encoding") false
      (go "*Encoding")]);
   (go "*MapT", ElemKind (go "MapT"));
   (go "MapT", StructKind [mkField (go "TypeCommon") true (go "TypeCommon"); mkField (go "Key") false
      (go "*TypeRef"); mkField (go "Value") false (go "TypeRef"); mkField (go "Constraints") false
      (go "*Constraints")]);
   (go "*Tuple", ElemKind (go "Tuple"));
   (go "Tuple", StructKind [mkField (go "TypeCommon") true (go "TypeCommon"); mkField (go "Elems") false
      (go "[]TypeRef"); mkField (go "Rest") false (go "*TypeRef"); mkField (go "Constraints") false
      (go "*Constraints")]);
   (go "*Literal", ElemKind (go "Literal"));
   (go "Literal", StructKind [mkField (go "TypeCommon") true (go "TypeCommon"); mkField (go "Value") false
      (go "Value")]);
   (go "*External", ElemKind (go "External"));
   (go "External", StructKind [mkField (go "TypeCommon") true (go "TypeCommon"); mkField (go "Identity") false
      (go "string"); mkField (go "Package") false (go "string"); mkField (go "MinVersion") false (go "string")]);
   (go "*Any", ElemKind (go "Any"));
   (go "Any", StructKind [mkField (go "TypeCommon") true (go "TypeCommon")])].

Definition ir_table : gmap gostring typeDesc := list_to_map ir_types.
Definition ir_desc (t : rtype) : typeDesc := default OtherTypeKind (ir_table !! t).

(** [idClassRoots]: a document, and one of each concrete type. *)
Definition idClassRoots : list rtype :=
  go "Document" :: [go "*Primitive"; go "*Scalar"; go "*Model"; go "*Union"; go "*Enum"; go "*List"; go "*MapT"; go "*Tuple"; go "*Literal"; go "*External"; go "*Any"].
Definition idClasses : gset gostring := idClassesOf ir_desc ir_types.*1 idClassRoots.

(** ** Values *)

(** What has an address so far. *)
Record heap := mkHeap { next : nat; objects : gmap nat goval; arrays : gmap nat (list goval); tables : gmap nat (list (goval * goval)) }.
Definition emptyHeap : heap := mkHeap 1 ∅ ∅ ∅.
Definition M (A : Type) : Type := heap → A * heap.
Definition ret {A} (a : A) : M A := λ h, (a, h).
Definition in_order {A} : list (M A) → M (list A) :=
  fix each ms := match ms with
    | [] => ret []
    | m :: ms => λ h, let '(a, h) := m h in let '(l, h) := each ms h in (a :: l, h)
    end.

Definition as_text (t s : gostring) : M goval := ret (Text t s).
Definition as_bool (t : gostring) (b : bool) : M goval := ret (Boolean t b).
Definition as_int (t : gostring) (z : Z) : M goval := ret (Integer t z).
Definition as_struct (t : gostring) (fs : list (M goval)) : M goval := λ h, let '(vs, h) := in_order fs h in (Struct t vs, h).
Definition as_interface (t : gostring) (m : M goval) : M goval := λ h, let '(v, h) := m h in (Interface t (Some v), h).
Definition as_pointer {A} (t : gostring) (f : A → M goval) (o : option A) : M goval :=
  match o with
  | None => ret (Pointer t None)
  | Some a => λ h, let '(v, h) := f a h in (Pointer t (Some (next h)), mkHeap (S (next h)) (<[next h := v]> (objects h)) (arrays h) (tables h))
  end.
Definition as_array (t : gostring) (byte : bool) (ms : list (M goval)) : M goval :=
  match ms with
  | [] => ret (Slice t byte 0 0)
  | _ => λ h, let '(vs, h) := in_order ms h in
      (Slice t byte (next h) (length vs), mkHeap (S (next h)) (objects h) (<[next h := vs]> (arrays h)) (tables h))
  end.
Definition as_slice {A} (t : gostring) (f : A → M goval) (l : list A) : M goval := as_array t false (List.map f l).
Definition as_bytes (t : gostring) (s : gostring) : M goval := as_array t true (List.map (λ c, as_int (go "uint8") (code c)) s).
Definition as_map `{Countable K} {A} (t : gostring) (fk : K → M goval) (f : A → M goval) (m : gmap K A) : M goval :=
  match map_to_list m with
  | [] => ret (MapV t None)
  | entries => λ h,
      let '(es, h) := in_order (List.map (λ e, λ h, let '(k, h) := fk e.1 h in let '(v, h) := f e.2 h in ((k, v), h)) entries) h in
      (MapV t (Some (next h)), mkHeap (S (next h)) (objects h) (arrays h) (<[next h := es]> (tables h)))
  end.

(** The concrete type of a [TypeDef]'s kind, as a nil of it is typed. *)
Definition pointer_type (k : TypeKind) : gostring :=
  if bool_decide (k = KindPrimitive) then go "*Primitive" else if bool_decide (k = KindScalar) then go "*Scalar"
  else if bool_decide (k = KindModel) then go "*Model" else if bool_decide (k = KindUnion) then go "*Union"
  else if bool_decide (k = KindEnum) then go "*Enum" else if bool_decide (k = KindList) then go "*List"
  else if bool_decide (k = KindMap) then go "*MapT" else if bool_decide (k = KindTuple) then go "*Tuple"
  else if bool_decide (k = KindLiteral) then go "*Literal" else if bool_decide (k = KindExternal) then go "*External" else go "*Any".

Definition kind_text (k : ValueKind) : gostring :=
  match k with
  | ValueNull => go "null" | ValueBool => go "bool" | ValueString => go "string" | ValueNumber => go "number" | ValueBytes => go "bytes"
  | ValueSymbol => go "symbol" | ValueList => go "list" | ValueObject => go "object" | ValueRefKind => go "ref" | ValueCtor => go "ctor"
  | OtherKind k => k
  end.

Definition reflect_ValueRef (x : ValueRef) : M goval := as_struct (go "ValueRef") [as_text (go "TypeID") (ref_Type x); as_text (go "string") (ref_Member x)].
Fixpoint reflect_Value (x : Value) : M goval :=
  match x with
  | mkValue k b s n bs l o r c =>
      as_struct (go "Value") [as_text (go "ValueKind") (kind_text k); as_bool (go "bool") b; as_text (go "string") s; as_text (go "BigVal") n;
        as_bytes (go "[]uint8") bs; as_slice (go "[]Value") reflect_Value l; as_slice (go "[]Field") reflect_Field o;
        as_pointer (go "*ValueRef") reflect_ValueRef r; as_pointer (go "*CtorValue") reflect_CtorValue c]
  end
with reflect_Field (x : Value.Field) : M goval :=
  match x with Value.mkField name v => as_struct (go "Field") [as_text (go "string") name; reflect_Value v] end
with reflect_CtorValue (x : CtorValue) : M goval :=
  match x with mkCtor scalar name args => as_struct (go "CtorValue") [as_text (go "TypeID") scalar; as_text (go "string") name; as_slice (go "[]Value") reflect_Value args] end.

Definition reflect_Constraints (x : Constraints) : M goval :=
  let bound := as_pointer (go "*BigVal") (as_text (go "BigVal")) in let count := as_pointer (go "*int64") (as_int (go "int64")) in
  as_struct (go "Constraints") [bound (Min x); bound (Max x); bound (ExclusiveMin x); bound (ExclusiveMax x); bound (MultipleOf x); count (Precision x); count (Scale x);
    count (MinLength x); count (MaxLength x); as_text (go "string") (Pattern x); as_text (go "string") (PatternMessage x); count (MinItems x); count (MaxItems x);
    as_bool (go "bool") (UniqueItems x); count (MinProps x); count (MaxProps x)].

Definition reflect_Naming (x : Naming) : M goval :=
  as_struct (go "Naming") [as_text (go "string") (Naming_Source x); as_text (go "string") (Naming_Canonical x); as_text
    (go "string") (Naming_Hint x); as_slice (go "[]string") (as_text (go "string")) (Naming_Aliases x)].

Definition reflect_TypeRef (x : TypeRef) : M goval :=
  as_struct (go "TypeRef") [as_text (go "TypeID") (TypeRef_Target x); as_bool (go "bool") (TypeRef_Nullable x); as_text
    (go "Inferred") (TypeRef_Inferred x)].

Definition reflect_DocRef (x : DocRef) : M goval :=
  as_struct (go "DocRef") [as_int (go "int") (DocRef_StartByte x); as_int (go "int") (DocRef_EndByte x); as_text
    (go "TypeID") (DocRef_Type x)].

Definition reflect_Link (x : Link) : M goval :=
  as_struct (go "Link") [as_text (go "string") (Link_URL x); as_text (go "string") (Link_Description x)].

Definition reflect_Docs (x : Docs) : M goval :=
  as_struct (go "Docs") [as_text (go "string") (Docs_Summary x); as_text (go "string") (Docs_Description x); as_slice
    (go "[]DocRef") reflect_DocRef (Docs_Refs x); as_slice (go "[]Link") reflect_Link (Docs_ExternalDocs x)].

Definition reflect_Deprecation (x : Deprecation) : M goval :=
  as_struct (go "Deprecation") [as_text (go "string") (Deprecation_Message x); as_text (go "string") (Deprecation_Since x);
    as_text (go "string") (Deprecation_RemovalVersion x); as_text (go "string") (Deprecation_RemovalDate x)].

Definition reflect_ErrorExample (x : ErrorExample) : M goval :=
  as_struct (go "ErrorExample") [reflect_TypeRef (ErrorExample_Type x); reflect_Value (ErrorExample_Content x)].

Definition reflect_Position (x : Position) : M goval :=
  as_struct (go "Position") [as_int (go "int") (Position_Line x); as_int (go "int") (Position_Column x)].

Definition reflect_Provenance (x : Provenance) : M goval :=
  as_struct (go "Provenance") [as_int (go "int") (Provenance_Source x); as_text (go "jsontext.Pointer") (Provenance_Pointer
    x); reflect_Position (Provenance_Position x); as_text (go "string") (Provenance_Node x); as_text (go "Inferred")
    (Provenance_Inferred x)].

Definition reflect_UnmodeledEntry (x : UnmodeledEntry) : M goval :=
  as_struct (go "UnmodeledEntry") [as_text (go "UnmodeledReason") (UnmodeledEntry_Reason x); as_bytes (go "jsontext.Value")
    (UnmodeledEntry_Value x); reflect_Provenance (UnmodeledEntry_Provenance x)].

Definition reflect_Example (x : Example) : M goval :=
  as_struct (go "Example") [as_text (go "string") (Example_Name x); as_text (go "string") (Example_Summary x); as_text
    (go "string") (Example_Description x); as_pointer (go "*Value") reflect_Value (Example_Value x); as_pointer
    (go "*Value") reflect_Value (Example_Headers x); as_pointer (go "*Value") reflect_Value (Example_Input x); as_pointer
    (go "*Value") reflect_Value (Example_Output x); as_pointer (go "*ErrorExample") reflect_ErrorExample (Example_Error
    x); as_text (go "string") (Example_ExternalURL x); as_map (go "Unmodeled") (as_text (go "string")) reflect_UnmodeledEntry
    (Example_Unmodeled x)].

Definition reflect_VersionedName (x : VersionedName) : M goval :=
  as_struct (go "VersionedName") [as_text (go "string") (VersionedName_Version x); as_text (go "string") (VersionedName_Name
    x)].

Definition reflect_VersionedType (x : VersionedType) : M goval :=
  as_struct (go "VersionedType") [as_text (go "string") (VersionedType_Version x); reflect_TypeRef (VersionedType_Type x)].

Definition reflect_VersionedBool (x : VersionedBool) : M goval :=
  as_struct (go "VersionedBool") [as_text (go "string") (VersionedBool_Version x); as_bool (go "bool")
    (VersionedBool_WasRequired x)].

Definition reflect_Availability (x : Availability) : M goval :=
  as_struct (go "Availability") [as_slice (go "[]string") (as_text (go "string")) (Availability_Added x); as_slice (go "[]string")
    (as_text (go "string")) (Availability_Removed x); as_text (go "string") (Availability_Deprecated x); as_slice
    (go "[]VersionedName") reflect_VersionedName (Availability_RenamedFrom x); as_slice (go "[]VersionedType")
    reflect_VersionedType (Availability_TypeChangedFrom x); as_slice (go "[]VersionedBool") reflect_VersionedBool
    (Availability_RequiredChanged x)].

Definition reflect_Diagnostic (x : Diagnostic) : M goval :=
  as_struct (go "Diagnostic") [as_text (go "Severity") (Diagnostic_Severity x); as_text (go "string") (Diagnostic_Code x); as_text
    (go "string") (Diagnostic_Message x); reflect_Provenance (Diagnostic_Provenance x)].

Definition reflect_SourceInfo (x : SourceInfo) : M goval :=
  as_struct (go "SourceInfo") [as_text (go "string") (SourceInfo_Format x); as_text (go "string") (SourceInfo_Path x); as_text
    (go "string") (SourceInfo_Hash x); as_text (go "string") (SourceInfo_SelfURI x)].

Definition reflect_Encoding (x : Encoding) : M goval :=
  as_struct (go "Encoding") [as_text (go "string") (Encoding_Name x); as_pointer (go "*TypeRef") reflect_TypeRef
    (Encoding_WireType x); as_text (go "string") (Encoding_MediaType x); as_pointer (go "*TypeRef") reflect_TypeRef
    (Encoding_Schema x)].

Definition reflect_XMLHints (x : XMLHints) : M goval :=
  as_struct (go "XMLHints") [as_text (go "string") (XMLHints_Name x); as_text (go "string") (XMLHints_Namespace x); as_text
    (go "string") (XMLHints_Prefix x); as_text (go "string") (XMLHints_NodeType x); as_bool (go "bool") (XMLHints_Wrapped
    x)].

Definition reflect_PropPath (x : PropPath) : M goval :=
  as_struct (go "PropPath") [as_pointer (go "*TypeRef") reflect_TypeRef (PropPath_Root x); as_text (go "string") (PropPath_In
    x); as_slice (go "[]PropID") (as_text (go "PropID")) (PropPath_Segments x)].

Definition reflect_Parameter (x : Parameter_) : M goval :=
  as_struct (go "Parameter") [as_text (go "ParamID") (Parameter_ID x); reflect_Naming (Parameter_Name x); reflect_TypeRef
    (Parameter_Type x); as_bool (go "bool") (Parameter_Required x); as_pointer (go "*Value") reflect_Value
    (Parameter_Default x); as_pointer (go "*Constraints") reflect_Constraints (Parameter_Constraints x); as_pointer
    (go "*PropPath") reflect_PropPath (Parameter_ValueFrom x); reflect_Docs (Parameter_Docs x); as_pointer
    (go "*Deprecation") reflect_Deprecation (Parameter_Deprecation x); as_pointer (go "*Availability")
    reflect_Availability (Parameter_Availability x); as_bool (go "bool") (Parameter_Secret x); as_slice (go "[]Example")
    reflect_Example (Parameter_Examples x); as_map (go "Unmodeled") (as_text (go "string")) reflect_UnmodeledEntry
    (Parameter_Unmodeled x); reflect_Provenance (Parameter_Provenance x)].

Definition reflect_Visibility (x : Visibility) : M goval :=
  as_struct (go "Visibility") [as_slice (go "[]string") (as_text (go "string")) (Visibility_Only x); as_bool (go "bool")
    (Visibility_None x)].

Definition reflect_Property (x : Property) : M goval :=
  as_struct (go "Property") [as_text (go "PropID") (Property_ID x); reflect_Naming (Property_Name x); as_text (go "string")
    (Property_WireName x); as_map (go "map[string]string") (as_text (go "string")) (as_text (go "string"))
    (Property_WireNameByFormat x); as_pointer (go "*int") (as_int (go "int")) (Property_WireID x); as_text (go "string")
    (Property_ExtensionOf x); reflect_TypeRef (Property_Type x); as_bool (go "bool") (Property_Required x); as_text
    (go "PresenceKind") (Property_Presence x); as_bool (go "bool") (Property_ClientOptional x); as_bool (go "bool")
    (Property_DefaultAdded x); reflect_Visibility (Property_Visibility x); as_pointer (go "*Value") reflect_Value
    (Property_Default x); as_pointer (go "*Constraints") reflect_Constraints (Property_Constraints x); as_pointer
    (go "*Encoding") reflect_Encoding (Property_Encoding x); as_slice (go "[]Parameter") reflect_Parameter (Property_Args
    x); as_bool (go "bool") (Property_Flatten x); as_bool (go "bool") (Property_EventHeader x); as_bool (go "bool")
    (Property_EventPayload x); as_bool (go "bool") (Property_Secret x); as_pointer (go "*XMLHints") reflect_XMLHints
    (Property_XML x); as_slice (go "[]Example") reflect_Example (Property_Examples x); reflect_Docs (Property_Docs x);
    as_pointer (go "*Deprecation") reflect_Deprecation (Property_Deprecation x); as_pointer (go "*Availability")
    reflect_Availability (Property_Availability x); as_map (go "Unmodeled") (as_text (go "string")) reflect_UnmodeledEntry
    (Property_Unmodeled x); reflect_Provenance (Property_Provenance x)].

Definition reflect_Header (x : Header) : M goval :=
  as_struct (go "Header") [reflect_Property (Header_Property x); as_text (go "string") (Header_Style x); as_pointer
    (go "*bool") (as_bool (go "bool")) (Header_Explode x)].

Definition reflect_PartEncoding (x : PartEncoding) : M goval :=
  as_struct (go "PartEncoding") [as_pointer (go "*bool") (as_bool (go "bool")) (PartEncoding_Explode x); as_text (go "string")
    (PartEncoding_Style x); as_text (go "Inferred") (PartEncoding_Inferred x); as_slice (go "[]string") (as_text (go "string"))
    (PartEncoding_ContentTypes x); as_slice (go "[]Header") reflect_Header (PartEncoding_Headers x); as_bool (go "bool")
    (PartEncoding_Multi x); as_bool (go "bool") (PartEncoding_Filename x); as_bool (go "bool")
    (PartEncoding_AllowReserved x)].

Definition reflect_FileInfo (x : FileInfo) : M goval :=
  as_struct (go "FileInfo") [as_bool (go "bool") (FileInfo_IsText x); as_pointer (go "*TypeRef") reflect_TypeRef
    (FileInfo_Contents x); as_slice (go "[]string") (as_text (go "string")) (FileInfo_ContentTypes x); as_text (go "string")
    (FileInfo_ContentTypeDefault x); as_text (go "string") (FileInfo_FilenameLocation x); as_text (go "string")
    (FileInfo_FilenameWireName x); as_text (go "Inferred") (FileInfo_Inferred x)].

Definition reflect_Content (x : Content) : M goval :=
  as_struct (go "Content") [as_text (go "string") (Content_MediaType x); as_text (go "string") (Content_SchemaFormat x);
    reflect_TypeRef (Content_Type x); as_pointer (go "*TypeRef") reflect_TypeRef (Content_Item x); as_pointer
    (go "*PartEncoding") reflect_PartEncoding (Content_ItemEncoding x); as_map (go "map[PropID]PartEncoding") (as_text
    (go "PropID")) reflect_PartEncoding (Content_Encoding x); as_pointer (go "*FileInfo") reflect_FileInfo (Content_File
    x); as_slice (go "[]Example") reflect_Example (Content_Examples x); reflect_Docs (Content_Docs x); as_map
    (go "Unmodeled") (as_text (go "string")) reflect_UnmodeledEntry (Content_Unmodeled x)].

Definition reflect_Payload (x : Payload) : M goval :=
  as_struct (go "Payload") [as_slice (go "[]Content") reflect_Content (Payload_Contents x); as_pointer (go "*bool") (as_bool
    (go "bool")) (Payload_Required x); reflect_Docs (Payload_Docs x); as_map (go "Unmodeled") (as_text (go "string"))
    reflect_UnmodeledEntry (Payload_Unmodeled x)].

Definition reflect_StatusRange (x : StatusRange) : M goval :=
  as_struct (go "StatusRange") [as_int (go "int") (StatusRange_From x); as_int (go "int") (StatusRange_To x)].

Definition reflect_ResponseConditions (x : ResponseConditions) : M goval :=
  as_struct (go "ResponseConditions") [as_slice (go "[]StatusRange") reflect_StatusRange (ResponseConditions_StatusCodes
    x)].

Definition reflect_Response (x : Response) : M goval :=
  as_struct (go "Response") [reflect_Naming (Response_Name x); reflect_ResponseConditions (Response_Conditions x);
    as_pointer (go "*Payload") reflect_Payload (Response_Payload x); as_slice (go "[]Header") reflect_Header
    (Response_Headers x); as_pointer (go "*PropPath") reflect_PropPath (Response_StatusCodeProp x); reflect_Docs
    (Response_Docs x); as_map (go "Unmodeled") (as_text (go "string")) reflect_UnmodeledEntry (Response_Unmodeled x)].

Definition reflect_ErrorCase (x : ErrorCase) : M goval :=
  as_struct (go "ErrorCase") [reflect_Naming (ErrorCase_Name x); reflect_ResponseConditions (ErrorCase_Conditions x);
    as_pointer (go "*Payload") reflect_Payload (ErrorCase_Payload x); as_slice (go "[]Header") reflect_Header
    (ErrorCase_Headers x); as_text (go "string") (ErrorCase_Fault x); as_pointer (go "*bool") (as_bool (go "bool"))
    (ErrorCase_Retryable x); as_pointer (go "*bool") (as_bool (go "bool")) (ErrorCase_Throttling x); reflect_Docs
    (ErrorCase_Docs x); as_map (go "Unmodeled") (as_text (go "string")) reflect_UnmodeledEntry (ErrorCase_Unmodeled x);
    as_text (go "Inferred") (ErrorCase_Inferred x)].

Definition reflect_StreamDetail (x : StreamDetail) : M goval :=
  as_struct (go "StreamDetail") [as_pointer (go "*TypeRef") reflect_TypeRef (StreamDetail_Events x); as_pointer (go "*TypeRef")
    reflect_TypeRef (StreamDetail_Initial x); as_bool (go "bool") (StreamDetail_RequiresLength x)].

Definition reflect_ParamPath (x : ParamPath) : M goval :=
  as_struct (go "ParamPath") [as_text (go "ParamID") (ParamPath_Param x); as_slice (go "[]PropID") (as_text (go "PropID"))
    (ParamPath_Segments x)].

Definition reflect_Pagination (x : Pagination) : M goval :=
  as_struct (go "Pagination") [as_text (go "PageStrategy") (Pagination_Strategy x); as_bool (go "bool") (Pagination_Inferred
    x); as_pointer (go "*ParamPath") reflect_ParamPath (Pagination_InputCursor x); as_pointer (go "*ParamPath")
    reflect_ParamPath (Pagination_InputLimit x); as_pointer (go "*PropPath") reflect_PropPath (Pagination_Items x);
    as_pointer (go "*PropPath") reflect_PropPath (Pagination_NextCursor x); as_pointer (go "*PropPath") reflect_PropPath
    (Pagination_NextLink x); as_pointer (go "*PropPath") reflect_PropPath (Pagination_PrevLink x); as_pointer
    (go "*PropPath") reflect_PropPath (Pagination_FirstLink x); as_pointer (go "*PropPath") reflect_PropPath
    (Pagination_LastLink x); as_pointer (go "*PropPath") reflect_PropPath (Pagination_TotalCount x)].

Definition reflect_LongRunning (x : LongRunning) : M goval :=
  as_struct (go "LongRunning") [as_text (go "string") (LongRunning_FinalStateVia x); as_pointer (go "*OpID") (as_text (go "OpID"))
    (LongRunning_PollingOperation x); as_pointer (go "*OpID") (as_text (go "OpID")) (LongRunning_FinalOperation x); as_pointer
    (go "*TypeRef") reflect_TypeRef (LongRunning_PollingType x); as_pointer (go "*TypeRef") reflect_TypeRef
    (LongRunning_FinalType x); as_pointer (go "*PropPath") reflect_PropPath (LongRunning_ResultPath x)].

Definition reflect_Idempotency (x : Idempotency) : M goval :=
  as_struct (go "Idempotency") [as_text (go "IdempotencyKind") (Idempotency_Kind x); as_text (go "ParamID")
    (Idempotency_TokenParam x)].

Definition reflect_SchemeUse (x : SchemeUse) : M goval :=
  as_struct (go "SchemeUse") [as_text (go "AuthID") (SchemeUse_Scheme x); as_slice (go "[]string") (as_text (go "string"))
    (SchemeUse_Scopes x)].

Definition reflect_AuthRequirement (x : AuthRequirement) : M goval :=
  as_struct (go "AuthRequirement") [as_slice (go "[]SchemeUse") reflect_SchemeUse (AuthRequirement_Schemes x)].

Definition reflect_RequestCompression (x : RequestCompression) : M goval :=
  as_struct (go "RequestCompression") [as_slice (go "[]string") (as_text (go "string")) (RequestCompression_Encodings x)].

Definition reflect_HTTPParamBinding (x : HTTPParamBinding) : M goval :=
  as_struct (go "HTTPParamBinding") [as_text (go "ParamID") (HTTPParamBinding_Param x); as_slice (go "[]PropID") (as_text
    (go "PropID")) (HTTPParamBinding_ParamPath x); as_text (go "HTTPLocation") (HTTPParamBinding_Location x); as_text
    (go "string") (HTTPParamBinding_WireName x); as_text (go "string") (HTTPParamBinding_Style x); as_pointer (go "*bool")
    (as_bool (go "bool")) (HTTPParamBinding_Explode x); as_bool (go "bool") (HTTPParamBinding_AllowReserved x);
    as_bool (go "bool") (HTTPParamBinding_AllowEmptyValue x); as_text (go "string") (HTTPParamBinding_PathPattern x);
    as_text (go "string") (HTTPParamBinding_Prefix x); as_text (go "string") (HTTPParamBinding_ContentType x); as_slice
    (go "[]PropID") (as_text (go "PropID")) (HTTPParamBinding_BodyPath x)].

Definition reflect_Callback (x : Callback) : M goval :=
  as_struct (go "Callback") [as_text (go "string") (Callback_Expression x); as_slice (go "[]OpID") (as_text (go "OpID"))
    (Callback_Operations x)].

Definition reflect_HTTPBinding (x : HTTPBinding) : M goval :=
  as_struct (go "HTTPBinding") [as_pointer (go "*PropPath") reflect_PropPath (HTTPBinding_ResponseBodyPath x); as_map
    (go "map[int]int") (as_int (go "int")) (as_int (go "int")) (HTTPBinding_SuccessStatus x); as_pointer
    (go "*RequestCompression") reflect_RequestCompression (HTTPBinding_Compression x); as_pointer (go "*bool") (as_bool
    (go "bool")) (HTTPBinding_PatchImplicitOptionality x); as_map (go "Unmodeled") (as_text (go "string"))
    reflect_UnmodeledEntry (HTTPBinding_Unmodeled x); as_text (go "string") (HTTPBinding_Method x); as_text (go "string")
    (HTTPBinding_URITemplate x); as_text (go "string") (HTTPBinding_HostPrefix x); as_text (go "string")
    (HTTPBinding_WebhookName x); as_slice (go "[]HTTPParamBinding") reflect_HTTPParamBinding (HTTPBinding_ParamBindings
    x); as_slice (go "[]string") (as_text (go "string")) (HTTPBinding_RequestContentTypes x); as_slice (go "[]Callback")
    reflect_Callback (HTTPBinding_Callbacks x); as_bool (go "bool") (HTTPBinding_SharedRoute x); as_bool (go "bool")
    (HTTPBinding_ChecksumRequired x); as_bool (go "bool") (HTTPBinding_IsWebhook x)].

Definition reflect_RPCBinding (x : RPCBinding) : M goval :=
  as_struct (go "RPCBinding") [as_text (go "string") (RPCBinding_System x); as_text (go "string") (RPCBinding_FullMethod x);
    as_pointer (go "*TypeRef") reflect_TypeRef (RPCBinding_InputType x); as_text (go "string") (RPCBinding_ParamStructure
    x); as_text (go "string") (RPCBinding_IdempotencyLevel x); as_map (go "Unmodeled") (as_text (go "string"))
    reflect_UnmodeledEntry (RPCBinding_Unmodeled x)].

Definition reflect_Reply (x : Reply) : M goval :=
  as_struct (go "Reply") [as_pointer (go "*ChannelID") (as_text (go "ChannelID")) (Reply_Channel x); as_pointer (go "*PropPath")
    reflect_PropPath (Reply_Address x); as_slice (go "[]MessageID") (as_text (go "MessageID")) (Reply_Messages x);
    reflect_Docs (Reply_Docs x)].

Definition reflect_MessageBinding (x : MessageBinding) : M goval :=
  as_struct (go "MessageBinding") [as_text (go "ChannelID") (MessageBinding_Channel x); as_text (go "MsgDirection")
    (MessageBinding_Direction x); as_slice (go "[]MessageID") (as_text (go "MessageID")) (MessageBinding_Messages x);
    as_pointer (go "*Reply") reflect_Reply (MessageBinding_Reply x); as_map (go "map[string]RawConfig") (as_text
    (go "string")) (as_map (go "RawConfig") (as_text (go "string")) (as_bytes (go "jsontext.Value")))
    (MessageBinding_Bindings x); as_map (go "Unmodeled") (as_text (go "string")) reflect_UnmodeledEntry
    (MessageBinding_Unmodeled x)].

Definition reflect_GraphQLBinding (x : GraphQLBinding) : M goval :=
  as_struct (go "GraphQLBinding") [as_text (go "string") (GraphQLBinding_Kind x); as_slice (go "[]string") (as_text (go "string"))
    (GraphQLBinding_FieldPath x); as_map (go "Unmodeled") (as_text (go "string")) reflect_UnmodeledEntry
    (GraphQLBinding_Unmodeled x)].

Definition reflect_OTPBinding (x : OTPBinding) : M goval :=
  as_struct (go "OTPBinding") [as_text (go "string") (OTPBinding_Behaviour x); as_text (go "string") (OTPBinding_Kind x); as_text
    (go "ChannelID") (OTPBinding_Process x); as_pointer (go "*Value") reflect_Value (OTPBinding_RequestTag x); as_map
    (go "Unmodeled") (as_text (go "string")) reflect_UnmodeledEntry (OTPBinding_Unmodeled x)].

Definition reflect_OpBindings (x : OpBindings) : M goval :=
  as_struct (go "OpBindings") [as_slice (go "[]HTTPBinding") reflect_HTTPBinding (OpBindings_HTTP x); as_pointer
    (go "*RPCBinding") reflect_RPCBinding (OpBindings_RPC x); as_pointer (go "*MessageBinding") reflect_MessageBinding
    (OpBindings_Message x); as_pointer (go "*GraphQLBinding") reflect_GraphQLBinding (OpBindings_GraphQL x); as_pointer
    (go "*OTPBinding") reflect_OTPBinding (OpBindings_OTP x)].

Definition reflect_Operation (x : Operation) : M goval :=
  as_struct (go "Operation") [as_text (go "OpID") (Operation_ID x); reflect_Naming (Operation_Name x); reflect_Docs
    (Operation_Docs x); as_pointer (go "*Deprecation") reflect_Deprecation (Operation_Deprecation x); as_pointer
    (go "*Availability") reflect_Availability (Operation_Availability x); as_text (go "Stability") (Operation_Stability
    x); as_slice (go "[]Parameter") reflect_Parameter (Operation_Params x); as_pointer (go "*Payload") reflect_Payload
    (Operation_Request x); as_slice (go "[]Response") reflect_Response (Operation_Responses x); as_slice (go "[]ErrorCase")
    reflect_ErrorCase (Operation_Errors x); as_pointer (go "*Response") reflect_Response (Operation_Default x); as_bool
    (go "bool") (Operation_OneWay x); as_text (go "StreamingMode") (Operation_Streaming x); as_pointer (go "*StreamDetail")
    reflect_StreamDetail (Operation_RequestStream x); as_pointer (go "*StreamDetail") reflect_StreamDetail
    (Operation_ResponseStream x); as_pointer (go "*Pagination") reflect_Pagination (Operation_Pagination x); as_pointer
    (go "*LongRunning") reflect_LongRunning (Operation_LongRunning x); reflect_Idempotency (Operation_Idempotency x);
    as_slice (go "[]ServerID") (as_text (go "ServerID")) (Operation_Servers x); as_slice (go "[]AuthRequirement")
    reflect_AuthRequirement (Operation_Auth x); as_slice (go "[]string") (as_text (go "string")) (Operation_Tags x); as_slice
    (go "[]string") (as_text (go "string")) (Operation_ParameterVisibility x); as_slice (go "[]string") (as_text (go "string"))
    (Operation_ReturnTypeVisibility x); as_pointer (go "*OpID") (as_text (go "OpID")) (Operation_OverloadOf x);
    reflect_OpBindings (Operation_Bindings x); as_slice (go "[]Example") reflect_Example (Operation_Examples x); as_map
    (go "Unmodeled") (as_text (go "string")) reflect_UnmodeledEntry (Operation_Unmodeled x); reflect_Provenance
    (Operation_Provenance x)].

Definition reflect_TemplateArg (x : TemplateArg) : M goval :=
  as_struct (go "TemplateArg") [as_pointer (go "*TypeRef") reflect_TypeRef (TemplateArg_Type x); as_pointer (go "*Value")
    reflect_Value (TemplateArg_Value x)].

Definition reflect_TemplateInstantiation (x : TemplateInstantiation) : M goval :=
  as_struct (go "TemplateInstantiation") [as_text (go "string") (TemplateInstantiation_Template x); as_slice
    (go "[]TemplateArg") reflect_TemplateArg (TemplateInstantiation_Args x)].

Definition reflect_TypeCommon (x : TypeCommon) : M goval :=
  as_struct (go "TypeCommon") [as_text (go "TypeID") (TypeCommon_ID x); reflect_Naming (TypeCommon_Name x); as_slice
    (go "[]string") (as_text (go "string")) (TypeCommon_Namespace x); as_bool (go "bool") (TypeCommon_Anonymous x);
    reflect_Docs (TypeCommon_Docs x); as_slice (go "[]string") (as_text (go "string")) (TypeCommon_Tags x); as_bool
    (go "bool") (TypeCommon_Sensitive x); as_text (go "string") (TypeCommon_Access x); as_pointer (go "*Deprecation")
    reflect_Deprecation (TypeCommon_Deprecation x); as_pointer (go "*Availability") reflect_Availability
    (TypeCommon_Availability x); as_map (go "map[string]string") (as_text (go "string")) (as_text (go "string"))
    (TypeCommon_WireNameByFormat x); as_text (go "string") (TypeCommon_MediaTypeHint x); as_pointer (go "*XMLHints")
    reflect_XMLHints (TypeCommon_XML x); as_slice (go "[]Example") reflect_Example (TypeCommon_Examples x); as_pointer
    (go "*TemplateInstantiation") reflect_TemplateInstantiation (TypeCommon_Instantiation x); as_map (go "Unmodeled")
    (as_text (go "string")) reflect_UnmodeledEntry (TypeCommon_Unmodeled x); reflect_Provenance (TypeCommon_Provenance
    x)].

Definition reflect_Primitive (x : Primitive) : M goval :=
  as_struct (go "Primitive") [reflect_TypeCommon (Primitive_TypeCommon x); as_text (go "PrimKind") (Primitive_Prim x)].

Definition reflect_Scalar (x : IR.Scalar) : M goval :=
  as_struct (go "Scalar") [reflect_TypeCommon (Scalar_TypeCommon x); as_pointer (go "*TypeRef") reflect_TypeRef (Scalar_Base
    x); as_pointer (go "*Constraints") reflect_Constraints (Scalar_Constraints x); as_pointer (go "*Encoding")
    reflect_Encoding (Scalar_Encoding x)].

Definition reflect_PatternProps (x : PatternProps) : M goval :=
  as_struct (go "PatternProps") [as_text (go "string") (PatternProps_Pattern x); reflect_TypeRef (PatternProps_Value x)].

Definition reflect_AdditionalProps (x : AdditionalProps) : M goval :=
  as_struct (go "AdditionalProps") [reflect_TypeRef (AdditionalProps_Value x); as_pointer (go "*TypeRef") reflect_TypeRef
    (AdditionalProps_Key x); as_slice (go "[]PatternProps") reflect_PatternProps (AdditionalProps_Patterns x)].

Definition reflect_WireIDRange (x : WireIDRange) : M goval :=
  as_struct (go "WireIDRange") [as_int (go "int") (WireIDRange_From x); as_int (go "int") (WireIDRange_To x)].

Definition reflect_Discriminator (x : Discriminator) : M goval :=
  as_struct (go "Discriminator") [as_text (go "PropID") (Discriminator_Property x); as_text (go "string")
    (Discriminator_PropertyName x); as_pointer (go "*int") (as_int (go "int")) (Discriminator_Index x); as_map
    (go "map[string]TypeID") (as_text (go "string")) (as_text (go "TypeID")) (Discriminator_Mapping x); as_text (go "TypeID")
    (Discriminator_Default x); as_text (go "string") (Discriminator_Envelope x); as_text (go "string")
    (Discriminator_EnvelopeValueName x); as_bool (go "bool") (Discriminator_Inferred x)].

Definition reflect_Model (x : Model) : M goval :=
  as_struct (go "Model") [reflect_TypeCommon (Model_TypeCommon x); as_slice (go "[]Property") reflect_Property
    (Model_Properties x); as_slice (go "[]string") (as_text (go "string")) (Model_Requires x); as_pointer (go "*TypeRef")
    reflect_TypeRef (Model_Base x); as_slice (go "[]TypeRef") reflect_TypeRef (Model_Implements x); as_slice
    (go "[]TypeRef") reflect_TypeRef (Model_Mixins x); as_pointer (go "*AdditionalProps") reflect_AdditionalProps
    (Model_AdditionalProps x); as_text (go "AdditionalMode") (Model_Additional x); as_pointer (go "*Constraints")
    reflect_Constraints (Model_Constraints x); as_bool (go "bool") (Model_Abstract x); as_bool (go "bool")
    (Model_Positional x); as_slice (go "[]WireIDRange") reflect_WireIDRange (Model_ExtensionRanges x); as_pointer
    (go "*Discriminator") reflect_Discriminator (Model_Discriminator x); as_text (go "string") (Model_DiscriminatorValue
    x); as_bool (go "bool") (Model_InputOnly x)].

Definition reflect_EventInfo (x : EventInfo) : M goval :=
  as_struct (go "EventInfo") [as_text (go "string") (EventInfo_ContentType x); as_bool (go "bool") (EventInfo_Terminal x)].

Definition reflect_Variant (x : Variant_) : M goval :=
  as_struct (go "Variant") [reflect_Naming (Variant_Name x); reflect_TypeRef (Variant_Type x); as_text (go "string")
    (Variant_WireName x); as_pointer (go "*int") (as_int (go "int")) (Variant_WireID x); as_pointer (go "*XMLHints")
    reflect_XMLHints (Variant_XML x); as_pointer (go "*EventInfo") reflect_EventInfo (Variant_Event x); reflect_Docs
    (Variant_Docs x); as_pointer (go "*Deprecation") reflect_Deprecation (Variant_Deprecation x); as_pointer
    (go "*Availability") reflect_Availability (Variant_Availability x); as_slice (go "[]Example") reflect_Example
    (Variant_Examples x); as_map (go "Unmodeled") (as_text (go "string")) reflect_UnmodeledEntry (Variant_Unmodeled x)].

Definition reflect_Union (x : Union) : M goval :=
  as_struct (go "Union") [reflect_TypeCommon (Union_TypeCommon x); as_slice (go "[]Variant") reflect_Variant (Union_Variants
    x); as_bool (go "bool") (Union_Exclusive x); as_bool (go "bool") (Union_WireTagged x); as_pointer
    (go "*Discriminator") reflect_Discriminator (Union_Discriminator x)].

Definition reflect_EnumMember (x : EnumMember) : M goval :=
  as_struct (go "EnumMember") [as_text (go "EnumMemberID") (EnumMember_ID x); reflect_Naming (EnumMember_Name x);
    reflect_Value (EnumMember_Value x); as_text (go "string") (EnumMember_WireName x); reflect_Docs (EnumMember_Docs x);
    as_pointer (go "*Deprecation") reflect_Deprecation (EnumMember_Deprecation x); as_pointer (go "*Availability")
    reflect_Availability (EnumMember_Availability x); as_slice (go "[]Example") reflect_Example (EnumMember_Examples x);
    as_map (go "Unmodeled") (as_text (go "string")) reflect_UnmodeledEntry (EnumMember_Unmodeled x)].

Definition reflect_Enum (x : Enum) : M goval :=
  as_struct (go "Enum") [reflect_TypeCommon (Enum_TypeCommon x); as_text (go "PrimKind") (Enum_ValueType x); as_slice
    (go "[]EnumMember") reflect_EnumMember (Enum_Members x); as_bool (go "bool") (Enum_Closed x); as_bool (go "bool")
    (Enum_Flags x); as_text (go "string") (Enum_FallbackMember x)].

Definition reflect_List (x : List) : M goval :=
  as_struct (go "List") [reflect_TypeCommon (List_TypeCommon x); reflect_TypeRef (List_Elem x); as_pointer
    (go "*Constraints") reflect_Constraints (List_Constraints x); as_pointer (go "*Encoding") reflect_Encoding
    (List_Encoding x)].

Definition reflect_MapT (x : MapT) : M goval :=
  as_struct (go "MapT") [reflect_TypeCommon (MapT_TypeCommon x); as_pointer (go "*TypeRef") reflect_TypeRef (MapT_Key x);
    reflect_TypeRef (MapT_Value x); as_pointer (go "*Constraints") reflect_Constraints (MapT_Constraints x)].

Definition reflect_Tuple (x : Tuple) : M goval :=
  as_struct (go "Tuple") [reflect_TypeCommon (Tuple_TypeCommon x); as_slice (go "[]TypeRef") reflect_TypeRef (Tuple_Elems
    x); as_pointer (go "*TypeRef") reflect_TypeRef (Tuple_Rest x); as_pointer (go "*Constraints") reflect_Constraints
    (Tuple_Constraints x)].

Definition reflect_Literal (x : Literal) : M goval :=
  as_struct (go "Literal") [reflect_TypeCommon (Literal_TypeCommon x); reflect_Value (Literal_Value x)].

Definition reflect_External (x : External) : M goval :=
  as_struct (go "External") [reflect_TypeCommon (External_TypeCommon x); as_text (go "string") (External_Identity x); as_text
    (go "string") (External_Package x); as_text (go "string") (External_MinVersion x)].

Definition reflect_Any (x : Any) : M goval :=
  as_struct (go "Any") [reflect_TypeCommon (Any_TypeCommon x)].

Definition reflect_Channel (x : Channel) : M goval :=
  as_struct (go "Channel") [as_text (go "ChannelID") (Channel_ID x); reflect_Naming (Channel_Name x); as_pointer (go "*string")
    (as_text (go "string")) (Channel_Address x); reflect_Docs (Channel_Docs x); as_slice (go "[]string") (as_text
    (go "string")) (Channel_Tags x); as_slice (go "[]Parameter") reflect_Parameter (Channel_Params x); as_slice
    (go "[]MessageID") (as_text (go "MessageID")) (Channel_Messages x); as_slice (go "[]ServerID") (as_text (go "ServerID"))
    (Channel_Servers x); as_map (go "map[string]RawConfig") (as_text (go "string")) (as_map (go "RawConfig") (as_text
    (go "string")) (as_bytes (go "jsontext.Value"))) (Channel_Bindings x); as_map (go "Unmodeled") (as_text (go "string"))
    reflect_UnmodeledEntry (Channel_Unmodeled x); reflect_Provenance (Channel_Provenance x)].

Definition reflect_Message (x : Message) : M goval :=
  as_struct (go "Message") [as_text (go "MessageID") (Message_ID x); reflect_Naming (Message_Name x); reflect_Payload
    (Message_Payload x); as_pointer (go "*TypeRef") reflect_TypeRef (Message_Headers x); as_pointer (go "*PropPath")
    reflect_PropPath (Message_CorrelationID x); as_text (go "string") (Message_ContentType x); as_slice (go "[]string")
    (as_text (go "string")) (Message_Tags x); reflect_Docs (Message_Docs x); as_pointer (go "*Deprecation")
    reflect_Deprecation (Message_Deprecation x); as_slice (go "[]Example") reflect_Example (Message_Examples x); as_map
    (go "map[string]RawConfig") (as_text (go "string")) (as_map (go "RawConfig") (as_text (go "string")) (as_bytes
    (go "jsontext.Value"))) (Message_Bindings x); as_map (go "Unmodeled") (as_text (go "string")) reflect_UnmodeledEntry
    (Message_Unmodeled x); reflect_Provenance (Message_Provenance x)].

Definition reflect_ServerVariable (x : ServerVariable) : M goval :=
  as_struct (go "ServerVariable") [as_text (go "string") (ServerVariable_Name x); as_text (go "string") (ServerVariable_Default
    x); as_slice (go "[]string") (as_text (go "string")) (ServerVariable_Enum x); reflect_Docs (ServerVariable_Docs x);
    as_map (go "Unmodeled") (as_text (go "string")) reflect_UnmodeledEntry (ServerVariable_Unmodeled x)].

Definition reflect_Server (x : Server) : M goval :=
  as_struct (go "Server") [as_text (go "ServerID") (Server_ID x); reflect_Naming (Server_Name x); as_text (go "string")
    (Server_URLTemplate x); reflect_Docs (Server_Description x); as_slice (go "[]ServerVariable") reflect_ServerVariable
    (Server_Variables x); as_text (go "string") (Server_Protocol x); as_text (go "string") (Server_ProtocolVersion x); as_slice
    (go "[]string") (as_text (go "string")) (Server_Tags x); as_slice (go "[]AuthRequirement") reflect_AuthRequirement
    (Server_Auth x); as_map (go "map[string]RawConfig") (as_text (go "string")) (as_map (go "RawConfig") (as_text
    (go "string")) (as_bytes (go "jsontext.Value"))) (Server_Bindings x); as_map (go "Unmodeled") (as_text (go "string"))
    reflect_UnmodeledEntry (Server_Unmodeled x); reflect_Provenance (Server_Provenance x)].

Definition reflect_OAuthScope (x : OAuthScope) : M goval :=
  as_struct (go "OAuthScope") [as_text (go "string") (OAuthScope_Name x); as_text (go "string") (OAuthScope_Description x)].

Definition reflect_OAuthFlow (x : OAuthFlow) : M goval :=
  as_struct (go "OAuthFlow") [as_text (go "string") (OAuthFlow_Kind x); as_text (go "string") (OAuthFlow_AuthorizationURL x);
    as_text (go "string") (OAuthFlow_TokenURL x); as_text (go "string") (OAuthFlow_RefreshURL x); as_slice (go "[]OAuthScope")
    reflect_OAuthScope (OAuthFlow_Scopes x); as_slice (go "[]string") (as_text (go "string"))
    (OAuthFlow_TokenEndpointAuthMethods x); as_map (go "Unmodeled") (as_text (go "string")) reflect_UnmodeledEntry
    (OAuthFlow_Unmodeled x); as_text (go "Inferred") (OAuthFlow_Inferred x)].

Definition reflect_AuthScheme (x : AuthScheme) : M goval :=
  as_struct (go "AuthScheme") [as_text (go "AuthID") (AuthScheme_ID x); reflect_Naming (AuthScheme_Name x); as_text
    (go "AuthKind") (AuthScheme_Kind x); reflect_Docs (AuthScheme_Docs x); as_pointer (go "*Deprecation")
    reflect_Deprecation (AuthScheme_Deprecation x); as_text (go "string") (AuthScheme_In x); as_text (go "string")
    (AuthScheme_KeyName x); as_text (go "string") (AuthScheme_Scheme x); as_text (go "string") (AuthScheme_BearerFormat x);
    as_slice (go "[]OAuthFlow") reflect_OAuthFlow (AuthScheme_Flows x); as_text (go "string") (AuthScheme_OAuth2MetadataURL
    x); as_text (go "string") (AuthScheme_OpenIDConnectURL x); as_pointer (go "*TypeRef") reflect_TypeRef
    (AuthScheme_Credentials x); as_map (go "Unmodeled") (as_text (go "string")) reflect_UnmodeledEntry
    (AuthScheme_Unmodeled x); reflect_Provenance (AuthScheme_Provenance x)].

Definition reflect_ResourceInfo (x : ResourceInfo) : M goval :=
  as_struct (go "ResourceInfo") [as_slice (go "[]Property") reflect_Property (ResourceInfo_Identifiers x); as_slice
    (go "[]Property") reflect_Property (ResourceInfo_Properties x); as_map (go "map[string]OpID") (as_text (go "string"))
    (as_text (go "OpID")) (ResourceInfo_Lifecycle x); as_bool (go "bool") (ResourceInfo_NoReplace x); as_slice (go "[]OpID")
    (as_text (go "OpID")) (ResourceInfo_InstanceOps x); as_slice (go "[]OpID") (as_text (go "OpID"))
    (ResourceInfo_CollectionOps x)].

Fixpoint reflect_OperationGroup (x : OperationGroup) : M goval :=
  as_struct (go "OperationGroup") [as_text (go "GroupID") (OperationGroup_ID x); reflect_Naming (OperationGroup_Name x);
    reflect_Docs (OperationGroup_Docs x); as_slice (go "[]OperationGroup") reflect_OperationGroup (OperationGroup_Groups
    x); as_slice (go "[]Operation") reflect_Operation (OperationGroup_Operations x); as_pointer (go "*ResourceInfo")
    reflect_ResourceInfo (OperationGroup_Resource x); as_pointer (go "*Availability") reflect_Availability
    (OperationGroup_Availability x); as_text (go "Stability") (OperationGroup_Stability x); as_map (go "Unmodeled") (as_text
    (go "string")) reflect_UnmodeledEntry (OperationGroup_Unmodeled x)].

Definition reflect_ProtocolDecl (x : ProtocolDecl) : M goval :=
  as_struct (go "ProtocolDecl") [as_text (go "string") (ProtocolDecl_Name x); as_map (go "RawConfig") (as_text (go "string"))
    (as_bytes (go "jsontext.Value")) (ProtocolDecl_Options x)].

Definition reflect_Service (x : Service) : M goval :=
  as_struct (go "Service") [as_text (go "ServiceID") (Service_ID x); reflect_Naming (Service_Name x); reflect_Docs
    (Service_Docs x); as_text (go "string") (Service_Version x); as_slice (go "[]string") (as_text (go "string"))
    (Service_Namespace x); as_slice (go "[]ServiceID") (as_text (go "ServiceID")) (Service_Extends x); as_slice
    (go "[]OperationGroup") reflect_OperationGroup (Service_Groups x); as_slice (go "[]AuthRequirement")
    reflect_AuthRequirement (Service_Auth x); as_slice (go "[]ErrorCase") reflect_ErrorCase (Service_CommonErrors x);
    as_slice (go "[]ProtocolDecl") reflect_ProtocolDecl (Service_Protocols x); as_map (go "map[TypeID]Naming") (as_text
    (go "TypeID")) reflect_Naming (Service_Renames x); as_slice (go "[]ServerID") (as_text (go "ServerID")) (Service_Servers
    x); as_map (go "Unmodeled") (as_text (go "string")) reflect_UnmodeledEntry (Service_Unmodeled x); reflect_Provenance
    (Service_Provenance x)].

Definition reflect_Contact (x : Contact) : M goval :=
  as_struct (go "Contact") [as_text (go "string") (Contact_Name x); as_text (go "string") (Contact_URL x); as_text (go "string")
    (Contact_Email x)].

Definition reflect_License (x : License) : M goval :=
  as_struct (go "License") [as_text (go "string") (License_Name x); as_text (go "string") (License_Identifier x); as_text
    (go "string") (License_URL x)].

Definition reflect_TypeDef (td : TypeDef) : M goval :=
  match td with
  | PrimitiveDef d => as_interface (go "TypeDef") (as_pointer (go "*Primitive") reflect_Primitive (Some d))
  | ScalarDef d => as_interface (go "TypeDef") (as_pointer (go "*Scalar") reflect_Scalar (Some d))
  | ModelDef d => as_interface (go "TypeDef") (as_pointer (go "*Model") reflect_Model (Some d))
  | UnionDef d => as_interface (go "TypeDef") (as_pointer (go "*Union") reflect_Union (Some d))
  | EnumDef d => as_interface (go "TypeDef") (as_pointer (go "*Enum") reflect_Enum (Some d))
  | ListDef d => as_interface (go "TypeDef") (as_pointer (go "*List") reflect_List (Some d))
  | MapDef d => as_interface (go "TypeDef") (as_pointer (go "*MapT") reflect_MapT (Some d))
  | TupleDef d => as_interface (go "TypeDef") (as_pointer (go "*Tuple") reflect_Tuple (Some d))
  | LiteralDef d => as_interface (go "TypeDef") (as_pointer (go "*Literal") reflect_Literal (Some d))
  | ExternalDef d => as_interface (go "TypeDef") (as_pointer (go "*External") reflect_External (Some d))
  | AnyDef d => as_interface (go "TypeDef") (as_pointer (go "*Any") reflect_Any (Some d))
  | NilDef None => ret (Interface (go "TypeDef") None)
  | NilDef (Some k) => ret (Interface (go "TypeDef") (Some (Pointer (pointer_type k) None)))
  end.

Definition reflect_TagDef (x : TagDef) : M goval :=
  as_struct (go "TagDef") [as_text (go "string") (TagDef_Name x); reflect_Docs (TagDef_Docs x); as_text (go "string")
    (TagDef_Parent x); as_text (go "string") (TagDef_Kind x)].

Definition reflect_Document (x : Document) : M goval :=
  as_struct (go "Document") [as_text (go "string") (Document_IRVersion x); as_map (go "map[string][]string") (as_text
    (go "string")) (as_slice (go "[]string") (as_text (go "string"))) (Document_IDSpaces x); as_text (go "string")
    (Document_Name x); as_text (go "string") (Document_Version x); reflect_Docs (Document_Docs x); as_pointer
    (go "*Contact") reflect_Contact (Document_Contact x); as_pointer (go "*License") reflect_License (Document_License
    x); as_text (go "string") (Document_TermsOfService x); as_slice (go "[]Service") reflect_Service (Document_Services x);
    as_map (go "TypeRegistry") (as_text (go "TypeID")) reflect_TypeDef (Document_Types x); as_map
    (go "map[ChannelID]Channel") (as_text (go "ChannelID")) reflect_Channel (Document_Channels x); as_map
    (go "map[MessageID]Message") (as_text (go "MessageID")) reflect_Message (Document_Messages x); as_map
    (go "map[AuthID]AuthScheme") (as_text (go "AuthID")) reflect_AuthScheme (Document_Auth x); as_map
    (go "map[ServerID]Server") (as_text (go "ServerID")) reflect_Server (Document_Servers x); as_slice (go "[]TagDef")
    reflect_TagDef (Document_TagDefs x); as_slice (go "[]string") (as_text (go "string")) (Document_Versions x); as_map
    (go "Unmodeled") (as_text (go "string")) reflect_UnmodeledEntry (Document_Unmodeled x); as_slice (go "[]Diagnostic")
    reflect_Diagnostic (Document_Diagnostics x); as_slice (go "[]SourceInfo") reflect_SourceInfo (Document_Sources x)].

(** ** The document *)

Definition memory_of (h : heap) : memory :=
  mkMemory (λ k, default (Scalar []) (objects h !! rk_ptr k)) (λ k, default [] (arrays h !! rk_ptr k)) (λ k, default [] (tables h !! rk_ptr k)).
(** [reflect.ValueOf] of a pointer to the document, and the memory it leads to. *)
Definition ValueOf (doc : Document) : goval * memory :=
  let '(v, h) := as_pointer (go "*Document") reflect_Document (Some doc) emptyHeap in (v, memory_of h).
