(* ===== verification/WalkRules.v ===== *)
(** * WalkRules: the verifier's rules over every value of a document
    ([src/ir/irverify])

    The checks that are shown each value a walk reaches, by what each finds at a
    value and which values it reads on below. Types are named as [Reflect] names
    them; a map a check reads one collection after another through, and the lists
    of fields it keeps per type, are storage. *)
From S2P Require Import Prelude GoLib Utf8 Decimal BigVal Value IR Domain Ids Findings Naming Text Violations RegistryRules Walk WalkAlone WalkTrace References Reflect.

Section Rules.
Context `{Unicode, Visible}.
(** [strconv.Quote]; whether bytes are one JSON value, as a [jsontext.Decoder]
    reads them. *)
Context (Quote : gostring → gostring) (valid_json : gostring → bool) (mem : memory).
Implicit Types (v : goval) (p : path) (vs : list Violation).

(** ** Reading a value by reflection *)

Definition spell p : gostring := path_String (fields_of ir_desc) p.
Definition of_type (t : rtype) v : bool := bool_decide (type_of v = t).
Definition is_struct (t : rtype) v : bool := match v with Struct t' _ => bool_decide (t' = t) | _ => false end.

(** [reflect.Value.FieldByName], of a field the struct type declares itself. *)
Definition FieldByName (name : gostring) v : option goval :=
  match v with
  | Struct t fs => '(i, _) ← list_find (λ f, f.1 = name) (fields_of ir_desc t); fs !! i
  | _ => None
  end.
Definition text_field (name : gostring) v : gostring := match FieldByName name v with Some f => text_of f | None => [] end.
Definition bool_field (name : gostring) v : bool := match FieldByName name v with Some (Boolean _ b) => b | _ => false end.
Definition int_of (o : option goval) : Z := match o with Some (Integer _ z) => z | _ => 0%Z end.
Definition int_field (name : gostring) v : Z := int_of (FieldByName name v).

Definition elements_of (o : option goval) : list goval :=
  match o with
  | Some (Array _ _ vs) => vs
  | Some (Slice t _ q n) => if n =? 0 then [] else elements mem (mkRefKey (SliceType t) q n)
  | _ => []
  end.
Definition entries_of (o : option goval) : list (goval * goval) :=
  match o with Some (MapV t (Some q)) => map_entries mem (mkRefKey (MapType t) q 0) | _ => [] end.
(** [reflect.Value.Bytes], and whether the slice is nil. *)
Definition bytes_of (o : option goval) : gostring := (λ e, byte_of (int_of (Some e))) <$> elements_of o.
Definition nil_slice (o : option goval) : bool := match o with Some (Slice _ _ 0 _) => true | _ => false end.

(** [reflect.Value.IsZero] *)
Fixpoint IsZero v : bool :=
  match v with
  | Scalar _ => true
  | Boolean _ b => negb b
  | Integer _ z => (z =? 0)%Z
  | Text _ s => is_nil s
  | Struct _ fs => forallb IsZero fs
  | Array _ _ fs => forallb IsZero fs
  | Interface _ o => is_None o
  | Pointer _ o | MapV _ o => is_None o
  | Slice _ _ q _ => q =? 0
  end.

(** [fmt]'s [%v] of a map's key. *)
Definition Sprint v : gostring := match v with Text _ s => s | Integer _ z => FormatInt z | _ => [] end.

(** ** Type references ([typerefs.go]) *)

Definition typeRefType : rtype := go "TypeRef".
Definition type_ref_finds v p : list Violation :=
  if is_struct typeRefType v then
    report_if (is_nil (text_field (go "Target") v))
      (mkViolation (go "ir/type-ref-no-target") (go "type reference names no target") (spell p ++ go ".Target")) ++
    let inferred := text_field (go "Inferred") v in
    report_if (negb (is_nil inferred) && negb (bool_field (go "Nullable") v))
      (mkViolation (go "ir/type-ref-inferred-not-nullable") (go "type reference is marked inferred by " ++ Quote inferred ++ go " but admits no null")
        (spell p ++ go ".Inferred"))
  else [].
Definition type_ref_keeps v : bool := negb (is_struct typeRefType v).

(** ** Declared identities ([declared.go], [ids.go]) *)

Definition kindPrefixes : list (rtype * gostring) :=
  [(go "TypeID", IDKindType); (go "AuthID", IDKindAuth); (go "OpID", IDKindOp); (go "ServiceID", IDKindService); (go "GroupID", IDKindGroup);
   (go "PropID", IDKindProp); (go "ParamID", IDKindParam); (go "EnumMemberID", IDKindEnumMember); (go "ServerID", IDKindServer)].
Definition kindPrefix (class : rtype) : option gostring := snd <$> (snd <$> list_find (λ e, e.1 = class) kindPrefixes).
Definition pointerDerived (class : rtype) : bool := bool_decide (class = propIDType).
Definition recordedPointer (node : goval) : gostring :=
  match FieldByName (go "Provenance") node with Some prov => text_field (go "Pointer") prov | None => [] end.
Definition appendDeclaredIDViolations (node : goval) (class : rtype) (id : gostring) p : list Violation :=
  if is_nil id then
    [mkViolation (go "ir/empty-" ++ RefNoun class ++ go "-id") (RefNoun class ++ go " declares no identity of its own, so nothing can reference it") (spell p)]
  else
    match kindPrefix class with
    | None => []
    | Some prefix => placed (idDefect Quote prefix id (if pointerDerived class then recordedPointer node else [])) (spell p)
    end.
Definition declared_finds v p : list Violation :=
  match DeclaredIDOf ir_desc v with
  | Some (class, id) => if bool_decide (class ∈ KeyedClasses ir_desc (go "Document")) then [] else appendDeclaredIDViolations v class id p
  | None => []
  end.

(** ** Names ([naming.go]) *)

Definition namingType : rtype := go "Naming".
Definition nameField : gostring := go "Name".
Definition nameOptional : list rtype := [go "Primitive"].
Definition nameExempt p (optional : list rtype) : bool :=
  match path_Field (fields_of ir_desc) p with
  | Some (owner, field) => bool_decide (field = nameField) && bool_decide (owner ∈ optional)
  | None => false
  end.
Definition aliasPath p (i : nat) : gostring := spell p ++ go ".Aliases[" ++ Itoa i ++ go "]".
Fixpoint alias_loop (source : gostring) p (i : nat) (seen : gmap gostring nat) (aliases : list gostring) : list Violation :=
  match aliases with
  | [] => []
  | alias :: aliases =>
      if isBlankName alias then
        mkViolation (go "ir/naming-alias-blank") (go "alias is blank, so it matches no name") (aliasPath p i) :: alias_loop source p (S i) seen aliases
      else if negb (ValidString alias) then alias_loop source p (S i) seen aliases
      else match seen !! alias with
           | Some first =>
               mkViolation (go "ir/naming-alias-duplicate") (go "alias " ++ Quote alias ++ go " is listed here and at index " ++ Itoa first) (aliasPath p i)
               :: alias_loop source p (S i) seen aliases
           | None =>
               if bool_decide (alias = source) then
                 mkViolation (go "ir/naming-alias-redundant") (go "alias " ++ Quote alias ++ go " is the entity's own source name, so it matches nothing more") (aliasPath p i)
                 :: alias_loop source p (S i) seen aliases
               else alias_loop source p (S i) (<[alias := i]> seen) aliases
           end
  end.
Definition appendAliasViolations (source : gostring) (aliases : list gostring) p : list Violation := alias_loop source p 0 ∅ aliases.
Definition appendAbsentViolation (source canon hint : gostring) p : list Violation :=
  if negb (is_nil source) || negb (is_nil canon) || negb (is_nil hint) || nameExempt p nameOptional then []
  else [mkViolation (go "ir/naming-absent") (go "named entity carries no name at all; set a source name, canonical words or a hint") (spell p)].

Definition isCased (s : gostring) : bool := negb (bool_decide (strings_ToLower s = s)).
Definition word_runes (word : gostring) : bool := forallb (λ r, IsLetter r || IsDigit r || IsMark r) (runes word).
Definition underscore_mark : ascii := "_"%char.
Definition isWordSequence (s : gostring) : bool :=
  is_nil s || forallb (λ word, negb (is_nil word) && word_runes word) (SplitSeq s underscore_mark).
Definition straddlesLetterDigit (prev r : Z) : bool := (IsLetter prev && IsDigit r) || (IsDigit prev && IsLetter r).
Fixpoint segmented_runes (prev : Z) (rs : list Z) : bool :=
  match rs with [] => true | r :: rs => negb (straddlesLetterDigit prev r) && segmented_runes r rs end.
Definition isSegmented (s : gostring) : bool :=
  forallb (λ word, match runes word with [] => true | r :: rs => segmented_runes r rs end) (SplitSeq s underscore_mark).
Definition appendContentViolations (channel name : gostring) p : list Violation :=
  report_if (isCased name) (mkViolation (go "ir/naming-cased") (channel ++ go " " ++ Quote name ++ go " carries casing; store neutral words") (spell p)) ++
  report_if (negb (isWordSequence name))
    (mkViolation (go "ir/naming-not-words") (channel ++ go " " ++ Quote name ++ go " is not a word sequence; split it on every non-word character") (spell p)) ++
  report_if (negb (isSegmented name))
    (mkViolation (go "ir/naming-unsegmented")
      (channel ++ go " " ++ Quote name ++ go " runs a letter and a digit together in one word; the grammar splits that boundary") (spell p)).
Definition appendGrammarViolation (source canon : gostring) p : list Violation :=
  if is_nil source || HasCanonicalWords source canon then []
  else [mkViolation (go "ir/naming-not-derived")
    (go "canonical name " ++ Quote canon ++ go " is not what the grammar derives from source " ++ Quote source ++ go " (" ++ Quote (CanonicalWords source) ++
     go "); emitters cannot tell which grammar produced it") (spell p)].
Definition appendNamingViolations (source canon hint : gostring) p : list Violation :=
  appendGrammarViolation source canon p ++ appendContentViolations (go "canonical name") canon p ++ appendContentViolations (go "name hint") hint p.
(** [namingChannels], [appendNamingChecks] *)
Definition appendNamingChecks (naming : goval) p : list Violation :=
  let source := text_field (go "Source") naming in let canon := text_field (go "Canonical") naming in
  let hint := text_field (go "Hint") naming in let aliases := text_of <$> elements_of (FieldByName (go "Aliases") naming) in
  appendAbsentViolation source canon hint p ++ appendNamingViolations source canon hint p ++ appendAliasViolations source aliases p.
Definition naming_finds v p : list Violation := if is_struct namingType v then appendNamingChecks v p else [].
Definition naming_keeps v : bool := negb (is_struct namingType v).

(** ** Lists of strings ([stringlists.go]) *)

Inductive listRule := listPath | listSet | listAliases | listVerbatim | listVersions | listMembers.
#[export] Instance listRule_eq_dec : EqDecision listRule. Proof. solve_decision. Defined.
Definition stringListType : rtype := go "[]string".
Definition stringLists : list (gostring * listRule) :=
  [(go "GraphQLBinding.FieldPath", listPath); (go "Service.Namespace", listPath); (go "TypeCommon.Namespace", listPath);
   (go "OAuthFlow.TokenEndpointAuthMethods", listSet); (go "Operation.ParameterVisibility", listSet);
   (go "Operation.ReturnTypeVisibility", listSet); (go "Visibility.Only", listSet);
   (go "Naming.Aliases", listAliases);
   (go "Channel.Tags", listVerbatim); (go "FileInfo.ContentTypes", listVerbatim); (go "HTTPBinding.RequestContentTypes", listVerbatim);
   (go "Message.Tags", listVerbatim); (go "Operation.Tags", listVerbatim); (go "PartEncoding.ContentTypes", listVerbatim);
   (go "RequestCompression.Encodings", listVerbatim); (go "SchemeUse.Scopes", listVerbatim); (go "Server.Tags", listVerbatim);
   (go "ServerVariable.Enum", listVerbatim); (go "TypeCommon.Tags", listVerbatim);
   (go "Model.Requires", listMembers); (go "Flattening.Undeclared", listMembers); (go "flattener.requires", listMembers);
   (go "Availability.Added", listVersions); (go "Availability.Removed", listVersions); (go "Document.Versions", listVersions)].
(** The zero value is the rule of a field the table does not list. *)
Definition listRuleOf (t : rtype) (name : gostring) : listRule :=
  match list_find (λ e, e.1 = t ++ go "." ++ name) stringLists with Some (_, (_, rule)) => rule | None => listPath end.
Record heldList := mkHeldList { hl_index : nat; hl_name : gostring; hl_rule : listRule }.
Definition heldListsOf (t : rtype) : list heldList :=
  match ir_desc t with
  | StructKind fs => concat (imap (λ i f,
      let rule := listRuleOf t (fd_name f) in
      if bool_decide (fd_type f = stringListType) && (bool_decide (rule = listPath) || bool_decide (rule = listSet)) then [mkHeldList i (fd_name f) rule] else []) fs)
  | _ => []
  end.
Definition entryPath (owner : path) (f : heldList) (i : nat) : gostring := spell owner ++ go "." ++ hl_name f ++ go "[" ++ Itoa i ++ go "]".
Definition blankEntry (rule : listRule) (where_ : gostring) : Violation :=
  if bool_decide (rule = listSet) then mkViolation (go "ir/set-entry-blank") (go "set entry is blank, so it names nothing") where_
  else mkViolation (go "ir/path-segment-blank") (go "path segment is blank, so it names no level") where_.
Fixpoint list_loop (owner : path) (f : heldList) (i : nat) (first : gmap gostring nat) (list_ : list gostring) : list Violation :=
  match list_ with
  | [] => []
  | entry :: rest =>
      if isBlankName entry then blankEntry (hl_rule f) (entryPath owner f i) :: list_loop owner f (S i) first rest
      else if negb (ValidString entry) then list_loop owner f (S i) first rest
      else match first !! entry with
           | Some earlier =>
               if bool_decide (hl_rule f = listSet) then
                 mkViolation (go "ir/set-entry-duplicate") (go "set entry " ++ Quote entry ++ go " is listed here and at index " ++ Itoa earlier) (entryPath owner f i)
                 :: list_loop owner f (S i) first rest
               else list_loop owner f (S i) (<[entry := i]> first) rest
           | None => list_loop owner f (S i) (<[entry := i]> first) rest
           end
  end.
Definition appendListViolations (list_ : option goval) (owner : path) (f : heldList) : list Violation :=
  list_loop owner f 0 ∅ (text_of <$> elements_of list_).
Definition string_list_finds v p : list Violation :=
  match v with Struct t fs => f ← heldListsOf t; appendListViolations (fs !! hl_index f) p f | _ => [] end.

(** ** Payloads kept verbatim ([rawpayloads.go]) *)

Definition unmodeledType : rtype := go "Unmodeled".
Definition rawConfigType : rtype := go "RawConfig".
Definition reasons : list UnmodeledReason := [ReasonVendorExtension; ReasonValidationOnly; ReasonDegradedLowering; ReasonNoIRHome; ReasonOutOfScope].
Definition UnmodeledReason_Valid (r : UnmodeledReason) : bool := bool_decide (r ∈ reasons).
Definition placeEntry (found : list (gostring * gostring)) p (key empty : gostring) : list Violation :=
  (λ cm, mkViolation cm.1 cm.2 (spell p ++ if is_nil key then empty else go "[" ++ key ++ go "]")) <$> found.
Definition appendRawValue (value : option goval) (what : gostring) : list (gostring * gostring) :=
  if valid_json (bytes_of value) then []
  else [(go "ir/invalid-raw-value",
    if nil_slice value then what ++ go " value is nil, which encodes as null and decodes back as the bytes null rather than nil"
    else what ++ go " value is not a JSON value, so the document cannot be marshaled")].
Definition unmodeledEntry (key : gostring) (entry : goval) p : list Violation :=
  placeEntry
    ((if is_nil key then [(go "ir/empty-unmodeled-key", go "unmodeled map has an empty key")] else []) ++
     appendRawValue (FieldByName (go "Value") entry) (go "unmodeled entry") ++
     let reason := text_field (go "Reason") entry in
     if is_nil reason then [(go "ir/empty-unmodeled-reason", go "unmodeled entry leaves its reason at the zero value")]
     else if UnmodeledReason_Valid reason then []
     else [(go "ir/unknown-unmodeled-reason", go "unmodeled entry carries undeclared reason " ++ Quote reason)])
    p key (go "[" ++ [quote_mark; quote_mark] ++ go "]").
Definition rawConfigEntry (key : gostring) (entry : goval) p : list Violation :=
  placeEntry (appendRawValue (Some entry) (go "protocol config")) p key (go "[]").
Definition raw_finds v p : list Violation :=
  match v with
  | MapV t _ =>
      if bool_decide (t = unmodeledType) then e ← entries_of (Some v); unmodeledEntry (text_of e.1) e.2 p
      else if bool_decide (t = rawConfigType) then e ← entries_of (Some v); rawConfigEntry (text_of e.1) e.2 p
      else []
  | _ => []
  end.
Definition raw_keeps v : bool :=
  match v with MapV t _ => negb (bool_decide (t = unmodeledType)) && negb (bool_decide (t = rawConfigType)) | _ => true end.

(** ** Provenance ([provenance.go]) *)

Definition provenanceType : rtype := go "Provenance".
Definition RuneErrorText : gostring := EncodeRune RuneError.
Definition sourceOutOfRange (index declared : Z) : bool :=
  if (declared =? 0)%Z then negb (index =? 0)%Z && negb (index =? NoSource)%Z
  else negb (InTable (mkProvenance index [] zeroPosition [] []) declared).
Definition appendLocatorViolations (prov : goval) (src : Z) p : list Violation :=
  let pointer := text_field (go "Pointer") prov in
  let position := FieldByName (go "Position") prov in
  let line := match position with Some q => int_field (go "Line") q | None => 0%Z end in
  let column := match position with Some q => int_field (go "Column") q | None => 0%Z end in
  let positioned := negb (line =? 0)%Z || negb (column =? 0)%Z in
  report_if (negb (Pointer_IsValid (ToValidUTF8 pointer RuneErrorText)))
    (mkViolation (go "ir/provenance-pointer-malformed") (go "provenance pointer " ++ Quote pointer ++ go " is not an RFC 6901 JSON Pointer") (spell p)) ++
  report_if (positioned && ((line <? 1)%Z || (column <? 0)%Z))
    (mkViolation (go "ir/provenance-position-malformed")
      (go "provenance position " ++ FormatInt line ++ go ":" ++ FormatInt column ++ go " is not a 1-based line with a column of 0 or more") (spell p)) ++
  report_if ((src =? NoSource)%Z && (negb (is_nil pointer) || positioned))
    (mkViolation (go "ir/provenance-locator-without-source") (go "provenance locates a construct inside a source but names none") (spell p)).
Definition provenance_finds (declared : Z) v p : list Violation :=
  if is_struct provenanceType v then
    let src := int_field (go "Source") v in
    report_if (sourceOutOfRange src declared)
      (mkViolation (go "ir/provenance-source-out-of-range")
        (go "provenance source " ++ FormatInt src ++ go " does not address one of " ++ FormatInt declared ++ go " declared sources") (spell p)) ++
    appendLocatorViolations v src p
  else [].
Definition provenance_keeps v : bool := negb (is_struct provenanceType v).

(** ** Indices ([indices.go]) *)

Definition operationType : rtype := go "Operation".
Definition responseIndexViolation (index declared : Z) (op : path) (binding : nat) : Violation :=
  mkViolation (go "ir/response-index-out-of-range")
    (go "response index " ++ FormatInt index ++ go " addresses none of the " ++ FormatInt declared ++ go " declared responses")
    (spell op ++ go ".Bindings.HTTP[" ++ Itoa binding ++ go "].SuccessStatus[" ++ FormatInt index ++ go "]").
Definition appendResponseIndexViolations (op : goval) p : list Violation :=
  let declared := Z.of_nat (length (elements_of (FieldByName (go "Responses") op))) in
  concat (imap (λ i binding,
    e ← entries_of (FieldByName (go "SuccessStatus") binding);
    let index := int_of (Some e.1) in
    report_if ((index <? 0)%Z || (declared <=? index)%Z) (responseIndexViolation index declared p i))
    (elements_of (FieldByName (go "Bindings") op ≫= FieldByName (go "HTTP")))).
Definition index_finds v p : list Violation := if is_struct operationType v then appendResponseIndexViolations v p else [].

(** ** Numbers ([bigval.go]) *)

Definition bigValType : rtype := go "BigVal".
Definition bigValPtrType : rtype := go "*BigVal".
Definition appendBigVal (literal : gostring) p : list Violation :=
  match NewBigVal literal with
  | Err (ErrExponentRange _) =>
      [mkViolation (go "ir/bigval-out-of-range")
        (go "numeric value " ++ Quote literal ++ go " is a decimal literal whose leading digit carries a power of ten past the ±" ++
         FormatInt MaxDecimalExp ++ go " a BigVal holds") (spell p)]
  | Err _ =>
      [mkViolation (go "ir/bigval-not-numeric") (go "numeric value " ++ Quote literal ++ go " is not a decimal literal, so it does not read back as a JSON number") (spell p)]
  | Ok canonical =>
      report_if (negb (bool_decide (canonical = literal)))
        (mkViolation (go "ir/bigval-not-canonical")
          (go "numeric value " ++ Quote literal ++ go " is not the JSON form " ++ Quote canonical ++ go " ir.NewBigVal produces for it") (spell p))
  end.
Definition bigval_finds v p : list Violation :=
  if of_type bigValPtrType v then
    match v with Pointer t (Some q) => appendBigVal (text_of (pointee mem (mkRefKey (PointerType t) q 0))) p | _ => [] end
  else if of_type bigValType v then (if is_nil (text_of v) then [] else appendBigVal (text_of v) p)
  else [].
Definition bigval_keeps v : bool := negb (of_type bigValPtrType v) && negb (of_type bigValType v).

(** ** Inferred markers ([inferred.go]) *)

Definition inferredType : rtype := go "Inferred".
Definition partEncodingType : rtype := go "PartEncoding".
Definition partMarkerViolations (part : goval) p : list Violation :=
  let inferred := text_field (go "Inferred") part in
  if is_nil inferred || bool_field (go "Filename") part then []
  else [mkViolation (go "ir/part-encoding-inferred-not-filename")
    (go "part encoding is marked inferred by " ++ Quote inferred ++ go " but carries no filename") (spell p ++ go ".Inferred")].
Definition inferred_finds v p : list Violation :=
  if of_type partEncodingType v then partMarkerViolations v p
  else if of_type inferredType v then
    let l := text_of v in
    report_if (negb (IsCanonical l))
      (mkViolation (go "ir/inferred-not-canonical")
        (go "inferred marker " ++ Quote l ++ go " is not the list " ++ Quote (JoinInferred [l]) ++ go " ir.JoinInferred writes for it") (spell p))
  else [].
Definition inferred_keeps v : bool := of_type partEncodingType v || negb (of_type inferredType v).

(** ** Enumerations ([kinds.go]) *)

Definition operationPath : list rtype :=
  [go "*Document"; go "Document"; go "[]Service"; go "Service"; go "[]OperationGroup"; go "OperationGroup"; go "[]Operation"; go "Operation"].
Definition on_operation_path v : bool := bool_decide (type_of v ∈ operationPath).
Definition streamingModeType : rtype := go "StreamingMode".
Definition stabilityType : rtype := go "Stability".
Definition StreamingMode_Valid (m : StreamingMode) : bool := bool_decide (m ∈ [StreamingNone; StreamingClient; StreamingServer; StreamingBidi]).
Definition Stability_Valid (s : Stability) : bool := bool_decide (s ∈ [StabilityUnstated; StabilityAlpha; StabilityBeta; StabilityStable]).
Definition streaming_finds v p : list Violation :=
  if of_type streamingModeType v then
    report_if (negb (StreamingMode_Valid (text_of v)))
      (mkViolation (go "ir/unknown-streaming-mode") (go "operation carries undeclared streaming mode " ++ Quote (text_of v)) (spell p))
  else [].
Definition streaming_keeps v : bool := if of_type streamingModeType v then false else on_operation_path v.
Definition stability_finds v p : list Violation :=
  if of_type stabilityType v then
    report_if (negb (Stability_Valid (text_of v)))
      (mkViolation (go "ir/unknown-stability") (go "stability names undeclared tier " ++ Quote (text_of v)) (spell p))
  else [].
Definition stability_keeps v : bool := if of_type stabilityType v then false else on_operation_path v.

(** ** References in prose ([docrefs.go]) *)

Definition docsType : rtype := go "Docs".
Definition docRefPath p (i : nat) : gostring := spell p ++ go ".Refs[" ++ Itoa i ++ go "]".
Definition starts_rune (text : gostring) (i : Z) : bool := match text !! Z.to_nat i with Some c => RuneStart c | None => false end.
Definition isSpanOf (start stop : Z) (text : gostring) : bool :=
  let n := Z.of_nat (length text) in
  if ((0 <=? start) && (start <? stop) && (stop <=? n))%Z then
    starts_rune text start && ((stop =? n)%Z || starts_rune text stop)
  else false.
Fixpoint doc_ref_loop (text : gostring) p (i : nat) (stop : Z) (refs : list (Z * Z)) : list Violation :=
  match refs with
  | [] => []
  | (from, to) :: refs =>
      let span := go "doc reference [" ++ FormatInt from ++ go "," ++ FormatInt to ++ go ") " in
      if negb (isSpanOf from to text) then
        mkViolation (go "ir/doc-ref-span")
          (span ++ go "is no span of the " ++ Itoa (length text) ++ go " bytes of its description: it is empty, outside them or splits a rune") (docRefPath p i)
        :: doc_ref_loop text p (S i) stop refs
      else if (from <? stop)%Z then
        mkViolation (go "ir/doc-ref-order") (span ++ go "starts before the span ahead of it ends, at " ++ FormatInt stop) (docRefPath p i)
        :: doc_ref_loop text p (S i) (Z.max stop to) refs
      else doc_ref_loop text p (S i) to refs
  end.
Definition docRefViolations (docs : goval) p : list Violation :=
  doc_ref_loop (text_field (go "Description") docs) p 0 0
    ((λ r, (int_field (go "StartByte") r, int_field (go "EndByte") r)) <$> elements_of (FieldByName (go "Refs") docs)).
Definition doc_ref_finds v p : list Violation := if is_struct docsType v then docRefViolations v p else [].
Definition doc_ref_keeps v : bool := negb (is_struct docsType v).

(** ** Text that decodes ([utf8.go]) *)

Definition utf8_finds v p : list Violation :=
  match v with
  | Text _ s => report_if (negb (ValidString s)) (mkViolation (go "ir/invalid-utf8") (go "string is not valid UTF-8, so the document cannot be encoded") (spell p))
  | _ => []
  end.

(** ** Values ([values.go]) *)

Definition valueType : rtype := go "Value".
(** The payload field a kind selects, if any, and whether its zero value is one. *)
Definition valuePayloads : list (gostring * (gostring * bool)) :=
  [(go "null", ([], false)); (go "bool", (go "Bool", true)); (go "string", (go "Str", true)); (go "number", (go "Num", false));
   (go "bytes", (go "Bytes", true)); (go "symbol", (go "Str", true)); (go "list", (go "List", true)); (go "object", (go "Object", true));
   (go "ref", (go "Ref", false)); (go "ctor", (go "Ctor", false))].
Definition payloadRule (kind : gostring) : option (gostring * bool) := snd <$> (snd <$> list_find (λ e, e.1 = kind) valuePayloads).
Definition payloadSet (field : goval) : bool := match field with Slice _ _ _ n => negb (n =? 0) | _ => negb (IsZero field) end.
Definition payload_finds (kind : gostring) (rule : gostring * bool) p (name : gostring) (field : goval) : list Violation :=
  if bool_decide (name = go "Kind") then []
  else if negb (bool_decide (name = rule.1)) && payloadSet field then
    [mkViolation (go "ir/value-stray-payload") (go "value of kind " ++ Quote kind ++ go " populates " ++ name ++ go ", a payload its kind does not select")
      (spell p ++ go "." ++ name)]
  else if bool_decide (name = rule.1) && negb (payloadSet field) && negb rule.2 then
    [mkViolation (go "ir/value-missing-payload") (go "value of kind " ++ Quote kind ++ go " leaves " ++ name ++ go " empty, which is no value of that kind")
      (spell p ++ go "." ++ name)]
  else [].
Definition appendValueViolations v p : list Violation :=
  let kind := text_field (go "Kind") v in
  match payloadRule kind, v with
  | None, _ => [mkViolation (go "ir/unknown-value-kind") (go "value carries undeclared kind " ++ Quote kind) (spell p ++ go ".Kind")]
  | Some rule, Struct t fs => '(f, field) ← zip (fields_of ir_desc t) fs; payload_finds kind rule p f.1 field
  | _, _ => []
  end.
Definition value_finds v p : list Violation := if of_type valueType v then appendValueViolations v p else [].

(** ** References that are empty ([emptyrefs.go]) *)

Definition idTypes : list rtype :=
  [go "TypeID"; go "OpID"; go "ChannelID"; go "MessageID"; go "AuthID"; go "ServiceID"; go "GroupID"; go "PropID"; go "ParamID"; go "EnumMemberID"; go "ServerID"].
Inductive idRule := idRequired | idOptional | idLocator | idElsewhere.
#[export] Instance idRule_eq_dec : EqDecision idRule. Proof. solve_decision. Defined.
(** The positions whose rule is not the zero value's, [idRequired]. *)
Definition idPositions : list (gostring * idRule) :=
  ((., idElsewhere) <$> [go "AuthScheme.ID"; go "Channel.ID"; go "Message.ID"; go "Operation.ID"; go "Parameter.ID"; go "EnumMember.ID"; go "OperationGroup.ID";
     go "Property.ID"; go "Service.ID"; go "TypeCommon.ID"; go "Document.Types"; go "Document.Channels"; go "Document.Messages"; go "Document.Auth";
     go "Document.Servers"; go "Server.ID"; go "TypeRef.Target"; go "flattener.types"]) ++
  [(go "Idempotency.TokenParam", idOptional); (go "Discriminator.Default", idOptional); (go "Discriminator.Property", idLocator)].
Definition idRuleOf (t : rtype) (name : gostring) : idRule :=
  match list_find (λ e, e.1 = t ++ go "." ++ name) idPositions with Some (_, (_, rule)) => rule | None => idRequired end.
Inductive idShape := idScalar | idPointer | idSlice | idMapKey | idMapValue.
Record idField := mkIdField { if_index : nat; if_name : gostring; if_shape : idShape; if_noun : gostring; if_rule : idRule }.
Definition is_id (t : rtype) : bool := bool_decide (t ∈ idTypes).
(** A pointer's type is spelled with a star, a slice's with empty brackets. *)
Definition idShapeOf (t : rtype) : option (idShape * rtype) :=
  if is_id t then Some (idScalar, t)
  else match ir_desc t, t with
       | ElemKind elem, c :: _ => if is_id elem then Some (if bool_decide (c = "*"%char) then idPointer else idSlice, elem) else None
       | MapKind key elem, _ => if is_id key then Some (idMapKey, key) else if is_id elem then Some (idMapValue, elem) else None
       | _, _ => None
       end.
Definition idFieldsOf (t : rtype) : list idField :=
  match ir_desc t with
  | StructKind fs => concat (imap (λ i f,
      match idShapeOf (fd_type f) with
      | Some (shape, idType) =>
          let rule := idRuleOf t (fd_name f) in
          if bool_decide (rule = idElsewhere) then [] else [mkIdField i (fd_name f) shape (RefNoun idType) rule]
      | None => []
      end) fs)
  | _ => []
  end.
Definition fieldPath p (f : idField) : gostring := spell p ++ go "." ++ if_name f.
Definition emptyAllowed (owner : goval) (rule : idRule) : bool :=
  match rule with
  | idOptional => true
  | idLocator => negb (is_nil (text_field (go "PropertyName") owner)) ||
      negb (match FieldByName (go "Index") owner with Some (Pointer _ None) | None => true | _ => false end)
  | _ => false
  end.
Definition emptyRef (f : idField) (where_ : gostring) : Violation :=
  mkViolation (go "ir/empty-" ++ if_noun f ++ go "-ref")
    (match if_rule f with
     | idLocator => go "discriminator names no tag property, and neither PropertyName nor Index locates the tag instead"
     | _ => if_noun f ++ go " reference is empty, and this position has no empty form"
     end) where_.
Definition appendEmptyRefs (owner : goval) (field : option goval) (f : idField) p : list Violation :=
  let empty o := match o with Some (Text _ []) => true | _ => false end in
  match if_shape f with
  | idScalar => report_if (empty field && negb (emptyAllowed owner (if_rule f))) (emptyRef f (fieldPath p f))
  | idPointer =>
      match field with
      | Some (Pointer t (Some q)) => report_if (empty (Some (pointee mem (mkRefKey (PointerType t) q 0)))) (emptyRef f (fieldPath p f))
      | _ => []
      end
  | idSlice => concat (imap (λ i e, report_if (empty (Some e)) (emptyRef f (fieldPath p f ++ go "[" ++ Itoa i ++ go "]"))) (elements_of field))
  | idMapKey => report_if (existsb (λ e, empty (Some e.1)) (entries_of field)) (emptyRef f (fieldPath p f ++ go "[]" ++ MapKeySuffix))
  | idMapValue => e ← entries_of field; report_if (empty (Some e.2)) (emptyRef f (fieldPath p f ++ go "[" ++ Sprint e.1 ++ go "]"))
  end.
Definition empty_ref_finds v p : list Violation :=
  match v with Struct t fs => f ← idFieldsOf t; appendEmptyRefs v (fs !! if_index f) f p | _ => [] end.

(** ** Idempotency and webhooks ([idempotency.go], [webhooks.go]) *)

Definition idempotencyType : rtype := go "Idempotency".
Definition idempotency_finds v p : list Violation :=
  if of_type idempotencyType v then
    let token := text_field (go "TokenParam") v in let kind := text_field (go "Kind") v in
    if Bool.eqb (negb (is_nil token)) (bool_decide (kind = IdempotencyToken)) then []
    else [mkViolation (go "ir/idempotency-token")
      (go "idempotency kind " ++ Quote kind ++ go " with token parameter " ++ Quote token ++ go ": a token is named exactly when the kind is " ++ Quote IdempotencyToken) (spell p)]
  else [].

Definition httpBindingType : rtype := go "HTTPBinding".
Definition appendStrayRoute (binding : goval) p : list Violation :=
  let webhook := bool_field (go "IsWebhook") binding in
  let template := text_field (go "URITemplate") binding in let name := text_field (go "WebhookName") binding in
  if webhook && negb (is_nil template) then
    [mkViolation (go "ir/webhook-route")
      (go "webhook binding carries URI template " ++ Quote template ++ go "; a webhook names its event in WebhookName and has no template") (spell p ++ go ".URITemplate")]
  else if negb webhook && negb (is_nil name) then
    [mkViolation (go "ir/webhook-route")
      (go "binding that is not a webhook carries webhook name " ++ Quote name ++ go "; only a webhook binding names an event") (spell p ++ go ".WebhookName")]
  else [].
Definition webhook_finds v p : list Violation := if of_type httpBindingType v then appendStrayRoute v p else [].
End Rules.
