(* ===== verification/Acyclic.v ===== *)
(** * Acyclic: a walk tells of a cycle exactly when a value leads to itself

    One visitor that reads everything and is told of cycles, walking alone. A
    value is acyclic when no way down from it goes on for ever, as an encoder
    needs it to be. *)
From S2P Require Import Prelude GoLib Decimal Findings Walk WalkAlone WalkTrace.

(** Every way down from the value ends. *)
Definition acyclic (mem : memory) : goval → Prop := Acc (λ c v, child mem v c).

Section Acyclic.
Context (mem : memory) (plain : gostring → bool) (Sprint : goval → gostring) (root : gostring) {S : Type}.
(** The visitor, the only one of its list, and how often a state was told. *)
Context (vs : list (option (Visitor (S:=S)))) (i : nat) (V : Visitor (S:=S)) (told : S → path → path → refType → S) (count : S → nat).

Record counts_cycles : Prop := {
  cc_small : i < maxSharedVisitors;
  cc_here : vs !! i = Some (Some V);
  cc_reads s v p : (Visit V s v p).2 = true;
  cc_quiet s v p : count (Visit V s v p).1 = count s;
  cc_cycle : Cycle V = Some told;
  cc_told s at_ entered t : count (told s at_ entered t) = Datatypes.S (count s)
}.
Context (HV : counts_cycles).

#[local] Abbreviation W := (valueWalk (S:=S)).
#[local] Abbreviation active := (alone i).
Implicit Types (w : W) (v c : goval) (F : W → W) (D : goval → visitorSet → W → W) (k : refKey).
Definition tally w : nat := count (store w).

(** What a reference holds. *)
Definition inner (k : refKey) v : Prop :=
  match rk_typ k with PointerType _ => v = pointee mem k | _ => held mem k v end.

(** ** Showing, and closing a cycle *)

Lemma show_counts v w : ∃ s, Walk.show root vs v active w = (set_store w s, active) ∧ count s = tally w.
Proof.
  unfold Walk.show. rewrite members_alone by apply HV. cbn [foldl]. unfold show_to. rewrite (cc_here HV). cbn [fst snd].
  pose proof (cc_reads HV (store w) v (here root w)) as Hr. pose proof (cc_quiet HV (store w) v (here root w)) as Hq.
  destruct (Visit V _ _ _) as [s asks]. cbn in Hr, Hq. subst asks. exists s. split; [done|exact Hq].
Qed.

Lemma closes_counts k w : 
  (closesCycle root vs k active w = (false, w) ∧ ∀ r, r ∈ inside w → in_key r ≠ k) ∨
  (∃ s r, closesCycle root vs k active w = (true, set_store w s) ∧ count s = Datatypes.S (tally w) ∧ r ∈ inside w ∧ in_key r = k).
Proof.
  unfold closesCycle. destruct (list_find _ (inside w)) as [[n r]|] eqn:E; [right|left].
  - apply list_find_Some in E as (E & Hk & _). rewrite members_alone by apply HV. cbn [foldl]. unfold tell_cycle. rewrite (cc_here HV), (cc_cycle HV).
    eexists _, r. split; [done|]. split; [apply (cc_told HV)|]. split; [by eapply list_elem_of_lookup_2|done].
  - split; [done|]. apply list_find_None in E. rewrite Forall_forall in E. exact E.
Qed.

(** ** Told of nothing, everything below ends *)

(** A pointer entered either is entered still, or leads to what ends. *)
Definition ended w : Prop := ∀ t p, let k := mkRefKey (PointerType t) p 0 in
  bit (default 0%Z (seen w !! k)) i = true → (∃ r, r ∈ inside w ∧ in_key r = k) ∨ acyclic mem (pointee mem k).

Record settles (from : goval → Prop) w w' : Prop := {
  se_inside : inside w' = inside w;
  se_refusal : refusal w' = None;
  se_tally : tally w ≤ tally w';
  se_ended : truncated w' = false → tally w' = tally w → ended w → ended w' ∧ ∀ v, from v → acyclic mem v
}.
Record stage_settles (from : goval → Prop) F : Prop := {
  ss_cut w : truncated w = true → truncated (F w) = true;
  ss_settles w : refusal w = None → settles from w (F w)
}.
Definition always_settles D : Prop := ∀ v, stage_settles (λ u, u = v) (D v active).

Lemma settles_none F : (∀ w, F w = w) → stage_settles (λ _, False) F.
Proof. intros HF. constructor; intros w; rewrite HF; [done|]. intros Hr. by constructor. Qed.

Lemma settles_compose from from' F G : stage_settles from F → stage_settles from' G → stage_settles (λ v, from v ∨ from' v) (λ w, G (F w)).
Proof.
  intros HF HG. constructor; [intros w Hw; by apply (ss_cut _ _ HG), (ss_cut _ _ HF)|]. intros w Hr.
  destruct (ss_settles _ _ HF w Hr) as [A1 A2 A3 A4]. destruct (ss_settles _ _ HG (F w) A2) as [B1 B2 B3 B4].
  constructor; [congruence|done|lia|]. intros Ht Hc Hw. assert (Htf : truncated (F w) = false).
  { destruct (truncated (F w)) eqn:E; [|done]. apply (ss_cut _ _ HG) in E. congruence. }
  destruct (A4 Htf ltac:(lia) Hw) as [Hw' Ha]. destruct (B4 Ht ltac:(lia) Hw') as [Hw'' Hb]. split; [done|]. intros v [?|?]; auto.
Qed.

Lemma settles_ext from from' F : (∀ v, from v ↔ from' v) → stage_settles from F → stage_settles from' F.
Proof.
  intros He HF. constructor; [apply HF|]. intros w Hr. destruct (ss_settles _ _ HF w Hr) as [A1 A2 A3 A4]. constructor; [done..|].
  intros Ht Hc Hw. destruct (A4 Ht Hc Hw) as [? Ha]. split; [done|]. intros v Hv. by apply Ha, He.
Qed.

Lemma step_settles D s c : always_settles D → stage_settles (λ u, u = c) (step D s c active).
Proof.
  intros HD. constructor; [intros w Hw; exact (ss_cut _ _ (HD c) (set_steps w (steps w ++ [s])) Hw)|].
  intros w Hr. destruct (ss_settles _ _ (HD c) (set_steps w (steps w ++ [s])) Hr) as [A1 A2 A3 A4]. by constructor.
Qed.

Lemma steps_settles D cs : always_settles D → stage_settles (λ u, u ∈ cs.*2) (step_all D cs active).
Proof.
  intros HD. unfold step_all. induction cs as [|[s c] cs IH]; cbn [foldl fmap list_fmap].
  - eapply settles_ext; [|by apply settles_none]. intros v. by rewrite elem_of_nil.
  - eapply settles_ext; [|exact (settles_compose _ _ _ _ (step_settles D s c HD) IH)]. intros v. by rewrite elem_of_cons.
Qed.

(** Told of a cycle, nothing more is claimed. *)
Lemma told_settles from w s : refusal w = None → count s = Datatypes.S (tally w) → settles from w (set_store w s).
Proof.
  intros Hr Hc. constructor; [exact eq_refl|exact Hr| |]; change (tally (set_store w s)) with (count s); rewrite Hc; [lia|].
  intros _ E. lia.
Qed.

(** Inside one more reference, of a slice or a map. *)
Lemma reference_settles D k cs : (∀ t, rk_typ k ≠ PointerType t) → always_settles D →
  stage_settles (λ u, u ∈ cs.*2) (reference root vs D k cs active).
Proof.
  intros Hk HD. pose proof (steps_settles D cs HD) as Hs. unfold reference. constructor; intros w.
  - intros Hw. destruct (closes_counts k w) as [[-> _]|(s & r & -> & _)]; [|done]. exact (ss_cut _ _ Hs (enter k w) Hw).
  - intros Hr. destruct (closes_counts k w) as [[-> _]|(s & r & -> & Hc & _)].
    + destruct (ss_settles _ _ Hs (enter k w) Hr) as [A1 A2 A3 A4]. constructor; [|exact A2|exact A3|].
      * cbn [inside leave set_inside]. rewrite A1. apply removelast_last.
      * intros Ht Hc Hw. destruct (A4 Ht Hc) as [Hw' Ha].
        { intros t p k' Hb. destruct (Hw t p Hb) as [(r & Hin & Hkr)|?]; [left|by right]. exists r. split; [|done]. apply elem_of_app. by left. }
        split; [|done]. intros t p k' Hb. destruct (Hw' t p Hb) as [(r & Hin & Hkr)|?]; [left|by right].
        cbn [inside leave set_inside]. rewrite A1 in Hin |- *. cbn [inside enter set_inside] in Hin |- *. rewrite removelast_last.
        apply elem_of_app in Hin as [Hin|Hin%list_elem_of_singleton]; [by exists r|]. subst r. cbn in Hkr. subst k. by destruct (Hk t).
    + by apply told_settles.
Qed.

Lemma acyclic_pointer t p : acyclic mem (pointee mem (mkRefKey (PointerType t) p 0)) → acyclic mem (Pointer t (Some p)).
Proof. intros Ha. constructor. intros c Hc. by inversion Hc; subst. Qed.

Lemma pointer_settles D t p : always_settles D →
  stage_settles (λ u, u = pointee mem (mkRefKey (PointerType t) p 0)) (pointer mem root vs D t p active).
Proof.
  intros HD. set (k := mkRefKey (PointerType t) p 0).
  assert (Hcase : ∀ w, (bit (default 0%Z (seen w !! k)) i = true ∧ pointer mem root vs D t p active w = (closesCycle root vs k active w).2) ∨
    pointer mem root vs D t p active w = leave (D (pointee mem k) active (enter k (set_seen w (<[k := Z.lor (default 0%Z (seen w !! k)) active]> (seen w)))))).
  { intros w. unfold pointer. fold k. destruct (bit (default 0%Z (seen w !! k)) i) eqn:Hb.
    - left. split; [done|]. replace (Z.ldiff active (default 0%Z (seen w !! k))) with 0%Z; [done|]. symmetry. apply set_zero. intros j.
      rewrite bit_ldiff, bit_alone. case_bool_decide as Hj; [subst j; by rewrite Hb|done].
    - right. assert (Hf : Z.ldiff active (default 0%Z (seen w !! k)) = active).
      { apply Z.bits_inj'. intros n Hn. rewrite <- (Z2Nat.id n) by done. fold (bit (Z.ldiff active (default 0%Z (seen w !! k))) (Z.to_nat n)).
        fold (bit active (Z.to_nat n)). rewrite bit_ldiff, bit_alone. case_bool_decide as Hj; [|done]. rewrite <- Hj. by rewrite Hb. }
      rewrite Hf. destruct (Z.eqb_spec active 0%Z) as [E|_]; [|done]. apply set_zero with (i := i) in E. rewrite bit_alone in E. by rewrite bool_decide_eq_true_2 in E. }
  constructor; intros w.
  - intros Hw. destruct (Hcase w) as [[_ ->]| ->]; [by destruct (closes_counts k w) as [[-> _]|(s & r & -> & _)]|]. by apply (ss_cut _ _ (HD _)).
  - intros Hr. destruct (Hcase w) as [[Hb ->]| ->].
    + destruct (closes_counts k w) as [[-> Hno]|(s & r & -> & Hc & _)]; cbn [snd]; [|by apply told_settles]. constructor; [done|exact Hr|lia|].
      intros _ _ Hw. split; [exact Hw|]. intros v ->. destruct (Hw t p Hb) as [(r & Hin & Hk)|?]; [by apply Hno in Hin|done].
    + set (w1 := enter k _). destruct (ss_settles _ _ (HD (pointee mem k)) w1 Hr) as [A1 A2 A3 A4]. constructor; [|exact A2|exact A3|].
      * cbn [inside leave set_inside]. rewrite A1. apply removelast_last.
      * intros Ht Hc Hw. destruct (A4 Ht Hc) as [Hw' Ha].
        { intros t' p' k' Hb. cbn [inside enter set_inside w1 set_seen seen] in *. destruct (decide (mkRefKey (PointerType t') p' 0 = k)) as [E|Hne].
          - left. exists (mkInside k (length (steps w))). split; [|done]. apply elem_of_app. right. by left.
          - rewrite lookup_insert_ne in Hb by done. destruct (Hw t' p' Hb) as [(r & Hin & Hkr)|?]; [left|by right]. exists r. split; [|done]. apply elem_of_app. by left. }
        specialize (Ha _ eq_refl). split; [|by intros v ->]. intros t' p' k' Hb. destruct (Hw' t' p' Hb) as [(r & Hin & Hkr)|?]; [|by right].
        cbn [inside leave set_inside]. rewrite A1 in Hin |- *. cbn [inside enter set_inside w1 set_seen] in Hin |- *. rewrite removelast_last.
        apply elem_of_app in Hin as [Hin|Hin%list_elem_of_singleton]; [left; by exists r|]. subst r. right. cbn [in_key] in Hkr. unfold k'. rewrite <- Hkr. exact Ha.
Qed.

Lemma children_settles D v : always_settles D → stage_settles (λ c, child mem v c) (children mem plain Sprint root vs D v active).
Proof.
  intros HD. assert (Hnone : (∀ c, ¬ child mem v c) → stage_settles (λ c, child mem v c) id).
  { intros Hn. eapply settles_ext; [|by apply (settles_none id)]. intros c. split; [done|]. apply Hn. }
  destruct v as [t|t b0|t z|t s|t fs|t [v|]|t [p|]|t bytes es|t bytes p n|t [p|]]; unfold children, sequence; try (apply Hnone; by inversion 1).
  - eapply settles_ext; [|by apply steps_settles]. intros c. rewrite field_steps_values. split; [by constructor|by inversion 1].
  - eapply settles_ext; [|by apply HD]. intros c. split; [intros ->; constructor|by inversion 1].
  - eapply settles_ext; [|by apply pointer_settles]. intros c. split; [intros ->; constructor|by inversion 1].
  - destruct bytes; cbn [orb]; [apply Hnone; by inversion 1|]. destruct es as [|v es]; cbn [length Nat.eqb]; [apply Hnone; inversion 1; by eapply elem_of_nil|].
    eapply settles_ext; [|by apply steps_settles]. intros c. rewrite element_steps_values. split; [by constructor|by inversion 1].
  - destruct bytes; cbn [orb]; [apply Hnone; by inversion 1|]. destruct n as [|n]; cbn [Nat.eqb]; [apply Hnone; inversion 1; done|].
    eapply settles_ext; [|by apply reference_settles]. intros c. rewrite element_steps_values. split; [by constructor|by inversion 1].
  - unfold mapping. set (k := mkRefKey (MapType t) p 0). destruct (map_entries mem k) as [|e es] eqn:E.
    + apply Hnone. inversion 1 as [| | | | |? ? ? ? He|? ? ? ? He]; subst; fold k in He; rewrite E in He; by apply elem_of_nil in He.
    + rewrite <- E. eapply settles_ext; [|by apply reference_settles].
      intros c. rewrite entry_steps_values. split; [intros ([k' v'] & He & [->| ->]); by econstructor|].
      inversion 1 as [| | | | |? ? ? ? He|? ? ? ? He]; subst; eexists; (split; [exact He|]); auto.
Qed.

Lemma body_counts D v w : refusal w = None → ∃ s, count s = tally w ∧
  body mem plain Sprint root vs D v active w = children mem plain Sprint root vs D v active (set_store w s).
Proof.
  intros Hr. unfold body, refused. rewrite Hr. cbn [bool_decide]. destruct (show_counts v w) as (s & -> & Hs). exists s. split; [done|].
  destruct (Z.eqb_spec active 0%Z) as [E|_]; [|done]. apply set_zero with (i := i) in E. rewrite bit_alone in E. by rewrite bool_decide_eq_true_2 in E.
Qed.

Lemma body_settles D : always_settles D → always_settles (body mem plain Sprint root vs D).
Proof.
  intros HD v. pose proof (children_settles D v HD) as Hc. constructor; intros w.
  - intros Hw. unfold body, refused. destruct (refusal w) eqn:Hr; [done|]. cbn [bool_decide]. destruct (show_counts v w) as (s & -> & _).
    destruct (_ =? 0)%Z; [done|]. by apply (ss_cut _ _ Hc).
  - intros Hr. destruct (body_counts D v w Hr) as (s & Hs & ->). destruct (ss_settles _ _ Hc (set_store w s) Hr) as [A1 A2 A3 A4].
    unfold tally at 1 in A3. cbn [store set_store] in A3. constructor; [done|done|lia|]. intros Ht Hcount Hw.
    destruct (A4 Ht) as [Hw' Ha]; [unfold tally at 2; cbn [store set_store]; lia|done|]. split; [done|]. intros u ->. by constructor.
Qed.

Lemma walk_settled (levels : nat) : always_settles (walk mem plain Sprint root vs None levels).
Proof.
  assert (Ht : always_settles (λ _ _, truncate)) by (intros v; constructor; [done|]; intros w Hr; by constructor).
  induction levels as [|levels IH]; [exact (body_settles _ Ht)|exact (body_settles _ IH)].
Qed.

(** ** What ends is told of nothing *)

(** Each reference the walk is inside leads to the value. *)
Definition chain w v : Prop := ∀ r, r ∈ inside w → ∃ c, inner (in_key r) c ∧ rtc (child mem) c v.
Definition stays F w : Prop := tally (F w) = tally w ∧ inside (F w) = inside w ∧ refusal (F w) = None.
Definition quiet_below D : Prop := ∀ v w, refusal w = None → acyclic mem v → chain w v → stays (D v active) w.

Lemma chain_child w v c : chain w v → child mem v c → chain w c.
Proof. intros Hw Hc r Hr. destruct (Hw r Hr) as (x & Hx & Hxv). exists x. split; [done|]. by eapply rtc_r. Qed.
Lemma acyclic_child v c : acyclic mem v → child mem v c → acyclic mem c.
Proof. intros [Ha] Hc. by apply Ha. Qed.
Lemma acyclic_loop v c : acyclic mem v → child mem v c → rtc (child mem) c v → False.
Proof.
  intros Ha. revert c. induction Ha as [v _ IH]. intros c Hvc Hcv.
  destruct (rtc_inv _ _ Hcv) as [->|(d & Hcd & Hdv)]; [apply (IH v Hvc v Hvc), rtc_refl|].
  apply (IH c Hvc d Hcd). by eapply rtc_r.
Qed.

Lemma steps_quiet D v cs w : quiet_below D → acyclic mem v → (∀ c, c ∈ cs.*2 → child mem v c) → refusal w = None → 
  chain w v → stays (step_all D cs active) w.
Proof.
  intros HD Ha. unfold step_all, stays. revert w. induction cs as [|[s c] cs IH]; intros w Hcs Hr Hw; [done|]. cbn [foldl fst snd].
  assert (Hc : child mem v c) by (apply Hcs; by left).
  destruct (HD c (set_steps w (steps w ++ [s])) Hr (acyclic_child _ _ Ha Hc) (chain_child w _ _ Hw Hc)) as (A1 & A2 & A3).
  set (w1 := step D s c active w) in *. destruct (IH w1) as (B1 & B2 & B3); [intros x Hx; apply Hcs; by right|exact A3| |].
  - intros r Hin. apply Hw. unfold w1, step in Hin. cbn [inside set_steps] in Hin. by rewrite A2 in Hin.
  - split_and!; [by rewrite B1|by rewrite B2|done].
Qed.

Lemma closes_quiet k v w : acyclic mem v → (∀ c, inner k c → child mem v c) → chain w v → closesCycle root vs k active w = (false, w).
Proof.
  intros Ha Hk Hw. destruct (closes_counts k w) as [[? _]|(s & r & _ & _ & Hr & <-)]; [done|]. exfalso.
  destruct (Hw r Hr) as (c & Hc & Hcv). by apply (acyclic_loop v c Ha (Hk c Hc)).
Qed.

Lemma enter_chain k v c w : inner k c → chain w v → (∀ c, inner k c → child mem v c) → chain (enter k w) c.
Proof.
  intros Hc Hw Hk r Hr. cbn [inside enter set_inside] in Hr. apply elem_of_app in Hr as [Hr|Hr%list_elem_of_singleton].
  - by apply (chain_child w v c Hw (Hk c Hc)).
  - subst r. by exists c.
Qed.

Lemma reference_quiet D k v cs w : quiet_below D → acyclic mem v → (∀ c, c ∈ cs.*2 ↔ inner k c) → (∀ c, inner k c → child mem v c) →
  refusal w = None → chain w v → stays (reference root vs D k cs active) w.
Proof.
  intros HD Ha Hcs Hk Hr Hw. unfold stays, reference. rewrite (closes_quiet k v w) by done.
  assert (Hs : ∀ cs' w', (∀ c, c ∈ cs'.*2 → inner k c) → refusal w' = None → inside w' = inside (enter k w) → stays (step_all D cs' active) w').
  { induction cs' as [|[s c] cs' IH]; intros w' Hcs' Hr' Hi; [done|]. unfold stays, step_all. cbn [foldl fst snd].
    assert (Hc : inner k c) by (apply Hcs'; by left).
    destruct (HD c (set_steps w' (steps w' ++ [s])) Hr' (acyclic_child _ _ Ha (Hk c Hc))) as (A1 & A2 & A3).
    { intros r Hin. cbn [inside set_steps] in Hin. rewrite Hi in Hin. revert r Hin. exact (enter_chain k v c w Hc Hw Hk). }
    destruct (IH (step D s c active w')) as (B1 & B2 & B3); [intros x Hx; apply Hcs'; by right|exact A3|exact (eq_trans A2 Hi)|].
    split_and!; [exact (eq_trans B1 A1)|exact (eq_trans B2 A2)|exact B3]. }
  destruct (Hs cs (enter k w)) as (B1 & B2 & B3); [intros c; apply Hcs|done|done|]. split_and!; [exact B1| |exact B3].
  cbn [inside leave set_inside]. rewrite B2. apply removelast_last.
Qed.

Lemma pointer_quiet D t p w : quiet_below D → acyclic mem (Pointer t (Some p)) → refusal w = None → chain w (Pointer t (Some p)) →
  stays (pointer mem root vs D t p active) w.
Proof.
  intros HD Ha Hr Hw. set (k := mkRefKey (PointerType t) p 0). unfold stays, pointer. fold k.
  assert (Hk : ∀ c, inner k c → child mem (Pointer t (Some p)) c) by (intros c ->; constructor).
  destruct (_ =? 0)%Z eqn:Ef; [by rewrite (closes_quiet k (Pointer t (Some p)) w)|].
  assert (Hf : Z.ldiff active (default 0%Z (seen w !! k)) = active).
  { apply Z.eqb_neq in Ef. apply set_nonzero in Ef as [j Hj]. rewrite bit_ldiff, bit_alone in Hj. case_bool_decide as E; [subst j|done].
    apply Z.bits_inj'. intros n Hn. rewrite <- (Z2Nat.id n) by done. fold (bit (Z.ldiff active (default 0%Z (seen w !! k))) (Z.to_nat n)).
    fold (bit active (Z.to_nat n)). rewrite bit_ldiff, bit_alone. case_bool_decide as E; [|done]. rewrite <- E. by rewrite Hj. }
  rewrite Hf. set (w1 := set_seen w _). destruct (HD (pointee mem k) (enter k w1) Hr) as (A1 & A2 & A3);
    [by apply (acyclic_child _ _ Ha), Hk|exact (enter_chain k _ (pointee mem k) w1 eq_refl Hw Hk)|].
  split_and!; [exact A1| |exact A3]. cbn [inside leave set_inside]. rewrite A2. apply removelast_last.
Qed.

Lemma children_quiet D v w : quiet_below D → acyclic mem v → refusal w = None → chain w v → stays (children mem plain Sprint root vs D v active) w.
Proof.
  intros HD Ha Hr Hw. assert (Hid : stays id w) by done.
  destruct v as [t|t b0|t z|t s|t fs|t [v|]|t [p|]|t bytes es|t bytes p n|t [p|]]; unfold children, sequence; try exact Hid.
  - eapply steps_quiet; [done|exact Ha| |done|done]. intros c. rewrite field_steps_values. by constructor.
  - assert (Hc : child mem (Interface t (Some v)) v) by constructor. apply HD; [done|by eapply acyclic_child|by eapply chain_child].
  - by apply pointer_quiet.
  - destruct bytes; cbn [orb]; [exact Hid|]. destruct (length es =? 0); [exact Hid|].
    eapply steps_quiet; [done|exact Ha| |done|done]. intros c. rewrite element_steps_values. by constructor.
  - destruct bytes; cbn [orb]; [exact Hid|]. destruct (Nat.eqb_spec n 0) as [->|Hn]; [exact Hid|].
    eapply reference_quiet; [done|exact Ha| | |done|done]; intros c; [by rewrite element_steps_values|]. by constructor.
  - unfold mapping. destruct (map_entries mem _) as [|e es] eqn:E; [exact Hid|]. rewrite <- E. eapply reference_quiet; [done|exact Ha| | |done|done]; intros c.
    + by rewrite entry_steps_values.
    + unfold inner, held. cbn [rk_typ]. intros ([k' v'] & He & [->| ->]); by econstructor.
Qed.

Lemma body_quiet D : quiet_below D → quiet_below (body mem plain Sprint root vs D).
Proof.
  intros HD v w Hr Ha Hw. unfold stays. destruct (body_counts D v w Hr) as (s & Hs & ->).
  destruct (children_quiet D v (set_store w s) HD Ha Hr Hw) as (A1 & A2 & A3). split_and!; [|exact A2|exact A3]. rewrite A1. exact Hs.
Qed.

Lemma walk_quiet (levels : nat) : quiet_below (walk mem plain Sprint root vs None levels).
Proof.
  assert (Ht : quiet_below (λ _ _, truncate)) by (by intros v w Hr _ _).
  induction levels as [|levels IH]; [exact (body_quiet _ Ht)|exact (body_quiet _ IH)].
Qed.

(** ** The walk *)

Lemma traverse_counts v start : all vs = active →
  let w := traverse mem plain Sprint root vs None (Some v) 0 start in
  count start ≤ count (store w) ∧ (truncated w = false → count (store w) = count start ↔ acyclic mem v).
Proof.
  intros Hall. unfold traverse. rewrite Hall. cbn zeta.
  destruct (ss_settles _ _ (walk_settled MaxWalkDepth v) (newValueWalk 0 start) eq_refl) as [_ _ A3 A4]. split; [exact A3|]. intros Ht. split.
  - intros Hc. destruct (A4 Ht Hc) as [_ Ha]; [|by apply Ha]. intros t p k' Hb. cbn in Hb. rewrite lookup_empty in Hb. unfold bit in Hb. cbn in Hb. by rewrite Z.testbit_0_l in Hb.
  - intros Ha. destruct (walk_quiet MaxWalkDepth v (newValueWalk 0 start) eq_refl Ha) as [Hc _]; [by intros r ?%elem_of_nil|exact Hc].
Qed.
End Acyclic.
