(* ===== verification/Verify.v ===== *)
(** * Verify: a document held to every structural rule
    ([src/ir/irverify/irverify.go], [refs.go], [duplicates.go], [idspaces.go],
    [cycles.go])

    The checks over registries, then one walk for all the others, each gathering
    what it finds as it is shown values and reporting once the walk is over; then
    the whole report, sorted. *)
From S2P Require Import Prelude GoLib Utf8 Decimal Value IR Domain Ids Findings Naming Text Violations RegistryRules Walk WalkAlone WalkTrace References Reflect WalkRules.

Section Verify.
Context `{Unicode, Visible}.
Context (Quote : gostring → gostring) (valid_json : gostring → bool).
Implicit Types (v : goval) (p : path) (vs : list Violation).

(** ** What the walk read of declarations *)

Record declarations := mkDeclarations { collected : IDDeclarations; cut_short : bool }.
Definition decls_list (d : declarations) : list (rtype * gostring) := decl_list (collected d).
(** [declarations.pathsAt], by position. *)
Definition pathsAt (d : declarations) (at_ : gset nat) : gmap nat gostring :=
  list_to_map (concat (imap (λ i p, if bool_decide (i ∈ at_) then [(i, spell p)] else []) (All (decl_paths (collected d))))).
Definition path_in (paths : gmap nat gostring) (i : nat) : gostring := default [] (paths !! i).

(** ** Identities declared twice ([duplicates.go]) *)

Definition propertyType : rtype := go "Property".
Record fingerprint := mkFingerprint { fp_source : gostring; fp_wire : gostring; fp_target : gostring }.
#[export] Instance fingerprint_eq_dec : EqDecision fingerprint. Proof. solve_decision. Defined.
Record firstProperty := mkFirstProperty { fp_print : fingerprint; fp_met : nat }.
Definition nested_text (outer inner : gostring) v : gostring := match FieldByName outer v with Some f => text_field inner f | None => [] end.
Definition fingerprintOf v : fingerprint :=
  mkFingerprint (nested_text (go "Name") (go "Source") v) (text_field (go "WireName") v) (nested_text (go "Type") (go "Target") v).
(** The first property met on each PropID, and the later ones that differ. *)
Record properties_met := mkMet { met_first : gmap gostring firstProperty; met_differs : gset (gostring * nat) }.
Definition visit_property (m : properties_met) v : properties_met :=
  if is_struct propertyType v then
    let id := text_field (go "ID") v in let got := fingerprintOf v in
    match met_first m !! id with
    | None => mkMet (<[id := mkFirstProperty got 1]> (met_first m)) (met_differs m)
    | Some first =>
        mkMet (<[id := mkFirstProperty (fp_print first) (S (fp_met first))]> (met_first m))
          (if bool_decide (fp_print first = got) then met_differs m else {[(id, fp_met first)]} ∪ met_differs m)
    end
  else m.

(** A declaration of an identity declared before it: its position, the first's. *)
Record redeclaration := mkRedeclaration { again_at : nat; again_first : nat }.
Fixpoint redeclared (differs : gset (gostring * nat)) (i : nat) (seen : gmap (rtype * gostring) (nat * nat)) (ds : list (rtype * gostring)) : list redeclaration :=
  match ds with
  | [] => []
  | d :: ds =>
      match seen !! d with
      | None => redeclared differs (S i) (<[d := (i, 1)]> seen) ds
      | Some (first, met) =>
          (if bool_decide (d.1 = propIDType) && negb (bool_decide ((d.2, met) ∈ differs)) then [] else [mkRedeclaration i first]) ++
          redeclared differs (S i) (<[d := (first, S met)]> seen) ds
      end
  end.
Definition redeclarationViolations (ds : list (rtype * gostring)) (again : list redeclaration) (d : declarations) : list Violation :=
  let paths := pathsAt d (list_to_set ((again_at <$> again) ++ (again_first <$> again))) in
  r ← again;
  match ds !! again_at r with
  | Some (class, id) =>
      [mkViolation (go "ir/duplicate-" ++ RefNoun class ++ go "-id")
        (go "id " ++ Quote id ++ go " is declared here and at " ++ Quote (path_in paths (again_first r))) (path_in paths (again_at r))]
  | None => []
  end.
Definition duplicateIDs (d : declarations) (differs : gset (gostring * nat)) : list Violation :=
  redeclarationViolations (decls_list d) (redeclared differs 0 ∅ (decls_list d)) d.

(** ** Namespaces ([idspaces.go]) *)

Definition idSpacesPath : gostring := go "doc.IDSpaces".
Definition spacePath (kind : gostring) (i : nat) : gostring := idSpacesPath ++ go "[" ++ kind ++ go "][" ++ Itoa i ++ go "]".
Definition space_finds (kind : gostring) (spaces : list gostring) (i : nat) (space : gostring) : list Violation :=
  report_if (is_nil space || bool_decide (separator ∈ space))
    (mkViolation (go "ir/id-space-invalid") (go "namespace " ++ Quote space ++ go " is empty or carries the id separator, so no id can be in it") (spacePath kind i)) ++
  match i with
  | O => []
  | S j => let before := default [] (spaces !! j) in
      report_if (bool_decide (string_le space before))
        (mkViolation (go "ir/id-spaces-not-canonical")
          (go "namespace " ++ Quote space ++ go " does not follow " ++ Quote before ++ go " in sorted order without repeats") (spacePath kind i))
  end.
Definition appendSpaceViolations (kind : gostring) (spaces : list gostring) : list Violation := concat (imap (space_finds kind spaces) spaces).
Definition kind_finds (declaration : gmap gostring (list gostring)) (kind : gostring) : list Violation :=
  let spaces := default [] (declaration !! kind) in
  if negb (bool_decide (kind ∈ IDKinds)) then
    [mkViolation (go "ir/id-spaces-unknown-kind") (go "id namespaces are declared for kind " ++ Quote kind ++ go ", which no id opens with")
      (idSpacesPath ++ go "[" ++ Quote kind ++ go "]")]
  else if is_nil spaces then
    [mkViolation (go "ir/id-spaces-not-canonical") (go "kind " ++ Quote kind ++ go " is declared with no namespace, and a kind with none is left out")
      (idSpacesPath ++ go "[" ++ kind ++ go "]")]
  else appendSpaceViolations kind spaces.
Definition declarationViolations (declaration : gmap gostring (list gostring)) : list Violation :=
  sorted_keys declaration ≫= kind_finds declaration.
(** [declaredSpaces], as a test of membership. *)
Definition declaredSpaces (declaration : gmap gostring (list gostring)) (prefix space : gostring) : bool :=
  match declaration !! prefix with Some spaces => bool_decide (space ∈ spaces) | None => false end.
(** The namespace an identity needs declared, with its kind's prefix. *)
Definition needs_space (d : rtype * gostring) : option (gostring * gostring) :=
  match kindPrefix d.1 with
  | None => None
  | Some prefix =>
      match IDSpace prefix d.2 with
      | None => None
      | Some space => if bool_decide (prefix = IDKindType) && bool_decide (space = IDSpacePrim) then None else Some (prefix, space)
      end
  end.
Definition outside_at (declaration : gmap gostring (list gostring)) (ds : list (rtype * gostring)) : list nat :=
  concat (imap (λ i d, match needs_space d with
    | Some (prefix, space) => if negb (bool_decide (declaration = ∅)) && negb (declaredSpaces declaration prefix space) then [i] else []
    | None => []
    end) ds).
Definition appendUndeclaredSpaces (ds : list (rtype * gostring)) (outside : list nat) (d : declarations) : list Violation :=
  let paths := pathsAt d (list_to_set outside) in
  i ← outside;
  match ds !! i with
  | Some (class, id) =>
      let prefix := default [] (kindPrefix class) in
      [mkViolation (go "ir/id-space-undeclared")
        (go "id " ++ Quote id ++ go " lives in namespace " ++ Quote (default [] (IDSpace prefix id)) ++ go ", which the document does not declare for kind " ++ Quote prefix)
        (path_in paths i)]
  | None => []
  end.
Definition idSpaceViolations (doc : Document) (d : declarations) : list Violation :=
  let declaration := Document_IDSpaces doc in let ds := decls_list d in
  declarationViolations declaration ++
  appendUndeclaredSpaces ds (outside_at declaration ds) d ++
  report_if (existsb (λ x, negb (is_None (needs_space x))) ds && bool_decide (declaration = ∅))
    (mkViolation (go "ir/id-spaces-absent") (go "document declares no id namespaces but carries ids that need them") idSpacesPath).

(** ** Checks in one walk *)

(** What a check's closures capture. *)
Inductive captured :=
  | Found (vs : list Violation)
  | Gathered (r : IDReferences)
  | Met (m : properties_met)
  | Collected (d : IDDeclarations)
  | Nothing.

Record walkCheck := mkCheck {
  start : captured;
  visit : captured → goval → path → captured * bool;
  cycle : option (captured → path → path → refType → captured);
  report : captured → declarations → list Violation
}.

(** A check whose visits find all it reports. *)
Definition found_in (c : captured) : list Violation := match c with Found vs => vs | _ => [] end.
Definition finding (finds : goval → path → list Violation) (keeps : goval → bool) : walkCheck :=
  mkCheck (Found []) (λ c v p, (Found (found_in c ++ finds v p), keeps v)) None (λ c _, found_in c).
Definition keeps_all : goval → bool := λ _, true.

Definition checkReferentialIntegrity (doc : Document) (mem : memory) (root : goval) : walkCheck :=
  let fields := match root with Pointer t (Some q) => match pointee mem (mkRefKey (PointerType t) q 0) with Struct _ fs => Some fs | _ => None end | _ => None end in
  mkCheck (Gathered (NewIDReferences ir_desc (go "Document") idClasses mem fields))
    (λ c v p, (match c with Gathered r => Gathered (visit_refs ir_desc r v p) | _ => c end, true)) None
    (λ c d, match c with
      | Gathered r => (λ ref, mkViolation (go "ir/dangling-" ++ RefNoun (ref_Class ref) ++ go "-ref")
          (go "reference " ++ Quote (ref_ID ref) ++ go " does not resolve in " ++ Label r (ref_Class ref)) (ref_Path ref)) <$> Unresolved ir_desc r (cut_short d)
      | _ => [] end).
Definition checkDuplicateIDs : walkCheck :=
  mkCheck (Met (mkMet ∅ ∅)) (λ c v _, (match c with Met m => Met (visit_property m v) | _ => c end, true)) None
    (λ c d, match c with Met m => duplicateIDs d (met_differs m) | _ => [] end).
(** A check with no visit is shown nothing below the root. *)
Definition checkIDSpaces (doc : Document) : walkCheck := mkCheck Nothing (λ c _ _, (c, false)) None (λ _ d, idSpaceViolations doc d).
Definition type_name (t : refType) : gostring := match t with PointerType n | SliceType n | MapType n => n end.
Definition checkCycles : walkCheck :=
  mkCheck (Found []) (λ c _ _, (c, true))
    (Some (λ c at_ entered ref, Found (found_in c ++
      [mkViolation (go "ir/cyclic-structure")
        (go "document reaches the " ++ type_name ref ++ go " it is already inside (entered at " ++ Quote (spell entered) ++ go "), so it cannot be encoded") (spell at_)])))
    (λ c _, found_in c).

Definition walkChecks (doc : Document) (mem : memory) (root : goval) : list walkCheck :=
  [checkReferentialIntegrity doc mem root;
   finding (type_ref_finds Quote) type_ref_keeps;
   checkDuplicateIDs;
   finding (declared_finds Quote) keeps_all;
   checkIDSpaces doc;
   finding (naming_finds Quote mem) naming_keeps;
   finding (string_list_finds Quote mem) keeps_all;
   finding (raw_finds Quote valid_json mem) raw_keeps;
   finding (provenance_finds Quote (Z.of_nat (length (Document_Sources doc)))) provenance_keeps;
   finding (index_finds mem) keeps_all;
   finding (bigval_finds Quote mem) bigval_keeps;
   finding (inferred_finds Quote) inferred_keeps;
   finding (stability_finds Quote) stability_keeps;
   finding (doc_ref_finds mem) doc_ref_keeps;
   finding utf8_finds keeps_all;
   finding (value_finds Quote) keeps_all;
   checkCycles;
   finding (empty_ref_finds mem) keeps_all;
   finding (idempotency_finds Quote) keeps_all;
   finding (streaming_finds Quote) streaming_keeps;
   finding (webhook_finds Quote) keeps_all].

(** The collector of declarations, first of the visitors. *)
Definition collector : walkCheck :=
  mkCheck (Collected (mkIDDeclarations [] zeroPathLog)) (λ c v p, (match c with Collected d => Collected (visit_declarations ir_desc d v p) | _ => c end, true)) None (λ _ _, []).

(** A check as one of a walk's visitors, each writing its own captures. *)
Abbreviation captures := (gmap nat captured).
Definition held_by (s : captures) (i : nat) (c : walkCheck) : captured := default (start c) (s !! i).
Definition lift (i : nat) (c : walkCheck) : Visitor (S:=captures) :=
  mkVisitor (λ s v p, let '(st, asks) := visit c (held_by s i c) v p in (<[i := st]> s, asks))
    ((λ told s at_ entered ref, <[i := told (held_by s i c) at_ entered ref]> s) <$> cycle c).
Definition walkVisitors (checks : list walkCheck) : list (option (Visitor (S:=captures))) := imap (λ i c, Some (lift i c)) checks.
Definition walk_start (checks : list walkCheck) : captures := map_seq 0 (start <$> checks).

(** [walkWith], and what its walk made of each check. *)
Definition walked (root : goval) (mem : memory) (checks : list walkCheck) : captures * bool :=
  WalkValues mem (λ _, true) Sprint (Some root) DocumentPath (walkVisitors (collector :: checks)) (walk_start (collector :: checks)).
Definition collected_by (s : captures) : IDDeclarations :=
  match s !! 0 with Some (Collected d) => d | _ => mkIDDeclarations [] zeroPathLog end.
Definition walkWith (root : goval) (mem : memory) (checks : list walkCheck) : list Violation * bool :=
  let '(s, truncated) := walked root mem checks in
  let decls := mkDeclarations (collected_by s) truncated in
  (concat (imap (λ i c, report c (held_by s (S i) c) decls) checks), truncated).

(** [value] is the document as reflection shows it, whatever it shares; of a
    document that is a tree, it is [ValueOf] of it. *)
Definition runWalkChecks (doc : Document) (value : goval * memory) : list Violation :=
  let '(root, mem) := value in
  let '(vs, truncated) := walkWith root mem (walkChecks doc mem root) in
  vs ++ report_if truncated
    (mkViolation (go "ir/walk-truncated") (go "document nests deeper than the bounded verifier walk; part of it went unchecked") DocumentPath).

(** A nil document is one violation. *)
Definition Verify `{Ranging} (doc : option Document) (value : goval * memory) : list Violation :=
  match doc with
  | None => [mkViolation (go "ir/nil-document") (go "document is nil") []]
  | Some doc => SortStable (registry_checks Quote doc ++ runWalkChecks doc value)
  end.
End Verify.
