(* ===== verification/WalkSound.v ===== *)
(** * WalkSound: what the rules over values hold a document to

    Each rule read as a proposition about one value, and each check clean at a
    value exactly when the rule holds of it. *)
From S2P Require Import Prelude GoLib Utf8 Decimal BigVal Value IR Domain Ids Findings Naming Text Violations RegistryRules RegistrySound.
From S2P Require Import Walk WalkAlone WalkTrace References Reflect WalkRules.

Lemma if_true_nil {A} (b : bool) (l : list A) : (if b then l else []) = [] ↔ (b = true → l = []).
Proof. destruct b; naive_solver. Qed.
Lemma if_false_nil {A} (b : bool) (l : list A) : (if b then [] else l) = [] ↔ (b = false → l = []).
Proof. destruct b; naive_solver. Qed.

Section Sound.
Context `{Unicode, Visible}.
Context (Quote : gostring → gostring) (mem : memory).
Implicit Types (v : goval) (p : path) (s : gostring).

(** ** Markers, names of types, enumerations *)

Definition type_ref_rule v : Prop := is_struct typeRefType v = true →
  text_field (go "Target") v ≠ [] ∧ (text_field (go "Inferred") v ≠ [] → bool_field (go "Nullable") v = true).
Lemma type_ref_finds_nil v p : type_ref_finds Quote v p = [] ↔ type_ref_rule v.
Proof.
  unfold type_ref_finds, type_ref_rule. rewrite if_true_nil, app_nil_iff, !report_if_nil, andb_false_iff, !negb_false_iff, is_nil_true, is_nil_false.
  split; intros HR Hs; destruct (HR Hs) as [? HI]; (split; [done|]).
  - by destruct HI.
  - destruct (text_field (go "Inferred") v); [by left|right; by apply HI].
Qed.

(** The ids a value declares: never empty, and of the grammar of their kind. *)
Definition declared_rule v : Prop := ∀ class id, DeclaredIDOf ir_desc v = Some (class, id) → class ∉ KeyedClasses ir_desc (go "Document") →
  id ≠ [] ∧ ∀ kind, kindPrefix class = Some kind → derived kind id (if pointerDerived class then recordedPointer v else []).
Lemma declared_finds_nil v p : declared_finds Quote v p = [] ↔ declared_rule v.
Proof.
  unfold declared_finds, declared_rule. destruct (DeclaredIDOf ir_desc v) as [[class id]|]; [|by split].
  rewrite if_false_nil, bool_decide_eq_false. unfold appendDeclaredIDViolations. split.
  - intros HR ? ? [= <- <-] Hk. specialize (HR Hk). destruct (is_nil id) eqn:E; [done|]. apply is_nil_false in E. split; [done|].
    intros kind Ek. rewrite Ek in HR. by apply placed_nil, idDefect_None in HR.
  - intros HR Hk. destruct (HR _ _ eq_refl Hk) as [Hne Hd]. apply is_nil_false in Hne. rewrite Hne.
    destruct (kindPrefix class) as [kind|]; [|done]. by apply placed_nil, idDefect_None, Hd.
Qed.

Definition streaming_rule v : Prop := of_type streamingModeType v = true → text_of v ∈ [StreamingNone; StreamingClient; StreamingServer; StreamingBidi].
Lemma streaming_finds_nil v p : streaming_finds Quote v p = [] ↔ streaming_rule v.
Proof. unfold streaming_finds, streaming_rule, StreamingMode_Valid. by rewrite if_true_nil, report_if_nil, negb_false_iff, bool_decide_eq_true. Qed.

Definition stability_rule v : Prop := of_type stabilityType v = true → text_of v ∈ [StabilityUnstated; StabilityAlpha; StabilityBeta; StabilityStable].
Lemma stability_finds_nil v p : stability_finds Quote v p = [] ↔ stability_rule v.
Proof. unfold stability_finds, stability_rule, Stability_Valid. by rewrite if_true_nil, report_if_nil, negb_false_iff, bool_decide_eq_true. Qed.

Definition inferred_rule v : Prop :=
  (of_type inferredType v = true → IsCanonical (text_of v) = true) ∧
  (of_type partEncodingType v = true → text_field (go "Inferred") v ≠ [] → bool_field (go "Filename") v = true).
Lemma inferred_finds_nil v p : inferred_finds Quote v p = [] ↔ inferred_rule v.
Proof.
  unfold inferred_finds, inferred_rule, partMarkerViolations. destruct (of_type partEncodingType v) eqn:E1.
  - assert (E2 : of_type inferredType v = false) by (unfold of_type in *; apply bool_decide_eq_true in E1; rewrite E1; reflexivity).
    rewrite E2, if_false_nil, orb_false_iff, is_nil_false. split; [|intros [_ HR] [? E3]; rewrite HR in E3 by done; done].
    intros HR. split; [done|]. intros _ Hne. destruct (bool_field _ v); [done|]. by specialize (HR (conj Hne eq_refl)).
  - rewrite if_true_nil, report_if_nil, negb_false_iff. split; [intros HR; by split|by intros [? _]].
Qed.

Definition idempotency_rule v : Prop := of_type idempotencyType v = true → text_field (go "TokenParam") v ≠ [] ↔ text_field (go "Kind") v = IdempotencyToken.
Lemma idempotency_finds_nil v p : idempotency_finds Quote v p = [] ↔ idempotency_rule v.
Proof.
  unfold idempotency_finds, idempotency_rule. destruct (of_type idempotencyType v); [|by split].
  set (token := text_field _ v). set (kind := text_field _ v). rewrite if_false_nil.
  assert (E : Bool.eqb (negb (is_nil token)) (bool_decide (kind = IdempotencyToken)) = true ↔ (token ≠ [] ↔ kind = IdempotencyToken)).
  { rewrite Bool.eqb_true_iff. case_bool_decide as Ek; [rewrite negb_true_iff, is_nil_false; tauto|]. rewrite negb_false_iff, is_nil_true. split.
    - intros ->. tauto.
    - intros [HR _]. destruct token; [done|]. by destruct Ek; apply HR. }
  rewrite <- E. destruct (Bool.eqb _ _); naive_solver.
Qed.

Definition webhook_rule v : Prop := of_type httpBindingType v = true →
  if bool_field (go "IsWebhook") v then text_field (go "URITemplate") v = [] else text_field (go "WebhookName") v = [].
Lemma webhook_finds_nil v p : webhook_finds Quote v p = [] ↔ webhook_rule v.
Proof.
  unfold webhook_finds, webhook_rule, appendStrayRoute. rewrite if_true_nil. destruct (bool_field (go "IsWebhook") v); cbn [andb negb].
  - rewrite if_true_nil, negb_true_iff, is_nil_false. destruct (text_field _ v); naive_solver.
  - rewrite if_true_nil, negb_true_iff, is_nil_false. destruct (text_field _ v); naive_solver.
Qed.

(** ** Text and numbers *)

Definition utf8_rule v : Prop := ∀ t s, v = Text t s → ∃ rs, Forall (λ r, valid_rune r = true) rs ∧ s = rs ≫= EncodeRune.
Lemma utf8_finds_nil v p : utf8_finds v p = [] ↔ utf8_rule v.
Proof.
  unfold utf8_finds, utf8_rule. destruct v as [t|t b0|t z|t s|t fs|t o|t o|t b l|t b q n|t o]; try (split; [by intros _ ? ? [=]|done]).
  rewrite report_if_nil, negb_false_iff, ValidString_exact. split; [by intros HR ? ? [= <- <-]|intros HR; by eapply HR].
Qed.

(** A number is the spelling its own text has. *)
Definition canonical_number (literal : gostring) : Prop := NewBigVal literal = Ok literal.
Lemma appendBigVal_nil literal p : appendBigVal Quote literal p = [] ↔ canonical_number literal.
Proof.
  unfold appendBigVal, canonical_number. destruct (NewBigVal literal) as [canonical|[]]; try (split; done).
  rewrite report_if_nil, negb_false_iff, bool_decide_eq_true. naive_solver.
Qed.
Definition bigval_rule v : Prop :=
  (∀ q, v = Pointer bigValPtrType (Some q) → canonical_number (text_of (pointee mem (mkRefKey (PointerType bigValPtrType) q 0)))) ∧
  (of_type bigValType v = true → text_of v ≠ [] → canonical_number (text_of v)).
Lemma bigval_finds_nil v p : bigval_finds Quote mem v p = [] ↔ bigval_rule v.
Proof.
  unfold bigval_finds, bigval_rule. destruct (of_type bigValPtrType v) eqn:E1.
  - pose proof E1 as E1'. unfold of_type in E1'. apply bool_decide_eq_true in E1'.
    assert (E2 : of_type bigValType v = false) by (unfold of_type; rewrite E1'; reflexivity). rewrite E2.
    destruct v as [t|t b0|t z|t s|t fs|t o|t [q|]|t b l|t b q n|t o]; try (split; [intros _; by split; [intros ? [=]|]|done]).
    cbn [type_of] in E1'. subst t. rewrite appendBigVal_nil. split; [intros HR; by split; [intros ? [= <-]|]|intros [HR _]; by apply HR].
  - destruct (of_type bigValType v).
    + rewrite if_false_nil, appendBigVal_nil, is_nil_false. split; [intros HR; split; [|by intros _]|intros [_ HR]; by apply HR].
      intros q ->. unfold of_type in E1. cbn [type_of] in E1. by rewrite bool_decide_eq_true_2 in E1.
    + split; [intros _; split; [|done]|done]. intros q ->. unfold of_type in E1. cbn [type_of] in E1. by rewrite bool_decide_eq_true_2 in E1.
Qed.

(** Bytes of a text from the first to before the second, splitting no rune. *)
Definition span_of (text : gostring) (r : Z * Z) : Prop :=
  (0 ≤ r.1 < r.2)%Z ∧ (r.2 ≤ Z.of_nat (length text))%Z ∧ starts_rune text r.1 = true ∧ (r.2 = Z.of_nat (length text) ∨ starts_rune text r.2 = true).
Definition doc_refs v : list (Z * Z) := (λ r, (int_field (go "StartByte") r, int_field (go "EndByte") r)) <$> elements_of mem (FieldByName (go "Refs") v).
(** The references in prose: spans of it, in order and apart. *)
Definition doc_ref_rule v : Prop := is_struct docsType v = true →
  Forall (span_of (text_field (go "Description") v)) (doc_refs v) ∧ Sorted (λ a b : Z * Z, (a.2 ≤ b.1)%Z) (doc_refs v).

Lemma isSpanOf_exact from to text : isSpanOf from to text = true ↔ span_of text (from, to).
Proof.
  clear Quote. unfold isSpanOf, span_of. cbn [fst snd]. destruct (_ && _)%Z eqn:E.
  - rewrite andb_true_iff, orb_true_iff, Z.eqb_eq. rewrite !andb_true_iff in E. naive_solver lia.
  - split; [done|]. intros (? & ? & _). rewrite !andb_false_iff in E. lia.
Qed.
Lemma doc_ref_loop_nil text p i stop refs : doc_ref_loop text p i stop refs = [] ↔
  Forall (span_of text) refs ∧ Sorted (λ a b : Z * Z, (a.2 ≤ b.1)%Z) refs ∧ HdRel (λ a b : Z * Z, (a.2 ≤ b.1)%Z) (0%Z, stop) refs.
Proof.
  clear Quote. revert i stop. induction refs as [|[from to] refs IH]; intros i stop; cbn [doc_ref_loop]; [naive_solver|].
  destruct (isSpanOf from to text) eqn:E; cbn [negb].
  - apply isSpanOf_exact in E. destruct (Z.ltb_spec from stop).
    + split; [done|]. intros (_ & _ & HR). inv HR. cbn in *. lia.
    + rewrite IH, Forall_cons. split.
      * intros (? & ? & HR). split_and!; [done..| |by constructor; cbn; lia]. constructor; [done|]. inv HR; by constructor.
      * intros ([_ ?] & HS & _). inv HS. split_and!; [done..|]. by match goal with Hr : HdRel _ _ refs |- _ => inv Hr; constructor end.
  - split; [done|]. rewrite Forall_cons, <- isSpanOf_exact, E. by intros [[? _] _].
Qed.
Lemma doc_ref_finds_nil v p : doc_ref_finds mem v p = [] ↔ doc_ref_rule v.
Proof.
  clear Quote. unfold doc_ref_finds, doc_ref_rule, docRefViolations. rewrite if_true_nil, doc_ref_loop_nil. fold (doc_refs v).
  split; [naive_solver|]. intros HR Hs. destruct (HR Hs) as [HF HS]. split_and!; [done..|].
  destruct (doc_refs v) as [|[from to] refs]; constructor. inv HF. unfold span_of in *. cbn in *. lia.
Qed.

(** ** Names *)

(** Neutral words: uncased, of word runes, split where letters meet digits. *)
Definition words_rule (name : gostring) : Prop := strings_ToLower name = name ∧ isWordSequence name = true ∧ isSegmented name = true.
Lemma appendContentViolations_nil channel name p : appendContentViolations Quote channel name p = [] ↔ words_rule name.
Proof.
  unfold appendContentViolations, words_rule, isCased. rewrite !app_nil_iff, !report_if_nil, !negb_false_iff, bool_decide_eq_true. tauto.
Qed.

(** Entries that show something; those that decode are each listed once. *)
Definition listed_once (l : list gostring) : Prop := NoDup (filter (λ e, ValidString e = true) l).
Definition aliases_rule (source : gostring) (aliases : list gostring) : Prop :=
  (∀ a, a ∈ aliases → isBlankName a = false) ∧ listed_once aliases ∧ (ValidString source = true → source ∉ aliases).

Lemma alias_loop_nil source p i seen aliases : alias_loop Quote source p i seen aliases = [] ↔
  (∀ a, a ∈ aliases → isBlankName a = false) ∧ listed_once aliases ∧
  (∀ a, a ∈ aliases → ValidString a = true → a ≠ source ∧ seen !! a = None).
Proof.
  unfold listed_once. revert i seen. induction aliases as [|a aliases IH]; intros i seen; cbn [alias_loop].
  { split; [intros _; split_and!; [by intros ? ?%elem_of_nil|constructor|by intros ? ?%elem_of_nil]|done]. }
  destruct (isBlankName a) eqn:Eb; [split; [done|]; intros [HR _]; rewrite HR in Eb; [done|by left]|].
  rewrite filter_cons. destruct (ValidString a) eqn:Ev; cbn [negb].
  2: { rewrite IH, decide_False by done. split; intros (H1 & H2 & H3); split_and!; try done.
    - by intros x [->|?]%elem_of_cons; auto.
    - intros x [->|?]%elem_of_cons; [congruence|auto].
    - intros x ?. apply H1. by right.
    - intros x ?. apply H3. by right. }
  rewrite decide_True by done. destruct (seen !! a) eqn:Es.
  { split; [done|]. intros (_ & _ & HR). destruct (HR a ltac:(by left) Ev). congruence. }
  case_bool_decide as Esrc; [split; [done|]; intros (_ & _ & HR); by destruct (HR a ltac:(by left) Ev)|]. rewrite IH, NoDup_cons, list_elem_of_filter.
  split; intros (H1 & H2 & H3).
  - split_and!.
    + by intros x [->|?]%elem_of_cons; auto.
    + intros [_ Ha]. destruct (H3 a Ha Ev) as [_ Hn]. by rewrite lookup_insert_eq in Hn.
    + done.
    + intros x [->|Hx]%elem_of_cons Hv; [done|]. destruct (H3 x Hx Hv) as [? Hn]. split; [done|]. apply lookup_insert_None in Hn. tauto.
  - destruct H2 as [Ha H2]. split_and!; [intros x ?; apply H1; by right|done|]. intros x Hx Hv.
    destruct (H3 x ltac:(by right) Hv). split; [done|]. rewrite lookup_insert_ne; [done|]. intros ->. by apply Ha.
Qed.

Definition source_of v : gostring := text_field (go "Source") v.
Definition canonical_of v : gostring := text_field (go "Canonical") v.
Definition hint_of v : gostring := text_field (go "Hint") v.
(** Some name wherever one is needed, the words the grammar derives from the
    source, neutral words in both channels, and aliases that add something. *)
Record named (v : goval) (p : path) : Prop := {
  nm_present : source_of v ≠ [] ∨ canonical_of v ≠ [] ∨ hint_of v ≠ [] ∨ nameExempt p nameOptional = true;
  nm_derived : source_of v ≠ [] → HasCanonicalWords (source_of v) (canonical_of v) = true;
  nm_canonical : words_rule (canonical_of v);
  nm_hint : words_rule (hint_of v);
  nm_aliases : aliases_rule (source_of v) (text_of <$> elements_of mem (FieldByName (go "Aliases") v))
}.
Definition naming_rule v p : Prop := is_struct namingType v = true → named v p.
Lemma naming_finds_nil v p : naming_finds Quote mem v p = [] ↔ naming_rule v p.
Proof.
  unfold naming_finds, naming_rule, appendNamingChecks, appendAliasViolations, appendNamingViolations. rewrite if_true_nil.
  fold (source_of v) (canonical_of v) (hint_of v). rewrite !app_nil_iff, !appendContentViolations_nil, alias_loop_nil.
  assert (E1 : appendAbsentViolation (source_of v) (canonical_of v) (hint_of v) p = [] ↔
    source_of v ≠ [] ∨ canonical_of v ≠ [] ∨ hint_of v ≠ [] ∨ nameExempt p nameOptional = true).
  { unfold appendAbsentViolation. rewrite if_false_nil, !orb_false_iff, !negb_false_iff, !is_nil_true.
    destruct (source_of v), (canonical_of v), (hint_of v), (nameExempt p nameOptional); naive_solver. }
  assert (E2 : appendGrammarViolation Quote (source_of v) (canonical_of v) p = [] ↔ (source_of v ≠ [] → HasCanonicalWords (source_of v) (canonical_of v) = true)).
  { unfold appendGrammarViolation. rewrite if_false_nil, orb_false_iff, is_nil_false. destruct (HasCanonicalWords _ _); naive_solver. }
  rewrite E1, E2. split; intros HR Hs; specialize (HR Hs).
  - destruct HR as (H1 & (H2 & H3 & H4) & H5 & H6 & H7). constructor; try done. split_and!; [done..|]. intros Hv Hin. by destruct (H7 _ Hin Hv).
  - destruct HR as [H1 H2 H3 H4 (H5 & H6 & H7)]. split_and!; try done. intros a Ha Hv. split; [|by apply lookup_empty]. intros ->. by apply H7.
Qed.

(** ** Lists of strings *)

Definition string_list_rule v : Prop := ∀ t fs f, v = Struct t fs → f ∈ heldListsOf t →
  let list_ := text_of <$> elements_of mem (fs !! hl_index f) in
  (∀ e, e ∈ list_ → isBlankName e = false) ∧ (hl_rule f = listSet → listed_once list_).
Lemma list_loop_nil owner f i first list_ : list_loop Quote owner f i first list_ = [] ↔
  (∀ e, e ∈ list_ → isBlankName e = false) ∧
  (hl_rule f = listSet → listed_once list_ ∧ ∀ e, e ∈ list_ → ValidString e = true → first !! e = None).
Proof.
  unfold listed_once. revert i first. induction list_ as [|e rest IH]; intros i first; cbn [list_loop].
  { split; [intros _; split; [by intros ? ?%elem_of_nil|]|done]. intros _. split; [constructor|by intros ? ?%elem_of_nil]. }
  destruct (isBlankName e) eqn:Eb; [split; [done|]; intros [HR _]; rewrite HR in Eb; [done|by left]|].
  rewrite filter_cons. destruct (ValidString e) eqn:Ev; cbn [negb].
  2: { rewrite IH, decide_False by done. split; intros [H1 H2]; (split; [|intros Hs; destruct (H2 Hs) as [? H3]; split; [done|]]).
    - by intros x [->|?]%elem_of_cons; auto.
    - intros x [->|?]%elem_of_cons; [congruence|auto].
    - intros x ?. apply H1. by right.
    - intros x ?. apply H3. by right. }
  rewrite decide_True by done. assert (Hstep : (first !! e = None ∨ hl_rule f ≠ listSet) →
    list_loop Quote owner f (S i) (<[e := i]> first) rest = [] ↔ (∀ x, x ∈ e :: rest → isBlankName x = false) ∧
    (hl_rule f = listSet → NoDup (e :: filter (λ x, ValidString x = true) rest) ∧ ∀ x, x ∈ e :: rest → ValidString x = true → first !! x = None)).
  { intros Hfresh. rewrite IH. split; intros [H1 H2]; (split; [|intros Hs; destruct (H2 Hs) as [H3 H4]]).
    - by intros x [->|?]%elem_of_cons; auto.
    - destruct Hfresh as [Hf|?]; [|done]. split.
      + constructor; [|done]. rewrite list_elem_of_filter. intros [_ He]. specialize (H4 e He Ev). by rewrite lookup_insert_eq in H4.
      + intros x [->|Hx]%elem_of_cons Hv; [done|]. specialize (H4 x Hx Hv). apply lookup_insert_None in H4. tauto.
    - intros x ?. apply H1. by right.
    - inv H3. split; [done|]. intros x Hx Hv. rewrite lookup_insert_ne; [apply H4; [by right|done]|]. intros ->.
      match goal with Hn : _ ∉ filter _ _ |- _ => apply Hn end. by apply list_elem_of_filter. }
  destruct (first !! e) as [earlier|] eqn:Ef; [|apply Hstep; by left]. case_bool_decide as Er; [|apply Hstep; by right].
  split; [done|]. intros [_ HR]. destruct (HR Er) as [_ HR']. specialize (HR' e ltac:(by left) Ev). congruence.
Qed.
Lemma string_list_finds_nil v p : string_list_finds Quote mem v p = [] ↔ string_list_rule v.
Proof.
  unfold string_list_finds, string_list_rule, appendListViolations. destruct v as [t|t b0|t z|t s|t fs|t o|t o|t b l|t b q n|t o]; try (split; [by intros _ ? ? ? [=]|done]).
  rewrite bind_nil_iff. setoid_rewrite list_loop_nil. split.
  - intros HR ? ? f [= <- <-] Hf. destruct (HR f Hf) as [H1 H2]. split; [done|]. intros Hs. by destruct (H2 Hs).
  - intros HR f Hf. destruct (HR _ _ f eq_refl Hf) as [H1 H2]. split; [done|]. intros Hs. split; [by apply H2|]. intros e _ _. apply lookup_empty.
Qed.

(** ** Payloads kept verbatim *)

Section Raw.
Context (valid_json : gostring → bool).

Definition unmodeled_rule (key : gostring) (entry : goval) : Prop :=
  key ≠ [] ∧ valid_json (bytes_of mem (FieldByName (go "Value") entry)) = true ∧ text_field (go "Reason") entry ∈ reasons.
Definition raw_rule v : Prop :=
  (∀ o e, v = MapV unmodeledType o → e ∈ entries_of mem (Some v) → unmodeled_rule (text_of e.1) e.2) ∧
  (∀ o e, v = MapV rawConfigType o → e ∈ entries_of mem (Some v) → valid_json (bytes_of mem (Some e.2)) = true).

Lemma placeEntry_nil found p key empty : placeEntry found p key empty = [] ↔ found = [].
Proof. unfold placeEntry. by destruct found. Qed.
Lemma appendRawValue_nil value what : appendRawValue valid_json mem value what = [] ↔ valid_json (bytes_of mem value) = true.
Proof. unfold appendRawValue. destruct (valid_json _); by split. Qed.
Lemma raw_finds_nil v p : raw_finds Quote valid_json mem v p = [] ↔ raw_rule v.
Proof.
  assert (Hu : ∀ key entry, unmodeledEntry Quote valid_json mem key entry p = [] ↔ unmodeled_rule key entry).
  { intros key entry. unfold unmodeledEntry, unmodeled_rule. rewrite placeEntry_nil, !app_nil_iff, appendRawValue_nil. set (r := text_field _ entry).
    assert (Hr : (if is_nil r then [(go "ir/empty-unmodeled-reason", go "unmodeled entry leaves its reason at the zero value")]
      else if UnmodeledReason_Valid r then [] else [(go "ir/unknown-unmodeled-reason", go "unmodeled entry carries undeclared reason " ++ Quote r)]) = [] ↔ r ∈ reasons).
    { unfold UnmodeledReason_Valid. destruct (is_nil r) eqn:E; [|case_bool_decide; by split]. apply is_nil_true in E. rewrite E. split; [done|].
      intros Hin. assert (Hn : bool_decide ([] ∈ reasons) = false) by reflexivity. by apply bool_decide_eq_false in Hn. }
    rewrite Hr. destruct key; cbn; naive_solver. }
  unfold raw_finds, raw_rule. destruct v as [t|t b0|t z|t s|t fs|t o|t o|t b l|t b q n|t o]; try (split; [intros _; split; by intros ? ? [=]|done]).
  case_bool_decide as E1; [subst t|case_bool_decide as E2; [subst t|split; [intros _; split; intros ? ? [=]; done|done]]].
  - rewrite bind_nil_iff. setoid_rewrite Hu. split; [|intros [HR _] e; by eapply HR]. intros HR. split; [intros ? e [= <-]; apply HR|]. intros ? ? [=].
  - rewrite bind_nil_iff. unfold rawConfigEntry. setoid_rewrite placeEntry_nil. setoid_rewrite appendRawValue_nil.
    split; [|intros [_ HR] e; by eapply HR]. intros HR. split; [intros ? ? [=]|intros ? e [= <-]; apply HR].
Qed.

End Raw.

(** ** Provenance and indices *)

Definition line_of v : Z := match FieldByName (go "Position") v with Some q => int_field (go "Line") q | None => 0%Z end.
Definition column_of v : Z := match FieldByName (go "Position") v with Some q => int_field (go "Column") q | None => 0%Z end.
Definition positioned v : Prop := line_of v ≠ 0%Z ∨ column_of v ≠ 0%Z.
(** A source of the table, a JSON Pointer and a position into it, and neither
    where no source is named. *)
Record located (declared : Z) (v : goval) : Prop := {
  lc_source : let src := int_field (go "Source") v in src = NoSource ∨ (0 ≤ src < declared)%Z ∨ (declared = 0%Z ∧ src = 0%Z);
  lc_pointer : Pointer_IsValid (ToValidUTF8 (text_field (go "Pointer") v) RuneErrorText) = true;
  lc_position : positioned v → (1 ≤ line_of v ∧ 0 ≤ column_of v)%Z;
  lc_nowhere : int_field (go "Source") v = NoSource → text_field (go "Pointer") v = [] ∧ ¬ positioned v
}.
Definition provenance_rule (declared : Z) v : Prop := is_struct provenanceType v = true → located declared v.

Lemma sourceOutOfRange_false index declared : (0 ≤ declared)%Z →
  sourceOutOfRange index declared = false ↔ index = NoSource ∨ (0 ≤ index < declared)%Z ∨ (declared = 0%Z ∧ index = 0%Z).
Proof.
  unfold sourceOutOfRange, InTable, NoSource. cbn [Provenance_Source]. intros Hd.
  destruct (Z.eqb_spec declared 0); rewrite ?andb_false_iff, ?negb_false_iff, ?orb_true_iff, ?andb_true_iff; lia.
Qed.
Lemma provenance_finds_nil declared v p : (0 ≤ declared)%Z → provenance_finds Quote declared v p = [] ↔ provenance_rule declared v.
Proof.
  intros Hd. unfold provenance_finds, provenance_rule, appendLocatorViolations. rewrite if_true_nil. fold (line_of v) (column_of v).
  rewrite !app_nil_iff, !report_if_nil, sourceOutOfRange_false, negb_false_iff by done.
  set (src := int_field _ v). set (ptr := text_field _ v).
  assert (Hp : negb (line_of v =? 0)%Z || negb (column_of v =? 0)%Z = true ↔ positioned v) by (unfold positioned; rewrite orb_true_iff, !negb_true_iff; lia).
  set (pos := negb _ || negb _) in *.
  assert (H1 : pos && ((line_of v <? 1)%Z || (column_of v <? 0)%Z) = false ↔ (positioned v → (1 ≤ line_of v ∧ 0 ≤ column_of v)%Z)).
  { rewrite andb_false_iff, orb_false_iff, <- Hp. destruct pos; [|split; [done|by left]]. split; [intros [?|?]; [done|lia]|intros HR; right; specialize (HR eq_refl); lia]. }
  assert (H2 : (src =? NoSource)%Z && (negb (is_nil ptr) || pos) = false ↔ (src = NoSource → ptr = [] ∧ ¬ positioned v)).
  { rewrite andb_false_iff, orb_false_iff, negb_false_iff, is_nil_true, Z.eqb_neq, <- Hp. destruct pos, (decide (src = NoSource)); naive_solver. }
  rewrite H1, H2. split; intros HR Hs.
  - destruct (HR Hs) as (R1 & R2 & R3 & R4). by constructor.
  - destruct (HR Hs) as [R1 R2 R3 R4]. by split_and!.
Qed.

(** Statuses are set for responses the operation declares. *)
Definition index_rule v : Prop := is_struct operationType v = true →
  ∀ binding e, binding ∈ elements_of mem (FieldByName (go "Bindings") v ≫= FieldByName (go "HTTP")) →
    e ∈ entries_of mem (FieldByName (go "SuccessStatus") binding) →
    (0 ≤ int_of (Some e.1) < Z.of_nat (length (elements_of mem (FieldByName (go "Responses") v))))%Z.
Lemma index_finds_nil v p : index_finds mem v p = [] ↔ index_rule v.
Proof.
  unfold index_finds, index_rule, appendResponseIndexViolations. rewrite if_true_nil, concat_imap_nil. setoid_rewrite bind_nil_iff. setoid_rewrite report_if_nil.
  split; intros HR Hs.
  - intros binding e [i Hi]%list_elem_of_lookup He. specialize (HR Hs i binding Hi e He). rewrite orb_false_iff in HR. lia.
  - intros i binding Hi e He. specialize (HR Hs binding e (list_elem_of_lookup_2 _ _ _ Hi) He). rewrite orb_false_iff. lia.
Qed.

(** ** Values and references *)

(** The payload a kind selects is the only one set, and is set where the zero
    value is none of the kind. *)
Definition value_rule v : Prop := of_type valueType v = true →
  ∃ rule, payloadRule (text_field (go "Kind") v) = Some rule ∧
  ∀ t fs f field, v = Struct t fs → (f, field) ∈ zip (fields_of ir_desc t) fs → f.1 ≠ go "Kind" →
    if bool_decide (f.1 = rule.1) then payloadSet field = true ∨ rule.2 = true else payloadSet field = false.
Lemma payload_finds_nil kind rule p name field : payload_finds Quote kind rule p name field = [] ↔
  (name ≠ go "Kind" → if bool_decide (name = rule.1) then payloadSet field = true ∨ rule.2 = true else payloadSet field = false).
Proof.
  unfold payload_finds. rewrite if_false_nil, bool_decide_eq_false. case_bool_decide as E; cbn [negb andb].
  - destruct (payloadSet field), rule.2; cbn [negb andb]; naive_solver.
  - destruct (payloadSet field); naive_solver.
Qed.
Lemma value_finds_nil v p : value_finds Quote v p = [] ↔ value_rule v.
Proof.
  unfold value_finds, value_rule, appendValueViolations. rewrite if_true_nil. set (kind := text_field _ v).
  destruct (payloadRule kind) as [rule|]; [|split; intros HR Hs; [by specialize (HR Hs)|by destruct (HR Hs) as (? & ? & _)]].
  destruct v as [t|t b0|t z|t s|t fs|t o|t o|t b l|t b q n|t o];
    try (split; [intros _ Hs; exists rule; split; [done|]; intros ? ? ? ? [=]|done]).
  rewrite bind_nil_iff. split; intros HR Hs.
  - exists rule. split; [done|]. intros ? ? f field [= <- <-] Hf. by apply (payload_finds_nil kind rule p), (HR Hs (f, field)).
  - intros [f field] Hf. destruct (HR Hs) as (? & [= <-] & HR'). apply payload_finds_nil. by apply (HR' _ _ f field eq_refl).
Qed.

Definition empty_text (v : goval) : Prop := ∃ t, v = Text t [].
(** A reference held by one field of a struct: empty only where it may be. *)
Definition filled (owner : goval) (field : option goval) (f : idField) : Prop :=
  match if_shape f with
  | idScalar => ∀ v, field = Some v → empty_text v → emptyAllowed owner (if_rule f) = true
  | idPointer => ∀ t q, field = Some (Pointer t (Some q)) → ¬ empty_text (pointee mem (mkRefKey (PointerType t) q 0))
  | idSlice => ∀ e, e ∈ elements_of mem field → ¬ empty_text e
  | idMapKey => ∀ e, e ∈ entries_of mem field → ¬ empty_text e.1
  | idMapValue => ∀ e, e ∈ entries_of mem field → ¬ empty_text e.2
  end.
Definition empty_ref_rule v : Prop := ∀ t fs f, v = Struct t fs → f ∈ idFieldsOf t → filled v (fs !! if_index f) f.

Lemma is_empty_text (v : goval) : match v with Text _ [] => true | _ => false end = true ↔ empty_text v.
Proof. split; [|by intros [t ->]]. destruct v as [| | |t [|]| | | | | |]; try done. by exists t. Qed.
Lemma not_empty_text (v : goval) : match v with Text _ [] => true | _ => false end = false ↔ ¬ empty_text v.
Proof. rewrite <- is_empty_text. by destruct (match v with Text _ [] => true | _ => false end). Qed.

Lemma appendEmptyRefs_nil owner field f p : appendEmptyRefs mem owner field f p = [] ↔ filled owner field f.
Proof.
  unfold appendEmptyRefs, filled. destruct (if_shape f).
  - rewrite report_if_nil, andb_false_iff, negb_false_iff. destruct field as [v|]; [|by split; [|left]]. rewrite not_empty_text. split.
    + intros [Hn|Ha] ? [= <-] He; [by destruct Hn|done].
    + intros HR. destruct (match v with Text _ [] => true | _ => false end) eqn:E; [right; by apply (HR v), is_empty_text|left; by apply not_empty_text].
  - destruct field as [[t|t b0|t z|t s|t fs|t o|t [q|]|t b l|t b q n|t o]|]; try (split; [intros _ ? ? [=]|done]).
    rewrite report_if_nil, not_empty_text. split; [by intros HR ? ? [= <- <-]|intros HR; by apply HR].
  - rewrite concat_imap_nil. setoid_rewrite report_if_nil. setoid_rewrite not_empty_text. split.
    + intros HR e [i Hi]%list_elem_of_lookup. by eapply HR.
    + intros HR i e Hi. by eapply HR, list_elem_of_lookup_2.
  - rewrite report_if_nil, <- not_true_iff_false, existsb_exists. split.
    + intros HR e He Hk. apply HR. exists e. split; [by apply list_elem_of_In|by apply is_empty_text].
    + intros HR (e & He & Hk). apply list_elem_of_In in He. by apply (HR e He), is_empty_text.
  - rewrite bind_nil_iff. setoid_rewrite report_if_nil. setoid_rewrite not_empty_text. done.
Qed.
Lemma empty_ref_finds_nil v p : empty_ref_finds mem v p = [] ↔ empty_ref_rule v.
Proof.
  unfold empty_ref_finds, empty_ref_rule. destruct v as [t|t b0|t z|t s|t fs|t o|t o|t b l|t b q n|t o]; try (split; [by intros _ ? ? ? [=]|done]).
  rewrite bind_nil_iff. setoid_rewrite appendEmptyRefs_nil. split; [intros HR ? ? f [= <- <-]; apply HR|intros HR f Hf; by eapply HR].
Qed.
End Sound.
