(* ===== verification/IdentityRules.v ===== *)
(** * IdentityRules: the identities a walk gathers, and what is said of them

    The ids declared among values shown: each declared once, but for a property
    met again with the same name, wire name and type; each in a namespace the
    document declares. *)
From S2P Require Import Prelude GoLib Decimal Value IR Domain Ids Findings Naming Text Violations RegistryRules RegistrySound.
From S2P Require Import Walk WalkAlone WalkTrace References Reflect WalkRules WalkSound Verify.
Implicit Types (tr : shown_at) (id : gostring) (v : goval) (d : rtype * gostring).

(** ** Declarations *)

Definition declared_by v : option (rtype * gostring) :=
  match DeclaredIDOf ir_desc v with Some (class, id) => if is_empty id then None else Some (class, id) | None => None end.
Definition declared_ids tr : list (rtype * gostring) := omap (λ e, declared_by e.1) tr.

Lemma declarations_shown tr ds : decl_list (foldl (λ ds e, visit_declarations ir_desc ds e.1 e.2) ds tr) = decl_list ds ++ declared_ids tr.
Proof.
  revert ds. induction tr as [|[v p] tr IH]; intros ds; [by rewrite app_nil_r|]. cbn [foldl fst snd]. rewrite IH. unfold declared_ids. cbn [omap list_omap fst].
  unfold visit_declarations, declared_by. destruct (DeclaredIDOf ir_desc v) as [[class id]|]; [|done]. destruct (is_empty id); [done|].
  cbn [decl_list]. by rewrite <- app_assoc.
Qed.

(** ** Properties met again *)

Definition property_id v : gostring := text_field (go "ID") v.
Definition print_of id v : option fingerprint :=
  if is_struct propertyType v && bool_decide (property_id v = id) then Some (fingerprintOf v) else None.
(** The properties of an id, in the order met. *)
Definition prints id tr : list fingerprint := omap (λ e, print_of id e.1) tr.
Definition properties_of tr : properties_met := foldl (λ m e, visit_property m e.1) (mkMet ∅ ∅) tr.

Lemma prints_snoc id tr e : prints id (tr ++ [e]) = prints id tr ++ match print_of id e.1 with Some f => [f] | None => [] end.
Proof. unfold prints. by rewrite omap_app. Qed.

Lemma properties_met_exact tr id :
  met_first (properties_of tr) !! id = match prints id tr with [] => None | f :: _ => Some (mkFirstProperty f (length (prints id tr))) end ∧
  ∀ n, (id, n) ∈ met_differs (properties_of tr) ↔ ∃ first again, prints id tr !! 0 = Some first ∧ prints id tr !! n = Some again ∧ again ≠ first.
Proof.
  revert id. induction tr as [|e tr IH] using rev_ind; intros id.
  { split; [done|]. intros n. split; [by intros ?%not_elem_of_empty|]. by intros (? & ? & ? & _). }
  unfold properties_of. rewrite foldl_snoc. fold (properties_of tr). rewrite prints_snoc. unfold visit_property, print_of.
  destruct (is_struct propertyType e.1); cbn [andb]; [|rewrite app_nil_r; apply IH]. fold (property_id e.1).
  destruct (IH (property_id e.1)) as [F1 F2]. destruct (IH id) as [G1 G2]. case_bool_decide as Eid.
  - subst id. destruct (prints (property_id e.1) tr) as [|f fs] eqn:Ep; rewrite F1; cbn [met_first met_differs fp_print fp_met].
    + rewrite lookup_insert_eq. split; [done|]. intros n. rewrite F2. split; [by intros (? & ? & ? & _)|].
      intros (first & again & [= <-] & Hn & Hd). destruct n; [by injection Hn as <-|done].
    + rewrite lookup_insert_eq. cbn [app length]. split; [by rewrite length_app, Nat.add_comm|]. intros n.
      assert (Hn : (property_id e.1, n) ∈ (if bool_decide (f = fingerprintOf e.1) then met_differs (properties_of tr)
          else {[(property_id e.1, S (length fs))]} ∪ met_differs (properties_of tr)) ↔
        (property_id e.1, n) ∈ met_differs (properties_of tr) ∨ (n = S (length fs) ∧ fingerprintOf e.1 ≠ f)).
      { case_bool_decide; [split; [by left|]; intros [?|[_ ?]]; [done|congruence]|]. rewrite elem_of_union, elem_of_singleton. split; [|by intros [?|[-> _]]; auto].
        intros [[= ->]|?]; [right; split; [done|congruence]|by left]. }
      rewrite Hn, F2. clear Hn. split.
      * intros [(first & again & Hf & Ha & Hd)|[-> Hd]]; [exists first, again|exists f, (fingerprintOf e.1)].
        -- split_and!; [done| |done]. by apply (lookup_app_l_Some (f :: fs)).
        -- split_and!; [done| |done]. by apply (list_lookup_middle (f :: fs)).
      * intros (first & again & [= <-] & Ha & Hd). apply (lookup_app_Some (f :: fs)) in Ha as [Ha|[Hlen Ha]]; [left; by exists f, again|right].
        cbn [length] in *. apply list_lookup_singleton_Some in Ha as [Hz <-]. split; [lia|done].
  - rewrite app_nil_r. destruct (met_first (properties_of tr) !! property_id e.1) as [first|]; cbn [met_first met_differs]; rewrite lookup_insert_ne by done; (split; [exact G1|]); intros n; rewrite <- G2; [|done].
    case_bool_decide; [done|]. rewrite elem_of_union, elem_of_singleton. split; [by intros [[= ? _]|?]|by right].
Qed.

Lemma ir_desc_lookup t : ir_desc t = default OtherTypeKind (ir_table !! t).
Proof. done. Qed.
#[local] Opaque ir_desc.
(** Only a property declares a property's id, in the field the check reads. *)
Lemma ir_desc_types (P : rtype → typeDesc → bool) : (∀ t, P t OtherTypeKind = true) →
  forallb (λ e : rtype * typeDesc, P e.1 e.2) ir_types = true → ∀ t, P t (ir_desc t) = true.
Proof.
  intros Ho Hall t. rewrite ir_desc_lookup. destruct (ir_table !! t) as [d|] eqn:E; [|apply Ho]. cbn [default].
  apply elem_of_list_to_map_2, list_elem_of_In in E. rewrite forallb_forall in Hall. exact (Hall (t, d) E).
Qed.
Lemma property_ids t i class : declaredIDField ir_desc t = Some (i, class) → class = propIDType ↔ t = propertyType.
Proof.
  assert (Hall : ∀ t, match declaredIDField ir_desc t with Some (_, class) => Bool.eqb (bool_decide (class = propIDType)) (bool_decide (t = propertyType)) | None => true end = true).
  { set (P := λ (t : rtype) (e : typeDesc), match e with StructKind _ =>
      match declaredIDField ir_desc t with Some (_, class) => Bool.eqb (bool_decide (class = propIDType)) (bool_decide (t = propertyType)) | None => true end
      | _ => true end).
    assert (HP : forallb (λ e : rtype * typeDesc, P e.1 e.2) ir_types = true) by (vm_compute; reflexivity).
    intros u. pose proof (ir_desc_types P (λ _, eq_refl) HP u) as Hu. unfold P in Hu.
    unfold declaredIDField in *. by destruct (ir_desc u). }
  intros E. specialize (Hall t). rewrite E in Hall. apply Bool.eqb_prop in Hall. rewrite <- (bool_decide_eq_true (class = propIDType)), Hall. apply bool_decide_eq_true.
Qed.
Lemma property_field : ∃ i, declaredIDField ir_desc propertyType = Some (i, propIDType) ∧
  ∀ fs, property_id (Struct propertyType fs) = match fs !! i with Some f => text_of f | None => [] end.
Proof.
  assert (Hf : fst <$> list_find (λ f, f.1 = go "ID") (fields_of ir_desc propertyType) = Some 0) by (vm_compute; reflexivity).
  exists 0. split; [vm_compute; reflexivity|]. intros fs. unfold property_id, text_field, FieldByName.
  destruct (list_find (λ f, f.1 = go "ID") (fields_of ir_desc propertyType)) as [[i f]|]; [|discriminate Hf]. injection Hf as ->. reflexivity.
Qed.

Lemma struct_or_not v : (∃ t fs, v = Struct t fs) ∨ (DeclaredIDOf ir_desc v = None ∧ is_struct propertyType v = false).
Proof. destruct v as [t|t b0|t z|t s|t fs|t o|t o|t b l|t b q m|t o]; try (right; split; reflexivity). left. by exists t, fs. Qed.
Lemma declared_property v id : id ≠ [] → declared_by v = Some (propIDType, id) ↔ is_struct propertyType v = true ∧ property_id v = id.
Proof.
  intros Hid. destruct (struct_or_not v) as [(t & fs & ->)|[E1 E2]].
  2: { unfold declared_by. rewrite E1, E2. split; [discriminate|intros [E _]; discriminate E]. }
  destruct property_field as (n & Hn & Hf). unfold declared_by, DeclaredIDOf. cbn [is_struct]. rewrite bool_decide_eq_true. split.
  - destruct (declaredIDField ir_desc t) as [[i class]|] eqn:E; [|discriminate]. destruct (is_empty _); [discriminate|]. intros [= -> <-].
    assert (t = propertyType) as -> by (by apply (property_ids t i propIDType E)). split; [reflexivity|]. rewrite Hf. rewrite Hn in E. by injection E as ->.
  - intros [-> <-]. rewrite Hn. rewrite Hf in *. by rewrite (proj2 (is_empty_false _) Hid).
Qed.
Lemma print_of_declared id v : id ≠ [] → is_Some (print_of id v) ↔ declared_by v = Some (propIDType, id).
Proof.
  intros Hid. rewrite declared_property by done. unfold print_of. destruct (is_struct propertyType v); cbn [andb]; [|split; [by intros [? ?]|by intros [? _]]].
  case_bool_decide; split; [done|by eexists|by intros [? ?]|by intros [_ ?]].
Qed.

(** ** Declared again *)

Definition occurrences d (ds : list (rtype * gostring)) : nat := length (filter (λ x, x = d) ds).
Definition met_already (seen : gmap (rtype * gostring) (nat * nat)) d : nat := match seen !! d with Some (_, met) => met | None => 0 end.

Lemma redeclared_nil differs i seen ds : (∀ d first met, seen !! d = Some (first, met) → 1 ≤ met) →
  redeclared differs i seen ds = [] ↔
  ∀ d n, met_already seen d ≤ n → n < met_already seen d + occurrences d ds → 1 ≤ n → d.1 = propIDType ∧ (d.2, n) ∉ differs.
Proof.
  revert i seen. induction ds as [|d0 ds IH]; intros i seen Hseen; cbn [redeclared].
  { split; [|done]. intros _ d n H1 H2. unfold occurrences in H2. cbn in H2. lia. }
  assert (Hocc : ∀ d, occurrences d (d0 :: ds) = (if decide (d0 = d) then 1 else 0) + occurrences d ds) by (intros d; unfold occurrences; rewrite filter_cons; by destruct (decide (d0 = d))).
  assert (Hnext : ∀ first met, 1 ≤ met → (met = S (met_already seen d0)) →
    redeclared differs (S i) (<[d0 := (first, met)]> seen) ds = [] ↔
    ∀ d n, met_already seen d + (if decide (d0 = d) then 1 else 0) ≤ n → n < met_already seen d + occurrences d (d0 :: ds) → 1 ≤ n → d.1 = propIDType ∧ (d.2, n) ∉ differs).
  { intros first met Hm Em. rewrite IH by (intros d f m; destruct (decide (d0 = d)) as [->|]; [rewrite lookup_insert_eq; by intros [= _ <-]|rewrite lookup_insert_ne by done; apply Hseen]).
    setoid_rewrite Hocc. unfold met_already at 1 2. split; intros HR d n; specialize (HR d n); destruct (decide (d0 = d)) as [->|]; rewrite ?lookup_insert_eq, ?lookup_insert_ne in * by done;
      try (fold (met_already seen d) in * ); intros; apply HR; lia. }
  destruct (seen !! d0) as [[first met]|] eqn:E.
  - assert (Em : met_already seen d0 = met) by (unfold met_already; by rewrite E). rewrite app_nil_iff, (Hnext first (S met)) by lia.
    specialize (Hseen _ _ _ E). rewrite if_false_nil. split.
    + intros [H1 H2] d n Hl Hu Hn. destruct (decide (d0 = d)) as [->|]; [|apply H2; [rewrite decide_False by done; lia|done|done]].
      destruct (decide (n = met)) as [->|]; [|apply H2; [rewrite decide_True by done; lia|done|done]].
      destruct (_ && _) eqn:Eb in H1; [|by specialize (H1 eq_refl)]. apply andb_true_iff in Eb as [Hp%bool_decide_eq_true Hd%negb_true_iff%bool_decide_eq_false]. done.
    + intros HR. split; [|intros d n Hl; apply HR; lia]. destruct (HR d0 met) as [Hp Hd]; [lia|rewrite Hocc, decide_True by done; lia|done|].
      rewrite bool_decide_eq_true_2, bool_decide_eq_false_2 by done. done.
  - assert (Em : met_already seen d0 = 0) by (unfold met_already; by rewrite E). rewrite (Hnext i 1) by lia. split.
    + intros HR d n Hl Hu Hn. apply HR; [|done|done]. destruct (decide (d0 = d)) as [<-|]; lia.
    + intros HR d n Hl Hu Hn. apply HR; [lia|done|done].
Qed.

Lemma redeclared_positions differs i seen ds r : r ∈ redeclared differs i seen ds → i ≤ again_at r < i + length ds.
Proof.
  revert i seen. induction ds as [|d ds IH]; intros i seen; cbn [redeclared length]; [by intros ?%elem_of_nil|].
  destruct (seen !! d) as [[first met]|]; [|intros Hr%IH; lia]. rewrite elem_of_app. intros [Hr|Hr%IH]; [|lia].
  destruct (_ && _) in Hr; [by apply elem_of_nil in Hr|]. apply list_elem_of_singleton in Hr as ->. cbn. lia.
Qed.

Lemma redeclarationViolations_nil Quote ds again (d : declarations) : (∀ r, r ∈ again → again_at r < length ds) →
  redeclarationViolations Quote ds again d = [] ↔ again = [].
Proof.
  intros Hat. unfold redeclarationViolations. split; [|by intros ->]. intros HR. destruct again as [|r again]; [done|]. exfalso.
  rewrite bind_nil_iff in HR. specialize (HR r ltac:(by left)). destruct (lookup_lt_is_Some_2 ds (again_at r)) as [[class id] E]; [apply Hat; by left|].
  by rewrite E in HR.
Qed.

(** ** The rule: an identity is declared once *)

Record declared_once tr : Prop := {
  do_ids : NoDup (filter (λ d, d.1 ≠ propIDType) (declared_ids tr));
  do_properties v w : has tr v → has tr w → is_struct propertyType v = true → is_struct propertyType w = true →
    property_id v ≠ [] → property_id v = property_id w → fingerprintOf v = fingerprintOf w
}.

Lemma occurrences_prints id tr : id ≠ [] → occurrences (propIDType, id) (declared_ids tr) = length (prints id tr).
Proof.
  intros Hid. unfold occurrences, declared_ids, prints. induction tr as [|e tr IH]; [done|]. cbn [omap list_omap].
  pose proof (print_of_declared id e.1 Hid) as Hp. destruct (declared_by e.1) as [d|].
  - rewrite filter_cons. destruct (decide (d = (propIDType, id))) as [->|Hne].
    + destruct (proj2 Hp eq_refl) as [f ->]. cbn [length]. by f_equal.
    + destruct (print_of id e.1); [|done]. destruct Hne. destruct Hp as [Hp _]. by injection (Hp ltac:(by eexists)).
  - destruct (print_of id e.1); [|done]. destruct Hp as [Hp _]. by specialize (Hp ltac:(by eexists)).
Qed.
Lemma declared_ids_nonempty tr d : d ∈ declared_ids tr → d.2 ≠ [].
Proof.
  unfold declared_ids. rewrite list_elem_of_omap. intros (e & _ & Hd). unfold declared_by in Hd. destruct (DeclaredIDOf ir_desc e.1) as [[class id]|]; [|done].
  destruct (is_empty id) eqn:E; [done|]. injection Hd as <-. by apply is_empty_false.
Qed.
Lemma elem_of_prints id tr f : f ∈ prints id tr ↔ ∃ v, has tr v ∧ is_struct propertyType v = true ∧ property_id v = id ∧ fingerprintOf v = f.
Proof.
  unfold prints. rewrite list_elem_of_omap. unfold has, print_of. split.
  - intros ([v p] & Hin & Hf). cbn [fst] in Hf. destruct (is_struct propertyType v) eqn:Es; cbn [andb] in Hf; [|done]. case_bool_decide; [|done].
    injection Hf as <-. exists v. split_and!; [by exists p|done..].
  - intros (v & [p Hp] & Hs & Hi & Hf). exists (v, p). split; [done|]. cbn [fst]. rewrite Hs, bool_decide_eq_true_2 by done. cbn. by rewrite Hf.
Qed.

Lemma occurrences_NoDup (l : list (rtype * gostring)) : NoDup l ↔ ∀ d, occurrences d l ≤ 1.
Proof.
  unfold occurrences. induction l as [|x l IH]; [split; [|constructor]; cbn; lia|]. rewrite NoDup_cons, IH.
  assert (Hpos : ∀ d, d ∈ l ↔ 1 ≤ length (filter (λ y, y = d) l)).
  { intros d. split.
    - intros Hd. assert (Hf : d ∈ filter (λ y, y = d) l) by by apply list_elem_of_filter. destruct (filter _ l); [by apply elem_of_nil in Hf|cbn; lia].
    - intros Hl. destruct (filter (λ y, y = d) l) as [|y r] eqn:E; [cbn in Hl; lia|]. assert (Hy : y ∈ filter (λ y, y = d) l) by (rewrite E; by left).
      apply list_elem_of_filter in Hy as [-> ?]. done. }
  setoid_rewrite filter_cons. split.
  - intros [Hx Hl] d. destruct (decide (x = d)) as [->|]; [|apply Hl]. cbn [length]. rewrite Hpos in Hx. lia.
  - intros HR. split.
    + rewrite Hpos. specialize (HR x). rewrite decide_True in HR by done. cbn in HR. lia.
    + intros d. specialize (HR d). destruct (decide (x = d)); cbn [length] in HR; lia.
Qed.
Lemma occurrences_filter (P : rtype * gostring → Prop) `{∀ d, Decision (P d)} d ds : occurrences d (filter P ds) = if decide (P d) then occurrences d ds else 0.
Proof.
  unfold occurrences. rewrite list_filter_filter. destruct (decide (P d)) as [Hd|Hd].
  - f_equal. apply list_filter_iff. intros x. split; [by intros [? _]|by intros ->].
  - rewrite filter_none; [done|]. by intros x _ [-> ?].
Qed.

Lemma duplicateIDs_nil Quote (d : declarations) tr : decls_list d = declared_ids tr →
  duplicateIDs Quote d (met_differs (properties_of tr)) = [] ↔ declared_once tr.
Proof.
  intros Ed. unfold duplicateIDs. rewrite Ed, redeclarationViolations_nil by (intros r Hr%redeclared_positions; lia).
  rewrite redeclared_nil by (intros ? ? ?; by rewrite lookup_empty). unfold met_already. setoid_rewrite lookup_empty.
  assert (Hlast : ∀ d n, n < occurrences d (declared_ids tr) → d ∈ declared_ids tr).
  { intros d' n Hn. unfold occurrences in Hn. destruct (filter (λ x, x = d') (declared_ids tr)) as [|x r] eqn:E; [cbn in Hn; lia|].
    assert (Hx : x ∈ filter (λ x, x = d') (declared_ids tr)) by (rewrite E; by left). by apply list_elem_of_filter in Hx as [-> ?]. }
  split.
  - intros HR. constructor.
    + apply occurrences_NoDup. intros x. rewrite occurrences_filter. case_decide as Hx; [|lia]. destruct (decide (occurrences x (declared_ids tr) ≤ 1)); [done|].
      destruct (HR x 1 ltac:(lia) ltac:(lia) ltac:(lia)). done.
    + intros v w Hv Hw Sv Sw Hid Heq. assert (Hfirst : ∀ u, has tr u → is_struct propertyType u = true → property_id u = property_id v →
        ∃ first, prints (property_id v) tr !! 0 = Some first ∧ fingerprintOf u = first).
      { intros u Hu Su Eu. assert (Hin : fingerprintOf u ∈ prints (property_id v) tr) by (apply elem_of_prints; by exists u).
        apply list_elem_of_lookup in Hin as [n Hn]. destruct (prints (property_id v) tr) as [|first fs] eqn:Ep; [done|]. exists first. split; [done|].
        destruct n as [|n]; [by injection Hn as <-|]. destruct (decide (fingerprintOf u = first)) as [|Hne]; [done|].
        destruct (HR (propIDType, property_id v) (S n)) as [_ Hd]; [lia| |lia|].
        - rewrite occurrences_prints, Ep by done. apply lookup_lt_Some in Hn. exact Hn.
        - destruct Hd. cbn [snd]. apply properties_met_exact. exists first, (fingerprintOf u). by rewrite Ep. }
      destruct (Hfirst v Hv Sv eq_refl) as (f & E1 & ->), (Hfirst w Hw Sw (eq_sym Heq)) as (g & E2 & ->). congruence.
  - intros [H1 H2] x n _ Hn Hpos. cbn [plus] in Hn. pose proof (declared_ids_nonempty tr x (Hlast _ _ Hn)) as Hne.
    assert (Hp : x.1 = propIDType).
    { destruct (decide (x.1 = propIDType)) as [|Hx]; [done|]. rewrite occurrences_NoDup in H1. specialize (H1 x). rewrite occurrences_filter, decide_True in H1 by done. lia. }
    split; [done|]. intros (first & again & Hf & Ha & Hd)%properties_met_exact. destruct Hd.
    apply list_elem_of_lookup_2, elem_of_prints in Hf as (v & Hv & Sv & Iv & <-). apply list_elem_of_lookup_2, elem_of_prints in Ha as (w & Hw & Sw & Iw & <-).
    symmetry. apply H2; congruence.
Qed.

(** ** Namespaces *)

(** A declaration of namespaces: for kinds ids open with, namespaces ids can be
    in, in strict order; and a namespace for each id that needs one. *)
Record spaces_declared (declaration : gmap gostring (list gostring)) (ids : list (rtype * gostring)) : Prop := {
  sd_kinds kind spaces : declaration !! kind = Some spaces → kind ∈ IDKinds ∧ spaces ≠ [] ∧
    (∀ space, space ∈ spaces → space ≠ [] ∧ separator ∉ space) ∧ Sorted (λ a b, ¬ string_le b a) spaces;
  sd_ids d kind space : d ∈ ids → needs_space d = Some (kind, space) → ∃ spaces, declaration !! kind = Some spaces ∧ space ∈ spaces
}.

Lemma Sorted_lookup {A} (R : A → A → Prop) (l : list A) : Sorted R l ↔ ∀ i x y, l !! i = Some x → l !! S i = Some y → R x y.
Proof.
  induction l as [|x l IH]; [split; [done|constructor]|]. split.
  - intros HS [|i] a b Ha Hb; [|inv HS; rewrite IH in *; by eauto]. injection Ha as <-. inv HS. destruct l as [|c l]; [done|]. injection Hb as <-. by match goal with HR : HdRel _ _ _ |- _ => inv HR end.
  - intros HR. constructor; [apply IH; intros i; apply (HR (S i))|]. destruct l as [|b l]; constructor. by apply (HR 0).
Qed.

Lemma appendSpaceViolations_nil Quote kind spaces : appendSpaceViolations Quote kind spaces = [] ↔
  (∀ space, space ∈ spaces → space ≠ [] ∧ separator ∉ space) ∧ Sorted (λ a b, ¬ string_le b a) spaces.
Proof.
  unfold appendSpaceViolations. rewrite concat_imap_nil, Sorted_lookup.
  assert (Hat : ∀ i space, space_finds Quote kind spaces i space = [] ↔
    (space ≠ [] ∧ separator ∉ space) ∧ match i with O => True | S j => ¬ string_le space (default [] (spaces !! j)) end).
  { intros i space. unfold space_finds. rewrite app_nil_iff, report_if_nil, orb_false_iff, is_nil_false, bool_decide_eq_false.
    destruct i as [|j]; [tauto|]. by rewrite report_if_nil, bool_decide_eq_false. }
  setoid_rewrite Hat. split.
  - intros HR. split; [intros space [i Hi]%list_elem_of_lookup; by apply (HR i)|]. intros i x y Hx Hy. destruct (HR _ _ Hy) as [_ HS]. by rewrite Hx in HS.
  - intros [H1 H2] i x Hx. split; [by eapply H1, list_elem_of_lookup_2|]. destruct i as [|j]; [done|].
    destruct (lookup_lt_is_Some_2 spaces j) as [y Hy]; [apply lookup_lt_Some in Hx; lia|]. rewrite Hy. by apply (H2 j).
Qed.

Lemma declarationViolations_nil Quote declaration : declarationViolations Quote declaration = [] ↔
  ∀ kind spaces, declaration !! kind = Some spaces → kind ∈ IDKinds ∧ spaces ≠ [] ∧
    (∀ space, space ∈ spaces → space ≠ [] ∧ separator ∉ space) ∧ Sorted (λ a b, ¬ string_le b a) spaces.
Proof.
  unfold declarationViolations. rewrite bind_nil_iff. setoid_rewrite elem_of_sorted_keys. setoid_rewrite elem_of_dom.
  assert (Hat : ∀ kind spaces, declaration !! kind = Some spaces → kind_finds Quote declaration kind = [] ↔ kind ∈ IDKinds ∧ spaces ≠ [] ∧
    (∀ space, space ∈ spaces → space ≠ [] ∧ separator ∉ space) ∧ Sorted (λ a b, ¬ string_le b a) spaces).
  { intros kind spaces E. unfold kind_finds. rewrite E. cbn [default]. change (id spaces) with spaces. case_bool_decide; cbn [negb]; [|split; [done|by intros [? _]]].
    destruct (is_nil spaces) eqn:En; [apply is_nil_true in En; split; [discriminate|intros (_ & Hne & _); by destruct Hne]|]. apply is_nil_false in En.
    rewrite appendSpaceViolations_nil. tauto. }
  split.
  - intros HR kind spaces E. apply Hat; [done|]. apply HR. by eexists.
  - intros HR kind [spaces E]. apply (Hat _ _ E). by apply HR.
Qed.

Lemma idSpaceViolations_nil Quote doc (d : declarations) : idSpaceViolations Quote doc d = [] ↔ spaces_declared (Document_IDSpaces doc) (decls_list d).
Proof.
  unfold idSpaceViolations. set (declaration := Document_IDSpaces doc). set (ds := decls_list d). rewrite !app_nil_iff, declarationViolations_nil, report_if_nil.
  assert (Hout : appendUndeclaredSpaces Quote ds (outside_at declaration ds) d = [] ↔ outside_at declaration ds = []).
  { unfold appendUndeclaredSpaces. rewrite bind_nil_iff. split; [|intros -> x Hx; by apply elem_of_nil in Hx]. intros HR. destruct (outside_at declaration ds) as [|i r] eqn:E; [done|]. exfalso.
    assert (Hi : i ∈ outside_at declaration ds) by (rewrite E; by left). unfold outside_at in Hi. apply elem_of_concat in Hi as (l & Hl & Hi).
    apply elem_of_lookup_imap_1 in Hi as (j & x & -> & Hx). assert (j = i) as -> by (destruct (needs_space x) as [[? ?]|]; [destruct (_ && _) in Hl|]; set_solver).
    specialize (HR i ltac:(by left)). rewrite Hx in HR; by destruct x. }
  rewrite Hout. unfold outside_at. rewrite concat_imap_nil, andb_false_iff, bool_decide_eq_false. split.
  - intros (H1 & H2 & H3). constructor; [exact H1|]. intros x kind space Hx Hn.
    assert (Hne : declaration ≠ ∅).
    { destruct H3 as [H3|?]; [|done]. rewrite <- not_true_iff_false, existsb_exists in H3. destruct H3. exists x. split; [by apply list_elem_of_In|]. by rewrite Hn. }
    apply list_elem_of_lookup in Hx as [i Hi]. specialize (H2 i x Hi). rewrite Hn in H2. rewrite bool_decide_eq_false_2 in H2 by done. cbn [negb andb] in H2.
    unfold declaredSpaces in H2. destruct (declaration !! kind) as [spaces|]; [|done]. exists spaces. split; [done|]. by case_bool_decide.
  - intros [H1 H2]. split_and!; [exact H1| |].
    + intros i x Hi. destruct (needs_space x) as [[kind space]|] eqn:Hn; [|done]. destruct (H2 x kind space (list_elem_of_lookup_2 _ _ _ Hi) Hn) as (spaces & E & Hs).
      unfold declaredSpaces. rewrite E, (bool_decide_eq_true_2 _ Hs). by rewrite andb_false_r.
    + destruct (existsb _ ds) eqn:E; [right|by left]. apply existsb_exists in E as (x & Hx & Hn). destruct (needs_space x) as [[kind space]|] eqn:En; [|done].
      destruct (H2 x kind space ltac:(by apply list_elem_of_In) En) as (spaces & Es & _). intros E0. rewrite E0, lookup_empty in Es. done.
Qed.
