(* ===== verification/VerifySound.v ===== *)
(** * VerifySound: what a clean report says of a document

    The verifier reports nothing exactly when the document keeps every rule, and
    what it reports does not depend on the order Go ranges over maps in. *)
From S2P Require Import Prelude GoLib Utf8 Decimal BigVal Value IR Domain Ids Findings Naming Text Violations RegistryRules RegistrySound Walk.
From S2P Require Import WalkAlone WalkTrace Acyclic References Reflect WalkRules WalkSound Verify IdentityRules.

(** ** Checks: what each check makes of the walk they share

    Checks that share the verifier's walk each end as they would alone: one that
    prunes by the value makes what its visits make of its own trace, and one that
    is told of cycles was told of one exactly when the document has one. *)

(** ** One traversal *)

Lemma WalkValues_single mem plain Sprint {S : Type} (vs : list (option (Visitor (S:=S)))) v root s : vs ≠ [] → length vs ≤ maxSharedVisitors →
  WalkValues mem plain Sprint v root vs s = let w := traverse mem plain Sprint root vs None v 0 s in (store w, truncated w).
Proof.
  intros Hne Hl. unfold WalkValues, walkValues, Chunk. destruct vs as [|V vs]; [done|]. cbn [length chunks].
  rewrite take_ge by done. rewrite drop_ge by done. assert (Hnil : ∀ n, chunks n maxSharedVisitors (@nil (option (Visitor (S:=S)))) = []) by by intros [].
  rewrite Hnil. cbn [walk_groups]. by destruct (refusal _).
Qed.

Lemma only_split {S : Type} (vs : list (option (Visitor (S:=S)))) (i : nat) V : vs !! i = Some (Some V) →
  only i vs = replicate i None ++ Some V :: replicate (length vs - i - 1) None.
Proof.
  intros Hi. apply list_eq. intros j. rewrite only_lookup. pose proof (lookup_lt_Some _ _ _ Hi) as Hl.
  destruct (lt_eq_lt_dec j i) as [[Hj| ->]|Hj].
  - rewrite lookup_app_l by (rewrite length_replicate; lia). rewrite lookup_replicate_2 by lia.
    destruct (lookup_lt_is_Some_2 vs j) as [o ->]; [lia|]. cbn. by rewrite decide_False by lia.
  - rewrite list_lookup_middle by (by rewrite length_replicate). rewrite Hi. cbn. by rewrite decide_True.
  - rewrite lookup_app_r by (rewrite length_replicate; lia). rewrite length_replicate, lookup_cons_ne_0 by lia.
    destruct (vs !! j) as [o|] eqn:Ej.
    + cbn [fmap option_fmap option_map]. rewrite decide_False by lia. apply lookup_lt_Some in Ej. by rewrite lookup_replicate_2 by lia.
    + apply lookup_ge_None in Ej. symmetry. apply lookup_ge_None. rewrite length_replicate. lia.
Qed.

Lemma play_only {S : Type} (vs : list (option (Visitor (S:=S)))) (i : nat) V s e : vs !! i = Some (Some V) →
  play (only i vs) s e = (Visit V s e.1 e.2).1.
Proof.
  intros Hi. unfold play. rewrite (only_split _ _ _ Hi), foldl_app. cbn [foldl].
  assert (Hn : ∀ n s, foldl (λ s (V : option (Visitor (S:=S))), match V with Some V => (Visit V s e.1 e.2).1 | None => s end) s (replicate n None) = s)
    by (intros n; induction n as [|n IH]; intros s'; [done|]; apply IH).
  by rewrite !Hn.
Qed.

(** ** Checks sharing a walk *)

#[local] Abbreviation captures := (gmap nat captured).

Section Checks.
Context (mem : memory) (root : goval).
Implicit Types (cs : list walkCheck) (c : walkCheck) (s : captures).
#[local] Abbreviation walk_of vs := (traverse mem (λ _, true) Sprint DocumentPath vs None (Some root) 0).
#[local] Abbreviation shown keep := (trace mem (λ _, true) Sprint DocumentPath keep (Some root)).

Lemma visitor_at cs (i : nat) V : walkVisitors cs !! i = Some (Some V) ↔ ∃ c, cs !! i = Some c ∧ V = lift i c.
Proof.
  unfold walkVisitors. rewrite list_lookup_imap. destruct (cs !! i) as [c|]; cbn; [|split; [done|by intros (? & ? & _)]].
  split; [intros [= <-]; by exists c|by intros (? & [= <-] & ->)].
Qed.

Lemma lift_own (i : nat) c : own_state (λ i s, s !! i) i (lift i c).
Proof.
  assert (Hh : ∀ s s', s !! i = s' !! i → held_by s i c = held_by s' i c) by (intros s s' E; unfold held_by; by rewrite E).
  constructor.
  - intros s s' v p E. cbn. rewrite (Hh s s' E). destruct (visit c _ v p) as [st asks]. cbn. by rewrite !lookup_insert_eq.
  - intros j s v p Hj. cbn. destruct (visit c _ v p) as [st asks]. cbn. by rewrite lookup_insert_ne.
  - intros told s s' p q t Ht E. cbn in Ht. destruct (cycle c); [|done]. injection Ht as <-. by rewrite !lookup_insert_eq, (Hh s s' E).
  - intros told j s p q t Ht Hj. cbn in Ht. destruct (cycle c); [|done]. injection Ht as <-. by rewrite lookup_insert_ne.
Qed.

(** A walk of checks, and the walk of one of them. *)
Definition whole_walk cs : valueWalk (S:=captures) := walk_of (walkVisitors cs) (walk_start cs).
Definition own_walk cs (i : nat) : valueWalk (S:=captures) := walk_of (only i (walkVisitors cs)) (walk_start cs).

Lemma length_visitors cs : length (walkVisitors cs) = length cs.
Proof. apply length_imap. Qed.

Lemma checks_alone cs : length cs ≤ maxSharedVisitors →
  (∀ i, store (whole_walk cs) !! i = store (own_walk cs i) !! i) ∧
  (truncated (whole_walk cs) = true ↔ ∃ i, truncated (own_walk cs i) = true) ∧ ∀ i, refusal (own_walk cs i) = None.
Proof.
  intros Hl. assert (Hown : ∀ i V, walkVisitors cs !! i = Some (Some V) → own_state (λ i s, s !! i) i V) by (intros i V (c & _ & ->)%visitor_at; apply lift_own).
  assert (Hl' : length (walkVisitors cs) ≤ maxSharedVisitors) by by rewrite length_visitors.
  destruct (traverse_alone mem (λ _, true) Sprint DocumentPath (λ i s, s !! i) (walkVisitors cs) (Some root) 0 0 (walk_start cs) (λ _, walk_start cs) Hl' Hown (λ _, eq_refl)) as (_ & H2 & H3).
  split; [exact H2|]. split; [exact H3|]. intros i.
  refine (proj1 (traverse_alone mem (λ _, true) Sprint DocumentPath (λ i s, s !! i) (only i (walkVisitors cs)) (Some root) 0 0 (walk_start cs) (λ _, walk_start cs) _ _ (λ _, eq_refl))).
  - by rewrite only_length.
  - intros j V. rewrite only_lookup. destruct (walkVisitors cs !! j) as [o|] eqn:E; [|done]. cbn. case_decide; [|done]. intros [= ->]. by apply Hown.
Qed.

(** A check that reads on below a value by the value alone. *)
Definition reads_by (keep : goval → bool) c : Prop := (∀ st v p, (visit c st v p).2 = keep v) ∧ cycle c = None.
Definition played c (tr : shown_at) : captured := foldl (λ st e, (visit c st e.1 e.2).1) (start c) tr.

Lemma lift_reads_on keep cs (i : nat) c : cs !! i = Some c → reads_by keep c → reads_on keep (only i (walkVisitors cs)).
Proof.
  intros Hc [Hv Hcy] j V Hj. rewrite only_lookup in Hj. destruct (walkVisitors cs !! j) as [o|] eqn:E; [|done]. cbn in Hj.
  case_decide as Eij; [|done]. injection Hj as ->. subst j. apply visitor_at in E as (c' & Hc' & ->). rewrite Hc in Hc'. injection Hc' as <-.
  split; [|cbn; by rewrite Hcy]. intros s v p. cbn. pose proof (Hv (held_by s i c) v p) as Hk. destruct (visit c _ v p) as [st asks]. exact Hk.
Qed.

Lemma all_only_some cs (i : nat) c : cs !! i = Some c → all (only i (walkVisitors cs)) = alone i.
Proof. intros Hc. rewrite all_only. unfold walkVisitors. rewrite list_lookup_imap, Hc. done. Qed.
Lemma alone_nonzero (i : nat) : alone i ≠ 0%Z.
Proof. intros E. apply set_zero with (i := i) in E. rewrite bit_alone in E. by rewrite bool_decide_eq_true_2 in E. Qed.

Lemma start_at cs (i : nat) c : cs !! i = Some c → walk_start cs !! i = Some (start c).
Proof. intros Hc. unfold walk_start. rewrite lookup_map_seq_0, list_lookup_fmap, Hc. done. Qed.

Lemma check_played keep cs (i : nat) c : length cs ≤ maxSharedVisitors → cs !! i = Some c → reads_by keep c →
  store (whole_walk cs) !! i = Some (played c (shown keep)) ∧
  truncated (own_walk cs i) = truncated (traced mem (λ _, true) Sprint DocumentPath keep (Some root)).
Proof.
  intros Hl Hc Hk. destruct (checks_alone cs Hl) as (H1 & _ & H3). rewrite H1. unfold own_walk in *.
  destruct (traverse_plays mem (λ _, true) Sprint DocumentPath keep (only i (walkVisitors cs)) None (lift_reads_on keep cs i c Hc Hk)) with (start := walk_start cs) (v := Some root) as [E1 E2].
  - by rewrite only_length, length_visitors.
  - rewrite (all_only_some _ _ _ Hc). apply alone_nonzero.
  - apply H3.
  - split; [|exact E2]. rewrite E1. assert (HV : walkVisitors cs !! i = Some (Some (lift i c))) by (apply visitor_at; by exists c).
    unfold played. generalize (start_at cs i c Hc). generalize (walk_start cs). generalize (start c). generalize (shown keep).
    intros tr. induction tr as [|e tr IH]; intros st s Hs; [exact Hs|]. cbn [foldl]. apply IH. rewrite (play_only _ _ _ _ _ HV). cbn.
    unfold held_by. rewrite Hs. cbn. destruct (visit c st e.1 e.2) as [st' asks]. cbn. by rewrite lookup_insert_eq.
Qed.

(** A check told of cycles, by how often. *)
Lemma check_told cs (i : nat) c told : length cs ≤ maxSharedVisitors → cs !! i = Some c → cycle c = Some told →
  (∀ st v p, visit c st v p = (st, true)) → (∀ st at_ entered t, length (found_in (told st at_ entered t)) = S (length (found_in st))) →
  found_in (start c) = [] → truncated (whole_walk cs) = false →
  found_in (held_by (store (whole_walk cs)) i c) = [] ↔ acyclic mem root.
Proof.
  intros Hl Hc Hcy Hv Ht Hstart Hcut. destruct (checks_alone cs Hl) as (H1 & H2 & _).
  assert (Hcut' : truncated (own_walk cs i) = false) by (apply not_true_iff_false; intros E; apply not_true_iff_false in Hcut; apply Hcut, H2; by exists i).
  set (count := λ s : captures, length (found_in (held_by s i c))).
  assert (HV : walkVisitors cs !! i = Some (Some (lift i c))) by (apply visitor_at; by exists c).
  pose proof (lookup_lt_Some _ _ _ Hc) as Hi.
  destruct (traverse_counts mem (λ _, true) Sprint DocumentPath (only i (walkVisitors cs)) i (lift i c)
    (λ s at_ entered ref, <[i := told (held_by s i c) at_ entered ref]> s) count) with (v := root) (start := walk_start cs) as [_ Hcount].
  - constructor.
    + lia.
    + by rewrite only_at.
    + intros s v p. cbn. by rewrite Hv.
    + intros s v p. cbn. rewrite Hv. cbn. unfold count, held_by. by rewrite lookup_insert_eq.
    + cbn. by rewrite Hcy.
    + intros s at_ entered t. unfold count at 1, held_by at 1. rewrite lookup_insert_eq. apply Ht.
  - exact (all_only_some cs i c Hc).
  - specialize (Hcount Hcut'). fold (own_walk cs i) in Hcount. unfold count in Hcount.
    assert (E0 : held_by (walk_start cs) i c = start c) by (unfold held_by; by rewrite (start_at cs i c Hc)). rewrite E0, Hstart in Hcount. cbn [length] in Hcount.
    unfold held_by at 1. rewrite H1. fold (held_by (store (own_walk cs i)) i c). rewrite <- Hcount. symmetry. apply length_zero_iff_nil.
Qed.
End Checks.

(** A walk is reasoned about, never run, in what follows. *)
#[local] Opaque traverse trace idClasses ir_table.

Section Verify.
Context `{Unicode, Visible}.
Context (Quote : gostring → gostring) (valid_json : gostring → bool).

(** ** The document as the walk reads it *)

Section Document.
Context (doc : Document) (value : goval * memory).
#[local] Abbreviation root := value.1.
#[local] Abbreviation mem := value.2.
#[local] Abbreviation shown keep := (trace mem (λ _, true) Sprint DocumentPath keep (Some root)).
#[local] Abbreviation checks := (walkChecks Quote valid_json doc mem root).
#[local] Abbreviation cs := (collector :: checks).

(** The values a check reads that goes on below some, and all of them. *)
Definition read_through (keep : goval → bool) (v : goval) : Prop := rtc (led mem keep) root v.
Definition part (v : goval) : Prop := rtc (child mem) root v.
Lemma read_through_all v : read_through keeps_all v ↔ part v.
Proof using Type.
  unfold read_through, part. split; intros HR; (eapply rtc_subrel; [|exact HR]); intros x y; [by intros [_ ?]|by split].
Qed.

(** What references of a class are looked up in, where the document keys one. *)
Definition references_start : IDReferences :=
  NewIDReferences ir_desc (go "Document") idClasses mem
    match root with Pointer t (Some q) => match pointee mem (mkRefKey (PointerType t) q 0) with Struct _ fs => Some fs | _ => None end | _ => None end.
Definition declared_in_document (class : rtype) (id : gostring) : Prop := ∃ v, part v ∧ DeclaredIDOf ir_desc v = Some (class, id).
Definition resolves_to (class : rtype) (id : gostring) : Prop :=
  match ids_keyed references_start !! class with Some keys => id ∈ keys | None => declared_in_document class id end.
Definition is_reference (class : rtype) : Prop := class ∈ KeyedClasses ir_desc (go "Document") ∨ (class ∈ idClasses ∧ class ≠ propIDType).

(** The document kept every rule of its values. *)
Record values_sound : Prop := {
  va_whole : (walked root mem checks).2 = false;
  va_acyclic : acyclic mem root;
  va_references class id : part (Text class id) → id ≠ [] → is_reference class → resolves_to class id;
  va_once : declared_once (shown keeps_all);
  va_spaces : spaces_declared (Document_IDSpaces doc) (declared_ids (shown keeps_all));
  va_text v : part v → utf8_rule v;
  va_declared v : part v → declared_rule v;
  va_string_lists v : part v → string_list_rule mem v;
  va_indices v : part v → index_rule mem v;
  va_values v : part v → value_rule v;
  va_filled v : part v → empty_ref_rule mem v;
  va_idempotency v : part v → idempotency_rule v;
  va_webhooks v : part v → webhook_rule v;
  va_type_refs v : read_through type_ref_keeps v → type_ref_rule v;
  va_raw v : read_through (raw_keeps) v → raw_rule mem valid_json v;
  va_provenance v : read_through provenance_keeps v → provenance_rule (Z.of_nat (length (Document_Sources doc))) v;
  va_numbers v : read_through bigval_keeps v → bigval_rule mem v;
  va_inferred v : read_through inferred_keeps v → inferred_rule v;
  va_stability v : read_through stability_keeps v → stability_rule v;
  va_streaming v : read_through streaming_keeps v → streaming_rule v;
  va_docs v : read_through doc_ref_keeps v → doc_ref_rule mem v;
  va_names v p : (v, p) ∈ shown naming_keeps → naming_rule mem v p
}.

(** ** Each check's report *)

#[local] Abbreviation over := (whole_walk mem root cs).
#[local] Abbreviation decls := (mkDeclarations (collected_by (store over)) (truncated over)).

Lemma few_checks : length cs ≤ maxSharedVisitors.
Proof. unfold maxSharedVisitors. cbn. lia. Qed.
Lemma walked_once : walked root mem checks = (store over, truncated over).
Proof.
  unfold walked, whole_walk. generalize (walk_start cs). intros s. rewrite WalkValues_single; [reflexivity|discriminate|]. rewrite length_visitors. apply few_checks.
Qed.

Definition reported_by (i : nat) (c : walkCheck) : list Violation := report c (held_by (store over) i c) decls.

Lemma held_played keep (i : nat) c : cs !! i = Some c → reads_by keep c → held_by (store over) i c = played c (shown keep).
Proof. intros Hc Hk. unfold held_by. by rewrite (proj1 (check_played mem root keep cs i c few_checks Hc Hk)). Qed.

Lemma uncut_shown keep (i : nat) c : cs !! i = Some c → reads_by keep c → truncated over = false →
  truncated (traced mem (λ _, true) Sprint DocumentPath keep (Some root)) = false.
Proof.
  intros Hc Hk Ht. rewrite <- (proj2 (check_played mem root keep cs i c few_checks Hc Hk)).
  destruct (checks_alone mem root cs few_checks) as (_ & H2 & _). apply not_true_iff_false. intros E. apply not_true_iff_false in Ht. apply Ht, H2. by exists i.
Qed.
Lemma uncut_trace keep (i : nat) c : cs !! i = Some c → reads_by keep c → truncated over = false →
  ∀ v, has (shown keep) v ↔ read_through keep v.
Proof. intros Hc Hk Ht v. apply (trace_shows mem (λ _, true) Sprint DocumentPath keep root). exact (uncut_shown keep i c Hc Hk Ht). Qed.
(** A document that kept its rules was walked whole. *)
Lemma whole_shown : values_sound → truncated (traced mem (λ _, true) Sprint DocumentPath keeps_all (Some root)) = false.
Proof.
  intros HS. apply (uncut_shown keeps_all 0 collector eq_refl (conj (λ _ _ _, eq_refl) eq_refl)).
  pose proof (va_whole HS) as Hw. rewrite walked_once in Hw. exact Hw.
Qed.

Lemma finding_reads finds keep : reads_by keep (finding finds keep).
Proof. by split. Qed.
Lemma finding_played finds keep tr : found_in (played (finding finds keep) tr) = tr ≫= λ e, finds e.1 e.2.
Proof.
  unfold played. assert (Hp : ∀ st, found_in (foldl (λ st e, (visit (finding finds keep) st e.1 e.2).1) st tr) = found_in st ++ (tr ≫= λ e, finds e.1 e.2)).
  { induction tr as [|e tr IH]; intros st; [by rewrite app_nil_r|]. cbn [foldl]. rewrite IH. cbn. by rewrite <- app_assoc. }
  apply (Hp (Found [])).
Qed.
Lemma finding_nil finds keep (i : nat) : cs !! i = Some (finding finds keep) →
  reported_by i (finding finds keep) = [] ↔ ∀ v p, (v, p) ∈ shown keep → finds v p = [].
Proof.
  intros Hc. unfold reported_by. cbn [report finding]. rewrite (held_played keep i _ Hc (finding_reads finds keep)), finding_played, bind_nil_iff.
  split; [intros HR v p; apply (HR (v, p))|intros HR [v p]; apply HR].
Qed.
(** A check of a rule that reads no path. *)
Lemma finding_rule finds keep (rule : goval → Prop) (i : nat) : (∀ v p, finds v p = [] ↔ rule v) → cs !! i = Some (finding finds keep) →
  truncated over = false → reported_by i (finding finds keep) = [] ↔ ∀ v, read_through keep v → rule v.
Proof.
  intros Hr Hc Ht. rewrite (finding_nil _ _ _ Hc). setoid_rewrite Hr. setoid_rewrite <- (uncut_trace keep i _ Hc (finding_reads finds keep) Ht).
  unfold has. split; [by intros HR v [p Hp]; eapply HR|by intros HR v p Hp; apply HR; exists p].
Qed.
Lemma finding_part finds (rule : goval → Prop) (i : nat) : (∀ v p, finds v p = [] ↔ rule v) → cs !! i = Some (finding finds keeps_all) →
  truncated over = false → reported_by i (finding finds keeps_all) = [] ↔ ∀ v, part v → rule v.
Proof. intros Hr Hc Ht. rewrite (finding_rule finds keeps_all rule i Hr Hc Ht). by setoid_rewrite read_through_all. Qed.

(** What the other checks gather. *)
Lemma collector_played tr : played collector tr = Collected (foldl (λ d e, visit_declarations ir_desc d e.1 e.2) (mkIDDeclarations [] zeroPathLog) tr).
Proof.
  unfold played, collector at 2. cbn [start]. generalize (mkIDDeclarations [] zeroPathLog). induction tr as [|e tr IH]; intros d; [done|]. cbn [foldl]. apply IH.
Qed.
Lemma collected_ids : decls_list decls = declared_ids (shown keeps_all).
Proof.
  unfold decls_list. cbn [collected]. unfold collected_by.
  rewrite (proj1 (check_played mem root keeps_all cs 0 collector few_checks eq_refl (conj (λ _ _ _, eq_refl) eq_refl))), collector_played.
  by rewrite declarations_shown.
Qed.

Lemma references_played tr : played (checkReferentialIntegrity Quote doc mem root) tr = Gathered (refs_of ir_desc references_start tr).
Proof.
  unfold played. change (start (checkReferentialIntegrity Quote doc mem root)) with (Gathered references_start). generalize references_start.
  induction tr as [|e tr IH]; intros r; [reflexivity|]. cbn [foldl]. apply (IH (visit_refs ir_desc r e.1 e.2)).
Qed.


(** What a whole walk leaves unresolved. *)
Lemma nothing_unresolved tr : (∀ v, has tr v ↔ part v) →
  Unresolved ir_desc (refs_of ir_desc references_start tr) false = [] ↔ ∀ class id, part (Text class id) → id ≠ [] → is_reference class → resolves_to class id.
Proof using Type.
  clear Quote valid_json.
  intros Hshown.
  rewrite (gathered_unresolved ir_desc tr references_start _ _ eq_refl eq_refl (λ _, eq_refl) (refs_gather ir_desc _ _)), fmap_nil_iff, filter_nil_iff.
  assert (Hdeclares : ∀ class id, id ≠ [] → declares_in ir_desc tr class id ↔ declared_in_document class id).
  { intros class id Hid. unfold declares_in, declared_in_document. setoid_rewrite Hshown. tauto. }
  assert (Hdangling : ∀ class id, id ≠ [] → ¬ dangling ir_desc (ids_keyed references_start) false tr (class, id) ↔ resolves_to class id).
  { intros class id Hid. unfold dangling, resolves_to. cbn [fst snd]. destruct (ids_keyed references_start !! class); [split; [apply dec_stable|tauto]|].
    rewrite <- Hdeclares by done. split; [intros HR; apply dec_stable; tauto|tauto]. }
  assert (Hclass : ∀ class, labelled references_start class = true ↔ is_reference class) by (intros class; apply labelled_spec).
  split.
  - intros HR class id Hp Hid Hc. apply Hshown in Hp as [p Hp]. apply (Hdangling class id Hid). apply (HR (class, id, p)). unfold candidates. apply list_elem_of_omap.
    exists (Text class id, p). split; [done|]. cbn [fst snd]. apply is_empty_false in Hid. apply Hclass in Hc. by rewrite Hid, Hc.
  - intros HR [[class id] p] Hk. unfold candidates in Hk. apply list_elem_of_omap in Hk as ([v q] & Hin & Hk). cbn [fst snd] in Hk.
    destruct v; try discriminate Hk. destruct (_ && _) eqn:E in Hk; [|discriminate Hk]. injection Hk as -> -> ->. apply andb_true_iff in E as [E1%negb_true_iff%is_empty_false E2%Hclass].
    apply Hdangling; [done|]. apply HR; [|done|done]. apply Hshown. by exists p.
Qed.

Lemma references_nil : truncated over = false → reported_by 1 (checkReferentialIntegrity Quote doc mem root) = [] ↔
  ∀ class id, part (Text class id) → id ≠ [] → is_reference class → resolves_to class id.
Proof.
  intros Ht. set (c := checkReferentialIntegrity Quote doc mem root). unfold reported_by.
  rewrite (held_played keeps_all 1 c eq_refl (conj (λ _ _ _, eq_refl) eq_refl)). unfold c at 2. rewrite references_played.
  cbn [report c checkReferentialIntegrity]. rewrite fmap_nil_iff. cbn [cut_short]. rewrite Ht. apply nothing_unresolved. intros v. rewrite <- read_through_all.
  exact (uncut_trace keeps_all 0 collector eq_refl (conj (λ _ _ _, eq_refl) eq_refl) Ht v).
Qed.

Lemma properties_played tr : played (checkDuplicateIDs Quote) tr = Met (properties_of tr).
Proof.
  unfold played, properties_of. cbn [start checkDuplicateIDs]. generalize (mkMet ∅ ∅). induction tr as [|e tr IH]; intros m; [reflexivity|]. cbn [foldl]. apply IH.
Qed.
Lemma duplicates_nil : reported_by 3 (checkDuplicateIDs Quote) = [] ↔ declared_once (shown keeps_all).
Proof.
  unfold reported_by. rewrite (held_played keeps_all 3 (checkDuplicateIDs Quote) eq_refl (conj (λ _ _ _, eq_refl) eq_refl)), properties_played.
  cbn [report checkDuplicateIDs]. apply duplicateIDs_nil, collected_ids.
Qed.
Lemma spaces_nil : reported_by 5 (checkIDSpaces Quote doc) = [] ↔ spaces_declared (Document_IDSpaces doc) (declared_ids (shown keeps_all)).
Proof. unfold reported_by. cbn [report checkIDSpaces]. rewrite idSpaceViolations_nil. by rewrite collected_ids. Qed.

Lemma cycles_nil : truncated over = false → reported_by 17 (checkCycles Quote) = [] ↔ acyclic mem root.
Proof.
  intros Ht. unfold reported_by. cbn [report checkCycles]. refine (check_told mem root cs 17 (checkCycles Quote) _ few_checks eq_refl eq_refl (λ _ _ _, eq_refl) _ eq_refl Ht).
  intros st at_ entered t. cbn [found_in]. rewrite length_app, Nat.add_comm. done.
Qed.

(** ** All of them *)

#[local] Opaque whole_walk walked.

Lemma runWalkChecks_reports : runWalkChecks Quote valid_json doc value =
  concat (imap (λ i c, reported_by (S i) c) checks) ++
  report_if (truncated over) (mkViolation (go "ir/walk-truncated") (go "document nests deeper than the bounded verifier walk; part of it went unchecked") DocumentPath).
Proof.
  unfold runWalkChecks. rewrite (surjective_pairing value). unfold walkWith. rewrite walked_once. reflexivity.
Qed.

Lemma reports_nil : truncated over = false → concat (imap (λ i c, reported_by (S i) c) checks) = [] ↔ values_sound.
Proof.
  intros Ht. assert (Hnames : (∀ v p, (v, p) ∈ shown naming_keeps → naming_finds Quote mem v p = []) ↔ ∀ v p, (v, p) ∈ shown naming_keeps → naming_rule mem v p)
    by (generalize (shown naming_keeps); intros tr; by setoid_rewrite naming_finds_nil).
  unfold walkChecks. cbn [imap concat]. unfold compose.
  rewrite !app_nil_iff, (references_nil Ht), (finding_rule _ _ _ 2 (type_ref_finds_nil Quote) eq_refl Ht), duplicates_nil,
    (finding_part _ _ 4 (declared_finds_nil Quote) eq_refl Ht), spaces_nil, (finding_nil _ _ 6 eq_refl), (finding_part _ _ 7 (string_list_finds_nil Quote mem) eq_refl Ht),
    (finding_rule _ _ _ 8 (raw_finds_nil Quote mem valid_json) eq_refl Ht), (finding_rule _ _ _ 9 (λ v p, provenance_finds_nil Quote _ v p (Zle_0_nat _)) eq_refl Ht),
    (finding_part _ _ 10 (index_finds_nil mem) eq_refl Ht), (finding_rule _ _ _ 11 (bigval_finds_nil Quote mem) eq_refl Ht),
    (finding_rule _ _ _ 12 (inferred_finds_nil Quote) eq_refl Ht), (finding_rule _ _ _ 13 (stability_finds_nil Quote) eq_refl Ht),
    (finding_rule _ _ _ 14 (doc_ref_finds_nil mem) eq_refl Ht), (finding_part _ _ 15 utf8_finds_nil eq_refl Ht), (finding_part _ _ 16 (value_finds_nil Quote) eq_refl Ht),
    (cycles_nil Ht), (finding_part _ _ 18 (empty_ref_finds_nil mem) eq_refl Ht), (finding_part _ _ 19 (idempotency_finds_nil Quote) eq_refl Ht),
    (finding_rule _ _ _ 20 (streaming_finds_nil Quote) eq_refl Ht), (finding_part _ _ 21 (webhook_finds_nil Quote) eq_refl Ht).
  rewrite Hnames. split.
  - intros (R1 & R2 & R3 & R4 & R5 & R6 & R7 & R8 & R9 & R10 & R11 & R12 & R13 & R14 & R15 & R16 & R17 & R18 & R19 & R20 & R21 & _).
    constructor; try assumption. rewrite walked_once. exact Ht.
  - intros []. split_and!; try assumption. reflexivity.
Qed.

Lemma runWalkChecks_nil : runWalkChecks Quote valid_json doc value = [] ↔ values_sound.
Proof.
  rewrite runWalkChecks_reports, app_nil_iff, report_if_nil. split; [by intros [HR Ht]; apply reports_nil|].
  intros HS. assert (Ht : truncated over = false) by (pose proof (va_whole HS) as Hw; rewrite walked_once in Hw; cbn [snd] in Hw; assumption).
  split; [by apply reports_nil|exact Ht].
Qed.
End Document.

Definition document_sound (doc : Document) (value : goval * memory) : Prop := registries_sound doc ∧ values_sound doc value.

Lemma Verify_nil `{Ranging} doc value : Verify Quote valid_json (Some doc) value = [] ↔ document_sound doc value.
Proof. unfold Verify, document_sound. by rewrite SortStable_nil, app_nil_iff, registry_checks_nil, runWalkChecks_nil. Qed.

Lemma Verify_order (R R' : Ranging) odoc value : Verify (H1:=R) Quote valid_json odoc value = Verify (H1:=R') Quote valid_json odoc value.
Proof.
  destruct odoc as [doc|]; [|done]. unfold Verify. apply SortStable_determined. intros k. rewrite !filter_app. f_equal. apply registry_checks_order.
Qed.

Lemma cycles_reported doc value : let '(s, cut) := walked value.1 value.2 (walkChecks Quote valid_json doc value.2 value.1) in
  cut = false → report (checkCycles Quote) (held_by s 17 (checkCycles Quote)) (mkDeclarations (collected_by s) cut) = [] ↔ acyclic value.2 value.1.
Proof. rewrite (walked_once doc value). intros Ht. exact (cycles_nil doc value Ht). Qed.
End Verify.
