(* ===== verification/VerifyRuns.v ===== *)
(** * VerifyRuns: cycles told exactly, and the verifier run

    A small document the verifier accepts, one it reports, and a value that
    leads to itself. *)
From S2P Require Import Prelude GoLib Utf8 Decimal Value IR Domain Ids Findings Naming Text Violations RegistryRules RegistrySound.
From S2P Require Import Walk WalkAlone WalkTrace Acyclic References Reflect WalkRules WalkSound Verify IdentityRules VerifySound.

(** ** Parameters made concrete *)

#[export] Instance ascii_visible : Visible := {
  IsSpace r := (r =? 32)%Z || between 9 13 r; IsControl r := between 0 31 r || (r =? 127)%Z; InCf _ := false; InOtherDefaultIgnorable _ := false
}.
#[export] Instance key_order : Ranging := { range A site m := map_to_list m; range_perm A site m := reflexivity _ }.

Module Vetted.
Definition Quote (s : gostring) : gostring := quote_mark :: s ++ [quote_mark].
Definition valid_json (s : gostring) : bool := negb (is_nil s).
Definition at_pointer (pointer : gostring) : Provenance := mkProvenance 0%Z pointer (mkPosition 3 1) [] [].
Definition named_as (source canonical : gostring) : Naming := mkNaming source canonical [] [].
Definition common (id : TypeID) (name : Naming) (pointer : gostring) : TypeCommon :=
  mkTypeCommon id name [] false zeroDocs [] false [] None None ∅ [] None [] None ∅ (at_pointer pointer).
Definition string_prim : TypeDef := PrimitiveDef (mkPrimitive (mkTypeCommon (PrimTypeID PrimString) zeroNaming [] false zeroDocs [] false [] None None ∅ [] None [] None ∅ (mkProvenance NoSource [] zeroPosition [] [])) PrimString).
Definition name_property (target : TypeID) : Property :=
  mkProperty (go "p/openapi/components/schemas/Pet/properties/name") (named_as (go "name") (go "name")) (go "name") ∅ None [] (IR.reference target) true [] false false
    zeroVisibility None None None [] false false false false None [] zeroDocs None None ∅ (at_pointer (go "/components/schemas/Pet/properties/name")).
Definition pet_id : TypeID := go "t/openapi/components/schemas/Pet".
Definition pet (target : TypeID) : TypeDef :=
  ModelDef (mkModel (common pet_id (named_as (go "Pet") (go "pet")) (go "/components/schemas/Pet")) [name_property target] [] None [] [] None [] None false false [] None [] false).
Definition service : Service :=
  mkService (go "s/openapi") (named_as (go "Pet Shop") (go "pet_shop")) zeroDocs [] [] [] [] [] [] [] ∅ [] ∅ (at_pointer []).
Definition source : SourceInfo :=
  mkSourceInfo (go "openapi@3.1") (go "shop.yaml") (replicate 64 "a"%char) [].
(** A document of one model, a property of which has the type given. *)
Definition doc (target : TypeID) : Document :=
  mkDocument IRVersion {[IDKindType := [go "openapi"]; IDKindProp := [go "openapi"]; IDKindService := [go "openapi"]]} (go "Pet Shop") [] zeroDocs None None [] [service]
    {[PrimTypeID PrimString := string_prim; pet_id := pet target]} ∅ ∅ ∅ ∅ [] [] ∅ [] [source].
Abbreviation report target := (Verify Quote valid_json (Some (doc target)) (ValueOf (doc target))).
End Vetted.

(** ** The verifier's contract *)

(** C1: the verifier reports nothing exactly when the document keeps every rule:
    each registry keyed and typed by the grammar of ids, and, over the whole
    value graph, references that resolve, identities declared once and in
    declared namespaces, text that decodes, canonical numbers, names, provenance
    and payloads, and no cycle an encoder would not end on. *)
Theorem Verify_clean `{Unicode, Visible, Ranging} (Quote : gostring → gostring) (valid_json : gostring → bool) doc value :
  Verify Quote valid_json (Some doc) value = [] ↔ document_sound Quote valid_json doc value.
Proof. apply Verify_nil. Qed.

(** The rules hold of a document whose property is a string, and not of one
    whose property has a type that is not there. *)
Lemma Verify_clean_witness :
  document_sound Vetted.Quote Vetted.valid_json (Vetted.doc (PrimTypeID PrimString)) (ValueOf (Vetted.doc (PrimTypeID PrimString))) ∧
  ¬ document_sound Vetted.Quote Vetted.valid_json (Vetted.doc (go "t/openapi/gone")) (ValueOf (Vetted.doc (go "t/openapi/gone"))).
Proof.
  pose proof (Verify_clean Vetted.Quote Vetted.valid_json) as Hclean. split.
  - apply Hclean. vm_compute. reflexivity.
  - intros Hs. apply Hclean in Hs. assert (Hlen : length (Vetted.report (go "t/openapi/gone")) = 1) by (vm_compute; reflexivity).
    rewrite Hs in Hlen. discriminate Hlen.
Defined.

(** C8: the report is one list: whatever order each statement ranges over a
    registry of the document in, the same violations in the same order. *)
Theorem Verify_deterministic `{Unicode, Visible} (Quote : gostring → gostring) (valid_json : gostring → bool) (R R' : Ranging) odoc value :
  Verify (H1:=R) Quote valid_json odoc value = Verify (H1:=R') Quote valid_json odoc value.
Proof. apply Verify_order. Qed.

(** C9: of a walk that is not cut short, the check of cycles reports nothing
    exactly when no way down from the document goes on for ever, through
    pointers, slices, maps and interfaces, shared or not. *)
Theorem checkCycles_exact `{Unicode, Visible} (Quote : gostring → gostring) (valid_json : gostring → bool) doc value s :
  walked value.1 value.2 (walkChecks Quote valid_json doc value.2 value.1) = (s, false) →
  report (checkCycles Quote) (held_by s 17 (checkCycles Quote)) (mkDeclarations (collected_by s) false) = [] ↔ acyclic value.2 value.1.
Proof. intros E. pose proof (cycles_reported Quote valid_json doc value) as Hc. rewrite E in Hc. by apply Hc. Qed.

(** A node that points to itself. *)
Lemma checkCycles_exact_witness : ∃ s,
  walked Shared.value Shared.mem (walkChecks Vetted.Quote Vetted.valid_json zeroDocument Shared.mem Shared.value) = (s, false) ∧ ¬ acyclic Shared.mem Shared.value.
Proof.
  assert (Hcut : (walked Shared.value Shared.mem (walkChecks Vetted.Quote Vetted.valid_json zeroDocument Shared.mem Shared.value)).2 = false) by (vm_compute; reflexivity).
  assert (Htold : length (found_in (held_by (walked Shared.value Shared.mem (walkChecks Vetted.Quote Vetted.valid_json zeroDocument Shared.mem Shared.value)).1 17 (checkCycles Vetted.Quote))) = 1)
    by (vm_compute; reflexivity).
  pose proof (checkCycles_exact Vetted.Quote Vetted.valid_json zeroDocument (Shared.value, Shared.mem)) as Hc. cbn [fst snd] in Hc. revert Hcut Htold Hc.
  generalize (walked Shared.value Shared.mem (walkChecks Vetted.Quote Vetted.valid_json zeroDocument Shared.mem Shared.value)).
  intros [s cut] Hcut Htold Hc. cbn [fst snd] in *. subst cut. exists s. split; [reflexivity|]. intros Ha. apply (Hc s eq_refl) in Ha.
  cbn [report checkCycles] in Ha. rewrite Ha in Htold. discriminate Htold.
Defined.
