(* ===== verification/TypeEdges.v ===== *)
(** * TypeEdges: the types a type definition refers to
    ([src/ir/edges.go])

    Each method of the walk as the ids it yields, in order. A value is a tree
    here, so the path of values the walk is inside, which cuts a value that holds
    itself, has nothing to cut. *)
From S2P Require Import Prelude GoLib Decimal Value IR Domain Ids Findings RegistryRules Walk.

Definition id_edge (id : TypeID) : list TypeID := if is_nil id then [] else [id].
Definition ref_edge (r : option TypeRef) : list TypeID := match r with Some r => id_edge (TypeRef_Target r) | None => [] end.
Definition refs_edges (rs : list TypeRef) : list TypeID := rs ≫= λ r, id_edge (TypeRef_Target r).

(** [value], [values] and [members]: [levels] is what is left of
    [MaxWalkDepth]. *)
Fixpoint value_edges (levels : nat) (v : Value) : list TypeID :=
  match levels with
  | O => []
  | S levels =>
      let '(mkValue _ _ _ _ _ vs fs r c) := v in
      (vs ≫= value_edges levels) ++
      (fs ≫= λ f, value_edges levels (FieldValue f)) ++
      match r with Some r => id_edge (ref_Type r) | None => [] end ++
      match c with Some (mkCtor scalar _ args) => id_edge scalar ++ (args ≫= value_edges levels) | None => [] end
  end.
Definition value_edges_of (v : Value) : list TypeID := value_edges (S MaxWalkDepth) v.
Definition opt_value (v : option Value) : list TypeID := match v with Some v => value_edges_of v | None => [] end.

Definition examples_edges (exs : list Example) : list TypeID :=
  ex ← exs;
  opt_value (Example_Value ex) ++ opt_value (Example_Headers ex) ++ opt_value (Example_Input ex) ++ opt_value (Example_Output ex) ++
  match Example_Error ex with Some e => id_edge (TypeRef_Target (ErrorExample_Type e)) ++ value_edges_of (ErrorExample_Content e) | None => [] end.
Definition availability_edges (a : option Availability) : list TypeID :=
  match a with Some a => refs_edges (VersionedType_Type <$> Availability_TypeChangedFrom a) | None => [] end.
Definition encoding_edges (e : option Encoding) : list TypeID :=
  match e with Some e => ref_edge (Encoding_WireType e) ++ ref_edge (Encoding_Schema e) | None => [] end.
Definition instantiation_edges (inst : option TemplateInstantiation) : list TypeID :=
  match inst with Some inst => a ← TemplateInstantiation_Args inst; ref_edge (TemplateArg_Type a) ++ opt_value (TemplateArg_Value a) | None => [] end.
Definition common_edges (c : TypeCommon) : list TypeID :=
  availability_edges (TypeCommon_Availability c) ++ examples_edges (TypeCommon_Examples c) ++ instantiation_edges (TypeCommon_Instantiation c).
Definition parameter_edges (p : Parameter_) : list TypeID :=
  ref_edge (Some (Parameter_Type p)) ++ opt_value (Parameter_Default p) ++
  match Parameter_ValueFrom p with Some from => ref_edge (PropPath_Root from) | None => [] end ++
  availability_edges (Parameter_Availability p) ++ examples_edges (Parameter_Examples p).
Definition property_edges (p : Property) : list TypeID :=
  ref_edge (Some (Property_Type p)) ++ opt_value (Property_Default p) ++ encoding_edges (Property_Encoding p) ++
  (Property_Args p ≫= parameter_edges) ++ examples_edges (Property_Examples p) ++ availability_edges (Property_Availability p).
Definition additional_edges (a : option AdditionalProps) : list TypeID :=
  match a with
  | Some a => ref_edge (Some (AdditionalProps_Value a)) ++ ref_edge (AdditionalProps_Key a) ++ refs_edges (PatternProps_Value <$> AdditionalProps_Patterns a)
  | None => []
  end.
Definition discriminator_edges (d : option Discriminator) : list TypeID :=
  match d with
  | Some d => (sorted_keys (Discriminator_Mapping d) ≫= λ k, id_edge (default [] (Discriminator_Mapping d !! k))) ++ id_edge (Discriminator_Default d)
  | None => []
  end.
Definition model_edges (m : Model) : list TypeID :=
  (Model_Properties m ≫= property_edges) ++ ref_edge (Model_Base m) ++ refs_edges (Model_Implements m) ++ refs_edges (Model_Mixins m) ++
  additional_edges (Model_AdditionalProps m) ++ discriminator_edges (Model_Discriminator m).
Definition union_edges (u : Union) : list TypeID :=
  (Union_Variants u ≫= λ v, ref_edge (Some (Variant_Type v)) ++ availability_edges (Variant_Availability v) ++ examples_edges (Variant_Examples v)) ++
  discriminator_edges (Union_Discriminator u).
Definition enum_edges (e : Enum) : list TypeID :=
  m ← Enum_Members e; value_edges_of (EnumMember_Value m) ++ availability_edges (EnumMember_Availability m) ++ examples_edges (EnumMember_Examples m).

Definition own_edges (td : TypeDef) : list TypeID :=
  match td with
  | ScalarDef t => ref_edge (Scalar_Base t) ++ encoding_edges (Scalar_Encoding t)
  | ModelDef t => model_edges t
  | UnionDef t => union_edges t
  | EnumDef t => enum_edges t
  | ListDef t => ref_edge (Some (List_Elem t)) ++ encoding_edges (List_Encoding t)
  | MapDef t => ref_edge (MapT_Key t) ++ ref_edge (Some (MapT_Value t))
  | TupleDef t => refs_edges (Tuple_Elems t) ++ ref_edge (Tuple_Rest t)
  | LiteralDef t => value_edges_of (Literal_Value t)
  | _ => []
  end.
Definition TypeEdges (td : TypeDef) : list TypeID := if IsNilTypeDef td then [] else common_edges (Common td) ++ own_edges td.
