(* ===== verification/PassRules.v ===== *)
(** * PassRules: the rules the validation pass holds a document to
    ([src/pass], the [validate_*.go] files)

    Each family of rules as the diagnostics it reports. A map a family reads one
    collection after another through is storage; what the pass's index of facts
    answers is [Facts], since [FactIndex] shows it answers as [ir] does. *)
From S2P Require Import Prelude GoLib Decimal Value IR Domain Ids Findings Composition RegistryRules Traverse TypeEdges.
From S2P Require Import Walk WalkAlone WalkTrace References Reflect WalkRules.

(** [diag] ([src/pass/diag.go]) *)
Definition diag (sev : Severity) (code message node : gostring) : Diagnostic :=
  NewDiagnostic sev code message (mkProvenance NoSource [] zeroPosition node []).

(** What a run asks its index of facts. *)
Record Facts := { facts_IsSubtype : TypeID → TypeID → bool; facts_Exposes : TypeID → PropID → bool }.
(** The answers an index of the document gives ([FactIndex.right]). *)
Definition facts_of (doc : Document) : Facts :=
  {| facts_IsSubtype := IsSubtype (Some doc); facts_Exposes := λ id prop, bool_decide (prop ∈ ExposedProps (Some doc) id) |}.

Section Rules.
Context (Quote : gostring → gostring) (doc : Document).
Implicit Types (id target : TypeID) (op : Operation) (ds : list Diagnostic).

(** A diagnostic per operation, in the order groups are walked. *)
Definition per_operation (found : Operation → list Diagnostic) : list Diagnostic := (ForEachOperation (λ op ds, ds ++ found op) (Some doc) []).1.
Definition type_at id : TypeDef := default (NilDef None) (Document_Types doc !! id).

(** ** Nil types ([validate_niltypes.go]) *)

Definition checkNilTypes : list Diagnostic :=
  id ← sorted_keys (Document_Types doc);
  if IsNilTypeDef (type_at id) then
    [diag SeverityError (go "ir/nil-type") (go "types registry entry " ++ Quote id ++ go " holds a nil type definition") (go "types[" ++ id ++ go "]")]
  else [].
Definition liveTypeIDs : list TypeID := filter (λ id, IsNilTypeDef (type_at id) = false) (sorted_keys (Document_Types doc)).

(** ** Operation groups ([validate_groups.go]) *)

Definition checkGroupWalkTruncated : list Diagnostic :=
  if (ForEachOperation (λ _ (st : unit), st) (Some doc) tt).2 then
    [diag SeverityError (go "ir/walk-truncated") (go "operation groups nest deeper than " ++ Itoa MaxGroupDepth ++ go "; some operations went unchecked") DocumentPath]
  else [].

(** ** Response indices ([validate_indices.go]) *)

Definition outside_indices (status : gmap Z Z) (declared : Z) : list Z :=
  merge_sort Z.le (filter (λ index, (index < 0 ∨ declared <= index)%Z) (map_to_list status).*1).
Definition appendSuccessStatusDiags (status : gmap Z Z) (declared : Z) (op : OpID) (i : nat) : list Diagnostic :=
  index ← outside_indices status declared;
  let at_ := op ++ go "/bindings/http/" ++ Itoa i ++ go "/successStatus/" ++ FormatInt index in
  [diag SeverityError (go "ir/response-index-out-of-range")
    (go "response index " ++ FormatInt index ++ go " at " ++ at_ ++ go " addresses none of the " ++ FormatInt declared ++ go " declared responses") at_].
Definition response_indices op : list Diagnostic :=
  concat (imap (λ i b, appendSuccessStatusDiags (HTTPBinding_SuccessStatus b) (Z.of_nat (length (Operation_Responses op))) (Operation_ID op) i)
    (OpBindings_HTTP (Operation_Bindings op))).
Definition checkResponseIndices : list Diagnostic := per_operation response_indices.

(** ** Payloads ([validate_payloads.go]) *)

(** [index] is none where the payload hangs from no list. *)
Record payloadSite := mkPayloadSite {
  ps_contents : list Content; ps_required : option bool; ps_owner : gostring; ps_field : gostring; ps_index : option nat; ps_request : bool }.
Definition where_of (s : payloadSite) : gostring :=
  ps_owner s ++ (if is_nil (ps_field s) then [] else go "/" ++ ps_field s) ++ match ps_index s with Some i => go "/" ++ Itoa i | None => [] end.
Definition siteOf (p : Payload) (owner field : gostring) (index : option nat) (request : bool) : payloadSite :=
  mkPayloadSite (Payload_Contents p) (Payload_Required p) owner field index request.
Definition opt_site (p : option Payload) (owner field : gostring) (index : option nat) (request : bool) : list payloadSite :=
  match p with Some p => [siteOf p owner field index request] | None => [] end.
Definition forEachErrorPayload (errs : list ErrorCase) (owner field : gostring) : list payloadSite :=
  concat (imap (λ i ec, opt_site (ErrorCase_Payload ec) owner field (Some i) false) errs).
Definition operation_payloads op : list payloadSite :=
  let owner := Operation_ID op in
  opt_site (Operation_Request op) owner (go "request") None true ++
  concat (imap (λ i r, opt_site (Response_Payload r) owner (go "responses") (Some i) false) (Operation_Responses op)) ++
  forEachErrorPayload (Operation_Errors op) owner (go "errors") ++
  match Operation_Default op with Some r => opt_site (Response_Payload r) owner (go "default") None false | None => [] end.
(** [forEachPayload], as the sites it calls its function with. *)
Definition forEachPayload : list payloadSite :=
  (svc ← Document_Services doc; forEachErrorPayload (Service_CommonErrors svc) (Service_ID svc) (go "commonErrors")) ++
  (ForEachOperation (λ op sites, sites ++ operation_payloads op) (Some doc) []).1 ++
  (id ← sorted_keys (Document_Messages doc); opt_site (Message_Payload <$> Document_Messages doc !! id) id [] None false).

Definition appendUnknownPartDiags (facts : Facts) (c : Content) (site : payloadSite) (i : nat) : list Diagnostic :=
  key ← sorted_keys (Content_Encoding c);
  let type := TypeRef_Target (Content_Type c) in
  if facts_Exposes facts type key then []
  else
    let at_ := where_of site ++ go "/contents/" ++ Itoa i ++ go "/encoding/" ++ key in
    [diag SeverityError (go "ir/encoding-key-unknown-property")
      (go "encoding key " ++ Quote key ++ go " at " ++ at_ ++ go " addresses no property of the content's type " ++ Quote type) at_].
Definition appendEncodingKeyDiags (facts : Facts) (site : payloadSite) : list Diagnostic :=
  concat (imap (λ i c, appendUnknownPartDiags facts c site i) (ps_contents site)).
Definition checkEncodingKeys (facts : Facts) : list Diagnostic := forEachPayload ≫= appendEncodingKeyDiags facts.
Definition payload_required (site : payloadSite) : list Diagnostic :=
  if ps_request site || is_None (ps_required site) then []
  else [diag SeverityError (go "ir/payload-required-outside-request")
    (go "payload at " ++ where_of site ++ go " sets required, which only a request body can state") (where_of site)].
Definition checkPayloadRequired : list Diagnostic := forEachPayload ≫= payload_required.

(** ** Discriminators ([validate_discriminators.go]) *)

(** Why a target is no legal one. *)
Definition mappingTarget target (member : TypeID → bool) : option gostring :=
  match Document_Types doc !! target with
  | None => Some (go "no type in the document declares")
  | Some _ => if member target then None else Some (go "is not a variant of it")
  end.
Definition missingVariant (position where_ : gostring) target (why : gostring) : Diagnostic :=
  diag SeverityError (go "pass/discriminator-missing-variant")
    (go "discriminator " ++ position ++ go " on " ++ where_ ++ go " references " ++ Quote target ++ go ", which " ++ why) where_.
Definition routed (position where_ : gostring) target (member : TypeID → bool) : list Diagnostic :=
  match mappingTarget target member with Some why => [missingVariant position where_ target why] | None => [] end.
Definition checkMapping (d : Discriminator) (where_ : gostring) (member : TypeID → bool) : list Diagnostic :=
  (key ← sorted_keys (Discriminator_Mapping d); routed (go "mapping " ++ Quote key) where_ (default [] (Discriminator_Mapping d !! key)) member) ++
  if is_nil (Discriminator_Default d) then [] else routed (go "default") where_ (Discriminator_Default d) member.
Definition checkUnionDiscriminator (u : Union) : list Diagnostic :=
  match Union_Discriminator u with
  | None => []
  | Some d => checkMapping d (TypeCommon_ID (Union_TypeCommon u)) (λ target, bool_decide (target ∈ (TypeRef_Target ∘ Variant_Type) <$> Union_Variants u))
  end.
Definition checkDiscriminatorProperty (facts : Facts) (m : Model) (d : Discriminator) : list Diagnostic :=
  let prop := Discriminator_Property d in let where_ := TypeCommon_ID (Model_TypeCommon m) in
  if is_nil prop || facts_Exposes facts where_ prop then []
  else [diag SeverityError (go "pass/discriminator-unknown-property")
    (go "discriminator on " ++ where_ ++ go " tags property " ++ Quote prop ++ go ", which the model neither declares nor composes in") where_].
Definition checkModelDiscriminator (facts : Facts) (m : Model) : list Diagnostic :=
  match Model_Discriminator m with
  | None => []
  | Some d =>
      let id := TypeCommon_ID (Model_TypeCommon m) in
      checkDiscriminatorProperty facts m d ++ checkMapping d id (λ target, facts_IsSubtype facts target id)
  end.
Definition checkDiscriminators (facts : Facts) : list Diagnostic :=
  id ← liveTypeIDs;
  match type_at id with UnionDef t => checkUnionDiscriminator t | ModelDef t => checkModelDiscriminator facts t | _ => [] end.

(** ** Wire names and aliases ([validate_wirenames.go]) *)

Fixpoint wire_loop id (seen : gset gostring) (props : list Property) : list Diagnostic :=
  match props with
  | [] => []
  | p :: props =>
      let name := EffectiveWireName p in
      if is_nil name then wire_loop id seen props
      else if bool_decide (name ∈ seen) then
        diag SeverityError (go "pass/duplicate-wire-name") (go "model " ++ id ++ go " has more than one property with wire name " ++ Quote name) id
        :: wire_loop id seen props
      else wire_loop id ({[name]} ∪ seen) props
  end.
Definition checkDuplicateWireNames : list Diagnostic :=
  id ← liveTypeIDs; match type_at id with ModelDef m => wire_loop id ∅ (Model_Properties m) | _ => [] end.

(** The first property of each wire name. *)
Fixpoint wire_claims (i : nat) (claimant : gmap gostring nat) (props : list Property) : gmap gostring nat :=
  match props with
  | [] => claimant
  | p :: props =>
      let name := EffectiveWireName p in
      wire_claims (S i) (if is_nil name || bool_decide (is_Some (claimant !! name)) then claimant else <[name := i]> claimant) props
  end.
(** One property's aliases: what they claim, and those claimed already. *)
Fixpoint alias_claims id (props : list Property) (i : nat) (p : Property) (claimant : gmap gostring nat) (aliases : list gostring) :
    gmap gostring nat * list Diagnostic :=
  match aliases with
  | [] => (claimant, [])
  | alias :: aliases =>
      if is_nil alias then alias_claims id props i p claimant aliases
      else match claimant !! alias with
           | None => alias_claims id props i p (<[alias := i]> claimant) aliases
           | Some j =>
               let '(claims, ds) := alias_claims id props i p claimant aliases in
               (claims, if j =? i then ds else
                 diag SeverityError (go "pass/ambiguous-alias")
                   (go "alias " ++ Quote alias ++ go " of property " ++ Quote (Property_ID p) ++ go " is a name property " ++
                    Quote (match props !! j with Some q => Property_ID q | None => [] end) ++ go " also answers to")
                   (id ++ go "/properties/" ++ Itoa i) :: ds)
           end
  end.
Fixpoint alias_scope id (props : list Property) (i : nat) (claimant : gmap gostring nat) (rest : list Property) : list Diagnostic :=
  match rest with
  | [] => []
  | p :: rest =>
      let '(claimant, ds) := alias_claims id props i p claimant (Naming_Aliases (Property_Name p)) in
      ds ++ alias_scope id props (S i) claimant rest
  end.
Definition ambiguousAliases id (props : list Property) : list Diagnostic := alias_scope id props 0 (wire_claims 0 ∅ props) props.
Definition checkAmbiguousAliases : list Diagnostic :=
  id ← liveTypeIDs; match type_at id with ModelDef m => ambiguousAliases id (Model_Properties m) | _ => [] end.

(** ** Enum members ([validate_enummembers.go]) *)

Fixpoint member_loop id (i : nat) (seen : gset gostring) (members : list EnumMember) : list Diagnostic :=
  match members with
  | [] => []
  | m :: members =>
      let mid := EnumMember_ID m in
      if is_nil mid then member_loop id (S i) seen members
      else
        (if bool_decide (mid ∈ seen) then
          [diag SeverityError (go "pass/duplicate-enum-member-id") (go "enum " ++ id ++ go " has more than one member with id " ++ Quote mid)
            (id ++ go "/members/" ++ Itoa i)]
         else []) ++ member_loop id (S i) ({[mid]} ∪ seen) members
  end.
Definition checkDuplicateMemberIDs : list Diagnostic :=
  id ← liveTypeIDs; match type_at id with EnumDef e => member_loop id 0 ∅ (Enum_Members e) | _ => [] end.

(** ** Parameters ([validate_params.go]) *)

Definition paramIDType : rtype := go "ParamID".
Definition danglingWalkSkips (refs : IDReferences) (id : ParamID) : bool := is_nil id || Declares refs paramIDType id.
Definition bindingWhere (op : OpID) (idx : nat) : gostring := op ++ go "/bindings/http/" ++ Itoa idx.
Definition mismatch (sev : Severity) (message where_ : gostring) : Diagnostic := diag sev (go "pass/param-binding-mismatch") message where_.

(** The last parameter of an id names it. *)
Definition param_names op : gmap gostring gostring :=
  foldl (λ names p, <[Parameter_ID p := Naming_Source (Parameter_Name p)]> names) ∅ (Operation_Params op).
(** The bindings in turn: how often each parameter was bound, and at each
    location but the host. *)
Fixpoint binding_loop (refs : IDReferences) (names : gmap gostring gostring) (where_ : gostring) (bound : gset gostring)
    (perLocation : gmap (gostring * gostring) nat) (pbs : list HTTPParamBinding) : gset gostring * list Diagnostic :=
  match pbs with
  | [] => (bound, [])
  | pb :: pbs =>
      let param := HTTPParamBinding_Param pb in let location := HTTPParamBinding_Location pb in
      match names !! param with
      | None =>
          let '(out, ds) := binding_loop refs names where_ bound perLocation pbs in
          (out, (if danglingWalkSkips refs param then
            [mismatch SeverityError (go "binding on " ++ where_ ++ go " names parameter " ++ Quote param ++ go ", which this operation does not declare") where_]
            else []) ++ ds)
      | Some name =>
          let bound := {[param]} ∪ bound in
          if bool_decide (location = HTTPLocationHost) then binding_loop refs names where_ bound perLocation pbs
          else
            let times := S (default 0 (perLocation !! (param, location))) in
            let '(out, ds) := binding_loop refs names where_ bound (<[(param, location) := times]> perLocation) pbs in
            (out, (if times =? 2 then
              [mismatch SeverityError (go "parameter " ++ Quote name ++ go " is bound more than once in location " ++ Quote location ++ go " on " ++ where_) where_]
              else []) ++ ds)
      end
  end.
Definition unboundParamWarnings op (idx : nat) (bound : gset gostring) : list Diagnostic :=
  p ← Operation_Params op;
  if bool_decide (Parameter_ID p ∈ bound) then []
  else [mismatch SeverityWarning
    (go "parameter " ++ Quote (Naming_Source (Parameter_Name p)) ++ go " on " ++ bindingWhere (Operation_ID op) idx ++ go " is not bound to any HTTP location")
    (bindingWhere (Operation_ID op) idx)].
Definition checkHTTPParamBinding (refs : IDReferences) op (idx : nat) (b : HTTPBinding) : list Diagnostic :=
  let '(bound, ds) := binding_loop refs (param_names op) (bindingWhere (Operation_ID op) idx) ∅ ∅ (HTTPBinding_ParamBindings b) in
  ds ++ unboundParamWarnings op idx bound.
Definition checkParamBindings (refs : IDReferences) : list Diagnostic :=
  per_operation (λ op, concat (imap (checkHTTPParamBinding refs op) (OpBindings_HTTP (Operation_Bindings op)))).

(** [paramRef]: an id, and the field it sits in. *)
Definition paramRef : Type := ParamID * gostring.
Definition appendParamRefs op : list paramRef :=
  match Operation_Pagination op with
  | Some pg =>
      (match Pagination_InputCursor pg with Some c => [(ParamPath_Param c, go "pagination/inputCursor")] | None => [] end) ++
      (match Pagination_InputLimit pg with Some l => [(ParamPath_Param l, go "pagination/inputLimit")] | None => [] end)
  | None => []
  end ++
  let token := Idempotency_TokenParam (Operation_Idempotency op) in
  if is_nil token then [] else [(token, go "idempotency/tokenParam")].
Definition param_references (refs : IDReferences) op : list Diagnostic :=
  ref ← appendParamRefs op;
  if bool_decide (ref.1 ∈ Parameter_ID <$> Operation_Params op) || negb (danglingWalkSkips refs ref.1) then []
  else
    let where_ := Operation_ID op ++ go "/" ++ ref.2 in
    [mismatch SeverityError (where_ ++ go " names parameter " ++ Quote ref.1 ++ go ", which this operation does not declare") where_].
Definition checkParamReferences (refs : IDReferences) : list Diagnostic := per_operation (param_references refs).
Definition checkParams (refs : IDReferences) : list Diagnostic := checkParamBindings refs ++ checkParamReferences refs.

(** ** Idempotency ([validate_idempotency.go]) *)

Definition idempotency_of op : list Diagnostic :=
  let kind := Idempotency_Kind (Operation_Idempotency op) in let token := Idempotency_TokenParam (Operation_Idempotency op) in
  let hasToken := negb (is_nil token) in
  if Bool.eqb hasToken (bool_decide (kind = IdempotencyToken)) then []
  else [diag SeverityError (go "pass/idempotency-token-mismatch")
    (if hasToken then Operation_ID op ++ go " names token parameter " ++ Quote token ++ go " under idempotency kind " ++ Quote kind ++ go ", which takes none"
     else Operation_ID op ++ go " is idempotent by token but names no token parameter")
    (Operation_ID op ++ go "/idempotency")].
Definition checkIdempotency : list Diagnostic := per_operation idempotency_of.

(** ** Message bindings ([validate_messages.go]) *)

Definition appendUncarriedMessageDiags (channel : ChannelID) (used : list MessageID) (op : OpID) (field : gostring) : list Diagnostic :=
  match Document_Channels doc !! channel with
  | None => []
  | Some ch =>
      concat (imap (λ i id,
        if bool_decide (id ∈ Channel_Messages ch) then []
        else
          let site := op ++ go "/bindings/message/" ++ field ++ go "/" ++ Itoa i in
          [diag SeverityError (go "pass/message-not-in-channel")
            (go "message " ++ Quote id ++ go " at " ++ site ++ go " is not carried by channel " ++ Quote channel) site]) used)
  end.
Definition checkBoundMessages op : list Diagnostic :=
  match OpBindings_Message (Operation_Bindings op) with
  | None => []
  | Some b =>
      appendUncarriedMessageDiags (MessageBinding_Channel b) (MessageBinding_Messages b) (Operation_ID op) (go "messages") ++
      match MessageBinding_Reply b with
      | Some r =>
          match Reply_Channel r with
          | Some channel => appendUncarriedMessageDiags channel (Reply_Messages r) (Operation_ID op) (go "reply/messages")
          | None => []
          end
      | None => []
      end
  end.
Definition checkMessageBindings : list Diagnostic := per_operation checkBoundMessages.

(** ** Responses ([validate_responses.go]) *)

Definition oneway op : list Diagnostic :=
  let declared := length (Operation_Responses op) + match Operation_Default op with Some _ => 1 | None => 0 end in
  if Operation_OneWay op && (0 <? declared) then
    [diag SeverityError (go "pass/oneway-with-responses")
      (go "operation " ++ Operation_ID op ++ go " is one-way but declares " ++ Itoa declared ++ go " response(s)") (Operation_ID op)]
  else [].
Definition checkOneWay : list Diagnostic := per_operation oneway.

Definition zero_range (r : StatusRange) : bool := (StatusRange_From r =? 0)%Z && (StatusRange_To r =? 0)%Z.
Definition status_name (r : StatusRange) : gostring :=
  if zero_range r then go "the catch-all"
  else if (StatusRange_From r =? StatusRange_To r)%Z then FormatInt (StatusRange_From r)
  else FormatInt (StatusRange_From r) ++ go "-" ++ FormatInt (StatusRange_To r).
Definition statusNames (rs : list StatusRange) : gostring :=
  match status_name <$> rs with
  | [] => go "no status"
  | name :: names => name ++ (names ≫= λ name, go " and " ++ name)
  end.
Definition answersCatchAllOnly (c : ResponseConditions) : bool :=
  match ResponseConditions_StatusCodes c with [r] => zero_range r | _ => false end.
Definition default_response op : list Diagnostic :=
  match Operation_Default op with
  | None => []
  | Some r =>
      if answersCatchAllOnly (Response_Conditions r) then []
      else
        let where_ := Operation_ID op ++ go "/default" in
        [diag SeverityError (go "ir/default-response-conditions")
          (go "default response at " ++ where_ ++ go " answers " ++ statusNames (ResponseConditions_StatusCodes (Response_Conditions r)) ++
           go ", where a default answers the catch-all alone") where_]
  end.
Definition checkDefaultResponses : list Diagnostic := per_operation default_response.

(** ** Field arguments ([validate_graphql.go]) *)

Definition typeIDType : rtype := go "TypeID".
Definition docRefType : rtype := go "DocRef".
Definition type_ids : Visitor (S:=list TypeID) :=
  mkVisitor (λ dst v _, if is_struct docRefType v then (dst, false)
    else match v with
         | Text t id => (if bool_decide (t = typeIDType) && negb (is_nil id) then dst ++ [id] else dst, true)
         | _ => (dst, true)
         end) None.
Definition appendTypeIDs (dst : list TypeID) op : list TypeID :=
  let '(root, h) := reflect_Operation op emptyHeap in (WalkValues (memory_of h) (λ _, true) Sprint (Some root) [] [Some type_ids] dst).1.
(** The queue is a stack; the edges of the registry bound how much is pushed. *)
Fixpoint reach_loop (fuel : nat) (seen : gset gostring) (queue : list TypeID) : gset gostring * list TypeID :=
  match fuel, rev queue with
  | O, _ | _, [] => (seen, queue)
  | S fuel, id :: rest =>
      if bool_decide (id ∈ seen) then reach_loop fuel seen (rev rest)
      else reach_loop fuel ({[id]} ∪ seen) (rev rest ++ TypeEdges (type_at id))
  end.
Definition all_edges : nat := sum_list ((λ e, length (TypeEdges e.2)) <$> map_to_list (Document_Types doc)).
Definition graphqlReachableTypes : gset gostring * bool :=
  let '(queue, truncated) := ForEachOperation (λ op queue, match OpBindings_GraphQL (Operation_Bindings op) with Some _ => appendTypeIDs queue op | None => queue end) (Some doc) [] in
  ((reach_loop (length queue + all_edges) ∅ queue).1, truncated).
Definition checkArgsOutsideGraphQL : list Diagnostic :=
  let '(reachable, truncated) := graphqlReachableTypes in
  if truncated then []
  else
    id ← liveTypeIDs;
    match type_at id with
    | ModelDef m =>
        if bool_decide (id ∈ reachable) then []
        else concat (imap (λ i p,
          if is_nil (Property_Args p) then []
          else [diag SeverityError (go "pass/args-outside-graphql")
            (go "property " ++ id ++ go "/properties/" ++ Itoa i ++ go " declares field arguments outside a GraphQL binding") id]) (Model_Properties m))
    | _ => []
    end.
End Rules.
