(* ===== verification/Validate.v ===== *)
(** * Validate: the validation pass
    ([src/pass/validate.go], [validate_refs.go])

    One walk of the document gathers its references and property ids, then each
    family of rules reports in turn. A context is asked as the walk goes, and
    before and after each family. *)
From S2P Require Import Prelude GoLib Decimal Value IR Domain Ids Findings Composition Violations RegistryRules Traverse TypeEdges PassRules.
From S2P Require Import Walk WalkAlone WalkTrace References Reflect WalkRules.

Section Validate.
Context (Quote : gostring → gostring) (doc : Document).
Implicit Types (v : goval) (p : path) (r : IDReferences).

(** ** References ([validate_refs.go]) *)

(** [propIDSites]: the ids kept, and their paths unspelled. *)
Record propIDSites := mkSites { sites : list gostring; site_paths : PathLog }.
(** Its [Visit], which reads what the references gathered so far declare. *)
Definition visit_props r (ps : propIDSites) v p : propIDSites :=
  match v with
  | Text t id =>
      if negb (bool_decide (t = propIDType)) || is_nil id || IsMapKey p then ps
      else if Declares r propIDType id then ps
      else mkSites (sites ps ++ [id]) (Record_ (site_paths ps) p)
  | _ => ps
  end.
Definition dangling_props (ps : propIDSites) r : list IDReference :=
  if existsb (λ id, negb (Declares r propIDType id)) (sites ps) then
    '(id, p) ← zip (sites ps) (All (site_paths ps));
    if Declares r propIDType id then [] else [mkIDReference propIDType id (path_String (fields_of ir_desc) p)]
  else [].

(** [byLocation]: a stable sort. *)
Definition path_le (a b : IDReference) : Prop := string_le (ref_Path a) (ref_Path b).
#[export] Instance path_le_dec a b : Decision (path_le a b). Proof. unfold path_le. apply _. Defined.
Fixpoint insert_site (s : IDReference) (ss : list IDReference) : list IDReference :=
  match ss with
  | [] => [s]
  | t :: rest => if decide (path_le s t) then s :: ss else t :: insert_site s rest
  end.
Definition byLocation (ss : list IDReference) : list IDReference := foldr insert_site [] ss.

Definition dangling_ref (ref : IDReference) : Diagnostic :=
  let noun := RefNoun (ref_Class ref) in
  diag SeverityError (go "ir/dangling-" ++ noun ++ go "-ref")
    (noun ++ go " reference " ++ Quote (ref_ID ref) ++ go " at " ++ ref_Path ref ++ go " resolves to no " ++ noun ++ go " in the registry") (ref_Path ref).
Definition walk_truncated (truncated : bool) : list Diagnostic :=
  if truncated then
    [diag SeverityError (go "ir/walk-truncated") (go "document nests deeper than the bounded reference walk; some references went unchecked") DocumentPath]
  else [].
Definition checkDanglingRefs r (truncated : bool) : list Diagnostic :=
  walk_truncated truncated ++ (dangling_ref <$> byLocation (Unresolved ir_desc r truncated)).
Definition dangling_prop_ref (ref : IDReference) : Diagnostic :=
  diag SeverityError (go "ir/dangling-prop-ref")
    (go "prop reference " ++ Quote (ref_ID ref) ++ go " at " ++ ref_Path ref ++ go " resolves to no property declared in the document") (ref_Path ref).
Definition checkPropIDRefs (ps : propIDSites) r : list Diagnostic := dangling_prop_ref <$> byLocation (dangling_props ps r).

(** ** The walk ([validate.go]) *)

Record walked := mkWalked { w_refs : IDReferences; w_props : propIDSites; w_truncated : bool }.
Definition gathered_state : Type := IDReferences * propIDSites.
Definition walk_visitors : list (option (Visitor (S:=gathered_state))) :=
  [Some (mkVisitor (λ s v p, ((visit_refs ir_desc s.1 v p, s.2), true)) None);
   Some (mkVisitor (λ s v p, ((s.1, visit_props s.1 s.2 v p), true)) None)].
(** [value] is the document as reflection shows it. *)
Definition document_fields (value : goval * memory) : option (list goval) :=
  match value.1 with
  | Pointer t (Some q) => match pointee value.2 (mkRefKey (PointerType t) q 0) with Struct _ fs => Some fs | _ => None end
  | _ => None
  end.
Definition walk_start (value : goval * memory) : gathered_state :=
  (NewIDReferences ir_desc (go "Document") idClasses value.2 (document_fields value), mkSites [] zeroPathLog).

(** What a context answers when the walk asks it, and when it is asked between
    families. *)
Record context := mkContext { asked_in_walk : nat → option gostring; asked_after : nat → option gostring }.
Definition background : context := mkContext (λ _, None) (λ _, None).

Definition walkDocument (ctx : context) (value : goval * memory) : result gostring walked :=
  match WalkValuesContext value.2 (λ _, true) Sprint (asked_in_walk ctx) (Some value.1) DocumentPath walk_visitors (walk_start value) with
  | (_, _, Some err) => Err err
  | (s, truncated, None) => Ok (mkWalked s.1 s.2 truncated)
  end.

Definition families (read : walked) (facts : Facts) : list (list Diagnostic) :=
  [checkNilTypes Quote doc; checkDanglingRefs (w_refs read) (w_truncated read); checkGroupWalkTruncated doc; checkResponseIndices doc;
   checkEncodingKeys Quote doc facts; checkPayloadRequired doc; checkPropIDRefs (w_props read) (w_refs read); checkDiscriminators Quote doc facts;
   checkDuplicateWireNames Quote doc; checkAmbiguousAliases Quote doc; checkDuplicateMemberIDs Quote doc; checkParams Quote doc (w_refs read);
   checkIdempotency Quote doc; checkMessageBindings Quote doc; checkOneWay doc; checkDefaultResponses doc; checkArgsOutsideGraphQL doc].
(** Families in turn, the context asked before each and after the last. *)
Fixpoint run_families (ctx : context) (i : nat) (fs : list (list Diagnostic)) : result gostring (list Diagnostic) :=
  match asked_after ctx i with
  | Some err => Err err
  | None => match fs with [] => Ok [] | f :: fs => ds ← run_families ctx (S i) fs; Ok (f ++ ds) end
  end.
End Validate.

Definition Validate (Quote : gostring → gostring) (ctx : context) (doc : option Document) (value : goval * memory) (facts : Facts) : result gostring (list Diagnostic) :=
  match doc with
  | None => Ok []
  | Some doc => read ← walkDocument ctx value; run_families ctx 0 (families Quote doc read facts)
  end.
(** [Validator.Run]: the document, and what was reported before the context was
    done. *)
Definition Validator_Run (Quote : gostring → gostring) (ctx : context) (doc : option Document) (value : goval * memory) (facts : Facts) : option Document * list Diagnostic :=
  (doc, match Validate Quote ctx doc value facts with Ok ds => ds | Err _ => [] end).
