(* ===== verification/PassNames.v ===== *)
(** * PassNames: the names pass
    ([src/pass/names.go], [names_reader.go])

    What a document's names leave to its targets: parties of one scope that
    share a name, and names without a word character. The buffers a reader keeps
    between scopes are storage. *)
From S2P Require Import Prelude GoLib Decimal Value IR Domain Ids Findings Composition RegistryRules Traverse TypeEdges.
From S2P Require Import Walk WalkAlone WalkTrace References Reflect WalkRules PassRules Validate.

(** ** One scope *)

Record party := mkParty { words : gostring; source : gostring }.
Definition partyOf (n : Naming) : party :=
  mkParty (if is_nil (Naming_Canonical n) then Naming_Hint n else Naming_Canonical n) (Naming_Source n).
(** What a scope compares a party by; a party it has no name for is passed
    over. *)
Definition party_key (p : party) : gostring := if is_nil (words p) then source p else words p.

Record chain := mkChain { chain_first : nat; chain_last : nat }.
(** [later] holds none where the code holds -1. *)
Record reading := mkReading { seen : gmap gostring chain; later : list (option nat); shared : list nat; bare : list nat }.

Definition read_party (r : reading) (i : nat) (p : party) : reading :=
  let unlinked := later r ++ [None] in
  if is_nil (words p) && is_nil (source p) then mkReading (seen r) unlinked (shared r) (bare r)
  else
    let bare := if is_nil (words p) then bare r ++ [i] else bare r in
    match seen r !! party_key p with
    | None => mkReading (<[party_key p := mkChain i i]> (seen r)) unlinked (shared r) bare
    | Some c =>
        mkReading (<[party_key p := mkChain (chain_first c) i]> (seen r)) (<[chain_last c := Some i]> unlinked)
          (if chain_first c =? chain_last c then shared r ++ [chain_first c] else shared r) bare
    end.
Fixpoint read_from (r : reading) (i : nat) (ps : list party) : reading :=
  match ps with [] => r | p :: ps => read_from (read_party r i p) (S i) ps end.
Definition read (ps : list party) : reading := read_from (mkReading ∅ [] [] []) 0 ps.

Section Report.
Context (Quote : gostring → gostring).

(** [ids] is none where the parties are named by index. *)
Record scope := mkScope { scope_in : gostring; scope_id : gostring; one : gostring; many : gostring; ids : option (list gostring) }.
Definition scope_at (sc : scope) : gostring := if is_nil (scope_in sc) then DocumentPath else scope_id sc.
Definition label (sc : scope) (i : nat) : gostring := match ids sc with None => Itoa i | Some ids => default [] (ids !! i) end.
Definition lead (sc : scope) : gostring :=
  if is_nil (scope_in sc) then [] else go "in " ++ scope_in sc ++ go " " ++ scope_id sc ++ go ", ".

Definition party_at (ps : list party) (i : nat) : party := default (mkParty [] []) (ps !! i).
Definition spelled (sc : scope) (ps : list party) (i : nat) : gostring :=
  label sc i ++ let src := source (party_at ps i) in if is_nil src then [] else go " (" ++ Quote src ++ go ")".
(** The chain from [first]; [fuel] is how many parties there are. *)
Fixpoint collision_loop (fuel : nat) (sc : scope) (ps : list party) (later : list (option nat)) (first : nat) (i : option nat) : gostring :=
  match fuel, i with
  | O, _ | _, None => []
  | S fuel, Some i =>
      let next := default None (later !! i) in
      (if i =? first then go " " else match next with None => go " and " | Some _ => go ", " end) ++
      spelled sc ps i ++ collision_loop fuel sc ps later first next
  end.
Definition sharing_words (p : party) : gostring :=
  (if is_nil (words p) then go " share the spelling " ++ Quote (source p) ++ go ", which has no word character"
   else go " share the neutral name " ++ Quote (words p)) ++
  go ", so a target can tell them apart only by ID".
Definition collision (sc : scope) (ps : list party) (later : list (option nat)) (first : nat) : gostring :=
  lead sc ++ many sc ++ collision_loop (length ps) sc ps later first (Some first) ++ sharing_words (party_at ps first).
Definition without_words (sc : scope) (ps : list party) (i : nat) : gostring :=
  lead sc ++ one sc ++ go " " ++ label sc i ++ go " (" ++ Quote (source (party_at ps i)) ++
  go ") has no word character, so it has no neutral name, and a target names it from its characters".
Definition report (sc : scope) (ps : list party) (r : reading) : list Diagnostic :=
  ((λ first, diag SeverityWarning (go "pass/name-collision") (collision sc ps (later r) first) (scope_at sc)) <$> shared r) ++
  ((λ i, diag SeverityInfo (go "pass/name-without-words") (without_words sc ps i) (scope_at sc)) <$> bare r).
(** A scope that reads nothing to report makes no report, which says nothing
    either. *)
Definition readScope (sc : scope) (ns : list Naming) : list Diagnostic :=
  let ps := partyOf <$> ns in
  let r := read ps in
  if (0 <? length (shared r)) || (0 <? length (bare r)) then report sc ps r else [].

(** ** The scopes of a document *)

Context (doc : Document).
Definition services : list Diagnostic :=
  readScope (mkScope [] [] (go "service") (go "services") (Some (Service_ID <$> Document_Services doc))) (Service_Name <$> Document_Services doc).
Definition groupList (within id : gostring) (gs : list OperationGroup) : list Diagnostic :=
  readScope (mkScope within id (go "operation group") (go "operation groups") (Some (OperationGroup_ID <$> gs))) (OperationGroup_Name <$> gs).
Definition params (op : OpID) (ps : list Parameter_) : list Diagnostic :=
  readScope (mkScope (go "operation") op (go "parameter") (go "parameters") (Some (Parameter_ID <$> ps))) (Parameter_Name <$> ps).
Definition group_names (g : OperationGroup) : list Diagnostic :=
  let ops := OperationGroup_Operations g in
  groupList (go "operation group") (OperationGroup_ID g) (OperationGroup_Groups g) ++
  readScope (mkScope (go "operation group") (OperationGroup_ID g) (go "operation") (go "operations") (Some (Operation_ID <$> ops))) (Operation_Name <$> ops) ++
  (op ← ops; params (Operation_ID op) (Operation_Params op)).
Definition groups : list Diagnostic :=
  (svc ← Document_Services doc; groupList (go "service") (Service_ID svc) (Service_Groups svc)) ++
  (ForEachGroup (λ g ds, ds ++ group_names g) (Some doc) []).1.

Definition builtIn (td : TypeDef) : bool := match td with PrimitiveDef _ | AnyDef _ | ExternalDef _ => true | _ => false end.
Definition typeParts (id : TypeID) (td : TypeDef) : list Diagnostic :=
  match td with
  | ModelDef t => readScope (mkScope (go "model") id (go "property") (go "properties") None) (Property_Name <$> Model_Properties t)
  | EnumDef t => readScope (mkScope (go "enum") id (go "member") (go "members") None) (EnumMember_Name <$> Enum_Members t)
  | UnionDef t =>
      readScope (mkScope (go "union") id (go "variant") (go "variants") (Some ((TypeRef_Target ∘ Variant_Type) <$> Union_Variants t)))
        (Variant_Name <$> Union_Variants t)
  | _ => []
  end.
Definition declares_type (id : TypeID) : bool := negb (TypeCommon_Anonymous (Common (type_at doc id)) || builtIn (type_at doc id)).
Definition types : list Diagnostic :=
  let declared := filter (λ id, declares_type id = true) (liveTypeIDs doc) in
  (liveTypeIDs doc ≫= λ id, typeParts id (type_at doc id)) ++
  readScope (mkScope [] [] (go "type") (go "types") (Some declared)) ((λ id, TypeCommon_Name (Common (type_at doc id))) <$> declared).
Definition auth : list Diagnostic :=
  let ids := sorted_keys (Document_Auth doc) in
  readScope (mkScope [] [] (go "auth scheme") (go "auth schemes") (Some ids))
    ((λ id, match Document_Auth doc !! id with Some s => AuthScheme_Name s | None => zeroNaming end) <$> ids).
Definition name_families : list (list Diagnostic) := [services; groups; types; auth].
End Report.

Definition checkNames (Quote : gostring → gostring) (ctx : context) (doc : option Document) : result gostring (list Diagnostic) :=
  match doc with None => Ok [] | Some doc => run_families ctx 0 (name_families Quote doc) end.
Definition Names_Run (Quote : gostring → gostring) (ctx : context) (doc : option Document) : option Document * list Diagnostic :=
  (doc, match checkNames Quote ctx doc with Ok ds => ds | Err _ => [] end).
