(* ===== verification/PassSound.v ===== *)
(** * PassSound: what each family of the validation pass finds nothing in

    The rule a family holds a document to as a proposition, and a lemma that the
    family reports nothing exactly where it holds. *)
From S2P Require Import Prelude GoLib Decimal Value IR Domain Ids Findings Composition Text Violations RegistryRules RegistrySound Traverse TypeEdges.
From S2P Require Import Walk WalkAlone WalkTrace References Reflect WalkRules WalkSound PassRules.

(** ** Walks that add to a list *)

(** A group of a document, above the cap on nesting. *)
Definition group_reached (doc : Document) (g : OperationGroup) : Prop :=
  ∃ svc n, svc ∈ Document_Services doc ∧ group_at (Service_Groups svc) 0 n g ∧ n ≤ MaxGroupDepth.
Definition op_reached (doc : Document) (op : Operation) : Prop := ∃ g, group_reached doc g ∧ op ∈ OperationGroup_Operations g.

Section Adding.
Context {A : Type} (fn : OperationGroup → list A → list A) (items : OperationGroup → list A).
Hypothesis adds : ∀ g l, fn g l = l ++ items g.

Lemma forEachGroup_adds gs depth (acc : list A) x :
  x ∈ (forEachGroup fn gs depth acc).1 ↔ x ∈ acc ∨ ∃ n g, group_at gs depth n g ∧ n ≤ MaxGroupDepth ∧ x ∈ items g.
Proof.
  rewrite <- forEachGroup_collect. enough (E : forEachGroup fn gs depth acc = forEachGroup (λ g l, l ++ items g) gs depth acc) by by rewrite E.
  revert acc. assert (H : ∀ n gs depth acc, MaxGroupDepth + 2 - depth ≤ n → forEachGroup fn gs depth acc = forEachGroup (λ g l, l ++ items g) gs depth acc).
  { intros n. induction n as [|n IHn]; intros [|g0 gs0] d acc Hn; try done; unfold forEachGroup; destruct (Nat.ltb_spec MaxGroupDepth d); try done; [lia|].
    generalize (g0 :: gs0). intros l. revert acc. induction l as [|g l IH]; intros acc; [done|]. cbn [visit_groups]. rewrite !visit_groups_fold, adds, IHn by lia.
    destruct (forEachGroup _ _ _ _) as [st t]. by rewrite IH. }
  intros acc. by eapply H.
Qed.

Lemma ForEachGroup_adds doc x : x ∈ (ForEachGroup fn (Some doc) []).1 ↔ ∃ g, group_reached doc g ∧ x ∈ items g.
Proof.
  unfold ForEachGroup, group_reached. assert (H : ∀ svcs acc cut,
    x ∈ (foldl (λ '(st, truncated) svc, let '(st, more) := forEachGroup fn (Service_Groups svc) 0 st in (st, truncated || more)) (acc, cut) svcs).1 ↔
    x ∈ acc ∨ ∃ g, (∃ svc n, svc ∈ svcs ∧ group_at (Service_Groups svc) 0 n g ∧ n ≤ MaxGroupDepth) ∧ x ∈ items g).
  { intros svcs. induction svcs as [|svc svcs IH]; intros acc cut; cbn [foldl fst].
    - split; [by left|]. intros [?|(g & (svc & n & Hs & _) & _)]; [done|by apply elem_of_nil in Hs].
    - pose proof (forEachGroup_adds (Service_Groups svc) 0 acc x) as Hx. destruct (forEachGroup _ _ _ _) as [st t]. cbn [fst] in Hx. rewrite IH, Hx. split.
      + intros [[?|(n & g & ? & ? & ?)]|(g & (svc' & n & ? & ? & ?) & ?)]; [by left|right|right].
        * exists g. split; [|done]. exists svc, n. split_and!; [by left|done..].
        * exists g. split; [|done]. exists svc', n. split_and!; [by right|done..].
      + intros [?|(g & (svc' & n & [->|Hs]%elem_of_cons & ? & ?) & ?)]; [by left; left|left; right; by exists n, g|].
        right. exists g. split; [|done]. by exists svc', n. }
  rewrite H. split; [|by right]. intros [?%elem_of_nil|?]; done.
Qed.
End Adding.

Lemma foldl_adds {A B} (found : B → list A) (l : list B) (acc : list A) : foldl (λ acc x, acc ++ found x) acc l = acc ++ (l ≫= found).
Proof. revert acc. induction l as [|x l IH]; intros acc; cbn; [by rewrite app_nil_r|]. by rewrite IH, <- app_assoc. Qed.

Lemma elem_of_operations {A} (found : Operation → list A) doc x :
  x ∈ (ForEachOperation (λ op l, l ++ found op) (Some doc) []).1 ↔ ∃ op, op_reached doc op ∧ x ∈ found op.
Proof.
  unfold ForEachOperation. rewrite (ForEachGroup_adds _ (λ g, OperationGroup_Operations g ≫= found)) by (intros g l; apply foldl_adds).
  unfold op_reached. setoid_rewrite list_elem_of_bind. split.
  - intros (g & Hg & op & Hx & Hop). exists op. split; [by exists g|done].
  - intros (op & (g & Hg & Hop) & Hx). exists g. split; [done|]. by exists op.
Qed.

Lemma nil_iff_none {A} (l : list A) : l = [] ↔ ∀ x, x ∉ l.
Proof. destruct l as [|x l]; split; intros H; try done; [by intros y ?%elem_of_nil|]. exfalso. apply (H x). by left. Qed.

Lemma per_operation_nil doc found : per_operation doc found = [] ↔ ∀ op, op_reached doc op → found op = [].
Proof.
  rewrite nil_iff_none. unfold per_operation. setoid_rewrite elem_of_operations. setoid_rewrite nil_iff_none. split.
  - intros H op Hop x Hx. apply (H x). by exists op.
  - intros H x (op & Hop & Hx). by apply (H op Hop x).
Qed.

Lemma operations_rule doc found (rule : Operation → Prop) : (∀ op, found op = [] ↔ rule op) →
  per_operation doc found = [] ↔ ∀ op, op_reached doc op → rule op.
Proof. intros Hr. rewrite per_operation_nil. by setoid_rewrite Hr. Qed.

Lemma ForEachGroup_cut {St} (fn : OperationGroup → St → St) doc st :
  (ForEachGroup fn (Some doc) st).2 = false ↔ ∀ svc n g, svc ∈ Document_Services doc → group_at (Service_Groups svc) 0 n g → n ≤ MaxGroupDepth.
Proof.
  assert (Hone : ∀ gs depth st, (forEachGroup fn gs depth st).2 = false ↔ ∀ n g, group_at gs depth n g → n ≤ MaxGroupDepth).
  { intros gs depth st'. apply (forEachGroup_ind fn (λ gs depth st r, r.2 = false ↔ ∀ n g, group_at gs depth n g → n ≤ MaxGroupDepth)); cbn [snd].
    - intros d _. split; [|done]. intros _ n g Hg. inversion Hg; subst; by match goal with H : _ ∈ [] |- _ => apply elem_of_nil in H end.
    - intros [|g gs'] d _ Hne Hd; [done|]. split; [done|]. intros H. exfalso. assert (d ≤ MaxGroupDepth); [|lia]. apply (H d g). constructor. by left.
    - intros g gs' d _ _ t _ t2 Hd H1 H2. rewrite orb_false_iff, H1, H2. split.
      + intros [Hb Hr] n g' Hg. inversion Hg as [? ? ? Hin|? ? g1 ? ? Hin Hbelow]; subst; [done|]. apply elem_of_cons in Hin as [->|Hin]; [by eapply Hb|].
        eapply Hr. by eapply group_below.
      + intros H. split; intros n g' Hg.
        * apply (H n g'). eapply group_below; [by left|done].
        * apply (H n g'). inversion Hg; subst; [constructor; by right|eapply group_below; [by right|done]]. }
  unfold ForEachGroup. assert (H : ∀ svcs st cut,
    (foldl (λ '(st, truncated) svc, let '(st, more) := forEachGroup fn (Service_Groups svc) 0 st in (st, truncated || more)) (st, cut) svcs).2 = false ↔
    cut = false ∧ ∀ svc n g, svc ∈ svcs → group_at (Service_Groups svc) 0 n g → n ≤ MaxGroupDepth).
  { intros svcs. induction svcs as [|svc svcs IH]; intros st' cut; cbn [foldl snd].
    - split; [|tauto]. intros ->. split; [done|]. by intros ? ? ? ?%elem_of_nil.
    - specialize (Hone (Service_Groups svc) 0 st'). destruct (forEachGroup _ _ _ _) as [st1 t]. cbn [snd] in Hone. rewrite IH, orb_false_iff, Hone. split.
      + intros [[Hc Ho] Hr]. split; [done|]. intros s n g [->|Hs]%elem_of_cons; [apply Ho|by apply Hr].
      + intros [Hc Hr]. split; [split; [done|]|]; intros; eapply Hr; [by left|done|by right|done]. }
  rewrite H. tauto.
Qed.

Lemma keys_nil {A B : Type} (m : gmap gostring A) (f : gostring → list B) : sorted_keys m ≫= f = [] ↔ ∀ k x, m !! k = Some x → f k = [].
Proof.
  rewrite bind_nil_iff. setoid_rewrite elem_of_sorted_keys. setoid_rewrite elem_of_dom. split; [intros H k x E; apply H; by exists x|].
  intros H k [x E]. by eapply H.
Qed.
Lemma report_unless_nil {A} (b : bool) (x : A) : (if b then [] else [x]) = [] ↔ b = true.
Proof. by destruct b. Qed.
Lemma report_when_nil {A} (b : bool) (x : A) : (if b then [x] else []) = [] ↔ b = false.
Proof. by destruct b. Qed.

(** ** Single checks *)

Section Checks.
Context (Quote : gostring → gostring) (doc : Document).
Implicit Types (id target : TypeID) (op : Operation).

Lemma type_at_some id td : Document_Types doc !! id = Some td → type_at doc id = td.
Proof. unfold type_at. by intros ->. Qed.
Lemma checkNilTypes_nil : checkNilTypes Quote doc = [] ↔ ∀ id td, Document_Types doc !! id = Some td → IsNilTypeDef td = false.
Proof.
  unfold checkNilTypes. rewrite keys_nil. split; intros H id td E; specialize (H id td E); revert H; rewrite (type_at_some _ _ E), report_when_nil; done.
Qed.

(** What a rule of live types asks, over every type declared. *)
Lemma live_nil {A} (found : TypeID → TypeDef → list A) :
  (liveTypeIDs doc ≫= λ id, found id (type_at doc id)) = [] ↔ ∀ id td, Document_Types doc !! id = Some td → IsNilTypeDef td = false → found id td = [].
Proof.
  rewrite bind_nil_iff. unfold liveTypeIDs. setoid_rewrite list_elem_of_filter. setoid_rewrite elem_of_sorted_keys. setoid_rewrite elem_of_dom. split.
  - intros H id td E Hn. rewrite <- (type_at_some _ _ E). apply H. split; [by rewrite (type_at_some _ _ E)|by exists td].
  - intros H id [Hn [td E]]. rewrite (type_at_some _ _ E) in *. by apply H.
Qed.

Lemma checkGroupWalkTruncated_nil : checkGroupWalkTruncated doc = [] ↔
  ∀ svc n g, svc ∈ Document_Services doc → group_at (Service_Groups svc) 0 n g → n ≤ MaxGroupDepth.
Proof. unfold checkGroupWalkTruncated. unfold ForEachOperation. by rewrite report_when_nil, ForEachGroup_cut. Qed.

(** Every status code of a response names one declared. *)
Definition indices_bound op : Prop :=
  ∀ b index code, b ∈ OpBindings_HTTP (Operation_Bindings op) → HTTPBinding_SuccessStatus b !! index = Some code →
    (0 <= index < Z.of_nat (length (Operation_Responses op)))%Z.
Lemma outside_indices_nil status declared : outside_indices status declared = [] ↔ ∀ index (code : Z), status !! index = Some code → (0 <= index < declared)%Z.
Proof.
  unfold outside_indices. rewrite nil_iff_none. setoid_rewrite merge_sort_Permutation. setoid_rewrite list_elem_of_filter. setoid_rewrite list_elem_of_fmap. split.
  - intros H index code E. specialize (H index). destruct (decide (index < 0 ∨ declared <= index)%Z); [|lia]. exfalso. apply H. split; [done|].
    exists (index, code). split; [done|]. by apply elem_of_map_to_list.
  - intros H index [Ho ([i c] & -> & Hin%elem_of_map_to_list)]. cbn [fst] in *. specialize (H _ _ Hin). lia.
Qed.
Lemma response_indices_nil op : response_indices op = [] ↔ indices_bound op.
Proof.
  unfold response_indices, indices_bound. rewrite concat_imap_nil. unfold appendSuccessStatusDiags.
  assert (Hb : ∀ b i, (outside_indices (HTTPBinding_SuccessStatus b) (Z.of_nat (length (Operation_Responses op))) ≫= λ index,
    [diag SeverityError (go "ir/response-index-out-of-range")
    (go "response index " ++ FormatInt index ++ go " at " ++ (Operation_ID op ++ go "/bindings/http/" ++ Itoa i ++ go "/successStatus/" ++ FormatInt index) ++
     go " addresses none of the " ++ FormatInt (Z.of_nat (length (Operation_Responses op))) ++ go " declared responses")
     (Operation_ID op ++ go "/bindings/http/" ++ Itoa i ++ go "/successStatus/" ++ FormatInt index)]) = [] ↔
    ∀ index code, HTTPBinding_SuccessStatus b !! index = Some code → (0 <= index < Z.of_nat (length (Operation_Responses op)))%Z).
  { intros b i. rewrite <- outside_indices_nil. by destruct (outside_indices _ _). }
  setoid_rewrite list_elem_of_lookup. split.
  - intros H b index code [i Hi]. by apply (Hb b i), H.
  - intros H i b Hi. apply Hb. intros index code. apply H. by exists i.
Qed.

(** ** Payloads *)

Definition encodings_known (facts : Facts) (site : payloadSite) : Prop :=
  ∀ c key e, c ∈ ps_contents site → Content_Encoding c !! key = Some e → facts_Exposes facts (TypeRef_Target (Content_Type c)) key = true.
Lemma checkEncodingKeys_nil facts : checkEncodingKeys Quote doc facts = [] ↔ ∀ site, site ∈ forEachPayload doc → encodings_known facts site.
Proof.
  unfold checkEncodingKeys, encodings_known. rewrite bind_nil_iff. setoid_rewrite list_elem_of_lookup at 3. unfold appendEncodingKeyDiags, appendUnknownPartDiags.
  setoid_rewrite concat_imap_nil. setoid_rewrite keys_nil. setoid_rewrite report_unless_nil. split.
  - intros H site Hs c key e [i Hi] E. by apply (H site Hs i c Hi key e).
  - intros H site Hs i c Hi key e E. apply (H site Hs c key e); [by exists i|done].
Qed.
Lemma checkPayloadRequired_nil : checkPayloadRequired doc = [] ↔
  ∀ site, site ∈ forEachPayload doc → ps_request site = false → ps_required site = None.
Proof.
  unfold checkPayloadRequired, payload_required. rewrite bind_nil_iff. setoid_rewrite report_unless_nil. setoid_rewrite orb_true_iff. setoid_rewrite is_None_true.
  split; intros H site Hs; specialize (H site Hs); destruct (ps_request site); try tauto; intros; destruct H as [?|?]; done.
Qed.

(** ** Discriminators *)

Definition routes_to target (member : TypeID → bool) : Prop := is_Some (Document_Types doc !! target) ∧ member target = true.
Definition mapping_rule (d : Discriminator) (member : TypeID → bool) : Prop :=
  (∀ key target, Discriminator_Mapping d !! key = Some target → routes_to target member) ∧
  (Discriminator_Default d ≠ [] → routes_to (Discriminator_Default d) member).
Lemma routed_nil position where_ target member : routed Quote doc position where_ target member = [] ↔ routes_to target member.
Proof.
  unfold routed, mappingTarget, routes_to. destruct (Document_Types doc !! target) as [td|]; [|split; [done|by intros [[? ?] _]]].
  destruct (member target); (split; [|by intros [_ ?]]); intros E; [|done]. by split; [exists td|].
Qed.
Lemma checkMapping_nil d where_ member : checkMapping Quote doc d where_ member = [] ↔ mapping_rule d member.
Proof.
  unfold checkMapping, mapping_rule. rewrite app_nil_iff, keys_nil. f_equiv.
  - split; intros H key target E; specialize (H key target E); revert H; rewrite E; cbn [default]; by rewrite routed_nil.
  - destruct (is_nil (Discriminator_Default d)) eqn:E; [apply is_nil_true in E|apply is_nil_false in E; rewrite routed_nil]; tauto.
Qed.

Definition discriminator_rule (facts : Facts) (td : TypeDef) : Prop :=
  match td with
  | UnionDef u => ∀ d, Union_Discriminator u = Some d → mapping_rule d (λ target, bool_decide (target ∈ (TypeRef_Target ∘ Variant_Type) <$> Union_Variants u))
  | ModelDef m => ∀ d, Model_Discriminator m = Some d → let id := TypeCommon_ID (Model_TypeCommon m) in
      (Discriminator_Property d ≠ [] → facts_Exposes facts id (Discriminator_Property d) = true) ∧ mapping_rule d (λ target, facts_IsSubtype facts target id)
  | _ => True
  end.
Lemma opt_nil {A B : Type} (o : option A) (f : A → list B) (R : A → Prop) : (∀ x, f x = [] ↔ R x) → match o with Some x => f x | None => [] end = [] ↔ ∀ x, o = Some x → R x.
Proof. intros Hf. destruct o as [x|]; [rewrite Hf; split; [by intros ? ? [= <-]|by intros H; apply H]|by split]. Qed.
Lemma checkDiscriminators_nil facts : checkDiscriminators Quote doc facts = [] ↔
  ∀ id td, Document_Types doc !! id = Some td → IsNilTypeDef td = false → discriminator_rule facts td.
Proof.
  unfold checkDiscriminators. rewrite (live_nil (λ _ td, match td with UnionDef t => checkUnionDiscriminator Quote doc t | ModelDef t => checkModelDiscriminator Quote doc facts t | _ => [] end)).
  enough (Hone : ∀ td, match td with UnionDef t => checkUnionDiscriminator Quote doc t | ModelDef t => checkModelDiscriminator Quote doc facts t | _ => [] end = [] ↔ discriminator_rule facts td)
    by by setoid_rewrite Hone.
  intros [p|s|m|u|e|l|mp|t|li|x|a|k]; try done; cbn [discriminator_rule].
  - apply opt_nil. intros d. rewrite app_nil_iff, checkMapping_nil. f_equiv. unfold checkDiscriminatorProperty. rewrite report_unless_nil, orb_true_iff.
    destruct (is_nil (Discriminator_Property d)) eqn:E; [apply is_nil_true in E|apply is_nil_false in E]; tauto || (split; [intros [?|?]; done|by right; auto]).
  - unfold checkUnionDiscriminator. apply opt_nil. intros d. apply checkMapping_nil.
Qed.
End Checks.
