(* ===== verification/PassScopes.v ===== *)
(** * PassScopes: names and parameters that are one of a kind

    The families that compare what one type or one operation holds: wire names,
    aliases, enum members, parameters and their bindings, and the checks of one
    operation. *)
From S2P Require Import Prelude GoLib Decimal Value IR Domain Ids Findings Composition Text Violations RegistryRules RegistrySound Traverse TypeEdges.
From S2P Require Import Walk WalkAlone WalkTrace References Reflect WalkRules WalkSound PassRules PassSound.

(** ** Wire names and members *)

Definition filled (names : list gostring) : list gostring := filter (λ n, n ≠ []) names.
Lemma filled_cons n names : filled (n :: names) = if is_nil n then filled names else n :: filled names.
Proof.
  unfold filled. rewrite filter_cons. destruct (is_nil n) eqn:E; [apply is_nil_true in E as ->|apply is_nil_false in E]; by destruct (decide _).
Qed.
(** A set of names met, and those to come. *)
Definition fresh_in (seen : gset gostring) (names : list gostring) : Prop := NoDup names ∧ ∀ n, n ∈ names → n ∉ seen.
Lemma fresh_in_cons seen n names : fresh_in seen (n :: names) ↔ n ∉ seen ∧ fresh_in ({[n]} ∪ seen) names.
Proof. unfold fresh_in. rewrite NoDup_cons. split; intros H; set_solver. Qed.
Lemma fresh_in_empty names : fresh_in ∅ names ↔ NoDup names.
Proof. unfold fresh_in. set_solver. Qed.

Definition wire_names (props : list Property) : list gostring := filled (EffectiveWireName <$> props).
Definition aliases_of (p : Property) : list gostring := filled (Naming_Aliases (Property_Name p)).

Section Scopes.
Context (Quote : gostring → gostring).

Lemma wire_loop_nil id seen props : wire_loop Quote id seen props = [] ↔ fresh_in seen (wire_names props).
Proof.
  revert seen. unfold wire_names. induction props as [|p props IH]; intros seen; cbn [wire_loop fmap list_fmap]; [split; [|done]; intros _; split; [apply NoDup_nil_2|by intros ? ?%elem_of_nil]|].
  rewrite filled_cons. destruct (is_nil _); [done|]. rewrite fresh_in_cons, <- IH. case_bool_decide; [split; [done|tauto]|tauto].
Qed.
Lemma member_loop_nil id i seen members : member_loop Quote id i seen members = [] ↔ fresh_in seen (filled (EnumMember_ID <$> members)).
Proof.
  revert i seen. induction members as [|m members IH]; intros i seen; cbn [member_loop fmap list_fmap]; [split; [|done]; intros _; split; [apply NoDup_nil_2|by intros ? ?%elem_of_nil]|].
  rewrite filled_cons. destruct (is_nil _); [done|]. rewrite fresh_in_cons, <- IH, app_nil_iff, report_when_nil, bool_decide_eq_false. done.
Qed.

(** ** Aliases *)

Lemma wire_claims_lookup i claimant props name j : NoDup (wire_names props) → (∀ n, n ∈ wire_names props → claimant !! n = None) →
  wire_claims i claimant props !! name = Some j ↔ claimant !! name = Some j ∨ ∃ k p, j = i + k ∧ props !! k = Some p ∧ EffectiveWireName p = name ∧ name ≠ [].
Proof.
  revert i claimant. unfold wire_names. induction props as [|p props IH]; intros i claimant Hnd Hfree; cbn [wire_claims].
  { split; [by left|]. by intros [?|(k & q & _ & Hk & _)]. }
  rewrite fmap_cons, filled_cons in Hnd, Hfree. destruct (is_nil (EffectiveWireName p)) eqn:En.
  - cbn [orb]. rewrite IH by done. apply is_nil_true in En. split; (intros [?|(k & q & -> & Hk & Hq & Hne)]; [by left|right]).
    + exists (S k), q. split_and!; [lia|done..].
    + destruct k as [|k]; [cbn in Hk; congruence|]. exists k, q. split_and!; [lia|done..].
  - cbn [orb]. apply NoDup_cons in Hnd as [Hnot Hnd]. rewrite (Hfree _ ltac:(by left)). rewrite (bool_decide_false _ is_Some_None).
    apply is_nil_false in En. rewrite IH; [|done|].
    + destruct (decide (name = EffectiveWireName p)) as [->|Hne].
      * rewrite lookup_insert_eq, (Hfree _ ltac:(by left)). split.
        -- intros [[= <-]|(k & q & _ & Hk & Hq & _)]; [right; exists 0, p; split_and!; [lia|done..]|]. exfalso. apply Hnot. apply list_elem_of_filter.
           split; [done|]. apply list_elem_of_fmap. exists q. split; [done|]. exact (list_elem_of_lookup_2 props k q Hk).
        -- intros [?|(k & q & -> & Hk & Hq & Hne)]; [done|]. destruct k as [|k]; [left; f_equal; lia|]. exfalso. apply Hnot. apply list_elem_of_filter.
           split; [done|]. apply list_elem_of_fmap. exists q. split; [done|]. exact (list_elem_of_lookup_2 props k q Hk).
      * rewrite lookup_insert_ne by done. split; (intros [?|(k & q & -> & Hk & Hq & Hn)]; [by left|right]).
        -- exists (S k), q. split_and!; [lia|done..].
        -- destruct k as [|k]; [cbn in Hk; congruence|]. exists k, q. split_and!; [lia|done..].
    + intros n Hn. rewrite lookup_insert_ne; [apply Hfree; by right|]. by intros <-.
Qed.

Lemma alias_claims_spec id props i p claimant aliases : let '(claims, ds) := alias_claims Quote id props i p claimant aliases in
  (∀ name j, claimant !! name = Some j → claims !! name = Some j) ∧
  (∀ name j, claims !! name = Some j → claimant !! name = Some j ∨ (j = i ∧ name ∈ filled aliases)) ∧
  (∀ name, name ∈ filled aliases → is_Some (claims !! name)) ∧
  (ds = [] ↔ ∀ name, name ∈ filled aliases → claims !! name = Some i).
Proof.
  revert claimant. induction aliases as [|alias aliases IH]; intros claimant; cbn [alias_claims].
  { split_and!; [done|by left|by intros ? ?%elem_of_nil|]. split; [|done]. by intros _ ? ?%elem_of_nil. }
  rewrite !filled_cons. destruct (is_nil alias); [apply IH|]. destruct (claimant !! alias) as [j|] eqn:E.
  - specialize (IH claimant). destruct (alias_claims _ _ _ _ _ _ _) as [claims ds]. destruct IH as (I1 & I2 & I3 & I4). split_and!; [done| | |].
    + intros name k Hk. destruct (I2 name k Hk) as [?|[? ?]]; [by left|right; split; [done|by right]].
    + intros name [->|Hn]%elem_of_cons; [exists j; by apply I1|by apply I3].
    + destruct (Nat.eqb_spec j i) as [->|Hne].
      * rewrite I4. split; [|intros H name Hn; apply H; by right]. intros H name [->|Hn]%elem_of_cons; [by apply I1|by apply H].
      * split; [done|]. intros H. specialize (H alias ltac:(by left)). rewrite (I1 _ _ E) in H. congruence.
  - specialize (IH (<[alias := i]> claimant)). destruct (alias_claims _ _ _ _ _ _ _) as [claims ds]. destruct IH as (I1 & I2 & I3 & I4).
    assert (Ha : claims !! alias = Some i) by (apply I1; by rewrite lookup_insert_eq). split_and!.
    + intros name k Hk. apply I1. rewrite lookup_insert_ne; [done|congruence].
    + intros name k Hk. destruct (I2 name k Hk) as [Hi|[? ?]]; [|right; split; [done|by right]]. destruct (decide (name = alias)) as [->|Hne].
      * rewrite lookup_insert_eq in Hi. right. split; [congruence|by left].
      * rewrite lookup_insert_ne in Hi by done. by left.
    + intros name [->|Hn]%elem_of_cons; [by exists i|by apply I3].
    + rewrite I4. split; [|intros H name Hn; apply H; by right]. intros H name [->|Hn]%elem_of_cons; [done|by apply H].
Qed.

(** The claims once every property's aliases are read. *)
Lemma alias_scope_spec id props i claimant rest : ∃ claims : gmap gostring nat,
  (∀ name j, claimant !! name = Some j → claims !! name = Some j) ∧
  (∀ name j, claims !! name = Some j → claimant !! name = Some j ∨ ∃ k p, j = i + k ∧ rest !! k = Some p ∧ name ∈ aliases_of p) ∧
  (∀ p name, p ∈ rest → name ∈ aliases_of p → is_Some (claims !! name)) ∧
  (alias_scope Quote id props i claimant rest = [] ↔ ∀ k p name, rest !! k = Some p → name ∈ aliases_of p → claims !! name = Some (i + k)).
Proof.
  revert i claimant. induction rest as [|p rest IH]; intros i claimant; cbn [alias_scope].
  { exists claimant. split_and!; [done|by left|by intros ? ? ?%elem_of_nil|done]. }
  pose proof (alias_claims_spec id props i p claimant (Naming_Aliases (Property_Name p))) as Hp. destruct (alias_claims _ _ _ _ _ _ _) as [own ds].
  destruct Hp as (P1 & P2 & P3 & P4). destruct (IH (S i) own) as (claims & C1 & C2 & Call & C3). exists claims. split_and!.
  - intros name j Hj. by apply C1, P1.
  - intros name j Hj. destruct (C2 name j Hj) as [Hown|(k & q & -> & Hk & Hq)].
    + destruct (P2 name j Hown) as [?|[-> ?]]; [by left|]. right. exists 0, p. split_and!; [lia|done..].
    + right. exists (S k), q. split_and!; [lia|done..].
  - intros q name [->|Hq]%elem_of_cons Hn; [|by eapply Call]. destruct (P3 name Hn) as [j Hj]. exists j. by apply C1.
  - rewrite app_nil_iff, P4, C3. split.
    + intros [H1 H2] [|k] q name Hk Hq.
      * injection Hk as <-. rewrite Nat.add_0_r. by apply C1, H1.
      * rewrite Nat.add_succ_r. by apply (H2 k q name).
    + intros H. split.
      * intros name Hn. specialize (H 0 p name eq_refl Hn). rewrite Nat.add_0_r in H. destruct (P3 name Hn) as [j Hj]. rewrite (C1 _ _ Hj) in H. congruence.
      * intros k q name Hk Hq. specialize (H (S k) q name Hk Hq). by rewrite Nat.add_succ_r in H.
Qed.

(** A property answers to its wire name and its aliases. *)
Definition answers (p : Property) (name : gostring) : Prop := (EffectiveWireName p = name ∧ name ≠ []) ∨ name ∈ aliases_of p.
Definition names_apart (props : list Property) : Prop :=
  NoDup (wire_names props) ∧
  ∀ i j p q name, props !! i = Some p → props !! j = Some q → name ∈ aliases_of p → answers q name → i = j.

Lemma names_apart_nil id props : wire_loop Quote id ∅ props = [] ∧ ambiguousAliases Quote id props = [] ↔ names_apart props.
Proof.
  rewrite wire_loop_nil, fresh_in_empty. unfold names_apart, ambiguousAliases.
  destruct (decide (NoDup (wire_names props))) as [Hnd|]; [|tauto]. enough (H : alias_scope Quote id props 0 (wire_claims 0 ∅ props) props = [] ↔
    ∀ i j p q name, props !! i = Some p → props !! j = Some q → name ∈ aliases_of p → answers q name → i = j) by by rewrite H.
  destruct (alias_scope_spec id props 0 (wire_claims 0 ∅ props) props) as (claims & C1 & C2 & Call & C3). rewrite C3. cbn [plus].
  assert (Hwire : ∀ name j, wire_claims 0 ∅ props !! name = Some j ↔ ∃ p, props !! j = Some p ∧ EffectiveWireName p = name ∧ name ≠ []).
  { intros name j. rewrite wire_claims_lookup by done. rewrite lookup_empty. split; [intros [?|(k & p & -> & ?)]; [done|by exists p]|intros (p & ?); right; by exists j, p]. }
  split.
  - intros H i j p q name Hp Hq Hn Ha. pose proof (H i p name Hp Hn) as Hi. destruct Ha as [Hw|Hqn].
    + assert (Hj : claims !! name = Some j) by (apply C1, Hwire; by exists q). congruence.
    + pose proof (H j q name Hq Hqn). congruence.
  - intros H i p name Hp Hn. assert (Hfilled : is_Some (claims !! name)) by (apply (Call p); [by eapply list_elem_of_lookup_2|done]).
    destruct Hfilled as [j Hj]. rewrite Hj. f_equal. destruct (C2 name j Hj) as [(q & Hq & Ha)%Hwire|(k & q & -> & Hq & Hqn)].
    + symmetry. eapply H; [done..|]. by left.
    + symmetry. eapply H; [done..|]. by right.
Qed.

Context (doc : Document).
Implicit Types (op : Operation).

Lemma model_names_nil : checkDuplicateWireNames Quote doc = [] ∧ checkAmbiguousAliases Quote doc = [] ↔
  ∀ id m, Document_Types doc !! id = Some (ModelDef m) → names_apart (Model_Properties m).
Proof.
  unfold checkDuplicateWireNames, checkAmbiguousAliases.
  rewrite (live_nil doc (λ id td, match td with ModelDef m => wire_loop Quote id ∅ (Model_Properties m) | _ => [] end)).
  rewrite (live_nil doc (λ id td, match td with ModelDef m => ambiguousAliases Quote id (Model_Properties m) | _ => [] end)). split.
  - intros [Hw Ha] id m E. apply (names_apart_nil id). split; [exact (Hw id _ E eq_refl)|exact (Ha id _ E eq_refl)].
  - intros H. split; intros id [p|s|m|u|e|l|mp|t|li|x|a|k] E _; try done; apply (names_apart_nil id), (H id m E).
Qed.
Lemma checkDuplicateMemberIDs_nil : checkDuplicateMemberIDs Quote doc = [] ↔
  ∀ id e, Document_Types doc !! id = Some (EnumDef e) → NoDup (filled (EnumMember_ID <$> Enum_Members e)).
Proof.
  unfold checkDuplicateMemberIDs. rewrite (live_nil doc (λ id td, match td with EnumDef e => member_loop Quote id 0 ∅ (Enum_Members e) | _ => [] end)). split.
  - intros H id e E. specialize (H id _ E eq_refl). by rewrite member_loop_nil, fresh_in_empty in H.
  - intros H id [p|s|m|u|e|l|mp|t|li|x|a|k] E _; try done. rewrite member_loop_nil, fresh_in_empty. by apply (H id).
Qed.

(** ** Parameters *)

Section Binding.
Context (refs : IDReferences) (names : gmap gostring gostring) (where_ : gostring).
Definition binds (pb : HTTPParamBinding) : gostring * gostring := (HTTPParamBinding_Param pb, HTTPParamBinding_Location pb).
(** A binding the check counts at its location. *)
Definition counted (pb : HTTPParamBinding) : Prop := is_Some (names !! HTTPParamBinding_Param pb) ∧ HTTPParamBinding_Location pb ≠ HTTPLocationHost.
#[global] Instance counted_dec pb : Decision (counted pb). Proof. unfold counted. apply _. Defined.
Definition undeclared_left (pbs : list HTTPParamBinding) : Prop :=
  ∀ pb, pb ∈ pbs → names !! HTTPParamBinding_Param pb = None → danglingWalkSkips refs (HTTPParamBinding_Param pb) = false.

Lemma binding_loop_nil bound perLocation pbs : (∀ k n, perLocation !! k = Some n → n = 1) →
  (binding_loop Quote refs names where_ bound perLocation pbs).2 = [] ↔
  undeclared_left pbs ∧ NoDup (binds <$> filter counted pbs) ∧ ∀ pb, pb ∈ pbs → counted pb → perLocation !! binds pb = None.
Proof.
  revert bound perLocation. induction pbs as [|pb pbs IH]; intros bound perLocation Hone; cbn [binding_loop].
  { split; [|done]. intros _. split_and!; [by intros ? ?%elem_of_nil|by apply NoDup_nil_2|by intros ? ?%elem_of_nil]. }
  unfold undeclared_left in *. rewrite filter_cons. destruct (names !! HTTPParamBinding_Param pb) as [name|] eqn:En.
  - case_bool_decide as Hhost.
    + rewrite decide_False by (by intros [_ ?]). rewrite IH by done. setoid_rewrite elem_of_cons. split.
      * intros (H1 & H2 & H3). split_and!; [|done|]; intros pb' [->|Hin]; [congruence|by apply H1|by intros [_ ?]|by apply H3].
      * intros (H1 & H2 & H3). split_and!; [|done|]; intros pb' Hin; [apply H1|apply H3]; by right.
    + assert (Hc : counted pb) by by split. rewrite decide_True by done. cbn [fmap list_fmap]. rewrite NoDup_cons.
      fold (binds pb). destruct (perLocation !! binds pb) as [n|] eqn:Ep.
      * rewrite (Hone _ _ Ep). cbn [default]. destruct (binding_loop _ _ _ _ _ _ _) as [out ds]. cbn [snd]. split; [done|].
        intros (_ & _ & H3). specialize (H3 pb ltac:(by left) Hc). congruence.
      * cbn [default]. specialize (IH ({[HTTPParamBinding_Param pb]} ∪ bound) (<[binds pb := 1]> perLocation)).
        destruct (binding_loop _ _ _ _ _ _ _) as [out ds]. cbn [snd] in *. change (1 =? 2) with false. cbv iota. cbn [app]. rewrite IH; clear IH.
        2: { intros k n. destruct (decide (k = binds pb)) as [->|?]; [rewrite lookup_insert_eq; congruence|rewrite lookup_insert_ne by done; apply Hone]. }
        split.
        -- intros (H1 & H2 & H3). split_and!; [| |done|].
           ++ intros pb' [->|Hin]%elem_of_cons; [congruence|by apply H1].
           ++ intros (pb' & E & [Hc' Hin]%list_elem_of_filter)%list_elem_of_fmap. specialize (H3 pb' Hin Hc'). rewrite <- E, lookup_insert_eq in H3. done.
           ++ intros pb' [->|Hin]%elem_of_cons Hc'; [done|]. specialize (H3 pb' Hin Hc'). by apply lookup_insert_None in H3 as [? _].
        -- intros (H1 & [H2 H2'] & H3). split_and!; [intros pb' Hin; apply H1; by right|done|]. intros pb' Hin Hc'. rewrite lookup_insert_ne; [apply H3; [by right|done]|].
           intros E. apply H2. apply list_elem_of_fmap. exists pb'. split; [done|]. by apply list_elem_of_filter.
  - rewrite decide_False by (intros [[? ?] _]; congruence). specialize (IH bound perLocation Hone). destruct (binding_loop _ _ _ _ _ _ _) as [out ds]. cbn [snd] in *.
    rewrite app_nil_iff, report_when_nil, IH. split.
    + intros (H0 & H1 & H2 & H3). split_and!; [|done|]; intros pb' [->|Hin]%elem_of_cons; [done|by apply H1|by intros [[? ?] _]; congruence|by apply H3].
    + intros (H1 & H2 & H3). split_and!; [apply H1; [by left|done]|intros pb' Hin; apply H1; by right|done|intros pb' Hin; apply H3; by right].
Qed.

Lemma binding_loop_bound bound perLocation pbs id :
  id ∈ (binding_loop Quote refs names where_ bound perLocation pbs).1 ↔ id ∈ bound ∨ (is_Some (names !! id) ∧ id ∈ HTTPParamBinding_Param <$> pbs).
Proof.
  revert bound perLocation. induction pbs as [|pb pbs IH]; intros bound perLocation; cbn [binding_loop fmap list_fmap]; [rewrite elem_of_nil; cbn [fst]; tauto|].
  rewrite elem_of_cons. destruct (names !! HTTPParamBinding_Param pb) as [name|] eqn:En.
  - assert (Hs : is_Some (names !! HTTPParamBinding_Param pb)) by by rewrite En.
    assert (Hset : id ∈ {[HTTPParamBinding_Param pb]} ∪ bound ↔ id = HTTPParamBinding_Param pb ∨ id ∈ bound) by set_solver.
    case_bool_decide; [rewrite IH, Hset|].
    + split; [intros [[->|?]|[? ?]]; auto|intros [?|[? [?|?]]]; auto].
    + specialize (IH ({[HTTPParamBinding_Param pb]} ∪ bound) (<[(HTTPParamBinding_Param pb, HTTPParamBinding_Location pb):=S (default 0 (perLocation !! (HTTPParamBinding_Param pb, HTTPParamBinding_Location pb)))]> perLocation)).
      destruct (binding_loop _ _ _ _ _ _ _) as [out ds]. cbn [fst] in *. rewrite IH, Hset. split; [intros [[->|?]|[? ?]]; auto|intros [?|[? [?|?]]]; auto].
  - specialize (IH bound perLocation). destruct (binding_loop _ _ _ _ _ _ _) as [out ds]. cbn [fst] in *. rewrite IH. split; [tauto|].
    intros [?|[? [->|?]]]; [by left| |by right]. rewrite En in *. by destruct (is_Some_None (A:=gostring)).
Qed.
End Binding.

Definition declares_param op (id : ParamID) : Prop := id ∈ Parameter_ID <$> Operation_Params op.
#[global] Instance declares_param_dec op id : Decision (declares_param op id). Proof. unfold declares_param. apply _. Defined.
Lemma param_names_lookup op id : is_Some (param_names op !! id) ↔ declares_param op id.
Proof. unfold param_names, declares_param. rewrite (insert_all_lookup ir_desc), lookup_empty. split; [by intros [[? ?]|?]|by right]. Qed.

(** What a binding of an operation over HTTP keeps to: it binds parameters of
    the operation, or ids the dangling walk reports, none twice at one location
    but the host, and every parameter somewhere. *)
Record binding_rule (refs : IDReferences) op (b : HTTPBinding) : Prop := {
  br_declared pb : pb ∈ HTTPBinding_ParamBindings b → declares_param op (HTTPParamBinding_Param pb) ∨ danglingWalkSkips refs (HTTPParamBinding_Param pb) = false;
  br_once : NoDup (binds <$> filter (λ pb, declares_param op (HTTPParamBinding_Param pb) ∧ HTTPParamBinding_Location pb ≠ HTTPLocationHost) (HTTPBinding_ParamBindings b));
  br_bound id : declares_param op id → id ∈ HTTPParamBinding_Param <$> HTTPBinding_ParamBindings b
}.
Lemma checkHTTPParamBinding_nil refs op i b : checkHTTPParamBinding Quote refs op i b = [] ↔ binding_rule refs op b.
Proof.
  unfold checkHTTPParamBinding. pose proof (binding_loop_nil refs (param_names op) (bindingWhere (Operation_ID op) i) ∅ ∅ (HTTPBinding_ParamBindings b) (λ k n, ltac:(by rewrite lookup_empty))) as Hds.
  pose proof (λ id, binding_loop_bound refs (param_names op) (bindingWhere (Operation_ID op) i) ∅ ∅ (HTTPBinding_ParamBindings b) id) as Hout.
  destruct (binding_loop _ _ _ _ _ _ _) as [out ds]. cbn [fst snd] in *. rewrite app_nil_iff, Hds. clear Hds ds.
  assert (Hf : filter (counted (param_names op)) (HTTPBinding_ParamBindings b) =
    filter (λ pb, declares_param op (HTTPParamBinding_Param pb) ∧ HTTPParamBinding_Location pb ≠ HTTPLocationHost) (HTTPBinding_ParamBindings b)).
  { apply filter_iff_in. intros pb _. unfold counted. by rewrite param_names_lookup. }
  rewrite Hf. unfold unboundParamWarnings. rewrite bind_nil_iff. setoid_rewrite report_unless_nil. setoid_rewrite bool_decide_eq_true. setoid_rewrite Hout.
  setoid_rewrite param_names_lookup. unfold undeclared_left. setoid_rewrite eq_None_not_Some. setoid_rewrite param_names_lookup. split.
  - intros ((H1 & H2 & H3) & H4). constructor; [|done|].
    + intros pb Hin. destruct (decide (HTTPParamBinding_Param pb ∈ Parameter_ID <$> Operation_Params op)); [by left|right; by apply H1].
    + intros id Hid. assert (Hd := Hid). apply list_elem_of_fmap in Hd as (p & -> & Hp). destruct (H4 p Hp) as [?|[_ ?]]; [set_solver|done].
  - intros [H1 H2 H3]. split_and!; [|done|done|].
    + intros pb Hin Hn. by destruct (H1 pb Hin).
    + intros p Hp. right. assert (Hd : declares_param op (Parameter_ID p)) by (apply list_elem_of_fmap; by exists p). split; [done|by apply H3].
Qed.

(** A parameter named outside bindings is the operation's own, or an id the
    dangling walk reports. *)
Definition param_rule (refs : IDReferences) op : Prop :=
  (∀ b, b ∈ OpBindings_HTTP (Operation_Bindings op) → binding_rule refs op b) ∧
  ∀ ref, ref ∈ appendParamRefs op → declares_param op ref.1 ∨ danglingWalkSkips refs ref.1 = false.
Lemma checkParams_nil refs : checkParams Quote doc refs = [] ↔ ∀ op, op_reached doc op → param_rule refs op.
Proof.
  unfold checkParams, checkParamBindings, checkParamReferences, param_rule. rewrite app_nil_iff, !per_operation_nil.
  assert (Hb : ∀ op, concat (imap (checkHTTPParamBinding Quote refs op) (OpBindings_HTTP (Operation_Bindings op))) = [] ↔
    ∀ b, b ∈ OpBindings_HTTP (Operation_Bindings op) → binding_rule refs op b).
  { intros op. rewrite concat_imap_nil. setoid_rewrite list_elem_of_lookup. setoid_rewrite checkHTTPParamBinding_nil.
    split; [intros H b [i Hi]; by eapply H|intros H i b Hi; apply H; by exists i]. }
  assert (Hr : ∀ op, param_references Quote refs op = [] ↔ ∀ ref, ref ∈ appendParamRefs op → declares_param op ref.1 ∨ danglingWalkSkips refs ref.1 = false).
  { intros op. unfold param_references, declares_param. rewrite bind_nil_iff. setoid_rewrite report_unless_nil. setoid_rewrite orb_true_iff.
    setoid_rewrite bool_decide_eq_true. by setoid_rewrite negb_true_iff. }
  setoid_rewrite Hb. setoid_rewrite Hr. naive_solver.
Qed.
(** ** Checks of one operation *)

Definition idempotency_rule op : Prop :=
  Idempotency_TokenParam (Operation_Idempotency op) ≠ [] ↔ Idempotency_Kind (Operation_Idempotency op) = IdempotencyToken.
Lemma idempotency_nil op : idempotency_of Quote op = [] ↔ idempotency_rule op.
Proof.
  unfold idempotency_of, idempotency_rule. rewrite report_unless_nil, eqb_true_iff.
  destruct (is_nil (Idempotency_TokenParam _)) eqn:E; [apply is_nil_true in E as ->|apply is_nil_false in E]; case_bool_decide; cbn; naive_solver.
Qed.

Definition carried (channel : ChannelID) (used : list MessageID) : Prop :=
  ∀ ch id, Document_Channels doc !! channel = Some ch → id ∈ used → id ∈ Channel_Messages ch.
(** Every message an operation sends or answers with is carried by the channel
    it names, where the document has that channel. *)
Definition message_rule op : Prop :=
  ∀ b, OpBindings_Message (Operation_Bindings op) = Some b →
    carried (MessageBinding_Channel b) (MessageBinding_Messages b) ∧
    ∀ r channel, MessageBinding_Reply b = Some r → Reply_Channel r = Some channel → carried channel (Reply_Messages r).
Lemma uncarried_nil channel used (within : OpID) field : appendUncarriedMessageDiags Quote doc channel used within field = [] ↔ carried channel used.
Proof.
  unfold appendUncarriedMessageDiags, carried. destruct (Document_Channels doc !! channel) as [ch|]; [|split; [by intros _ ? ? ?|done]].
  rewrite concat_imap_nil. setoid_rewrite report_unless_nil. setoid_rewrite bool_decide_eq_true. split.
  - intros H c id [= <-] [i Hi]%list_elem_of_lookup. by apply (H i).
  - intros H i m Hi. apply H; [done|]. by eapply list_elem_of_lookup_2.
Qed.
Lemma checkBoundMessages_nil op : checkBoundMessages Quote doc op = [] ↔ message_rule op.
Proof.
  unfold checkBoundMessages, message_rule. apply opt_nil. intros b. rewrite app_nil_iff, uncarried_nil. f_equiv.
  destruct (MessageBinding_Reply b) as [r|]; [|split; [done|done]]. destruct (Reply_Channel r) as [c|] eqn:E.
  - rewrite uncarried_nil. split; [intros H r' c' [= ->] E'; by simplify_eq|intros H; by apply H].
  - split; [|done]. intros _ r' c' [= ->] E'. by simplify_eq.
Qed.

Definition oneway_rule op : Prop := Operation_OneWay op = true → Operation_Responses op = [] ∧ Operation_Default op = None.
Lemma oneway_nil op : oneway op = [] ↔ oneway_rule op.
Proof.
  unfold oneway, oneway_rule. rewrite report_when_nil, andb_false_iff, Nat.ltb_ge.
  destruct (Operation_OneWay op), (Operation_Responses op), (Operation_Default op); cbn; naive_solver lia.
Qed.

(** A default response answers the catch-all, and nothing else. *)
Definition default_rule op : Prop :=
  ∀ r, Operation_Default op = Some r → ∃ codes, ResponseConditions_StatusCodes (Response_Conditions r) = [codes] ∧ StatusRange_From codes = 0%Z ∧ StatusRange_To codes = 0%Z.
Lemma default_response_nil op : default_response op = [] ↔ default_rule op.
Proof.
  unfold default_response, default_rule. apply opt_nil. intros r. rewrite report_unless_nil. unfold answersCatchAllOnly, zero_range.
  destruct (ResponseConditions_StatusCodes _) as [|c [|c' cs]]; [split; [done|by intros (? & ? & _)]| |split; [done|by intros (? & ? & _)]].
  rewrite andb_true_iff, !Z.eqb_eq. split; [intros [? ?]; by exists c|by intros (? & [= <-] & ?)].
Qed.
End Scopes.
