(* ===== verification/PassRefs.v ===== *)
(** * PassRefs: the references the validation pass reads

    The one walk of the document, whatever its context: what it gathers, what
    dangles of it, and in what order that is reported. *)
From S2P Require Import Prelude GoLib Utf8 Decimal Value IR Domain Ids Findings Composition Naming Text Violations RegistryRules RegistrySound Traverse.
From S2P Require Import TypeEdges PassRules Walk WalkAlone WalkTrace WalkAsks References Reflect WalkRules Verify WalkSound VerifySound Validate.
From S2P Require Import PassSound.

(** ** PassReach: the types an operation of GraphQL leads to

    The search the field-argument rule makes finds exactly the types reachable
    from the ids its operations hold, and always ends. *)

(** ** What a walk of an operation gathers *)

Definition not_doc_ref (v : goval) : bool := negb (is_struct docRefType v).
Definition op_trace (op : Operation) : shown_at :=
  let '(root, h) := reflect_Operation op emptyHeap in trace (memory_of h) (λ _, true) Sprint [] not_doc_ref (Some root).
Definition type_id_of (v : goval) : option TypeID :=
  match v with Text t id => if bool_decide (t = typeIDType) && negb (is_nil id) then Some id else None | _ => None end.
Definition type_ids_in (tr : shown_at) : list TypeID := omap (λ e, type_id_of e.1) tr.

Lemma type_ids_read : reads_on not_doc_ref [Some type_ids].
Proof.
  intros [|[|i]] V HV; cbn in HV; [|done..]. injection HV as <-. split; [|done]. intros s v p. cbn [Visit type_ids]. unfold not_doc_ref.
  destruct (is_struct docRefType v) eqn:E; [done|]. by destruct v.
Qed.
Lemma type_ids_visit dst v p : (Visit type_ids dst v p).1 = dst ++ match type_id_of v with Some id => [id] | None => [] end.
Proof.
  unfold type_ids, type_id_of. cbn [Visit]. destruct v as [t|t b0|t z|t s|t fs|t [v|]|t [q|]|t bytes es|t bytes q n|t [q|]]; cbn [is_struct];
    try (by rewrite app_nil_r); [destruct (_ && _)|destruct (bool_decide _)]; by rewrite ?app_nil_r.
Qed.
Lemma type_ids_played dst tr : foldl (play [Some type_ids]) dst tr = dst ++ type_ids_in tr.
Proof.
  revert dst. induction tr as [|[v p] tr IH]; intros dst; [by rewrite app_nil_r|]. cbn [foldl]. rewrite IH. unfold play. cbn [foldl fst snd]. rewrite type_ids_visit.
  unfold type_ids_in. cbn [omap list_omap fst]. destruct (type_id_of v); rewrite <- app_assoc; done.
Qed.
Lemma appendTypeIDs_spec dst op : appendTypeIDs dst op = dst ++ type_ids_in (op_trace op).
Proof.
  unfold appendTypeIDs, op_trace. destruct (reflect_Operation op emptyHeap) as [root h]. unfold WalkValues.
  destruct (walkValues (memory_of h) (λ _, true) Sprint None (Some root) [] [Some type_ids] dst) as [[s cut] stop] eqn:E. cbn [fst].
  assert (stop = None) as -> by (pose proof (walkValues_ends (memory_of h) (λ _, true) Sprint [] None (Some root) [Some type_ids] dst (λ _, eq_refl)) as Hs; by rewrite E in Hs).
  destruct (walkValues_plays (memory_of h) (λ _, true) Sprint [] not_doc_ref [Some type_ids] None (Some root) dst s cut type_ids_read (λ E, ltac:(discriminate E))
    (ltac:(unfold maxSharedVisitors; cbn; lia)) (λ E, ltac:(discriminate E)) E) as [-> _].
  apply type_ids_played.
Qed.

(** ** The search *)

Section Search.
Context (doc : Document).
Definition leads (a b : TypeID) : Prop := b ∈ TypeEdges (type_at doc a).
Definition edges_weight (id : TypeID) : nat := length (TypeEdges (type_at doc id)).
Definition registered : list TypeID := (map_to_list (Document_Types doc)).*1.
Definition reached_from (queue : list TypeID) (x : TypeID) : Prop := ∃ q, q ∈ queue ∧ rtc leads q x.

Lemma registered_nodup : NoDup registered.
Proof. apply NoDup_fst_map_to_list. Qed.
Lemma unregistered_weight id : id ∉ registered → edges_weight id = 0.
Proof.
  intros Hn. unfold edges_weight, type_at. destruct (Document_Types doc !! id) as [td|] eqn:E; [|done]. exfalso. apply Hn. apply list_elem_of_fmap.
  exists (id, td). split; [done|]. by apply elem_of_map_to_list.
Qed.
Lemma all_edges_sum : all_edges doc = sum_list (edges_weight <$> registered).
Proof.
  unfold all_edges, registered. rewrite <- list_fmap_compose. f_equal. apply list_fmap_ext. intros i [id td] Hi. cbn. unfold edges_weight, type_at.
  apply list_elem_of_lookup_2, elem_of_map_to_list in Hi. by rewrite Hi.
Qed.
Lemma unseen_expand seen id : id ∉ seen → unseen_sum edges_weight registered ({[id]} ∪ seen) + edges_weight id ≤ unseen_sum edges_weight registered seen.
Proof.
  intros Hs. destruct (decide (id ∈ registered)) as [Hr|Hr].
  - by rewrite (unseen_sum_step edges_weight registered seen id registered_nodup Hr Hs).
  - rewrite (unregistered_weight id Hr), Nat.add_0_r. unfold unseen_sum. apply Nat.eq_le_incl. do 2 f_equal. apply filter_iff_in. intros y Hy.
    assert (y ≠ id) by congruence. set_solver.
Qed.

(** Ids expanded already lead to ids expanded or queued. *)
Definition closed (seen : gset gostring) (queue : list TypeID) : Prop := ∀ a b, a ∈ seen → leads a b → b ∈ seen ∨ b ∈ queue.
Lemma closed_from seen queue a x : closed seen queue → a ∈ seen → rtc leads a x → x ∈ seen ∨ reached_from queue x.
Proof.
  intros Hc Ha Hax. induction Hax as [a|a y x Hy Hx IH] in Ha |- *; [by left|]. destruct (Hc _ _ Ha Hy) as [?|?]; [by apply IH|right; by exists y].
Qed.

Lemma reach_loop_exact fuel seen queue : closed seen queue → length queue + unseen_sum edges_weight registered seen ≤ fuel →
  (reach_loop doc fuel seen queue).2 = [] ∧ ∀ x, x ∈ (reach_loop doc fuel seen queue).1 ↔ x ∈ seen ∨ reached_from queue x.
Proof.
  revert seen queue. induction fuel as [|fuel IH]; intros seen queue Hc Hf.
  all: destruct (rev queue) as [|t rest] eqn:Er.
  1, 3: assert (queue = []) as -> by (rewrite <- (rev_involutive queue), Er; done).
  1, 2: split; [done|]; intros x; split; [by left|]; intros [?|(q & ?%elem_of_nil & _)]; done.
  all: assert (Eq : queue = rev rest ++ [t]) by (by rewrite <- (rev_involutive queue), Er).
  { rewrite Eq, length_app in Hf. cbn in Hf. lia. }
  assert (Hin : ∀ y, y ∈ queue ↔ y ∈ rev rest ∨ y = t) by (intros y; by rewrite Eq, elem_of_app, list_elem_of_singleton).
  rewrite Eq, length_app in Hf. cbn [length] in Hf. cbn [reach_loop]. rewrite Er. case_bool_decide as Hseen.
  - assert (Hc' : closed seen (rev rest)).
    { intros a b Ha Hb. destruct (Hc a b Ha Hb) as [?|[?| ->]%Hin]; [by left|by right|by left]. }
    destruct (IH seen (rev rest) Hc') as [I1 I2]; [lia|]. split; [done|]. intros x. rewrite I2. split.
    + intros [?|(q & Hq & ?)]; [by left|right]. exists q. split; [apply Hin; by left|done].
    + intros [?|(q & [?| ->]%Hin & Hq)]; [by left|right; by exists q|]. by eapply closed_from.
  - destruct (IH ({[t]} ∪ seen) (rev rest ++ TypeEdges (type_at doc t))) as [I1 I2].
    { intros a b [->%elem_of_singleton|Ha]%elem_of_union Hb; [right; apply elem_of_app; by right|].
      destruct (Hc a b Ha Hb) as [?|[?| ->]%Hin]; [left; set_solver|right; apply elem_of_app; by left|left; set_solver]. }
    { pose proof (unseen_expand seen t Hseen) as He. unfold edges_weight at 2 in He. rewrite length_app. lia. }
    split; [done|]. intros x. rewrite I2. split.
    + intros [[->%elem_of_singleton|?]%elem_of_union|(q & [Hq|Hq]%elem_of_app & ?)]; [|by left| |].
      * right. exists t. split; [apply Hin; by right|apply rtc_refl].
      * right. exists q. split; [apply Hin; by left|done].
      * right. exists t. split; [apply Hin; by right|by eapply rtc_l].
    + intros [?|(q & [Hq| ->]%Hin & Hqx)]; [left; set_solver|right; exists q; split; [apply elem_of_app; by left|done]|].
      destruct (rtc_inv _ _ Hqx) as [->|(y & Hy & Hyx)]; [left; set_solver|]. right. exists y. split; [apply elem_of_app; by right|done].
Qed.

Lemma reach_loop_ends queue : (reach_loop doc (length queue + all_edges doc) ∅ queue).2 = [].
Proof. apply reach_loop_exact; [by intros ? ? ?%not_elem_of_empty|by rewrite unseen_sum_start, all_edges_sum]. Qed.

(** ** Operations of GraphQL *)

(** The types operations of GraphQL lead to: those whose ids one holds outside
    prose, and those they refer to. *)
Definition graphql_reaches (x : TypeID) : Prop :=
  ∃ op b root, op_reached doc op ∧ OpBindings_GraphQL (Operation_Bindings op) = Some b ∧ root ∈ type_ids_in (op_trace op) ∧ rtc leads root x.

Definition graphql_roots (op : Operation) : list TypeID :=
  match OpBindings_GraphQL (Operation_Bindings op) with Some _ => type_ids_in (op_trace op) | None => [] end.

Lemma graphqlReachableTypes_exact : (∀ x, x ∈ (graphqlReachableTypes doc).1 ↔ graphql_reaches x) ∧
  ((graphqlReachableTypes doc).2 = false ↔ ∀ svc n g, svc ∈ Document_Services doc → group_at (Service_Groups svc) 0 n g → n ≤ MaxGroupDepth).
Proof.
  unfold graphqlReachableTypes. set (fn := λ op queue, match OpBindings_GraphQL (Operation_Bindings op) with Some _ => appendTypeIDs queue op | None => queue end).
  assert (Hfn : ∀ op queue, fn op queue = queue ++ graphql_roots op).
  { intros op queue. unfold fn, graphql_roots. destruct (OpBindings_GraphQL _); [apply appendTypeIDs_spec|by rewrite app_nil_r]. }
  assert (Hq : ∀ x, x ∈ (ForEachOperation fn (Some doc) []).1 ↔ ∃ op, op_reached doc op ∧ x ∈ graphql_roots op).
  { intros x. unfold ForEachOperation. rewrite (ForEachGroup_adds _ (λ g, OperationGroup_Operations g ≫= graphql_roots)).
    - unfold op_reached. setoid_rewrite list_elem_of_bind. split.
      + intros (g & Hg & op & Hx & Hop). exists op. split; [by exists g|done].
      + intros (op & (g & Hg & Hop) & Hx). exists g. split; [done|]. by exists op.
    - intros g l. revert l. induction (OperationGroup_Operations g) as [|op ops IH]; intros l; cbn; [by rewrite app_nil_r|]. by rewrite Hfn, IH, <- app_assoc. }
  pose proof (ForEachGroup_cut (λ g st, foldl (λ st op, fn op st) st (OperationGroup_Operations g)) doc []) as Hcut. fold (ForEachOperation fn (Some doc) []) in Hcut.
  destruct (ForEachOperation fn (Some doc) []) as [queue cut]. cbn [fst snd] in *. split; [|done]. intros x.
  destruct (reach_loop_exact (length queue + all_edges doc) ∅ queue) as [_ ->]; [by intros ? ? ?%not_elem_of_empty|by rewrite unseen_sum_start, all_edges_sum|].
  unfold reached_from, graphql_reaches, graphql_roots in *. split.
  - intros [?%not_elem_of_empty|(q & (op & Hop & Hx)%Hq & Hr)]; [done|]. destruct (OpBindings_GraphQL _) as [b|] eqn:E; [|by apply elem_of_nil in Hx]. by exists op, b, q.
  - intros (op & b & root & Hop & E & Hx & Hr). right. exists root. split; [|done]. apply Hq. exists op. split; [done|]. by rewrite E.
Qed.

(** Field arguments are declared by models of GraphQL alone. *)
Definition args_rule : Prop :=
  ∀ id m p, Document_Types doc !! id = Some (ModelDef m) → p ∈ Model_Properties m → Property_Args p ≠ [] → graphql_reaches id.
Lemma checkArgsOutsideGraphQL_nil : (∀ svc n g, svc ∈ Document_Services doc → group_at (Service_Groups svc) 0 n g → n ≤ MaxGroupDepth) →
  checkArgsOutsideGraphQL doc = [] ↔ args_rule.
Proof.
  intros Hd. destruct graphqlReachableTypes_exact as [Hx Hcut]. unfold checkArgsOutsideGraphQL. destruct (graphqlReachableTypes doc) as [reachable cut]. cbn [fst snd] in *.
  rewrite (proj2 Hcut Hd). rewrite (live_nil doc (λ id td, match td with ModelDef m => if bool_decide (id ∈ reachable) then [] else concat (imap (λ i p,
          if is_nil (Property_Args p) then []
          else [diag SeverityError (go "pass/args-outside-graphql")
            (go "property " ++ id ++ go "/properties/" ++ Itoa i ++ go " declares field arguments outside a GraphQL binding") id]) (Model_Properties m)) | _ => [] end)).
  unfold args_rule. split.
  - intros H id m p E [i Hi]%list_elem_of_lookup Ha. apply Hx. specialize (H id _ E eq_refl). cbv beta iota in H. case_bool_decide; [done|]. exfalso.
    rewrite concat_imap_nil in H. specialize (H i p Hi). cbv beta in H. apply is_nil_false in Ha. by rewrite Ha in H.
  - intros H id [p|s|m|u|e|l|mp|t|li|x|a|k] E _; try done. case_bool_decide as Hr; [done|]. rewrite concat_imap_nil. intros i p Hi. destruct (is_nil _) eqn:Ea; [done|].
    exfalso. apply Hr, Hx. apply (H id m p E); [by eapply list_elem_of_lookup_2|by apply is_nil_false].
Qed.
End Search.

#[local] Opaque traverse trace idClasses ir_table.

(** ** Sorting by location *)

Lemma insert_site_perm s ss : insert_site s ss ≡ₚ s :: ss.
Proof. induction ss as [|t ss IH]; cbn [insert_site]; [done|]. destruct (decide _); [done|]. rewrite IH. apply Permutation_swap. Qed.
Lemma byLocation_perm ss : byLocation ss ≡ₚ ss.
Proof. unfold byLocation. induction ss as [|s ss IH]; cbn [foldr]; [done|]. by rewrite insert_site_perm, IH. Qed.
Lemma path_le_total a b : ¬ path_le a b → path_le b a.
Proof. unfold path_le. intros H. destruct (total string_le (ref_Path a) (ref_Path b)); done. Qed.
Lemma insert_site_sorted s ss : Sorted path_le ss → Sorted path_le (insert_site s ss).
Proof.
  induction 1 as [|t ss Hs IH Hd]; cbn [insert_site]; [by repeat constructor|]. destruct (decide _) as [Hle|Hle]; [by repeat constructor|].
  constructor; [done|]. destruct Hd as [|u ss Hu]; cbn [insert_site]; [constructor; by apply path_le_total|]. destruct (decide _); constructor; [by apply path_le_total|done].
Qed.
Lemma byLocation_sorted ss : Sorted path_le (byLocation ss).
Proof. unfold byLocation. induction ss as [|s ss IH]; cbn [foldr]; [constructor|]. by apply insert_site_sorted. Qed.
Lemma byLocation_nil ss : byLocation ss = [] ↔ ss = [].
Proof. split; [|by intros ->]. intros E. apply Permutation_nil. by rewrite <- (byLocation_perm ss), E. Qed.

(** ** The property ids kept *)

Definition prop_id_of (e : goval * path) : option (gostring * path) :=
  match e.1 with
  | Text t id => if negb (bool_decide (t = propIDType)) || is_nil id || IsMapKey e.2 then None else Some (id, e.2)
  | _ => None
  end.
(** The ids of properties a walk was shown, but as keys of a map. *)
Definition prop_candidates (tr : shown_at) : list (gostring * path) := omap prop_id_of tr.
Fixpoint props_of (r : IDReferences) (ps : propIDSites) (tr : shown_at) : propIDSites :=
  match tr with
  | [] => ps
  | e :: tr => let r := visit_refs ir_desc r e.1 e.2 in props_of r (visit_props r ps e.1 e.2) tr
  end.

Lemma declares_more r tr class id : Declares r class id = true → Declares (refs_of ir_desc r tr) class id = true.
Proof. unfold Declares. rewrite !bool_decide_eq_true, (g_declared ir_desc tr r _ (refs_gather ir_desc tr r)). by left. Qed.

(** What is kept is what was undeclared when it was met; of the ids still
    undeclared at the end, that is all of them. *)
Lemma props_gather r ps tr : ∃ kept : list (gostring * path),
  sites (props_of r ps tr) = sites ps ++ kept.*1 ∧ site_paths (props_of r ps tr) = foldl Record_ (site_paths ps) kept.*2 ∧
  filter (λ k, Declares (refs_of ir_desc r tr) propIDType k.1 = false) kept = filter (λ k, Declares (refs_of ir_desc r tr) propIDType k.1 = false) (prop_candidates tr).
Proof.
  revert r ps. induction tr as [|e tr IH]; intros r ps; [exists []; by rewrite app_nil_r|]. cbn [props_of]. change (refs_of ir_desc r (e :: tr)) with (refs_of ir_desc (visit_refs ir_desc r e.1 e.2) tr).
  set (r1 := visit_refs ir_desc r e.1 e.2). destruct (IH r1 (visit_props r1 ps e.1 e.2)) as (kept & K1 & K2 & K3). clear IH.
  unfold prop_candidates. cbn [omap list_omap]. fold (prop_candidates tr). unfold prop_id_of, visit_props in *. destruct e as [v p]. cbn [fst snd] in *.
  destruct v as [t|t b0|t z|t id|t fs|t o|t o|t b l|t b q n|t o]; try (by exists kept). destruct (_ || _ || _); [by exists kept|].
  destruct (Declares r1 propIDType id) eqn:Ed.
  - exists kept. split_and!; [done|done|]. rewrite filter_cons_False; [done|]. cbn [fst]. by rewrite (declares_more r1 tr _ _ Ed).
  - exists ((id, p) :: kept). split_and!; [rewrite K1; cbn [sites]; by rewrite <- app_assoc|done|]. rewrite !filter_cons. cbn [fst]. by destruct (decide _); rewrite K3.
Qed.

Definition dangling_prop (k : gostring * path) : IDReference := mkIDReference propIDType k.1 (path_String (fields_of ir_desc) k.2).
Lemma zip_dangling r (kept : list (gostring * path)) :
  ('(id, p) ← zip kept.*1 kept.*2; if Declares r propIDType id then [] else [mkIDReference propIDType id (path_String (fields_of ir_desc) p)]) =
  dangling_prop <$> filter (λ k, Declares r propIDType k.1 = false) kept.
Proof.
  induction kept as [|[id p] kept IH]; [done|]. cbn [fmap list_fmap zip zip_with fst snd]. rewrite bind_cons, filter_cons, IH. cbn [fst].
  by destruct (Declares r propIDType id).
Qed.
Lemma dangling_props_zip ps r : dangling_props ps r = ('(id, p) ← zip (sites ps) (All (site_paths ps));
    if Declares r propIDType id then [] else [mkIDReference propIDType id (path_String (fields_of ir_desc) p)]).
Proof.
  unfold dangling_props. destruct (existsb _ _) eqn:E; [done|]. generalize (All (site_paths ps)). revert E. generalize (sites ps).
  induction l as [|s l IH]; intros E qs; [done|]. destruct qs as [|q qs]; [done|]. cbn [zip zip_with existsb] in *. apply orb_false_iff in E as [Es El].
  rewrite bind_cons. apply negb_false_iff in Es. rewrite Es. cbn. by apply IH.
Qed.
Lemma dangling_props_exact r tr : let r' := refs_of ir_desc r tr in
  dangling_props (props_of r (mkSites [] zeroPathLog) tr) r' = dangling_prop <$> filter (λ k, Declares r' propIDType k.1 = false) (prop_candidates tr).
Proof.
  cbv zeta. destruct (props_gather r (mkSites [] zeroPathLog) tr) as (kept & K1 & K2 & K3). rewrite dangling_props_zip, K1, K2. cbn [sites site_paths app].
  by rewrite All_kept, zip_dangling, K3.
Qed.

(** The references of what was shown that dangle. *)
Definition dangling_of (keyed : gmap gostring (gset gostring)) (is_labelled : rtype → bool) (cut : bool) (tr : shown_at) : list IDReference :=
  reported ir_desc <$> filter (λ k, dangling ir_desc keyed cut tr k.1) (candidates is_labelled tr).
Lemma dangling_gathered tr r r' cut : ids_sites r = [] → ids_paths r = zeroPathLog → (∀ class, declared_of r class = ∅) → gathered ir_desc tr r r' →
  Unresolved ir_desc r' cut = dangling_of (ids_keyed r) (labelled r) cut tr.
Proof. apply gathered_unresolved. Qed.

(** ** The walk *)

Section Reading.
Context (value : goval * memory).
#[local] Abbreviation root := value.1.
#[local] Abbreviation mem := value.2.
(** The values of the document in the order a walk shows them. *)
Definition shown : shown_at := trace mem (λ _, true) Sprint DocumentPath keeps_all (Some root).
Definition cut_short : bool := truncated (traced mem (λ _, true) Sprint DocumentPath keeps_all (Some root)).
Definition gathered_refs : IDReferences := refs_of ir_desc (references_start value) shown.
Definition gathered_props : propIDSites := props_of (references_start value) (mkSites [] zeroPathLog) shown.
Definition whole_reading : walked := mkWalked gathered_refs gathered_props cut_short.

Lemma visitors_read : reads_on keeps_all walk_visitors.
Proof. intros [|[|[|i]]] V HV; cbn in HV; try done; by injection HV as <-. Qed.
Lemma visitors_played r ps tr : foldl (play walk_visitors) (r, ps) tr = (refs_of ir_desc r tr, props_of r ps tr).
Proof. revert r ps. induction tr as [|e tr IH]; intros r ps; [done|]. cbn [foldl]. exact (IH (visit_refs ir_desc r e.1 e.2) (visit_props (visit_refs ir_desc r e.1 e.2) ps e.1 e.2)). Qed.

(** A walk that ends reads the same whatever its context. *)
Lemma walkDocument_reads ctx read : walkDocument ctx value = Ok read → read = whole_reading.
Proof.
  unfold walkDocument, WalkValuesContext. destruct (walkValues _ _ _ _ _ _ _ _) as [[s cut] [err|]] eqn:E; [done|]. intros [= <-].
  destruct (walkValues_plays mem (λ _, true) Sprint DocumentPath keeps_all walk_visitors (Some (asked_in_walk ctx)) (Some root) (walk_start value) s cut visitors_read
    (λ E, ltac:(discriminate E)) (ltac:(unfold maxSharedVisitors; cbn; lia)) (λ E, ltac:(discriminate E)) E) as [-> ->].
  change (walk_start value) with (references_start value, mkSites [] zeroPathLog). rewrite visitors_played. reflexivity.
Qed.
Lemma walkDocument_ends ctx : (∀ n, asked_in_walk ctx n = None) → walkDocument ctx value = Ok whole_reading.
Proof.
  intros Ha. destruct (walkDocument ctx value) as [read|err] eqn:E; [by rewrite (walkDocument_reads ctx read E)|]. exfalso. revert E. unfold walkDocument, WalkValuesContext.
  pose proof (walkValues_ends mem (λ _, true) Sprint DocumentPath (Some (asked_in_walk ctx)) (Some root) walk_visitors (walk_start value) Ha) as Hs.
  destruct (walkValues _ _ _ _ _ _ _ _) as [[s cut] stop]. cbn [snd] in Hs. by rewrite Hs.
Qed.
(** Its asks: one of each [askEvery] values shown. *)
Definition walk_asks : nat := asks_for (length shown).
(** A walk fails with the first error among the answers to them, and with nothing else. *)
Lemma walkDocument_exact ctx : walkDocument ctx value =
  match first_answer (asked_in_walk ctx) walk_asks with Some err => Err err | None => Ok whole_reading end.
Proof.
  pose proof (walkValues_stops mem (λ _, true) Sprint DocumentPath keeps_all walk_visitors (asked_in_walk ctx) root (walk_start value) visitors_read
    (λ E, ltac:(discriminate E)) (ltac:(unfold maxSharedVisitors; cbn; lia)) (λ E, ltac:(discriminate E))) as Hs. fold shown in Hs. fold walk_asks in Hs.
  pose proof (walkDocument_reads ctx) as Hr. revert Hr. unfold walkDocument, WalkValuesContext in *. rewrite <- Hs.
  destruct (walkValues _ _ _ _ _ _ _ _) as [[s cut] [err|]]; cbn [snd]; [done|]. intros Hr. f_equal. by apply Hr.
Qed.

Lemma shown_part v : cut_short = false → has shown v ↔ part value v.
Proof. intros Ht. rewrite <- read_through_all. apply (trace_shows mem (λ _, true) Sprint DocumentPath keeps_all root Ht). Qed.

(** ** What dangles *)

Context (Quote : gostring → gostring).

Lemma gathered_dangling : Unresolved ir_desc gathered_refs cut_short =
  dangling_of (ids_keyed (references_start value)) (labelled (references_start value)) cut_short shown.
Proof. unfold gathered_refs. generalize cut_short. generalize shown. intros tr cut. apply dangling_gathered; [done..|]. apply refs_gather. Qed.

Lemma checkDanglingRefs_nil : checkDanglingRefs Quote gathered_refs cut_short = [] ↔
  cut_short = false ∧ ∀ class id, part value (Text class id) → id ≠ [] → is_reference class → resolves_to value class id.
Proof.
  unfold checkDanglingRefs, walk_truncated. rewrite app_nil_iff, report_when_nil, fmap_nil_iff, byLocation_nil. destruct cut_short eqn:Ht; [split; by intros [? _]|].
  f_equiv. apply nothing_unresolved. intros v. by apply shown_part.
Qed.

(** No document keys a class by property ids, so a property's id is declared by
    a value or not at all. *)
Lemma props_unkeyed : ids_keyed (references_start value) !! propIDType = None.
Proof.
  apply eq_None_not_Some. unfold references_start, NewIDReferences. cbn [ids_keyed]. rewrite (insert_all_lookup ir_desc), lookup_empty. intros [[? ?]|Hin]; [done|].
  revert Hin. apply (bool_decide_eq_false (propIDType ∈ _)). vm_compute. reflexivity.
Qed.
Lemma gathered_declares id : id ≠ [] → Declares gathered_refs propIDType id = true ↔ declares_in ir_desc shown propIDType id.
Proof.
  intros Hid. unfold Declares, gathered_refs. rewrite bool_decide_eq_true, (g_declared ir_desc shown (references_start value) _ (refs_gather ir_desc shown _)).
  split; [intros [?|[_ ?]]; [set_solver|done]|]. intros Hd. right. split; [apply props_unkeyed|done].
Qed.
(** An id of a property shown, but as the key of a map. *)
Definition prop_reference (id : gostring) : Prop := ∃ p, (Text propIDType id, p) ∈ shown ∧ IsMapKey p = false ∧ id ≠ [].
Lemma prop_candidates_in id : (∃ p, (id, p) ∈ prop_candidates shown) ↔ prop_reference id.
Proof.
  unfold prop_candidates, prop_reference. setoid_rewrite list_elem_of_omap. split.
  - intros (p & [v q] & Hin & He). unfold prop_id_of in He. cbn [fst snd] in He. destruct v; try done. destruct (_ || _ || _) eqn:E in He; [done|]. injection He as -> ->.
    apply orb_false_iff in E as [[E1%negb_false_iff%bool_decide_eq_true E2%is_nil_false]%orb_false_iff E3]. subst. by exists p.
  - intros (p & Hin & Hk & Hid). exists p, (Text propIDType id, p). split; [done|]. unfold prop_id_of. cbn [fst snd]. rewrite bool_decide_true by done.
    apply is_nil_false in Hid. by rewrite Hid, Hk.
Qed.
Lemma checkPropIDRefs_nil : cut_short = false → checkPropIDRefs Quote gathered_props gathered_refs = [] ↔ ∀ id, prop_reference id → declared_in_document value propIDType id.
Proof.
  intros Ht. unfold checkPropIDRefs, gathered_props, gathered_refs. rewrite fmap_nil_iff, byLocation_nil, dangling_props_exact, fmap_nil_iff, filter_nil_iff. fold gathered_refs.
  assert (Hd : ∀ id, id ≠ [] → Declares gathered_refs propIDType id = true ↔ declared_in_document value propIDType id).
  { intros id Hid. rewrite gathered_declares by done. unfold declares_in, declared_in_document. setoid_rewrite (λ v, shown_part v Ht). tauto. }
  split.
  - intros H id Hp. assert (Hid : id ≠ []) by by destruct Hp as (p & _ & _ & ?). apply prop_candidates_in in Hp as [p Hp]. apply Hd; [done|].
    specialize (H (id, p) Hp). by apply not_false_iff_true in H.
  - intros H [id p] Hp. cbn [fst]. rewrite not_false_iff_true. assert (Hr : prop_reference id) by (apply prop_candidates_in; by exists p).
    apply Hd; [by destruct Hr as (q & _ & _ & ?)|by apply H].
Qed.
End Reading.
