(* ===== verification/PassClean.v ===== *)
(** * PassClean: what a clean validation says of a document

    The families together: the report of a run its context lets finish, and the
    rules a document keeps that it finds nothing in. *)
From S2P Require Import Prelude GoLib Utf8 Decimal Value IR Domain Ids Findings Naming Composition Traverse Walk WalkAlone WalkTrace WalkAsks.
From S2P Require Import References Text Violations RegistryRules RegistrySound Reflect WalkRules Verify WalkSound VerifySound TypeEdges PassRules.
From S2P Require Import Validate PassNames PassSound PassScopes PassRefs.

#[local] Opaque traverse trace idClasses ir_table.

(** ** Contexts *)

Definition never_done (ctx : context) : Prop := (∀ n, asked_in_walk ctx n = None) ∧ ∀ i, asked_after ctx i = None.

(** A run between families: all of the report, or the answer to the first ask
    that has one. *)
Lemma run_families_spec ctx i fs : match run_families ctx i fs with
  | Ok ds => ds = concat fs ∧ ∀ k, i ≤ k ≤ i + length fs → asked_after ctx k = None
  | Err err => ∃ k, i ≤ k ≤ i + length fs ∧ asked_after ctx k = Some err ∧ ∀ j, i ≤ j < k → asked_after ctx j = None
  end.
Proof.
  revert i. induction fs as [|f fs IH]; intros i; cbn [run_families]; destruct (asked_after ctx i) as [err|] eqn:E.
  - exists i. split_and!; [cbn; lia..|done|intros; lia].
  - split; [done|]. intros k Hk. assert (k = i) as -> by (cbn in Hk; lia). done.
  - exists i. split_and!; [lia..|done|intros; lia].
  - specialize (IH (S i)). destruct (run_families ctx (S i) fs) as [ds|err]; cbn.
    + destruct IH as [-> Ha]. split; [done|]. intros k Hk. destruct (decide (k = i)) as [->|]; [done|]. apply Ha. cbn in Hk. lia.
    + destruct IH as (k & Hk & Ek & Hj). exists k. split_and!; [lia|cbn; lia|done|]. intros j Hj'. destruct (decide (j = i)) as [->|]; [done|]. apply Hj. lia.
Qed.

Lemma run_families_exact ctx fs : run_families ctx 0 fs =
  match first_answer (asked_after ctx) (S (length fs)) with Some err => Err err | None => Ok (concat fs) end.
Proof.
  pose proof (run_families_spec ctx 0 fs) as H. destruct (run_families ctx 0 fs) as [ds|err].
  - destruct H as [-> Ha]. rewrite first_answer_none; [done|]. intros m Hm. apply Ha. lia.
  - destruct H as (k & Hk & E & Hj). rewrite (first_answer_some _ _ k err); [done|lia|done|]. intros m Hm. apply Hj. lia.
Qed.

Section Clean.
Context (Quote : gostring → gostring) (doc : Document) (value : goval * memory) (facts : Facts).

(** What a run reports when its context lets it finish. *)
Definition full_report : list Diagnostic := concat (families Quote doc (whole_reading value) facts).

(** A run asks as its walk goes, then before each family and after the last. *)
Definition family_asks : nat := 18.
Lemma Validate_exact ctx : Validate Quote ctx (Some doc) value facts =
  match first_answer (asked_in_walk ctx) (walk_asks value) with
  | Some err => Err err
  | None => match first_answer (asked_after ctx) family_asks with Some err => Err err | None => Ok full_report end
  end.
Proof.
  unfold Validate. rewrite walkDocument_exact. destruct (first_answer _ _); [done|]. cbn [mbind result_bind].
  by rewrite run_families_exact.
Qed.
Lemma Validate_finishes ctx : never_done ctx → Validate Quote ctx (Some doc) value facts = Ok full_report.
Proof.
  intros [Hw Ha]. rewrite Validate_exact. by rewrite !first_answer_none by done.
Qed.

(** ** The rules *)

Record document_valid : Prop := {
  dv_types id td : Document_Types doc !! id = Some td → IsNilTypeDef td = false;
  dv_whole : cut_short value = false;
  dv_references class id : part value (Text class id) → id ≠ [] → is_reference class → resolves_to value class id;
  dv_properties id : prop_reference value id → declared_in_document value propIDType id;
  dv_groups svc n g : svc ∈ Document_Services doc → group_at (Service_Groups svc) 0 n g → n ≤ MaxGroupDepth;
  dv_indices op : op_reached doc op → indices_bound op;
  dv_encodings site : site ∈ forEachPayload doc → encodings_known facts site;
  dv_required site : site ∈ forEachPayload doc → ps_request site = false → ps_required site = None;
  dv_discriminators id td : Document_Types doc !! id = Some td → IsNilTypeDef td = false → discriminator_rule doc facts td;
  dv_names id m : Document_Types doc !! id = Some (ModelDef m) → names_apart (Model_Properties m);
  dv_members id e : Document_Types doc !! id = Some (EnumDef e) → NoDup (filled (EnumMember_ID <$> Enum_Members e));
  dv_params op : op_reached doc op → param_rule (gathered_refs value) op;
  dv_idempotency op : op_reached doc op → PassScopes.idempotency_rule op;
  dv_messages op : op_reached doc op → message_rule doc op;
  dv_oneway op : op_reached doc op → oneway_rule op;
  dv_default op : op_reached doc op → default_rule op;
  dv_args : args_rule doc
}.

Lemma full_report_nil : full_report = [] ↔ document_valid.
Proof.
  unfold full_report, families. cbn [concat w_refs w_props w_truncated whole_reading]. rewrite !app_nil_iff.
  unfold checkResponseIndices, checkIdempotency, checkMessageBindings, checkOneWay, checkDefaultResponses.
  rewrite checkNilTypes_nil, checkDanglingRefs_nil, checkGroupWalkTruncated_nil, (operations_rule _ _ _ response_indices_nil),
    (operations_rule _ _ _ (idempotency_nil Quote)), (operations_rule _ _ _ (checkBoundMessages_nil Quote doc)), (operations_rule _ _ _ oneway_nil),
    (operations_rule _ _ _ default_response_nil), checkEncodingKeys_nil, checkPayloadRequired_nil,
    checkDiscriminators_nil, checkDuplicateMemberIDs_nil, checkParams_nil.
  split.
  - intros (R1 & [Ht R2] & R3 & R4 & R5 & R6 & R7 & R8 & R9 & R10 & R11 & R12 & R13 & R14 & R15 & R16 & R17 & _). constructor; try assumption.
    + exact (proj1 (checkPropIDRefs_nil value Quote Ht) R7).
    + exact (proj1 (model_names_nil Quote doc) (conj R9 R10)).
    + exact (proj1 (checkArgsOutsideGraphQL_nil doc R3) R17).
  - intros []. destruct (proj2 (model_names_nil Quote doc) dv_names0). split_and!; try assumption.
    + exact (proj2 (checkPropIDRefs_nil value Quote dv_whole0) dv_properties0).
    + exact (proj2 (checkArgsOutsideGraphQL_nil doc dv_groups0) dv_args0).
    + reflexivity.
Qed.
End Clean.

(** ** NamesSound: what the names pass reports

    A scope is read in one pass through chained buffers; what it reports is what
    comparing every two parties of it would. *)

(** ** Reading a scope *)

Implicit Types (ps : list party) (k : gostring).

(** The parties of a name, in scope order. *)
Definition sharers k ps : list nat := filter (λ i, party_key (party_at ps i) = k) (seq 0 (length ps)).
(** The first party of each name that has a second, in the order the second
    parties come. *)
Definition seconds ps (i : nat) : list nat :=
  let k := party_key (party_at ps i) in
  if is_nil k then [] else match sharers k (take i ps) with [first] => [first] | _ => [] end.
Definition firsts_shared ps : list nat := seq 0 (length ps) ≫= seconds ps.
Definition wordless ps : list nat := filter (λ i, words (party_at ps i) = [] ∧ source (party_at ps i) ≠ []) (seq 0 (length ps)).

Lemma party_key_nil p : party_key p = [] ↔ words p = [] ∧ source p = [].
Proof. unfold party_key. destruct (is_nil (words p)) eqn:E; [apply is_nil_true in E|apply is_nil_false in E]; naive_solver. Qed.
Lemma party_at_app ps p i : i < length ps → party_at (ps ++ [p]) i = party_at ps i.
Proof. intros Hi. unfold party_at. by rewrite lookup_app_l. Qed.
Lemma party_at_last ps p : party_at (ps ++ [p]) (length ps) = p.
Proof. unfold party_at. by rewrite list_lookup_middle. Qed.
Lemma seq_snoc n : seq 0 (S n) = seq 0 n ++ [n].
Proof. by rewrite seq_S. Qed.
Lemma filter_scope (P : party → Prop) `{∀ p, Decision (P p)} ps p :
  filter (λ i, P (party_at (ps ++ [p]) i)) (seq 0 (length (ps ++ [p]))) =
  filter (λ i, P (party_at ps i)) (seq 0 (length ps)) ++ if decide (P p) then [length ps] else [].
Proof.
  rewrite length_app, Nat.add_1_r, seq_snoc, filter_app. f_equal.
  - apply filter_iff_in. intros i Hi%elem_of_seq. by rewrite party_at_app by lia.
  - rewrite filter_cons, filter_nil. by rewrite party_at_last.
Qed.
Lemma sharers_snoc k ps p : sharers k (ps ++ [p]) = sharers k ps ++ if decide (party_key p = k) then [length ps] else [].
Proof. unfold sharers. exact (filter_scope (λ p, party_key p = k) ps p). Qed.
Lemma wordless_snoc ps p : wordless (ps ++ [p]) = wordless ps ++ if decide (words p = [] ∧ source p ≠ []) then [length ps] else [].
Proof. unfold wordless. exact (filter_scope (λ p, words p = [] ∧ source p ≠ []) ps p). Qed.
Lemma firsts_shared_snoc ps p : firsts_shared (ps ++ [p]) = firsts_shared ps ++
  if is_nil (party_key p) then [] else match sharers (party_key p) ps with [first] => [first] | _ => [] end.
Proof.
  unfold firsts_shared. rewrite length_app, Nat.add_1_r, seq_snoc, bind_app. f_equal.
  - apply bind_ext_in. intros i Hi%elem_of_seq. unfold seconds. by rewrite party_at_app, take_app_le by lia.
  - cbn. rewrite app_nil_r. unfold seconds. by rewrite party_at_last, take_app_le, take_ge by done.
Qed.

Lemma sharers_in k ps i : i ∈ sharers k ps ↔ party_key (party_at ps i) = k ∧ i < length ps.
Proof. unfold sharers. rewrite list_elem_of_filter, elem_of_seq. naive_solver lia. Qed.
Lemma sharers_nodup k ps : NoDup (sharers k ps).
Proof. apply NoDup_filter, NoDup_seq. Qed.

(** Each party of a list holds the next. *)
Definition linked (later : list (option nat)) (l : list nat) : Prop := ∀ j i, l !! j = Some i → later !! i = Some (l !! S j).

Record read_right ps (r : reading) : Prop := {
  rr_seen k c : seen r !! k = Some c ↔ k ≠ [] ∧ head (sharers k ps) = Some (chain_first c) ∧ last (sharers k ps) = Some (chain_last c);
  rr_length : length (later r) = length ps;
  rr_linked k : k ≠ [] → linked (later r) (sharers k ps);
  rr_shared : shared r = firsts_shared ps;
  rr_bare : bare r = wordless ps
}.

(** One more party. *)
Lemma linked_none later l n : linked later l → (∀ i, i ∈ l → i < length later) → linked (later ++ [n]) l.
Proof. intros Hl Hb j i Hi. rewrite lookup_app_l; [by apply Hl|]. apply Hb. by eapply list_elem_of_lookup_2. Qed.
Lemma linked_insert later l i n : linked later l → i ∉ l → linked (<[i := n]> later) l.
Proof.
  intros Hl Hn j x Hx. rewrite list_lookup_insert_ne; [by apply Hl|]. intros ->. apply Hn. by eapply list_elem_of_lookup_2.
Qed.
Lemma linked_snoc later l n : linked later l → NoDup l → (∀ i, i ∈ l → i < n) → length later = n →
  ∀ i, last l = Some i → linked (<[i := Some n]> (later ++ [None])) (l ++ [n]).
Proof.
  intros Hl Hnd Hb Hn i Hlast j x Hx. rewrite last_lookup in Hlast. assert (Hi : i < n) by (apply Hb; by eapply list_elem_of_lookup_2).
  destruct (decide (j < length l)) as [Hj|Hj].
  - rewrite lookup_app_l in Hx by done. destruct (decide (x = i)) as [->|Hne].
    + assert (j = pred (length l)) as -> by (by eapply NoDup_lookup). rewrite list_lookup_insert_eq by (rewrite length_app; cbn; lia).
      rewrite lookup_app_r by lia. by replace (S (pred (length l)) - length l) with 0 by lia.
    + rewrite list_lookup_insert_ne by done. assert (Hx' : x < n) by (apply Hb; by eapply list_elem_of_lookup_2).
      rewrite lookup_app_l by lia. rewrite (Hl j x Hx). f_equal. rewrite lookup_app_l; [done|].
      destruct (decide (S j = length l)); [|lia]. exfalso. apply Hne. replace (pred (length l)) with j in Hlast by lia. congruence.
  - apply lookup_lt_Some in Hx as Hlt. rewrite length_app in Hlt. cbn in Hlt. assert (j = length l) as -> by lia. rewrite list_lookup_middle in Hx by done. injection Hx as <-.
    rewrite list_lookup_insert_ne by lia. rewrite <- Hn. rewrite list_lookup_middle by done. f_equal. symmetry. apply lookup_ge_None. rewrite length_app. cbn. lia.
Qed.

Lemma read_from_snoc r i ps p : read_from r i (ps ++ [p]) = read_party (read_from r i ps) (i + length ps) p.
Proof. revert r i. induction ps as [|q ps IH]; intros r i; cbn [app read_from length]; [by rewrite Nat.add_0_r|]. rewrite IH. f_equal. lia. Qed.
Lemma read_snoc ps p : read (ps ++ [p]) = read_party (read ps) (length ps) p.
Proof. apply read_from_snoc. Qed.

Lemma sharers_one k ps (i j : nat) : head (sharers k ps) = Some i → last (sharers k ps) = Some j → (i =? j) = match sharers k ps with [_] => true | _ => false end.
Proof.
  pose proof (sharers_nodup k ps) as Hnd. destruct (sharers k ps) as [|a [|b l]]; [done| |]; cbn [head].
  - intros [= <-] [= <-]. apply Nat.eqb_refl.
  - intros [= <-] Hl. apply Nat.eqb_neq. intros ->. apply NoDup_cons in Hnd as [Hn _]. apply Hn. change (last (j :: b :: l)) with (last (b :: l)) in Hl.
    rewrite last_lookup in Hl. by eapply list_elem_of_lookup_2.
Qed.

Section Step.
Context (ps : list party) (r : reading) (p : party).
Hypothesis right : read_right ps r.

Lemma sharers_bound k i : i ∈ sharers k ps → i < length ps.
Proof. by intros [_ ?]%sharers_in. Qed.
Lemma sharers_other k : k ≠ party_key p → sharers k (ps ++ [p]) = sharers k ps.
Proof. intros Hne. rewrite sharers_snoc, decide_False by congruence. apply app_nil_r. Qed.
Lemma sharers_own : sharers (party_key p) (ps ++ [p]) = sharers (party_key p) ps ++ [length ps].
Proof. by rewrite sharers_snoc, decide_True. Qed.

Lemma later_none k : k ≠ [] → linked (later r ++ [None]) (sharers k ps).
Proof. intros Hk. apply linked_none; [by apply (rr_linked _ _ right)|]. intros i Hi. rewrite (rr_length _ _ right). by eapply sharers_bound. Qed.

(** A party with nothing to be compared by. *)
Lemma right_blank : party_key p = [] → read_right (ps ++ [p]) (read_party r (length ps) p).
Proof.
  intros Hk. assert (Hk' := Hk). apply party_key_nil in Hk' as [Hw Hs]. unfold read_party. rewrite Hw, Hs. cbn [is_nil andb]. constructor; cbn [seen later shared bare].
  - intros k c. rewrite (rr_seen _ _ right). split; intros (Hne & ?); [rewrite sharers_other by congruence|rewrite sharers_other in * by congruence]; done.
  - rewrite !length_app, (rr_length _ _ right). done.
  - intros k Hne. rewrite sharers_other by congruence. by apply later_none.
  - rewrite (rr_shared _ _ right), firsts_shared_snoc, Hk. cbn [is_nil]. by rewrite app_nil_r.
  - rewrite (rr_bare _ _ right), wordless_snoc, decide_False by tauto. by rewrite app_nil_r.
Qed.

Hypothesis filled_key : party_key p ≠ [].

Lemma bare_right : (if is_nil (words p) then bare r ++ [length ps] else bare r) = wordless (ps ++ [p]).
Proof.
  rewrite wordless_snoc, (rr_bare _ _ right). destruct (is_nil (words p)) eqn:Ew.
  - apply is_nil_true in Ew. rewrite decide_True; [done|]. split; [done|]. intros Es. by apply filled_key, party_key_nil.
  - apply is_nil_false in Ew. rewrite decide_False by tauto. by rewrite app_nil_r.
Qed.
Lemma shared_right : firsts_shared (ps ++ [p]) = firsts_shared ps ++ match sharers (party_key p) ps with [first] => [first] | _ => [] end.
Proof. rewrite firsts_shared_snoc. destruct (is_nil (party_key p)) eqn:E; [by apply is_nil_true in E|done]. Qed.

(** A name met before. *)
Lemma right_again c : seen r !! party_key p = Some c → read_right (ps ++ [p]) (mkReading (<[party_key p := mkChain (chain_first c) (length ps)]> (seen r))
  (<[chain_last c := Some (length ps)]> (later r ++ [None])) (if chain_first c =? chain_last c then shared r ++ [chain_first c] else shared r) (wordless (ps ++ [p]))).
Proof.
  intros (_ & Eh & El)%(rr_seen _ _ right). constructor; cbn [seen later shared bare].
  - intros k c'. destruct (decide (k = party_key p)) as [->|Hne].
    + rewrite lookup_insert_eq, sharers_own, last_snoc. assert (Eh' : head (sharers (party_key p) ps ++ [length ps]) = Some (chain_first c)) by (revert Eh; by destruct (sharers (party_key p) ps)).
      rewrite Eh'. split; [by intros [= <-]|]. intros (_ & E1 & E2). destruct c'. cbn in *. congruence.
    + rewrite lookup_insert_ne, sharers_other by done. apply (rr_seen _ _ right).
  - by rewrite length_insert, !length_app, (rr_length _ _ right).
  - intros k Hne. destruct (decide (k = party_key p)) as [->|Hk'].
    + rewrite sharers_own. apply linked_snoc; [by apply (rr_linked _ _ right)|apply sharers_nodup|apply sharers_bound|apply (rr_length _ _ right)|done].
    + rewrite sharers_other by done. apply linked_insert; [by apply later_none|]. intros [Hin _]%sharers_in. apply Hk'. rewrite <- Hin.
      assert (Hl : chain_last c ∈ sharers (party_key p) ps) by (rewrite last_lookup in El; by eapply list_elem_of_lookup_2). by apply sharers_in in Hl as [? _].
  - rewrite (sharers_one _ _ _ _ Eh El), shared_right, <- (rr_shared _ _ right).
    destruct (sharers (party_key p) ps) as [|a [|b l]]; [done| |by rewrite app_nil_r]. by injection Eh as ->.
  - done.
Qed.

(** A name of its own so far. *)
Lemma right_new : seen r !! party_key p = None → read_right (ps ++ [p]) (mkReading (<[party_key p := mkChain (length ps) (length ps)]> (seen r))
  (later r ++ [None]) (shared r) (wordless (ps ++ [p]))).
Proof.
  intros Ec. assert (Hnone : sharers (party_key p) ps = []).
  { destruct (sharers (party_key p) ps) as [|a l] eqn:El; [done|]. exfalso. destruct (last_is_Some (a :: l)) as [_ [z Hz]]; [done|].
    assert (Hs : seen r !! party_key p = Some (mkChain a z)) by (apply (rr_seen _ _ right); by rewrite El). congruence. }
  constructor; cbn [seen later shared bare].
  - intros k c. destruct (decide (k = party_key p)) as [->|Hne].
    + rewrite lookup_insert_eq, sharers_own, Hnone. cbn. split; [by intros [= <-]|]. intros (_ & [= E1] & [= E2]). destruct c. cbn in *. by subst.
    + rewrite lookup_insert_ne, sharers_other by done. apply (rr_seen _ _ right).
  - by rewrite !length_app, (rr_length _ _ right).
  - intros k Hne. destruct (decide (k = party_key p)) as [->|Hk']; [|rewrite sharers_other by done; by apply later_none].
    rewrite sharers_own, Hnone. intros [|j] i Hi; [|done]. injection Hi as <-. rewrite <- (rr_length _ _ right). by rewrite list_lookup_middle.
  - by rewrite shared_right, Hnone, app_nil_r, (rr_shared _ _ right).
  - done.
Qed.
End Step.

Lemma read_is_right ps : read_right ps (read ps).
Proof.
  induction ps as [|p ps IH] using rev_ind.
  { constructor; try done. intros k c. cbn. rewrite lookup_empty. split; [done|by intros (_ & ? & _)]. }
  rewrite read_snoc. destruct (decide (party_key p = [])) as [Hk|Hk]; [by apply right_blank|]. unfold read_party.
  assert (Hnot : is_nil (words p) && is_nil (source p) = false).
  { destruct (is_nil (words p)) eqn:Ew, (is_nil (source p)) eqn:Es; try done. apply is_nil_true in Ew, Es. exfalso. by apply Hk, party_key_nil. }
  rewrite Hnot, (bare_right _ _ _ IH Hk). destruct (seen (read ps) !! party_key p) as [c|] eqn:Ec; [by apply right_again|by apply right_new].
Qed.

(** ** Reporting it *)

Section Report.
Context (Quote : gostring → gostring).

(** The parties of a name as a message lists them. *)
Fixpoint listing (sc : scope) ps (first : nat) (l : list nat) : gostring :=
  match l with
  | [] => []
  | i :: rest => (if i =? first then go " " else match rest with [] => go " and " | _ => go ", " end) ++ spelled Quote sc ps i ++ listing sc ps first rest
  end.
Lemma collision_loop_lists fuel sc ps later first l j : linked later l → length l - j ≤ fuel →
  collision_loop Quote fuel sc ps later first (l !! j) = listing sc ps first (drop j l).
Proof.
  intros Hl. revert j. induction fuel as [|fuel IH]; intros j Hf.
  - rewrite drop_ge by lia. done.
  - destruct (l !! j) as [i|] eqn:Ej; [|apply lookup_ge_None in Ej; by rewrite drop_ge]. rewrite (drop_S l i j Ej). cbn [collision_loop listing].
    apply lookup_lt_Some in Ej as Hlt. rewrite (Hl j i Ej). cbn [default from_option id]. rewrite IH by lia. do 2 f_equal.
    destruct (i =? first); [done|]. destruct (l !! S j) as [n|] eqn:En; [by rewrite (drop_S l n _ En)|]. apply lookup_ge_None in En. by rewrite drop_ge.
Qed.

(** What comparing all parties of a scope reports. *)
Definition collision_of (sc : scope) ps (first : nat) : Diagnostic :=
  diag SeverityWarning (go "pass/name-collision")
    (lead sc ++ many sc ++ listing sc ps first (sharers (party_key (party_at ps first)) ps) ++ sharing_words Quote (party_at ps first)) (scope_at sc).
Definition wordless_of (sc : scope) ps (i : nat) : Diagnostic :=
  diag SeverityInfo (go "pass/name-without-words") (without_words Quote sc ps i) (scope_at sc).
Definition scope_report (sc : scope) ps : list Diagnostic := (collision_of sc ps <$> firsts_shared ps) ++ (wordless_of sc ps <$> wordless ps).

Lemma firsts_head ps i : i ∈ firsts_shared ps → party_key (party_at ps i) ≠ [] ∧ head (sharers (party_key (party_at ps i)) ps) = Some i.
Proof.
  induction ps as [|p ps IH] using rev_ind; [by intros ?%elem_of_nil|]. rewrite firsts_shared_snoc, elem_of_app.
  assert (Hgrow : ∀ k, head (sharers k ps) = Some i → head (sharers k (ps ++ [p])) = Some i) by (intros k Hh; rewrite sharers_snoc; by destruct (sharers k ps)).
  intros [Hi|Hi].
  - destruct (IH Hi) as [Hne Hh]. assert (Hlt : i < length ps). { apply (sharers_bound ps (party_key (party_at ps i))). destruct (sharers _ ps); [done|]. injection Hh as ->. by left. }
    rewrite party_at_app by done. split; [done|]. by apply Hgrow.
  - destruct (is_nil (party_key p)) eqn:En; [by apply elem_of_nil in Hi|]. apply is_nil_false in En. destruct (sharers (party_key p) ps) as [|f [|g l]] eqn:Es; try by apply elem_of_nil in Hi.
    apply list_elem_of_singleton in Hi as ->. assert (Hin : f ∈ sharers (party_key p) ps) by (rewrite Es; by left). apply sharers_in in Hin as [Hk Hlt].
    rewrite party_at_app, Hk by done. split; [done|]. apply Hgrow. by rewrite Es.
Qed.

Lemma collision_lists sc ps first : first ∈ firsts_shared ps →
  collision Quote sc ps (later (read ps)) first =
  lead sc ++ many sc ++ listing sc ps first (sharers (party_key (party_at ps first)) ps) ++ sharing_words Quote (party_at ps first).
Proof.
  intros Hi. unfold collision. do 3 f_equal. destruct (firsts_head ps first Hi) as [Hne Hh]. rewrite <- (drop_0 (sharers _ ps)).
  rewrite <- (collision_loop_lists (length ps) sc ps (later (read ps)) first _ 0 (rr_linked _ _ (read_is_right ps) _ Hne)).
  - by rewrite <- head_lookup, Hh.
  - unfold sharers. rewrite Nat.sub_0_r. etrans; [apply length_filter|]. by rewrite length_seq.
Qed.

Lemma readScope_reports sc (ns : list Naming) : readScope Quote sc ns = scope_report sc (partyOf <$> ns).
Proof.
  unfold readScope, scope_report. set (ps := partyOf <$> ns). destruct (read_is_right ps) as [_ _ _ Hs Hb].
  assert (Hreport : report Quote sc ps (read ps) = (collision_of sc ps <$> firsts_shared ps) ++ (wordless_of sc ps <$> wordless ps)).
  { unfold report. rewrite Hs, Hb. f_equal. apply list_fmap_ext. intros i first Hi%list_elem_of_lookup_2. unfold collision_of. by rewrite collision_lists. }
  rewrite Hreport, Hs, Hb. by destruct (firsts_shared ps), (wordless ps).
Qed.

(** ** A scope with nothing to report *)

Lemma filled_snoc ps p : filled (party_key <$> (ps ++ [p])) = filled (party_key <$> ps) ++ if is_nil (party_key p) then [] else [party_key p].
Proof.
  rewrite fmap_app. unfold filled. rewrite filter_app. f_equal. cbn [fmap list_fmap]. rewrite filter_cons, filter_nil.
  destruct (is_nil (party_key p)) eqn:En; [apply is_nil_true in En; by rewrite decide_False by tauto|]. apply is_nil_false in En. by rewrite decide_True.
Qed.
Lemma filled_sharers k ps : k ∈ filled (party_key <$> ps) ↔ k ≠ [] ∧ sharers k ps ≠ [].
Proof.
  unfold filled. rewrite list_elem_of_filter, list_elem_of_fmap. f_equiv. split.
  - intros (q & -> & [i Hi]%list_elem_of_lookup) Hs. apply (not_elem_of_nil i). rewrite <- Hs. apply sharers_in. unfold party_at. rewrite Hi. split; [done|]. by eapply lookup_lt_Some.
  - destruct (sharers k ps) as [|i l] eqn:Es; [done|]. intros _. assert (Hi : i ∈ sharers k ps) by (rewrite Es; by left). apply sharers_in in Hi as [Hi Hlt].
    destruct (lookup_lt_is_Some_2 ps i Hlt) as [q Hq]. exists q. unfold party_at in Hi. rewrite Hq in Hi. split; [done|]. by eapply list_elem_of_lookup_2.
Qed.
Lemma sharers_alone ps k : NoDup (filled (party_key <$> ps)) → k ≠ [] → length (sharers k ps) ≤ 1.
Proof.
  intros Hnd Hk. induction ps as [|p ps IH] using rev_ind; [by apply Nat.le_0_l|]. rewrite filled_snoc in Hnd. rewrite sharers_snoc. destruct (decide (party_key p = k)) as [Hp|Hp].
  - destruct (is_nil (party_key p)) eqn:En; [apply is_nil_true in En; congruence|]. apply NoDup_snoc in Hnd as [_ Hn]. rewrite filled_sharers in Hn. rewrite <- Hp in *.
    destruct (sharers (party_key p) ps); [done|]. exfalso. by apply Hn.
  - rewrite app_nil_r. apply IH. by apply NoDup_app in Hnd as [? _].
Qed.

Lemma firsts_shared_nil ps : firsts_shared ps = [] ↔ NoDup (filled (party_key <$> ps)).
Proof.
  induction ps as [|p ps IH] using rev_ind; [split; [intros _; apply NoDup_nil_2|done]|].
  rewrite firsts_shared_snoc, app_nil_iff, IH, filled_snoc. destruct (is_nil (party_key p)) eqn:En; [rewrite app_nil_r; tauto|]. apply is_nil_false in En.
  rewrite NoDup_snoc, filled_sharers. split; intros [Hnd Hm]; (split; [done|]).
  - intros [_ Hs]. pose proof (sharers_alone ps _ Hnd En). destruct (sharers (party_key p) ps) as [|a [|b l]]; [done..|]. cbn in *. lia.
  - destruct (sharers (party_key p) ps); [done|]. exfalso. apply Hm. by split.
Qed.

(** No two names that a target may render alike, and none it has no word for. *)
Definition apart (ns : list Naming) : Prop :=
  NoDup (filled (party_key <$> (partyOf <$> ns))) ∧ ∀ n, n ∈ ns → words (partyOf n) = [] → Naming_Source n = [].
Lemma readScope_nil sc ns : readScope Quote sc ns = [] ↔ apart ns.
Proof.
  rewrite readScope_reports. unfold scope_report, apart. rewrite app_nil_iff, !fmap_nil_iff, firsts_shared_nil. f_equiv. unfold wordless. rewrite filter_nil_iff.
  setoid_rewrite elem_of_seq. unfold party_at. split.
  - intros H n [i Hi]%list_elem_of_lookup Hw. apply dec_stable. intros Hs. apply (H i).
    + split; [lia|]. rewrite length_fmap. by eapply lookup_lt_Some in Hi.
    + by rewrite list_lookup_fmap, Hi.
  - intros H i [_ Hlt] [Hw Hs]. rewrite length_fmap in Hlt. destruct (lookup_lt_is_Some_2 ns i Hlt) as [n Hn]. rewrite list_lookup_fmap, Hn in Hw, Hs. cbn in Hs.
    apply Hs, H; [by eapply list_elem_of_lookup_2|done].
Qed.

(** ** The scopes of a document *)

Context (doc : Document).
Definition parts_apart (td : TypeDef) : Prop :=
  match td with
  | ModelDef t => apart (Property_Name <$> Model_Properties t)
  | EnumDef t => apart (EnumMember_Name <$> Enum_Members t)
  | UnionDef t => apart (Variant_Name <$> Union_Variants t)
  | _ => True
  end.
Record group_names_apart (g : OperationGroup) : Prop := {
  gn_groups : apart (OperationGroup_Name <$> OperationGroup_Groups g);
  gn_operations : apart (Operation_Name <$> OperationGroup_Operations g);
  gn_params op : op ∈ OperationGroup_Operations g → apart (Parameter_Name <$> Operation_Params op)
}.
Record document_names_apart : Prop := {
  dn_services : apart (Service_Name <$> Document_Services doc);
  dn_tops svc : svc ∈ Document_Services doc → apart (OperationGroup_Name <$> Service_Groups svc);
  dn_groups g : group_reached doc g → group_names_apart g;
  dn_parts id td : Document_Types doc !! id = Some td → IsNilTypeDef td = false → parts_apart td;
  dn_types : apart ((λ id, TypeCommon_Name (Common (type_at doc id))) <$> filter (λ id, declares_type doc id = true) (liveTypeIDs doc));
  dn_auth : apart ((λ id, match Document_Auth doc !! id with Some s => AuthScheme_Name s | None => zeroNaming end) <$> sorted_keys (Document_Auth doc))
}.

Lemma group_names_nil g : group_names Quote g = [] ↔ group_names_apart g.
Proof.
  unfold group_names, groupList, PassNames.params. rewrite !app_nil_iff, bind_nil_iff, !readScope_nil. setoid_rewrite readScope_nil. split.
  - intros (H1 & H2 & H3). by constructor.
  - by intros [].
Qed.
Lemma groups_nil : groups Quote doc = [] ↔ (∀ svc, svc ∈ Document_Services doc → apart (OperationGroup_Name <$> Service_Groups svc)) ∧
  ∀ g, group_reached doc g → group_names_apart g.
Proof.
  unfold groups, groupList. rewrite app_nil_iff, bind_nil_iff. setoid_rewrite readScope_nil. f_equiv. rewrite nil_iff_none.
  setoid_rewrite (ForEachGroup_adds _ (group_names Quote) (λ _ _, eq_refl)). setoid_rewrite <- group_names_nil. split.
  - intros H g Hg. apply nil_iff_none. intros x Hx. apply (H x). by exists g.
  - intros H x (g & Hg & Hx). rewrite (H g Hg) in Hx. by apply elem_of_nil in Hx.
Qed.
Lemma typeParts_nil id td : typeParts Quote id td = [] ↔ parts_apart td.
Proof. destruct td; cbn [typeParts parts_apart]; try (apply readScope_nil); done. Qed.

Lemma name_families_nil : concat (name_families Quote doc) = [] ↔ document_names_apart.
Proof.
  unfold name_families, services, types, auth. cbn [concat]. rewrite !app_nil_iff, groups_nil, !readScope_nil, (live_nil doc (typeParts Quote)). setoid_rewrite typeParts_nil. split.
  - intros (H1 & [H2 H3] & [H4 H5] & H6 & _). by constructor.
  - intros []. split_and!; done.
Qed.

Lemma checkNames_nil ctx : never_done ctx → checkNames Quote ctx (Some doc) = Ok [] ↔ document_names_apart.
Proof.
  intros [_ Ha]. unfold checkNames. rewrite <- name_families_nil. pose proof (run_families_spec ctx 0 (name_families Quote doc)) as Hr.
  destruct (run_families _ _ _) as [ds|err]; [destruct Hr as [-> _]; split; [intros [= E]; exact E|by intros ->]|].
  destruct Hr as (k & _ & Hk & _). by rewrite Ha in Hk.
Qed.
End Report.
