(* ===== verification/PassRuns.v ===== *)
(** * PassRuns: the contract of the built-in passes

    What validation and the names pass report, under any context, and two small
    documents they read. *)
From S2P Require Import Prelude GoLib Utf8 Decimal Value IR Domain Ids Findings Composition Naming Text Violations RegistryRules RegistrySound Traverse TypeEdges.
From S2P Require Import Walk WalkAlone WalkTrace WalkAsks Acyclic References Reflect WalkRules WalkSound Verify IdentityRules VerifySound VerifyRuns.
From S2P Require Import PassRules Validate PassNames PassSound PassScopes PassRefs PassClean.

#[local] Opaque traverse trace idClasses ir_table.

Section Contract.
Context (Quote : gostring → gostring).

Lemma never_done_background : never_done background.
Proof. by split. Qed.

(** C2: under a context that is never done, validation reports nothing exactly
    when the document keeps every rule: references and property ids that
    resolve over the whole value graph, groups within the cap, codes of declared
    responses, encodings of exposed properties, discriminators routed to members,
    names apart, parameters bound, and field arguments where GraphQL reaches. *)
Theorem Validate_clean ctx doc value facts : never_done ctx →
  Validate Quote ctx (Some doc) value facts = Ok [] ↔ document_valid doc value facts.
Proof.
  intros Hctx. rewrite Validate_finishes by done. rewrite <- (full_report_nil Quote). split; [by intros [= ->]|by intros ->].
Qed.

(** C4: a run asks its context once of each [askEvery] values its walk shows, then
    before each family of rules and after the last, and its result is decided by
    the answers: the first of them, in that order, that is an error is what it
    fails with, and where none is, it reports what a run does whose context is
    never done. *)
Theorem Validate_context ctx doc value facts :
  let asked := first_answer (asked_in_walk ctx) (asks_for (length (PassRefs.shown value))) in
  let between := first_answer (asked_after ctx) (S (length (families Quote doc (whole_reading value) facts))) in
  Validate Quote ctx (Some doc) value facts =
    match asked with
    | Some err => Err err
    | None => match between with Some err => Err err | None => Validate Quote background (Some doc) value facts end
    end.
Proof.
  intros asked between. rewrite (Validate_finishes Quote doc value facts background never_done_background). apply Validate_exact.
Qed.

(** C12: the references reported are exactly those of the values shown that name
    nothing, sorted by the path they sit at, and so are the ids of properties no
    value declares; a walk cut short is reported first. *)
Theorem checkDanglingRefs_exact value : ∃ refs props : list IDReference,
  checkDanglingRefs Quote (gathered_refs value) (cut_short value) = walk_truncated (cut_short value) ++ (dangling_ref Quote <$> refs) ∧
  Sorted path_le refs ∧
  refs ≡ₚ dangling_of (ids_keyed (references_start value)) (labelled (references_start value)) (cut_short value) (PassRefs.shown value) ∧
  checkPropIDRefs Quote (gathered_props value) (gathered_refs value) = dangling_prop_ref Quote <$> props ∧
  Sorted path_le props ∧
  props ≡ₚ dangling_prop <$> filter (λ k, Declares (gathered_refs value) propIDType k.1 = false) (prop_candidates (PassRefs.shown value)).
Proof.
  exists (byLocation (Unresolved ir_desc (gathered_refs value) (cut_short value))), (byLocation (dangling_props (gathered_props value) (gathered_refs value))).
  split_and!; try reflexivity; try apply byLocation_sorted; rewrite byLocation_perm.
  - by rewrite gathered_dangling.
  - unfold gathered_props, gathered_refs. by rewrite dangling_props_exact.
Qed.

(** C11: the types field arguments are allowed on are exactly those an operation
    of GraphQL holds an id of outside prose, and those they lead to; the search
    ends on whatever cycles types have, and says when groups were cut off. *)
Theorem graphqlReachableTypes_reaches doc :
  (∀ queue, (reach_loop doc (length queue + all_edges doc) ∅ queue).2 = []) ∧
  (∀ id, id ∈ (graphqlReachableTypes doc).1 ↔ graphql_reaches doc id) ∧
  ((graphqlReachableTypes doc).2 = false ↔ ∀ svc n g, svc ∈ Document_Services doc → group_at (Service_Groups svc) 0 n g → n ≤ MaxGroupDepth).
Proof. split; [apply reach_loop_ends|apply graphqlReachableTypes_exact]. Qed.

(** C10: one pass through chained buffers reports of a scope what comparing every
    two of its parties does: for each name shared, a warning that lists all of
    its parties in order, and for each name without a word, a note. *)
Theorem readScope_exact sc (ns : list Naming) : readScope Quote sc ns = scope_report Quote sc (partyOf <$> ns).
Proof. apply readScope_reports. Qed.

(** C13: under a context that is never done, the names pass reports nothing
    exactly when no two services, groups of one parent, operations, parameters,
    parts of a type, declared types or schemes share a name, and each has a word. *)
Theorem checkNames_clean ctx doc : never_done ctx → checkNames Quote ctx (Some doc) = Ok [] ↔ document_names_apart doc.
Proof. apply checkNames_nil. Qed.

(** C36: of a document the verifier accepts, validation is shown the whole, and
    finds no nil type and no reference that dangles, those to properties aside: the
    verifier leaves property ids out, and [checkPropIDRefs] alone answers for them. *)
Theorem vetted_references `{Unicode, Visible, Ranging} (valid_json : gostring → bool) doc value :
  Verify Quote valid_json (Some doc) value = [] →
  cut_short value = false ∧ checkNilTypes Quote doc = [] ∧ checkDanglingRefs Quote (gathered_refs value) (cut_short value) = [].
Proof.
  intros [Hr Hs]%Verify_nil. pose proof (whole_shown _ _ _ _ Hs) as Hcut. split_and!; [exact Hcut| |].
  - apply checkNilTypes_nil. intros id td E. destruct (rs_types doc Hr id td E) as [Hk _]. by destruct td.
  - apply checkDanglingRefs_nil. split; [exact Hcut|]. exact (va_references _ _ _ _ Hs).
Qed.
End Contract.

(** ** Two documents *)

Abbreviation validated target := (Validate Vetted.Quote background (Some (Vetted.doc target)) (ValueOf (Vetted.doc target)) (facts_of (Vetted.doc target))).

(** The property's type resolves, and does not. *)
Lemma Validate_clean_witness :
  document_valid (Vetted.doc (PrimTypeID PrimString)) (ValueOf (Vetted.doc (PrimTypeID PrimString))) (facts_of (Vetted.doc (PrimTypeID PrimString))) ∧
  ¬ document_valid (Vetted.doc (go "t/openapi/gone")) (ValueOf (Vetted.doc (go "t/openapi/gone"))) (facts_of (Vetted.doc (go "t/openapi/gone"))).
Proof.
  pose proof (λ doc value facts, Validate_clean Vetted.Quote background doc value facts never_done_background) as Hclean. split.
  - apply Hclean. vm_compute. reflexivity.
  - intros Hv. apply Hclean in Hv. assert (Hlen : match validated (go "t/openapi/gone") with Ok ds => length ds | Err _ => 0 end = 1) by (vm_compute; reflexivity).
    rewrite Hv in Hlen. discriminate Hlen.
Defined.

(** The walk asks once; a context found done then fails the run, and so does one
    found done after the last family. *)
Lemma Validate_context_witness :
  let doc := Vetted.doc (PrimTypeID PrimString) in
  let run ctx := Validate Vetted.Quote ctx (Some doc) (ValueOf doc) (facts_of doc) in
  run (mkContext (λ _, Some (go "gone")) (λ _, None)) = Err (go "gone") ∧
  run (mkContext (λ _, None) (λ i, if i =? 17 then Some (go "late") else None)) = Err (go "late") ∧
  run (mkContext (λ _, None) (λ i, if i =? 18 then Some (go "late") else None)) = Ok [].
Proof.
  cbv zeta. split_and!; rewrite Validate_context; vm_compute; reflexivity.
Defined.

(** A document with one service, and one with a second of the same name. *)
Definition shops (n : nat) : Document :=
  mkDocument IRVersion ∅ (go "Pet Shop") [] zeroDocs None None [] (replicate n Vetted.service) ∅ ∅ ∅ ∅ ∅ [] [] ∅ [] [Vetted.source].
Lemma checkNames_clean_witness : document_names_apart (shops 1) ∧ ¬ document_names_apart (shops 2).
Proof.
  pose proof (λ doc, checkNames_clean Vetted.Quote background doc never_done_background) as Hclean. split.
  - apply Hclean. vm_compute. reflexivity.
  - intros Hv. apply Hclean in Hv. assert (Hlen : match checkNames Vetted.Quote background (Some (shops 2)) with Ok ds => length ds | Err _ => 0 end = 1) by (vm_compute; reflexivity).
    rewrite Hv in Hlen. discriminate Hlen.
Defined.

Lemma vetted_references_witness : let doc := Vetted.doc (PrimTypeID PrimString) in
  cut_short (ValueOf doc) = false ∧ checkNilTypes Vetted.Quote doc = [] ∧ checkDanglingRefs Vetted.Quote (gathered_refs (ValueOf doc)) (cut_short (ValueOf doc)) = [].
Proof. apply (vetted_references Vetted.Quote Vetted.valid_json). vm_compute. reflexivity. Defined.
