(* ===== verification/Effects.v ===== *)
(** * Effects: running code the program is handed

    Compilers, passes, readers and stores are values the program is given: their
    methods are functions of a world, which holds the documents pointers lead
    to, the time the context is asked at, and whatever else those methods read
    or write. A method that panics ends in the panic's text, which a barrier
    turns into an error. *)
From S2P Require Import Prelude GoLib Decimal IR.

(** What a pointer to a document is. *)
Abbreviation loc := nat (only parsing).

Record world (O : Type) := mkWorld { heap : gmap loc Document; now : nat; outside : O }.
Arguments mkWorld {O}.
Arguments heap {O}.
Arguments now {O}.
Arguments outside {O}.

(** Code that may fail with [E], over a world. *)
Definition M (O E A : Type) : Type := world O → result E A * world O.

Section Monad.
Context {O E : Type}.
#[export] Instance M_ret : MRet (M O E) := λ A a w, (Ok a, w).
#[export] Instance M_bind : MBind (M O E) := λ A B f m w,
  match m w with (Ok a, w) => f a w | (Err e, w) => (Err e, w) end.

Definition throw {A} (e : E) : M O E A := λ w, (Err e, w).

(** [barrier.Catch]: a panic becomes an error. *)
Definition Catch {A} (f : M O gostring A) (described : gostring → E) : M O E A := λ w,
  match f w with (Ok a, w) => (Ok a, w) | (Err text, w) => (Err (described text), w) end.

(** An error wrapped as the caller reports it. *)
Definition lift {E' A} (wrap : E' → E) (f : M O E' A) : M O E A := λ w,
  match f w with (Ok a, w) => (Ok a, w) | (Err e, w) => (Err (wrap e), w) end.

(** Running a call whose error the code keeps as a value. *)
Definition attempt {E' A} (m : M O E' A) : M O E (result E' A) := λ w, let '(r, w) := m w in (Ok r, w).

(** A check the code makes: an error where it fails. *)
Definition check (b : bool) (e : E) : M O E unit := if b then mret tt else throw e.

(** What a pointer leads to. Every pointer the code holds is allocated. *)
Definition deref (l : loc) : M O E Document := λ w, (Ok (default zeroDocument (heap w !! l)), w).

(** A new document: a copy the code makes lives at a pointer of its own. *)
Definition alloc (d : Document) : M O E loc := λ w,
  let l := fresh (dom (heap w)) in
  (Ok l, {| heap := <[l := d]> (heap w); now := now w; outside := outside w |}).
End Monad.

(** ** Contexts *)

(** [ctx t] is the error of [ctx.Err] when asked at time [t]. Once a context is
    done it stays done, with the same error. *)
Definition stays_done (ctx : nat → option gostring) : Prop :=
  ∀ t e, ctx t = Some e → ∀ t', t ≤ t' → ctx t' = Some e.

Section Context_.
Context {O E : Type} (ctx : nat → option gostring).

(** Asking takes time. *)
Definition ctx_Err : M O E (option gostring) := λ w,
  (Ok (ctx (now w)), {| heap := heap w; now := S (now w); outside := outside w |}).

(** [if err := ctx.Err(); err != nil { return ... }] *)
Definition stop_if_done (stopped : gostring → E) : M O E unit :=
  err ← ctx_Err; match err with Some e => throw (stopped e) | None => mret tt end.
End Context_.

(** ** Reasoning about it *)

(** The document a pointer leads to. *)
Definition doc_at {O} (w : world O) (l : loc) : Document := default zeroDocument (heap w !! l).

Lemma deref_Ok {O E} (l : loc) (w : world O) d w' : deref (E:=E) l w = (Ok d, w') ↔ d = doc_at w l ∧ w' = w.
Proof. unfold deref. split; [by intros [= <- <-]|by intros [-> ->]]. Qed.

Section Rules.
Context {O E : Type}.

Lemma bind_Ok {A B} (m : M O E A) (f : A → M O E B) w b w' :
  (m ≫= f) w = (Ok b, w') ↔ ∃ a w1, m w = (Ok a, w1) ∧ f a w1 = (Ok b, w').
Proof.
  unfold mbind, M_bind. destruct (m w) as [[a|e] w1]; split; try done.
  - intros H. by exists a, w1.
  - by intros (? & ? & [= <- <-] & H).
  - by intros (? & ? & [=] & _).
Qed.

Lemma check_Ok (b : bool) (e : E) (w : world O) u w' : check b e w = (Ok u, w') ↔ b = true ∧ w' = w.
Proof. unfold check. destruct b; cbn; split; [intros [= _ <-]; done|intros [_ ->]; by destruct u|done|by intros [? _]]. Qed.

Lemma Catch_Ok {A} (f : M O gostring A) (described : gostring → E) w a w' : Catch f described w = (Ok a, w') ↔ f w = (Ok a, w').
Proof. unfold Catch. destruct (f w) as [[x|t] w1]; split; congruence. Qed.

Lemma lift_Ok {E' A} (wrap : E' → E) (f : M O E' A) w a w' : lift wrap f w = (Ok a, w') ↔ f w = (Ok a, w').
Proof. unfold lift. destruct (f w) as [[x|t] w1]; split; congruence. Qed.

Lemma attempt_run {E' A} (m : M O E' A) w : attempt (E:=E) m w = (Ok (m w).1, (m w).2).
Proof. unfold attempt. by destruct (m w). Qed.

Lemma stop_if_done_Ok ctx (stopped : gostring → E) (w : world O) u w' :
  stop_if_done ctx stopped w = (Ok u, w') ↔ ctx (now w) = None ∧ w' = {| heap := heap w; now := S (now w); outside := outside w |}.
Proof.
  unfold stop_if_done, ctx_Err, mbind, M_bind. destruct (ctx (now w)); cbn; split; try done.
  - by intros [? _].
  - by intros [= _ <-].
  - intros [_ ->]. by destruct u.
Qed.
End Rules.
