(* ===== verification/Detect.v ===== *)
(** * Detect: which compiler takes a source, and what its compile is held to
    ([src/compilers/compilers.go], [src/compilers/contract.go])

    A compiler is a record of methods over the world, each of which may panic.
    The registry keeps compilers by their position in registration order, which
    stands for the pointer the code compares. *)
From S2P Require Import Prelude GoLib Decimal IR Findings Effects.
Implicit Types (ds declined : list Diagnostic) (n : Z).


(** ** Formats *)

Record SourceFormat := mkSourceFormat { Format_Name : gostring; Format_Version : gostring }.
Definition zeroFormat : SourceFormat := mkSourceFormat [] [].
#[export] Instance SourceFormat_eq_dec : EqDecision SourceFormat. Proof. solve_decision. Defined.
#[export] Instance SourceFormat_countable : Countable SourceFormat.
Proof.
  apply (inj_countable' (λ f, (Format_Name f, Format_Version f)) (λ p, mkSourceFormat p.1 p.2)). by intros [].
Defined.

Definition String (f : SourceFormat) : gostring := Format_Name f ++ go "@" ++ Format_Version f.
Definition valid (f : SourceFormat) : bool :=
  negb (is_empty (Format_Name f)) && negb (is_empty (Format_Version f)) && bool_decide ("@"%char ∉ Format_Name f).

(** ** Reading documents *)

Record DocumentRequest := mkRequest { Location : gostring; Within : gostring; Limit : Z }.
#[export] Instance DocumentRequest_eq_dec : EqDecision DocumentRequest. Proof. solve_decision. Defined.
#[export] Instance DocumentRequest_countable : Countable DocumentRequest.
Proof.
  apply (inj_countable' (λ r, (Location r, Within r, Limit r)) (λ p, mkRequest p.1.1 p.1.2 p.2)). by intros [].
Defined.

(** [DocumentReader], as its one method. *)
Abbreviation DocumentReader O := (DocumentRequest → M O gostring gostring).

(** ** Compilers *)

Section Compilers.
(** What the program does not look into: the parse a compiler carries, the
    options it takes, and the rest of the world. *)
Context {O Parsed FO : Type} (SourceHash : gostring → gostring) (ctx : nat → option gostring).

Record Source := mkSource { Source_Path : gostring; Source_Data : gostring; Source_Parsed : option Parsed }.
Record Recognition := mkRecognition { Rec_Format : SourceFormat; Rec_Parsed : option Parsed }.

Record Options := mkOptions { FormatOptions : option FO; Reader : option (DocumentReader O) }.
Definition zeroOptions : Options := mkOptions None None.

Record Compiler := mkCompiler {
  Formats : M O gostring (list SourceFormat);
  Detect_ : Source → Options → M O gostring (Recognition * list Diagnostic * bool);
  DecodeOptions : gmap gostring gostring → M O gostring (result gostring FO);
  SourceLimit_ : Options → M O gostring Z;
  Compile_ : list Source → Options → M O gostring (option loc * list Diagnostic * option gostring);
  SourceTable : list Source → Options → M O gostring (list SourceInfo)
}.

(** A [Compiler] interface value: nil, a typed nil pointer, or a compiler. *)
Inductive compiler_value := NilInterface | NilPointer | ACompiler (c : Compiler).
Definition isNilCompiler (c : compiler_value) : bool := match c with ACompiler _ => false | _ => true end.

(** Why one of these calls fails. *)
Inductive failure :=
  | NilCompiler
  | Panicked (method text : gostring)                   (* a breach *)
  | NoFormats | NamesNoDialect (f : SourceFormat)       (* breaches *)
  | AlreadyRegistered (f : SourceFormat)
  | Done (err : gostring)                               (* the context's error *)
  | ClaimedPastLimit (size limit : Z) | DeclinedPastLimit (size limit : Z)   (* breaches *)
  | DeclinedNoError | IndexesNoSource (d : Diagnostic) (n : Z)               (* breaches *)
  | OptionsFailed (f : SourceFormat) (err : gostring)
  | NamesNoCompiler
  | CompileFailed (err : gostring)                      (* the compiler's own error *)
  | TableNotFirst | RefusedNoError | WrongVersion (v : gostring) | SourcesDiffer.   (* breaches *)

(** [errors.Is(err, ErrContract)] *)
Definition is_breach (e : failure) : bool :=
  match e with
  | NilCompiler | AlreadyRegistered _ | Done _ | OptionsFailed _ _ | NamesNoCompiler | CompileFailed _ => false
  | _ => true
  end.

Abbreviation R A := (M O failure A).
Definition held (b : bool) (e : failure) : R unit := Effects.check b e.

(** ** Registering *)

Record registered := mkRegistered { reg_c : Compiler; reg_formats : list SourceFormat }.
Record Registry := mkRegistry { byFormat : gmap SourceFormat nat; ordered : list registered }.
Definition NewRegistry : Registry := mkRegistry ∅ [].

(** The loop that looks every format over before any is claimed. *)
Fixpoint admit_formats (taken : gmap SourceFormat nat) (fs : list SourceFormat) : result failure unit :=
  match fs with
  | [] => Ok tt
  | f :: fs =>
      if negb (valid f) then Err (NamesNoDialect f)
      else if bool_decide (is_Some (taken !! f)) then Err (AlreadyRegistered f)
      else admit_formats taken fs
  end.

Definition reported (c : Compiler) : R (list SourceFormat) := Catch (Formats c) (Panicked (go "Formats")).

Definition Register (r : Registry) (c : compiler_value) : R Registry :=
  match c with
  | NilInterface | NilPointer => throw NilCompiler
  | ACompiler c =>
      formats ← reported c;
      held (negb (bool_decide (formats = []))) NoFormats;;
      match admit_formats (byFormat r) formats with
      | Err e => throw e
      | Ok _ =>
          let entry := length (ordered r) in
          mret {| byFormat := foldl (λ m f, <[f := entry]> m) (byFormat r) formats;
                  ordered := ordered r ++ [mkRegistered c formats] |}
      end
  end.

(** ** Detecting *)

(** [Configure]: the options, or the error decoding them failed with. *)
Abbreviation Configure := (Compiler → M O gostring (result gostring Options)).

(** The options, and what configuring failed with beside the defaults. *)
Definition configured (e : registered) (configure : Configure) : R (Options * option gostring) :=
  r ← Catch (configure (reg_c e)) (Panicked (go "configure"));
  mret match r with Ok opts => (opts, None) | Err failed => (zeroOptions, Some failed) end.

Definition sourceLimit (e : registered) (opts : Options) : R Z :=
  Catch (SourceLimit_ (reg_c e) opts) (Panicked (go "SourceLimit")).

Record answer := mkAnswer {
  a_rec : Recognition; a_diags : list Diagnostic; a_ok : bool; a_opts : Options; a_optsErr : option gostring
}.

Definition ask (e : registered) (src : Source) (configure : Configure) : R answer :=
  '(opts, optsErr) ← configured e configure;
  '(rec, diags, ok) ← Catch (Detect_ (reg_c e) src opts) (Panicked (go "Detect"));
  mret (mkAnswer rec diags ok opts optsErr).

Definition heldToLimit (e : registered) (a : answer) (size : Z) : R unit :=
  limit ← sourceLimit e (a_opts a);
  if (limit <=? 0)%Z || (size <=? limit)%Z then mret tt
  else if a_ok a then throw (ClaimedPastLimit size limit)
  else held (negb (bool_decide (a_diags a = []))) (DeclinedPastLimit size limit).

Definition checkIndexes ds n : R unit :=
  match FirstOutsideTable ds n with Some d => throw (IndexesNoSource d n) | None => mret tt end.

Definition checkDecline ds : R unit :=
  held (bool_decide (ds = []) || HasError ds) DeclinedNoError;;
  checkIndexes ds 1.

Record Detection := mkDetection {
  Det_Source : Source; Det_Compiler : option Compiler; Det_Recognition : Recognition; Det_Options : Options;
  Det_Declined : list Diagnostic
}.
Definition zeroRecognition : Recognition := mkRecognition zeroFormat None.

(** [claim], for the recognizer at position [i]; the caller's source is recorded here. *)
Definition claim (r : Registry) (i : nat) (a : answer) (configure : Configure) (src : Source) : R (Detection * bool) :=
  let owner := byFormat r !! Rec_Format (a_rec a) in
  let rec := if decide (owner = Some i) then a_rec a else mkRecognition (Rec_Format (a_rec a)) None in
  match owner with
  | None => mret (mkDetection src None rec zeroOptions [], false)
  | Some o =>
      match ordered r !! o with
      | None => mret (mkDetection src None rec zeroOptions [], false)
      | Some owner =>
          '(opts, optsErr) ← (if decide (o = i) then mret (a_opts a, a_optsErr a) else configured owner configure);
          match optsErr with
          | Some err => throw (OptionsFailed (Rec_Format rec) err)
          | None => mret (mkDetection src (Some (reg_c owner)) rec opts [], true)
          end
      end
  end.

(** The loop of [Registry.Detect], from position [i] on. *)
Fixpoint detect_from (r : Registry) (i : nat) (entries : list registered) (src : Source) (configure : Configure) declined :
    R (Detection * bool) :=
  match entries with
  | [] => mret (mkDetection src None zeroRecognition zeroOptions declined, false)
  | e :: entries =>
      stop_if_done ctx Done;;
      a ← ask e src configure;
      stop_if_done ctx Done;;
      heldToLimit e a (Z.of_nat (length (Source_Data src)));;
      if negb (a_ok a) then
        checkDecline (a_diags a);;
        detect_from r (S i) entries src configure (declined ++ a_diags a)
      else
        held (valid (Rec_Format (a_rec a))) (NamesNoDialect (Rec_Format (a_rec a)));;
        claim r i a configure src
  end.

Definition Detect (r : Registry) (src : Source) (configure : Configure) : R (Detection * bool) :=
  if is_empty (Source_Data src) then mret (mkDetection src None zeroRecognition zeroOptions [], false)
  else detect_from r 0 (ordered r) src configure [].

(** [Registry.SourceLimit]: zero where some compiler reads any size. *)
Fixpoint source_limit_from (entries : list registered) (configure : Configure) (most : Z) : R Z :=
  match entries with
  | [] => mret most
  | e :: entries =>
      '(opts, _) ← configured e configure;
      limit ← sourceLimit e opts;
      if (limit <=? 0)%Z then mret 0%Z else source_limit_from entries configure (Z.max most limit)
  end.
Definition SourceLimit (r : Registry) (configure : Configure) : R Z := source_limit_from (ordered r) configure 0.

(** ** Compiling what was detected *)

Record Compiled := mkCompiled { C_Document : option loc; C_Diagnostics : list Diagnostic; C_Sources : list SourceInfo }.

Definition checkSources (got table : list SourceInfo) (src : Source) (format : SourceFormat) : R unit :=
  held ((length table <=? length got) &&
        forallb (λ p, bool_decide (SourceInfo_Path p.1 = SourceInfo_Path p.2)) (zip got table) &&
        match got with
        | first :: _ => bool_decide (SourceInfo_Format first = String format) && bool_decide (SourceInfo_Hash first = SourceHash (Source_Data src))
        | [] => false
        end) SourcesDiffer.

Definition names_first (table : list SourceInfo) (path : gostring) : bool :=
  match table with first :: _ => bool_decide (SourceInfo_Path first = path) | [] => false end.

(** [Detection.check]; [doc] is the document compiled, if any. *)
Definition check_compiled (d : Detection) (doc : option Document) (diags : list Diagnostic) (sources table : list SourceInfo) : R unit :=
  held (names_first table (Source_Path (Det_Source d))) TableNotFirst;;
  match doc with
  | None =>
      held (HasError diags) RefusedNoError;;
      checkIndexes diags (Z.of_nat (length sources))
  | Some doc =>
      held (CompatibleVersion (Document_IRVersion doc)) (WrongVersion (Document_IRVersion doc));;
      checkSources sources table (Det_Source d) (Rec_Format (Det_Recognition d));;
      checkIndexes (Document_Diagnostics doc) (Z.of_nat (length sources));;
      checkIndexes diags (Z.of_nat (length sources))
  end.

Definition Compile (d : Detection) : R Compiled :=
  match Det_Compiler d with
  | None => throw NamesNoCompiler
  | Some c =>
      let src := mkSource (Source_Path (Det_Source d)) (Source_Data (Det_Source d)) (Rec_Parsed (Det_Recognition d)) in
      '(doc, diags, err) ← Catch (Compile_ c [src] (Det_Options d)) (Panicked (go "Compile"));
      stop_if_done ctx Done;;
      match err with
      | Some err => throw (CompileFailed err)
      | None =>
          table ← Catch (SourceTable c [src] (Det_Options d)) (Panicked (go "SourceTable"));
          match doc with
          | None =>
              check_compiled d None diags table table;;
              mret (mkCompiled None diags table)
          | Some l =>
              doc ← deref l;
              check_compiled d (Some doc) diags (Document_Sources doc) table;;
              mret (mkCompiled (Some l) (MergeDiagnostics (Document_Diagnostics doc) diags) (Document_Sources doc))
          end
      end
  end.
End Compilers.

(** ** What a registry holds *)

Section Registered.
Context {O Parsed FO : Type}.
#[local] Abbreviation Registry := (Registry (O:=O) (Parsed:=Parsed) (FO:=FO)).
Implicit Types (r : Registry) (f : SourceFormat).

(** Each format claimed belongs to the one compiler that reported it, and names
    a dialect; every compiler reported one. *)
Record registry_ok r : Prop := {
  ok_claimed f (i : nat) : byFormat r !! f = Some i ↔ ∃ e, ordered r !! i = Some e ∧ f ∈ reg_formats e;
  ok_dialects (i : nat) e : ordered r !! i = Some e → reg_formats e ≠ [] ∧ ∀ f, f ∈ reg_formats e → valid f = true
}.

Lemma NewRegistry_ok : registry_ok NewRegistry.
Proof.
  constructor; cbn; [|done]. intros f i. rewrite lookup_empty. split; [done|]. by intros (e & ? & _).
Qed.

Lemma admit_formats_Ok (taken : gmap SourceFormat nat) (fs : list SourceFormat) :
  admit_formats taken fs = Ok () ↔ ∀ f, f ∈ fs → valid f = true ∧ taken !! f = None.
Proof.
  induction fs as [|f fs IH]; cbn [admit_formats]; [split; [by intros _ f ?%elem_of_nil|done]|].
  destruct (valid f) eqn:Ev; cbn [negb]; [|split; [done|]; intros H; destruct (H f); [by left|congruence]].
  case_bool_decide as Ht.
  - split; [done|]. intros H. destruct (H f) as [_ Hn]; [by left|]. rewrite Hn in Ht. by destruct Ht.
  - rewrite IH. setoid_rewrite elem_of_cons. apply eq_None_not_Some in Ht. naive_solver.
Qed.

Lemma claim_all (fs : list SourceFormat) (m : gmap SourceFormat nat) (entry : nat) f :
  foldl (λ m f, <[f := entry]> m) m fs !! f = if decide (f ∈ fs) then Some entry else m !! f.
Proof.
  revert m. induction fs as [|g fs IH]; intros m; cbn [foldl]; [done|]. rewrite IH.
  destruct (decide (f ∈ fs)) as [Hin|Hni]; [by rewrite decide_True by by right|].
  destruct (decide (f = g)) as [->|Hne]; [by rewrite lookup_insert_eq, decide_True by by left|].
  rewrite lookup_insert_ne, decide_False by (done || by intros [?|?]%elem_of_cons). done.
Qed.

Lemma Register_ok r c w r' w' : registry_ok r → Register r c w = (Ok r', w') → registry_ok r'.
Proof.
  intros [H1 H2]. destruct c as [| |c]; cbn [Register]; [done..|]. rewrite bind_Ok. intros (fs & w1 & _ & E).
  apply bind_Ok in E as ([] & w2 & [Hne ->]%check_Ok & E). destruct (admit_formats _ fs) as [[]|] eqn:Ea; [|done]. injection E as <- <-.
  apply negb_true_iff, bool_decide_eq_false in Hne. rewrite admit_formats_Ok in Ea. constructor; cbn [byFormat ordered].
  - intros f i. rewrite claim_all. destruct (decide (f ∈ fs)) as [Hin|Hni].
    + split.
      * intros [= <-]. exists (mkRegistered c fs). split; [|done]. by rewrite lookup_app_r, Nat.sub_diag by lia.
      * intros (e & He & Hf). apply lookup_app_Some in He as [He|[Hle He]].
        -- exfalso. assert (byFormat r !! f = Some i) by (apply H1; by exists e). destruct (Ea f Hin). congruence.
        -- apply list_lookup_singleton_Some in He as [Hz _]. f_equal. lia.
    + rewrite H1. split; intros (e & He & Hf); exists e; (split; [|done]).
      * by apply lookup_app_l_Some.
      * apply lookup_app_Some in He as [|[_ He]]; [done|]. apply list_lookup_singleton_Some in He as [_ <-]. done.
  - intros i e He. apply lookup_app_Some in He as [He|[_ He]]; [by apply (H2 i)|].
    apply list_lookup_singleton_Some in He as [_ <-]. split; [done|]. intros f Hf. by apply Ea.
Qed.
End Registered.

(** ** What detecting and compiling promise *)

Section Promises.
Context {O Parsed FO : Type} (SourceHash : gostring → gostring) (ctx : nat → option gostring).
#[local] Abbreviation Registry := (Registry (O:=O) (Parsed:=Parsed) (FO:=FO)).
#[local] Abbreviation Detection := (Detection (O:=O) (Parsed:=Parsed) (FO:=FO)).
Implicit Types (r : Registry) (det : Detection) (w : world O).

(** Findings that index a table of [n] sources, as the code checks them. *)
Definition index_table ds n : Prop := ∀ d, d ∈ ds → InTable (Diagnostic_Provenance d) n = true.

Lemma FirstOutside_None ds n : FirstOutsideTable ds n = None ↔ index_table ds n.
Proof.
  unfold FirstOutsideTable, find_first. split.
  - intros E d Hd. destruct (InTable (Diagnostic_Provenance d) n) eqn:Ei; [done|]. exfalso.
    assert (Hf : d ∈ filter (λ x, negb (InTable (Diagnostic_Provenance x) n) = true) ds) by (apply list_elem_of_filter; by rewrite Ei).
    destruct (filter _ ds); [by apply elem_of_nil in Hf|done].
  - intros Hall. rewrite filter_none; [done|]. intros x Hx. by rewrite (Hall x Hx).
Qed.

Lemma checkIndexes_Ok ds n w u w' : checkIndexes ds n w = (Ok u, w') ↔ index_table ds n ∧ w' = w.
Proof.
  unfold checkIndexes. rewrite <- FirstOutside_None. destruct (FirstOutsideTable ds n); cbn; split; try done.
  - by intros [? _].
  - by intros [= _ <-].
  - intros [_ ->]. by destruct u.
Qed.

Lemma HasError_app ds ds' : HasError (ds ++ ds') = HasError ds || HasError ds'.
Proof.
  assert (H : ∀ ds, HasError ds = true ↔ ∃ x, x ∈ ds ∧ Diagnostic_Severity x = SeverityError).
  { intros l. unfold HasError, FirstError, find_first. rewrite bool_decide_eq_true. split.
    - intros [x Hx]. apply head_Some_elem_of in Hx. apply list_elem_of_filter in Hx as [Hs Hx]. exists x. split; [done|]. by apply bool_decide_eq_true in Hs.
    - intros (x & Hx & Hs). assert (Hf : x ∈ filter (λ x, bool_decide (Diagnostic_Severity x = SeverityError) = true) l).
      { apply list_elem_of_filter. split; [by apply bool_decide_eq_true|done]. }
      destruct (filter _ l); [by apply elem_of_nil in Hf|by eexists]. }
  apply eq_bool_prop_intro. rewrite !Is_true_true, orb_true_iff, !H. setoid_rewrite elem_of_app. naive_solver.
Qed.

(** What the compilers that declined said: silence, or an error naming the source. *)
Definition declines ds : Prop := index_table ds 1 ∧ (ds = [] ∨ HasError ds = true).

Lemma declines_app ds ds' : declines ds → declines ds' → declines (ds ++ ds').
Proof.
  intros [A1 A2] [B1 B2]. split; [intros d [?|?]%elem_of_app; auto|]. rewrite HasError_app.
  destruct A2 as [->| ->], B2 as [->| ->]; rewrite ?orb_true_r; auto.
Qed.

(** What a detection that returned found. *)
Definition decided r src det (ok : bool) : Prop :=
  Det_Source det = src ∧
  if ok then ∃ (i : nat) e, ordered r !! i = Some e ∧ Det_Compiler det = Some (reg_c e) ∧ Rec_Format (Det_Recognition det) ∈ reg_formats e
  else Det_Compiler det = None ∧ (∀ (i : nat) e, ordered r !! i = Some e → Rec_Format (Det_Recognition det) ∉ reg_formats e) ∧
       declines (Det_Declined det).

Lemma unclaimed r f : registry_ok r → byFormat r !! f = None ↔ ∀ (i : nat) e, ordered r !! i = Some e → f ∉ reg_formats e.
Proof.
  intros Hr. rewrite eq_None_not_Some. split.
  - intros Hn i e He Hf. apply Hn. exists i. apply (ok_claimed r Hr). by exists e.
  - intros Hall [i (e & He & Hf)%(ok_claimed r Hr)]. by apply (Hall i e).
Qed.

Lemma zero_unserved r (i : nat) e : registry_ok r → ordered r !! i = Some e → zeroFormat ∉ reg_formats e.
Proof. intros Hr He Hf. by apply (ok_dialects r Hr i e He) in Hf. Qed.

Lemma claim_decided r (i : nat) (a : answer (Parsed:=Parsed) (O:=O) (FO:=FO)) configure src w det ok w' : registry_ok r →
  claim r i a configure src w = (Ok (det, ok), w') → decided r src det ok.
Proof.
  intros Hr. unfold claim. destruct (byFormat r !! Rec_Format (a_rec a)) as [o|] eqn:Eo.
  - apply (ok_claimed r Hr) in Eo as (e & He & Hf). rewrite He, bind_Ok. intros ([opts optsErr] & w1 & _ & E).
    destruct optsErr; [done|]. injection E as <- <- <-. split; [done|]. exists o, e. cbn. split_and!; [done|done|]. by destruct (decide _).
  - intros [= <- <- <-]. split; [done|]. cbn. split_and!; [done| |split; [by intros d ?%elem_of_nil|by left]].
    by apply (unclaimed r).
Qed.

Lemma detect_from_decided r (i : nat) entries src configure declined w det ok w' : registry_ok r → declines declined →
  detect_from ctx r i entries src configure declined w = (Ok (det, ok), w') → decided r src det ok.
Proof.
  intros Hr. revert i declined w. induction entries as [|e entries IH]; intros i declined w Hd; cbn [detect_from].
  - intros [= <- <- <-]. split; [done|]. cbn. split_and!; [done| |done]. intros j e. by apply zero_unserved.
  - rewrite bind_Ok. intros ([] & w1 & _ & E). apply bind_Ok in E as (a & w2 & _ & E). apply bind_Ok in E as ([] & w3 & _ & E).
    apply bind_Ok in E as ([] & w4 & _ & E). destruct (a_ok a); cbn [negb] in E.
    + apply bind_Ok in E as ([] & w5 & _ & E). by eapply claim_decided.
    + apply bind_Ok in E as ([] & w5 & Hc & E). unfold checkDecline in Hc. apply bind_Ok in Hc as ([] & w6 & [Hs ->]%check_Ok & [Hi ->]%checkIndexes_Ok).
      apply IH in E; [done|]. apply declines_app; [done|]. split; [done|]. apply orb_true_iff in Hs as [Hs|Hs]; [left; by apply bool_decide_eq_true in Hs|by right].
Qed.

Lemma Detect_decided r src configure w det ok w' : registry_ok r →
  Detect ctx r src configure w = (Ok (det, ok), w') → decided r src det ok.
Proof.
  intros Hr. unfold Detect. destruct (is_empty (Source_Data src)).
  - intros [= <- <- <-]. split; [done|]. cbn. split_and!; [done| |split; [by intros d ?%elem_of_nil|by left]].
    intros j e. by apply zero_unserved.
  - apply detect_from_decided; [done|]. split; [by intros d ?%elem_of_nil|by left].
Qed.

(** What a compile that returned is held to. *)
Definition compiled_ok det (c : Compiled) w : Prop :=
  index_table (C_Diagnostics c) (Z.of_nat (length (C_Sources c))) ∧
  match C_Document c with
  | None => HasError (C_Diagnostics c) = true
  | Some l =>
      C_Sources c = Document_Sources (doc_at w l) ∧ CompatibleVersion (Document_IRVersion (doc_at w l)) = true ∧
      ∃ first rest, C_Sources c = first :: rest ∧ SourceInfo_Path first = Source_Path (Det_Source det) ∧
        SourceInfo_Format first = String (Rec_Format (Det_Recognition det)) ∧ SourceInfo_Hash first = SourceHash (Source_Data (Det_Source det))
  end.

Lemma Compile_held det w c w' : Compile SourceHash ctx det w = (Ok c, w') → compiled_ok det c w'.
Proof.
  unfold Compile. destruct (Det_Compiler det) as [comp|]; [|done]. rewrite bind_Ok. intros ([[doc diags] err] & w1 & _ & E).
  apply bind_Ok in E as ([] & w2 & _ & E). destruct err; [done|]. apply bind_Ok in E as (table & w3 & _ & E). destruct doc as [l|].
  - apply bind_Ok in E as (d & w4 & [-> ->]%deref_Ok & E). apply bind_Ok in E as ([] & w5 & Hc & [= <- <-]).
    unfold check_compiled in Hc. apply bind_Ok in Hc as ([] & ? & [Ht ->]%check_Ok & Hc).
    apply bind_Ok in Hc as ([] & ? & [Hv ->]%check_Ok & Hc). apply bind_Ok in Hc as ([] & ? & [Hs ->]%check_Ok & Hc).
    apply bind_Ok in Hc as ([] & ? & [Hi1 ->]%checkIndexes_Ok & [Hi2 ->]%checkIndexes_Ok).
    split; cbn [C_Diagnostics C_Sources C_Document]; [intros d [?|?]%Merge_elem; auto|]. split_and!; [done|done|].
    apply andb_true_iff in Hs as [Hs Hf]. apply andb_true_iff in Hs as [_ Hz].
    destruct (Document_Sources (doc_at w3 l)) as [|first rest]; [done|]. destruct table as [|entry table]; [done|].
    cbn [names_first] in Ht. apply bool_decide_eq_true in Ht. cbn in Hz. apply andb_true_iff in Hz as [Hp%bool_decide_eq_true _].
    apply andb_true_iff in Hf as [Hf%bool_decide_eq_true Hh%bool_decide_eq_true]. exists first, rest. split_and!; [done|congruence|done|done].
  - apply bind_Ok in E as ([] & w5 & Hc & [= <- <-]). unfold check_compiled in Hc. apply bind_Ok in Hc as ([] & ? & [Ht ->]%check_Ok & Hc).
    apply bind_Ok in Hc as ([] & ? & [He ->]%check_Ok & [Hi ->]%checkIndexes_Ok). by split.
Qed.
End Promises.
