(* ===== verification/Stage.v ===== *)
(** * Stage: the passes of a run, and what each is held to
    ([src/engine/stage.go], [src/engine/verify.go], [src/engine/passes.go],
    [src/engine/verdict.go])

    A pass may do anything to the world it runs in: panic, take time, or change
    documents it was not handed. What a run checks of it, and so what a run that
    returns promises, is stated over the documents pointers lead to. *)
From S2P Require Import Prelude GoLib Decimal IR Findings Effects Detect.
Implicit Types (ds diags found : list Diagnostic) (name : gostring) (t : Z).

#[export] Instance SourceInfo_eq_dec : EqDecision SourceInfo. Proof. solve_decision. Defined.

(** ** Verdicts *)

Abbreviation FailOn := gostring (only parsing).
Definition FailOnError : FailOn := SeverityError.
Definition FailOnWarning : FailOn := SeverityWarning.
Definition FailOnInfo : FailOn := SeverityInfo.
Definition FailOnNone : FailOn := go "none".

(** The severities, least severe first. *)
Definition severities : list Severity := [SeverityInfo; SeverityWarning; SeverityError].

(** [slices.Index] *)
Definition Index (l : list gostring) (x : gostring) : Z :=
  match list_find (λ y, y = x) l with Some (i, _) => Z.of_nat i | None => -1 end.

(** [FailOn.resolve]: the threshold, or the value that names none. *)
Definition resolve (f : FailOn) : result gostring Z :=
  let f := if is_empty f then FailOnError else f in
  if decide (f = FailOnNone) then Ok (Z.of_nat (length severities))
  else let rank := Index severities f in if (0 <=? rank)%Z then Ok rank else Err f.

(** [ParseFailOn] *)
Definition ParseFailOn (text : gostring) : result gostring FailOn :=
  if is_empty text then Err text else match resolve text with Ok _ => Ok text | Err e => Err e end.

(** [threshold.verdict] on whether there is a document and the diagnostics, or
    the first diagnostic of an unknown severity. *)
Fixpoint verdict_from t ds (failed : bool) : result Diagnostic bool :=
  match ds with
  | [] => Ok failed
  | d :: ds =>
      let rank := Index severities (Diagnostic_Severity d) in
      if (rank <? 0)%Z then Err d else verdict_from t ds (failed || (t <=? rank)%Z)
  end.
Definition verdict t (has_document : bool) ds : result Diagnostic bool := verdict_from t ds (negb has_document).

(** ** Passes *)

Section Passes.
Context {O F : Type} `{EqDecision F} (zeroF : F) (fingerprintOf : Document → result gostring F).
Context (ctx : nat → option gostring).

(** [Pass]: its name, or the panic [Name] ends in, and its run. *)
Record Pass := mkPass {
  Name : result gostring gostring;
  Run : loc → M O gostring (option loc * list Diagnostic)
}.
Inductive pass_value := NilPass | NilPassPointer | APass (p : Pass).
Record namedPass := mkNamedPass { np_name : gostring; np_pass : Pass }.

(** Why a list of passes is refused. *)
Inductive bind_error := PassIsNil (i : nat) | NamePanicked (i : nat) (text : gostring) | NoName (i : nat) | SameName (i j : nat) name.

Fixpoint bind_from (i : nat) (at_ : gmap gostring nat) (ps : list pass_value) : result bind_error (list namedPass) :=
  match ps with
  | [] => Ok []
  | (NilPass | NilPassPointer) :: _ => Err (PassIsNil i)
  | APass p :: ps =>
      match Name p with
      | Err text => Err (NamePanicked i text)
      | Ok name =>
          if is_empty name then Err (NoName i)
          else match at_ !! name with
               | Some first => Err (SameName first i name)
               | None => rest ← bind_from (S i) (<[name := i]> at_) ps; Ok (mkNamedPass name p :: rest)
               end
      end
  end.
Definition bindPasses (ps : list pass_value) : result bind_error (list namedPass) := bind_from 0 ∅ ps.

(** [Engine.enabledPasses]: the passes left on, or the name none of them carries. *)
Definition enabledPasses (passes : list namedPass) (disabled : list gostring) : result gostring (list namedPass) :=
  match list_find (λ name, name ∉ (np_name <$> passes)) disabled with
  | Some (_, name) => Err name
  | None => Ok (filter (λ p, np_name p ∉ disabled) passes)
  end.

(** ** Running them *)

Record Violation := mkViolation { Violation_Code : gostring; Violation_Message : gostring; Violation_Path : gostring }.

Inductive breach :=
  | NoDocument | VersionChanged (v : gostring) | SourcesMoved | DiagnosticsChanged
  | SourceOutOfRange (d : Diagnostic) (n : Z) | InputChanged | NoLongerEncodes (err : gostring).

(** What returned the document verified. *)
Inductive stage := CompileStage (path : gostring) | PassStage name | InputDocument.

Inductive stage_error :=
  | StopBefore name (err : gostring) | StopIn name (err : gostring) | StopAfter (err : gostring)
  | RunPanicked name (text : gostring)
  | Breach name (b : breach)
  | VerifyError (s : stage) (violations : list Violation).

(** [errors.Is(err, pass.ErrContract)] *)
Definition breaks_contract (e : stage_error) : bool :=
  match e with
  | RunPanicked _ _ | Breach _ _ | VerifyError (PassStage _) _ => true
  | _ => false
  end.

Record plan := mkPlan { p_passes : list namedPass; p_failOn : Z; p_verify : option (Document → list Violation) }.

Definition keepsSources (prev next : list SourceInfo) : bool :=
  (length prev <=? length next) && bool_decide (prev = take (length prev) next).

(** [checkOutput], on the documents the two pointers lead to. *)
Definition checkOutput (prev : Document) (next : option Document) diags : option breach :=
  match next with
  | None => Some NoDocument
  | Some next =>
      if negb (CompatibleVersion (Document_IRVersion next)) then Some (VersionChanged (Document_IRVersion next))
      else if negb (keepsSources (Document_Sources prev) (Document_Sources next)) then Some SourcesMoved
      else if negb (bool_decide (Document_Diagnostics next = [])) && negb (bool_decide (Document_Diagnostics prev = Document_Diagnostics next))
        then Some DiagnosticsChanged
      else match FirstOutsideTable diags (Z.of_nat (length (Document_Sources next))) with
           | Some d => Some (SourceOutOfRange d (Z.of_nat (length (Document_Sources next))))
           | None => None
           end
  end.

Abbreviation R A := (M O stage_error A).

(** [namedPass.run]; what comes back is a document. *)
Definition run (p : namedPass) (doc : loc) : R (loc * list Diagnostic) :=
  '(next, diags) ← Catch (Run (np_pass p) doc) (RunPanicked (np_name p));
  stop_if_done ctx (StopIn (np_name p));;
  prev ← deref doc;
  match next with
  | None => throw (Breach (np_name p) NoDocument)
  | Some l =>
      out ← deref l;
      match checkOutput prev (Some out) diags with
      | Some b => throw (Breach (np_name p) b)
      | None => mret (l, diags)
      end
  end.

Definition codeUnencodable : gostring := go "engine/unencodable".
Definition DocumentPath : gostring := go "doc".

Definition violations_of (verify : Document → list Violation) (quoted : gostring → gostring) (d : Document) : list Violation :=
  verify d ++ match fingerprintOf d with Ok _ => [] | Err e => [mkViolation codeUnencodable (quoted e) DocumentPath] end.

(** [plan.hold]; a fingerprint that fails is the zero one, and comes with an error. *)
Definition hold (quoted : gostring → gostring) (p : plan) (s : stage) (doc : loc) : R F :=
  match p_verify p with
  | None => mret zeroF
  | Some verify =>
      d ← deref doc;
      let violations := violations_of verify quoted d in
      if decide (length violations = 0) then mret match fingerprintOf d with Ok f => f | Err _ => zeroF end
      else throw (VerifyError s violations)
  end.

Definition afterPass (quoted : gostring → gostring) (p : plan) (np : namedPass) (before : F) (doc next : loc) : R F :=
  match p_verify p with
  | None => mret before
  | Some _ =>
      d ← deref doc;
      match fingerprintOf d with
      | Err e => throw (Breach (np_name np) (NoLongerEncodes e))
      | Ok after =>
          if negb (bool_decide (after = before)) then throw (Breach (np_name np) InputChanged)
          else if decide (next = doc) then mret before
          else hold quoted p (PassStage (np_name np)) next
      end
  end.

(** The loop of [plan.runPasses]. *)
Fixpoint run_from (quoted : gostring → gostring) (p : plan) (nps : list namedPass) (sum : F) (doc : loc) found : R (loc * list Diagnostic) :=
  match nps with
  | [] => stop_if_done ctx StopAfter;; mret (doc, found)
  | np :: nps =>
      stop_if_done ctx (StopBefore (np_name np));;
      '(next, diags) ← run np doc;
      sum ← afterPass quoted p np sum doc next;
      run_from quoted p nps sum next (found ++ diags)
  end.
Definition runPasses (quoted : gostring → gostring) (p : plan) (doc : loc) (sum : F) : R (loc * list Diagnostic) :=
  run_from quoted p (p_passes p) sum doc [].
End Passes.

(** ** What a verdict says *)

(** A severity at least as bad as a threshold's. *)
Definition reaches (f : FailOn) (s : Severity) : Prop :=
  (f = FailOnInfo ∧ s ∈ severities) ∨ (f = FailOnWarning ∧ (s = SeverityWarning ∨ s = SeverityError)) ∨
  ((f = FailOnError ∨ f = []) ∧ s = SeverityError).

Lemma rank_severity (s : Severity) :
  (s ∈ severities ∧ (0 <= Index severities s)%Z) ∨ (s ∉ severities ∧ Index severities s = (-1)%Z).
Proof.
  unfold Index. destruct (list_find (λ y, y = s) severities) as [[i y]|] eqn:E.
  - apply list_find_Some in E as (Hi & -> & _). left. split; [by eapply list_elem_of_lookup_2|lia].
  - right. split; [|done]. intros Hs. apply list_find_None in E. rewrite Forall_forall in E. by apply (E s).
Qed.

Lemma resolve_cases (f : FailOn) t : resolve f = Ok t →
  (f = FailOnNone ∧ t = 3%Z) ∨ (f = FailOnInfo ∧ t = 0%Z) ∨ (f = FailOnWarning ∧ t = 1%Z) ∨ ((f = FailOnError ∨ f = []) ∧ t = 2%Z).
Proof.
  destruct f as [|c f]; [intros Hr; vm_compute in Hr; injection Hr as <-; naive_solver|].
  unfold resolve. cbn [is_empty]. generalize (c :: f). clear c f. intros f. destruct (decide (f = FailOnNone)) as [->|_]; [intros [= <-]; by left|].
  unfold Index. destruct (list_find (λ y, y = f) severities) as [[i y]|] eqn:E; [|done].
  apply list_find_Some in E as (Hi & -> & _). rewrite (proj2 (Z.leb_le _ _)) by lia. intros [= <-].
  unfold severities in Hi. destruct i as [|[|[|i]]]; cbn in Hi; [injection Hi as <-..|done]; naive_solver.
Qed.

Lemma resolve_reaches (f : FailOn) t (s : Severity) : resolve f = Ok t → s ∈ severities → (t <= Index severities s)%Z ↔ reaches f s.
Proof.
  intros Hr Hs. assert (Hsev : s = SeverityInfo ∨ s = SeverityWarning ∨ s = SeverityError).
  { unfold severities in Hs. by repeat setoid_rewrite elem_of_cons in Hs; rewrite elem_of_nil in Hs; naive_solver. }
  unfold reaches. destruct (resolve_cases f t Hr) as [[-> ->]|[[-> ->]|[[-> ->]|[[-> | ->] ->]]]]; destruct Hsev as [->|[->| ->]];
    (split; [intros Hle; first [by vm_compute in Hle|naive_solver]|intros Hre; first [vm_compute; discriminate|exfalso; naive_solver]]).
Qed.

Lemma verdict_from_spec t ds (failed : bool) :
  match verdict_from t ds failed with
  | Ok b => (∀ d, d ∈ ds → Diagnostic_Severity d ∈ severities) ∧
            (b = true ↔ failed = true ∨ ∃ d, d ∈ ds ∧ (t <= Index severities (Diagnostic_Severity d))%Z)
  | Err d => ∃ before after, ds = before ++ d :: after ∧ Diagnostic_Severity d ∉ severities ∧
             ∀ x, x ∈ before → Diagnostic_Severity x ∈ severities
  end.
Proof.
  revert failed. induction ds as [|d ds IH]; intros failed; cbn [verdict_from].
  { split; [by intros d ?%elem_of_nil|]. split; [by left|]. by intros [?|(d & ?%elem_of_nil & _)]. }
  destruct (rank_severity (Diagnostic_Severity d)) as [[Hin Hk]|[Hni Hk]].
  - rewrite (proj2 (Z.ltb_ge _ _)) by done. specialize (IH (failed || (t <=? Index severities (Diagnostic_Severity d))%Z)).
    destruct (verdict_from t ds _) as [b|x].
    + destruct IH as [Hall Hb]. split; [intros y [->|?]%elem_of_cons; auto|]. rewrite Hb, orb_true_iff, Z.leb_le. setoid_rewrite elem_of_cons. naive_solver.
    + destruct IH as (before & after & -> & ? & Hall). exists (d :: before), after. split_and!; [done|done|]. intros y [->|?]%elem_of_cons; auto.
  - rewrite Hk. cbn. exists [], ds. split_and!; [done|done|]. by intros x ?%elem_of_nil.
Qed.

(** What a threshold makes of a run's findings. *)
Lemma verdict_spec (f : FailOn) t (has_document : bool) ds : resolve f = Ok t →
  match verdict t has_document ds with
  | Ok failed => (∀ d, d ∈ ds → Diagnostic_Severity d ∈ severities) ∧
      (failed = true ↔ has_document = false ∨ ∃ d, d ∈ ds ∧ reaches f (Diagnostic_Severity d))
  | Err d => ∃ before after, ds = before ++ d :: after ∧ Diagnostic_Severity d ∉ severities ∧
             ∀ x, x ∈ before → Diagnostic_Severity x ∈ severities
  end.
Proof.
  intros Hr. unfold verdict. pose proof (verdict_from_spec t ds (negb has_document)) as Hv. destruct (verdict_from _ _ _) as [b|x]; [|done].
  destruct Hv as [Hall Hb]. split; [done|]. rewrite Hb, negb_true_iff. f_equiv.
  split; intros (d & Hd & Hx); exists d; (split; [done|]); by apply (resolve_reaches f t (Diagnostic_Severity d) Hr (Hall d Hd)).
Qed.

Section PassLists.
Context {O : Type}.
#[local] Abbreviation pass_value := (pass_value (O:=O)).
#[local] Abbreviation namedPass := (namedPass (O:=O)).
Implicit Types (ps : list pass_value) (nps : list namedPass).

(** What a value of a list is bound as. *)
Definition bound_as (v : pass_value) (np : namedPass) : Prop :=
  v = APass (np_pass np) ∧ Name (np_pass np) = Ok (np_name np) ∧ np_name np ≠ [].

(** Why a value cannot follow those already bound. *)
Definition refused_as nps (v : pass_value) (e : bind_error) : Prop :=
  match e with
  | PassIsNil i => i = length nps ∧ (v = NilPass ∨ v = NilPassPointer)
  | NamePanicked i text => i = length nps ∧ ∃ p, v = APass p ∧ Name p = Err text
  | NoName i => i = length nps ∧ ∃ p, v = APass p ∧ Name p = Ok []
  | SameName i j name => j = length nps ∧ (∃ np, nps !! i = Some np ∧ np_name np = name) ∧ ∃ p, v = APass p ∧ Name p = Ok name
  end.

Lemma bind_from_spec ps (done_ : list namedPass) (at_ : gmap gostring nat) :
  (∀ name i, at_ !! name = Some i ↔ ∃ np, done_ !! i = Some np ∧ np_name np = name) → NoDup (np_name <$> done_) →
  match bind_from (length done_) at_ ps with
  | Ok nps => Forall2 bound_as ps nps ∧ NoDup (np_name <$> (done_ ++ nps))
  | Err e => ∃ before v after nps, ps = before ++ v :: after ∧ Forall2 bound_as before nps ∧ refused_as (done_ ++ nps) v e
  end.
Proof.
  revert done_ at_. induction ps as [|v ps IH]; intros done_ at_ Hat Hnd; cbn [bind_from]; [by rewrite app_nil_r|].
  assert (Hhere : ∀ e, refused_as done_ v e → ∃ before v' after nps, v :: ps = before ++ v' :: after ∧ Forall2 bound_as before nps ∧ refused_as (done_ ++ nps) v' e).
  { intros e He. exists [], v, ps, []. rewrite app_nil_r. split_and!; [done|constructor|done]. }
  destruct v as [| |p]; [apply Hhere; cbn; auto..|]. destruct (Name p) as [name|text] eqn:En; [|apply Hhere; cbn; eauto].
  destruct name as [|ch name]; [apply Hhere; cbn; eauto|]. cbn [is_empty].
  destruct (at_ !! (ch :: name)) as [first|] eqn:Ea; [apply Hhere; cbn; split_and!; [done|by apply Hat|by exists p]|].
  set (np := mkNamedPass (ch :: name) p).
  assert (Hfresh : (ch :: name) ∉ np_name <$> done_).
  { intros (np' & E & [i Hi]%list_elem_of_lookup)%list_elem_of_fmap. assert (at_ !! (ch :: name) = Some i) by (apply Hat; by exists np'). congruence. }
  specialize (IH (done_ ++ [np]) (<[ch :: name := length done_]> at_)). rewrite length_app in IH. cbn [length] in IH. rewrite Nat.add_1_r in IH.
  lapply IH; [clear IH; intros IH|].
  2: { intros name' i. destruct (decide (name' = ch :: name)) as [->|Hne].
       - rewrite lookup_insert_eq. split.
         + intros [= <-]. exists np. split; [by rewrite lookup_app_r, Nat.sub_diag by lia|done].
         + intros (np' & Hi & E). apply lookup_app_Some in Hi as [Hi|[Hle Hi]].
           * exfalso. apply Hfresh, list_elem_of_fmap. exists np'. split; [done|]. by eapply list_elem_of_lookup_2.
           * apply list_lookup_singleton_Some in Hi as [Hz _]. f_equal. lia.
       - rewrite lookup_insert_ne by done. rewrite Hat. split; intros (np' & Hi & E); exists np'; (split; [|done]).
         + by apply lookup_app_l_Some.
         + apply lookup_app_Some in Hi as [|[_ Hi]]; [done|]. apply list_lookup_singleton_Some in Hi as [_ <-]. by cbn in E. }
  lapply IH; [clear IH; intros IH|]; [|rewrite fmap_app; apply NoDup_app; split_and!; [done| |apply NoDup_singleton]; intros x Hx ->%list_elem_of_singleton; done].
  destruct (bind_from _ _ ps) as [nps|e]; cbn.
  - destruct IH as [Hb Hn]. rewrite <- app_assoc in Hn. split; [|exact Hn]. constructor; [|done]. done.
  - destruct IH as (before & v' & after & nps & -> & Hb & Hr). rewrite <- app_assoc in Hr. exists (APass p :: before), v', after, (np :: nps).
    split_and!; [done| |exact Hr]. by constructor.
Qed.
End PassLists.

(** ** What running passes keeps *)

Lemma InTable_more p (n m : Z) : (n <= m)%Z → InTable p n = true → InTable p m = true.
Proof. unfold InTable. rewrite !orb_true_iff, !andb_true_iff, !Z.leb_le, !Z.ltb_lt, !Z.eqb_eq. intros ? [?|[? ?]]; [by left|right; lia]. Qed.

Lemma keepsSources_prefix (a b : list SourceInfo) : keepsSources a b = true ↔ a `prefix_of` b.
Proof.
  unfold keepsSources. rewrite andb_true_iff, Nat.leb_le, bool_decide_eq_true. split.
  - intros [_ E]. exists (drop (length a) b). rewrite E at 1. by rewrite take_drop.
  - intros [c ->]. rewrite length_app, take_app_length. split; [lia|done].
Qed.

(** The promises a document and findings made from another keep. *)
Record carries_on (from to : Document) found : Prop := {
  carries_sources : Document_Sources from `prefix_of` Document_Sources to;
  carries_version : CompatibleVersion (Document_IRVersion from) = true → CompatibleVersion (Document_IRVersion to) = true;
  carries_diagnostics : Document_Diagnostics to = [] ∨ Document_Diagnostics to = Document_Diagnostics from;
  carries_found d : d ∈ found → InTable (Diagnostic_Provenance d) (Z.of_nat (length (Document_Sources to))) = true
}.

Lemma carries_refl d : carries_on d d [].
Proof. constructor; [done|done|by right|]. by intros x ?%elem_of_nil. Qed.

Lemma carries_trans a b c found1 found2 : carries_on a b found1 → carries_on b c found2 → carries_on a c (found1 ++ found2).
Proof.
  intros [A1 A2 A3 A4] [B1 B2 B3 B4]. constructor; [by etrans|auto| |].
  - destruct B3 as [?|E]; [by left|]. rewrite E. destruct A3 as [?|E']; [by left|by right].
  - intros d [Hd|Hd]%elem_of_app; [|by apply B4]. eapply InTable_more; [|by apply A4]. apply prefix_length in B1. lia.
Qed.

Lemma checkOutput_carries prev next diags : checkOutput prev (Some next) diags = None → carries_on prev next diags.
Proof.
  unfold checkOutput. destruct (CompatibleVersion _) eqn:Ev; [|done]. cbn [negb].
  destruct (keepsSources _ _) eqn:Ek; [|done]. cbn [negb]. destruct (_ && _) eqn:Ed; [done|].
  destruct (FirstOutsideTable _ _) eqn:Ef; [done|]. intros _. constructor.
  - by apply keepsSources_prefix.
  - done.
  - apply andb_false_iff in Ed as [Ed|Ed]; apply negb_false_iff, bool_decide_eq_true in Ed; auto.
  - by apply FirstOutside_None.
Qed.

Section Running.
Context {O F : Type} `{EqDecision F} (zeroF : F) (fingerprintOf : Document → result gostring F) (ctx : nat → option gostring).
Context (quoted : gostring → gostring).
#[local] Abbreviation namedPass := (namedPass (O:=O)).
#[local] Abbreviation run := (run ctx).
#[local] Abbreviation run_from := (run_from zeroF fingerprintOf ctx quoted).
#[local] Abbreviation hold := (hold zeroF fingerprintOf quoted).
#[local] Abbreviation afterPass := (afterPass zeroF fingerprintOf quoted).
Implicit Types (w : world O) (np : namedPass) (l doc next out : loc).

(** The contract of a pass: the document handed to it is left as it was. *)
Definition leaves_input np : Prop := ∀ l w r w' d, heap w !! l = Some d → Run (np_pass np) l w = (r, w') → heap w' !! l = Some d.

(** A pointer whose document names a version leads to one. *)
Lemma compatible_allocated w l : CompatibleVersion (Document_IRVersion (doc_at w l)) = true → heap w !! l = Some (doc_at w l).
Proof. unfold doc_at. by destruct (heap w !! l). Qed.

(** Two documents of one fingerprint are the same document. *)
Definition tells_apart : Prop := ∀ d d' f, fingerprintOf d = Ok f → fingerprintOf d' = Ok f → d = d'.

(** What a pass that ran returned, and where that left the world. *)
Lemma run_Ok np doc w next diags w' : run np doc w = (Ok (next, diags), w') →
  ∃ w1, Run (np_pass np) doc w = (Ok (Some next, diags), w1) ∧ heap w' = heap w1 ∧ ctx (now w1) = None ∧
    checkOutput (doc_at w1 doc) (Some (doc_at w1 next)) diags = None.
Proof.
  unfold run, Stage.run. rewrite bind_Ok. intros ([o ds] & w1 & E1%Catch_Ok & E). apply bind_Ok in E as ([] & w2 & [Hc ->]%stop_if_done_Ok & E).
  apply bind_Ok in E as (prev & w3 & [-> ->]%deref_Ok & E). destruct o as [l|]; [|done].
  apply bind_Ok in E as (d & w4 & [-> ->]%deref_Ok & E).
  destruct (checkOutput _ _ _) eqn:Eo; [done|]. injection E as <- <- <-. by exists w1.
Qed.

Lemma hold_Ok p s doc w f w' verify : p_verify p = Some verify → hold p s doc w = (Ok f, w') →
  w' = w ∧ fingerprintOf (doc_at w doc) = Ok f ∧ verify (doc_at w doc) = [].
Proof.
  intros Ev. unfold hold, Stage.hold. rewrite Ev, bind_Ok. intros (d & w1 & [-> ->]%deref_Ok & E).
  destruct (decide _) as [Hn|]; [|done]. unfold violations_of in Hn. rewrite length_app in Hn.
  destruct (fingerprintOf _) as [g|]; [|cbn in Hn; lia]. injection E as <- <-. split_and!; [done|done|]. apply length_zero_iff_nil. lia.
Qed.

Lemma afterPass_Ok p np before doc next w f w' verify : p_verify p = Some verify → afterPass p np before doc next w = (Ok f, w') →
  w' = w ∧ fingerprintOf (doc_at w doc) = Ok before ∧ fingerprintOf (doc_at w next) = Ok f ∧
  (doc_at w next = doc_at w doc ∨ verify (doc_at w next) = []).
Proof.
  intros Ev. unfold afterPass, Stage.afterPass. rewrite Ev, bind_Ok. intros (d & w1 & [-> ->]%deref_Ok & E).
  destruct (fingerprintOf (doc_at w doc)) as [after|] eqn:Ef; [|done]. destruct (bool_decide (after = before)) eqn:Eb; [|done]. cbn [negb] in E.
  apply bool_decide_eq_true in Eb as ->. destruct (decide (next = doc)) as [->|].
  - injection E as <- <-. split_and!; try done. by left.
  - eapply hold_Ok in E as (-> & ? & ?); [|done]. split_and!; try done. by right.
Qed.

(** A run that verifies. *)
Lemma run_from_verified p verify nps sum doc found w out found' w' :
  tells_apart → p_verify p = Some verify → fingerprintOf (doc_at w doc) = Ok sum →
  run_from p nps sum doc found w = (Ok (out, found'), w') →
  ∃ news, found' = found ++ news ∧ carries_on (doc_at w doc) (doc_at w' out) news ∧
    (verify (doc_at w doc) = [] → verify (doc_at w' out) = []) ∧ is_ok (fingerprintOf (doc_at w' out)) = true.
Proof.
  intros Hfp Ev. revert sum doc found w. induction nps as [|np nps IH]; intros sum doc found w Hsum; cbn [Stage.run_from]; rewrite bind_Ok.
  - intros ([] & w1 & [Hc ->]%stop_if_done_Ok & [= <- <- <-]). exists []. rewrite app_nil_r. split_and!; [done|apply carries_refl|done|]. cbn. by unfold doc_at; cbn; fold (doc_at w doc); rewrite Hsum.
  - intros ([] & w1 & [Hc ->]%stop_if_done_Ok & E). set (w1 := {| heap := heap w; now := S (now w); outside := outside w |}) in E.
    apply bind_Ok in E as ([next diags] & w2 & Hrun & E). apply run_Ok in Hrun as (w3 & Hrun & Hheap & Hctx & Hout).
    apply bind_Ok in E as (sum' & w4 & Hafter & E). eapply afterPass_Ok in Hafter as (-> & Hb & Hf & Hv); [|done].
    assert (Hsame : ∀ l, doc_at w2 l = doc_at w3 l) by (intros l; unfold doc_at; by rewrite Hheap). rewrite !Hsame in *.
    assert (Hkept : doc_at w3 doc = doc_at w doc) by (eapply Hfp; [exact Hb|exact Hsum]).
    rewrite Hkept in Hout, Hv. apply checkOutput_carries in Hout.
    apply IH in E as (news & -> & Hon & Hver & Hok); [|by rewrite Hsame]. rewrite Hsame in Hon, Hver.
    exists (diags ++ news). rewrite app_assoc. split_and!; [done|by eapply carries_trans| |done].
    intros Hd. apply Hver. destruct Hv as [->|?]; done.
Qed.

(** A run whose passes leave alone what they are handed. *)
Lemma run_from_pure p nps sum doc found w out found' w' :
  p_verify p = None → (∀ np, np ∈ nps → leaves_input np) → CompatibleVersion (Document_IRVersion (doc_at w doc)) = true →
  run_from p nps sum doc found w = (Ok (out, found'), w') →
  ∃ news, found' = found ++ news ∧ carries_on (doc_at w doc) (doc_at w' out) news.
Proof.
  intros Ev. revert sum doc found w. induction nps as [|np nps IH]; intros sum doc found w Hpure Hv; cbn [Stage.run_from]; rewrite bind_Ok.
  - intros ([] & w1 & [Hc ->]%stop_if_done_Ok & [= <- <- <-]). exists []. rewrite app_nil_r. split_and!; [done|apply carries_refl].
  - intros ([] & w1 & [Hc ->]%stop_if_done_Ok & E).
    apply bind_Ok in E as ([next diags] & w2 & Hrun & E). apply run_Ok in Hrun as (w3 & Hrun & Hheap & Hctx & Hout).
    apply bind_Ok in E as (sum' & w4 & Hafter & E). unfold Stage.afterPass in Hafter. rewrite Ev in Hafter. injection Hafter as -> ->.
    assert (Hsame : ∀ l, doc_at w4 l = doc_at w3 l) by (intros l; unfold doc_at; by rewrite Hheap).
    eapply (Hpure np) in Hrun; [|by left|by apply compatible_allocated]. assert (Hkept : doc_at w3 doc = doc_at w doc) by (unfold doc_at at 1; by rewrite Hrun).
    rewrite Hkept in Hout. apply checkOutput_carries in Hout.
    apply IH in E as (news & -> & Hon); [|intros; apply Hpure; by right|rewrite Hsame; by apply Hout]. rewrite Hsame in Hon.
    exists (diags ++ news). rewrite app_assoc. split; [done|]. by eapply carries_trans.
Qed.
End Running.

(** A pass that leaves one document alone, whatever it is handed. *)
Definition leaves_doc {O} (d : loc) (np : namedPass (O:=O)) : Prop :=
  ∀ l w r w' x, heap w !! d = Some x → Run (np_pass np) l w = (r, w') → heap w' !! d = Some x.

Lemma run_from_leaves {O F} `{EqDecision F} (zeroF : F) fingerprintOf ctx quoted (p : plan (O:=O)) nps sum (doc d : loc) found w out found' w' x :
  (∀ np, np ∈ nps → leaves_doc d np) → heap w !! d = Some x →
  run_from zeroF fingerprintOf ctx quoted p nps sum doc found w = (Ok (out, found'), w') → heap w' !! d = Some x.
Proof.
  revert sum doc found w. induction nps as [|np nps IH]; intros sum doc found w Hl Hd; cbn [run_from]; rewrite bind_Ok.
  - by intros ([] & w1 & [Hc ->]%stop_if_done_Ok & [= _ _ <-]).
  - intros ([] & w1 & [Hc ->]%stop_if_done_Ok & E).
    apply bind_Ok in E as ([next diags] & w2 & (w3 & Hrun & Hheap & _)%run_Ok & E). apply bind_Ok in E as (sum' & w4 & Ha & E).
    assert (w4 = w2) as ->.
    { destruct (p_verify p) as [verify|] eqn:Ev; [by eapply afterPass_Ok in Ha as (-> & _)|]. unfold afterPass in Ha. rewrite Ev in Ha. by injection Ha. }
    apply IH in E; [done|intros; apply Hl; by right|]. rewrite Hheap. by eapply (Hl np) in Hrun; [|by left|].
Qed.

(** Where a run can count on the documents it holds: it verifies them, or its
    passes leave alone what they are handed. *)
Definition counts_on {O F} (fingerprintOf : Document → result gostring F) (p : plan (O:=O)) : Prop :=
  match p_verify p with
  | Some _ => tells_apart fingerprintOf
  | None => ∀ np, np ∈ p_passes p → leaves_input np
  end.

Lemma runPasses_carries {O F} `{EqDecision F} (zeroF : F) fingerprintOf ctx quoted (p : plan (O:=O)) (doc : loc) sum w out found w' :
  counts_on fingerprintOf p → (is_Some (p_verify p) → fingerprintOf (doc_at w doc) = Ok sum) →
  CompatibleVersion (Document_IRVersion (doc_at w doc)) = true → runPasses zeroF fingerprintOf ctx quoted p doc sum w = (Ok (out, found), w') →
  carries_on (doc_at w doc) (doc_at w' out) found.
Proof.
  unfold counts_on. destruct (p_verify p) as [verify|] eqn:Ev; intros Hc Hsum Hver Hrun.
  - apply (run_from_verified _ _ _ _ p verify) in Hrun as (news & -> & H & _); [done..|by apply Hsum].
  - apply run_from_pure in Hrun as (news & -> & H); done.
Qed.

(** What holding and running the passes of a verified run comes to. *)
Lemma verified_spec {O F} `{EqDecision F} (zeroF : F) fingerprintOf ctx quoted (p : plan (O:=O)) verify s (doc : loc) w sum w1 out found w' :
  tells_apart fingerprintOf → p_verify p = Some verify →
  hold zeroF fingerprintOf quoted p s doc w = (Ok sum, w1) → runPasses zeroF fingerprintOf ctx quoted p doc sum w1 = (Ok (out, found), w') →
  carries_on (doc_at w doc) (doc_at w' out) found ∧ verify (doc_at w' out) = [] ∧ is_ok (fingerprintOf (doc_at w' out)) = true.
Proof.
  intros Hfp Ev Hh Hrun. eapply hold_Ok in Hh as (-> & Hsum & Hv); [|done].
  apply (run_from_verified _ _ _ _ p verify) in Hrun as (news & -> & Hc & Hver & Hok); [|done..]. auto.
Qed.
