(* ===== verification/Engine.v ===== *)
(** * Engine: a run from a source or a document to a judged result
    ([src/engine/engine.go], [src/engine/diag.go], [src/engine/stage.go])

    An engine detects a source's compiler, compiles it, runs the passes the
    caller left on and judges the result. Answering a run from the cache is the
    next file's. *)
From S2P Require Import Prelude GoLib Utf8 Decimal IR Findings Effects Detect Stage.
Implicit Types (ds declined : list Diagnostic).

(** ** Findings of the engine's own *)

Definition CodeUnrecognizedFormat : gostring := go "engine/unrecognized-format".
Definition CodeNoCompilerForFormat : gostring := go "engine/no-compiler-for-format".

Definition specProblem (code message : gostring) : Diagnostic := NewDiagnostic SeverityError code message zeroProvenance.

(** ** Formats *)

Definition format_le (a b : SourceFormat) : Prop :=
  if decide (Format_Name a = Format_Name b) then string_le (Format_Version a) (Format_Version b) else string_le (Format_Name a) (Format_Name b).
#[export] Instance string_le_dec a b : Decision (string_le a b).
Proof. unfold string_le. apply _. Defined.
#[export] Instance format_le_dec a b : Decision (format_le a b).
Proof. unfold format_le. destruct (decide _); apply _. Defined.

Fixpoint join_texts (separator : gostring) (texts : list gostring) : gostring :=
  match texts with
  | [] => []
  | [text] => text
  | text :: texts => text ++ separator ++ join_texts separator texts
  end.

Section Engine.
Context {O Parsed FO F : Type} `{EqDecision F}.
(** What the engine calls and does not look into: hashing and encoding a
    document, hashing a source, and quoting a text. *)
Context (zeroF : F) (fingerprintOf : Document → result gostring F) (SourceHash quoted : gostring → gostring).
Context (ctx : nat → option gostring).
#[local] Abbreviation Compiler := (Compiler (O:=O) (Parsed:=Parsed) (FO:=FO)).
#[local] Abbreviation Registry := (Registry (O:=O) (Parsed:=Parsed) (FO:=FO)).
#[local] Abbreviation Source := (Source (Parsed:=Parsed)).
#[local] Abbreviation plan := (plan (O:=O)).

Record RunOptions := mkRunOptions {
  RO_FormatOptions : option FO; RO_CompilerOptions : gmap gostring gostring; RO_DisablePasses : list gostring;
  RO_FailOn : FailOn; RO_Verify : bool
}.

Record Result := mkResult {
  R_Document : option loc; R_Diagnostics : list Diagnostic; R_Sources : list SourceInfo; R_Format : SourceFormat;
  R_Failed : bool; R_CacheErr : list gostring
}.

(** A [Cache]: an entry by its key, [None] where there is none, or an error. *)
Record Cache := mkCache {
  Load : gostring → M O gostring (result gostring (option gostring));
  Store : gostring → gostring → M O gostring (result gostring unit)
}.
Record cacheBinding := mkBinding { store : option Cache; build : gostring; workingDir : M O gostring gostring }.

(** [None] is an engine no constructor built. *)
Record Engine := mkEngine {
  e_registry : Registry; e_passes : list (namedPass (O:=O)); e_verifier : Document → list Violation; e_cache : option cacheBinding
}.

Inductive engine_error :=
  | OptionIsNil (i : nat) | NoCompilers | CacheIsNil | CacheHasNoBuild | RegisterFailed (i : nat) (e : failure) | PassesRefused (e : bind_error)
  | Uninitialized | OptionChannels | UnknownPass (name : gostring) | UnknownFailOn (f : gostring)
  | DetectFailed (e : failure) | CompileFails (e : failure) | StageFails (e : stage_error)
  | UnknownSeverity (d : Diagnostic)
  | NoDocumentGiven | CompilerOptionsUnused | NoVersion | OtherVersion (v : gostring) | FindingOutside (d : Diagnostic)
  | StoppedBefore (err : gostring) | NoPath | NoSources | ReadFailed (err : gostring) | StoppedAfterCache (err : gostring).
Abbreviation R A := (M O engine_error A).

(** ** Building one *)

Record config := mkConfig { c_compilers : list (compiler_value (O:=O) (Parsed:=Parsed) (FO:=FO)); c_passes : list (pass_value (O:=O)); c_cache : option cacheBinding }.

Fixpoint apply_options (i : nat) (opts : list (option (config → config))) (cfg : config) : result engine_error config :=
  match opts with
  | [] => Ok cfg
  | None :: _ => Err (OptionIsNil i)
  | Some opt :: opts => apply_options (S i) opts (opt cfg)
  end.

Fixpoint register_all (i : nat) (r : Registry) (cs : list (compiler_value (O:=O) (Parsed:=Parsed) (FO:=FO))) : R Registry :=
  match cs with
  | [] => mret r
  | c :: cs => r ← lift (RegisterFailed i) (Register r c); register_all (S i) r cs
  end.

(** [cacheBinding.check] *)
Definition check_cache (b : option cacheBinding) : result engine_error unit :=
  match b with
  | None => Ok tt
  | Some b => match store b with None => Err CacheIsNil | Some _ => if is_empty (build b) then Err CacheHasNoBuild else Ok tt end
  end.

(** [New]: the defaults are the built-in compilers and passes. *)
Definition New (defaults : config) (verifier : Document → list Violation) (opts : list (option (config → config))) : R Engine :=
  match apply_options 0 opts defaults with
  | Err e => throw e
  | Ok cfg =>
      Effects.check (negb (match c_compilers cfg with [] => true | _ => false end)) NoCompilers;;
      reg ← register_all 0 NewRegistry (c_compilers cfg);
      match bindPasses (c_passes cfg) with
      | Err e => throw (PassesRefused e)
      | Ok passes =>
          match check_cache (c_cache cfg) with
          | Err e => throw e
          | Ok _ => mret (mkEngine reg passes verifier (c_cache cfg))
          end
      end
  end.

(** ** Preparing a run *)

Definition prepare (e : option Engine) (opts : RunOptions) : result engine_error plan :=
  match e with
  | None => Err Uninitialized
  | Some e =>
      if bool_decide (is_Some (RO_FormatOptions opts)) && negb (bool_decide (size (RO_CompilerOptions opts) = 0)) then Err OptionChannels
      else match enabledPasses (e_passes e) (RO_DisablePasses opts) with
           | Err name => Err (UnknownPass name)
           | Ok passes =>
               match resolve (RO_FailOn opts) with
               | Err f => Err (UnknownFailOn f)
               | Ok failOn => Ok (mkPlan passes failOn (if RO_Verify opts then Some (e_verifier e) else None))
               end
           end
  end.

Definition formatOptions (c : Compiler) (opts : RunOptions) : M O gostring (result gostring (option FO)) :=
  if bool_decide (size (RO_CompilerOptions opts) = 0) then mret (Ok (RO_FormatOptions opts))
  else decoded ← DecodeOptions c (RO_CompilerOptions opts); mret (Some <$> decoded).

Definition configurer (opts : RunOptions) (docs : DocumentReader O) (c : Compiler) : M O gostring (result gostring (Options (O:=O) (FO:=FO))) :=
  formatOpts ← formatOptions c opts; mret ((λ fo, mkOptions fo (Some docs)) <$> formatOpts).

(** ** Compiling *)

Definition Formats (r : Registry) : list SourceFormat := merge_sort format_le (elements (dom (byFormat r))).
Definition served (r : Registry) : gostring := go "this build compiles " ++ join_texts (go ", ") (String <$> Formats r).

Definition undetected (r : Registry) (format : SourceFormat) declined : list Diagnostic :=
  if negb (is_empty (Format_Name format)) then
    [specProblem CodeNoCompilerForFormat (go "no compiler registered for format " ++ String format ++ go "; " ++ served r)]
  else match declined with
       | [] => [specProblem CodeUnrecognizedFormat (go "unrecognized spec format; " ++ served r)]
       | _ => declined
       end.

Definition set_diagnostics (d : Document) ds : Document :=
  mkDocument (Document_IRVersion d) (Document_IDSpaces d) (Document_Name d) (Document_Version d) (Document_Docs d)
    (Document_Contact d) (Document_License d) (Document_TermsOfService d) (Document_Services d) (Document_Types d)
    (Document_Channels d) (Document_Messages d) (Document_Auth d) (Document_Servers d) (Document_TagDefs d)
    (Document_Versions d) (Document_Unmodeled d) ds (Document_Sources d).

(** [withFindings]: a copy, as a stage may keep the document it returned. *)
Definition withFindings (doc : loc) ds : R loc := d ← deref doc; alloc (set_diagnostics d ds).

Abbreviation hold := (hold zeroF fingerprintOf quoted).
Abbreviation runPasses := (runPasses zeroF fingerprintOf ctx quoted).

Definition compile (e : Engine) (source : Source) (configure : Compiler → M O gostring (result gostring (Options (O:=O) (FO:=FO)))) (p : plan) : R Result :=
  '(det, ok) ← lift DetectFailed (Detect ctx (e_registry e) source configure);
  let format := Rec_Format (Det_Recognition det) in
  if negb ok then
    mret (mkResult None (undetected (e_registry e) format (Det_Declined det)) [mkSourceInfo [] (Source_Path source) [] []] format false [])
  else
    out ← lift CompileFails (Compile SourceHash ctx det);
    match C_Document out with
    | None => mret (mkResult None (C_Diagnostics out) (C_Sources out) format false [])
    | Some doc =>
        sum ← lift StageFails (hold p (CompileStage (Source_Path source)) doc);
        '(doc, found) ← lift StageFails (runPasses p doc sum);
        doc ← withFindings doc (MergeDiagnostics (C_Diagnostics out) found);
        d ← deref doc;
        mret (mkResult (Some doc) (Document_Diagnostics d) (Document_Sources d) format false [])
    end.

(** [threshold.judge] *)
Definition judge (t : Z) (res : Result) : R Result :=
  match verdict t (bool_decide (is_Some (R_Document res))) (R_Diagnostics res) with
  | Err d => throw (UnknownSeverity d)
  | Ok failed => mret (mkResult (R_Document res) (R_Diagnostics res) (R_Sources res) (R_Format res) failed (R_CacheErr res))
  end.

(** ** Running the passes over a document *)

Definition RunDocument (e : option Engine) (doc : option loc) (opts : RunOptions) : R Result :=
  match prepare e opts with
  | Err err => throw err
  | Ok p =>
      match doc with
      | None => throw NoDocumentGiven
      | Some doc =>
          Effects.check (negb (bool_decide (is_Some (RO_FormatOptions opts))) && bool_decide (size (RO_CompilerOptions opts) = 0)) CompilerOptionsUnused;;
          d ← deref doc;
          Effects.check (negb (is_empty (Document_IRVersion d))) NoVersion;;
          Effects.check (CompatibleVersion (Document_IRVersion d)) (OtherVersion (Document_IRVersion d));;
          match FirstOutsideTable (Document_Diagnostics d) (Z.of_nat (length (Document_Sources d))) with
          | Some x => throw (FindingOutside x)
          | None =>
              stop_if_done ctx StoppedBefore;;
              sum ← lift StageFails (hold p InputDocument doc);
              '(out, found) ← lift StageFails (runPasses p doc sum);
              given ← deref doc;
              out ← withFindings out (MergeDiagnostics (Document_Diagnostics given) found);
              d ← deref out;
              judge (p_failOn p) (mkResult (Some out) (Document_Diagnostics d) (Document_Sources d) zeroFormat false [])
          end
      end
  end.
End Engine.

(** ** What a run promises *)

Section Promise.
Context {O Parsed FO F : Type} `{EqDecision F}.
Context (zeroF : F) (fingerprintOf : Document → result gostring F) (SourceHash quoted : gostring → gostring) (ctx : nat → option gostring).
#[local] Abbreviation Engine := (Engine (O:=O) (Parsed:=Parsed) (FO:=FO)).
#[local] Abbreviation compile := (compile zeroF fingerprintOf SourceHash quoted ctx).
#[local] Abbreviation RunDocument := (RunDocument zeroF fingerprintOf quoted ctx).
Implicit Types (w : world O) (res : Result) (e : Engine).

(** A result's findings index the sources beside them; its document holds the
    same findings and sources; without one, an error says why. *)
Definition result_ok res w : Prop :=
  index_table (R_Diagnostics res) (Z.of_nat (length (R_Sources res))) ∧
  match R_Document res with
  | None => HasError (R_Diagnostics res) = true
  | Some l => Document_Diagnostics (doc_at w l) = R_Diagnostics res ∧ Document_Sources (doc_at w l) = R_Sources res ∧
      CompatibleVersion (Document_IRVersion (doc_at w l)) = true
  end.

Lemma doc_at_fresh w d : doc_at {| heap := <[fresh (dom (heap w)) := d]> (heap w); now := now w; outside := outside w |} (fresh (dom (heap w))) = d.
Proof. unfold doc_at. cbn. by rewrite lookup_insert_eq. Qed.

Lemma withFindings_Ok {A} (doc : loc) ds (k : loc → M O engine_error A) w a w' :
  (withFindings doc ds ≫= k) w = (Ok a, w') → ∃ l w1, k l w1 = (Ok a, w') ∧ doc_at w1 l = set_diagnostics (doc_at w doc) ds.
Proof.
  rewrite bind_Ok. intros (l & w1 & Hw & Hk). exists l, w1. split; [done|]. unfold withFindings in Hw.
  apply bind_Ok in Hw as (d & w2 & [-> ->]%deref_Ok & [= <- <-]). apply doc_at_fresh.
Qed.

(** The last step of a run, from what its stages carried on. *)
Lemma findings_ok (from : Document) stored (doc : loc) found format w (w' : world O) res (k : Result → M O engine_error Result) :
  CompatibleVersion (Document_IRVersion from) = true → index_table stored (Z.of_nat (length (Document_Sources from))) →
  carries_on from (doc_at w doc) found →
  (l ← withFindings doc (MergeDiagnostics stored found);
   d ← deref l; k (mkResult (Some l) (Document_Diagnostics d) (Document_Sources d) format false [])) w = (Ok res, w') →
  ∃ r w1, k r w1 = (Ok res, w') ∧ result_ok r w1.
Proof.
  intros Hv Hs [C1 C2 C3 C4] Hk. apply withFindings_Ok in Hk as (l & w1 & Hk & Hl).
  apply bind_Ok in Hk as (d & w2 & [-> ->]%deref_Ok & Hk). eexists _, w1. split; [exact Hk|]. unfold result_ok. cbn [R_Diagnostics R_Sources R_Document].
  split; [|split_and!; [done|done|]]; rewrite Hl; cbn [set_diagnostics Document_Diagnostics Document_Sources Document_IRVersion]; [|by apply C2].
  intros x [Hx|Hx]%Merge_elem; [|by apply C4]. eapply InTable_more; [|by apply Hs]. apply prefix_length in C1. lia.
Qed.

Lemma HasError_first (x : Diagnostic) ds : Diagnostic_Severity x = SeverityError → HasError (x :: ds) = true.
Proof.
  intros Hx. unfold HasError, FirstError, find_first. apply bool_decide_eq_true. rewrite filter_cons_True; [by eexists|]. by apply bool_decide_eq_true.
Qed.

Lemma undetected_ok r (format : SourceFormat) declined : declines declined → index_table (undetected (O:=O) (Parsed:=Parsed) (FO:=FO) r format declined) 1 ∧
  HasError (undetected (O:=O) (Parsed:=Parsed) (FO:=FO) r format declined) = true.
Proof.
  intros [Hi Hd]. unfold undetected. destruct (is_empty (Format_Name format)); cbn [negb].
  - destruct declined as [|x declined]; [|split; [done|by destruct Hd]].
    split; [|by apply HasError_first]. by intros d ->%list_elem_of_singleton.
  - split; [|by apply HasError_first]. by intros d ->%list_elem_of_singleton.
Qed.

Lemma register_all_ok (i : nat) r cs w r' w' : registry_ok r → register_all (O:=O) (Parsed:=Parsed) (FO:=FO) i r cs w = (Ok r', w') → registry_ok r'.
Proof.
  revert i r w. induction cs as [|c cs IH]; intros i r w Hr; cbn [register_all]; [by intros [= <- _]|].
  rewrite bind_Ok. intros (r1 & w1 & Hreg%lift_Ok & E). eapply IH; [|exact E]. by eapply Register_ok.
Qed.

Lemma New_ok defaults verifier opts w e w' : New defaults verifier opts w = (Ok e, w') → registry_ok (e_registry e).
Proof.
  unfold New. destruct (apply_options _ _ _) as [cfg|]; [|done]. rewrite bind_Ok. intros ([] & w1 & _ & E).
  apply bind_Ok in E as (reg & w2 & Hreg & E). apply register_all_ok in Hreg; [|apply NewRegistry_ok].
  destruct (bindPasses _); [|done]. destruct (check_cache _); [|done]. by injection E as <- _.
Qed.

Lemma prepare_failOn e opts p : prepare (Some e) opts = Ok p → resolve (RO_FailOn opts) = Ok (p_failOn p).
Proof.
  cbn. destruct (_ && _); [done|]. destruct (enabledPasses _ _); [|done]. destruct (resolve _); [|done]. by intros [= <-].
Qed.

(** What failing means for a result. *)
Definition failed_as (f : FailOn) res : Prop :=
  (∀ d, d ∈ R_Diagnostics res → Diagnostic_Severity d ∈ severities) ∧
  (R_Failed res = true ↔ R_Document res = None ∨ ∃ d, d ∈ R_Diagnostics res ∧ reaches f (Diagnostic_Severity d)).

Lemma verdict_failed e opts p res : prepare (Some e) opts = Ok p →
  verdict (p_failOn p) (bool_decide (is_Some (R_Document res))) (R_Diagnostics res) = Ok (R_Failed res) → failed_as (RO_FailOn opts) res.
Proof.
  intros Hp%prepare_failOn Hv. pose proof (verdict_spec _ _ (bool_decide (is_Some (R_Document res))) (R_Diagnostics res) Hp) as Hs.
  rewrite Hv in Hs. destruct Hs as [Hall Hf]. split; [done|]. by rewrite Hf, bool_decide_eq_false, eq_None_not_Some.
Qed.

Lemma compile_ok e source configure p w res w' : registry_ok (e_registry e) → counts_on fingerprintOf p →
  compile e source configure p w = (Ok res, w') → result_ok res w'.
Proof.
  intros Hr Hc. unfold compile. rewrite bind_Ok. intros ([det ok] & w1 & Hdet%lift_Ok & E). apply Detect_decided in Hdet as [Hsrc Hdet]; [|done].
  destruct ok; cbn [negb] in E.
  - apply bind_Ok in E as (out & w2 & Hout%lift_Ok & E). apply Compile_held in Hout as [Hi Hd]. destruct (C_Document out) as [doc|].
    + destruct Hd as (Hs & Hv & _). apply bind_Ok in E as (sum & w3 & Hsum%lift_Ok & E). apply bind_Ok in E as ([out' found] & w4 & Hrun%lift_Ok & E).
      assert (Hw : w3 = w2 ∧ (is_Some (p_verify p) → fingerprintOf (doc_at w2 doc) = Ok sum)).
      { destruct (p_verify p) as [verify|] eqn:Ev; [|unfold hold in Hsum; rewrite Ev in Hsum; injection Hsum as _ <-; split; [done|by intros [? ?]]].
        eapply hold_Ok in Hsum as (-> & ? & _); [|done]. done. }
      destruct Hw as [-> Hf]. apply runPasses_carries in Hrun; [|done..]. rewrite Hs in Hi.
      eapply (findings_ok _ _ _ _ _ _ _ _ mret) in E as (r & w5 & [= -> ->] & Hok); done.
    + injection E as <- <-. by split.
  - injection E as <- <-. destruct Hdet as (_ & _ & Hd). destruct (undetected_ok (e_registry e) (Rec_Format (Det_Recognition det)) _ Hd). by split.
Qed.

(** A result judged, and the one it was. *)
Lemma judge_Ok t r w res w' : judge t r w = (Ok res, w') →
  w' = w ∧ verdict t (bool_decide (is_Some (R_Document res))) (R_Diagnostics res) = Ok (R_Failed res) ∧ (result_ok r w → result_ok res w).
Proof. unfold judge. destruct (verdict _ _ _) as [failed|] eqn:Ev; [|done]. by intros [= <- <-]. Qed.

Lemma hold_kept s p doc w sum w' : hold zeroF fingerprintOf quoted p s doc w = (Ok sum, w') →
  w' = w ∧ (is_Some (p_verify p) → fingerprintOf (doc_at w doc) = Ok sum).
Proof.
  intros Hh. destruct (p_verify p) as [verify|] eqn:Ev.
  - eapply hold_Ok in Hh as (-> & ? & _); done.
  - unfold hold in Hh. rewrite Ev in Hh. injection Hh as _ <-. split; [done|by intros [? ?]].
Qed.

Lemma RunDocument_ok e doc opts p w res w' : prepare (Some e) opts = Ok p → counts_on fingerprintOf p →
  (∀ np, np ∈ p_passes p → leaves_doc doc np) → RunDocument (Some e) (Some doc) opts w = (Ok res, w') →
  result_ok res w' ∧ verdict (p_failOn p) (bool_decide (is_Some (R_Document res))) (R_Diagnostics res) = Ok (R_Failed res).
Proof.
  intros Hp Hc Hl. unfold RunDocument. rewrite Hp, bind_Ok.
  intros ([] & w1 & [_ ->]%check_Ok & E). apply bind_Ok in E as (d & w1 & [-> ->]%deref_Ok & E).
  apply bind_Ok in E as ([] & w1 & [_ ->]%check_Ok & E). apply bind_Ok in E as ([] & w1 & [Hv ->]%check_Ok & E).
  destruct (FirstOutsideTable _ _) eqn:Ef; [done|]. apply FirstOutside_None in Ef.
  apply bind_Ok in E as ([] & w1 & [_ ->]%stop_if_done_Ok & E). set (w1 := {| heap := heap w; now := S (now w); outside := outside w |}) in E.
  change (doc_at w doc) with (doc_at w1 doc) in *. clearbody w1.
  apply bind_Ok in E as (sum & w2 & [-> Hsum]%lift_Ok%hold_kept & E). apply bind_Ok in E as ([out found] & w3 & Hrun%lift_Ok & E).
  apply runPasses_carries in Hrun as Hon; [|done..]. pose proof (run_from_leaves zeroF fingerprintOf ctx quoted p (p_passes p) sum doc doc [] _ _ _ _ _ Hl (compatible_allocated _ _ Hv) Hrun) as Hheap.
  assert (Hkeep : doc_at w3 doc = doc_at w1 doc) by (unfold doc_at at 1; by rewrite Hheap).
  apply bind_Ok in E as (given & w4 & [-> ->]%deref_Ok & E). rewrite Hkeep in E.
  eapply (findings_ok _ _ _ _ zeroFormat) in E as (r & w5 & (-> & Hverdict & Hok)%judge_Ok & Hr); [by split; [apply Hok|]|done..].
Qed.
End Promise.
