(* ===== verification/Cache.v ===== *)
(** * Cache: answering a run from what an earlier one compiled
    ([src/engine/cache.go], [src/engine/cachereads.go],
    [src/engine/cacheentry.go], and the runs of engine.go that use it)

    The recorder a compile reads through is a part of the world of its own, so
    the outside of a run's world is a pair. Reading a store, a reader and a
    working directory are the caller's code. *)
From S2P Require Import Prelude GoLib Utf8 Decimal IR Ids Findings Effects Detect Stage Engine.

(** ** CacheKey: what a cached run is named by, and what an entry is sealed to
    ([src/engine/cachekey.go], [src/engine/cache/key.go],
    [src/engine/cacheentry.go])

    Hashes are parameters. That a key tells apart what it covers is proved of
    the framing the code writes under the hash. *)

Section Framing.
Implicit Types (field content head body : gostring).

(** ** Frames *)

(** [binary.AppendUvarint]: seven bits a byte, the lowest first. *)
Fixpoint uvarint_from (fuel : nat) (x : Z) : gostring :=
  match fuel with
  | O => []
  | S fuel => if (x <? 128)%Z then [byte_of x] else byte_of (128 + x mod 128) :: uvarint_from fuel (x / 128)
  end.
Definition uvarint (x : Z) : gostring := uvarint_from (S (Z.to_nat (Z.log2 x))) x.

(** What [KeyOf] writes of its fields: each after its length. *)
Definition framed (fields : list gostring) : gostring := concat ((λ field, uvarint (Z.of_nat (length field)) ++ field) <$> fields).

Record keyInputs := mkKeyInputs {
  k_Build : gostring; k_IRVersion : gostring; k_Dir : gostring; k_Path : gostring; k_SpecHash : gostring;
  k_Passes : list gostring; k_Settings : gmap gostring gostring
}.

(** The fields of [deriveKey]: the passes after their count, the settings last. *)
Definition settings_fields (settings : gmap gostring gostring) : list gostring :=
  concat ((λ name, [name; default [] (settings !! name)]) <$> sorted_keys settings).
Definition key_fields (ki : keyInputs) : list gostring :=
  [k_Build ki; k_IRVersion ki; k_Dir ki; k_Path ki; k_SpecHash ki; FormatInt (Z.of_nat (length (k_Passes ki)))] ++
  k_Passes ki ++ settings_fields (k_Settings ki).

Section Keys.
Context (sum256 : gostring → gostring) (hexsum : gostring → gostring).

Definition KeyOf (fields : list gostring) : gostring := sum256 (framed fields).
Definition deriveKey (ki : keyInputs) : gostring := KeyOf (key_fields ki).

(** ** Entries *)

Definition entrySeparator : ascii := ascii_of_nat 10.

(** [sealOf]: the hash of the key and then the content, in hex. *)
Definition sealOf (key content : gostring) : gostring := hexsum (key ++ content).
Definition sealed (key head body : gostring) : gostring :=
  let content := head ++ [entrySeparator] ++ body in sealOf key content ++ [entrySeparator] ++ content.

(** The part of [decodeEntry] that splits an entry its seal holds for. *)
Definition unsealed (key entry : gostring) : option (gostring * gostring) :=
  let '(seal, content, _) := Cut entry entrySeparator in
  if bool_decide (seal = sealOf key content) then
    let '(head, body, _) := Cut content entrySeparator in Some (head, body)
  else None.
End Keys.

(** ** Frames tell their fields apart *)

Lemma uvarint_from_app (n m : nat) (x y : Z) (a b : gostring) :
  (0 <= x < 128 ^ Z.of_nat (S n))%Z → (0 <= y < 128 ^ Z.of_nat (S m))%Z →
  uvarint_from (S n) x ++ a = uvarint_from (S m) y ++ b → x = y ∧ a = b.
Proof.
  revert m x y. induction n as [|n IH]; intros m x y Hx Hy.
  - change (128 ^ Z.of_nat 1)%Z with 128%Z in Hx. cbn [uvarint_from]. rewrite (proj2 (Z.ltb_lt x 128)) by lia.
    destruct (Z.ltb_spec y 128); cbn [app]; intros [= E Ea]; apply (f_equal code) in E; [|pose proof (Z.mod_pos_bound y 128 ltac:(lia))];
      rewrite !code_byte_of in E by lia; [done|lia].
  - remember (S n) as n' eqn:En. cbn [uvarint_from]. subst n'. pose proof (Z.mod_pos_bound x 128 ltac:(lia)) as Hmx. pose proof (Z.mod_pos_bound y 128 ltac:(lia)) as Hmy.
    destruct (Z.ltb_spec x 128), (Z.ltb_spec y 128); cbn [app]; intros [= E Ea]; apply (f_equal code) in E; rewrite !code_byte_of in E by lia; [done|lia|lia|].
    destruct m as [|m]; [change (128 ^ Z.of_nat 1)%Z with 128%Z in Hy; lia|].
    rewrite (Nat2Z.inj_succ (S n)), Z.pow_succ_r in Hx by lia. rewrite (Nat2Z.inj_succ (S m)), Z.pow_succ_r in Hy by lia.
    apply IH in Ea as [Eq ->]; [|split; [apply Z.div_pos; lia|apply Z.div_lt_upper_bound; lia]..].
    split; [|done]. rewrite (Z.div_mod x 128), (Z.div_mod y 128) by lia. rewrite Eq. lia.
Qed.

Lemma uvarint_app (x y : Z) (a b : gostring) : (0 <= x)%Z → (0 <= y)%Z → uvarint x ++ a = uvarint y ++ b → x = y ∧ a = b.
Proof.
  assert (Hb : ∀ z, (0 <= z)%Z → (z < 128 ^ Z.of_nat (S (Z.to_nat (Z.log2 z))))%Z).
  { intros z Hz. rewrite Nat2Z.inj_succ, Z2Nat.id by apply Z.log2_nonneg.
    destruct (Z.eq_dec z 0%Z) as [->|Hne]; [vm_compute; reflexivity|]. pose proof (Z.log2_spec z ltac:(lia)).
    eapply Z.lt_le_trans; [apply H|]. apply Z.pow_le_mono_l. lia. }
  intros Hx Hy. apply uvarint_from_app; split; auto.
Qed.

Lemma framed_inj (fs gs : list gostring) : framed fs = framed gs → fs = gs.
Proof.
  unfold framed. revert gs. induction fs as [|f fs IH]; intros [|g gs]; cbn [fmap list_fmap concat]; intros E; [done| | |].
  - exfalso. unfold uvarint in E. cbn [uvarint_from] in E. by destruct (_ <? 128)%Z.
  - exfalso. unfold uvarint in E. cbn [uvarint_from] in E. by destruct (_ <? 128)%Z.
  - rewrite <- !app_assoc in E. apply uvarint_app in E as [El E]; [|lia..].
    apply app_inj_1 in E as [-> E]; [|lia]. f_equal. by apply IH.
Qed.

Lemma FormatInt_nat_inj (n m : nat) : FormatInt (Z.of_nat n) = FormatInt (Z.of_nat m) → n = m.
Proof.
  unfold FormatInt. rewrite !(proj2 (Z.ltb_ge _ _)) by lia. intros E. apply (f_equal digits_value) in E.
  destruct (FormatUint_spec (Z.of_nat n)) as (H1 & H2 & H3); [lia|]. destruct (FormatUint_spec (Z.of_nat m)) as (G1 & G2 & G3); [lia|].
  apply Nat2Z.inj. congruence.
Qed.

(** The settings read back from their fields. *)
Lemma settings_fields_inj (m m' : gmap gostring gostring) : settings_fields m = settings_fields m' → m = m'.
Proof.
  assert (Hpairs : ∀ (f g : gostring → gostring) (l l' : list gostring),
    concat ((λ name, [name; f name]) <$> l) = concat ((λ name, [name; g name]) <$> l') → l = l' ∧ ∀ name, name ∈ l → f name = g name).
  { intros f g l. induction l as [|x l IH]; intros [|y l']; cbn; [intros _; split; [done|by intros ? ?%elem_of_nil]|done|done|].
    intros [= -> E1 E2]. apply IH in E2 as [-> Hall]. split; [done|]. intros name [->|?]%elem_of_cons; auto. }
  unfold settings_fields. intros [Ek Hv]%Hpairs. apply map_eq. intros name.
  assert (Hd : name ∈ dom m ↔ name ∈ dom m') by (by rewrite <- !elem_of_sorted_keys, Ek).
  destruct (m !! name) as [v|] eqn:E1, (m' !! name) as [v'|] eqn:E2; [|exfalso|exfalso|done].
  - specialize (Hv name). rewrite E1, E2 in Hv. f_equal. apply Hv, elem_of_sorted_keys, elem_of_dom. by eexists.
  - apply not_elem_of_dom in E2. apply E2, Hd, elem_of_dom. by eexists.
  - apply not_elem_of_dom in E1. apply E1, Hd, elem_of_dom. by eexists.
Qed.

Lemma key_fields_inj (x y : keyInputs) : key_fields x = key_fields y → x = y.
Proof.
  destruct x as [a1 b1 c1 d1 e1 p1 s1], y as [a2 b2 c2 d2 e2 p2 s2]. unfold key_fields. cbn.
  intros [= -> -> -> -> -> Ep E]. apply FormatInt_nat_inj in Ep. apply app_inj_1 in E as [-> E]; [|done].
  by apply settings_fields_inj in E as ->.
Qed.

Section Keyed.
Context (sum256 hexsum : gostring → gostring).

Lemma deriveKey_inj (x y : keyInputs) : (∀ a b, sum256 a = sum256 b → a = b) → deriveKey sum256 x = deriveKey sum256 y → x = y.
Proof. intros Hs E%Hs. by apply key_fields_inj, framed_inj. Qed.

(** An entry is read back by the key it was sealed with, and by no other. *)
Lemma unsealed_sealed key head body :
  (∀ a, entrySeparator ∉ hexsum a) → entrySeparator ∉ head → unsealed hexsum key (sealed hexsum key head body) = Some (head, body).
Proof.
  intros Hh Hn. unfold unsealed, sealed. cbn [app]. rewrite Cut_found by apply Hh. rewrite bool_decide_eq_true_2 by done.
  by rewrite Cut_found.
Qed.

Lemma unsealed_key key key' head body parts :
  (∀ a, entrySeparator ∉ hexsum a) → (∀ a b, hexsum a = hexsum b → a = b) → (∀ a b, key' ++ a = key ++ b → key' = key) →
  unsealed hexsum key' (sealed hexsum key head body) = Some parts → key' = key.
Proof.
  intros Hh Hinj Hp. unfold unsealed, sealed. cbn [app]. rewrite Cut_found by apply Hh. case_bool_decide as E; [|done].
  intros _. symmetry in E. by apply Hinj, Hp in E.
Qed.
End Keyed.

(** [documentRead] and [entryHead] *)
Record documentRead := mkRead { Request : DocumentRequest; Hash : gostring }.
Record entryHead := mkHead { Head_Format : SourceFormat; Head_Reads : list documentRead }.

(** [recorder]: what each read returned, and whether a read no replay could
    vouch for was made. *)
Record recorder := mkRecorder { reads : gmap DocumentRequest gostring; unsound : bool }.
Definition newRecorder : recorder := mkRecorder ∅ false.
End Framing.

Implicit Types (rec : recorder) (req : DocumentRequest).

Definition request_le (a b : DocumentRequest) : Prop :=
  if decide (Location a = Location b) then
    if decide (Within a = Within b) then (Limit a <= Limit b)%Z else string_le (Within a) (Within b)
  else string_le (Location a) (Location b).
#[export] Instance request_le_dec a b : Decision (request_le a b).
Proof. unfold request_le. repeat destruct (decide _); apply _. Defined.

(** [recorder.settled] *)
Definition settled rec : list documentRead * bool :=
  ((λ req, mkRead req (default [] (reads rec !! req))) <$> merge_sort request_le (elements (dom (reads rec))), negb (unsound rec)).

(** What one read adds to the record. *)
Definition record_read rec req (data : option gostring) (hash : gostring) : recorder :=
  let repeated := match reads rec !! req with Some seen => negb (bool_decide (seen = hash)) | None => false end in
  mkRecorder (<[req := hash]> (reads rec)) (unsound rec || bool_decide (data = None) || repeated).

Section Cache.
Context {O Parsed FO F : Type} `{EqDecision F}.
Context (zeroF : F) (fingerprintOf : Document → result gostring F) (SourceHash quoted : gostring → gostring) (ctx : nat → option gostring).
Context (sum256 hexsum : gostring → gostring).
Context (encodeDocument : Document → result gostring gostring) (decodeDocument : gostring → result gostring Document).
Context (encodeHead : entryHead → result gostring gostring) (decodeHead : gostring → result gostring entryHead).

(** The world of a cached run. *)
Abbreviation W := (O * recorder)%type.
#[local] Abbreviation Engine := (Engine (O:=W) (Parsed:=Parsed) (FO:=FO)).
#[local] Abbreviation RunOptions := (RunOptions (FO:=FO)).
#[local] Abbreviation plan := (plan (O:=W)).
#[local] Abbreviation Source := (Source (Parsed:=Parsed)).
#[local] Abbreviation R A := (M W engine_error A).
#[local] Abbreviation cacheBinding := (cacheBinding (O:=W)).
#[local] Abbreviation compile := (compile zeroF fingerprintOf SourceHash quoted ctx).

(** [recorder.ReadDocument] *)
Definition recorded (docs : DocumentReader W) : DocumentReader W := λ req w,
  let '(r, w) := docs req w in
  let '(data, hash) := match r with Ok data => (Some data, SourceHash data) | Err _ => (None, []) end in
  (r, {| heap := heap w; now := now w; outside := ((outside w).1, record_read (outside w).2 req data hash) |}).

Definition start_recording {E} : M W E unit := λ w, (Ok tt, {| heap := heap w; now := now w; outside := ((outside w).1, newRecorder) |}).
Definition recording {E} : M W E recorder := λ w, (Ok (outside w).2, w).

Definition cacheable (opts : RunOptions) : bool := negb (RO_Verify opts) && negb (bool_decide (is_Some (RO_FormatOptions opts))).

(** [runKey]; the error is the working directory's. *)
Definition run_inputs (b : cacheBinding) (dir : gostring) (spec : Source) (opts : RunOptions) (p : plan) : keyInputs :=
  mkKeyInputs (build b) IRVersion dir (Source_Path spec) (SourceHash (Source_Data spec)) (np_name <$> p_passes p) (RO_CompilerOptions opts).
Definition runKey (b : cacheBinding) (spec : Source) (opts : RunOptions) (p : plan) : M W gostring gostring :=
  dir ← workingDir b; mret (deriveKey sum256 (run_inputs b dir spec opts p)).

(** Errors of the cache, as texts. *)
Definition seal_broken : gostring := go "seal does not hold".

Definition encodeEntry (key : gostring) (doc : Document) (format : SourceFormat) (listed : list documentRead) : result gostring gostring :=
  body ← encodeDocument doc; head ← encodeHead (mkHead format listed); Ok (sealed hexsum key head body).

Definition decodeEntry (key entry : gostring) : result gostring (entryHead * gostring) :=
  match unsealed hexsum key entry with
  | None => Err seal_broken
  | Some (line, body) => head ← decodeHead line; Ok (head, body)
  end.

Fixpoint readsUnchanged (docs : DocumentReader W) (listed : list documentRead) : R bool :=
  match listed with
  | [] => mret true
  | read :: listed =>
      r ← attempt (docs (Request read));
      match r with
      | Err _ => mret false
      | Ok data => if decide (SourceHash data = Hash read) then readsUnchanged docs listed else mret false
      end
  end.

(** [cacheBinding.load]: a store that panics fails as one that returns an error. *)
Definition load (b : cacheBinding) (key : gostring) : R (result gostring (option gostring)) :=
  match store b with
  | None => mret (Ok None)
  | Some c =>
      r ← attempt (Load c key);
      mret match r with Ok answer => answer | Err panic => Err panic end
  end.

(** [cacheBinding.fetch]: a result, none, or why none could be had. *)
Definition fetch (b : cacheBinding) (key : gostring) (docs : DocumentReader W) : R (result gostring (option Result)) :=
  loaded ← load b key;
  match loaded with
  | Err e => mret (Err e)
  | Ok None => mret (Ok None)
  | Ok (Some entry) =>
      match decodeEntry key entry with
      | Err e => mret (Err e)
      | Ok (head, body) =>
          same ← readsUnchanged docs (Head_Reads head);
          if negb (same : bool) then mret (Ok None)
          else match decodeDocument body with
               | Err e => mret (Err e)
               | Ok d =>
                   l ← alloc d;
                   mret (Ok (Some (mkResult (Some l) (Document_Diagnostics d) (Document_Sources d) (Head_Format head) false [])))
               end
      end
  end.

(** [cacheBinding.keep]: the texts of what failed. *)
Definition keep (b : cacheBinding) (key : gostring) (res : Result) (rec : recorder) : R (list gostring) :=
  let '(listed, sound) := settled rec in
  match R_Document res with
  | None => mret []
  | Some l =>
      if negb sound then mret []
      else
        d ← deref l;
        match encodeEntry key d (R_Format res) listed with
        | Err e => mret [e]
        | Ok entry =>
            match store b with
            | None => mret []
            | Some c =>
                r ← attempt (Store c key entry);
                mret match r with Ok (Ok _) => [] | Ok (Err e) => [e] | Err panic => [panic] end
            end
        end
  end.

Definition with_cache_errors (res : Result) (errors : list gostring) : Result :=
  mkResult (R_Document res) (R_Diagnostics res) (R_Sources res) (R_Format res) (R_Failed res) errors.

(** [compileCached] *)
Definition compileCached (e : Engine) (spec : Source) (opts : RunOptions) (docs : DocumentReader W) (p : plan) : R Result :=
  match e_cache e with
  | None => compile e spec (configurer opts docs) p
  | Some b =>
      if negb (cacheable opts) then compile e spec (configurer opts docs) p
      else
        key ← attempt (runKey b spec opts p);
        match key with
        | Err keyErr =>
            res ← compile e spec (configurer opts docs) p;
            mret (with_cache_errors res [keyErr])
        | Ok key =>
            fetched ← fetch b key docs;
            match fetched with
            | Ok (Some res) => stop_if_done ctx StoppedAfterCache;; mret res
            | _ =>
                start_recording;;
                res ← compile e spec (configurer opts (recorded docs)) p;
                rec ← recording;
                kept ← keep b key res rec;
                mret (with_cache_errors res (match fetched with Err e => [e] | Ok _ => [] end ++ kept))
            end
        end
  end.

(** ** The runs *)

Context (layered : Source → DocumentReader W) (memory : list Source → result gostring (DocumentReader W))
        (ReadSource : gostring → Z → M W gostring gostring).

(** [runHeld] over a spec whose references are served its bytes. *)
Definition runHeld (e : Engine) (spec : Source) (opts : RunOptions) (p : plan) : R Result :=
  res ← compileCached e spec opts (layered spec) p; judge (p_failOn p) res.

Definition RunSpec (e : option Engine) (spec : Source) (opts : RunOptions) : R Result :=
  match prepare e opts, e with
  | Ok p, Some e =>
      Effects.check (negb (is_empty (Source_Path spec))) NoPath;;
      runHeld e (mkSource (Source_Path spec) (Source_Data spec) None) opts p
  | Err err, _ => throw err
  | _, None => throw Uninitialized
  end.

(** [Run]; [disk] reads every document from disk. *)
Definition Run (disk : DocumentReader W) (e : option Engine) (specPath : gostring) (opts : RunOptions) : R Result :=
  match prepare e opts, e with
  | Ok p, Some e =>
      limit ← lift DetectFailed (SourceLimit (e_registry e) (configurer opts disk));
      data ← lift ReadFailed (ReadSource specPath limit);
      runHeld e (mkSource specPath data None) opts p
  | Err err, _ => throw err
  | _, None => throw Uninitialized
  end.

Definition RunSources (e : option Engine) (sources : list Source) (opts : RunOptions) : R Result :=
  match prepare e opts, e with
  | Ok p, Some e =>
      match sources with
      | [] => throw NoSources
      | first :: _ =>
          match memory sources with
          | Err err => throw (ReadFailed err)
          | Ok docs =>
              res ← compileCached e (mkSource (Source_Path first) (Source_Data first) None) opts docs p;
              judge (p_failOn p) res
          end
      end
  | Err err, _ => throw err
  | _, None => throw Uninitialized
  end.
End Cache.

(** ** A compile as what it reads and what it makes of it *)

(** A compile that reads nothing but through its reader: it returns, or asks
    for a document and goes on with what it gets. *)
Inductive reading (A : Type) :=
  | Return (a : A)
  | Ask (req : DocumentRequest) (k : result gostring gostring → reading A).
Arguments Return {A}.
Arguments Ask {A}.

(** What a run is for: its document, findings, sources and format. *)
Record outcome := mkOutcome { o_Document : option Document; o_Diagnostics : list Diagnostic; o_Sources : list SourceInfo; o_Format : SourceFormat }.

(** The outcome where every read answers as [current] does. *)
Fixpoint answered {A} (current : DocumentRequest → result gostring gostring) (t : reading A) : A :=
  match t with Return a => a | Ask req k => answered current (k (current req)) end.

Section Reading.
Context {O : Type} (SourceHash : gostring → gostring) (Hhash : ∀ a b, SourceHash a = SourceHash b → a = b).
#[local] Abbreviation W := (O * recorder)%type.
#[local] Abbreviation recorded := (recorded (O:=O) SourceHash).

Fixpoint interp {A} (docs : DocumentReader W) (t : reading A) (w : world W) : A * world W :=
  match t with
  | Return a => (a, w)
  | Ask req k => let '(r, w) := docs req w in interp docs (k r) w
  end.

Lemma interp_answers {A} (docs : DocumentReader W) current (t : reading A) w :
  (∀ req w, (docs req w).1 = current req) → (interp docs t w).1 = answered current t.
Proof.
  intros Ha. revert w. induction t as [a|req k IH]; intros w; cbn [interp answered]; [done|].
  pose proof (Ha req w) as E. destruct (docs req w) as [r w']. cbn in E. rewrite E. apply IH.
Qed.

Lemma recorded_same (docs : DocumentReader W) req w : (recorded docs req w).1 = (docs req w).1.
Proof. unfold recorded, Cache.recorded. destruct (docs req w) as [[data|e] w1]; done. Qed.

(** Reads are only added to, and a record once unsound stays so. *)
Definition extends rec rec' : Prop :=
  (unsound rec = true → unsound rec' = true) ∧ (unsound rec' = false → ∀ req hash, reads rec !! req = Some hash → reads rec' !! req = Some hash).

Lemma extends_refl rec : extends rec rec.
Proof. by split. Qed.
Lemma extends_trans a b c : extends a b → extends b c → extends a c.
Proof.
  intros [A1 A2] [B1 B2]. split; [auto|]. intros Hc req hash Hr. apply B2; [done|]. apply A2; [|done].
  destruct (unsound b); [|done]. by rewrite B1 in Hc.
Qed.

Lemma record_extends rec req data hash : extends rec (record_read rec req data hash).
Proof.
  split; cbn; [by intros ->|]. rewrite !orb_false_iff. intros [[_ _] Hrep] req' hash' Hr.
  destruct (decide (req' = req)) as [->|Hne]; [|by rewrite lookup_insert_ne]. rewrite Hr in Hrep.
  apply negb_false_iff, bool_decide_eq_true in Hrep as ->. by rewrite lookup_insert_eq.
Qed.

(** Whatever its reads answered, time and world changing, a sound recording
    lists the bytes each request got. *)
Lemma interp_extends {A} (docs : DocumentReader W) (t : reading A) w :
  (∀ req w, (outside (docs req w).2).2 = (outside w).2) →
  extends (outside w).2 (outside (interp (recorded docs) t w).2).2.
Proof.
  intros Hd. revert w. induction t as [a|req k IH]; intros w; cbn [interp]; [apply extends_refl|].
  unfold recorded, Cache.recorded. pose proof (Hd req w) as Hk. destruct (docs req w) as [r w1]. cbn in Hk.
  destruct r as [data|e]; cbn; (eapply extends_trans; [|apply IH]); cbn; rewrite Hk; apply record_extends.
Qed.

(** Replaying a compile over documents that still have the bytes its sound
    recording lists makes the same thing of them. *)
Lemma replay {A} (docs : DocumentReader W) current (t : reading A) w a w' :
  (∀ req w, (outside (docs req w).2).2 = (outside w).2) →
  interp (recorded docs) t w = (a, w') → unsound (outside w').2 = false →
  (∀ req hash, reads (outside w').2 !! req = Some hash → ∃ data, current req = Ok data ∧ SourceHash data = hash) →
  answered current t = a.
Proof.
  intros Hd. revert w. induction t as [x|req k IH]; intros w; cbn [interp answered]; [by intros [= -> _]|].
  unfold recorded at 1, Cache.recorded at 1. pose proof (Hd req w) as Hk. destruct (docs req w) as [r w1]. cbn in Hk.
  destruct r as [data|e]; cbn; intros Hi Hu Hcur.
  - destruct (interp_extends docs (k (Ok data)) (mkWorld (heap w1) (now w1) ((outside w1).1, record_read (outside w1).2 req (Some data) (SourceHash data))) Hd) as [_ Hext].
    unfold recorded in Hext. rewrite Hi in Hext. cbn [snd outside] in Hext. destruct (Hcur req (SourceHash data)) as (data' & Hc & Hh).
    { apply Hext; [done|]. cbn. by rewrite lookup_insert_eq. }
    apply Hhash in Hh as ->. rewrite Hc. by eapply IH.
  - destruct (interp_extends docs (k (Err e)) (mkWorld (heap w1) (now w1) ((outside w1).1, record_read (outside w1).2 req None [])) Hd) as [Hext _].
    unfold recorded in Hext. rewrite Hi in Hext. cbn [snd outside] in Hext. rewrite Hext in Hu; [done|]. cbn. by rewrite orb_true_r.
Qed.
End Reading.

(** ** A cached run makes what compiling would *)

Section Sound.
Context {O Parsed FO F : Type} `{EqDecision F}.
Context (zeroF : F) (fingerprintOf : Document → result gostring F) (SourceHash quoted : gostring → gostring) (ctx : nat → option gostring).
Context (sum256 hexsum : gostring → gostring).
Context (encodeDocument : Document → result gostring gostring) (decodeDocument : gostring → result gostring Document).
Context (encodeHead : entryHead → result gostring gostring) (decodeHead : gostring → result gostring entryHead).
#[local] Abbreviation W := (O * recorder)%type.
#[local] Abbreviation plan := (plan (O:=W)).
#[local] Abbreviation Source := (Source (Parsed:=Parsed)).
#[local] Abbreviation RunOptions := (RunOptions (FO:=FO)).
#[local] Abbreviation compile := (compile zeroF fingerprintOf SourceHash quoted ctx).
#[local] Abbreviation recorded := (recorded SourceHash).
#[local] Abbreviation encodeEntry := (encodeEntry hexsum encodeDocument encodeHead).
#[local] Abbreviation decodeEntry := (decodeEntry hexsum decodeHead).
#[local] Abbreviation compileCached :=
  (compileCached zeroF fingerprintOf SourceHash quoted ctx sum256 hexsum encodeDocument decodeDocument encodeHead decodeHead).
Context (e : Engine (O:=W) (Parsed:=Parsed) (FO:=FO)) (b : cacheBinding (O:=W)) (c : Cache (O:=W)).
Context (in_dir : O → gostring) (prog : keyInputs → reading outcome).

(** What the outcome of a result is. *)
Definition outcome_of {V} (res : Result) (w : world V) : outcome :=
  mkOutcome (doc_at w <$> R_Document res) (R_Diagnostics res) (R_Sources res) (R_Format res).

Definition inputs_at (w : world W) (spec : Source) (opts : RunOptions) (p : plan) : keyInputs :=
  run_inputs SourceHash b (in_dir (outside w).1) spec opts p.

(** Hashes without collisions, and codecs that read back what they wrote. *)
Record faithful_codecs : Prop := {
  hash_inj x y : SourceHash x = SourceHash y → x = y;
  sum_inj x y : sum256 x = sum256 y → x = y;
  sum_prefix x y after after' : sum256 x ++ after = sum256 y ++ after' → sum256 x = sum256 y;
  hex_inj x y : hexsum x = hexsum y → x = y;
  hex_line x : entrySeparator ∉ hexsum x;
  document_back d text : encodeDocument d = Ok text → decodeDocument text = Ok d;
  head_back h text : encodeHead h = Ok text → decodeHead text = Ok h ∧ entrySeparator ∉ text
}.

(** The outcome of a compile of this build is decided by what its key covers and
    by what it reads through its reader, its only way to a document. The clock
    may have moved before it reads. *)
Definition decided_by_inputs : Prop := ∀ spec opts p docs w res w',
  cacheable opts = true → prepare (Some e) opts = Ok p → compile e spec (configurer opts docs) p w = (Ok res, w') →
  ∃ w0 w1, outside w0 = outside w ∧ interp docs (prog (inputs_at w spec opts p)) w0 = (outcome_of res w', w1) ∧ (outside w1).2 = (outside w').2.

(** Readers, the store and the working directory's reader keep off the recorder,
    the directory and the documents of the run. *)
Definition keeps_off {E A} (m : M W E A) : Prop :=
  ∀ w, (outside (m w).2).2 = (outside w).2 ∧ in_dir (outside (m w).2).1 = in_dir (outside w).1 ∧ heap (m w).2 = heap w.
Record well_behaved (docs : DocumentReader W) : Prop := {
  reads_keep req : keeps_off (docs req);
  load_keeps key : keeps_off (Load c key);
  store_keeps key entry : keeps_off (Store c key entry);
  dir_keeps : keeps_off (workingDir b);
  dir_answers w dir : (workingDir b w).1 = Ok dir → dir = in_dir (outside w).1
}.

(** An entry whose seal holds is one a run of this build kept, under whatever
    key and from whatever documents: a seal is not forged. *)
Definition authentic : Prop := ∀ key w entry parts,
  (Load c key w).1 = Ok (Ok (Some entry)) → unsealed hexsum key entry = Some parts →
  ∃ spec opts p docs w0 res w1 l,
    (∀ req w, (outside (docs req w).2).2 = (outside w).2) ∧ cacheable opts = true ∧ prepare (Some e) opts = Ok p ∧
    compile e spec (configurer opts (recorded docs)) p w0 = (Ok res, w1) ∧ R_Document res = Some l ∧
    (settled (outside w1).2).2 = true ∧
    encodeEntry (deriveKey sum256 (inputs_at w0 spec opts p)) (doc_at w1 l) (R_Format res) (settled (outside w1).2).1 = Ok entry.

Lemma compile_fields source configure p w res w' l : compile e source configure p w = (Ok res, w') → R_Document res = Some l →
  Document_Diagnostics (doc_at w' l) = R_Diagnostics res ∧ Document_Sources (doc_at w' l) = R_Sources res.
Proof.
  unfold Engine.compile. rewrite bind_Ok. intros ([det ok] & w1 & _ & E). destruct ok; cbn [negb] in E; [|injection E as <- _; by intros [=]].
  apply bind_Ok in E as (out & w2 & _ & E). destruct (C_Document out) as [doc|]; [|injection E as <- _; by intros [=]].
  apply bind_Ok in E as (sum & w3 & _ & E). apply bind_Ok in E as ([out' found] & w4 & _ & E). apply bind_Ok in E as (l' & w5 & _ & E).
  apply bind_Ok in E as (d & w6 & [-> ->]%deref_Ok & E). injection E as <- <-. by intros [= <-].
Qed.

Lemma settled_listed rec req hash : reads rec !! req = Some hash → mkRead req hash ∈ (settled rec).1.
Proof.
  intros E. cbn. apply list_elem_of_fmap. exists req. split; [by rewrite E|]. rewrite merge_sort_Permutation, elem_of_elements. by apply elem_of_dom.
Qed.

(** Rereading leaves the run where it was, and says what the documents hold. *)
Lemma readsUnchanged_spec docs current listed w same w' : well_behaved docs → (∀ req w, (docs req w).1 = current req) →
  readsUnchanged SourceHash docs listed w = (Ok same, w') →
  (outside w').2 = (outside w).2 ∧ in_dir (outside w').1 = in_dir (outside w).1 ∧ heap w' = heap w ∧
  (same = true → ∀ read, read ∈ listed → ∃ data, current (Request read) = Ok data ∧ SourceHash data = Hash read).
Proof.
  intros Hb Hc. revert w. induction listed as [|read listed IH]; intros w; cbn [readsUnchanged].
  - intros [= <- <-]. split_and!; [done..|]. by intros _ x ?%elem_of_nil.
  - rewrite bind_Ok. intros (r & w1 & Ea & E). rewrite attempt_run in Ea. injection Ea as <- <-.
    destruct (reads_keep docs Hb (Request read) w) as (K1 & K2 & K3). rewrite Hc in E. destruct (current (Request read)) as [data|] eqn:Ed.
    + destruct (decide (SourceHash data = Hash read)) as [Hh|].
      * apply IH in E as (I1 & I2 & I3 & I4). split_and!; [by rewrite I1|by rewrite I2|by rewrite I3|].
        intros Hs x [->|Hx]%elem_of_cons; [by exists data|by apply I4].
      * injection E as <- <-. by split_and!.
    + injection E as <- <-. by split_and!.
Qed.

(** What [fetch] answers a run with is what compiling would make. *)
Lemma fetch_spec docs current key spec opts p w r w' :
  faithful_codecs → decided_by_inputs → authentic → well_behaved docs → (∀ req w, (docs req w).1 = current req) →
  store b = Some c → key = deriveKey sum256 (inputs_at w spec opts p) →
  fetch SourceHash hexsum decodeDocument decodeHead b key docs w = (Ok r, w') →
  match r with
  | Ok (Some res) => outcome_of res w' = answered current (prog (inputs_at w spec opts p))
  | _ => in_dir (outside w').1 = in_dir (outside w).1
  end.
Proof.
  intros Hco Hdec Hau Hb Hcur Hst Hkey. unfold fetch. rewrite bind_Ok. intros (loaded & w1 & El & E). unfold load in El. rewrite Hst in El.
  rewrite bind_Ok in El. destruct El as (got & w2 & Ea & El). rewrite attempt_run in Ea. injection Ea as <- <-.
  destruct (load_keeps docs Hb key w) as (K1 & K2 & K3). injection El as El <-.
  destruct (Load c key w).1 as [answer|panic] eqn:EL; [|subst loaded; by injection E as <- <-]. subst loaded.
  destruct answer as [[entry|]|err]; [|by injection E as <- <-..]. unfold Cache.decodeEntry in E.
  destruct (unsealed hexsum key entry) as [[line body]|] eqn:Eu; [|by injection E as <- <-].
  destruct (decodeHead line) as [head|] eqn:Eh; cbn [mbind result_bind] in E; [|by injection E as <- <-].
  apply bind_Ok in E as (same & w3 & Er & E). apply (readsUnchanged_spec docs current) in Er as (I1 & I2 & I3 & I4); [|done..].
  destruct same; cbn [negb] in E; [|injection E as <- <-; congruence].
  destruct (decodeDocument body) as [d|] eqn:Ed; [|injection E as <- <-; congruence].
  apply bind_Ok in E as (l & w4 & El & E). injection El as <- <-. injection E as <- <-.
  destruct (Hau key w entry (line, body) EL Eu) as (spec0 & opts0 & p0 & docs0 & w0 & res0 & w5 & l0 & Hd0 & Hc0 & Hp0 & Hrun & Hdoc & Hsound & Hent).
  unfold Cache.encodeEntry in Hent. destruct (encodeDocument (doc_at w5 l0)) as [body0|] eqn:Eb; [|done]. cbn [mbind result_bind] in Hent.
  destruct (encodeHead _) as [line0|] eqn:Eh0; [|done]. injection Hent as <-.
  apply (head_back Hco) in Eh0 as [Eh0 Hline]. apply (document_back Hco) in Eb.
  assert (Hk : key = deriveKey sum256 (inputs_at w0 spec0 opts0 p0)).
  { eapply (unsealed_key hexsum); [apply Hco|apply Hco| |exact Eu]. intros after after'. rewrite Hkey. apply (sum_prefix Hco). }
  rewrite Hk, unsealed_sealed in Eu by (try apply Hco; done). injection Eu as <- <-.
  rewrite Eh0 in Eh. injection Eh as <-. rewrite Eb in Ed. injection Ed as <-.
  rewrite Hkey in Hk. apply deriveKey_inj in Hk; [|apply Hco]. rewrite Hk.
  destruct (Hdec _ _ _ _ _ _ _ Hc0 Hp0 Hrun) as (w7 & w6 & _ & Hint & Hout). unfold inputs_at.
  eapply (replay SourceHash (hash_inj Hco)) in Hint; [|exact Hd0|rewrite Hout; by apply negb_true_iff|].
  - rewrite Hint. destruct (compile_fields _ _ _ _ _ _ _ Hrun Hdoc) as [F1 F2]. unfold outcome_of. cbn. rewrite Hdoc. cbn.
    rewrite <- F1, <- F2. f_equal. f_equal. apply (doc_at_fresh w3).
  - rewrite Hout. intros req hash Hreq. apply (I4 eq_refl (mkRead req hash)). by apply settled_listed.
Qed.

Lemma doc_at_heap {U V} (w : world U) (w' : world V) l : heap w' = heap w → doc_at w' l = doc_at w l.
Proof. unfold doc_at. by intros ->. Qed.

Lemma outcome_heap {U V} res (w : world U) (w' : world V) errors : heap w' = heap w → outcome_of (with_cache_errors res errors) w' = outcome_of res w.
Proof. unfold outcome_of. intros Hh. cbn. f_equal. destruct (R_Document res) as [l|]; [|done]. cbn. f_equal. by apply doc_at_heap. Qed.

Lemma keep_heap docs key res rec w r w' : well_behaved docs → store b = Some c →
  keep hexsum encodeDocument encodeHead b key res rec w = (Ok r, w') → heap w' = heap w.
Proof.
  intros Hb Hst. unfold keep. destruct (settled rec) as [listed sound]. destruct (R_Document res) as [l|]; [|by intros [= _ <-]].
  destruct sound; cbn [negb]; [|by intros [= _ <-]]. rewrite bind_Ok. intros (d & w1 & [-> ->]%deref_Ok & E).
  destruct (Cache.encodeEntry _ _ _ _ _ _ _) as [entry|]; [|by injection E as _ <-]. rewrite Hst in E.
  apply bind_Ok in E as (x & w2 & Ea & E). rewrite attempt_run in Ea. injection Ea as _ <-. injection E as _ <-.
  apply (store_keeps docs Hb).
Qed.

(** What compiling makes, through a reader or a recording of it. *)
Lemma compile_outcome current docs spec opts p w res w' : decided_by_inputs → cacheable opts = true → prepare (Some e) opts = Ok p →
  (∀ req w, (docs req w).1 = current req) → compile e spec (configurer opts docs) p w = (Ok res, w') →
  outcome_of res w' = answered current (prog (inputs_at w spec opts p)).
Proof.
  intros Hdec Hopts Hp Hcur Hrun. destruct (Hdec _ _ _ _ _ _ _ Hopts Hp Hrun) as (w0 & w1 & _ & Hint & _).
  rewrite <- (interp_answers docs current _ w0 Hcur). by rewrite Hint.
Qed.

Lemma runKey_spec docs spec opts p w r w1 : well_behaved docs → runKey SourceHash sum256 b spec opts p w = (r, w1) →
  in_dir (outside w1).1 = in_dir (outside w).1 ∧ ∀ key, r = Ok key → key = deriveKey sum256 (inputs_at w spec opts p).
Proof.
  intros Hb. unfold runKey, mbind, M_bind. destruct (dir_keeps docs Hb w) as (_ & Hdir & _). pose proof (dir_answers docs Hb w) as Hans.
  destruct (workingDir b w) as [[dir|err] w2]; cbn [fst snd] in *; intros [= <- <-]; (split; [done|]); [|done].
  intros key [= <-]. unfold inputs_at. by rewrite <- (Hans dir).
Qed.

Lemma inputs_dir w w' spec opts p : in_dir (outside w').1 = in_dir (outside w).1 → inputs_at w' spec opts p = inputs_at w spec opts p.
Proof. unfold inputs_at. by intros ->. Qed.

Lemma compileCached_outcome current docs spec opts p w res w' :
  faithful_codecs → decided_by_inputs → authentic → well_behaved docs → (∀ req w, (docs req w).1 = current req) →
  e_cache e = Some b → store b = Some c → cacheable opts = true → prepare (Some e) opts = Ok p →
  compileCached e spec opts docs p w = (Ok res, w') →
  outcome_of res w' = answered current (prog (inputs_at w spec opts p)).
Proof.
  intros Hco Hdec Hau Hb Hcur He Hst Hopts Hp. unfold Cache.compileCached. rewrite He, Hopts. cbn [negb]. rewrite bind_Ok.
  intros (key & w1 & Ea & E). rewrite attempt_run in Ea. injection Ea as Ek Ew.
  destruct (runKey_spec docs spec opts p w key w1 Hb) as [Hdir Hkey]; [by destruct (runKey _ _ _ _ _ _ _); cbn in *; subst|]. clear Ek Ew.
  rewrite <- (inputs_dir w w1) by done. destruct key as [key|keyErr].
  - specialize (Hkey key eq_refl). rewrite <- (inputs_dir w w1) in Hkey by done. apply bind_Ok in E as (fetched & w2 & Ef & E).
    eapply (fetch_spec docs current) in Ef; try done.
    assert (Hmiss : ∀ fetched : result gostring (option Result), (match fetched with Ok (Some _) => False | _ => True end) → in_dir (outside w2).1 = in_dir (outside w1).1 →
      (start_recording;; res ← compile e spec (configurer opts (recorded docs)) p; rec ← recording; kept ← keep hexsum encodeDocument encodeHead b key res rec;
       mret (with_cache_errors res (match fetched with Err e => [e] | Ok _ => [] end ++ kept))) w2 = (Ok res, w') →
      outcome_of res w' = answered current (prog (inputs_at w1 spec opts p))).
    { intros fetched' _ Hdir2 E'. apply bind_Ok in E' as ([] & w3 & E3 & E'). injection E3 as <-.
      apply bind_Ok in E' as (made & w4 & Hrun & E'). apply bind_Ok in E' as (rec & w5 & Er & E'). injection Er as <- <-.
      apply bind_Ok in E' as (kept & w6 & Hk & E'). injection E' as <- <-. apply (keep_heap docs) in Hk; [|done..].
      rewrite (outcome_heap made w4) by done. eapply (compile_outcome current) in Hrun; [|done..|intros req w7; by rewrite recorded_same].
      rewrite Hrun. f_equal. f_equal. by rewrite <- (inputs_dir w1 w2). }
    destruct fetched as [[hit|]|err]; [|by apply (Hmiss (Ok None))|by apply (Hmiss (Err err))].
    apply bind_Ok in E as ([] & w3 & [_ ->]%stop_if_done_Ok & [= <- <-]). exact Ef.
  - apply bind_Ok in E as (made & w2 & Hrun & [= <- <-]). eapply (compile_outcome current) in Hrun; [|done..].
    rewrite (outcome_heap made w2) by done. exact Hrun.
Qed.
End Sound.
