(* ===== verification/Runs.v ===== *)
(** * Runs: what an engine's runs promise

    The theorems over detecting, the passes of a run and its verdict, over the
    engine that composes them and over cache keys; and a small build they are
    run on: a compiler that reads one document beside its source, and two
    passes. *)
From S2P Require Import Prelude GoLib Utf8 Decimal IR Findings Effects Detect Stage Engine Cache.

(** C33: a verdict fails a run exactly when it has no document or a finding at
    least as severe as the threshold named, and names the first finding whose
    severity is none of the three. *)
Theorem verdict_exact (f : FailOn) t (has_document : bool) ds : resolve f = Ok t →
  match verdict t has_document ds with
  | Ok failed => (∀ d, d ∈ ds → Diagnostic_Severity d ∈ severities) ∧
      (failed = true ↔ has_document = false ∨ ∃ d, d ∈ ds ∧ reaches f (Diagnostic_Severity d))
  | Err d => ∃ before after, ds = before ++ d :: after ∧ Diagnostic_Severity d ∉ severities ∧
             ∀ x, x ∈ before → Diagnostic_Severity x ∈ severities
  end.
Proof. apply verdict_spec. Qed.

(** Binding a list of passes keeps each with the name it gave, the names
    told apart, or refuses the list for its first value that is nil, whose name
    panics or is empty, or that repeats an earlier name, which it says where. *)
Theorem bindPasses_exact {O} (ps : list (pass_value (O:=O))) :
  match bindPasses ps with
  | Ok nps => Forall2 bound_as ps nps ∧ NoDup (np_name <$> nps)
  | Err e => ∃ before v after nps, ps = before ++ v :: after ∧ Forall2 bound_as before nps ∧ refused_as nps v e
  end.
Proof.
  apply (bind_from_spec ps [] ∅); [|constructor]. intros name i. rewrite lookup_empty. split; [done|]. by intros (np & ? & _).
Qed.

(** a detection from a registry that compilers were registered in finds a
    compiler that reported the format it names, or none: then no compiler
    reported it, and the ones that declined said nothing or gave an error, with
    findings of the source alone. *)
Theorem Detect_decides {O Parsed FO} ctx (defaults : config (O:=O) (Parsed:=Parsed) (FO:=FO)) verifier opts w0 e w1 src configure w det ok w' :
  New defaults verifier opts w0 = (Ok e, w1) →
  Detect ctx (e_registry e) src configure w = (Ok (det, ok), w') → decided (e_registry e) src det ok.
Proof. intros Hn%New_ok. by apply Detect_decided. Qed.

(** C31: a verified run whose passes return hands on a document the verifier
    accepts and that encodes, with the sources its compile named first and in
    order, and findings that index its sources, whatever the passes did to the
    documents they were given. *)
Theorem verified_run {O F} `{EqDecision F} (zeroF : F) fingerprintOf ctx quoted (p : plan (O:=O)) verify s (doc : loc) w sum w1 out found w' :
  tells_apart fingerprintOf → p_verify p = Some verify →
  hold zeroF fingerprintOf quoted p s doc w = (Ok sum, w1) → runPasses zeroF fingerprintOf ctx quoted p doc sum w1 = (Ok (out, found), w') →
  carries_on (doc_at w doc) (doc_at w' out) found ∧ verify (doc_at w' out) = [] ∧ is_ok (fingerprintOf (doc_at w' out)) = true.
Proof. apply verified_spec. Qed.

(** C30: a compiled run's result holds the findings and sources its document
    holds, each finding within its sources, and without a document an error says
    why; it failed exactly when a finding reaches the threshold asked for or
    there is no document. *)
Theorem RunSpec_contract {O Parsed FO F} `{EqDecision F} (zeroF : F) fingerprintOf SourceHash quoted ctx sum256 hexsum
    encodeDocument decodeDocument encodeHead decodeHead layered
    (defaults : config (O:=O * recorder) (Parsed:=Parsed) (FO:=FO)) verifier opts0 w0 e w1 spec opts p w res w' :
  New defaults verifier opts0 w0 = (Ok e, w1) → prepare (Some e) opts = Ok p → e_cache e = None ∨ cacheable opts = false →
  counts_on fingerprintOf p →
  RunSpec zeroF fingerprintOf SourceHash quoted ctx sum256 hexsum encodeDocument decodeDocument encodeHead decodeHead layered (Some e) spec opts w = (Ok res, w') →
  result_ok res w' ∧ failed_as (RO_FailOn opts) res.
Proof.
  intros Hn%New_ok Hp Hc Hcount. unfold RunSpec. rewrite Hp, bind_Ok. intros ([] & w2 & [_ ->]%check_Ok & E).
  apply bind_Ok in E as (made & w3 & Hrun & (-> & Hv & Hok)%judge_Ok). assert (Hm : compile zeroF fingerprintOf SourceHash quoted ctx e
    (mkSource (Source_Path spec) (Source_Data spec) None) (configurer opts (layered (mkSource (Source_Path spec) (Source_Data spec) None))) p w = (Ok made, w3)).
  { unfold compileCached in Hrun. destruct (e_cache e) as [b|]; [|done]. destruct Hc as [?|Hc]; [done|]. by rewrite Hc in Hrun. }
  split; [apply Hok; by eapply compile_ok|by eapply verdict_failed].
Qed.

(** The same of passes run over a document, when none of them changes the
    one the run was given. *)
Theorem RunDocument_contract {O Parsed FO F} `{EqDecision F} (zeroF : F) fingerprintOf quoted ctx
    (e : Engine (O:=O) (Parsed:=Parsed) (FO:=FO)) (doc : loc) opts p w res w' :
  prepare (Some e) opts = Ok p → counts_on fingerprintOf p → (∀ np, np ∈ p_passes p → leaves_doc doc np) →
  RunDocument zeroF fingerprintOf quoted ctx (Some e) (Some doc) opts w = (Ok res, w') →
  result_ok res w' ∧ failed_as (RO_FailOn opts) res.
Proof.
  intros Hp Hc Hl Hrun. eapply RunDocument_ok in Hrun as [Hok Hv]; [|done..]. split; [done|by eapply verdict_failed].
Qed.

(** under a hash without collisions a cache key tells apart every build,
    version, directory, path, source, list of passes and set of settings. *)
Theorem deriveKey_injective sum256 (x y : keyInputs) :
  (∀ a b, sum256 a = sum256 b → a = b) → deriveKey sum256 x = deriveKey sum256 y → x = y.
Proof. apply deriveKey_inj. Qed.

(** ** A small build *)

Module Toy.
Definition format : SourceFormat := mkSourceFormat (go "toy") (go "1").
Definition beside : DocumentRequest := mkRequest (go "beside.txt") [] 0.

(** The document made of a source's path and bytes and of the one beside it. *)
Definition document (path data name : gostring) : Document :=
  mkDocument IRVersion ∅ name [] zeroDocs None None [] [] ∅ ∅ ∅ ∅ ∅ [] [] ∅ [] [mkSourceInfo (String format) path data []].
Definition unreadable : Diagnostic := mkDiagnostic SeverityError (go "toy/unreadable") (go "nothing beside it") zeroProvenance.

Abbreviation W := (unit * recorder)%type.

Definition compiler : Compiler (O:=W) (Parsed:=unit) (FO:=unit) := {|
  Detect.Formats := mret [format];
  Detect_ := λ _ _, mret (mkRecognition format None, [], true);
  DecodeOptions := λ _, mret (Ok tt);
  SourceLimit_ := λ _, mret 0%Z;
  Compile_ := λ sources opts,
    match sources, Reader opts with
    | src :: _, Some docs =>
        r ← attempt (docs beside);
        match r with
        | Ok name => l ← alloc (document (Source_Path src) (Source_Data src) name); mret (Some l, [], None)
        | Err _ => mret (None, [unreadable], None)
        end
    | _, _ => mret (None, [unreadable], None)
    end;
  SourceTable := λ sources _, mret ((λ src, mkSourceInfo [] (Source_Path src) [] []) <$> sources)
|}.

Definition registry : Registry (O:=W) (Parsed:=unit) (FO:=unit) := {|
  byFormat := {[format := 0]}; ordered := [mkRegistered compiler [format]] |}.

(** One document of it, known from every other. *)
Definition kept : Document := document (go "a.toy") (go "source") (go "text").

Definition is_none {A} (o : option A) : bool := match o with None => true | _ => false end.
Definition is_void {A} (m : gmap gostring A) : bool := size m =? 0.

Definition is_kept (d : Document) : bool :=
  bool_decide (Document_IRVersion d = IRVersion) && is_void (Document_IDSpaces d) && bool_decide (Document_Name d = go "text") &&
  is_nil (Document_Version d) && is_nil (Docs_Summary (Document_Docs d)) && is_nil (Docs_Description (Document_Docs d)) &&
  is_nil (Docs_Refs (Document_Docs d)) && is_nil (Docs_ExternalDocs (Document_Docs d)) && is_none (Document_Contact d) &&
  is_none (Document_License d) && is_nil (Document_TermsOfService d) && is_nil (Document_Services d) && is_void (Document_Types d) &&
  is_void (Document_Channels d) && is_void (Document_Messages d) && is_void (Document_Auth d) && is_void (Document_Servers d) &&
  is_nil (Document_TagDefs d) && is_nil (Document_Versions d) && is_void (Document_Unmodeled d) && is_nil (Document_Diagnostics d) &&
  bool_decide (Document_Sources d = Document_Sources kept).

Lemma is_none_true {A} (o : option A) : is_none o = true → o = None.
Proof. by destruct o. Qed.
Lemma is_void_true {A} (m : gmap gostring A) : is_void m = true → m = ∅.
Proof. unfold is_void. rewrite Nat.eqb_eq. apply map_size_empty_inv. Qed.

Lemma is_kept_true d : is_kept d = true → d = kept.
Proof.
  destruct d as [v1 v2 v3 v4 [d1 d2 d3 d4] v6 v7 v8 v9 v10 v11 v12 v13 v14 v15 v16 v17 v18 v19]. unfold is_kept. cbn.
  repeat rewrite andb_true_iff. intros H. destruct_and!.
  repeat match goal with
  | H : is_nil _ = true |- _ => apply is_nil_true in H; subst
  | H : is_none _ = true |- _ => apply is_none_true in H; subst
  | H : is_void _ = true |- _ => apply is_void_true in H; subst
  | H : bool_decide _ = true |- _ => apply bool_decide_eq_true in H; subst
  end. reflexivity.
Qed.


(** A pass that hands on a copy with a note, and one that changes what it was handed. *)
Definition note : Diagnostic := mkDiagnostic SeverityWarning (go "toy/note") (go "copied") zeroProvenance.
Definition copier : Pass (O:=W) := mkPass (Ok (go "copy")) (λ doc, d ← deref doc; l ← alloc d; mret (Some l, [note])).
Definition never_done (_ : nat) : option gostring := None.
Definition no_fingerprint (_ : Document) : result gostring nat := Ok 0.
Definition kept_fingerprint (d : Document) : result gostring nat := if is_kept d then Ok 0 else Err (go "not written").
Definition start : world W := mkWorld {[7 := kept]} 0 (tt, newRecorder).
Definition text_reader : DocumentReader W := λ _, mret (go "text").
Definition defaults : config (O:=W) (Parsed:=unit) (FO:=unit) := mkConfig [ACompiler compiler] [APass copier] None.
Definition verifier (d : Document) : list Violation := if is_kept d then [] else [mkViolation (go "toy/other") [] []].
Definition engine : Engine (O:=W) (Parsed:=unit) (FO:=unit) := mkEngine registry [mkNamedPass (go "copy") copier] verifier None.
Definition spec : Source (Parsed:=unit) := mkSource (go "a.toy") (go "source") None.
Definition options (failOn : FailOn) : RunOptions (FO:=unit) := mkRunOptions None ∅ [] failOn false.
Definition verifying : plan (O:=W) := mkPlan (e_passes engine) 2 (Some verifier).
End Toy.

(** ** The theorems at work *)

Lemma copier_pure (np : namedPass (O:=Toy.W)) : np ∈ e_passes Toy.engine → leaves_input np.
Proof.
  intros ->%list_elem_of_singleton l w r w' d Hl E. unfold Toy.copier in E. cbn in E. injection E as _ <-. cbn [heap].
  rewrite lookup_insert_ne; [done|]. intros Hf. apply (is_fresh (dom (heap w))). apply elem_of_dom. exists d. by rewrite Hf.
Qed.

Lemma copier_leaves d (np : namedPass (O:=Toy.W)) : np ∈ e_passes Toy.engine → leaves_doc d np.
Proof.
  intros ->%list_elem_of_singleton l w r w' x Hl E. unfold Toy.copier in E. cbn in E. injection E as _ <-. cbn [heap].
  rewrite lookup_insert_ne; [done|]. intros Hf. apply (is_fresh (dom (heap w))). apply elem_of_dom. exists x. by rewrite Hf.
Qed.

Lemma kept_told_apart : tells_apart Toy.kept_fingerprint.
Proof.
  intros d d' f. unfold Toy.kept_fingerprint. destruct (Toy.is_kept d) eqn:E, (Toy.is_kept d') eqn:E'; try done.
  by rewrite (Toy.is_kept_true d E), (Toy.is_kept_true d' E').
Qed.

Lemma verdict_exact_witness : resolve FailOnWarning = Ok 1%Z ∧ verdict 1 true [Toy.note] = Ok true ∧
  ∃ d, d ∈ [Toy.note] ∧ reaches FailOnWarning (Diagnostic_Severity d).
Proof.
  split_and!; [by vm_compute..|]. destruct (verdict_exact FailOnWarning 1 true [Toy.note] eq_refl) as [_ [Hf _]].
  by destruct (Hf eq_refl) as [?|?].
Defined.

Lemma Detect_decides_witness : ∃ w1 det w',
  New Toy.defaults Toy.verifier [] Toy.start = (Ok Toy.engine, w1) ∧
  Detect Toy.never_done Toy.registry Toy.spec (configurer (Toy.options []) Toy.text_reader) Toy.start = (Ok (det, true), w') ∧
  decided Toy.registry Toy.spec det true.
Proof.
  assert (Hn : New Toy.defaults Toy.verifier [] Toy.start = (Ok Toy.engine, Toy.start)) by (vm_compute; reflexivity).
  destruct (Detect Toy.never_done Toy.registry Toy.spec (configurer (Toy.options []) Toy.text_reader) Toy.start) as [[[det ok]|] w'] eqn:E;
    [|vm_compute in E; discriminate].
  assert (Hok : match Detect Toy.never_done Toy.registry Toy.spec (configurer (Toy.options []) Toy.text_reader) Toy.start with
    (Ok (_, ok), _) => ok | _ => false end = true) by (vm_compute; reflexivity).
  rewrite E in Hok. subst ok. exists Toy.start, det, w'. split; [exact Hn|]. split; [reflexivity|].
  exact (Detect_decides Toy.never_done Toy.defaults Toy.verifier [] Toy.start Toy.engine Toy.start Toy.spec _ Toy.start det true w' Hn E).
Defined.

Lemma verified_run_witness : ∃ sum w1 out w',
  hold 0 Toy.kept_fingerprint id Toy.verifying InputDocument 7 Toy.start = (Ok sum, w1) ∧
  runPasses 0 Toy.kept_fingerprint Toy.never_done id Toy.verifying 7 sum w1 = (Ok (out, [Toy.note]), w') ∧
  carries_on Toy.kept (doc_at w' out) [Toy.note] ∧ Toy.verifier (doc_at w' out) = [].
Proof.
  assert (Hh : hold 0 Toy.kept_fingerprint id Toy.verifying InputDocument 7 Toy.start = (Ok 0, Toy.start)) by (vm_compute; reflexivity).
  destruct (runPasses 0 Toy.kept_fingerprint Toy.never_done id Toy.verifying 7 0 Toy.start) as [[[out found]|] w'] eqn:E; [|vm_compute in E; discriminate].
  assert (Hf : match runPasses 0 Toy.kept_fingerprint Toy.never_done id Toy.verifying 7 0 Toy.start with (Ok (_, found), _) => found | _ => [] end = [Toy.note])
    by (vm_compute; reflexivity).
  rewrite E in Hf. subst found. exists 0, Toy.start, out, w'. split; [exact Hh|]. split; [exact E|].
  destruct (verified_run 0 Toy.kept_fingerprint Toy.never_done id Toy.verifying Toy.verifier InputDocument 7 Toy.start
    0 Toy.start out [Toy.note] w' kept_told_apart eq_refl Hh E) as (H1 & H2 & _). split; [exact H1|exact H2].
Defined.

(** A run of the build, and of its passes over a document. *)
Definition spec_run : result engine_error Result * world Toy.W :=
  RunSpec 0 Toy.no_fingerprint id id Toy.never_done id id (λ _, Err []) (λ _, Err []) (λ _, Err []) (λ _, Err []) (λ _, Toy.text_reader)
    (Some Toy.engine) Toy.spec (Toy.options FailOnWarning) Toy.start.
Definition document_run : result engine_error Result * world Toy.W :=
  RunDocument 0 Toy.no_fingerprint id Toy.never_done (Some Toy.engine) (Some 7) (Toy.options []) Toy.start.
Definition made (run : result engine_error Result * world Toy.W) : Result :=
  match run with (Ok res, _) => res | _ => mkResult None [] [] zeroFormat false [] end.

Lemma RunSpec_contract_witness : ∃ res w', spec_run = (Ok res, w') ∧ R_Failed res = true ∧ result_ok res w' ∧ failed_as FailOnWarning res.
Proof.
  destruct spec_run as [[res|] w'] eqn:E; [|vm_compute in E; discriminate]. exists res, w'. split; [reflexivity|].
  assert (Hf : R_Failed (made spec_run) = true) by (vm_compute; reflexivity). rewrite E in Hf. split; [exact Hf|].
  apply (RunSpec_contract 0 Toy.no_fingerprint id id Toy.never_done id id (λ _, Err []) (λ _, Err []) (λ _, Err []) (λ _, Err []) (λ _, Toy.text_reader)
    Toy.defaults Toy.verifier [] Toy.start Toy.engine Toy.start Toy.spec (Toy.options FailOnWarning) (mkPlan (e_passes Toy.engine) 1 None) Toy.start res w').
  - vm_compute. reflexivity.
  - reflexivity.
  - left. reflexivity.
  - exact copier_pure.
  - exact E.
Defined.

Lemma RunDocument_contract_witness : ∃ res w', document_run = (Ok res, w') ∧
  R_Failed res = false ∧ R_Diagnostics res = [Toy.note] ∧ result_ok res w' ∧ failed_as [] res.
Proof.
  destruct document_run as [[res|] w'] eqn:E; [|vm_compute in E; discriminate]. exists res, w'. split; [reflexivity|].
  assert (Hf : R_Failed (made document_run) = false) by (vm_compute; reflexivity). rewrite E in Hf. split; [exact Hf|].
  assert (Hn : R_Diagnostics (made document_run) = [Toy.note]) by (vm_compute; reflexivity). rewrite E in Hn. split; [exact Hn|].
  apply (RunDocument_contract 0 Toy.no_fingerprint id Toy.never_done Toy.engine 7 (Toy.options []) (mkPlan (e_passes Toy.engine) 2 None) Toy.start res w').
  - reflexivity.
  - exact copier_pure.
  - exact (copier_leaves 7).
  - exact E.
Defined.

Lemma deriveKey_injective_witness : ∃ x y : keyInputs, k_Passes x ≠ k_Passes y ∧ deriveKey id x ≠ deriveKey id y.
Proof.
  exists (mkKeyInputs [] [] [] [] [] [go "a"; go "b"] ∅), (mkKeyInputs [] [] [] [] [] [go "ab"] ∅). split; [done|].
  intros E. by apply (deriveKey_injective id) in E.
Defined.
