(* ===== verification/CacheRun.v ===== *)
(** * CacheRun: a cached run and a compiled one make the same result

    The theorem over [Cache], run on the small build of [Runs] and a store that
    holds what an earlier run of it kept. *)
From S2P Require Import Prelude GoLib Utf8 Decimal IR Findings Effects Detect Stage Engine Cache Runs.

Section Theorem_.
Context {O Parsed FO F : Type} `{EqDecision F}.

(** C32: a run answered from the cache, a run that could not be, and a run whose
    key, lookup or store failed all make the outcome compiling would make of the
    documents as they are: its document, findings, sources and format. An entry
    lost, damaged or handed back for another key, or one a changed document
    outdates, costs a compile and never a wrong document. *)
Theorem cached_run_same (zeroF : F) fingerprintOf SourceHash quoted ctx sum256 hexsum encodeDocument decodeDocument encodeHead decodeHead
    (e : Engine (O:=O * recorder) (Parsed:=Parsed) (FO:=FO)) b c in_dir prog docs current spec opts p w res w' :
  faithful_codecs SourceHash sum256 hexsum encodeDocument decodeDocument encodeHead decodeHead →
  decided_by_inputs zeroF fingerprintOf SourceHash quoted ctx e b in_dir prog →
  authentic zeroF fingerprintOf SourceHash quoted ctx sum256 hexsum encodeDocument encodeHead e b c in_dir →
  well_behaved b c in_dir docs → (∀ req w, (docs req w).1 = current req) →
  e_cache e = Some b → store b = Some c → cacheable opts = true → prepare (Some e) opts = Ok p →
  compileCached zeroF fingerprintOf SourceHash quoted ctx sum256 hexsum encodeDocument decodeDocument encodeHead decodeHead e spec opts docs p w = (Ok res, w') →
  outcome_of res w' = answered current (prog (inputs_at SourceHash b in_dir w spec opts p)).
Proof. apply compileCached_outcome. Qed.
End Theorem_.

(** ** A small build *)

Module Sample.
Import Toy.

(** Hashes that keep their text, told apart and on one line. *)
Definition hex_digit (n : N) : ascii := ascii_of_N (48 + n).
Definition hex_byte (c : ascii) : gostring := [hex_digit (N_of_ascii c / 16); hex_digit (N_of_ascii c mod 16)].
Definition hexsum (text : gostring) : gostring := concat (hex_byte <$> text).
Definition sum256 (text : gostring) : gostring := framed [text].

(** The one head the codec writes. *)
Definition kept_head : entryHead := mkHead format [mkRead beside (go "text")].
#[export] Instance documentRead_eq_dec : EqDecision documentRead. Proof. solve_decision. Defined.
#[export] Instance entryHead_eq_dec : EqDecision entryHead. Proof. solve_decision. Defined.

Definition encodeDocument (d : Document) : result gostring gostring := if is_kept d then Ok (go "kept") else Err (go "not written").
Definition decodeDocument (text : gostring) : result gostring Document := if decide (text = go "kept") then Ok kept else Err (go "not read").
Definition encodeHead (h : entryHead) : result gostring gostring := if decide (h = kept_head) then Ok (go "head") else Err (go "not written").
Definition decodeHead (text : gostring) : result gostring entryHead := if decide (text = go "head") then Ok kept_head else Err (go "not read").

Lemma hex_byte_inj c d : hex_byte c = hex_byte d → c = d.
Proof.
  assert (H : ∀ c, (let '(x, y) := match hex_byte c with [x; y] => (x, y) | _ => (zero, zero) end in
    ascii_of_N (16 * (N_of_ascii x - 48) + (N_of_ascii y - 48))) = c).
  { intros [b0 b1 b2 b3 b4 b5 b6 b7]. by destruct b0, b1, b2, b3, b4, b5, b6, b7. }
  intros E. rewrite <- (H c), <- (H d). by rewrite E.
Qed.

Lemma hexsum_inj (x y : gostring) : hexsum x = hexsum y → x = y.
Proof.
  unfold hexsum. revert y. induction x as [|c x IH]; intros [|d y]; [done|done|done|]. rewrite !fmap_cons. cbn [concat].
  intros E. apply app_inj_1 in E as [Ec E]; [|done]. apply hex_byte_inj in Ec as ->. f_equal. by apply IH.
Qed.

Lemma hexsum_line (x : gostring) : entrySeparator ∉ hexsum x.
Proof.
  assert (H : ∀ c, entrySeparator ∉ hex_byte c).
  { intros c Hin. assert (Hb : bool_decide (entrySeparator ∈ hex_byte c) = true) by by apply bool_decide_eq_true.
    clear Hin. destruct c as [b0 b1 b2 b3 b4 b5 b6 b7]. destruct b0, b1, b2, b3, b4, b5, b6, b7; vm_compute in Hb; discriminate. }
  unfold hexsum. intros (t & Ht & (c & -> & _)%list_elem_of_fmap)%elem_of_concat. by apply (H c).
Qed.

Lemma codecs : faithful_codecs id sum256 hexsum encodeDocument decodeDocument encodeHead decodeHead.
Proof.
  constructor.
  - done.
  - unfold sum256. by intros x y [= ->]%framed_inj.
  - intros x y s t. unfold sum256, framed. cbn. rewrite !app_nil_r, <- !app_assoc. intros E. apply uvarint_app in E as [El E]; [|lia..].
    by apply app_inj_1 in E as [-> _]; [|lia].
  - apply hexsum_inj.
  - apply hexsum_line.
  - unfold encodeDocument. intros d text. destruct (is_kept d) eqn:E; [|done]. intros [= <-]. by apply is_kept_true in E as ->.
  - unfold encodeHead. intros h text. destruct (decide _) as [->|]; [|done]. intros [= <-]. split; [done|].
    apply (proj1 (bool_decide_eq_true _)). vm_compute. reflexivity.
Qed.

(** The run that kept the entry: its directory and settings. *)
Definition options : RunOptions (FO:=unit) := mkRunOptions None ∅ [] [] false.
Definition plan_ : plan (O:=W) := mkPlan [] 2 None.
Definition in_dir (_ : unit) : gostring := go "/dir".
Definition start : world W := mkWorld ∅ 0 (tt, newRecorder).
Definition inputs : keyInputs := mkKeyInputs (go "build") IRVersion (go "/dir") (go "a.toy") (go "source") [] ∅.
Definition key : gostring := deriveKey sum256 inputs.
Definition entry : gostring := sealed hexsum key (go "head") (go "kept").

Definition cache : Cache (O:=W) := {|
  Load := λ k, mret (Ok (if decide (k = key) then Some entry else None));
  Store := λ _ _, mret (Ok tt)
|}.
Definition binding : cacheBinding (O:=W) := mkBinding (Some cache) (go "build") (mret (go "/dir")).
Definition engine : Engine (O:=W) (Parsed:=unit) (FO:=unit) := mkEngine registry [] (λ _, []) (Some binding).

Abbreviation compile := (Engine.compile 0 no_fingerprint id id never_done).

(** What the build makes of its inputs and of the document beside them. *)
Definition prog (ki : keyInputs) : reading outcome :=
  if is_empty (k_SpecHash ki) then
    Return (mkOutcome None (undetected registry zeroFormat []) [mkSourceInfo [] (k_Path ki) [] []] zeroFormat)
  else Ask beside (λ r,
    match r with
    | Ok name => Return (mkOutcome (Some (document (k_Path ki) (k_SpecHash ki) name)) [] [mkSourceInfo (String format) (k_Path ki) (k_SpecHash ki) []] format)
    | Err _ => Return (mkOutcome None [unreadable] [mkSourceInfo [] (k_Path ki) [] []] format)
    end).

(** A clock moved on. *)
Definition later (n : nat) (w : world W) : world W := {| heap := heap w; now := n + now w; outside := outside w |}.

(** The build's compiler takes every source that is not empty. *)
Lemma detected path ch data parsed settings dis fail docs w :
  ∃ o, Detect never_done registry (mkSource path (ch :: data) parsed) (configurer (mkRunOptions None settings dis fail false) docs) w =
    (Ok (mkDetection (mkSource path (ch :: data) parsed) (Some compiler) (mkRecognition format None) (mkOptions o (Some docs)) [], true), later 2 w).
Proof.
  unfold configurer, formatOptions. cbn [RO_CompilerOptions RO_FormatOptions]. destruct (bool_decide (size settings = 0)); eexists; vm_compute; reflexivity.
Qed.

(** What its compiler makes of one. *)
Lemma compiled path data o docs w c w' :
  Detect.Compile id never_done (mkDetection (mkSource path data None) (Some compiler) (mkRecognition format None) (mkOptions o (Some docs)) []) w = (Ok c, w') →
  outside w' = outside (docs beside w).2 ∧
  match (docs beside w).1 with
  | Ok name => ∃ l, c = mkCompiled (Some l) [] (Document_Sources (document path data name)) ∧ doc_at w' l = document path data name
  | Err _ => c = mkCompiled None [unreadable] [mkSourceInfo [] path [] []]
  end.
Proof.
  unfold Detect.Compile. cbn [Det_Compiler Det_Source Det_Recognition Det_Options Rec_Parsed Source_Path Source_Data].
  rewrite bind_Ok. intros ([[doc diags] err] & w1 & Hc%Catch_Ok & E). cbn [Compile_ compiler Reader] in Hc.
  apply bind_Ok in Hc as (r & w2 & Ha & Hc). rewrite attempt_run in Ha. injection Ha as <- <-.
  destruct (docs beside w) as [[name|text] w2]; cbn [fst snd] in *.
  - apply bind_Ok in Hc as (l & w3 & Hl & [= <- <- <- <-]).
    assert (Hd : doc_at w3 l = document path data name) by (injection Hl as <- <-; apply doc_at_fresh).
    assert (Ho : outside w3 = outside w2) by by injection Hl as _ <-.
    apply bind_Ok in E as ([] & w4 & [_ ->]%stop_if_done_Ok & E). cbn [SourceTable compiler] in E.
    apply bind_Ok in E as (table & w4 & [= <- <-] & E). apply bind_Ok in E as (d & w4 & [-> ->]%deref_Ok & E).
    apply bind_Ok in E as ([] & w4 & Hcheck & [= <- <-]). change (doc_at _ l) with (doc_at w3 l) in *. rewrite Hd in *.
    repeat (apply bind_Ok in Hcheck as ([] & ? & [_ ->]%check_Ok & Hcheck)).
    apply bind_Ok in Hcheck as ([] & ? & [_ ->]%checkIndexes_Ok & [_ ->]%checkIndexes_Ok).
    split; [by rewrite <- Ho|]. by exists l.
  - injection Hc as <- <- <- <-. apply bind_Ok in E as ([] & w4 & [_ ->]%stop_if_done_Ok & E). cbn [SourceTable compiler] in E.
    apply bind_Ok in E as (table & w4 & [= <- <-] & E). apply bind_Ok in E as ([] & w4 & Hcheck & [= <- <-]).
    repeat (apply bind_Ok in Hcheck as ([] & ? & [_ ->]%check_Ok & Hcheck)). by apply checkIndexes_Ok in Hcheck as [_ ->].
Qed.

Lemma decided : decided_by_inputs 0 no_fingerprint id id never_done engine binding in_dir prog.
Proof.
  intros sp opts p docs w res w' Hopts Hp. destruct opts as [fo settings dis fail verify].
  destruct verify; [done|]. destruct fo; [done|].
  assert (Hplan : p_passes p = [] ∧ p_verify p = None).
  { cbn in Hp. destruct (enabledPasses _ dis) as [ps|] eqn:E; [|done]. destruct (resolve fail); [|done]. injection Hp as <-. cbn.
    unfold enabledPasses in E. destruct (list_find _ _) as [[? ?]|]; [done|]. by injection E as <-. }
  destruct p as [ps t v]. cbn in Hplan. destruct Hplan as [-> ->]. destruct sp as [path data parsed].
  destruct data as [|ch data].
  { unfold Engine.compile, Detect. cbn -[undetected]. intros [= <- <-]. by exists w, w. }
  destruct (detected path ch data parsed settings dis fail docs w) as [o Hdet]. unfold Engine.compile. rewrite bind_Ok.
  intros ([det ok] & w1 & Hd%lift_Ok & E). change (e_registry engine) with registry in Hd. rewrite Hdet in Hd.
  injection Hd as <- <- <-. cbn [negb] in E. apply bind_Ok in E as (out & w1 & Hc%lift_Ok & E).
  apply (compiled path (ch :: data) o) in Hc as [Ho Hc].
  exists (later 2 w). unfold prog, inputs_at, run_inputs. cbn [k_SpecHash is_empty Source_Data id interp k_Path Source_Path].
  destruct (docs beside (later 2 w)) as [[name|text] w3]; cbn [fst snd] in *.
  - destruct Hc as (l & -> & Hl). exists w3. split; [done|]. cbn [C_Document] in E.
    apply bind_Ok in E as (sum & w4 & [= <- <-] & E). apply bind_Ok in E as ([out found] & w4 & Hrun%lift_Ok & E).
    apply bind_Ok in Hrun as ([] & w5 & [_ ->]%stop_if_done_Ok & [= <- <- <-]). 
    apply bind_Ok in E as (l' & w5 & Hw & E). unfold withFindings in Hw. apply bind_Ok in Hw as (d & w6 & [-> ->]%deref_Ok & Ha).
    assert (Ho' : outside w5 = outside w1) by by injection Ha as _ <-.
    assert (Hl' : doc_at w5 l' = document path (ch :: data) name).
    { injection Ha as <- <-. unfold doc_at at 1. cbn [heap]. rewrite lookup_insert_eq. change (doc_at _ l) with (doc_at w1 l). by rewrite Hl. }
    clear Ha. apply bind_Ok in E as (d & w6 & [-> ->]%deref_Ok & [= <- <-]). cbn [interp]. rewrite Ho', Ho. split; [|done].
    unfold outcome_of. cbn [R_Document R_Diagnostics R_Sources R_Format fmap option_fmap option_map]. by rewrite Hl'.
  - subst out. injection E as <- <-. cbn [interp]. exists w3. by rewrite Ho.
Qed.

(** The run whose entry the store holds. *)
Definition earlier : Result * world W :=
  match compile engine spec (configurer options (Cache.recorded id text_reader)) plan_ start with
  | (Ok res, w) => (res, w)
  | (Err _, w) => (mkResult None [] [] zeroFormat false [], w)
  end.

Lemma kept_by_run : authentic 0 no_fingerprint id id never_done sum256 hexsum encodeDocument encodeHead engine binding cache in_dir.
Proof.
  intros k w en parts Hload _. cbn -[decide key entry] in Hload. destruct (decide (k = key)) as [->|]; [|done]. injection Hload as <-.
  exists spec, options, plan_, text_reader, start, earlier.1, earlier.2, 1.
  split_and!; [done|done|done|..]; vm_compute; reflexivity.
Qed.

(** A run of the build on a changed document beside its source. *)
Definition changed_reader : DocumentReader W := λ _, mret (go "other").
Definition run (docs : DocumentReader W) : result engine_error Result * world W :=
  compileCached 0 no_fingerprint id id never_done sum256 hexsum encodeDocument decodeDocument encodeHead decodeHead engine spec options docs plan_ start.
End Sample.

Lemma cached_run_same_witness :
  (∃ res w', Sample.run Toy.text_reader = (Ok res, w') ∧ R_CacheErr res = [] ∧
    outcome_of res w' = answered (λ _, Ok (go "text")) (Sample.prog Sample.inputs)) ∧
  (∃ res w', Sample.run Sample.changed_reader = (Ok res, w') ∧
    outcome_of res w' = answered (λ _, Ok (go "other")) (Sample.prog Sample.inputs)).
Proof.
  assert (H : ∀ docs text, (∀ req w, docs req w = (Ok text, w)) → is_ok (Sample.run docs).1 = true →
    ∃ res w', Sample.run docs = (Ok res, w') ∧ outcome_of res w' = answered (λ _, Ok text) (Sample.prog Sample.inputs)).
  { intros docs text Hd Hok. destruct (Sample.run docs) as [[res|] w'] eqn:E; [|done]. exists res, w'. split; [done|].
    apply (cached_run_same 0 Toy.no_fingerprint id id Toy.never_done Sample.sum256 Sample.hexsum Sample.encodeDocument
      Sample.decodeDocument Sample.encodeHead Sample.decodeHead Sample.engine Sample.binding Sample.cache Sample.in_dir Sample.prog docs
      (λ _, Ok text) Toy.spec Sample.options Sample.plan_ Sample.start);
      [apply Sample.codecs|apply Sample.decided|apply Sample.kept_by_run| |intros req w; by rewrite Hd|reflexivity..|exact E].
    constructor; [intros req w; by rewrite Hd|intros k w; split_and!; reflexivity|intros k en w; split_and!; reflexivity|intros w; split_and!; reflexivity|by intros w dir [= <-]]. }
  split.
  - destruct (H Toy.text_reader (go "text")) as (res & w' & E & Ho); [done|by vm_compute|]. exists res, w'. split_and!; [done| |done].
    assert (Hc : (if (Sample.run Toy.text_reader).1 is Ok r then R_CacheErr r else [[]]) = []) by by vm_compute. by rewrite E in Hc.
  - apply H; [done|]. by vm_compute.
Defined.
