(* ===== verification/Budget.v ===== *)
(** * Counts held to a limit

    The package [src/compilers/openapi/internal/budget]: [limit.go] is how far a
    count may go, [budget.go] what is spent against it. Every walk of the OpenAPI
    reader counts through it. A Go [int] is a [Z] of 64 bits; the sums here are
    held at [MaxInt] and shown never to wrap. *)
From S2P Require Import Prelude.
Local Open Scope Z_scope.

(** [math.MaxInt] of a 64-bit [int]. *)
Definition MaxInt : Z := i64_max.

(** What a counter may hold: a Go [int] that is no negative count. *)
Definition is_count (n : Z) : Prop := 0 <= n <= MaxInt.

(** [sum] of limit.go, its subtraction and addition as Go's [int] makes them. *)
Definition sum (a b : Z) : Z := if i64 (MaxInt - a) <? b then MaxInt else i64 (a + b).

(** ** How far a count may go *)

Record Limit : Type := mkLimit { most : Z; bounded : bool }.

Definition Unbounded : Limit := mkLimit 0 false.
Definition AtMost (n : Z) : Limit := mkLimit (Z.max n 0) true.

Definition FromOption (value def : Z) : Limit :=
  if value <? 0 then Unbounded
  else if value =? 0 then AtMost def
  else AtMost value.

Definition Max (l : Limit) : Z * bool := (most l, bounded l).
Definition Admits (l : Limit) (n : Z) : bool := negb (bounded l) || (n <=? most l).
Definition Cap (l : Limit) : Z := if negb (bounded l) then MaxInt else most l.
Definition Past (l : Limit) : Z := sum (Cap l) 1.
Definition Plus (l o : Limit) : Limit :=
  if negb (bounded l) || negb (bounded o) then Unbounded else AtMost (sum (most l) (most o)).

(** A limit as the package makes one: the zero [Limit] or one of [AtMost]. *)
Definition limit_wf (l : Limit) : Prop := is_count (most l) ∧ (bounded l = false → most l = 0).

(** ** What is spent against it *)

Record Budget : Type := mkBudget { limit : Limit; spent : Z; cut : bool }.

Definition New (l : Limit) : Budget := mkBudget l 0 false.

Definition Exhausted (b : Budget) : bool := cut b || negb (Admits (limit b) (spent b)).

Definition Spend (b : Budget) (n : Z) : Budget * bool :=
  if n <? 0 then (mkBudget (limit b) (spent b) true, false)
  else let b := mkBudget (limit b) (sum (spent b) n) (cut b) in (b, negb (Exhausted b)).

Definition Exhaust (b : Budget) : Budget :=
  mkBudget (limit b) (Z.max (spent b) (Past (limit b))) true.

Definition Spent (b : Budget) : Z := spent b.

Definition Remaining (b : Budget) : Limit :=
  if Exhausted b then AtMost 0
  else if negb (bounded (limit b)) then Unbounded
  else AtMost (i64 (most (limit b) - spent b)).

(** A run of charges, with what each reported. *)
Fixpoint spend_all (b : Budget) (ns : list Z) : Budget * list bool :=
  match ns with
  | [] => (b, [])
  | n :: ns =>
    let '(b, fits) := Spend b n in
    let '(b, rest) := spend_all b ns in (b, fits :: rest)
  end.

(** ** Sums *)

Lemma sum_held a b : is_count a → is_count b → sum a b = Z.min (a + b) MaxInt.
Proof.
  unfold is_count, sum, MaxInt. intros [Ha Ha'] [Hb Hb'].
  rewrite (i64_id (i64_max - a)) by (unfold in_i64, i64_min, i64_max in *; lia).
  destruct (Z.ltb_spec (i64_max - a) b) as [Hlt|Hle]; [lia|].
  rewrite i64_id by (unfold in_i64, i64_min, i64_max in *; lia). lia.
Qed.

Lemma sum_count a b : is_count a → is_count b → is_count (sum a b).
Proof.
  intros Ha Hb. rewrite sum_held by done. unfold is_count, MaxInt, i64_max in *. lia.
Qed.

Lemma count_1 : is_count 1.
Proof. unfold is_count, MaxInt, i64_max. lia. Qed.

Lemma AtMost_wf n : n <= MaxInt → limit_wf (AtMost n).
Proof. unfold limit_wf, is_count, AtMost, MaxInt, i64_max. simpl. split; [lia|done]. Qed.

Lemma Unbounded_wf : limit_wf Unbounded.
Proof. unfold limit_wf, is_count, MaxInt, i64_max. simpl. split; [lia|done]. Qed.

Lemma Cap_count l : limit_wf l → is_count (Cap l).
Proof.
  intros [Hl _]. unfold Cap. destruct (bounded l); simpl; [done|].
  unfold is_count, MaxInt, i64_max. lia.
Qed.

Lemma Past_count l : limit_wf l → is_count (Past l).
Proof. intros Hl. apply sum_count; [by apply Cap_count|apply count_1]. Qed.

(** A loop counting up to [Past] has seen whether its count is admitted. *)
Lemma Past_least l n : limit_wf l → is_count n →
  Admits l n = false ↔ Past l <= n ∧ Cap l < MaxInt.
Proof.
  intros Hl Hn. unfold Past. rewrite sum_held by (try apply Cap_count; try apply count_1; done).
  pose proof (Cap_count l Hl) as Hc. unfold Admits, is_count in *.
  unfold Cap in *. destruct (bounded l); simpl in *; [|split; [done|lia]].
  rewrite Z.leb_gt. lia.
Qed.

Lemma Plus_admits l o a b : limit_wf l → limit_wf o → is_count a → is_count b →
  Admits l a = true → Admits o b = true → Admits (Plus l o) (sum a b) = true.
Proof.
  intros [Hl _] [Ho _] Ha Hb. unfold Admits, Plus.
  destruct (bounded l), (bounded o); simpl; [|done..].
  rewrite !Z.leb_le. intros Hal Hbo. rewrite !sum_held by done. unfold is_count in *. lia.
Qed.

(** ** Runs of charges *)

(** What a run of charges comes to, as a number no width holds. *)
Definition total (ns : list Z) : Z := foldr Z.add 0 ns.

Lemma total_nonneg ns : Forall is_count ns → 0 <= total ns.
Proof. induction 1 as [|n ns Hn _ IH]; simpl; [done|]. unfold is_count in Hn. lia. Qed.

Lemma Spend_charge b n : is_count n →
  Spend b n = (mkBudget (limit b) (sum (spent b) n) (cut b),
               negb (cut b || negb (Admits (limit b) (sum (spent b) n)))).
Proof.
  intros [Hn _]. unfold Spend. destruct (Z.ltb_spec n 0) as [?|_]; [lia|]. done.
Qed.

Lemma spend_all_state b ns : is_count (spent b) → Forall is_count ns →
  (spend_all b ns).1 = mkBudget (limit b) (Z.min (spent b + total ns) MaxInt) (cut b).
Proof.
  intros Hb Hns. revert b Hb. induction Hns as [|n ns Hn Hns IH]; intros b Hb.
  - simpl. destruct b as [l s c]. simpl in *. f_equal. unfold is_count in Hb. lia.
  - simpl. rewrite (Spend_charge b n Hn).
    specialize (IH (mkBudget (limit b) (sum (spent b) n) (cut b)) (sum_count _ _ Hb Hn)).
    destruct (spend_all _ ns) as [b' r]. simpl in *. rewrite IH. f_equal.
    rewrite sum_held by done. pose proof (total_nonneg ns Hns). unfold is_count in *. lia.
Qed.

Lemma admits_held l n : limit_wf l → 0 <= n →
  Admits l (Z.min n MaxInt) = negb (bounded l) || (n <=? most l) || (most l =? MaxInt).
Proof.
  intros [[Hm Hm'] _] Hn. unfold Admits. destruct (bounded l); simpl; [|done].
  destruct (Z.leb_spec (Z.min n MaxInt) (most l)), (Z.leb_spec n (most l)), (Z.eqb_spec (most l) MaxInt);
    simpl; lia || done.
Qed.

(** What a budget answers once a run of charges is made. *)
Lemma spend_all_exhausted l ns : limit_wf l → Forall is_count ns →
  Exhausted (spend_all (New l) ns).1 = bounded l && (most l <? total ns) && (most l <? MaxInt).
Proof.
  intros Hl Hns. rewrite spend_all_state; [|unfold is_count, MaxInt, i64_max; simpl; lia|done].
  unfold Exhausted. simpl. rewrite admits_held by (done || by apply total_nonneg).
  destruct Hl as [[_ Hm] _]. destruct (bounded l); simpl; [|done].
  destruct (Z.leb_spec (total ns) (most l)), (Z.ltb_spec (most l) (total ns)),
    (Z.eqb_spec (most l) MaxInt), (Z.ltb_spec (most l) MaxInt); simpl; lia || done.
Qed.

(** What each charge of a run reported: whether the sum so far is within the
    limit. *)
Lemma spend_all_reports b ns k n : is_count (spent b) → Forall is_count ns → limit_wf (limit b) →
  ns !! k = Some n →
  (spend_all b ns).2 !! k = Some (negb (Exhausted (spend_all b (take (S k) ns)).1)).
Proof.
  intros Hb Hns Hl. revert b k Hb Hl. induction Hns as [|m ns Hm Hns IH]; intros b k Hb Hl Hk; [done|].
  simpl. rewrite (Spend_charge b m Hm).
  set (b' := mkBudget (limit b) (sum (spent b) m) (cut b)).
  specialize (IH b'). assert (Hb' : is_count (spent b')) by by apply sum_count.
  destruct k as [|k].
  - rewrite take_0. simpl. by destruct (spend_all b' ns).
  - specialize (IH k Hb' Hl Hk).
    destruct (spend_all b' ns) as [b1 r1]. simpl in IH |- *. rewrite IH.
    do 3 f_equal. destruct ns; [done|]. by destruct (spend_all b' (take (S k) (z :: ns))).
Qed.

(** A budget once past its limit stays past, whatever is charged. *)
Lemma Exhausted_stays b n : is_count (spent b) → n <= MaxInt →
  Exhausted b = true → Exhausted (Spend b n).1 = true.
Proof.
  intros Hb Hn He. unfold Spend. destruct (Z.ltb_spec n 0) as [Hlt|Hge]; [done|].
  unfold Exhausted in *. simpl. destruct (cut b); [done|]. simpl in *.
  unfold Admits in *. destruct (bounded (limit b)); simpl in *; [|done].
  rewrite negb_true_iff, Z.leb_gt in *. rewrite sum_held by (unfold is_count in *; lia).
  unfold is_count in *. lia.
Qed.

Lemma Exhaust_exhausted b : Exhausted (Exhaust b) = true.
Proof. done. Qed.

(** ** What is left to spend *)

(** What remains of a budget admits exactly the charges it would take. *)
Lemma Remaining_admits b n : limit_wf (limit b) → is_count (spent b) → is_count n → n ≠ 0 →
  bounded (limit b) = false ∨ most (limit b) < MaxInt →
  Admits (Remaining b) n = (Spend b n).2.
Proof.
  intros [[Hm Hm'] _] Hb Hn Hz Hlim. rewrite (Spend_charge b n Hn). simpl. unfold Remaining, Exhausted.
  destruct (cut b); simpl.
  - unfold Admits. simpl. rewrite Z.leb_gt. unfold is_count in Hn. lia.
  - rewrite negb_involutive. unfold Admits. destruct (bounded (limit b)); simpl; [|done].
    destruct Hlim as [?|Hlim]; [done|]. rewrite sum_held by done.
    destruct (Z.leb_spec (spent b) (most (limit b))) as [Hle|Hgt]; simpl.
    + rewrite i64_id by (unfold in_i64, is_count, MaxInt, i64_min, i64_max in *; lia).
      unfold is_count in *. apply eq_true_iff_eq. rewrite !Z.leb_le. lia.
    + symmetry. unfold is_count in *. transitivity false; [apply Z.leb_gt; lia|symmetry; apply Z.leb_gt; lia].
Qed.

(** ** The run of charges as a property *)

(** C18: Charges that are no negative count are held at the largest integer: what was
    spent is their sum up to it, each charge reports whether the sum so far is
    within the limit, and a budget of the largest limit is never exhausted. *)
Theorem Spend_exact l ns : limit_wf l → Forall is_count ns →
  Spent (spend_all (New l) ns).1 = Z.min (total ns) MaxInt ∧
  Exhausted (spend_all (New l) ns).1 = bounded l && (most l <? total ns) && (most l <? MaxInt) ∧
  ∀ k n, ns !! k = Some n →
    (spend_all (New l) ns).2 !! k =
      Some (negb (bounded l && (most l <? total (take (S k) ns)) && (most l <? MaxInt))).
Proof.
  intros Hl Hns. assert (H0 : is_count 0) by (unfold is_count, MaxInt, i64_max; lia). split_and!.
  - by rewrite spend_all_state.
  - by apply spend_all_exhausted.
  - intros k n Hk. rewrite (spend_all_reports (New l) ns k n) by done.
    by rewrite spend_all_exhausted by (done || by apply Forall_take).
Qed.
Lemma Spend_exact_witness :
  Exhausted (spend_all (New (AtMost 10)) [4; MaxInt; 9]).1 = true ∧
  Spent (spend_all (New (AtMost 10)) [4; MaxInt; 9]).1 = MaxInt ∧
  (spend_all (New (AtMost 10)) [4; MaxInt; 9]).2 !! 0%nat = Some true.
Proof.
  destruct (Spend_exact (AtMost 10) [4; MaxInt; 9]) as (H1 & H2 & H3).
  - apply AtMost_wf. unfold MaxInt, i64_max. lia.
  - repeat constructor; unfold MaxInt, i64_max; lia.
  - split_and!; [rewrite H2; reflexivity|rewrite H1; reflexivity|rewrite (H3 0%nat 4 eq_refl); reflexivity].
Defined.
