(* ===== verification/Pointer.v ===== *)
(** * JSON pointers as Go reads them

    [jsontext.Pointer] and [strconv.Atoi] of the standard library, and [Ptr] and
    [Scope] of [src/compilers/openapi/internal/ids/ids.go], which build every
    pointer of the OpenAPI compiler. Tokens are escaped rune by rune, so what they
    round-trip is valid UTF-8. *)
From S2P Require Import Prelude GoLib IR Ids Utf8 Text.
Implicit Types (p s tok : gostring).

(** ** Building *)

Definition escape_rune (r : Z) : gostring :=
  if (r =? 126)%Z then go "~0" else if (r =? 47)%Z then go "~1" else EncodeRune r.
Definition AppendToken p tok : gostring := p ++ [separator] ++ (runes tok ≫= escape_rune).

Definition Ptr (tokens : list gostring) : gostring := foldl AppendToken [] tokens.
Definition Scope (segments : list gostring) : gostring := TrimPrefix (Ptr segments) IDSeparator.

(** ** Reading *)

(** [strings.ReplaceAll] of the two bytes [a] and [b] by one. *)
Fixpoint ReplacePair (a b new : ascii) s : gostring :=
  match s with
  | c :: ((d :: r) as rest) =>
    if decide (c = a ∧ d = b) then new :: ReplacePair a b new r else c :: ReplacePair a b new rest
  | _ => s
  end.
Definition unescapePointerToken s : gostring :=
  ReplacePair "~" "0" "~" (ReplacePair "~" "1" "/" s).

(** What comes before the first separator, and what is left from it on. *)
Fixpoint until_separator s : gostring * gostring :=
  match s with
  | [] => ([], [])
  | c :: r => if decide (c = separator) then ([], s)
              else let '(before, rest) := until_separator r in (c :: before, rest)
  end.

(** [Pointer.Tokens]; each turn reads at least a byte. *)
Fixpoint Tokens_from (fuel : nat) p : list gostring :=
  match fuel, p with
  | O, _ | _, [] => []
  | S fuel, _ =>
    let '(tok, rest) := until_separator (TrimPrefix p IDSeparator) in
    unescapePointerToken tok :: Tokens_from fuel rest
  end.
Definition Tokens p : list gostring := Tokens_from (length p) p.

(** [p] around its last separator, which goes with what follows it. *)
Definition split_last p : gostring * gostring :=
  let '(last, before) := until_separator (reverse p) in
  match before with [] => ([], p) | _ :: before => (reverse before, separator :: reverse last) end.
Definition Parent p : gostring := (split_last p).1.
Definition LastToken p : gostring := unescapePointerToken (TrimPrefix (split_last p).2 IDSeparator).

(** [strconv.Atoi]: an optional sign and digits, within [int64]; no other base,
    no underscores. *)
Definition Atoi s : option Z :=
  let '(negative, digits) :=
    match s with
    | "-"%char :: r => (true, r)
    | "+"%char :: r => (false, r)
    | _ => (false, s)
    end in
  if bool_decide (digits = []) || negb (bool_decide (all_digits digits)) then None
  else let z := if negative : bool then (- digits_value digits)%Z else digits_value digits in
       if (i64_min <=? z)%Z && (z <=? i64_max)%Z then Some z else None.

(** ** A token is read back *)

Lemma ReplacePair_other a b new c s : c ≠ a → ReplacePair a b new (c :: s) = c :: ReplacePair a b new s.
Proof. intros Hc. destruct s as [|d s]; [done|]. simpl. by destruct (decide (c = a ∧ d = b)) as [[??]|]. Qed.

Lemma ReplacePair_hit a b new s : ReplacePair a b new (a :: b :: s) = new :: ReplacePair a b new s.
Proof. simpl. by destruct (decide (a = a ∧ b = b)) as [|[]]. Qed.

Lemma ReplacePair_miss a b d new s : d ≠ b → d ≠ a →
  ReplacePair a b new (a :: d :: s) = a :: d :: ReplacePair a b new s.
Proof.
  intros Hd Hd'. rewrite <- ReplacePair_other by done. cbn [ReplacePair].
  by destruct (decide (a = a ∧ d = b)) as [[??]|].
Qed.

(** What the first pass leaves of an escaped token. *)
Definition half_escape (c : ascii) : gostring := if decide (c = "~"%char) then go "~0" else [c].

Lemma unescape_first tok : ReplacePair "~" "1" "/" (tok ≫= escape) = tok ≫= half_escape.
Proof.
  induction tok as [|c tok IH]; [done|]. cbn [mbind list_bind].
  unfold escape at 1, half_escape at 1. destruct (decide (c = "~"%char)) as [->|Hc].
  - rewrite <- IH. cbn [list_ascii_of_string app]. by rewrite ReplacePair_miss.
  - destruct (decide (c = separator)) as [->|Hs]; rewrite <- IH; cbn [list_ascii_of_string app].
    + by rewrite ReplacePair_hit.
    + by rewrite ReplacePair_other.
Qed.

Lemma unescape_second tok : ReplacePair "~" "0" "~" (tok ≫= half_escape) = tok.
Proof.
  induction tok as [|c tok IH]; [done|]. cbn [mbind list_bind].
  unfold half_escape at 1. destruct (decide (c = "~"%char)) as [->|Hc];
    cbn [list_ascii_of_string app].
  - by rewrite ReplacePair_hit, IH.
  - by rewrite ReplacePair_other, IH.
Qed.

Lemma unescape_escape tok : unescapePointerToken (tok ≫= escape) = tok.
Proof. unfold unescapePointerToken. by rewrite unescape_first, unescape_second. Qed.

(** ** Runes and bytes escape alike *)

Lemma bind_escape_high s : Forall (λ c, 128 <= code c)%Z s → s ≫= escape = s.
Proof.
  induction 1 as [|c s Hc _ IH]; [done|]. cbn [mbind list_bind]. rewrite IH. unfold escape.
  destruct (decide (c = "~"%char)) as [->|]; [by vm_compute in Hc|].
  by destruct (decide (c = separator)) as [->|].
Qed.

Lemma escape_rune_bytes r : valid_rune r = true → escape_rune r = EncodeRune r ≫= escape.
Proof.
  intros Hv. unfold escape_rune.
  destruct (Z.eqb_spec r 126) as [->|H126]; [by vm_compute|].
  destruct (Z.eqb_spec r 47) as [->|H47]; [by vm_compute|].
  symmetry. unfold EncodeRune. rewrite Hv. unfold valid_rune in Hv.
  assert (0 <= r <= 1114111)%Z as Hr by lia.
  destruct (Z.ltb_spec r 128) as [Hlt|Hge].
  - cbn [mbind list_bind]. unfold escape.
    destruct (decide (byte_of r = "~"%char)) as [E|_].
    { apply (f_equal code) in E. rewrite code_byte_of in E by lia. by change (code "~") with 126%Z in E. }
    destruct (decide (byte_of r = separator)) as [E|_]; [|done].
    apply (f_equal code) in E. rewrite code_byte_of in E by lia. by change (code separator) with 47%Z in E.
  - repeat case_match; apply bind_escape_high; repeat constructor; rewrite code_byte_of; euclid.
Qed.

Lemma runes_encoded rs : Forall (λ r, valid_rune r = true) rs → runes (rs ≫= EncodeRune) = rs.
Proof.
  induction 1 as [|r rs Hr _ IH]; [done|]. cbn [mbind list_bind].
  pose proof (Decode_Encode r (rs ≫= EncodeRune) Hr) as Hd.
  rewrite runes_cons.
  - rewrite Hd. cbn [fst snd]. by rewrite drop_app_length, IH.
  - intros E. rewrite E in Hd. injection Hd as Hd Hl. unfold EncodeRune in E. rewrite Hr in E.
    repeat case_match; done.
Qed.

Lemma escape_runes tok : ValidString tok = true → runes tok ≫= escape_rune = tok ≫= escape.
Proof.
  intros (rs & Hrs & ->)%ValidString_exact. rewrite runes_encoded by done.
  induction Hrs as [|r rs Hr _ IH]; [done|]. cbn [mbind list_bind].
  by rewrite bind_app, IH, escape_rune_bytes.
Qed.

Lemma no_separator_bind tok : separator ∉ tok ≫= escape.
Proof. rewrite <- escaped_document_bind. apply escape_no_separator. Qed.

(** No escaped token holds a separator, whatever its bytes. *)
Lemma no_separator_escaped tok : separator ∉ runes tok ≫= escape_rune.
Proof.
  rewrite list_elem_of_bind. intros (r & Hin & _). unfold escape_rune in Hin.
  destruct (Z.eqb_spec r 126); [by apply (proj1 (bool_decide_eq_true _)) in Hin || set_solver|].
  destruct (Z.eqb_spec r 47) as [|Hr]; [set_solver|].
  assert (Hlow : ∃ r', r' ≠ 47%Z ∧ valid_rune r' = true ∧ EncodeRune r = EncodeRune r').
  { unfold EncodeRune at 1. destruct (valid_rune r) eqn:Hv.
    - exists r. split_and!; [done..|]. unfold EncodeRune. by rewrite Hv.
    - exists RuneError. split_and!; [done..|]. reflexivity. }
  destruct Hlow as (r' & Hr' & Hv & E). rewrite E in Hin.
  assert (H : escape_rune r' = EncodeRune r' ≫= escape) by by apply escape_rune_bytes.
  unfold escape_rune in H. destruct (Z.eqb_spec r' 126) as [->|]; [set_solver|].
  destruct (Z.eqb_spec r' 47); [done|]. rewrite H in Hin. by apply no_separator_bind in Hin.
Qed.

Lemma until_separator_app s r : separator ∉ s → until_separator (s ++ separator :: r) = (s, separator :: r).
Proof.
  induction s as [|c s IH]; intros Hs; simpl; [by destruct (decide (separator = separator))|].
  apply not_elem_of_cons in Hs as [Hc Hs]. destruct (decide (c = separator)) as [->|]; [done|].
  by rewrite IH.
Qed.
Lemma until_separator_end s : separator ∉ s → until_separator s = (s, []).
Proof.
  induction s as [|c s IH]; intros Hs; simpl; [done|].
  apply not_elem_of_cons in Hs as [Hc Hs]. destruct (decide (c = separator)) as [->|]; [done|].
  by rewrite IH.
Qed.

(** ** Pointers are read back *)

Definition ptr_text (tokens : list gostring) : gostring :=
  tokens ≫= λ tok, separator :: (runes tok ≫= escape_rune).

Lemma Ptr_from p tokens : foldl AppendToken p tokens = p ++ ptr_text tokens.
Proof.
  revert p. induction tokens as [|tok tokens IH]; intros p; simpl; [by rewrite app_nil_r|].
  rewrite IH. unfold AppendToken, ptr_text. cbn [mbind list_bind]. by rewrite <- !app_assoc.
Qed.
Lemma Ptr_text tokens : Ptr tokens = ptr_text tokens.
Proof. apply (Ptr_from []). Qed.
Lemma Ptr_app a b : Ptr (a ++ b) = Ptr a ++ Ptr b.
Proof. rewrite !Ptr_text. apply bind_app. Qed.
Lemma Ptr_snoc tokens tok : Ptr (tokens ++ [tok]) = AppendToken (Ptr tokens) tok.
Proof. unfold Ptr. by rewrite foldl_app. Qed.

(** Reading a pointer takes it apart at its separators. *)
Lemma Tokens_from_ptr fuel tokens : length (ptr_text tokens) ≤ fuel →
  Tokens_from fuel (ptr_text tokens) = (λ tok, unescapePointerToken (runes tok ≫= escape_rune)) <$> tokens.
Proof.
  revert fuel. induction tokens as [|tok tokens IH]; intros fuel Hf; [by destruct fuel|].
  unfold ptr_text in *. cbn [mbind list_bind] in *.
  set (rest := tokens ≫= _) in *. set (e := runes tok ≫= escape_rune) in *.
  destruct fuel as [|fuel]; [simpl in Hf; lia|]. cbn [Tokens_from app].
  assert (Ht : TrimPrefix (separator :: e ++ rest) IDSeparator = e ++ rest) by apply (TrimPrefix_app IDSeparator).
  rewrite Ht.
  assert (He : separator ∉ e) by apply no_separator_escaped.
  assert (Hu : until_separator (e ++ rest) = (e, rest)).
  { unfold rest. destruct tokens as [|t' ts]; cbn [mbind list_bind].
    - rewrite app_nil_r. by apply until_separator_end.
    - cbn [app]. by apply until_separator_app. }
  rewrite Hu. cbn [fmap list_fmap]. f_equal. apply IH.
  simpl in Hf. rewrite length_app in Hf. lia.
Qed.

Lemma Tokens_ptr_map tokens :
  Tokens (Ptr tokens) = (λ tok, unescapePointerToken (runes tok ≫= escape_rune)) <$> tokens.
Proof. unfold Tokens. rewrite Ptr_text. by apply Tokens_from_ptr. Qed.

Lemma token_back tok : ValidString tok = true → unescapePointerToken (runes tok ≫= escape_rune) = tok.
Proof. intros Hv. by rewrite escape_runes, unescape_escape. Qed.

Lemma Tokens_ptr tokens : Forall (λ tok, ValidString tok = true) tokens → Tokens (Ptr tokens) = tokens.
Proof.
  intros Hv. rewrite Tokens_ptr_map. induction Hv as [|tok tokens Ht _ IH]; [done|].
  cbn [fmap list_fmap]. by rewrite token_back, IH.
Qed.

Lemma split_last_append p e : separator ∉ e → split_last (p ++ separator :: e) = (p, separator :: e).
Proof.
  intros He. unfold split_last. rewrite reverse_app, reverse_cons, <- app_assoc. cbn [app].
  rewrite until_separator_app by (by rewrite elem_of_reverse). by rewrite !reverse_involutive.
Qed.

Lemma Parent_append p tok : Parent (AppendToken p tok) = p.
Proof.
  unfold Parent, AppendToken. cbn [app]. by rewrite split_last_append by apply no_separator_escaped.
Qed.
Lemma LastToken_append p tok : ValidString tok = true → LastToken (AppendToken p tok) = tok.
Proof.
  intros Hv. unfold LastToken, AppendToken. cbn [app].
  rewrite split_last_append by apply no_separator_escaped. cbn [snd].
  etransitivity; [|by apply token_back]. f_equal. apply (TrimPrefix_app IDSeparator).
Qed.

Example Tokens_ex : Tokens (Ptr [go "a/b"; []; go "m~n"]) = [go "a/b"; []; go "m~n"].
Proof. vm_compute. reflexivity. Qed.
Example Ptr_ex : Ptr [go "a/b"; []; go "m~n"] = go "/a~1b//m~0n".
Proof. vm_compute. reflexivity. Qed.
Example Atoi_ex : Atoi (go "-12") = Some (-12)%Z ∧ Atoi (go "+007") = Some 7%Z ∧ Atoi (go "1_0") = None ∧
  Atoi (go "-") = None ∧ Atoi (go "9223372036854775808") = None.
Proof. vm_compute. split_and!; reflexivity. Qed.
