(* ===== verification/NodeView.v ===== *)
(** * YAML trees, and a mapping's pairs as the parser reads them

    [nodeview.go] and [lookup.go] of
    [src/compilers/openapi/internal/nodeview]. The tree is a store of nodes, a
    pointer an address of it: aliases share nodes, and a cycle is a store whose
    nodes lead to themselves. [View] memoizes each mapping's expansion; the state
    is passed along, and what it answers is shown elsewhere to be what a view of
    its own would ([NodeMemo]). [Child] finds one key without building the pairs
    ([NodeChild]). The YAML library's test of a merge key is the class [Yml]. *)
From S2P Require Import Prelude GoLib Pointer Budget.

(** ** Nodes *)

(** [yaml.Kind]; a node no parse made has none. *)
Inductive NodeKind : Type :=
  | NoKind | DocumentNode | SequenceNode | MappingNode | ScalarNode | AliasNode.
#[export] Instance NodeKind_eq_dec : EqDecision NodeKind.
Proof. solve_decision. Defined.

(** A pointer to a node, [None] when nil. *)
Abbreviation ref := (option nat).

(** [yaml.Node], the fields the packages here read. *)
Record Node : Type := mkNode {
  Kind : NodeKind;
  Tag : gostring;
  Val : gostring;
  Anchor : gostring;
  Alias : ref;
  Content : list ref;
  Line : Z;
  Column : Z }.
#[export] Instance Node_inhabited : Inhabited Node :=
  populate (mkNode NoKind [] [] [] None [] 0 0).

(** Every address holds a node: one no tree wrote is the zero node. *)
Abbreviation Tree := (gmap nat Node).

(** What the sources ask of the YAML library: [yml.IsMergeKey], of a node or of
    nil. *)
Class Yml : Type := { yml_IsMergeKey : option Node → bool }.

Definition maxAliasChain : nat := Z.to_nat 10000.
Definition MaxPointerSegments : Z := 1024.
Definition MergeDepthLimit : nat := 64.
Definition maxCachedPairs : Z := 2 ^ 21.

(** [Deref], its loop counting the hops left. *)
Fixpoint Deref_loop (hops : nat) (t : Tree) (n : ref) : ref :=
  match n with
  | Some a =>
    if bool_decide (Kind (t !!! a) = AliasNode) then
      match hops with
      | O => Alias (t !!! a)
      | S hops => Deref_loop hops t (Alias (t !!! a))
      end
    else n
  | None => None
  end.
Definition Deref (t : Tree) (n : ref) : ref := Deref_loop maxAliasChain t n.

Definition DocumentRoot (t : Tree) (n : ref) : ref :=
  match n with
  | None => None
  | Some a =>
    if bool_decide (Kind (t !!! a) = DocumentNode) then
      match Content (t !!! a) with [] => None | c :: _ => c end
    else n
  end.

(** A mapping's content as the loops over it read it, two nodes at a time, an odd
    one left over. *)
Fixpoint raw_pairs (content : list ref) : list (ref * ref) :=
  match content with
  | key :: val :: rest => (key, val) :: raw_pairs rest
  | _ => []
  end.

Record Pair : Type := mkPair { Key : gostring; PVal : ref }.
#[export] Instance Pair_eq_dec : EqDecision Pair.
Proof. solve_decision. Defined.

(** ** A key written more than once *)

(** Which copy of a key is read. *)
Inductive copyRule : Type := firstCopy | lastCopy.
#[export] Instance copyRule_eq_dec : EqDecision copyRule.
Proof. solve_decision. Defined.

Definition smallKeys : nat := 16.

(** [firstRepeat] below [smallKeys]: each pair against those before it. *)
Fixpoint firstRepeat_small (before own : list Pair) : option gostring :=
  match own with
  | [] => None
  | p :: own =>
    if existsb (λ q, bool_decide (Key q = Key p)) before then Some (Key p)
    else firstRepeat_small (before ++ [p]) own
  end.
(** [firstRepeat] above it: each key against a set of those seen. *)
Fixpoint firstRepeat_wide (seen : gset gostring) (own : list Pair) : option gostring :=
  match own with
  | [] => None
  | p :: own =>
    if decide (Key p ∈ seen) then Some (Key p) else firstRepeat_wide ({[Key p]} ∪ seen) own
  end.
Definition firstRepeat (own : list Pair) : option gostring :=
  if (length own <=? smallKeys)%nat then
    match own with [] => None | p :: own => firstRepeat_small [p] own end
  else firstRepeat_wide ∅ own.

(** How often each key is written, a Go [map[string]int]. *)
Definition bump (m : gmap gostring nat) (k : gostring) : gmap gostring nat :=
  <[k := S (default 0 (m !! k))]> m.
Definition count_keys (pairs : list Pair) : gmap gostring nat :=
  foldl (λ m p, bump m (Key p)) ∅ pairs.

Fixpoint keepCopy_from (seen written : gmap gostring nat) (rule : copyRule) (pairs : list Pair)
    : list Pair :=
  match pairs with
  | [] => []
  | p :: pairs =>
    let seen := bump seen (Key p) in
    let n := default 0 (seen !! Key p) in
    let kept := match rule with
                | firstCopy => bool_decide (n = 1)
                | lastCopy => bool_decide (n = default 0 (written !! Key p))
                end in
    if kept then p :: keepCopy_from seen written rule pairs
    else keepCopy_from seen written rule pairs
  end.
Definition keepCopy (pairs : list Pair) (written : gmap gostring nat) (rule : copyRule) : list Pair :=
  keepCopy_from ∅ written rule pairs.

(** The merged pairs no pair of the mapping's own overrides, the first of each
    key. *)
Fixpoint merged_base (written : gmap gostring nat) (taken : gset gostring) (merged : list Pair)
    : list Pair :=
  match merged with
  | [] => []
  | p :: merged =>
    if (0 <? default 0 (written !! Key p))%nat || bool_decide (Key p ∈ taken)
    then merged_base written taken merged
    else p :: merged_base written ({[Key p]} ∪ taken) merged
  end.

(** [flatten]: the pairs as the mapping is read, and as another merges it, [None]
    when no key is written twice. *)
Definition flatten (explicit merged : list Pair) : list Pair * option (list Pair) :=
  let written := count_keys explicit in
  let base := merged_base written ∅ merged in
  let own := base ++ keepCopy explicit written lastCopy in
  if (size written =? length explicit)%nat then (own, None)
  else (own, Some (base ++ keepCopy explicit written firstCopy)).

(** ** Expansions *)

Record repeated : Type := mkRepeated {
  rep_merged : option (list Pair);
  rep_key : gostring;
  rep_in : ref }.

Record expansion : Type := mkExpansion {
  pairs : list Pair;
  rep : option repeated;
  height : nat;
  complete : bool }.

Definition asSource (e : expansion) : list Pair :=
  match rep e with
  | Some r => match rep_merged r with Some m => m | None => pairs e end
  | None => pairs e
  end.
Definition sourceRepeat (e : expansion) : option repeated :=
  match rep e with
  | None => None
  | Some r => Some (mkRepeated None (rep_key r) (rep_in r))
  end.

(** The answer of a node with nothing to expand, and of a read cut short. *)
Definition no_expansion : expansion := mkExpansion [] None 0 true.
Definition cut_expansion : expansion := mkExpansion [] None 0 false.

(** [cmp.Or] of two pointers. *)
Definition cmp_Or {A} (a b : option A) : option A := match a with Some _ => a | None => b end.

Section Reads.
Context {yml : Yml} (t : Tree).

Definition IsMergeKey (raw : ref) : bool := yml_IsMergeKey ((λ a, t !!! a) <$> raw).
Definition KeyOf (raw : ref) : gostring * bool :=
  match raw with
  | None => ([], false)
  | Some a =>
    if IsMergeKey raw then ([], false)
    else match Deref t raw with
         | Some k => (Val (t !!! k), true)
         | None => (Val (t !!! a), true)
         end
  end.

Definition is_mapping (n : ref) : bool :=
  match n with Some a => bool_decide (Kind (t !!! a) = MappingNode) | None => false end.
Definition is_sequence (n : ref) : bool :=
  match n with Some a => bool_decide (Kind (t !!! a) = SequenceNode) | None => false end.
Definition content (n : ref) : list ref :=
  match n with Some a => Content (t !!! a) | None => [] end.

(** *** One mapping, over whatever state its reads of other nodes thread *)

Section Step.
Context {S : Type} (expand : S → ref → S * expansion).

(** One item of a merge sequence, added to what those before it gave. *)
Definition source_item (acc : S * expansion) (item : ref) : S * expansion :=
  let '(s, e) := acc in
  let '(s, got) := expand s (Deref t item) in
  (s, mkExpansion (pairs e ++ asSource got) (cmp_Or (rep e) (sourceRepeat got))
        (Nat.max (height e) (height got)) (complete e && complete got)).

Definition mergeSource (s : S) (val : ref) : S * expansion :=
  if negb (is_sequence val) then
    let '(s, got) := expand s val in
    (s, mkExpansion (asSource got) (sourceRepeat got) (height got) (complete got))
  else foldl source_item (s, no_expansion) (content val).

(** What the loop of [expandContent] carries. *)
Record content_state : Type := mkContent {
  c_state : S;
  c_explicit : list Pair;
  c_merged : list Pair;
  c_rep : option repeated;
  c_height : nat;
  c_complete : bool }.

Definition content_step (c : content_state) (rv : ref * ref) : content_state :=
  let '(raw, val) := rv in
  let val := Deref t val in
  if IsMergeKey raw then
    let '(s, got) := mergeSource (c_state c) val in
    mkContent s (c_explicit c) (c_merged c ++ pairs got) (cmp_Or (c_rep c) (rep got))
      (Nat.max (c_height c) (height got + 1)) (c_complete c && complete got)
  else
    let '(key, own) := KeyOf raw in
    if negb own then c
    else mkContent (c_state c) (c_explicit c ++ [mkPair key val]) (c_merged c) (c_rep c)
           (c_height c) (c_complete c).

Definition settle (n : ref) (c : content_state) : expansion :=
  let repeats := firstRepeat (c_explicit c) in
  if match repeats with None => is_nil (c_merged c) | Some _ => false end then
    mkExpansion (c_explicit c) (c_rep c) (c_height c) (c_complete c)
  else
    let '(own, as_source) := flatten (c_explicit c) (c_merged c) in
    mkExpansion own
      (match repeats with
       | Some key => Some (mkRepeated as_source key n)
       | None => c_rep c
       end) (c_height c) (c_complete c).

Definition expandContent (s : S) (n : ref) : S * expansion :=
  let c := foldl content_step (mkContent s [] [] None 0 true) (raw_pairs (content n)) in
  (c_state c, settle n c).
End Step.

(** *** The view *)

Record View : Type := mkView {
  v_pairs : gmap nat expansion;
  v_keys : gmap nat (option (gmap gostring ref));
  cached : Budget;
  inFlight : gset nat;
  exhausted : bool }.

Definition New : View := mkView ∅ ∅ (Budget.New (AtMost maxCachedPairs)) ∅ false.

Definition set_inFlight (v : View) (s : gset nat) : View :=
  mkView (v_pairs v) (v_keys v) (cached v) s (exhausted v).
Definition set_exhausted (v : View) : View :=
  mkView (v_pairs v) (v_keys v) (cached v) (inFlight v) true.
Definition set_keys (v : View) (keys : gmap nat (option (gmap gostring ref))) : View :=
  mkView (v_pairs v) keys (cached v) (inFlight v) (exhausted v).

Definition isEntryPoint (v : View) (depth : nat) : bool :=
  (depth =? 0)%nat && bool_decide (inFlight v = ∅).

Definition serves (v : View) (e : expansion) (depth : nat) : bool :=
  if negb (complete e) then isEntryPoint v depth
  else (depth + height e <=? MergeDepthLimit)%nat.

Definition held (e : expansion) : nat :=
  (length (pairs e) +
   match rep e with Some r => length (default [] (rep_merged r)) | None => 0 end)%nat.

Definition memoize (v : View) (n : nat) (e : expansion) : View :=
  if negb (Admits (Remaining (cached v)) (Z.of_nat (held e))) then v
  else mkView (<[n := e]> (v_pairs v)) (v_keys v) (Spend (cached v) (Z.of_nat (held e))).1
         (inFlight v) (exhausted v).

(** [expand]. Each level of merges is one deeper and a level past
    [MergeDepthLimit] reads nothing, so the fuel [expand_fuel] leaves at a depth
    is never used up. *)
Fixpoint expand_at (fuel : nat) (depth : nat) (v : View) (n : ref) {struct fuel}
    : View * expansion :=
  match fuel, n with
  | O, _ => (v, cut_expansion)
  | S _, None => (v, no_expansion)
  | S fuel, Some a =>
    if negb (bool_decide (Kind (t !!! a) = MappingNode)) then (v, no_expansion)
    else
      let fresh :=
        if bool_decide (a ∈ inFlight v) then (v, cut_expansion)
        else if (MergeDepthLimit <? depth)%nat then (set_exhausted v, cut_expansion)
        else
          let v := set_inFlight v ({[a]} ∪ inFlight v) in
          let '(v, e) := expandContent (expand_at fuel (S depth)) v (Some a) in
          let v := set_inFlight v (inFlight v ∖ {[a]}) in
          (if complete e || isEntryPoint v depth then memoize v a e else v, e) in
      match v_pairs v !! a with
      | Some e => if serves v e depth then (v, e) else fresh
      | None => fresh
      end
  end.
Definition expand_fuel (depth : nat) : nat := (S (S MergeDepthLimit) - depth)%nat.
Definition expand (v : View) (n : ref) (depth : nat) : View * expansion :=
  expand_at (expand_fuel depth) depth v n.

Definition Expanded (v : View) (n : ref) : View * bool :=
  let '(v, e) := expand v (Deref t n) 0 in (v, complete e).
Definition MappingPairs (v : View) (n : ref) : View * list Pair :=
  let '(v, e) := expand v (Deref t n) 0 in (v, pairs e).
Definition Repeat (v : View) (n : ref) : View * option (gostring * ref) :=
  let '(v, e) := expand v (Deref t n) 0 in
  (v, match rep e with Some r => Some (rep_key r, rep_in r) | None => None end).

(** *** Reading one child *)

Definition minIndexedPairs : nat := 16.

(** A key index, the last pair of a key kept. *)
Definition index_of (ps : list Pair) : gmap gostring ref :=
  foldl (λ m p, <[Key p := PVal p]> m) ∅ ps.

Definition keyIndex (v : View) (n : nat) (ps : list Pair) : View * option (gmap gostring ref) :=
  if (length ps <? minIndexedPairs)%nat then (v, None)
  else match v_pairs v !! n with
       | None => (v, None)
       | Some _ =>
         match v_keys v !! n with
         | None => (set_keys v (<[n := None]> (v_keys v)), None)
         | Some _ =>
           let index := index_of ps in
           (set_keys v (<[n := Some index]> (v_keys v)), Some index)
         end
       end.

(** The scan of the pairs for a key, and a key's entry in a map whose values are
    pointers, nil when absent. *)
Fixpoint scan_pairs (ps : list Pair) (token : gostring) : ref :=
  match ps with
  | [] => None
  | p :: ps => if bool_decide (Key p = token) then PVal p else scan_pairs ps token
  end.
Definition at_key (m : gmap gostring ref) (token : gostring) : ref := default None (m !! token).

Definition mappingChild (v : View) (n : nat) (token : gostring) : View * ref :=
  match v_keys v !! n with
  | Some (Some index) => (v, at_key index token)
  | _ =>
    let '(v, ps) := MappingPairs v (Some n) in
    let '(v, index) := keyIndex v n ps in
    (v, match index with Some index => at_key index token | None => scan_pairs ps token end)
  end.

Definition ChildByToken (v : View) (n : ref) (token : gostring) : View * ref :=
  match n with
  | None => (v, None)
  | Some a =>
    match Kind (t !!! a) with
    | MappingNode => mappingChild v a token
    | SequenceNode =>
      match Atoi token with
      | None => (v, None)
      | Some idx =>
        if (idx <? 0)%Z || (Z.of_nat (length (Content (t !!! a))) <=? idx)%Z then (v, None)
        else (v, default None (Content (t !!! a) !! Z.to_nat idx))
      end
    | _ => (v, None)
    end
  end.

Fixpoint DocumentPath_from (v : View) (cur : ref) (path : list ref) (segments : Z)
    (tokens : list gostring) : View * (list ref * bool) :=
  match tokens with
  | [] => (v, (path, true))
  | token :: tokens =>
    let segments := (segments + 1)%Z in
    if (MaxPointerSegments <? segments)%Z then (v, (path, false))
    else
      let '(v, child) := ChildByToken v cur token in
      match Deref t child with
      | None => (v, (path, false))
      | Some c => DocumentPath_from v (Some c) (path ++ [Some c]) segments tokens
      end
  end.
Definition DocumentPath (v : View) (root : ref) (pointer : gostring) : View * (list ref * bool) :=
  match Deref t root with
  | None => (v, ([], false))
  | Some cur => DocumentPath_from v (Some cur) [Some cur] 0 (Tokens pointer)
  end.

(** *** Reads that build no view *)

Definition Pairs (n : ref) : list Pair := (MappingPairs New (DocumentRoot t n)).2.

(** [childIn] of the mapping's own pairs: the copy the rule names. *)
Definition own_copy (rule : copyRule) (key : gostring) (rps : list (ref * ref)) : ref * bool :=
  foldl (λ acc rv,
    if IsMergeKey rv.1 then acc
    else let '(k, own) := KeyOf rv.1 in
         if own && bool_decide (k = key) && (bool_decide (rule = lastCopy) || negb acc.2)
         then (rv.2, true) else acc) (None, false) rps.

Fixpoint first_found {A} (f : A → ref * bool) (l : list A) : ref * bool :=
  match l with
  | [] => (None, false)
  | x :: l => let '(v, found) := f x in if found then (v, true) else first_found f l
  end.

Definition childOfSource (childIn : ref → ref * bool) (val : ref) : ref * bool :=
  if negb (is_sequence val) then childIn val
  else first_found (λ item, childIn (Deref t item)) (content val).

Fixpoint childIn (fuel : nat) (n : ref) (key : gostring) (rule : copyRule) (path : list nat)
    : ref * bool :=
  match fuel, n with
  | O, _ | _, None => (None, false)
  | S fuel, Some a =>
    if negb (bool_decide (Kind (t !!! a) = MappingNode))
       || (MergeDepthLimit <? length path)%nat || bool_decide (a ∈ path)
    then (None, false)
    else
      let rps := raw_pairs (Content (t !!! a)) in
      let merges := existsb (λ rv, IsMergeKey rv.1) rps in
      let '(v, found) := own_copy rule key rps in
      if found || negb merges then (Deref t v, found)
      else
        let path := path ++ [a] in
        first_found (λ rv,
          if negb (IsMergeKey rv.1) then (None, false)
          else childOfSource (λ n, childIn fuel n key firstCopy path) (Deref t rv.2)) rps
  end.
Definition Child (n : ref) (key : gostring) : ref :=
  (childIn (expand_fuel 0) (Deref t (DocumentRoot t n)) key lastCopy []).1.

Definition Strings (n : ref) : list gostring * bool :=
  let n := Deref t n in
  if negb (is_sequence n) then ([], false)
  else
    let fix loop (out : list gostring) (items : list ref) :=
      match items with
      | [] => (out, true)
      | item :: items =>
        match Deref t item with
        | None => ([], false)
        | Some i =>
          if negb (bool_decide (Kind (t !!! i) = ScalarNode))
             || bool_decide (Tag (t !!! i) = go "!!null") then ([], false)
          else loop (out ++ [Val (t !!! i)]) items
        end
      end in
    loop [] (content n).

Definition WrittenChildren (n : ref) : gmap gostring ref :=
  if negb (is_mapping n) then ∅
  else foldl (λ out rv, let '(key, own) := KeyOf rv.1 in if own then <[key := rv.2]> out else out)
         ∅ (raw_pairs (content n)).

Definition RepeatedKeys (n : ref) : list gostring :=
  let n := Deref t n in
  if negb (is_mapping n) then []
  else (foldl (λ acc rv,
          let '(copies, out) := acc in
          let '(key, own) := KeyOf rv.1 in
          if negb own then acc
          else let copies := bump copies key in
               (copies, if bool_decide (default 0 (copies !! key) = 2) then out ++ [key] else out))
        (∅ : gmap gostring nat, []) (raw_pairs (content n))).2.
End Reads.
