(* ===== verification/NodeMemo.v ===== *)
(** * A view answers as a fresh one would

    The claim [View] of [nodeview.go] makes: its memo is a pure cache, so one view
    can be shared by every walk of a document. The reference is the expansion with
    nothing kept, by the nodes in flight around it and its depth; a view that keeps
    what it finds is shown to answer it, whatever was read before, and to know
    whether any read was cut short. *)
From stdpp Require Import relations.
From S2P Require Import Prelude GoLib Pointer Budget NodeView.

(** ** The pairs of one mapping

    What [firstRepeat], [keepCopy] and [flatten] of [nodeview.go] come to: each
    key once, at the copy the rule names, the mapping's own before what it merges,
    an earlier source before a later one. *)

Section PairsOf.
Implicit Types (ps l : list Pair) (k : gostring).

(** ** One key among pairs *)

Definition keys ps : list gostring := Key <$> ps.
Fixpoint first_of ps k : option ref :=
  match ps with
  | [] => None
  | p :: ps => if decide (Key p = k) then Some (PVal p) else first_of ps k
  end.
Definition last_of ps k : option ref := first_of (reverse ps) k.
Definition copies ps k : nat := length (filter (λ p, Key p = k) ps).

Lemma first_of_app l1 l2 k :
  first_of (l1 ++ l2) k = match first_of l1 k with Some v => Some v | None => first_of l2 k end.
Proof. induction l1 as [|p l1 IH]; [done|]. simpl. by case_decide. Qed.

Lemma last_of_cons p l k : last_of (p :: l) k =
  match last_of l k with Some v => Some v | None => if decide (Key p = k) then Some (PVal p) else None end.
Proof. unfold last_of. rewrite reverse_cons, first_of_app. simpl. done. Qed.

Lemma first_of_none l k : first_of l k = None ↔ k ∉ keys l.
Proof.
  induction l as [|p l IH]; simpl; [split; [intros _; apply not_elem_of_nil|done]|].
  case_decide as Hk; [subst; split; [done|intros []; left]|]. rewrite IH, not_elem_of_cons. naive_solver.
Qed.
Lemma last_of_none l k : last_of l k = None ↔ k ∉ keys l.
Proof. unfold last_of. rewrite first_of_none. unfold keys. by rewrite fmap_reverse, elem_of_reverse. Qed.

Lemma first_of_nodup l k : NoDup (keys l) → last_of l k = first_of l k.
Proof.
  induction l as [|p l IH]; [done|]. unfold keys. cbn [fmap list_fmap].
  intros [Hp Hl]%NoDup_cons. rewrite last_of_cons, IH by done. simpl. case_decide as Hk; [|by destruct (first_of l k)].
  subst k. by apply first_of_none in Hp as ->.
Qed.

Lemma scan_first ps k : scan_pairs ps k = default None (first_of ps k).
Proof. induction ps as [|p ps IH]; [done|]. simpl. case_decide; [by rewrite bool_decide_true|by rewrite bool_decide_false]. Qed.

Lemma index_of_from (m : gmap gostring ref) ps k :
  foldl (λ m p, <[Key p := PVal p]> m) m ps !! k =
  match last_of ps k with Some v => Some v | None => m !! k end.
Proof.
  revert m. induction ps as [|p ps IH]; intros m; [done|]. cbn [foldl]. rewrite IH, last_of_cons.
  destruct (last_of ps k); [done|]. case_decide as Hk; [subst; by rewrite lookup_insert_eq|by rewrite lookup_insert_ne].
Qed.

(** A key index answers as the scan does, each key being held once. *)
Lemma index_scan ps k : NoDup (keys ps) → at_key (index_of ps) k = scan_pairs ps k.
Proof.
  intros Hn. unfold at_key, index_of. rewrite index_of_from, first_of_nodup, scan_first by done.
  rewrite lookup_empty. by destruct (first_of ps k).
Qed.

(** ** Counts *)

Lemma bump_lookup m k k' : default 0 (bump m k !! k') = default 0 (m !! k') + (if decide (k = k') then 1 else 0).
Proof.
  unfold bump. case_decide as Hk; [subst; rewrite lookup_insert_eq; simpl; lia|].
  rewrite lookup_insert_ne by done. lia.
Qed.

Lemma copies_cons p l k : copies (p :: l) k = (if decide (Key p = k) then 1 else 0) + copies l k.
Proof. unfold copies. rewrite filter_cons. by case_decide. Qed.
Lemma copies_zero l k : copies l k = 0 ↔ k ∉ keys l.
Proof.
  induction l as [|p l IH]; [split; [intros _; apply not_elem_of_nil|done]|].
  rewrite copies_cons. unfold keys in *. cbn [fmap list_fmap]. rewrite not_elem_of_cons.
  case_decide as Hk; [subst; split; [lia|naive_solver]|]. rewrite <- IH. naive_solver.
Qed.

Lemma count_from m l k :
  default 0 (foldl (λ m p, bump m (Key p)) m l !! k) = default 0 (m !! k) + copies l k.
Proof.
  revert m. induction l as [|p l IH]; intros m; [simpl; unfold copies; simpl; lia|].
  cbn [foldl]. rewrite IH, bump_lookup, copies_cons. case_decide; lia.
Qed.
Lemma count_lookup l k : default 0 (count_keys l !! k) = copies l k.
Proof. unfold count_keys. rewrite count_from, lookup_empty. done. Qed.

Lemma dom_bump m k : dom (bump m k) = {[k]} ∪ dom m.
Proof. unfold bump. apply dom_insert_L. Qed.
Lemma count_dom l : dom (count_keys l) = list_to_set (C := gset gostring) (keys l).
Proof.
  unfold count_keys. assert (H : ∀ m, dom (foldl (λ m p, bump m (Key p)) m l) = dom m ∪ list_to_set (C := gset gostring) (keys l)).
  { induction l as [|p l IH]; intros m; simpl; [set_solver|]. rewrite IH, dom_bump. set_solver. }
  rewrite H, dom_empty_L. set_solver.
Qed.

Lemma size_set_nodup `{Countable A} (l : list A) : size (list_to_set (C := gset A) l) = length l → NoDup l.
Proof.
  induction l as [|x l IH]; [constructor|]. intros Hs.
  pose proof (size_of_list_le l) as Hle. change (list_to_set (x :: l)) with ({[x]} ∪ list_to_set (C := gset A) l) in Hs.
  destruct (decide (x ∈ l)) as [Hx|Hx].
  - replace ({[x]} ∪ list_to_set (C := gset A) l) with (list_to_set (C := gset A) l) in Hs by set_solver.
    simpl in Hs. lia.
  - constructor; [done|]. apply IH. rewrite size_union, size_singleton in Hs by set_solver. simpl in Hs. lia.
Qed.

Lemma count_size l : (size (count_keys l) =? length l) = true ↔ NoDup (keys l).
Proof.
  rewrite Nat.eqb_eq, <- size_dom, count_dom. unfold keys. rewrite <- (length_fmap Key l).
  split; [apply size_set_nodup|apply size_list_to_set].
Qed.

(** ** The key written twice *)

Lemma small_wide before own : firstRepeat_small before own = firstRepeat_wide (list_to_set (keys before)) own.
Proof.
  revert before. induction own as [|p own IH]; intros before; [done|]. cbn [firstRepeat_small firstRepeat_wide].
  destruct (existsb _ before) eqn:E.
  - rewrite decide_True; [done|]. apply elem_of_list_to_set. apply existsb_exists in E as (q & Hq & Hk).
    apply list_elem_of_In in Hq. apply bool_decide_eq_true in Hk. rewrite <- Hk. by apply list_elem_of_fmap_2.
  - rewrite decide_False.
    + rewrite IH. f_equal. unfold keys. rewrite fmap_app. apply leibniz_equiv. rewrite list_to_set_app. simpl. set_solver.
    + intros (q & Hk & Hq)%elem_of_list_to_set%list_elem_of_fmap. apply not_true_iff_false in E. apply E, existsb_exists.
      exists q. split; [by apply list_elem_of_In|by apply bool_decide_eq_true].
Qed.

(** Both ways of looking find the same key. *)
Lemma firstRepeat_alike own : firstRepeat own = firstRepeat_wide ∅ own.
Proof.
  unfold firstRepeat. destruct (length own <=? smallKeys); [|done]. destruct own as [|p own]; [done|].
  rewrite small_wide. simpl. rewrite decide_False by set_solver. done.
Qed.

Lemma firstRepeat_wide_none s own :
  firstRepeat_wide s own = None ↔ NoDup (keys own) ∧ ∀ k, k ∈ keys own → k ∉ s.
Proof.
  revert s. induction own as [|p own IH]; intros s; simpl.
  { split; [intros _; split; [constructor|]; by intros ? ?%elem_of_nil|done]. }
  rewrite NoDup_cons. destruct (decide (Key p ∈ s)) as [Hk|Hk].
  - split; [done|]. intros [_ H]. destruct (H (Key p)); [left|done].
  - rewrite IH. unfold keys in *. setoid_rewrite elem_of_cons. set_solver.
Qed.
Lemma firstRepeat_none own : firstRepeat own = None ↔ NoDup (keys own).
Proof. rewrite firstRepeat_alike, firstRepeat_wide_none. set_solver. Qed.

Lemma firstRepeat_wide_some s own k : firstRepeat_wide s own = Some k →
  ∃ l p l', own = l ++ p :: l' ∧ Key p = k ∧ NoDup (keys l) ∧ (k ∈ s ∨ k ∈ keys l) ∧ ∀ k', k' ∈ keys l → k' ∉ s.
Proof.
  revert s. induction own as [|p own IH]; intros s; simpl; [done|].
  destruct (decide (Key p ∈ s)) as [Hk|Hk].
  - intros [= <-]. exists [], p, own. split_and!; [done|done|constructor|by left|by intros ? ?%elem_of_nil].
  - intros (l & q & l' & -> & Hq & Hn & Hs & Hd)%IH. exists (p :: l), q, l'. unfold keys in *. cbn [fmap list_fmap].
    split_and!; [done|done| | |].
    + apply NoDup_cons. split; [|done]. intros Hp%Hd. set_solver.
    + set_solver.
    + intros k'. rewrite elem_of_cons. set_solver.
Qed.

(** The key found is the one whose second copy comes first. *)
Lemma firstRepeat_some own k : firstRepeat own = Some k →
  ∃ l p l', own = l ++ p :: l' ∧ Key p = k ∧ k ∈ keys l ∧ NoDup (keys l).
Proof.
  rewrite firstRepeat_alike. intros (l & p & l' & H1 & H2 & H3 & H4 & _)%firstRepeat_wide_some.
  exists l, p, l'. split_and!; [done..|set_solver|done].
Qed.

(** ** One copy of each key *)

Lemma keepCopy_last_from seen written l :
  (∀ k, k ∈ keys l → default 0 (written !! k) = default 0 (seen !! k) + copies l k) →
  let kept := keepCopy_from seen written lastCopy l in
  (∀ k, first_of kept k = last_of l k) ∧ NoDup (keys kept).
Proof.
  revert seen. induction l as [|p l IH]; intros seen Hw; [split; [done|constructor]|].
  cbn [keepCopy_from]. cbv zeta.
  destruct (IH (bump seen (Key p))) as [Hl Hn].
  { intros k Hk. rewrite Hw by (unfold keys in *; cbn; by right). rewrite bump_lookup, copies_cons. lia. }
  assert (Hkeep : default 0 (bump seen (Key p) !! Key p) = default 0 (written !! Key p) ↔ Key p ∉ keys l).
  { rewrite Hw by (left). rewrite bump_lookup, copies_cons, decide_True by done. rewrite <- copies_zero. lia. }
  case_bool_decide as Hc; [apply Hkeep in Hc|rewrite Hkeep in Hc; apply dec_stable in Hc]; split.
  - intros k. rewrite last_of_cons. cbn [first_of]. rewrite Hl. case_decide as Hk; [|by destruct (last_of l k)].
    subst k. by apply last_of_none in Hc as ->.
  - unfold keys at 1. cbn [fmap list_fmap]. apply NoDup_cons. split; [|done]. rewrite <- first_of_none, Hl.
    by apply last_of_none.
  - intros k. rewrite last_of_cons, Hl. destruct (last_of l k) eqn:E; [done|].
    apply last_of_none in E. by case_decide; subst.
  - done.
Qed.

Lemma keepCopy_first_from seen written l :
  let kept := keepCopy_from seen written firstCopy l in
  (∀ k, first_of kept k = if decide (default 0 (seen !! k) = 0) then first_of l k else None) ∧ NoDup (keys kept).
Proof.
  revert seen. induction l as [|p l IH]; intros seen.
  { split; [|constructor]. intros k. simpl. by case_decide. }
  cbn [keepCopy_from]. cbv zeta. destruct (IH (bump seen (Key p))) as [Hl Hn].
  assert (Hkeep : default 0 (bump seen (Key p) !! Key p) = 1 ↔ default 0 (seen !! Key p) = 0)
    by (rewrite bump_lookup, decide_True by done; lia).
  assert (Hrest : ∀ k, Key p ≠ k → (if decide (default 0 (bump seen (Key p) !! k) = 0) then first_of l k else None) =
      (if decide (default 0 (seen !! k) = 0) then first_of (p :: l) k else None)).
  { intros k Hk. rewrite bump_lookup, (decide_False (P := Key p = k)), Nat.add_0_r by done. simpl. by rewrite (decide_False (P := Key p = k)). }
  case_bool_decide as Hc; rewrite Hkeep in Hc; split.
  - intros k. cbn [first_of]. destruct (decide (Key p = k)) as [<-|Hk]; [by rewrite decide_True|].
    rewrite Hl, Hrest by done. simpl. by rewrite (decide_False (P := Key p = k)).
  - unfold keys at 1. cbn [fmap list_fmap]. apply NoDup_cons. split; [|done]. rewrite <- first_of_none, Hl.
    rewrite bump_lookup, (decide_True (P := Key p = Key p)) by done. apply decide_False. lia.
  - intros k. rewrite Hl. destruct (decide (Key p = k)) as [<-|Hk]; [|by apply Hrest].
    rewrite bump_lookup, (decide_True (P := Key p = Key p)) by done. by rewrite !decide_False by lia.
  - done.
Qed.

Lemma keepCopy_last l : let kept := keepCopy l (count_keys l) lastCopy in
  (∀ k, first_of kept k = last_of l k) ∧ NoDup (keys kept).
Proof. apply keepCopy_last_from. intros k _. rewrite count_lookup, lookup_empty. done. Qed.
Lemma keepCopy_first l : let kept := keepCopy l (count_keys l) firstCopy in
  (∀ k, first_of kept k = first_of l k) ∧ NoDup (keys kept).
Proof.
  destruct (keepCopy_first_from ∅ (count_keys l) l) as [H1 H2]. split; [|done]. intros k.
  unfold keepCopy. rewrite H1, lookup_empty. done.
Qed.

(** ** The mapping's own and what it merges *)

Lemma merged_base_spec written taken l : let base := merged_base written taken l in
  (∀ k, first_of base k = if decide (default 0 (written !! k) = 0 ∧ k ∉ taken) then first_of l k else None) ∧
  NoDup (keys base).
Proof.
  revert taken. induction l as [|p l IH]; intros taken.
  { split; [|constructor]. intros k. simpl. by case_decide. }
  cbn [merged_base]. destruct (_ || _) eqn:E.
  - destruct (IH taken) as [H1 H2]. split; [|done]. intros k. rewrite H1. simpl.
    destruct (decide (Key p = k)) as [<-|Hk]; [|done].
    rewrite !decide_False; [done|..]; rewrite orb_true_iff, Nat.ltb_lt, bool_decide_eq_true in E; intros []; naive_solver lia.
  - rewrite orb_false_iff, Nat.ltb_ge, bool_decide_eq_false in E. destruct E as [Ew Et].
    destruct (IH ({[Key p]} ∪ taken)) as [H1 H2]. split.
    + intros k. cbn [first_of]. rewrite H1. destruct (decide (Key p = k)) as [<-|Hk].
      * rewrite decide_True; [done|]. split; [lia|done].
      * repeat case_decide; try done; set_solver.
    + unfold keys at 1. cbn [fmap list_fmap]. apply NoDup_cons. split; [|done].
      rewrite <- first_of_none, H1. rewrite decide_False; [done|]. set_solver.
Qed.

(** Own pairs first, at the copy named; then the first merged one. *)
Definition settled (own : option ref) (merged : list Pair) k : option ref :=
  match own with Some v => Some v | None => first_of merged k end.

Lemma flatten_part explicit merged kept (own : gostring → option ref) :
  (∀ k, first_of kept k = own k) → NoDup (keys kept) → (∀ k, own k = None ↔ k ∉ keys explicit) →
  let ps := merged_base (count_keys explicit) ∅ merged ++ kept in
  (∀ k, first_of ps k = settled (own k) merged k) ∧ NoDup (keys ps).
Proof.
  intros Hk Hn Ho. destruct (merged_base_spec (count_keys explicit) ∅ merged) as [H1 H2].
  assert (Hz : ∀ k, (default 0 (count_keys explicit !! k) = 0 ∧ k ∉ (∅ : gset gostring)) ↔ own k = None).
  { intros k. rewrite count_lookup, copies_zero, Ho. set_solver. }
  split.
  - intros k. rewrite first_of_app, H1, Hk. unfold settled. case_decide as Hd; rewrite Hz in Hd.
    + rewrite Hd. by destruct (first_of merged k).
    + by destruct (own k).
  - unfold keys in *. rewrite fmap_app. apply NoDup_app. split_and!; [done| |done].
    intros k Hb Hkk. assert (Hk' : first_of kept k = None).
    { rewrite Hk. apply Hz. destruct (decide (default 0 (count_keys explicit !! k) = 0 ∧ k ∉ (∅ : gset gostring))) as [|Hd]; [done|].
      exfalso. apply (first_of_none (merged_base (count_keys explicit) ∅ merged) k); [|done]. rewrite H1. by rewrite decide_False. }
    by apply first_of_none in Hk'.
Qed.

Lemma flatten_own explicit merged : let ps := (flatten explicit merged).1 in
  (∀ k, first_of ps k = settled (last_of explicit k) merged k) ∧ NoDup (keys ps).
Proof.
  assert (E : (flatten explicit merged).1 = merged_base (count_keys explicit) ∅ merged ++ keepCopy explicit (count_keys explicit) lastCopy)
    by (unfold flatten; by case_match). rewrite E.
  destruct (keepCopy_last explicit) as [H1 H2].
  apply (flatten_part _ _ _ (last_of explicit)); [done..|]. intros k. apply last_of_none.
Qed.

Lemma flatten_source explicit merged : ¬ NoDup (keys explicit) → ∃ ps, (flatten explicit merged).2 = Some ps ∧
  ∀ k, first_of ps k = settled (first_of explicit k) merged k.
Proof.
  intros Hn. rewrite <- count_size in Hn. apply not_true_is_false in Hn. unfold flatten. rewrite Hn.
  eexists. split; [done|]. destruct (keepCopy_first explicit) as [H1 H2].
  destruct (flatten_part explicit merged _ (first_of explicit) H1 H2) as [H3 _]; [|done].
  intros k. apply first_of_none.
Qed.
End PairsOf.

Section Memo.
Context {yml : Yml} (t : Tree).

(** ** The expansion with nothing kept *)

(** The nodes [expandContent] asks for the expansion of, in order. *)
Definition sources_of (rv : ref * ref) : list ref :=
  if IsMergeKey t rv.1 then
    let val := Deref t rv.2 in
    if negb (is_sequence t val) then [val] else Deref t <$> content t val
  else [].
Definition merge_sources (n : ref) : list ref := raw_pairs (content t n) ≫= sources_of.

Definition with_answers {S} (g : ref → expansion) (s : S) (m : ref) : S * expansion := (s, g m).

Fixpoint fresh_at (fuel depth : nat) (path : gset nat) (n : ref) : expansion :=
  match fuel, n with
  | O, _ => cut_expansion
  | S _, None => no_expansion
  | S fuel, Some a =>
    if negb (bool_decide (Kind (t !!! a) = MappingNode)) then no_expansion
    else if bool_decide (a ∈ path) then cut_expansion
    else if (MergeDepthLimit <? depth)%nat then cut_expansion
    else (expandContent t (with_answers (fresh_at fuel (S depth) ({[a]} ∪ path))) tt (Some a)).2
  end.
Definition fresh (n : ref) : expansion := fresh_at (expand_fuel 0) 0 ∅ n.

(** Whether that expansion stops at the merge-depth bound. *)
Fixpoint truncated_at (fuel depth : nat) (path : gset nat) (n : ref) : bool :=
  match fuel, n with
  | O, _ | S _, None => false
  | S fuel, Some a =>
    if negb (bool_decide (Kind (t !!! a) = MappingNode)) then false
    else if bool_decide (a ∈ path) then false
    else if (MergeDepthLimit <? depth)%nat then true
    else existsb (truncated_at fuel (S depth) ({[a]} ∪ path)) (merge_sources (Some a))
  end.
Definition truncated (n : ref) : bool := truncated_at (expand_fuel 0) 0 ∅ n.

(** ** One mapping's expansion, by the answers it is given *)

Section Answers.
Context {S : Type} (rec : S → ref → S * expansion) (g : ref → expansion).
Context (Φ : list ref → S → Prop) (within : list ref).
Hypothesis Hrec : ∀ l m s, m ∈ within → Φ l s → Φ (l ++ [m]) (rec s m).1 ∧ (rec s m).2 = g m.

Lemma source_items items l s e : (∀ i, i ∈ items → Deref t i ∈ within) → Φ l s →
  Φ (l ++ (Deref t <$> items)) (foldl (source_item t rec) (s, e) items).1 ∧
  (foldl (source_item t rec) (s, e) items).2 = (foldl (source_item t (with_answers g)) (tt, e) items).2.
Proof using Hrec.
  revert l s e. induction items as [|i items IH]; intros l s e Hw Hl; [by rewrite app_nil_r|].
  cbn [foldl fmap list_fmap]. unfold source_item at 2 4 6, with_answers at 2.
  destruct (Hrec l (Deref t i) s (Hw i ltac:(left)) Hl) as [Hs He].
  destruct (rec s (Deref t i)) as [s' got]. cbn [fst snd] in *. subst got.
  destruct (IH (l ++ [Deref t i]) s' (mkExpansion (pairs e ++ asSource (g (Deref t i)))
    (cmp_Or (rep e) (sourceRepeat (g (Deref t i)))) (Nat.max (height e) (height (g (Deref t i))))
    (complete e && complete (g (Deref t i))))) as [IH1 IH2]; [|done|].
  { intros j Hj. apply Hw. by right. }
  split; [|exact IH2]. by rewrite <- app_assoc in IH1.
Qed.

Lemma mergeSource_answers rv l s : IsMergeKey t rv.1 = true →
  (∀ m, m ∈ sources_of rv → m ∈ within) → Φ l s →
  Φ (l ++ sources_of rv) (mergeSource t rec s (Deref t rv.2)).1 ∧
  (mergeSource t rec s (Deref t rv.2)).2 = (mergeSource t (with_answers g) tt (Deref t rv.2)).2.
Proof using Hrec.
  intros Hk. unfold sources_of. rewrite Hk. unfold mergeSource. intros Hw Hl.
  destruct (is_sequence t (Deref t rv.2)) eqn:E; cbn [negb] in *.
  - apply source_items; [|done]. intros i Hi. apply Hw. by apply list_elem_of_fmap_2.
  - destruct (Hrec l _ s (Hw _ ltac:(left)) Hl) as [Hs He].
    unfold with_answers. destruct (rec s (Deref t rv.2)) as [s' got]. simpl in *. by subst got.
Qed.

Lemma content_answers rps l (c : content_state) (c' : content_state (S := unit)) :
  (∀ m, m ∈ rps ≫= sources_of → m ∈ within) → Φ l (c_state c) →
  c_explicit c = c_explicit c' → c_merged c = c_merged c' → c_rep c = c_rep c' →
  c_height c = c_height c' → c_complete c = c_complete c' →
  let d := foldl (content_step t rec) c rps in
  let d' := foldl (content_step t (with_answers g)) c' rps in
  Φ (l ++ (rps ≫= sources_of)) (c_state d) ∧
  c_explicit d = c_explicit d' ∧ c_merged d = c_merged d' ∧ c_rep d = c_rep d' ∧
  c_height d = c_height d' ∧ c_complete d = c_complete d'.
Proof using Hrec.
  revert l c c'. induction rps as [|rv rps IH]; intros l c c' Hw Hl H1 H2 H3 H4 H5.
  { simpl. by rewrite app_nil_r. }
  cbn [foldl mbind list_bind] in *. rewrite app_assoc.
  assert (Hw1 : ∀ m, m ∈ sources_of rv → m ∈ within) by (intros m Hm; apply Hw, elem_of_app; by left).
  assert (Hw2 : ∀ m, m ∈ rps ≫= sources_of → m ∈ within) by (intros m Hm; apply Hw, elem_of_app; by right).
  destruct (IsMergeKey t rv.1) eqn:Hk.
  - destruct (mergeSource_answers rv l (c_state c) Hk Hw1 Hl) as [Hs He].
    apply IH; [done|..]; destruct rv as [raw val]; cbn [fst snd] in *; unfold content_step; rewrite Hk;
      destruct c' as [[] ? ? ? ? ?]; cbn [c_state] in *;
      destruct (mergeSource t rec (c_state c) (Deref t val)) as [s1 g1],
        (mergeSource t (with_answers g) tt (Deref t val)) as [s2 g2]; simpl in *; by subst.
  - assert (Hnil : sources_of rv = []) by (unfold sources_of; by rewrite Hk). rewrite Hnil, app_nil_r in *.
    apply IH; [done|..]; destruct rv as [raw val]; cbn [fst snd] in *; unfold content_step; rewrite Hk;
      destruct (KeyOf t raw) as [key []]; simpl; by rewrite ?H1.
Qed.

Lemma settle_ext {S1 S2} n (c : content_state (S := S1)) (c' : content_state (S := S2)) :
  c_explicit c = c_explicit c' → c_merged c = c_merged c' → c_rep c = c_rep c' →
  c_height c = c_height c' → c_complete c = c_complete c' → settle n c = settle n c'.
Proof using Type. intros H1 H2 H3 H4 H5. unfold settle. by rewrite H1, H2, H3, H4, H5. Qed.

Lemma expandContent_answers s n : (∀ m, m ∈ merge_sources n → m ∈ within) → Φ [] s →
  Φ (merge_sources n) (expandContent t rec s n).1 ∧
  (expandContent t rec s n).2 = (expandContent t (with_answers g) tt n).2.
Proof using Hrec.
  intros Hw Hs. unfold expandContent. cbn [fst snd].
  destruct (content_answers (raw_pairs (content t n)) [] (mkContent s [] [] None 0 true)
    (mkContent tt [] [] None 0 true)) as (H0 & H1 & H2 & H3 & H4 & H5); [done..|].
  split; [exact H0|]. by apply settle_ext.
Qed.
End Answers.

(** Only the answers it asks for matter. *)
Lemma expandContent_ext g g' n : (∀ m, m ∈ merge_sources n → g m = g' m) →
  (expandContent t (with_answers g) tt n).2 = (expandContent t (with_answers g') tt n).2.
Proof.
  intros H. symmetry. apply (expandContent_answers (with_answers g') g (λ _ _, True) (merge_sources n)); [|done..].
  intros _ m s Hm _. split; [done|]. symmetry. by apply H.
Qed.

(** A complete expansion has complete sources, each less high. *)
Lemma source_items_complete g items e :
  complete (foldl (source_item t (with_answers g)) (tt, e) items).2 = true →
  complete e = true ∧ height e ≤ height (foldl (source_item t (with_answers g)) (tt, e) items).2 ∧
  ∀ i, i ∈ items → complete (g (Deref t i)) = true ∧
    height (g (Deref t i)) ≤ height (foldl (source_item t (with_answers g)) (tt, e) items).2.
Proof.
  revert e. induction items as [|i items IH]; intros e Hc; [split_and!; [done..|]; by intros ? ?%elem_of_nil|].
  cbn [foldl] in *. unfold source_item at 2, with_answers at 2 in Hc.
  unfold source_item at 2 4, with_answers at 2 4.
  apply IH in Hc as (Hce & Hh & Hi). cbn [complete height] in *. apply andb_true_iff in Hce as [Hce Hcg].
  split_and!; [done|lia|]. intros j [->|Hj]%elem_of_cons; [split; [done|lia]|by apply Hi].
Qed.

Lemma mergeSource_complete g rv : IsMergeKey t rv.1 = true →
  complete (mergeSource t (with_answers g) tt (Deref t rv.2)).2 = true →
  ∀ m, m ∈ sources_of rv → complete (g m) = true ∧
    height (g m) ≤ height (mergeSource t (with_answers g) tt (Deref t rv.2)).2.
Proof.
  intros Hk. unfold sources_of. rewrite Hk. unfold mergeSource.
  destruct (is_sequence t (Deref t rv.2)); cbn [negb]; intros Hc m.
  - intros (i & -> & Hi)%list_elem_of_fmap. apply source_items_complete in Hc as (_ & _ & H). by apply H.
  - intros ->%list_elem_of_singleton. done.
Qed.

Lemma content_complete g rps (c : content_state (S := unit)) :
  let d := foldl (content_step t (with_answers g)) c rps in
  c_complete d = true →
  c_complete c = true ∧ c_height c ≤ c_height d ∧
  ∀ m, m ∈ rps ≫= sources_of → complete (g m) = true ∧ S (height (g m)) ≤ c_height d.
Proof.
  revert c. induction rps as [|rv rps IH]; intros c; cbn [foldl mbind list_bind].
  { intros Hc. split_and!; [done..|]. by intros ? ?%elem_of_nil. }
  set (c' := content_step t (with_answers g) c rv). intros Hc. apply IH in Hc as (Hc' & Hh' & Hm').
  assert (Hstep : c_complete c = true ∧ c_height c ≤ c_height c' ∧
    ∀ m, m ∈ sources_of rv → complete (g m) = true ∧ S (height (g m)) ≤ c_height c').
  { clear IH Hh' Hm'. destruct (IsMergeKey t rv.1) eqn:Hk.
    - pose proof (mergeSource_complete g rv Hk) as Hms. unfold c' in *.
      destruct rv as [raw val], c as [[] ? ? ? ? ?]. cbn [fst snd] in *. unfold content_step in *. rewrite Hk in *.
      cbn [c_state] in *. destruct (mergeSource t (with_answers g) tt (Deref t val)) as [s2 g2].
      cbn in *. apply andb_true_iff in Hc' as [Hca Hcb]. split_and!; [done|lia|].
      intros m Hm. destruct (Hms Hcb m Hm) as [H1 H2]. split; [done|lia].
    - assert (Hnil : sources_of rv = []) by (unfold sources_of; by rewrite Hk). rewrite Hnil.
      split_and!; [..|by intros ? ?%elem_of_nil]; unfold c' in *; destruct rv as [raw val]; cbn [fst] in Hk;
        unfold content_step in *; rewrite Hk in *; destruct (KeyOf t raw) as [key []]; done. }
  destruct Hstep as (H1 & H2 & H3). split_and!; [done|lia|].
  intros m [Hm|Hm]%elem_of_app; [|by apply Hm']. destruct (H3 m Hm). split; [done|lia].
Qed.

Lemma settle_complete {S} n (c : content_state (S := S)) :
  complete (settle n c) = c_complete c ∧ height (settle n c) = c_height c.
Proof. unfold settle. by repeat case_match. Qed.

Lemma expandContent_complete g n : let e := (expandContent t (with_answers g) tt n).2 in
  complete e = true → ∀ m, m ∈ merge_sources n → complete (g m) = true ∧ S (height (g m)) ≤ height e.
Proof.
  unfold expandContent, merge_sources. cbn [snd].
  set (c := foldl _ _ _). intros Hc. destruct (settle_complete n c) as [H1 H2]. rewrite H2. rewrite H1 in Hc.
  by apply content_complete in Hc as (_ & _ & Hm).
Qed.

(** ** Complete expansions have no cycle beneath them *)

(** One mapping merging another. *)
Definition merges (a b : nat) : Prop :=
  Kind (t !!! a) = MappingNode ∧ Kind (t !!! b) = MappingNode ∧ Some b ∈ merge_sources (Some a).

Lemma fresh_at_mapping fuel depth path a : Kind (t !!! a) = MappingNode →
  fresh_at (S fuel) depth path (Some a) =
    if bool_decide (a ∈ path) then cut_expansion
    else if (MergeDepthLimit <? depth)%nat then cut_expansion
    else (expandContent t (with_answers (fresh_at fuel (S depth) ({[a]} ∪ path))) tt (Some a)).2.
Proof. intros Hk. cbn [fresh_at]. by rewrite bool_decide_true. Qed.

Lemma fresh_at_other fuel depth path n : (∀ a, n = Some a → Kind (t !!! a) ≠ MappingNode) →
  fresh_at (S fuel) depth path n = no_expansion.
Proof. intros Hk. destruct n as [a|]; [|done]. cbn [fresh_at]. rewrite bool_decide_false; [done|by apply Hk]. Qed.

Lemma fresh_complete_step fuel depth path a : Kind (t !!! a) = MappingNode →
  complete (fresh_at (S fuel) depth path (Some a)) = true →
  a ∉ path ∧ depth ≤ MergeDepthLimit ∧
  ∀ m, m ∈ merge_sources (Some a) →
    complete (fresh_at fuel (S depth) ({[a]} ∪ path) m) = true ∧
    S (height (fresh_at fuel (S depth) ({[a]} ∪ path) m)) ≤ height (fresh_at (S fuel) depth path (Some a)).
Proof.
  intros Hk. rewrite fresh_at_mapping by done. destruct (decide (a ∈ path)) as [Ha|Ha].
  { by rewrite bool_decide_true. }
  rewrite bool_decide_false by done. destruct (Nat.ltb_spec MergeDepthLimit depth) as [?|Hd]; [done|].
  intros Hc. split_and!; [done|lia|]. by apply expandContent_complete.
Qed.

Lemma fresh_walks fuel depth path a k b :
  complete (fresh_at fuel depth path (Some a)) = true → nsteps merges k a b → k ≤ fuel.
Proof.
  revert depth path a k. induction fuel as [|fuel IH]; intros depth path a k Hc Hs; [done|].
  inversion Hs as [|k' ? c ? (Hk & Hkc & Hm) Hs']; subst; [lia|].
  apply fresh_complete_step in Hc as (_ & _ & Hc); [|done]. apply Hc in Hm as [Hcm _].
  pose proof (IH _ _ _ _ Hcm Hs'). lia.
Qed.

Lemma tc_walks a : tc merges a a → ∀ k, ∃ j, k ≤ j ∧ nsteps merges j a a.
Proof.
  intros (n & Hn & Hs)%tc_nsteps k. induction k as [|k (j & Hj & Hjs)]; [exists 0; split; [lia|constructor]|].
  exists (j + n). split; [lia|]. by eapply nsteps_trans.
Qed.

Lemma complete_acyclic fuel depth path a :
  complete (fresh_at fuel depth path (Some a)) = true → ¬ tc merges a a.
Proof. intros Hc Ht. destruct (tc_walks a Ht (S fuel)) as (j & Hj & Hs). pose proof (fresh_walks _ _ _ _ _ _ Hc Hs). lia. Qed.

(** What a read is made beneath: every node in flight merges, by some way, the
    one read. *)
Definition beneath (path : gset nat) (n : ref) : Prop :=
  ∀ p a, p ∈ path → n = Some a → Kind (t !!! a) = MappingNode → tc merges p a.

Lemma beneath_source path a m : Kind (t !!! a) = MappingNode → beneath path (Some a) →
  m ∈ merge_sources (Some a) → beneath ({[a]} ∪ path) m.
Proof.
  intros Hk Hb Hm p b Hp -> Hkb. assert (Hab : merges a b) by done.
  apply elem_of_union in Hp as [->%elem_of_singleton|Hp]; [by apply tc_once|].
  eapply tc_r; [|done]. by eapply Hb.
Qed.

(** A complete expansion is the one a read made anywhere it still fits. *)
Lemma fresh_independent fuel depth path n fuel' depth' path' :
  complete (fresh_at fuel depth path n) = true → beneath path' n →
  height (fresh_at fuel depth path n) < fuel' →
  depth' + height (fresh_at fuel depth path n) ≤ MergeDepthLimit →
  fresh_at fuel' depth' path' n = fresh_at fuel depth path n.
Proof.
  revert depth path n fuel' depth' path'.
  induction fuel as [|fuel IH]; intros depth path n fuel' depth' path' Hc Hb Hf Hd; [done|].
  destruct fuel' as [|fuel']; [lia|].
  destruct (decide (is_mapping t n = true)) as [Hmap|Hmap].
  2:{ assert (Ho : ∀ a, n = Some a → Kind (t !!! a) ≠ MappingNode).
      { intros a -> Hk. apply Hmap. simpl. by apply bool_decide_eq_true. }
      by rewrite !fresh_at_other. }
  destruct n as [a|]; [|done]. simpl in Hmap. apply bool_decide_eq_true in Hmap.
  pose proof (complete_acyclic _ _ _ _ Hc) as Hcyc.
  destruct (fresh_complete_step _ _ _ _ Hmap Hc) as (Ha & Hdep & Hsrc).
  assert (Ha' : a ∉ path') by (intros Ha'; apply Hcyc; by eapply Hb).
  revert Hf Hd Hsrc. rewrite !fresh_at_mapping by done. rewrite !bool_decide_false by done.
  destruct (Nat.ltb_spec MergeDepthLimit depth) as [?|_]; [lia|].
  set (e := (expandContent t (with_answers (fresh_at fuel (S depth) ({[a]} ∪ path))) tt (Some a)).2).
  intros Hf Hd Hsrc.
  destruct (Nat.ltb_spec MergeDepthLimit depth') as [?|_]; [lia|].
  apply expandContent_ext. intros m Hm. destruct (Hsrc m Hm) as [Hcm Hhm].
  apply IH; [done|by apply beneath_source|lia|lia].
Qed.

(** A read cut at the bound is not complete. *)
Lemma truncated_incomplete fuel depth path n :
  truncated_at fuel depth path n = true → complete (fresh_at fuel depth path n) = false.
Proof.
  revert depth path n. induction fuel as [|fuel IH]; intros depth path n; [done|].
  destruct n as [a|]; [|done]. cbn [truncated_at].
  destruct (decide (Kind (t !!! a) = MappingNode)) as [Hk|Hk]; [|by rewrite bool_decide_false].
  rewrite bool_decide_true by done. cbn [negb].
  destruct (decide (a ∈ path)) as [Ha|Ha]; [by rewrite bool_decide_true|]. rewrite bool_decide_false by done.
  destruct (complete (fresh_at (S fuel) depth path (Some a))) eqn:Hc; [|done].
  destruct (fresh_complete_step _ _ _ _ Hk Hc) as (_ & Hd & Hsrc).
  destruct (Nat.ltb_spec MergeDepthLimit depth) as [?|_]; [lia|].
  intros (m & Hm & Ht)%existsb_exists. apply list_elem_of_In in Hm. apply Hsrc in Hm as [Hcm _].
  apply IH in Ht. congruence.
Qed.

(** ** The memo *)

(** What a view's memo holds: complete expansions, and the answer of an entry
    point, whose truncation the view knows of. *)
Definition memo_entry (v : View) (a : nat) (e : expansion) : Prop :=
  if complete e then ∃ fuel depth path, e = fresh_at fuel depth path (Some a)
  else e = fresh (Some a) ∧ (truncated (Some a) = true → exhausted v = true).
Definition memo_ok (v : View) : Prop := ∀ a e, v_pairs v !! a = Some e → memo_entry v a e.

Lemma memo_entry_more v v' a e :
  (exhausted v = true → exhausted v' = true) → memo_entry v a e → memo_entry v' a e.
Proof. unfold memo_entry. destruct (complete e); [done|]. naive_solver. Qed.

Lemma memo_ok_more v v' : v_pairs v' = v_pairs v → (exhausted v = true → exhausted v' = true) →
  memo_ok v → memo_ok v'.
Proof. intros Hp Hx Hv a e He. rewrite Hp in He. by eapply memo_entry_more, Hv. Qed.

Lemma memoize_ok v a e : memo_ok v → memo_entry v a e → memo_ok (memoize v a e).
Proof.
  intros Hv He. unfold memoize. destruct (negb _); [done|]. intros b e' Hb. cbn [v_pairs] in Hb.
  apply lookup_insert_Some in Hb as [[<- <-]|[_ Hb]]; eapply memo_entry_more; [done|exact He|done|by apply Hv].
Qed.

Lemma memoize_rest v a e : inFlight (memoize v a e) = inFlight v ∧ v_keys (memoize v a e) = v_keys v ∧
  exhausted (memoize v a e) = exhausted v.
Proof. unfold memoize. by destruct (negb _). Qed.

(** One read: what it answers and what it leaves, for a view [v] read beneath
    [path]. *)
Definition read_from (v0 : View) (path : gset nat) (cut : bool) (v : View) : Prop :=
  memo_ok v ∧ inFlight v = path ∧ v_keys v = v_keys v0 ∧ exhausted v = exhausted v0 || cut.

Lemma isEntryPoint_spec v depth : isEntryPoint v depth = true ↔ depth = 0 ∧ inFlight v = ∅.
Proof. unfold isEntryPoint. by rewrite andb_true_iff, Nat.eqb_eq, bool_decide_eq_true. Qed.

Definition expands fuel depth : Prop := ∀ v n, memo_ok v → beneath (inFlight v) n →
  read_from v (inFlight v) (truncated_at fuel depth (inFlight v) n) (expand_at t fuel depth v n).1 ∧
  (expand_at t fuel depth v n).2 = fresh_at fuel depth (inFlight v) n.

Lemma served v a e fuel depth : expand_fuel depth = S fuel → memo_ok v → beneath (inFlight v) (Some a) →
  v_pairs v !! a = Some e → serves v e depth = true →
  e = fresh_at (S fuel) depth (inFlight v) (Some a) ∧
  exhausted v || truncated_at (S fuel) depth (inFlight v) (Some a) = exhausted v.
Proof.
  intros Hf Hv Hb He Hs. pose proof (Hv _ _ He) as Hm. unfold memo_entry in Hm. unfold serves in Hs.
  destruct (complete e) eqn:Hc; cbn [negb] in Hs.
  - destruct Hm as (f & d & P & Hm). apply Nat.leb_le in Hs.
    assert (Hef : e = fresh_at (S fuel) depth (inFlight v) (Some a)).
    { rewrite Hm. symmetry. rewrite Hm in Hc, Hs. apply fresh_independent; [done..| |done].
      unfold expand_fuel in Hf. lia. }
    split; [done|]. destruct (truncated_at _ _ _ _) eqn:Ht; [|by rewrite orb_false_r].
    apply truncated_incomplete in Ht. congruence.
  - apply isEntryPoint_spec in Hs as [-> Hi]. destruct Hm as [-> Hx]. rewrite Hi, <- Hf.
    split; [done|]. fold (truncated (Some a)). destruct (truncated (Some a)); [by rewrite Hx|by rewrite orb_false_r].
Qed.

(** The fresh part of a read: a cycle, the bound, or the mapping's content. *)
Definition expand_fresh (fuel depth : nat) (v : View) (a : nat) : View * expansion :=
  if bool_decide (a ∈ inFlight v) then (v, cut_expansion)
  else if (MergeDepthLimit <? depth)%nat then (set_exhausted v, cut_expansion)
  else
    let v := set_inFlight v ({[a]} ∪ inFlight v) in
    let '(v, e) := expandContent t (expand_at t fuel (S depth)) v (Some a) in
    let v := set_inFlight v (inFlight v ∖ {[a]}) in
    (if complete e || isEntryPoint v depth then memoize v a e else v, e).

Lemma expand_at_mapping fuel depth v a : Kind (t !!! a) = MappingNode →
  expand_at t (S fuel) depth v (Some a) =
    match v_pairs v !! a with
    | Some e => if serves v e depth then (v, e) else expand_fresh fuel depth v a
    | None => expand_fresh fuel depth v a
    end.
Proof. intros Hk. cbn [expand_at]. by rewrite bool_decide_true. Qed.

(** The reads of a mapping's sources, one after the other. *)
Lemma expands_content fuel depth v a : expands fuel (S depth) → memo_ok v →
  (∀ m, m ∈ merge_sources (Some a) → beneath (inFlight v) m) →
  read_from v (inFlight v)
    (existsb (truncated_at fuel (S depth) (inFlight v)) (merge_sources (Some a)))
    (expandContent t (expand_at t fuel (S depth)) v (Some a)).1 ∧
  (expandContent t (expand_at t fuel (S depth)) v (Some a)).2 =
    (expandContent t (with_answers (fresh_at fuel (S depth) (inFlight v))) tt (Some a)).2.
Proof.
  intros HE Hv Hb.
  pose proof (expandContent_answers (expand_at t fuel (S depth)) (fresh_at fuel (S depth) (inFlight v))
    (λ l v', read_from v (inFlight v) (existsb (truncated_at fuel (S depth) (inFlight v)) l) v')
    (merge_sources (Some a))) as H.
  apply H; [|done|].
  - intros l m v' Hm (Hv' & Hi' & Hk' & Hx'). pose proof (HE v' m Hv') as Hr. rewrite Hi' in Hr.
    destruct Hr as [(H1 & H2 & H3 & H4) He]; [by apply Hb|].
    split; [|done]. split_and!; [done..|by rewrite H3|]. rewrite H4, Hx', existsb_app. simpl.
    by rewrite orb_false_r, orb_assoc.
  - split_and!; [done..|]. by rewrite orb_false_r.
Qed.

Lemma expand_fresh_reads fuel depth v a : expand_fuel depth = S fuel → expands fuel (S depth) →
  Kind (t !!! a) = MappingNode → memo_ok v → beneath (inFlight v) (Some a) →
  read_from v (inFlight v) (truncated_at (S fuel) depth (inFlight v) (Some a)) (expand_fresh fuel depth v a).1 ∧
  (expand_fresh fuel depth v a).2 = fresh_at (S fuel) depth (inFlight v) (Some a).
Proof.
  intros Hf HE Hk Hv Hb. rewrite fresh_at_mapping by done. unfold expand_fresh. cbn [truncated_at].
  rewrite (bool_decide_true (Kind _ = _)) by done. cbn [negb].
  destruct (decide (a ∈ inFlight v)) as [Ha|Ha].
  { rewrite !bool_decide_true by done. split; [|done]. split_and!; [done..|]. by rewrite orb_false_r. }
  rewrite !bool_decide_false by done. destruct (Nat.ltb_spec MergeDepthLimit depth) as [Hd|Hd].
  { split; [|done]. split_and!; [|done..|by rewrite orb_true_r]. by apply (memo_ok_more v). }
  set (w := set_inFlight v ({[a]} ∪ inFlight v)).
  assert (Hw : memo_ok w) by by apply (memo_ok_more v).
  destruct (expands_content fuel depth w a HE Hw) as [(H1 & H2 & H3 & H4) He].
  { intros m Hm. by apply beneath_source. }
  change (inFlight w) with ({[a]} ∪ inFlight v) in *.
  destruct (expandContent t (expand_at t fuel (S depth)) w (Some a)) as [u e]. cbn [fst snd] in *.
  set (u' := set_inFlight u (inFlight u ∖ {[a]})).
  assert (Hi' : inFlight u' = inFlight v) by (unfold u'; cbn; rewrite H2; set_solver).
  assert (Hu' : memo_ok u') by by apply (memo_ok_more u).
  assert (Hx' : exhausted u' = exhausted v || existsb (truncated_at fuel (S depth) ({[a]} ∪ inFlight v)) (merge_sources (Some a)))
    by (unfold u'; cbn; exact H4).
  assert (Hk' : v_keys u' = v_keys v) by (unfold u'; cbn; exact H3).
  split; [|exact He].
  destruct (complete e || isEntryPoint u' depth) eqn:Hkeep; [|done].
  destruct (memoize_rest u' a e) as (R1 & R2 & R3).
  unfold read_from. rewrite R1, R2, R3. split_and!; [|done..].
  apply memoize_ok; [done|]. unfold memo_entry.
  assert (Hef : e = fresh_at (S fuel) depth (inFlight v) (Some a)).
  { rewrite He, fresh_at_mapping by done. rewrite bool_decide_false by done.
    by destruct (Nat.ltb_spec MergeDepthLimit depth); [lia|]. }
  destruct (complete e) eqn:Hc; [by eexists _, _, _|].
  apply isEntryPoint_spec in Hkeep as [-> Hi0]. rewrite Hi' in Hi0.
  split; [by rewrite Hef, Hi0, <- Hf|].
  unfold truncated. rewrite Hf. cbn [truncated_at]. rewrite bool_decide_true by done. cbn [negb].
  rewrite bool_decide_false by (by rewrite <- Hi0).
  destruct (Nat.ltb_spec MergeDepthLimit 0) as [?|_]; [lia|]. rewrite <- Hi0. intros Hx.
  by rewrite Hx', Hx, orb_true_r.
Qed.

Lemma expand_reads fuel depth : expand_fuel depth = fuel → expands fuel depth.
Proof.
  revert depth. induction fuel as [|fuel IH]; intros depth Hf v n Hv Hb.
  { split; [|done]. split_and!; [done..|]. by rewrite orb_false_r. }
  assert (HE : expands fuel (S depth)) by (apply IH; unfold expand_fuel in *; lia).
  destruct (decide (is_mapping t n = true)) as [Hmap|Hmap].
  2:{ assert (Ho : ∀ a, n = Some a → bool_decide (Kind (t !!! a) = MappingNode) = false).
      { intros a ->. by apply not_true_is_false. }
      destruct n as [a|]; [cbn [expand_at fresh_at truncated_at]; rewrite (Ho a) by done; cbn [negb]|];
        (split; [|done]; split_and!; [done..|]; by rewrite orb_false_r). }
  destruct n as [a|]; [|done]. simpl in Hmap. apply bool_decide_eq_true in Hmap.
  rewrite expand_at_mapping by done.
  pose proof (expand_fresh_reads fuel depth v a Hf HE Hmap Hv Hb) as Hfresh.
  destruct (v_pairs v !! a) as [e|] eqn:He; [|done].
  destruct (serves v e depth) eqn:Hs; [|done].
  destruct (served v a e fuel depth Hf Hv Hb He Hs) as [Hef Hx].
  split; [|done]. by split_and!.
Qed.

(** ** Reads of a whole view *)

(** A view between reads: nothing in flight, its memo and its indexes what fresh
    reads give. *)
Definition index_ok (v : View) : Prop := ∀ a index, v_keys v !! a = Some (Some index) →
  index = index_of (pairs (fresh (Some a))) ∧ Kind (t !!! a) = MappingNode ∧
  (truncated (Some a) = true → exhausted v = true).
Definition view_ok (v : View) : Prop := memo_ok v ∧ index_ok v ∧ inFlight v = ∅.

Lemma New_view_ok : view_ok New.
Proof. split_and!; [by intros ? ? ?|by intros ? ? ?|done]. Qed.

Lemma expand_entry v n : view_ok v →
  view_ok (expand t v n 0).1 ∧ v_keys (expand t v n 0).1 = v_keys v ∧
  exhausted (expand t v n 0).1 = exhausted v || truncated n ∧ (expand t v n 0).2 = fresh n.
Proof.
  intros (Hv & Hidx & Hi). unfold expand.
  destruct (expand_reads (expand_fuel 0) 0 eq_refl v n Hv) as [(H1 & H2 & H3 & H4) He].
  { rewrite Hi. by intros ? ? ?%elem_of_empty. }
  rewrite Hi in *. split_and!; [|done..]. split_and!; [done| |done].
  intros a index. rewrite H3. intros Ha. destruct (Hidx a index Ha) as (I1 & I2 & I3).
  split_and!; [done..|]. intros Ht. by rewrite H4, I3.
Qed.

Lemma MappingPairs_entry v n : view_ok v →
  view_ok (MappingPairs t v n).1 ∧ v_keys (MappingPairs t v n).1 = v_keys v ∧
  exhausted (MappingPairs t v n).1 = exhausted v || truncated (Deref t n) ∧
  (MappingPairs t v n).2 = pairs (fresh (Deref t n)).
Proof.
  intros Hv. unfold MappingPairs. destruct (expand_entry v (Deref t n) Hv) as (H1 & H2 & H3 & H4).
  destruct (expand t v (Deref t n) 0) as [u e]. cbn [fst snd] in *. by subst.
Qed.
End Memo.
