(* ===== verification/NodeReads.v ===== *)
(** * The contract of a view

    Any reads of one view, in any order, answer what each would of a view of its
    own, and the view knows whether one was cut short; [Child] answers what the
    pairs hold; [RepeatedKeys] lists what is written twice. Small trees the
    witnesses read come last. *)
From S2P Require Import Prelude GoLib Pointer Budget NodeView NodeMemo.

(** ** One key, read without building the pairs

    [Child] of [lookup.go] walks the mapping and what it merges for one key; what
    it finds is what [MappingPairs] pairs the key with, merges cut short
    included. On the way: a mapping's pairs hold each key once, its own copy or
    the first source's. *)

Section Child.
Context {yml : Yml} (t : Tree).

(** ** What the content loop gathers *)

Definition own_pairs (rps : list (ref * ref)) : list Pair :=
  rps ≫= λ rv, if IsMergeKey t rv.1 then []
               else let '(key, own) := KeyOf t rv.1 in
                    if own : bool then [mkPair key (Deref t rv.2)] else [].
Definition source_pairs (g : ref → expansion) (val : ref) : list Pair :=
  if is_sequence t val then content t val ≫= λ i, asSource (g (Deref t i)) else asSource (g val).
Definition merged_pairs (g : ref → expansion) (rps : list (ref * ref)) : list Pair :=
  rps ≫= λ rv, if IsMergeKey t rv.1 then source_pairs g (Deref t rv.2) else [].

(** A repeat inherited from a source holds no pairs of its own. *)
Definition inherited (r : option repeated) : Prop := ∀ x, r = Some x → rep_merged x = None.
Lemma inherited_or a b : inherited a → inherited b → inherited (cmp_Or a b).
Proof. by destruct a. Qed.
Lemma inherited_source e : inherited (sourceRepeat e).
Proof. unfold sourceRepeat. destruct (rep e); [|done]. by intros ? [= <-]. Qed.

Lemma source_items_pairs g items e : inherited (rep e) →
  let r := (foldl (source_item t (with_answers g)) (tt, e) items).2 in
  pairs r = pairs e ++ (items ≫= λ i, asSource (g (Deref t i))) ∧ inherited (rep r).
Proof.
  revert e. induction items as [|i items IH]; intros e He; [simpl; by rewrite app_nil_r|].
  cbn [foldl]. unfold source_item at 2, with_answers at 2.
  destruct (IH (mkExpansion (pairs e ++ asSource (g (Deref t i))) (cmp_Or (rep e) (sourceRepeat (g (Deref t i))))
    (Nat.max (height e) (height (g (Deref t i)))) (complete e && complete (g (Deref t i))))) as [H1 H2].
  { apply inherited_or; [done|apply inherited_source]. }
  cbv zeta. rewrite H1. cbn [pairs mbind list_bind]. by rewrite app_assoc.
Qed.

Lemma mergeSource_pairs g val : let r := (mergeSource t (with_answers g) tt val).2 in
  pairs r = source_pairs g val ∧ inherited (rep r).
Proof.
  unfold mergeSource, source_pairs. destruct (is_sequence t val); cbn [negb].
  - by apply source_items_pairs.
  - split; [done|]. apply inherited_source.
Qed.

Lemma content_pairs g rps (c : content_state (S := unit)) : inherited (c_rep c) →
  let d := foldl (content_step t (with_answers g)) c rps in
  c_explicit d = c_explicit c ++ own_pairs rps ∧ c_merged d = c_merged c ++ merged_pairs g rps ∧
  inherited (c_rep d).
Proof.
  revert c. induction rps as [|rv rps IH]; intros c Hc; [simpl; by rewrite !app_nil_r|].
  unfold own_pairs, merged_pairs in *. cbn [foldl mbind list_bind].
  assert (Hs : inherited (c_rep (content_step t (with_answers g) c rv)) ∧
    c_explicit (content_step t (with_answers g) c rv) = c_explicit c ++
      (if IsMergeKey t rv.1 then [] else let '(key, own) := KeyOf t rv.1 in if own : bool then [mkPair key (Deref t rv.2)] else []) ∧
    c_merged (content_step t (with_answers g) c rv) = c_merged c ++
      (if IsMergeKey t rv.1 then source_pairs g (Deref t rv.2) else [])).
  { clear IH. destruct rv as [raw val], c as [[] ex me re he co]. unfold content_step. cbn [fst snd c_state c_rep] in *.
    destruct (IsMergeKey t raw).
    - destruct (mergeSource_pairs g (Deref t val)) as [H1 H2].
      destruct (mergeSource t (with_answers g) tt (Deref t val)) as [[] got]. cbn in *. rewrite H1.
      split_and!; [by apply inherited_or|by rewrite app_nil_r|done].
    - destruct (KeyOf t raw) as [key []]; cbn; by rewrite ?app_nil_r. }
  destruct Hs as (H1 & H2 & H3). destruct (IH _ H1) as (I1 & I2 & I3).
  cbv zeta. rewrite I1, I2, H2, H3, <- !app_assoc. by split_and!.
Qed.

(** ** What settling it gives *)

Lemma settle_pairs {S} n (c : content_state (S := S)) : inherited (c_rep c) →
  (∀ k, first_of (pairs (settle n c)) k = settled (last_of (c_explicit c) k) (c_merged c) k) ∧
  (∀ k, first_of (asSource (settle n c)) k = settled (first_of (c_explicit c) k) (c_merged c) k) ∧
  NoDup (keys (pairs (settle n c))).
Proof.
  intros Hr. unfold settle. destruct (firstRepeat (c_explicit c)) as [key|] eqn:Ef.
  - assert (Hn : ¬ NoDup (keys (c_explicit c))) by (rewrite <- firstRepeat_none; by rewrite Ef).
    destruct (flatten_own (c_explicit c) (c_merged c)) as [H1 H2].
    destruct (flatten_source (c_explicit c) (c_merged c) Hn) as (ps & H3 & H4).
    destruct (flatten (c_explicit c) (c_merged c)) as [own src]. cbn [fst snd] in *. subst src.
    unfold asSource. cbn [rep pairs rep_merged]. by split_and!.
  - assert (Hn : NoDup (keys (c_explicit c))) by by apply firstRepeat_none.
    assert (Has : ∀ e, rep e = c_rep c → asSource e = pairs e).
    { intros e He. unfold asSource. rewrite He. destruct (c_rep c) as [x|]; [|done]. by rewrite (Hr x). }
    destruct (is_nil (c_merged c)) eqn:Em.
    + apply is_nil_true in Em. rewrite Has by done. cbn [pairs]. rewrite Em. unfold settled. split_and!; [..|done]; intros k.
      * rewrite first_of_nodup by done. by destruct (first_of (c_explicit c) k).
      * by destruct (first_of (c_explicit c) k).
    + destruct (flatten_own (c_explicit c) (c_merged c)) as [H1 H2].
      destruct (flatten (c_explicit c) (c_merged c)) as [own src]. cbn [fst] in *.
      rewrite Has by done. cbn [pairs]. split_and!; [done| |done]. intros k. by rewrite H1, first_of_nodup.
Qed.

Lemma expandContent_pairs g n : let e := (expandContent t (with_answers g) tt n).2 in
  let rps := raw_pairs (content t n) in
  (∀ k, first_of (pairs e) k = settled (last_of (own_pairs rps) k) (merged_pairs g rps) k) ∧
  (∀ k, first_of (asSource e) k = settled (first_of (own_pairs rps) k) (merged_pairs g rps) k) ∧
  NoDup (keys (pairs e)).
Proof.
  cbv zeta. unfold expandContent. cbn [snd].
  destruct (content_pairs g (raw_pairs (content t n)) (mkContent tt [] [] None 0 true)) as (H1 & H2 & H3); [done|].
  cbn [c_explicit c_merged app] in H1, H2. rewrite <- H1, <- H2. by apply settle_pairs.
Qed.

Lemma fresh_at_nodup fuel depth path n : NoDup (keys (pairs (fresh_at t fuel depth path n))).
Proof.
  destruct fuel; [constructor|]. destruct n as [a|]; [|constructor]. cbn [fresh_at].
  repeat case_match; try constructor. by apply expandContent_pairs.
Qed.

(** ** The walk for one key *)

Definition answer (o : option ref) : ref * bool := match o with Some v => (v, true) | None => (None, false) end.

Lemma first_found_answer {A} (f : A → ref * bool) (ps : A → list Pair) k l :
  (∀ x, x ∈ l → f x = answer (first_of (ps x) k)) → first_found f l = answer (first_of (l ≫= ps) k).
Proof.
  induction l as [|x l IH]; intros H; [done|]. cbn [first_found mbind list_bind]. rewrite first_of_app, (H x) by left.
  destruct (first_of (ps x) k) as [v|]; [done|]. simpl. apply IH. intros y Hy. apply H. by right.
Qed.

Lemma own_copy_last k rps acc :
  let r := foldl (λ acc rv,
    if IsMergeKey t rv.1 then acc
    else let '(k', own) := KeyOf t rv.1 in
         if own && bool_decide (k' = k) && (bool_decide (lastCopy = lastCopy) || negb acc.2)
         then (rv.2, true) else acc) acc rps in
  (Deref t r.1, r.2) = match last_of (own_pairs rps) k with Some w => (w, true) | None => (Deref t acc.1, acc.2) end.
Proof.
  revert acc. induction rps as [|rv rps IH]; intros acc; [done|].
  unfold own_pairs in *. cbn [foldl mbind list_bind]. cbv zeta. rewrite IH.
  destruct (IsMergeKey t rv.1); [done|]. destruct (KeyOf t rv.1) as [k' []]; [|done]. cbn [app].
  rewrite last_of_cons. destruct (last_of _ k); [done|]. cbn [Key PVal]. rewrite (bool_decide_true (lastCopy = lastCopy)) by done.
  rewrite andb_true_l, orb_true_l, andb_true_r. destruct (decide (k' = k)) as [Hk|Hk]; [by rewrite bool_decide_true|by rewrite bool_decide_false].
Qed.

Lemma own_copy_first k rps acc :
  let r := foldl (λ acc rv,
    if IsMergeKey t rv.1 then acc
    else let '(k', own) := KeyOf t rv.1 in
         if own && bool_decide (k' = k) && (bool_decide (firstCopy = lastCopy) || negb acc.2)
         then (rv.2, true) else acc) acc rps in
  (Deref t r.1, r.2) = if acc.2 then (Deref t acc.1, true)
                      else match first_of (own_pairs rps) k with Some w => (w, true) | None => (Deref t acc.1, acc.2) end.
Proof.
  revert acc. induction rps as [|rv rps IH]; intros acc; [by destruct acc as [? []]|].
  unfold own_pairs in *. cbn [foldl mbind list_bind]. cbv zeta. rewrite IH.
  destruct (IsMergeKey t rv.1); [done|]. destruct (KeyOf t rv.1) as [k' []]; [|done]. cbn [app first_of Key PVal].
  rewrite (bool_decide_false (firstCopy = lastCopy)) by done. rewrite andb_true_l, orb_false_l.
  destruct (decide (k' = k)) as [Hk|Hk]; [rewrite bool_decide_true by done|rewrite bool_decide_false by done];
    destruct acc as [v []]; done.
Qed.

(** The copy of a key among a mapping's own pairs. *)
Definition own_at (rule : copyRule) (ps : list Pair) (k : gostring) : option ref :=
  match rule with lastCopy => last_of ps k | firstCopy => first_of ps k end.
Lemma own_copy_found rule k rps : let r := own_copy t rule k rps in
  (Deref t r.1, r.2) = answer (own_at rule (own_pairs rps) k).
Proof. destruct rule; [apply own_copy_first|apply own_copy_last]. Qed.

(** A mapping as it is read, or as another merges it. *)
Definition read_as (rule : copyRule) (e : expansion) : list Pair :=
  match rule with lastCopy => pairs e | firstCopy => asSource e end.

Lemma no_merges rps g : existsb (λ rv, IsMergeKey t rv.1) rps = false → merged_pairs g rps = [].
Proof.
  unfold merged_pairs. induction rps as [|rv rps IH]; [done|]. cbn [existsb mbind list_bind].
  intros [H1 H2]%orb_false_iff. by rewrite H1, IH.
Qed.

Lemma childOfSource_answer f g val k :
  (∀ m, f m = answer (first_of (asSource (g m)) k)) →
  childOfSource t f val = answer (first_of (source_pairs g val) k).
Proof.
  intros H. unfold childOfSource, source_pairs. destruct (is_sequence t val); cbn [negb]; [|done].
  by apply (first_found_answer _ (λ i, asSource (g (Deref t i)))).
Qed.

Lemma childIn_answer fuel n k rule path :
  childIn t fuel n k rule path =
    answer (first_of (read_as rule (fresh_at t fuel (length path) (list_to_set path) n)) k).
Proof.
  revert n rule path. induction fuel as [|fuel IH]; intros n rule path; [by destruct rule|].
  destruct n as [a|]; [|by destruct rule]. cbn [childIn fresh_at].
  destruct (bool_decide (Kind (t !!! a) = MappingNode)) eqn:Hk; cbn [negb orb]; [|by destruct rule].
  destruct (MergeDepthLimit <? length path) eqn:Hd.
  { assert (E : ∀ b : bool, (if b then cut_expansion else cut_expansion) = cut_expansion) by (by intros []).
    rewrite E. by destruct rule. }
  cbn [orb]. destruct (decide (a ∈ path)) as [Ha|Ha].
  { rewrite !bool_decide_true by (done || by apply elem_of_list_to_set). by destruct rule. }
  rewrite !bool_decide_false by (done || by rewrite elem_of_list_to_set).
  set (g := fresh_at t fuel (S (length path)) ({[a]} ∪ list_to_set path)).
  destruct (expandContent_pairs g (Some a)) as (H1 & H2 & _). cbn [content] in *.
  set (rps := raw_pairs (Content (t !!! a))) in *.
  assert (Hread : first_of (read_as rule (expandContent t (with_answers g) tt (Some a)).2) k =
    settled (own_at rule (own_pairs rps) k) (merged_pairs g rps) k) by (destruct rule; [apply H2|apply H1]).
  rewrite Hread. clear Hread H1 H2. pose proof (own_copy_found rule k rps) as Ho. cbv zeta in Ho.
  destruct (own_copy t rule k rps) as [v found]. cbn [fst snd] in Ho.
  destruct (own_at rule (own_pairs rps) k) as [w|]; cbn [answer settled] in *.
  - injection Ho as -> ->. done.
  - injection Ho as Hv ->. rewrite Hv. cbn [orb]. destruct (existsb _ rps) eqn:Em; cbn [negb].
    + unfold merged_pairs. apply (first_found_answer _ (λ rv, if IsMergeKey t rv.1 then source_pairs g (Deref t rv.2) else [])).
      intros rv _. destruct (IsMergeKey t rv.1); cbn [negb]; [|done]. apply childOfSource_answer. intros m.
      rewrite IH. cbn [read_as]. rewrite length_app, Nat.add_1_r. unfold g. do 4 f_equal. set_solver.
    + by rewrite no_merges.
Qed.

(** What [Child] finds is what the pairs hold. *)
Lemma Child_scan n k : Child t n k = scan_pairs (pairs (fresh t (Deref t (DocumentRoot t n)))) k.
Proof.
  unfold Child. rewrite childIn_answer. cbn [read_as length]. fold (fresh t (Deref t (DocumentRoot t n))).
  rewrite scan_first. by destruct (first_of _ k).
Qed.

(** The value a mapping's own pairs give a key, else what it merges. *)
Lemma fresh_pairs a : Kind (t !!! a) = MappingNode → ∃ g, ∀ k,
  first_of (pairs (fresh t (Some a))) k =
    settled (last_of (own_pairs (raw_pairs (Content (t !!! a)))) k)
      (merged_pairs g (raw_pairs (Content (t !!! a)))) k.
Proof.
  intros Hk. unfold fresh. change (expand_fuel 0) with (S (S MergeDepthLimit)).
  rewrite fresh_at_mapping by done. rewrite bool_decide_false by set_solver.
  change (MergeDepthLimit <? 0) with false. cbv iota.
  eexists. intros k. apply (proj1 (expandContent_pairs _ (Some a)) k).
Qed.
End Child.

Section Reads.
Context {yml : Yml} (t : Tree).

(** ** One read of a view *)

Inductive Read : Type :=
  | ReadExpanded (n : ref)
  | ReadPairs (n : ref)
  | ReadRepeat (n : ref)
  | ReadChild (n : ref) (token : gostring)
  | ReadPath (root : ref) (pointer : gostring).

Inductive Answer : Type :=
  | IsExpanded (b : bool)
  | PairsAre (ps : list Pair)
  | RepeatIs (r : option (gostring * ref))
  | ChildIs (n : ref)
  | PathIs (path : list ref) (whole : bool).

Definition read (v : View) (r : Read) : View * Answer :=
  match r with
  | ReadExpanded n => let '(v, b) := Expanded t v n in (v, IsExpanded b)
  | ReadPairs n => let '(v, ps) := MappingPairs t v n in (v, PairsAre ps)
  | ReadRepeat n => let '(v, r) := Repeat t v n in (v, RepeatIs r)
  | ReadChild n token => let '(v, c) := ChildByToken t v n token in (v, ChildIs c)
  | ReadPath root pointer => let '(v, p) := DocumentPath t v root pointer in (v, PathIs p.1 p.2)
  end.
Definition read_all (v : View) (rs : list Read) : View := foldl (λ v r, (read v r).1) v rs.

(** ** What a read answers, the view aside *)

Lemma Deref_other a : Kind (t !!! a) ≠ AliasNode → Deref t (Some a) = Some a.
Proof. intros Hk. unfold Deref. destruct maxAliasChain; cbn [Deref_loop]; by rewrite bool_decide_false. Qed.

Definition child_of (n : ref) (token : gostring) : ref :=
  match n with
  | None => None
  | Some a =>
    match Kind (t !!! a) with
    | MappingNode => scan_pairs (pairs (fresh t (Some a))) token
    | _ => (ChildByToken t New n token).2
    end
  end.
Definition child_cut (n : ref) : bool :=
  match n with Some a => bool_decide (Kind (t !!! a) = MappingNode) && truncated t (Some a) | None => false end.

Fixpoint path_of (cur : ref) (path : list ref) (segments : Z) (tokens : list gostring)
    : bool * (list ref * bool) :=
  match tokens with
  | [] => (false, (path, true))
  | token :: tokens =>
    let segments := (segments + 1)%Z in
    if (MaxPointerSegments <? segments)%Z then (false, (path, false))
    else match Deref t (child_of cur token) with
         | None => (child_cut cur, (path, false))
         | Some c =>
           let '(cut, r) := path_of (Some c) (path ++ [Some c]) segments tokens in (child_cut cur || cut, r)
         end
  end.

(** What a read of [v] leaves and answers: [cut] tells whether it met the merge
    bound. *)
Definition reads {A} (v : View) (cut : bool) (answer : A) (r : View * A) : Prop :=
  view_ok t r.1 ∧ exhausted r.1 = exhausted v || cut ∧ r.2 = answer.

Lemma mappingChild_reads v a token : view_ok t v → Kind (t !!! a) = MappingNode →
  reads v (truncated t (Some a)) (scan_pairs (pairs (fresh t (Some a))) token) (mappingChild t v a token).
Proof.
  intros Hv Hk. assert (Hd : Deref t (Some a) = Some a) by (apply Deref_other; by rewrite Hk).
  assert (Hidx : at_key (index_of (pairs (fresh t (Some a)))) token = scan_pairs (pairs (fresh t (Some a))) token)
    by (apply index_scan, fresh_at_nodup).
  assert (Hslow : reads v (truncated t (Some a)) (scan_pairs (pairs (fresh t (Some a))) token)
    (let '(v, ps) := MappingPairs t v (Some a) in
     let '(v, index) := keyIndex v a ps in
     (v, match index with Some index => at_key index token | None => scan_pairs ps token end))).
  { destruct (MappingPairs_entry t v (Some a) Hv) as ((Hm & Hi & Hf) & _ & H3 & H4). rewrite Hd in H3, H4.
    destruct (MappingPairs t v (Some a)) as [u ps]. cbn [fst snd] in *. subst ps. unfold keyIndex.
    destruct (_ <? minIndexedPairs); [by split_and!|]. destruct (v_pairs u !! a); [|by split_and!].
    destruct (v_keys u !! a) as [o|]; unfold reads; cbn [fst snd]; (split_and!; [|done|done || exact Hidx]).
    - split_and!; [by apply (memo_ok_more t u)| |done].
      intros b index. cbn [v_keys set_keys]. intros [[<- [= <-]]|[_ Hb]]%lookup_insert_Some.
      + split_and!; [done..|]. intros Ht. cbn. by rewrite H3, Ht, orb_true_r.
      + by apply Hi in Hb.
    - split_and!; [by apply (memo_ok_more t u)| |done].
      intros b index. cbn [v_keys set_keys]. intros [[<- ?]|[_ Hb]]%lookup_insert_Some; [done|].
      by apply Hi in Hb. }
  unfold mappingChild. destruct (v_keys v !! a) as [[index|]|] eqn:Ek; [|exact Hslow|exact Hslow].
  destruct Hv as (Hm & Hi & Hf). destruct (Hi a index Ek) as (-> & _ & Ht).
  split_and!; [by split_and!| |exact Hidx]. cbn [fst].
  destruct (truncated t (Some a)); [by rewrite Ht|by rewrite orb_false_r].
Qed.

Lemma ChildByToken_reads v n token : view_ok t v →
  reads v (child_cut n) (child_of n token) (ChildByToken t v n token).
Proof.
  intros Hv. destruct n as [a|]; [|by (split_and!; [..|by rewrite orb_false_r|])].
  unfold child_of, child_cut, ChildByToken. destruct (Kind (t !!! a)) eqn:Hk.
  4:{ rewrite bool_decide_true by done. by apply mappingChild_reads. }
  all: rewrite bool_decide_false by done; cbn [andb].
  3:{ destruct (Atoi token) as [idx|]; [|by (split_and!; [..|by rewrite orb_false_r|])].
      destruct (_ || _); by (split_and!; [..|by rewrite orb_false_r|]). }
  all: by (split_and!; [..|by rewrite orb_false_r|]).
Qed.

Lemma DocumentPath_reads v cur path segments tokens : view_ok t v →
  reads v (path_of cur path segments tokens).1 (path_of cur path segments tokens).2
    (DocumentPath_from t v cur path segments tokens).
Proof.
  revert v cur path segments. induction tokens as [|token tokens IH]; intros v cur path segments Hv.
  { split_and!; [done|by rewrite orb_false_r|done]. }
  cbn [path_of DocumentPath_from]. cbv zeta.
  destruct (MaxPointerSegments <? segments + 1)%Z; [split_and!; [done|by rewrite orb_false_r|done]|].
  destruct (ChildByToken_reads v cur token Hv) as (H1 & H2 & H3).
  destruct (ChildByToken t v cur token) as [u child]. cbn [fst snd] in *. subst child.
  destruct (Deref t (child_of cur token)) as [c|]; [|by split_and!].
  destruct (IH u (Some c) (path ++ [Some c]) (segments + 1)%Z H1) as (I1 & I2 & I3).
  destruct (path_of _ _ _ tokens) as [cut r]. cbn [fst snd] in *.
  split_and!; [done| |done]. by rewrite I2, H2, orb_assoc.
Qed.

Lemma reads_map {A B} (k : A → B) v cut answer r : reads v cut answer r →
  reads v cut (k answer) (let '(u, x) := r in (u, k x)).
Proof. destruct r as [u x]. intros (H1 & H2 & H3). split_and!; [done..|]. cbn in *. by subst. Qed.

Lemma expand_reads_entry v n : view_ok t v → reads v (truncated t n) (fresh t n) (expand t v n 0).
Proof. intros Hv. destruct (expand_entry t v n Hv) as (? & _ & ? & ?). by split_and!. Qed.

(** *** Merges too deep *)

(** One mapping merges another in: a merge key of its names it, or a sequence that
    lists it. *)
Inductive merges (a b : nat) : Prop :=
  | merges_one raw val : (raw, val) ∈ raw_pairs (Content (t !!! a)) → IsMergeKey t raw = true →
      is_sequence t (Deref t val) = false → Deref t val = Some b → merges a b
  | merges_listed raw val item : (raw, val) ∈ raw_pairs (Content (t !!! a)) → IsMergeKey t raw = true →
      is_sequence t (Deref t val) = true → item ∈ content t (Deref t val) → Deref t item = Some b → merges a b.

(** A chain of mappings, each merging the next in. *)
Fixpoint merge_chain (l : list nat) : Prop :=
  match l with
  | a :: (b :: _) as l' => merges a b ∧ merge_chain l'
  | _ => True
  end.
(** Mappings merged one in the other, none met twice, more of them beneath the first
    than the bound. *)
Definition merged_too_deep (a : nat) : Prop := ∃ l,
  merge_chain (a :: l) ∧ NoDup (a :: l) ∧ Forall (λ b, Kind (t !!! b) = MappingNode) (a :: l) ∧ length l = S MergeDepthLimit.

Lemma merge_sources_merges a b : Some b ∈ merge_sources t (Some a) ↔ merges a b.
Proof.
  unfold merge_sources. rewrite list_elem_of_bind. cbn [content]. split.
  - intros ([raw val] & Hb & Hin). unfold sources_of in Hb. cbn [fst snd] in Hb. destruct (IsMergeKey t raw) eqn:Hk; [|by apply not_elem_of_nil in Hb].
    destruct (is_sequence t (Deref t val)) eqn:Es; cbn [negb] in Hb.
    + apply list_elem_of_fmap in Hb as (item & Hd & Hi). by eapply merges_listed.
    + apply list_elem_of_singleton in Hb. by eapply merges_one.
  - intros [raw val Hin Hk Es Hd|raw val item Hin Hk Es Hi Hd]; exists (raw, val); (split; [|done]); unfold sources_of; cbn [fst snd]; rewrite Hk, Es; cbn [negb].
    + by apply list_elem_of_singleton.
    + apply list_elem_of_fmap. by exists item.
Qed.

(** The expansion stops at the bound exactly where such a chain is. *)
Lemma truncated_at_chain fuel depth (path : gset nat) a : fuel + depth = S (S MergeDepthLimit) →
  truncated_at t fuel depth path (Some a) = true ↔ ∃ l,
    merge_chain (a :: l) ∧ NoDup (a :: l) ∧ Forall (λ b, Kind (t !!! b) = MappingNode ∧ b ∉ path) (a :: l) ∧ S (length l) = fuel.
Proof.
  revert depth path a. induction fuel as [|fuel IH]; intros depth path a Hf; cbn [truncated_at].
  { split; [done|]. intros (l & _ & _ & _ & ?). done. }
  destruct (decide (Kind (t !!! a) = MappingNode)) as [Hk|Hk]; [rewrite bool_decide_true by done|rewrite bool_decide_false by done]; cbn [negb].
  2:{ split; [done|]. intros (l & _ & _ & [[? _] _]%Forall_cons & _). done. }
  destruct (decide (a ∈ path)) as [Ha|Ha]; [rewrite bool_decide_true by done|rewrite bool_decide_false by done].
  { split; [done|]. intros (l & _ & _ & [[_ ?] _]%Forall_cons & _). done. }
  destruct (Nat.ltb_spec MergeDepthLimit depth) as [Hd|Hd].
  { assert (fuel = 0) as -> by lia. split; [|done]. intros _. exists []. split_and!; [done|apply NoDup_singleton|by apply Forall_singleton|done]. }
  rewrite existsb_exists. split.
  - intros (n & Hin & Ht). apply list_elem_of_In in Hin. destruct n as [b|]; [|by destruct fuel].
    apply IH in Ht as (l & Hc & Hn & Hl & Hlen); [|lia]. apply merge_sources_merges in Hin. exists (b :: l). split_and!; [done| | |cbn; lia].
    + apply NoDup_cons. split; [|done]. intros Hal. rewrite Forall_forall in Hl. destruct (Hl a Hal). set_solver.
    + apply Forall_cons. split; [done|]. eapply Forall_impl; [exact Hl|]. intros x [? ?]. split; [done|set_solver].
  - intros (l & Hc & Hn & Hl & Hlen). destruct l as [|b l]; [cbn in Hlen; lia|]. destruct Hc as [Hab Hc]. exists (Some b).
    split; [by apply list_elem_of_In, merge_sources_merges|]. apply NoDup_cons in Hn as [Han Hn]. apply Forall_cons in Hl as [_ Hl].
    apply IH; [lia|]. exists l. split_and!; [done|done| |cbn in Hlen; lia]. apply Forall_forall. intros x Hx. rewrite Forall_forall in Hl.
    destruct (Hl x Hx). split; [done|]. set_solver.
Qed.

Lemma truncated_deep a : truncated t (Some a) = true ↔ merged_too_deep a.
Proof.
  unfold truncated. rewrite truncated_at_chain by (unfold expand_fuel; lia). unfold merged_too_deep.
  f_equiv. intros l. change (expand_fuel 0) with (S (S MergeDepthLimit)). split; intros (? & ? & Hf & ?); (split_and!; [done|done| |lia]); (eapply Forall_impl; [exact Hf|]).
  - by intros x [? _].
  - intros x ?. split; [done|]. apply not_elem_of_empty.
Qed.
Lemma truncated_some n : truncated t n = true ↔ ∃ a, n = Some a ∧ merged_too_deep a.
Proof.
  destruct n as [a|]; [|split; [done|by intros (? & ? & _)]]. rewrite truncated_deep. split; [by exists a|]. by intros (? & [= <-] & ?).
Qed.
Lemma child_cut_some n : child_cut n = true ↔ ∃ a, n = Some a ∧ merged_too_deep a.
Proof.
  rewrite <- truncated_some. destruct n as [a|]; [|done]. cbn [child_cut]. rewrite andb_true_iff, bool_decide_eq_true.
  split; [by intros []|]. intros Ht. split; [|done]. apply truncated_deep in Ht as (l & _ & _ & [? _]%Forall_cons & _). done.
Qed.

(** The nodes of a path a token of the pointer was looked up in. *)
Definition looked_up (path : list ref) (tokens : list gostring) (n : ref) : Prop :=
  n ∈ take (min (length tokens) (Z.to_nat MaxPointerSegments)) path.

Lemma path_of_prefix cur path segments tokens : ∃ more, (path_of cur path segments tokens).2.1 = path ++ more.
Proof.
  revert cur path segments. induction tokens as [|token tokens IH]; intros cur path segments; cbn [path_of]; [exists []; by rewrite app_nil_r|].
  cbv zeta. destruct (_ <? _)%Z; [exists []; by rewrite app_nil_r|]. destruct (Deref _ _) as [c|]; [|exists []; by rewrite app_nil_r].
  destruct (IH (Some c) (path ++ [Some c]) (segments + 1)%Z) as [more E]. destruct (path_of _ _ _ _) as [cut r]. exists (Some c :: more).
  cbn [fst snd] in *. by rewrite E, <- app_assoc.
Qed.

(** A path is cut short where one of the nodes it looked a token up in is. *)
Lemma path_of_cut cur before segments tokens : (0 <= segments)%Z →
  (path_of cur (before ++ [cur]) segments tokens).1 = true ↔
  ∃ n, n ∈ take (min (length tokens) (Z.to_nat (MaxPointerSegments - segments))) (drop (length before) (path_of cur (before ++ [cur]) segments tokens).2.1) ∧
    child_cut n = true.
Proof.
  revert cur before segments. induction tokens as [|token tokens IH]; intros cur before segments Hs; cbn [path_of].
  { split; [done|]. intros (n & Hn & _). by apply not_elem_of_nil in Hn. }
  cbv zeta. destruct (Z.ltb_spec MaxPointerSegments (segments + 1)) as [Hm|Hm]; cbn [fst snd].
  { split; [done|]. intros (n & Hn & _). replace (Z.to_nat (MaxPointerSegments - segments)) with 0 in Hn by lia.
    rewrite Nat.min_0_r in Hn. by apply not_elem_of_nil in Hn. }
  assert (Hmin : min (length (token :: tokens)) (Z.to_nat (MaxPointerSegments - segments)) =
    S (min (length tokens) (Z.to_nat (MaxPointerSegments - (segments + 1))))) by (cbn [length]; lia).
  rewrite Hmin. destruct (Deref t (child_of cur token)) as [c|]; cbn [fst snd].
  - specialize (IH (Some c) (before ++ [cur]) (segments + 1)%Z ltac:(lia)). destruct (path_of_prefix (Some c) ((before ++ [cur]) ++ [Some c]) (segments + 1)%Z tokens) as [more E].
    destruct (path_of (Some c) ((before ++ [cur]) ++ [Some c]) (segments + 1)%Z tokens) as [cut r]. cbn [fst snd] in *.
    rewrite E in IH |- *. rewrite <- !app_assoc in IH |- *. cbn [app] in IH |- *.
    rewrite drop_app_length. rewrite length_app in IH. cbn [length] in IH.
    replace (before ++ cur :: Some c :: more) with ((before ++ [cur]) ++ Some c :: more) in IH by by rewrite <- app_assoc.
    replace (length before + 1) with (length (before ++ [cur])) in IH by by rewrite length_app. rewrite drop_app_length in IH.
    cbn [take]. rewrite orb_true_iff, IH. split.
    + intros [H|(n & Hn & H)]; [exists cur; split; [by left|done]|exists n; split; [by right|done]].
    + intros (n & [->|Hn]%elem_of_cons & H); [by left|right; by exists n].
  - rewrite drop_app_length. cbn [take]. rewrite take_nil. split; [intros H; exists cur; split; [by apply list_elem_of_singleton|done]|].
    by intros (n & ->%list_elem_of_singleton & H).
Qed.

(** What cuts a read short: the mapping it expands merges too deep, or one of those
    a pointer leads through does. *)
Definition cut_by (r : Read) : Prop :=
  match r with
  | ReadExpanded n | ReadPairs n | ReadRepeat n => ∃ a, Deref t n = Some a ∧ merged_too_deep a
  | ReadChild n _ => ∃ a, n = Some a ∧ merged_too_deep a
  | ReadPath root pointer => ∃ path whole a, (read New r).2 = PathIs path whole ∧ looked_up path (Tokens pointer) (Some a) ∧ merged_too_deep a
  end.

Lemma path_cut root pointer cur : Deref t root = Some cur →
  (path_of (Some cur) [Some cur] 0 (Tokens pointer)).1 = true ↔ cut_by (ReadPath root pointer).
Proof.
  intros Hd. assert (E : (read New (ReadPath root pointer)).2 = PathIs (path_of (Some cur) [Some cur] 0 (Tokens pointer)).2.1 (path_of (Some cur) [Some cur] 0 (Tokens pointer)).2.2).
  { cbn [read]. unfold DocumentPath. rewrite Hd. destruct (DocumentPath_reads New (Some cur) [Some cur] 0%Z (Tokens pointer) (New_view_ok t)) as (_ & _ & H).
    destruct (DocumentPath_from _ _ _ _ _ _) as [v p]. cbn [fst snd] in *. by rewrite H. }
  pose proof (path_of_cut (Some cur) [] 0%Z (Tokens pointer) (Z.le_refl 0)) as H. cbn [app length] in H. rewrite drop_0, Z.sub_0_r in H.
  rewrite H. cbn [cut_by]. unfold looked_up. rewrite E. split.
  - intros (n & Hn & (a & -> & Ht)%child_cut_some). eexists _, _, a. by split_and!.
  - intros (path & whole & a & [= <- <-] & Hn & Ht). exists (Some a). split; [done|]. apply child_cut_some. by exists a.
Qed.

(** Each read, by what a fresh view gives. *)
Lemma read_reads r : ∃ cut answer, (cut = true ↔ cut_by r) ∧ ∀ v, view_ok t v → reads v cut answer (read v r).
Proof.
  destruct r as [n|n|n|n token|root pointer]; cbn [read].
  1-3: exists (truncated t (Deref t n)); eexists; (split; [apply truncated_some|]); intros v Hv; apply reads_map, reads_map; by apply expand_reads_entry.
  - exists (child_cut n), (ChildIs (child_of n token)). split; [apply child_cut_some|]. intros v Hv. by apply reads_map, ChildByToken_reads.
  - destruct (Deref t root) as [cur|] eqn:Hd.
    + pose proof (path_cut root pointer cur Hd) as Hc. unfold DocumentPath. rewrite Hd. eexists _, (PathIs _.1 _.2). split; [exact Hc|]. intros v Hv.
      apply (reads_map (λ p, PathIs p.1 p.2)). by apply DocumentPath_reads.
    + unfold DocumentPath. rewrite Hd. exists false, (PathIs [] false). split.
      * split; [done|]. intros (path & whole & a & E & Hl & _). cbn [read] in E. unfold DocumentPath in E. rewrite Hd in E. injection E as <- <-.
        unfold looked_up in Hl. rewrite take_nil in Hl. by apply not_elem_of_nil in Hl.
      * intros v Hv. split_and!; [done|by rewrite orb_false_r|done].
Qed.

Lemma read_one v r : view_ok t v → view_ok t (read v r).1 ∧ (read v r).2 = (read New r).2 ∧
  exhausted (read v r).1 = exhausted v || exhausted (read New r).1.
Proof.
  intros Hv. destruct (read_reads r) as (cut & ans & _ & H).
  destruct (H v Hv) as (A1 & A2 & A3), (H New (New_view_ok t)) as (B1 & B2 & B3).
  split_and!; [done|by rewrite A3, B3|]. rewrite A2, B2. done.
Qed.

Lemma read_cut r : exhausted (read New r).1 = true ↔ cut_by r.
Proof.
  destruct (read_reads r) as (cut & ans & Hc & H). destruct (H New (New_view_ok t)) as (_ & -> & _). exact Hc.
Qed.

Lemma read_all_ok v rs : view_ok t v → view_ok t (read_all v rs) ∧
  exhausted (read_all v rs) = exhausted v || existsb (λ r, exhausted (read New r).1) rs.
Proof.
  unfold read_all. revert v. induction rs as [|r rs IH]; intros v Hv; [simpl; by rewrite orb_false_r|].
  cbn [foldl existsb]. destruct (read_one v r Hv) as (H1 & _ & H3). destruct (IH _ H1) as [I1 I2].
  split; [done|]. by rewrite I2, H3, orb_assoc.
Qed.
End Reads.

(** ** Keys written more than once *)

Section Repeats.
Context {yml : Yml} (t : Tree).

(** The keys a mapping's raw pairs write, the merge keys left out. *)
Definition own_keys (rps : list (ref * ref)) : list gostring :=
  rps ≫= λ rv, if (KeyOf t rv.1).2 then [(KeyOf t rv.1).1] else [].
Definition key_copies (l : list gostring) (k : gostring) : nat := length (filter (.= k) l).

Lemma key_copies_cons x l k : key_copies (x :: l) k = (if decide (x = k) then 1 else 0) + key_copies l k.
Proof. unfold key_copies. rewrite filter_cons. by case_decide. Qed.

Lemma repeated_loop (rps : list (ref * ref)) (copies : gmap gostring nat) (out : list gostring) :
  (∀ k, k ∈ out ↔ 2 ≤ default 0 (copies !! k)) → NoDup out →
  let r := foldl (λ acc rv,
          let '(copies, out) := acc in
          let '(key, own) := KeyOf t rv.1 in
          if negb own then acc
          else let copies := bump copies key in
               (copies, if bool_decide (default 0 (copies !! key) = 2) then out ++ [key] else out))
        (copies, out) rps in
  (∀ k, k ∈ r.2 ↔ 2 ≤ default 0 (copies !! k) + key_copies (own_keys rps) k) ∧ NoDup r.2.
Proof.
  revert copies out. induction rps as [|rv rps IH]; intros copies out Ho Hn.
  { simpl. split; [|done]. intros k. rewrite Ho, Nat.add_0_r. done. }
  unfold own_keys in *. cbn [foldl mbind list_bind]. destruct (KeyOf t rv.1) as [key []]; cbn [fst snd negb app].
  2:{ by apply IH. }
  destruct (IH (bump copies key) (if bool_decide (default 0 (bump copies key !! key) = 2) then out ++ [key] else out)) as [H1 H2].
  - intros k. rewrite !bump_lookup, decide_True by done. case_bool_decide as Hc.
    + rewrite elem_of_app, list_elem_of_singleton, Ho. case_decide as Hk; [subst; split; [lia|by right]|].
      split; [intros [?|?]; [lia|congruence]|left; lia].
    + rewrite Ho. case_decide as Hk; [subst; lia|lia].
  - rewrite bump_lookup, decide_True by done. case_bool_decide as Hc; [|done].
    apply NoDup_snoc. split; [done|]. rewrite Ho. lia.
  - split; [|done]. intros k. rewrite H1, bump_lookup, key_copies_cons. case_decide; lia.
Qed.

Lemma RepeatedKeys_iff n k : k ∈ RepeatedKeys t n ↔
  is_mapping t (Deref t n) = true ∧ 2 ≤ key_copies (own_keys (raw_pairs (content t (Deref t n)))) k.
Proof.
  unfold RepeatedKeys. destruct (is_mapping t (Deref t n)); cbn [negb]; [|split; [by intros ?%elem_of_nil|by intros []]].
  destruct (repeated_loop (raw_pairs (content t (Deref t n))) ∅ []) as [H1 _].
  { intros j. rewrite lookup_empty. simpl. split; [by intros ?%elem_of_nil|lia]. }
  { constructor. }
  rewrite H1, lookup_empty. simpl. naive_solver.
Qed.

Lemma RepeatedKeys_nodup n : NoDup (RepeatedKeys t n).
Proof.
  unfold RepeatedKeys. destruct (negb _); [constructor|].
  apply repeated_loop; [|constructor]. intros j. rewrite lookup_empty. simpl. split; [by intros ?%elem_of_nil|lia].
Qed.

Lemma Pairs_fresh n : Pairs t n = pairs (fresh t (Deref t (DocumentRoot t n))).
Proof. unfold Pairs. by destruct (MappingPairs_entry t New (DocumentRoot t n) (New_view_ok t)) as (_ & _ & _ & H). Qed.
End Repeats.

(** ** The contract *)

(** C14: One view read any number of times answers each read as a view of its own
    would, and is exhausted exactly when one of those reads needed a mapping whose
    merges go deeper than the bound: one it expanded, or one a pointer looked a
    token up in, with a chain of more mappings merged one in the other, none
    twice, than [MergeDepthLimit] lets be read. *)
Theorem View_pure `{Yml} (t : Tree) (rs : list Read) (r : Read) :
  (read t (read_all t New rs) r).2 = (read t New r).2 ∧
  (exhausted (read_all t New rs) = true ↔ ∃ r, r ∈ rs ∧ cut_by t r).
Proof.
  destruct (read_all_ok t New rs (New_view_ok t)) as [Hv Hx].
  split; [by apply read_one|]. rewrite Hx. cbn [exhausted New orb]. rewrite existsb_exists.
  split; intros (q & Hin & Hq); exists q; (split; [by apply list_elem_of_In|]); by apply read_cut.
Qed.

(** C15: The walk for one key finds what the pairs pair it with, through every merge
    and alias and cut short where they are; the pairs hold each key once, and a
    key twice in the mapping itself is one [RepeatedKeys] lists. *)
Theorem Child_exact `{Yml} (t : Tree) (n : ref) :
  (∀ k, Child t n k = scan_pairs (Pairs t n) k) ∧ NoDup (keys (Pairs t n)) ∧
  NoDup (RepeatedKeys t n) ∧
  (∀ k, k ∈ RepeatedKeys t n ↔ is_mapping t (Deref t n) = true ∧
     2 ≤ key_copies (own_keys t (raw_pairs (content t (Deref t n)))) k).
Proof.
  split_and!; [|rewrite Pairs_fresh; apply fresh_at_nodup|apply RepeatedKeys_nodup|intros k; apply RepeatedKeys_iff].
  intros k. by rewrite Pairs_fresh, Child_scan.
Qed.

(** ** A small tree *)

Module Sample.
(** The library's test as a parse's trees answer it. *)
#[export] Instance tagged : Yml :=
  {| yml_IsMergeKey n := match n with Some n => bool_decide (Tag n = go "!!merge") | None => false end |}.

Definition scalar (v : gostring) : Node := mkNode ScalarNode (go "!!str") v [] None [] 1 1.
Definition merge_key : Node := mkNode ScalarNode (go "!!merge") (go "<<") [] None [] 1 1.
Definition alias (n : nat) : Node := mkNode AliasNode [] [] [] (Some n) [] 1 1.
Definition mapping (c : list nat) : Node := mkNode MappingNode (go "!!map") [] [] None (Some <$> c) 1 1.
Definition sequence (c : list nat) : Node := mkNode SequenceNode (go "!!seq") [] [] None (Some <$> c) 1 1.

(** [{a: x, <<: [*1, *2], b: y, a: z}], where 1 is [{b: p, c: p}], 2 is
    [{c: q, d: q, <<: *1}]; 3 merges itself. *)
Definition tree : Tree := list_to_map
  [(0, mapping [10; 20; 16; 4; 11; 21; 10; 22]);
   (1, mapping [11; 23; 12; 23]); (2, mapping [12; 24; 13; 24; 16; 5]);
   (3, mapping [16; 7; 10; 20]);
   (4, sequence [5; 6]); (5, alias 1); (6, alias 2); (7, alias 3);
   (10, scalar (go "a")); (11, scalar (go "b")); (12, scalar (go "c")); (13, scalar (go "d"));
   (16, merge_key);
   (20, scalar (go "x")); (21, scalar (go "y")); (22, scalar (go "z")); (23, scalar (go "p")); (24, scalar (go "q"))].

Example pairs_ex : Pairs tree (Some 0) =
  [mkPair (go "c") (Some 23); mkPair (go "d") (Some 24); mkPair (go "b") (Some 21); mkPair (go "a") (Some 22)].
Proof. vm_compute. reflexivity. Qed.
Example child_ex : Child tree (Some 0) (go "d") = Some 24 ∧ RepeatedKeys tree (Some 0) = [go "a"].
Proof. vm_compute. done. Qed.
Example cycle_ex : (Expanded tree New (Some 3)).2 = false ∧ Pairs tree (Some 3) = [mkPair (go "a") (Some 20)].
Proof. vm_compute. done. Qed.
Example reads_ex :
  (read tree (read_all tree New [ReadPairs (Some 1); ReadExpanded (Some 3); ReadChild (Some 0) (go "c")]) (ReadPath (Some 0) (go "/d"))).2
  = PathIs [Some 0; Some 24] true.
Proof. vm_compute. reflexivity. Qed.
End Sample.
