(* ===== verification/NodeWalk.v ===== *)
(** * A bounded walk over a tree

    [walk.go] of [src/compilers/openapi/internal/nodeview]: one iterative walk
    with a stack of its own, which every reader of a whole tree runs. The visitor
    is the caller's, a function of its own state; the context is whether each ask
    of it finds it done. The walk is shown to end, and to be the recursive
    traversal its comments describe. *)
From S2P Require Import Prelude GoLib Pointer Budget NodeReads NodeView.

Inductive Step : Type := Descend | Prune | Stop.
Inductive Aliases : Type := AliasLeaf | AliasTarget.
#[export] Instance Aliases_eq_dec : EqDecision Aliases.
Proof. solve_decision. Defined.

(** [AskEvery] nodes are visited between two asks of the context. *)
Definition AskEvery : Z := 256.

Section Walks.
Context {S : Type}.

Record Walk : Type := mkWalk {
  Nodes : Z;
  Depth : Z;
  w_Aliases : Aliases;
  Visit : option (S → nat → Z → S * Step);
  Leave : option (S → nat → Z → S) }.

Record Outcome : Type := mkOutcome { Visited : Z; Cut : bool; Stopped : bool }.

Record walkFrame : Type := mkFrame { f_node : ref; f_depth : Z; f_leave : bool }.

(** What a walk has reached: the visitor's state, the outcome so far, and how
    often the context was asked. *)
Record walking : Type := mkWalking { w_user : S; w_out : Outcome; w_asks : nat }.

Definition set_user (s : walking) (u : S) : walking := mkWalking u (w_out s) (w_asks s).
Definition set_cut (s : walking) : walking :=
  mkWalking (w_user s) (mkOutcome (Visited (w_out s)) true (Stopped (w_out s))) (w_asks s).
Definition set_stopped (s : walking) : walking :=
  mkWalking (w_user s) (mkOutcome (Visited (w_out s)) (Cut (w_out s)) true) (w_asks s).
Definition set_visited (s : walking) : walking :=
  mkWalking (w_user s) (mkOutcome (Visited (w_out s) + 1) (Cut (w_out s)) (Stopped (w_out s))) (w_asks s).

Section Tree.
Context (t : Tree) (w : Walk) (ctx : nat → bool).

Definition step (u : S) (n : nat) (depth : Z) : S * Step :=
  match Visit w with None => (u, Descend) | Some visit => visit u n depth end.

Definition node (n : ref) : ref :=
  if negb (bool_decide (w_Aliases w = AliasTarget)) then n
  else match Deref t n with Some target => Some target | None => n end.

(** The frames pushed for a node, the next one first. *)
Definition push (n : nat) (depth : Z) : list walkFrame :=
  ((λ c, mkFrame c (depth + 1) false) <$> Content (t !!! n)) ++
  (if Leave w then [mkFrame (Some n) depth true] else []).

(** Whether the walk asks its context here, and what it hears. *)
Definition asked (s : walking) : walking * bool :=
  if (Visited (w_out s) mod AskEvery =? 0)%Z
  then (mkWalking (w_user s) (w_out s) (1 + w_asks s), ctx (w_asks s)) else (s, false).

(** One turn of the loop of [Run]: the frames it pushes, or [None] where the walk
    ends. *)
Definition frame_step (s : walking) (f : walkFrame) : walking * option (list walkFrame) :=
  let '(s, refused) := asked s in
  if refused then (set_cut s, None)
  else if f_leave f then
    match f_node f, Leave w with
    | Some n, Some leave => (set_user s (leave (w_user s) n (f_depth f)), Some [])
    | _, _ => (s, Some [])
    end
  else
    match node (f_node f) with
    | None => (s, Some [])
    | Some n =>
      if (Nodes w <=? Visited (w_out s))%Z then (set_cut s, None)
      else if (0 <? Depth w)%Z && (Depth w <? f_depth f)%Z then (set_cut s, Some [])
      else
        let s := set_visited s in
        let '(u, next) := step (w_user s) n (f_depth f) in
        let s := set_user s u in
        match next with
        | Stop => (set_stopped s, None)
        | Prune => (s, Some [])
        | Descend => (s, Some (push n (f_depth f)))
        end
    end.

Fixpoint run (fuel : nat) (s : walking) (stack : list walkFrame) : walking :=
  match stack, fuel with
  | [], _ | _, O => s
  | f :: rest, Datatypes.S fuel =>
    match frame_step s f with
    | (s, None) => s
    | (s, Some fs) => run fuel s (fs ++ rest)
    end
  end.

(** The most children a node of the tree has. *)
Definition width : nat := max_list ((λ p, length (Content p.2)) <$> map_to_list t).

(** How many more nodes may be visited, and how many turns that leaves: each node
    visited pushes its children and its leaving. *)
Definition left (s : walking) : nat := Z.to_nat (Nodes w - Visited (w_out s)).
Definition turns (s : walking) (stack : list walkFrame) : nat := length stack + left s * (width + 2).

Definition start (u : S) : walking := mkWalking u (mkOutcome 0 false false) 0.

Definition Run (u : S) (root : ref) : S * Outcome :=
  let stack := [mkFrame root 0 false] in
  let s := run (turns (start u) stack) (start u) stack in (w_user s, w_out s).

(** ** The loop, run to its end *)

(** Turns of the loop up to the one that leaves no frame, or ends the walk. *)
Inductive ends : walking → list walkFrame → walking → Prop :=
  | ends_empty s : ends s [] s
  | ends_walk s s' f rest : frame_step s f = (s', None) → ends s (f :: rest) s'
  | ends_turn s s' s'' f fs rest : frame_step s f = (s', Some fs) → ends s' (fs ++ rest) s'' → ends s (f :: rest) s''.

(** ** The traversal it makes *)

(** Nodes one after the other, in order, until one ends the walk. *)
Fixpoint in_order (visit : walking → ref → walking * bool) (s : walking) (ns : list ref) : walking * bool :=
  match ns with
  | [] => (s, false)
  | n :: ns => let '(s, ended) := visit s n in if ended : bool then (s, true) else in_order visit s ns
  end.

(** The leaving of a node, where the walk has one: the context is asked first. *)
Definition leaving (s : walking) (n : nat) (depth : Z) : walking * bool :=
  match Leave w with
  | None => (s, false)
  | Some leave =>
    let '(s, refused) := asked s in
    if refused : bool then (set_cut s, true) else (set_user s (leave (w_user s) n depth), false)
  end.

(** The tree under a node, by recursion: the node is visited, then the tree under
    each node of its content from the first to the last, then it is left. [fuel]
    bounds how deep, and is no less than the nodes left to visit. *)
Fixpoint traversal (fuel : nat) (depth : Z) (s : walking) (n : ref) : walking * bool :=
  match fuel with
  | O => (s, true)
  | Datatypes.S fuel =>
    let '(s, refused) := asked s in
    if refused : bool then (set_cut s, true)
    else
      match node n with
      | None => (s, false)
      | Some n =>
        if (Nodes w <=? Visited (w_out s))%Z then (set_cut s, true)
        else if (0 <? Depth w)%Z && (Depth w <? depth)%Z then (set_cut s, false)
        else
          let s := set_visited s in
          let '(u, next) := step (w_user s) n depth in
          let s := set_user s u in
          match next with
          | Stop => (set_stopped s, true)
          | Prune => (s, false)
          | Descend =>
            let '(s, ended) := in_order (traversal fuel (depth + 1)) s (Content (t !!! n)) in
            if ended : bool then (s, true) else leaving s n depth
          end
      end
  end.

(** ** One turn *)

Lemma width_bound a : length (Content (t !!! a)) ≤ width.
Proof using Type.
  unfold width. rewrite lookup_total_alt. destruct (t !! a) as [n|] eqn:E; [|apply Nat.le_0_l].
  change (default inhabitant (Some n)) with n. apply elem_of_map_to_list in E.
  apply max_list_elem_of_le, (list_elem_of_fmap_2' _ _ (a, n)); done.
Qed.

Lemma push_length n depth : length (push n depth) ≤ width + 1.
Proof using Type.
  unfold push. rewrite length_app, length_fmap. pose proof (width_bound n). case_match; simpl; lia.
Qed.

Lemma asked_out s : w_out (asked s).1 = w_out s ∧ w_user (asked s).1 = w_user s.
Proof using Type. unfold asked. by case_match. Qed.

(** A turn pushes nothing, or visits a node and pushes what it holds. *)
Lemma frame_step_left s f s' fs : frame_step s f = (s', Some fs) →
  (fs = [] ∧ left s' ≤ left s) ∨ (left s' < left s ∧ length fs ≤ width + 1).
Proof using Type.
  unfold frame_step. destruct (asked_out s) as [Ho Hu]. destruct (asked s) as [s1 refused]. cbn [fst] in *.
  assert (Hl : left s1 = left s) by (unfold left; by rewrite Ho).
  destruct refused; [done|]. destruct (f_leave f).
  { destruct (f_node f), (Leave w); intros [= <- <-]; left; (split; [done|]); rewrite <- Hl; done. }
  destruct (node (f_node f)) as [n|]; [|intros [= <- <-]; left; by rewrite Hl].
  destruct (Z.leb_spec (Nodes w) (Visited (w_out s1))) as [?|Hv]; [done|].
  destruct (_ && _); [intros [= <- <-]; left; by rewrite <- Hl|].
  destruct (step _ n (f_depth f)) as [u []]; [| |done]; intros [= <- <-].
  - right. split; [|apply push_length]. rewrite <- Hl. unfold left. cbn. lia.
  - left. split; [done|]. rewrite <- Hl. unfold left. cbn. lia.
Qed.

Lemma turns_less s f rest s' fs : frame_step s f = (s', Some fs) →
  turns s' (fs ++ rest) < turns s (f :: rest).
Proof using Type.
  intros Hs. unfold turns. rewrite length_app. cbn [length].
  destruct (frame_step_left _ _ _ _ Hs) as [[-> Hl]|[Hl Hf]]; simpl; nia.
Qed.

(** ** The loop ends *)

Lemma run_enough fuel fuel' s stack : turns s stack ≤ fuel → turns s stack ≤ fuel' →
  run fuel s stack = run fuel' s stack.
Proof using Type.
  revert fuel' s stack. induction fuel as [|fuel IH]; intros fuel' s stack Hf Hf'.
  { destruct stack; [by destruct fuel'|]. unfold turns in Hf. simpl in Hf. lia. }
  destruct stack as [|f rest]; [by destruct fuel'|].
  destruct fuel' as [|fuel']; [unfold turns in Hf'; simpl in Hf'; lia|].
  cbn [run]. destruct (frame_step s f) as [s' [fs|]] eqn:E; [|done].
  pose proof (turns_less _ _ rest _ _ E). apply IH; lia.
Qed.

Definition finish (s : walking) (stack : list walkFrame) : walking := run (turns s stack) s stack.

Lemma finish_nil s : finish s [] = s.
Proof using Type. unfold finish. by destruct (turns s []). Qed.
Lemma finish_cons s f rest : finish s (f :: rest) =
  match frame_step s f with (s', None) => s' | (s', Some fs) => finish s' (fs ++ rest) end.
Proof using Type.
  unfold finish. destruct (turns s (f :: rest)) as [|fuel] eqn:Et; [unfold turns in Et; simpl in Et; lia|].
  cbn [run]. destruct (frame_step s f) as [s' [fs|]] eqn:E; [|done].
  pose proof (turns_less _ _ rest _ _ E). apply run_enough; lia.
Qed.

Lemma finish_ends s stack : ends s stack (finish s stack).
Proof using Type.
  remember (turns s stack) as fuel eqn:Hf. revert s stack Hf. induction fuel as [fuel IH] using lt_wf_ind. intros s [|f rest] ->.
  { rewrite finish_nil. constructor. }
  rewrite finish_cons. destruct (frame_step s f) as [s' [fs|]] eqn:E; [|by constructor].
  eapply ends_turn; [exact E|]. by eapply IH; [by apply turns_less|].
Qed.

(** ** The loop is the traversal *)

(** What [finish] makes of a stack whose first frames come to [r]. *)
Definition then_finish (r : walking * bool) (rest : list walkFrame) : walking :=
  if r.2 then r.1 else finish r.1 rest.

Lemma left_asked s : left (asked s).1 = left s.
Proof using Type. unfold left. by rewrite (proj1 (asked_out s)). Qed.

Lemma finish_leaving s n depth rest :
  finish s ((if Leave w then [mkFrame (Some n) depth true] else []) ++ rest) = then_finish (leaving s n depth) rest ∧
  left (leaving s n depth).1 ≤ left s.
Proof using Type.
  unfold leaving, then_finish. destruct (Leave w) as [leave|] eqn:El; [|done]. cbn [app].
  rewrite finish_cons. unfold frame_step. cbn [f_leave f_node f_depth]. rewrite El. pose proof (left_asked s) as Hl.
  destruct (asked s) as [s1 refused]. cbn [fst] in Hl. rewrite <- Hl. destruct refused; [done|]. done.
Qed.

Lemma finish_in_order visit depth ns s rest fuel :
  (∀ s n rest, left s < fuel → finish s (mkFrame n depth false :: rest) = then_finish (visit s n) rest ∧ left (visit s n).1 ≤ left s) →
  left s < fuel →
  finish s (((λ c, mkFrame c depth false) <$> ns) ++ rest) = then_finish (in_order visit s ns) rest ∧
  left (in_order visit s ns).1 ≤ left s.
Proof using Type.
  intros Hv. revert s. induction ns as [|n ns IH]; intros s Hl; [done|]. cbn [fmap list_fmap app in_order].
  destruct (Hv s n (((λ c, mkFrame c depth false) <$> ns) ++ rest) Hl) as [H1 H2].
  change (foldr _ _ _) with ((λ c, mkFrame c depth false) <$> ns). rewrite H1. unfold then_finish at 1.
  destruct (visit s n) as [s' []]; [done|]. cbn [fst snd] in *. destruct (IH s') as [H3 H4]; [lia|]. split; [done|]. lia.
Qed.

Lemma finish_traversal fuel depth s n rest : left s < fuel →
  finish s (mkFrame n depth false :: rest) = then_finish (traversal fuel depth s n) rest ∧
  left (traversal fuel depth s n).1 ≤ left s.
Proof using Type.
  revert depth s n rest. induction fuel as [|fuel IH]; intros depth s n rest Hl; [lia|].
  rewrite finish_cons. unfold frame_step. cbn [f_leave f_node f_depth traversal]. pose proof (left_asked s) as Ha.
  destruct (asked s) as [s1 refused]. cbn [fst] in Ha. rewrite <- Ha in *. clear Ha s. rename s1 into s.
  destruct refused; [done|]. destruct (node n) as [a|]; [|done].
  destruct (Z.leb_spec (Nodes w) (Visited (w_out s))) as [?|Hv]; [done|].
  destruct (_ && _); [done|]. assert (Hlt : left (set_visited s) < left s) by (unfold left; cbn; lia).
  destruct (step _ a depth) as [u next]. set (s2 := set_user (set_visited s) u).
  assert (Hlt2 : left s2 < left s) by exact Hlt. clearbody s2. destruct next.
  - unfold push. rewrite <- app_assoc.
    destruct (finish_in_order (traversal fuel (depth + 1)) (depth + 1) (Content (t !!! a)) s2
      ((if Leave w then [mkFrame (Some a) depth true] else []) ++ rest) fuel) as [H1 H2]; [intros; by apply IH|lia|].
    rewrite H1. unfold then_finish at 1. destruct (in_order _ s2 _) as [s3 []]; cbn [fst snd] in *; [split; [done|lia]|].
    destruct (finish_leaving s3 a depth rest) as [H3 H4]. split; [exact H3|]. lia.
  - split; [done|]. cbn [fst]. lia.
  - split; [done|]. cbn [fst]. unfold left in *. cbn in *. lia.
Qed.

(** [Run] by the traversal; its fuel is one more than the nodes it may visit. *)
Lemma Run_traversed fuel u root : Z.to_nat (Nodes w) < fuel →
  let s := (traversal fuel 0 (start u) root).1 in Run u root = (w_user s, w_out s).
Proof using Type.
  intros Hf. cbv zeta. unfold Run. fold (finish (start u) [mkFrame root 0 false]).
  destruct (finish_traversal fuel 0 (start u) root []) as [H _]; [unfold left; cbn; by rewrite Z.sub_0_r|].
  rewrite H. unfold then_finish. destruct (traversal _ _ _ _) as [s' []]; cbn [fst snd]; [done|]. by rewrite finish_nil.
Qed.

(** ** Its bounds *)

Lemma frame_step_visited s f : (Visited (w_out s) <= Z.max 0 (Nodes w))%Z →
  (Visited (w_out (frame_step s f).1) <= Z.max 0 (Nodes w))%Z.
Proof using Type.
  intros Hs. unfold frame_step. destruct (asked_out s) as [Ho _]. destruct (asked s) as [s1 refused]. cbn [fst] in Ho.
  rewrite <- Ho in Hs. destruct refused; [done|]. destruct (f_leave f); [by repeat case_match|].
  destruct (node (f_node f)); [|done]. destruct (Z.leb_spec (Nodes w) (Visited (w_out s1))); [done|].
  destruct (_ && _); [done|]. destruct (step _ _ _) as [u []]; cbn; lia.
Qed.

Lemma run_visited fuel s stack : (Visited (w_out s) <= Z.max 0 (Nodes w))%Z →
  (Visited (w_out (run fuel s stack)) <= Z.max 0 (Nodes w))%Z.
Proof using Type.
  revert s stack. induction fuel as [|fuel IH]; intros s [|f rest] Hs; [done..|]. cbn [run].
  pose proof (frame_step_visited s f Hs) as H. destruct (frame_step s f) as [s' [fs|]]; [by apply IH|done].
Qed.

(** C17: A walk ends: finitely many turns of its loop, over any graph of nodes and
    whatever the visitor and the context answer, leave no frame or end it. It
    visits no more nodes than it may, and is the recursive traversal: a node, then
    the tree under each node of its content from the first to the last, then its
    leaving, whatever fuel above the nodes it may visit the recursion is given. *)
Theorem Run_traversal u root :
  (∃ s, ends (start u) [mkFrame root 0 false] s ∧ Run u root = (w_user s, w_out s)) ∧
  (∀ fuel, Z.to_nat (Nodes w) < fuel →
     let s := (traversal fuel 0 (start u) root).1 in Run u root = (w_user s, w_out s)) ∧
  (Visited (Run u root).2 <= Z.max 0 (Nodes w))%Z.
Proof using Type.
  split_and!; [|intros fuel Hf; by apply Run_traversed|].
  - eexists. split; [apply finish_ends|done].
  - apply run_visited. cbn. lia.
Qed.
End Tree.
End Walks.
Arguments Walk : clear implicits.
Arguments walking : clear implicits.

(** ** A sample *)

(** A walk of [{a: [*1, *2], b: y}] that reads anchors at their aliases, and one
    whose bound stops it. *)
Definition listing (nodes : Z) : Walk (list nat) :=
  mkWalk nodes 0 AliasTarget (Some (λ u n _, (u ++ [n], Descend))) None.
Lemma Run_traversal_witness :
  let t := NodeReads.Sample.tree in let ctx := λ _ : nat, false in
  Run t (listing 5) ctx [] (Some 4) = ([4; 1; 11; 23; 12], mkOutcome 5 true false) ∧
  (traversal t (listing 5) ctx 6 0 (start []) (Some 4)).1 = mkWalking [4; 1; 11; 23; 12] (mkOutcome 5 true false) 1.
Proof.
  cbv zeta. assert (E : (traversal NodeReads.Sample.tree (listing 5) (λ _, false) 6 0 (start []) (Some 4)).1 =
    mkWalking [4; 1; 11; 23; 12] (mkOutcome 5 true false) 1) by (vm_compute; reflexivity).
  split; [|exact E]. destruct (Run_traversal NodeReads.Sample.tree (listing 5) (λ _, false) [] (Some 4)) as (_ & H & _).
  rewrite (H 6); [|vm_compute; lia]. rewrite E. reflexivity.
Defined.
