(* ===== verification/PostOrder.v ===== *)
(** * Post-order on an explicit stack

    The discipline the document scans share ([aliasWeigher] of
    [src/compilers/openapi/internal/scan], [Measure] of [.../sourceindex]): a
    stack of frames, each a node and whether what it depends on was pushed; a node
    settled is not pushed again, and one in flight is not entered again. The rules
    say what one turn may do; each loop is shown elsewhere to keep them. A loop
    that keeps them ends, and on a graph without a cycle a node is settled after
    everything it depends on. *)
From stdpp Require Import relations.
From S2P Require Import Prelude.

Section PostOrder.
Context (kids : nat → list nat).

Abbreviation frame := (nat * bool)%type.

(** One turn, over the stack, the nodes in flight and those settled. *)
Inductive po_step : list frame → gset nat → gset nat → list frame → gset nat → gset nat → Prop :=
  | po_pop a b st F D : a ∈ D → po_step ((a, b) :: st) F D st F D
  | po_expand a st F D cs X :
      a ∉ D →
      (∀ c, c ∈ cs → c ∈ kids a ∧ c ∉ {[a]} ∪ F ∧ c ∉ D ∪ X) →
      (∀ c, c ∈ kids a → c ∈ cs ∨ c ∈ D ∪ X ∨ c ∈ {[a]} ∪ F) →
      length cs ≤ length (kids a) → X ⊆ {[a]} ∪ F →
      po_step ((a, false) :: st) F D (((., false) <$> cs) ++ (a, true) :: st) ({[a]} ∪ F) (D ∪ X)
  | po_settle a st F D : a ∉ D →
      po_step ((a, true) :: st) F D st (F ∖ {[a]}) ({[a]} ∪ D).

Definition kid (a b : nat) : Prop := b ∈ kids a.

(** What holds between turns. *)
Record po_inv (root : nat) (st : list frame) (F D : gset nat) : Prop := {
  po_below : ∀ l1 a l2, st = l1 ++ (a, false) :: l2 → a ∈ D ∨ (a, true) ∉ l2;
  po_flight : ∀ a, a ∈ F → a ∈ D ∨ (a, true) ∈ st;
  po_open : ∀ a, (a, true) ∈ st → a ∈ F ∨ a ∈ D;
  po_kids : ∀ l1 a l2, st = l1 ++ (a, true) :: l2 → ∀ c, c ∈ kids a → c ∈ D ∨ (∃ b, (c, b) ∈ l1) ∨ c ∈ F;
  po_above : ∀ l1 x b l2 y, st = l1 ++ (x, b) :: l2 → (y, true) ∈ l2 → tc kid y x;
  po_reach : ∀ a b, (a, b) ∈ st → rtc kid root a;
  po_done : ∀ a, a ∈ D → rtc kid root a;
  po_root : root ∈ D ∨ ∃ b, (root, b) ∈ st }.

Lemma po_start root : po_inv root [(root, false)] ∅ ∅.
Proof.
  split; try (by intros ? ?%elem_of_empty).
  - intros [|? [|]] a l2 [= <- <-]; right; apply not_elem_of_nil.
  - intros a Ha%list_elem_of_singleton. done.
  - intros [|? [|]] a l2; intros [=].
  - intros [|? [|]] x b l2 y; intros [= <- <- <-] Hy; by apply elem_of_nil in Hy.
  - intros a b [= -> ->]%list_elem_of_singleton. apply rtc_refl.
  - right. exists false. by left.
Qed.

(** A frame of a stack that lost its top is a frame of the stack. *)
Lemma po_tail root f st F D F' D' : po_inv root (f :: st) F D →
  D ⊆ D' → F' ⊆ F → (∀ a, a ∈ F → a ∈ D' ∨ a ∈ F') →
  f.1 ∈ D' → (∀ a, a ∈ D' → a ∈ D ∨ a = f.1) → po_inv root st F' D'.
Proof.
  intros [I1 I2 I3 I4 I5 I6 I7 I8] HD HF HFD Hf HD'. destruct f as [x b]. cbn [fst] in *. split.
  - intros l1 a l2 ->. destruct (I1 ((x, b) :: l1) a l2 eq_refl); [left; by apply HD|by right].
  - intros a Ha. destruct (I2 a (HF _ Ha)) as [?|Hin]; [left; by apply HD|].
    apply elem_of_cons in Hin as [[= -> <-]|?]; [by left|by right].
  - intros a Ha. destruct (I3 a) as [Hin|?]; [by right| |right; by apply HD].
    destruct (HFD a Hin); [by right|by left].
  - intros l1 a l2 -> c Hc. destruct (I4 ((x, b) :: l1) a l2 eq_refl c Hc) as [?|[(b' & Hin)|Hin]].
    + left. by apply HD.
    + apply elem_of_cons in Hin as [[= -> ->]|?]; [by left|right; left; by exists b'].
    + destruct (HFD c Hin); [by left|by right; right].
  - intros l1 y b' l2 z -> Hz. by apply (I5 ((x, b) :: l1) y b' l2 z).
  - intros a b' Ha. apply (I6 a b'). by right.
  - intros a [Ha | ->]%HD'; [by apply I7|]. apply (I6 x b). by left.
  - destruct I8 as [?|(b' & Hin)]; [left; by apply HD|].
    apply elem_of_cons in Hin as [[= -> ->]|?]; [by left|right; by exists b'].
Qed.

(** Where a stack was extended above a frame, a frame of it is one of those
    pushed, that frame, or one below. *)
Lemma split_pushed (cs : list nat) (f : frame) st l1 g l2 :
  ((., false) <$> cs) ++ f :: st = l1 ++ g :: l2 →
  (∃ c k, g = (c, false) ∧ c ∈ cs ∧ l2 = ((., false) <$> k) ++ f :: st ∧ (∀ d, d ∈ k → d ∈ cs)) ∨
  (l1 = ((., false) <$> cs) ∧ g = f ∧ l2 = st) ∨
  (∃ l, st = l ++ g :: l2 ∧ l1 = ((., false) <$> cs) ++ f :: l).
Proof.
  revert l1. induction cs as [|c cs IH]; intros l1; cbn [fmap list_fmap app].
  - destruct l1 as [|h l1]; intros [= -> E]; [right; left; by subst|]. right; right. exists l1. by subst.
  - destruct l1 as [|h l1]; cbn [app]; intros E.
    + injection E as <- <-. left. exists c, cs. split_and!; [done|by left|done|by right].
    + injection E as <- E. destruct (IH l1 E) as [(d & k & -> & Hd & -> & Hk)|[(-> & -> & ->)|(l & -> & ->)]].
      * left. exists d, k. split_and!; [done|by right|done|]. intros e He. right. by apply Hk.
      * right; left. done.
      * right; right. by exists l.
Qed.

Lemma pushed_elem (cs : list nat) (f : frame) st (a : nat) (b : bool) :
  (a, b) ∈ ((., false) <$> cs) ++ f :: st → (b = false ∧ a ∈ cs) ∨ (a, b) = f ∨ (a, b) ∈ st.
Proof.
  rewrite elem_of_app, elem_of_cons. intros [(c & [= -> ->] & Hc)%list_elem_of_fmap|[?|?]]; [by left|by right; left|by right; right].
Qed.

Lemma po_step_inv root st F D st' F' D' :
  po_step st F D st' F' D' → po_inv root st F D → po_inv root st' F' D'.
Proof.
  intros Hstep I. destruct Hstep as [a b st F D Ha|a st F D cs X Ha Hcs Hkids _ HX|a st F D Ha].
  - apply (po_tail root (a, b) st F D F D); [done..| |done|by left]. by right.
  - destruct I as [I1 I2 I3 I4 I5 I6 I7 I8].
    assert (Htop : rtc kid root a) by (apply (I6 a false); by left).
    assert (HF : ∀ x, x ∈ F → x ∈ D ∨ (x, true) ∈ st).
    { intros x Hx. destruct (I2 x Hx) as [?|Hin]; [by left|]. apply elem_of_cons in Hin as [?|?]; [done|by right]. }
    assert (Hst : ∀ x b, (x, b) ∈ st → (x, b) ∈ (a, false) :: st) by (intros; by right).
    split.
    + intros l1 x l2 E. destruct (split_pushed _ _ _ _ _ _ E) as [(c & k & [= ->] & Hc & -> & Hk)|[(-> & ? & ->)|(l & -> & ->)]].
      * right. intros Hin. destruct (Hcs c Hc) as (_ & H1 & H2).
        apply pushed_elem in Hin as [[??]|[[= ->]|Hin]]; [done|set_solver|].
        destruct (I3 c (Hst _ _ Hin)); set_solver.
      * done.
      * destruct (I1 ((a, false) :: l) x l2 eq_refl) as [?|?]; [left; set_solver|by right].
    + intros x Hx. apply elem_of_union in Hx as [->%elem_of_singleton|Hx].
      { right. apply elem_of_app. right. by left. }
      destruct (HF x Hx) as [?|?]; [left; set_solver|]. right. apply elem_of_app. right. by right.
    + intros x Hin. apply pushed_elem in Hin as [[??]|[[= ->]|Hin]]; [done|left; set_solver|].
      destruct (I3 x (Hst _ _ Hin)); set_solver.
    + intros l1 x l2 E c Hc. destruct (split_pushed _ _ _ _ _ _ E) as [(d & k & ? & _)|[(-> & [= ->] & ->)|(l & -> & ->)]]; [done| |].
      * destruct (Hkids c Hc) as [Hin|[?|?]]; [|by left|by right; right].
        right; left. exists false. apply list_elem_of_fmap. by exists c.
      * destruct (I4 ((a, false) :: l) x l2 eq_refl c Hc) as [?|[(b & Hin)|?]]; [left; set_solver| |right; right; set_solver].
        apply elem_of_cons in Hin as [[= -> ->]|Hin].
        -- right; right. set_solver.
        -- right; left. exists b. apply elem_of_app. right. by right.
    + intros l1 x b l2 y E Hy. destruct (split_pushed _ _ _ _ _ _ E) as [(c & k & [= -> ->] & Hc & -> & Hk)|[(-> & [= -> ->] & ->)|(l & -> & ->)]].
      * assert (Hac : kid a c) by by destruct (Hcs c Hc) as [? _].
        apply pushed_elem in Hy as [[??]|[[= ->]|Hin]]; [done|by apply tc_once|].
        eapply tc_r; [|done]. by apply (I5 [] a false st y).
      * by apply (I5 [] a false st y).
      * by apply (I5 ((a, false) :: l) x b l2 y).
    + intros x b Hin. apply pushed_elem in Hin as [[-> Hc]|[[= -> ->]|Hin]]; [|done|by apply (I6 x b), Hst].
      eapply rtc_r; [exact Htop|]. by destruct (Hcs x Hc) as [? _].
    + intros x [Hx|Hx]%elem_of_union; [by apply I7|]. apply HX in Hx.
      apply elem_of_union in Hx as [->%elem_of_singleton|Hx]; [done|].
      destruct (HF x Hx) as [?|Hin]; [by apply I7|]. by apply (I6 x true), Hst.
    + destruct I8 as [?|(b & Hin)]; [left; set_solver|]. right.
      apply elem_of_cons in Hin as [[= -> ->]|Hin]; [exists true|exists b]; apply elem_of_app; right; [by left|by right].
  - apply (po_tail root (a, true) st F D); cbn [fst]; [done|set_solver..| |set_solver|set_solver].
    intros x Hx. destruct (decide (x = a)); set_solver.
Qed.

(** ** It ends *)

(** What each turn lessens: the nodes not entered yet by what they would push,
    and the frames. *)
Definition frame_cost (f : frame) : nat := if f.2 : bool then 1 else 3.
Definition stack_cost (st : list frame) : nat := sum_list (frame_cost <$> st).
Definition po_cost (universe : list nat) (st : list frame) (F D : gset nat) : nat :=
  stack_cost st + unseen_sum (λ a, 3 * length (kids a)) universe (F ∪ D).

Lemma unseen_sum_mono (weight : nat → nat) universe (seen seen' : gset nat) :
  seen ⊆ seen' → unseen_sum weight universe seen' ≤ unseen_sum weight universe seen.
Proof.
  intros Hs. unfold unseen_sum. induction universe as [|x l IH]; [done|]. rewrite !filter_cons.
  destruct (decide (x ∉ seen')); [rewrite decide_True by set_solver; cbn; lia|].
  destruct (decide (x ∉ seen)); cbn; lia.
Qed.

Lemma stack_cost_pushed (cs : list nat) st : stack_cost (((., false) <$> cs) ++ st) = 3 * length cs + stack_cost st.
Proof. unfold stack_cost. induction cs as [|c cs IH]; [done|]. cbn in *. lia. Qed.

Lemma po_cost_less universe root st F D st' F' D' : NoDup universe →
  (∀ a, kids a ≠ [] → a ∈ universe) → po_inv root st F D →
  po_step st F D st' F' D' → po_cost universe st' F' D' < po_cost universe st F D.
Proof.
  intros Hnd Hu I Hstep. unfold po_cost.
  destruct Hstep as [a b st F D Ha|a st F D cs X Ha Hcs _ Hlen HX|a st F D Ha].
  - unfold stack_cost. cbn. destruct b; cbn; lia.
  - rewrite stack_cost_pushed. unfold stack_cost. cbn [fmap list_fmap sum_list frame_cost snd].
    assert (HaF : a ∉ F).
    { intros HF. destruct (po_flight _ _ _ _ I a HF) as [?|Hin]; [done|].
      apply elem_of_cons in Hin as [?|Hin]; [done|].
      destruct (po_below _ _ _ _ I [] a st eq_refl); done. }
    pose proof (unseen_sum_mono (λ a, 3 * length (kids a)) universe ({[a]} ∪ (F ∪ D)) ({[a]} ∪ F ∪ (D ∪ X)) ltac:(set_solver)) as Hm.
    destruct (decide (kids a = [])) as [E|E].
    + rewrite E in Hlen. pose proof (unseen_sum_mono (λ a, 3 * length (kids a)) universe (F ∪ D) ({[a]} ∪ (F ∪ D)) ltac:(set_solver)).
      simpl in Hlen. unfold id. lia.
    + rewrite (unseen_sum_step (λ a, 3 * length (kids a)) universe (F ∪ D) a) by (done || (by apply Hu) || set_solver). unfold id. lia.
  - unfold stack_cost. cbn [fmap list_fmap sum_list_with frame_cost snd].
    pose proof (unseen_sum_mono (λ a, 3 * length (kids a)) universe (F ∪ D) (F ∖ {[a]} ∪ ({[a]} ∪ D))) as Hm.
    assert (F ∪ D ⊆ F ∖ {[a]} ∪ ({[a]} ∪ D)) as Hs; [|specialize (Hm Hs); unfold id; lia].
    intros x Hx. destruct (decide (x = a)); set_solver.
Qed.

(** ** Without a cycle, a node is settled after what it depends on *)

Definition acyclic_from (root : nat) : Prop := ∀ a, rtc kid root a → ¬ tc kid a a.

Lemma po_settle_kids root a st F D : acyclic_from root → po_inv root ((a, true) :: st) F D →
  ∀ c, c ∈ kids a → c ∈ D.
Proof.
  intros Hacy I c Hc. assert (Hra : rtc kid root a) by (apply (po_reach _ _ _ _ I a true); by left).
  destruct (po_kids _ _ _ _ I [] a st eq_refl c Hc) as [?|[(b & Hin)|HF]]; [done|by apply elem_of_nil in Hin|].
  destruct (po_flight _ _ _ _ I c HF) as [?|Hin]; [done|]. exfalso. apply (Hacy a Hra).
  apply elem_of_cons in Hin as [[= ->]|Hin]; [by apply tc_once|].
  eapply tc_l; [exact Hc|]. by apply (po_above _ _ _ _ I [] a true st c).
Qed.

(** Nothing in flight is pushed again. *)
Lemma po_expand_fresh root a st F D : acyclic_from root → po_inv root ((a, false) :: st) F D →
  ∀ c, c ∈ kids a → c ∈ {[a]} ∪ F → c ∈ D.
Proof.
  intros Hacy I c Hc HF. assert (Hra : rtc kid root a) by (apply (po_reach _ _ _ _ I a false); by left).
  apply elem_of_union in HF as [->%elem_of_singleton|HF]; [by destruct (Hacy a Hra); apply tc_once|].
  destruct (po_flight _ _ _ _ I c HF) as [?|Hin]; [done|]. exfalso. apply (Hacy a Hra).
  apply elem_of_cons in Hin as [?|Hin]; [done|].
  eapply tc_l; [exact Hc|]. by apply (po_above _ _ _ _ I [] a false st c).
Qed.
End PostOrder.
