(* ===== verification/Amplify.v ===== *)
(** * What a document's aliases expand to

    [aliasWeigher] of [src/compilers/openapi/internal/scan/amplification.go]: the
    weight every node has once its aliases are expanded, held at the first count
    past an allowance, and the innermost nodes past it. On a document whose
    expansion is finite the weights are exact, the nodes returned are exactly the
    innermost amplifiers, and each node is weighed once. *)
From stdpp Require Import relations.
From S2P Require Import Prelude GoLib Pointer Budget NodeView PostOrder.

Local Open Scope Z_scope.

Section Weigher.
Context (t : Tree).

Record aliasWeigher : Type := mkWeigher {
  allowance : Limit;
  weight : gmap nat Z;
  w_inFlight : gset nat;
  w_cut : gset nat;
  computations : nat }.

Definition newAliasWeigher (allowance : Limit) : aliasWeigher := mkWeigher allowance ∅ ∅ ∅ 0.

Definition childrenOf (n : nat) : list ref :=
  let n := t !!! n in
  if bool_decide (Kind n = AliasNode) then
    match Alias n with None => [] | Some target => [Some target] end
  else Content n.

(** A read of the weights, zero for nil and for what holds none. *)
Definition weight_at (w : aliasWeigher) (c : ref) : Z :=
  match c with None => 0 | Some c => default 0 (weight w !! c) end.

(** The stack, its top first, and the weigher, with one child taken. *)
Definition push_child (acc : aliasWeigher * list (nat * bool)) (c : ref) : aliasWeigher * list (nat * bool) :=
  let '(w, stack) := acc in
  match c with
  | None => acc
  | Some c =>
    if bool_decide (c ∈ w_inFlight w) then
      (mkWeigher (allowance w) (<[c := Past (allowance w)]> (weight w)) (w_inFlight w)
         ({[c]} ∪ w_cut w) (computations w), stack)
    else match weight w !! c with
         | Some _ => acc
         | None => (w, (c, false) :: stack)
         end
  end.
Definition pushChildren (w : aliasWeigher) (stack : list (nat * bool)) (n : nat)
    : aliasWeigher * list (nat * bool) := foldl push_child (w, stack) (childrenOf n).

(** The charges of a loop that stops at the first past the limit. *)
Fixpoint spend_while (b : Budget) (ns : list Z) : Budget :=
  match ns with
  | [] => b
  | n :: ns => let '(b, fits) := Spend b n in if fits : bool then spend_while b ns else b
  end.

Definition computeWeight (w : aliasWeigher) (n : nat) : Z :=
  if bool_decide (Kind (t !!! n) = AliasNode) then weight_at w (Alias (t !!! n))
  else
    let total := (Spend (Budget.New (allowance w)) 1).1 in
    let total := spend_while total (weight_at w <$> Content (t !!! n)) in
    Z.min (Spent total) (Past (allowance w)).

Definition dependsOnAmplifier (w : aliasWeigher) (n : nat) : bool :=
  existsb (λ c, negb (match c with Some c => bool_decide (c ∈ w_cut w) | None => false end)
                && negb (Admits (allowance w) (weight_at w c))) (childrenOf n).

(** One turn of the loop of [weigh]: the weigher, its stack and what it has
    found. *)
Definition weigh_step (w : aliasWeigher) (stack : list (nat * bool)) (innermost : list nat)
    : aliasWeigher * list (nat * bool) * list nat :=
  match stack with
  | [] => (w, stack, innermost)
  | (n, expanded) :: rest =>
    match weight w !! n with
    | Some _ => (w, rest, innermost)
    | None =>
      if negb expanded then
        let w := mkWeigher (allowance w) (weight w) ({[n]} ∪ w_inFlight w) (w_cut w) (computations w) in
        let '(w, stack) := pushChildren w ((n, true) :: rest) n in (w, stack, innermost)
      else
        let w := mkWeigher (allowance w) (weight w) (w_inFlight w ∖ {[n]}) (w_cut w) (computations w) in
        let wt := computeWeight w n in
        let w := mkWeigher (allowance w) (<[n := wt]> (weight w)) (w_inFlight w) (w_cut w) (1 + computations w) in
        (w, rest, if negb (Admits (allowance w) wt) && negb (dependsOnAmplifier w n)
                  then innermost ++ [n] else innermost)
    end
  end.

(** The loop, asking the context before each turn. *)
Fixpoint weigh_loop (fuel asks : nat) (ctx : nat → bool) (w : aliasWeigher) (stack : list (nat * bool))
    (innermost : list nat) : aliasWeigher * list (nat * bool) * list nat :=
  match fuel with
  | O => (w, stack, innermost)
  | S fuel =>
    if is_nil stack || ctx asks then (w, stack, innermost)
    else
      let '(w, stack, innermost) := weigh_step w stack innermost in
      weigh_loop fuel (S asks) ctx w stack innermost
  end.

(** The nodes a node leads to, and the turns a walk of the whole tree takes. *)
Definition kids (n : nat) : list nat := omap id (childrenOf n).
Definition weigh_fuel : nat := (3 + sum_list ((λ a, 3 * length (kids a)) <$> elements (dom t)))%nat.

Definition weigh (ctx : nat → bool) (w : aliasWeigher) (root : ref) : aliasWeigher * list nat :=
  match root with
  | None => (w, [])
  | Some root =>
    let '(w, _, innermost) := weigh_loop weigh_fuel 0 ctx w [(root, false)] [] in (w, innermost)
  end.

(** ** The weight itself *)

(** What [aliasWeigher] counts, as a number no width holds: nothing for nil, the
    target's for an alias, else one and what the content weighs. *)
Inductive weighs : ref → Z → Prop :=
  | weighs_nil : weighs None 0
  | weighs_alias a w : Kind (t !!! a) = AliasNode → weighs (Alias (t !!! a)) w → weighs (Some a) w
  | weighs_node a w : Kind (t !!! a) ≠ AliasNode → weighs_all (Content (t !!! a)) w → weighs (Some a) (1 + w)
with weighs_all : list ref → Z → Prop :=
  | weighs_none : weighs_all [] 0
  | weighs_more c cs w ws : weighs c w → weighs_all cs ws → weighs_all (c :: cs) (w + ws).

Scheme weighs_ind' := Induction for weighs Sort Prop
  with weighs_all_ind' := Induction for weighs_all Sort Prop.
Combined Scheme weighs_mutind from weighs_ind', weighs_all_ind'.

Lemma weighs_nonneg : (∀ n w, weighs n w → 0 <= w) ∧ (∀ l w, weighs_all l w → 0 <= w).
Proof using Type. apply weighs_mutind; intros; lia. Qed.

Lemma weighs_unique : (∀ n w, weighs n w → ∀ w', weighs n w' → w' = w) ∧
  (∀ l w, weighs_all l w → ∀ w', weighs_all l w' → w' = w).
Proof using Type.
  apply weighs_mutind.
  - intros w' H. by inversion H.
  - intros a w Hk _ IH w' H. inversion H; subst; [by apply IH|done].
  - intros a w Hk _ IH w' H. inversion H; subst; [done|]. f_equal. by apply IH.
  - intros w' H. by inversion H.
  - intros c cs w ws _ IH _ IHs w' H. inversion H; subst. f_equal; [by apply IH|by apply IHs].
Qed.

Lemma weighs_all_elem l w c : weighs_all l w → c ∈ l → ∃ wc, weighs c wc ∧ wc <= w.
Proof using Type.
  intros H. induction H as [|c' cs w ws Hw Hws IH]; intros Hc; [by apply elem_of_nil in Hc|].
  pose proof (proj1 weighs_nonneg _ _ Hw). pose proof (proj2 weighs_nonneg _ _ Hws).
  apply elem_of_cons in Hc as [->|Hc]; [exists w; split; [done|lia]|].
  destruct (IH Hc) as (wc & ? & ?). exists wc. split; [done|lia].
Qed.

Lemma kids_elem a b : b ∈ kids a ↔ Some b ∈ childrenOf a.
Proof using Type.
  unfold kids. rewrite list_elem_of_omap. split.
  - intros (x & Hx & E). unfold id in E. by subst.
  - intros H. by exists (Some b).
Qed.

(** A node weighs no less than what it depends on. *)
Lemma weighs_kid a w b : weighs (Some a) w → b ∈ kids a → ∃ wb, weighs (Some b) wb ∧ wb <= w.
Proof using Type.
  intros H Hb. apply kids_elem in Hb. unfold childrenOf in Hb. inversion H as [|a' w' Hk Hw|a' w' Hk Hw]; subst.
  - rewrite bool_decide_true in Hb by done. destruct (Alias (t !!! a)) as [c|]; [|by apply elem_of_nil in Hb].
    apply list_elem_of_singleton in Hb as [= ->]. exists w. split; [done|lia].
  - rewrite bool_decide_false in Hb by done. destruct (weighs_all_elem _ _ _ Hw Hb) as (wb & ? & ?).
    exists wb. split; [done|lia].
Qed.

Lemma weighs_reach a w b : weighs (Some a) w → rtc (kid kids) a b → ∃ wb, weighs (Some b) wb ∧ wb <= w.
Proof using Type.
  intros Hw Hr. revert w Hw. induction Hr as [a|a c b Hc _ IH]; intros w Hw; [exists w; split; [done|lia]|].
  destruct (weighs_kid _ _ _ Hw Hc) as (wc & Hwc & ?). destruct (IH wc Hwc) as (wb & ? & ?). exists wb. split; [done|lia].
Qed.

(** A finite expansion has no cycle. *)
Lemma weighs_acc : (∀ n w, weighs n w → ∀ a, n = Some a → Acc (λ x y, kid kids y x) a) ∧
  (∀ l w, weighs_all l w → ∀ a, Some a ∈ l → Acc (λ x y, kid kids y x) a).
Proof using Type.
  apply weighs_mutind.
  - done.
  - intros a w Hk _ IH b [= <-]. constructor. intros c Hc. apply kids_elem in Hc. unfold childrenOf in Hc.
    rewrite bool_decide_true in Hc by done. destruct (Alias (t !!! a)) as [d|]; [|by apply elem_of_nil in Hc].
    apply list_elem_of_singleton in Hc as [= ->]. by apply IH.
  - intros a w Hk _ IH b [= <-]. constructor. intros c Hc. apply kids_elem in Hc. unfold childrenOf in Hc.
    rewrite bool_decide_false in Hc by done. by apply IH.
  - intros a Ha. by apply elem_of_nil in Ha.
  - intros c cs w ws _ IH _ IHs a [Ha|Ha]%elem_of_cons; [by apply IH|by apply IHs].
Qed.

Lemma acc_no_cycle (R : nat → nat → Prop) a : Acc (λ x y, R y x) a → ¬ tc R a a.
Proof using Type.
  induction 1 as [a _ IH]. intros Ht. inversion Ht as [? b Hab|? b c Hab Hba]; subst; [by apply (IH a)|].
  apply (IH b Hab). by eapply tc_r.
Qed.

Lemma weighs_acyclic root w : weighs (Some root) w → acyclic_from kids root.
Proof using Type.
  intros Hw a Hr. destruct (weighs_reach _ _ _ Hw Hr) as (wa & Ha & _).
  by apply acc_no_cycle, (proj1 weighs_acc _ _ Ha).
Qed.

(** ** Counts held at the first past the allowance *)

Definition hold (l : Limit) (n : Z) : Z := Z.min n (Past l).
Definition refuses (l : Limit) (n : Z) : bool := bounded l && (most l <? n) && (most l <? MaxInt).

Lemma Past_le l : limit_wf l → 0 <= Past l <= MaxInt.
Proof using Type. intros Hl. apply (Past_count l Hl). Qed.

Lemma hold_count l n : limit_wf l → 0 <= n → is_count (hold l n).
Proof using Type. intros Hl Hn. pose proof (Past_le l Hl). unfold hold, is_count. lia. Qed.

Lemma Past_value l : limit_wf l → Past l = Z.min (Cap l + 1) MaxInt.
Proof using Type. intros Hl. unfold Past. by rewrite sum_held by (try apply Cap_count; try apply count_1; done). Qed.

Lemma hold_admits l n : limit_wf l → Admits l (hold l n) = negb (refuses l n).
Proof using Type.
  intros Hl. unfold hold. rewrite Past_value by done. destruct Hl as [[Hm Hm'] _]. unfold Admits, refuses, Cap.
  destruct (bounded l); simpl; [|done].
  destruct (Z.leb_spec (Z.min n (Z.min (most l + 1) MaxInt)) (most l)), (Z.ltb_spec (most l) n), (Z.ltb_spec (most l) MaxInt);
    simpl; lia || done.
Qed.

Lemma refuses_mono l n n' : n <= n' → refuses l n = true → refuses l n' = true.
Proof using Type. intros Hn. unfold refuses. destruct (bounded l); [|done]. simpl. rewrite !andb_true_iff, !Z.ltb_lt. lia. Qed.

Lemma spend_while_held b ns : limit_wf (limit b) → is_count (spent b) → Forall is_count ns →
  Budget.cut b = false →
  Z.min (Spent (spend_while b ns)) (Past (limit b)) = hold (limit b) (spent b + total ns).
Proof using Type.
  intros Hl Hb Hns. revert b Hl Hb. induction Hns as [|n ns Hn Hns IH]; intros b Hl Hb Hc.
  { simpl. unfold hold, Spent. lia. }
  cbn [spend_while]. rewrite (Spend_charge b n Hn). rewrite Hc. cbn [orb]. rewrite negb_involutive.
  pose proof (sum_count _ _ Hb Hn) as Hsc.
  pose proof (total_nonneg ns Hns) as Ht. pose proof (Past_le _ Hl) as HP.
  pose proof (sum_held _ _ Hb Hn) as Hs.
  specialize (IH (mkBudget (limit b) (sum (spent b) n) false) Hl Hsc eq_refl). cbn [limit spent] in IH.
  destruct (Admits (limit b) (sum (spent b) n)) eqn:Ha; cbn [orb negb].
  - rewrite IH. unfold hold. simpl. unfold is_count in *. lia.
  - apply Past_least in Ha as [Ha _]; [|done|done].
    unfold hold, Spent. cbn [spent]. simpl total. unfold is_count in *. lia.
Qed.

Lemma total_held l ns : limit_wf l → Forall (λ n, 0 <= n) ns →
  ∀ k, 0 <= k → hold l (k + total (hold l <$> ns)) = hold l (k + total ns).
Proof using Type.
  intros Hl Hns. induction Hns as [|n ns Hn Hns IH]; intros k Hk; [done|]. simpl. pose proof (Past_le l Hl).
  assert (0 <= hold l n) by (unfold hold; lia).
  rewrite Z.add_assoc, IH by lia.
  assert (Ht : 0 <= total ns) by (clear -Hns; induction Hns; simpl; [done|lia]). unfold hold in *. lia.
Qed.

(** ** A turn keeps the discipline of the stack *)

Lemma push_children_spec l w stack : let F := w_inFlight w in ∃ w',
  foldl push_child (w, stack) l =
    (w', ((., false) <$> reverse (filter (λ c, c ∉ F ∧ c ∉ dom (weight w)) (omap id l))) ++ stack) ∧
  allowance w' = allowance w ∧ w_inFlight w' = F ∧ computations w' = computations w ∧
  dom (weight w') = dom (weight w) ∪ list_to_set (filter (.∈ F) (omap id l)) ∧
  ((∀ c, c ∈ omap id l → c ∉ F) → w' = w).
Proof using Type.
  cbv zeta. revert w stack. induction l as [|[c|] l IH]; intros w stack.
  - exists w. split_and!; try done. cbn. set_solver.
  - cbn [foldl push_child omap list_omap id]. destruct (decide (c ∈ w_inFlight w)) as [HF|HF].
    + rewrite bool_decide_true by done. edestruct IH as (w' & E & H1 & H2 & H3 & H4 & _). exists w'.
      rewrite E. cbn [w_inFlight weight allowance computations] in H1, H2, H3, H4 |- *.
      rewrite !(filter_cons _ c), (decide_False (P := c ∉ _ ∧ _)) by tauto. rewrite (decide_True (P := c ∈ _)) by done.
      split_and!; [|done..| |].
      * f_equal. f_equal. f_equal. f_equal. apply filter_iff_in. intros x Hx. cbn [w_inFlight weight]. rewrite dom_insert_L. set_solver.
      * rewrite H4, dom_insert_L. set_solver.
      * intros Hall. destruct (Hall c); [left|done].
    + rewrite bool_decide_false by done. destruct (weight w !! c) as [v|] eqn:Ev.
      * destruct (IH w stack) as (w' & E & H1 & H2 & H3 & H4 & H5). exists w'. rewrite E.
        assert (Hd : c ∈ dom (weight w)) by by eapply elem_of_dom_2.
        rewrite !(filter_cons _ c), (decide_False (P := c ∉ _ ∧ _)), (decide_False (P := c ∈ _)) by tauto.
        split_and!; try done. intros Hall. apply H5. intros x Hx. apply Hall. by right.
      * destruct (IH w ((c, false) :: stack)) as (w' & E & H1 & H2 & H3 & H4 & H5). exists w'. rewrite E.
        assert (Hd : c ∉ dom (weight w)) by by apply not_elem_of_dom.
        rewrite !(filter_cons _ c), (decide_True (P := c ∉ _ ∧ _)), (decide_False (P := c ∈ _)) by tauto.
        split_and!; try done.
        -- rewrite reverse_cons, fmap_app, <- app_assoc. done.
        -- intros Hall. apply H5. intros x Hx. apply Hall. by right.
  - destruct (IH w stack) as (w' & E & H). exists w'. split; [exact E|exact H].
Qed.

(** What one turn does to the stack, the nodes in flight and those weighed. *)
Lemma weigh_step_po w stack innermost root : stack ≠ [] →
  po_inv kids root stack (w_inFlight w) (dom (weight w)) →
  let '(w', stack', _) := weigh_step w stack innermost in
  po_step kids stack (w_inFlight w) (dom (weight w)) stack' (w_inFlight w') (dom (weight w')).
Proof using Type.
  intros Hne I. destruct stack as [|[n expanded] rest]; [done|]. cbn [weigh_step].
  destruct (weight w !! n) as [v|] eqn:Ev; [apply po_pop; by eapply elem_of_dom_2|].
  apply not_elem_of_dom in Ev. destruct expanded; cbn [negb].
  - cbn [w_inFlight weight]. rewrite dom_insert_L. by apply po_settle.
  - unfold pushChildren.
    set (w1 := mkWeigher (allowance w) (weight w) ({[n]} ∪ w_inFlight w) (w_cut w) (computations w)).
    destruct (push_children_spec (childrenOf n) w1 ((n, true) :: rest)) as (w' & E & _ & H2 & _ & H4 & _).
    rewrite E. change (w_inFlight w1) with ({[n]} ∪ w_inFlight w) in *. change (weight w1) with (weight w) in *.
    rewrite H2, H4. fold (kids n). apply po_expand; [done|..].
    + intros c. rewrite elem_of_reverse, list_elem_of_filter, !not_elem_of_union, elem_of_list_to_set, list_elem_of_filter, elem_of_union. tauto.
    + intros c Hc. rewrite elem_of_reverse, list_elem_of_filter.
      destruct (decide (c ∈ {[n]} ∪ w_inFlight w)); [by right; right|].
      destruct (decide (c ∈ dom (weight w))); [right; left; apply elem_of_union; by left|by left].
    + rewrite length_reverse. apply length_filter.
    + intros c. rewrite elem_of_list_to_set, list_elem_of_filter. tauto.
Qed.

(** ** The loop ends *)

Definition weigh_cost (w : aliasWeigher) (stack : list (nat * bool)) : nat :=
  po_cost kids (elements (dom t)) stack (w_inFlight w) (dom (weight w)).

Lemma kids_in_tree a : kids a ≠ [] → a ∈ elements (dom t).
Proof using Type.
  intros Hk. apply elem_of_elements, elem_of_dom. destruct (t !! a) eqn:E; [done|]. exfalso. apply Hk.
  unfold kids, childrenOf. by rewrite lookup_total_alt, E.
Qed.

Lemma weigh_step_cost w stack innermost root : stack ≠ [] →
  po_inv kids root stack (w_inFlight w) (dom (weight w)) →
  let '(w', stack', _) := weigh_step w stack innermost in
  po_inv kids root stack' (w_inFlight w') (dom (weight w')) ∧ (weigh_cost w' stack' < weigh_cost w stack)%nat.
Proof using Type.
  intros Hne I. pose proof (weigh_step_po w stack innermost root Hne I) as Hp.
  destruct (weigh_step w stack innermost) as [[w' stack'] found']. split; [by eapply po_step_inv|].
  eapply po_cost_less; [apply NoDup_elements|apply kids_in_tree|done..].
Qed.

Lemma weigh_cost_nil w stack : weigh_cost w stack = 0%nat → stack = [].
Proof using Type.
  unfold weigh_cost, po_cost, stack_cost. destruct stack as [|[a []] stack]; [done|..]; cbn; unfold id; lia.
Qed.

(** With the context never done, the fuel a walk starts with empties the stack. *)
Lemma weigh_loop_ends fuel asks ctx w stack innermost root : (∀ k, ctx k = false) →
  po_inv kids root stack (w_inFlight w) (dom (weight w)) → (weigh_cost w stack ≤ fuel)%nat →
  (weigh_loop fuel asks ctx w stack innermost).1.2 = [].
Proof using Type.
  intros Hctx. revert asks w stack innermost. induction fuel as [|fuel IH]; intros asks w stack innermost I Hf.
  { cbn. apply (weigh_cost_nil w). lia. }
  cbn [weigh_loop]. rewrite Hctx, orb_false_r. destruct (is_nil stack) eqn:En; [by apply is_nil_true in En|].
  apply is_nil_false in En. pose proof (weigh_step_cost w stack innermost root En I) as Hs.
  destruct (weigh_step w stack innermost) as [[w' stack'] found']. destruct Hs as [I' Hc]. apply IH; [done|lia].
Qed.

Lemma weigh_start_cost L (root : nat) : weigh_cost (newAliasWeigher L) [(root, false)] = weigh_fuel.
Proof using Type.
  unfold weigh_cost, po_cost, weigh_fuel, stack_cost. cbn [w_inFlight weight newAliasWeigher].
  rewrite dom_empty_L, union_empty_r_L, unseen_sum_start. done.
Qed.

End Weigher.

(** ** The weigher is exact

    On a document whose aliases expand to something finite, [weigh] weighs every
    node it reaches at its exact weight, held at the first count past the
    allowance; it returns the innermost nodes past it, each once, none exactly when
    the document is within it; and each node is weighed once. *)

Local Open Scope Z_scope.

(** ** One node, from what it depends on *)

Section Local.
Context (t : Tree) (L : Limit).
Hypothesis HL : limit_wf L.

(** Whatever weighs at once what it depends on reads the exact weights. *)
Lemma weight_at_exact w c wc : (∀ a v, weight w !! a = Some v → ∃ wa, weighs t (Some a) wa ∧ v = hold L wa) →
  (∀ b, c = Some b → b ∈ dom (weight w)) → weighs t c wc → weight_at w c = hold L wc.
Proof using HL.
  intros Hex Hd Hc. destruct c as [b|]; cbn [weight_at].
  - destruct (proj1 (elem_of_dom (weight w) b) (Hd b eq_refl)) as [v Hv]. rewrite Hv. simpl.
    destruct (Hex b v Hv) as (wb & Hwb & ->). by rewrite (proj1 (weighs_unique t) _ _ Hc _ Hwb).
  - inversion Hc. unfold hold. pose proof (Past_le L HL). lia.
Qed.

Lemma weights_total w l wl : (∀ a v, weight w !! a = Some v → ∃ wa, weighs t (Some a) wa ∧ v = hold L wa) →
  (∀ b, Some b ∈ l → b ∈ dom (weight w)) → weighs_all t l wl →
  ∃ ns, weight_at w <$> l = hold L <$> ns ∧ total ns = wl ∧ Forall (λ n, 0 <= n) ns.
Proof using HL.
  intros Hex Hd Hl. pose proof weight_at_exact as Hat. induction Hl as [|c cs wc ws Hc Hcs IH]; [exists []; split_and!; [done..|constructor]|].
  destruct IH as (ns & E1 & E2 & E3); [intros b Hb; apply Hd; by right|].
  exists (wc :: ns). cbn [fmap list_fmap]. rewrite E1. rewrite (Hat w c wc); [|done| |done].
  - split_and!; [done|simpl; lia|]. constructor; [by apply (proj1 (weighs_nonneg t) _ _ Hc)|done].
  - intros b ->. apply Hd. by left.
Qed.

Lemma computeWeight_exact w a wa : allowance w = L →
  (∀ b v, weight w !! b = Some v → ∃ wb, weighs t (Some b) wb ∧ v = hold L wb) →
  (∀ c, c ∈ kids t a → c ∈ dom (weight w)) → weighs t (Some a) wa → computeWeight t w a = hold L wa.
Proof using HL.
  intros Ha Hex Hd Hw. unfold computeWeight. rewrite Ha.
  assert (Hd' : ∀ b, Some b ∈ childrenOf t a → b ∈ dom (weight w)) by (intros b Hb; by apply Hd, kids_elem).
  unfold childrenOf in Hd'. revert Ha. inversion Hw as [|a' w' Hk Hw'|a' w' Hk Hw']; subst; intros Ha.
  - rewrite bool_decide_true in Hd' |- * by done. apply weight_at_exact; [done| |done].
    intros b Hb. rewrite Hb in Hd'. apply Hd'. by left.
  - rewrite bool_decide_false in Hd' |- * by done.
    destruct (weights_total w _ _ Hex Hd' Hw') as (ns & E1 & E2 & E3). rewrite E1.
    rewrite (Spend_charge _ 1 count_1). cbn [fst].
    set (b := mkBudget _ _ _). assert (Hb : spent b = 1).
    { unfold b. cbn. rewrite sum_held by (apply count_1 || (unfold is_count, MaxInt, i64_max; lia)). unfold MaxInt, i64_max. lia. }
    change (Past L) with (Past (limit b)). rewrite spend_while_held.
    + rewrite Hb. change (limit b) with L. rewrite total_held by (done || lia). by rewrite E2.
    + done.
    + rewrite Hb. apply count_1.
    + apply Forall_fmap. eapply Forall_impl; [exact E3|]. intros n Hn. by apply hold_count.
    + done.
Qed.

Lemma dependsOnAmplifier_exact w a : allowance w = L → w_cut w = ∅ →
  (∀ b v, weight w !! b = Some v → ∃ wb, weighs t (Some b) wb ∧ v = hold L wb) →
  (∀ c, c ∈ kids t a → c ∈ dom (weight w)) →
  dependsOnAmplifier t w a = true ↔ ∃ c wc, c ∈ kids t a ∧ weighs t (Some c) wc ∧ refuses L wc = true.
Proof using HL.
  intros Ha Hcut Hex Hd. unfold dependsOnAmplifier. rewrite existsb_exists, Ha, Hcut. split.
  - intros (c & Hc & Hx). apply list_elem_of_In in Hc. destruct c as [c|].
    + rewrite bool_decide_false in Hx by set_solver. apply kids_elem in Hc.
      destruct (proj1 (elem_of_dom (weight w) c) (Hd c Hc)) as [v Hv]. destruct (Hex c v Hv) as (wc & Hwc & ->).
      exists c, wc. split_and!; [done..|]. cbn in Hx. rewrite Hv in Hx. cbn in Hx. by rewrite hold_admits, negb_involutive in Hx.
    + cbn in Hx. assert (E : Admits L 0 = true); [|by rewrite E in Hx].
      destruct HL as [[? ?] _]. unfold Admits. destruct (bounded L); [|done]. simpl. by apply Z.leb_le.
  - intros (c & wc & Hc & Hwc & Hr). exists (Some c). split; [by apply list_elem_of_In, kids_elem|].
    rewrite bool_decide_false by set_solver. cbn [negb andb].
    rewrite (weight_at_exact w (Some c) wc); [|done| |done]; [|intros b [= <-]; by apply Hd].
    by rewrite hold_admits, Hr.
Qed.
End Local.

(** ** The walk *)

Section Exact.
Context (t : Tree) (L : Limit) (root : nat) (total_weight : Z).
Hypothesis HL : limit_wf L.
Hypothesis Hroot : weighs t (Some root) total_weight.

Abbreviation reaches := (rtc (kid (kids t)) root).

(** A node past the allowance though nothing it depends on is. *)
Definition amplifier (a : nat) : Prop :=
  ∃ wa, weighs t (Some a) wa ∧ refuses L wa = true ∧
    ∀ c wc, c ∈ kids t a → weighs t (Some c) wc → refuses L wc = false.

(** What holds between turns of the loop. *)
Record weigh_inv (w : aliasWeigher) (stack : list (nat * bool)) (found : list nat) : Prop := {
  wi_limit : allowance w = L;
  wi_po : po_inv (kids t) root stack (w_inFlight w) (dom (weight w));
  wi_cut : w_cut w = ∅;
  wi_apart : w_inFlight w ## dom (weight w);
  wi_exact : ∀ a v, weight w !! a = Some v →
    (∃ wa, weighs t (Some a) wa ∧ v = hold L wa) ∧ ∀ c, c ∈ kids t a → c ∈ dom (weight w);
  wi_once : computations w = size (weight w);
  wi_nodup : NoDup found;
  wi_found : ∀ a, a ∈ found ↔ a ∈ dom (weight w) ∧ amplifier a }.

Lemma weigh_inv_start : weigh_inv (newAliasWeigher L) [(root, false)] [].
Proof using Type.
  split; try done.
  - cbn. rewrite dom_empty_L. apply po_start.
  - constructor.
  - intros a. cbn. rewrite dom_empty_L. split; [by intros ?%elem_of_nil|intros [[]%elem_of_empty _]].
Qed.

Lemma reaches_weighs a : reaches a → ∃ wa, weighs t (Some a) wa ∧ wa <= total_weight.
Proof using Hroot. apply weighs_reach, Hroot. Qed.

Lemma weigh_step_inv w stack found : stack ≠ [] → weigh_inv w stack found →
  let '(w', stack', found') := weigh_step t w stack found in weigh_inv w' stack' found'.
Proof using HL Hroot.
  intros Hne I. pose proof (weigh_step_cost t w stack found root Hne (wi_po _ _ _ I)) as Hpo.
  pose proof (weighs_acyclic t root _ Hroot) as Hacy.
  destruct stack as [|[n expanded] rest]; [done|]. revert Hpo. cbn [weigh_step].
  destruct (weight w !! n) as [v|] eqn:Ev; [intros [Hpo _]; destruct I; by split|].
  destruct expanded; cbn [negb].
  - intros [Hpo _]. destruct I as [I1 I2 I3 I4 I5 I6 I7 I8]. cbn [w_inFlight weight] in Hpo.
    assert (Hn : n ∉ dom (weight w)) by by apply not_elem_of_dom.
    assert (Hkids : ∀ c, c ∈ kids t n → c ∈ dom (weight w)) by by eapply po_settle_kids.
    destruct (reaches_weighs n) as (wn & Hwn & _); [apply (po_reach _ _ _ _ _ I2 n true); by left|].
    set (w1 := mkWeigher (allowance w) (weight w) (w_inFlight w ∖ {[n]}) (w_cut w) (computations w)) in *.
    assert (Hex1 : ∀ b v, weight w1 !! b = Some v → ∃ wb, weighs t (Some b) wb ∧ v = hold L wb) by (intros b v Hv; by apply I5).
    assert (Hcw : computeWeight t w1 n = hold L wn) by (by apply computeWeight_exact).
    assert (Hself : n ∉ kids t n) by (intros Hin; by apply Hn, Hkids).
    assert (Hex2 : ∀ b v, <[n := computeWeight t w1 n]> (weight w) !! b = Some v → ∃ wb, weighs t (Some b) wb ∧ v = hold L wb).
    { intros b v [[<- <-]|[_ Hv]]%lookup_insert_Some; [by exists wn|by apply I5]. }
    cbn [allowance weight w_inFlight w_cut computations] in *. rewrite Hcw in *.
    assert (Hdep : dependsOnAmplifier t (mkWeigher (allowance w) (<[n := hold L wn]> (weight w)) (w_inFlight w ∖ {[n]}) (w_cut w) (1 + computations w)) n = true
      ↔ ∃ c wc, c ∈ kids t n ∧ weighs t (Some c) wc ∧ refuses L wc = true).
    { apply (dependsOnAmplifier_exact t L HL); [done|done|exact Hex2|]. intros c Hc. cbn. rewrite dom_insert_L. apply elem_of_union. right. by apply Hkids. }
    change (allowance w1) with (allowance w). change (weight w1) with (weight w).
    change (w_inFlight w1) with (w_inFlight w ∖ {[n]}). change (w_cut w1) with (w_cut w).
    change (computations w1) with (computations w).
    set (amp := negb (Admits _ _) && _).
    assert (Hamp : amp = true ↔ amplifier n).
    { unfold amp. rewrite I1 in Hdep |- *. rewrite hold_admits, negb_involutive, andb_true_iff, negb_true_iff by done.
      rewrite <- (not_true_iff_false (dependsOnAmplifier _ _ _)), Hdep. split.
      - intros [Hr Hno]. exists wn. split_and!; [done..|]. intros c wc Hc Hwc. apply not_true_iff_false. intros Hr'. apply Hno. by exists c, wc.
      - intros (wn' & Hwn' & Hr & Hno). rewrite (proj1 (weighs_unique t) _ _ Hwn _ Hwn') in Hr. split; [done|].
        intros (c & wc & Hc & Hwc & Hr'). by rewrite (Hno c wc Hc Hwc) in Hr'. }
    assert (Hnf : n ∉ found) by (intros Hin; by apply I8 in Hin as [? _]).
    split; cbn [allowance weight w_inFlight w_cut computations]; try done.
    + rewrite dom_insert_L. clear -I4. set_solver.
    + intros b v Hv. split; [by apply Hex2|]. intros c Hc. rewrite dom_insert_L. apply elem_of_union. right.
      apply lookup_insert_Some in Hv as [[<- _]|[_ Hv]]; [by apply Hkids|by eapply I5].
    + rewrite map_size_insert_None by done. by rewrite I6.
    + destruct amp; [apply NoDup_snoc; done|done].
    + intros a. rewrite dom_insert_L, elem_of_union, elem_of_singleton. destruct amp.
      * rewrite elem_of_app, list_elem_of_singleton, I8. split; [intros [[? ?]| ->]; [by split; [right|]|split; [by left|by apply Hamp]]|].
        intros [[->|?] ?]; [by right|by left].
      * rewrite I8. split; [intros [? ?]; by split; [right|]|]. intros [[->|?] Ha]; [by apply Hamp in Ha|done].
  - unfold pushChildren.
    set (w1 := mkWeigher (allowance w) (weight w) ({[n]} ∪ w_inFlight w) (w_cut w) (computations w)).
    destruct (push_children_spec (childrenOf t n) w1 ((n, true) :: rest)) as (w' & E & _ & _ & _ & _ & H).
    rewrite E. intros [Hpo _]. destruct I as [I1 I2 I3 I4 I5 I6 I7 I8].
    assert (Hn : n ∉ dom (weight w)) by by apply not_elem_of_dom.
    assert (Hw' : w' = w1).
    { apply H. intros c Hc HF. change (w_inFlight w1) with ({[n]} ∪ w_inFlight w) in HF.
      assert (Hin : c ∈ dom (weight w)) by (by eapply po_expand_fresh).
      apply elem_of_union in HF as [->%elem_of_singleton|HF]; [done|]. by apply (I4 c). }
    rewrite Hw' in *. split; try done. cbn. clear -I4 Hn. set_solver.
Qed.

Lemma weigh_loop_inv fuel asks ctx w stack found : weigh_inv w stack found →
  let '(w', stack', found') := weigh_loop t fuel asks ctx w stack found in weigh_inv w' stack' found'.
Proof using HL Hroot.
  revert asks w stack found. induction fuel as [|fuel IH]; intros asks w stack found I; [done|].
  cbn [weigh_loop]. destruct (is_nil stack) eqn:En; [done|]. apply is_nil_false in En. destruct (ctx asks); [done|].
  pose proof (weigh_step_inv w stack found En I) as Hs.
  destruct (weigh_step t w stack found) as [[w' stack'] found']. by apply IH.
Qed.

(** A document past the allowance holds an innermost node past it. *)
Lemma amplifier_beneath a wa : weighs t (Some a) wa → refuses L wa = true →
  ∃ b, rtc (kid (kids t)) a b ∧ amplifier b.
Proof using Type.
  intros Hw. pose proof (proj1 (weighs_acc t) _ _ Hw a eq_refl) as Hacc. revert wa Hw.
  induction Hacc as [a _ IH]. intros wa Hw Hr.
  assert (Hk : (∃ c wc, c ∈ kids t a ∧ weighs t (Some c) wc ∧ refuses L wc = true) ∨
    ∀ c wc, c ∈ kids t a → weighs t (Some c) wc → refuses L wc = false).
  { assert (Hall : ∀ c, c ∈ kids t a → ∃ wc, weighs t (Some c) wc) by (intros c Hc; destruct (weighs_kid t _ _ _ Hw Hc) as (wc & ? & _); by exists wc).
    induction (kids t a) as [|c l IHl]; [right; by intros c wc ?%elem_of_nil|].
    destruct (Hall c) as [wc Hwc]; [by left|]. destruct (refuses L wc) eqn:Hrc; [left; exists c, wc; split_and!; [by left|done..]|].
    destruct IHl as [(c' & wc' & ? & ?)|Hno]; [intros d Hd; apply Hall; by right|left; exists c', wc'; by split; [right|]|].
    right. intros d wd [->|Hd]%elem_of_cons Hwd; [by rewrite (proj1 (weighs_unique t) _ _ Hwc _ Hwd)|by apply (Hno d)]. }
  destruct Hk as [(c & wc & Hc & Hwc & Hrc)|Hno].
  - destruct (IH c Hc wc Hwc Hrc) as (b & Hb & Ha). exists b. split; [by eapply rtc_l|done].
  - exists a. split; [apply rtc_refl|]. by exists wa.
Qed.
End Exact.

(** C16: Where a document's aliases expand to something finite and the walk is never
    cancelled, [weigh] weighs exactly the nodes the root leads to, each once and at
    its exact weight held at the first count past the allowance; it returns
    exactly the innermost nodes past it, each once; and it returns none exactly
    when the document's whole weight is within the allowance. *)
Theorem weigh_exact (t : Tree) (ctx : nat → bool) (L : Limit) (root : nat) (wr : Z) :
  limit_wf L → (∀ k, ctx k = false) → weighs t (Some root) wr →
  let '(w, found) := weigh t ctx (newAliasWeigher L) (Some root) in
  (∀ a, a ∈ dom (weight w) ↔ rtc (kid (kids t)) root a) ∧
  (∀ a wa, a ∈ dom (weight w) → weighs t (Some a) wa → weight w !! a = Some (hold L wa)) ∧
  computations w = size (weight w) ∧
  NoDup found ∧
  (∀ a, a ∈ found ↔ rtc (kid (kids t)) root a ∧ amplifier t L a) ∧
  (found = [] ↔ refuses L wr = false).
Proof.
  intros HL Hctx Hr. unfold weigh.
  pose proof (weigh_loop_inv t L root wr HL Hr (weigh_fuel t) 0 ctx _ _ _ (weigh_inv_start t L root)) as I.
  pose proof (weigh_loop_ends t (weigh_fuel t) 0 ctx (newAliasWeigher L) [(root, false)] [] root Hctx) as He.
  cbn [w_inFlight weight newAliasWeigher] in He. rewrite dom_empty_L, weigh_start_cost in He.
  specialize (He (po_start (kids t) root) (le_n _)).
  destruct (weigh_loop t (weigh_fuel t) 0 ctx (newAliasWeigher L) [(root, false)] []) as [[w stack] found].
  cbn [fst snd] in He. subst stack. destruct I as [I1 I2 I3 I4 I5 I6 I7 I8].
  assert (Hdom : ∀ a, a ∈ dom (weight w) ↔ rtc (kid (kids t)) root a).
  { intros a. split; [apply (po_done _ _ _ _ _ I2)|]. intros Ha.
    assert (H0 : root ∈ dom (weight w)) by (destruct (po_root _ _ _ _ _ I2) as [?|(b & ?%elem_of_nil)]; done).
    revert a Ha. apply rtc_ind_r; [done|]. intros y z _ Hyz [v Hv]%elem_of_dom. by apply (I5 y v). }
  split_and!; [done| |done..| |].
  - intros a wa [v Hv]%elem_of_dom Hwa. rewrite Hv. destruct (I5 a v Hv) as [(wa' & Hwa' & ->) _].
    by rewrite (proj1 (weighs_unique t) _ _ Hwa _ Hwa').
  - intros a. by rewrite I8, Hdom.
  - split.
    + intros ->. apply not_true_iff_false. intros Href.
      destruct (amplifier_beneath t L root wr Hr Href) as (b & Hb & Hamp).
      apply (not_elem_of_nil b), I8. split; [by apply Hdom|done].
    + intros Href. destruct found as [|a found]; [done|]. destruct (proj1 (I8 a) ltac:(left)) as [Ha (wa & Hwa & Hra & _)].
      apply Hdom in Ha. destruct (weighs_reach t _ _ _ Hr Ha) as (wa' & Hwa' & Hle).
      rewrite (proj1 (weighs_unique t) _ _ Hwa _ Hwa') in *. by rewrite (refuses_mono L _ _ Hle Hra) in Href.
Qed.

(** ** A small document *)

Module Sample.
(** A list of a mapping and two aliases of it. *)
Definition leaf : Node := mkNode ScalarNode [] (go "x") [] None [] 1 1.
Definition tree : Tree := list_to_map
  [(0%nat, mkNode SequenceNode [] [] [] None [Some 1; Some 2; Some 3]%nat 1 1);
   (1%nat, mkNode MappingNode [] [] [] None [Some 4; Some 5]%nat 1 1);
   (2%nat, mkNode AliasNode [] [] [] (Some 1%nat) [] 1 1);
   (3%nat, mkNode AliasNode [] [] [] (Some 1%nat) [] 1 1);
   (4%nat, leaf); (5%nat, leaf)].

Lemma scalar_weighs t a : Content (t !!! a) = [] → Kind (t !!! a) ≠ AliasNode → weighs t (Some a) 1.
Proof. intros Hc Hk. apply (weighs_node t a 0); [done|]. rewrite Hc. constructor. Qed.
Lemma mapping_weighs : weighs tree (Some 1%nat) 3.
Proof.
  apply (weighs_node tree 1 2); [done|]. apply (weighs_more tree (Some 4%nat) [Some 5%nat] 1 1); [by apply scalar_weighs|].
  apply (weighs_more tree (Some 5%nat) [] 1 0); [by apply scalar_weighs|constructor].
Qed.
Lemma tree_weighs : weighs tree (Some 0%nat) 10.
Proof.
  apply (weighs_node tree 0 9); [done|]. apply (weighs_more tree (Some 1%nat) _ 3 6); [apply mapping_weighs|].
  apply (weighs_more tree (Some 2%nat) _ 3 3); [apply weighs_alias; [done|apply mapping_weighs]|].
  apply (weighs_more tree (Some 3%nat) _ 3 0); [apply weighs_alias; [done|apply mapping_weighs]|constructor].
Qed.
End Sample.

Lemma weigh_exact_witness :
  refuses (AtMost 5) 10 = true ∧ (weigh Sample.tree (λ _, false) (newAliasWeigher (AtMost 5)) (Some 0%nat)).2 ≠ [].
Proof.
  split; [reflexivity|].
  pose proof (weigh_exact Sample.tree (λ _, false) (AtMost 5) 0 10
    (AtMost_wf 5 ltac:(vm_compute; discriminate)) (λ _, eq_refl) Sample.tree_weighs) as H.
  destruct (weigh _ _ _ _) as [w found]. destruct H as (_ & _ & _ & _ & _ & H).
  intros E. apply H in E. discriminate.
Defined.

Example weigh_ex : (weigh Sample.tree (λ _, false) (newAliasWeigher (AtMost 5)) (Some 0%nat)).2 = [0%nat].
Proof. vm_compute. reflexivity. Qed.
