(* ===== verification/OaIds.v ===== *)
(** * The IDs an OpenAPI document's nodes take

    [src/compilers/openapi/internal/ids/ids.go]: which namespace a node belongs
    in and the pointer that is its path, over the grammar of [Ids] and the
    pointers of [Pointer]. What stands at two places takes two IDs, in every
    document of a compile; a repeat of a parameter or an enum member is told from
    the first by its number; and the one reader of the component shape reads
    exactly the pointers that have it. *)
From S2P Require Import Prelude GoLib IR Ids Utf8 Text Pointer.
Implicit Types (pointer name label key : gostring).

(** ** Namespaces *)

Definition OpenAPISpace := go "openapi".
Definition AnonSpace := go "anon".
Definition ComposedSpace := go "composed".
Definition TagGroupSpace := go "tags".
Definition PathPrefixGroupSpace := go "path-prefix".
Definition DefaultGroupSpace := go "default".
Definition WebhookGroupSpace := go "webhooks".
Definition DefaultServerSpace := go "default".

Definition TagGroup name : GroupID := GroupID_ TagGroupSpace (Ptr [name]).
Definition PathPrefixGroup (segment : gostring) : GroupID := GroupID_ PathPrefixGroupSpace (Ptr [segment]).
Definition DefaultGroup : GroupID := GroupID_ DefaultGroupSpace [].
Definition WebhookGroup : GroupID := GroupID_ WebhookGroupSpace [].

(** ** Documents *)

Record Document : Type := In { d_label : gostring }.

Definition doc_space (d : Document) (s : gostring) : gostring :=
  if is_nil (d_label d) then s else Qualified s (d_label d).

(** [Namespaces]: the spaces of each kind, each of the other documents adding its
    own. *)
Definition add_spaces (ns : gmap gostring (list gostring)) (kind : gostring) (spaces : list gostring) :=
  <[kind := default [] (ns !! kind) ++ spaces]> ns.
Definition document_spaces (ns : gmap gostring (list gostring)) (d : Document) : gmap gostring (list gostring) :=
  let ns := add_spaces ns IDKindType [doc_space d OpenAPISpace; doc_space d AnonSpace; doc_space d ComposedSpace] in
  let ns := add_spaces ns IDKindProp [doc_space d OpenAPISpace; doc_space d ComposedSpace] in
  let ns := add_spaces ns IDKindEnumMember [doc_space d OpenAPISpace; doc_space d AnonSpace] in
  add_spaces ns IDKindServer [doc_space d OpenAPISpace].
Definition Namespaces (others : list Document) : gmap gostring (list gostring) :=
  foldl document_spaces (list_to_map
    [(IDKindType, [OpenAPISpace; AnonSpace; ComposedSpace]);
     (IDKindOp, [OpenAPISpace]);
     (IDKindProp, [OpenAPISpace; ComposedSpace]);
     (IDKindAuth, [OpenAPISpace; IDSpaceUnresolved]);
     (IDKindService, [OpenAPISpace]);
     (IDKindGroup, [TagGroupSpace; PathPrefixGroupSpace; DefaultGroupSpace; WebhookGroupSpace]);
     (IDKindParam, [OpenAPISpace]);
     (IDKindEnumMember, [OpenAPISpace; AnonSpace]);
     (IDKindServer, [OpenAPISpace; DefaultServerSpace])]) others.

Definition Coordinate (d : Document) pointer : gostring :=
  if is_nil (d_label d) then pointer else Qualified [] (d_label d) ++ pointer.

Definition NamedType (d : Document) pointer : TypeID := TypeID_ (doc_space d OpenAPISpace) pointer.
Definition AnonType (d : Document) pointer : TypeID := TypeID_ (doc_space d AnonSpace) pointer.
Definition ComposedType (d : Document) pointer : TypeID := TypeID_ (doc_space d ComposedSpace) pointer.
Definition ComposedProp (d : Document) pointer : PropID := PropID_ (doc_space d ComposedSpace) pointer.
Definition Op pointer : OpID := OpID_ OpenAPISpace pointer.
Definition Prop_ (d : Document) pointer : PropID := PropID_ (doc_space d OpenAPISpace) pointer.

(** ** Components *)

Definition componentsRoot := go "/components".

Definition componentEntrySplit pointer : option (gostring * gostring) :=
  let section := Parent pointer in
  if negb (bool_decide (Parent section = componentsRoot)) then None
  else let kind := LastToken section in
       if is_nil kind then None else Some (kind, LastToken pointer).

Definition ComponentEntry pointer : option (gostring * gostring) :=
  match componentEntrySplit pointer with
  | Some (kind, name) => if is_nil name then None else Some (kind, name)
  | None => None
  end.
Definition componentEntryName pointer : option gostring := snd <$> ComponentEntry pointer.
Definition DeclarationHint pointer (fallback : gostring) : gostring :=
  match componentEntryName pointer with None => fallback | Some name => name end.

Inductive ComponentState : Type :=
  | NotComponent | NamedComponent | UndeclaredComponent | UnnamedComponent.
#[export] Instance ComponentState_eq_dec : EqDecision ComponentState.
Proof. solve_decision. Defined.
Definition ByName (s : ComponentState) : bool :=
  bool_decide (s = NamedComponent) || bool_decide (s = UndeclaredComponent).

Definition ComponentSchema pointer : gostring * ComponentState :=
  match componentEntrySplit pointer with
  | None => ([], NotComponent)
  | Some (kind, name) =>
    if negb (bool_decide (kind = go "schemas")) then ([], NotComponent)
    else if is_nil name then ([], UnnamedComponent)
    else (name, NamedComponent)
  end.

Definition schemaSpace pointer : gostring :=
  if bool_decide ((ComponentSchema pointer).2 = NamedComponent) then OpenAPISpace else AnonSpace.
Definition ForPointer (d : Document) pointer : TypeID :=
  if bool_decide (schemaSpace pointer = OpenAPISpace) then NamedType d pointer else AnonType d pointer.

(** ** Repeats *)

Definition numbered (path : gostring) (occurrence : Z) : gostring :=
  if (occurrence <? 2)%Z then path else path ++ Ptr [FormatInt occurrence].
Definition ParamPath (name in_ : gostring) (occurrence : Z) : gostring :=
  numbered (Ptr [go "parameters"; name; in_]) occurrence.
Definition Param (mount name in_ : gostring) (occurrence : Z) : ParamID :=
  ParamID_ OpenAPISpace (mount ++ ParamPath name in_ occurrence).
Definition EnumMember_ (d : Document) (enumPointer key : gostring) (occurrence : Z) : EnumMemberID :=
  EnumMemberID_ (doc_space d (schemaSpace enumPointer)) (numbered (enumPointer ++ Ptr [key]) occurrence).

Definition Server_ (d : Document) pointer : ServerID := ServerID_ (doc_space d OpenAPISpace) pointer.
Definition DefaultServer : ServerID := ServerID_ DefaultServerSpace [].
Definition schemePointer name : gostring := Ptr [go "components"; go "securitySchemes"; name].
Definition Auth_ name : AuthID := AuthID_ OpenAPISpace (schemePointer name).
Definition UnresolvedAuth name : AuthID := AuthID_ IDSpaceUnresolved (schemePointer name).
Definition Service_ (sourceIndex : Z) : ServiceID := ServiceID_ OpenAPISpace (FormatInt sourceIndex).

(** ** Pointers and what they name *)

(** The pointers the compiler builds, of tokens that are UTF-8 text. *)
Definition valid_tokens (tokens : list gostring) : Prop := Forall (λ tok, ValidString tok = true) tokens.

Lemma Ptr_inj ts ts' : valid_tokens ts → valid_tokens ts' → Ptr ts = Ptr ts' → ts = ts'.
Proof. intros H H' E. by rewrite <- (Tokens_ptr ts H), <- (Tokens_ptr ts' H'), E. Qed.

Lemma Ptr_cons tok ts : ∃ rest, Ptr (tok :: ts) = IDSeparator ++ rest ∧ TrimPrefix (Ptr (tok :: ts)) IDSeparator = rest.
Proof.
  rewrite Ptr_text. unfold ptr_text. cbn [mbind list_bind app].
  eexists. split; [reflexivity|]. apply (TrimPrefix_app IDSeparator).
Qed.

Lemma trimmed_inj ts ts' : ts ≠ [] → ts' ≠ [] → valid_tokens ts → valid_tokens ts' →
  TrimPrefix (Ptr ts) IDSeparator = TrimPrefix (Ptr ts') IDSeparator → ts = ts'.
Proof.
  intros Hne Hne' Hv Hv' E. apply Ptr_inj; [done..|]. destruct ts as [|x ts], ts' as [|y ts']; [done..|].
  destruct (Ptr_cons x ts) as (r & E1 & E2), (Ptr_cons y ts') as (r' & E3 & E4). congruence.
Qed.

Lemma path_of_trim path : default [] (path_of path) = TrimPrefix path IDSeparator.
Proof. unfold path_of. cbv zeta. case_bool_decide as Hp; [by rewrite Hp|done]. Qed.

(** An ID of a space and a path gives back both. *)
Lemma idFor_inj kind space space' path path' : space ≠ [] → separator ∉ space → space' ≠ [] → separator ∉ space' →
  idFor kind space path = idFor kind space' path' →
  space = space' ∧ TrimPrefix path IDSeparator = TrimPrefix path' IDSeparator.
Proof.
  intros H1 H2 H3 H4. rewrite !idFor_text. intros E.
  pose proof (read_id kind space _ (path_of_parts space path H1 H2)) as (_ & R1 & R2).
  pose proof (read_id kind space' _ (path_of_parts space' path' H3 H4)) as (_ & R3 & R4).
  rewrite E in R1, R2. rewrite R1 in R3. rewrite R2 in R4. injection R3 as <-. split; [done|].
  injection R4 as R4 _. by rewrite !path_of_trim in R4.
Qed.

(** The spaces of a document, apart by its label. *)
Definition plain_space (s : gostring) : Prop := s ≠ [] ∧ separator ∉ s ∧ "@"%char ∉ s.
Lemma plain_openapi : plain_space OpenAPISpace.
Proof. split_and!; [done|..]; apply (proj1 (bool_decide_eq_true _)); vm_compute; reflexivity. Qed.
Lemma plain_anon : plain_space AnonSpace.
Proof. split_and!; [done|..]; apply (proj1 (bool_decide_eq_true _)); vm_compute; reflexivity. Qed.

Lemma doc_space_ok d s : plain_space s → doc_space d s ≠ [] ∧ separator ∉ doc_space d s.
Proof.
  intros (H1 & H2 & H3). unfold doc_space. destruct (is_nil (d_label d)); [done|]. unfold Qualified. split.
  - destruct s; done.
  - rewrite !elem_of_app. intros [?|[Hq|Hd]]; [done| |by apply escape_no_separator in Hd].
    by apply list_elem_of_singleton in Hq.
Qed.

Lemma doc_space_inj d d' s s' : plain_space s → plain_space s' → doc_space d s = doc_space d' s' → d = d' ∧ s = s'.
Proof.
  intros (H1 & _ & H3) (H1' & _ & H3'). destruct d as [l], d' as [l']. unfold doc_space. cbn [d_label].
  destruct l as [|c l], l' as [|c' l']; cbn [is_nil]; intros E.
  - by subst.
  - exfalso. apply H3. rewrite E. unfold Qualified, qualifier. rewrite !elem_of_app. right; left. by left.
  - exfalso. apply H3'. rewrite <- E. unfold Qualified, qualifier. rewrite !elem_of_app. right; left. by left.
  - apply escaped_no_qualifier_split in E as [-> ->]; done.
Qed.

Lemma schemaSpace_plain pointer : plain_space (schemaSpace pointer).
Proof. unfold schemaSpace. case_bool_decide; [apply plain_openapi|apply plain_anon]. Qed.

Lemma ForPointer_space d pointer : ForPointer d pointer = TypeID_ (doc_space d (schemaSpace pointer)) pointer.
Proof. unfold ForPointer, schemaSpace. repeat case_bool_decide; done. Qed.

(** ** The component shape *)

Lemma Parent_Ptr_snoc ts tok : Parent (Ptr (ts ++ [tok])) = Ptr ts.
Proof. rewrite Ptr_snoc. apply Parent_append. Qed.
Lemma LastToken_Ptr_snoc ts tok : ValidString tok = true → LastToken (Ptr (ts ++ [tok])) = tok.
Proof. intros Hv. rewrite Ptr_snoc. by apply LastToken_append. Qed.
Lemma Parent_Ptr_nil : Parent (Ptr []) = [].
Proof. reflexivity. Qed.

Lemma componentsRoot_ptr : componentsRoot = Ptr [go "components"].
Proof. vm_compute. reflexivity. Qed.

Lemma componentEntrySplit_ptr ts : valid_tokens ts → componentEntrySplit (Ptr ts) =
  match ts with
  | [root; kind; name] => if bool_decide (root = go "components") && negb (is_nil kind) then Some (kind, name) else None
  | _ => None
  end.
Proof.
  intros Hv. assert (Hroot : valid_tokens [go "components"]) by (repeat constructor).
  unfold componentEntrySplit. destruct ts as [|name ts' _] using rev_ind; [vm_compute; done|].
  apply Forall_app in Hv as [Hv [Hname _]%Forall_cons].
  rewrite Parent_Ptr_snoc, (LastToken_Ptr_snoc _ _ Hname).
  destruct ts' as [|kind ts'' _] using rev_ind; [by vm_compute|].
  apply Forall_app in Hv as [Hv [Hkind _]%Forall_cons].
  rewrite Parent_Ptr_snoc, (LastToken_Ptr_snoc _ _ Hkind), componentsRoot_ptr.
  destruct (decide (ts'' = [go "components"])) as [->|Hne].
  - rewrite bool_decide_true by done. cbn [negb app andb]. rewrite bool_decide_true by done. by destruct (is_nil kind).
  - rewrite bool_decide_false; [|intros E; by apply Hne, Ptr_inj]. cbn [negb].
    destruct ts'' as [|r [|x ts'']]; [done| |by destruct ts'' as [|? []]].
    cbn [app]. rewrite bool_decide_false by congruence. done.
Qed.

Lemma ComponentSchema_ptr ts : valid_tokens ts → ComponentSchema (Ptr ts) =
  match ts with
  | [root; kind; name] =>
    if bool_decide (root = go "components" ∧ kind = go "schemas")
    then if is_nil name then ([], UnnamedComponent) else (name, NamedComponent)
    else ([], NotComponent)
  | _ => ([], NotComponent)
  end.
Proof.
  intros Hv. unfold ComponentSchema. rewrite componentEntrySplit_ptr by done.
  destruct ts as [|root [|kind [|name [|]]]]; [done..| |done].
  destruct (decide (root = go "components")) as [->|Hr].
  - rewrite (bool_decide_true (_ = _)) by done. cbn [andb]. destruct (decide (kind = go "schemas")) as [->|Hk].
    + rewrite (bool_decide_true (_ ∧ _)) by done. done.
    + rewrite (bool_decide_false (_ ∧ _)) by tauto. destruct (is_nil kind); cbn [negb]; [done|].
      by rewrite bool_decide_false.
  - rewrite (bool_decide_false (root = _)) by done. rewrite (bool_decide_false (_ ∧ _)) by tauto. done.
Qed.

(** ** Numbers *)

Lemma FormatInt_inj m n : (0 <= m)%Z → (0 <= n)%Z → FormatInt m = FormatInt n → m = n.
Proof.
  intros Hm Hn E. unfold FormatInt in E. destruct (Z.ltb_spec m 0); [lia|]. destruct (Z.ltb_spec n 0); [lia|].
  destruct (FormatUint_spec m Hm) as (_ & H1 & _), (FormatUint_spec n Hn) as (_ & H2 & _). congruence.
Qed.

Lemma ascii_valid (s : gostring) : Forall (λ c, (code c < 128)%Z) s → ValidString s = true.
Proof.
  intros Hs. apply ValidString_exact. exists (code <$> s). induction Hs as [|c s Hc _ [IH1 IH2]]; [by split|].
  pose proof (code_range c). split; cbn [fmap list_fmap].
  - constructor; [|done]. unfold valid_rune. apply orb_true_iff. left. lia.
  - cbn [mbind list_bind]. rewrite <- IH2. unfold EncodeRune.
    assert (E : valid_rune (code c) = true) by (unfold valid_rune; apply orb_true_iff; left; lia). rewrite E.
    destruct (Z.ltb_spec (code c) 128); [|lia]. cbn. by rewrite byte_of_code.
Qed.

Lemma FormatInt_valid n : (0 <= n)%Z → ValidString (FormatInt n) = true.
Proof.
  intros Hn. unfold FormatInt. destruct (Z.ltb_spec n 0); [lia|]. apply ascii_valid.
  destruct (FormatUint_spec n Hn) as (Hd & _ & _). eapply Forall_impl; [exact Hd|]. unfold is_digit. lia.
Qed.

(** The tokens a number adds. *)
Definition number_tokens (occurrence : Z) : list gostring := if (occurrence <? 2)%Z then [] else [FormatInt occurrence].
Lemma numbered_ptr ts n : numbered (Ptr ts) n = Ptr (ts ++ number_tokens n).
Proof.
  unfold numbered, number_tokens. destruct (n <? 2)%Z; [by rewrite app_nil_r|]. by rewrite Ptr_app.
Qed.
Lemma number_tokens_valid n : valid_tokens (number_tokens n).
Proof.
  unfold number_tokens. destruct (Z.ltb_spec n 2); [constructor|]. constructor; [|constructor]. apply FormatInt_valid. lia.
Qed.
Lemma number_tokens_inj m n : (1 <= m)%Z → (1 <= n)%Z → number_tokens m = number_tokens n → m = n.
Proof.
  intros Hm Hn. unfold number_tokens. destruct (Z.ltb_spec m 2), (Z.ltb_spec n 2); intros E; try done; [lia|].
  injection E as E. apply FormatInt_inj in E; lia.
Qed.

Lemma in_space_inj kind space ts ts' : plain_space space → ts ≠ [] → ts' ≠ [] → valid_tokens ts → valid_tokens ts' →
  idFor kind space (Ptr ts) = idFor kind space (Ptr ts') → ts = ts'.
Proof. intros (H1 & H2 & _) Hne Hne' Hv Hv' E. apply idFor_inj in E as [_ E]; [|done..]. by apply trimmed_inj. Qed.

Lemma Ptr_head ts : ts ≠ [] → ∃ rest, Ptr ts = separator :: rest.
Proof. intros Hne. destruct ts as [|x ts]; [done|]. destruct (Ptr_cons x ts) as (r & E & _). by exists r. Qed.

(** The document itself, and its member of the empty name: the separator a path
    drops is all that tells their pointers apart. *)
Definition at_root (ts : list gostring) : Prop := ts = [] ∨ ts = [[]].

Lemma trimmed_root ts : valid_tokens ts → TrimPrefix (Ptr ts) IDSeparator = [] ↔ at_root ts.
Proof.
  intros Hv. split; [|by intros [-> | ->]; vm_compute]. intros E. destruct ts as [|x ts]; [by left|right].
  destruct (Ptr_cons x ts) as (r & E1 & E2). rewrite E in E2. subst r. rewrite app_nil_r in E1.
  apply Ptr_inj; [done|by repeat constructor|]. rewrite E1. by vm_compute.
Qed.

Lemma trimmed_eq ts ts' : valid_tokens ts → valid_tokens ts' →
  TrimPrefix (Ptr ts) IDSeparator = TrimPrefix (Ptr ts') IDSeparator ↔ ts = ts' ∨ (at_root ts ∧ at_root ts').
Proof.
  intros Hv Hv'. split.
  - intros E. destruct ts as [|x ts].
    + right. split; [by left|]. apply (trimmed_root ts' Hv'). rewrite <- E. by vm_compute.
    + destruct ts' as [|y ts']; [|left; by apply trimmed_inj].
      right. split; [|by left]. apply (trimmed_root (x :: ts) Hv). rewrite E. by vm_compute.
  - intros [->|[H H']]; [done|]. apply (trimmed_root ts Hv) in H as ->. by apply (trimmed_root ts' Hv') in H' as ->.
Qed.

Lemma ForPointer_eq d d' ts ts' : valid_tokens ts → valid_tokens ts' →
  ForPointer d (Ptr ts) = ForPointer d' (Ptr ts') ↔ d = d' ∧ (ts = ts' ∨ (at_root ts ∧ at_root ts')).
Proof.
  intros Hv Hv'. rewrite !ForPointer_space. unfold TypeID_.
  pose proof (doc_space_ok d _ (schemaSpace_plain (Ptr ts))) as [H1 H2].
  pose proof (doc_space_ok d' _ (schemaSpace_plain (Ptr ts'))) as [H3 H4]. split.
  - intros [Es Ep]%idFor_inj; [|done..]. apply doc_space_inj in Es as [-> _]; [|apply schemaSpace_plain..].
    split; [done|]. by apply trimmed_eq.
  - intros [-> [->|[[-> | ->] [-> | ->]]]]; done.
Qed.

Lemma Coordinate_inj d d' ts ts' : valid_tokens ts → valid_tokens ts' →
  Coordinate d (Ptr ts) = Coordinate d' (Ptr ts') → d = d' ∧ ts = ts'.
Proof.
  intros Hv Hv'. destruct d as [l], d' as [l']. unfold Coordinate. cbn [d_label].
  assert (Hstart : ∀ us, Ptr us = [] ∨ ∃ r, Ptr us = separator :: r) by (intros [|u us]; [by left|right; by apply Ptr_head]).
  assert (Hcut : ∀ m us, (Cut (escaped_document m ++ Ptr us) separator).1.1 = escaped_document m).
  { intros m us. destruct (Hstart us) as [->|[r ->]]; [|by rewrite Cut_found by apply escape_no_separator].
    rewrite app_nil_r. by rewrite Cut_missing by apply escape_no_separator. }
  destruct l as [|c l], l' as [|c' l']; cbn [is_nil]; intros E.
  - split; [done|]. by apply Ptr_inj.
  - by destruct (Hstart ts) as [E'|[r E']]; rewrite E' in E.
  - by destruct (Hstart ts') as [E'|[r E']]; rewrite E' in E.
  - unfold Qualified, qualifier in E. cbn [app list_ascii_of_string] in E. injection E as E.
    pose proof (f_equal (λ s, (Cut s separator).1.1) E) as Ec. cbn beta in Ec. rewrite !Hcut in Ec.
    rewrite Ec in E. apply app_inv_head in E. rewrite !escaped_document_bind in Ec. apply escape_inj in Ec.
    split; [by rewrite Ec|]. by apply Ptr_inj.
Qed.

(** C19: A schema's ID tells apart every two positions of every two documents of a
    compile, the document itself and its member of the empty name aside, which take
    one ID; its coordinate tells apart those too. A component schema's ID is the
    named one exactly when the pointer is [/components/schemas/<name>] with a
    name. *)
Theorem ForPointer_injective d d' ts ts' :
  valid_tokens ts → valid_tokens ts' →
  (ForPointer d (Ptr ts) = ForPointer d' (Ptr ts') ↔ d = d' ∧ (ts = ts' ∨ (at_root ts ∧ at_root ts'))) ∧
  (Coordinate d (Ptr ts) = Coordinate d' (Ptr ts') → d = d' ∧ ts = ts') ∧
  (∀ name, ComponentSchema (Ptr ts) = (name, NamedComponent) ↔
     ts = [go "components"; go "schemas"; name] ∧ name ≠ []) ∧
  (ForPointer d (Ptr ts) = NamedType d (Ptr ts) ↔ ∃ name, name ≠ [] ∧ ts = [go "components"; go "schemas"; name]).
Proof.
  intros Hv Hv'.
  assert (Hc : ∀ name, ComponentSchema (Ptr ts) = (name, NamedComponent) ↔ ts = [go "components"; go "schemas"; name] ∧ name ≠ []).
  { intros name. rewrite ComponentSchema_ptr by done. split.
    - destruct ts as [|root [|kind [|n [|]]]]; try done. case_bool_decide as Hd; [|done]. destruct Hd as [-> ->].
      destruct (is_nil n) eqn:En; [done|]. apply is_nil_false in En. by intros [= <-].
    - intros [-> Hn]. rewrite bool_decide_true by done. apply is_nil_false in Hn. by rewrite Hn. }
  split_and!; [by apply ForPointer_eq|by apply Coordinate_inj|exact Hc|].
  rewrite ForPointer_space. unfold NamedType, TypeID_. split.
  - intros E. pose proof (doc_space_ok d _ (schemaSpace_plain (Ptr ts))) as [H1 H2].
    pose proof (doc_space_ok d _ plain_openapi) as [H3 H4].
    apply idFor_inj in E as [E _]; [|done..]. apply doc_space_inj in E as [_ E]; [|apply schemaSpace_plain|apply plain_openapi].
    unfold schemaSpace in E. destruct (bool_decide _) eqn:Eb; [|done]. apply bool_decide_eq_true in Eb.
    destruct (ComponentSchema (Ptr ts)) as [name st] eqn:Ec. cbn in Eb. subst st.
    destruct (proj1 (Hc name) eq_refl) as [-> Hn]. by exists name.
  - intros (name & Hn & Ets). unfold schemaSpace. rewrite (proj2 (Hc name) (conj Ets Hn)). by rewrite bool_decide_true.
Qed.

Lemma ForPointer_injective_witness :
  let ts := [go "components"; go "schemas"; go "Pet"] in
  valid_tokens ts ∧ ForPointer (In []) (Ptr ts) = go "t/openapi/components/schemas/Pet" ∧
  ForPointer (In []) (Ptr ts) ≠ ForPointer (In (go "other.yaml")) (Ptr ts) ∧
  ForPointer (In (go "pet.yaml")) (Ptr []) = ForPointer (In (go "pet.yaml")) (Ptr [[]]).
Proof.
  cbv zeta. assert (Hv : valid_tokens [go "components"; go "schemas"; go "Pet"]) by (repeat constructor).
  split; [exact Hv|]. split; [vm_compute; reflexivity|]. split.
  - intros E. destruct (ForPointer_injective (In []) (In (go "other.yaml")) _ _ Hv Hv) as [H _].
    apply H in E as [E' _]. discriminate E'.
  - destruct (ForPointer_injective (In (go "pet.yaml")) (In (go "pet.yaml")) [] [[]] ltac:(constructor) ltac:(repeat constructor)) as [H _].
    apply H. split; [reflexivity|]. right. split; [by left|by right].
Defined.

(** On one mount, two parameters have one ID only when they agree on name,
    location and occurrence; in one enum two members only when they agree on key
    and occurrence; counted from one. *)
Theorem Param_injective mount name name' in_ in_' d key key' m n :
  valid_tokens mount → valid_tokens [name; name'; in_; in_'; key; key'] → (1 <= m)%Z → (1 <= n)%Z →
  (Param (Ptr mount) name in_ m = Param (Ptr mount) name' in_' n → name = name' ∧ in_ = in_' ∧ m = n) ∧
  (EnumMember_ d (Ptr mount) key m = EnumMember_ d (Ptr mount) key' n → key = key' ∧ m = n).
Proof.
  intros Hm Hv Hpos Hpos'. repeat (apply Forall_cons in Hv as [? Hv]).
  assert (Hlen : ∀ x, length (number_tokens x) ≤ 1) by (intros x; unfold number_tokens; case_match; simpl; lia).
  pose proof (number_tokens_valid m). pose proof (number_tokens_valid n).
  assert (Hps : ValidString (go "parameters") = true) by done.
  split.
  - unfold Param, ParamPath, ParamID_. rewrite !numbered_ptr, <- !Ptr_app. cbn [app]. intros E.
    apply in_space_inj in E; [|apply plain_openapi|by destruct mount|by destruct mount
      |apply Forall_app; split; [done|by repeat constructor]|apply Forall_app; split; [done|by repeat constructor]].
    apply app_inv_head in E. injection E as -> -> E. apply number_tokens_inj in E; done.
  - unfold EnumMember_, EnumMemberID_. rewrite <- !Ptr_app, !numbered_ptr, <- !app_assoc. cbn [app]. intros E.
    pose proof (doc_space_ok d _ (schemaSpace_plain (Ptr mount))) as [Hsp Hns].
    apply idFor_inj in E as [_ E]; [|done..].
    apply trimmed_inj in E; [|by destruct mount|by destruct mount
      |apply Forall_app; split; [done|by constructor]|apply Forall_app; split; [done|by constructor]].
    apply app_inv_head in E. injection E as -> E. apply number_tokens_inj in E; done.
Qed.

Lemma Param_injective_witness :
  let mount := [go "paths"; go "/a"; go "get"] in
  Param (Ptr mount) (go "id") (go "query") 1 = go "param/openapi/paths/~1a/get/parameters/id/query" ∧
  Param (Ptr mount) (go "id") (go "query") 1 ≠ Param (Ptr mount) (go "id") (go "query") 2.
Proof.
  cbv zeta. split; [vm_compute; reflexivity|]. intros E.
  destruct (Param_injective [go "paths"; go "/a"; go "get"] (go "id") (go "id") (go "query") (go "query") (In [])
    (go "s:a") (go "s:a") 1 2 ltac:(repeat constructor) ltac:(repeat constructor) ltac:(lia) ltac:(lia)) as [H _].
  destruct (H E) as (_ & _ & E'). discriminate E'.
Defined.
