(* ===== verification/Spelling.v ===== *)
(** * The primitive kinds OpenAPI spells

    [src/compilers/openapi/internal/spelling]: the table from a (type, format) key
    to a kind, and how two kinds compare as the types of one field declared twice
    under allOf. The comparison is shown to be the containment of the kinds' value
    sets on numbers, symmetric on every kind, and kept by every row of the
    table. *)
From S2P Require Import Prelude GoLib IR Ids Domain.
Implicit Types (a b k : PrimKind) (key : gostring).

Definition formatTable : gmap gostring PrimKind := list_to_map
  [(go "string", PrimString);
   (go "string/date", PrimDate);
   (go "string/time-local", PrimTime);
   (go "string/duration", PrimDuration);
   (go "string/uuid", PrimUUID);
   (go "string/uri", PrimURL);
   (go "string/date-time", PrimDatetimeOffset);
   (go "string/date-time-local", PrimDatetime);
   (go "string/binary", PrimBytes);
   (go "integer", PrimInteger);
   (go "integer/int8", PrimInt8);
   (go "integer/int16", PrimInt16);
   (go "integer/int32", PrimInt32);
   (go "integer/int64", PrimInt64);
   (go "integer/uint8", PrimUint8);
   (go "integer/uint16", PrimUint16);
   (go "integer/uint32", PrimUint32);
   (go "integer/uint64", PrimUint64);
   (go "number", PrimNumber);
   (go "number/int8", PrimInt8);
   (go "number/int16", PrimInt16);
   (go "number/int32", PrimInt32);
   (go "number/int64", PrimInt64);
   (go "number/uint8", PrimUint8);
   (go "number/uint16", PrimUint16);
   (go "number/uint32", PrimUint32);
   (go "number/uint64", PrimUint64);
   (go "number/float", PrimFloat32);
   (go "number/double", PrimFloat64);
   (go "number/decimal", PrimDecimal);
   (go "number/decimal128", PrimDecimal128);
   (go "boolean", PrimBool)].

Definition Lookup key : option PrimKind := formatTable !! key.

Inductive Relation : Type := Disjoint | Overlap | Same | ANarrower | BNarrower.
#[export] Instance Relation_eq_dec : EqDecision Relation.
Proof. solve_decision. Defined.

(** Some row under [string/] selects the kind, whatever order the table is ranged
    in. *)
Definition refinesString k : bool :=
  existsb (λ row, bool_decide (row.2 = k) && bool_decide (is_Some (CutPrefix row.1 (go "string/")))) (map_to_list formatTable).
Definition narrows (narrow broad : PrimKind) : bool :=
  StrictlyWithin narrow broad || bool_decide (broad = PrimString) && refinesString narrow.
Definition numeric k : bool := bool_decide (k = PrimNumber) || StrictlyWithin k PrimNumber.
Definition bytesAgainstFormat a b : bool :=
  bool_decide (b = PrimBytes) && negb (bool_decide (a = PrimBytes)) && refinesString a.

Definition Relate a b : Relation :=
  if bool_decide (a = b) then Same
  else if narrows a b then ANarrower
  else if narrows b a then BNarrower
  else if numeric a && numeric b || bytesAgainstFormat a b || bytesAgainstFormat b a then Overlap
  else Disjoint.

(** ** The table's kinds *)

Definition flipped (r : Relation) : Relation :=
  match r with ANarrower => BNarrower | BNarrower => ANarrower | r => r end.

(** A (type, format) row and its bare type's. *)
Definition row_narrows (row : gostring * PrimKind) : bool :=
  match Cut row.1 "/" with
  | (_, _, false) => true
  | (typ, _, true) => match Lookup typ with Some bare => narrows row.2 bare | None => false end
  end.

Lemma StrictlyWithin_decides a b : Domain.numeric a → Domain.numeric b →
  StrictlyWithin a b = true ↔ a ≠ b ∧ within_domain a b.
Proof.
  intros Ha Hb. split; [by apply StrictlyWithin_sound|]. intros [Hne Hw].
  pose proof (proj1 (Forall_forall _ _) (proj1 (Forall_forall _ _) refused_separated a Ha) b Hb) as Hr.
  simpl in Hr. unfold at_or_above in Hr. rewrite bool_decide_eq_false_2 in Hr by done.
  apply orb_true_iff in Hr as [Hr|Hr]; [done|]. by apply (separated_sound a b) in Hr.
Qed.

(** No numeric kind is a string's format, and each is numeric here too. *)
Lemma numeric_table : Forall (λ k, refinesString k = false ∧ k ≠ PrimString ∧ k ≠ PrimBytes ∧ numeric k = true)
  numeric_domains.*1.
Proof. apply (proj1 (bool_decide_eq_true _)). vm_compute. reflexivity. Qed.

Lemma numeric_kind k : Domain.numeric k →
  refinesString k = false ∧ k ≠ PrimString ∧ k ≠ PrimBytes ∧ numeric k = true.
Proof. intros Hk. pose proof numeric_table as H. rewrite Forall_forall in H. by apply H. Qed.

Lemma narrows_numeric a b : Domain.numeric a → Domain.numeric b → narrows a b = true ↔ a ≠ b ∧ within_domain a b.
Proof.
  intros Ha Hb. unfold narrows. destruct (numeric_kind b Hb) as (_ & Hs & _). rewrite (bool_decide_false (b = _)) by done.
  rewrite orb_false_r. by apply StrictlyWithin_decides.
Qed.

(** Zero is a value of every numeric kind. *)
Lemma zero_in_domain k : Domain.numeric k → in_domain k 0.
Proof.
  assert (H : Forall (λ p : PrimKind * (Q → Prop), p.2 0%Q) numeric_domains).
  { unfold numeric_domains. repeat constructor; cbn [snd].
    all: try (exists 0%Z; split; [lia|reflexivity]); try (exists 0%Z; reflexivity).
    all: try (exists 0%Z, 0%Z; split_and!; [lia..|reflexivity]); exists 0%Z, 0%Z; reflexivity. }
  unfold Domain.numeric, in_domain. intros Hk. induction H as [|[k' D] l HD _ IH]; [by apply elem_of_nil in Hk|].
  cbn [find_domain fmap list_fmap] in *. case_bool_decide as Hkk; [exact HD|].
  apply elem_of_cons in Hk as [?|Hk]; [done|]. by apply IH.
Qed.

(** No kind is both narrower and broader than another. *)
Lemma narrows_table : Forall (λ a, Forall (λ b,
    negb (narrows a b && narrows b a) || bool_decide (a = b) = true) declared_kinds) declared_kinds.
Proof. apply (proj1 (bool_decide_eq_true _)). vm_compute. reflexivity. Qed.

Lemma spelled_declared : forallb (λ row, bool_decide (row.2 ∈ declared_kinds)) (map_to_list formatTable) = true.
Proof. vm_compute. reflexivity. Qed.

#[local] Opaque formatTable.

Lemma narrows_declared a b : narrows a b = true → a ∈ declared_kinds ∧ b ∈ declared_kinds.
Proof.
  unfold narrows. rewrite orb_true_iff, andb_true_iff, bool_decide_eq_true. intros [H|[-> H]]; [by apply StrictlyWithin_valid|].
  split; [|apply (proj1 (bool_decide_eq_true _)); vm_compute; reflexivity].
  unfold refinesString in H. rewrite existsb_exists in H. destruct H as (row & Hin & H).
  rewrite andb_true_iff, bool_decide_eq_true in H. destruct H as [Hk _].
  pose proof spelled_declared as Hall. rewrite forallb_forall in Hall. specialize (Hall row Hin). cbv beta in Hall.
  rewrite bool_decide_eq_true in Hall. by rewrite <- Hk.
Qed.

Lemma narrows_asym a b : a ≠ b → narrows a b = true → narrows b a = false.
Proof.
  intros Hne H. destruct (narrows_declared a b H) as [Ha Hb].
  pose proof narrows_table as Ht. rewrite Forall_forall in Ht. specialize (Ht a Ha). rewrite Forall_forall in Ht.
  specialize (Ht b Hb). cbv beta in Ht. rewrite (bool_decide_false (a = b)), orb_false_r, H in Ht by done.
  by apply negb_true_iff in Ht.
Qed.

Lemma Relate_flipped a b : Relate b a = flipped (Relate a b).
Proof.
  unfold Relate. destruct (decide (a = b)) as [->|Hne]; [by rewrite !bool_decide_true|].
  rewrite !bool_decide_false by congruence.
  destruct (narrows a b) eqn:Hab; [by rewrite (narrows_asym a b)|]. destruct (narrows b a); [done|].
  replace (numeric b && numeric a || bytesAgainstFormat b a || bytesAgainstFormat a b)
    with (numeric a && numeric b || bytesAgainstFormat a b || bytesAgainstFormat b a); [by case_match|].
  destruct (numeric a), (numeric b), (bytesAgainstFormat a b), (bytesAgainstFormat b a); done.
Qed.

Lemma rows_narrow : forallb row_narrows (map_to_list formatTable) = true.
Proof. vm_compute. reflexivity. Qed.

(** Two numeric kinds compare as their value sets do: the first is narrower
    exactly when they differ and its values are all the other's, and where neither
    holds the other they share a value and are never called disjoint. The relation
    read from the other side is the same one, whatever the kinds, and every
    (type, format) row narrows its bare type. *)
Theorem Relate_exact a b :
  (Domain.numeric a → Domain.numeric b →
    (Relate a b = ANarrower ↔ a ≠ b ∧ within_domain a b) ∧
    (Relate a b = Overlap ↔ ¬ within_domain a b ∧ ¬ within_domain b a) ∧
    Relate a b ≠ Disjoint ∧ ∃ q, in_domain a q ∧ in_domain b q) ∧
  Relate b a = flipped (Relate a b) ∧
  (∀ typ format k, Lookup (typ ++ "/"%char :: format) = Some k → "/"%char ∉ typ →
    ∃ bare, Lookup typ = Some bare ∧ narrows k bare = true).
Proof.
  split_and!; [|apply Relate_flipped|].
  - intros Ha Hb. pose proof (narrows_numeric a b Ha Hb) as Hn1. pose proof (narrows_numeric b a Hb Ha) as Hn2.
    destruct (numeric_kind a Ha) as (_ & _ & _ & Na), (numeric_kind b Hb) as (_ & _ & _ & Nb).
    assert (Hsame : within_domain a a) by by intros q.
    unfold Relate. rewrite Na, Nb. cbn [andb orb].
    destruct (decide (a = b)) as [<-|Hne].
    { rewrite bool_decide_true by done. split_and!; [naive_solver..|]. exists 0%Q. by split; apply zero_in_domain. }
    rewrite bool_decide_false by done. assert (Hne' : b ≠ a) by congruence.
    destruct (narrows a b) eqn:E1, (narrows b a) eqn:E2;
      (split_and!; [| | |exists 0%Q; by split; apply zero_in_domain]); naive_solver.
  - intros typ format k Hk Ht. pose proof (proj1 (forallb_forall _ _) rows_narrow (typ ++ "/"%char :: format, k)) as Hr.
    unfold row_narrows in Hr. cbn [fst snd] in Hr. rewrite (Cut_found typ format "/" Ht) in Hr.
    specialize (Hr (proj1 (list_elem_of_In _ _) (proj2 (elem_of_map_to_list _ _ _) Hk))).
    destruct (Lookup typ) as [bare|]; [by exists bare|done].
Qed.

Lemma Relate_exact_witness : Relate PrimInt32 PrimFloat64 = ANarrower ∧ within_domain PrimInt32 PrimFloat64.
Proof.
  assert (Hi : Domain.numeric PrimInt32) by (refine (proj1 (bool_decide_eq_true _) _); reflexivity).
  assert (Hf : Domain.numeric PrimFloat64) by (refine (proj1 (bool_decide_eq_true _) _); reflexivity).
  assert (E : Relate PrimInt32 PrimFloat64 = ANarrower) by (vm_compute; reflexivity).
  split; [exact E|]. destruct (Relate_exact PrimInt32 PrimFloat64) as [H _]. apply (H Hi Hf). exact E.
Defined.
