(* ===== verification/Formats.v ===== *)
(** * String formats and the values of a primitive kind

    [formats.go] and [admits.go] of [src/compilers/openapi/internal/merge]. What
    the code reads of [time.Parse] and [strconv.ParseFloat] is written out below
    as the standard library documents it: a layout is the list of elements it
    names, and a float of a width overflows at the midpoint past its largest
    value. [url.Parse] is the parameter [url_Parse], which answers the scheme. *)
From S2P Require Import Prelude GoLib Decimal BigVal Value IR.
Implicit Types (c : ascii) (s rest : gostring).

(** ** Characters *)

Definition between (lo hi c : ascii) : bool := (code lo <=? code c)%Z && (code c <=? code hi)%Z.
Definition isLetter c : bool := between "a" "z" c || between "A" "Z" c.
Definition isDigit c : bool := between "0" "9" c.
Definition isHex c : bool := isDigit c || between "a" "f" c || between "A" "F" c.

(** [strings.IndexByte(set, c) >= 0]. *)
Definition one_of (set : gostring) c : bool := bool_decide (c ∈ set).
(** The index of the first byte that [p] takes, or the length. *)
Fixpoint index_where (p : ascii → bool) s : nat :=
  match s with [] => 0 | c :: s => if p c then 0 else S (index_where p s) end.
Definition count_byte c s : nat := length (filter (.= c) s).
Definition HasPrefix s prefix : bool := bool_decide (take (length prefix) s = prefix).

(** ** URIs *)

(** [strings.LastIndexByte] and what follows it. *)
Definition after_last c s : gostring := reverse (take (index_where (λ d, bool_decide (d = c)) (reverse s)) (reverse s)).

Definition ipLiteralPlaced (authority : gostring) : bool :=
  if negb (existsb (one_of (go "[]")) authority) then true
  else
    let host := after_last "@" (drop 2 authority) in
    let end_ := index_where (λ c, bool_decide (c = "]"%char)) host in
    HasPrefix host (go "[") && (0 <? end_) && (end_ <? length host) &&
    (count_byte "[" authority =? 1) && (count_byte "]" authority =? 1) &&
    ((end_ =? length host - 1) || bool_decide (host !! S end_ = Some ":"%char)).

Definition authority_end rest : nat :=
  if HasPrefix rest (go "//") then 2 + index_where (one_of (go "/?#")) (drop 2 rest ++ go "/") else 0.

(** The loop of [uriTailValid], at index [i]. *)
Fixpoint uri_tail (authorityEnd : nat) s (i fragments : nat) : bool :=
  match s with
  | [] => true
  | c :: s =>
    if bool_decide (c = "%"%char) then
      match s with
      | h :: l :: s => isHex h && isHex l && uri_tail authorityEnd s (3 + i) fragments
      | _ => false
      end
    else if one_of (go "[]") c then (i <? authorityEnd) && uri_tail authorityEnd s (S i) fragments
    else if bool_decide (c = "#"%char) then (S fragments <=? 1) && uri_tail authorityEnd s (S i) (S fragments)
    else (isLetter c || isDigit c || one_of (go "-._~:/?@!$&'()*+,;=") c) && uri_tail authorityEnd s (S i) fragments
  end.

Definition uriTailValid rest : bool :=
  let authorityEnd := authority_end rest in
  if negb (ipLiteralPlaced (take authorityEnd rest)) || (1 <? count_byte "@" (take authorityEnd rest)) then false
  else uri_tail authorityEnd rest 0 0.

Definition uriBytesValid s : bool :=
  match s with
  | [] => false
  | c :: s' =>
    if negb (isLetter c) then false
    else
      let i := 1 + index_where (λ c, negb (isLetter c || isDigit c || one_of (go "+-.") c)) s' in
      if negb (bool_decide (s !! i = Some ":"%char)) then false else uriTailValid (drop (S i) s)
  end.

(** ** Times, as [time.Parse] reads the layouts used *)

Inductive chunk : Type := Year4 | Month2 | Day2 | Hour2 | Minute2 | Second2 | ColonTZ | Lit (c : ascii).

Record clock : Type := mkClock {
  t_year : Z; t_month : Z; t_day : Z; t_hour : Z; t_minute : Z; t_second : Z; t_offset : Z }.

(** [getnum]: two digits, or one where the element is not of fixed width. *)
Definition getnum s (fixed : bool) : option (Z * gostring) :=
  match s with
  | a :: b :: s' =>
    if negb (isDigit a) then None
    else if isDigit b then Some (digit_value a * 10 + digit_value b, s')%Z
    else if fixed then None else Some (digit_value a, b :: s')
  | [a] => if isDigit a && negb fixed then Some (digit_value a, []) else None
  | [] => None
  end.

Definition isLeap (year : Z) : bool :=
  (year mod 4 =? 0)%Z && (negb (year mod 100 =? 0)%Z || (year mod 400 =? 0)%Z).
Definition daysIn (month year : Z) : Z :=
  if (month =? 2)%Z then if isLeap year then 29 else 28
  else if bool_decide (month ∈ [4; 6; 9; 11]%Z) then 30 else 31.

(** A fraction the layout does not name, after the seconds. *)
Definition skip_fraction s : gostring :=
  match s with
  | p :: d :: s' =>
    if one_of (go ".,") p && isDigit d then drop (index_where (λ c, negb (isDigit c)) s') s' else s
  | _ => s
  end.

Definition read_zone s : option (Z * gostring) :=
  match s with
  | "Z"%char :: s => Some (0%Z, s)
  | sign :: h1 :: h2 :: colon :: m1 :: m2 :: s =>
    if negb (bool_decide (colon = ":"%char)) then None
    else
      match getnum [h1; h2] true, getnum [m1; m2] true with
      | Some (h, _), Some (m, _) =>
        if (24 <? h)%Z || (60 <? m)%Z then None
        else if bool_decide (sign = "+"%char) then Some ((h * 60 + m)%Z, s)
        else if bool_decide (sign = "-"%char) then Some ((- (h * 60 + m))%Z, s) else None
      | _, _ => None
      end
  | _ => None
  end.

Definition ranged (lo hi : Z) (r : option (Z * gostring)) : option (Z * gostring) :=
  '(n, s) ← r; if (lo <=? n)%Z && (n <=? hi)%Z then Some (n, s) else None.

Definition read_chunk (e : chunk) (t : clock) s : option (clock * gostring) :=
  let '(mkClock y mo d h mi se z) := t in
  match e with
  | Lit c => match s with c' :: s => if bool_decide (c = c') then Some (t, s) else None | [] => None end
  | Year4 =>
    if (length s <? 4) || negb (forallb isDigit (take 4 s)) then None
    else Some (mkClock (digits_value (take 4 s)) mo d h mi se z, drop 4 s)
  | Month2 => '(n, s) ← ranged 1 12 (getnum s true); Some (mkClock y n d h mi se z, s)
  | Day2 => '(n, s) ← getnum s true; Some (mkClock y mo n h mi se z, s)
  | Hour2 => '(n, s) ← ranged 0 23 (getnum s false); Some (mkClock y mo d n mi se z, s)
  | Minute2 => '(n, s) ← ranged 0 59 (getnum s true); Some (mkClock y mo d h n se z, s)
  | Second2 => '(n, s) ← ranged 0 59 (getnum s true); Some (mkClock y mo d h mi n z, skip_fraction s)
  | ColonTZ => '(n, s) ← read_zone s; Some (mkClock y mo d h mi se n, s)
  end.

Fixpoint read_chunks (layout : list chunk) (t : clock) s : option (clock * gostring) :=
  match layout with
  | [] => Some (t, s)
  | e :: layout => '(t, s) ← read_chunk e t s; read_chunks layout t s
  end.

Definition time_Parse (layout : list chunk) s : option clock :=
  '(t, s) ← read_chunks layout (mkClock 0 1 1 0 0 0 0) s;
  if negb (is_nil s) || (t_day t <? 1)%Z || (daysIn (t_month t) (t_year t) <? t_day t)%Z then None else Some t.

Definition date_layout : list chunk := [Year4; Lit "-"; Month2; Lit "-"; Day2].
Definition clock_layout : list chunk := [Hour2; Lit ":"; Minute2; Lit ":"; Second2].

Definition parses (layout : list chunk) s : bool := match time_Parse layout s with Some _ => true | None => false end.

(** The hour and minute of a time in UTC are 23:59. *)
Definition utc_2359 (t : clock) : bool := ((t_hour t * 60 + t_minute t - t_offset t) mod 1440 =? 1439)%Z.

(** ** RFC 3339 *)

Inductive rfc3339Form : Type := partialTime | fullTime | localDateTime | dateTime.
#[export] Instance rfc3339Form_eq_dec : EqDecision rfc3339Form.
Proof. solve_decision. Defined.

Definition twoDigits s : option Z :=
  match s with
  | a :: b :: _ => if isDigit a && isDigit b then Some (digit_value a * 10 + digit_value b)%Z else None
  | _ => None
  end.

Definition isOffset s : bool :=
  if bool_decide (s = go "Z") || bool_decide (s = go "z") then true
  else if negb (length s =? 6) || negb (bool_decide (s !! 0 = Some "+"%char) || bool_decide (s !! 0 = Some "-"%char))
          || negb (bool_decide (s !! 3 = Some ":"%char)) then false
  else match twoDigits (slice s 1 3), twoDigits (slice s 4 6) with
       | Some hour, Some minute => (hour <=? 23)%Z && (minute <=? 59)%Z
       | _, _ => false
       end.

Definition digit_at s (i : nat) : bool := match s !! i with Some c => isDigit c | None => false end.

Definition clockShape s (offset : bool) : bool :=
  if (length s <? 8) || negb (bool_decide (s !! 2 = Some ":"%char)) || negb (bool_decide (s !! 5 = Some ":"%char)) then false
  else if negb (forallb (digit_at s) [0; 1; 3; 4; 6; 7]) then false
  else
    let rest := drop 8 s in
    let '(rest, bad) :=
      if HasPrefix rest (go ".")
      then let end_ := 1 + index_where (λ c, negb (isDigit c)) (drop 1 rest) in (drop end_ rest, end_ =? 1)
      else (rest, false) in
    if bad : bool then false else if offset then isOffset rest else is_nil rest.

(** The separator and offset in upper case, and a leap second read as the second
    before it. *)
Definition upper_T s : gostring := take 10 s ++ "T"%char :: drop 11 s.
Definition upper_Z s : gostring :=
  if bool_decide (last s = Some "z"%char) then take (length s - 1) s ++ go "Z" else s.

Definition parsesRFC3339 s (form : rfc3339Form) : bool :=
  let dated := bool_decide (form = localDateTime) || bool_decide (form = dateTime) in
  let offset := bool_decide (form = fullTime) || bool_decide (form = dateTime) in
  if dated && ((length s <? 11) || negb (bool_decide (s !! 10 = Some "T"%char) || bool_decide (s !! 10 = Some "t"%char)))
  then false
  else
    let clock := if dated then drop 11 s else s in
    let s := if dated then upper_T s else s in
    if negb (clockShape clock offset) then false
    else
      let layout := (if dated then date_layout ++ [Lit "T"] else []) ++ clock_layout in
      let layout := if offset then layout ++ [ColonTZ] else layout in
      let s := if offset then upper_Z s else s in
      let sec := length s - length clock + 6 in
      let leap := bool_decide (slice s sec (sec + 2) = go "60") in
      let s := if leap then take sec s ++ go "59" ++ drop (sec + 2) s else s in
      match time_Parse layout s with
      | None => false
      | Some t => negb leap || negb offset || utc_2359 t
      end.

(** ** UUIDs and durations *)

Definition uuidLength : nat := 36.
Definition isUUID s : bool :=
  (length s =? uuidLength) &&
  forallb id (imap (λ i c, if bool_decide (i ∈ [8; 13; 18; 23]) then bool_decide (c = "-"%char) else isHex c) s).

Definition isDigitRun s : bool := negb (is_nil s) && forallb isDigit s.

(** [next] is how far into [order] the run has come; a designator consumes at
    least itself, so the length of the text is fuel enough. *)
Fixpoint designators (fuel : nat) s (order : gostring) (next : nat) : bool :=
  match fuel, s with
  | _, [] => true
  | O, _ => false
  | S fuel, _ =>
    let end_ := index_where (λ c, negb (isDigit c)) s in
    match drop end_ s with
    | [] => false
    | d :: rest =>
      if end_ =? 0 then false
      else
        let at_ := index_where (λ c, bool_decide (c = d)) (drop next order) in
        if (length (drop next order) <=? at_) || (0 <? next) && negb (at_ =? 0) then false
        else designators fuel rest order (next + at_ + 1)
    end
  end.
Definition consecutiveDesignators s (order : gostring) : bool := designators (length s) s order 0.

Definition isDuration s : bool :=
  match CutPrefix s (go "P") with
  | None | Some [] => false
  | Some rest =>
    if bool_decide (last rest = Some "W"%char) then isDigitRun (take (length rest - 1) rest)
    else
      let '(datePart, timePart, hasTime) := Cut rest "T" in
      if hasTime && is_nil timePart || negb hasTime && is_nil datePart then false
      else consecutiveDesignators datePart (go "YMD") && consecutiveDesignators timePart (go "HMS")
  end.

(** ** Floats of a width *)

(** The largest value of a binary float of [bits] and half a unit past it, where
    rounding to nearest overflows. *)
Definition float_overflow (bits : Z) : Z :=
  if (bits =? 32)%Z then 2 ^ 128 - 2 ^ 103 else 2 ^ 1024 - 2 ^ 970.

(** Whether [strconv.ParseFloat] reads a decimal without a range error. *)
Definition ParseFloat_ok (d : Decimal) (bits : Z) : bool :=
  match ParseDecimal (FormatInt (float_overflow bits)), ParseDecimal (FormatInt (- float_overflow bits)) with
  | Ok hi, Ok lo => (Cmp d hi <? 0)%Z && (0 <? Cmp d lo)%Z
  | _, _ => false
  end.

Definition float32Bits : Z := 32.
Definition float64Bits : Z := 64.
Definition admitsFloat (v : Value) (bits : Z) : bool :=
  match decimalOf v with None => false | Some d => ParseFloat_ok d bits end.

(** ** Values of a kind *)

Definition int8Min := go "-128".
Definition int8Max := go "127".
Definition int16Min := go "-32768".
Definition int16Max := go "32767".
Definition int32Min := go "-2147483648".
Definition int32Max := go "2147483647".
Definition int64Min := go "-9223372036854775808".
Definition int64Max := go "9223372036854775807".
Definition uint8Max := go "255".
Definition uint16Max := go "65535".
Definition uint32Max := go "4294967295".
Definition uint64Max := go "18446744073709551615".

Section Admits.
Context (url_Parse : gostring → option gostring).

Definition isAbsoluteURI s : bool :=
  uriBytesValid s && match url_Parse s with Some scheme => negb (is_nil scheme) | None => false end.

(** The grammars of the kinds whose values are strings. *)
Definition string_kinds : list (PrimKind * (gostring → bool)) := [
  (PrimString, λ _, true);
  (PrimDate, parses date_layout);
  (PrimTime, λ s, parsesRFC3339 s partialTime);
  (PrimDatetime, λ s, parsesRFC3339 s localDateTime);
  (PrimDatetimeOffset, λ s, parsesRFC3339 s dateTime);
  (PrimUUID, isUUID);
  (PrimURL, isAbsoluteURI);
  (PrimDuration, isDuration)].

(** The judges of the kinds whose values are numbers. *)
Definition number_kinds : list (PrimKind * (Value → bool)) := [
  (PrimInt8, λ v, inRange v int8Min int8Max); (PrimInt16, λ v, inRange v int16Min int16Max);
  (PrimInt32, λ v, inRange v int32Min int32Max); (PrimInt64, λ v, inRange v int64Min int64Max);
  (PrimUint8, λ v, inRange v (go "0") uint8Max); (PrimUint16, λ v, inRange v (go "0") uint16Max);
  (PrimUint32, λ v, inRange v (go "0") uint32Max); (PrimUint64, λ v, inRange v (go "0") uint64Max);
  (PrimInteger, λ v, match decimalOf v with Some d => IsInt d | None => false end);
  (PrimNumber, λ v, match decimalOf v with Some _ => true | None => false end);
  (PrimFloat, λ v, match decimalOf v with Some _ => true | None => false end);
  (PrimDecimal, λ v, match decimalOf v with Some _ => true | None => false end);
  (PrimDecimal128, admitsDecimal128);
  (PrimFloat32, λ v, admitsFloat v float32Bits); (PrimFloat64, λ v, admitsFloat v float64Bits)].

Fixpoint case_of {A} (cases : list (PrimKind * A)) (k : PrimKind) : option A :=
  match cases with
  | [] => None
  | (k', x) :: cases => if bool_decide (k = k') then Some x else case_of cases k
  end.

Definition Admits (k : PrimKind) (v : Value) : bool :=
  if bool_decide (k = PrimAny) then true
  else if bool_decide (k = PrimBool) then bool_decide (Kind v = ValueBool)
  else match case_of string_kinds k with
       | Some grammar => bool_decide (Kind v = ValueString) && grammar (Str v)
       | None => match case_of number_kinds k with Some judge => judge v | None => false end
       end.

Definition admitsFormat (format : gostring) (v : Value) : bool * bool :=
  if bool_decide (format = go "time")
  then (bool_decide (Kind v = ValueString) && parsesRFC3339 (Str v) fullTime, true)
  else (false, false).
End Admits.

Example formats_ex :
  (parses date_layout (go "2024-02-29"), parses date_layout (go "2023-02-29"),
   parsesRFC3339 (go "23:59:60.5") partialTime, parsesRFC3339 (go "2016-12-31t18:59:60-05:00") dateTime,
   parsesRFC3339 (go "2016-12-31T18:59:60Z") dateTime, parsesRFC3339 (go "10:00:00z") fullTime) =
  (true, false, true, true, false, true).
Proof. vm_compute. reflexivity. Qed.
Example forms_ex :
  (isDuration (go "P1Y2M3DT4H5M6S"), isDuration (go "P1YT"), isDuration (go "P1Y1D"), isDuration (go "P3W"),
   isUUID (go "123e4567-e89b-12d3-a456-426614174000"), uriBytesValid (go "http://u@[::1]:80/a?b#c%20"), uriBytesValid (go "http://[::1"))
  = (true, false, false, true, true, true, false).
Proof. vm_compute. reflexivity. Qed.
Example floats_ex :
  (Admits (λ _, None) PrimFloat32 (number_value (go "3.4028235677973367e38")),
   Admits (λ _, None) PrimFloat32 (number_value (go "3.4028235677973365e38")),
   Admits (λ _, None) PrimFloat64 (number_value (go "1e400"))) = (false, true, false).
Proof. vm_compute. reflexivity. Qed.
