(* ===== verification/FormatsSound.v ===== *)
(** * How two kinds relate is how their values do

    [spelling.Relate] reads a table; [merge.Admits] judges a value. Kinds the table
    calls disjoint share no value, and every value of a kind it calls narrower is
    one of the broader's. *)
From S2P Require Import Prelude GoLib Decimal DecimalValue DecimalOrder BigVal Multiple Constraints Value IR Domain ConstraintsFold.
From S2P Require Import Ids Spelling Formats.
Implicit Types (s : gostring) (c : ascii) (a b k : PrimKind) (v : Value) (d : Decimal).

(** ** Numbers *)

Lemma decimalOf_wf v d : fits (Num v) → decimalOf v = Some d → wf d ∧ Kind v = ValueNumber.
Proof.
  intros Hf. unfold decimalOf. destruct (decide (Kind v = ValueNumber)); [|done].
  destruct (BigVal_Decimal (Num v)) eqn:E; [|done]. intros [= <-].
  by destruct (ParseDecimal_small _ _ Hf E).
Qed.

(** A literal the code compares with, as the integer it spells. *)
Definition spells (s : gostring) (z : Z) : Prop := ∃ d, ParseDecimal s = Ok d ∧ wf d ∧ (value d == inject_Z z)%Q.

Lemma spells_by s z d : fits s → ParseDecimal s = Ok d → (value d == inject_Z z)%Q → spells s z.
Proof. intros Hf Hp Hv. exists d. by destruct (ParseDecimal_small _ _ Hf Hp). Qed.

Ltac spell := eapply spells_by; [vm_compute; reflexivity|vm_compute; reflexivity|vm_compute; reflexivity].

Lemma Cmp_spelled d s z : wf d → spells s z → ∃ e, ParseDecimal s = Ok e ∧
  ((0 <=? Cmp d e) = true ↔ (inject_Z z <= value d)%Q)%Z ∧ ((Cmp d e <=? 0) = true ↔ (value d <= inject_Z z)%Q)%Z ∧
  ((Cmp d e <? 0) = true ↔ (value d < inject_Z z)%Q)%Z ∧ ((0 <? Cmp d e) = true ↔ (inject_Z z < value d)%Q)%Z.
Proof.
  intros Hd (e & Hp & He & Hz). exists e. split; [done|]. rewrite Cmp_value by done.
  rewrite !Z.leb_le, !Z.ltb_lt, order_ge_iff, order_le_iff, order_lt_iff, order_gt_iff. rewrite Hz. done.
Qed.

Lemma inRange_iff v lo hi l h : fits (Num v) → spells lo l → spells hi h →
  inRange v lo hi = true ↔ ∃ d, decimalOf v = Some d ∧ IsInt d = true ∧ (inject_Z l <= value d <= inject_Z h)%Q.
Proof.
  intros Hf Hl Hh. unfold inRange, BigVal_Decimal. destruct (decimalOf v) as [d|] eqn:Ed; [|split; [done|by intros (? & ? & _)]].
  destruct (decimalOf_wf _ _ Hf Ed) as [Hd _].
  destruct (Cmp_spelled d lo l Hd Hl) as (el & -> & H1 & _), (Cmp_spelled d hi h Hd Hh) as (eh & -> & _ & H2 & _).
  rewrite !andb_true_iff, H1, H2. split.
  - intros [[Hi ?] ?]. by exists d.
  - intros (d' & [= <-] & ? & ? & ?). done.
Qed.

Lemma ParseFloat_iff d bits : wf d → spells (FormatInt (float_overflow bits)) (float_overflow bits) →
  spells (FormatInt (- float_overflow bits)) (- float_overflow bits) →
  ParseFloat_ok d bits = true ↔ (inject_Z (- float_overflow bits) < value d < inject_Z (float_overflow bits))%Q.
Proof.
  intros Hd Hh Hl. unfold ParseFloat_ok.
  destruct (Cmp_spelled d _ _ Hd Hh) as (eh & -> & _ & _ & H1 & _), (Cmp_spelled d _ _ Hd Hl) as (el & -> & _ & _ & _ & H2).
  rewrite andb_true_iff, H1, H2. tauto.
Qed.

(** The ends of each width. *)
Definition int_ranges : list (PrimKind * (gostring * gostring * Z * Z)) := [
  (PrimInt8, (int8Min, int8Max, - 2 ^ 7, 2 ^ 7 - 1)); (PrimInt16, (int16Min, int16Max, - 2 ^ 15, 2 ^ 15 - 1));
  (PrimInt32, (int32Min, int32Max, - 2 ^ 31, 2 ^ 31 - 1)); (PrimInt64, (int64Min, int64Max, - 2 ^ 63, 2 ^ 63 - 1));
  (PrimUint8, (go "0", uint8Max, 0, 2 ^ 8 - 1)); (PrimUint16, (go "0", uint16Max, 0, 2 ^ 16 - 1));
  (PrimUint32, (go "0", uint32Max, 0, 2 ^ 32 - 1)); (PrimUint64, (go "0", uint64Max, 0, 2 ^ 64 - 1))]%Z.

Lemma int_ranges_spelled : Forall (λ r, let '(lo, hi, l, h) := r.2 in spells lo l ∧ spells hi h) int_ranges.
Proof. repeat (constructor; [split; spell|]). constructor. Qed.

Lemma floats_spelled : Forall (λ bits, spells (FormatInt (float_overflow bits)) (float_overflow bits) ∧
  spells (FormatInt (- float_overflow bits)) (- float_overflow bits)) [float32Bits; float64Bits].
Proof. repeat (constructor; [split; spell|]). constructor. Qed.

Section Kinds.
Context (url_Parse : gostring → option gostring).
#[local] Abbreviation Admits := (Admits url_Parse).

Lemma Admits_int v k lo hi l h : fits (Num v) → (k, (lo, hi, l, h)) ∈ int_ranges →
  Admits k v = true ↔ ∃ d, decimalOf v = Some d ∧ IsInt d = true ∧ (inject_Z l <= value d <= inject_Z h)%Q.
Proof.
  intros Hf Hk. pose proof (proj1 (Forall_forall _ _) int_ranges_spelled _ Hk) as [Hl Hh].
  rewrite <- (inRange_iff v lo hi l h Hf Hl Hh).
  assert (E : Admits k v = inRange v lo hi); [|by rewrite E].
  clear Hl Hh. repeat (apply elem_of_cons in Hk as [[= -> -> -> -> ->]|Hk]; [reflexivity|]). by apply elem_of_nil in Hk.
Qed.

Lemma Admits_float v k bits : fits (Num v) → (k, bits) ∈ [(PrimFloat32, float32Bits); (PrimFloat64, float64Bits)] →
  Admits k v = true ↔ ∃ d, decimalOf v = Some d ∧ (inject_Z (- float_overflow bits) < value d < inject_Z (float_overflow bits))%Q.
Proof.
  intros Hf Hk. assert (Hb : bits ∈ [float32Bits; float64Bits] ∧ Admits k v = admitsFloat v bits).
  { repeat (apply elem_of_cons in Hk as [[= -> ->]|Hk]; [split; [set_solver|reflexivity]|]). by apply elem_of_nil in Hk. }
  destruct Hb as [Hb ->]. destruct (proj1 (Forall_forall _ _) floats_spelled _ Hb) as [Hl Hh].
  unfold admitsFloat. destruct (decimalOf v) as [d|] eqn:Ed; [|split; [done|by intros (? & ? & _)]].
  destruct (decimalOf_wf _ _ Hf Ed) as [Hd _]. rewrite ParseFloat_iff by done.
  split; [by exists d|by intros (? & [= <-] & ?)].
Qed.

Definition numbers : list PrimKind := number_kinds.*1.

Lemma Admits_number v k : k ∈ numbers → Admits k v = true → ∃ d, decimalOf v = Some d.
Proof.
  intros Hk H. destruct (decimalOf v) as [d|] eqn:E; [by exists d|]. exfalso. revert H.
  cbv [numbers number_kinds fmap list_fmap fst] in Hk. repeat (apply elem_of_cons in Hk as [->|Hk];
    [lazy -[decimalOf inRange admitsDecimal128 admitsFloat IsInt]; unfold inRange, admitsDecimal128, admitsFloat; rewrite E; discriminate|]).
  by apply elem_of_nil in Hk.
Qed.

Lemma Admits_any_number v k : k ∈ [PrimNumber; PrimFloat; PrimDecimal] → (∃ d, decimalOf v = Some d) → Admits k v = true.
Proof.
  intros Hk [d E]. repeat (apply elem_of_cons in Hk as [->|Hk]; [lazy -[decimalOf]; by rewrite E|]). by apply elem_of_nil in Hk.
Qed.

(** An integer of twenty digits is a decimal128. *)
Lemma decimal128_int v d : wf d → decimalOf v = Some d → IsInt d = true → (Qabs (value d) <= inject_Z (10 ^ 20))%Q →
  admitsDecimal128 v = true.
Proof.
  intros Hd E Hi Hb. unfold admitsDecimal128. rewrite E. destruct (Z.eqb_spec (Sign d) 0) as [|Hs]; [done|].
  assert (Hne : digits d ≠ []) by (intros Hn; apply Hs; unfold Sign; by rewrite Hn).
  unfold IsInt in Hi. rewrite (proj2 (is_empty_false _) Hne) in Hi. cbn [orb] in Hi. apply Z.leb_le in Hi.
  destruct (magnitude_bounds 0 d Hd Hne) as [[Hlow _] _]; [unfold lowest; lia|]. rewrite !Z.sub_0_r in Hlow.
  assert (Hexp : (exp d <= 20)%Z).
  { destruct (Z.le_gt_cases (exp d) 20) as [|Hgt]; [done|exfalso].
    assert (H10 : (10 ^ 21 <= 10 ^ exp d)%Z) by (apply Z.pow_le_mono_r; lia).
    rewrite (value_units 0) in Hb by (unfold lowest; lia). change (pow10 0) with 1%Q in Hb. rewrite Qmult_1_r in Hb.
    assert (Hb' : (Z.abs (units 0 d) <= 10 ^ 20)%Z) by (rewrite Zle_Qle; exact Hb).
    rewrite units_neg, Z.sub_0_r in Hb'. unfold sign_of in Hb'.
    assert (10 ^ 20 < 10 ^ 21)%Z by (apply Z.pow_lt_mono_r; lia). destruct (neg d); lia. }
  unfold Digits, Exponent, decimal128Digits, decimal128MaxMsdExp, decimal128MinLowExp.
  rewrite i64_id by (unfold in_i64, i64_min, i64_max; lia). rewrite !andb_true_iff, !Z.leb_le. lia.
Qed.

(** ** Narrower kinds of numbers *)

Definition included a b : Prop := ∀ v, fits (Num v) → Admits a v = true → Admits b v = true.

Lemma included_ints a b la ha l h lb hb l' h' : (a, (la, ha, l, h)) ∈ int_ranges → (b, (lb, hb, l', h')) ∈ int_ranges →
  (l' <= l)%Z → (h <= h')%Z → included a b.
Proof.
  intros Ha Hb Hl Hh v Hf. rewrite (Admits_int v a _ _ _ _ Hf Ha), (Admits_int v b _ _ _ _ Hf Hb).
  rewrite Zle_Qle in Hl, Hh. intros (d & E & Hi & H1 & H2). exists d.
  split_and!; [done..|by eapply Qle_trans|by eapply Qle_trans].
Qed.

Lemma included_float a b la ha l h bits : (a, (la, ha, l, h)) ∈ int_ranges →
  (b, bits) ∈ [(PrimFloat32, float32Bits); (PrimFloat64, float64Bits)] →
  (- float_overflow bits < l)%Z → (h < float_overflow bits)%Z → included a b.
Proof.
  intros Ha Hb Hl Hh v Hf. rewrite (Admits_int v a _ _ _ _ Hf Ha), (Admits_float v b bits Hf Hb).
  rewrite Zlt_Qlt in Hl, Hh. intros (d & E & _ & H1 & H2). exists d.
  split_and!; [done|by eapply Qlt_le_trans|by eapply Qle_lt_trans].
Qed.

Lemma included_integer a la ha l h : (a, (la, ha, l, h)) ∈ int_ranges → included a PrimInteger.
Proof.
  intros Ha v Hf. rewrite (Admits_int v a _ _ _ _ Hf Ha). intros (d & E & Hi & _). lazy -[decimalOf IsInt]. by rewrite E.
Qed.

Lemma included_decimal128 a la ha l h : (a, (la, ha, l, h)) ∈ int_ranges → (- 10 ^ 20 <= l)%Z → (h <= 10 ^ 20)%Z →
  included a PrimDecimal128.
Proof.
  intros Ha Hl Hh v Hf. rewrite (Admits_int v a _ _ _ _ Hf Ha). intros (d & E & Hi & H1 & H2).
  destruct (decimalOf_wf _ _ Hf E) as [Hd _]. change (admitsDecimal128 v = true). apply (decimal128_int v d); [done..|].
  rewrite Zle_Qle in Hl, Hh. apply Qabs_Qle_condition. rewrite <-inject_Z_opp.
  split; [by eapply Qle_trans|by eapply Qle_trans].
Qed.

Lemma included_floats : included PrimFloat32 PrimFloat64.
Proof.
  intros v Hf. rewrite (Admits_float v _ float32Bits Hf), (Admits_float v _ float64Bits Hf) by (repeat constructor).
  intros (d & E & H1 & H2). exists d. split; [done|].
  assert (H : (float_overflow float32Bits < float_overflow float64Bits)%Z) by (vm_compute; reflexivity).
  assert (H' : (- float_overflow float64Bits < - float_overflow float32Bits)%Z) by lia.
  rewrite Zlt_Qlt in H, H'. split; by eapply Qlt_trans.
Qed.

Lemma included_any_number a b : a ∈ numbers → b ∈ [PrimNumber; PrimFloat; PrimDecimal] → included a b.
Proof. intros Ha Hb v _ H. apply Admits_any_number; [done|]. by eapply Admits_number. Qed.

Lemma case_of_elem {A} (cases : list (PrimKind * A)) k x : case_of cases k = Some x → (k, x) ∈ cases.
Proof.
  induction cases as [|[k' y] cases IH]; [done|]. cbn [case_of]. case_bool_decide as E.
  - subst. intros [= ->]. by left.
  - intros H. right. auto.
Qed.

(** What the table of parents claims, checked on the judges themselves. *)
Definition float_widths : list (PrimKind * Z) := [(PrimFloat32, float32Bits); (PrimFloat64, float64Bits)].
Definition edge_ok a b : bool :=
  match case_of int_ranges a, case_of int_ranges b, case_of float_widths b with
  | Some (_, _, l, h), Some (_, _, l', h'), _ => (l' <=? l)%Z && (h <=? h')%Z
  | Some (_, _, l, h), None, Some bits => (- float_overflow bits <? l)%Z && (h <? float_overflow bits)%Z
  | Some (_, _, l, h), None, None =>
      bool_decide (b = PrimInteger) || bool_decide (b = PrimDecimal128) && (- 10 ^ 20 <=? l)%Z && (h <=? 10 ^ 20)%Z
  | None, _, _ =>
      bool_decide (a = PrimFloat32) && bool_decide (b = PrimFloat64) ||
      bool_decide (a ∈ numbers) && bool_decide (b ∈ [PrimNumber; PrimFloat; PrimDecimal])
  end.

Lemma edge_ok_included a b : edge_ok a b = true → included a b.
Proof.
  unfold edge_ok. destruct (case_of int_ranges a) as [[[[la ha] l] h]|] eqn:Ea.
  - apply case_of_elem in Ea. destruct (case_of int_ranges b) as [[[[lb hb] l'] h']|] eqn:Eb.
    + apply case_of_elem in Eb. rewrite andb_true_iff, !Z.leb_le. intros [? ?]. by eapply included_ints.
    + destruct (case_of float_widths b) as [bits|] eqn:Ef.
      * apply case_of_elem in Ef. rewrite andb_true_iff, !Z.ltb_lt. intros [? ?]. by eapply included_float.
      * rewrite orb_true_iff, !andb_true_iff, !bool_decide_eq_true, !Z.leb_le. intros [->|[[-> ?] ?]].
        -- by eapply included_integer.
        -- by eapply included_decimal128.
  - rewrite orb_true_iff, !andb_true_iff, !bool_decide_eq_true. intros [[-> ->]|[? ?]]; [apply included_floats|by apply included_any_number].
Qed.

Definition edges : list (PrimKind * PrimKind) :=
  domainParents_table ≫= λ row, row.1 ≫= λ a, pair a <$> row.2.
Lemma edges_ok : forallb (λ e, edge_ok e.1 e.2) edges = true.
Proof. vm_compute. reflexivity. Qed.

Lemma edge_included a b : b ∈ domainParents a → included a b.
Proof.
  intros (labels & parents & Hin & Hk & Hb)%switch_elem. apply edge_ok_included.
  pose proof (proj1 (forallb_forall _ _) edges_ok (a, b)) as H. apply H, list_elem_of_In, list_elem_of_bind.
  exists (labels, parents). split; [|done]. apply list_elem_of_bind. exists a. split; [|done]. by apply list_elem_of_fmap_2.
Qed.

Lemma climb_included depth frontier b : climb depth frontier b = true → ∃ a, a ∈ frontier ∧ included a b.
Proof.
  revert frontier. induction depth as [|depth IH]; [done|]. intros [|a0 frontier]; [done|]. cbn [climb].
  case_bool_decide as Hb.
  - apply list_elem_of_bind in Hb as (a & Ha & Hin). intros _. exists a. split; [done|]. by apply edge_included.
  - intros (a & Ha & Hw)%IH. apply list_elem_of_bind in Ha as (a' & Ha & Hin). exists a'. split; [done|].
    intros v Hf Hv. apply Hw; [done|]. by apply (edge_included a').
Qed.

Lemma within_included a b : StrictlyWithin a b = true → included a b.
Proof.
  unfold StrictlyWithin. destruct (_ || _); [done|]. case_bool_decide as Hb.
  - subst. intros _ v _ _. reflexivity.
  - intros (a' & Ha & Hw)%climb_included. apply list_elem_of_singleton in Ha as ->. done.
Qed.
End Kinds.

(** ** What a text of a grammar holds *)

Lemma digit_at_iff s i : digit_at s i = true ↔ ∃ c, s !! i = Some c ∧ isDigit c = true.
Proof. unfold digit_at. destruct (s !! i); [|split; [done|by intros (? & ? & _)]]. split; [by eexists|by intros (? & [= ->] & ?)]. Qed.

Lemma index_where_take p s : Forall (λ c, p c = false) (take (index_where p s) s).
Proof. induction s as [|c s IH]; cbn [index_where]; [done|]. destruct (p c) eqn:E; [done|]. by constructor. Qed.

Lemma getnum_fixed s n s' : getnum s true = Some (n, s') → ∃ c1 c2, s = c1 :: c2 :: s' ∧ isDigit c1 = true.
Proof.
  destruct s as [|c1 [|c2 s]]; cbn [getnum]; [done|by rewrite andb_false_r|].
  destruct (isDigit c1) eqn:Ea; [|done]. destruct (isDigit c2); [|done]. intros [= _ ->]. by exists c1, c2.
Qed.

(** A layout that opens with a year. *)
Lemma year_first layout t s r : read_chunks (Year4 :: layout) t s = Some r → digit_at s 0 = true ∧ digit_at s 2 = true.
Proof.
  destruct t. cbn [read_chunks read_chunk]. destruct (Nat.ltb_spec (length s) 4) as [|Hl]; [done|].
  destruct (forallb isDigit (take 4 s)) eqn:E; [|done]. intros _.
  destruct s as [|c0 [|c1 [|c2 [|c3 s]]]]; cbn in *; try lia. rewrite !andb_true_iff in E. tauto.
Qed.

(** The bytes an element of fixed width takes. *)
Definition chunk_width (e : chunk) : option nat :=
  match e with Year4 => Some 4 | Month2 | Day2 => Some 2 | Lit _ => Some 1 | _ => None end.

Lemma read_chunk_width e t s t' s' w : chunk_width e = Some w → read_chunk e t s = Some (t', s') → length s = w + length s'.
Proof.
  destruct t, e; try done; intros [= <-]; cbn [read_chunk].
  - destruct (Nat.ltb_spec (length s) 4); [done|]. destruct (negb _); [done|]. intros [= _ <-]. rewrite length_drop. lia.
  - unfold ranged. destruct (getnum s true) as [[n r]|] eqn:G; [|done]. apply getnum_fixed in G as (c1 & c2 & -> & _).
    cbn. destruct (_ && _); [|done]. by intros [= _ <-].
  - destruct (getnum s true) as [[n r]|] eqn:G; [|done]. apply getnum_fixed in G as (c1 & c2 & -> & _). cbn. by intros [= _ <-].
  - destruct s as [|c' s]; [done|]. case_bool_decide; [|done]. by intros [= _ <-].
Qed.

Lemma read_chunks_width layout t s t' s' ws : mapM chunk_width layout = Some ws → read_chunks layout t s = Some (t', s') →
  length s = sum_list ws + length s'.
Proof.
  revert t s ws. induction layout as [|e layout IH]; intros t s ws.
  - cbn. by intros [= <-] [= _ <-].
  - cbn. destruct (chunk_width e) as [w|] eqn:Ew; [|done]. cbn. destruct (mapM chunk_width layout) as [ws'|] eqn:Em; [|done].
    cbn. intros [= <-]. destruct (read_chunk e t s) as [[t1 s1]|] eqn:E1; [|done]. cbn. intros H.
    rewrite (read_chunk_width _ _ _ _ _ _ Ew E1). cbn. rewrite (IH t1 s1 ws' eq_refl H). lia.
Qed.

Lemma date_text s : parses date_layout s = true → length s = 10 ∧ digit_at s 0 = true ∧ digit_at s 2 = true.
Proof.
  unfold parses, time_Parse. destruct (read_chunks date_layout _ s) as [[t r]|] eqn:E; [|done].
  pose proof (year_first _ _ _ _ E) as Hy. pose proof (read_chunks_width date_layout _ _ _ _ [4; 1; 2; 1; 2] eq_refl E) as Hl.
  cbn. destruct (is_nil r) eqn:En; [|done]. apply is_nil_true in En as ->. by rewrite Hl.
Qed.

Lemma clock_text s offset : clockShape s offset = true → s !! 2 = Some ":"%char ∧ digit_at s 0 = true.
Proof.
  unfold clockShape. destruct (_ <? _); [done|]. cbn [orb]. case_bool_decide; [|done]. cbn [negb orb].
  case_bool_decide; [|done]. cbn [negb]. destruct (forallb (digit_at s) _) eqn:E; [|done]. cbn [forallb] in E.
  rewrite andb_true_iff in E. tauto.
Qed.

(** A time of day has an offset or has none. *)
Lemma clock_offset s : clockShape s true = true → clockShape s false = true → False.
Proof.
  unfold clockShape. destruct (_ || _ || _); [done|]. destruct (negb _); [done|].
  destruct (if HasPrefix _ _ then _ else _) as [rest []]; [done|]. intros Ho Hn. apply is_nil_true in Hn as ->. done.
Qed.

(** A comparison of two productions named. *)
Lemma form_same (f : rfc3339Form) : bool_decide (f = f) = true.
Proof. by apply bool_decide_eq_true. Qed.
Lemma form_other (f g : rfc3339Form) : f ≠ g → bool_decide (f = g) = false.
Proof. apply bool_decide_eq_false_2. Qed.
Ltac forms := rewrite ?form_same, ?form_other by done; cbn [andb orb].

Lemma undated_text s form : form = partialTime ∨ form = fullTime → parsesRFC3339 s form = true →
  clockShape s (bool_decide (form = fullTime)) = true.
Proof.
  intros [-> | ->]; unfold parsesRFC3339; forms; by destruct (clockShape s _).
Qed.

(** What the reading of a date-time rewrites leaves its year alone. *)
Lemma upper_T_year s : 10 ≤ length s → take 4 (upper_T s) = take 4 s.
Proof. intros Hl. unfold upper_T. rewrite take_app_le by (rewrite length_take; lia). by rewrite take_take. Qed.
Lemma upper_Z_year s : 5 ≤ length s → take 4 (upper_Z s) = take 4 s.
Proof.
  intros Hl. unfold upper_Z. case_bool_decide; [|done]. rewrite take_app_le by (rewrite length_take; lia). rewrite take_take. f_equal. lia.
Qed.
Lemma upper_Z_length s : 1 ≤ length s → length (upper_Z s) = length s.
Proof.
  intros Hl. unfold upper_Z. case_bool_decide; [|done]. rewrite length_app, length_take. cbn [list_ascii_of_string length]. lia.
Qed.
Lemma year_digits s s' : take 4 s' = take 4 s → digit_at s' 0 = true ∧ digit_at s' 2 = true → digit_at s 0 = true ∧ digit_at s 2 = true.
Proof.
  intros E. unfold digit_at. rewrite <-!(lookup_take_lt s 4), <-!(lookup_take_lt s' 4), E by lia. done.
Qed.

Lemma dated_text s form : form = localDateTime ∨ form = dateTime → parsesRFC3339 s form = true →
  11 ≤ length s ∧ clockShape (drop 11 s) (bool_decide (form = dateTime)) = true ∧ digit_at s 0 = true ∧ digit_at s 2 = true.
Proof.
  intros Hf H. assert (Hd : bool_decide (form = localDateTime) || bool_decide (form = dateTime) = true) by (destruct Hf as [-> | ->]; by forms).
  unfold parsesRFC3339 in H. rewrite Hd in H. cbn [andb] in H. destruct (Nat.ltb_spec (length s) 11) as [|Hl]; [done|]. cbn [orb] in H.
  destruct (negb _); [done|]. split; [done|].
  assert (Ho : bool_decide (form = fullTime) || bool_decide (form = dateTime) = bool_decide (form = dateTime)) by (destruct Hf as [-> | ->]; by forms).
  rewrite Ho in H. destruct (clockShape _ _) eqn:Ec; [|done]. cbn [negb] in H. split; [done|].
  assert (HT : take 4 (upper_T s) = take 4 s) by (apply upper_T_year; lia).
  assert (LT : length (upper_T s) = length s).
  { unfold upper_T. rewrite length_app, length_take. cbn [length]. rewrite length_drop. lia. }
  set (s1 := if bool_decide (form = dateTime) then upper_Z (upper_T s) else upper_T s) in H.
  assert (H1 : take 4 s1 = take 4 s) by (unfold s1; destruct (bool_decide _); [rewrite upper_Z_year by lia|]; done).
  assert (Hk : length (drop 11 s) ≤ length s1 - 4 ∧ 4 ≤ length s1).
  { unfold s1. rewrite length_drop. destruct (bool_decide (form = dateTime)); [rewrite upper_Z_length by lia|]; lia. }
  set (sec := length s1 - length (drop 11 s) + 6) in H.
  match type of H with context [time_Parse _ ?x] => set (s2 := x) in H end.
  apply (year_digits _ s2).
  - unfold s2. destruct (bool_decide (slice _ _ _ = _)); [|done]. rewrite take_app_le by (rewrite length_take; unfold sec; lia).
    rewrite take_take, Nat.min_l by (unfold sec; lia). done.
  - destruct (time_Parse _ s2) eqn:Et; [|done]. unfold time_Parse in Et.
    destruct (read_chunks _ _ s2) eqn:Er; [|done]. destruct (bool_decide (form = dateTime)); by apply year_first in Er.
Qed.

Lemma uuid_text s : isUUID s = true → length s = 36 ∧ ∀ i c, s !! i = Some c →
  if bool_decide (i ∈ [8; 13; 18; 23]) then c = "-"%char else isHex c = true.
Proof.
  unfold isUUID. rewrite andb_true_iff, Nat.eqb_eq. intros [Hl Hf]. split; [done|]. intros i c Hi.
  assert (Hin : (if bool_decide (i ∈ [8; 13; 18; 23]) then bool_decide (c = "-"%char) else isHex c) = true).
  { apply (proj1 (forallb_forall _ _) Hf), list_elem_of_In, list_elem_of_lookup. exists i. by rewrite list_lookup_imap, Hi. }
  case_bool_decide; [by apply bool_decide_eq_true in Hin|done].
Qed.

Lemma uri_text s : uriBytesValid s = true → (∃ c, s !! 0 = Some c ∧ isLetter c = true) ∧ ":"%char ∈ s.
Proof.
  destruct s as [|c s]; [done|]. cbn [uriBytesValid]. destruct (isLetter c) eqn:El; [|done]. cbn [negb].
  case_bool_decide as Hc; [|done]. intros _. split; [by exists c|]. by eapply list_elem_of_lookup_2.
Qed.

Lemma designators_text fuel s order next c : designators fuel s order next = true → c ∈ s → isDigit c = true ∨ c ∈ order.
Proof.
  revert s next. induction fuel as [|fuel IH]; intros [|c0 s] next H Hc; try (by apply elem_of_nil in Hc); [done|].
  cbn [designators] in H. revert H Hc. generalize (c0 :: s). clear c0 s. intros s H Hc.
  pose proof (index_where_take (λ c, negb (isDigit c)) s) as Hd. rewrite <-(take_drop (index_where (λ c, negb (isDigit c)) s) s) in Hc.
  destruct (drop _ s) as [|d rest] eqn:Er; [done|]. destruct (_ =? 0); [done|].
  destruct (Nat.leb_spec (length (drop next order)) (index_where (λ c, bool_decide (c = d)) (drop next order))) as [|Hat]; [done|].
  cbn [orb] in H. destruct (_ && _); [done|].
  apply elem_of_app in Hc as [Hc|[->|Hc]%elem_of_cons]; [|right|by eapply IH].
  - left. rewrite Forall_forall in Hd. apply Hd in Hc. by apply negb_false_iff.
  - clear -Hat. rewrite <-(take_drop next order). apply elem_of_app. right. revert Hat. generalize (drop next order). intros l.
    induction l as [|e l IH]; cbn [index_where length]; [lia|]. case_bool_decide; [subst; by left|]. intros Hl. right. apply IH. lia.
Qed.

Lemma duration_text s : isDuration s = true → s !! 0 = Some "P"%char ∧ ":"%char ∉ s.
Proof.
  unfold isDuration. destruct (CutPrefix s (go "P")) as [rest|] eqn:Ec; [|done]. apply CutPrefix_Some in Ec as ->.
  intros H. split; [done|]. cbn [list_ascii_of_string app]. rewrite not_elem_of_cons. split; [done|]. intros Hc. revert H.
  destruct rest as [|r0 rest0]; [done|]. revert Hc. generalize (r0 :: rest0). clear. intros rest Hc.
  case_bool_decide as Hw.
  - unfold isDigitRun. rewrite andb_true_iff. intros [_ Hd]. apply last_Some in Hw as [l ->].
    rewrite length_app in Hd. cbn [length] in Hd. rewrite Nat.add_sub, take_app_length in Hd.
    apply elem_of_app in Hc as [Hc|Hc]; [|by apply list_elem_of_singleton in Hc].
    by apply (proj1 (forallb_forall _ _) Hd), list_elem_of_In in Hc || apply list_elem_of_In, (proj1 (forallb_forall _ _) Hd) in Hc.
  - pose proof (Cut_spec rest "T"%char) as Hcut. destruct (Cut rest "T") as [[date time] has]. destruct (_ || _); [done|].
    rewrite andb_true_iff. intros [H1 H2].
    assert (Hparts : ":"%char ∈ date ∨ ":"%char ∈ time).
    { destruct has; [destruct Hcut as [-> _]|destruct Hcut as (-> & _); by left].
      apply elem_of_app in Hc as [?|[Hc|?]%elem_of_cons]; [by left|done|by right]. }
    destruct Hparts as [Hp|Hp]; [apply (designators_text _ _ _ _ _ H1) in Hp|apply (designators_text _ _ _ _ _ H2) in Hp];
      (destruct Hp as [Hp|Hp]; [done|]); repeat (apply elem_of_cons in Hp as [Hp|Hp]; [done|]); by apply elem_of_nil in Hp.
Qed.

(** ** No text is of two productions *)

(** The string formats a kind or a held format names. *)
Inductive production : Type := Pdate | Ptime | Pfull | Plocal | Poffset | Puuid | Puri | Pduration.
#[export] Instance production_eq_dec : EqDecision production.
Proof. solve_decision. Defined.

Definition grammar (url_Parse : gostring → option gostring) (p : production) (s : gostring) : bool :=
  match p with
  | Pdate => parses date_layout s
  | Ptime => parsesRFC3339 s partialTime
  | Pfull => parsesRFC3339 s fullTime
  | Plocal => parsesRFC3339 s localDateTime
  | Poffset => parsesRFC3339 s dateTime
  | Puuid => isUUID s
  | Puri => isAbsoluteURI url_Parse s
  | Pduration => isDuration s
  end.

(** What tells a text of a production from the others'. *)
Definition shape (p : production) (s : gostring) : Prop :=
  match p with
  | Pdate => length s = 10 ∧ digit_at s 0 = true ∧ digit_at s 2 = true
  | Ptime => clockShape s false = true ∧ s !! 2 = Some ":"%char ∧ digit_at s 0 = true
  | Pfull => clockShape s true = true ∧ s !! 2 = Some ":"%char ∧ digit_at s 0 = true
  | Plocal => clockShape (drop 11 s) false = true ∧ s !! 13 = Some ":"%char ∧ digit_at s 0 = true ∧ digit_at s 2 = true
  | Poffset => clockShape (drop 11 s) true = true ∧ s !! 13 = Some ":"%char ∧ digit_at s 0 = true ∧ digit_at s 2 = true
  | Puuid => length s = 36 ∧ (∀ c, s !! 2 = Some c → isHex c = true) ∧ s !! 13 = Some "-"%char ∧ s !! 0 ≠ Some "P"%char ∧ ":"%char ∉ s
  | Puri => (∃ c, s !! 0 = Some c ∧ isLetter c = true) ∧ ":"%char ∈ s
  | Pduration => s !! 0 = Some "P"%char ∧ ":"%char ∉ s
  end.

Lemma uuid_shape s : isUUID s = true → shape Puuid s.
Proof.
  intros [Hl Hs]%uuid_text. cbn [shape]. split_and!; [done| | | |].
  - intros c Hc. by apply (Hs 2).
  - destruct (s !! 13) as [c|] eqn:E; [by rewrite (Hs 13 c E)|]. apply lookup_ge_None in E. lia.
  - intros E. by specialize (Hs 0 _ E).
  - intros [i Hi]%list_elem_of_lookup. specialize (Hs i _ Hi). case_bool_decide; done.
Qed.

Lemma dated_shape s form : form = localDateTime ∨ form = dateTime → parsesRFC3339 s form = true →
  s !! 13 = Some ":"%char ∧ digit_at s 0 = true ∧ digit_at s 2 = true.
Proof.
  intros Hf H. destruct (dated_text s form Hf H) as (_ & Hc & Hd). apply clock_text in Hc as [Hc _].
  rewrite lookup_drop in Hc. done.
Qed.

Lemma grammar_shape url_Parse p s : grammar url_Parse p s = true → shape p s.
Proof.
  destruct p; cbn [grammar]; intros H.
  - by apply date_text.
  - pose proof (undated_text s partialTime (or_introl eq_refl) H) as Hc. rewrite form_other in Hc by done. split; [done|by apply clock_text in Hc].
  - pose proof (undated_text s fullTime (or_intror eq_refl) H) as Hc. rewrite form_same in Hc. split; [done|by apply clock_text in Hc].
  - split; [|apply (dated_shape s localDateTime (or_introl eq_refl) H)].
    destruct (dated_text s localDateTime (or_introl eq_refl) H) as (_ & Hc & _). by rewrite form_other in Hc.
  - split; [|apply (dated_shape s dateTime (or_intror eq_refl) H)].
    destruct (dated_text s dateTime (or_intror eq_refl) H) as (_ & Hc & _). by rewrite form_same in Hc.
  - by apply uuid_shape.
  - unfold isAbsoluteURI in H. apply andb_true_iff in H as [H _]. by apply uri_text.
  - by apply duration_text.
Qed.

Lemma letter_no_digit c : isLetter c = true → isDigit c = true → False.
Proof.
  unfold isLetter, isDigit, between. rewrite orb_true_iff, !andb_true_iff, !Z.leb_le.
  change (code "a") with 97%Z. change (code "z") with 122%Z. change (code "A") with 65%Z. change (code "Z") with 90%Z.
  change (code "0") with 48%Z. change (code "9") with 57%Z. lia.
Qed.

(** One byte at odds settles a pair. *)
Ltac clash_at i s :=
  repeat match goal with H : digit_at s i = true |- _ => apply digit_at_iff in H as (? & ? & ?) end; by simplify_eq.

Lemma shapes_differ p q s : p ≠ q → shape p s → shape q s → False.
Proof.
  assert (H0 : digit_at s 0 = true → (∃ c, s !! 0 = Some c ∧ isLetter c = true) → False).
  { intros (c & E & Hd)%digit_at_iff (c' & E' & Hl). simplify_eq. by eapply letter_no_digit. }
  assert (H1 : digit_at s 0 = true → s !! 0 = Some "P"%char → False) by (intros; clash_at 0 s).
  assert (H2 : digit_at s 2 = true → s !! 2 = Some ":"%char → False) by (intros; clash_at 2 s).
  assert (H3 : (∀ c, s !! 2 = Some c → isHex c = true) → s !! 2 = Some ":"%char → False) by (intros Hx Hc; by apply Hx in Hc).
  assert (H4 : length s = 10 → s !! 13 = Some ":"%char → False) by (intros Hl Hc; apply lookup_lt_Some in Hc; lia).
  intros Hpq Hp Hq. destruct p, q; try done; cbn [shape] in Hp, Hq; destruct_and?;
    try match goal with H : clockShape ?x true = true, H' : clockShape ?x false = true |- _ => destruct (clock_offset x H H') end;
    try congruence; try tauto; eauto.
Qed.

Lemma productions_disjoint url_Parse p q s : grammar url_Parse p s = true → grammar url_Parse q s = true → p = q.
Proof.
  intros Hp%grammar_shape Hq%grammar_shape. destruct (decide (p = q)) as [|Hne]; [done|]. exfalso. by eapply shapes_differ.
Qed.

(** ** Kinds by the values they admit *)

Section Relations.
Context (url_Parse : gostring → option gostring).
#[local] Abbreviation Admits := (Admits url_Parse).
#[local] Abbreviation grammar := (grammar url_Parse).

(** The kinds held to a production. *)
Definition produced : list (PrimKind * production) := [
  (PrimDate, Pdate); (PrimTime, Ptime); (PrimDatetime, Plocal); (PrimDatetimeOffset, Poffset); (PrimUUID, Puuid);
  (PrimURL, Puri); (PrimDuration, Pduration)].

Lemma Admits_produced k p v : (k, p) ∈ produced → Admits k v = bool_decide (Kind v = ValueString) && grammar p (Str v).
Proof.
  intros Hk. repeat (apply elem_of_cons in Hk as [[= -> ->]|Hk]; [reflexivity|]). by apply elem_of_nil in Hk.
Qed.

Lemma Admits_string v : Admits PrimString v = bool_decide (Kind v = ValueString).
Proof. transitivity (bool_decide (Kind v = ValueString) && true); [reflexivity|apply andb_true_r]. Qed.

(** Every way a kind comes to admit a value. *)
Inductive admission v : PrimKind → Prop :=
  | admits_any : admission v PrimAny
  | admits_bool : Kind v = ValueBool → admission v PrimBool
  | admits_string : Kind v = ValueString → admission v PrimString
  | admits_text k p : (k, p) ∈ produced → Kind v = ValueString → grammar p (Str v) = true → admission v k
  | admits_number k : k ∈ numbers → Kind v = ValueNumber → admission v k.

Lemma decimalOf_kind v d : decimalOf v = Some d → Kind v = ValueNumber.
Proof. unfold decimalOf. by destruct (decide (Kind v = ValueNumber)). Qed.

Lemma Admits_cases k v : Admits k v = true → admission v k.
Proof.
  intros H. destruct (decide (k = PrimAny)) as [->|Hany]; [constructor|].
  destruct (decide (k = PrimBool)) as [->|Hbool]; [constructor; by apply bool_decide_eq_true in H|].
  destruct (decide (k ∈ numbers)) as [Hn|Hn].
  { constructor; [done|]. destruct (Admits_number url_Parse v k Hn H) as [d E]. by eapply decimalOf_kind. }
  destruct (decide (k = PrimString)) as [->|Hstr].
  { constructor. rewrite Admits_string in H. by apply bool_decide_eq_true in H. }
  destruct (decide (k ∈ produced.*1)) as [Hk|Hk].
  { apply list_elem_of_fmap in Hk as ([k' p] & -> & Hk). cbn [fst] in *. rewrite (Admits_produced k' p v Hk) in H.
    apply andb_true_iff in H as [HK Hg]. apply bool_decide_eq_true in HK. by apply (admits_text v k' p). }
  exfalso. revert H. unfold Formats.Admits. rewrite bool_decide_false, bool_decide_false by done.
  destruct (case_of (string_kinds url_Parse) k) as [g|] eqn:Es.
  - apply case_of_elem in Es. exfalso. clear -Es Hstr Hk.
    repeat (apply elem_of_cons in Es as [[= -> _]|Es]; [first [done|apply Hk; repeat (first [by left|right])]|]). by apply elem_of_nil in Es.
  - destruct (case_of number_kinds k) as [j|] eqn:En; [|done]. apply case_of_elem in En. exfalso. apply Hn.
    apply list_elem_of_fmap. by exists (k, j).
Qed.

(** What the table says of two kinds that can share a kind of value. *)
Definition related_kinds : list PrimKind := PrimAny :: PrimBool :: PrimString :: produced.*1 ++ numbers.
Lemma any_related : forallb (λ k, negb (bool_decide (Relate PrimAny k = Disjoint)) && negb (bool_decide (Relate k PrimAny = Disjoint))) related_kinds = true.
Proof. vm_compute. reflexivity. Qed.
Lemma string_related : forallb (λ k, negb (bool_decide (Relate PrimString k = Disjoint)) && negb (bool_decide (Relate k PrimString = Disjoint)))
  (PrimString :: produced.*1) = true.
Proof. vm_compute. reflexivity. Qed.
Lemma numbers_related : forallb (λ k, forallb (λ k', negb (bool_decide (Relate k k' = Disjoint))) numbers) numbers = true.
Proof. vm_compute. reflexivity. Qed.
Lemma refined_strings : forallb (λ row, negb (bool_decide (is_Some (CutPrefix row.1 (go "string/")))) || bool_decide (row.2 ∈ PrimBytes :: produced.*1))
  (map_to_list formatTable) = true.
Proof. vm_compute. reflexivity. Qed.

Lemma admission_related v k : admission v k → k ∈ related_kinds.
Proof.
  unfold related_kinds. destruct 1 as [| | |k p Hk _ _|k Hk _].
  - by left.
  - right. by left.
  - do 2 right. by left.
  - do 3 right. apply elem_of_app. left. apply list_elem_of_fmap. by exists (k, p).
  - do 3 right. apply elem_of_app. by right.
Qed.

Lemma forall_listed {A} (f : A → bool) (l : list A) x : forallb f l = true → x ∈ l → f x = true.
Proof. intros H Hx. apply (proj1 (forallb_forall _ _) H). by apply list_elem_of_In. Qed.

Lemma shared_not_disjoint a b v : admission v a → admission v b → Relate a b ≠ Disjoint.
Proof.
  intros Ha Hb.
  assert (Hanyl : Relate PrimAny b ≠ Disjoint ∧ Relate a PrimAny ≠ Disjoint).
  { pose proof (forall_listed _ _ _ any_related (admission_related v b Hb)) as H1.
    pose proof (forall_listed _ _ _ any_related (admission_related v a Ha)) as H2.
    apply andb_true_iff in H1 as [H1 _], H2 as [_ H2]. apply negb_true_iff, bool_decide_eq_false in H1, H2. done. }
  assert (Hs : ∀ k p, (k, p) ∈ produced → Relate PrimString k ≠ Disjoint ∧ Relate k PrimString ≠ Disjoint).
  { intros k p Hk. assert (Hin : k ∈ PrimString :: produced.*1) by (right; apply list_elem_of_fmap; by exists (k, p)).
    pose proof (forall_listed _ _ _ string_related Hin) as H. apply andb_true_iff in H as [H1 H2].
    apply negb_true_iff, bool_decide_eq_false in H1, H2. done. }
  assert (Hself : ∀ k, Relate k k ≠ Disjoint) by (intros k; unfold Relate; by rewrite bool_decide_true).
  destruct Ha as [|Ka|Ka|a p Hp Ka Ga|a Na Ka]; [apply Hanyl|..]; (destruct Hb as [|Kb|Kb|b q Hq Kb Gb|b Nb Kb]; [apply Hanyl|..]);
    try congruence; try apply Hself; try (by eapply Hs).
  - assert (Hpq : p = q) by (by eapply productions_disjoint). subst q.
    enough (a = b) as -> by apply Hself. clear -Hp Hq. 
    repeat (apply elem_of_cons in Hp as [[= -> ->]|Hp]; [repeat (apply elem_of_cons in Hq as [Hq|Hq]; [by injection Hq as -> || discriminate Hq|]); by apply elem_of_nil in Hq|]).
    by apply elem_of_nil in Hp.
  - pose proof (forall_listed _ _ _ (forall_listed _ _ _ numbers_related Na) Nb) as H. by apply negb_true_iff, bool_decide_eq_false in H.
Qed.

Lemma refines_text k v : refinesString k = true → admission v k → Kind v = ValueString.
Proof.
  unfold refinesString. intros H Hk. rewrite existsb_exists in H. destruct H as (row & Hrow & H).
  apply andb_true_iff in H as [H1 H2]. apply bool_decide_eq_true in H1.
  pose proof refined_strings as Hr. rewrite forallb_forall in Hr. specialize (Hr row Hrow). cbv beta in Hr. rewrite H2, H1 in Hr.
  cbn [negb orb] in Hr. apply bool_decide_eq_true in Hr.
  clear row Hrow H1 H2.
  destruct Hk as [|Kk|Kk|k p _ Kk _|k Nk Kk]; try exact Kk; exfalso; revert Hr.
  - refine (bool_decide_eq_false_1 _ _). vm_compute. reflexivity.
  - refine (bool_decide_eq_false_1 _ _). vm_compute. reflexivity.
  - clear -Nk. cbv [numbers number_kinds fmap list_fmap fst] in Nk.
    repeat (apply elem_of_cons in Nk as [->|Nk]; [refine (bool_decide_eq_false_1 _ _); vm_compute; reflexivity|]). by apply elem_of_nil in Nk.
Qed.

Lemma Admits_text k v p : (k, p) ∈ produced → Kind v = ValueString → grammar p (Str v) = true → Admits k v = true.
Proof. intros Hk HK Hg. rewrite (Admits_produced k p v Hk), Hg, bool_decide_true by done. done. Qed.

Lemma narrows_included a b v : fits (Num v) → narrows a b = true → Admits a v = true → Admits b v = true.
Proof.
  intros Hf H Ha. unfold narrows in H. apply orb_true_iff in H as [H|H]; [by eapply within_included|].
  apply andb_true_iff in H as [Hb Hr]. apply bool_decide_eq_true in Hb as ->.
  pose proof (refines_text a v Hr (Admits_cases a v Ha)) as HK.
  rewrite Admits_string. by apply bool_decide_eq_true.
Qed.
End Relations.

(** C7: Two kinds that [Relate] calls disjoint have no value in common, every value
    of a kind it calls narrower is a value of the broader one, and so for two it
    calls the same; a text of the one format no kind stands for, a time with its
    offset, is a value of no kind but string and the top. *)
Theorem Admits_relates (url_Parse : gostring → option gostring) a b v : fits (Num v) →
  (Relate a b = Spelling.Disjoint → ¬ (Admits url_Parse a v = true ∧ Admits url_Parse b v = true)) ∧
  (Relate a b = Spelling.ANarrower ∨ Relate a b = Spelling.Same → Admits url_Parse a v = true → Admits url_Parse b v = true) ∧
  ((admitsFormat (go "time") v).1 = true → Admits url_Parse b v = true → b = PrimString ∨ b = PrimAny).
Proof.
  intros Hf. split_and!.
  - intros Hd [Ha%Admits_cases Hb%Admits_cases]. exact (shared_not_disjoint url_Parse a b v Ha Hb Hd).
  - unfold Relate. case_bool_decide as E; [by subst|]. destruct (narrows a b) eqn:En.
    2:{ destruct (narrows b a); [by intros [|]|]. match goal with |- context [if ?c then _ else _] => destruct c end; by intros [|]. }
    intros _. by apply narrows_included.
  - unfold admitsFormat. rewrite bool_decide_true by done. cbn [fst]. rewrite andb_true_iff, bool_decide_eq_true. intros [HK Hg] Hb%Admits_cases.
    destruct Hb as [|Kb|Kb|b p Hp Kb Gb|b Nb Kb]; try congruence; [by right|by left|]. exfalso.
    pose proof (productions_disjoint url_Parse Pfull p (Str v) Hg Gb) as <-.
    repeat (apply elem_of_cons in Hp as [[=]|Hp]). by apply elem_of_nil in Hp.
Qed.
Lemma Admits_relates_witness :
  Relate PrimDate PrimDatetimeOffset = Spelling.Disjoint ∧ Admits (λ _, None) PrimDate (string_value (go "2024-02-29")) = true ∧
  ¬ (Admits (λ _, None) PrimDate (string_value (go "2024-02-29")) = true ∧ Admits (λ _, None) PrimDatetimeOffset (string_value (go "2024-02-29")) = true).
Proof.
  assert (E : Relate PrimDate PrimDatetimeOffset = Spelling.Disjoint) by (vm_compute; reflexivity).
  split; [exact E|]. split; [vm_compute; reflexivity|].
  destruct (Admits_relates (λ _, None) PrimDate PrimDatetimeOffset (string_value (go "2024-02-29")) ltac:(vm_compute; reflexivity)) as (H & _).
  exact (H E).
Defined.
