(* ===== verification/DeepEqual.v ===== *)
(** * Equality of IR nodes

    What [reflect.DeepEqual] answers of the structs a merge compares, as decidable
    equality: a struct is compared field by field, a pointer by what it points
    at. A slice the model holds has no length but its elements', so a nil slice
    and an empty one are one; the code compares nodes one lowering built alike. *)
From S2P Require Import Prelude GoLib Constraints Value IR.

(** ** Values *)

#[export] Instance ValueRef_eq_dec : EqDecision ValueRef.
Proof. solve_decision. Defined.

Fixpoint value_eqb (v w : Value) {struct v} : bool :=
  let values := fix values (l l' : list Value) : bool :=
    match l, l' with [], [] => true | x :: l, y :: l' => value_eqb x y && values l l' | _, _ => false end in
  let fields := fix fields (l l' : list Field) : bool :=
    match l, l' with [], [] => true | x :: l, y :: l' => field_eqb x y && fields l l' | _, _ => false end in
  let '(mkValue k b s n bs l o r c) := v in
  let '(mkValue k' b' s' n' bs' l' o' r' c') := w in
  bool_decide (k = k') && bool_decide (b = b') && bool_decide (s = s') && bool_decide (n = n') && bool_decide (bs = bs') &&
  values l l' && fields o o' && bool_decide (r = r') &&
  match c, c' with None, None => true | Some c, Some c' => ctor_eqb c c' | _, _ => false end
with field_eqb (f g : Field) {struct f} : bool :=
  let '(mkField n v) := f in let '(mkField n' v') := g in bool_decide (n = n') && value_eqb v v'
with ctor_eqb (c d : CtorValue) {struct c} : bool :=
  let values := fix values (l l' : list Value) : bool :=
    match l, l' with [], [] => true | x :: l, y :: l' => value_eqb x y && values l l' | _, _ => false end in
  let '(mkCtor s n args) := c in let '(mkCtor s' n' args') := d in
  bool_decide (s = s') && bool_decide (n = n') && values args args'.

Fixpoint value_eqb_eq (v w : Value) {struct v} : value_eqb v w = true ↔ v = w
with field_eqb_eq (f g : Field) {struct f} : field_eqb f g = true ↔ f = g
with ctor_eqb_eq (c d : CtorValue) {struct c} : ctor_eqb c d = true ↔ c = d.
Proof.
  - destruct v as [k b s n bs l o r c], w as [k' b' s' n' bs' l' o' r' c']. cbn [value_eqb].
    set (values := fix values (l l' : list Value) : bool :=
      match l, l' with [], [] => true | x :: l, y :: l' => value_eqb x y && values l l' | _, _ => false end).
    set (fields := fix fields (l l' : list Field) : bool :=
      match l, l' with [], [] => true | x :: l, y :: l' => field_eqb x y && fields l l' | _, _ => false end).
    assert (Hl : ∀ l', values l l' = true ↔ l = l').
    { clear -value_eqb_eq. induction l as [|x l IH]; intros [|y l']; cbn [values]; [done..|].
      rewrite andb_true_iff, value_eqb_eq, IH. split; [by intros [-> ->]|by intros [= -> ->]]. }
    assert (Ho : ∀ o', fields o o' = true ↔ o = o').
    { clear -field_eqb_eq. induction o as [|x o IH]; intros [|y o']; cbn [fields]; [done..|].
      rewrite andb_true_iff, field_eqb_eq, IH. split; [by intros [-> ->]|by intros [= -> ->]]. }
    assert (Hc : match c, c' with None, None => true | Some c, Some c' => ctor_eqb c c' | _, _ => false end = true ↔ c = c').
    { clear -ctor_eqb_eq. destruct c as [c|], c' as [c'|]; [|done..]. rewrite ctor_eqb_eq. split; congruence. }
    rewrite !andb_true_iff, !bool_decide_eq_true, Hl, Ho, Hc. clear. split; [intros; destruct_and!; by subst|by intros [= -> -> -> -> -> -> -> -> ->]].
  - destruct f as [n v], g as [n' v']. cbn [field_eqb]. rewrite andb_true_iff, bool_decide_eq_true, value_eqb_eq. clear.
    split; [by intros [-> ->]|by intros [= -> ->]].
  - destruct c as [s n args], d as [s' n' args']. cbn [ctor_eqb].
    set (values := fix values (l l' : list Value) : bool :=
      match l, l' with [], [] => true | x :: l, y :: l' => value_eqb x y && values l l' | _, _ => false end).
    assert (Hl : ∀ l', values args l' = true ↔ args = l').
    { clear -value_eqb_eq. induction args as [|x l IH]; intros [|y l']; cbn [values]; [done..|].
      rewrite andb_true_iff, value_eqb_eq, IH. split; [by intros [-> ->]|by intros [= -> ->]]. }
    rewrite !andb_true_iff, !bool_decide_eq_true, Hl. clear. split; [intros; destruct_and!; by subst|by intros [= -> -> ->]].
Qed.

#[export] Instance Value_eq_dec : EqDecision Value.
Proof. intros v w. destruct (value_eqb v w) eqn:E; [left; by apply value_eqb_eq|right; intros H%value_eqb_eq; congruence]. Defined.

(** ** Structs *)

Ltac struct_eq := solve_decision.
#[export] Instance Naming_eq_dec : EqDecision Naming. Proof. struct_eq. Defined.
#[export] Instance TypeRef_eq_dec : EqDecision TypeRef. Proof. struct_eq. Defined.
#[export] Instance DocRef_eq_dec : EqDecision DocRef. Proof. struct_eq. Defined.
#[export] Instance Link_eq_dec : EqDecision Link. Proof. struct_eq. Defined.
#[export] Instance Docs_eq_dec : EqDecision Docs. Proof. struct_eq. Defined.
#[export] Instance Deprecation_eq_dec : EqDecision Deprecation. Proof. struct_eq. Defined.
#[export] Instance ErrorExample_eq_dec : EqDecision ErrorExample. Proof. struct_eq. Defined.
#[export] Instance Position_eq_dec : EqDecision Position. Proof. struct_eq. Defined.
#[export] Instance Provenance_eq_dec : EqDecision Provenance. Proof. struct_eq. Defined.
#[export] Instance UnmodeledEntry_eq_dec : EqDecision UnmodeledEntry. Proof. struct_eq. Defined.
#[export] Instance Example_eq_dec : EqDecision Example. Proof. struct_eq. Defined.
#[export] Instance VersionedName_eq_dec : EqDecision VersionedName. Proof. struct_eq. Defined.
#[export] Instance VersionedType_eq_dec : EqDecision VersionedType. Proof. struct_eq. Defined.
#[export] Instance VersionedBool_eq_dec : EqDecision VersionedBool. Proof. struct_eq. Defined.
#[export] Instance Availability_eq_dec : EqDecision Availability. Proof. struct_eq. Defined.
#[export] Instance Encoding_eq_dec : EqDecision Encoding. Proof. struct_eq. Defined.
#[export] Instance XMLHints_eq_dec : EqDecision XMLHints. Proof. struct_eq. Defined.
#[export] Instance Constraints_eq_dec : EqDecision Constraints. Proof. struct_eq. Defined.
#[export] Instance PropPath_eq_dec : EqDecision PropPath. Proof. struct_eq. Defined.
#[export] Instance Parameter_eq_dec : EqDecision Parameter_. Proof. struct_eq. Defined.
#[export] Instance Visibility_eq_dec : EqDecision Visibility. Proof. struct_eq. Defined.
#[export] Instance Property_eq_dec : EqDecision Property. Proof. struct_eq. Defined.
#[export] Instance TemplateArg_eq_dec : EqDecision TemplateArg. Proof. struct_eq. Defined.
#[export] Instance TemplateInstantiation_eq_dec : EqDecision TemplateInstantiation. Proof. struct_eq. Defined.
#[export] Instance TypeCommon_eq_dec : EqDecision TypeCommon. Proof. struct_eq. Defined.
#[export] Instance Scalar_eq_dec : EqDecision Scalar. Proof. struct_eq. Defined.
#[export] Instance PatternProps_eq_dec : EqDecision PatternProps. Proof. struct_eq. Defined.
#[export] Instance AdditionalProps_eq_dec : EqDecision AdditionalProps. Proof. struct_eq. Defined.
#[export] Instance WireIDRange_eq_dec : EqDecision WireIDRange. Proof. struct_eq. Defined.
#[export] Instance Discriminator_eq_dec : EqDecision Discriminator. Proof. struct_eq. Defined.
#[export] Instance Model_eq_dec : EqDecision Model. Proof. struct_eq. Defined.
#[export] Instance EnumMember_eq_dec : EqDecision EnumMember. Proof. struct_eq. Defined.
#[export] Instance Enum_eq_dec : EqDecision Enum. Proof. struct_eq. Defined.
#[export] Instance Literal_eq_dec : EqDecision Literal. Proof. struct_eq. Defined.
