(* ===== verification/Judge.v ===== *)
(** * The judgment of two types of one field

    [typejudge.go] of [src/compilers/openapi/internal/merge], with what [bounds.go]
    reads of a node. Two types of one field declared twice under allOf are the
    same, one within the other, disjoint, overlapping, or nothing the judgment
    compares; a value is a type's or not. The registry is the function [Resolve];
    what the annotation package says of a text that writes a reference, and the
    lowering of two positions that read one base, are functions given. *)
From S2P Require Import Prelude GoLib Decimal BigVal IR RegistryRules Spelling Formats DeepEqual Constraints Value.
Implicit Types (td ta tb : TypeDef) (ref a b : TypeRef) (id : TypeID) (c : TypeCommon).

Definition maxComposedParts : nat := 64.
Definition maxTypeResolveDepth : nat := 64.

(** ** What a node says, where it was declared aside *)

Definition siteless c : TypeCommon :=
  let '(mkTypeCommon _ _ ns _ docs tags sens acc dep av wn mt xml ex inst um _) := c in
  mkTypeCommon [] zeroNaming ns false docs tags sens acc dep av wn mt xml ex inst
    ((λ e, mkUnmodeledEntry (UnmodeledEntry_Reason e) (UnmodeledEntry_Value e) zeroProvenance) <$> um) zeroProvenance.

Definition model_siteless (m : Model) : Model :=
  let '(mkModel c ps rq ba im mi ap ad co ab po ex di dv io) := m in mkModel (siteless c) ps rq ba im mi ap ad co ab po ex di dv io.
Definition scalar_siteless (s : Scalar) : Scalar :=
  mkScalar (siteless (Scalar_TypeCommon s)) (Scalar_Base s) (Scalar_Constraints s) (Scalar_Encoding s).
Definition literal_siteless (l : Literal) : Literal := mkLiteral (siteless (Literal_TypeCommon l)) (Literal_Value l).

Definition idless (ms : list EnumMember) : list EnumMember :=
  (λ m, let '(mkEnumMember _ n v w d dep av ex um) := m in mkEnumMember [] n v w d dep av ex um) <$> ms.
Definition enum_siteless (e : Enum) : Enum :=
  mkEnum (siteless (Enum_TypeCommon e)) (Enum_ValueType e) (idless (Enum_Members e)) (Enum_Closed e) (Enum_Flags e) (Enum_FallbackMember e).

Definition sameEnum (x y : Enum) : bool := bool_decide (enum_siteless x = enum_siteless y).

Definition sameNode ta tb : bool :=
  match ta, tb with
  | LiteralDef x, LiteralDef y => bool_decide (literal_siteless x = literal_siteless y)
  | ScalarDef x, ScalarDef y => bool_decide (scalar_siteless x = scalar_siteless y)
  | EnumDef x, EnumDef y => sameEnum x y
  | _, _ => false
  end.

Definition saysOnlyObject td : bool :=
  match td with ModelDef m => bool_decide (model_siteless m = zeroModel) | _ => false end.

(** ** Kinds of nodes *)

Definition isLiteral td : bool := match td with LiteralDef _ => true | _ => false end.
Definition isStructural td : bool :=
  match td with ModelDef _ | ListDef _ | MapDef _ | TupleDef _ => true | _ => false end.
Definition isTop td : bool := match td with PrimitiveDef p => bool_decide (Primitive_Prim p = PrimAny) | _ => false end.
Definition isDegraded td : bool := match td with AnyDef _ => true | _ => false end.

Definition instanceKind td : TypeKind :=
  match td with
  | LiteralDef l =>
    if bool_decide (Kind (Literal_Value l) = ValueObject) then KindModel
    else if bool_decide (Kind (Literal_Value l) = ValueList) then KindList else KindLiteral
  | _ =>
    let k := RegistryRules.Kind td in
    if bool_decide (k = KindMap) then KindModel else if bool_decide (k = KindTuple) then KindList else k
  end.

Definition saysItsValues td : bool := isLiteral td || isStructural td.
Definition disjointIf (disjoint : bool) : relation := if disjoint then relDisjoint else relUnrelated.

(** ** Bounds of a node *)

Definition boundsOf td : option Constraints :=
  match td with
  | ScalarDef n => Scalar_Constraints n | ListDef n => List_Constraints n
  | MapDef n => MapT_Constraints n | TupleDef n => Tuple_Constraints n
  | _ => None
  end.

Definition withBounds td (c : option Constraints) : TypeDef :=
  match td with
  | ScalarDef n => ScalarDef (mkScalar (Scalar_TypeCommon n) (Scalar_Base n) c (Scalar_Encoding n))
  | ListDef n => ListDef (mkList (List_TypeCommon n) (List_Elem n) c (List_Encoding n))
  | MapDef n => MapDef (mkMapT (MapT_TypeCommon n) (MapT_Key n) (MapT_Value n) c)
  | TupleDef n => TupleDef (mkTuple (Tuple_TypeCommon n) (Tuple_Elems n) (Tuple_Rest n) c)
  | _ => td
  end.

(** What a container holds beyond its members. *)
Record extras : Type := mkExtras { x_Constraints : option Constraints; x_Encoding : option Encoding; x_Common : TypeCommon }.
#[export] Instance extras_eq_dec : EqDecision extras.
Proof. solve_decision. Defined.
Definition no_extras : extras := mkExtras None None zeroTypeCommon.
Definition unbounded (x : extras) : extras := mkExtras None (x_Encoding x) (x_Common x).

Definition list_extras (l : List) : extras := mkExtras (List_Constraints l) (List_Encoding l) (siteless (List_TypeCommon l)).
Definition map_extras (m : MapT) : extras := mkExtras (MapT_Constraints m) None (siteless (MapT_TypeCommon m)).
Definition tuple_extras (t : Tuple) : extras := mkExtras (Tuple_Constraints t) None (siteless (Tuple_TypeCommon t)).

Definition detailRelation (ax bx : extras) : relation :=
  if negb (bool_decide (unbounded ax = unbounded bx)) then relOverlap
  else boundsRelation (x_Constraints ax) (x_Constraints bx).

Definition holdsDetail (wx lx : extras) : bool :=
  let rel := boundsRelation (x_Constraints wx) (x_Constraints lx) in
  if negb (bool_decide (rel = relSame)) && negb (bool_decide (rel = relANarrower)) then false
  else bool_decide (unbounded lx = no_extras) || bool_decide (unbounded lx = unbounded wx).

Definition admitsEmpty (x : extras) : bool :=
  match x_Constraints x with
  | None => true
  | Some c =>
    (match MinItems c with None => true | Some n => (n <=? 0)%Z end) &&
    (match MinProps c with None => true | Some n => (n <=? 0)%Z end)
  end.

(** ** Null *)

Definition byNull a b : relation :=
  if bool_decide (TypeRef_Nullable a = TypeRef_Nullable b) then relSame
  else if TypeRef_Nullable a then relBNarrower else relANarrower.

Definition narrowedBy (win lose : TypeRef) (wx lx : extras) (rel : relation) : relation :=
  if TypeRef_Nullable win && negb (TypeRef_Nullable lose) then relOverlap
  else if negb (holdsDetail wx lx) then relOverlap else rel.

(** ** Kinds of values *)

Definition fromSpelling (r : Relation) : relation :=
  match r with
  | Same => relSame | ANarrower => relANarrower | BNarrower => relBNarrower | Overlap => relOverlap | Disjoint => relDisjoint
  end.

Record valueKind : Type := mkValueKind { prim : PrimKind; format : gostring }.

Definition heldFormat (enc : option Encoding) : option gostring :=
  match enc with
  | None => None
  | Some e =>
    if is_set (Encoding_WireType e) || negb (is_nil (Encoding_MediaType e)) || is_set (Encoding_Schema e) then None
    else if negb (admitsFormat (Encoding_Name e) zeroValue).2 then None else Some (Encoding_Name e)
  end.

Definition formatAgainst (f : gostring) (k : valueKind) : relation :=
  if bool_decide (format k = f) then relSame
  else if is_nil (format k) && (bool_decide (prim k = PrimString) || bool_decide (prim k = PrimAny)) then relANarrower
  else if is_nil (format k) && bool_decide (prim k = PrimBytes) then relOverlap
  else relDisjoint.

Definition relateKinds (x y : valueKind) : relation :=
  if negb (is_nil (format x)) then formatAgainst (format x) y
  else if negb (is_nil (format y)) then flipped (formatAgainst (format y) x)
  else fromSpelling (Relate (prim x) (prim y)).

Definition scalarSaysOnlyFormat (s : Scalar) : bool :=
  is_set (heldFormat (Scalar_Encoding s)) && bool_decide (mkScalar (siteless (Scalar_TypeCommon s)) None None None = zeroScalar).
Definition saysOnlyFormat td : bool := match td with ScalarDef s => scalarSaysOnlyFormat s | _ => false end.

(** ** Copies of one declaration *)

Definition hoistedAt td (at_ : Provenance) : bool :=
  let c := Common td in
  let p := Provenance_Pointer (TypeCommon_Provenance c) in
  TypeCommon_Anonymous c && bool_decide (Provenance_Source (TypeCommon_Provenance c) = Provenance_Source at_) &&
  (bool_decide (p = Provenance_Pointer at_) || HasPrefix p (Provenance_Pointer at_ ++ go "/")).

Definition sameNodes a b (aHoisted bHoisted : bool) : relation :=
  if aHoisted && bHoisted then byNull a b
  else if bHoisted then relANarrower
  else if aHoisted then relBNarrower else relOverlap.

(** What a type says its values are also values of. *)
Definition composedOf td : list TypeID :=
  match td with
  | ScalarDef s => match Scalar_Base s with Some r => [TypeRef_Target r] | None => [] end
  | ModelDef m => (match Model_Base m with Some r => [TypeRef_Target r] | None => [] end) ++ (TypeRef_Target <$> Model_Mixins m)
  | _ => []
  end.

Section Judge.
Context (Quote : gostring → gostring) (url_Parse : gostring → option gostring).
(** What a registry holds; which texts write a reference; and which two positions
    read a reference against one base. *)
Context (Resolve : TypeID → option TypeDef) (WritesReference : gostring → bool).

(** Where two declarations were written, and which positions read alike. *)
Record declarationSites : Type := mkSites { written : Provenance * Provenance; alike : Provenance → Provenance → bool }.

Definition keepsReference td : bool :=
  existsb (λ e, WritesReference (UnmodeledEntry_Value e.2)) (map_to_list (TypeCommon_Unmodeled (Common td))).

Definition copies (d : declarationSites) a ta b tb : relation :=
  let aHoisted := hoistedAt ta (written d).1 in
  let bHoisted := hoistedAt tb (written d).2 in
  let keeps := (aHoisted || bHoisted) && (keepsReference ta || keepsReference tb) in
  if keeps && negb (alike d (TypeCommon_Provenance (Common ta)) (TypeCommon_Provenance (Common tb))) then relOverlap
  else sameNodes a b aHoisted bHoisted.

(** ** Chains of scalars *)

Fixpoint unaliased_loop (n : nat) td : TypeDef :=
  match n with
  | O => td
  | S n =>
    match td with
    | ScalarDef s =>
      match Scalar_Base s with
      | None => td
      | Some base => match Resolve (TypeRef_Target base) with None => td | Some next => unaliased_loop n next end
      end
    | _ => td
    end
  end.
Definition unaliased td : TypeDef := unaliased_loop maxTypeResolveDepth td.

Fixpoint kindOf_loop (n : nat) id (first : option Encoding) : option valueKind :=
  match n with
  | O => None
  | S n =>
    match Resolve id with
    | None => None
    | Some (PrimitiveDef t) =>
      match heldFormat first with
      | Some f => if bool_decide (Primitive_Prim t = PrimString) then Some (mkValueKind (Primitive_Prim t) f)
                  else Some (mkValueKind (Primitive_Prim t) [])
      | None => Some (mkValueKind (Primitive_Prim t) [])
      end
    | Some (EnumDef t) => Some (mkValueKind (Enum_ValueType t) [])
    | Some (ScalarDef t) =>
      match Scalar_Base t with
      | None => None
      | Some base => kindOf_loop n (TypeRef_Target base) (match first with None => Scalar_Encoding t | _ => first end)
      end
    | Some _ => None
    end
  end.
Definition kindOf ref : option valueKind := kindOf_loop maxTypeResolveDepth (TypeRef_Target ref) None.

Definition isAnyType ref : bool :=
  match kindOf ref with
  | Some k => bool_decide (prim k = PrimAny)
  | None => match Resolve (TypeRef_Target ref) with Some td => bool_decide (RegistryRules.Kind td = KindAny) | None => false end
  end.

(** ** Composition *)

Fixpoint meet_parts (target : TypeID) (parts : list TypeID) (seen : gset TypeID) (queue : list TypeID)
    : bool * gset TypeID * list TypeID :=
  match parts with
  | [] => (false, seen, queue)
  | part :: parts =>
    if bool_decide (part = target) then (true, seen, queue)
    else if bool_decide (part ∈ seen) then meet_parts target parts seen queue
    else meet_parts target parts ({[part]} ∪ seen) (part :: queue)
  end.

(** The last of the queue is its head here. A turn takes one type off it, and no
    more than [maxComposedParts] were put on it while it runs. *)
Fixpoint composes_loop (fuel : nat) (target : TypeID) (seen : gset TypeID) (queue : list TypeID) : bool :=
  match fuel, queue with
  | O, _ | _, [] => false
  | S fuel, id :: queue =>
    if maxComposedParts <? size seen then false
    else
      match Resolve id with
      | None => composes_loop fuel target seen queue
      | Some td =>
        let '(found, seen, queue) := meet_parts target (composedOf td) seen queue in
        if found : bool then true else composes_loop fuel target seen queue
      end
  end.
Definition composes id target : bool := composes_loop (S maxComposedParts) target {[id]} [id].

(** ** Values of a type *)

Definition kind_admits (k : valueKind) (v : Value) : bool :=
  if is_nil (format k) then Admits url_Parse (prim k) v else (admitsFormat (format k) v).1.

Definition sameValue (v w : Value) : bool :=
  match canonicalValue Quote v 0, canonicalValue Quote w 0 with
  | Some vk, Some wk => bool_decide (vk = wk)
  | _, _ => bool_decide (v = w)
  end.

Definition encodingAdmits (enc : option Encoding) (v : Value) : bool :=
  match enc with
  | None => true
  | Some _ => match heldFormat enc with Some f => (admitsFormat f v).1 | None => false end
  end.

Fixpoint admitsAt (fuel : nat) ref (v : Value) (depth : nat) : bool :=
  match fuel, Resolve (TypeRef_Target ref) with
  | O, _ | _, None => false
  | S fuel, Some td =>
    if maxJudgeDepth <? depth then false
    else if bool_decide (Kind v = ValueNull) then TypeRef_Nullable ref || isTop td
    else
      match td with
      | PrimitiveDef t => Admits url_Parse (Primitive_Prim t) v
      | AnyDef _ => true
      | EnumDef t => existsb (λ m, sameValue (EnumMember_Value m) v) (Enum_Members t)
      | LiteralDef t => sameValue (Literal_Value t) v
      | ScalarDef t =>
        match Scalar_Base t with
        | None => false
        | Some base => encodingAdmits (Scalar_Encoding t) v && admitsConstraints Quote (Scalar_Constraints t) v depth &&
                       admitsAt fuel base v (S depth)
        end
      | ListDef t =>
        bool_decide (Kind v = ValueList) && admitsConstraints Quote (List_Constraints t) v depth &&
        forallb (λ e, admitsAt fuel (List_Elem t) e (S depth)) (List_ v)
      | MapDef t =>
        bool_decide (Kind v = ValueObject) && admitsConstraints Quote (MapT_Constraints t) v depth &&
        forallb (λ f, admitsAt fuel (MapT_Value t) (FieldValue f) (S depth)) (Object_ v)
      | _ => false
      end
  end.
(** Each level is one deeper and none past [maxJudgeDepth] is judged. *)
Definition admits ref (v : Value) : bool := admitsAt (2 + maxJudgeDepth) ref v 0.

(** ** A value against a kind *)

Definition literalAgainst (v : Value) (kind : valueKind) (nullable : bool) : relation :=
  if bool_decide (Kind v = ValueNull) then if nullable then relANarrower else relDisjoint
  else if kind_admits kind v then relANarrower
  else if bool_decide (prim kind = PrimBytes) then relOverlap else relDisjoint.

Definition noMemberMeets (en : Enum) (kind : valueKind) (nullable : bool) : bool :=
  forallb (λ m, bool_decide (literalAgainst (EnumMember_Value m) kind nullable = relDisjoint)) (Enum_Members en).

Definition enumMisses td (kind : valueKind) (nullable : bool) : bool :=
  match td with EnumDef en => noMemberMeets en kind nullable | _ => false end.

Definition nodeAgainstBare ref td (bare : TypeRef) (bareKind : PrimKind) : relation :=
  let bareK := mkValueKind bareKind [] in
  let by_kind :=
    match kindOf ref with
    | None => relUnrelated
    | Some k =>
      let rel := relateKinds k bareK in
      if bool_decide (rel = relSame) then relANarrower
      else
        let rel := if bool_decide (rel = relBNarrower) then relOverlap else rel in
        if bool_decide (rel = relOverlap) && enumMisses td bareK (TypeRef_Nullable bare) then relDisjoint else rel
    end in
  match td with
  | LiteralDef lit => literalAgainst (Literal_Value lit) bareK (TypeRef_Nullable bare)
  | ScalarDef _ | EnumDef _ => by_kind
  | _ => relUnrelated
  end.

Definition againstKind td (kindRef : TypeRef) (kindNode : TypeDef) (k : valueKind) : relation :=
  match td with
  | LiteralDef lit =>
    if is_nil (format k) then relOverlap
    else if negb (admits kindRef (Literal_Value lit)) then relDisjoint
    else if saysOnlyFormat kindNode then relANarrower else relOverlap
  | _ => disjointIf (isStructural td)
  end.

(** ** The verdict *)

Definition classify a ta b tb : relation :=
  let au := unaliased ta in
  let bu := unaliased tb in
  match kindOf a, kindOf b with
  | Some ak, Some bk =>
    if bool_decide (prim ak = PrimAny) || bool_decide (prim bk = PrimAny) then relUnrelated
    else if bool_decide (relateKinds ak bk = relDisjoint) || enumMisses ta bk (TypeRef_Nullable b) || enumMisses tb ak (TypeRef_Nullable a)
    then relDisjoint else relOverlap
  | Some ak, None => if bool_decide (prim ak = PrimAny) then relUnrelated else flipped (againstKind bu a ta ak)
  | None, Some bk => if bool_decide (prim bk = PrimAny) then relUnrelated else againstKind au b tb bk
  | None, None =>
    if isLiteral au && isLiteral bu then relOverlap
    else disjointIf (saysItsValues au && saysItsValues bu && negb (bool_decide (instanceKind au = instanceKind bu)))
  end.

(** [typeJudge.within]. *)
Definition structure_within a ta b tb : bool :=
  if negb (isStructural (unaliased tb)) then false
  else composes (TypeRef_Target a) (TypeRef_Target b) ||
       saysOnlyObject tb && bool_decide (instanceKind (unaliased ta) = KindModel).

Section Sites.
Context (sites : declarationSites).

Definition structures a ta b tb : relation :=
  let aWithin := structure_within a ta b tb in
  let bWithin := structure_within b tb a ta in
  if aWithin && bWithin then copies sites a ta b tb
  else if aWithin then relANarrower
  else if bWithin then relBNarrower else relUnrelated.

(** What compares two members, one level deeper. *)
Section Members.
Context (deeper : TypeRef → TypeRef → relation).

Definition same_member (x y : TypeRef) : bool :=
  bool_decide (deeper x y = relSame) && bool_decide (byNull x y = relSame).

Fixpoint EqualFunc (l l' : list TypeRef) : bool :=
  match l, l' with
  | [], [] => true
  | x :: l, y :: l' => same_member x y && EqualFunc l l'
  | _, _ => false
  end.

Definition tuples (x y : Tuple) : relation :=
  if negb (EqualFunc (Tuple_Elems x) (Tuple_Elems y)) then relUnrelated
  else
    match Tuple_Rest x, Tuple_Rest y with
    | Some r, Some r' => if negb (same_member r r') then relUnrelated else detailRelation (tuple_extras x) (tuple_extras y)
    | None, None => detailRelation (tuple_extras x) (tuple_extras y)
    | _, _ => relUnrelated
    end.

Definition contained (ae be : TypeRef) (ax bx : extras) : relation :=
  let rel := deeper ae be in
  if bool_decide (rel = relMeet) then relOverlap
  else if bool_decide (rel = relDisjoint) &&
          (TypeRef_Nullable ae && TypeRef_Nullable be || admitsEmpty ax && admitsEmpty bx) then relOverlap
  else
    let rel := if bool_decide (rel = relSame) then byNull ae be else rel in
    if bool_decide (rel = relANarrower) then narrowedBy ae be ax bx rel
    else if bool_decide (rel = relBNarrower) then narrowedBy be ae bx ax rel
    else if bool_decide (rel = relSame) then detailRelation ax bx
    else rel.

Definition boundedNodes ta tb (depth : nat) : relation :=
  match ta, tb with
  | ScalarDef x, ScalarDef y =>
    if negb (sameNode (withBounds ta None) (withBounds tb None)) then relUnrelated
    else boundsRelation (Scalar_Constraints x) (Scalar_Constraints y)
  | ListDef x, ListDef y => contained (List_Elem x) (List_Elem y) (list_extras x) (list_extras y)
  | MapDef x, MapDef y =>
    if negb (bool_decide (MapT_Key x = MapT_Key y)) then relUnrelated
    else contained (MapT_Value x) (MapT_Value y) (map_extras x) (map_extras y)
  | TupleDef x, TupleDef y => if 0 <? depth then relUnrelated else tuples x y
  | _, _ => relUnrelated
  end.

Definition arms a ta b tb (depth : nat) : relation :=
  match ta, tb with
  | PrimitiveDef ap, PrimitiveDef bp => fromSpelling (Relate (Primitive_Prim ap) (Primitive_Prim bp))
  | _, PrimitiveDef bp => nodeAgainstBare a ta b (Primitive_Prim bp)
  | PrimitiveDef ap, _ => flipped (nodeAgainstBare b tb a (Primitive_Prim ap))
  | _, _ =>
    if sameNode ta tb then copies sites a ta b tb
    else
      let rel := boundedNodes ta tb depth in
      if bool_decide (rel = relSame) then copies sites a ta b tb
      else if bool_decide (rel = relUnrelated) then structures a ta b tb
      else rel
  end.
End Members.

Fixpoint relateAt (fuel : nat) a b (depth : nat) : relation :=
  if bool_decide (TypeRef_Target a = TypeRef_Target b) then relSame
  else if maxJudgeDepth <? depth then relUnrelated
  else
    match fuel with
    | O => relUnrelated
    | S fuel =>
      match Resolve (TypeRef_Target a), Resolve (TypeRef_Target b) with
      | Some ta, Some tb =>
        if isDegraded ta || isDegraded tb then relUnrelated
        else if isTop ta then relBNarrower
        else if isTop tb then relANarrower
        else
          let rel := arms (λ x y, relateAt fuel x y (S depth)) a ta b tb depth in
          if negb (bool_decide (rel = relUnrelated)) then rel else classify a ta b tb
      | _, _ => relUnrelated
      end
    end.
(** A level past [maxJudgeDepth] compares nothing. *)
Definition relate a b : relation := relateAt (1 + maxJudgeDepth) a b 0.
End Sites.
End Judge.
