(* ===== verification/JudgeSound.v ===== *)
(** * The judgment does not depend on which declaration comes first

    What [typeJudge.relate] states of itself: swapping the two types, and where
    they were written with them, flips a narrowing and leaves any other verdict as
    it was. *)
From S2P Require Import Prelude GoLib Decimal DecimalValue DecimalOrder BigVal Multiple IR RegistryRules Domain Spelling Formats DeepEqual.
From S2P Require Import Constraints Value ConstraintsFold Judge.
From Stdlib Require Import FunctionalExtensionality.
Implicit Types (x y z : gostring).

(** ** Numbers, whichever is asked first *)

Lemma compareNumbers_swap x y : fits x → fits y →
  compareNumbers y x = let '(o, ok) := compareNumbers x y in ((- o)%Z, ok).
Proof.
  intros Fx Fy. unfold compareNumbers. destruct (decide (x = y)) as [->|Hne]; [by rewrite decide_True|].
  rewrite decide_False by done. unfold BigVal_Decimal.
  destruct (ParseDecimal x) as [d1|] eqn:Ex, (ParseDecimal y) as [d2|] eqn:Ey; try done.
  destruct (ParseDecimal_small _ _ Fx Ex) as [Hd _], (ParseDecimal_small _ _ Fy Ey) as [He _].
  f_equal. rewrite !Cmp_value by done. unfold Qcompare, order_of. rewrite (Z.compare_antisym (_ * _)).
  by destruct (_ ?= _)%Z.
Qed.

Lemma sameNumber_swap x y : fits x → fits y → sameNumber y x = sameNumber x y.
Proof.
  intros Fx Fy. unfold sameNumber. rewrite (compareNumbers_swap x y) by done. destruct (compareNumbers x y) as [o ok].
  f_equal. destruct (Z.eqb_spec o 0), (Z.eqb_spec (- o) 0); lia || done.
Qed.

Lemma sameNumber_alike x y z : fits x → fits y → fits z → sameNumber x y = true → sameNumber x z = sameNumber y z.
Proof.
  intros Fx Fy Fz H. destruct (decide (x = y)) as [->|Hxy]; [done|].
  pose proof (sameNumber_parse x y Fx Fy H) as Hp. assert (Hd : ∃ d, BigVal_Decimal x = Ok d).
  { revert H. unfold sameNumber, compareNumbers. rewrite decide_False by done. destruct (BigVal_Decimal x) as [d|]; [by exists d|done]. }
  destruct Hd as [d Hd]. assert (Hself : Cmp d d = 0%Z).
  { destruct (ParseDecimal_small _ _ Fx Hd) as [Hw _]. rewrite Cmp_value by done. by rewrite (proj1 (Qeq_alt _ _) (Qeq_refl _)). }
  assert (Hsame : ∀ w, BigVal_Decimal w = Ok d → fits w → sameNumber w z = match BigVal_Decimal z with Ok e => (Cmp d e =? 0)%Z | Err _ => false end).
  { intros w Hw Fw. unfold sameNumber, compareNumbers. destruct (decide (w = z)) as [<-|]; [by rewrite Hw, Hself|].
    rewrite Hw. by destruct (BigVal_Decimal z). }
  rewrite (Hsame x), (Hsame y); [done| | |done..]; congruence.
Qed.

(** Two meets that answer one number each way. *)
Definition meets_alike (meet : gostring → gostring → gostring * bool) : Prop := ∀ x y, fits x → fits y →
  (meet y x).2 = (meet x y).2 ∧ ((meet x y).2 = true → fits (meet x y).1 ∧ sameNumber (meet x y).1 (meet y x).1 = true).

Lemma larger_alike : meets_alike largerNumber.
Proof.
  intros x y Fx Fy. unfold largerNumber. rewrite (compareNumbers_swap x y) by done.
  destruct (compareNumbers x y) as [o ok] eqn:E. destruct (Z.ltb_spec o 0), (Z.ltb_spec (- o) 0); cbn; try lia.
  - split; [done|]. intros ->. split; [done|]. unfold sameNumber, compareNumbers. by rewrite decide_True.
  - split; [done|]. intros ->. split; [done|]. unfold sameNumber, compareNumbers. by rewrite decide_True.
  - split; [done|]. intros ->. split; [done|]. unfold sameNumber. rewrite E. cbn. apply Z.eqb_eq. lia.
Qed.

Lemma smaller_alike : meets_alike smallerNumber.
Proof.
  intros x y Fx Fy. unfold smallerNumber. rewrite (compareNumbers_swap x y) by done.
  destruct (compareNumbers x y) as [o ok] eqn:E. destruct (Z.ltb_spec 0 o), (Z.ltb_spec 0 (- o)); cbn; try lia.
  - split; [done|]. intros ->. split; [done|]. unfold sameNumber, compareNumbers. by rewrite decide_True.
  - split; [done|]. intros ->. split; [done|]. unfold sameNumber, compareNumbers. by rewrite decide_True.
  - split; [done|]. intros ->. split; [done|]. unfold sameNumber. rewrite E. cbn. apply Z.eqb_eq. lia.
Qed.

Lemma sameNumber_refl x : sameNumber x x = true.
Proof. unfold sameNumber, compareNumbers. by rewrite decide_True. Qed.

Lemma leastCommonMultiple_swap (d1 d2 : Decimal) : wf d1 → wf d2 → small d1 → small d2 → digits d1 ≠ [] → digits d2 ≠ [] →
  leastCommonMultiple d2 d1 = leastCommonMultiple d1 d2.
Proof.
  intros W1 W2 S1 S2 N1 N2. destruct (Z.lt_trichotomy (lowest d1) (lowest d2)) as [Hlt|[Heq|Hgt]].
  - destruct (leastCommonMultiple_spelled d2 d1) as [-> H]; try (done || lia). symmetry. by apply H.
  - destruct (leastCommonMultiple_spelled d1 d2) as [-> _]; try (done || lia).
    destruct (leastCommonMultiple_spelled d2 d1) as [-> _]; try (done || lia).
    unfold lcm_coefficient, lcm_exponent. rewrite Heq, Z.sub_diag, !Z.min_l by lia. rewrite Z.pow_0_r, !Z.mul_1_r, Z.lcm_comm. done.
  - destruct (leastCommonMultiple_spelled d1 d2) as [-> H]; try (done || lia). by apply H.
Qed.

Lemma positive_units L (d : Decimal) : (L <= lowest d)%Z → (0 < value d)%Q → (0 < units L d)%Z.
Proof.
  intros HL. rewrite (value_units L) by done. intros H. pose proof (pow10_pos L) as Hp.
  destruct (Z.le_gt_cases (units L d) 0) as [Hu|]; [exfalso|lia].
  assert (inject_Z (units L d) <= 0)%Q by (change 0%Q with (inject_Z 0); by rewrite <-Zle_Qle). nra.
Qed.

Lemma multiples_equal (d1 d2 : Decimal) : (0 < value d1)%Q → (0 < value d2)%Q →
  is_multiple (value d1) (value d2) → is_multiple (value d2) (value d1) → (value d1 == value d2)%Q.
Proof.
  intros P1 P2. set (L := Z.min (lowest d1) (lowest d2)).
  rewrite !(units_divide L) by (unfold L; lia). intros H1 H2.
  rewrite !(value_units L) by (unfold L; lia).
  assert (E : units L d1 = units L d2); [|by rewrite E].
  apply Z.divide_antisym_nonneg; [| |done..]; apply Z.lt_le_incl, positive_units; (done || (unfold L; lia)).
Qed.

Lemma multiple_true (d1 d2 : Decimal) : wf d1 → wf d2 → small d1 → small d2 → (0 < Sign d2)%Z →
  (let '(multiple, ok) := isMultipleOf d1 d2 in ok && multiple) = true ↔ is_multiple (value d1) (value d2).
Proof.
  intros W1 W2 S1 S2 Hs. destruct (isMultipleOf_spec d1 d2 W1 W2 S1 S2) as [_ H]. destruct H as [Hok Hm]; [lia|].
  destruct (isMultipleOf d1 d2) as [m ok]. cbn in *. by rewrite Hok.
Qed.

Lemma step_alike : meets_alike commonStep.
Proof.
  intros x y Fx Fy. enough (H : (commonStep y x).2 = (commonStep x y).2 ∧
      ((commonStep x y).2 = true → sameNumber (commonStep x y).1 (commonStep y x).1 = true)).
  { destruct H as [H1 H2]. split; [done|]. intros Hok. split; [by apply commonStep_fits|by apply H2]. }
  unfold commonStep, BigVal_Decimal. destruct (decide (x = y)) as [->|Hne]; [rewrite decide_True by done; by rewrite sameNumber_refl|].
  rewrite (decide_False (P := y = x)) by done.
  destruct (ParseDecimal x) as [d1|] eqn:Ex, (ParseDecimal y) as [d2|] eqn:Ey; try done.
  destruct (ParseDecimal_small _ _ Fx Ex) as [W1 S1], (ParseDecimal_small _ _ Fy Ey) as [W2 S2].
  rewrite (orb_comm (Sign d2 <=? 0)%Z), (Nat.add_comm (length (Digits d2))).
  destruct (Z.leb_spec (Sign d1) 0) as [|P1]; [done|]. destruct (Z.leb_spec (Sign d2) 0) as [|P2]; [done|].
  cbn [orb]. destruct (_ <? _)%Z; [done|].
  pose proof (multiple_true d1 d2 W1 W2 S1 S2 P2) as M1. pose proof (multiple_true d2 d1 W2 W1 S2 S1 P1) as M2.
  destruct (let '(multiple, ok) := isMultipleOf d1 d2 in ok && multiple) eqn:E1, (let '(multiple, ok) := isMultipleOf d2 d1 in ok && multiple) eqn:E2;
    cbn [fst snd]; rewrite ?sameNumber_refl; try done.
  - split; [done|]. intros _. assert (Hv : (value d1 == value d2)%Q).
    { apply multiples_equal; [..|by apply M1|by apply M2].
      - destruct (positive_value d1 P1) as [N1 ->]. destruct (coefficient_bound d1 W1 N1). apply Qmult_lt_0_compat; [|apply pow10_pos].
        change 0%Q with (inject_Z 0). rewrite <-Zlt_Qlt. lia.
      - destruct (positive_value d2 P2) as [N2 ->]. destruct (coefficient_bound d2 W2 N2). apply Qmult_lt_0_compat; [|apply pow10_pos].
        change 0%Q with (inject_Z 0). rewrite <-Zlt_Qlt. lia. }
    unfold sameNumber, compareNumbers, BigVal_Decimal. rewrite decide_False, Ex, Ey by done. cbn [andb].
    rewrite Cmp_value by done. by rewrite (proj1 (Qeq_alt _ _) Hv).
  - destruct (positive_value d1 P1) as [N1 _], (positive_value d2 P2) as [N2 _].
    rewrite (leastCommonMultiple_swap d1 d2) by done. destruct (NewBigVal _); cbn; [|done]. by rewrite sameNumber_refl.
Qed.

(** ** Two sets, whichever is folded into *)

Lemma slot_agree_swap meet (p q : option gostring) : meets_alike meet → opt_fits p → opt_fits q → slot_agree meet p q → slot_agree meet q p.
Proof. intros Hm Fp Fq. destruct p as [p|], q as [q|]; try done. cbn. destruct (Hm p q Fp Fq) as [E _]. by rewrite E. Qed.

Lemma slot_same_swap meet (p q r : option gostring) : meets_alike meet → opt_fits p → opt_fits q → opt_fits r → slot_agree meet p q →
  slot_same sameNumber (slot_meet meet q p) r = slot_same sameNumber (slot_meet meet p q) r.
Proof.
  intros Hm Fp Fq Fr Ha. destruct p as [p|], q as [q|]; try done. cbn in Ha |- *. destruct (Hm p q Fp Fq) as [E1 E2].
  destruct (E2 Ha) as [Fs Hs]. destruct (Hm q p Fq Fp) as [_ E3]. rewrite Ha in E1. destruct (E3 E1) as [Fs' _].
  destruct (meet p q) as [s ok], (meet q p) as [s' ok']. cbn in *. subst. destruct r as [r|]; [|done]. symmetry. by apply sameNumber_alike.
Qed.

Section Sets.
Implicit Types (a b c : Constraints).

Lemma int_meet_swap (meet : Z → Z → Z * bool) (p q : option Z) : meet ∈ [onlyEqual; largerCount; smallerCount] →
  slot_agree meet p q → slot_agree meet q p ∧ slot_meet meet q p = slot_meet meet p q.
Proof.
  intros Hm. destruct p as [p|], q as [q|]; try done. repeat (apply elem_of_cons in Hm as [->|Hm]); [..|by apply elem_of_nil in Hm]; cbn.
  - destruct (Z.eqb_spec p q) as [->|]; [|done]. by rewrite Z.eqb_refl.
  - by rewrite Z.max_comm.
  - by rewrite Z.min_comm.
Qed.

Lemma agree_swap a b : fits_set a → fits_set b → agree a b → agree b a.
Proof.
  intros Fa Fb [H1 H2 H3 H4 H5 H6 H7 H8 H9].
  constructor; try (by apply slot_agree_swap; [apply larger_alike || apply smaller_alike || apply step_alike|apply Fa|apply Fb|]).
  - by apply (int_meet_swap onlyEqual); [left|].
  - by apply (int_meet_swap onlyEqual); [left|].
  - rewrite (orb_comm (is_empty (Pattern b))), <-H8. f_equal. by apply bool_decide_ext.
  - rewrite (orb_comm (is_empty (PatternMessage b))), <-H9. f_equal. by apply bool_decide_ext.
Qed.

Lemma cmp_Or_swap x y : is_empty x || is_empty y || bool_decide (x = y) = true → cmp_Or y x = cmp_Or x y.
Proof.
  unfold cmp_Or. rewrite !orb_true_iff, bool_decide_eq_true, !is_empty_true. destruct x, y; cbn; naive_solver.
Qed.

Lemma sameBounds_swap a b c : fits_set a → fits_set b → fits_set c → agree a b →
  sameBounds (Some (fold_into b a)) (Some c) = sameBounds (Some (fold_into a b)) (Some c).
Proof.
  intros Fa Fb Fc [H1 H2 H3 H4 H5 H6 H7 H8 H9]. rewrite !sameBounds_fields, !fold_into_fields.
  cbn [Min Max ExclusiveMin ExclusiveMax MultipleOf Precision Scale MinLength MaxLength Pattern PatternMessage MinItems MaxItems UniqueItems MinProps MaxProps].
  rewrite (orb_comm (UniqueItems b)), (cmp_Or_swap (Pattern a)), (cmp_Or_swap (PatternMessage a)) by done.
  rewrite (slot_same_swap largerNumber (Min a)), (slot_same_swap largerNumber (ExclusiveMin a)) by (apply larger_alike || apply Fa || apply Fb || apply Fc || done).
  rewrite (slot_same_swap smallerNumber (Max a)), (slot_same_swap smallerNumber (ExclusiveMax a)) by (apply smaller_alike || apply Fa || apply Fb || apply Fc || done).
  rewrite (slot_same_swap commonStep (MultipleOf a)) by (apply step_alike || apply Fa || apply Fb || apply Fc || done).
  repeat match goal with |- context [slot_meet ?m (?f b) (?f a)] =>
    rewrite (proj2 (int_meet_swap m (f a) (f b) ltac:(repeat (first [by left|right])) ltac:(first [done|unfold slot_agree; by repeat case_match])))
  end. done.
Qed.

Lemma Meets_swap a b : fits_set a → fits_set b → Meets (Some b) (Some a) = Meets (Some a) (Some b).
Proof.
  intros Fa Fb. apply eq_true_iff_eq. rewrite !Meets_agree. split; by apply agree_swap.
Qed.

Lemma boundsRelation_Some_swap a b : fits_set a → fits_set b →
  boundsRelation (Some b) (Some a) = flipped (boundsRelation (Some a) (Some b)).
Proof.
  intros Fa Fb. rewrite !boundsRelation_fold, (Meets_swap a b) by done. destruct (Meets (Some a) (Some b)) eqn:E; [|done].
  apply Meets_agree in E. rewrite !(sameBounds_swap a b) by done.
  by destruct (sameBounds _ (Some a)), (sameBounds _ (Some b)).
Qed.

Definition fits_bounds (c : option Constraints) : Prop := match c with Some c => fits_set c | None => True end.

Lemma agree_no_conflict a b : agree a b → constraintsConflict (Some a) (Some b) = None.
Proof. intros H%Meets_agree. unfold Meets in H. by destruct (constraintsConflict _ _). Qed.
Lemma conflict_none_l b : constraintsConflict (Some noConstraints) (Some b) = None.
Proof. by apply agree_no_conflict. Qed.
Lemma slot_agree_none {T} (meet : T → T → T * bool) p : slot_agree meet p None.
Proof. by destruct p. Qed.
Lemma conflict_none_r a : constraintsConflict (Some a) (Some noConstraints) = None.
Proof. apply agree_no_conflict. constructor; try apply slot_agree_none; cbn; by rewrite orb_true_r. Qed.
Lemma slot_meet_none {T} (meet : T → T → T * bool) p : slot_meet meet p None = p.
Proof. by destruct p. Qed.
Lemma fold_none_r a : fold_into a noConstraints = a.
Proof.
  rewrite fold_into_fields. cbn [noConstraints Min Max ExclusiveMin ExclusiveMax MultipleOf Precision Scale MinLength MaxLength Pattern PatternMessage MinItems MaxItems UniqueItems MinProps MaxProps].
  rewrite !slot_meet_none, orb_false_r. destruct a as [? ? ? ? ? ? ? ? ? p m]. cbn. unfold cmp_Or. by destruct p, m.
Qed.

(** No constraints are the empty set of them. *)
Lemma boundsRelation_or_none (x y : option Constraints) : boundsRelation x y = boundsRelation (Some (or_none x)) (Some (or_none y)).
Proof.
  assert (Hnone : fold_into noConstraints noConstraints = noConstraints) by apply fold_none.
  destruct x as [a|], y as [b|]; [done|..]; unfold boundsRelation.
  - cbn [or_none default]. rewrite conflict_none_r. cbn [constraintsConflict is_set merge_Constraints]. by rewrite fold_none, fold_none_r.
  - cbn [or_none default]. rewrite conflict_none_l. cbn [constraintsConflict is_set merge_Constraints]. by rewrite !fold_none.
  - cbn [or_none default]. rewrite conflict_none_l. cbn [constraintsConflict is_set merge_Constraints]. by rewrite !fold_none.
Qed.

Lemma noConstraints_fits : fits_set noConstraints.
Proof. by constructor. Qed.
End Sets.

Lemma boundsRelation_swap (x y : option Constraints) : fits_bounds x → fits_bounds y → boundsRelation y x = flipped (boundsRelation x y).
Proof.
  intros Fx Fy. rewrite (boundsRelation_or_none y), (boundsRelation_or_none x).
  apply boundsRelation_Some_swap; [destruct x|destruct y]; (done || apply noConstraints_fits).
Qed.

(** ** The verdict, seen from the other side *)

Lemma flipped_flipped r : flipped (flipped r) = r.
Proof. by destruct r. Qed.
Lemma flipped_eq r r' : flipped r = r' ↔ r = flipped r'.
Proof. destruct r, r'; done. Qed.

(** A verdict that no narrowing is stands whichever side it is seen from. *)
Lemma flipped_fixed r r' : r' = flipped r' → bool_decide (flipped r = r') = bool_decide (r = r').
Proof. intros E. apply bool_decide_ext. by rewrite flipped_eq, <-E. Qed.
Lemma flipped_A r : bool_decide (flipped r = relANarrower) = bool_decide (r = relBNarrower).
Proof. by destruct r. Qed.
Lemma flipped_B r : bool_decide (flipped r = relBNarrower) = bool_decide (r = relANarrower).
Proof. by destruct r. Qed.

Lemma fromSpelling_flipped r : fromSpelling (Spelling.flipped r) = flipped (fromSpelling r).
Proof. by destruct r. Qed.

Lemma byNull_swap a b : byNull b a = flipped (byNull a b).
Proof. unfold byNull. by destruct (TypeRef_Nullable a), (TypeRef_Nullable b). Qed.

Lemma decide_swap {A} `{EqDecision A} (x y : A) : bool_decide (x = y) = bool_decide (y = x).
Proof. by apply bool_decide_ext. Qed.

Lemma sameNode_swap ta tb : sameNode ta tb = sameNode tb ta.
Proof. destruct ta, tb; try done; cbn [sameNode]; unfold sameEnum; apply decide_swap. Qed.

Definition fits_extras (x : extras) : Prop := fits_bounds (x_Constraints x).

Lemma detail_swap (x y : extras) : fits_extras x → fits_extras y → detailRelation y x = flipped (detailRelation x y).
Proof.
  intros Fx Fy. unfold detailRelation. rewrite decide_swap. destruct (bool_decide _); [|done]. cbn [negb]. by apply boundsRelation_swap.
Qed.

Lemma relateKinds_swap (x y : valueKind) : relateKinds y x = flipped (relateKinds x y).
Proof.
  unfold relateKinds. destruct x as [p f], y as [q g]. cbn [format prim].
  destruct (is_nil f) eqn:Ef, (is_nil g) eqn:Eg; cbn [negb].
  - by rewrite Relate_flipped, fromSpelling_flipped.
  - by rewrite flipped_flipped.
  - done.
  - unfold formatAgainst. cbn [format prim]. rewrite Ef, Eg. cbn [andb]. rewrite (decide_swap f g). by destruct (bool_decide _).
Qed.

Section Members.
Context (deeper deeper' : TypeRef → TypeRef → relation).
Hypothesis deeper_swap : ∀ x y : TypeRef, deeper' y x = flipped (deeper x y).

Lemma same_member_swap (x y : TypeRef) : same_member deeper' y x = same_member deeper x y.
Proof using All.
  unfold same_member. rewrite deeper_swap, (byNull_swap x y). by rewrite !flipped_fixed.
Qed.

Lemma EqualFunc_swap (l l' : list TypeRef) : EqualFunc deeper' l' l = EqualFunc deeper l l'.
Proof using All. revert l'. induction l as [|x l IH]; intros [|y l']; [done..|]. cbn [EqualFunc]. by rewrite same_member_swap, IH. Qed.

Lemma tuples_swap (x y : Tuple) : fits_bounds (Tuple_Constraints x) → fits_bounds (Tuple_Constraints y) → tuples deeper' y x = flipped (tuples deeper x y).
Proof using All.
  intros Fx Fy. unfold tuples. rewrite EqualFunc_swap. destruct (EqualFunc _ _ _); [|done]. cbn [negb].
  destruct (Tuple_Rest x) as [r|], (Tuple_Rest y) as [r'|]; try done; [|by apply detail_swap].
  rewrite same_member_swap. destruct (same_member _ _ _); [|done]. by apply detail_swap.
Qed.

Lemma narrowedBy_flipped win lose wx lx rel : narrowedBy win lose wx lx (flipped rel) = flipped (narrowedBy win lose wx lx rel).
Proof using Type. unfold narrowedBy. destruct (_ && _); [done|]. by destruct (negb _). Qed.

Lemma contained_swap ae be ax bx : fits_extras ax → fits_extras bx → contained deeper' be ae bx ax = flipped (contained deeper ae be ax bx).
Proof using All.
  intros Fa Fb. unfold contained. rewrite deeper_swap.
  rewrite !(flipped_fixed _ relMeet), !(flipped_fixed _ relDisjoint), !(flipped_fixed _ relSame) by done.
  destruct (bool_decide (deeper ae be = relMeet)); [done|].
  rewrite (andb_comm (TypeRef_Nullable be)), (andb_comm (admitsEmpty bx)). destruct (_ && _); [done|].
  rewrite (byNull_swap ae be).
  replace (if bool_decide (deeper ae be = relSame) then flipped (byNull ae be) else flipped (deeper ae be)) with
    (flipped (if bool_decide (deeper ae be = relSame) then byNull ae be else deeper ae be)) by by destruct (bool_decide _).
  generalize (if bool_decide (deeper ae be = relSame) then byNull ae be else deeper ae be). intros rel.
  rewrite flipped_A, flipped_B, (flipped_fixed _ relSame) by done.
  destruct rel; cbn [flipped]; repeat first [rewrite bool_decide_true by done | rewrite bool_decide_false by done]; try done.
  - by apply detail_swap.
  - by rewrite <-(narrowedBy_flipped _ _ _ _ relANarrower).
  - by rewrite <-(narrowedBy_flipped _ _ _ _ relBNarrower).
Qed.
End Members.

Definition fits_node (td : TypeDef) : Prop := fits_bounds (boundsOf td).

Section Nodes.
Context (deeper deeper' : TypeRef → TypeRef → relation).
Hypothesis deeper_swap : ∀ x y : TypeRef, deeper' y x = flipped (deeper x y).

Lemma boundedNodes_swap ta tb depth : fits_node ta → fits_node tb → boundedNodes deeper' tb ta depth = flipped (boundedNodes deeper ta tb depth).
Proof using All.
  destruct ta, tb; try done; intros Fa Fb; cbn [boundedNodes].
  - rewrite sameNode_swap. destruct (sameNode _ _); [|done]. by apply boundsRelation_swap.
  - by apply contained_swap.
  - rewrite decide_swap. destruct (bool_decide _); [|done]. by apply contained_swap.
  - destruct (0 <? depth); [done|]. by apply tuples_swap.
Qed.
End Nodes.

Section Registry.
Context (Quote : gostring → gostring) (url_Parse : gostring → option gostring).
Context (Resolve : TypeID → option TypeDef) (WritesReference : gostring → bool).
Context (sites : declarationSites).
(** Two positions read one base whichever is named first. *)
Hypothesis alike_sym : ∀ p q, alike sites p q = alike sites q p.

Definition swapped : declarationSites := mkSites ((written sites).2, (written sites).1) (alike sites).

Lemma copies_swap a ta b tb : copies WritesReference swapped b tb a ta = flipped (copies WritesReference sites a ta b tb).
Proof using alike_sym.
  unfold copies, swapped. cbn [written alike fst snd].
  rewrite (orb_comm (hoistedAt tb _)), (orb_comm (keepsReference _ tb)), alike_sym.
  destruct (_ && negb _); [done|]. unfold sameNodes. rewrite (byNull_swap a b).
  by destruct (hoistedAt ta _), (hoistedAt tb _).
Qed.

Lemma structures_swap a ta b tb : structures Resolve WritesReference swapped b tb a ta = flipped (structures Resolve WritesReference sites a ta b tb).
Proof using alike_sym.
  unfold structures. rewrite copies_swap. by destruct (structure_within Resolve a ta b tb), (structure_within Resolve b tb a ta).
Qed.

Section Members.
Context (deeper deeper' : TypeRef → TypeRef → relation).
Hypothesis deeper_swap : ∀ x y : TypeRef, deeper' y x = flipped (deeper x y).

Lemma two_nodes_swap a ta b tb depth : fits_node ta → fits_node tb →
  (if sameNode tb ta then copies WritesReference swapped b tb a ta
   else let rel := boundedNodes deeper' tb ta depth in
     if bool_decide (rel = relSame) then copies WritesReference swapped b tb a ta
     else if bool_decide (rel = relUnrelated) then structures Resolve WritesReference swapped b tb a ta else rel) =
  flipped (if sameNode ta tb then copies WritesReference sites a ta b tb
   else let rel := boundedNodes deeper ta tb depth in
     if bool_decide (rel = relSame) then copies WritesReference sites a ta b tb
     else if bool_decide (rel = relUnrelated) then structures Resolve WritesReference sites a ta b tb else rel).
Proof using All.
  intros Fa Fb. rewrite sameNode_swap, copies_swap, structures_swap, (boundedNodes_swap deeper deeper') by done.
  destruct (sameNode ta tb); [done|]. cbv zeta. rewrite (flipped_fixed _ relSame), (flipped_fixed _ relUnrelated) by done.
  repeat case_match; done.
Qed.

Lemma arms_swap a ta b tb depth : fits_node ta → fits_node tb →
  arms url_Parse Resolve WritesReference swapped deeper' b tb a ta depth = flipped (arms url_Parse Resolve WritesReference sites deeper a ta b tb depth).
Proof using All.
  intros Fa Fb. destruct ta, tb; cbn [arms]; try by rewrite ?flipped_flipped.
  all: try by apply two_nodes_swap.
  by rewrite Relate_flipped, fromSpelling_flipped.
Qed.
End Members.

Lemma classify_swap a ta b tb : classify Quote url_Parse Resolve b tb a ta = flipped (classify Quote url_Parse Resolve a ta b tb).
Proof using Type.
  unfold classify. destruct (kindOf Resolve a) as [ak|], (kindOf Resolve b) as [bk|].
  - rewrite orb_comm. destruct (_ || bool_decide (prim bk = _)); [done|].
    rewrite (relateKinds_swap ak bk), (flipped_fixed _ relDisjoint), <-!orb_assoc, (orb_comm (enumMisses _ tb _ _)) by done. by destruct (_ || _).
  - destruct (bool_decide _); [done|]. by rewrite flipped_flipped.
  - by destruct (bool_decide _).
  - rewrite (andb_comm (isLiteral _)). destruct (_ && _); [done|].
    rewrite (andb_comm (saysItsValues _)), decide_swap. by destruct (_ && negb _).
Qed.

(** What the judgment compares: bounds the tree's 64-bit integers hold, and one
    identifier for the type every value is of. *)
Hypothesis node_fits : ∀ id td, Resolve id = Some td → fits_node td.
Hypothesis one_top : ∀ i j ti tj, Resolve i = Some ti → Resolve j = Some tj → isTop ti = true → isTop tj = true → i = j.

Lemma relateAt_swap fuel a b depth :
  relateAt Quote url_Parse Resolve WritesReference swapped fuel b a depth =
  flipped (relateAt Quote url_Parse Resolve WritesReference sites fuel a b depth).
Proof using All.
  revert a b depth. induction fuel as [|fuel IH]; intros a b depth; cbn [relateAt]; rewrite decide_swap;
    (destruct (bool_decide _) eqn:Eid; [done|]); (destruct (_ <? _); [done|]); [done|].
  apply bool_decide_eq_false in Eid.
  destruct (Resolve (TypeRef_Target a)) as [ta|] eqn:Ea, (Resolve (TypeRef_Target b)) as [tb|] eqn:Eb; try done.
  rewrite (orb_comm (isDegraded tb)). destruct (_ || _); [done|].
  destruct (isTop ta) eqn:Ta, (isTop tb) eqn:Tb; [|done|done|].
  { contradict Eid. by eapply one_top. }
  rewrite (arms_swap (λ x y : TypeRef, relateAt Quote url_Parse Resolve WritesReference sites fuel x y (S depth))) by (try done; by eapply node_fits).
  cbv zeta. rewrite (flipped_fixed _ relUnrelated), classify_swap by done. by destruct (negb _).
Qed.
End Registry.

(** ** What composes what *)

Section Composition.
Context (Resolve : TypeID → option TypeDef).
Implicit Types (part target : TypeID) (parts queue : list TypeID) (seen : gset TypeID).

(** One type names another its values are also values of. *)
Definition part_of id part : Prop := ∃ td, Resolve id = Some td ∧ part ∈ composedOf td.

Lemma meet_parts_spec target parts : ∀ seen queue found seen' queue',
  meet_parts target parts seen queue = (found, seen', queue') →
  (if found : bool then target ∈ parts
   else target ∉ parts ∧ list_to_set parts ∪ seen = seen' ∧ length queue + size seen' = size seen + length queue' ∧
     (∀ x, x ∈ queue → x ∈ queue') ∧ (∀ x, x ∈ queue' → x ∈ queue ∨ x ∈ parts) ∧ (∀ x, x ∈ parts → x ∈ seen ∨ x ∈ queue')).
Proof.
  induction parts as [|part parts IH]; intros seen queue found seen' queue'; cbn [meet_parts].
  { intros [= <- <- <-]. repeat split; [set_solver|set_solver|lia|done|by left|set_solver]. }
  destruct (bool_decide _) eqn:Et; [apply bool_decide_eq_true in Et as ->; intros [= <- <- <-]; set_solver|].
  apply bool_decide_eq_false in Et.
  destruct (bool_decide (part ∈ seen)) eqn:Es; intros H; apply IH in H; (destruct found; [set_solver|]);
    destruct H as (Ht & <- & Hl & Hq & Hq' & Hp).
  - apply bool_decide_eq_true in Es. clear IH. split_and!; [|cbn [list_to_set]; clear -Es; set_solver|done|done| |].
    + intros [->|H]%elem_of_cons; [done|by apply Ht].
    + intros x [?|?]%Hq'; [by left|right; by apply elem_of_cons; right].
    + intros x [->|Hx]%elem_of_cons; [by left|by apply Hp].
  - apply bool_decide_eq_false in Es. clear IH. split_and!; [|cbn [list_to_set]; clear; set_solver| | | |].
    + intros [->|H]%elem_of_cons; [done|by apply Ht].
    + cbn [length] in Hl. rewrite (size_union {[part]}), size_singleton in Hl by (clear -Es; set_solver). lia.
    + intros x Hx. apply Hq. by apply elem_of_cons; right.
    + intros x [[->|?]%elem_of_cons|?]%Hq'; [right; by apply elem_of_cons; left|by left|right; by apply elem_of_cons; right].
    + intros x [->|Hx]%elem_of_cons; [right; apply Hq, elem_of_cons; by left|].
      destruct (Hp x Hx) as [[->%elem_of_singleton|?]%elem_of_union|?]; [right; apply Hq, elem_of_cons; by left|by left|by right].
Qed.

(** Turns taken and types waiting make up the types met. *)
Lemma composes_loop_enough fuel k turns target seen queue : size seen = turns + length queue → S maxComposedParts ≤ fuel + turns →
  composes_loop Resolve (fuel + k) target seen queue = composes_loop Resolve fuel target seen queue.
Proof.
  revert turns seen queue. induction fuel as [|fuel IH]; intros turns seen queue Hs Hf.
  { destruct k, queue as [|id queue]; try done. cbn [composes_loop Nat.add]. rewrite (proj2 (Nat.ltb_lt _ _)); [done|].
    cbn [length] in Hs. unfold maxComposedParts in *. lia. }
  cbn [composes_loop Nat.add]. destruct queue as [|id queue]; [done|]. destruct (_ <? _); [done|]. cbn [length] in Hs.
  destruct (Resolve id); [|apply (IH (S turns)); lia].
  destruct (meet_parts _ _ _ _) as [[found seen'] queue'] eqn:Em. apply meet_parts_spec in Em.
  destruct found; [done|]. destruct Em as (_ & _ & Hl & _). apply (IH (S turns)); lia.
Qed.

Lemma composes_loop_sound fuel : ∀ id target seen queue, (∀ x, x ∈ queue → rtc part_of id x) →
  composes_loop Resolve fuel target seen queue = true → tc part_of id target.
Proof.
  induction fuel as [|fuel IH]; intros id target seen queue Hq; cbn [composes_loop]; [done|].
  destruct queue as [|x queue]; [done|]. destruct (_ <? _); [done|].
  assert (rtc part_of id x) as Hx by (apply Hq; set_solver).
  destruct (Resolve x) as [td|] eqn:Ex; [|apply IH; set_solver].
  destruct (meet_parts _ _ _ _) as [[found seen'] queue'] eqn:Em. apply meet_parts_spec in Em. destruct found.
  - intros _. eapply tc_rtc_l; [done|]. apply tc_once. by exists td.
  - destruct Em as (_ & _ & _ & _ & Hq' & _). apply IH. intros y Hy. apply Hq' in Hy as [Hy|Hy]; [apply Hq; set_solver|].
    eapply rtc_r; [done|]. by exists td.
Qed.

(** Every type met and no longer waiting has had its parts met, the target not among them. *)
Definition worked target seen queue : Prop :=
  ∀ x part, x ∈ seen → x ∉ queue → part_of x part → part ∈ seen ∧ part ≠ target.

Lemma composes_loop_complete (R : gset TypeID) fuel : ∀ turns target seen queue,
  (∀ x part, x ∈ R → part_of x part → part ∈ R) → size R ≤ maxComposedParts → seen ⊆ R → (∀ x, x ∈ queue → x ∈ seen) →
  size seen = turns + length queue → S maxComposedParts ≤ fuel + turns → worked target seen queue →
  composes_loop Resolve fuel target seen queue = false → ∃ closed : gset TypeID, seen ⊆ closed ∧ worked target closed [].
Proof.
  induction fuel as [|fuel IH]; intros turns target seen queue HR Hsize Hseen Hq Hs Hf Hw.
  { pose proof (subseteq_size _ _ Hseen). lia. }
  cbn [composes_loop]. destruct queue as [|id queue]; [intros _; by exists seen|].
  rewrite (proj2 (Nat.ltb_ge _ _)) by (pose proof (subseteq_size _ _ Hseen); lia). cbn [length] in Hs.
  destruct (Resolve id) as [td|] eqn:Ex.
  2:{ apply (IH (S turns)); [done..|set_solver|lia|lia|].
      intros x part Hx Hnq Hp. destruct (decide (x = id)) as [->|]; [destruct Hp as (? & ? & _); congruence|apply (Hw x); set_solver]. }
  destruct (meet_parts _ _ _ _) as [[found seen'] queue'] eqn:Em. apply meet_parts_spec in Em. destruct found; [done|].
  destruct Em as (Ht & <- & Hl & Hin & Hq' & Hp). intros Hfalse.
  edestruct (IH (S turns) target (list_to_set (composedOf td) ∪ seen) queue') as (closed & Hsub & Hcl); [done|done|..|done|].
  - assert (id ∈ R) by set_solver. intros x Hx. apply elem_of_union in Hx as [Hx|Hx]; [|by apply Hseen].
    apply (HR id); [done|]. exists td. split; [done|]. set_solver.
  - intros x Hx. apply Hq' in Hx as [Hx|Hx]; set_solver.
  - lia.
  - lia.
  - intros x part Hx Hnq (td' & Ex' & Hpart). destruct (decide (x = id)) as [->|Hne].
    + rewrite Ex in Ex'. injection Ex' as <-. split; [set_solver|]. intros ->. by apply Ht.
    + apply elem_of_union in Hx as [Hx|Hx].
      * assert (x ∈ composedOf td) as Hc by set_solver. destruct (Hp x Hc) as [Hx'|]; [|done].
        destruct (Hw x part) as [? ?]; [done| |by exists td'|split; set_solver]. intros Hxq. apply elem_of_cons in Hxq as [?|Hxq]; [done|by apply Hnq, Hin].
      * destruct (Hw x part) as [? ?]; [done| |by exists td'|split; set_solver]. intros Hxq. apply elem_of_cons in Hxq as [?|Hxq]; [done|by apply Hnq, Hin].
  - exists closed. split; [set_solver|done].
Qed.

Lemma worked_reach target (closed : gset TypeID) id part : worked target closed [] → id ∈ closed → tc part_of id part → part ∈ closed ∧ part ≠ target.
Proof.
  intros Hw Hid H. induction H as [x y H|x y z H _ IH]; [by apply (Hw x); [|set_solver|]|].
  apply IH. by apply (Hw x); [|set_solver|].
Qed.
End Composition.

(** ** Levels enough *)

Section Levels.
Context (Quote : gostring → gostring) (url_Parse : gostring → option gostring).
Context (Resolve : TypeID → option TypeDef) (WritesReference : gostring → bool) (sites : declarationSites).

(** Past [maxJudgeDepth] a level reads no further, so the levels given are enough. *)
Lemma relateAt_enough fuel k a b depth : S maxJudgeDepth ≤ fuel + depth →
  relateAt Quote url_Parse Resolve WritesReference sites (fuel + k) a b depth =
  relateAt Quote url_Parse Resolve WritesReference sites fuel a b depth.
Proof using Type.
  revert a b depth. induction fuel as [|fuel IH]; intros a b depth Hf.
  { destruct k; [done|]. cbn [relateAt Nat.add]. destruct (bool_decide _); [done|]. by rewrite (proj2 (Nat.ltb_lt _ _)). }
  cbn [relateAt Nat.add].
  replace (λ x y : TypeRef, relateAt Quote url_Parse Resolve WritesReference sites (fuel + k) x y (S depth)) with
    (λ x y : TypeRef, relateAt Quote url_Parse Resolve WritesReference sites fuel x y (S depth)); [done|].
  extensionality x. extensionality y. symmetry. apply IH. lia.
Qed.

Lemma forallb_same {A} (f g : A → bool) l : (∀ e, f e = g e) → forallb f l = forallb g l.
Proof. intros H. induction l as [|e l IH]; [done|]. cbn [forallb]. by rewrite H, IH. Qed.

Lemma admitsAt_enough fuel k ref v depth : 2 + maxJudgeDepth ≤ fuel + depth →
  admitsAt Quote url_Parse Resolve (fuel + k) ref v depth = admitsAt Quote url_Parse Resolve fuel ref v depth.
Proof using Type.
  revert ref v depth. induction fuel as [|fuel IH]; intros ref v depth Hf.
  { destruct k; [done|]. cbn [admitsAt Nat.add]. destruct (Resolve _); [|done]. by rewrite (proj2 (Nat.ltb_lt _ _)) by lia. }
  cbn [admitsAt Nat.add]. destruct (Resolve _) as [td|]; [|done]. destruct (_ <? _); [done|]. destruct (bool_decide _); [done|].
  destruct td; try done.
  - destruct (Scalar_Base _); [|done]. rewrite IH by lia. done.
  - f_equal. apply forallb_same. intros e. apply IH. lia.
  - f_equal. apply forallb_same. intros e. apply IH. lia.
Qed.
End Levels.

(** ** What the judgment promises *)

Section Promises.
Context (Quote : gostring → gostring) (url_Parse : gostring → option gostring).
Context (Resolve : TypeID → option TypeDef) (WritesReference : gostring → bool).

(** C5: The judgment of two types of one field does not depend on which of the two
    was declared first: with the types and the places they were written at exchanged,
    a narrowing names the other side and every other verdict stands. This holds of
    every registry whose bounds are numbers the tree's 64-bit integers hold and which
    has one identifier for the type every value is of, and wherever reading one base
    from two positions does not depend on which is named first; levels past those
    given change nothing. *)
Theorem relate_flipped (sites : declarationSites) (a b : TypeRef) (k : nat)
  (Halike : ∀ p q, alike sites p q = alike sites q p)
  (Hfits : ∀ id td, Resolve id = Some td → fits_node td)
  (Htop : ∀ i j ti tj, Resolve i = Some ti → Resolve j = Some tj → isTop ti = true → isTop tj = true → i = j) :
  relate Quote url_Parse Resolve WritesReference (swapped sites) b a =
    flipped (relate Quote url_Parse Resolve WritesReference sites a b) ∧
  relateAt Quote url_Parse Resolve WritesReference sites (1 + maxJudgeDepth + k) a b 0 =
    relate Quote url_Parse Resolve WritesReference sites a b.
Proof using Type. split; [by apply relateAt_swap|]. apply relateAt_enough. lia. Qed.
End Promises.

Section Chains.
Context (Resolve : TypeID → option TypeDef).

(** C40: One type composes another, through the bases and mixins that say its values
    are also values of theirs, exactly when a chain of them leads there: what the
    worklist answers is right of every registry in which no more than
    [maxComposedParts] types are within reach, and a chain it finds is there in any
    registry; turns past those given change nothing. *)
Theorem composes_exact (id target : TypeID) (k : nat) :
  (composes Resolve id target = true → tc (part_of Resolve) id target) ∧
  (∀ R : gset TypeID, id ∈ R → (∀ x part, x ∈ R → part_of Resolve x part → part ∈ R) → size R ≤ maxComposedParts →
     tc (part_of Resolve) id target → composes Resolve id target = true) ∧
  composes_loop Resolve (S maxComposedParts + k) target {[id]} [id] = composes Resolve id target.
Proof using Type.
  split_and!.
  - apply composes_loop_sound. by intros x ->%list_elem_of_singleton.
  - intros R Hid HR Hs Htc. destruct (composes Resolve id target) eqn:E; [done|].
    destruct (composes_loop_complete Resolve R (S maxComposedParts) 0 target {[id]} [id]) as (closed & Hsub & Hw); try done.
    + set_solver.
    + by intros x ->%list_elem_of_singleton; apply elem_of_singleton.
    + by rewrite size_singleton.
    + intros x part ->%elem_of_singleton []. by apply list_elem_of_singleton.
    + destruct (worked_reach Resolve target closed id target) as [_ []]; [done|set_solver|done|done].
  - apply (composes_loop_enough Resolve _ k 0); [by rewrite size_singleton|lia].
Qed.
End Chains.

(** ** The promises, of a small registry *)

Definition text_id : TypeID := go "string"%string.
Definition short_id : TypeID := go "short"%string.
Definition long_id : TypeID := go "long"%string.
Definition to (id : TypeID) : TypeRef := mkTypeRef id false [].
Definition upto (n : Z) : option Constraints := Some {| Min := None; Max := None; ExclusiveMin := None; ExclusiveMax := None; MultipleOf := None;
     Precision := None; Scale := None; MinLength := None; MaxLength := None; Pattern := []; PatternMessage := []; MinItems := None; MaxItems := Some n;
     UniqueItems := false; MinProps := None; MaxProps := None |}.
(** A string, a list of three of them at most, and one of five at most. *)
Definition lists_of_text (id : TypeID) : option TypeDef :=
  if bool_decide (id = text_id) then Some (PrimitiveDef (mkPrimitive zeroTypeCommon PrimString))
  else if bool_decide (id = short_id) then Some (ListDef (mkList zeroTypeCommon (to text_id) (upto 3) None))
  else if bool_decide (id = long_id) then Some (ListDef (mkList zeroTypeCommon (to text_id) (upto 5) None))
  else if bool_decide (id = go "model"%string) then Some (ModelDef (mkModel zeroTypeCommon [] [] (Some (to long_id)) [] [] None [] None false false [] None [] false))
  else None.
Definition never : declarationSites := mkSites (zeroProvenance, zeroProvenance) (λ _ _, false).

Lemma relate_flipped_witness :
  relate (λ t, t) (λ _, None) lists_of_text (λ _, false) never (to short_id) (to long_id) = relANarrower ∧
  relate (λ t, t) (λ _, None) lists_of_text (λ _, false) (swapped never) (to long_id) (to short_id) = relBNarrower.
Proof.
  assert (E : relate (λ t, t) (λ _, None) lists_of_text (λ _, false) never (to short_id) (to long_id) = relANarrower) by (vm_compute; reflexivity).
  split; [exact E|].
  destruct (relate_flipped (λ t, t) (λ _, None) lists_of_text (λ _, false) never (to short_id) (to long_id) 0) as [H _].
  - done.
  - intros id td. unfold lists_of_text. repeat case_bool_decide; intros [= <-]; exact I || (constructor; exact I) .
  - intros i j ti tj. unfold lists_of_text. repeat case_bool_decide; intros [= <-] [= <-] ?; done.
  - rewrite H, E. reflexivity.
Defined.

Lemma composes_exact_witness : composes lists_of_text (go "model"%string) long_id = true ∧ composes lists_of_text long_id text_id = false.
Proof.
  split; [|vm_compute; reflexivity].
  destruct (composes_exact lists_of_text (go "model"%string) long_id 0) as (_ & H & _).
  apply (H {[go "model"%string; long_id]}).
  - set_solver.
  - intros x part Hx (td & Htd & Hp). apply elem_of_union in Hx as [Hx|Hx]; apply elem_of_singleton in Hx as ->; vm_compute in Htd; injection Htd as <-.
    + apply list_elem_of_singleton in Hp as ->. set_solver.
    + by apply not_elem_of_nil in Hp.
  - vm_compute. lia.
  - apply tc_once. eexists. split; [vm_compute; reflexivity|]. by apply list_elem_of_singleton.
Defined.
