(* ===== verification/Fold.v ===== *)
(** * The fold of one field's declarations

    [fold.go], [compose.go], [identity.go], [losers.go], [nullability.go],
    [visibility.go] and [merge.go] of [src/compilers/openapi/internal/merge], with
    what [bounds.go] folds of the nodes. A field declared more than once under
    allOf folds to one property: its type is the one that holds the most of the
    declarations' types, or the composition of models no type holds, and what a
    declaration says that the field does not carry is reported there and the
    declaration kept verbatim beside the field. The registry is a type of states
    with what resolves and what mints; what renders a declaration verbatim answers
    with bytes, an error, or is not there. *)
From S2P Require Import Prelude GoLib Decimal BigVal IR Ids RegistryRules Spelling Formats DeepEqual Constraints Value Judge Findings Pointer.
Implicit Types (p : Property) (i j k : nat) (td : TypeDef) (ref : TypeRef).

(** ** A property, a field at a time *)

Definition set_ID (x : PropID) p : Property :=
  let '(mkProperty _ n w wf wi xo t rq pr co da vi df cs en ar fl eh ep se xm xs dc dp av um pv) := p in
  mkProperty x n w wf wi xo t rq pr co da vi df cs en ar fl eh ep se xm xs dc dp av um pv.
Definition set_Type (x : TypeRef) p : Property :=
  let '(mkProperty i n w wf wi xo _ rq pr co da vi df cs en ar fl eh ep se xm xs dc dp av um pv) := p in
  mkProperty i n w wf wi xo x rq pr co da vi df cs en ar fl eh ep se xm xs dc dp av um pv.
Definition set_Required (x : bool) p : Property :=
  let '(mkProperty i n w wf wi xo t _ pr co da vi df cs en ar fl eh ep se xm xs dc dp av um pv) := p in
  mkProperty i n w wf wi xo t x pr co da vi df cs en ar fl eh ep se xm xs dc dp av um pv.
Definition set_Visibility (x : Visibility) p : Property :=
  let '(mkProperty i n w wf wi xo t rq pr co da _ df cs en ar fl eh ep se xm xs dc dp av um pv) := p in
  mkProperty i n w wf wi xo t rq pr co da x df cs en ar fl eh ep se xm xs dc dp av um pv.
Definition set_Default (x : option Value) p : Property :=
  let '(mkProperty i n w wf wi xo t rq pr co da vi _ cs en ar fl eh ep se xm xs dc dp av um pv) := p in
  mkProperty i n w wf wi xo t rq pr co da vi x cs en ar fl eh ep se xm xs dc dp av um pv.
Definition set_Constraints (x : option Constraints) p : Property :=
  let '(mkProperty i n w wf wi xo t rq pr co da vi df _ en ar fl eh ep se xm xs dc dp av um pv) := p in
  mkProperty i n w wf wi xo t rq pr co da vi df x en ar fl eh ep se xm xs dc dp av um pv.
Definition set_Secret (x : bool) p : Property :=
  let '(mkProperty i n w wf wi xo t rq pr co da vi df cs en ar fl eh ep _ xm xs dc dp av um pv) := p in
  mkProperty i n w wf wi xo t rq pr co da vi df cs en ar fl eh ep x xm xs dc dp av um pv.
Definition set_XML (x : option XMLHints) p : Property :=
  let '(mkProperty i n w wf wi xo t rq pr co da vi df cs en ar fl eh ep se _ xs dc dp av um pv) := p in
  mkProperty i n w wf wi xo t rq pr co da vi df cs en ar fl eh ep se x xs dc dp av um pv.
Definition set_Examples (x : list Example) p : Property :=
  let '(mkProperty i n w wf wi xo t rq pr co da vi df cs en ar fl eh ep se xm _ dc dp av um pv) := p in
  mkProperty i n w wf wi xo t rq pr co da vi df cs en ar fl eh ep se xm x dc dp av um pv.
Definition set_Docs (x : Docs) p : Property :=
  let '(mkProperty i n w wf wi xo t rq pr co da vi df cs en ar fl eh ep se xm xs _ dp av um pv) := p in
  mkProperty i n w wf wi xo t rq pr co da vi df cs en ar fl eh ep se xm xs x dp av um pv.
Definition set_Deprecation (x : option Deprecation) p : Property :=
  let '(mkProperty i n w wf wi xo t rq pr co da vi df cs en ar fl eh ep se xm xs dc _ av um pv) := p in
  mkProperty i n w wf wi xo t rq pr co da vi df cs en ar fl eh ep se xm xs dc x av um pv.
Definition set_Unmodeled (x : Unmodeled) p : Property :=
  let '(mkProperty i n w wf wi xo t rq pr co da vi df cs en ar fl eh ep se xm xs dc dp av _ pv) := p in
  mkProperty i n w wf wi xo t rq pr co da vi df cs en ar fl eh ep se xm xs dc dp av x pv.
Definition set_Provenance (x : Provenance) p : Property :=
  let '(mkProperty i n w wf wi xo t rq pr co da vi df cs en ar fl eh ep se xm xs dc dp av um _) := p in
  mkProperty i n w wf wi xo t rq pr co da vi df cs en ar fl eh ep se xm xs dc dp av um x.

(** ** Visibility *)

(** [slices.Compare] at [ir.Lifecycle]. *)
Fixpoint slices_Compare (l l' : list gostring) : Z :=
  match l, l' with
  | [], [] => 0
  | [], _ => -1
  | _, [] => 1
  | x :: l, y :: l' => if (strings_Compare x y =? 0)%Z then slices_Compare l l' else strings_Compare x y
  end.

Definition intersectLifecycles (a b : list Lifecycle) : list Lifecycle :=
  let '(a, b) := if (0 <? slices_Compare a b)%Z then (b, a) else (a, b) in filter (.∈ b) a.

Definition mergeVisibility (dst src : Visibility) : Visibility :=
  if Visibility_None dst || Visibility_None src then mkVisibility [] true
  else if is_nil (Visibility_Only dst) then src
  else if is_nil (Visibility_Only src) then dst
  else
    let only := intersectLifecycles (Visibility_Only dst) (Visibility_Only src) in
    if negb (is_nil only) then mkVisibility only false else mkVisibility [] true.

(** ** Null *)

Definition intersectNull (dst src : TypeRef) : TypeRef :=
  let n := TypeRef_Nullable dst && TypeRef_Nullable src in
  if n then mkTypeRef (TypeRef_Target dst) true (JoinInferred [TypeRef_Inferred dst; TypeRef_Inferred src])
  else mkTypeRef (TypeRef_Target dst) false [].

(** ** Declarations *)

(** What renders a declaration verbatim: nothing, bytes, or an error. *)
Abbreviation Source := (option (gostring + gostring)) (only parsing).
Record declaration := mkDeclaration { prop : Property; source : Source; secretBy : Inferred }.
Definition zeroDeclaration : declaration := mkDeclaration zeroProperty None [].
Implicit Types (d : declaration) (decls : list declaration).

Definition pointer_of d : gostring := Provenance_Pointer (Property_Provenance (prop d)).
Definition type_of d : TypeRef := Property_Type (prop d).

Record report := mkReport { r_sev : Severity; r_code : gostring; r_pointer : gostring; r_msg : gostring }.
Record note := mkNote { sev : Severity; n_code : gostring; msg : gostring; detail : gostring }.

Definition BudgetExceeded : gostring := go "openapi/budget-exceeded".
Definition ConflictingRedecl : gostring := go "openapi/conflicting-redeclaration".
Definition DegradedConstruct : gostring := go "openapi/degraded-construct".
Definition DisjointVisibility : gostring := go "openapi/disjoint-visibility".
Definition UnpreservableConstruct : gostring := go "openapi/unpreservable-construct".

Definition maxFoldDeclarations : nat := 64.

(** ** Where a field is declared *)

(** [jsontext.Pointer.Contains]. *)
Fixpoint Contains (p pc : gostring) : bool :=
  match p, pc with
  | [], [] => true
  | [], c :: _ => bool_decide (c = separator)
  | _ :: _, [] => false
  | x :: p, y :: pc => bool_decide (x = y) && Contains p pc
  end.

Definition schemaOf (pointer : gostring) : gostring := Parent (Parent pointer).

(** The schema widened until it holds [held]; each turn drops a token of it. *)
Fixpoint widen (fuel : nat) (schema held : gostring) : gostring :=
  match fuel with
  | O => schema
  | S fuel => if Contains schema held then schema else widen fuel (schemaOf schema) held
  end.

Definition span_step (found : gostring * gostring) d : gostring * gostring :=
  let '(schema, field) := found in
  let held := pointer_of d in
  if Contains schema held then (schema, field) else (widen (S (length schema)) schema held, held).

Definition fieldSpan decls : gostring * gostring :=
  match decls with
  | [] => ([], [])
  | d :: rest => foldl span_step (schemaOf (pointer_of d), pointer_of d) rest
  end.

(** ** What is kept verbatim *)

Definition losingDeclarationKey : gostring := go "openapi:conflicting-redeclaration".
Definition errNoSource : gostring := go "no source was recorded for the declaration".

Definition PreserveInto (um : gmap gostring UnmodeledEntry) (key raw : gostring) (reason : UnmodeledReason) (prov : Provenance)
    : gmap gostring UnmodeledEntry :=
  if is_nil raw then um else <[key := mkUnmodeledEntry reason raw prov]> um.

Definition render (s : Source) : gostring + gostring := match s with None => inr errNoSource | Some r => r end.

Definition keepLosingDeclaration (dst : Property) (loser : Provenance) (s : Source) : Property * list report :=
  let pointer := Provenance_Pointer loser in
  if is_nil pointer then (dst, [])
  else
    let key := losingDeclarationKey ++ pointer in
    match render s with
    | inr err =>
      (dst, [mkReport SeverityError UnpreservableConstruct pointer
        (key ++ go " could not be kept verbatim under Unmodeled and is represented in the IR in no form at all: " ++ err)])
    | inl raw => (set_Unmodeled (PreserveInto (Property_Unmodeled dst) key raw ReasonDegradedLowering loser) dst, [])
    end.

(** ** Bases *)

Definition SelectBase (refs : list nat) (discriminated : nat → bool) : option nat :=
  match refs with
  | [r] => Some r
  | _ => list_find (λ r, discriminated r = true) refs ≫= λ found, Some found.2
  end.

(** ** The fold *)

(** One model a field composes: the declaration naming it, and the model. *)
Record conjunct := mkConjunct { decl : nat; model_ : Model }.

(** What a fold settles before it writes anything: the judgments, whose type the
    field takes, whose types it holds, and the models it composes. *)
Record plan := mkPlan {
  p_decls : list declaration; p_field : gostring; rel : nat → nat → relation;
  winner : nat; cone : nat → bool; conjuncts : list conjunct
}.
Implicit Types (pl : plan).

Definition nth_decl decls i : declaration := nth i decls zeroDeclaration.
Definition indices decls : list nat := seq 0 (length decls).
Definition holds (rel : nat → nat → relation) i j : bool :=
  bool_decide (rel i j = relSame) || bool_decide (rel i j = relANarrower) || bool_decide (rel i j = relMeet).

Definition width (rel : nat → nat → relation) (n i : nat) : nat := length (filter (λ j, holds rel i j = true) (seq 0 n)).
Definition wider (rel : nat → nat → relation) (n : nat) (best : nat * nat) i : nat * nat :=
  if best.2 <? width rel n i then (i, width rel n i) else best.
Definition widestCone (rel : nat → nat → relation) (n : nat) : nat := (foldl (wider rel n) (0, 0) (seq 0 n)).1.

Definition heldByAnother (rel : nat → nat → relation) (n i : nat) : bool :=
  existsb (λ j, bool_decide (rel j i = relANarrower) || (bool_decide (rel j i = relSame) && (j <? i))) (seq 0 n).

Definition disagreement_text (Quote : gostring → gostring) (d : disagreement) : gostring :=
  let show := if quoted d then Quote else id in
  go "conflicting " ++ on d ++ go " (" ++ show (left_value d) ++ go " and " ++ show (right_value d) ++ go ")".

Section Fold.
Context (Quote : gostring → gostring) (url_Parse : gostring → option gostring) (WritesReference : gostring → bool).
(** The registry: its states, what one resolves, what minting makes of it, and
    where a node stands; the identity a pointer takes; and which positions read
    a reference against one base. *)
Context {R : Type} (Resolve : R → TypeID → option TypeDef) (Mint : R → gostring → TypeDef → R * TypeID)
  (Interned : R → gostring → bool) (PropAt : gostring → PropID) (Alike : Provenance → Provenance → bool).
Implicit Types (r : R).

Record folding := mkFolding { merged : Property; notes : list (list note); lost : list bool; registry : R }.
Implicit Types (f : folding).

Definition with_merged f p : folding := mkFolding p (notes f) (lost f) (registry f).

Definition sites_of d d' : declarationSites := mkSites (Property_Provenance (prop d), Property_Provenance (prop d')) Alike.
Definition judge r d d' : relation := relate Quote url_Parse (Resolve r) WritesReference (sites_of d d') (type_of d) (type_of d').

(** Every pair is judged once, the earlier against the later. *)
Definition judged r decls i j : relation :=
  if i =? j then relSame
  else if i <? j then judge r (nth_decl decls i) (nth_decl decls j)
  else flipped (judge r (nth_decl decls j) (nth_decl decls i)).

Definition model r ref : option Model :=
  match Resolve r (TypeRef_Target ref) with
  | Some td => match unaliased (Resolve r) td with ModelDef m => Some m | _ => None end
  | None => None
  end.

Fixpoint conjuncts_of r decls (rel : nat → nat → relation) (js : list nat) : option (list conjunct) :=
  match js with
  | [] => Some []
  | i :: js =>
    if heldByAnother rel (length decls) i then conjuncts_of r decls rel js
    else m ← model r (type_of (nth_decl decls i)); cons (mkConjunct i m) <$> conjuncts_of r decls rel js
  end.
Definition composition r decls (rel : nat → nat → relation) : list conjunct :=
  let found := default [] (conjuncts_of r decls rel (indices decls)) in if length found <? 2 then [] else found.

Definition newPlan r decls (field : gostring) : plan :=
  let rel := judged r decls in
  let winner := widestCone rel (length decls) in
  let conjuncts := composition r decls rel in
  mkPlan decls field rel winner (λ i, (0 <? length conjuncts) || holds rel winner i) conjuncts.

Definition newFolding r decls : folding :=
  mkFolding (prop (nth_decl decls 0)) (replicate (length decls) []) (replicate (length decls) false) r.

Section Plan.
Context (pl : plan).
Definition decl_at i : declaration := nth_decl (p_decls pl) i.
(** [folding.at]. *)
Definition at_ i : gostring := pointer_of (decl_at i).

Definition wire f : gostring := Quote (Property_WireName (merged f)).

Definition lose f i : folding := mkFolding (merged f) (notes f) (<[i := true]> (lost f)) (registry f).
Definition add_note f i (n : note) : folding := mkFolding (merged f) (alter (.++ [n]) i (notes f)) (lost f) (registry f).

Definition note_at f i (s : Severity) (c text : gostring) : folding := add_note f i (mkNote s c text []).

Definition disagree f i (kept_ : nat) (detail_ : gostring) : folding :=
  let f := lose f i in
  if existsb (λ n, bool_decide (detail n = detail_)) (nth i (notes f) []) then f
  else add_note f i (mkNote SeverityWarning ConflictingRedecl
    (go "declarations of field " ++ wire f ++ go " disagree: " ++ detail_ ++ go "; kept what the declaration at " ++ at_ kept_ ++
     go " says over the one at " ++ at_ i ++ go ", which is kept verbatim under Unmodeled") detail_).

Definition drop f i : folding :=
  let f := lose f i in
  let w := TypeRef_Target (type_of (decl_at (winner pl))) in
  let d := TypeRef_Target (type_of (decl_at i)) in
  let kept_at := go "kept the type the declaration at " ++ at_ (winner pl) ++ go " gives over the one at " ++ at_ i ++
                 go ", which is kept verbatim under Unmodeled" in
  let types := go "declarations of field " ++ wire f ++ go " give types " ++ w ++ go " and " ++ d in
  match rel pl (winner pl) i with
  | relDisjoint => disagree f i (winner pl) (go "incompatible types " ++ w ++ go " and " ++ d)
  | relOverlap | relBNarrower =>
    note_at f i SeverityInfo DegradedConstruct
      (types ++ go " whose values overlap but that the merge does not narrow to one; " ++ kept_at)
  | _ => note_at f i SeverityInfo DegradedConstruct (types ++ go " that the merge does not compare; " ++ kept_at)
  end.

Definition disagree_all f (m : meeting) : folding :=
  foldl (λ f '(i, kept_, d), disagree f i kept_ (disagreement_text Quote d)) f (log m).

(** *** Types *)

Definition targetsTop r ref : bool := match Resolve r (TypeRef_Target ref) with Some td => isTop td | None => false end.

Definition type_step (s : folding * option TypeRef) i : folding * option TypeRef :=
  let '(f, seeded) := s in
  let t := type_of (decl_at i) in
  if negb (cone pl i) then (drop f i, seeded)
  else if negb (bool_decide (rel pl (winner pl) i = relSame)) && targetsTop (registry f) t then (f, seeded)
  else (f, Some (match seeded with None => t | Some merged_ => intersectNull merged_ t end)).

Definition composed_of (base : option nat) : Model :=
  let refs := imap (λ k c, (k, mkTypeRef (TypeRef_Target (type_of (decl_at (decl c)))) false [])) (conjuncts pl) in
  mkModel zeroTypeCommon [] [] (snd <$> head (filter (λ e, Some e.1 = base) refs)) []
    (snd <$> filter (λ e, Some e.1 ≠ base) refs) None [] None false false [] None [] false.

Definition compose f : folding * TypeID :=
  let refs := fst <$> filter (λ e, hoistedAt (ModelDef (model_ e.2)) (Property_Provenance (prop (decl_at (decl e.2)))) = false)
                             (imap pair (conjuncts pl)) in
  let discriminated k := match conjuncts pl !! k with Some c => is_set (Model_Discriminator (model_ c)) | None => false end in
  let '(r, id) := Mint (registry f) (p_field pl) (ModelDef (composed_of (SelectBase refs discriminated))) in
  (mkFolding (merged f) (notes f) (lost f) r, id).

(** [nodeBounds], [allBounds] and [alike] of [bounds.go]. *)
Definition nodeBounds r ref : option Constraints :=
  match Resolve r (TypeRef_Target ref) with Some td => boundsOf td | None => None end.
Definition allBounds r p : option Constraints :=
  merge_Constraints (merge_Constraints (Some noConstraints) (Property_Constraints p)) (nodeBounds r (Property_Type p)).
Definition alike_types r d d' : bool :=
  match Resolve r (TypeRef_Target (type_of d)), Resolve r (TypeRef_Target (type_of d')) with
  | Some a, Some b =>
    bool_decide (boundedNodes (λ x y, relateAt Quote url_Parse (Resolve r) WritesReference (sites_of d d') maxJudgeDepth x y 1)
                   (withBounds a None) (withBounds b None) 0 = relSame)
  | _, _ => false
  end.

Definition foldNodeBounds f : folding * TypeID :=
  let target := TypeRef_Target (type_of (decl_at (winner pl))) in
  match Resolve (registry f) target with
  | None => (f, target)
  | Some node =>
    let met := meetConstraints (imap (λ i d,
      if (i =? winner pl) || bool_decide (rel pl (winner pl) i = relMeet) then nodeBounds (registry f) (type_of d) else None) (p_decls pl)) in
    let f := disagree_all f met in
    if sameBounds (kept met) (boundsOf node) then (f, target)
    else
      let '(r, id) := Mint (registry f) (p_field pl) (withBounds node (kept met)) in
      (mkFolding (merged f) (notes f) (lost f) r, id)
  end.

Definition foldType f : folding :=
  let '(f, seeded) := foldl type_step (f, None) (indices (p_decls pl)) in
  let t := default zeroTypeRef seeded in
  let '(f, target) := if 0 <? length (conjuncts pl) then compose f else foldNodeBounds f in
  with_merged f (set_Type (mkTypeRef target (TypeRef_Nullable t) (TypeRef_Inferred t)) (merged f)).

Definition foldConstraints f : folding :=
  let met := meetConstraints (imap (λ i d, if cone pl i then Property_Constraints (prop d) else None) (p_decls pl)) in
  let f := disagree_all f met in
  with_merged f (set_Constraints (kept met) (merged f)).

(** *** What is written once *)

(** The first declaration giving a detail settles it; a later one giving another
    is reported and lost. *)
Definition written_step {T} (detail_ : gostring) (of_ : nat → Property → option T) (same : T → T → bool)
    (s : folding * option (T * nat)) i : folding * option (T * nat) :=
  let '(f, found) := s in
  match of_ i (prop (decl_at i)), found with
  | None, _ => (f, found)
  | Some v, None => (f, Some (v, i))
  | Some v, Some (kept_, at__) =>
    if same kept_ v then (f, found)
    else
      (note_at (lose f i) i SeverityInfo DegradedConstruct
        (go "declarations of field " ++ wire f ++ go " give its " ++ detail_ ++ go " differently; kept the one the declaration at " ++
         at_ at__ ++ go " gives over the one at " ++ at_ i ++ go ", which is kept verbatim under Unmodeled"), found)
  end.
Definition firstWritten {T} f (detail_ : gostring) (of_ : nat → Property → option T) (same : T → T → bool) : folding * option T :=
  let '(f, found) := foldl (written_step detail_ of_ same) (f, None) (indices (p_decls pl)) in (f, fst <$> found).

(** *** Values *)

Definition isAnyField f : bool := TypeRef_Nullable (Property_Type (merged f)) || isAnyType (Resolve (registry f)) (Property_Type (merged f)).

Definition takes f i (v : Value) (nullable : bool) : bool :=
  if bool_decide (Kind v = ValueNull) then nullable
  else
    let r := registry f in
    let beyond := boundsBeyond (or_none (allBounds r (merged f))) (or_none (allBounds r (prop (decl_at i)))) in
    if negb (admitsConstraints Quote (Some beyond) v 0) then false
    else if (length (conjuncts pl) =? 0) &&
            (bool_decide (rel pl (winner pl) i = relSame) || alike_types r (decl_at (winner pl)) (decl_at i)) then true
    else
      let t := Property_Type (merged f) in
      admits Quote url_Parse (Resolve r) (mkTypeRef (TypeRef_Target t) nullable (TypeRef_Inferred t)) v.

Definition takesDefault f (nullable : bool) i : bool :=
  match Property_Default (prop (decl_at i)) with None => true | Some v => takes f i v nullable end.
Definition takesExamples f (nullable : bool) i : bool :=
  forallb (λ e, match Example_Value e with None => true | Some v => takes f i v nullable end) (Property_Examples (prop (decl_at i))).

Definition refused f (nullable : bool) i : list gostring :=
  (if takesDefault f nullable i then [] else [go "default"]) ++ (if takesExamples f nullable i then [] else [go "examples"]).

Definition value_step (nullable : bool) f i : folding :=
  if negb (cone pl i) then f
  else
    match refused f nullable i with
    | [] => f
    | names =>
      note_at (lose f i) i SeverityInfo DegradedConstruct
        (go "the merge cannot show that the type the declarations of field " ++ wire f ++ go " merge to admits the " ++
         strings_Join names (go " and ") ++ go " this declaration gives; not adopted, with this declaration verbatim under Unmodeled")
    end.

Definition without_value (e : Example) : Example :=
  let '(mkExample n s d _ h i o er u um) := e in mkExample n s d None h i o er u um.
Definition same_example (x y : Example) : bool :=
  bool_decide (without_value x = without_value y) &&
  match Example_Value x, Example_Value y with
  | None, None => true
  | Some v, Some w => sameValue Quote v w
  | _, _ => false
  end.
Fixpoint sameExamples (a b : list Example) : bool :=
  match a, b with [], [] => true | x :: a, y :: b => same_example x y && sameExamples a b | _, _ => false end.

(** What a declaration gives, where [b] lets the field take it. *)
Definition given {T} (b : bool) (x : option T) : option T := if b then x else None.
Definition nonempty {T} (l : list T) : option (list T) := if is_nil l then None else Some l.

Definition foldValues f : folding :=
  let nullable := isAnyField f in
  let taken := f in
  let f := foldl (value_step nullable) f (indices (p_decls pl)) in
  let '(f, default_) := firstWritten f (go "default")
    (λ i p, given (cone pl i && takesDefault taken nullable i) (Property_Default p)) (sameValue Quote) in
  let f := with_merged f (set_Default default_ (merged f)) in
  let '(f, examples) := firstWritten f (go "examples")
    (λ i p, given (cone pl i && takesExamples taken nullable i) (nonempty (Property_Examples p))) sameExamples in
  with_merged f (set_Examples (default [] examples) (merged f)).

(** *** Use *)

Definition join_marker (x : Inferred) p : Property :=
  let v := Property_Provenance p in
  set_Provenance (mkProvenance (Provenance_Source v) (Provenance_Pointer v) (Provenance_Position v) (Provenance_Node v)
    (JoinInferred [Provenance_Inferred v; x])) p.

Definition use_step f i : folding :=
  let d := decl_at i in
  let m := set_Secret (Property_Secret (merged f) || Property_Secret (prop d))
             (set_Required (Property_Required (merged f) || Property_Required (prop d)) (merged f)) in
  if i =? 0 then with_merged f m
  else
    let m := join_marker (secretBy d) m in
    let f := with_merged f m in
    let visibility := mergeVisibility (Property_Visibility m) (Property_Visibility (prop d)) in
    let f := if Visibility_None visibility && negb (Visibility_None (Property_Visibility m)) && negb (Visibility_None (Property_Visibility (prop d)))
             then note_at f i SeverityWarning DisjointVisibility
                    (go "allOf branches restrict field " ++ wire f ++ go " to disjoint lifecycles; the merged field is visible in none")
             else f in
    with_merged f (set_Visibility visibility (merged f)).
Definition foldUse f : folding := foldl use_step f (indices (p_decls pl)).

(** *** Docs and annotations *)

Definition same_by_eq {T} `{EqDecision T} (x y : T) : bool := bool_decide (x = y).

Definition docs_with (summary description : gostring) (links : list Link) (d : Docs) : Docs := mkDocs summary description (Docs_Refs d) links.

Definition foldDocs f : folding :=
  let '(f, summary) := firstWritten f (go "title") (λ _ p, nonempty (Docs_Summary (Property_Docs p))) same_by_eq in
  let '(f, description) := firstWritten f (go "description") (λ _ p, nonempty (Docs_Description (Property_Docs p))) same_by_eq in
  let '(f, links) := firstWritten f (go "external docs") (λ _ p, nonempty (Docs_ExternalDocs (Property_Docs p))) same_by_eq in
  with_merged f (set_Docs (docs_with (default [] summary) (default [] description) (default [] links) (Property_Docs (merged f))) (merged f)).

Definition foldAnnotations f : folding :=
  let '(f, deprecation) := firstWritten f (go "deprecation") (λ _ p, Property_Deprecation p) same_by_eq in
  let f := with_merged f (set_Deprecation deprecation (merged f)) in
  let f :=
    match head (filter (λ i, is_set (Property_Deprecation (prop (decl_at i))) = true) (indices (p_decls pl))) with
    | Some (S i) => with_merged f (join_marker (Provenance_Inferred (Property_Provenance (prop (decl_at (S i))))) (merged f))
    | _ => f
    end in
  let '(f, xml) := firstWritten f (go "xml") (λ _ p, Property_XML p) same_by_eq in
  with_merged f (set_XML xml (merged f)).

(** *** What the field keeps verbatim *)

Definition sameEntry (a b : UnmodeledEntry) : bool :=
  bool_decide (UnmodeledEntry_Value a = UnmodeledEntry_Value b) &&
  (negb (WritesReference (UnmodeledEntry_Value a)) || Alike (UnmodeledEntry_Provenance a) (UnmodeledEntry_Provenance b)).

(** The entries so far, each with the declaration that gave it. *)
Abbreviation entries := (gmap gostring (UnmodeledEntry * nat)) (only parsing).

Definition entry_step i (s : folding * gmap gostring (UnmodeledEntry * nat)) (key : gostring) : folding * gmap gostring (UnmodeledEntry * nat) :=
  let '(f, union) := s in
  match Property_Unmodeled (prop (decl_at i)) !! key with
  | None => s
  | Some entry =>
    match union !! key with
    | None => (f, <[key := (entry, i)]> union)
    | Some (kept_, at__) =>
      if sameEntry kept_ entry then s
      else
        (note_at (lose f i) i SeverityInfo DegradedConstruct
          (go "declarations of field " ++ wire f ++ go " give its " ++ key ++ go " differently; kept the one the declaration at " ++
           at_ at__ ++ go " gives over the one at " ++ at_ i ++ go ", which is kept verbatim under Unmodeled"), union)
    end
  end.
Definition unmodeled_step (s : folding * gmap gostring (UnmodeledEntry * nat)) i : folding * gmap gostring (UnmodeledEntry * nat) :=
  foldl (entry_step i) s (sorted_keys (Property_Unmodeled (prop (decl_at i)))).
Definition foldUnmodeled f : folding :=
  let '(f, union) := foldl unmodeled_step (f, ∅) (indices (p_decls pl)) in
  with_merged f (set_Unmodeled (fst <$> union) (merged f)).

(** *** Reports *)

Definition finish_step (notes : list (list note)) (lost : list bool) (s : Property * list report) i : Property * list report :=
  let '(p, log) := s in
  let log := log ++ ((λ n, mkReport (sev n) (n_code n) (at_ i) (msg n)) <$> nth i notes []) in
  if nth i lost false
  then let '(p, more) := keepLosingDeclaration p (Property_Provenance (prop (decl_at i))) (source (decl_at i)) in (p, log ++ more)
  else (p, log).
Definition finish f : Property * list report :=
  foldl (finish_step (notes f) (lost f)) (merged f, []) (indices (p_decls pl)).
End Plan.

(** ** Identity *)

(** Whether a node stands at a schema within [whole] that holds [schema]; each turn
    drops a token of it. *)
Fixpoint carried (fuel : nat) r (schema whole : gostring) : bool :=
  match fuel with
  | O => false
  | S fuel =>
    if negb (length whole <? length schema) then false
    else if Interned r schema then true else carried fuel r (schemaOf schema) whole
  end.
Definition carriedApart r (first whole : gostring) : bool := carried (S (length first)) r (schemaOf first) whole.

Definition identify r p (schema field : gostring) : Property :=
  let v := Property_Provenance p in
  if negb (carriedApart r (Provenance_Pointer v) schema) then p
  else set_Provenance (mkProvenance (Provenance_Source v) field (Provenance_Position v) (Provenance_Node v) (Provenance_Inferred v))
         (set_ID (PropAt field) p).

(** ** What no fold judges *)

Definition keep_step (s : Property * list report) d : Property * list report :=
  let '(p, log) := s in
  let '(p, more) := keepLosingDeclaration p (Property_Provenance (prop d)) (source d) in (p, log ++ more).
Definition keepUnjudged p (past : list declaration) : Property * list report :=
  match past with
  | [] => (p, [])
  | d :: _ =>
    foldl keep_step (p, [mkReport SeverityError BudgetExceeded (pointer_of d)
      (go "field " ++ Quote (Property_WireName p) ++ go " is declared " ++ Itoa (maxFoldDeclarations + length past) ++
       go " times, past the " ++ Itoa maxFoldDeclarations ++ go " declarations one fold judges; the " ++ Itoa (length past) ++
       go " after them are kept verbatim under Unmodeled, unjudged")]) past
  end.

(** ** The whole fold *)

(** What folding the judged declarations settles, before it is named and reported. *)
Definition settled r (judged_ : list declaration) (field : gostring) : plan * folding :=
  let pl := newPlan r judged_ field in
  (pl, foldUnmodeled pl (foldAnnotations pl (foldDocs pl (foldUse pl (foldValues pl (foldConstraints pl (foldType pl (newFolding r judged_)))))))).

Definition fold r decls : R * Property * list report :=
  let judged_ := take maxFoldDeclarations decls in
  let past := skipn maxFoldDeclarations decls in
  let '(schema, field) := fieldSpan judged_ in
  let '(pl, f) := settled r judged_ field in
  let '(p, log) := finish pl f in
  let p := identify (registry f) p schema field in
  let '(p, more) := keepUnjudged p past in
  (registry f, p, log ++ more).
End Fold.

(** ** The fields of one model *)

Definition WireNameIndex (props : list Property) : gmap gostring nat :=
  foldl (λ idx ip, <[Property_WireName ip.2 := ip.1]> idx) ∅ (imap pair props).

(** One wire name of a model: where its property sits, what renders the
    declaration that put it there, and each declaration after that one. A field is
    known by its wire name, which the index holds it under. *)
Record field := mkField { pos : nat; first : Source; rest : list declaration }.
Record PropIndex := mkPropIndex { byWire : gmap gostring field; redeclared : list gostring; queued : nat }.
Definition NewPropIndex : PropIndex := mkPropIndex ∅ [] 0.

Definition with_properties (ps : list Property) (m : Model) : Model :=
  let '(mkModel c _ rq ba im mi ap ad co ab po ex di dv io) := m in mkModel c ps rq ba im mi ap ad co ab po ex di dv io.
Definition with_discriminator (di : option Discriminator) (m : Model) : Model :=
  let '(mkModel c ps rq ba im mi ap ad co ab po ex _ dv io) := m in mkModel c ps rq ba im mi ap ad co ab po ex di dv io.

Definition MergeProperty (m : Model) (idx : PropIndex) (d : declaration) : Model * PropIndex :=
  let w := Property_WireName (prop d) in
  match byWire idx !! w with
  | None =>
    (with_properties (Model_Properties m ++ [prop d]) m,
     mkPropIndex (<[w := mkField (length (Model_Properties m)) (source d) []]> (byWire idx)) (redeclared idx) (queued idx))
  | Some f =>
    let '(again, q) :=
      if is_nil (rest f) then (redeclared idx ++ [w], if is_nil (redeclared idx) then S (queued idx) else queued idx)
      else (redeclared idx, queued idx) in
    (m, mkPropIndex (<[w := mkField (pos f) (first f) (rest f ++ [d])]> (byWire idx)) again q)
  end.

Definition merge_all (m : Model) (ds : list declaration) : Model * PropIndex :=
  foldl (λ s d, MergeProperty s.1 s.2 d) (m, NewPropIndex) ds.

Definition follow (from to_ : PropID) (m : Model) : Model :=
  match Model_Discriminator m with
  | Some d =>
    if bool_decide (Discriminator_Property d = from)
    then with_discriminator (Some (mkDiscriminator to_ (Discriminator_PropertyName d) (Discriminator_Index d) (Discriminator_Mapping d)
           (Discriminator_Default d) (Discriminator_Envelope d) (Discriminator_EnvelopeValueName d) (Discriminator_Inferred d))) m
    else m
  | None => m
  end.

Section Settle.
Context (Quote : gostring → gostring) (url_Parse : gostring → option gostring) (WritesReference : gostring → bool).
Context {R : Type} (Resolve : R → TypeID → option TypeDef) (Mint : R → gostring → TypeDef → R * TypeID)
  (Interned : R → gostring → bool) (PropAt : gostring → PropID) (Alike : Provenance → Provenance → bool).

(** One field folded, and nothing where its property does not sit where the index
    says, which stops the program. *)
Definition settle_step (idx : PropIndex) (s : option (R * Model * list report)) (w : gostring) : option (R * Model * list report) :=
  '(r, m, log) ← s;
  f ← byWire idx !! w;
  before ← Model_Properties m !! pos f;
  let '(r, p, more) := fold Quote url_Parse WritesReference Resolve Mint Interned PropAt Alike r
                         (mkDeclaration before (first f) [] :: rest f) in
  Some (r, follow (Property_ID before) (Property_ID p) (with_properties (<[pos f := p]> (Model_Properties m)) m), log ++ more).
Definition settle (idx : PropIndex) (r : R) (m : Model) : option (R * Model * list report) :=
  foldl (settle_step idx) (Some (r, m, [])) (redeclared idx).
End Settle.
