(* ===== verification/FoldSound.v ===== *)
(** * What the fold of a field's declarations keeps

    Visibility, and who sends a field, are decided from the whole set; the type is
    the one holding the most declarations' types, one minted within its node's
    bounds, or the models they name composed; and each declaration the fold judges
    either has all it says held by the field, its type and constraints too, or is
    reported where it is written and kept verbatim beside the field. The fields of a
    model stand in the order first declared. *)
From S2P Require Import Prelude GoLib Decimal BigVal IR Ids RegistryRules Spelling Formats DeepEqual Constraints Value ConstraintsFold Judge JudgeSound Findings Pointer Fold.
Implicit Types (p : Property) (i j k : nat) (d : declaration) (decls : list declaration) (pl : plan).

(** ** Visibility *)

(** A property is seen in a lifecycle. *)
Definition visible (v : Visibility) (l : Lifecycle) : bool :=
  negb (Visibility_None v) && (is_nil (Visibility_Only v) || bool_decide (l ∈ Visibility_Only v)).

Lemma strings_Compare_antisym (a b : gostring) : strings_Compare b a = (- strings_Compare a b)%Z.
Proof.
  revert b. induction a as [|c a IH]; intros [|x b]; cbn [strings_Compare]; try done.
  destruct (Z.ltb_spec (code c) (code x)), (Z.ltb_spec (code x) (code c)); try (done || lia).
Qed.
Lemma slices_Compare_antisym (l l' : list gostring) : slices_Compare l' l = (- slices_Compare l l')%Z.
Proof.
  revert l'. induction l as [|x l IH]; intros [|y l']; cbn [slices_Compare]; try done.
  rewrite (strings_Compare_antisym x y). destruct (Z.eqb_spec (strings_Compare x y) 0), (Z.eqb_spec (- strings_Compare x y) 0); (done || lia).
Qed.
Lemma slices_Compare_eq (l l' : list gostring) : slices_Compare l l' = 0%Z → l = l'.
Proof.
  revert l'. induction l as [|x l IH]; intros [|y l']; cbn [slices_Compare]; try done.
  destruct (Z.eqb_spec (strings_Compare x y) 0) as [E|E]; [|done]. apply strings_Compare_eq in E as ->. by intros ->%IH.
Qed.

Lemma intersectLifecycles_comm (a b : list Lifecycle) : intersectLifecycles a b = intersectLifecycles b a.
Proof.
  unfold intersectLifecycles. rewrite (slices_Compare_antisym a b).
  destruct (Z.ltb_spec 0 (slices_Compare a b)), (Z.ltb_spec 0 (- slices_Compare a b)); try done; [lia|].
  by rewrite (slices_Compare_eq a b) by lia.
Qed.
Lemma elem_of_intersectLifecycles (a b : list Lifecycle) l : l ∈ intersectLifecycles a b ↔ l ∈ a ∧ l ∈ b.
Proof. unfold intersectLifecycles. destruct (_ <? _)%Z; rewrite list_elem_of_filter; naive_solver. Qed.

Lemma visible_merge (v w : Visibility) l : visible (mergeVisibility v w) l = visible v l && visible w l.
Proof.
  unfold mergeVisibility, visible. destruct v as [o n], w as [o' n']. cbn [Visibility_Only Visibility_None].
  destruct n, n'; cbn [orb negb andb]; rewrite ?andb_false_r; try done.
  destruct o as [|x o]; [done|]. destruct o' as [|y o']; [by rewrite andb_true_r|]. cbn [is_nil].
  assert (E : bool_decide (l ∈ intersectLifecycles (x :: o) (y :: o')) = bool_decide (l ∈ x :: o) && bool_decide (l ∈ y :: o')).
  { rewrite (bool_decide_ext _ _ (elem_of_intersectLifecycles _ _ l)). by rewrite bool_decide_and. }
  destruct (intersectLifecycles _ _) eqn:Ei; cbn [is_nil negb Visibility_Only Visibility_None andb orb]; rewrite <-E; [|done].
  by rewrite bool_decide_false by (apply not_elem_of_nil).
Qed.

Lemma mergeVisibility_comm (v w : Visibility) : mergeVisibility v w = mergeVisibility w v.
Proof.
  unfold mergeVisibility. rewrite (orb_comm (Visibility_None w)). destruct v as [o n], w as [o' n']. cbn [Visibility_Only Visibility_None].
  destruct n, n'; try done. destruct o, o'; try done. cbn [is_nil orb]. by rewrite intersectLifecycles_comm.
Qed.

(** ** The type that holds the most *)

Section Widest.
Context (rel : nat → nat → relation) (n : nat).




End Widest.

(** ** What is reported, and what is lost *)

Section Steps.
Context {R : Type}.
Implicit Types (f : folding (R:=R)).

(** A declaration something of which is lost has a note. *)
Definition told f : Prop := length (notes f) = length (lost f) ∧ ∀ i, lost f !! i = Some true → nth i (notes f) [] ≠ [].
Definition is_lost f i : Prop := lost f !! i = Some true.
#[export] Instance is_lost_dec f i : Decision (is_lost f i).
Proof. unfold is_lost. apply _. Defined.

(** What is lost stays lost, and told. *)
Record grows f f' : Prop := {
  g_length : length (lost f') = length (lost f);
  g_lost : ∀ i, is_lost f i → is_lost f' i;
  g_told : told f → told f'
}.
#[export] Instance grows_preorder : PreOrder grows.
Proof.
  split; [by constructor|]. intros f f' f'' [L1 H1 T1] [L2 H2 T2]. constructor; [congruence|auto|auto].
Qed.

(** A step that only reports. *)
Definition reports f f' : Prop := grows f f' ∧ merged f' = merged f ∧ registry f' = registry f.
#[export] Instance reports_preorder : PreOrder reports.
Proof.
  split; [intros f; unfold reports; by split_and!|]. intros f f' f'' (G & M & E) (G' & M' & E'). split_and!; [by etrans|congruence|congruence].
Qed.
Lemma reports_grows f f' : reports f f' → grows f f'.
Proof. by intros []. Qed.

Lemma with_merged_grows f p : grows f (with_merged f p).
Proof. by constructor. Qed.

Lemma nth_alter_note (l : list (list note)) i j n : nth j (alter (.++ [n]) i l) [] ≠ [] ↔ (j = i ∧ i < length l) ∨ nth j l [] ≠ [].
Proof.
  rewrite !nth_lookup. destruct (decide (j = i)) as [->|Hne].
  - rewrite list_lookup_alter_eq. destruct (l !! i) as [x|] eqn:E; cbn.
    + apply lookup_lt_Some in E. split; [intros _; left; lia|intros _ []%app_eq_nil; done].
    + apply lookup_ge_None in E. split; [by right|intros [[]|]; [lia|done]].
  - rewrite list_lookup_alter_ne by done. naive_solver.
Qed.

Lemma note_told f i n : told f → told (add_note f i n).
Proof.
  intros [Hl H]. split; [by cbn; rewrite length_alter|]. intros j Hj. apply nth_alter_note. right. by apply H.
Qed.
Lemma note_reports f i s c text : reports f (note_at f i s c text).
Proof. split_and!; [|done|done]. constructor; [done|done|apply note_told]. Qed.

Lemma lose_lost f i j : is_lost (lose f i) j ↔ (j = i ∧ i < length (lost f)) ∨ is_lost f j.
Proof.
  unfold is_lost. cbn. destruct (decide (j = i)) as [->|Hne].
  - destruct (decide (i < length (lost f))) as [Hlt|Hge].
    + rewrite list_lookup_insert_eq by done. naive_solver.
    + rewrite list_insert_ge by lia. naive_solver lia.
  - rewrite list_lookup_insert_ne by done. naive_solver.
Qed.

Lemma lose_told f i : nth i (notes f) [] ≠ [] → told f → told (lose f i).
Proof.
  intros Hn [Hl H]. split; [by cbn; rewrite length_insert|]. intros j [[-> _]|Hj]%lose_lost; [done|by apply H].
Qed.

Lemma lose_lose f i : lose (lose f i) i = lose f i.
Proof. unfold lose. cbn. by rewrite list_insert_insert_eq. Qed.

(** A declaration that loses something is noted at once. *)
Lemma lost_note_reports f i n : reports f (add_note (lose f i) i n) ∧ (i < length (lost f) → is_lost (add_note (lose f i) i n) i).
Proof.
  split; [split_and!; [|done|done]; constructor|].
  - by cbn; rewrite length_insert.
  - intros j Hj. apply lose_lost. by right.
  - intros [Hl H]. split; [by cbn; rewrite length_alter, length_insert|].
    intros j Hj. apply nth_alter_note. apply lose_lost in Hj as [[-> Hi]|Hj]; [left; cbn; lia|right; by apply H].
  - intros Hi. apply lose_lost. by left.
Qed.

(** Each step over a list establishes something of its own element, and keeps what
    is established of any. *)
Lemma foldl_establish {S A} (step : S → A → S) (Inv : S → Prop) (P : S → A → Prop) (l : list A) (s : S) b :
  (∀ s a, Inv s → Inv (step s a)) → (∀ s a, Inv s → P (step s a) a) → (∀ s a b, P s b → P (step s a) b) →
  Inv s → b ∈ l ∨ P s b → P (foldl step s l) b.
Proof.
  intros HI HE HK. revert s. induction l as [|a l IH]; intros s Hs Hb; cbn [foldl]; [by destruct Hb as [?%not_elem_of_nil|]|].
  apply IH; [by apply HI|]. destruct Hb as [[->|?]%elem_of_cons|?]; [right; by apply HE|by left|right; by apply HK].
Qed.

(** Steps over a list that each only report. *)
Lemma foldl_reports {A} (step : folding → A → folding) f (l : list A) :
  (∀ f x, reports f (step f x)) → reports f (foldl step f l).
Proof.
  intros H. revert f. induction l as [|x l IH]; intros f; [reflexivity|]. cbn [foldl]. etrans; [apply H|apply IH].
Qed.
Lemma foldl_reports_fst {A B} (step : folding * B → A → folding * B) (s : folding * B) (l : list A) :
  (∀ s x, reports s.1 (step s x).1) → reports s.1 (foldl step s l).1.
Proof.
  intros H. revert s. induction l as [|x l IH]; intros s; [reflexivity|]. cbn [foldl]. etrans; [apply H|apply IH].
Qed.
End Steps.

Section Plan.
Context (Quote : gostring → gostring) {R : Type} (pl : plan).
Implicit Types (f : folding (R:=R)).

Lemma disagree_reports f i kept_ detail_ :
  reports f (disagree Quote pl f i kept_ detail_) ∧ (i < length (lost f) → is_lost (disagree Quote pl f i kept_ detail_) i).
Proof.
  unfold disagree. destruct (existsb _ _) eqn:E; [|apply lost_note_reports].
  assert (nth i (notes f) [] ≠ []) as Hn by (intros Hn; cbn in E; rewrite Hn in E; done).
  split; [split_and!; [|done|done]; constructor|].
  - by cbn; rewrite length_insert.
  - intros j Hj. apply lose_lost. by right.
  - by apply lose_told.
  - intros Hi. apply lose_lost. by left.
Qed.

Lemma drop_reports f i : reports f (Fold.drop Quote pl f i) ∧ (i < length (lost f) → is_lost (Fold.drop Quote pl f i) i).
Proof.
  unfold Fold.drop. destruct (rel pl (winner pl) i); try apply lost_note_reports.
  replace (disagree Quote pl (lose f i) i) with (disagree Quote pl f i) by (unfold disagree; by rewrite lose_lose).
  apply disagree_reports.
Qed.

Lemma disagree_all_reports f m : reports f (disagree_all Quote pl f m).
Proof. apply foldl_reports. intros f' [[i k] d]. apply disagree_reports. Qed.

(** *** What is written once *)

Section Written.
Context {T : Type} (detail_ : gostring) (of_ : nat → Property → option T) (same : T → T → bool).
Abbreviation step := (written_step (R:=R) Quote pl detail_ of_ same).

Lemma written_step_reports s i : reports s.1 (step s i).1.
Proof.
  unfold written_step. destruct s as [f found]. destruct (of_ _ _) as [v|], found as [[x j]|]; try reflexivity.
  destruct (same x v); [reflexivity|]. apply lost_note_reports.
Qed.

(** A declaration that gives the detail gives the one kept, or the same, or is lost. *)
Definition settles (s : folding (R:=R) * option (T * nat)) i : Prop :=
  ∀ x, of_ i (prop (decl_at pl i)) = Some x → ∃ y, fst <$> s.2 = Some y ∧ (y = x ∨ same y x = true ∨ is_lost s.1 i).

Lemma written_step_settles s i : i < length (lost s.1) → settles (step s i) i.
Proof.
  intros Hi x Hx. unfold written_step. destruct s as [f found]. cbn [fst] in Hi. rewrite Hx. destruct found as [[k j]|]; cbn [fst snd].
  - destruct (same k x) eqn:E; exists k; (split; [done|]); [by right; left|]. right. right. by apply lost_note_reports.
  - by exists x; split; [|left].
Qed.
Lemma written_step_keeps s i j : settles s j → settles (step s i) j.
Proof.
  intros H x Hx. destruct (H x Hx) as (k & Hk & Hcase). exists k. split.
  - destruct s as [f [[k' at__]|]]; [|done]. cbn in Hk. unfold written_step. destruct (of_ i _) as [v|]; [|done]. by destruct (same k' v).
  - destruct Hcase as [?|[?|Hl]]; [by left|by right; left|right; right]. by apply (g_lost _ _ (reports_grows _ _ (written_step_reports s i))).
Qed.

End Written.

Lemma firstWritten_spec {T} f f' (v : option T) detail_ (of_ : nat → Property → option T) same :
  firstWritten Quote pl f detail_ of_ same = (f', v) → length (lost f) = length (p_decls pl) →
  reports f f' ∧
  ∀ i x, i < length (p_decls pl) → of_ i (prop (decl_at pl i)) = Some x → ∃ y, v = Some y ∧ (y = x ∨ same y x = true ∨ is_lost f' i).
Proof.
  intros E Hlen. unfold firstWritten in E.
  pose proof (foldl_reports_fst _ (f, None) (indices (p_decls pl)) (written_step_reports detail_ of_ same)) as Hr.
  assert (Hs : ∀ i, i < length (p_decls pl) → settles of_ same (foldl (written_step Quote pl detail_ of_ same) (f, None) (indices (p_decls pl))) i).
  { intros i Hi. apply (foldl_establish _ (λ s, length (lost s.1) = length (p_decls pl)) (λ s i, i < length (p_decls pl) → settles of_ same s i)); [..|done].
    - intros s j Hl. by rewrite (g_length _ _ (reports_grows _ _ (written_step_reports detail_ of_ same s j))).
    - intros s j Hl Hj. apply written_step_settles. by rewrite Hl.
    - intros s j k H Hk. by apply written_step_keeps, H.
    - done.
    - left. apply elem_of_seq. lia. }
  destruct (foldl _ _ _) as [f1 found]. injection E as <- <-. split; [done|].
  intros i x Hi Hx. by apply (Hs i Hi).
Qed.

(** *** Entries *)

Section Entries.
Context (WritesReference : gostring → bool) (Alike : Provenance → Provenance → bool).
Abbreviation same_entry := (sameEntry WritesReference Alike).

Definition holds_entry (s : folding (R:=R) * gmap gostring (UnmodeledEntry * nat)) i (key : gostring) : Prop :=
  ∀ e, Property_Unmodeled (prop (decl_at pl i)) !! key = Some e →
    ∃ y, fst <$> s.2 !! key = Some y ∧ (y = e ∨ same_entry y e = true ∨ is_lost s.1 i).

Lemma entry_step_reports i s key : reports s.1 (entry_step (R:=R) Quote WritesReference Alike pl i s key).1.
Proof.
  unfold entry_step. destruct s as [f union]. destruct (_ !! key) as [e|]; [|reflexivity].
  destruct (union !! key) as [[k j]|]; [|reflexivity]. destruct (sameEntry _ _ _ _); [reflexivity|]. apply lost_note_reports.
Qed.
Lemma entry_step_holds i s key : i < length (lost s.1) → holds_entry (entry_step (R:=R) Quote WritesReference Alike pl i s key) i key.
Proof.
  intros Hi e He. unfold entry_step. destruct s as [f union]. cbn [fst] in Hi. rewrite He.
  destruct (union !! key) as [[k j]|] eqn:Eu; cbn [fst snd].
  - destruct (sameEntry _ _ k e) eqn:Es; exists k; cbn [fst snd]; rewrite Eu; (split; [done|]); [by right; left|]. right. right. by apply lost_note_reports.
  - exists e. rewrite lookup_insert_eq. by split; [|left].
Qed.
Lemma entry_step_keeps i s key j key' : holds_entry s j key' → holds_entry (entry_step (R:=R) Quote WritesReference Alike pl i s key) j key'.
Proof.
  intros H e He. destruct (H e He) as (k & Hk & Hc). exists k. split.
  - destruct s as [f union]. cbn [snd] in Hk. unfold entry_step. destruct (Property_Unmodeled _ !! key) as [e'|]; [|done].
    destruct (union !! key) as [[k' j']|] eqn:Eu; [by destruct (sameEntry _ _ k' e')|]. cbn [snd].
    rewrite lookup_insert_ne; [done|]. intros ->. by rewrite Eu in Hk.
  - destruct Hc as [?|[?|Hl]]; [by left|by right; left|right; right]. by apply (g_lost _ _ (reports_grows _ _ (entry_step_reports i s key))).
Qed.

Lemma unmodeled_step_reports s i : reports s.1 (unmodeled_step (R:=R) Quote WritesReference Alike pl s i).1.
Proof. apply foldl_reports_fst. intros s' key. apply entry_step_reports. Qed.

Lemma unmodeled_step_holds s i key : i < length (lost s.1) → holds_entry (unmodeled_step (R:=R) Quote WritesReference Alike pl s i) i key.
Proof.
  intros Hi e He. revert e He.
  apply (foldl_establish _ (λ s', length (lost s'.1) = length (lost s.1)) (λ s' key, holds_entry s' i key)); [..|done|].
  - intros s' key' Hl. by rewrite (g_length _ _ (reports_grows _ _ (entry_step_reports i s' key'))).
  - intros s' key' Hl. apply entry_step_holds. by rewrite Hl.
  - intros s' key' key''. apply entry_step_keeps.
  - destruct (Property_Unmodeled (prop (decl_at pl i)) !! key) eqn:E; [left|right; intros ?; by rewrite E].
    apply elem_of_sorted_keys, elem_of_dom. by eexists.
Qed.
Lemma unmodeled_step_keeps s i j key : holds_entry s j key → holds_entry (unmodeled_step (R:=R) Quote WritesReference Alike pl s i) j key.
Proof.
  unfold unmodeled_step. generalize (sorted_keys (Property_Unmodeled (prop (decl_at pl i)))) as keys. intros keys. revert s.
  induction keys as [|key' keys IH]; intros s H; [done|]. cbn [foldl]. apply IH. by apply entry_step_keeps.
Qed.

Lemma unmodeled_spec f f' union : foldl (unmodeled_step Quote WritesReference Alike pl) (f, ∅) (indices (p_decls pl)) = (f', union) →
  length (lost f) = length (p_decls pl) →
  reports f f' ∧ ∀ i key, i < length (p_decls pl) → holds_entry (f', union) i key.
Proof.
  intros E Hlen. split.
  - change f' with ((f', union).1). rewrite <-E. apply (foldl_reports_fst _ (f, ∅)). apply unmodeled_step_reports.
  - intros i key. rewrite <-E.
    apply (foldl_establish _ (λ s, length (lost s.1) = length (p_decls pl)) (λ s i, i < length (p_decls pl) → holds_entry s i key)).
    + intros s j Hl. by rewrite (g_length _ _ (reports_grows _ _ (unmodeled_step_reports s j))).
    + intros s j Hl Hj. apply unmodeled_step_holds. by rewrite Hl.
    + intros s j k H Hk. by apply unmodeled_step_keeps, H.
    + done.
    + destruct (decide (i < length (p_decls pl))); [left; apply elem_of_seq; lia|by right].
Qed.
End Entries.
End Plan.

(** ** One stage at a time *)

Section Stages.
Context (Quote : gostring → gostring) (url_Parse : gostring → option gostring) (WritesReference : gostring → bool).
Context {R : Type} (Resolve : R → TypeID → option TypeDef) (Mint : R → gostring → TypeDef → R * TypeID) (Alike : Provenance → Provenance → bool).
Context (pl : plan).
Implicit Types (f : folding (R:=R)).
Abbreviation size := (length (p_decls pl)).

(** *** The type *)

Lemma type_step_reports s i : reports s.1 (type_step (R:=R) Quote Resolve pl s i).1.
Proof.
  unfold type_step. destruct s as [f seeded]. destruct (negb (cone pl i)); [apply drop_reports|]. by destruct (_ && _).
Qed.

Lemma type_spec f : length (lost f) = size →
  reports f (foldl (type_step Quote Resolve pl) (f, None) (indices (p_decls pl))).1 ∧
  ∀ i, i < size → cone pl i = false → is_lost (foldl (type_step Quote Resolve pl) (f, None) (indices (p_decls pl))).1 i.
Proof.
  intros Hlen. split; [apply (foldl_reports_fst _ (f, None)); apply type_step_reports|]. intros i Hi.
  apply (foldl_establish _ (λ s, length (lost s.1) = size) (λ s i, i < size → cone pl i = false → is_lost s.1 i)); [..|done].
  - intros s j Hl. by rewrite (g_length _ _ (reports_grows _ _ (type_step_reports s j))).
  - intros [f' seeded] j Hl Hj Hc. unfold type_step. rewrite Hc. cbn [negb fst]. apply drop_reports. cbn [fst] in Hl. lia.
  - intros s j k H Hk Hc. by apply (g_lost _ _ (reports_grows _ _ (type_step_reports s j))), H.
  - done.
  - left. apply elem_of_seq. lia.
Qed.

(** What a declaration says of null: the top type below a winner that is not says nothing. *)
Definition speaks_of_null (r : R) i : bool :=
  cone pl i && negb (negb (bool_decide (rel pl (winner pl) i = relSame)) && targetsTop Resolve r (type_of (decl_at pl i))).
Definition admits_null (r : R) (l : list nat) : bool :=
  forallb (λ i, negb (speaks_of_null r i) || TypeRef_Nullable (type_of (decl_at pl i))) l.
Definition null_of (seeded : option TypeRef) : bool := default true (TypeRef_Nullable <$> seeded).

Lemma intersectNull_Nullable t u : TypeRef_Nullable (intersectNull t u) = TypeRef_Nullable t && TypeRef_Nullable u.
Proof. unfold intersectNull. by destruct (_ && _). Qed.

Lemma type_step_null s i : null_of (type_step Quote Resolve pl s i).2 = null_of s.2 && admits_null (registry s.1) [i].
Proof.
  destruct s as [f seeded]. unfold type_step, admits_null, speaks_of_null. cbn [forallb fst snd].
  destruct (cone pl i); cbn [negb andb orb]; [|by rewrite !andb_true_r].
  destruct (_ && _); cbn [negb orb]; [by rewrite !andb_true_r|]. rewrite andb_true_r.
  destruct seeded as [t|]; [|done]. cbn. apply intersectNull_Nullable.
Qed.
Lemma type_steps_null s l : null_of (foldl (type_step Quote Resolve pl) s l).2 = null_of s.2 && admits_null (registry s.1) l.
Proof.
  revert s. induction l as [|i l IH]; intros s; cbn [foldl]; [cbn; by rewrite andb_true_r|].
  rewrite IH, type_step_null. destruct (type_step_reports s i) as (_ & _ & ->).
  unfold admits_null. cbn [forallb]. by rewrite andb_true_r, andb_assoc.
Qed.

Lemma type_steps_spoken s l : is_set (foldl (type_step Quote Resolve pl) s l).2 = is_set s.2 || existsb (speaks_of_null (registry s.1)) l.
Proof.
  revert s. induction l as [|i l IH]; intros s; cbn [foldl existsb]; [by rewrite orb_false_r|].
  rewrite IH. destruct (type_step_reports s i) as (_ & _ & ->). rewrite orb_assoc. f_equal.
  destruct s as [f seeded]. unfold type_step, speaks_of_null. cbn [fst snd].
  destruct (cone pl i); cbn [negb andb]; [|by rewrite orb_false_r]. destruct (_ && _); cbn [snd negb is_set]; by rewrite ?orb_false_r, ?orb_true_r.
Qed.

Lemma compose_grows f : grows f (compose Mint pl f).1 ∧ merged (compose Mint pl f).1 = merged f.
Proof. unfold compose. destruct (Mint _ _ _). by split. Qed.
Lemma foldNodeBounds_grows f : grows f (foldNodeBounds Quote Resolve Mint pl f).1 ∧ merged (foldNodeBounds Quote Resolve Mint pl f).1 = merged f.
Proof.
  unfold foldNodeBounds. destruct (Resolve _ _) as [node|]; [|done]. cbv zeta.
  match goal with |- context [disagree_all Quote pl f ?m] => pose proof (disagree_all_reports Quote pl f m) as (Hg & Hm & _) end.
  destruct (sameBounds _ _); [done|]. destruct (Mint _ _ _). split; [|done]. etrans; [exact Hg|by constructor].
Qed.

Lemma foldType_spec f : length (lost f) = size →
  grows f (foldType Quote Resolve Mint pl f) ∧
  (∃ t, merged (foldType Quote Resolve Mint pl f) = set_Type t (merged f) ∧
     TypeRef_Nullable t = existsb (speaks_of_null (registry f)) (indices (p_decls pl)) && admits_null (registry f) (indices (p_decls pl))) ∧
  ∀ i, i < size → cone pl i = false → is_lost (foldType Quote Resolve Mint pl f) i.
Proof.
  intros Hlen. pose proof (type_spec f Hlen) as [(Hg & Hm & Hr) Hl].
  pose proof (type_steps_null (f, None) (indices (p_decls pl))) as Hn. pose proof (type_steps_spoken (f, None) (indices (p_decls pl))) as Hs.
  unfold foldType. destruct (foldl _ _ _) as [f1 seeded]. cbn [fst snd] in *.
  assert (Ht : TypeRef_Nullable (default zeroTypeRef seeded) =
    existsb (speaks_of_null (registry f)) (indices (p_decls pl)) && admits_null (registry f) (indices (p_decls pl))).
  { cbn [is_set orb] in Hs. change (null_of None) with true in Hn. cbn [andb] in Hn. rewrite <-Hn, <-Hs. by destruct seeded. }
  assert (∃ f2 target, (if 0 <? length (conjuncts pl) then compose Mint pl f1 else foldNodeBounds Quote Resolve Mint pl f1) = (f2, target) ∧
    grows f1 f2 ∧ merged f2 = merged f1) as (f2 & target & -> & Hg2 & Hm2).
  { destruct (_ <? _).
    - pose proof (compose_grows f1) as [? ?]. destruct (compose Mint pl f1) as [f2 target]. by exists f2, target.
    - pose proof (foldNodeBounds_grows f1) as [? ?]. destruct (foldNodeBounds Quote Resolve Mint pl f1) as [f2 target]. by exists f2, target. }
  split_and!.
  - etrans; [exact Hg|]. etrans; [exact Hg2|apply with_merged_grows].
  - eexists. split; [by rewrite <-Hm, <-Hm2|done].
  - intros i Hi Hc. apply (g_lost _ _ Hg2). by apply Hl.
Qed.

(** *** What is told of a meeting *)

Lemma disagree_all_lost f (m : list (nat * nat * disagreement)) i k (x : disagreement) : length (lost f) = size → i < size → (i, k, x) ∈ m →
  is_lost (foldl (λ f '(i, kept_, d), disagree Quote pl f i kept_ (disagreement_text Quote d)) f m) i.
Proof.
  intros Hlen Hi Hin.
  apply (foldl_establish (λ f '(i, kept_, d), disagree Quote pl f i kept_ (disagreement_text Quote d))
           (λ f, length (lost f) = size) (λ f e, e.1.1 < size → is_lost f e.1.1) m f (i, k, x)); [..|by left|done].
  - intros f' [[j k'] d'] Hl. by rewrite (g_length _ _ (reports_grows _ _ (proj1 (disagree_reports Quote pl f' j k' (disagreement_text Quote d'))))).
  - intros f' [[j k'] d'] Hl Hj. apply disagree_reports. cbn in Hj, Hl. by rewrite Hl.
  - intros f' [[j k'] d'] e H He. apply (g_lost _ _ (reports_grows _ _ (proj1 (disagree_reports Quote pl f' j k' (disagreement_text Quote d'))))). by apply H.
  - done.
Qed.

(** *** The type the field takes *)

(** The bounds of the winner's node and of those it meets, met. *)
Definition node_bounds (r : R) : meeting :=
  meetConstraints (imap (λ i d, if (i =? winner pl) || bool_decide (rel pl (winner pl) i = relMeet) then nodeBounds Resolve r (type_of d) else None) (p_decls pl)).
Definition winner_target : TypeID := TypeRef_Target (type_of (decl_at pl (winner pl))).
(** What a model composes. *)
Definition parts (m : Model) : list TypeID := TypeRef_Target <$> (option_list (Model_Base m) ++ Model_Mixins m).

(** Where no models compose, the winner's node stands for the field, or one minted
    of it with the bounds met where those are others; where they do, one minted
    that composes each of them. *)
Inductive field_type (r r' : R) (target : TypeID) : Prop :=
  | type_kept : conjuncts pl = [] → target = winner_target → r' = r →
      (∀ node, Resolve r target = Some node → sameBounds (kept (node_bounds r)) (boundsOf node) = true) → field_type r r' target
  | type_bounded node : conjuncts pl = [] → Resolve r winner_target = Some node → sameBounds (kept (node_bounds r)) (boundsOf node) = false →
      Mint r (p_field pl) (withBounds node (kept (node_bounds r))) = (r', target) → field_type r r' target
  | type_composed m : conjuncts pl ≠ [] → Mint r (p_field pl) (ModelDef m) = (r', target) →
      parts m ≡ₚ (λ c, TypeRef_Target (type_of (decl_at pl (decl c)))) <$> conjuncts pl → field_type r r' target.

Lemma filter_index {A} (l : list A) (b : option nat) :
  option_list (head (filter (λ e : nat * A, Some e.1 = b) (imap pair l))) = filter (λ e, Some e.1 = b) (imap pair l).
Proof.
  assert (Hone : ∀ (l : list A) n, length (filter (λ e : nat * A, Some e.1 = b) (imap (λ k x, (n + k, x)) l)) ≤ 1).
  { clear l. induction l as [|x l IH]; intros n; cbn [imap filter list_filter]; [cbn; lia|].
    assert (Eshift : imap (λ k x, (n + S k, x)) l = imap (λ k x, (S n + k, x)) l) by (apply imap_ext; intros; f_equal; lia).
    change (imap ((λ k x, (n + k, x)) ∘ S) l) with (imap (λ k x, (n + S k, x)) l). rewrite Eshift, Nat.add_0_r. specialize (IH (S n)).
    destruct (decide (Some (n, x).1 = b)) as [Hb|Hb]; [|exact IH]. cbn [fst] in Hb. cbn [length].
    match goal with |- S (length ?kept_) ≤ 1 => assert (Hnone : kept_ = []); [|by rewrite Hnone] end.
    apply elem_of_nil_inv. intros e [He (k & x' & -> & _)%elem_of_lookup_imap]%list_elem_of_filter. cbn in He. rewrite <- Hb in He. injection He. lia. }
  specialize (Hone l 0). change (imap pair l) with (imap (λ k x, (0 + k, x)) l).
  destruct (filter _ _) as [|e [|e' es]]; [done|done|cbn in Hone; lia].
Qed.

Lemma composed_parts base : parts (composed_of pl base) ≡ₚ (λ c, TypeRef_Target (type_of (decl_at pl (decl c)))) <$> conjuncts pl.
Proof.
  unfold parts, composed_of. cbv zeta. cbn [Model_Base Model_Mixins].
  set (ref_of := λ c : conjunct, mkTypeRef (TypeRef_Target (type_of (decl_at pl (decl c)))) false []).
  assert (E : imap (λ k c, (k, mkTypeRef (TypeRef_Target (type_of (decl_at pl (decl c)))) false [])) (conjuncts pl) = imap pair (ref_of <$> conjuncts pl))
    by (by rewrite imap_fmap).
  rewrite E. set (refs := imap pair (ref_of <$> conjuncts pl)).
  assert (Eo : option_list (snd <$> head (filter (λ e, Some e.1 = base) refs)) = snd <$> filter (λ e, Some e.1 = base) refs).
  { pose proof (filter_index (ref_of <$> conjuncts pl) base) as H. fold refs in H. rewrite <- H at 2. by destruct (head _). }
  rewrite Eo, <- fmap_app.
  assert (Hp : filter (λ e, Some e.1 = base) refs ++ filter (λ e, Some e.1 ≠ base) refs ≡ₚ refs) by apply filter_app_complement.
  rewrite Hp. unfold refs. rewrite fmap_imap.
  assert (Ei : ∀ l : list TypeRef, imap (λ _ x, x) l = l) by (intros l; apply list_eq; intros i; rewrite list_lookup_imap; by destruct (l !! i)).
  change (imap _ _) with (imap (λ _ (x : TypeRef), x) (ref_of <$> conjuncts pl)). rewrite Ei. by rewrite <- list_fmap_compose.
Qed.

Lemma compose_field f f' target : conjuncts pl ≠ [] → compose Mint pl f = (f', target) → field_type (registry f) (registry f') target.
Proof.
  intros Hc. unfold compose. cbv zeta. destruct (Mint _ _ _) as [r id] eqn:E. intros [= <- <-]. eapply type_composed; [done|exact E|apply composed_parts].
Qed.
Lemma foldNodeBounds_field f f' target : conjuncts pl = [] → foldNodeBounds Quote Resolve Mint pl f = (f', target) → field_type (registry f) (registry f') target.
Proof.
  intros Hc. unfold foldNodeBounds. fold winner_target. destruct (Resolve (registry f) winner_target) as [node|] eqn:En.
  2:{ intros [= <- <-]. apply type_kept; [done|done|done|]. intros node. by rewrite En. }
  cbv zeta. fold (node_bounds (registry f)). destruct (disagree_all_reports Quote pl f (node_bounds (registry f))) as (_ & _ & Er).
  destruct (sameBounds _ _) eqn:Es.
  - intros [= <- <-]. rewrite Er. apply type_kept; [done|done|done|]. intros node'. by rewrite En; intros [= <-].
  - destruct (Mint _ _ _) as [r id] eqn:E. intros [= <- <-]. rewrite Er in E. eapply type_bounded; [done|exact En|done|exact E].
Qed.
Lemma foldNodeBounds_lost f node i k (x : disagreement) : length (lost f) = size → i < size → Resolve (registry f) winner_target = Some node →
  (i, k, x) ∈ log (node_bounds (registry f)) → is_lost (foldNodeBounds Quote Resolve Mint pl f).1 i.
Proof.
  intros Hlen Hi En Hin. unfold foldNodeBounds. fold winner_target. rewrite En. cbv zeta. fold (node_bounds (registry f)).
  assert (Hl : is_lost (disagree_all Quote pl f (node_bounds (registry f))) i) by (by apply (disagree_all_lost f _ i k x)).
  destruct (sameBounds _ _); [done|]. by destruct (Mint _ _ _).
Qed.

Lemma foldType_field f : length (lost f) = size →
  field_type (registry f) (registry (foldType Quote Resolve Mint pl f)) (TypeRef_Target (Property_Type (merged (foldType Quote Resolve Mint pl f)))) ∧
  (conjuncts pl = [] → ∀ node i k (x : disagreement), i < size → Resolve (registry f) winner_target = Some node →
     (i, k, x) ∈ log (node_bounds (registry f)) → is_lost (foldType Quote Resolve Mint pl f) i).
Proof.
  intros Hlen. pose proof (type_spec f Hlen) as [(Hg & Hm & Hr) _]. unfold foldType. destruct (foldl _ _ _) as [f1 seeded]. cbn [fst] in *.
  assert (L1 : length (lost f1) = size) by (by rewrite (g_length _ _ Hg)). rewrite <- Hr.
  assert (Htarget : ∀ f2 target null inferred, TypeRef_Target (Property_Type (merged (with_merged (R:=R) f2 (set_Type (mkTypeRef target null inferred) (merged f2))))) = target)
    by (intros f2 target null inferred; cbn; by destruct (merged f2)).
  destruct (Nat.ltb_spec 0 (length (conjuncts pl))) as [Hc|Hc].
  - destruct (compose Mint pl f1) as [f2 target] eqn:E. rewrite Htarget. split; [|intros Hn; rewrite Hn in Hc; cbn in Hc; lia].
    exact (compose_field f1 f2 target ltac:(intros Hn; rewrite Hn in Hc; cbn in Hc; lia) E).
  - assert (Hn : conjuncts pl = []) by (destruct (conjuncts pl); [done|cbn in Hc; lia]).
    pose proof (foldNodeBounds_lost f1) as Hlost. destruct (foldNodeBounds Quote Resolve Mint pl f1) as [f2 target] eqn:E. rewrite Htarget. cbn [fst] in Hlost.
    split; [exact (foldNodeBounds_field f1 f2 target Hn E)|]. intros _ node i k x Hi En Hin. exact (Hlost node i k x L1 Hi En Hin).
Qed.

(** *** Constraints and values, met *)

(** The constraints the declarations in the cone write, met. *)
Definition met_constraints : meeting :=
  meetConstraints (imap (λ i d, if cone pl i then Property_Constraints (prop d) else None) (p_decls pl)).

Lemma foldConstraints_spec f : length (lost f) = size →
  grows f (foldConstraints Quote pl f) ∧ merged (foldConstraints Quote pl f) = set_Constraints (kept met_constraints) (merged f) ∧
  ∀ i k (x : disagreement), i < size → (i, k, x) ∈ log met_constraints → is_lost (foldConstraints Quote pl f) i.
Proof.
  intros Hlen. unfold foldConstraints. change (meetConstraints _) with met_constraints. cbv zeta.
  destruct (disagree_all_reports Quote pl f met_constraints) as (Hg & Hm & _). split_and!.
  - etrans; [exact Hg|apply with_merged_grows].
  - cbn [merged with_merged]. by rewrite Hm.
  - intros i k x Hi Hin. by apply (disagree_all_lost f _ i k x).
Qed.

Abbreviation takes_default f := (takesDefault Quote url_Parse WritesReference Resolve Alike pl f (isAnyField Resolve f)).
Abbreviation takes_examples f := (takesExamples Quote url_Parse WritesReference Resolve Alike pl f (isAnyField Resolve f)).

Lemma value_step_reports nullable f i : reports f (value_step Quote url_Parse WritesReference Resolve Alike pl nullable f i).
Proof. unfold value_step. destruct (negb _); [done|]. destruct (refused _ _ _ _ _ _ _ _ _); [done|]. apply lost_note_reports. Qed.

(** What is refused depends on the field as its type and constraints left it. *)
Lemma refused_reports nullable f f' i : reports f f' →
  refused Quote url_Parse WritesReference Resolve Alike pl f' nullable i = refused Quote url_Parse WritesReference Resolve Alike pl f nullable i.
Proof. intros (_ & Hm & Hr). unfold refused, takesDefault, takesExamples, takes. by rewrite Hm, Hr. Qed.

Lemma value_steps_lost nullable f i : length (lost f) = size → i < size → cone pl i = true →
  refused Quote url_Parse WritesReference Resolve Alike pl f nullable i ≠ [] →
  is_lost (foldl (value_step Quote url_Parse WritesReference Resolve Alike pl nullable) f (indices (p_decls pl))) i.
Proof.
  intros Hlen Hi Hc Href.
  refine (foldl_establish _ (λ f', reports f f' ∧ True) (λ f' j, j = i → is_lost f' i) _ f i _ _ _ _ _ eq_refl).
  - intros f' j [H _]. split; [|done]. etrans; [exact H|apply value_step_reports].
  - intros f' j [H _] ->. unfold value_step. rewrite Hc, (refused_reports nullable f f' i H). cbn [negb].
    destruct (refused _ _ _ _ _ _ _ _ _); [done|]. apply lost_note_reports. by rewrite (g_length _ _ (reports_grows _ _ H)), Hlen.
  - intros f' j k H ->. by apply (g_lost _ _ (reports_grows _ _ (value_step_reports nullable f' j))), H.
  - done.
  - left. apply elem_of_seq. lia.
Qed.

(** What each declaration gives is the one kept, the same, or lost. *)
Definition gives {T} f (v : option T) (same : T → T → bool) (of_ : Property → option T) : Prop :=
  ∀ i x, i < size → of_ (prop (decl_at pl i)) = Some x → (∃ y, v = Some y ∧ (y = x ∨ same y x = true)) ∨ is_lost f i.

Lemma gives_grows {T} f f' (v : option T) same of_ : grows f f' → gives f v same of_ → gives f' v same of_.
Proof. intros Hg H i x Hi Hx. destruct (H i x Hi Hx) as [?|?]; [by left|right; by apply (g_lost _ _ Hg)]. Qed.

Lemma firstWritten_gives {T} f f' (v : option T) detail_ (of_ : Property → option T) same :
  firstWritten Quote pl f detail_ (λ _, of_) same = (f', v) → length (lost f) = size → reports f f' ∧ gives f' v same of_.
Proof.
  intros E Hlen. destruct (firstWritten_spec Quote pl f f' v detail_ (λ _, of_) same E Hlen) as [Hr H]. split; [done|].
  intros i x Hi Hx. destruct (H i x Hi Hx) as (y & -> & [->|[?|?]]); [left; exists x; auto|left; exists y; auto|by right].
Qed.

Lemma refused_default f nullable i :
  takesDefault Quote url_Parse WritesReference Resolve Alike pl f nullable i = false → refused Quote url_Parse WritesReference Resolve Alike pl f nullable i ≠ [].
Proof. unfold refused. by intros ->. Qed.
Lemma refused_examples f nullable i :
  takesExamples Quote url_Parse WritesReference Resolve Alike pl f nullable i = false → refused Quote url_Parse WritesReference Resolve Alike pl f nullable i ≠ [].
Proof. unfold refused. intros ->. by destruct (takesDefault _ _ _ _ _ _ _ _ _). Qed.

(** A detail taken only from the declarations the field takes it of. *)
Lemma taken_gives {T} f0 f f' (v : option T) detail_ (b : nat → bool) (of_ : Property → option T) same :
  firstWritten Quote pl f detail_ (λ i p, given (b i) (of_ p)) same = (f', v) → length (lost f) = size → grows f0 f →
  (∀ i, i < size → b i = false → is_lost f0 i) → reports f f' ∧ gives f' v same of_.
Proof.
  intros E Hlen Hg Hb. destruct (firstWritten_spec Quote pl f f' v detail_ _ same E Hlen) as [Hr H]. split; [done|].
  intros i x Hi Hx. destruct (b i) eqn:Eb.
  - destruct (H i x Hi) as (y & -> & [->|[?|?]]); [by rewrite Eb|left; exists x; auto|left; exists y; auto|by right].
  - right. apply (g_lost _ _ (reports_grows _ _ Hr)), (g_lost _ _ Hg). by apply Hb.
Qed.

Lemma foldValues_spec f : length (lost f) = size → (∀ i, i < size → cone pl i = false → is_lost f i) →
  grows f (foldValues Quote url_Parse WritesReference Resolve Alike pl f) ∧
  ∃ dv ex, merged (foldValues Quote url_Parse WritesReference Resolve Alike pl f) = set_Examples (default [] ex) (set_Default dv (merged f)) ∧
    gives (foldValues Quote url_Parse WritesReference Resolve Alike pl f) dv (sameValue Quote) Property_Default ∧
    gives (foldValues Quote url_Parse WritesReference Resolve Alike pl f) ex (sameExamples Quote) (λ p, nonempty (Property_Examples p)).
Proof.
  intros Hlen Hcone. unfold foldValues. cbv zeta.
  set (nullable := isAnyField Resolve f).
  assert (Hr1 : reports f (foldl (value_step Quote url_Parse WritesReference Resolve Alike pl nullable) f (indices (p_decls pl)))).
  { apply foldl_reports. intros ? ?. apply value_step_reports. }
  assert (Hrefused : ∀ i, i < size → refused Quote url_Parse WritesReference Resolve Alike pl f nullable i ≠ [] ∨ cone pl i = false →
    is_lost (foldl (value_step Quote url_Parse WritesReference Resolve Alike pl nullable) f (indices (p_decls pl))) i).
  { intros i Hi H. destruct (cone pl i) eqn:Ec.
    - destruct H as [H|?]; [|done]. by apply value_steps_lost.
    - apply (g_lost _ _ (reports_grows _ _ Hr1)). by apply Hcone. }
  set (f1 := foldl _ _ _) in *. clearbody f1.
  assert (L1 : length (lost f1) = size) by (by rewrite (g_length _ _ (reports_grows _ _ Hr1))).
  destruct (firstWritten Quote pl f1 _ _ _) as [f2 dv] eqn:E2.
  destruct (taken_gives f1 f1 f2 dv _ (λ i, cone pl i && takesDefault Quote url_Parse WritesReference Resolve Alike pl f nullable i) Property_Default _ E2 L1) as [Hr2 G2]; [done| |].
  { intros i Hi [Hc|Ht]%andb_false_iff; apply Hrefused; auto. left. by apply refused_default. }
  set (f3 := with_merged f2 _). assert (Hg3 : grows f1 f3) by (etrans; [by apply reports_grows|apply with_merged_grows]).
  assert (L3 : length (lost f3) = size) by (by rewrite (g_length _ _ Hg3)).
  destruct (firstWritten Quote pl f3 _ _ _) as [f4 ex] eqn:E4.
  destruct (taken_gives f1 f3 f4 ex _ (λ i, cone pl i && takesExamples Quote url_Parse WritesReference Resolve Alike pl f nullable i)
    (λ p, nonempty (Property_Examples p)) _ E4 L3) as [Hr4 G4]; [done| |].
  { intros i Hi [Hc|Ht]%andb_false_iff; apply Hrefused; auto. left. by apply refused_examples. }
  assert (Hg : grows f1 f4) by (etrans; [exact Hg3|by apply reports_grows]).
  split; [etrans; [by apply reports_grows|]; etrans; [exact Hg|apply with_merged_grows]|].
  exists dv, ex. split_and!.
  - cbn [merged with_merged]. destruct Hr4 as (_ & -> & _). unfold f3. cbn [merged with_merged]. destruct Hr2 as (_ & -> & _). by destruct Hr1 as (_ & -> & _).
  - apply (gives_grows f2); [|done]. etrans; [apply with_merged_grows|]. etrans; [by apply reports_grows|apply with_merged_grows].
  - apply (gives_grows f4); [apply with_merged_grows|done].
Qed.

(** *** Use *)

(** A provenance that bears one more marker. *)
Definition marked (x : Inferred) (v : Provenance) : Provenance :=
  mkProvenance (Provenance_Source v) (Provenance_Pointer v) (Provenance_Position v) (Provenance_Node v) (JoinInferred [Provenance_Inferred v; x]).

(** What use says of a property, and the rest of it. *)
Definition with_use (req sec : bool) (vis : Visibility) (pv : Provenance) p : Property :=
  set_Provenance pv (set_Visibility vis (set_Secret sec (set_Required req p))).

Lemma use_step_grows f i : grows f (use_step Quote pl f i).
Proof.
  unfold use_step. destruct (i =? 0); [apply with_merged_grows|]. cbv zeta. destruct (_ && _ && _).
  - etrans; [apply with_merged_grows|]. etrans; [apply reports_grows, note_reports|apply with_merged_grows].
  - etrans; [apply with_merged_grows|apply with_merged_grows].
Qed.

Lemma use_step_merged f i : ∃ pv,
  Provenance_Pointer pv = Provenance_Pointer (Property_Provenance (merged f)) ∧ Provenance_Source pv = Provenance_Source (Property_Provenance (merged f)) ∧
  merged (use_step Quote pl f i) =
    with_use (Property_Required (merged f) || Property_Required (prop (decl_at pl i))) (Property_Secret (merged f) || Property_Secret (prop (decl_at pl i)))
      (if i =? 0 then Property_Visibility (merged f) else mergeVisibility (Property_Visibility (merged f)) (Property_Visibility (prop (decl_at pl i)))) pv (merged f).
Proof.
  unfold use_step. destruct (i =? 0).
  - exists (Property_Provenance (merged f)). split_and!; [done|done|]. unfold with_use. cbn [merged with_merged]. by destruct (merged f).
  - cbv zeta. exists (marked (secretBy (decl_at pl i)) (Property_Provenance (merged f))). split_and!; [done|done|].
    unfold with_use. destruct (merged f). destruct (_ && _ && _); reflexivity.
Qed.

Lemma with_use_again r s v pv r' s' v' pv' p : with_use r s v pv (with_use r' s' v' pv' p) = with_use r s v pv p.
Proof. by destruct p. Qed.

Lemma use_steps_merged l f : ∃ pv vis,
  Provenance_Pointer pv = Provenance_Pointer (Property_Provenance (merged f)) ∧ Provenance_Source pv = Provenance_Source (Property_Provenance (merged f)) ∧
  (∀ l', visible vis l' = visible (Property_Visibility (merged f)) l' &&
     forallb (λ i, (i =? 0) || visible (Property_Visibility (prop (decl_at pl i))) l') l) ∧
  merged (foldl (use_step Quote pl) f l) =
    with_use (Property_Required (merged f) || existsb (λ i, Property_Required (prop (decl_at pl i))) l)
      (Property_Secret (merged f) || existsb (λ i, Property_Secret (prop (decl_at pl i))) l) vis pv (merged f).
Proof.
  revert f. induction l as [|i l IH]; intros f; cbn [foldl existsb forallb].
  - exists (Property_Provenance (merged f)), (Property_Visibility (merged f)). split_and!; [done|done|intros; by rewrite andb_true_r|].
    rewrite !orb_false_r. unfold with_use. by destruct (merged f).
  - destruct (use_step_merged f i) as (pv & Hp & Hs & Hm). destruct (IH (use_step Quote pl f i)) as (pv' & vis & Hp' & Hs' & Hv & ->).
    rewrite Hm in Hp', Hs', Hv |- *. exists pv', vis. rewrite with_use_again.
    assert (∀ r s v q, Property_Provenance (with_use r s v q (merged f)) = q ∧ Property_Visibility (with_use r s v q (merged f)) = v ∧
      Property_Required (with_use r s v q (merged f)) = r ∧ Property_Secret (with_use r s v q (merged f)) = s) as Hproj by (intros; by destruct (merged f)).
    destruct (Hproj (Property_Required (merged f) || Property_Required (prop (decl_at pl i))) (Property_Secret (merged f) || Property_Secret (prop (decl_at pl i)))
      (if i =? 0 then Property_Visibility (merged f) else mergeVisibility (Property_Visibility (merged f)) (Property_Visibility (prop (decl_at pl i)))) pv) as (E1 & E2 & E3 & E4).
    rewrite E1 in Hp', Hs'. rewrite E2 in Hv. rewrite E3, E4. split_and!; [congruence|congruence| |by rewrite !orb_assoc].
    intros l'. rewrite Hv. destruct (i =? 0); [done|]. cbn [orb]. by rewrite visible_merge, andb_assoc.
Qed.

(** *** Docs, annotations, and what is kept *)

Lemma foldUse_grows f : grows f (foldUse Quote pl f).
Proof.
  unfold foldUse. generalize (indices (p_decls pl)) as l. intros l. revert f.
  induction l as [|i l IH]; intros f; [done|]. cbn [foldl]. etrans; [apply use_step_grows|apply IH].
Qed.

Lemma foldDocs_spec f : length (lost f) = size →
  grows f (foldDocs Quote pl f) ∧
  ∃ summary description links,
    merged (foldDocs Quote pl f) = set_Docs (docs_with (default [] summary) (default [] description) (default [] links) (Property_Docs (merged f))) (merged f) ∧
    gives (foldDocs Quote pl f) summary same_by_eq (λ p, nonempty (Docs_Summary (Property_Docs p))) ∧
    gives (foldDocs Quote pl f) description same_by_eq (λ p, nonempty (Docs_Description (Property_Docs p))) ∧
    gives (foldDocs Quote pl f) links same_by_eq (λ p, nonempty (Docs_ExternalDocs (Property_Docs p))).
Proof.
  intros L. unfold foldDocs.
  destruct (firstWritten _ _ f _ _ _) as [f1 v1] eqn:E1. destruct (firstWritten_gives _ _ _ _ _ _ E1 L) as [R1 G1].
  assert (L1 : length (lost f1) = size) by (by rewrite (g_length _ _ (reports_grows _ _ R1))).
  destruct (firstWritten _ _ f1 _ _ _) as [f2 v2] eqn:E2. destruct (firstWritten_gives _ _ _ _ _ _ E2 L1) as [R2 G2].
  assert (L2 : length (lost f2) = size) by (by rewrite (g_length _ _ (reports_grows _ _ R2))).
  destruct (firstWritten _ _ f2 _ _ _) as [f3 v3] eqn:E3. destruct (firstWritten_gives _ _ _ _ _ _ E3 L2) as [R3 G3].
  assert (R13 : reports f1 f3) by (by etrans). assert (R0 : reports f f3) by (by etrans).
  split; [etrans; [by apply reports_grows|apply with_merged_grows]|]. exists v1, v2, v3. split_and!.
  - cbn [merged with_merged]. by destruct R0 as (_ & -> & _).
  - apply (gives_grows f1); [|done]. etrans; [by apply reports_grows|apply with_merged_grows].
  - apply (gives_grows f2); [|done]. etrans; [by apply reports_grows|apply with_merged_grows].
  - apply (gives_grows f3); [apply with_merged_grows|done].
Qed.

Lemma foldAnnotations_spec f : length (lost f) = size →
  grows f (foldAnnotations Quote pl f) ∧
  ∃ deprecation xml pv,
    Provenance_Pointer pv = Provenance_Pointer (Property_Provenance (merged f)) ∧ Provenance_Source pv = Provenance_Source (Property_Provenance (merged f)) ∧
    merged (foldAnnotations Quote pl f) = set_XML xml (set_Provenance pv (set_Deprecation deprecation (merged f))) ∧
    gives (foldAnnotations Quote pl f) deprecation same_by_eq Property_Deprecation ∧
    gives (foldAnnotations Quote pl f) xml same_by_eq Property_XML.
Proof.
  intros L. unfold foldAnnotations.
  destruct (firstWritten _ _ f _ _ _) as [f1 v1] eqn:E1. destruct (firstWritten_gives _ _ _ _ _ _ E1 L) as [R1 G1]. cbv zeta.
  lazymatch goal with |- context [let '(_, _) := firstWritten Quote pl ?g _ _ _ in _] => set (f2 := g) end.
  assert (∃ pv, Provenance_Pointer pv = Provenance_Pointer (Property_Provenance (merged f)) ∧ Provenance_Source pv = Provenance_Source (Property_Provenance (merged f)) ∧
    grows f1 f2 ∧ merged f2 = set_Provenance pv (set_Deprecation v1 (merged f))) as (pv & Hp & Hs & Hg & Hm).
  { destruct R1 as (_ & Hm1 & _). rewrite <-Hm1. unfold f2. destruct (head _) as [[|i]|].
    - exists (Property_Provenance (merged f1)). split_and!; [done|done|apply with_merged_grows|]. cbn [merged with_merged]. by destruct (merged f1).
    - exists (marked (Provenance_Inferred (Property_Provenance (prop (decl_at pl (S i))))) (Property_Provenance (merged f1))).
      split_and!; [done|done|etrans; apply with_merged_grows|]. cbn [merged with_merged]. by destruct (merged f1).
    - exists (Property_Provenance (merged f1)). split_and!; [done|done|apply with_merged_grows|]. cbn [merged with_merged]. by destruct (merged f1). }
  clearbody f2.
  assert (L2 : length (lost f2) = size) by (by rewrite (g_length _ _ Hg), (g_length _ _ (reports_grows _ _ R1))).
  destruct (firstWritten _ _ f2 _ _ _) as [f3 v3] eqn:E3. destruct (firstWritten_gives _ _ _ _ _ _ E3 L2) as [R3 G3].
  assert (Hg3 : grows f1 (with_merged f3 (set_XML v3 (merged f3)))).
  { etrans; [exact Hg|]. etrans; [by apply reports_grows|apply with_merged_grows]. }
  split; [etrans; [by apply reports_grows|done]|]. exists v1, v3, pv. split_and!; [done|done| | |].
  - cbn [merged with_merged]. destruct R3 as (_ & -> & _). by rewrite Hm.
  - by apply (gives_grows f1).
  - apply (gives_grows f3); [apply with_merged_grows|done].
Qed.

Lemma foldUnmodeled_spec f : length (lost f) = size →
  grows f (foldUnmodeled Quote WritesReference Alike pl f) ∧
  ∃ um, merged (foldUnmodeled Quote WritesReference Alike pl f) = set_Unmodeled um (merged f) ∧
    ∀ i key e, i < size → Property_Unmodeled (prop (decl_at pl i)) !! key = Some e →
      (∃ e', um !! key = Some e' ∧ (e' = e ∨ sameEntry WritesReference Alike e' e = true)) ∨ is_lost (foldUnmodeled Quote WritesReference Alike pl f) i.
Proof.
  intros L. unfold foldUnmodeled. destruct (foldl _ _ _) as [f1 union] eqn:E.
  destruct (unmodeled_spec Quote pl WritesReference Alike f f1 union E L) as [Hr H].
  split; [etrans; [by apply reports_grows|apply with_merged_grows]|]. exists (fst <$> union). split.
  - cbn [merged with_merged]. by destruct Hr as (_ & -> & _).
  - intros i key e Hi He. destruct (H i key Hi e He) as (y & Hy & Hc). rewrite lookup_fmap. destruct Hc as [->|[?|?]]; [left; exists e; auto|left; exists y; auto|by right].
Qed.

(** *** What follows the type leaves it be *)

(** A later stage resolves in the same registry, and leaves the type the field took. *)
Definition later f f' : Prop := registry f' = registry f ∧ Property_Type (merged f') = Property_Type (merged f).
#[export] Instance later_preorder : PreOrder later.
Proof. split; [done|]. intros f f' f'' [R1 T1] [R2 T2]. split; congruence. Qed.
Lemma reports_later f f' : reports f f' → later f f'.
Proof. intros (_ & Hm & Hr). split; [done|by rewrite Hm]. Qed.
Lemma firstWritten_later {T} f detail_ (of_ : nat → Property → option T) same : later f (firstWritten Quote pl f detail_ of_ same).1.
Proof.
  pose proof (foldl_reports_fst _ (f, None) (indices (p_decls pl)) (written_step_reports Quote pl detail_ of_ same)) as Hr.
  unfold firstWritten. destruct (foldl _ _ _) as [f1 found]. by apply reports_later.
Qed.

(** One detail read, once what was written before it is seen to be none of the type. *)
Ltac set_later := split; [reflexivity|]; cbn [merged with_merged]; match goal with |- context [merged ?g] => by destruct (merged g) end.
Ltac written :=
  lazymatch goal with |- context [firstWritten Quote pl ?g ?d ?o ?s] =>
    transitivity g; [first [reflexivity | set_later]|];
    let H := fresh in pose proof (firstWritten_later g d o s) as H;
    destruct (firstWritten Quote pl g d o s); cbn [fst] in H; etrans; [exact H|clear H] end.

Lemma foldConstraints_later f : later f (foldConstraints Quote pl f).
Proof. etrans; [exact (reports_later _ _ (disagree_all_reports Quote pl f met_constraints))|]. unfold foldConstraints. fold met_constraints. cbv zeta. set_later. Qed.
Lemma foldValues_later f : later f (foldValues Quote url_Parse WritesReference Resolve Alike pl f).
Proof.
  unfold foldValues. etrans; [apply reports_later, (foldl_reports (value_step Quote url_Parse WritesReference Resolve Alike pl (isAnyField Resolve f))), value_step_reports|].
  written. written. set_later.
Qed.
Lemma use_step_later f i : later f (use_step Quote pl f i).
Proof.
  destruct (use_step_merged f i) as (pv & _ & _ & Hm). split; [|rewrite Hm; by destruct (merged f)].
  unfold use_step. destruct (i =? 0); [done|]. cbv zeta. by destruct (_ && _ && _).
Qed.
Lemma foldUse_later f : later f (foldUse Quote pl f).
Proof.
  unfold foldUse. generalize (indices (p_decls pl)) as l. intros l. revert f.
  induction l as [|i l IH]; intros f; [done|]. cbn [foldl]. etrans; [apply use_step_later|apply IH].
Qed.
Lemma foldDocs_later f : later f (foldDocs Quote pl f).
Proof. unfold foldDocs. written. written. written. set_later. Qed.
Lemma foldAnnotations_later f : later f (foldAnnotations Quote pl f).
Proof.
  unfold foldAnnotations. written. cbv zeta. destruct (head _) as [[|i]|]; written; set_later.
Qed.
Lemma foldUnmodeled_later f : later f (foldUnmodeled Quote WritesReference Alike pl f).
Proof.
  pose proof (foldl_reports_fst _ (f, ∅) (indices (p_decls pl)) (unmodeled_step_reports Quote pl WritesReference Alike)) as Hr.
  unfold foldUnmodeled. destruct (foldl _ _ _) as [f1 union]. etrans; [exact (reports_later _ _ Hr)|]. cbn [fst]. set_later.
Qed.
End Stages.

(** ** The whole fold *)

Lemma existsb_map {A B} (g : B → bool) (h : A → B) l : existsb g (map h l) = existsb (λ x, g (h x)) l.
Proof. induction l as [|x l IH]; [done|]. cbn. by rewrite IH. Qed.
Lemma forallb_map {A B} (g : B → bool) (h : A → B) l : forallb g (map h l) = forallb (λ x, g (h x)) l.
Proof. induction l as [|x l IH]; [done|]. cbn. by rewrite IH. Qed.

Lemma existsb_decls (g : declaration → bool) decls : existsb (λ i, g (nth_decl decls i)) (indices decls) = existsb g decls.
Proof.
  unfold indices, nth_decl. induction decls as [|d decls IH]; [done|]. cbn [length seq existsb nth]. f_equal.
  rewrite <-seq_shift, existsb_map. exact IH.
Qed.
Lemma forallb_decls (g : declaration → bool) decls : forallb (λ i, g (nth_decl decls i)) (indices decls) = forallb g decls.
Proof.
  unfold indices, nth_decl. induction decls as [|d decls IH]; [done|]. cbn [length seq forallb nth]. f_equal.
  rewrite <-seq_shift, forallb_map. exact IH.
Qed.

Section Whole.
Context (Quote : gostring → gostring) (url_Parse : gostring → option gostring) (WritesReference : gostring → bool).
Context {R : Type} (Resolve : R → TypeID → option TypeDef) (Mint : R → gostring → TypeDef → R * TypeID)
  (Interned : R → gostring → bool) (PropAt : gostring → PropID) (Alike : Provenance → Provenance → bool).
Implicit Types (f : folding (R:=R)).
Abbreviation settled := (settled Quote url_Parse WritesReference Resolve Mint Alike).
Abbreviation fold := (fold Quote url_Parse WritesReference Resolve Mint Interned PropAt Alike).

(** What the fields of the property say of a declaration that lost nothing. *)
Record agrees (p q : Property) : Prop := {
  a_required : Property_Required q = true → Property_Required p = true;
  a_secret : Property_Secret q = true → Property_Secret p = true;
  a_visible : ∀ l, visible (Property_Visibility p) l = true → visible (Property_Visibility q) l = true;
  a_default : ∀ v, Property_Default q = Some v → ∃ w, Property_Default p = Some w ∧ (w = v ∨ sameValue Quote w v = true);
  a_examples : Property_Examples q ≠ [] → Property_Examples p = Property_Examples q ∨ sameExamples Quote (Property_Examples p) (Property_Examples q) = true;
  a_summary : Docs_Summary (Property_Docs q) ≠ [] → Docs_Summary (Property_Docs p) = Docs_Summary (Property_Docs q);
  a_description : Docs_Description (Property_Docs q) ≠ [] → Docs_Description (Property_Docs p) = Docs_Description (Property_Docs q);
  a_links : Docs_ExternalDocs (Property_Docs q) ≠ [] → Docs_ExternalDocs (Property_Docs p) = Docs_ExternalDocs (Property_Docs q);
  a_deprecation : is_Some (Property_Deprecation q) → Property_Deprecation p = Property_Deprecation q;
  a_xml : is_Some (Property_XML q) → Property_XML p = Property_XML q
}.
(** Each of its entries is there, or the same entry is. *)
Definition has_entries (um : gmap gostring UnmodeledEntry) (q : Property) : Prop :=
  ∀ key e, Property_Unmodeled q !! key = Some e → ∃ e', um !! key = Some e' ∧ (e' = e ∨ sameEntry WritesReference Alike e' e = true).

Definition settled_plan r decls (field : gostring) : plan := (settled r decls field).1.
Definition settled_fold r decls (field : gostring) : folding := (settled r decls field).2.

(** What a fold leaves, before it is named and reported. *)
Record outcome r decls pl f : Prop := {
  o_told : told f;
  o_length : length (lost f) = length decls;
  o_wire : Property_WireName (merged f) = Property_WireName (prop (nth_decl decls 0));
  o_pointer : Provenance_Pointer (Property_Provenance (merged f)) = pointer_of (nth_decl decls 0);
  o_required : Property_Required (merged f) = existsb (λ d, Property_Required (prop d)) decls;
  o_secret : Property_Secret (merged f) = existsb (λ d, Property_Secret (prop d)) decls;
  o_visible : ∀ l, visible (Property_Visibility (merged f)) l = forallb (λ d, visible (Property_Visibility (prop d)) l) decls;
  o_null : TypeRef_Nullable (Property_Type (merged f)) =
    existsb (speaks_of_null Resolve pl r) (indices decls) && admits_null Resolve pl r (indices decls);
  o_type : field_type Resolve Mint pl r (registry f) (TypeRef_Target (Property_Type (merged f)));
  o_nodes : conjuncts pl = [] → ∀ node i k (x : disagreement), i < length decls → Resolve r (winner_target pl) = Some node →
    (i, k, x) ∈ log (node_bounds Resolve pl r) → is_lost f i;
  o_constraints : Property_Constraints (merged f) = kept (met_constraints pl);
  o_cone : ∀ i, i < length decls → cone pl i = false → is_lost f i;
  o_conflict : ∀ i k (x : disagreement), i < length decls → (i, k, x) ∈ log (met_constraints pl) → is_lost f i;
  o_agrees : ∀ i, i < length decls → is_lost f i ∨ (agrees (merged f) (prop (nth_decl decls i)) ∧ has_entries (Property_Unmodeled (merged f)) (prop (nth_decl decls i)))
}.

(** What the field takes is what the declaration says, or the declaration is lost. *)
Lemma gives_eq {T} `{EqDecision T} pl f (v : option T) (of_ : Property → option T) i x : gives pl f v same_by_eq of_ → i < length (p_decls pl) →
  of_ (prop (decl_at pl i)) = Some x → v = Some x ∨ is_lost f i.
Proof.
  intros H Hi Hx. destruct (H i x Hi Hx) as [(y & -> & [->|Hs])|?]; [by left| |by right]. apply bool_decide_eq_true in Hs as ->. by left.
Qed.

Lemma first_or (g : declaration → bool) decls : decls ≠ [] → g (nth_decl decls 0) || existsb g decls = existsb g decls.
Proof. destruct decls as [|d decls]; [done|]. intros _. cbn [nth_decl nth existsb]. by destruct (g d). Qed.
Lemma first_and (g : declaration → bool) decls : decls ≠ [] →
  g (nth_decl decls 0) && forallb (λ i, (i =? 0) || g (nth_decl decls i)) (indices decls) = forallb g decls.
Proof.
  destruct decls as [|d decls]; [done|]. intros _. unfold indices. cbn [length seq forallb Nat.eqb orb andb]. rewrite <-seq_shift, forallb_map.
  cbn [forallb]. f_equal. apply (forallb_decls g decls).
Qed.
Lemma with_docs_provenance x r s v pv q : Property_Provenance (set_Docs x (with_use r s v pv q)) = pv.
Proof. by destruct q. Qed.

(** *** Whose types the field's holds *)

(** Where the judgment meets two types, both are known. *)
Lemma relate_meets r (s : declarationSites) a b : relate Quote url_Parse (Resolve r) WritesReference s a b = relMeet →
  is_Some (Resolve r (TypeRef_Target a)) ∧ is_Some (Resolve r (TypeRef_Target b)).
Proof.
  unfold relate. change (1 + maxJudgeDepth) with (S maxJudgeDepth). cbn [relateAt].
  destruct (bool_decide _); [done|]. destruct (_ <? _); [done|].
  destruct (Resolve r (TypeRef_Target a)), (Resolve r (TypeRef_Target b)); done.
Qed.
Lemma judged_meets r decls i j : judged Quote url_Parse WritesReference Resolve Alike r decls i j = relMeet →
  is_Some (Resolve r (TypeRef_Target (type_of (nth_decl decls i)))).
Proof.
  unfold judged, judge. destruct (i =? j); [done|]. destruct (i <? j); [by intros [? _]%relate_meets|].
  intros H. apply (relate_meets r (sites_of Alike (nth_decl decls j) (nth_decl decls i)) (type_of (nth_decl decls j)) (type_of (nth_decl decls i))).
  by destruct (relate _ _ _ _ _ _ _).
Qed.

Lemma conjuncts_of_each r decls rel js cs : conjuncts_of Resolve r decls rel js = Some cs →
  ∀ i, i ∈ js → heldByAnother rel (length decls) i = false → ∃ c, c ∈ cs ∧ decl c = i.
Proof.
  revert cs. induction js as [|j js IH]; intros cs; cbn [conjuncts_of]; [by intros _ i ?%not_elem_of_nil|].
  destruct (heldByAnother rel (length decls) j) eqn:Eh.
  - intros E i [->|Hi]%elem_of_cons Hh; [by rewrite Hh in Eh|by apply (IH cs)].
  - intros E i. destruct (model Resolve r (type_of (nth_decl decls j))) as [m|]; [|done]. cbn [mbind option_bind] in E.
    destruct (conjuncts_of Resolve r decls rel js) as [found|]; [|done]. injection E as <-. intros [->|Hi]%elem_of_cons Hh.
    + eexists. by split; [left|].
    + destruct (IH found eq_refl i Hi Hh) as (c & Hc & ?). exists c. by split; [right|].
Qed.


(** The field's type holds a declaration's: where no models compose, the winner's
    type does, within the bounds of its node too where the two meet; where they do,
    the model it names is one of those composed, or another holds it. *)
Definition holds_type pl r i : Prop :=
  (conjuncts pl = [] ∧ holds (rel pl) (winner pl) i = true ∧
     (i = winner pl ∨ rel pl (winner pl) i = relMeet → no_looser Quote (kept (node_bounds Resolve pl r)) (nodeBounds Resolve r (type_of (decl_at pl i))))) ∨
  (conjuncts pl ≠ [] ∧ ((∃ c, c ∈ conjuncts pl ∧ decl c = i) ∨ heldByAnother (rel pl) (length (p_decls pl)) i = true)).

Lemma no_looser_none (c : option Constraints) : no_looser Quote c None.
Proof. by intros v depth. Qed.

Lemma settled_outcome r decls field : decls ≠ [] →
  outcome r decls (settled_plan r decls field) (settled_fold r decls field).
Proof.
  intros Hne. unfold settled_plan, settled_fold, Fold.settled. cbn [fst snd].
  set (pl := newPlan Quote url_Parse WritesReference Resolve Alike r decls field). set (f0 := newFolding r decls).
  assert (L0 : length (lost f0) = length (p_decls pl)) by apply length_replicate.
  assert (T0 : told f0).
  { split; [by cbn; rewrite !length_replicate|]. intros i Hi. cbn in Hi. by apply lookup_replicate_1 in Hi as [? _]. }
  destruct (foldType_spec Quote Resolve Mint pl f0 L0) as (G1 & (t & M1 & N1) & C1).
  destruct (foldType_field Quote Resolve Mint pl f0 L0) as [T1 B1].
  assert (T17 : later (foldType Quote Resolve Mint pl f0)
    (foldUnmodeled Quote WritesReference Alike pl (foldAnnotations Quote pl (foldDocs Quote pl (foldUse Quote pl (foldValues Quote url_Parse WritesReference Resolve Alike pl
       (foldConstraints Quote pl (foldType Quote Resolve Mint pl f0)))))))).
  { etrans; [apply foldConstraints_later|]. etrans; [apply foldValues_later|]. etrans; [apply foldUse_later|]. etrans; [apply foldDocs_later|].
    etrans; [apply foldAnnotations_later|apply foldUnmodeled_later]. }
  set (f1 := foldType Quote Resolve Mint pl f0) in *. assert (L1 : length (lost f1) = length (p_decls pl)) by (by rewrite (g_length _ _ G1)).
  destruct (foldConstraints_spec Quote pl f1 L1) as (G2 & M2 & C2).
  set (f2 := foldConstraints Quote pl f1) in *. assert (L2 : length (lost f2) = length (p_decls pl)) by (by rewrite (g_length _ _ G2)).
  destruct (foldValues_spec Quote url_Parse WritesReference Resolve Alike pl f2 L2) as (G3 & dv & ex & M3 & D3 & X3).
  { intros i Hi Hc. apply (g_lost _ _ G2). by apply C1. }
  set (f3 := foldValues _ _ _ _ _ _ f2) in *. assert (L3 : length (lost f3) = length (p_decls pl)) by (by rewrite (g_length _ _ G3)).
  pose proof (foldUse_grows Quote pl f3) as G4. destruct (use_steps_merged Quote pl (indices (p_decls pl)) f3) as (pv & vis & P4 & _ & V4 & M4).
  fold (foldUse Quote pl f3) in M4.
  set (f4 := foldUse Quote pl f3) in *. assert (L4 : length (lost f4) = length (p_decls pl)) by (by rewrite (g_length _ _ G4)).
  destruct (foldDocs_spec Quote pl f4 L4) as (G5 & su & de & li & M5 & S5 & D5 & E5).
  set (f5 := foldDocs Quote pl f4) in *. assert (L5 : length (lost f5) = length (p_decls pl)) by (by rewrite (g_length _ _ G5)).
  destruct (foldAnnotations_spec Quote pl f5 L5) as (G6 & dep & xml & pv' & P6 & _ & M6 & A6 & X6).
  set (f6 := foldAnnotations Quote pl f5) in *. assert (L6 : length (lost f6) = length (p_decls pl)) by (by rewrite (g_length _ _ G6)).
  destruct (foldUnmodeled_spec Quote WritesReference Alike pl f6 L6) as (G7 & um & M7 & U7).
  set (f7 := foldUnmodeled Quote WritesReference Alike pl f6) in *. clearbody f1 f2 f3 f4 f5 f6 f7.
  assert (Hm : Property_Provenance (merged f3) = Property_Provenance (merged f0) ∧ Property_Required (merged f3) = Property_Required (merged f0) ∧
    Property_Secret (merged f3) = Property_Secret (merged f0) ∧ Property_Visibility (merged f3) = Property_Visibility (merged f0)).
  { rewrite M3, M2, M1. by destruct (merged f0). }
  destruct Hm as (Hpv & Hreq & Hsec & Hvis). rewrite Hvis in V4. rewrite Hreq, Hsec in M4. rewrite Hpv in P4.
  rewrite M4, M3, M2, M1 in M5. rewrite M5 in M6. rewrite M5, with_docs_provenance in P6. rewrite M6 in M7. clear M1 M2 M3 M4 M5 M6 Hpv Hreq Hsec Hvis.
  assert (G57 : grows f5 f7) by (by etrans). assert (G37 : grows f3 f7) by (etrans; [exact G4|]; by etrans).
  assert (G17 : grows f1 f7) by (etrans; [exact G2|]; by etrans). assert (G27 : grows f2 f7) by (by etrans).
  change (merged f0) with (prop (nth_decl decls 0)) in *. change (registry f0) with r in *.
  assert (Hreq' : Property_Required (merged f7) = existsb (λ d, Property_Required (prop d)) decls).
  { rewrite M7, <-(first_or (λ d, Property_Required (prop d)) decls Hne), <-(existsb_decls (λ d, Property_Required (prop d)) decls). by destruct (prop (nth_decl decls 0)). }
  assert (Hsec' : Property_Secret (merged f7) = existsb (λ d, Property_Secret (prop d)) decls).
  { rewrite M7, <-(first_or (λ d, Property_Secret (prop d)) decls Hne), <-(existsb_decls (λ d, Property_Secret (prop d)) decls). by destruct (prop (nth_decl decls 0)). }
  assert (Hvis' : ∀ l, visible (Property_Visibility (merged f7)) l = forallb (λ d, visible (Property_Visibility (prop d)) l) decls).
  { intros l. rewrite <-(first_and (λ d, visible (Property_Visibility (prop d)) l) decls Hne). etrans; [|exact (V4 l)].
    rewrite M7. by destruct (prop (nth_decl decls 0)). }
  constructor.
  - apply (g_told _ _ G17), (g_told _ _ G1), T0.
  - by rewrite (g_length _ _ G17), L1.
  - rewrite M7. by destruct (prop (nth_decl decls 0)).
  - rewrite M7. etrans; [|exact P4]. rewrite <-P6. by destruct (prop (nth_decl decls 0)).
  - done.
  - done.
  - done.
  - etrans; [|exact N1]. rewrite M7. by destruct (prop (nth_decl decls 0)).
  - destruct T17 as [-> ->]. exact T1.
  - intros Hc node i k x Hi Hn Hin. apply (g_lost _ _ G17). by apply (B1 Hc node i k x).
  - rewrite M7. by destruct (prop (nth_decl decls 0)).
  - intros i Hi Hc. apply (g_lost _ _ G17). by apply C1.
  - intros i k x Hi Hin. apply (g_lost _ _ G27). by apply (C2 i k x).
  - intros i Hi. destruct (decide (is_lost f7 i)) as [|Hl]; [by left|]. right.
    assert (HL : ∀ f, grows f f7 → ¬ is_lost f i) by (intros f Hg H; by apply Hl, (g_lost _ _ Hg)).
    assert (HE : ∀ (T : Type) `{EqDecision T} f (v : option T) (of_ : Property → option T) x, grows f f7 → gives pl f v same_by_eq of_ →
      of_ (prop (nth_decl decls i)) = Some x → v = Some x).
    { intros T ? f v of_ x Hg H Hx. destruct (gives_eq pl f v of_ i x H Hi Hx) as [?|?]; [done|]. by destruct (HL f Hg). }
    assert (Hin : nth_decl decls i ∈ decls) by (apply list_elem_of_In, nth_In, Hi).
    split; [constructor|].
    + intros Hq. rewrite Hreq'. by apply existsb_exists; exists (nth_decl decls i); split; [apply list_elem_of_In|].
    + intros Hq. rewrite Hsec'. by apply existsb_exists; exists (nth_decl decls i); split; [apply list_elem_of_In|].
    + intros l. rewrite Hvis', forallb_forall. intros H. by apply H, list_elem_of_In.
    + intros v Hv. destruct (D3 i v Hi Hv) as [(y & -> & Hy)|?]; [|by destruct (HL f3 G37)]. exists y. split; [|done].
      rewrite M7. by destruct (prop (nth_decl decls 0)).
    + intros Hx. destruct (X3 i (Property_Examples (prop (nth_decl decls i))) Hi) as [(y & -> & Hy)|?]; [| |by destruct (HL f3 G37)].
      { change (decl_at pl i) with (nth_decl decls i). by destruct (Property_Examples (prop (nth_decl decls i))). }
      replace (Property_Examples (merged f7)) with y; [by destruct Hy as [->|?]; [left|right]|].
      rewrite M7. by destruct (prop (nth_decl decls 0)).
    + intros Hx. rewrite (HE _ _ f5 su _ (Docs_Summary (Property_Docs (prop (nth_decl decls i)))) G57 S5) in M7; [|by destruct (Docs_Summary _)].
      rewrite M7. by destruct (prop (nth_decl decls 0)).
    + intros Hx. rewrite (HE _ _ f5 de _ (Docs_Description (Property_Docs (prop (nth_decl decls i)))) G57 D5) in M7; [|by destruct (Docs_Description _)].
      rewrite M7. by destruct (prop (nth_decl decls 0)).
    + intros Hx. rewrite (HE _ _ f5 li _ (Docs_ExternalDocs (Property_Docs (prop (nth_decl decls i)))) G57 E5) in M7; [|by destruct (Docs_ExternalDocs _)].
      rewrite M7. by destruct (prop (nth_decl decls 0)).
    + intros [x Hx]. rewrite (HE _ _ f6 dep _ x G7 A6 Hx) in M7. rewrite M7, Hx. by destruct (prop (nth_decl decls 0)).
    + intros [x Hx]. rewrite (HE _ _ f6 xml _ x G7 X6 Hx) in M7. rewrite M7, Hx. by destruct (prop (nth_decl decls 0)).
    + intros key e He. destruct (U7 i key e Hi He) as [?|?]; [|by contradict Hl].
      rewrite M7. by destruct (prop (nth_decl decls 0)).
Qed.
(** The numbers a declaration bounds its values by are texts Go can hold. *)
Definition bounded r d : Prop :=
  (∀ c, Property_Constraints (prop d) = Some c → fits_set c) ∧ (∀ c, nodeBounds Resolve r (type_of d) = Some c → fits_set c).

(** Of sets the declarations give, where [b] counts them, each no tighter than what they meet to. *)
Lemma met_each_of (b : nat → bool) (of_ : declaration → option Constraints) decls i :
  (∀ d c, d ∈ decls → of_ d = Some c → fits_set c) → i < length decls → b i = true →
  (∀ k (x : disagreement), (i, k, x) ∉ log (meetConstraints (imap (λ i d, if b i then of_ d else None) decls))) →
  no_looser Quote (kept (meetConstraints (imap (λ i d, if b i then of_ d else None) decls))) (of_ (nth_decl decls i)).
Proof.
  intros Hf Hi Hb Hlog. destruct (of_ (nth_decl decls i)) as [c|] eqn:E; [|apply no_looser_none]. apply (meetConstraints_no_looser Quote _ i); [| |done].
  - intros c' (k & d & Hd & Hk)%elem_of_lookup_imap. destruct (b k); [|done]. apply (Hf d); [|done]. by apply list_elem_of_lookup_2 in Hk.
  - rewrite list_lookup_imap. unfold nth_decl in E. destruct (lookup_lt_is_Some_2 decls i Hi) as [d Hd].
    rewrite (nth_lookup_Some _ _ _ _ Hd) in E. by rewrite Hd; cbn; rewrite Hb, E.
Qed.

Section Held.
Context (r : R) (decls : list declaration) (field : gostring) (f : folding (R:=R)).
Abbreviation pl := (settled_plan r decls field).
Hypothesis settled_so : outcome r decls pl f.
Hypothesis bounds : ∀ d, d ∈ decls → bounded r d.

Lemma held_constraints i : i < length decls → ¬ is_lost f i → no_looser Quote (Property_Constraints (merged f)) (Property_Constraints (prop (nth_decl decls i))).
Proof using settled_so bounds.
  intros Hi Hl. rewrite (o_constraints _ _ _ _ settled_so). apply (met_each_of (cone pl) (λ d, Property_Constraints (prop d))); [|done| |].
  - intros d c Hd. by apply bounds.
  - destruct (cone pl i) eqn:E; [done|]. destruct Hl. by apply (o_cone _ _ _ _ settled_so).
  - intros k x Hx. apply Hl. by apply (o_conflict _ _ _ _ settled_so i k x).
Qed.

Lemma held_type i : i < length decls → ¬ is_lost f i → holds_type pl r i.
Proof using settled_so bounds.
  intros Hi Hl. assert (Hc : cone pl i = true).
  { destruct (cone pl i) eqn:E; [done|]. destruct Hl. by apply (o_cone _ _ _ _ settled_so). }
  change (cone pl i) with ((0 <? length (conjuncts pl)) || holds (rel pl) (winner pl) i) in Hc.
  destruct (decide (length (conjuncts pl) = 0)) as [Hn%nil_length_inv|Hn].
  - left. rewrite Hn in Hc. split_and!; [done|exact Hc|]. intros Hm.
    destruct (Resolve r (winner_target pl)) as [node|] eqn:Ew.
    + apply (met_each_of (λ i, (i =? winner pl) || bool_decide (rel pl (winner pl) i = relMeet)) (λ d, nodeBounds Resolve r (type_of d))); [|done| |].
      * intros d c Hd. by apply bounds.
      * destruct Hm as [->|Hm]; [by rewrite Nat.eqb_refl|]. by rewrite (bool_decide_true _ Hm), orb_true_r.
      * intros k x Hx. apply Hl. by apply (o_nodes _ _ _ _ settled_so Hn node i k x).
    + unfold winner_target in Ew. destruct Hm as [->|Hm].
      * unfold nodeBounds. rewrite Ew. apply no_looser_none.
      * destruct (judged_meets r decls (winner pl) i Hm) as [node Hnode]. change (nth_decl decls (winner pl)) with (decl_at pl (winner pl)) in Hnode. congruence.
  - right. split; [intros E; by rewrite E in Hn|].
    destruct (heldByAnother (rel pl) (length decls) i) eqn:Eh; [by right|left].
    assert (Hcs : conjuncts pl = composition Resolve r decls (rel pl)) by done. rewrite Hcs in Hn |- *. unfold composition in *. cbv zeta in *.
    destruct (_ <? 2); [done|]. destruct (conjuncts_of Resolve r decls (rel pl) (indices decls)) as [cs|] eqn:E; [|done].
    apply (conjuncts_of_each r decls (rel pl) (indices decls) cs E); [apply elem_of_seq; lia|done].
Qed.
End Held.
End Whole.

(** ** What is kept verbatim *)

Definition kept_key d : gostring := losingDeclarationKey ++ pointer_of d.

Lemma kept_key_inj d d' : kept_key d = kept_key d' → pointer_of d = pointer_of d'.
Proof. apply app_inv_head. Qed.

(** What one declaration adds to what is kept, and what it reports where it cannot. *)
Definition keep_entry (um : gmap gostring UnmodeledEntry) d : gmap gostring UnmodeledEntry :=
  if is_nil (pointer_of d) then um
  else match render (source d) with
       | inl raw => PreserveInto um (kept_key d) raw ReasonDegradedLowering (Property_Provenance (prop d))
       | inr _ => um
       end.
Definition keep_reports d : list report := (keepLosingDeclaration zeroProperty (Property_Provenance (prop d)) (source d)).2.

Lemma set_Unmodeled_same p : set_Unmodeled (Property_Unmodeled p) p = p.
Proof. by destruct p. Qed.
Lemma set_Unmodeled_again um um' p : set_Unmodeled um (set_Unmodeled um' p) = set_Unmodeled um p.
Proof. by destruct p. Qed.
Lemma Unmodeled_set um p : Property_Unmodeled (set_Unmodeled um p) = um.
Proof. by destruct p. Qed.
Lemma keepLosing_eq p d :
  keepLosingDeclaration p (Property_Provenance (prop d)) (source d) = (set_Unmodeled (keep_entry (Property_Unmodeled p) d) p, keep_reports d).
Proof.
  unfold keep_reports, keepLosingDeclaration, keep_entry, kept_key, pointer_of. destruct (is_nil _); [by rewrite set_Unmodeled_same|].
  destruct (render _); [done|]. by rewrite set_Unmodeled_same.
Qed.

Lemma keep_entries_other ds um key : (∀ d, d ∈ ds → key ≠ kept_key d) → foldl keep_entry um ds !! key = um !! key.
Proof.
  revert um. induction ds as [|d ds IH]; intros um H; [done|]. cbn [foldl]. rewrite IH by (intros d' Hd; apply H; by right).
  unfold keep_entry, PreserveInto. destruct (is_nil _); [done|]. destruct (render _) as [raw|]; [|done]. destruct (is_nil raw); [done|].
  apply lookup_insert_ne. intros E. by apply (H d); [left|].
Qed.

(** Where two declarations at one place are one, each is kept under its own key. *)
Lemma keep_entries ds um d raw : (∀ d', d' ∈ ds → pointer_of d' = pointer_of d → d' = d) → d ∈ ds →
  pointer_of d ≠ [] → render (source d) = inl raw → raw ≠ [] →
  foldl keep_entry um ds !! kept_key d = Some (mkUnmodeledEntry ReasonDegradedLowering raw (Property_Provenance (prop d))).
Proof.
  intros Hone Hin Hp Hr Hraw.
  assert (Hstep : ∀ um, keep_entry um d !! kept_key d = Some (mkUnmodeledEntry ReasonDegradedLowering raw (Property_Provenance (prop d)))).
  { intros um'. unfold keep_entry, PreserveInto. rewrite (proj2 (is_nil_false _) Hp), Hr, (proj2 (is_nil_false _) Hraw). apply lookup_insert_eq. }
  revert um. induction ds as [|d' ds IH]; intros um; [by apply not_elem_of_nil in Hin|]. cbn [foldl].
  destruct (decide (Exists (λ x, pointer_of x = pointer_of d) ds)) as [Hex|Hnex].
  - apply IH; [intros x Hx; apply Hone; by right|]. apply Exists_exists in Hex as (x & Hx & E). by assert (x = d) as <- by (apply Hone; [by right|done]).
  - rewrite keep_entries_other.
    + apply elem_of_cons in Hin as [->|Hin]; [done|]. destruct Hnex. apply Exists_exists. by exists d.
    + intros x Hx E. apply Hnex, Exists_exists. exists x. split; [done|]. symmetry. by apply kept_key_inj.
Qed.

Section Finish.
Context {R : Type} (pl : plan).
Implicit Types (f : folding (R:=R)).

Definition lost_at f i : bool := nth i (lost f) false.
Definition lost_decls f (l : list nat) : list declaration := decl_at pl <$> filter (λ i, lost_at f i = true) l.
Definition told_at f i : list report := (λ n, mkReport (sev n) (n_code n) (at_ pl i) (msg n)) <$> nth i (notes f) [].
Definition reports_at f i : list report := told_at f i ++ if lost_at f i then keep_reports (decl_at pl i) else [].

Lemma finish_step_eq f p (log : list report) i :
  finish_step pl (notes f) (lost f) (p, log) i =
  (set_Unmodeled (foldl keep_entry (Property_Unmodeled p) (lost_decls f [i])) p, log ++ reports_at f i).
Proof.
  unfold finish_step, reports_at, lost_decls, lost_at, told_at. cbn [filter list_filter].
  destruct (nth i (lost f) false) eqn:E.
  - rewrite (keepLosing_eq p (decl_at pl i)). rewrite decide_True by done. cbn. by rewrite app_assoc.
  - rewrite decide_False by done. cbn. by rewrite app_nil_r, set_Unmodeled_same.
Qed.

Lemma finish_steps_eq f p (log : list report) l :
  foldl (finish_step pl (notes f) (lost f)) (p, log) l =
  (set_Unmodeled (foldl keep_entry (Property_Unmodeled p) (lost_decls f l)) p, log ++ (l ≫= reports_at f)).
Proof.
  revert p log. induction l as [|i l IH]; intros p log; cbn [foldl].
  { cbn. by rewrite app_nil_r, set_Unmodeled_same. }
  rewrite finish_step_eq, IH. f_equal; [|cbn; by rewrite app_assoc].
  replace (lost_decls f (i :: l)) with (lost_decls f [i] ++ lost_decls f l).
  - rewrite foldl_app. by destruct p.
  - unfold lost_decls. cbn [filter list_filter]. by destruct (decide _).
Qed.
End Finish.

Lemma keep_steps_eq ds p (log : list report) :
  foldl keep_step (p, log) ds = (set_Unmodeled (foldl keep_entry (Property_Unmodeled p) ds) p, log ++ (ds ≫= keep_reports)).
Proof.
  revert p log. induction ds as [|d ds IH]; intros p log; cbn [foldl]; [cbn; by rewrite app_nil_r, set_Unmodeled_same|].
  unfold keep_step at 2. rewrite keepLosing_eq, IH. f_equal; [by destruct p|cbn; by rewrite app_assoc].
Qed.

Section Result.
Context (Quote : gostring → gostring) (url_Parse : gostring → option gostring) (WritesReference : gostring → bool).
Context {R : Type} (Resolve : R → TypeID → option TypeDef) (Mint : R → gostring → TypeDef → R * TypeID)
  (Interned : R → gostring → bool) (PropAt : gostring → PropID) (Alike : Provenance → Provenance → bool).
Abbreviation fold := (fold Quote url_Parse WritesReference Resolve Mint Interned PropAt Alike).
Abbreviation settled_plan := (settled_plan Quote url_Parse WritesReference Resolve Mint Alike).
Abbreviation settled_fold := (settled_fold Quote url_Parse WritesReference Resolve Mint Alike).

Definition judged_of decls : list declaration := take maxFoldDeclarations decls.
Definition past_of decls : list declaration := skipn maxFoldDeclarations decls.
Definition field_of decls : gostring := (fieldSpan (judged_of decls)).2.

(** The property is the one the stages settle, but for its identity, its place and
    what is kept beside it. *)
Lemma fold_eq r decls r' p (log : list report) : fold r decls = (r', p, log) →
  let pl := settled_plan r (judged_of decls) (field_of decls) in
  let f := settled_fold r (judged_of decls) (field_of decls) in
  ∃ id pv more,
    p = set_Unmodeled (foldl keep_entry (Property_Unmodeled (merged f)) (lost_decls pl f (indices (judged_of decls)) ++ past_of decls))
          (set_Provenance pv (set_ID id (merged f))) ∧
    log = (indices (judged_of decls) ≫= reports_at pl f) ++ more ∧
    (∀ d rep, d ∈ past_of decls → rep ∈ keep_reports d → rep ∈ more).
Proof.
  unfold Fold.fold, field_of, FoldSound.settled_plan, FoldSound.settled_fold. fold (judged_of decls) (past_of decls).
  destruct (fieldSpan (judged_of decls)) as [schema field]. cbn [snd].
  assert (Hd : p_decls (Fold.settled Quote url_Parse WritesReference Resolve Mint Alike r (judged_of decls) field).1 = judged_of decls) by done.
  destruct (Fold.settled _ _ _ _ _ _ _ _ _) as [pl f]. cbn [fst snd] in *. unfold finish. rewrite finish_steps_eq, Hd. cbn [app].
  set (um := foldl keep_entry (Property_Unmodeled (merged f)) (lost_decls pl f (indices (judged_of decls)))).
  intros E. assert (∃ pv id, identify Interned PropAt (registry f) (set_Unmodeled um (merged f)) schema field = set_Unmodeled um (set_Provenance pv (set_ID id (merged f))))
    as (pv & id & Hid).
  { unfold identify. destruct (negb _).
    - exists (Property_Provenance (merged f)), (Property_ID (merged f)). by destruct (merged f).
    - set (v := Property_Provenance (merged f)).
      exists (mkProvenance (Provenance_Source v) field (Provenance_Position v) (Provenance_Node v) (Provenance_Inferred v)), (PropAt field).
      unfold v. by destruct (merged f). }
  rewrite Hid in E. unfold keepUnjudged in E. destruct (past_of decls) as [|d past] eqn:Ep.
  - injection E as <- <- <-. exists id, pv, []. rewrite app_nil_r. split_and!; [done|done|]. intros d rep Hin. by apply not_elem_of_nil in Hin.
  - match type of E with context [mkReport ?a ?b ?c ?t] => set (rep0 := mkReport a b c t) in E; clearbody rep0 end.
    rewrite keep_steps_eq in E. injection E as <- <- <-. exists id, pv. eexists. split_and!; [|reflexivity|].
    + by rewrite foldl_app, set_Unmodeled_again, Unmodeled_set.
    + intros d' rep Hd' Hrep. apply elem_of_cons. right. apply (list_elem_of_bind keep_reports rep (d :: past)). by exists d'.
Qed.

(** The registry the fold leaves is the one its stages do. *)
Lemma fold_registry r decls r' p (log : list report) : fold r decls = (r', p, log) →
  r' = registry (settled_fold r (judged_of decls) (field_of decls)).
Proof.
  unfold Fold.fold, field_of, FoldSound.settled_fold. fold (judged_of decls) (past_of decls).
  destruct (fieldSpan (judged_of decls)) as [schema field]. cbn [snd]. destruct (Fold.settled _ _ _ _ _ _ _ _ _) as [pl f]. cbn [snd].
  destruct (finish pl f) as [q found]. destruct (keepUnjudged _ _ _) as [q' more]. by intros [= <- _ _].
Qed.

(** A declaration stands somewhere, and what renders it writes something. *)
Definition writes d : Prop := pointer_of d ≠ [] ∧ render (source d) ≠ inl [].

(** The construct a declaration was written as is beside the property, or an error
    says it is in no form at all. *)
Definition kept_verbatim p (log : list report) d : Prop :=
  match render (source d) with
  | inl raw => Property_Unmodeled p !! kept_key d = Some (mkUnmodeledEntry ReasonDegradedLowering raw (Property_Provenance (prop d)))
  | inr _ => ∃ rep, rep ∈ log ∧ r_sev rep = SeverityError ∧ r_code rep = UnpreservableConstruct ∧ r_pointer rep = pointer_of d
  end.
Definition told_of (log : list report) d : Prop := ∃ rep, rep ∈ log ∧ r_pointer rep = pointer_of d.

Lemma agrees_moved um pv id p q : agrees Quote p q → agrees Quote (set_Unmodeled um (set_Provenance pv (set_ID id p))) q.
Proof. intros []. destruct p. by constructor. Qed.

Lemma keep_reports_error d err : pointer_of d ≠ [] → render (source d) = inr err →
  ∃ rep, keep_reports d = [rep] ∧ r_sev rep = SeverityError ∧ r_code rep = UnpreservableConstruct ∧ r_pointer rep = pointer_of d.
Proof.
  intros Hp Hr. unfold keep_reports, keepLosingDeclaration. change (Provenance_Pointer (Property_Provenance (prop d))) with (pointer_of d).
  rewrite (proj2 (is_nil_false _) Hp), Hr. cbn [snd]. eexists. split_and!; [reflexivity|done|done|done].
Qed.

(** A declaration among those kept is kept. *)
Lemma kept_is_verbatim ds um p (log : list report) d :
  Property_Unmodeled p = foldl keep_entry um ds → (∀ d', d' ∈ ds → pointer_of d' = pointer_of d → d' = d) → d ∈ ds →
  (∀ rep, rep ∈ keep_reports d → rep ∈ log) → writes d → kept_verbatim p log d.
Proof.
  intros Hum Hone Hin Hlog [Hp Hw]. unfold kept_verbatim. destruct (render (source d)) as [raw|err] eqn:Er.
  - rewrite Hum. apply keep_entries; [done|done|done|done|]. intros ->. by apply Hw.
  - destruct (keep_reports_error d err Hp Er) as (rep & E & ?). exists rep. split; [|done]. apply Hlog. rewrite E. by apply list_elem_of_singleton.
Qed.

Lemma judged_some decls : decls ≠ [] → judged_of decls ≠ [].
Proof. by destruct decls. Qed.
Lemma judged_lookup decls i d : decls !! i = Some d → i < maxFoldDeclarations →
  i < length (judged_of decls) ∧ nth_decl (judged_of decls) i = d.
Proof.
  intros Hd Hi. assert (judged_of decls !! i = Some d) as H by (unfold judged_of; by rewrite lookup_take_lt).
  split; [by apply lookup_lt_Some in H|]. unfold nth_decl. rewrite nth_lookup, H. done.
Qed.
Lemma past_lookup decls i d : decls !! i = Some d → maxFoldDeclarations ≤ i → d ∈ past_of decls.
Proof.
  intros Hd Hi. apply list_elem_of_lookup. exists (i - maxFoldDeclarations). unfold past_of. rewrite lookup_drop. by replace (maxFoldDeclarations + (i - maxFoldDeclarations)) with i by lia.
Qed.
Lemma elem_of_parts decls d : d ∈ judged_of decls ∨ d ∈ past_of decls → d ∈ decls.
Proof. intros H. rewrite <-(take_drop maxFoldDeclarations decls). by apply elem_of_app. Qed.

Lemma lost_decls_in {R'} pl (f : folding (R:=R')) d : d ∈ lost_decls pl f (indices (p_decls pl)) → d ∈ p_decls pl.
Proof.
  intros (i & -> & Hi)%list_elem_of_fmap. apply list_elem_of_filter in Hi as [_ Hi%elem_of_seq]. apply list_elem_of_In, nth_In. lia.
Qed.

Section Kept.
Context (r r' : R) (decls : list declaration) (p : Property) (log : list report).
Hypothesis folded : fold r decls = (r', p, log).
Hypothesis some : decls ≠ [].
Hypothesis one_place : ∀ d d', d ∈ decls → d' ∈ decls → pointer_of d = pointer_of d' → d = d'.
Abbreviation pl := (settled_plan r (judged_of decls) (field_of decls)).
Abbreviation f := (settled_fold r (judged_of decls) (field_of decls)).

Lemma judged_outcome : outcome Quote WritesReference Resolve Mint Alike r (judged_of decls) pl f.
Proof using some. by apply settled_outcome, judged_some. Qed.

Lemma ds_in d : d ∈ lost_decls pl f (indices (judged_of decls)) ++ past_of decls → d ∈ decls.
Proof using Type. intros [H|H]%elem_of_app; apply elem_of_parts; [left|by right]. exact (lost_decls_in pl f d H). Qed.

Lemma lost_kept i : i < length (judged_of decls) → is_lost f i → writes (nth_decl (judged_of decls) i) →
  kept_verbatim p log (nth_decl (judged_of decls) i) ∧ told_of log (nth_decl (judged_of decls) i).
Proof using All.
  intros Hi Hl Hp. destruct (fold_eq _ _ _ _ _ folded) as (id & pv & more & -> & -> & _).
  assert (Hat : lost_at f i = true) by (unfold lost_at; rewrite nth_lookup; by rewrite Hl).
  assert (Hin : nth_decl (judged_of decls) i ∈ lost_decls pl f (indices (judged_of decls))).
  { apply list_elem_of_fmap. exists i. split; [done|]. apply list_elem_of_filter. split; [done|]. apply elem_of_seq. lia. }
  assert (Hrep : ∀ rep, rep ∈ reports_at pl f i → rep ∈ (indices (judged_of decls) ≫= reports_at pl f) ++ more).
  { intros rep H. apply elem_of_app. left. apply list_elem_of_bind. exists i. split; [done|]. apply elem_of_seq. lia. }
  split.
  - eapply kept_is_verbatim; [apply Unmodeled_set| |by apply elem_of_app; left| |done].
    + intros d' Hd' E. apply one_place; [by apply ds_in|apply ds_in, elem_of_app; by left|done].
    + intros rep H. apply Hrep. unfold reports_at. rewrite Hat. by apply elem_of_app; right.
  - destruct (o_told _ _ _ _ _ _ _ _ _ judged_outcome) as [_ Ht]. specialize (Ht i Hl).
    destruct (nth i (notes f) []) as [|n ns] eqn:En; [done|].
    eexists. split; [apply Hrep; unfold reports_at, told_at; rewrite En; cbn [fmap list_fmap]; apply elem_of_app; left; by left|done].
Qed.

Lemma past_kept d : d ∈ past_of decls → writes d → kept_verbatim p log d.
Proof using All.
  intros Hd Hp. destruct (fold_eq _ _ _ _ _ folded) as (id & pv & more & -> & -> & Hmore).
  eapply kept_is_verbatim; [apply Unmodeled_set| |by apply elem_of_app; right| |done].
  - intros d' Hd' E. apply one_place; [by apply ds_in|apply elem_of_parts; by right|done].
  - intros rep H. apply elem_of_app. right. by apply (Hmore d).
Qed.

Lemma carried_entries q key e : has_entries WritesReference Alike (Property_Unmodeled (merged f)) q → Property_Unmodeled q !! key = Some e →
  (∃ e', Property_Unmodeled p !! key = Some e' ∧ (e' = e ∨ sameEntry WritesReference Alike e' e = true)) ∨ ∃ d', d' ∈ decls ∧ key = kept_key d'.
Proof using folded.
  intros H He. destruct (H key e He) as (e' & Hk & Hs). destruct (fold_eq _ _ _ _ _ folded) as (id & pv & more & -> & _ & _).
  rewrite Unmodeled_set. set (ds := lost_decls pl f (indices (judged_of decls)) ++ past_of decls).
  destruct (decide (Exists (λ d, key = kept_key d) ds)) as [Hex|Hnex].
  - right. apply Exists_exists in Hex as (d' & Hd' & ->). exists d'. split; [by apply ds_in|done].
  - left. exists e'. split; [|done]. rewrite keep_entries_other; [done|]. intros d Hd ->. apply Hnex, Exists_exists. by exists d.
Qed.
End Kept.
End Result.

(** ** The schema that holds every declaration *)

(** A pointer to anything but the document begins with the separator. *)
Definition rooted (q : gostring) : Prop := q = [] ∨ ∃ rest, q = separator :: rest.

Lemma Contains_spec (q held : gostring) : Contains q held = true ↔ ∃ rest, held = q ++ rest ∧ rooted rest.
Proof.
  revert held. induction q as [|c q IH]; intros [|x held]; cbn [Contains].
  - split; [intros _; exists []; split; [done|by left]|done].
  - rewrite bool_decide_eq_true. split; [intros ->; exists (separator :: held); split; [done|right; by exists held]|].
    intros (rest & E & [->|[rest' ->]]); [done|]. by injection E.
  - split; [done|]. intros (rest & E & _). done.
  - rewrite andb_true_iff, bool_decide_eq_true, IH. split.
    + intros (-> & rest & -> & H). by exists rest.
    + intros (rest & E & H). injection E as -> ->. split; [done|]. by exists rest.
Qed.
Lemma Contains_root (held : gostring) : rooted held → Contains [] held = true.
Proof. intros H. apply Contains_spec. by exists held. Qed.

Lemma until_separator_split (q before rest : gostring) : until_separator q = (before, rest) →
  q = before ++ rest ∧ (rest = [] ∨ ∃ rest', rest = separator :: rest').
Proof.
  revert before rest. induction q as [|c q IH]; intros before rest; cbn [until_separator]; [intros [= <- <-]; by split; [|left]|].
  case_decide as Hc; [intros [= <- <-]; subst c; split; [done|right; by exists q]|].
  destruct (until_separator q) as [b r0]. destruct (IH b r0 eq_refl) as [-> H]. by intros [= <- <-].
Qed.
Lemma Parent_split (q : gostring) : Parent q = [] ∨ ∃ last, q = Parent q ++ separator :: last.
Proof.
  unfold Parent, split_last. destruct (until_separator (reverse q)) as [last before] eqn:E. apply until_separator_split in E as [E H].
  destruct before as [|c before]; [by left|right]. destruct H as [?|[rest' [= -> <-]]]; [done|]. cbn [fst].
  exists (reverse last). apply (f_equal reverse) in E. rewrite reverse_involutive in E. rewrite E, reverse_app, reverse_cons, <-app_assoc. done.
Qed.
Lemma Parent_shorter (q : gostring) : q ≠ [] → length (Parent q) < length q.
Proof. intros Hq. destruct (Parent_split q) as [->|[last E]]; [destruct q; [done|cbn; lia]|]. rewrite E at 2. rewrite length_app. cbn. lia. Qed.
Lemma Parent_holds (q held : gostring) : rooted held → Contains q held = true → Contains (Parent q) held = true.
Proof.
  intros Hr H. destruct (Parent_split q) as [->|[last E]]; [by apply Contains_root|].
  apply Contains_spec in H as (rest & -> & _). apply Contains_spec. exists (separator :: last ++ rest). split; [|right; by eexists].
  rewrite E at 1. by rewrite <-app_assoc.
Qed.
Lemma Parent_nil : Parent [] = [].
Proof. done. Qed.
Lemma schemaOf_shorter (q : gostring) : q ≠ [] → length (schemaOf q) < length q.
Proof.
  intros Hq. unfold schemaOf. pose proof (Parent_shorter q Hq). destruct (decide (Parent q = [])) as [->|Hp]; [rewrite Parent_nil; by destruct q; cbn; [|lia]|].
  pose proof (Parent_shorter _ Hp). lia.
Qed.
Lemma schemaOf_holds (q held : gostring) : rooted held → Contains q held = true → Contains (schemaOf q) held = true.
Proof. intros Hr H. by apply Parent_holds, Parent_holds. Qed.

(** Enough turns for the schema's tokens, and it holds the declaration. *)
Lemma widen_holds fuel (schema held : gostring) : rooted held → length schema < fuel → Contains (widen fuel schema held) held = true.
Proof.
  intros Hr. revert schema. induction fuel as [|fuel IH]; intros schema Hf; [lia|]. cbn [widen].
  destruct (Contains schema held) eqn:E; [done|]. apply IH. destruct schema as [|c schema]; [by rewrite Contains_root in E|].
  pose proof (schemaOf_shorter (c :: schema) ltac:(done)). lia.
Qed.
Lemma widen_still fuel (schema held other : gostring) : rooted other → Contains schema other = true → Contains (widen fuel schema held) other = true.
Proof.
  intros Hr. revert schema. induction fuel as [|fuel IH]; intros schema H; [done|]. cbn [widen].
  destruct (Contains schema held); [done|]. by apply IH, schemaOf_holds.
Qed.

Lemma span_holds ds (schema field : gostring) (seen : list gostring) :
  Forall (λ d, rooted (pointer_of d)) ds → Forall rooted seen → Forall (λ q, Contains schema q = true) seen → field ∈ seen →
  Forall (λ q, Contains (foldl span_step (schema, field) ds).1 q = true) (seen ++ (pointer_of <$> ds)) ∧
  (foldl span_step (schema, field) ds).2 ∈ seen ++ (pointer_of <$> ds).
Proof.
  revert schema field seen. induction ds as [|d ds IH]; intros schema field seen Hds Hseen Hc Hf; cbn [foldl fmap list_fmap].
  { rewrite app_nil_r. done. }
  apply Forall_cons in Hds as [Hd Hds]. unfold span_step at 2 4. change (foldr _ _ _) with (pointer_of <$> ds).
  replace (seen ++ pointer_of d :: (pointer_of <$> ds)) with ((seen ++ [pointer_of d]) ++ (pointer_of <$> ds)) by by rewrite <-app_assoc.
  destruct (Contains schema (pointer_of d)) eqn:E; apply IH; try done.
  - apply Forall_app. by split; [|apply Forall_singleton].
  - apply Forall_app. by split; [|apply Forall_singleton].
  - apply elem_of_app. by left.
  - apply Forall_app. by split; [|apply Forall_singleton].
  - apply Forall_app. split; [|apply Forall_singleton; apply widen_holds; [done|lia]].
    apply Forall_forall. intros q Hq. rewrite Forall_forall in Hseen, Hc. apply widen_still; [by apply Hseen|by apply Hc].
  - apply elem_of_app. right. by apply list_elem_of_singleton.
Qed.

(** ** The fields of a model *)

Definition wire_of d : gostring := Property_WireName (prop d).
(** The declarations of one wire name, in order. *)
Definition declared (ds : list declaration) (w : gostring) : list declaration := filter (λ d, wire_of d = w) ds.

(** The names of a list in the order each is first met. *)
Fixpoint firsts (l : list gostring) : list gostring :=
  match l with [] => [] | x :: l => x :: filter (.≠ x) (firsts l) end.
Lemma firsts_snoc (l : list gostring) (x : gostring) : firsts (l ++ [x]) = firsts l ++ if decide (x ∈ l) then [] else [x].
Proof.
  induction l as [|y l IH]; [cbn; by rewrite decide_False by apply not_elem_of_nil|].
  cbn [app firsts]. f_equal. rewrite IH, filter_app. f_equal. destruct (decide (x = y)) as [->|Hne].
  - rewrite (decide_True (P := y ∈ y :: l)) by by left. destruct (decide (y ∈ l)); [done|]. by rewrite filter_cons_False by (intros H; by apply H).
  - destruct (decide (x ∈ l)) as [Hx|Hx].
    + by rewrite decide_True by by right.
    + rewrite decide_False by (intros [?|?]%elem_of_cons; done). by rewrite filter_cons_True.
Qed.

(** What the index knows of the declarations it was given. *)
Record indexes (ds : list declaration) (m : Model) (idx : PropIndex) : Prop := {
  i_field : ∀ w, match declared ds w with
                 | [] => byWire idx !! w = None
                 | d :: again => ∃ n, byWire idx !! w = Some (mkField n (source d) again) ∧ Model_Properties m !! n = Some (prop d)
                 end;
  i_known : ∀ n p, Model_Properties m !! n = Some p → ∃ fi, byWire idx !! Property_WireName p = Some fi ∧ pos fi = n;
  i_again : NoDup (redeclared idx) ∧ ∀ w, w ∈ redeclared idx ↔ 1 < length (declared ds w);
  i_queued : queued idx = if is_nil (redeclared idx) then 0 else 1;
  i_order : Property_WireName <$> Model_Properties m = firsts (wire_of <$> ds)
}.

Lemma with_properties_spec ps m : Model_Properties (with_properties ps m) = ps.
Proof. by destruct m. Qed.
Lemma with_properties_again ps ps' m : with_properties ps (with_properties ps' m) = with_properties ps m.
Proof. by destruct m. Qed.

Lemma declared_snoc ds d w : declared (ds ++ [d]) w = declared ds w ++ if decide (wire_of d = w) then [d] else [].
Proof. unfold declared. rewrite filter_app. by f_equal. Qed.
Lemma declared_wire ds w d : d ∈ declared ds w → wire_of d = w ∧ d ∈ ds.
Proof. by intros [? ?]%list_elem_of_filter. Qed.
Lemma declared_cons d ds w : declared (d :: ds) w = (if decide (wire_of d = w) then [d] else []) ++ declared ds w.
Proof. unfold declared. cbn [filter list_filter]. by destruct (decide _). Qed.
Lemma nodup_declared ds : NoDup (wire_of <$> ds) ↔ ∀ w, ¬ 1 < length (declared ds w).
Proof.
  induction ds as [|d ds IH]; cbn [fmap list_fmap]; [split; [intros _ w; cbn; lia|intros _; constructor]|].
  rewrite NoDup_cons, IH. split.
  - intros [Hn H] w. rewrite declared_cons, length_app. specialize (H w). destruct (decide (wire_of d = w)) as [<-|]; cbn [length]; [|lia].
    destruct (declared ds (wire_of d)) as [|d' again] eqn:E; [cbn; lia|]. exfalso. apply Hn, list_elem_of_fmap.
    destruct (declared_wire ds (wire_of d) d') as [Hw Hin]; [rewrite E; by left|]. by exists d'.
  - intros H. split.
    + intros (d' & Ew & Hin)%list_elem_of_fmap. apply (H (wire_of d)). rewrite declared_cons, decide_True by done. cbn [app length].
      assert (Hd : d' ∈ declared ds (wire_of d)) by (by apply list_elem_of_filter). destruct (declared ds (wire_of d)); [by apply not_elem_of_nil in Hd|cbn; lia].
    + intros w Hw. apply (H w). rewrite declared_cons, length_app. lia.
Qed.
Lemma declared_first ds w d again : declared ds w = d :: again → wire_of d = w.
Proof. intros E. apply (declared_wire ds w d). rewrite E. by left. Qed.

Lemma wire_declared ds w : w ∈ wire_of <$> ds ↔ declared ds w ≠ [].
Proof.
  rewrite list_elem_of_fmap. split.
  - intros (d & -> & Hd) E. assert (H : d ∈ declared ds (wire_of d)) by (by apply list_elem_of_filter). rewrite E in H. by apply not_elem_of_nil in H.
  - destruct (declared ds w) as [|d again] eqn:E; [done|]. intros _. exists d. destruct (declared_wire ds w d) as [<- Hin]; [rewrite E; by left|done].
Qed.

Lemma indexes_nil m : Model_Properties m = [] → indexes [] m NewPropIndex.
Proof.
  intros Hm. constructor; [done|intros n p; by rewrite Hm| |done|by rewrite Hm].
  split; [constructor|]. intros w. split; [by intros ?%not_elem_of_nil|cbn; lia].
Qed.

Lemma indexes_new ds m idx d : indexes ds m idx → byWire idx !! wire_of d = None →
  indexes (ds ++ [d]) (with_properties (Model_Properties m ++ [prop d]) m)
    (mkPropIndex (<[wire_of d := mkField (length (Model_Properties m)) (source d) []]> (byWire idx)) (redeclared idx) (queued idx)).
Proof.
  intros [Hf Hk [Hnd Ha] Hq Ho] Hnone.
  assert (Hno : declared ds (wire_of d) = []).
  { specialize (Hf (wire_of d)). destruct (declared ds (wire_of d)); [done|]. destruct Hf as (n & E & _). congruence. }
  constructor; cbn [byWire redeclared queued]; [| | |done|].
  - intros w. rewrite declared_snoc, with_properties_spec. destruct (decide (wire_of d = w)) as [<-|Hne].
    + rewrite Hno. cbn [app]. exists (length (Model_Properties m)). rewrite lookup_insert_eq. split; [done|]. by rewrite lookup_app_r, Nat.sub_diag by lia.
    + rewrite app_nil_r. specialize (Hf w). destruct (declared ds w) as [|d' again]; [by rewrite lookup_insert_ne|].
      destruct Hf as (n & E & Hn). exists n. rewrite lookup_insert_ne by done. split; [done|]. by apply lookup_app_l_Some.
  - intros n p. rewrite with_properties_spec. intros [Hn|[Hn Hp]]%lookup_app_Some.
    + destruct (Hk n p Hn) as (fi & E & ?). exists fi. split; [|done]. rewrite lookup_insert_ne; [done|]. intros Ew. by rewrite Ew, E in Hnone.
    + apply list_lookup_singleton_Some in Hp as [Hn0 <-]. exists (mkField (length (Model_Properties m)) (source d) []).
      rewrite lookup_insert_eq. split; [done|]. cbn. lia.
  - split; [done|]. intros w. rewrite Ha, declared_snoc, length_app. destruct (decide (wire_of d = w)) as [<-|]; cbn [length]; [rewrite Hno; cbn; lia|lia].
  - rewrite with_properties_spec, !fmap_app, Ho. cbn [fmap list_fmap]. rewrite firsts_snoc, decide_False; [done|]. rewrite wire_declared, Hno. by intros H.
Qed.

Lemma indexes_again ds m idx d fi : indexes ds m idx → byWire idx !! wire_of d = Some fi →
  indexes (ds ++ [d]) m
    (mkPropIndex (<[wire_of d := mkField (pos fi) (first fi) (rest fi ++ [d])]> (byWire idx))
       (if is_nil (rest fi) then redeclared idx ++ [wire_of d] else redeclared idx)
       (if is_nil (rest fi) then if is_nil (redeclared idx) then S (queued idx) else queued idx else queued idx)).
Proof.
  intros [Hf Hk [Hnd Ha] Hq Ho] Hsome.
  assert (∃ d0 again n, declared ds (wire_of d) = d0 :: again ∧ fi = mkField n (source d0) again ∧ Model_Properties m !! n = Some (prop d0))
    as (d0 & again & n & Hd & -> & Hn).
  { specialize (Hf (wire_of d)). destruct (declared ds (wire_of d)) as [|d0 again]; [congruence|].
    destruct Hf as (n & E & Hn). exists d0, again, n. split_and!; [done|congruence|done]. }
  cbn [pos first rest]. constructor; cbn [byWire redeclared queued].
  - intros w. rewrite declared_snoc. destruct (decide (wire_of d = w)) as [<-|Hne].
    + rewrite Hd. cbn [app]. exists n. by rewrite lookup_insert_eq.
    + rewrite app_nil_r. specialize (Hf w). by rewrite lookup_insert_ne.
  - intros n' p Hp. destruct (Hk n' p Hp) as (fi & E & Hpos). destruct (decide (wire_of d = Property_WireName p)) as [Ew|Hne].
    + rewrite <-Ew in E |- *. exists (mkField n (source d0) (again ++ [d])). rewrite lookup_insert_eq. split; [done|]. rewrite E in Hsome. by injection Hsome as ->.
    + exists fi. by rewrite lookup_insert_ne.
  - assert (Hiff : ∀ w, 1 < length (declared (ds ++ [d]) w) ↔ 1 < length (declared ds w) ∨ w = wire_of d).
    { intros w. rewrite declared_snoc, length_app. destruct (decide (wire_of d = w)) as [<-|]; [rewrite Hd; cbn; naive_solver lia|cbn; naive_solver lia]. }
    destruct again as [|d1 again]; cbn [is_nil].
    + split.
      * apply NoDup_app. split_and!; [done| |apply NoDup_singleton]. intros w Hw ->%list_elem_of_singleton. apply Ha in Hw. rewrite Hd in Hw. cbn in Hw. lia.
      * intros w. rewrite Hiff, <-Ha, elem_of_app, list_elem_of_singleton. done.
    + split; [done|]. intros w. rewrite Hiff, <-Ha. split; [by left|]. intros [?| ->]; [done|]. apply Ha. rewrite Hd. cbn. lia.
  - rewrite Hq. destruct again; cbn [is_nil]; [|done]. by destruct (redeclared idx).
  - rewrite Ho, fmap_app. cbn [fmap list_fmap]. rewrite firsts_snoc, decide_True, app_nil_r; [done|]. by rewrite wire_declared, Hd.
Qed.

Lemma MergeProperty_indexes ds m idx d : indexes ds m idx → let '(m', idx') := MergeProperty m idx d in indexes (ds ++ [d]) m' idx'.
Proof.
  intros H. unfold MergeProperty. change (Property_WireName (prop d)) with (wire_of d).
  destruct (byWire idx !! wire_of d) as [fi|] eqn:E; [|by apply indexes_new].
  pose proof (indexes_again ds m idx d fi H E) as Hi. by destruct (is_nil (rest fi)).
Qed.

Lemma merge_all_indexes m ds : Model_Properties m = [] → let '(m', idx) := merge_all m ds in indexes ds m' idx.
Proof.
  intros Hm. induction ds as [|d ds IH] using rev_ind; [by apply indexes_nil|].
  unfold merge_all in *. rewrite foldl_app. cbn [foldl]. destruct (foldl _ _ ds) as [m' idx]. cbn [fst snd].
  pose proof (MergeProperty_indexes ds m' idx d IH) as H. by destruct (MergeProperty m' idx d).
Qed.

Section Settling.
Context (Quote : gostring → gostring) (url_Parse : gostring → option gostring) (WritesReference : gostring → bool).
Context {R : Type} (Resolve : R → TypeID → option TypeDef) (Mint : R → gostring → TypeDef → R * TypeID)
  (Interned : R → gostring → bool) (PropAt : gostring → PropID) (Alike : Provenance → Provenance → bool).
Abbreviation fold := (fold Quote url_Parse WritesReference Resolve Mint Interned PropAt Alike).
Abbreviation settle_step := (settle_step Quote url_Parse WritesReference Resolve Mint Interned PropAt Alike).
Abbreviation settle := (settle Quote url_Parse WritesReference Resolve Mint Interned PropAt Alike).

Lemma fold_wire r d ds r' p (log : list report) : fold r (d :: ds) = (r', p, log) → Property_WireName p = wire_of d.
Proof.
  intros E. destruct (fold_eq _ _ _ _ _ _ _ _ _ _ _ _ _ E) as (id & pv & more & -> & _ & _).
  pose proof (settled_outcome Quote url_Parse WritesReference Resolve Mint Alike r (judged_of (d :: ds)) (field_of (d :: ds)) ltac:(done)) as O.
  transitivity (Property_WireName (merged (settled_fold Quote url_Parse WritesReference Resolve Mint Alike r (judged_of (d :: ds)) (field_of (d :: ds)))));
    [by destruct (merged _)|]. by rewrite (o_wire _ _ _ _ _ _ _ _ _ O).
Qed.

(** The property a field's declarations fold to, from some state of the registry. *)
Definition folds d (again : list declaration) (q : Property) : Prop :=
  ∃ r1 r2 (more : list report), fold r1 (mkDeclaration (prop d) (source d) [] :: again) = (r2, q, more).

Lemma folds_wire d again q : folds d again q → Property_WireName q = wire_of d.
Proof. intros (r1 & r2 & more & E). exact (fold_wire _ _ _ _ _ _ E). Qed.

Lemma follow_properties from to_ m : Model_Properties (follow from to_ m) = Model_Properties m.
Proof. unfold follow. destruct (Model_Discriminator m); [|done]. destruct (bool_decide _); [|done]. by destruct m. Qed.

Section Index.
Context (ds : list declaration) (m : Model) (idx : PropIndex).
Hypothesis known : indexes ds m idx.

Lemma position w d again : declared ds w = d :: again →
  ∃ n, byWire idx !! w = Some (mkField n (source d) again) ∧ Model_Properties m !! n = Some (prop d).
Proof using known. intros E. pose proof (i_field _ _ _ known w) as H. by rewrite E in H. Qed.

Lemma position_unique n n' p p' : Model_Properties m !! n = Some p → Model_Properties m !! n' = Some p' →
  Property_WireName p = Property_WireName p' → n = n'.
Proof using known.
  intros H H' E. destruct (i_known _ _ _ known n p H) as (fi & Ef & <-), (i_known _ _ _ known n' p' H') as (fi' & Ef' & <-). congruence.
Qed.

Lemma redeclared_declared w : w ∈ redeclared idx → ∃ d again, declared ds w = d :: again ∧ wire_of d = w.
Proof using known.
  intros H. apply (proj2 (i_again _ _ _ known)) in H. destruct (declared ds w) as [|d again] eqn:E; [cbn in H; lia|].
  exists d, again. split; [done|]. by apply (declared_first ds w d again).
Qed.

Lemma settle_steps l : NoDup l → (∀ w, w ∈ l → w ∈ redeclared idx) → ∀ r m1 (log : list report),
  (∀ n p, Model_Properties m !! n = Some p → Property_WireName p ∈ l → Model_Properties m1 !! n = Some p) →
  ∃ r' m' log', foldl (settle_step idx) (Some (r, m1, log)) l = Some (r', m', log') ∧
    length (Model_Properties m') = length (Model_Properties m1) ∧
    (∀ n p, Model_Properties m !! n = Some p → Property_WireName p ∉ l → Model_Properties m' !! n = Model_Properties m1 !! n) ∧
    (∀ n d again, wire_of d ∈ l → declared ds (wire_of d) = d :: again → Model_Properties m !! n = Some (prop d) →
       ∃ q, Model_Properties m' !! n = Some q ∧ folds d again q).
Proof using known.
  induction l as [|w l IH]; intros Hnd Hl r m1 log Hm1.
  { exists r, m1, log. split_and!; [done|done|done|]. intros n d again Hw. by apply not_elem_of_nil in Hw. }
  apply NoDup_cons in Hnd as [Hw Hnd].
  destruct (redeclared_declared w) as (d & again & Hd & Ew); [apply Hl; by left|].
  destruct (position w d again Hd) as (n & Hby & Hn).
  assert (Hn1 : Model_Properties m1 !! n = Some (prop d)).
  { apply Hm1; [done|]. change (wire_of d ∈ w :: l). rewrite Ew. by left. }
  destruct (fold r (mkDeclaration (prop d) (source d) [] :: again)) as [[r2 q] more] eqn:Ef.
  set (m2 := follow (Property_ID (prop d)) (Property_ID q) (with_properties (<[n:=q]> (Model_Properties m1)) m1)).
  assert (Hm2 : Model_Properties m2 = <[n:=q]> (Model_Properties m1)) by (unfold m2; by rewrite follow_properties, with_properties_spec).
  assert (Hstep : settle_step idx (Some (r, m1, log)) w = Some (r2, m2, log ++ more)).
  { unfold Fold.settle_step. cbn [mbind option_bind]. rewrite Hby. cbn [mbind option_bind pos first rest]. rewrite Hn1. cbn [mbind option_bind]. by rewrite Ef. }
  cbn [foldl]. rewrite Hstep.
  destruct (IH Hnd (λ w' H, Hl w' (list_elem_of_further w' w l H)) r2 m2 (log ++ more)) as (r' & m' & log' & Hf & Hlen & Hrest & Hdone).
  { intros n' p Hp Hin. rewrite Hm2, list_lookup_insert_ne; [by apply Hm1; [|right]|]. intros <-. rewrite Hn in Hp. injection Hp as <-.
    apply Hw. rewrite <-Ew. exact Hin. }
  exists r', m', log'. split_and!; [done|by rewrite Hlen, Hm2, length_insert| |].
  - intros n' p Hp Hni. rewrite (Hrest n' p Hp) by (intros H; apply Hni; by right). rewrite Hm2, list_lookup_insert_ne; [done|].
    intros <-. rewrite Hn in Hp. injection Hp as <-. apply Hni. change (wire_of d ∈ w :: l). rewrite Ew. by left.
  - intros n' d' again' Hin Hd' Hn'. apply elem_of_cons in Hin as [E|Hin]; [|by apply (Hdone n' d' again')].
    rewrite E, Hd in Hd'. injection Hd' as <- <-. assert (n' = n) as -> by (by apply (position_unique n' n (prop d) (prop d))).
    exists q. split; [|by exists r, r2, more]. rewrite (Hrest n (prop d) Hn) by (change (wire_of d ∉ l); by rewrite Ew).
    rewrite Hm2. apply list_lookup_insert_eq. by apply lookup_lt_Some in Hn1.
Qed.
Lemma wires_unique : NoDup (Property_WireName <$> Model_Properties m).
Proof using known.
  apply NoDup_alt. intros i j w Hi Hj. rewrite list_lookup_fmap in Hi, Hj.
  destruct (Model_Properties m !! i) as [p|] eqn:Ei; [|done]. destruct (Model_Properties m !! j) as [q|] eqn:Ej; [|done].
  injection Hi as Hi. injection Hj as Hj. apply (position_unique i j p q); congruence.
Qed.

(** Each property is its wire name's first declaration. *)
Lemma property_first n p : Model_Properties m !! n = Some p → ∃ d again, declared ds (Property_WireName p) = d :: again ∧ p = prop d.
Proof using known.
  intros Hn. destruct (i_known _ _ _ known n p Hn) as (fi & Ef & _). pose proof (i_field _ _ _ known (Property_WireName p)) as H.
  destruct (declared ds (Property_WireName p)) as [|d again] eqn:Ed; [congruence|]. exists d, again. split; [done|].
  destruct H as (n' & _ & Hn'). assert (n = n') as <-; [|congruence].
  apply (position_unique n n' p (prop d)); [done|done|]. symmetry. exact (declared_first ds _ d again Ed).
Qed.

Lemma wires_declared w : w ∈ Property_WireName <$> Model_Properties m ↔ ∃ d, d ∈ ds ∧ wire_of d = w.
Proof using known.
  rewrite list_elem_of_fmap. split.
  - intros (p & -> & [n Hn]%list_elem_of_lookup). destruct (property_first n p Hn) as (d & again & Hd & ->). exists d. split; [|done].
    apply (declared_wire ds (wire_of d)). change (Property_WireName (prop d)) with (wire_of d) in Hd. rewrite Hd. by left.
  - intros (d & Hd & <-). assert (Hin : d ∈ declared ds (wire_of d)) by (by apply list_elem_of_filter).
    destruct (declared ds (wire_of d)) as [|d0 again] eqn:E; [by apply not_elem_of_nil in Hin|].
    destruct (position _ d0 again E) as (n & _ & Hn). exists (prop d0). split; [symmetry; exact (declared_first ds _ d0 again E)|].
    apply list_elem_of_lookup. by exists n.
Qed.

Section Settled.
Context (m' : Model).
Hypothesis rest_kept : ∀ n p, Model_Properties m !! n = Some p → Property_WireName p ∉ redeclared idx → Model_Properties m' !! n = Model_Properties m !! n.
Hypothesis done_folds : ∀ n d again, wire_of d ∈ redeclared idx → declared ds (wire_of d) = d :: again → Model_Properties m !! n = Some (prop d) →
  ∃ q, Model_Properties m' !! n = Some q ∧ folds d again q.

Lemma settled_at n p : Model_Properties m !! n = Some p → ∃ q d again,
  Model_Properties m' !! n = Some q ∧ Property_WireName q = Property_WireName p ∧ declared ds (Property_WireName p) = d :: again ∧
  match again with [] => q = prop d | _ => folds d again q end.
Proof using known rest_kept done_folds.
  intros Hn. destruct (property_first n p Hn) as (d & again & Hd & ->). change (Property_WireName (prop d)) with (wire_of d) in *.
  assert (Hre : wire_of d ∈ redeclared idx ↔ again ≠ []).
  { rewrite (proj2 (i_again _ _ _ known)), Hd. cbn [length]. destruct again; cbn; split; (done || lia). }
  destruct again as [|d' again].
  - exists (prop d), d, []. split_and!; [|done|done|done]. rewrite <-Hn. apply (rest_kept n (prop d) Hn). intros Hin. by apply Hre in Hin.
  - destruct (done_folds n d (d' :: again)) as (q & Hq & Hfold); [by apply Hre|done|done|].
    exists q, d, (d' :: again). split_and!; [done|by apply (folds_wire d (d' :: again))|done|done].
Qed.

Lemma settled_wires : length (Model_Properties m') = length (Model_Properties m) →
  Property_WireName <$> Model_Properties m' = Property_WireName <$> Model_Properties m.
Proof using known rest_kept done_folds.
  intros Hlen. apply list_eq. intros n. rewrite !list_lookup_fmap. destruct (Model_Properties m !! n) as [p|] eqn:E.
  - destruct (settled_at n p E) as (q & d & again & Hq & Hw & _). rewrite Hq. cbn. by rewrite Hw.
  - apply lookup_ge_None in E. rewrite <-Hlen in E. apply lookup_ge_None in E. by rewrite E.
Qed.

Lemma settled_property : length (Model_Properties m') = length (Model_Properties m) → ∀ q, q ∈ Model_Properties m' →
  match declared ds (Property_WireName q) with [] => False | [d] => q = prop d | d :: again => folds d again q end.
Proof using known rest_kept done_folds.
  intros Hlen q [n Hn]%list_elem_of_lookup.
  destruct (Model_Properties m !! n) as [p|] eqn:E.
  - destruct (settled_at n p E) as (q' & d & again & Hq & Hw & Hd & Hs). rewrite Hn in Hq. injection Hq as <-. rewrite Hw, Hd. by destruct again.
  - apply lookup_ge_None in E. apply lookup_lt_Some in Hn. lia.
Qed.
End Settled.
End Index.
End Settling.

(** ** What the fold promises *)


Lemma moved_fields um pv id p : let p' := set_Unmodeled um (set_Provenance pv (set_ID id p)) in
  Property_WireName p' = Property_WireName p ∧ Property_Required p' = Property_Required p ∧ Property_Secret p' = Property_Secret p ∧
  Property_Visibility p' = Property_Visibility p ∧ Property_Constraints p' = Property_Constraints p ∧ Property_Type p' = Property_Type p.
Proof. by destruct p. Qed.

Lemma null_iff {R} (Resolve : R → TypeID → option TypeDef) pl r decls :
  existsb (speaks_of_null Resolve pl r) (indices decls) && admits_null Resolve pl r (indices decls) = true ↔
  (∃ i, i < length decls ∧ speaks_of_null Resolve pl r i = true) ∧
  ∀ i, i < length decls → speaks_of_null Resolve pl r i = true → TypeRef_Nullable (type_of (decl_at pl i)) = true.
Proof.
  unfold indices, admits_null. rewrite andb_true_iff, existsb_exists, forallb_forall. split.
  - intros [(i & Hi & Hs) H]. split; [exists i; apply in_seq in Hi; split; [lia|done]|].
    intros j Hj Hsj. specialize (H j). rewrite Hsj in H. apply H, in_seq. lia.
  - intros [(i & Hi & Hs) H]. split; [exists i; split; [apply in_seq; lia|done]|].
    intros j Hj%in_seq. destruct (speaks_of_null _ _ _ j) eqn:E; [|done]. apply H; [lia|done].
Qed.

Section Promises.
Context (Quote : gostring → gostring) (url_Parse : gostring → option gostring) (WritesReference : gostring → bool).
Context {R : Type} (Resolve : R → TypeID → option TypeDef) (Mint : R → gostring → TypeDef → R * TypeID)
  (Interned : R → gostring → bool) (PropAt : gostring → PropID) (Alike : Provenance → Provenance → bool).
Abbreviation fold := (fold Quote url_Parse WritesReference Resolve Mint Interned PropAt Alike).

(** The field's type is the winner's, one minted within its node's bounds, or the composition. *)
Lemma fold_field_type r r' decls p (log : list report) : fold r decls = (r', p, log) → decls ≠ [] →
  field_type Resolve Mint (settled_plan Quote url_Parse WritesReference Resolve Mint Alike r (judged_of decls) (field_of decls)) r r' (TypeRef_Target (Property_Type p)).
Proof using Type.
  intros Hfold Hne. pose proof (judged_outcome Quote url_Parse WritesReference Resolve Mint Alike r decls Hne) as O.
  rewrite (fold_registry _ _ _ _ _ _ _ _ _ _ _ _ _ Hfold). destruct (fold_eq _ _ _ _ _ _ _ _ _ _ _ _ _ Hfold) as (id & pv & more & -> & _ & _).
  pose proof (o_type _ _ _ _ _ _ _ _ _ O) as H. by destruct (merged _).
Qed.

(** What the property says of a declaration the field lost nothing of: its fields
    agree, its type is held and so is what it says of null, no value its constraints
    refuse is let in by the property's, and each of its entries is there, but where
    one kept verbatim took the key. *)
Record held_by pl r decls p i d : Prop := {
  h_agrees : agrees Quote p (prop d);
  h_type : holds_type Quote Resolve pl r i;
  h_null : TypeRef_Nullable (Property_Type p) = true → speaks_of_null Resolve pl r i = true → TypeRef_Nullable (type_of d) = true;
  h_constraints : no_looser Quote (Property_Constraints p) (Property_Constraints (prop d));
  h_entries : ∀ key e, Property_Unmodeled (prop d) !! key = Some e →
    (∃ e', Property_Unmodeled p !! key = Some e' ∧ (e' = e ∨ sameEntry WritesReference Alike e' e = true)) ∨ ∃ d', d' ∈ decls ∧ key = kept_key d'
}.

Lemma fold_held_by r r' decls p (log : list report) i :
  let pl := settled_plan Quote url_Parse WritesReference Resolve Mint Alike r (judged_of decls) (field_of decls) in
  let f := settled_fold Quote url_Parse WritesReference Resolve Mint Alike r (judged_of decls) (field_of decls) in
  fold r decls = (r', p, log) → decls ≠ [] → (∀ d, d ∈ decls → bounded Resolve r d) → i < length (judged_of decls) → ¬ is_lost f i →
  held_by pl r decls p i (nth_decl (judged_of decls) i).
Proof using Type.
  intros pl f Hfold Hne Hb Hi Hl. pose proof (judged_outcome Quote url_Parse WritesReference Resolve Mint Alike r decls Hne) as O.
  assert (Hb' : ∀ d, d ∈ judged_of decls → bounded Resolve r d) by (intros d Hd; apply Hb, elem_of_parts; by left).
  destruct (o_agrees _ _ _ _ _ _ _ _ _ O i Hi) as [?|[Ha He]]; [done|].
  destruct (fold_eq _ _ _ _ _ _ _ _ _ _ _ _ _ Hfold) as (id & pv & more & Ep & _ & _). fold pl f in Ep.
  match type of Ep with _ = set_Unmodeled ?um (set_Provenance ?v (set_ID ?x ?q)) => destruct (moved_fields um v x q) as (_ & _ & _ & _ & Ec & En) end.
  rewrite <-Ep in Ec, En. constructor.
  - rewrite Ep. by apply agrees_moved.
  - by apply (held_type Quote url_Parse WritesReference Resolve Mint Alike r (judged_of decls) (field_of decls) f O Hb').
  - rewrite En. intros Hn Hs. fold f in O. rewrite (o_null _ _ _ _ _ _ _ _ _ O) in Hn. by apply null_iff in Hn as [_ Hn]; apply Hn.
  - rewrite Ec. by apply (held_constraints Quote url_Parse WritesReference Resolve Mint Alike r (judged_of decls) (field_of decls) f O Hb').
  - intros key e Hk. by apply (carried_entries Quote url_Parse WritesReference Resolve Mint Interned PropAt Alike r r' decls p log Hfold (prop (nth_decl (judged_of decls) i))).
Qed.

(** C3: A fold loses nothing silently. The field's type is the winner's node, or one
    minted within the bounds of the nodes it meets, or one minted that composes each
    model. Every declaration of the first sixty-four then has what it says of use,
    default, examples, docs, deprecation, XML and unmodeled entries said by the
    property, its type held by the property's, its word on null kept, and every value
    its constraints refuse refused by the property's; or it is reported where it is
    written and kept verbatim beside the property, or an error says it could not be.
    One past the sixty-fourth is kept the same way. This is so whatever the registry
    resolves and mints, where no two declarations are written at one place, each
    stands somewhere and renders as something, and the numbers they bound values by
    are texts Go can hold. *)
Theorem fold_loses_nothing (r r' : R) (decls : list declaration) (p : Property) (log : list report)
  (Hfold : fold r decls = (r', p, log)) (Hne : decls ≠ [])
  (Hplace : ∀ d d', d ∈ decls → d' ∈ decls → pointer_of d = pointer_of d' → d = d')
  (Hwrites : ∀ d, d ∈ decls → writes d) (Hbounds : ∀ d, d ∈ decls → bounded Resolve r d) :
  let pl := settled_plan Quote url_Parse WritesReference Resolve Mint Alike r (judged_of decls) (field_of decls) in
  field_type Resolve Mint pl r r' (TypeRef_Target (Property_Type p)) ∧
  ∀ i d, decls !! i = Some d →
    (i < maxFoldDeclarations ∧ held_by pl r decls p i d) ∨
    (kept_verbatim p log d ∧ (i < maxFoldDeclarations → told_of log d)).
Proof using Type.
  intros pl. split; [exact (fold_field_type r r' decls p log Hfold Hne)|]. intros i d Hd.
  assert (Hw : writes d) by (apply Hwrites; by apply list_elem_of_lookup_2 in Hd).
  destruct (decide (i < maxFoldDeclarations)) as [Hi|Hi].
  - destruct (judged_lookup decls i d Hd Hi) as [Hlt Hnth].
    destruct (decide (is_lost (settled_fold Quote url_Parse WritesReference Resolve Mint Alike r (judged_of decls) (field_of decls)) i)) as [Hl|Hl].
    + right. rewrite <-Hnth in Hw |- *.
      destruct (lost_kept Quote url_Parse WritesReference Resolve Mint Interned PropAt Alike r r' decls p log Hfold Hne Hplace i Hlt Hl Hw). by split.
    + left. split; [done|]. rewrite <-Hnth. by apply (fold_held_by r r' decls p log).
  - right. split; [|lia].
    apply (past_kept Quote url_Parse WritesReference Resolve Mint Interned PropAt Alike r r' decls p log Hfold Hne Hplace); [|done].
    apply (past_lookup decls i); [done|lia].
Qed.

(** C37: What the field is used as is decided from all the declarations a fold judges,
    the first sixty-four, whatever their order: it is required where any of them
    requires it, secret where any says so, and seen in a lifecycle where all of them
    are. It is constrained as those whose types the field's holds are, met, and admits
    null where one of those speaks of null and all that do admit it. Its wire name is
    the first's. *)
Theorem fold_use_exact (r r' : R) (decls : list declaration) (p : Property) (log : list report)
  (Hfold : fold r decls = (r', p, log)) (Hne : decls ≠ []) :
  let pl := settled_plan Quote url_Parse WritesReference Resolve Mint Alike r (judged_of decls) (field_of decls) in
  Property_WireName p = Property_WireName (prop (nth_decl decls 0)) ∧
  Property_Required p = existsb (λ d, Property_Required (prop d)) (judged_of decls) ∧
  Property_Secret p = existsb (λ d, Property_Secret (prop d)) (judged_of decls) ∧
  (∀ l, visible (Property_Visibility p) l = forallb (λ d, visible (Property_Visibility (prop d)) l) (judged_of decls)) ∧
  Property_Constraints p = kept (met_constraints pl) ∧
  (TypeRef_Nullable (Property_Type p) = true ↔
     (∃ i, i < length (judged_of decls) ∧ speaks_of_null Resolve pl r i = true) ∧
     ∀ i, i < length (judged_of decls) → speaks_of_null Resolve pl r i = true → TypeRef_Nullable (type_of (nth_decl (judged_of decls) i)) = true).
Proof using Type.
  intros pl. pose proof (judged_outcome Quote url_Parse WritesReference Resolve Mint Alike r decls Hne) as O.
  destruct (fold_eq _ _ _ _ _ _ _ _ _ _ _ _ _ Hfold) as (id & pv & more & Ep & _ & _).
  match type of Ep with _ = set_Unmodeled ?um (set_Provenance ?v (set_ID ?x ?q)) => destruct (moved_fields um v x q) as (E1 & E2 & E3 & E4 & E5 & E6) end.
  rewrite <-Ep in E1, E2, E3, E4, E5, E6. rewrite E1, E2, E3, E4, E5, E6.
  rewrite (o_wire _ _ _ _ _ _ _ _ _ O), (o_required _ _ _ _ _ _ _ _ _ O), (o_secret _ _ _ _ _ _ _ _ _ O), (o_constraints _ _ _ _ _ _ _ _ _ O), (o_null _ _ _ _ _ _ _ _ _ O).
  split_and!; [by destruct decls|done|done|apply (o_visible _ _ _ _ _ _ _ _ _ O)|done|].
  by rewrite null_iff.
Qed.


(** C6: Each model's fields are one per wire name, in the order first declared, and
    settling them always succeeds: a field declared once is the property as it was
    declared, and one declared more is what the fold makes of all its declarations,
    in order. The model's folds are queued once where any field is declared again,
    and never where none is. *)
Theorem settle_fields (r : R) (m : Model) (ds : list declaration) (Hm : Model_Properties m = []) :
  let m1 := (merge_all m ds).1 in
  let idx := (merge_all m ds).2 in
  ∃ r' m' log,
    settle Quote url_Parse WritesReference Resolve Mint Interned PropAt Alike idx r m1 = Some (r', m', log) ∧
    Property_WireName <$> Model_Properties m' = firsts (wire_of <$> ds) ∧
    NoDup (Property_WireName <$> Model_Properties m') ∧
    (∀ w, w ∈ Property_WireName <$> Model_Properties m' ↔ ∃ d, d ∈ ds ∧ wire_of d = w) ∧
    (∀ q, q ∈ Model_Properties m' → match declared ds (Property_WireName q) with
       | [] => False
       | [d] => q = prop d
       | d :: again => folds Quote url_Parse WritesReference Resolve Mint Interned PropAt Alike d again q
       end) ∧
    queued idx = if bool_decide (NoDup (wire_of <$> ds)) then 0 else 1.
Proof using Type.
  pose proof (merge_all_indexes m ds Hm) as known. destruct (merge_all m ds) as [m1 idx]. cbn [fst snd].
  destruct (settle_steps Quote url_Parse WritesReference Resolve Mint Interned PropAt Alike ds m1 idx known (redeclared idx)
    (proj1 (i_again _ _ _ known)) (λ w H, H) r m1 [] (λ n p H _, H)) as (r' & m' & log & Hf & Hlen & Hrest & Hdone).
  assert (Hwires : Property_WireName <$> Model_Properties m' = Property_WireName <$> Model_Properties m1).
  { by apply (settled_wires Quote url_Parse WritesReference Resolve Mint Interned PropAt Alike ds m1 idx known m' Hrest Hdone). }
  exists r', m', log. split_and!; [exact Hf| | | | |].
  - rewrite Hwires. exact (i_order _ _ _ known).
  - rewrite Hwires. by apply (wires_unique ds m1 idx).
  - intros w. rewrite Hwires. by apply (wires_declared ds m1 idx).
  - intros q Hq. by apply (settled_property Quote url_Parse WritesReference Resolve Mint Interned PropAt Alike ds m1 idx known m' Hrest Hdone Hlen).
  - rewrite (i_queued _ _ _ known). destruct (redeclared idx) as [|w again] eqn:E; cbn [is_nil].
    + rewrite bool_decide_true; [done|]. apply nodup_declared. intros w Hw. apply (proj2 (i_again _ _ _ known)) in Hw. rewrite E in Hw. by apply not_elem_of_nil in Hw.
    + rewrite bool_decide_false; [done|]. intros H. apply (proj1 (nodup_declared ds) H w), (proj2 (i_again _ _ _ known)). rewrite E. by left.
Qed.
End Promises.

(** C39: The schema a field's declarations span holds every one of them, and the
    declaration that names the field is one of them: the climb from schema to schema
    always ends, by the document at the latest, since each turn drops a token of the
    pointer. *)
Theorem fieldSpan_holds (decls : list declaration) (Hne : decls ≠ []) (Hrooted : Forall (λ d, rooted (pointer_of d)) decls) :
  Forall (λ d, Contains (fieldSpan decls).1 (pointer_of d) = true) decls ∧ (fieldSpan decls).2 ∈ pointer_of <$> decls.
Proof.
  destruct decls as [|d decls]; [done|]. apply Forall_cons in Hrooted as [Hd Hds]. cbn [fieldSpan].
  destruct (span_holds decls (schemaOf (pointer_of d)) (pointer_of d) [pointer_of d] Hds) as [H1 H2].
  - by apply Forall_singleton.
  - apply Forall_singleton, schemaOf_holds; [done|]. apply Contains_spec. exists []. rewrite app_nil_r. split; [done|by left].
  - by left.
  - split; [|exact H2]. change ([pointer_of d] ++ (pointer_of <$> decls)) with (pointer_of <$> (d :: decls)) in H1. by apply Forall_fmap in H1.
Qed.

(** ** The promises, of a small model *)

Definition declares (w ptr : string) (t : TypeRef) (req : bool) (title : string) : declaration :=
  mkDeclaration (mkProperty [] zeroNaming (go w) ∅ None [] t req [] false false zeroVisibility None None None [] false false false false None []
    (mkDocs (go title) [] [] []) None None ∅ (mkProvenance 0 (go ptr) zeroPosition [] [])) (Some (inl (go ptr))) [].
(** Two branches declare [names], lists of three strings at most and of five. *)
Definition first_names : declaration := declares "names" "/a/allOf/0/properties/names" (to short_id) false "Names".
Definition other_names : declaration := declares "names" "/a/allOf/1/properties/names" (to long_id) true "All names".
Definition age : declaration := declares "age" "/a/allOf/1/properties/age" (to text_id) false "".

(** A registry that mints nothing. *)
Definition small_fold : unit → list declaration → unit * Property * list report :=
  fold (λ t, t) (λ _, None) (λ _, false) (λ _, lists_of_text) (λ r _ _, (r, [])) (λ _ _, false) (λ q, q) (λ _ _, true).

Lemma fold_loses_nothing_witness :
  let '(r', p, log) := small_fold tt [first_names; other_names] in
  Docs_Summary (Property_Docs p) = go "Names" ∧ TypeRef_Target (Property_Type p) = short_id ∧
  kept_verbatim p log other_names ∧ told_of log other_names.
Proof.
  destruct (small_fold tt [first_names; other_names]) as [[r' p] log] eqn:E.
  assert (Es : Docs_Summary (Property_Docs (small_fold tt [first_names; other_names]).1.2) = go "Names") by (vm_compute; reflexivity).
  assert (Et : TypeRef_Target (Property_Type (small_fold tt [first_names; other_names]).1.2) = short_id) by (vm_compute; reflexivity).
  rewrite E in Es, Et. cbn [fst snd] in Es, Et. split; [exact Es|]. split; [exact Et|].
  destruct (fold_loses_nothing (λ t, t) (λ _, None) (λ _, false) (λ _, lists_of_text) (λ r _ _, (r, [])) (λ _ _, false) (λ q, q) (λ _ _, true)
    tt r' [first_names; other_names] p log E) as [_ H].
  - discriminate.
  - intros d d' Hd Hd'. apply elem_of_cons in Hd as [->|Hd]; [|apply list_elem_of_singleton in Hd as ->];
      (apply elem_of_cons in Hd' as [->|Hd']; [|apply list_elem_of_singleton in Hd' as ->]); intros H; first [reflexivity | vm_compute in H; discriminate H].
  - intros d Hd. apply elem_of_cons in Hd as [->|Hd]; [|apply list_elem_of_singleton in Hd as ->]; split; vm_compute; discriminate.
  - intros d Hd. apply elem_of_cons in Hd as [->|Hd]; [|apply list_elem_of_singleton in Hd as ->];
      (split; intros c Hc; vm_compute in Hc; first [discriminate Hc | injection Hc as <-; split; exact I]).
  - destruct (H 1 other_names eq_refl) as [(_ & Ha)|[Hk Ht]].
    + exfalso. assert (Hs := a_summary _ _ _ (h_agrees _ _ _ _ _ _ _ _ _ _ Ha)). rewrite Es in Hs. specialize (Hs ltac:(vm_compute; discriminate)). vm_compute in Hs. discriminate Hs.
    + split; [exact Hk|]. apply Ht. vm_compute. lia.
Defined.

Lemma fold_use_exact_witness : Property_Required (small_fold tt [first_names; other_names]).1.2 = true.
Proof.
  destruct (small_fold tt [first_names; other_names]) as [[r' p] log] eqn:E. cbn [fst snd].
  destruct (fold_use_exact (λ t, t) (λ _, None) (λ _, false) (λ _, lists_of_text) (λ r _ _, (r, [])) (λ _ _, false) (λ q, q) (λ _ _, true)
    tt r' [first_names; other_names] p log E ltac:(discriminate)) as (_ & Hr & _).
  rewrite Hr. reflexivity.
Defined.


Lemma settle_fields_witness : ∃ r' m' log,
  settle (λ t, t) (λ _, None) (λ _, false) (λ _, lists_of_text) (λ r _ _, (r, [])) (λ _ _, false) (λ q, q) (λ _ _, true)
    (merge_all zeroModel [first_names; age; other_names]).2 tt (merge_all zeroModel [first_names; age; other_names]).1 = Some (r', m', log) ∧
  queued (merge_all zeroModel [first_names; age; other_names]).2 = 1 ∧ Property_WireName <$> Model_Properties m' = [go "names"; go "age"].
Proof.
  destruct (settle_fields (λ t, t) (λ _, None) (λ _, false) (λ _, lists_of_text) (λ r _ _, (r, [])) (λ _ _, false) (λ q, q) (λ _ _, true)
    tt zeroModel [first_names; age; other_names] eq_refl) as (r' & m' & log & Hs & Ho & _).
  exists r', m', log. split; [exact Hs|]. split; [vm_compute; reflexivity|exact Ho].
Defined.

Lemma fieldSpan_holds_witness : (fieldSpan [first_names; other_names]).1 = go "/a" ∧
  Contains (go "/a") (pointer_of other_names) = true.
Proof.
  assert (E : (fieldSpan [first_names; other_names]).1 = go "/a") by (vm_compute; reflexivity). split; [exact E|].
  destruct (fieldSpan_holds [first_names; other_names]) as [H _].
  - discriminate.
  - apply Forall_cons. split; [right; eexists; reflexivity|]. apply Forall_singleton. right. eexists. reflexivity.
  - rewrite E in H. apply Forall_cons in H as [_ H]. apply Forall_cons in H as [H _]. exact H.
Defined.
